(* ===== verification/_CoqProject ===== *)
-Q . S2P
Prelude.v
Spsc.v
SpscConc.v
Mpsc.v
MpscQueue.v
SpinLock.v
PipeAlloc.v
RingBuffer.v
ActorId.v
ServiceIdPool.v
Event.v
Router.v
Transport.v
Outbound.v
Scheduler.v
Sync.v
SyncSemaphore.v
SyncMutex.v
SyncRwLock.v
SyncMisc.v
Channel.v
Ask.v
Core.v
Workflow.v
Engine.v
UriPorts.v
Uri.v
Protocol.v
Session.v
SessionProps.v
JsonGuard.v
EvHeap.v
EvTimers.v
EvIo.v
EvIoProps.v
Dedup.v
WorkerPool.v
PubSub.v
Saga.v
Quorum.v
Batcher.v
AskStream.v
Supervisor.v
Breaker.v
Combinators.v
HashPolicy.v
FlatMap.v
FlatMapSlots.v
FlatMapProps.v
NodeMap.v
NodeMapProps.v
FixedString.v
Scope.v
Retry.v
SharedTask.v
ParseNumber.v
Stream.v
StreamProps.v
Generator.v
Cancellation.v
CancellationProps.v
