(* ===== verification/Prelude.v ===== *)
(** * Verification of the qb actor framework

    qb (sources under src/qb) runs actors on cores. A core is a thread with a loop
    ([VirtualCore]); it owns actors, gives them ids, routes events to them, sends events to
    other cores through lock-free mailboxes, and resumes coroutines. [Main] starts the cores.
    This library models these parts as Rocq functions and step relations and proves what each
    promises to the next.

    ** The files, in dependency order

    Data structures.
    - Prelude: machine integers, arrays indexed by [Z], tactics, generic list lemmas.
    - Spsc, SpscConc: system/lockfree/spsc.h, the ring between two threads. First each
      operation as a function, then the bulk operations one memory access at a time.
    - Mpsc: system/lockfree/mpsc.h, one ring per producer, the mailbox of a core.
    - MpscQueue: system/lockfree/mpsc_unbounded_queue.h, all interleavings.
    - SpinLock: system/lockfree/spinlock.h, all interleavings.
    - PipeAlloc: system/allocator/pipe.h and io/pipe.cpp, the growable bucket pipe.
    - RingBuffer: system/container/ring_buffer.h, with constructors that throw.

    Identifiers and events.
    - ActorId: core/ActorId.h, core/CoreSet.cpp. ServiceIdPool: the pool of core/VirtualCore.h.
    - Event: core/Event.h, Event.cpp, Pipe.h, the layout of events in buckets.
    - Router: system/event/router.h, against the interface [Host] of the core that owns it.
    - Transport: the interfaces [Mailbox] and [OutPipe], their implementations by Mpsc and
      PipeAlloc, and the receive path. Outbound: sending, flushing with back-pressure, and
      what happens to events for stopped cores (core/VirtualCore.cpp, core/Main.cpp), proved
      against these interfaces.

    Coroutines, on one thread.
    - Scheduler: io/async/coroutine/scheduler.h and the ownership part of task.h.
    - Sync, SyncSemaphore, SyncMutex, SyncRwLock, SyncMisc: io/async/coroutine/sync.h.
    - Channel: io/async/coroutine/channel.h.
    - Ask: the pending asks of core/Actor.cpp and Actor.h, and cancellation tokens.

    The core.
    - Core: actors on a heap of objects; construction, registration, initialisation, killing
      and removal (core/VirtualCore.cpp, VirtualCore.h, Actor.cpp). User code is a script of
      calls ([call]), which may add actors with scripts of their own.
    - Workflow: the loop of a core on top of Core, Router and Ask. Each turn takes as input the
      time, what resumed coroutines do, and the events received.
    - Engine: the start-up barrier of core/Main.cpp over all interleavings of the core
      threads, and the delivery of signals.

    Coroutines that work together, and values over time.
    - Combinators: when_all, when_any and coro_with_timeout (io/async/coroutine/combinators.h).
    - Scope: coroutine_scope (scope.h). SharedTask: shared_task.h. Retry: retry.h.
    - Cancellation, CancellationProps: the awaiters of cancellation.h over the token of Ask.
    - Stream, StreamProps: stream.h. Generator: generator.h.

    Patterns of actors (core/patterns).
    - Dedup: idempotency.h. WorkerPool: routing.h. PubSub: pubsub.h. Saga: saga.h.
      Quorum: scatter.h. Batcher: aggregate.h. AskStream: streaming.h.
      Supervisor: supervisor.h. Breaker: resilience.h.

    Input and output.
    - Protocol: the framing protocols of io/protocol/base.h and text.h. JsonGuard: the nesting
      guard of io/protocol/json.h.
    - Session, SessionProps: connections (io/async/io.h, buffered_io.h, io/stream.h) on top of
      Protocol, with reads and writes of any size.
    - EvHeap, EvTimers: the timers of the bundled event loop (ev/ev.c). EvIo, EvIoProps: its
      watchers of descriptors and the epoll back end (ev/ev.c, ev/ev_epoll.c) over what the
      kernel documents of its interest list.

    Utilities.
    - UriPorts, Uri: io/uri.h and io/uri.cpp, percent encoding, the URI parser, query
      parameters and path normalisation.
    - HashPolicy, FlatMap, FlatMapSlots, FlatMapProps: vendor/ska_hash/flat_hash_map.hpp.
      NodeMap, NodeMapProps: vendor/ska_hash/unordered_map.hpp, with nodes in a heap.
    - FixedString: string.h. ParseNumber: system/parse.h.

    ** What the theorems show

    - Queues deliver what was put in, in order, without races and without using freed memory
      (Spsc, SpscConc, Mpsc, MpscQueue, PipeAlloc, RingBuffer), by refinement to lists.
    - Events pushed to a core arrive in order and once, whatever the peers do and however full
      the mailboxes are; events that cannot be delivered are disposed of once (Outbound).
    - Routing reaches the subscribers and only them, while handlers subscribe, unsubscribe and
      kill (Router).
    - A core never uses a destroyed actor, hands events to an initialising actor in order once
      it is ready, and removes every killed actor (Workflow); no core runs before all are
      initialised, a start is refused only when a core failed, and signals are delivered once
      (Engine).
    - Frames are resumed in order and freed once, if no coroutine is woken while it executes
      or the loop is not cut short (Scheduler); locks exclude, permits and values
      are conserved (Sync files, Channel); an ask is settled once (Ask).
    - A coroutine that awaits several tasks, joins a scope, shares a task or waits for
      cancellation is woken once and never after its frame is gone, with the result that the
      documentation promises, whatever the order of ends, timers, cancellation and destruction
      (Combinators, Scope, SharedTask, CancellationProps). Pipelines of stream operators and
      of generators give what the same functions on lists give (StreamProps, Generator).
    - The patterns keep their promises: answers are given once and the oldest are forgotten
      first (Dedup), a quorum takes the first answers (Quorum), a breaker opens and probes as
      described as long as its trials report and the clock does not step back (Breaker),
      children are restarted under their limit, and one that is not running was lost in a
      known way (Supervisor), and so on.
    - What is published on a connection is written in order and framed messages are delivered
      whole, in order and once, with bounded buffers, unless the writer was closed for having too
      much unsent (Session, SessionProps).
    - Due timers fire in the order of their times, also while callbacks start and stop timers,
      and the checks of [ev_verify] always hold
      (EvTimers, EvIoProps); once descriptors are reified the kernel watches what the watchers
      ask for, and every reported event reaches them (EvIoProps).
    - The hash maps refine finite maps through growth and erasure (FlatMapProps,
      NodeMapProps), the fixed-size string refines lists of characters with a limit
      (FixedString).
    - URIs that are put together are taken apart again, percent encoding round trips, and a
      normalised absolute path has no dot segments (Uri); numbers are read exactly
      (ParseNumber).
    - Further theorems exhibit runs in which the code does not do what it means to, among
      them: a lost mutex grant or channel wake-up, a stranded reader, a duplicate service that
      leaves dangling handlers, an actor initialised twice, a connection that is closed with
      data unsent, a join that waits for ever, a generator that hides an exception, a breaker
      whose trial is destroyed and that refuses for ever.

    ** Conventions and bounds

    Unsigned integers are [Z] with explicit wrap-around ([u64] and [+s]). Heap addresses are
    integers, exceptions and undefined behaviour are values of a result type, ghost fields
    (logs, counters) are named as such where they are declared. Fuel appears where a loop is
    not structural: the flush of a pipe has one round per bucket and one to stop; the growth of
    a pipe doubles at most 33 times; the removal of killed actors takes at most one pass per
    actor and one to stop; the loops over query strings and paths take one round per character
    at most; a connection takes one round per byte it has buffered and one to stop; a timer
    sinks or rises by at most one level per element, and the timers that are due are at most
    the active ones; growth in [array_nextsize] doubles at most 64 times; a probe, displacement
    or shift in the flat map visits each slot once, an insertion grows the table at most 64
    times, and a walk along a chain of the node map visits each node once; a retry takes one
    round per attempt and one to stop; the steps of a stream or generator are bounded by the
    values that enter; the destruction of nested coroutines is bounded by the coroutines that
    are newer. The bounds are proved enough ([reap_loop_done], [double_until_ends],
    [end_await_killed] and their likes).
    The hash maps have their default load factors. All watchers of descriptors have one
    priority and so have the timers, descriptors are not duplicated, timestamps are any total order.
    Shared memory is sequentially consistent; within a turn of a core time stands still.
    Hypotheses of the theorems are about what is outside: that the hash containers visit each
    element once ([PlatformLaws]), that scripts name services that exist, that fewer than 2^48
    asks or 2^32 signals happen.

    ** Not modelled

    Sockets, TLS, QUIC, cryptography, compression, files, logging and CPU affinity are system
    calls or other libraries. Of the event loop: periodic, idle, signal and child watchers, the
    back ends other than epoll, the phases of ev_run, the Windows paths, and the wrappers of
    io/async/listener.h but for their coroutine part. Left out of the modelled parts: metrics
    and back-off of the core loop, RAII guards, [select()] over several channels, the timed
    operators on streams and back-pressure, the ownership of a parked consumer of an
    async_generator, floating-point conversions and the token bucket of the breaker, the
    variadic forms of the combinators, [yield_or_cancel], copy and move of the chained map.
    json.h and the compile-time helpers are not modelled. *)

From stdpp Require Export base numbers list gmap.
From Stdlib Require Export ZArith Lia.

#[global] Open Scope Z_scope.

(** * Machine integers

    Unsigned integers of the source are [Z] values kept in range by an explicit
    reduction: [std::size_t] and [uint64_t] by [u64], the narrower ones by
    [u32], [u16] and [u8]. *)

Definition u8 (z : Z) : Z := z mod 2 ^ 8.
Definition u16 (z : Z) : Z := z mod 2 ^ 16.
Definition u32 (z : Z) : Z := z mod 2 ^ 32.
Definition u64 (z : Z) : Z := z mod 2 ^ 64.

(** Wrap-around [std::size_t] arithmetic. *)
Declare Scope size_scope.
Delimit Scope size_scope with size.
Notation "a '+s' b" := (u64 (a + b)) (at level 50, left associativity) : size_scope.
Notation "a '-s' b" := (u64 (a - b)) (at level 50, left associativity) : size_scope.
Notation "a '*s' b" := (u64 (a * b)) (at level 40, left associativity) : size_scope.
#[global] Open Scope size_scope.

Definition is_size (z : Z) : Prop := 0 <= z < 2 ^ 64.

(** * Arrays

    A C array, a [std::array] or a [std::vector] is a list indexed by [Z]. [zget]
    is [None] outside the array, [zput] and [zcopy] (the model of a [memcpy] into
    the array) leave cells outside it alone; the theorems show that the modelled
    code stays inside. *)

Definition zlen {A} (l : list A) : Z := Z.of_nat (length l).

Definition zget {A} (l : list A) (i : Z) : option A :=
  if i <? 0 then None else l !! Z.to_nat i.

Definition zput {A} (l : list A) (i : Z) (x : A) : list A :=
  if i <? 0 then l else <[Z.to_nat i := x]> l.

(** The [n] elements of [l] that start at offset [off]. *)
Definition zslice {A} (l : list A) (off n : Z) : list A :=
  take (Z.to_nat n) (drop (Z.to_nat off) l).

(** [memcpy(l + off, src, length src)]. *)
Definition zcopy {A} (l : list A) (off : Z) (src : list A) : list A :=
  list_inserts (Z.to_nat off) src l.

(** [k] copies of [x], the array a fresh allocation of [k] cells gives. *)
Definition zrepeat {A} (x : A) (k : Z) : list A := replicate (Z.to_nat k) x.

(** * Tactics *)

(** Case analysis on the boolean comparisons of the goal. *)
Ltac zcase :=
  repeat match goal with
  | |- context [?a <=? ?b] => destruct (Z.leb_spec a b)
  | |- context [?a <? ?b] => destruct (Z.ltb_spec a b)
  | |- context [?a =? ?b] => destruct (Z.eqb_spec a b)
  end.

(** The same on the hypothesis [H]. *)
Ltac zcase_in H :=
  repeat match type of H with
  | context [?a <=? ?b] => destruct (Z.leb_spec a b)
  | context [?a <? ?b] => destruct (Z.ltb_spec a b)
  | context [?a =? ?b] => destruct (Z.eqb_spec a b)
  end.

(** The same on the goal and every hypothesis. *)
Ltac zcases :=
  repeat match goal with
  | |- context [?a <=? ?b] => destruct (Z.leb_spec a b)
  | |- context [?a <? ?b] => destruct (Z.ltb_spec a b)
  | |- context [?a =? ?b] => destruct (Z.eqb_spec a b)
  | H : context [?a <=? ?b] |- _ => destruct (Z.leb_spec a b)
  | H : context [?a <? ?b] |- _ => destruct (Z.ltb_spec a b)
  | H : context [?a =? ?b] |- _ => destruct (Z.eqb_spec a b)
  end.

(** * Lemmas on machine integers *)

Lemma u64_small (z : Z) : 0 <= z < 2 ^ 64 -> u64 z = z.
Proof. apply Z.mod_small. Qed.

Lemma u32_small (z : Z) : 0 <= z < 2 ^ 32 -> u32 z = z.
Proof. apply Z.mod_small. Qed.

Lemma u16_small (z : Z) : 0 <= z < 2 ^ 16 -> u16 z = z.
Proof. apply Z.mod_small. Qed.

(** Removes wrap-around reductions whose argument is provably in range. *)
Ltac uwrap :=
  repeat match goal with
  | |- context [u64 ?z] => rewrite (u64_small z) by lia
  | |- context [u32 ?z] => rewrite (u32_small z) by lia
  | |- context [u16 ?z] => rewrite (u16_small z) by lia
  end.

Lemma u64_range (z : Z) : 0 <= u64 z < 2 ^ 64.
Proof. apply Z.mod_pos_bound. lia. Qed.

(** [z] reduced once by [2 ^ 64] when it lies in the two words below or above. *)
Lemma u64_neg (z : Z) : - 2 ^ 64 <= z < 0 -> u64 z = z + 2 ^ 64.
Proof.
  intros H. unfold u64. rewrite <- (Z.mod_small (z + 2 ^ 64) (2 ^ 64)) by lia.
  symmetry. rewrite <- (Z_mod_plus_full z 1 (2 ^ 64)). f_equal.
Qed.

Lemma u64_over (z : Z) : 2 ^ 64 <= z < 2 * 2 ^ 64 -> u64 z = z - 2 ^ 64.
Proof.
  intros H. unfold u64. rewrite <- (Z.mod_small (z - 2 ^ 64) (2 ^ 64)) by lia.
  symmetry. rewrite <- (Z_mod_plus_full z (-1) (2 ^ 64)). f_equal.
Qed.

(** Reductions inside a sum are absorbed. *)
Lemma u64_add_l (a b : Z) : u64 (u64 a + b) = u64 (a + b).
Proof. apply Zplus_mod_idemp_l. Qed.

Lemma u64_sub_l (a b : Z) : u64 (u64 a - b) = u64 (a - b).
Proof. apply Zminus_mod_idemp_l. Qed.

(** Reduction modulo a ring size, for an index at most one turn too far. *)
Lemma mod_once (z m : Z) : 0 <= z < 2 * m -> z mod m = if z <? m then z else z - m.
Proof.
  intros H. zcase.
  - apply Z.mod_small. lia.
  - rewrite <- (Z_mod_plus_full z (-1) m).
    replace (z + -1 * m) with (z - m) by lia. apply Z.mod_small. lia.
Qed.

(** A number below [2 ^ n] has no bit from [n] on. *)
Lemma bits_above (a i n : Z) : 0 <= a < 2 ^ n -> 0 <= n <= i -> Z.testbit a i = false.
Proof.
  intros Ha Hi. destruct (decide (a = 0)) as [->|]; [apply Z.bits_0|].
  apply Z.bits_above_log2; [lia|]. apply Z.log2_lt_pow2; [lia|].
  apply (Z.lt_le_trans _ (2 ^ n)); [lia|]. apply Z.pow_le_mono_r; lia.
Qed.

(** * Lemmas on arrays *)

Section Arrays.
Context {A : Type}.
Implicit Types (l k : list A) (i n off : Z) (x : A).

Lemma zlen_nonneg l : 0 <= zlen l.
Proof. unfold zlen. lia. Qed.

Lemma zlen_app l k : zlen (l ++ k) = zlen l + zlen k.
Proof. unfold zlen. rewrite length_app. lia. Qed.

Lemma zlen_put l i x : zlen (zput l i x) = zlen l.
Proof. unfold zlen, zput. zcase; [done|]. by rewrite length_insert. Qed.

Lemma zlen_copy l off k : zlen (zcopy l off k) = zlen l.
Proof. unfold zlen, zcopy. by rewrite length_inserts. Qed.

Lemma zlen_repeat x n : 0 <= n -> zlen (zrepeat x n) = n.
Proof. intros. unfold zlen, zrepeat. rewrite length_replicate. lia. Qed.

Lemma zlen_slice l off n :
  0 <= off -> 0 <= n -> off + n <= zlen l -> zlen (zslice l off n) = n.
Proof. unfold zlen, zslice. intros. rewrite length_take, length_drop. lia. Qed.

Lemma zlen_nil_inv l : zlen l = 0 -> l = [].
Proof. unfold zlen. destruct l; simpl; [done|lia]. Qed.

Lemma zget_None l i : zget l i = None <-> i < 0 \/ zlen l <= i.
Proof.
  unfold zget, zlen. zcase; [intuition lia|].
  rewrite lookup_ge_None. lia.
Qed.

Lemma zget_Some_range l i x : zget l i = Some x -> 0 <= i < zlen l.
Proof.
  intros H. destruct (decide (0 <= i < zlen l)) as [|Hn]; [done|].
  assert (zget l i = None) as E by (apply zget_None; lia). congruence.
Qed.

Lemma zget_in_range l i : 0 <= i < zlen l -> is_Some (zget l i).
Proof.
  intros H. destruct (zget l i) eqn:E; [eauto|].
  apply zget_None in E. lia.
Qed.

Lemma zget_put_eq l i x : 0 <= i < zlen l -> zget (zput l i x) i = Some x.
Proof.
  unfold zget, zput, zlen. intros. zcase; [lia|].
  apply list_lookup_insert_eq. lia.
Qed.

Lemma zget_put_ne l i j x : i <> j -> zget (zput l i x) j = zget l j.
Proof.
  unfold zget, zput. intros. zcase; try done.
  apply list_lookup_insert_ne. lia.
Qed.

Lemma zget_put l i j x :
  0 <= i < zlen l -> zget (zput l i x) j = if j =? i then Some x else zget l j.
Proof. intros. zcase; [subst; by apply zget_put_eq | apply zget_put_ne; lia]. Qed.

Lemma zget_app l k i :
  zget (l ++ k) i = if i <? zlen l then zget l i else zget k (i - zlen l).
Proof.
  unfold zget, zlen. zcase; try lia; try done.
  - by rewrite lookup_app_l by lia.
  - rewrite lookup_app_r by lia. f_equal. lia.
Qed.

Lemma zget_slice l off n i :
  0 <= off -> zget (zslice l off n) i = if i <? n then zget l (if i <? 0 then i else off + i) else None.
Proof.
  unfold zget, zslice. intros. zcase; try lia; try done.
  - rewrite lookup_take_lt by lia. rewrite lookup_drop. f_equal. lia.
  - by rewrite lookup_take_ge by lia.
Qed.

Lemma zget_slice_in l off n i :
  0 <= off -> 0 <= i < n -> zget (zslice l off n) i = zget l (off + i).
Proof. intros. rewrite zget_slice by done. zcase; try lia; done. Qed.

Lemma zget_copy l off k i :
  0 <= off -> off + zlen k <= zlen l ->
  zget (zcopy l off k) i = if (off <=? i) && (i <? off + zlen k) then zget k (i - off) else zget l i.
Proof.
  unfold zget, zcopy, zlen. intros. zcase; simpl; try lia; try done.
  all: first [ rewrite list_lookup_inserts by lia; f_equal; lia
             | apply list_lookup_inserts_ge; lia | apply list_lookup_inserts_lt; lia ].
Qed.

Lemma zget_repeat x n i : zget (zrepeat x n) i = if (0 <=? i) && (i <? n) then Some x else None.
Proof.
  unfold zget, zrepeat. zcase; simpl; try lia; try done.
  - apply lookup_replicate_2. lia.
  - apply lookup_replicate_None. lia.
Qed.

(** Two arrays with the same cells are equal. *)
Lemma zlist_eq l k : (forall i, 0 <= i -> zget l i = zget k i) -> l = k.
Proof.
  intros H. apply list_eq. intros i. specialize (H (Z.of_nat i) ltac:(lia)).
  unfold zget in H. rewrite Nat2Z.id in H. by zcase_in H; [lia|].
Qed.

(** The same for arrays of equal length, by the cells in range. *)
Lemma zlist_eq_len l k :
  zlen l = zlen k -> (forall i, 0 <= i < zlen l -> zget l i = zget k i) -> l = k.
Proof.
  intros Hl H. apply zlist_eq. intros i Hi.
  destruct (decide (i < zlen l)); [apply H; lia|].
  rewrite (proj2 (zget_None l i)), (proj2 (zget_None k i)) by lia. done.
Qed.

Lemma zslice_nil l off n : n <= 0 -> zslice l off n = [].
Proof. intros. unfold zslice. replace (Z.to_nat n) with 0%nat by lia. apply take_0. Qed.

Lemma zslice_all l : zslice l 0 (zlen l) = l.
Proof. unfold zslice, zlen. rewrite Nat2Z.id, drop_0. by apply take_ge. Qed.

Lemma zslice_app l off n m :
  0 <= off -> 0 <= n -> 0 <= m -> zslice l off (n + m) = zslice l off n ++ zslice l (off + n) m.
Proof.
  intros. unfold zslice. rewrite !Z2Nat.inj_add by lia.
  rewrite <- (drop_drop l), take_take_drop. done.
Qed.

(** A slice of [l] is not changed by appending to [l]. *)
Lemma zslice_app_l l k off n :
  0 <= off -> off + n <= zlen l -> zslice (l ++ k) off n = zslice l off n.
Proof.
  intros. apply zlist_eq. intros i Hi. rewrite !zget_slice by lia.
  zcase; try lia; [|done]. rewrite zget_app. zcase; lia || done.
Qed.

(** The slice that starts where [l] ends. *)
Lemma zslice_app_r l k n : zslice (l ++ k) (zlen l) n = zslice k 0 n.
Proof. unfold zslice, zlen. by rewrite Nat2Z.id, drop_app_length, drop_0. Qed.

(** A slice one element longer. *)
Lemma zslice_snoc l off n x :
  0 <= off -> 0 <= n -> zget l (off + n) = Some x -> zslice l off (n + 1) = zslice l off n ++ [x].
Proof.
  intros Ho Hn H. rewrite zslice_app by lia. f_equal.
  unfold zget in H. zcase_in H; [lia|]. unfold zslice.
  erewrite drop_S by exact H. done.
Qed.

Lemma zslice_slice l off n off' n' :
  0 <= off -> 0 <= off' -> 0 <= n' -> off' + n' <= n ->
  zslice (zslice l off n) off' n' = zslice l (off + off') n'.
Proof.
  intros. apply zlist_eq. intros i Hi.
  rewrite !zget_slice by lia. zcase; try lia; [|done]. f_equal. lia.
Qed.

(** Copying [k] into [l] and reading the same range gives [k] back. *)
Lemma zslice_copy_same l off k :
  0 <= off -> off + zlen k <= zlen l -> zslice (zcopy l off k) off (zlen k) = k.
Proof.
  intros. apply zlist_eq_len.
  - apply zlen_slice; rewrite ?zlen_copy; pose proof (zlen_nonneg k); lia.
  - rewrite zlen_slice by (rewrite ?zlen_copy; pose proof (zlen_nonneg k); lia).
    intros i Hi. rewrite zget_slice_in, zget_copy by lia.
    replace (off + i - off) with i by lia. zcase; simpl; try lia; done.
Qed.

Lemma zslice_copy_len l off k n :
  0 <= off -> off + n <= zlen l -> zlen k = n -> zslice (zcopy l off k) off n = k.
Proof. intros ? ? <-. by apply zslice_copy_same. Qed.

(** Two adjacent copies are one copy of the concatenation. *)
Lemma zcopy_app l off k k' :
  0 <= off -> zcopy (zcopy l off k) (off + zlen k) k' = zcopy l off (k ++ k').
Proof.
  intros. unfold zcopy, zlen. rewrite list_inserts_app_l. f_equal. lia.
Qed.

Lemma zcopy_nil l off : zcopy l off [] = l.
Proof. done. Qed.

(** A range the copy does not meet reads the same before and after. *)
Lemma zslice_copy_other l off k off' n :
  0 <= off -> 0 <= off' -> 0 <= n -> off + zlen k <= zlen l -> off' + n <= zlen l ->
  off' + n <= off \/ off + zlen k <= off' ->
  zslice (zcopy l off k) off' n = zslice l off' n.
Proof.
  intros. apply zlist_eq_len; [by rewrite !zlen_slice by (rewrite ?zlen_copy; lia)|].
  rewrite zlen_slice by (rewrite ?zlen_copy; lia). intros i Hi.
  rewrite !zget_slice_in, zget_copy by lia. zcase; simpl; try lia; done.
Qed.

End Arrays.

#[global] Hint Resolve zlen_nonneg : core.

Lemma zlen_nil {A} : zlen (@nil A) = 0.
Proof. done. Qed.

Lemma zlen_one {A} (x : A) : zlen [x] = 1.
Proof. done. Qed.

(** The lengths of arrays that were written to or appended to. *)
Create HintDb zlist discriminated.
#[export] Hint Rewrite @zlen_app @zlen_put @zlen_copy @zlen_nil @zlen_one : zlist.

(** Arithmetic on lengths. *)
Ltac zlens := autorewrite with zlist; try lia.

Lemma filter_all {A} (P : A -> Prop) `{forall x, Decision (P x)} (l : list A) :
  (forall x, x ∈ l -> P x) -> filter P l = l.
Proof.
  induction l as [|x l IH]; intros HP; [done|]. rewrite filter_cons_True by (apply HP; by left).
  f_equal. apply IH. intros y Hy. apply HP. by right.
Qed.

Lemma filter_none {A} (P : A -> Prop) `{forall x, Decision (P x)} (l : list A) :
  (forall x, x ∈ l -> ~ P x) -> filter P l = [].
Proof.
  induction l as [|x l IH]; intros HP; [done|]. rewrite filter_cons_False by (apply HP; by left).
  apply IH. intros y Hy. apply HP. by right.
Qed.

Lemma filter_ext_in {A} (P P' : A -> Prop) `{forall x, Decision (P x)} `{forall x, Decision (P' x)} (l : list A) :
  (forall x, x ∈ l -> P x <-> P' x) -> filter P l = filter P' l.
Proof.
  induction l as [|x l IH]; intros Heq; [done|]. rewrite !filter_cons.
  assert (filter P l = filter P' l) as -> by (apply IH; intros y Hy; apply Heq; by right).
  assert (P x <-> P' x) by (apply Heq; by left). do 2 case_decide; tauto || done.
Qed.

(** Removing one element from a filter. *)
Lemma filter_remove_one {A} (P P' : A -> Prop) `{forall x, Decision (P x)} `{forall x, Decision (P' x)}
    (l : list A) (s : A) :
  NoDup l -> s ∈ l -> P s -> (forall x, x ∈ l -> P' x <-> P x /\ x <> s) ->
  zlen (filter P' l) = zlen (filter P l) - 1.
Proof.
  intros Hnd. induction Hnd as [|y l Hy Hnd IH]; intros Hs HP Heq; [by apply elem_of_nil in Hs|].
  apply elem_of_cons in Hs as [<-|Hs].
  - rewrite (filter_cons_False P') by (rewrite Heq by (by left); tauto). rewrite filter_cons_True by done.
    assert (filter P' l = filter P l) as ->; [|unfold zlen; simpl; lia].
    apply filter_ext_in. intros x Hx. rewrite Heq by (by right).
    split; [tauto|]. intros ?. split; [done|]. by intros ->.
  - assert (y <> s) by (by intros ->). rewrite !filter_cons.
    assert (P' y <-> P y) as Hyy by (rewrite Heq by (by left); tauto).
    assert (zlen (filter P' l) = zlen (filter P l) - 1) as IHl by (apply IH; auto; intros x Hx; apply Heq; by right).
    unfold zlen in *. do 2 case_decide; simpl; tauto || lia.
Qed.

(** * Removal by swapping with the back

    [*it = std::move(v.back()); v.pop_back();] at the first element that satisfies [P]. *)

Definition swap_remove {A} (P : A -> Prop) `{forall x, Decision (P x)} (l : list A) : list A :=
  match list_find P l, last l with
  | Some (i, _), Some b => removelast (<[i := b]> l)
  | _, _ => l
  end.

Lemma swap_remove_spec {A} (P : A -> Prop) `{forall x, Decision (P x)} (l : list A) :
  (exists x, P x /\ l ≡ₚ x :: swap_remove P l) \/ ((forall x, x ∈ l -> ~ P x) /\ swap_remove P l = l).
Proof.
  unfold swap_remove. destruct (list_find P l) as [[i x]|] eqn:E.
  - left. apply list_find_Some in E as (Hi & HP & _). exists x. split; [done|].
    apply list_elem_of_split_length in Hi as (l1 & l2 & -> & ->).
    assert (forall b, <[length l1 := b]> (l1 ++ x :: l2) = l1 ++ b :: l2) as Hins
      by (intros b; by rewrite insert_app_r_alt, Nat.sub_diag by done).
    destruct (last (l1 ++ x :: l2)) as [b|] eqn:El; [|apply last_None in El; by destruct l1].
    rewrite Hins. destruct l2 as [|c l2 _] using rev_ind.
    + rewrite last_snoc in El. injection El as <-. rewrite removelast_last. by rewrite Permutation_app_comm.
    + rewrite app_comm_cons, app_assoc, last_snoc in El. injection El as <-.
      rewrite (app_comm_cons l2 [c] c), (app_assoc l1 (c :: l2)), removelast_last. solve_Permutation.
  - right. apply list_find_None in E. rewrite Forall_forall in E. split; [|done]. intros y Hy. by apply E.
Qed.

(** With distinct keys, exactly the entry with the key goes. *)
Lemma swap_remove_key {A B} (f : A -> B) `{EqDecision B} (k : B) (l : list A) :
  NoDup (f <$> l) ->
  NoDup (f <$> swap_remove (fun x => f x = k) l) /\ forall x, x ∈ swap_remove (fun x => f x = k) l <-> x ∈ l /\ f x <> k.
Proof.
  intros Hnd. destruct (swap_remove_spec (fun x => f x = k) l) as [(x & Hx & Hp)|[Hn ->]].
  - rewrite Hp in Hnd. apply NoDup_cons in Hnd as [Hx' Hnd]. split; [done|]. intros y. rewrite Hp at 2. rewrite elem_of_cons. split.
    + intros Hy. split; [by right|]. intros Hk. apply Hx'. assert (f x = f y) as -> by congruence. by apply list_elem_of_fmap_2.
    + intros [[->|Hy] Hk]; [done|done].
  - split; [done|]. intros y. split; [intros Hy; split; [done|by apply Hn]|by intros [? _]].
Qed.
