(* ===== verification/Spsc.v ===== *)
(** Single-producer single-consumer ring buffer (src/qb/system/lockfree/spsc.h).

    The index arithmetic and the bulk operations of [internal::ringbuffer], and the two
    public classes that wrap them (the compile-time size and the run-time size). The
    [std::array] or heap array is a list, an index a [Z] with [std::size_t] wrap-around.
    The sequential theorems state each operation against the FIFO queue [contents]. *)

From S2P Require Import Prelude.

Section Ring.
Context {A : Type}.

(** The two atomic indices of [internal::ringbuffer]. *)
Record indices := Indices { write_index_ : Z; read_index_ : Z }.

(** [ringbuffer()]: both indices start at zero. *)
Definition init : indices := Indices 0 0.

Definition next_index (arg max_size : Z) : Z :=
  let next := arg +s 1 in
  if next <? max_size then next else 0.

Definition read_available (write_index read_index max_size : Z) : Z :=
  if read_index <=? write_index then write_index -s read_index
  else write_index +s max_size -s read_index.

Definition write_available (write_index read_index max_size : Z) : Z :=
  let ret := read_index -s write_index -s 1 in
  if read_index <=? write_index then ret +s max_size else ret.

(** The member overloads, which load both indices first. *)
Definition read_available_now (s : indices) (max_size : Z) : Z :=
  read_available (write_index_ s) (read_index_ s) max_size.

Definition write_available_now (s : indices) (max_size : Z) : Z :=
  write_available (write_index_ s) (read_index_ s) max_size.

(** [bool enqueue(T const &t, T *buffer, size_t const max_size)] *)
Definition enqueue (t : A) (s : indices) (buffer : list A) (max_size : Z) : bool * indices * list A :=
  let write_index := write_index_ s in
  let next := next_index write_index max_size in
  if next =? read_index_ s then (false, s, buffer)
  else (true, Indices next (read_index_ s), zput buffer write_index t).

(** [template <bool _All> size_t enqueue(const T *, size_t, T *, size_t)]: [input] is the
    caller's array of [input_count] elements. *)
Definition enqueue_bulk (_All : bool) (input : list A) (s : indices) (buffer : list A) (max_size : Z)
  : Z * indices * list A :=
  let write_index := write_index_ s in
  let read_index := read_index_ s in
  let avail := write_available write_index read_index max_size in
  if (if _All then avail <? zlen input else avail =? 0) then (0, s, buffer)
  else
    let input_count := if _All then zlen input else Z.min (zlen input) avail in
    let new_write_index := write_index +s input_count in
    if max_size <? write_index +s input_count then
      let count0 := max_size -s write_index in
      let count1 := input_count -s count0 in
      let buffer := zcopy buffer write_index (zslice input 0 count0) in
      let buffer := zcopy buffer 0 (zslice input count0 count1) in
      (input_count, Indices (new_write_index -s max_size) read_index, buffer)
    else
      let buffer := zcopy buffer write_index (zslice input 0 input_count) in
      let new_write_index := if new_write_index =? max_size then 0 else new_write_index in
      (input_count, Indices new_write_index read_index, buffer).

(** [size_t dequeue(T *output_buffer, size_t, T *, size_t)]: [output_buffer] is a pointer
    into [out] at offset [ret]; the result carries the updated [out]. *)
Definition dequeue (out : list A) (ret output_count : Z) (s : indices) (buffer : list A) (max_size : Z)
  : Z * list A * indices :=
  let write_index := write_index_ s in
  let read_index := read_index_ s in
  let avail := read_available write_index read_index max_size in
  if avail =? 0 then (0, out, s)
  else
    let output_count := Z.min output_count avail in
    let new_read_index := read_index +s output_count in
    if max_size <? read_index +s output_count then
      let count0 := max_size -s read_index in
      let count1 := output_count -s count0 in
      let out := zcopy out ret (zslice buffer read_index count0) in
      let out := zcopy out (ret + count0) (zslice buffer 0 count1) in
      (output_count, out, Indices write_index (new_read_index -s max_size))
    else
      let out := zcopy out ret (zslice buffer read_index output_count) in
      let new_read_index := if new_read_index =? max_size then 0 else new_read_index in
      (output_count, out, Indices write_index new_read_index).

(** [consume_all(functor, internal_buffer, max_size)]: the functor is a step on the
    caller's state, applied to each segment of the ring storage it is given. *)
Definition consume_all {S : Type} (functor : S -> list A -> S) (st : S)
    (s : indices) (buffer : list A) (max_size : Z) : Z * S * indices :=
  let write_index := write_index_ s in
  let read_index := read_index_ s in
  let avail := read_available write_index read_index max_size in
  if avail =? 0 then (0, st, s)
  else
    let output_count := avail in
    let new_read_index := read_index +s output_count in
    if max_size <? read_index +s output_count then
      let count0 := max_size -s read_index in
      let count1 := output_count -s count0 in
      let st := functor st (zslice buffer read_index count0) in
      let st := functor st (zslice buffer 0 count1) in
      (output_count, st, Indices write_index (new_read_index -s max_size))
    else
      let st := functor st (zslice buffer read_index output_count) in
      let new_read_index := if new_read_index =? max_size then 0 else new_read_index in
      (output_count, st, Indices write_index new_read_index).

Definition front (s : indices) (buffer : list A) : option A := zget buffer (read_index_ s).

Definition empty (s : indices) : bool := write_index_ s =? read_index_ s.

(** ** The public classes

    [ringbuffer<T, _MaxSize>] owns a [std::array] of [_MaxSize + 1] cells,
    [ringbuffer<T, 0>] a heap array of [max_size + 1]; both add one cell to the requested
    size and pass their array and its size to the operations above. *)

Record ringbuffer := Ringbuffer { idx : indices; array_ : list A; max_size_ : Z }.

(** [explicit ringbuffer(size_t const max_size)]; [cells] is the fresh array. *)
Definition make (max_size : Z) (cells : list A) : ringbuffer := Ringbuffer init cells (max_size +s 1).

Definition rb_enqueue (t : A) (b : ringbuffer) : bool * ringbuffer :=
  let '(ok, s, buffer) := enqueue t (idx b) (array_ b) (max_size_ b) in
  (ok, Ringbuffer s buffer (max_size_ b)).

Definition rb_enqueue_bulk (_All : bool) (t : list A) (b : ringbuffer) : Z * ringbuffer :=
  let '(n, s, buffer) := enqueue_bulk _All t (idx b) (array_ b) (max_size_ b) in
  (n, Ringbuffer s buffer (max_size_ b)).

Definition rb_dequeue (out : list A) (ret size : Z) (b : ringbuffer) : Z * list A * ringbuffer :=
  let '(n, out, s) := dequeue out ret size (idx b) (array_ b) (max_size_ b) in
  (n, out, Ringbuffer s (array_ b) (max_size_ b)).

(** [bool dequeue(T *ret)]: one element; the count converted to [bool]. *)
Definition rb_dequeue_one (out : list A) (b : ringbuffer) : bool * list A * ringbuffer :=
  let '(n, out, b) := rb_dequeue out 0 1 b in
  (negb (n =? 0), out, b).

(** [size_t dequeue(Func const &func, T *ret, size_t size)]: copies out, then calls [func]
    once on the copied prefix of [ret] when there is one. *)
Definition rb_dequeue_func {S : Type} (func : S -> list A -> S) (st : S)
    (ret : list A) (size : Z) (b : ringbuffer) : Z * S * list A * ringbuffer :=
  let '(nb_consume, ret, b) := rb_dequeue ret 0 size b in
  let st := if nb_consume =? 0 then st else func st (zslice ret 0 nb_consume) in
  (nb_consume, st, ret, b).

Definition rb_consume_all {S : Type} (func : S -> list A -> S) (st : S) (b : ringbuffer) : Z * S * ringbuffer :=
  let '(n, st, s) := consume_all func st (idx b) (array_ b) (max_size_ b) in
  (n, st, Ringbuffer s (array_ b) (max_size_ b)).

Definition rb_empty (b : ringbuffer) : bool := empty (idx b).

(** ** Specification: a bounded FIFO queue *)

(** Number of elements between the read and the write index. *)
Definition occupancy (s : indices) (max_size : Z) : Z :=
  if read_index_ s <=? write_index_ s then write_index_ s - read_index_ s
  else write_index_ s + max_size - read_index_ s.

(** Physical cell of the [k]-th element counted from index [r]. *)
Definition ring_pos (r k max_size : Z) : Z := if r + k <? max_size then r + k else r + k - max_size.

(** The queue a ring represents, oldest element first. *)
Definition contents (s : indices) (buffer : list A) (max_size : Z) : list A :=
  let n := occupancy s max_size in
  if read_index_ s + n <=? max_size then zslice buffer (read_index_ s) n
  else zslice buffer (read_index_ s) (max_size - read_index_ s)
       ++ zslice buffer 0 (n - (max_size - read_index_ s)).

(** The representation invariant: indices in range of an allocated array. *)
Record ring_ok (s : indices) (buffer : list A) (max_size : Z) : Prop := RingOk {
  ring_max : max_size <= 2 ^ 63;
  ring_w : 0 <= write_index_ s < max_size;
  ring_r : 0 <= read_index_ s < max_size;
  ring_len : zlen buffer = max_size
}.

Definition rb_ok (b : ringbuffer) : Prop := ring_ok (idx b) (array_ b) (max_size_ b).
Definition rb_contents (b : ringbuffer) : list A := contents (idx b) (array_ b) (max_size_ b).

End Ring.

Arguments ringbuffer : clear implicits.

(** * The index arithmetic, free of wrap-around *)

Section Facts.
Context {A : Type}.
Implicit Types (s : indices) (buffer input out : list A) (max_size k n : Z).

Ltac ring_start H := destruct H as [Hmax Hw Hr Hlen]; simpl in *.

Lemma next_index_pos w max_size :
  0 <= w < max_size -> max_size <= 2 ^ 63 -> next_index w max_size = ring_pos w 1 max_size.
Proof. intros. unfold next_index, ring_pos. uwrap. zcase; lia. Qed.

Lemma read_available_eq s max_size :
  0 <= write_index_ s < max_size -> 0 <= read_index_ s < max_size -> max_size <= 2 ^ 63 ->
  read_available (write_index_ s) (read_index_ s) max_size = occupancy s max_size.
Proof. intros. unfold read_available, occupancy. zcase; uwrap; lia. Qed.

Lemma write_available_eq s max_size :
  0 <= write_index_ s < max_size -> 0 <= read_index_ s < max_size -> max_size <= 2 ^ 63 ->
  write_available (write_index_ s) (read_index_ s) max_size = max_size - 1 - occupancy s max_size.
Proof.
  intros. unfold write_available, occupancy. zcase; cycle 1.
  { uwrap. lia. }
  destruct (decide (read_index_ s = write_index_ s)).
  - rewrite (u64_small (read_index_ s - _)) by lia. rewrite (u64_neg (_ - 1)) by lia.
    rewrite u64_over by lia. lia.
  - rewrite (u64_neg (read_index_ s - _)) by lia. rewrite (u64_small (_ - 1)) by lia.
    rewrite u64_over by lia. lia.
Qed.

Lemma occupancy_range s buffer max_size :
  ring_ok s buffer max_size -> 0 <= occupancy s max_size < max_size.
Proof. intros H. ring_start H. unfold occupancy. zcase; lia. Qed.

Lemma zlen_contents s buffer max_size :
  ring_ok s buffer max_size -> zlen (contents s buffer max_size) = occupancy s max_size.
Proof.
  intros H. pose proof (occupancy_range _ _ _ H). ring_start H. unfold contents. zcase.
  - apply zlen_slice; lia.
  - rewrite zlen_app, !zlen_slice by lia. lia.
Qed.

(** The [k]-th queued element lives [k] cells after the read index, around the ring. *)
Lemma contents_get s buffer max_size k :
  ring_ok s buffer max_size -> 0 <= k < occupancy s max_size ->
  zget (contents s buffer max_size) k = zget buffer (ring_pos (read_index_ s) k max_size).
Proof.
  intros H Hk. pose proof (occupancy_range _ _ _ H). ring_start H.
  unfold contents, ring_pos. zcase; try lia.
  - apply zget_slice_in; lia.
  - rewrite zget_app, zlen_slice by lia. zcase; [|lia]. apply zget_slice_in; lia.
  - rewrite zget_app, zlen_slice by lia. zcase; [lia|].
    rewrite zget_slice_in by lia. f_equal. lia.
Qed.

(** Two ways a later state can hold the old queue with [input] appended or a prefix
    dropped; both by comparing cells. *)
Lemma contents_extend s s' buffer buffer' max_size input :
  ring_ok s buffer max_size -> ring_ok s' buffer' max_size ->
  read_index_ s' = read_index_ s ->
  occupancy s' max_size = occupancy s max_size + zlen input ->
  (forall k, 0 <= k < occupancy s max_size ->
     zget buffer' (ring_pos (read_index_ s) k max_size) = zget buffer (ring_pos (read_index_ s) k max_size)) ->
  (forall k, 0 <= k < zlen input ->
     zget buffer' (ring_pos (read_index_ s) (occupancy s max_size + k) max_size) = zget input k) ->
  contents s' buffer' max_size = contents s buffer max_size ++ input.
Proof.
  intros H H' Hr Ho Hold Hnew. apply zlist_eq_len.
  { rewrite zlen_app, !zlen_contents by done. done. }
  rewrite zlen_contents by done. intros k Hk.
  rewrite contents_get, zget_app, zlen_contents by done. rewrite Hr. zcase.
  - rewrite Hold, contents_get by (done || lia). done.
  - rewrite <- Hnew by lia. do 2 f_equal. lia.
Qed.

Lemma contents_shrink s s' buffer max_size n :
  ring_ok s buffer max_size -> ring_ok s' buffer max_size -> 0 <= n <= occupancy s max_size ->
  read_index_ s' = ring_pos (read_index_ s) n max_size ->
  occupancy s' max_size = occupancy s max_size - n ->
  contents s' buffer max_size = zslice (contents s buffer max_size) n (occupancy s max_size - n).
Proof.
  intros H H' Hn Hri Ho. apply zlist_eq_len.
  { rewrite zlen_slice; rewrite ?zlen_contents by done; lia. }
  rewrite zlen_contents by done. intros k Hk.
  rewrite contents_get, zget_slice_in, contents_get by (done || lia).
  f_equal. rewrite Hri. pose proof (occupancy_range _ _ _ H). ring_start H.
  unfold ring_pos. zcase; lia.
Qed.

(** ** Single enqueue *)

Lemma enqueue_spec t s buffer max_size :
  ring_ok s buffer max_size ->
  let '(ok, s', buffer') := enqueue t s buffer max_size in
  ring_ok s' buffer' max_size /\
  ok = negb (zlen (contents s buffer max_size) =? max_size - 1) /\
  contents s' buffer' max_size
    = if ok then contents s buffer max_size ++ [t] else contents s buffer max_size.
Proof.
  intros H. rewrite (zlen_contents _ _ _ H). unfold enqueue.
  pose proof H as HR. ring_start HR. rewrite next_index_pos by lia.
  destruct (Z.eqb_spec (ring_pos (write_index_ s) 1 max_size) (read_index_ s)) as [E|E].
  { split; [done|]. split; [|done].
    unfold ring_pos in E. zcase_in E; unfold occupancy; zcase; try lia; done. }
  assert (occupancy s max_size <> max_size - 1) as Hfull
    by (unfold ring_pos in E; zcase_in E; unfold occupancy; zcase; lia).
  set (s' := Indices _ _). assert (ring_ok s' (zput buffer (write_index_ s) t) max_size) as H'.
  { split; simpl; autorewrite with zlist; try done; unfold ring_pos; zcase; lia. }
  split; [done|]. split; [by destruct (Z.eqb_spec (occupancy s max_size) (max_size - 1))|].
  apply contents_extend; try done; unfold zlen; simpl.
  - unfold occupancy, ring_pos in *; simpl; zcase; lia.
  - intros k Hk. rewrite zget_put by lia. unfold occupancy, ring_pos in *; zcases; lia || done.
  - intros k Hk. replace k with 0 by lia. rewrite zget_put by lia.
    unfold occupancy, ring_pos in *; zcases; lia || done.
Qed.
(** ** Bulk enqueue *)

(** How many elements a bulk enqueue takes: all or nothing, or as many as fit. *)
Definition accepted (_All : bool) (input_count free : Z) : Z :=
  if _All then (if free <? input_count then 0 else input_count) else Z.min input_count free.

(** The copy itself, once the number [n] of elements to write is known to fit. *)
Lemma bulk_copy_spec s buffer max_size input :
  ring_ok s buffer max_size -> zlen input <= max_size - 1 - occupancy s max_size ->
  let w := write_index_ s in let n := zlen input in
  let '(s', buffer') :=
    if max_size <? w + n
    then (Indices (w + n - max_size) (read_index_ s),
          zcopy (zcopy buffer w (zslice input 0 (max_size - w))) 0 (zslice input (max_size - w) (n - (max_size - w))))
    else (Indices (if w + n =? max_size then 0 else w + n) (read_index_ s), zcopy buffer w input) in
  ring_ok s' buffer' max_size /\ contents s' buffer' max_size = contents s buffer max_size ++ input.
Proof.
  intros H Hfit w n. pose proof (occupancy_range _ _ _ H) as Ho. pose proof (zlen_nonneg input).
  pose proof H as HR. ring_start HR. subst w n. destruct (Z.ltb_spec max_size (write_index_ s + zlen input)).
  - set (c0 := max_size - write_index_ s).
    assert (zlen (zslice input 0 c0) = c0) as Hl0 by (apply zlen_slice; unfold occupancy in *; zcases; lia).
    assert (zlen (zslice input c0 (zlen input - c0)) = zlen input - c0) as Hl1 by (apply zlen_slice; lia).
    assert (ring_ok (Indices (write_index_ s + zlen input - max_size) (read_index_ s))
      (zcopy (zcopy buffer (write_index_ s) (zslice input 0 c0)) 0 (zslice input c0 (zlen input - c0))) max_size).
    { split; simpl; autorewrite with zlist; try done; unfold occupancy in *; zcases; lia. }
    split; [done|]. apply contents_extend; try done; simpl.
    + unfold occupancy in *; simpl; zcases; lia.
    + intros k Hk. rewrite !zget_copy by (rewrite ?zlen_copy; lia). rewrite Hl0, Hl1.
      unfold occupancy, ring_pos in *; zcases; simpl; lia || done.
    + intros k Hk. rewrite !zget_copy by (rewrite ?zlen_copy; lia). rewrite Hl0, Hl1.
      rewrite !zget_slice by lia.
      unfold occupancy, ring_pos in *; zcases; simpl; try lia; f_equal; lia.
  - assert (ring_ok (Indices (if write_index_ s + zlen input =? max_size then 0 else write_index_ s + zlen input)
      (read_index_ s)) (zcopy buffer (write_index_ s) input) max_size).
    { split; simpl; autorewrite with zlist; try done; unfold occupancy in *; zcases; lia. }
    split; [done|]. apply contents_extend; try done; simpl.
    + unfold occupancy in *; simpl; zcases; lia.
    + intros k Hk. rewrite zget_copy by lia. unfold occupancy, ring_pos in *; zcases; simpl; lia || done.
    + intros k Hk. rewrite zget_copy by lia.
      unfold occupancy, ring_pos in *; zcases; simpl; try lia; f_equal; lia.
Qed.

Lemma enqueue_bulk_spec _All input s buffer max_size :
  ring_ok s buffer max_size -> zlen input < 2 ^ 64 ->
  let '(n, s', buffer') := enqueue_bulk _All input s buffer max_size in
  ring_ok s' buffer' max_size /\
  n = accepted _All (zlen input) (max_size - 1 - zlen (contents s buffer max_size)) /\
  contents s' buffer' max_size = contents s buffer max_size ++ zslice input 0 n.
Proof.
  intros H Hin. rewrite (zlen_contents _ _ _ H). unfold enqueue_bulk.
  pose proof (occupancy_range _ _ _ H) as Ho. pose proof (zlen_nonneg input).
  pose proof H as HR. ring_start HR. rewrite write_available_eq by lia.
  set (free := max_size - 1 - occupancy s max_size).
  destruct (if _All then free <? zlen input else free =? 0) eqn:E.
  { split; [done|]. split; [|rewrite zslice_nil by lia; by rewrite app_nil_r].
    unfold accepted. destruct _All; [by rewrite E|]. zcase_in E; [lia|done]. }
  set (n := if _All then zlen input else Z.min (zlen input) free).
  assert (n = accepted _All (zlen input) free) as En.
  { unfold n, accepted. destruct _All; [|done]. by rewrite E. }
  assert (0 <= n <= free) as Hn by (rewrite En; unfold accepted; destruct _All; zcase; lia).
  assert (n <= zlen input) as Hni by (rewrite En; unfold accepted; destruct _All; zcase; lia).
  pose proof (bulk_copy_spec s buffer max_size (zslice input 0 n) H) as HC.
  rewrite zlen_slice in HC by lia. specialize (HC ltac:(lia)). simpl in HC.
  rewrite (u64_small (write_index_ s + n)) by lia.
  destruct (Z.ltb_spec max_size (write_index_ s + n)).
  - rewrite (u64_small (_ - write_index_ s)) by lia. rewrite (u64_small (n - _)) by lia.
    rewrite (u64_small (_ - max_size)) by lia.
    rewrite !zslice_slice in HC by lia. destruct HC as [HC1 HC2]. rewrite <- En. done.
  - destruct HC as [HC1 HC2]. rewrite <- En. done.
Qed.

(** ** Bulk dequeue *)

(** The first [n] queued elements, as the (at most two) segments of storage they occupy. *)
Lemma contents_prefix s buffer max_size n :
  ring_ok s buffer max_size -> 0 <= n <= occupancy s max_size ->
  zslice (contents s buffer max_size) 0 n =
    if max_size <? read_index_ s + n
    then zslice buffer (read_index_ s) (max_size - read_index_ s)
         ++ zslice buffer 0 (n - (max_size - read_index_ s))
    else zslice buffer (read_index_ s) n.
Proof.
  intros H Hn. pose proof (occupancy_range _ _ _ H). pose proof H as HR. ring_start HR.
  apply zlist_eq_len.
  { rewrite zlen_slice by (rewrite ?zlen_contents by done; lia). zcase.
    - rewrite zlen_app, !zlen_slice by lia. lia.
    - rewrite zlen_slice by lia. done. }
  rewrite zlen_slice by (rewrite ?zlen_contents by done; lia). intros k Hk.
  rewrite zget_slice_in, contents_get by (done || lia). unfold ring_pos.
  destruct (Z.ltb_spec max_size (read_index_ s + n)).
  - rewrite zget_app, zlen_slice by lia. zcase; rewrite ?zget_slice_in by lia; try lia; f_equal; lia.
  - rewrite zget_slice_in by lia. zcase; [f_equal; lia|].
    rewrite !(proj2 (zget_None _ _)); [done|lia|lia].
Qed.

(** Advancing the read index by [n] drops [n] elements. *)
Lemma advance_read_spec s buffer max_size n :
  ring_ok s buffer max_size -> 0 <= n <= occupancy s max_size ->
  let s' := Indices (write_index_ s)
    (if max_size <? read_index_ s + n then read_index_ s + n - max_size
     else if read_index_ s + n =? max_size then 0 else read_index_ s + n) in
  ring_ok s' buffer max_size /\
  contents s' buffer max_size = zslice (contents s buffer max_size) n (occupancy s max_size - n).
Proof.
  intros H Hn s'. pose proof H as HR. ring_start HR.
  assert (ring_ok s' buffer max_size).
  { split; simpl; try done; unfold occupancy in *; zcases; lia. }
  split; [done|]. apply contents_shrink; try done; subst s'; simpl;
    unfold ring_pos, occupancy in *; simpl; zcases; lia.
Qed.

Lemma dequeue_spec out ret output_count s buffer max_size :
  ring_ok s buffer max_size -> 0 <= output_count < 2 ^ 64 -> 0 <= ret ->
  let len := zlen (contents s buffer max_size) in
  let '(n, out', s') := dequeue out ret output_count s buffer max_size in
  ring_ok s' buffer max_size /\ n = Z.min output_count len /\
  out' = zcopy out ret (zslice (contents s buffer max_size) 0 n) /\
  contents s' buffer max_size = zslice (contents s buffer max_size) n (len - n).
Proof.
  intros H Hc Hret len. subst len. rewrite (zlen_contents _ _ _ H). unfold dequeue.
  pose proof (occupancy_range _ _ _ H) as Ho. pose proof H as HR. ring_start HR.
  rewrite read_available_eq by lia. destruct (Z.eqb_spec (occupancy s max_size) 0) as [E|E].
  { assert (contents s buffer max_size = []) as -> by (apply zlen_nil_inv; rewrite zlen_contents by done; lia).
    rewrite !E. split; [done|]. split; [lia|]. done. }
  set (n := Z.min output_count (occupancy s max_size)). assert (0 <= n <= occupancy s max_size) by lia.
  rewrite (u64_small (read_index_ s + n)) by lia.
  pose proof (contents_prefix s buffer max_size n H ltac:(lia)) as HP.
  pose proof (advance_read_spec s buffer max_size n H ltac:(lia)) as [HA1 HA2].
  destruct (Z.ltb_spec max_size (read_index_ s + n)).
  - rewrite !(u64_small (max_size - read_index_ s)), !(u64_small (n - _)), (u64_small (_ - max_size)) by lia.
    split; [done|]. split; [done|]. split; [|done]. rewrite HP, <- zcopy_app by done.
    by rewrite zlen_slice by lia.
  - split; [done|]. split; [done|]. split; [by rewrite HP|done].
Qed.

(** ** Draining in place *)

(** The segments [consume_all] hands to its functor. *)
Definition segments s buffer max_size : list (list A) :=
  let n := occupancy s max_size in
  if n =? 0 then []
  else if max_size <? read_index_ s + n
  then [zslice buffer (read_index_ s) (max_size - read_index_ s);
        zslice buffer 0 (n - (max_size - read_index_ s))]
  else [zslice buffer (read_index_ s) n].

Lemma consume_all_spec {S} (functor : S -> list A -> S) st s buffer max_size :
  ring_ok s buffer max_size ->
  let '(n, st', s') := consume_all functor st s buffer max_size in
  ring_ok s' buffer max_size /\ n = zlen (contents s buffer max_size) /\
  st' = fold_left functor (segments s buffer max_size) st /\
  contents s' buffer max_size = [] /\
  concat (segments s buffer max_size) = contents s buffer max_size.
Proof.
  intros H. rewrite (zlen_contents _ _ _ H). unfold consume_all, segments.
  pose proof (occupancy_range _ _ _ H) as Ho. pose proof H as HR. ring_start HR.
  rewrite read_available_eq by lia. destruct (Z.eqb_spec (occupancy s max_size) 0) as [E|E].
  { assert (contents s buffer max_size = []) as -> by (apply zlen_nil_inv; rewrite zlen_contents by done; lia).
    rewrite E. done. }
  set (n := occupancy s max_size) in *.
  rewrite (u64_small (read_index_ s + n)) by lia.
  pose proof (contents_prefix s buffer max_size n H ltac:(lia)) as HP.
  replace (zslice (contents s buffer max_size) 0 n) with (contents s buffer max_size) in HP
    by (unfold n; rewrite <- (zlen_contents _ _ _ H); by rewrite zslice_all).
  pose proof (advance_read_spec s buffer max_size n H ltac:(lia)) as [HA1 HA2].
  rewrite (zslice_nil _ n) in HA2 by lia.
  destruct (Z.ltb_spec max_size (read_index_ s + n)).
  - rewrite !(u64_small (max_size - read_index_ s)), !(u64_small (n - _)), (u64_small (_ - max_size)) by lia.
    simpl. rewrite app_nil_r. done.
  - simpl. rewrite app_nil_r. done.
Qed.

(** ** The public operations against the queue *)

Implicit Types b : ringbuffer A.

(** The capacity a ring was built for: one cell always stays free. *)
Definition capacity b : Z := max_size_ b - 1.

Lemma rb_len_bound b : rb_ok b -> 0 <= zlen (rb_contents b) <= capacity b.
Proof.
  intros H. unfold rb_contents, capacity. rewrite zlen_contents by done.
  pose proof (occupancy_range _ _ _ H). lia.
Qed.

Lemma make_spec max_size (cells : list A) :
  0 <= max_size < 2 ^ 63 -> zlen cells = max_size + 1 ->
  rb_ok (make max_size cells) /\ rb_contents (make max_size cells) = [] /\
  capacity (make max_size cells) = max_size.
Proof.
  intros. unfold rb_ok, rb_contents, capacity, make. simpl. uwrap.
  split; [split; simpl; lia|]. split; [|lia].
  unfold contents, occupancy. simpl. zcase; [|lia]. by apply zslice_nil.
Qed.

Lemma rb_enqueue_spec t b :
  rb_ok b ->
  let '(ok, b') := rb_enqueue t b in
  rb_ok b' /\ capacity b' = capacity b /\ ok = (zlen (rb_contents b) <? capacity b) /\
  rb_contents b' = if ok then rb_contents b ++ [t] else rb_contents b.
Proof.
  intros H. pose proof (enqueue_spec t _ _ _ H) as HS. pose proof (rb_len_bound b H).
  unfold rb_enqueue. destruct (enqueue t _ _ _) as [[ok s'] buf'].
  destruct HS as (H1 & Hok & H2). split; [done|]. split; [done|]. split; [|done].
  rewrite Hok. unfold rb_contents, capacity in *. zcase; try lia; done.
Qed.

Lemma rb_enqueue_bulk_spec _All input b :
  rb_ok b -> zlen input < 2 ^ 64 ->
  let '(n, b') := rb_enqueue_bulk _All input b in
  rb_ok b' /\ capacity b' = capacity b /\
  n = accepted _All (zlen input) (capacity b - zlen (rb_contents b)) /\
  rb_contents b' = rb_contents b ++ zslice input 0 n.
Proof.
  intros H Hin. pose proof (enqueue_bulk_spec _All input _ _ _ H Hin) as HS.
  unfold rb_enqueue_bulk. destruct (enqueue_bulk _All input _ _ _) as [[n s'] buf'].
  by destruct HS as (? & ? & ?).
Qed.

Lemma rb_dequeue_spec out ret size b :
  rb_ok b -> 0 <= size < 2 ^ 64 -> 0 <= ret ->
  let len := zlen (rb_contents b) in
  let '(n, out', b') := rb_dequeue out ret size b in
  rb_ok b' /\ capacity b' = capacity b /\ n = Z.min size len /\
  out' = zcopy out ret (zslice (rb_contents b) 0 n) /\
  rb_contents b' = zslice (rb_contents b) n (len - n).
Proof.
  intros H Hs Hr. pose proof (dequeue_spec out ret size _ _ _ H Hs Hr) as HS. simpl in *.
  unfold rb_dequeue. destruct (dequeue out ret size _ _ _) as [[n out'] s'].
  by destruct HS as (? & ? & ? & ?).
Qed.

Lemma rb_consume_all_spec {S} (func : S -> list A -> S) st b :
  rb_ok b ->
  let '(n, st', b') := rb_consume_all func st b in
  rb_ok b' /\ capacity b' = capacity b /\ n = zlen (rb_contents b) /\ rb_contents b' = [] /\
  st' = fold_left func (segments (idx b) (array_ b) (max_size_ b)) st /\
  concat (segments (idx b) (array_ b) (max_size_ b)) = rb_contents b.
Proof.
  intros H. pose proof (consume_all_spec func st _ _ _ H) as HS. unfold rb_consume_all.
  destruct (consume_all func st _ _ _) as [[n st'] s']. by destruct HS as (? & ? & ? & ? & ?).
Qed.

Lemma rb_empty_spec b : rb_ok b -> rb_empty b = (zlen (rb_contents b) =? 0).
Proof.
  intros H. unfold rb_empty, empty, rb_contents. rewrite zlen_contents by done.
  ring_start H. unfold occupancy. zcases; try lia; done.
Qed.

Lemma front_spec b : rb_ok b -> front (idx b) (array_ b) = zget (rb_contents b) 0 \/ rb_contents b = [].
Proof.
  intros H. destruct (decide (0 < occupancy (idx b) (max_size_ b))).
  - left. unfold rb_contents. rewrite contents_get by (done || lia). unfold front. f_equal.
    ring_start H. unfold ring_pos. zcase; lia.
  - right. apply zlen_nil_inv. unfold rb_contents. rewrite zlen_contents by done.
    pose proof (occupancy_range _ _ _ H). lia.
Qed.

End Facts.

(** * Observational refinement

    A client of the ring sees the replies of its calls. The ring gives, on every sequence
    of calls, the replies of a list-based FIFO queue of the requested capacity. *)

Inductive op (A : Type) :=
  | OEnqueue (t : A)
  | OEnqueueBulk (_All : bool) (t : list A)
  | ODequeue (ret : list A)
  | ODequeueFunc (ret : list A)
  | OConsumeAll
  | OEmpty.
Arguments OEnqueue {A}. Arguments OEnqueueBulk {A}. Arguments ODequeue {A}.
Arguments ODequeueFunc {A}. Arguments OConsumeAll {A}. Arguments OEmpty {A}.

(** What a call gives back: a flag, a count, a count with the caller's array after the
    call, a count with the elements the functor was handed, in order. *)
Inductive reply (A : Type) :=
  | RBool (b : bool)
  | RCount (n : Z)
  | ROut (n : Z) (ret : list A)
  | RHanded (n : Z) (seen : list A).
Arguments RBool {A}. Arguments RCount {A}. Arguments ROut {A}. Arguments RHanded {A}.

Section Refinement.
Context {A : Type}.

(** A functor that logs the elements it is handed. *)
Definition log_items (seen batch : list A) : list A := seen ++ batch.

Definition ring_step (o : op A) (b : ringbuffer A) : reply A * ringbuffer A :=
  match o with
  | OEnqueue t => let '(ok, b) := rb_enqueue t b in (RBool ok, b)
  | OEnqueueBulk all t => let '(n, b) := rb_enqueue_bulk all t b in (RCount n, b)
  | ODequeue ret => let '(n, ret, b) := rb_dequeue ret 0 (zlen ret) b in (ROut n ret, b)
  | ODequeueFunc ret =>
      let '(n, seen, _, b) := rb_dequeue_func log_items [] ret (zlen ret) b in (RHanded n seen, b)
  | OConsumeAll => let '(n, seen, b) := rb_consume_all log_items [] b in (RHanded n seen, b)
  | OEmpty => (RBool (rb_empty b), b)
  end.

Definition queue_step (cap : Z) (o : op A) (q : list A) : reply A * list A :=
  let len := zlen q in
  match o with
  | OEnqueue t => if len <? cap then (RBool true, q ++ [t]) else (RBool false, q)
  | OEnqueueBulk all t =>
      let n := accepted all (zlen t) (cap - len) in (RCount n, q ++ zslice t 0 n)
  | ODequeue ret =>
      let n := Z.min (zlen ret) len in
      (ROut n (zcopy ret 0 (zslice q 0 n)), zslice q n (len - n))
  | ODequeueFunc ret =>
      let n := Z.min (zlen ret) len in (RHanded n (zslice q 0 n), zslice q n (len - n))
  | OConsumeAll => (RHanded len q, [])
  | OEmpty => (RBool (len =? 0), q)
  end.

(** The arrays a caller passes have a [size_t] length. *)
Definition op_ok (o : op A) : Prop :=
  match o with
  | OEnqueueBulk _ t => zlen t < 2 ^ 64
  | ODequeue ret | ODequeueFunc ret => zlen ret < 2 ^ 64
  | _ => True
  end.

Definition run {St} (step : op A -> St -> reply A * St) : list (op A) -> St -> list (reply A) :=
  fix go ops s := match ops with
                  | [] => []
                  | o :: ops => let '(r, s) := step o s in r :: go ops s
                  end.

Lemma fold_log (segs : list (list A)) seen : fold_left log_items segs seen = seen ++ concat segs.
Proof.
  revert seen. induction segs as [|x segs IH]; intros seen; simpl; [by rewrite app_nil_r|].
  rewrite IH. unfold log_items. by rewrite app_assoc.
Qed.

Lemma ring_step_refines o b :
  rb_ok b -> op_ok o ->
  let '(r, b') := ring_step o b in
  rb_ok b' /\ capacity b' = capacity b /\ queue_step (capacity b) o (rb_contents b) = (r, rb_contents b').
Proof.
  intros H Ho. destruct o as [t|all t|ret|ret| |]; simpl in *.
  - pose proof (rb_enqueue_spec t b H) as HS. destruct (rb_enqueue t b) as [ok b'].
    destruct HS as (? & ? & -> & Hc). split_and!; try done. rewrite Hc. by destruct (_ <? _).
  - pose proof (rb_enqueue_bulk_spec all t b H Ho) as HS. destruct (rb_enqueue_bulk all t b) as [n b'].
    destruct HS as (? & ? & -> & Hc). by rewrite Hc.
  - pose proof (rb_dequeue_spec ret 0 (zlen ret) b H ltac:(auto) ltac:(lia)) as HS.
    destruct (rb_dequeue ret 0 _ b) as [[n ret'] b']. destruct HS as (? & ? & -> & -> & Hc). by rewrite Hc.
  - pose proof (rb_dequeue_spec ret 0 (zlen ret) b H ltac:(auto) ltac:(lia)) as HS.
    unfold rb_dequeue_func. destruct (rb_dequeue ret 0 _ b) as [[n ret'] b'].
    destruct HS as (? & ? & -> & -> & Hc). split_and!; try done. rewrite Hc.
    set (n := Z.min _ _). pose proof (zlen_nonneg ret). pose proof (rb_len_bound b H).
    destruct (Z.eqb_spec n 0) as [->|]; [by rewrite zslice_nil|].
    unfold log_items. do 2 f_equal. simpl.
    rewrite <- (zslice_copy_same ret 0 (zslice (rb_contents b) 0 n)) at 1 by (rewrite ?zlen_slice; lia).
    by rewrite zlen_slice by lia.
  - pose proof (rb_consume_all_spec log_items [] b H) as HS. destruct (rb_consume_all _ _ b) as [[n seen] b'].
    destruct HS as (? & ? & -> & -> & -> & Hseg). by rewrite fold_log, Hseg.
  - by rewrite rb_empty_spec.
Qed.

Lemma run_refines ops b :
  rb_ok b -> Forall op_ok ops -> run ring_step ops b = run (queue_step (capacity b)) ops (rb_contents b).
Proof.
  intros H Hops. revert b H. induction Hops as [|o ops Ho _ IH]; intros b H; [done|]. simpl.
  pose proof (ring_step_refines o b H Ho) as HS. destruct (ring_step o b) as [r b'].
  destruct HS as (H' & Hcap & ->). f_equal. rewrite <- Hcap. by apply IH.
Qed.

End Refinement.

(** * Properties *)

(** C32: a ring built for [max_size] elements is a FIFO queue of capacity [max_size]: on
    every sequence of calls (single and bulk enqueue, all-or-nothing or as many as fit,
    dequeue into an array or through a functor, in-place drain, [empty]) it gives exactly
    the replies of a list-based queue, across any number of wraps of the array. *)
Theorem ring_refines_fifo {A} (max_size : Z) (cells : list A) (ops : list (op A)) :
  0 <= max_size < 2 ^ 63 -> zlen cells = max_size + 1 -> Forall op_ok ops ->
  run ring_step ops (make max_size cells) = run (queue_step max_size) ops [].
Proof.
  intros Hm Hc Hops. destruct (make_spec max_size cells Hm Hc) as (Hok & Hnil & Hcap).
  by rewrite run_refines, Hnil, Hcap.
Qed.

Lemma ring_refines_fifo_witness :
  let ops := [OEnqueueBulk true [1; 2]; ODequeue [0]; OEnqueueBulk false [3; 4; 5]; OEnqueue 6;
              ODequeueFunc [0; 0]; OConsumeAll; OEmpty] in
  run ring_step ops (make 3 [0; 0; 0; 0])
    = [RCount 2; ROut 1 [1]; RCount 2; RBool false; RHanded 2 [2; 3]; RHanded 1 [4]; RBool true] /\
  run ring_step ops (make 3 [0; 0; 0; 0]) = run (queue_step 3) ops [].
Proof.
  split; [reflexivity|]. apply (ring_refines_fifo 3 [0; 0; 0; 0]); [lia | reflexivity |].
  repeat constructor.
Defined.
