(* ===== verification/SpscConc.v ===== *)
(** The single-producer single-consumer ring under concurrency.

    The bulk [enqueue] and [dequeue] of src/qb/system/lockfree/spsc.h split into their
    atomic index accesses and their cell-by-cell copies, and interleaved arbitrarily: a
    step relation over the shared indices and cells, with one producer and one consumer.
    The shared accesses are sequentially consistent; the acquire and release orderings
    of the source are what makes the published cells visible with the index. *)

From S2P Require Import Prelude Spsc.

Section Concurrent.
Context {A : Type} (max_size : Z).

(** Control state of the thread inside [enqueue<_All>(input, input_count, ...)]. *)
Inductive prod_pc :=
  | PIdle
  | PLoadWrite (_All : bool) (input : list A)
  | PLoadRead (_All : bool) (input : list A) (write_index : Z)
  | PCopy (input : list A) (write_index : Z) (copied : Z).

(** Control state of the thread inside [dequeue(output, output_count, ...)]. *)
Inductive cons_pc :=
  | CIdle
  | CLoadWrite (output_count : Z)
  | CLoadRead (output_count write_index : Z)
  | CCopy (read_index n : Z) (output : list A).

Record machine := Machine {
  shared : indices;
  cells : list A;
  producer : prod_pc;
  consumer : cons_pc;
  produced : list A; (** history: every element of a published batch *)
  consumed : list A  (** history: every element of a completed [dequeue] *)
}.

Definition start (buffer : list A) : machine := Machine init buffer PIdle CIdle [] [].

(** Index stored after moving [n] cells past [i]. *)
Definition advance (i n : Z) : Z :=
  if max_size <? i +s n then i +s n -s max_size else if i +s n =? max_size then 0 else i +s n.

(** The [k]-th cell of a batch whose first section starts at [i] and has
    [max_size - i] cells. *)
Definition batch_cell (i k : Z) : Z := if k <? max_size -s i then i + k else k - (max_size -s i).

Inductive step (m : machine) : machine -> Prop :=
  | step_call_enqueue all input :
      producer m = PIdle -> zlen input < 2 ^ 64 ->
      step m (Machine (shared m) (cells m) (PLoadWrite all input) (consumer m) (produced m) (consumed m))
  | step_load_own_write all input :
      producer m = PLoadWrite all input ->
      step m (Machine (shared m) (cells m) (PLoadRead all input (write_index_ (shared m)))
                      (consumer m) (produced m) (consumed m))
  | step_enqueue_refused all input w :
      producer m = PLoadRead all input w ->
      (let avail := write_available w (read_index_ (shared m)) max_size in
       (if all then avail <? zlen input else avail =? 0) = true) ->
      step m (Machine (shared m) (cells m) PIdle (consumer m) (produced m) (consumed m))
  | step_enqueue_accepted all input w :
      producer m = PLoadRead all input w ->
      (let avail := write_available w (read_index_ (shared m)) max_size in
       (if all then avail <? zlen input else avail =? 0) = false) ->
      let avail := write_available w (read_index_ (shared m)) max_size in
      let count := if all then zlen input else Z.min (zlen input) avail in
      step m (Machine (shared m) (cells m) (PCopy (zslice input 0 count) w 0)
                      (consumer m) (produced m) (consumed m))
  | step_write_cell input w i x :
      producer m = PCopy input w i -> zget input i = Some x ->
      step m (Machine (shared m) (zput (cells m) (batch_cell w i) x) (PCopy input w (i + 1))
                      (consumer m) (produced m) (consumed m))
  | step_publish input w :
      producer m = PCopy input w (zlen input) ->
      step m (Machine (Indices (advance w (zlen input)) (read_index_ (shared m))) (cells m) PIdle
                      (consumer m) (produced m ++ input) (consumed m))
  | step_call_dequeue count :
      consumer m = CIdle -> 0 <= count < 2 ^ 64 ->
      step m (Machine (shared m) (cells m) (producer m) (CLoadWrite count) (produced m) (consumed m))
  | step_load_write count :
      consumer m = CLoadWrite count ->
      step m (Machine (shared m) (cells m) (producer m) (CLoadRead count (write_index_ (shared m)))
                      (produced m) (consumed m))
  | step_dequeue_empty count w :
      consumer m = CLoadRead count w -> read_available w (read_index_ (shared m)) max_size = 0 ->
      step m (Machine (shared m) (cells m) (producer m) CIdle (produced m) (consumed m))
  | step_dequeue_some count w :
      consumer m = CLoadRead count w -> read_available w (read_index_ (shared m)) max_size <> 0 ->
      let n := Z.min count (read_available w (read_index_ (shared m)) max_size) in
      step m (Machine (shared m) (cells m) (producer m) (CCopy (read_index_ (shared m)) n [])
                      (produced m) (consumed m))
  | step_read_cell r n output x :
      consumer m = CCopy r n output -> zlen output < n ->
      zget (cells m) (batch_cell r (zlen output)) = Some x ->
      step m (Machine (shared m) (cells m) (producer m) (CCopy r n (output ++ [x]))
                      (produced m) (consumed m))
  | step_release r n output :
      consumer m = CCopy r n output -> zlen output = n ->
      step m (Machine (Indices (write_index_ (shared m)) (advance r n)) (cells m) (producer m) CIdle
                      (produced m) (consumed m ++ output)).

Inductive reachable (buffer : list A) : machine -> Prop :=
  | reach_start : reachable buffer (start buffer)
  | reach_step m m' : reachable buffer m -> step m m' -> reachable buffer m'.

(** The cell the producer's next step writes, and the one the consumer's next step reads. *)
Definition writing (m : machine) : option Z :=
  match producer m with
  | PCopy input w i => if i <? zlen input then Some (batch_cell w i) else None
  | _ => None
  end.

Definition reading (m : machine) : option Z :=
  match consumer m with
  | CCopy r n output => if zlen output <? n then Some (batch_cell r (zlen output)) else None
  | _ => None
  end.

(** Elements the consumer has taken out, those of a running [dequeue] included. *)
Definition taken (m : machine) : list A :=
  consumed m ++ match consumer m with CCopy _ _ output => output | _ => [] end.

(** Elements the producer has put in, those of a running [enqueue] included. *)
Definition put_so_far (m : machine) : list A :=
  produced m ++ match producer m with PCopy input _ i => zslice input 0 i | _ => [] end.

(** ** The invariant

    [W] and [R] count the elements published and released so far; the shared indices are
    these counts modulo the ring size, and every cell between [R] and the last cell
    written holds the element of that rank in the history. *)

Definition prod_ok (m : machine) : Prop :=
  match producer m with
  | PIdle => True
  | PLoadWrite _ input => zlen input < 2 ^ 64
  | PLoadRead _ input w => zlen input < 2 ^ 64 /\ w = write_index_ (shared m)
  | PCopy input w i =>
      w = write_index_ (shared m) /\ 0 <= i <= zlen input /\
      zlen (produced m) + zlen input - zlen (consumed m) <= max_size - 1
  end.

Definition cons_ok (m : machine) : Prop :=
  match consumer m with
  | CIdle => True
  | CLoadWrite count => 0 <= count < 2 ^ 64
  | CLoadRead count w =>
      0 <= count < 2 ^ 64 /\
      exists W0, w = W0 mod max_size /\ zlen (consumed m) <= W0 <= zlen (produced m)
  | CCopy r n output =>
      r = read_index_ (shared m) /\ zlen output <= n /\
      zlen (consumed m) + n <= zlen (produced m) /\
      output = zslice (produced m) (zlen (consumed m)) (zlen output)
  end.

Record inv (m : machine) : Prop := Inv {
  inv_size : 1 <= max_size <= 2 ^ 63;
  inv_cells : zlen (cells m) = max_size;
  inv_w : write_index_ (shared m) = zlen (produced m) mod max_size;
  inv_r : read_index_ (shared m) = zlen (consumed m) mod max_size;
  inv_fill : 0 <= zlen (produced m) - zlen (consumed m) <= max_size - 1;
  inv_prefix : consumed m = zslice (produced m) 0 (zlen (consumed m));
  inv_hist : forall k, zlen (consumed m) <= k < zlen (put_so_far m) ->
    zget (cells m) (k mod max_size) = zget (put_so_far m) k;
  inv_prod : prod_ok m;
  inv_cons : cons_ok m
}.

(** ** Index arithmetic modulo the ring size *)

Lemma mod_shift K k : 1 <= max_size -> 0 <= k < max_size ->
  (K + k) mod max_size = if K mod max_size + k <? max_size then K mod max_size + k else K mod max_size + k - max_size.
Proof.
  intros. rewrite <- Zplus_mod_idemp_l. pose proof (Z.mod_pos_bound K max_size).
  apply mod_once. lia.
Qed.

Lemma batch_cell_mod K k : 1 <= max_size <= 2 ^ 63 -> 0 <= k < max_size ->
  batch_cell (K mod max_size) k = (K + k) mod max_size.
Proof.
  intros. rewrite mod_shift by lia. pose proof (Z.mod_pos_bound K max_size).
  unfold batch_cell. uwrap. zcase; lia.
Qed.

Lemma advance_mod K n : 1 <= max_size <= 2 ^ 63 -> 0 <= n < max_size ->
  advance (K mod max_size) n = (K + n) mod max_size.
Proof.
  intros. rewrite mod_shift by lia. pose proof (Z.mod_pos_bound K max_size).
  unfold advance. rewrite (u64_small (_ + n)) by lia. zcase; uwrap; lia.
Qed.

Lemma occupancy_mod W R : 1 <= max_size -> 0 <= W - R < max_size ->
  occupancy (Indices (W mod max_size) (R mod max_size)) max_size = W - R.
Proof.
  intros. replace W with (R + (W - R)) at 1 by lia. rewrite mod_shift by lia.
  pose proof (Z.mod_pos_bound R max_size). unfold occupancy. simpl. zcase; lia.
Qed.

Lemma read_available_mod W R : 1 <= max_size <= 2 ^ 63 -> 0 <= W - R < max_size ->
  read_available (W mod max_size) (R mod max_size) max_size = W - R.
Proof.
  intros. rewrite <- occupancy_mod by lia. symmetry.
  pose proof (Z.mod_pos_bound R max_size). pose proof (Z.mod_pos_bound W max_size).
  rewrite <- read_available_eq; simpl; lia || done.
Qed.

Lemma write_available_mod W R : 1 <= max_size <= 2 ^ 63 -> 0 <= W - R < max_size ->
  write_available (W mod max_size) (R mod max_size) max_size = max_size - 1 - (W - R).
Proof.
  intros. rewrite <- (occupancy_mod W R) by lia. symmetry.
  pose proof (Z.mod_pos_bound R max_size). pose proof (Z.mod_pos_bound W max_size).
  rewrite <- write_available_eq; simpl; lia || done.
Qed.

(** Two ranks less than a turn apart never share a cell. *)
Lemma mod_apart a b : 0 < a - b < max_size -> a mod max_size <> b mod max_size.
Proof.
  intros H E. replace a with (b + (a - b)) in E by lia. rewrite mod_shift in E by lia.
  zcase_in E; lia.
Qed.

(** ** Preservation *)

Lemma inv_start buffer : 1 <= max_size <= 2 ^ 63 -> zlen buffer = max_size -> inv (start buffer).
Proof.
  intros. split; simpl; try done.
  - unfold zlen; simpl; lia.
  - unfold zlen; simpl; lia.
Qed.

(** A step that changes neither the cells nor the histories keeps the shared part. *)
Lemma inv_local m p c :
  inv m ->
  put_so_far (Machine (shared m) (cells m) p c (produced m) (consumed m)) = put_so_far m ->
  prod_ok (Machine (shared m) (cells m) p c (produced m) (consumed m)) ->
  cons_ok (Machine (shared m) (cells m) p c (produced m) (consumed m)) ->
  inv (Machine (shared m) (cells m) p c (produced m) (consumed m)).
Proof. intros [] E Hp Hc. split; simpl; try done. by rewrite E. Qed.

Lemma inv_write_cell m input w i x :
  inv m -> producer m = PCopy input w i -> zget input i = Some x ->
  inv (Machine (shared m) (zput (cells m) (batch_cell w i) x) (PCopy input w (i + 1))
               (consumer m) (produced m) (consumed m)).
Proof.
  intros [Hsz Hc Hw Hr Hf Hp Hh HP HC] E Hx. pose proof (zget_Some_range _ _ _ Hx) as Hi.
  unfold prod_ok in HP. unfold put_so_far in Hh. rewrite E in *. destruct HP as (-> & Hil & Hfit).
  rewrite Hw, batch_cell_mod by lia. pose proof (Z.mod_pos_bound (zlen (produced m) + i) max_size).
  split; simpl; autorewrite with zlist; try done; [|].
  - unfold put_so_far; simpl. rewrite (zslice_snoc _ _ _ x) by (done || lia).
    rewrite app_assoc. intros k Hk. rewrite !zlen_app, zlen_slice in * by lia.
    change (zlen [x]) with 1 in Hk. rewrite zget_put, zget_app, zlen_app, zlen_slice by lia.
    destruct (decide (k = zlen (produced m) + i)) as [->|Hne].
    + rewrite Z.eqb_refl. destruct (Z.ltb_spec (zlen (produced m) + i) (zlen (produced m) + i)); [lia|].
      by rewrite Z.sub_diag.
    + pose proof (mod_apart (zlen (produced m) + i) k ltac:(lia)). rewrite Hh by lia. zcase; lia || done.
  - unfold prod_ok; simpl. lia.
Qed.

Lemma inv_publish m input w :
  inv m -> producer m = PCopy input w (zlen input) ->
  inv (Machine (Indices (advance w (zlen input)) (read_index_ (shared m))) (cells m) PIdle
               (consumer m) (produced m ++ input) (consumed m)).
Proof.
  intros [Hsz Hc Hw Hr Hf Hp Hh HP HC] E. pose proof (zlen_nonneg input).
  unfold prod_ok in HP. unfold put_so_far in Hh. rewrite E in *. destruct HP as (-> & Hil & Hfit).
  pose proof (zlen_nonneg (consumed m)).
  split; simpl; try done.
  - rewrite zlen_app, Hw. apply advance_mod; lia.
  - rewrite zlen_app. lia.
  - by rewrite zslice_app_l by lia.
  - unfold put_so_far; simpl. rewrite app_nil_r. intros k Hk. rewrite zslice_all in Hh. by apply Hh.
  - unfold cons_ok in *; simpl. destruct (consumer m); try done.
    + destruct HC as (? & W0 & ? & ?). split; [done|]. exists W0. rewrite zlen_app. lia.
    + destruct HC as (? & ? & ? & Ho). rewrite zlen_app, zslice_app_l by lia. repeat split; done || lia.
Qed.

Lemma inv_read_cell m r n output x :
  inv m -> consumer m = CCopy r n output -> zlen output < n ->
  zget (cells m) (batch_cell r (zlen output)) = Some x ->
  inv (Machine (shared m) (cells m) (producer m) (CCopy r n (output ++ [x])) (produced m) (consumed m)).
Proof.
  intros HI E Hn Hx. apply inv_local; [done|done|apply HI|].
  destruct HI as [Hsz Hc Hw Hr Hf Hp Hh HP HC]. unfold cons_ok in *; simpl. rewrite E in HC.
  destruct HC as (-> & Hl & Hav & Ho). pose proof (zlen_nonneg output).
  pose proof (zlen_nonneg (consumed m)).
  rewrite zlen_app. change (zlen [x]) with 1. split; [done|]. split; [lia|]. split; [lia|].
  rewrite Hr, batch_cell_mod in Hx by lia.
  rewrite Hh in Hx by (unfold put_so_far; rewrite zlen_app;
    pose proof (zlen_nonneg (match producer m with PCopy input _ i => zslice input 0 i | _ => [] end)); lia).
  unfold put_so_far in Hx. rewrite zget_app in Hx. zcase_in Hx; [|lia].
  rewrite (zslice_snoc _ _ _ x) by (done || lia). by rewrite <- Ho.
Qed.

Lemma inv_release m r n output :
  inv m -> consumer m = CCopy r n output -> zlen output = n ->
  inv (Machine (Indices (write_index_ (shared m)) (advance r n)) (cells m) (producer m) CIdle
               (produced m) (consumed m ++ output)).
Proof.
  intros [Hsz Hc Hw Hr Hf Hp Hh HP HC] E Hn. unfold cons_ok in HC. rewrite E in HC.
  destruct HC as (-> & Hl & Hav & Ho). pose proof (zlen_nonneg output). pose proof (zlen_nonneg (consumed m)).
  split; simpl; rewrite ?zlen_app; try done.
  - rewrite Hr, Hn. apply advance_mod; lia.
  - lia.
  - rewrite zslice_app, Z.add_0_l by lia. by f_equal.
  - intros k Hk. apply Hh. change (put_so_far _) with (put_so_far m) in Hk. lia.
  - unfold prod_ok in *; simpl. destruct (producer m); try done. rewrite zlen_app.
    destruct HP as (? & ? & ?). repeat split; done || lia.
Qed.

Lemma inv_step m m' : inv m -> step m m' -> inv m'.
Proof.
  intros HI HS. pose proof HI as [Hsz Hc Hw Hr Hf Hp Hh HP HC].
  destruct HS as [?? E ?|?? E|??? E ?|??? E E'|???? ?|??|? E ?|? E|?? E ?|?? E E'|???? ?? H1|??? ??];
    [ | | | |by eapply inv_write_cell|by apply inv_publish| | | | |by apply inv_read_cell|by apply inv_release];
    (apply inv_local; [done|unfold put_so_far; simpl; rewrite ?E; done|unfold prod_ok in *; simpl; rewrite ?E in HP
                      |unfold cons_ok in *; simpl; rewrite ?E in HC]); try done.
  - destruct HP as [Hin ->]. simpl in E'. subst avail count. rewrite Hw, Hr in *.
    rewrite write_available_mod in * by lia. pose proof (zlen_nonneg input).
    split; [done|]. destruct all; zcase_in E'; try done;
      rewrite zlen_slice by lia; split; lia.
  - split; [done|]. exists (zlen (produced m)). split; [done|lia].
  - destruct HC as (Hcnt & W0 & -> & HW0). subst n. rewrite Hr in *. rewrite read_available_mod in * by lia.
    change (zlen (@nil A)) with 0. split; [done|]. split; [lia|]. split; [lia|]. by rewrite zslice_nil by lia.
Qed.

Lemma reachable_inv buffer m :
  1 <= max_size <= 2 ^ 63 -> zlen buffer = max_size -> reachable buffer m -> inv m.
Proof. intros ? ?. induction 1; [by apply inv_start|by eapply inv_step]. Qed.

Lemma taken_prefix m : inv m -> taken m = zslice (produced m) 0 (zlen (taken m)).
Proof.
  intros [Hsz Hc Hw Hr Hf Hp Hh HP HC]. unfold taken, cons_ok in *.
  pose proof (zlen_nonneg (consumed m)).
  destruct (consumer m) as [| | |r n output]; rewrite ?app_nil_r; try done.
  rewrite zlen_app, zslice_app, Z.add_0_l by (auto; lia). destruct HC as (_ & _ & _ & Ho). by f_equal.
Qed.

(** The cell being written lies ahead of every cell a running or later [dequeue] reads. *)
Lemma writing_spec m p :
  inv m -> writing m = Some p ->
  exists i, p = (zlen (produced m) + i) mod max_size /\ 0 <= i /\
            zlen (produced m) + i - zlen (consumed m) < max_size - 1.
Proof.
  intros [Hsz Hc Hw Hr Hf Hp Hh HP HC] E. unfold writing, prod_ok in *.
  destruct (producer m) as [| | |input w i]; try done. zcase_in E; [|done]. simplify_eq.
  destruct HP as (-> & Hi & Hfit). exists i. rewrite Hw, batch_cell_mod by lia. split_and!; done || lia.
Qed.

Lemma reading_spec m q :
  inv m -> reading m = Some q ->
  exists j, q = j mod max_size /\ zlen (consumed m) <= j < zlen (produced m).
Proof.
  intros [Hsz Hc Hw Hr Hf Hp Hh HP HC] E. unfold reading, cons_ok in *.
  destruct (consumer m) as [| | |r n output]; try done. zcase_in E; [|done]. simplify_eq.
  destruct HC as (-> & Hi & Hfit & _). exists (zlen (consumed m) + zlen output).
  pose proof (zlen_nonneg output).
  rewrite Hr, batch_cell_mod by lia. split; [done|lia].
Qed.

End Concurrent.

Arguments machine : clear implicits.

(** ** A concrete run: one element through a ring of two cells *)

Tactic Notation "take_step" uconstr(c) :=
  match goal with
  | H : reachable _ _ _ |- _ => 
      eapply reach_step in H;
      [|eapply c; (reflexivity || (vm_compute; reflexivity) || (vm_compute; congruence) || lia)];
      vm_compute in H
  end.

(** * Properties *)

(** C7: under every interleaving of one producer and one consumer, what the consumer has
    taken out (a running [dequeue] included) is a prefix of what the producer has
    published: nothing is lost, duplicated, reordered or read before it is published. *)
Theorem spsc_concurrent_fifo {A} (max_size : Z) (buffer : list A) (m : machine A) :
  1 <= max_size <= 2 ^ 63 -> zlen buffer = max_size -> reachable max_size buffer m ->
  exists rest, produced m = taken m ++ rest.
Proof.
  intros Hm Hb HR. apply reachable_inv in HR; [|done|done].
  pose proof (taken_prefix _ _ HR) as HT. rewrite HT.
  eexists. symmetry. apply take_drop.
Qed.

Lemma spsc_concurrent_fifo_witness :
  exists m, reachable 2 [0; 0] m /\ taken m = [7] /\ exists rest, produced m = taken m ++ rest.
Proof.
  pose proof (reach_start 2 [0; 0]) as H.
  take_step (step_call_enqueue (A := Z) 2 _ true [7]).
  take_step step_load_own_write.
  take_step step_enqueue_accepted.
  take_step step_write_cell.
  take_step (step_publish (A := Z) 2 _ [7] 0).
  take_step (step_call_dequeue (A := Z) 2 _ 5).
  take_step step_load_write.
  take_step step_dequeue_some.
  take_step step_read_cell.
  eexists. split; [exact H|]. split; [reflexivity|].
  apply (spsc_concurrent_fifo 2 [0; 0]); [lia | reflexivity | exact H].
Defined.

(** The producer never writes a cell the consumer is reading, and both stay inside
    the array, so the copies of a running [enqueue] and a running [dequeue] do not race. *)
Theorem spsc_race_free {A} (max_size : Z) (buffer : list A) (m : machine A) (p q : Z) :
  1 <= max_size <= 2 ^ 63 -> zlen buffer = max_size -> reachable max_size buffer m ->
  writing max_size m = Some p -> reading max_size m = Some q ->
  p <> q /\ is_Some (zget (cells m) p) /\ is_Some (zget (cells m) q).
Proof.
  intros Hm Hb HR Hp Hq. apply reachable_inv in HR; [|done|done].
  destruct (writing_spec _ _ _ HR Hp) as (i & -> & Hi & Hfit).
  destruct (reading_spec _ _ _ HR Hq) as (j & -> & Hj).
  split; [apply mod_apart; lia|].
  split; apply zget_in_range; rewrite (inv_cells _ _ HR); apply Z.mod_pos_bound; lia.
Qed.

Lemma spsc_race_free_witness :
  exists m, reachable 3 [0; 0; 0] m /\ writing 3 m = Some 1 /\ reading 3 m = Some 0 /\
            (1 <> 0 /\ is_Some (zget (cells m) 1) /\ is_Some (zget (cells m) 0)).
Proof.
  pose proof (reach_start 3 [0; 0; 0]) as H.
  take_step (step_call_enqueue (A := Z) 3 _ true [7]).
  take_step step_load_own_write.
  take_step step_enqueue_accepted.
  take_step step_write_cell.
  take_step (step_publish (A := Z) 3 _ [7] 0).
  take_step (step_call_enqueue (A := Z) 3 _ false [8; 9]).
  take_step (step_call_dequeue (A := Z) 3 _ 5).
  take_step step_load_write.
  take_step step_load_own_write.
  take_step step_dequeue_some.
  take_step step_enqueue_accepted.
  eexists. split; [exact H|]. split; [reflexivity|]. split; [reflexivity|].
  apply (spsc_race_free 3 [0; 0; 0]); [lia | reflexivity | exact H | reflexivity | reflexivity].
Defined.
