(* ===== verification/Mpsc.v ===== *)
(** Multi-producer single-consumer ring (src/qb/system/lockfree/mpsc.h): one
    single-producer ring per producer, drained in producer order.

    The compile-time and the run-time number of producers share their code, but for the
    indexed bulk [enqueue]. The per-producer [SpinLock] of the round-robin paths makes each
    of them atomic with respect to its ring (see SpinLock.v); the thread-local round-robin
    counter is an argument. *)

From S2P Require Import Prelude Spsc.

Section Mpsc.
Context {A : Type}.

(** [_producers]: the rings, in producer order. *)
Definition mpsc : Type := list (ringbuffer A).

(** [explicit ringbuffer(nb_producer)]: every ring holds [max_size] elements; the
    assertion on the number of producers is the [None] case. [cells] is a fresh array. *)
Definition mpsc_make (nb_producer max_size : Z) (cells : list A) : option mpsc :=
  if 0 <? nb_producer then Some (zrepeat (make max_size cells) nb_producer) else None.

(** An operation on the ring of producer [index]; [None] when there is none. *)
Definition on_ring {R} (f : ringbuffer A -> R * ringbuffer A) (index : Z) (ps : mpsc) : option (R * mpsc) :=
  match zget ps index with
  | Some b => let '(r, b) := f b in Some (r, zput ps index b)
  | None => None
  end.

Definition enqueue_at (index : Z) (t : A) : mpsc -> option (bool * mpsc) := on_ring (rb_enqueue t) index.

Definition enqueue_bulk_at (_All : bool) (index : Z) (t : list A) : mpsc -> option (Z * mpsc) :=
  on_ring (rb_enqueue_bulk _All t) index.

(** The template-indexed [enqueue<_Index, _All>] of the compile-time class: [_All] is not
    forwarded, so the ring's default [true] applies. *)
Definition enqueue_bulk_static (_All : bool) (index : Z) (t : list A) : mpsc -> option (Z * mpsc) :=
  on_ring (rb_enqueue_bulk true t) index.

(** The round-robin paths: [tl_index++ % nb_producer]. *)
Definition enqueue_any (tl_index : Z) (t : A) (ps : mpsc) : option (bool * mpsc) * Z :=
  (enqueue_at (tl_index mod zlen ps) t ps, tl_index +s 1).

Definition enqueue_bulk_any (_All : bool) (tl_index : Z) (t : list A) (ps : mpsc) : option (Z * mpsc) * Z :=
  (enqueue_bulk_at _All (tl_index mod zlen ps) t ps, tl_index +s 1).

(** The loop of [dequeue(T *ret, size_t size)]: [ret] is an offset in [out]. *)
Fixpoint dequeue_loop (out : list A) (ret size : Z) (ps : mpsc) : Z * list A * mpsc :=
  match ps with
  | [] => (size, out, [])
  | b :: ps =>
      let '(n, out, b) := rb_dequeue out ret size b in
      let ret := ret + n in
      let size := size -s n in
      if size =? 0 then (size, out, b :: ps)
      else let '(size, out, ps) := dequeue_loop out ret size ps in (size, out, b :: ps)
  end.

Definition mpsc_dequeue (out : list A) (size : Z) (ps : mpsc) : Z * list A * mpsc :=
  let save_size := size in
  let '(size, out, ps) := dequeue_loop out 0 size ps in
  (save_size -s size, out, ps).

(** [consume_all(func)]: drain every ring in place; [nb_consume] is the running total. *)
Fixpoint consume_all_loop {S} (func : S -> list A -> S) (nb_consume : Z) (st : S) (ps : mpsc) : Z * S * mpsc :=
  match ps with
  | [] => (nb_consume, st, [])
  | b :: ps =>
      let '(n, st, b) := rb_consume_all func st b in
      let '(nb_consume, st, ps) := consume_all_loop func (nb_consume +s n) st ps in
      (nb_consume, st, b :: ps)
  end.

Definition mpsc_consume_all {S} (func : S -> list A -> S) (st : S) (ps : mpsc) : Z * S * mpsc :=
  consume_all_loop func 0 st ps.

(** [consume_all(func, scratch, chunk)]: copy at most [chunk] elements of each ring to the
    start of [scratch] and hand them over in one piece. *)
Fixpoint consume_chunk_loop {S} (func : S -> list A -> S) (nb_consume : Z) (st : S)
    (scratch : list A) (chunk : Z) (ps : mpsc) : Z * S * list A * mpsc :=
  match ps with
  | [] => (nb_consume, st, scratch, [])
  | b :: ps =>
      let '(n, st, scratch, b) := rb_dequeue_func func st scratch chunk b in
      let '(nb_consume, st, scratch, ps) := consume_chunk_loop func (nb_consume +s n) st scratch chunk ps in
      (nb_consume, st, scratch, b :: ps)
  end.

Definition mpsc_consume_chunk {S} (func : S -> list A -> S) (st : S) (scratch : list A) (chunk : Z) (ps : mpsc)
  : Z * S * list A * mpsc :=
  consume_chunk_loop func 0 st scratch chunk ps.

(** ** Specification *)

Definition mpsc_ok (ps : mpsc) : Prop := Forall rb_ok ps.

(** The queue of each producer. *)
Definition queues (ps : mpsc) : list (list A) := map rb_contents ps.

(** [dequeue] on the queues: take from the first ones until [size] is reached. *)
Fixpoint take_in_order (size : Z) (qs : list (list A)) : list A * list (list A) :=
  match qs with
  | [] => ([], [])
  | q :: qs =>
      let n := Z.min size (zlen q) in
      let '(rest, qs') := take_in_order (size - n) qs in
      (zslice q 0 n ++ rest, zslice q n (zlen q - n) :: qs')
  end.

(** [consume_all(func, scratch, chunk)] on the queues: what is copied out, ring by ring. *)
Definition chunks (chunk : Z) (qs : list (list A)) : list (list A) :=
  map (fun q => zslice q 0 (Z.min chunk (zlen q))) qs.

(** [func] is called on every batch that is not empty. *)
Definition hand {S} (func : S -> list A -> S) (st : S) (batch : list A) : S :=
  match batch with [] => st | _ => func st batch end.

Definition after_chunk (chunk : Z) (qs : list (list A)) : list (list A) :=
  map (fun q => let n := Z.min chunk (zlen q) in zslice q n (zlen q - n)) qs.

End Mpsc.

Arguments mpsc : clear implicits.

(** * The operations on the queues *)

Section Facts.
Context {A : Type}.
Implicit Types (ps : mpsc A) (qs : list (list A)) (out : list A).

Lemma take_in_order_zero qs : take_in_order 0 qs = ([], qs).
Proof.
  induction qs as [|q qs IH]; simpl; [done|]. pose proof (zlen_nonneg q).
  rewrite Z.min_l by lia. rewrite Z.sub_0_r, IH, (zslice_nil _ 0 0) by lia. simpl.
  by rewrite Z.sub_0_r, zslice_all.
Qed.

Lemma zslice_split (l : list A) n : 0 <= n <= zlen l -> l = zslice l 0 n ++ zslice l n (zlen l - n).
Proof.
  intros. rewrite <- (Z.add_0_l n) at 2. rewrite <- zslice_app by lia.
  replace (n + (zlen l - n)) with (zlen l) by lia. by rewrite zslice_all.
Qed.

(** The elements taken are the first ones of the queues read in producer order. *)
Lemma take_in_order_concat size qs :
  0 <= size ->
  let '(got, qs') := take_in_order size qs in
  concat qs = got ++ concat qs' /\ zlen got = Z.min size (zlen (concat qs)) /\
  Forall2 (fun q q' => exists p, q = p ++ q') qs qs'.
Proof.
  revert size. induction qs as [|q qs IH]; intros size Hs; simpl.
  { split; [done|]. split; [unfold zlen; simpl; lia|constructor]. }
  set (n := Z.min size (zlen q)). pose proof (zlen_nonneg q). specialize (IH (size - n) ltac:(lia)).
  destruct (take_in_order (size - n) qs) as [got qs']. destruct IH as (IH1 & IH2 & IH3). simpl.
  pose proof (zlen_nonneg (concat qs)).
  rewrite !zlen_app, zlen_slice by lia. split; [|split].
  - rewrite (zslice_split q n) at 1 by lia. rewrite IH1.
    destruct (decide (n = zlen q)) as [->|Hn].
    + rewrite Z.sub_diag, !(zslice_nil q (zlen q) 0) by lia. simpl. by rewrite app_nil_r, app_assoc.
    + assert (got = []) as -> by (apply zlen_nil_inv; lia). simpl. by rewrite app_nil_r, app_assoc.
  - lia.
  - constructor; [|done]. eexists. by apply zslice_split; lia.
Qed.

Lemma dequeue_loop_spec out ret size ps :
  mpsc_ok ps -> 0 <= size < 2 ^ 64 -> 0 <= ret -> ret + size <= zlen out ->
  let '(size', out', ps') := dequeue_loop out ret size ps in
  mpsc_ok ps' /\
  take_in_order size (queues ps) = (zslice out' ret (size - size'), queues ps') /\
  0 <= size' <= size /\ out' = zcopy out ret (zslice out' ret (size - size')).
Proof.
  intros Hok. revert out ret size. induction Hok as [|b ps Hb Hps IH]; intros out ret size Hs Hr Hfit; simpl.
  { rewrite zslice_nil by lia. split; [constructor|]. by split; [|split; [lia|]]. }
  pose proof (rb_dequeue_spec out ret size b Hb Hs Hr) as HD. simpl in HD.
  destruct (rb_dequeue out ret size b) as [[n out1] b1]. destruct HD as (Hb1 & _ & Hn & Hout & Hc).
  pose proof (rb_len_bound b Hb). rewrite <- Hn, <- Hc. rewrite (u64_small (size - n)) by lia.
  assert (zlen (zslice (rb_contents b) 0 n) = n) as Hln by (apply zlen_slice; lia).
  destruct (Z.eqb_spec (size - n) 0) as [E|E].
  - rewrite E, take_in_order_zero. replace (size - 0) with n by lia. rewrite app_nil_r.
    assert (zslice out1 ret n = zslice (rb_contents b) 0 n) as -> by
      (rewrite Hout; apply zslice_copy_len; lia).
    split; [by constructor|]. split; [done|]. split; [lia|done].
  - specialize (IH out1 (ret + n) (size - n) ltac:(lia) ltac:(lia) ltac:(rewrite Hout, zlen_copy; lia)).
    destruct (dequeue_loop out1 (ret + n) (size - n) ps) as [[size' out'] ps'].
    destruct IH as (IH1 & IH2 & IH3 & IH4). rewrite IH2.
    set (got := zslice out' (ret + n) (size - n - size')) in *.
    assert (zlen got = size - n - size') as Hlg.
    { apply zlen_slice; try lia. rewrite IH4, zlen_copy, Hout, zlen_copy. lia. }
    assert (out' = zcopy out ret (zslice (rb_contents b) 0 n ++ got)) as Hfin.
    { rewrite IH4, Hout. rewrite <- zcopy_app by lia. by rewrite Hln. }
    assert (zslice out' ret (size - size') = zslice (rb_contents b) 0 n ++ got) as Hsl.
    { rewrite Hfin. apply zslice_copy_len; rewrite ?zlen_app; lia. }
    rewrite Hsl. split; [by constructor|]. split; [done|]. split; [lia|done].
Qed.

Lemma hand_count {S} (func : S -> list A -> S) st batch n :
  zlen batch = n -> (if n =? 0 then st else func st batch) = hand func st batch.
Proof.
  intros <-. destruct batch as [|x batch]; [done|]. done.
Qed.

Lemma consume_chunk_loop_spec {S} (func : S -> list A -> S) nb st scratch chunk ps :
  mpsc_ok ps -> 0 <= nb -> 0 <= chunk <= zlen scratch -> zlen scratch < 2 ^ 64 ->
  nb + zlen (concat (chunks chunk (queues ps))) < 2 ^ 64 ->
  let '(nb', st', scratch', ps') := consume_chunk_loop func nb st scratch chunk ps in
  mpsc_ok ps' /\ queues ps' = after_chunk chunk (queues ps) /\
  st' = fold_left (hand func) (chunks chunk (queues ps)) st /\
  nb' = nb + zlen (concat (chunks chunk (queues ps))).
Proof.
  intros Hok. revert nb st scratch.
  induction Hok as [|b ps Hb Hps IH]; intros nb st scratch Hnb Hch Hsc Hsum; simpl in *.
  { split; [constructor|]. change (zlen _) with 0. by rewrite Z.add_0_r. }
  pose proof (rb_dequeue_spec scratch 0 chunk b Hb ltac:(lia) ltac:(lia)) as HD. simpl in HD.
  unfold rb_dequeue_func. destruct (rb_dequeue scratch 0 chunk b) as [[n out1] b1].
  destruct HD as (Hb1 & _ & Hn & Hout & Hc). pose proof (rb_len_bound b Hb).
  assert (zlen (zslice (rb_contents b) 0 n) = n) as Hln by (apply zlen_slice; lia).
  assert (zslice out1 0 n = zslice (rb_contents b) 0 n) as Hhand by
    (rewrite Hout; apply zslice_copy_len; lia).
  rewrite <- Hn, <- Hc in *. rewrite Hhand, (hand_count func) by done.
  rewrite zlen_app, Hln in *. pose proof (zlen_nonneg (concat (chunks chunk (queues ps)))).
  rewrite (u64_small (nb + n)) by lia.
  assert (zlen out1 = zlen scratch) as Hlo by (by rewrite Hout, zlen_copy).
  specialize (IH (nb + n) (hand func st (zslice (rb_contents b) 0 n)) out1).
  specialize (IH ltac:(lia) ltac:(lia) ltac:(lia) ltac:(lia)).
  destruct (consume_chunk_loop _ _ _ _ _ _) as [[[nb' st'] scratch'] ps'].
  destruct IH as (IH1 & IH2 & IH3 & IH4). split; [by constructor|]. simpl.
  split; [by rewrite IH2|]. split; [done|]. lia.
Qed.

Lemma consume_all_loop_spec {S} (func : S -> list A -> S) nb st ps :
  mpsc_ok ps -> 0 <= nb -> nb + zlen (concat (queues ps)) < 2 ^ 64 ->
  let '(nb', st', ps') := consume_all_loop func nb st ps in
  mpsc_ok ps' /\ Forall (eq []) (queues ps') /\ nb' = nb + zlen (concat (queues ps)) /\
  exists segs, st' = fold_left func segs st /\ concat segs = concat (queues ps).
Proof.
  intros Hok. revert nb st. induction Hok as [|b ps Hb Hps IH]; intros nb st Hnb Hsum; simpl in *.
  { split; [constructor|]. split; [constructor|]. change (zlen _) with 0. split; [lia|]. by exists []. }
  pose proof (rb_consume_all_spec func st b Hb) as HD. destruct (rb_consume_all func st b) as [[n st1] b1].
  destruct HD as (Hb1 & _ & -> & Hc & -> & Hseg). rewrite zlen_app in *.
  pose proof (zlen_nonneg (rb_contents b)). pose proof (zlen_nonneg (concat (queues ps))).
  rewrite u64_small by lia.
  specialize (IH (nb + zlen (rb_contents b)) (fold_left func (segments (idx b) (array_ b) (max_size_ b)) st)
                 ltac:(lia) ltac:(lia)).
  destruct (consume_all_loop _ _ _ _) as [[nb' st'] ps'].
  destruct IH as (IH1 & IH2 & IH3 & segs & IH4 & IH5). split; [by constructor|]. simpl.
  split; [by constructor|]. split; [lia|]. eexists (_ ++ segs). rewrite fold_left_app. split; [exact IH4|].
  by rewrite concat_app, Hseg, IH5.
Qed.

(** An operation on one ring leaves the others alone. *)
Lemma on_ring_queues {R} (f : ringbuffer A -> R * ringbuffer A) index ps b :
  zget ps index = Some b -> on_ring f index ps = Some ((f b).1, zput ps index (f b).2).
Proof. intros H. unfold on_ring. rewrite H. by destruct (f b). Qed.

Lemma queues_put ps index b : queues (zput ps index b) = zput (queues ps) index (rb_contents b).
Proof. unfold queues, zput. zcase; [done|]. apply list_fmap_insert. Qed.

Lemma mpsc_ok_put ps index b : mpsc_ok ps -> rb_ok b -> mpsc_ok (zput ps index b).
Proof. intros H Hb. unfold mpsc_ok, zput. zcase; [done|]. by apply Forall_insert. Qed.

Lemma mpsc_ok_get ps index b : mpsc_ok ps -> zget ps index = Some b -> rb_ok b.
Proof. intros H. unfold zget. zcase; [done|]. by eapply Forall_lookup_1. Qed.

End Facts.

(** * Properties *)

(** [dequeue(ret, size)] moves the first [min size total] elements of the producers'
    queues, read in producer order, to the start of the caller's array, in order and
    without gaps; the cells after them are untouched, what it leaves behind is exactly the
    rest, and every producer keeps a suffix of its own queue. *)
Theorem mpsc_dequeue_in_order {A} (out : list A) (size : Z) (ps : mpsc A) :
  mpsc_ok ps -> 0 <= size <= zlen out -> zlen out < 2 ^ 64 ->
  let '(n, out', ps') := mpsc_dequeue out size ps in
  let all := concat (queues ps) in
  n = Z.min size (zlen all) /\ out' = zcopy out 0 (zslice all 0 n) /\
  concat (queues ps') = zslice all n (zlen all - n) /\ mpsc_ok ps' /\
  Forall2 (fun q q' => exists p, q = p ++ q') (queues ps) (queues ps').
Proof.
  intros Hok Hs Ho. unfold mpsc_dequeue.
  pose proof (dequeue_loop_spec out 0 size ps Hok ltac:(lia) ltac:(lia) ltac:(lia)) as HL.
  pose proof (take_in_order_concat size (queues ps) ltac:(lia)) as HT.
  destruct (dequeue_loop out 0 size ps) as [[size' out'] ps']. destruct HL as (H1 & H2 & H3 & H4).
  rewrite H2 in HT. destruct HT as (Hall & Hlen & Hsuf). rewrite u64_small by lia.
  assert (zlen out' = zlen out) as Hlo by (by rewrite H4, zlen_copy).
  rewrite zlen_slice in Hlen by lia. rewrite H4 at 1.
  set (got := zslice out' 0 (size - size')) in *.
  assert (zlen got = size - size') as Hgot by (apply zlen_slice; lia).
  split; [done|]. rewrite Hall, !zlen_app.
  rewrite zslice_app_l, <- Hgot, zslice_all by lia. split; [done|]. split; [|done].
  rewrite zslice_app_r. replace (_ + _ - _) with (zlen (concat (queues ps'))) by lia.
  by rewrite zslice_all.
Qed.

Lemma mpsc_dequeue_in_order_witness :
  let ring q := (rb_enqueue_bulk true q (make 3 [0; 0; 0; 0])).2 in
  let '(n, out', ps') := mpsc_dequeue [9; 9; 9; 9] 3 [ring [1; 2]; ring []; ring [3; 4]] in
  n = 3 /\ out' = [1; 2; 3; 9] /\ queues ps' = [[]; []; [4]] /\
  concat (queues ps') = zslice [1; 2; 3; 4] 3 (4 - 3).
Proof.
  pose proof (mpsc_dequeue_in_order [9; 9; 9; 9] 3
    [(rb_enqueue_bulk true [1; 2] (make 3 [0; 0; 0; 0])).2; (make 3 [0; 0; 0; 0]);
     (rb_enqueue_bulk true [3; 4] (make 3 [0; 0; 0; 0])).2]) as H.
  specialize (H ltac:(repeat constructor; simpl; vm_compute; congruence) ltac:(vm_compute; split; congruence) ltac:(reflexivity)).
  vm_compute in H |- *. destruct H as (_ & _ & H & _). auto.
Defined.

(** [consume_all(func, scratch, chunk)] takes at most [chunk] elements from every
    producer, none starving another: it hands [func] the first [min chunk length] elements
    of each non-empty queue as one contiguous batch, in producer order, leaves the rest of
    each queue in place, and returns the number of elements handed over. *)
Theorem mpsc_consume_chunk_fair {A S} (func : S -> list A -> S) (st : S) (scratch : list A) (chunk : Z) (ps : mpsc A) :
  mpsc_ok ps -> 0 <= chunk <= zlen scratch -> zlen scratch < 2 ^ 64 ->
  zlen (concat (chunks chunk (queues ps))) < 2 ^ 64 ->
  let '(nb, st', _, ps') := mpsc_consume_chunk func st scratch chunk ps in
  nb = zlen (concat (chunks chunk (queues ps))) /\
  st' = fold_left (hand func) (chunks chunk (queues ps)) st /\
  queues ps' = after_chunk chunk (queues ps) /\ mpsc_ok ps'.
Proof.
  intros Hok Hc Hs Hsum. unfold mpsc_consume_chunk.
  pose proof (consume_chunk_loop_spec func 0 st scratch chunk ps Hok ltac:(lia) Hc Hs ltac:(lia)) as HL.
  destruct (consume_chunk_loop _ _ _ _ _ _) as [[[nb st'] scratch'] ps'].
  by destruct HL as (? & ? & ? & ?).
Qed.

Lemma mpsc_consume_chunk_fair_witness :
  let ring q := (rb_enqueue_bulk true q (make 3 [0; 0; 0; 0])).2 in
  let '(nb, seen, _, ps') := mpsc_consume_chunk (fun l b => l ++ [b]) [] [0; 0] 2 [ring [1; 2; 3]; ring []; ring [4]] in
  nb = 3 /\ seen = [[1; 2]; [4]] /\ queues ps' = [[3]; []; []].
Proof.
  pose proof (mpsc_consume_chunk_fair (fun l b => l ++ [b]) [] [0; 0] 2
    [(rb_enqueue_bulk true [1; 2; 3] (make 3 [0; 0; 0; 0])).2; (make 3 [0; 0; 0; 0]);
     (rb_enqueue_bulk true [4] (make 3 [0; 0; 0; 0])).2]) as H.
  specialize (H ltac:(repeat constructor; simpl; vm_compute; congruence) ltac:(vm_compute; split; congruence)
                ltac:(reflexivity) ltac:(reflexivity)).
  vm_compute in H |- *. destruct H as (H1 & H2 & H3 & _). auto.
Defined.

(** Of the two indexed bulk enqueues, the run-time one honours [_All] and the
    template-indexed one does not: asked for as many elements as fit ([_All = false]) on a
    ring with some room but not enough, the first stores what fits and the second nothing. *)
Theorem static_bulk_enqueue_drops_all_flag {A} (index : Z) (t : list A) (ps : mpsc A) (b : ringbuffer A) :
  mpsc_ok ps -> zget ps index = Some b -> zlen t < 2 ^ 64 ->
  0 < capacity b - zlen (rb_contents b) < zlen t ->
  (exists ps', enqueue_bulk_at false index t ps = Some (capacity b - zlen (rb_contents b), ps')) /\
  (exists ps', enqueue_bulk_static false index t ps = Some (0, ps') /\ queues ps' = queues ps).
Proof.
  intros Hok Hget Ht Hroom. pose proof (mpsc_ok_get _ _ _ Hok Hget) as Hb.
  unfold enqueue_bulk_at, enqueue_bulk_static. rewrite !(on_ring_queues _ _ _ _ Hget).
  pose proof (rb_enqueue_bulk_spec false t b Hb Ht) as H1.
  pose proof (rb_enqueue_bulk_spec true t b Hb Ht) as H2.
  destruct (rb_enqueue_bulk false t b) as [n1 b1]. destruct (rb_enqueue_bulk true t b) as [n2 b2]. simpl.
  destruct H1 as (_ & _ & -> & _). destruct H2 as (_ & _ & -> & Hc2). unfold accepted in *.
  split; [eexists; do 2 f_equal; lia|]. zcases; [|lia]. eexists. split; [done|].
  rewrite queues_put, Hc2, zslice_nil, app_nil_r by lia.
  unfold queues, zput, zget in *. zcase_in Hget; [done|]. apply list_insert_id.
  by rewrite list_lookup_fmap, Hget.
Qed.

Lemma static_bulk_enqueue_drops_all_flag_witness :
  let ps := [make 2 [0; 0; 0]] in
  (exists ps', enqueue_bulk_at false 0 [1; 2; 3] ps = Some (2, ps')) /\
  (exists ps', enqueue_bulk_static false 0 [1; 2; 3] ps = Some (0, ps') /\ queues ps' = queues ps).
Proof.
  apply (static_bulk_enqueue_drops_all_flag 0 [1; 2; 3] [make 2 [0; 0; 0]] (make 2 [0; 0; 0]));
    [repeat constructor; vm_compute; congruence | reflexivity | reflexivity | vm_compute; auto].
Defined.
