(* ===== verification/MpscQueue.v ===== *)
(** Unbounded multi-producer single-consumer queue
    (src/qb/system/lockfree/mpsc_unbounded_queue.h).

    A linked list of heap nodes behind a sentinel. [push] and [pop] are split at their
    atomic accesses and interleaved: any number of producer threads, one consumer. Node
    addresses are integers, [nullptr] is [None], an allocation may return any address that
    is not in use, so freed addresses come back. *)

From S2P Require Import Prelude.

Section Queue.
Context {A : Type}.

Record node := Node { next : option Z; value : option A }.

(** Where a thread stands in [push]: before the [tail_] exchange, before the [count_]
    increment, before the link store. *)
Inductive push_pc :=
  | PExchange (node : Z)
  | PCount (node prev : Z)
  | PLink (node prev : Z).

(** Where the consumer stands in [pop]. *)
Inductive pop_pc :=
  | CIdle
  | CNext (node : Z)
  | CTail (node : Z)
  | CSpin (node : Z)
  | CHead (node nxt : Z)
  | CMove (node nxt : Z)
  | CCount (node : Z)
  | CDelete (node : Z).

(** [chain], [pushed] and [popped] are history: the nodes behind the head in exchange
    order with their value and whether they are counted, the values pushed (in exchange
    order) and the values popped. *)
Record queue := Queue {
  heap : gmap Z node;
  head_ : Z;
  tail_ : Z;
  count_ : Z;
  producers : gmap Z push_pc;
  consumer : pop_pc;
  chain : list (Z * A * bool);
  pushed : list A;
  popped : list A
}.

(** [mpsc_unbounded_queue()]: the sentinel at address [s]. *)
Definition create (s : Z) : queue := Queue {[ s := Node None None ]} s s 0 ∅ CIdle [] [] [].

Definition set_next (h : gmap Z node) (a n : Z) : gmap Z node :=
  alter (fun nd => Node (Some n) (value nd)) a h.

Definition clear_value (h : gmap Z node) (a : Z) : gmap Z node :=
  alter (fun nd => Node (next nd) None) a h.

Definition mark_counted (n : Z) (c : list (Z * A * bool)) : list (Z * A * bool) :=
  map (fun '(a, v, f) => if decide (a = n) then (a, v, true) else (a, v, f)) c.

(** [new Node(std::move(item))] and the relaxed store of its null [next]. *)
Definition do_alloc (t a : Z) (item : A) (q : queue) : queue :=
  Queue (<[a := Node None (Some item)]> (heap q)) (head_ q) (tail_ q) (count_ q)
        (<[t := PExchange a]> (producers q)) (consumer q) (chain q) (pushed q) (popped q).

(** [tail_.exchange(node)] *)
Definition do_exchange (t a : Z) (item : A) (q : queue) : queue :=
  Queue (heap q) (head_ q) a (count_ q) (<[t := PCount a (tail_ q)]> (producers q)) (consumer q)
        (chain q ++ [(a, item, false)]) (pushed q ++ [item]) (popped q).

(** [count_.fetch_add(1)] *)
Definition do_count (t a prev : Z) (q : queue) : queue :=
  Queue (heap q) (head_ q) (tail_ q) (count_ q +s 1) (<[t := PLink a prev]> (producers q)) (consumer q)
        (mark_counted a (chain q)) (pushed q) (popped q).

(** [prev->next.store(node)] *)
Definition do_link (t a prev : Z) (q : queue) : queue :=
  Queue (set_next (heap q) prev a) (head_ q) (tail_ q) (count_ q) (delete t (producers q)) (consumer q)
        (chain q) (pushed q) (popped q).

Definition set_consumer (c : pop_pc) (q : queue) : queue :=
  Queue (heap q) (head_ q) (tail_ q) (count_ q) (producers q) c (chain q) (pushed q) (popped q).

(** [head_.store(next)] *)
Definition do_head (a nxt : Z) (q : queue) : queue :=
  Queue (heap q) nxt (tail_ q) (count_ q) (producers q) (CMove a nxt) (tail (chain q)) (pushed q) (popped q).

(** [out = std::move(next->value)] *)
Definition do_move (a nxt : Z) (v : A) (q : queue) : queue :=
  Queue (clear_value (heap q) nxt) (head_ q) (tail_ q) (count_ q) (producers q) (CCount a)
        (chain q) (pushed q) (popped q ++ [v]).

(** [count_.fetch_sub(1)] *)
Definition do_uncount (a : Z) (q : queue) : queue :=
  Queue (heap q) (head_ q) (tail_ q) (count_ q -s 1) (producers q) (CDelete a) (chain q) (pushed q) (popped q).

(** [delete node; return true] *)
Definition do_delete (a : Z) (q : queue) : queue :=
  Queue (delete a (heap q)) (head_ q) (tail_ q) (count_ q) (producers q) CIdle (chain q) (pushed q) (popped q).

Inductive step (q : queue) : queue -> Prop :=
  | step_alloc t a item :
      producers q !! t = None -> heap q !! a = None -> step q (do_alloc t a item q)
  | step_exchange t a nd item :
      producers q !! t = Some (PExchange a) -> heap q !! a = Some nd -> value nd = Some item ->
      step q (do_exchange t a item q)
  | step_count t a prev :
      producers q !! t = Some (PCount a prev) -> step q (do_count t a prev q)
  | step_link t a prev nd :
      producers q !! t = Some (PLink a prev) -> heap q !! prev = Some nd -> step q (do_link t a prev q)
  | step_pop : consumer q = CIdle -> step q (set_consumer (CNext (head_ q)) q)
  | step_next_set a nd n :
      consumer q = CNext a -> heap q !! a = Some nd -> next nd = Some n -> step q (set_consumer (CHead a n) q)
  | step_next_null a nd :
      consumer q = CNext a -> heap q !! a = Some nd -> next nd = None -> step q (set_consumer (CTail a) q)
  | step_tail_same a : consumer q = CTail a -> tail_ q = a -> step q (set_consumer CIdle q)
  | step_tail_other a : consumer q = CTail a -> tail_ q <> a -> step q (set_consumer (CSpin a) q)
  | step_spin a nd : consumer q = CSpin a -> heap q !! a = Some nd -> next nd = None -> step q q
  | step_spin_set a nd n :
      consumer q = CSpin a -> heap q !! a = Some nd -> next nd = Some n -> step q (set_consumer (CHead a n) q)
  | step_head a n : consumer q = CHead a n -> step q (do_head a n q)
  | step_move a n nd v :
      consumer q = CMove a n -> heap q !! n = Some nd -> value nd = Some v -> step q (do_move a n v q)
  | step_uncount a : consumer q = CCount a -> step q (do_uncount a q)
  | step_delete a : consumer q = CDelete a -> step q (do_delete a q).

Inductive reachable (s : Z) : queue -> Prop :=
  | reach_create : reachable s (create s)
  | reach_step q q' : reachable s q -> step q q' -> reachable s q'.

(** [size()] and [empty()]. *)
Definition size (q : queue) : Z := count_ q.

Definition empty (q : queue) : option bool :=
  match heap q !! head_ q with
  | Some nd => Some (bool_decide (next nd = None) && (tail_ q =? head_ q))
  | None => None
  end.

(** [~mpsc_unbounded_queue()]: free the list from the head on; [None] is a use after free. *)
Fixpoint destroy (fuel : nat) (n : option Z) (h : gmap Z node) : option (gmap Z node) :=
  match n, fuel with
  | None, _ => Some h
  | Some a, O => None
  | Some a, S fuel =>
      match h !! a with
      | Some nd => destroy fuel (next nd) (delete a h)
      | None => None
      end
  end.

End Queue.

Arguments queue : clear implicits.

(** * Adjacent elements of a list *)

Definition adj (l : list Z) (p n : Z) : Prop := exists i, l !! i = Some p /\ l !! S i = Some n.

Lemma adj_inj_r l p p' n : NoDup l -> adj l p n -> adj l p' n -> p = p'.
Proof.
  intros Hd (i & H1 & H2) (j & H3 & H4).
  assert (S i = S j) by (eapply NoDup_lookup; eauto). naive_solver.
Qed.

Lemma adj_inj_l l p n n' : NoDup l -> adj l p n -> adj l p n' -> n = n'.
Proof.
  intros Hd (i & H1 & H2) (j & H3 & H4).
  assert (i = j) by (eapply NoDup_lookup; eauto). naive_solver.
Qed.

Lemma adj_elem l p n : adj l p n -> p ∈ l /\ n ∈ l.
Proof. intros (i & H1 & H2). split; by eapply list_elem_of_lookup_2. Qed.

Lemma adj_cons x l p n : adj (x :: l) p n <-> (p = x /\ l !! 0%nat = Some n) \/ adj l p n.
Proof.
  split.
  - intros ([|i] & H1 & H2); simpl in *; [left; naive_solver|]. right. by exists i.
  - intros [[-> H]|(i & H1 & H2)]; [by exists 0%nat|by exists (S i)].
Qed.

Lemma adj_snoc l x p n : adj (l ++ [x]) p n <-> adj l p n \/ (last l = Some p /\ n = x).
Proof.
  split.
  - intros (i & H1 & H2). apply lookup_app_Some in H2 as [H2|[Hi H2]].
    + left. exists i. split; [|done]. apply lookup_lt_Some in H2. by rewrite lookup_app_l in H1 by lia.
    + apply list_lookup_singleton_Some in H2 as [Hl <-]. right. split; [|done].
      rewrite last_lookup. replace (pred (length l)) with i by lia. by rewrite lookup_app_l in H1 by lia.
  - intros [(i & H1 & H2)|[Hl ->]].
    + exists i. split; by apply lookup_app_l_Some.
    + rewrite last_lookup in Hl. pose proof (lookup_lt_Some _ _ _ Hl). exists (pred (length l)).
      split; [by apply lookup_app_l_Some|]. replace (S (pred (length l))) with (length l) by lia.
      apply list_lookup_middle. lia.
Qed.

(** The last element has no successor. *)
Lemma adj_last l p n : NoDup l -> last l = Some p -> ~ adj l p n.
Proof.
  intros Hd Hl (i & H1 & H2). rewrite last_lookup in Hl.
  assert (i = pred (length l)) by (eapply NoDup_lookup; eauto). apply lookup_lt_Some in H2. lia.
Qed.

(** * The invariant *)

Section Invariant.
Context {A : Type}.
Implicit Types (q : queue A) (h : gmap Z (@node A)).

Definition entry_addr (c : Z * A * bool) : Z := c.1.1.
Definition entry_value (c : Z * A * bool) : A := c.1.2.
Definition counted (c : Z * A * bool) : bool := c.2.

Definition addrs q : list Z := head_ q :: map entry_addr (chain q).

#[local] Arguments addrs : simpl never.

Definition pc_node (pc : push_pc) : Z :=
  match pc with PExchange a | PCount a _ | PLink a _ => a end.

(** The unlinked node the consumer has yet to delete. *)
Definition garbage q : option Z :=
  match consumer q with CMove a _ | CCount a | CDelete a => Some a | _ => None end.

(** 1 between the head store and the decrement of [count_]. *)
Definition uncounted q : Z := match consumer q with CMove _ _ | CCount _ => 1 | _ => 0 end.

(** The value the consumer has unlinked and not yet moved out. *)
Definition in_hand q : list A :=
  match consumer q with
  | CMove _ n => match heap q !! n with Some (Node _ (Some v)) => [v] | _ => [] end
  | _ => []
  end.

Definition pending_link q (p n : Z) : Prop :=
  exists t, producers q !! t = Some (PCount n p) \/ producers q !! t = Some (PLink n p).

Definition null_next q (a : Z) : Prop := exists v, heap q !! a = Some (Node None v).

Definition push_ok q (pc : push_pc) : Prop :=
  match pc with
  | PExchange a => (exists v, heap q !! a = Some (Node None (Some v))) /\ (a ∉ addrs q) /\ garbage q <> Some a
  | PCount a p => adj (addrs q) p a /\ null_next q p /\ exists v, (a, v, false) ∈ chain q
  | PLink a p => adj (addrs q) p a /\ null_next q p
  end.

Definition pop_ok q : Prop :=
  match consumer q with
  | CNext a | CTail a | CSpin a => a = head_ q
  | CHead a n => a = head_ q /\ exists v, heap q !! a = Some (Node (Some n) v)
  | CMove a n => n = head_ q /\ exists nx v, heap q !! n = Some (Node nx (Some v))
  | _ => True
  end.

Record inv q : Prop := Inv {
  i_nodup : NoDup (addrs q);
  i_tail : last (addrs q) = Some (tail_ q);
  i_values : forall c, c ∈ chain q -> exists nx, heap q !! entry_addr c = Some (Node nx (Some (entry_value c)));
  i_head : is_Some (heap q !! head_ q);
  i_last : null_next q (tail_ q);
  i_links : forall p n, adj (addrs q) p n ->
    (exists v, heap q !! p = Some (Node (Some n) v)) \/ (null_next q p /\ pending_link q p n);
  i_flags : forall c, c ∈ chain q -> counted c = false ->
    exists t p, producers q !! t = Some (PCount (entry_addr c) p);
  i_push : forall t pc, producers q !! t = Some pc -> push_ok q pc;
  i_inj : forall t t' pc pc', producers q !! t = Some pc -> producers q !! t' = Some pc' ->
    pc_node pc = pc_node pc' -> t = t';
  i_garbage : forall a, garbage q = Some a -> is_Some (heap q !! a) /\ a ∉ addrs q;
  i_pop : pop_ok q;
  i_dom : forall a, is_Some (heap q !! a) ->
    a ∈ addrs q \/ garbage q = Some a \/ exists t, producers q !! t = Some (PExchange a);
  i_hist : pushed q = popped q ++ in_hand q ++ map entry_value (chain q);
  i_count : count_ q = u64 (zlen (filter counted (chain q)) + uncounted q)
}.

Lemma filter_uncounted_snoc (l : list (Z * A * bool)) a v :
  filter counted (l ++ [(a, v, false)]) = filter counted l.
Proof. rewrite filter_app, (filter_cons_False _ (a, v, false)) by (simpl; tauto). apply app_nil_r. Qed.

Lemma mark_counted_addrs n (c : list (Z * A * bool)) : map entry_addr (mark_counted n c) = map entry_addr c.
Proof. unfold mark_counted. rewrite map_map. apply map_ext. intros [[a v] f]. by case_decide. Qed.

Lemma mark_counted_values n (c : list (Z * A * bool)) : map entry_value (mark_counted n c) = map entry_value c.
Proof. unfold mark_counted. rewrite map_map. apply map_ext. intros [[a v] f]. by case_decide. Qed.

Lemma mark_counted_elem n (c : list (Z * A * bool)) a v f :
  (a, v, f) ∈ mark_counted n c <-> (exists f0, (a, v, f0) ∈ c /\ f = if decide (a = n) then true else f0).
Proof.
  unfold mark_counted. rewrite list_elem_of_fmap. split.
  - intros ([[a' v'] f'] & E & Hin). exists f'. case_decide; simplify_eq; by case_decide.
  - intros (f0 & Hin & ->). exists (a, v, f0). split; [|done]. by case_decide.
Qed.

Lemma mark_counted_other n (c : list (Z * A * bool)) : n ∉ map entry_addr c -> mark_counted n c = c.
Proof.
  induction c as [|[[a v] f] c IH]; simpl; [done|].
  intros [Hn Hc]%not_elem_of_cons. rewrite decide_False by (intros ->; by apply Hn). f_equal. by apply IH.
Qed.

Lemma mark_counted_count n v (c : list (Z * A * bool)) :
  NoDup (map entry_addr c) -> (n, v, false) ∈ c ->
  zlen (filter counted (mark_counted n c)) = zlen (filter counted c) + 1.
Proof.
  induction c as [|[[a v'] f] c IH]; simpl; [by intros _ ?%elem_of_nil|].
  intros [Hna Hnd]%NoDup_cons [E|Hin]%elem_of_cons.
  - simplify_eq. rewrite decide_True by done. rewrite mark_counted_other by done.
    rewrite filter_cons_True, filter_cons_False by (simpl; tauto). unfold zlen. simpl. lia.
  - assert (a <> n) by (intros ->; apply Hna, list_elem_of_fmap; by exists (n, v, false)).
    rewrite decide_False by done. specialize (IH Hnd Hin). unfold zlen in *.
    rewrite !filter_cons. case_decide; simpl; lia.
Qed.

Lemma inv_create s : inv (create s).
Proof.
  split; simpl; try done.
  - apply NoDup_singleton.
  - by intros c ?%elem_of_nil.
  - by rewrite lookup_singleton_eq.
  - exists None. apply lookup_singleton_eq.
  - intros p n (i & _ & H). by destruct i.
  - by intros c ?%elem_of_nil.
  - intros a [nd H]. apply lookup_singleton_Some in H as [<- _]. left. unfold addrs; simpl. set_solver.
Qed.

(** ** Producer steps *)

Lemma inv_alloc t a item q :
  inv q -> producers q !! t = None -> heap q !! a = None -> inv (do_alloc t a item q).
Proof.
  intros [Hnd Ht Hv Hh Hl Hk Hf Hp Hi Hg Hc Hd Hs Hn] Et Ea.
  assert (a ∉ addrs q) as Hna.
  { intros [->|[c [-> Hc']]%list_elem_of_fmap]%elem_of_cons; [rewrite Ea in Hh; by destruct Hh|].
    destruct (Hv c Hc'). congruence. }
  assert (forall b nd, heap q !! b = Some nd -> heap (do_alloc t a item q) !! b = Some nd) as Hmono.
  { intros b nd Hb. simpl. rewrite lookup_insert_ne; [done|]. congruence. }
  assert (forall b, null_next q b -> null_next (do_alloc t a item q) b) as Hnull.
  { intros b [v ?]. exists v. by apply Hmono. }
  assert (forall t' pc, producers q !! t' = Some pc -> producers (do_alloc t a item q) !! t' = Some pc) as Hpm.
  { intros t' pc ?. simpl. rewrite lookup_insert_ne; [done|congruence]. }
  assert (forall t' pc, producers q !! t' = Some pc -> pc_node pc <> a) as Hfresh.
  { intros t' pc Hpc. specialize (Hp _ _ Hpc). destruct pc; simpl in *.
    - destruct Hp as [[v ?] _]. congruence.
    - destruct Hp as [[_ ?]%adj_elem _]. by intros ->.
    - destruct Hp as [[_ ?]%adj_elem _]. by intros ->. }
  split; simpl; try done.
  - intros c Hc'. destruct (Hv c Hc') as [nx ?]. exists nx. by apply Hmono.
  - destruct Hh as [nd ?]. exists nd. by apply Hmono.
  - by apply Hnull.
  - intros p n Hadj. destruct (Hk p n Hadj) as [[v ?]|[? [t' Ht']]].
    + left. exists v. by apply Hmono.
    + right. split; [by apply Hnull|]. exists t'. destruct Ht'; [left|right]; by apply Hpm.
  - intros c Hc' Hf'. destruct (Hf c Hc' Hf') as (t' & p & ?). exists t', p. by apply Hpm.
  - intros t' pc. rewrite lookup_insert_Some. intros [[<- <-]|[Hne Hpc]]; simpl.
    + split; [exists item; apply lookup_insert_eq|]. split; [done|]. intros [[? ?] _]%Hg. congruence.
    + specialize (Hp _ _ Hpc). destruct pc; simpl in *; [|destruct Hp as (? & ? & ?); auto|destruct Hp; auto].
      destruct Hp as [[v ?] ?]. split; [exists v; by apply Hmono|done].
  - intros t1 t2 pc1 pc2. rewrite !lookup_insert_Some.
    intros [[<- <-]|[? H1]] [[<- <-]|[? H2]]; simpl; try done.
    + intros E. by destruct (Hfresh _ _ H2).
    + intros E. by destruct (Hfresh _ _ H1).
    + by apply Hi.
  - intros b [[nd ?] ?]%Hg. split; [exists nd; by apply Hmono|done].
  - unfold pop_ok in *. simpl. destruct (consumer q); try done.
    + destruct Hc as [? [v ?]]. split; [done|]. exists v. by apply Hmono.
    + destruct Hc as [? (nx & v & ?)]. split; [done|]. exists nx, v. by apply Hmono.
  - intros b [nd Hb]. apply lookup_insert_Some in Hb as [[<- _]|[Hne Hb]].
    + right; right. exists t. apply lookup_insert_eq.
    + destruct (Hd b ltac:(eauto)) as [|[|[t' ?]]]; [by left|by right; left|].
      right; right. exists t'. by apply Hpm.
  - unfold in_hand, pop_ok in *. simpl. destruct (consumer q); try done.
    destruct Hc as [-> (nx & v & E)]. rewrite lookup_insert_ne by congruence. done.
Qed.

Lemma inv_exchange t a item nx q :
  inv q -> producers q !! t = Some (PExchange a) -> heap q !! a = Some (Node nx (Some item)) ->
  inv (do_exchange t a item q).
Proof.
  intros [Hnd Ht Hv Hh Hl Hk Hf Hp Hi Hg Hc Hd Hs Hn] Et Ea.
  pose proof (Hp _ _ Et) as ([v Ea'] & Hna & Hga). assert (nx = None) as -> by congruence.
  set (q' := do_exchange t a item q).
  assert (addrs q' = addrs q ++ [a]) as Hadr by (unfold addrs, q'; simpl; by rewrite map_app).
  assert (forall t' pc, t' <> t -> producers q !! t' = Some pc -> producers q' !! t' = Some pc) as Hpm.
  { intros t' pc ??. simpl. rewrite lookup_insert_ne; congruence. }
  assert (forall p n, pending_link q p n -> pending_link q' p n) as Hpend.
  { intros p n [t' H]. assert (t' <> t) by (intros ->; destruct H; congruence).
    exists t'. destruct H; [left|right]; by apply Hpm. }
  assert (producers q' !! t = Some (PCount a (tail_ q))) as Et' by apply lookup_insert_eq.
  split; try done.
  - rewrite Hadr. apply NoDup_app. split; [done|]. split; [|apply NoDup_singleton].
    by intros x ? ->%list_elem_of_singleton.
  - rewrite Hadr. by rewrite last_snoc.
  - simpl. intros c [Hc'| ->%list_elem_of_singleton]%elem_of_app; [by apply Hv|]. by exists None.
  - by exists (Some item).
  - rewrite Hadr. intros p n [Hadj|[Hlast ->]]%adj_snoc.
    + destruct (Hk p n Hadj) as [|[? ?]]; [by left|]. right. auto.
    + right. assert (p = tail_ q) as -> by congruence. split; [done|]. exists t. by left.
  - simpl. intros c [Hc'| ->%list_elem_of_singleton]%elem_of_app Hf'; [|by exists t, (tail_ q)].
    destruct (Hf c Hc' Hf') as (t' & p & H). exists t', p. apply Hpm; [|done]. intros ->. congruence.
  - intros t' pc. simpl. rewrite lookup_insert_Some. intros [[<- <-]|[Hne Hpc]].
    + simpl. rewrite Hadr. split; [apply adj_snoc; by right|]. split; [done|].
      exists item. apply elem_of_app. right. by apply list_elem_of_singleton.
    + assert (pc_node pc <> a) by (intros E; apply Hne; symmetry; by apply (Hi _ _ _ _ Hpc Et)).
      specialize (Hp _ _ Hpc). destruct pc; simpl in Hp |- *; rewrite Hadr.
      * destruct Hp as (? & ? & ?). split; [done|]. split; [|done].
        rewrite not_elem_of_app. split; [done|]. by intros ->%list_elem_of_singleton.
      * destruct Hp as (? & ? & v' & ?). split; [apply adj_snoc; by left|]. split; [done|].
        exists v'. apply elem_of_app. by left.
      * destruct Hp. split; [apply adj_snoc; by left|done].
  - intros t1 t2 pc1 pc2. simpl. rewrite !lookup_insert_Some.
    intros [[<- <-]|[? H1]] [[<- <-]|[? H2]]; simpl; try done; intros E;
      [by apply (Hi _ _ _ _ Et H2)|by apply (Hi _ _ _ _ H1 Et)|by apply (Hi _ _ _ _ H1 H2)].
  - intros b Hb. destruct (Hg b Hb). split; [done|]. rewrite Hadr, not_elem_of_app. split; [done|].
    intros ->%list_elem_of_singleton. by apply Hga.
  - intros b Hb. rewrite Hadr. destruct (Hd b Hb) as [|[|[t' Ht']]].
    + left. apply elem_of_app. by left.
    + by right; left.
    + destruct (decide (t' = t)) as [->|].
      { left. simplify_eq. apply elem_of_app. right. by apply list_elem_of_singleton. }
      right; right. exists t'. by apply Hpm.
  - simpl. rewrite Hs, map_app, !app_assoc. done.
  - simpl. by rewrite Hn, filter_uncounted_snoc.
Qed.

Lemma inv_count t a prev q :
  inv q -> producers q !! t = Some (PCount a prev) -> inv (do_count t a prev q).
Proof.
  intros [Hnd Ht Hv Hh Hl Hk Hf Hp Hi Hg Hc Hd Hs Hn] Et.
  pose proof (Hp _ _ Et) as (Hadj & Hnull & v0 & Hin).
  set (q' := do_count t a prev q).
  assert (addrs q' = addrs q) as Hadr by (unfold addrs, q'; simpl; by rewrite mark_counted_addrs).
  assert (forall t' pc, t' <> t -> producers q !! t' = Some pc -> producers q' !! t' = Some pc) as Hpm.
  { intros t' pc ??. simpl. rewrite lookup_insert_ne; congruence. }
  assert (producers q' !! t = Some (PLink a prev)) as Et' by apply lookup_insert_eq.
  split; rewrite ?Hadr; try done.
  - simpl. intros [[b v] f] (f0 & Hb & ->)%mark_counted_elem. apply (Hv (b, v, f0) Hb).
  - intros p n Hpn. destruct (Hk p n Hpn) as [|[? [t' Ht']]]; [by left|]. right. split; [done|].
    destruct (decide (t' = t)) as [->|]; [|exists t'; destruct Ht'; [left|right]; by apply Hpm].
    exists t. right. destruct Ht'; congruence.
  - simpl. intros [[b v] f] (f0 & Hb & ->)%mark_counted_elem Hcf. unfold counted, entry_addr in *. simpl in *.
    case_decide; [done|]. subst f0. destruct (Hf (b, v, false) Hb eq_refl) as (t' & p & Ht').
    exists t', p. apply Hpm; [|done]. intros ->. unfold entry_addr in Ht'. simpl in Ht'. congruence.
  - intros t' pc. simpl. rewrite lookup_insert_Some. intros [[<- <-]|[Hne Hpc]].
    + simpl. by rewrite Hadr.
    + assert (pc_node pc <> a) by (intros E; apply Hne; symmetry; by apply (Hi _ _ _ _ Hpc Et)).
      specialize (Hp _ _ Hpc). destruct pc; simpl in *; rewrite Hadr; [done| |done].
      destruct Hp as (? & ? & v' & ?). split; [done|]. split; [done|]. exists v'.
      apply mark_counted_elem. exists false. split; [done|]. by rewrite decide_False.
  - intros t1 t2 pc1 pc2. simpl. rewrite !lookup_insert_Some.
    intros [[<- <-]|[? H1]] [[<- <-]|[? H2]]; simpl; try done; intros E;
      [by apply (Hi _ _ _ _ Et H2)|by apply (Hi _ _ _ _ H1 Et)|by apply (Hi _ _ _ _ H1 H2)].
  - intros b Hb. destruct (Hd b Hb) as [|[|[t' Ht']]]; [by left|by right; left|].
    right; right. exists t'. apply Hpm; [|done]. intros ->. congruence.
  - simpl. rewrite mark_counted_values. done.
  - simpl. rewrite (mark_counted_count _ v0), Hn, u64_add_l; [f_equal; unfold uncounted; simpl; lia| |done].
    by apply NoDup_cons in Hnd as [_ ?].
Qed.

Lemma inv_link t a prev nd q :
  inv q -> producers q !! t = Some (PLink a prev) -> heap q !! prev = Some nd -> inv (do_link t a prev q).
Proof.
  intros [Hnd Ht Hv Hh Hl Hk Hf Hp Hi Hg Hc Hd Hs Hn] Et Enode.
  pose proof (Hp _ _ Et) as (Hadj & v0 & Hnull).
  set (q' := do_link t a prev q).
  assert (forall b, b <> prev -> heap q' !! b = heap q !! b) as Hother.
  { intros b Hb. simpl. unfold set_next. by rewrite lookup_alter_ne. }
  assert (heap q' !! prev = Some (Node (Some a) v0)) as Hprev.
  { simpl. unfold set_next. by rewrite lookup_alter_eq, Hnull. }
  assert (forall b, is_Some (heap q' !! b) <-> is_Some (heap q !! b)) as Hsome.
  { intros b. destruct (decide (b = prev)) as [->|?]; [|by rewrite Hother].
    rewrite Hprev, Hnull. split; eauto. }
  assert (forall b nx v, heap q !! b = Some (Node nx v) -> exists nx', heap q' !! b = Some (Node nx' v)) as Hval.
  { intros b nx v Hb. destruct (decide (b = prev)) as [->|?]; [|rewrite Hother by done; by exists nx].
    exists (Some a). rewrite Hprev. congruence. }
  assert (forall t' pc, t' <> t -> producers q !! t' = Some pc -> producers q' !! t' = Some pc) as Hpm.
  { intros t' pc ??. simpl. rewrite lookup_delete_ne; congruence. }
  assert (forall b, b <> prev -> null_next q b -> null_next q' b) as Hnn.
  { intros b Hb [v ?]. exists v. by rewrite Hother. }
  assert (forall t' pc p n, producers q !! t' = Some pc -> t <> t' -> pc_node pc = n -> adj (addrs q) p n -> p <> prev) as Hdist.
  { intros t' pc p n Hpc Hne <- Hpn ->. apply Hne, (Hi _ _ _ _ Et Hpc). simpl. by eapply adj_inj_l. }
  split; try done.
  - intros c Hc'. destruct (Hv c Hc') as [nx Hb]. by eapply Hval.
  - by apply Hsome.
  - apply Hnn; [|done]. intros E. rewrite <- E in Hadj. by apply (adj_last _ _ a Hnd Ht).
  - intros p n Hpn. destruct (decide (p = prev)) as [->|Hne].
    { left. exists v0. rewrite Hprev. do 3 f_equal. by eapply adj_inj_l. }
    destruct (Hk p n Hpn) as [[v ?]|[? [t' Ht']]]; [left; exists v; by rewrite Hother|].
    right. split; [by apply Hnn|]. exists t'.
    assert (t' <> t) by (intros ->; destruct Ht'; congruence). destruct Ht'; [left|right]; by apply Hpm.
  - intros c Hc' Hf'. destruct (Hf c Hc' Hf') as (t' & p & Ht'). exists t', p.
    apply Hpm; [|done]. intros ->. congruence.
  - intros t' pc. simpl. rewrite lookup_delete_Some. intros [Hne Hpc].
    pose proof (Hp _ _ Hpc) as Hp'. destruct pc; simpl in *.
    + destruct Hp' as ([v Hb] & ? & ?). split; [|done]. exists v. unfold set_next. rewrite lookup_alter_ne; [done|].
      intros <-. by apply adj_elem in Hadj as [? _].
    + destruct Hp' as (? & ? & ?). split_and!; try done. apply Hnn; [by eapply Hdist|done].
    + destruct Hp' as (? & ?). split_and!; try done. apply Hnn; [by eapply Hdist|done].
  - intros t1 t2 pc1 pc2. simpl. rewrite !lookup_delete_Some. intros [_ H1] [_ H2]. by apply Hi.
  - intros b Hb. destruct (Hg b Hb). split; [by apply Hsome|done].
  - unfold pop_ok in *. simpl. destruct (consumer q) as [|x|x|x|x n|x n|x|x]; try done.
    + destruct Hc as [-> [v Hx]]. split; [done|]. exists v. change (heap q' !! head_ q = Some (Node (Some n) v)).
      rewrite Hother; [done|]. intros E. rewrite E in Hx. congruence.
    + destruct Hc as [-> (nx & v & Hx)]. split; [done|]. destruct (Hval _ _ _ Hx) as [nx' ?]. by exists nx', v.
  - intros b Hb. destruct (Hd b (proj1 (Hsome b) Hb)) as [|[|[t' Ht']]]; [by left|by right; left|].
    right; right. exists t'. apply Hpm; [|done]. intros ->. congruence.
  - simpl. rewrite Hs. do 2 f_equal. unfold in_hand, pop_ok in *. simpl. destruct (consumer q); try done.
    destruct Hc as [-> (nx & v & Hx)]. destruct (Hval _ _ _ Hx) as [nx' Hx']. simpl in Hx'. by rewrite Hx, Hx'.
Qed.

(** ** Consumer steps *)

(** States of [pop] that hold no unlinked node. *)
Definition plain (c : pop_pc) : bool :=
  match c with CMove _ _ | CCount _ | CDelete _ => false | _ => true end.

Lemma inv_set_consumer c q :
  inv q -> plain (consumer q) = true -> plain c = true -> pop_ok (set_consumer c q) -> inv (set_consumer c q).
Proof.
  intros [Hnd Ht Hv Hh Hl Hk Hf Hp Hi Hg Hc Hd Hs Hn] Hq Hc' Hok.
  assert (garbage q = None) as Eg by (unfold garbage; by destruct (consumer q)).
  assert (garbage (set_consumer c q) = None) as Eg' by (unfold garbage; by destruct c).
  assert (uncounted q = 0) as Eu by (unfold uncounted; by destruct (consumer q)).
  assert (in_hand q = []) as Ei by (unfold in_hand; by destruct (consumer q)).
  split; try done.
  - intros t pc Hpc. specialize (Hp _ _ Hpc). destruct pc; unfold push_ok in *; try done.
    rewrite Eg'. by destruct Hp as (? & ? & ?).
  - intros a. by rewrite Eg'.
  - intros a Ha. rewrite Eg'. rewrite <- Eg. by apply Hd.
  - simpl. rewrite Hs, Ei. unfold in_hand. by destruct c.
  - simpl. rewrite Hn, Eu. unfold uncounted. by destruct c.
Qed.

(** A linked successor of the head is the first node of the chain, and it is counted. *)
Lemma head_linked q n v :
  inv q -> heap q !! head_ q = Some (Node (Some n) v) ->
  exists x rest, chain q = (n, x, true) :: rest.
Proof.
  intros [Hnd Ht Hv Hh Hl Hk Hf Hp Hi Hg Hc Hd Hs Hn] Hhead.
  destruct (chain q) as [|[[b x] f] rest] eqn:E.
  { unfold addrs in Ht. rewrite E in Ht. simpl in Ht. destruct Hl as [v' Hl]. congruence. }
  assert (adj (addrs q) (head_ q) b) as Hadj by (unfold addrs; rewrite E; by exists 0%nat).
  assert (n = b) as ->.
  { destruct (Hk _ _ Hadj) as [[v' ?]|[[v' ?] _]]; congruence. }
  exists x, rest. destruct f; [done|].
  destruct (Hf (b, x, false)) as (t & p & Htp); [by left|done|].
  destruct (Hp _ _ Htp) as (Hpa & [v' Hnull] & _).
  assert (p = head_ q) as -> by (by eapply adj_inj_r). congruence.
Qed.

Lemma inv_head a n q : inv q -> consumer q = CHead a n -> inv (do_head a n q).
Proof.
  intros HI Ec. pose proof HI as [Hnd Ht Hv Hh Hl Hk Hf Hp Hi Hg Hc Hd Hs Hn].
  unfold pop_ok in Hc. rewrite Ec in Hc. destruct Hc as [-> [v0 Hhead]].
  destruct (head_linked q n v0 HI Hhead) as (x & rest & E).
  set (q' := do_head (head_ q) n q).
  assert (addrs q = head_ q :: addrs q') as Hadr by (unfold addrs, q'; simpl; by rewrite E).
  rewrite Hadr in *. apply NoDup_cons in Hnd as [Hna Hnd].
  assert (garbage q = None) as Eg by (unfold garbage; by rewrite Ec).
  assert (forall p m, null_next q p -> adj (head_ q :: addrs q') p m -> adj (addrs q') p m) as Hadj.
  { intros p m [v Hnull] [[-> _]|]%adj_cons; [congruence|done]. }
  destruct (Hv (n, x, true)) as [nx Hnx]; [rewrite E; by left|].
  split; try done.
  - intros c Hc'. apply Hv. simpl in Hc'. rewrite E in *. by right.
  - intros p m Hpm. apply Hk, adj_cons. by right.
  - intros c Hc'. apply Hf. simpl in Hc'. rewrite E in *. by right.
  - intros t pc Hpc. pose proof (Hp _ _ Hpc) as Hp'. destruct pc as [b|b p|b p]; simpl in Hp' |- *; rewrite Hadr in Hp'.
    + destruct Hp' as (? & [? ?]%not_elem_of_cons & ?). split_and!; [done|done|]. unfold garbage. simpl. congruence.
    + destruct Hp' as (? & ? & v & Hin). split_and!; [by apply Hadj|done|]. exists v.
      rewrite E in Hin |- *. apply elem_of_cons in Hin as [?|?]; [congruence|done].
    + destruct Hp' as (? & ?). split_and!; [by apply Hadj|done].
  - intros b Hb. unfold garbage in Hb. simpl in Hb. simplify_eq. done.
  - unfold pop_ok. simpl. split; [done|]. by exists nx, x.
  - intros b Hb. unfold garbage. simpl.
    destruct (Hd b Hb) as [[->|]%elem_of_cons|[|?]]; [by right; left|by left|congruence|by right; right].
  - simpl. rewrite Hs. unfold in_hand. rewrite Ec. simpl. unfold entry_addr in Hnx. simpl in Hnx. rewrite Hnx, E. done.
  - simpl. rewrite Hn, E, filter_cons_True by done. unfold uncounted, zlen. rewrite Ec. simpl. f_equal. lia.
Qed.

Lemma inv_move a n nx v q :
  inv q -> consumer q = CMove a n -> heap q !! n = Some (Node nx (Some v)) -> inv (do_move a n v q).
Proof.
  intros [Hnd Ht Hv Hh Hl Hk Hf Hp Hi Hg Hc Hd Hs Hn] Ec En.
  unfold pop_ok in Hc. rewrite Ec in Hc. destruct Hc as [-> _].
  set (q' := do_move a (head_ q) v q).
  assert (forall b, b <> head_ q -> heap q' !! b = heap q !! b) as Hother.
  { intros b Hb. simpl. unfold clear_value. by rewrite lookup_alter_ne. }
  assert (heap q' !! head_ q = Some (Node nx None)) as Hnew.
  { simpl. unfold clear_value. by rewrite lookup_alter_eq, En. }
  assert (forall b nx' v', heap q !! b = Some (Node nx' v') -> exists v'', heap q' !! b = Some (Node nx' v'')) as Hnext.
  { intros b nx' v' Hb. destruct (decide (b = head_ q)) as [->|?]; [|rewrite Hother by done; eauto].
    exists None. rewrite Hnew. congruence. }
  assert (forall b, is_Some (heap q' !! b) <-> is_Some (heap q !! b)) as Hsome.
  { intros b. destruct (decide (b = head_ q)) as [->|?]; [rewrite Hnew, En; split; eauto|by rewrite Hother]. }
  assert (forall b, null_next q b -> null_next q' b) as Hnn.
  { intros b [v' Hb]. destruct (Hnext _ _ _ Hb) as [v'' ?]. by exists v''. }
  assert (garbage q' = garbage q) as Eg by (unfold garbage; simpl; by rewrite Ec).
  pose proof (proj1 (proj1 (NoDup_cons _ _) Hnd)) as Hnotin.
  split; try done.
  - intros c Hc'. destruct (Hv c Hc') as [nx' Hb]. exists nx'. rewrite Hother; [done|].
    intros E. apply Hnotin, list_elem_of_fmap. by exists c.
  - by apply Hnn.
  - intros p m Hpm. destruct (Hk p m Hpm) as [[v' Hb]|[? ?]]; [left|right; auto].
    destruct (Hnext _ _ _ Hb) as [v'' ?]. by exists v''.
  - intros t pc Hpc. pose proof (Hp _ _ Hpc) as Hp'. destruct pc as [b|b p|b p]; unfold push_ok in *.
    + destruct Hp' as ([v' Hb] & Hnb & ?). rewrite Eg. split; [|done]. exists v'. rewrite Hother; [done|].
      intros ->. apply Hnb. by left.
    + destruct Hp' as (? & ? & ?). auto.
    + destruct Hp' as (? & ?). auto.
  - intros b Hb. rewrite Eg in Hb. destruct (Hg b Hb). split; [by apply Hsome|done].
  - intros b Hb. rewrite Eg. apply Hd. by apply Hsome.
  - simpl. rewrite Hs. unfold in_hand. rewrite Ec, En. simpl. by rewrite <- app_assoc.
  - simpl. rewrite Hn. unfold uncounted. simpl. by rewrite Ec.
Qed.

Lemma inv_uncount a q : inv q -> consumer q = CCount a -> inv (do_uncount a q).
Proof.
  intros [Hnd Ht Hv Hh Hl Hk Hf Hp Hi Hg Hc Hd Hs Hn] Ec.
  assert (garbage (do_uncount a q) = garbage q) as Eg by (unfold garbage; simpl; by rewrite Ec).
  split; try done.
  - intros t pc Hpc. specialize (Hp _ _ Hpc). destruct pc; unfold push_ok in *; try done. by rewrite Eg.
  - intros b. rewrite Eg. apply Hg.
  - intros b. rewrite Eg. apply Hd.
  - simpl. rewrite Hs. unfold in_hand. simpl. by rewrite Ec.
  - simpl. rewrite Hn, u64_sub_l. unfold uncounted. simpl. rewrite Ec. f_equal. lia.
Qed.

Lemma inv_delete a q : inv q -> consumer q = CDelete a -> inv (do_delete a q).
Proof.
  intros [Hnd Ht Hv Hh Hl Hk Hf Hp Hi Hg Hc Hd Hs Hn] Ec.
  assert (garbage q = Some a) as Eg by (unfold garbage; by rewrite Ec).
  destruct (Hg a Eg) as [_ Hna]. set (q' := do_delete a q).
  assert (forall b, b ∈ addrs q -> heap q' !! b = heap q !! b) as Hin.
  { intros b Hb. simpl. rewrite lookup_delete_ne; [done|]. by intros ->. }
  assert (forall b, b ∈ addrs q -> null_next q b -> null_next q' b) as Hnn.
  { intros b Hb [v ?]. exists v. by rewrite Hin. }
  assert (tail_ q ∈ addrs q) as Htail.
  { rewrite last_lookup in Ht. by eapply list_elem_of_lookup_2. }
  split; try done.
  - intros c Hc'. destruct (Hv c Hc') as [nx ?]. exists nx. rewrite Hin; [done|].
    right. apply list_elem_of_fmap. by exists c.
  - simpl in *. rewrite (Hin (head_ q)); [done|by left].
  - by apply Hnn.
  - intros p m Hpm. pose proof (adj_elem _ _ _ Hpm) as [Hpin _].
    destruct (Hk p m Hpm) as [[v ?]|[? ?]]; [left; exists v; by rewrite Hin|right; auto].
  - intros t pc Hpc. pose proof (Hp _ _ Hpc) as Hp'. destruct pc as [b|b p|b p]; unfold push_ok in *.
    + destruct Hp' as ([v Hb] & Hnb & Hgb). split; [|done]. exists v. simpl. rewrite lookup_delete_ne; [done|congruence].
    + destruct Hp' as (Hpa & ? & ?). pose proof (adj_elem _ _ _ Hpa) as [? _]. auto.
    + destruct Hp' as (Hpa & ?). pose proof (adj_elem _ _ _ Hpa) as [? _]. auto.
  - intros b [nd Hb]. simpl in Hb. apply lookup_delete_Some in Hb as [Hne Hb].
    destruct (Hd b ltac:(eauto)) as [|[|?]]; [by left|congruence|by right; right].
  - simpl. rewrite Hs. unfold in_hand. simpl. by rewrite Ec.
  - simpl. rewrite Hn. unfold uncounted. simpl. by rewrite Ec.
Qed.

Lemma mq_inv_step q q' : inv q -> step q q' -> inv q'.
Proof.
  intros HI HS. pose proof (i_pop _ HI) as Hc. unfold pop_ok in Hc. destruct HS as
    [| ? ? [nx ?] ? ? ? E | | | Ec | ? [nx ?] ? Ec ? E | ? [nx ?] Ec ? E | ? Ec ? | ? Ec ? | | ? [nx ?] ? Ec ? E | | ? ? [nx ?] ? ? ? E | | ];
    simpl in *; subst; rewrite ?Ec in Hc;
    eauto using inv_alloc, inv_exchange, inv_count, inv_link, inv_head, inv_move, inv_uncount, inv_delete;
    apply inv_set_consumer; rewrite ?Ec; unfold pop_ok; simpl; subst; eauto.
Qed.

Lemma mq_reachable_inv s q : reachable s q -> inv q.
Proof. induction 1; eauto using inv_create, mq_inv_step. Qed.

(** ** Consequences *)

(** Addresses the next step of each thread dereferences. *)
Definition push_derefs (pc : push_pc) : list Z :=
  match pc with PExchange _ | PCount _ _ => [] | PLink _ p => [p] end.

Definition pop_derefs q : list Z :=
  match consumer q with
  | CNext a | CSpin a | CDelete a => [a]
  | CMove _ n => [n]
  | _ => []
  end.

Lemma push_derefs_alloc q t pc a :
  inv q -> producers q !! t = Some pc -> a ∈ push_derefs pc -> is_Some (heap q !! a).
Proof.
  intros HI Hpc Ha. pose proof (i_push _ HI _ _ Hpc) as Hp.
  destruct pc as [b|b p|b p]; simpl in *; try by apply elem_of_nil in Ha.
  apply list_elem_of_singleton in Ha as ->. destruct Hp as (_ & v & ->). eauto.
Qed.

Lemma pop_derefs_alloc q a : inv q -> a ∈ pop_derefs q -> is_Some (heap q !! a).
Proof.
  intros HI Ha. pose proof (i_pop _ HI) as Hc. pose proof (i_garbage _ HI) as Hg. pose proof (i_head _ HI).
  unfold pop_derefs, pop_ok, garbage in *.
  destruct (consumer q) as [|x|x|x|x n|x n|x|x]; try (by apply elem_of_nil in Ha);
    apply list_elem_of_singleton in Ha; subst; try done.
  - by destruct Hc as [-> _].
  - by destruct (Hg _ eq_refl).
Qed.

(** Without a running push the chain is fully linked. *)
Lemma quiescent_links q p n :
  inv q -> producers q = ∅ -> adj (addrs q) p n -> exists v, heap q !! p = Some (Node (Some n) v).
Proof.
  intros HI HP Hadj. destruct (i_links _ HI _ _ Hadj) as [|[_ [t Ht]]]; [done|].
  rewrite HP in Ht. rewrite lookup_empty in Ht. by destruct Ht.
Qed.

Lemma destroy_list (l : list Z) (h : gmap Z node) :
  NoDup l ->
  (forall i a, l !! i = Some a -> exists v, h !! a = Some (Node (l !! S i) v)) ->
  (forall a, is_Some (h !! a) -> a ∈ l) ->
  destroy (length l) (l !! 0%nat) h = Some (∅ : gmap Z (@node A)).
Proof.
  revert h. induction l as [|a l IH]; intros h Hnd Hl Hdom; simpl.
  - f_equal. apply map_empty. intros b. destruct (h !! b) eqn:E; [|done].
    assert (b ∈ []) as ?%elem_of_nil by (apply Hdom; eauto). done.
  - apply NoDup_cons in Hnd as [Hna Hnd]. destruct (Hl 0%nat a eq_refl) as [v ->]. simpl.
    apply IH; [done| |].
    + intros i b Hb. destruct (Hl (S i) b Hb) as [w ?]. exists w. rewrite lookup_delete_ne; [done|].
      intros ->. apply Hna. by eapply list_elem_of_lookup_2.
    + intros b [nd Hb]. apply lookup_delete_Some in Hb as [Hne Hb].
      destruct (proj1 (elem_of_cons _ _ _) (Hdom b ltac:(eauto))); [congruence|done].
Qed.

Lemma quiescent_destroy q :
  inv q -> producers q = ∅ -> consumer q = CIdle ->
  destroy (S (length (chain q))) (Some (head_ q)) (heap q) = Some ∅.
Proof.
  intros HI HP HC. rewrite <- (length_map entry_addr (chain q)).
  apply (destroy_list (addrs q)); [apply HI| |].
  - intros i a Ha. destruct (addrs q !! S i) as [n|] eqn:En.
    + apply quiescent_links; [done|done|]. by exists i.
    + destruct (i_last _ HI) as [v Hv]. pose proof (i_tail _ HI) as Ht. rewrite last_lookup in Ht.
      apply lookup_ge_None in En. pose proof (lookup_lt_Some _ _ _ Ha).
      replace (pred (length (addrs q))) with i in Ht by lia. exists v. congruence.
  - intros a Ha. destruct (i_dom _ HI a Ha) as [|[Hg|[t Ht]]]; [done| |].
    + unfold garbage in Hg. by rewrite HC in Hg.
    + by rewrite HP, lookup_empty in Ht.
Qed.

(** Without a running push every node is counted. *)
Lemma quiescent_counted q : inv q -> producers q = ∅ -> filter counted (chain q) = chain q.
Proof.
  intros HI HP. apply filter_all. intros c Hc.
  destruct (counted c) eqn:E; [done|].
  destruct (i_flags _ HI c Hc E) as (t & p & Ht). by rewrite HP, lookup_empty in Ht.
Qed.

Lemma in_hand_len q : zlen (in_hand q) <= 1.
Proof.
  unfold in_hand, zlen. destruct (consumer q); simpl; try lia.
  destruct (heap q !! nxt) as [[? []]|]; simpl; lia.
Qed.

Lemma chain_len q : inv q -> zlen (pushed q) = zlen (popped q) + zlen (in_hand q) + zlen (chain q).
Proof. intros HI. rewrite (i_hist _ HI), !zlen_app. unfold zlen. rewrite length_map. lia. Qed.

Lemma counted_le q : 0 <= zlen (filter counted (chain q)) <= zlen (chain q).
Proof. unfold zlen. pose proof (length_filter (fun c => counted c) (chain q)). lia. Qed.

End Invariant.

(** * Properties *)

(** C8: under every interleaving of any number of producers with the consumer, the values
    popped are, in order, a prefix of the values pushed (in the order of the [tail_]
    exchanges); and when [pop] answers that the queue is empty, every value pushed so far
    has been popped. *)
Theorem mpsc_queue_fifo {A} (s : Z) (q : queue A) :
  reachable s q ->
  (exists rest, pushed q = popped q ++ rest) /\
  (forall a, consumer q = CTail a -> tail_ q = a -> pushed q = popped q).
Proof.
  intros HI%mq_reachable_inv. pose proof (i_hist _ HI) as Hh. split; [eauto|]. intros a Hc Ht.
  pose proof (i_pop _ HI) as Hp. unfold pop_ok, in_hand in *. rewrite Hc in *. subst a.
  destruct (chain q) as [|c rest] eqn:E; [by rewrite app_nil_r in Hh|].
  exfalso. apply (adj_last (addrs q) (head_ q) (entry_addr c)); [apply HI| |].
  - rewrite (i_tail _ HI). congruence.
  - unfold addrs. rewrite E. by exists 0%nat.
Qed.

(** C15: every node address that the next step of any producer or of the consumer
    dereferences is allocated, although the consumer frees nodes and freed addresses may be
    reused; and once all threads are done the destructor frees every node: no use after
    free and no leak. *)
Theorem mpsc_queue_memory_safe {A} (s : Z) (q : queue A) :
  reachable s q ->
  (forall t pc a, producers q !! t = Some pc -> a ∈ push_derefs pc -> is_Some (heap q !! a)) /\
  (forall a, a ∈ pop_derefs q -> is_Some (heap q !! a)) /\
  (producers q = ∅ -> consumer q = CIdle ->
   destroy (S (length (chain q))) (Some (head_ q)) (heap q) = Some ∅).
Proof.
  intros HI%mq_reachable_inv. split; [|split].
  - intros t pc a. by apply push_derefs_alloc.
  - intros a. by apply pop_derefs_alloc.
  - by apply quiescent_destroy.
Qed.

(** The counter behind [size()] never wraps below zero: it stays between 0 and one
    more than the number of values not yet popped, it is positive whenever [pop] is about
    to decrement it, and it is exact when no call is running. *)
Theorem mpsc_queue_count {A} (s : Z) (q : queue A) :
  reachable s q -> zlen (pushed q) < 2 ^ 63 ->
  0 <= size q <= zlen (pushed q) - zlen (popped q) + 1 /\
  (forall a, consumer q = CCount a -> 1 <= size q) /\
  (producers q = ∅ -> consumer q = CIdle -> size q = zlen (pushed q) - zlen (popped q)).
Proof.
  intros HI%mq_reachable_inv Hb. unfold size. rewrite (i_count _ HI).
  pose proof (chain_len _ HI). pose proof (counted_le q). pose proof (in_hand_len q).
  pose proof (zlen_nonneg (popped q)). pose proof (zlen_nonneg (in_hand q)).
  assert (0 <= uncounted q <= 1) by (unfold uncounted; destruct (consumer q); lia).
  rewrite u64_small by lia. split; [lia|]. split.
  - intros a Hc. unfold uncounted. rewrite Hc. lia.
  - intros HP HC. rewrite quiescent_counted by done. unfold uncounted, in_hand in *. rewrite HC in *.
    change (zlen (@nil A)) with 0 in *. lia.
Qed.

(** A run that pushes 7 from thread 1, pops it, and frees the sentinel. *)
Tactic Notation "take_step" uconstr(c) :=
  match goal with
  | H : reachable _ _ |- _ =>
      eapply reach_step in H; [|eapply c; (reflexivity || (vm_compute; congruence))]; vm_compute in H
  end.

Lemma mpsc_queue_fifo_witness :
  exists q, reachable 100 q /\ popped q = [7] /\ pushed q = [7; 8] /\ exists rest, pushed q = popped q ++ rest.
Proof.
  pose proof (reach_create (A := Z) 100) as H.
  take_step (step_alloc _ 1 200 7). take_step (step_exchange _ 1 200). take_step (step_count _ 1 200 100).
  take_step (step_alloc _ 2 300 8). take_step (step_exchange _ 2 300). take_step (step_link _ 1 200 100).
  take_step step_pop. take_step (step_next_set _ 100 _ 200). take_step (step_head _ 100 200).
  take_step (step_move _ 100 200).
  eexists. split; [exact H|]. split; [reflexivity|]. split; [reflexivity|]. apply (mpsc_queue_fifo 100 _ H).
Defined.

Lemma mpsc_queue_memory_safe_witness :
  exists q : queue Z, reachable 100 q /\ pop_derefs q = [200] /\ is_Some (heap q !! 200).
Proof.
  pose proof (reach_create (A := Z) 100) as H.
  take_step (step_alloc _ 1 200 7). take_step (step_exchange _ 1 200). take_step (step_count _ 1 200 100).
  take_step (step_link _ 1 200 100).
  take_step step_pop. take_step (step_next_set _ 100 _ 200). take_step (step_head _ 100 200).
  eexists. split; [exact H|]. split; [reflexivity|].
  apply (proj1 (proj2 (mpsc_queue_memory_safe 100 _ H))). apply list_elem_of_singleton. reflexivity.
Defined.

Lemma mpsc_queue_count_witness :
  exists q : queue Z, reachable 100 q /\ consumer q = CCount 100 /\ 1 <= size q.
Proof.
  pose proof (reach_create (A := Z) 100) as H.
  take_step (step_alloc _ 1 200 7). take_step (step_exchange _ 1 200). take_step (step_count _ 1 200 100).
  take_step (step_link _ 1 200 100).
  take_step step_pop. take_step (step_next_set _ 100 _ 200). take_step (step_head _ 100 200).
  take_step (step_move _ 100 200).
  eexists. split; [exact H|]. split; [reflexivity|].
  apply (proj1 (proj2 (mpsc_queue_count 100 _ H ltac:(reflexivity))) 100). reflexivity.
Defined.
