(* ===== verification/SpinLock.v ===== *)
(** The test-and-test-and-set spin lock (src/qb/system/lockfree/spinlock.h).

    Two views. [step] interleaves the atomic accesses of any number of threads inside
    [lock], [trylock], [trylock(spin)], [trylock_for], [trylock_until] and [unlock]; a reading
    of the clock may return anything. [trylock_spin] and [trylock_for] follow one call against
    an oracle for what the other threads and the clock do: [held i] is the value the [i]-th
    access to the flag finds, [now c] the [c]-th reading of the monotonic clock.

    Only a thread that holds the lock calls [unlock]. *)

From S2P Require Import Prelude.

(** * Interleaved threads *)

(** Where a thread stands: about to exchange or spinning on the load in [lock]; the same in
    [trylock(spin)], with the remaining budget; about to exchange in [trylock()]; about to
    exchange, to load, or to read the clock for the inner or the outer loop condition in
    [trylock_for], with its deadline; in the critical section. *)
Inductive pc :=
  | LockExchange
  | LockLoad
  | TryOnce
  | SpinExchange (spin : Z)
  | SpinLoad (spin : Z)
  | TimedExchange (finish : Z)
  | TimedLoad (finish : Z)
  | TimedInner (finish : Z)
  | TimedOuter (finish : Z)
  | Holding.

Record state := State { _lock : bool; threads : gmap Z pc }.

Definition SpinLock_init : state := State false ∅.

Definition locked (s : state) : bool := _lock s.

(** The next control point of [trylock(spin)] from the condition [spin-- > 0 && load] on:
    with no budget left the call returns ([None]). *)
Definition spin_test (spin : Z) : option pc := if 0 <? spin then Some (SpinLoad (spin - 1)) else None.
Definition spin_again (spin : Z) : option pc := if 0 <? spin then Some (SpinExchange spin) else None.

Definition set_pc (t : Z) (p : option pc) (m : gmap Z pc) : gmap Z pc :=
  match p with Some p => <[t := p]> m | None => delete t m end.

(** The points of the code at which a call makes its [exchange], which is also where it
    starts: [trylock_for] has read the clock once to compute [finish], [trylock_until] twice. *)
Definition exchanging (p : pc) : bool :=
  match p with LockExchange | TryOnce | SpinExchange _ | TimedExchange _ => true | _ => false end.

Inductive step (s : state) : state -> Prop :=
  | step_call t p :
      threads s !! t = None -> exchanging p = true -> step s (State (_lock s) (<[t := p]> (threads s)))
  | step_acquire t p :
      threads s !! t = Some p -> exchanging p = true -> _lock s = false ->
      step s (State true (<[t := Holding]> (threads s)))
  | step_lock_busy t :
      threads s !! t = Some LockExchange -> _lock s = true -> step s (State true (<[t := LockLoad]> (threads s)))
  | step_lock_load t :
      threads s !! t = Some LockLoad ->
      step s (State (_lock s) (<[t := if _lock s then LockLoad else LockExchange]> (threads s)))
  | step_try_busy t :
      threads s !! t = Some TryOnce -> _lock s = true -> step s (State true (delete t (threads s)))
  | step_spin_busy t spin :
      threads s !! t = Some (SpinExchange spin) -> _lock s = true ->
      step s (State true (set_pc t (spin_test spin) (threads s)))
  | step_spin_load t spin :
      threads s !! t = Some (SpinLoad spin) ->
      step s (State (_lock s) (set_pc t (if _lock s then spin_test spin else spin_again spin) (threads s)))
  | step_timed_busy t finish :
      threads s !! t = Some (TimedExchange finish) -> _lock s = true ->
      step s (State true (<[t := TimedLoad finish]> (threads s)))
  | step_timed_load t finish :
      threads s !! t = Some (TimedLoad finish) ->
      step s (State (_lock s) (<[t := if _lock s then TimedInner finish else TimedOuter finish]> (threads s)))
  | step_timed_inner t finish now :
      threads s !! t = Some (TimedInner finish) ->
      step s (State (_lock s) (<[t := if now <? finish then TimedLoad finish else TimedOuter finish]> (threads s)))
  | step_timed_outer t finish now :
      threads s !! t = Some (TimedOuter finish) ->
      step s (State (_lock s) (set_pc t (if now <? finish then Some (TimedExchange finish) else None) (threads s)))
  | step_unlock t :
      threads s !! t = Some Holding -> step s (State false (delete t (threads s))).

Inductive reachable : state -> Prop :=
  | reach_init : reachable SpinLock_init
  | reach_step s s' : reachable s -> step s s' -> reachable s'.

(** The flag is set exactly while one thread is in the critical section. *)
Definition lock_inv (s : state) : Prop :=
  (forall t t', threads s !! t = Some Holding -> threads s !! t' = Some Holding -> t = t') /\
  (_lock s = true <-> exists t, threads s !! t = Some Holding).

(** A thread that neither held nor comes to hold the lock moves freely. *)
Lemma lock_inv_move s t p :
  lock_inv s -> threads s !! t <> Some Holding -> p <> Some Holding ->
  lock_inv (State (_lock s) (set_pc t p (threads s))).
Proof.
  intros [Hu Hf] Ht Hp.
  assert (forall t', set_pc t p (threads s) !! t' = Some Holding <-> threads s !! t' = Some Holding) as E.
  { intros t'. destruct (decide (t' = t)) as [->|Hne]; destruct p as [p|]; simpl;
      rewrite ?lookup_insert_eq, ?lookup_delete_eq, ?(lookup_insert_ne _ t), ?(lookup_delete_ne _ t) by congruence;
      naive_solver. }
  split; simpl; [intros t1 t2; rewrite !E; apply Hu|].
  rewrite Hf. split; intros [t' H]; exists t'; by apply E.
Qed.

Lemma lock_inv_acquire s t : lock_inv s -> _lock s = false -> lock_inv (State true (<[t := Holding]> (threads s))).
Proof.
  intros [Hu Hf] Hl.
  assert (forall t', threads s !! t' <> Some Holding) as Hn by
    (intros t' Ht'; assert (_lock s = true) by (apply Hf; by exists t'); congruence).
  split; simpl.
  - intros t1 t2. rewrite !lookup_insert_Some. naive_solver.
  - split; [|done]. intros _. exists t. apply lookup_insert_eq.
Qed.

Lemma lock_inv_release s t :
  lock_inv s -> threads s !! t = Some Holding -> lock_inv (State false (delete t (threads s))).
Proof.
  intros [Hu Hf] Ht. split; simpl.
  - intros t1 t2. rewrite !lookup_delete_Some. naive_solver.
  - split; [done|]. intros [t' Ht']. apply lookup_delete_Some in Ht' as [Hne H]. by destruct Hne; apply Hu.
Qed.

Lemma lock_inv_step s s' : lock_inv s -> step s s' -> lock_inv s'.
Proof.
  intros HI HS. destruct HS as [t p Ht Hp|t p Ht Hp Hl|t Ht Hl|t Ht|t Ht Hl|t spin Ht Hl|t spin Ht
      |t finish Ht Hl|t finish Ht|t finish now Ht|t finish now Ht|t Ht].
  - apply (lock_inv_move s t (Some p) HI); [congruence|by intros [= ->]].
  - by apply lock_inv_acquire.
  - rewrite <- Hl at 1. apply (lock_inv_move s t (Some LockLoad) HI); congruence.
  - apply (lock_inv_move s t (Some (if _lock s then LockLoad else LockExchange)) HI); [congruence|by destruct (_lock s)].
  - rewrite <- Hl at 1. apply (lock_inv_move s t None HI); congruence.
  - rewrite <- Hl at 1. apply (lock_inv_move s t _ HI); [congruence|]. unfold spin_test. by zcase.
  - apply (lock_inv_move s t _ HI); [congruence|]. unfold spin_test, spin_again. by destruct (_lock s); zcase.
  - rewrite <- Hl at 1. apply (lock_inv_move s t (Some (TimedLoad finish)) HI); congruence.
  - apply (lock_inv_move s t (Some (if _lock s then TimedInner finish else TimedOuter finish)) HI); [congruence|by destruct (_lock s)].
  - apply (lock_inv_move s t (Some (if now <? finish then TimedLoad finish else TimedOuter finish)) HI); [congruence|by zcase].
  - apply (lock_inv_move s t _ HI); [congruence|by zcase].
  - by apply lock_inv_release.
Qed.

Lemma lock_reachable_inv s : reachable s -> lock_inv s.
Proof.
  induction 1; [|by eapply lock_inv_step]. split; simpl.
  - intros t t'. by rewrite lookup_empty.
  - split; [done|]. intros [t Ht]. by rewrite lookup_empty in Ht.
Qed.

(** * One bounded call *)

Section Call.
Context (held : Z -> bool) (now : Z -> Z).

(** [trylock()]: one exchange, the [i]-th access. *)
Definition trylock (i : Z) : bool * Z := (negb (held i), i + 1).

(** [while (spin-- > 0 && _lock.load()) pause]: the remaining budget and the accesses made. *)
Fixpoint spin_wait (fuel : nat) (i spin : Z) : option (Z * Z) :=
  match fuel with
  | O => None
  | S fuel =>
      if 0 <? spin then
        if held i then spin_wait fuel (i + 1) (spin - 1) else Some (i + 1, spin - 1)
      else Some (i, spin - 1)
  end.

(** [trylock(int64_t spin)] *)
Fixpoint trylock_spin (fuel : nat) (i spin : Z) : option (bool * Z) :=
  match fuel with
  | O => None
  | S fuel' =>
      let '(ok, i) := trylock i in
      if ok then Some (true, i)
      else
        match spin_wait fuel i spin with
        | None => None
        | Some (i, spin) => if 0 <? spin then trylock_spin fuel' i spin else Some (false, i)
        end
  end.

(** [while (_lock.load() && mono_now() < finish) pause] *)
Fixpoint clock_wait (fuel : nat) (i c finish : Z) : option (Z * Z) :=
  match fuel with
  | O => None
  | S fuel =>
      if held i then
        if now c <? finish then clock_wait fuel (i + 1) (c + 1) finish else Some (i + 1, c + 1)
      else Some (i + 1, c)
  end.

Fixpoint trylock_loop (fuel : nat) (i c finish : Z) : option (bool * Z) :=
  match fuel with
  | O => None
  | S fuel' =>
      let '(ok, i) := trylock i in
      if ok then Some (true, i)
      else
        match clock_wait fuel i c finish with
        | None => None
        | Some (i, c) => if now c <? finish then trylock_loop fuel' i (c + 1) finish else Some (false, i)
        end
  end.

(** [trylock_for(timespan)] reads the clock once to compute the deadline. *)
Definition trylock_for (fuel : nat) (timespan : Z) : option (bool * Z) :=
  let finish := now 0 + timespan in trylock_loop fuel 0 1 finish.

Definition trylock_until (fuel : nat) (deadline : Z) : option (bool * Z) :=
  let timespan := deadline - now 0 in
  let finish := now 1 + timespan in trylock_loop fuel 0 2 finish.

Lemma spin_wait_spec fuel i spin :
  (Z.to_nat spin < fuel)%nat ->
  exists i' spin', spin_wait fuel i spin = Some (i', spin') /\
    spin' < Z.max 1 spin /\ 0 <= i' - i <= Z.max 0 spin - Z.max 0 spin' /\ (spin <= 0 -> spin' <= 0).
Proof.
  revert i spin. induction fuel as [|fuel IH]; intros i spin Hf; [lia|]. simpl.
  destruct (Z.ltb_spec 0 spin); [|exists i, (spin - 1); split; [done|lia]].
  destruct (held i); [|exists (i + 1), (spin - 1); split; [done|lia]].
  destruct (IH (i + 1) (spin - 1)) as (i' & spin' & -> & ?); [lia|]. exists i', spin'. split; [done|lia].
Qed.

(** What a bounded attempt guarantees, whatever the other threads do: it returns, it made
    a bounded number of accesses, and it acquired the lock exactly when its last access, an
    exchange, found the lock free. *)
Lemma trylock_spin_spec fuel i spin :
  (Z.to_nat spin < fuel)%nat ->
  exists ok i', trylock_spin fuel i spin = Some (ok, i') /\
    1 <= i' - i <= Z.max 1 (2 * spin) /\ (ok = true -> held (i' - 1) = false) /\
    (held i = false -> ok = true /\ i' = i + 1).
Proof.
  revert i spin. induction fuel as [|fuel IH]; intros i spin Hf; [lia|].
  cbn -[spin_wait]. destruct (held i) eqn:E; cbn -[spin_wait].
  2:{ exists true, (i + 1). replace (i + 1 - 1) with i by lia. repeat split; done || lia. }
  destruct (spin_wait_spec (S fuel) (i + 1) spin) as (i1 & spin1 & -> & Hs1 & Hi1 & Hs0); [lia|].
  destruct (Z.ltb_spec 0 spin1); [|exists false, i1; repeat split; done || lia].
  destruct (IH i1 spin1) as (ok & i' & -> & Hi & Hok & _); [lia|].
  exists ok, i'. repeat split; done || lia.
Qed.

Lemma clock_wait_spec fuel i c finish K :
  (forall c, K <= c -> finish <= now c) -> (Z.to_nat (K - c) < fuel)%nat ->
  exists i' c', clock_wait fuel i c finish = Some (i', c') /\ c <= c' /\ i < i' /\ (c' = c -> held (i' - 1) = false).
Proof.
  intros HK. revert i c. induction fuel as [|fuel IH]; intros i c Hf; [lia|]. simpl.
  destruct (held i) eqn:E; [|exists (i + 1), c; replace (i + 1 - 1) with i by lia; repeat split; done || lia].
  destruct (Z.ltb_spec (now c) finish) as [Hlt|]; [|exists (i + 1), (c + 1); repeat split; lia].
  assert (c < K) by (destruct (decide (c < K)); [done|]; specialize (HK c); lia).
  destruct (IH (i + 1) (c + 1)) as (i' & c' & -> & ?); [lia|]. exists i', c'. repeat split; lia.
Qed.

Lemma trylock_loop_spec fuel i c finish K :
  (forall c, K <= c -> finish <= now c) -> (Z.to_nat (K - c) < fuel)%nat ->
  exists ok i', trylock_loop fuel i c finish = Some (ok, i') /\ i < i' /\
    (ok = true -> held (i' - 1) = false) /\ (held i = false -> ok = true /\ i' = i + 1).
Proof.
  intros HK. revert i c. induction fuel as [|fuel IH]; intros i c Hf; [lia|].
  cbn -[clock_wait]. destruct (held i) eqn:E; cbn -[clock_wait].
  2:{ exists true, (i + 1). replace (i + 1 - 1) with i by lia. repeat split; done || lia. }
  destruct (clock_wait_spec (S fuel) (i + 1) c finish K HK) as (i1 & c1 & -> & Hc1 & Hi1 & _); [lia|].
  destruct (Z.ltb_spec (now c1) finish); [|exists false, i1; repeat split; done || lia].
  assert (c1 < K) by (destruct (decide (c1 < K)); [done|]; specialize (HK c1); lia).
  destruct (IH i1 (c1 + 1)) as (ok & i' & -> & Hi & Hok & _); [lia|].
  exists ok, i'. repeat split; done || lia.
Qed.

End Call.

(** * Properties *)

(** C33: whatever the interleaving of [lock], [trylock()], [trylock(spin)], [trylock_for] and
    [trylock_until] calls of any number of threads that only unlock what they hold, and
    whatever the clock reads, at most one thread is in the critical section, and [locked()]
    is true exactly while one is. *)
Theorem spinlock_mutual_exclusion (s : state) :
  reachable s ->
  (forall t t', threads s !! t = Some Holding -> threads s !! t' = Some Holding -> t = t') /\
  (locked s = true <-> exists t, threads s !! t = Some Holding).
Proof. apply lock_reachable_inv. Qed.

Lemma spinlock_mutual_exclusion_witness :
  exists s, reachable s /\ threads s !! 1 = Some Holding /\ threads s !! 2 = Some (SpinLoad 4) /\
    threads s !! 3 = Some (TimedExchange 10) /\ (locked s = true <-> exists t, threads s !! t = Some Holding).
Proof.
  pose proof reach_init as H.
  eapply reach_step in H; [|apply (step_call _ 1 TryOnce); reflexivity].
  eapply reach_step in H; [|apply (step_acquire _ 1 TryOnce); reflexivity].
  eapply reach_step in H; [|apply (step_call _ 2 (SpinExchange 5)); reflexivity].
  eapply reach_step in H; [|apply (step_spin_busy _ 2 5); reflexivity].
  eapply reach_step in H; [|apply (step_call _ 3 (TimedExchange 10)); reflexivity].
  eapply reach_step in H; [|apply (step_timed_busy _ 3 10); reflexivity].
  eapply reach_step in H; [|apply (step_timed_load _ 3 10); reflexivity].
  eapply reach_step in H; [|apply (step_timed_inner _ 3 10 12); reflexivity].
  eapply reach_step in H; [|apply (step_timed_outer _ 3 10 9); reflexivity].
  eexists. split; [exact H|]. split; [reflexivity|]. split; [reflexivity|]. split; [reflexivity|].
  apply (spinlock_mutual_exclusion _ H).
Defined.

(** A bounded attempt always returns, whatever the other threads do.
    [trylock(spin)] makes at least one and at most [max(1, 2 * spin)] accesses to the flag;
    [trylock_for] returns once the clock has passed its deadline. Both report success
    exactly for an exchange that found the lock free, and take a free lock with their first
    access. *)
Theorem trylock_bounded (held : Z -> bool) (now : Z -> Z) (spin timespan K : Z) :
  (forall c, K <= c -> now 0 + timespan <= now c) ->
  (exists ok n, trylock_spin held (S (Z.to_nat spin)) 0 spin = Some (ok, n) /\
     1 <= n <= Z.max 1 (2 * spin) /\ (ok = true -> held (n - 1) = false) /\
     (held 0 = false -> ok = true /\ n = 1)) /\
  (exists ok n, trylock_for held now (S (Z.to_nat K)) timespan = Some (ok, n) /\
     1 <= n /\ (ok = true -> held (n - 1) = false) /\ (held 0 = false -> ok = true /\ n = 1)).
Proof.
  intros HK. split.
  - destruct (trylock_spin_spec held (S (Z.to_nat spin)) 0 spin) as (ok & n & -> & ? & ? & ?); [lia|].
    exists ok, n. rewrite Z.sub_0_r in *. auto.
  - destruct (trylock_loop_spec held now (S (Z.to_nat K)) 0 1 (now 0 + timespan) K HK)
      as (ok & n & E & ? & ? & ?); [lia|]. exists ok, n. unfold trylock_for. rewrite E. split; [done|]. split; [lia|done].
Qed.

Lemma trylock_bounded_witness :
  let held i := negb (i =? 3) in
  trylock_spin held 5 0 4 = Some (false, 6) /\
  trylock_for held (fun c => 10 * c) 6 25 = Some (false, 4) /\
  (exists ok n, trylock_for held (fun c => 10 * c) (S (Z.to_nat 5)) 25 = Some (ok, n) /\
     1 <= n /\ (ok = true -> held (n - 1) = false) /\ (held 0 = false -> ok = true /\ n = 1)).
Proof.
  split; [reflexivity|]. split; [vm_compute; reflexivity|].
  apply (trylock_bounded (fun i => negb (i =? 3)) (fun c => 10 * c) 4 25 5). intros c Hc. lia.
Defined.
