(* ===== verification/PipeAlloc.v ===== *)
(** The growable bucket pipe (src/qb/system/allocator/pipe.h and src/qb/io/pipe.cpp).

    [base_pipe<T>] owns one array and hands out ranges of it: elements live between
    [_begin] and [_end], space is added at the back (growing or compacting the array) or at
    the front (space freed by earlier consumption). A cell of the array is [None] until it
    is written. A pointer into the array is its offset; an exception ([std::bad_alloc]) is
    the [None] result together with the state the object is left in. [alloc_ok n] tells
    whether [std::allocator<T>::allocate(n)] succeeds. *)

From S2P Require Import Prelude.

(** [getItemSize<T, U>()]: buckets of [su] bytes needed for an object of [st] bytes. *)
Definition getItemSize (st su : Z) : Z := st / su + (if st mod su =? 0 then 0 else 1).

Definition _SIZE : Z := 4096.

Section Pipe.
Context {A : Type} (alloc_ok : Z -> bool).

Record base_pipe := BasePipe {
  _begin : Z;
  _end : Z;
  _flag_front : bool;
  _capacity : Z;
  _factor : Z;
  _data : list (option A)
}.

Definition uninit (n : Z) : list (option A) := zrepeat None n.

(** [base_pipe()] (the allocation of the first [_SIZE] cells assumed done) and the empty
    state a moved-from or a freshly copied pipe starts from. *)
Definition pipe_default : base_pipe := BasePipe 0 0 false _SIZE 1 (uninit _SIZE).
Definition pipe_moved_from : base_pipe := BasePipe 0 0 false 0 1 [].

Definition size (p : base_pipe) : Z := _end p -s _begin p.
Definition empty (p : base_pipe) : bool := _begin p =? _end p.

Definition free_front (n : Z) (p : base_pipe) : base_pipe :=
  BasePipe (_begin p +s n) (_end p) (_flag_front p) (_capacity p) (_factor p) (_data p).

Definition free_back (n : Z) (p : base_pipe) : base_pipe :=
  BasePipe (_begin p) (_end p -s n) (_flag_front p) (_capacity p) (_factor p) (_data p).

(** [reset(begin)]: everything before [begin] has been consumed. *)
Definition reset_to (begin : Z) (p : base_pipe) : base_pipe :=
  if negb (begin =? _end p)
  then BasePipe begin (_end p) (_flag_front p) (_capacity p) (_factor p) (_data p)
  else BasePipe 0 0 (_flag_front p) (_capacity p) (_factor p) (_data p).

Definition reset (p : base_pipe) : base_pipe := BasePipe 0 0 false (_capacity p) (_factor p) (_data p).

Definition free (n : Z) (p : base_pipe) : base_pipe :=
  if _flag_front p then free_front n p else free_back n p.

(** [reorder()]: move the elements to the start of the array. *)
Definition reorder (p : base_pipe) : base_pipe :=
  if _begin p =? 0 then p
  else
    let nb_item := _end p -s _begin p in
    BasePipe 0 nb_item (_flag_front p) (_capacity p) (_factor p)
             (zcopy (_data p) 0 (zslice (_data p) (_begin p) nb_item)).

(** The [do ... while] of the growth path, with the factor it leaves behind. *)
Inductive growth := Grown (new_capacity : Z) | BadAlloc | OutOfFuel.

Fixpoint grow (fuel : nat) (factor nb_item size : Z) : growth * Z :=
  match fuel with
  | O => (OutOfFuel, factor)
  | S fuel =>
      if Z.shiftl 1 32 <=? factor then (BadAlloc, factor)
      else
        let factor := u64 (Z.shiftl factor 1) in
        let new_capacity := factor *s _SIZE in
        if (nb_item <? new_capacity) && (new_capacity -s nb_item <? size)
        then grow fuel factor nb_item size
        else if (new_capacity <=? nb_item) || (new_capacity <? nb_item +s size)
        then (BadAlloc, factor)
        else (Grown new_capacity, factor)
  end.

(** Doublings of a factor that starts at 1 and stops at [2 ^ 32]. *)
Definition grow_fuel : nat := 33.

Definition allocate_back (size : Z) (p : base_pipe) : option Z * base_pipe :=
  if (size <=? _capacity p -s _end p) && (_end p <=? _capacity p) then
    (Some (_end p), BasePipe (_begin p) (_end p +s size) (_flag_front p) (_capacity p) (_factor p) (_data p))
  else
    let nb_item := _end p -s _begin p in
    let half := _capacity p / 2 in
    if (half <? _begin p) && (size <? half) then
      let p := reorder p in
      (Some nb_item, BasePipe (_begin p) (_end p +s size) (_flag_front p) (_capacity p) (_factor p) (_data p))
    else
      match grow grow_fuel (_factor p) nb_item size with
      | (Grown new_capacity, factor) =>
          if alloc_ok new_capacity then
            let new_data := uninit new_capacity in
            let new_data := if 0 <? nb_item then zcopy new_data 0 (zslice (_data p) (_begin p) nb_item) else new_data in
            (Some nb_item, BasePipe 0 (nb_item +s size) (_flag_front p) new_capacity factor new_data)
          else (None, BasePipe (_begin p) (_end p) (_flag_front p) (_capacity p) factor (_data p))
      | (_, factor) => (None, BasePipe (_begin p) (_end p) (_flag_front p) (_capacity p) factor (_data p))
      end.

(** [allocate(size)]: in front of the elements when the consumed space allows it. *)
Definition allocate (size : Z) (p : base_pipe) : option Z * base_pipe :=
  if (size +s 1 <=? _begin p) && (_begin p -s size -s 1 <? _end p) then
    let begin := _begin p -s size in
    (Some begin, BasePipe begin (_end p) true (_capacity p) (_factor p) (_data p))
  else allocate_back size (BasePipe (_begin p) (_end p) false (_capacity p) (_factor p) (_data p)).

(** [memcpy] (or placement [new]) of [src] at the pointer an allocation gave. *)
Definition store_at (r : option Z * base_pipe) (src : list (option A)) : option Z * base_pipe :=
  match r with
  | (Some off, p) => (Some off, BasePipe (_begin p) (_end p) (_flag_front p) (_capacity p) (_factor p)
                                         (zcopy (_data p) off src))
  | (None, p) => (None, p)
  end.

Definition resize (new_size : Z) (p : base_pipe) : option unit * base_pipe :=
  if new_size <=? size p
  then (Some tt, free_back (size p -s new_size) p)
  else let '(r, p) := allocate_back (new_size -s size p) p in (_ ← r; Some tt, p).

Definition reserve (n : Z) (p : base_pipe) : option unit * base_pipe :=
  match allocate_back n p with
  | (Some _, p) => (Some tt, free_back n p)
  | (None, p) => (None, p)
  end.

(** [put(data, size)], [write], [operator<<] and the other appending overloads, which all
    copy an array behind the elements; the last ones skip an empty array. *)
Definition put (src : list A) (p : base_pipe) : option Z * base_pipe :=
  store_at (allocate_back (zlen src) p) (map Some src).

Definition write (src : list A) (p : base_pipe) : base_pipe :=
  if zlen src =? 0 then p else (put src p).2.

(** [recycle_back(data, size)] and [recycle(data, size)] copy [size] whole cells. *)
Definition recycle_back (src : list (option A)) (p : base_pipe) : option Z * base_pipe :=
  store_at (allocate_back (zlen src) p) src.

Definition recycle (src : list (option A)) (p : base_pipe) : option Z * base_pipe :=
  store_at (allocate (zlen src) p) src.

(** The elements, oldest first; [str()] and [view()] of the character pipe read them. *)
Definition elements (p : base_pipe) : list (option A) := zslice (_data p) (_begin p) (size p).

(** Copy construction and assignment; the latter keeps the array of the target. *)
Definition copy_from (rhs : base_pipe) : option Z * base_pipe :=
  if size rhs =? 0 then (Some 0, pipe_moved_from) else recycle_back (elements rhs) pipe_moved_from.

Definition assign_from (rhs p : base_pipe) : option Z * base_pipe :=
  if size rhs =? 0 then (Some 0, reset p) else recycle_back (elements rhs) (reset p).

(** Move construction: the target takes every field, the source is left empty. *)
Definition move_from (rhs : base_pipe) : base_pipe * base_pipe := (rhs, pipe_moved_from).

End Pipe.

Arguments base_pipe : clear implicits.

(** * Invariant and lemmas *)

Section Facts.
Context {A : Type} (alloc_ok : Z -> bool).
Implicit Types (p : base_pipe A).

(** The factor is a power of two up to [2 ^ 32] and never lags behind the array. *)
Record pipe_ok p : Prop := PipeOk {
  ok_begin : 0 <= _begin p <= _end p;
  ok_end : _end p <= _capacity p;
  ok_data : zlen (_data p) = _capacity p;
  ok_factor : exists k, 0 <= k <= 32 /\ _factor p = 2 ^ k;
  ok_capacity : _capacity p <= _factor p * _SIZE
}.

Ltac pipe_start H :=
  pose proof (ok_begin _ H); pose proof (ok_end _ H); pose proof (ok_data _ H); pose proof (ok_capacity _ H).

(** Room for the largest array: [2 ^ 32 * _SIZE] cells. *)
Definition max_cells : Z := 2 ^ 44.

Lemma factor_le p : pipe_ok p -> 1 <= _factor p <= 2 ^ 32.
Proof.
  intros H. destruct (ok_factor _ H) as (k & Hk & ->).
  split; [pose proof (Z.pow_pos_nonneg 2 k); lia|by apply Z.pow_le_mono_r; lia].
Qed.

Lemma capacity_le p : pipe_ok p -> _capacity p <= max_cells.
Proof. intros H. pipe_start H. pose proof (factor_le p H). unfold _SIZE, max_cells in *. lia. Qed.

Lemma size_eq p : pipe_ok p -> size p = _end p - _begin p.
Proof. intros H. pipe_start H. pose proof (capacity_le p H). unfold size, max_cells in *. uwrap. lia. Qed.

Lemma zlen_elements p : pipe_ok p -> zlen (elements p) = size p.
Proof. intros H. pipe_start H. unfold elements. rewrite size_eq by done. apply zlen_slice; lia. Qed.

Lemma pipe_default_ok : pipe_ok (pipe_default (A := A)).
Proof.
  split; simpl; unfold uninit, _SIZE; rewrite ?zlen_repeat; try lia. by exists 0.
Qed.

Lemma pipe_moved_from_ok : pipe_ok (pipe_moved_from (A := A)).
Proof. split; simpl; unfold _SIZE; try (by unfold zlen); try lia. by exists 0. Qed.

(** The growth loop stops within its fuel with enough room, or gives up with the factor at
    its bound; it gives up only when asked for more than [max_cells] cells or when the
    factor was at its bound from the start. *)
Lemma grow_spec fuel k nb_item n :
  0 <= k <= 32 -> (Z.to_nat (32 - k) < fuel)%nat -> 0 <= nb_item <= 2 ^ k * _SIZE -> 0 <= n < 2 ^ 64 ->
  let '(r, factor) := grow fuel (2 ^ k) nb_item n in
  (exists k', k <= k' <= 32 /\ factor = 2 ^ k') /\
  match r with
  | Grown c => c = factor * _SIZE /\ nb_item + n <= c
  | BadAlloc => factor = 2 ^ 32 /\ (k = 32 \/ max_cells < nb_item + n)
  | OutOfFuel => False
  end.
Proof.
  revert k. induction fuel as [|fuel IH]; intros k Hk Hf Hnb Hn; [lia|]. cbn [grow].
  change (Z.shiftl 1 32) with (2 ^ 32). destruct (Z.leb_spec (2 ^ 32) (2 ^ k)) as [Hge|Hlt].
  { assert (k = 32) as -> by (apply (Z.pow_le_mono_r_iff 2) in Hge; lia).
    split; [by exists 32; lia|]. by split; [|left]. }
  assert (k < 32) by (apply (Z.pow_lt_mono_r_iff 2) in Hlt; lia).
  rewrite Z.shiftl_mul_pow2 by lia. replace (2 ^ k * 2 ^ 1) with (2 ^ (k + 1)) by (rewrite Z.pow_add_r; lia).
  assert (2 ^ (k + 1) <= 2 ^ 32) by (apply Z.pow_le_mono_r; lia).
  assert (2 ^ (k + 1) = 2 * 2 ^ k) as Hdbl by (rewrite Z.pow_add_r; lia).
  assert (0 < 2 ^ k) by (apply Z.pow_pos_nonneg; lia). unfold _SIZE in *.
  rewrite (u64_small (2 ^ (k + 1))), (u64_small (_ * 4096)), (u64_small (_ - nb_item)) by lia.
  set (c := 2 ^ (k + 1) * 4096).
  destruct (Z.ltb_spec nb_item c) as [_|]; [|lia].
  destruct (Z.ltb_spec (c - nb_item) n) as [Hsmall|Hroom]; simpl.
  - specialize (IH (k + 1) ltac:(lia) ltac:(lia) ltac:(lia) Hn).
    destruct (grow fuel (2 ^ (k + 1)) nb_item n) as [r factor]. destruct IH as [(k' & Hk' & ->) IH].
    split; [exists k'; split; [lia|done]|]. destruct r; try done. destruct IH as [-> Hor]. split; [done|].
    right. unfold max_cells. destruct Hor as [E|]; [|done]. subst c. rewrite E in Hsmall. lia.
  - rewrite (u64_small (nb_item + n)) by lia. destruct (Z.leb_spec c nb_item); [lia|].
    destruct (Z.ltb_spec c (nb_item + n)); [lia|]. simpl.
    split; [exists (k + 1); split; [lia|done]|]. split; [done|lia].
Qed.

#[local] Arguments grow : simpl never.

(** ** Compaction *)

Lemma reorder_spec p :
  pipe_ok p ->
  pipe_ok (reorder p) /\ elements (reorder p) = elements p /\ _begin (reorder p) = 0 /\
  _end (reorder p) = size p /\ _capacity (reorder p) = _capacity p /\ _factor (reorder p) = _factor p.
Proof.
  intros H. pipe_start H. pose proof (size_eq p H) as Hs. pose proof (zlen_elements p H) as He.
  unfold reorder. destruct (Z.eqb_spec (_begin p) 0) as [E|E]; [by split_and!; try done; lia|].
  fold (size p). fold (elements p).
  assert (pipe_ok (BasePipe 0 (size p) (_flag_front p) (_capacity p) (_factor p) (zcopy (_data p) 0 (elements p)))) as H'.
  { split; simpl; autorewrite with zlist; try done; try lia. apply H. }
  split; [done|]. split; [|done]. unfold elements at 1. rewrite (size_eq _ H'). cbn [_begin _end _data].
  rewrite Z.sub_0_r. apply zslice_copy_len; lia.
Qed.

(** ** Allocation at the back *)

(** [p'] is [p] with [n] cells added behind its elements, at offset [off]. *)
Record extended p (off n : Z) p' : Prop := Extended {
  ext_ok : pipe_ok p';
  ext_off : off = _begin p' + size p;
  ext_end : _end p' = off + n;
  ext_elements : zslice (_data p') (_begin p') (size p) = elements p
}.

(** [p'] is [p] except for its growth factor. *)
Record unchanged p p' : Prop := Unchanged {
  unc_ok : pipe_ok p';
  unc_begin : _begin p' = _begin p;
  unc_end : _end p' = _end p;
  unc_data : _data p' = _data p;
  unc_capacity : _capacity p' = _capacity p
}.

Lemma grown_extended p n c k :
  pipe_ok p -> 0 <= n < 2 ^ 64 -> 0 <= k <= 32 -> c = 2 ^ k * _SIZE -> size p + n <= c ->
  extended p (size p) n
    (BasePipe 0 (size p +s n) (_flag_front p) c (2 ^ k)
      (if 0 <? size p then zcopy (uninit c) 0 (elements p) else uninit c)).
Proof.
  intros H Hn Hk Hc Hroom. pipe_start H. pose proof (size_eq p H). pose proof (zlen_elements p H).
  assert (2 ^ k <= 2 ^ 32) by (apply Z.pow_le_mono_r; lia). unfold _SIZE in *.
  rewrite u64_small by lia. split; simpl.
  - split; simpl; try lia.
    + destruct (0 <? size p); rewrite ?zlen_copy; apply zlen_repeat; lia.
    + by exists k.
    + unfold _SIZE. lia.
  - lia.
  - lia.
  - zcase.
    + apply zslice_copy_len; try lia. unfold uninit. rewrite zlen_repeat; lia.
    + rewrite zslice_nil by lia. symmetry. apply zlen_nil_inv. lia.
Qed.

Lemma allocate_back_spec n p :
  pipe_ok p -> 0 <= n < 2 ^ 64 ->
  match allocate_back alloc_ok n p with
  | (Some off, p') => extended p off n p'
  | (None, p') =>
      unchanged p p' /\
      (max_cells < size p + n \/ _factor p = 2 ^ 32 \/ exists c, alloc_ok c = false)
  end.
Proof.
  intros H Hn. pipe_start H. pose proof (capacity_le p H). pose proof (size_eq p H) as Hs.
  destruct (ok_factor _ H) as (k & Hk & Hfac). unfold allocate_back. fold (size p). fold (elements p).
  unfold max_cells in *. rewrite (u64_small (_capacity p - _end p)) by lia.
  destruct (Z.leb_spec n (_capacity p - _end p)) as [Hfit|Hfit]; simpl.
  { destruct (Z.leb_spec (_end p) (_capacity p)); [|lia]. rewrite u64_small by lia.
    split; simpl; try lia; [|done]. split; simpl; try lia; [apply H]. }
  destruct (Z.ltb_spec (_capacity p / 2) (_begin p)) as [Hhalf|Hhalf];
    [destruct (Z.ltb_spec n (_capacity p / 2)) as [Hsm|Hsm]|]; simpl.
  1:{ destruct (reorder_spec p H) as (Ho & He & Hb & Hend & Hcap & Hf). pipe_start Ho.
      assert (_end (reorder p) + n <= _capacity p) by lia.
      rewrite u64_small by lia. split; simpl; try lia.
      - split; simpl; try lia; [apply Ho].
      - rewrite <- He. unfold elements. by rewrite (size_eq _ Ho), Hb, Hend, Z.sub_0_r. }
  all: pose proof (grow_spec grow_fuel k (size p) n Hk ltac:(unfold grow_fuel; lia) ltac:(lia) Hn) as HG;
    rewrite Hfac; destruct (grow grow_fuel (2 ^ k) (size p) n) as [r factor];
    destruct HG as [(k' & Hk' & ->) Hr]; destruct r as [c| |]; [| |done].
  all: assert (2 ^ k <= 2 ^ k') by (apply Z.pow_le_mono_r; lia); unfold _SIZE, max_cells in *.
  all: try (destruct (alloc_ok c) eqn:Ea; [destruct Hr as [-> Hr]; apply grown_extended; done || lia|]).
  all: split; [split; simpl; try done; split; simpl; unfold _SIZE in *; try lia; by exists k'; lia|].
  all: try (right; right; by exists c).
  all: destruct Hr as [_ [->|]]; [by right; left|by left].
Qed.

(** ** Writing into the added cells *)

Lemma extended_elements p off n p' :
  pipe_ok p -> extended p off n p' -> 0 <= n ->
  elements p' = elements p ++ zslice (_data p') off n.
Proof.
  intros H [Ho Hoff Hend He] Hn. pose proof (size_eq p H). pipe_start H.
  unfold elements at 1. rewrite (size_eq _ Ho), Hend, Hoff.
  replace (_ + _ + n - _) with (size p + n) by lia. pipe_start Ho.
  by rewrite zslice_app, He by lia.
Qed.

Lemma store_extended p off n p' src :
  pipe_ok p -> extended p off n p' -> zlen src = n ->
  pipe_ok (store_at (Some off, p') src).2 /\ elements (store_at (Some off, p') src).2 = elements p ++ src.
Proof.
  intros H Hx Hsrc. pose proof Hx as [Ho Hoff Hend He]. pose proof (size_eq p H). pipe_start H. pipe_start Ho.
  pose proof (zlen_nonneg src).
  assert (extended p off n (store_at (Some off, p') src).2) as Hx'.
  { split; simpl; try done.
    - split; simpl; autorewrite with zlist; try lia; apply Ho.
    - rewrite <- He. apply zslice_copy_other; lia. }
  split; [apply Hx'|]. rewrite (extended_elements _ _ _ _ H Hx') by lia. simpl. f_equal. apply zslice_copy_len; lia.
Qed.

Lemma unchanged_elements p p' : pipe_ok p -> unchanged p p' -> elements p' = elements p.
Proof.
  intros H [Ho Hb He Hd Hc]. unfold elements. rewrite (size_eq _ Ho), (size_eq _ H). congruence.
Qed.

(** [recycle_back] (and with it [put] and [write]) appends, or fails and appends nothing. *)
Lemma recycle_back_spec src p :
  pipe_ok p -> zlen src < 2 ^ 64 ->
  let '(r, p') := recycle_back alloc_ok src p in
  pipe_ok p' /\ elements p' = match r with Some _ => elements p ++ src | None => elements p end /\
  (r = None -> max_cells < size p + zlen src \/ _factor p = 2 ^ 32 \/ exists c, alloc_ok c = false).
Proof.
  intros H Hsrc. pose proof (allocate_back_spec (zlen src) p H ltac:(auto)) as HA. unfold recycle_back.
  destruct (allocate_back alloc_ok (zlen src) p) as [[off|] p'].
  - destruct (store_extended p off _ p' src H HA eq_refl). done.
  - destruct HA as [Hu Hwhy]. split; [apply Hu|]. split; [by apply unchanged_elements|done].
Qed.

Lemma put_recycle src p : put alloc_ok src p = recycle_back alloc_ok (map Some src) p.
Proof. unfold put, recycle_back. unfold zlen. by rewrite length_map. Qed.

Lemma put_ok src p : pipe_ok p -> zlen src < 2 ^ 64 -> pipe_ok (put alloc_ok src p).2.
Proof.
  intros H Hs. rewrite put_recycle. pose proof (recycle_back_spec (map Some src) p H) as HR.
  unfold zlen in HR. rewrite length_map in HR. specialize (HR Hs).
  destruct (recycle_back alloc_ok (map Some src) p). apply HR.
Qed.

(** ** Allocation in front, and undoing an allocation *)

Lemma allocate_back_flag n p : _flag_front (allocate_back alloc_ok n p).2 = _flag_front p.
Proof.
  unfold allocate_back. destruct (_ && _); [done|]. destruct (_ && _); [unfold reorder; by destruct (_ =? 0)|].
  destruct (grow _ _ _ _) as [[c| |] f]; try done. by destruct (alloc_ok c).
Qed.

Lemma allocate_front_ok n p :
  pipe_ok p -> 0 <= n -> n + 1 <= _begin p ->
  pipe_ok (BasePipe (_begin p - n) (_end p) true (_capacity p) (_factor p) (_data p)).
Proof. intros H ? ?. pipe_start H. split; simpl; try lia; apply H. Qed.

Lemma allocate_spec n p :
  pipe_ok p -> 0 <= n < 2 ^ 63 ->
  match allocate alloc_ok n p with
  | (Some off, p') =>
      pipe_ok p' /\
      (extended p off n p' /\ _flag_front p' = false \/
       (off = _begin p' /\ _flag_front p' = true /\ elements p' = zslice (_data p) off n ++ elements p /\
        _begin p' = _begin p - n /\ _end p' = _end p /\ _data p' = _data p))
  | (None, p') => unchanged p p'
  end.
Proof.
  intros H Hn. pipe_start H. pose proof (capacity_le p H). pose proof (size_eq p H). unfold allocate, max_cells in *.
  rewrite (u64_small (n + 1)) by lia. destruct (Z.leb_spec (n + 1) (_begin p)) as [Hf|Hf]; simpl.
  - rewrite !(u64_small (_begin p - n)), (u64_small (_ - 1)) by lia.
    destruct (Z.ltb_spec (_begin p - n - 1) (_end p)); [|lia].
    pose proof (allocate_front_ok n p H ltac:(lia) ltac:(lia)) as H'. split; [done|]. right.
    split_and!; try done. unfold elements at 1. rewrite (size_eq _ H'). simpl.
    replace (_end p - (_begin p - n)) with (n + size p) by lia. rewrite zslice_app by lia.
    by replace (_begin p - n + n) with (_begin p) by lia.
  - set (q := BasePipe (_begin p) (_end p) false (_capacity p) (_factor p) (_data p)).
    assert (pipe_ok q) as Hq by (split; simpl; try lia; apply H).
    assert (forall off p', extended q off n p' -> extended p off n p') as Hx by (intros ? ? []; by split).
    pose proof (allocate_back_spec n q Hq ltac:(lia)) as HA.
    pose proof (allocate_back_flag n q) as Hfl.
    destruct (allocate_back alloc_ok n q) as [[off|] p']; simpl in Hfl.
    + split; [apply HA|]. left. auto.
    + destruct HA as [[] _]. by split.
Qed.

(** [recycle] stores its cells behind the elements or in front of them. *)
Lemma recycle_spec src p :
  pipe_ok p -> zlen src < 2 ^ 63 ->
  match recycle alloc_ok src p with
  | (Some _, p') =>
      pipe_ok p' /\ elements p' = if _flag_front p' then src ++ elements p else elements p ++ src
  | (None, p') => pipe_ok p' /\ elements p' = elements p
  end.
Proof.
  intros H Hs. pose proof (zlen_nonneg src). pose proof (allocate_spec (zlen src) p H ltac:(lia)) as HA.
  unfold recycle. destruct (allocate alloc_ok (zlen src) p) as [[off|] p'].
  - destruct HA as [Hok [[Hx Hf]|(-> & Hf & He & Hb & Hend & Hd)]].
    + destruct (store_extended p off (zlen src) p' src H Hx eq_refl) as [H1 H2].
      unfold store_at in *. simpl in *. rewrite Hf in *. done.
    + unfold store_at. simpl. rewrite Hf. pipe_start H. pipe_start Hok. pose proof (size_eq _ H) as Hsz.
      assert (pipe_ok (BasePipe (_begin p') (_end p') true (_capacity p') (_factor p')
                                (zcopy (_data p') (_begin p') src))) as Hok'.
      { split; simpl; autorewrite with zlist; try done; try lia. apply Hok. }
      split; [done|]. unfold elements at 1. rewrite (size_eq _ Hok'). cbn [_begin _end _data].
      replace (_end p' - _begin p') with (zlen src + size p) by lia. rewrite zslice_app by lia.
      rewrite zslice_copy_same by lia. f_equal. rewrite zslice_copy_other by lia.
      unfold elements. rewrite Hd. f_equal. lia.
  - simpl. split; [apply HA|]. by eapply unchanged_elements.
Qed.

Lemma free_back_spec n p :
  pipe_ok p -> 0 <= n <= size p ->
  pipe_ok (free_back n p) /\ elements (free_back n p) = zslice (elements p) 0 (size p - n).
Proof.
  intros H Hn. pipe_start H. pose proof (capacity_le p H). pose proof (size_eq p H).
  unfold max_cells in *. unfold free_back. rewrite (u64_small (_end p - n)) by lia.
  assert (pipe_ok (BasePipe (_begin p) (_end p - n) (_flag_front p) (_capacity p) (_factor p) (_data p))) as H'.
  { split; simpl; try lia; apply H. }
  split; [done|]. unfold elements at 1. rewrite (size_eq _ H'). simpl. unfold elements.
  rewrite zslice_slice by lia. f_equal; lia.
Qed.

Lemma free_front_spec n p :
  pipe_ok p -> 0 <= n <= size p ->
  pipe_ok (free_front n p) /\ elements (free_front n p) = zslice (elements p) n (size p - n).
Proof.
  intros H Hn. pipe_start H. pose proof (capacity_le p H). pose proof (size_eq p H).
  unfold max_cells in *. unfold free_front. rewrite (u64_small (_begin p + n)) by lia.
  assert (pipe_ok (BasePipe (_begin p + n) (_end p) (_flag_front p) (_capacity p) (_factor p) (_data p))) as H'.
  { split; simpl; try lia; apply H. }
  split; [done|]. unfold elements at 1. rewrite (size_eq _ H'). simpl. unfold elements.
  rewrite zslice_slice by lia. f_equal; lia.
Qed.

Lemma extended_free_back p off n p' :
  pipe_ok p -> extended p off n p' -> 0 <= n -> elements (free_back n p') = elements p.
Proof.
  intros H Hx Hn. pose proof Hx as [Ho Hoff Hend He]. pose proof (size_eq _ Ho). pose proof (size_eq _ H). pipe_start H.
  destruct (free_back_spec n p' Ho ltac:(lia)) as [_ ->].
  rewrite (extended_elements _ _ _ _ H Hx) by lia. replace (size p' - n) with (size p) by lia.
  rewrite zslice_app_l, <- (zlen_elements p H) by (rewrite ?(zlen_elements p H); lia). apply zslice_all.
Qed.

Lemma pipe_clear_spec p : pipe_ok p -> pipe_ok (reset p) /\ elements (reset p) = [].
Proof.
  intros H. pipe_start H. split; [split; simpl; try lia; apply H|].
  unfold elements, size. simpl. by rewrite zslice_nil.
Qed.

(** [reset(begin)] keeps what starts at [begin]. *)
Lemma reset_to_spec begin p :
  pipe_ok p -> _begin p <= begin <= _end p ->
  pipe_ok (reset_to begin p) /\ elements (reset_to begin p) = zslice (elements p) (begin - _begin p) (_end p - begin).
Proof.
  intros H Hb. pipe_start H. unfold reset_to. destruct (Z.eqb_spec begin (_end p)) as [->|Hne]; simpl.
  - rewrite zslice_nil by lia. split; [split; simpl; try lia; apply H|]. unfold elements, size. simpl. by rewrite zslice_nil.
  - assert (pipe_ok (BasePipe begin (_end p) (_flag_front p) (_capacity p) (_factor p) (_data p))) as H'.
    { split; simpl; try lia; apply H. }
    split; [done|]. unfold elements at 1. rewrite (size_eq _ H'). simpl. unfold elements.
    rewrite (size_eq p H), zslice_slice by lia. f_equal; lia.
Qed.

End Facts.

Arguments grow : simpl never.

(** * Any sequence of operations *)

Inductive pipe_op (A : Type) :=
  | PPut (src : list A)
  | PRecycle (src : list (option A))
  | PFreeFront (n : Z)
  | PFreeBack (n : Z)
  | PResetTo (consumed : Z)
  | PReset
  | PReorder
  | PReserve (n : Z).
Arguments PPut {A}. Arguments PRecycle {A}. Arguments PFreeFront {A}. Arguments PFreeBack {A}.
Arguments PResetTo {A}. Arguments PReset {A}. Arguments PReorder {A}. Arguments PReserve {A}.

Section Refinement.
Context {A : Type} (alloc_ok : Z -> bool).
Implicit Types (p : base_pipe A) (q : list (option A)).

(** One operation of the pipe; the flag tells whether it completed or threw. *)
Definition pipe_step (o : pipe_op A) p : bool * base_pipe A :=
  match o with
  | PPut src => let '(r, p) := put alloc_ok src p in (bool_decide (is_Some r), p)
  | PRecycle src => let '(r, p) := recycle_back alloc_ok src p in (bool_decide (is_Some r), p)
  | PFreeFront n => (true, free_front n p)
  | PFreeBack n => (true, free_back n p)
  | PResetTo n => (true, reset_to (_begin p +s n) p)
  | PReset => (true, reset p)
  | PReorder => (true, reorder p)
  | PReserve n => let '(r, p) := reserve alloc_ok n p in (bool_decide (is_Some r), p)
  end.

(** The same operation on a list of cells. *)
Definition list_step (o : pipe_op A) q : list (option A) :=
  match o with
  | PPut src => q ++ map Some src
  | PRecycle src => q ++ src
  | PFreeFront n | PResetTo n => zslice q n (zlen q - n)
  | PFreeBack n => zslice q 0 (zlen q - n)
  | PReset => []
  | PReorder | PReserve _ => q
  end.

(** What the caller must respect: sizes in range, no more freed than there is. *)
Definition op_pre (o : pipe_op A) q : Prop :=
  match o with
  | PPut src => zlen src < 2 ^ 64
  | PRecycle src => zlen src < 2 ^ 64
  | PFreeFront n | PFreeBack n | PResetTo n => 0 <= n <= zlen q
  | PReset | PReorder => True
  | PReserve n => 0 <= n < 2 ^ 64
  end.

Lemma reserve_spec n p :
  pipe_ok p -> 0 <= n < 2 ^ 64 ->
  let '(r, p') := reserve alloc_ok n p in
  pipe_ok p' /\ elements p' = elements p /\ (is_Some r -> n <= _capacity p' - _end p').
Proof.
  intros H Hn. pose proof (allocate_back_spec alloc_ok n p H Hn) as HA. unfold reserve.
  destruct (allocate_back alloc_ok n p) as [[off|] p'].
  - pose proof HA as [Ho Hoff Hend He]. pose proof (ok_end _ Ho). pose proof (ok_begin _ Ho).
    pose proof (capacity_le _ Ho). pose proof (size_eq _ H). pose proof (size_eq _ Ho). pose proof (ok_begin _ H).
    destruct (free_back_spec n p' Ho ltac:(lia)) as [Hok _].
    split; [done|]. split; [apply (extended_free_back p off); done || lia|]. intros _. simpl. unfold max_cells in *.
    rewrite u64_small by lia. lia.
  - destruct HA as [Hu _]. split; [apply Hu|]. split; [by apply unchanged_elements|by intros []].
Qed.

Lemma pipe_step_spec o p :
  pipe_ok p -> op_pre o (elements p) ->
  let '(ok, p') := pipe_step o p in
  pipe_ok p' /\ elements p' = if ok then list_step o (elements p) else elements p.
Proof.
  intros H Hpre. destruct o as [src|src|n|n|n| | |n]; simpl in *; rewrite ?zlen_elements in * by done.
  - rewrite put_recycle.
    pose proof (recycle_back_spec alloc_ok (map Some src) p H) as HR. unfold zlen in HR. rewrite length_map in HR.
    specialize (HR Hpre). destruct (recycle_back alloc_ok (map Some src) p) as [[off|] p'];
      destruct HR as (? & ? & _); split; try done;
      case_bool_decide as Hs; try done; by destruct Hs; eauto.
  - pose proof (recycle_back_spec alloc_ok src p H Hpre) as HR.
    destruct (recycle_back alloc_ok src p) as [[off|] p'];
      destruct HR as (? & ? & _); split; try done;
      case_bool_decide as Hs; try done; by destruct Hs; eauto.
  - by apply free_front_spec.
  - by apply free_back_spec.
  - pose proof (ok_begin _ H). pose proof (ok_end _ H). pose proof (capacity_le _ H). pose proof (size_eq _ H).
    unfold max_cells in *. rewrite u64_small by lia.
    destruct (reset_to_spec (_begin p + n) p H ltac:(lia)) as [? ->]. split; [done|]. f_equal; lia.
  - by apply pipe_clear_spec.
  - by destruct (reorder_spec p H) as (? & ? & _).
  - pose proof (reserve_spec n p H Hpre) as HR. destruct (reserve alloc_ok n p) as [r p'].
    destruct HR as (? & ? & _). split; [done|]. by destruct (bool_decide _).
Qed.

(** Pipes a program can build, with the list they stand for. *)
Inductive built : base_pipe A -> list (option A) -> Prop :=
  | built_default : built pipe_default []
  | built_moved : built pipe_moved_from []
  | built_step o p q :
      built p q -> op_pre o q ->
      built (pipe_step o p).2 (if (pipe_step o p).1 then list_step o q else q)
  | built_recycle src p q :
      built p q -> zlen src < 2 ^ 63 ->
      built (recycle alloc_ok src p).2
            (match recycle alloc_ok src p with
             | (Some _, p') => if _flag_front p' then src ++ q else q ++ src
             | (None, _) => q
             end).

Lemma built_ok p q : built p q -> pipe_ok p /\ elements p = q.
Proof.
  induction 1 as [| |o p q Hb [Hok <-] Hpre|src p q Hb [Hok <-] Hsrc].
  - split; [apply pipe_default_ok|done].
  - split; [apply pipe_moved_from_ok|done].
  - pose proof (pipe_step_spec o p Hok Hpre) as HS. by destruct (pipe_step o p) as [[] p'].
  - pose proof (recycle_spec alloc_ok src p Hok Hsrc) as HS. by destruct (recycle alloc_ok src p) as [[] p'].
Qed.

End Refinement.

(** * Properties *)

(** C14: whatever sequence of appends, front insertions, front and back releases, partial
    resets, compactions and reservations builds a pipe, growing and moving its array on the way, its elements
    are those of a list under the same operations, an operation that throws leaving them as
    they were; and its indices stay inside its array. *)
Theorem pipe_refines_list {A} (alloc_ok : Z -> bool) (p : base_pipe A) (q : list (option A)) :
  built alloc_ok p q -> elements p = q /\ 0 <= _begin p <= _end p /\ _end p <= zlen (_data p).
Proof.
  intros H%built_ok. destruct H as [H <-]. pose proof (ok_begin _ H). pose proof (ok_end _ H).
  rewrite (ok_data _ H). split; [done|lia].
Qed.

Lemma pipe_refines_list_witness :
  let p := (pipe_step (fun _ => true) (PFreeFront 1)
             (pipe_step (fun _ => true) (PPut [1; 2; 3]) pipe_moved_from).2).2 in
  elements p = [Some 2; Some 3] /\ 0 <= _begin p <= _end p /\ _end p <= zlen (_data p).
Proof.
  apply (pipe_refines_list (fun _ => true) _ [Some 2; Some 3]).
  pose proof (built_step (fun _ => true) (PPut [1; 2; 3]) _ _ (built_moved _) ltac:(reflexivity)) as H1.
  change (list_step (PPut [1; 2; 3]) []) with [Some 1; Some 2; Some 3] in H1.
  exact (built_step _ (PFreeFront 1) _ [Some 1; Some 2; Some 3] H1 ltac:(vm_compute; split; congruence)).
Defined.

(** [free(size)] undoes the [allocate(size)] before it, wherever the cells were taken:
    in front of the elements, behind them, after a compaction or after a growth. *)
Theorem pipe_allocate_free_roundtrip {A} (alloc_ok : Z -> bool) (n off : Z) (p p' : base_pipe A) :
  pipe_ok p -> 0 <= n < 2 ^ 63 -> allocate alloc_ok n p = (Some off, p') ->
  elements (free n p') = elements p /\ 0 <= off /\ off + n <= zlen (_data p').
Proof.
  intros H Hn E. pose proof (allocate_spec alloc_ok n p H Hn) as HA. rewrite E in HA.
  destruct HA as [Hok [[Hx Hf]|(-> & Hf & He & Hb & Hend & Hd)]]; unfold free; rewrite Hf.
  - pose proof Hx as [Ho Hoff Hend He]. pose proof (ok_begin _ Ho). pose proof (ok_end _ Ho).
    pose proof (size_eq _ H). pose proof (ok_begin _ H). rewrite (ok_data _ Ho).
    split; [apply (extended_free_back p off n); done || lia|lia].
  - pose proof (ok_begin _ H). pose proof (ok_begin _ Hok). pose proof (ok_end _ Hok).
    pose proof (size_eq _ H). pose proof (size_eq _ Hok). pose proof (ok_data _ Hok). split; [|lia].
    destruct (free_front_spec n p' Hok ltac:(lia)) as [_ ->]. rewrite He.
    assert (zlen (zslice (_data p) (_begin p') n) = n) as Hl by (apply zlen_slice; rewrite <- ?Hd; lia).
    rewrite <- Hl at 2. rewrite zslice_app_r. replace (size p' - n) with (size p) by lia.
    rewrite <- (zlen_elements p H). apply zslice_all.
Qed.

Lemma pipe_allocate_free_roundtrip_witness :
  let p := free_front 2 (put (fun _ => true) [1; 2; 3] pipe_moved_from).2 in
  allocate (fun _ => true) 1 p = (Some 1, BasePipe 1 3 true 8192 2 (_data p)) /\
  elements (free 1 (BasePipe 1 3 true 8192 2 (_data p))) = elements p.
Proof.
  split; [vm_compute; reflexivity|].
  apply (pipe_allocate_free_roundtrip (fun _ => true) 1 1 (free_front 2 (put (fun _ => true) [1; 2; 3] pipe_moved_from).2));
    [|lia|vm_compute; reflexivity].
  apply free_front_spec; [|vm_compute; split; congruence].
  apply put_ok; [apply pipe_moved_from_ok|reflexivity].
Defined.

(** After a successful [reserve(n)] the next [allocate_back] of up to [n] cells
    neither moves nor reallocates the array: it extends the pipe in place, right behind its
    elements. *)
Theorem pipe_reserve_in_place {A} (alloc_ok : Z -> bool) (n m : Z) (p p' : base_pipe A) :
  pipe_ok p -> 0 <= m <= n -> n < 2 ^ 64 -> reserve alloc_ok n p = (Some tt, p') ->
  elements p' = elements p /\
  allocate_back (fun _ => false) m p'
    = (Some (_end p'), BasePipe (_begin p') (_end p' + m) (_flag_front p') (_capacity p') (_factor p') (_data p')).
Proof.
  intros H Hm Hn E. pose proof (reserve_spec alloc_ok n p H ltac:(lia)) as HR. rewrite E in HR.
  destruct HR as (Ho & He & Hroom). specialize (Hroom ltac:(eauto)). split; [done|].
  pose proof (ok_begin _ Ho). pose proof (ok_end _ Ho). pose proof (capacity_le _ Ho). unfold max_cells, allocate_back in *.
  rewrite (u64_small (_capacity p' - _)), (u64_small (_ + m)) by lia.
  destruct (Z.leb_spec m (_capacity p' - _end p')); [|lia].
  by destruct (Z.leb_spec (_end p') (_capacity p')); [|lia].
Qed.

Lemma pipe_reserve_in_place_witness :
  let p' := (reserve (A := Z) (fun _ => true) 5 pipe_default).2 in
  elements p' = elements (pipe_default (A := Z)) /\
  allocate_back (fun _ => false) 4 p'
    = (Some (_end p'), BasePipe (_begin p') (_end p' + 4) (_flag_front p') (_capacity p') (_factor p') (_data p')).
Proof.
  apply (pipe_reserve_in_place (fun _ => true) 5 4 pipe_default);
    [apply pipe_default_ok | lia | lia | reflexivity].
Defined.

(** A copy (by construction or by assignment over an existing pipe) holds the elements
    of its source, and a move hands them over and leaves the source empty. *)
Theorem pipe_copy_move {A} (alloc_ok : Z -> bool) (rhs p : base_pipe A) :
  pipe_ok rhs -> pipe_ok p -> (forall c, alloc_ok c = true) -> _factor p < 2 ^ 32 ->
  elements (copy_from alloc_ok rhs).2 = elements rhs /\
  elements (assign_from alloc_ok rhs p).2 = elements rhs /\
  elements (move_from rhs).1 = elements rhs /\ elements (move_from rhs).2 = [].
Proof.
  intros Hr Hp Halloc Hf. pose proof (zlen_elements rhs Hr) as Hlen. pose proof (size_eq rhs Hr).
  pose proof (ok_begin _ Hr). pose proof (ok_end _ Hr). pose proof (capacity_le rhs Hr). unfold max_cells in *.
  assert (forall q, pipe_ok q -> elements q = [] -> _factor q < 2 ^ 32 ->
    elements (recycle_back alloc_ok (elements rhs) q).2 = elements rhs) as Hcopy.
  { intros q Hq Hnil Hfq. pose proof (recycle_back_spec alloc_ok (elements rhs) q Hq ltac:(lia)) as HR.
    pose proof (zlen_elements q Hq) as Hlq. rewrite Hnil in Hlq. change (zlen (@nil (option A))) with 0 in Hlq.
    destruct (recycle_back alloc_ok (elements rhs) q) as [[off|] p']; destruct HR as (_ & HE & Hwhy).
    - simpl. by rewrite HE, Hnil.
    - destruct (Hwhy eq_refl) as [?|[?|[c Hc]]]; [unfold max_cells in *; lia|lia|]. by rewrite Halloc in Hc. }
  assert (size rhs = 0 -> elements rhs = []) as Hz by (intros; apply zlen_nil_inv; lia).
  unfold copy_from, assign_from. destruct (pipe_clear_spec p Hp) as [Hres Hnil].
  destruct (Z.eqb_spec (size rhs) 0) as [E|E]; simpl; [by rewrite Hnil, Hz|].
  split; [by apply Hcopy; [apply pipe_moved_from_ok| |]|]. split; [by apply Hcopy|]. done.
Qed.

Lemma pipe_copy_move_witness :
  let rhs := (put (fun _ => true) [1; 2; 3] pipe_moved_from).2 in
  elements (copy_from (fun _ => true) rhs).2 = elements rhs /\
  elements (assign_from (fun _ => true) rhs pipe_default).2 = elements rhs /\
  elements (move_from rhs).1 = elements rhs /\ elements (move_from rhs).2 = [].
Proof.
  apply pipe_copy_move; [|apply pipe_default_ok|reflexivity|reflexivity].
  apply put_ok; [apply pipe_moved_from_ok|reflexivity].
Defined.

(** A growth request that is refused is not rolled back: asking for more than
    [2 ^ 44] cells fails and leaves the growth factor at its bound, after which every
    request that needs a larger array fails too, however small, even with memory to spare. *)
Theorem pipe_growth_failure_sticks {A} (alloc_ok : Z -> bool) (n m : Z) (p : base_pipe A) :
  pipe_ok p -> max_cells < n < 2 ^ 64 -> _capacity p - _end p < m < 2 ^ 64 -> _begin p <= _capacity p / 2 ->
  let '(r, p') := allocate_back alloc_ok n p in
  r = None /\ elements p' = elements p /\ (allocate_back (fun _ => true) m p').1 = None.
Proof.
  intros H Hn Hm Hb. pose proof (ok_begin _ H). pose proof (ok_end _ H). pose proof (capacity_le _ H).
  pose proof (size_eq _ H). destruct (ok_factor _ H) as (k & Hk & Hfac).
  assert (allocate_back alloc_ok n p = (None, BasePipe (_begin p) (_end p) (_flag_front p) (_capacity p) (2 ^ 32) (_data p))) as ->.
  { unfold allocate_back, max_cells in *. fold (size p). rewrite (u64_small (_capacity p - _)) by lia.
    destruct (Z.leb_spec n (_capacity p - _end p)); [lia|]. simpl.
    destruct (Z.ltb_spec (_capacity p / 2) (_begin p)); [lia|]. simpl.
    pose proof (ok_capacity _ H). pose proof (grow_spec grow_fuel k (size p) n Hk ltac:(unfold grow_fuel; lia) ltac:(lia) ltac:(lia)) as HG.
    rewrite Hfac. destruct (grow grow_fuel (2 ^ k) (size p) n) as [[c| |] f]; destruct HG as [(k' & Hk' & ->) Hr]; [|by destruct Hr as [-> _]|done].
    assert (2 ^ k' <= 2 ^ 32) by (apply Z.pow_le_mono_r; lia). unfold _SIZE in *. lia. }
  split; [done|]. split; [done|]. unfold allocate_back, max_cells in *. cbn [_begin _end _capacity _factor _data _flag_front].
  rewrite (u64_small (_capacity p - _)) by lia. destruct (Z.leb_spec m (_capacity p - _end p)); [lia|].
  destruct (Z.ltb_spec (_capacity p / 2) (_begin p)); [lia|]. reflexivity.
Qed.

Lemma pipe_growth_failure_sticks_witness :
  let '(r, p') := allocate_back (A := Z) (fun _ => true) (2 ^ 45) pipe_default in
  r = None /\ elements p' = elements (pipe_default (A := Z)) /\ (allocate_back (fun _ => true) 4097 p').1 = None.
Proof.
  apply (pipe_growth_failure_sticks (fun _ => true) (2 ^ 45) 4097 pipe_default);
    [apply pipe_default_ok | unfold max_cells; lia | vm_compute; split; congruence | vm_compute; congruence].
Defined.
