(* ===== verification/RingBuffer.v ===== *)
(** The fixed-capacity circular container (src/qb/system/container/ring_buffer.h).

    Storage is an array of [N] slots, [None] while no object lives in the slot. Destroying
    an object that does not exist, or constructing one over a live object, is the [UB]
    outcome; a constructor that throws is the [Threw] outcome together with the state it
    leaves. [throws v] tells whether copying [v] throws. The definitions follow the code
    for element types that are not trivial. *)

From S2P Require Import Prelude.

Section Container.
Context {A : Type} (N : Z) (Overwrite : bool) (throws : A -> bool).

Record ring_buffer := RingBuffer {
  elements_ : list (option A);
  head_ : Z;
  tail_ : Z;
  size_ : Z
}.

Inductive outcome :=
  | Done (r : ring_buffer)
  | Threw (r : ring_buffer)
  | UB.

Definition ring_init : ring_buffer := RingBuffer (zrepeat None N) 0 0 0.

Definition ring_empty (r : ring_buffer) : bool := size_ r =? 0.
Definition full (r : ring_buffer) : bool := size_ r =? N.

(** The index after [i], and the [k]-th index after [i]. *)
Definition next_slot (i : Z) : Z := (i +s 1) mod N.
Definition nth_slot (i k : Z) : Z := (i +s k) mod N.

(** [destroy_at(index)] *)
Definition destroy_at (index : Z) (els : list (option A)) : option (list (option A)) :=
  match zget els index with
  | Some (Some _) => Some (zput els index None)
  | _ => None
  end.

(** Placement [new] of a copy of [v]; a throwing constructor leaves the slot alone. *)
Definition construct_at (index : Z) (v : A) (els : list (option A)) : option (list (option A)) :=
  match zget els index with
  | Some None => Some (zput els index (Some v))
  | _ => None
  end.

Definition push_back_impl (v : A) (r : ring_buffer) : outcome :=
  match (if full r then destroy_at (head_ r) (elements_ r) else Some (elements_ r)) with
  | None => UB
  | Some els =>
      if throws v then Threw (RingBuffer els (head_ r) (tail_ r) (size_ r))
      else
        match construct_at (head_ r) v els with
        | None => UB
        | Some els =>
            let head := next_slot (head_ r) in
            let tail := if full r then next_slot (tail_ r) else tail_ r in
            let size := if full r then size_ r else size_ r +s 1 in
            Done (RingBuffer els head tail size)
        end
  end.

Definition push_back (v : A) (r : ring_buffer) : outcome :=
  if negb Overwrite && full r then Done r else push_back_impl v r.

Definition pop_front (r : ring_buffer) : outcome :=
  if ring_empty r then Done r
  else
    match destroy_at (tail_ r) (elements_ r) with
    | None => UB
    | Some els => Done (RingBuffer els (head_ r) (next_slot (tail_ r)) (size_ r -s 1))
    end.

(** The loop of [clear()], one iteration per element. *)
Fixpoint clear_loop (n : nat) (els : list (option A)) (tail : Z) : option (list (option A)) :=
  match n with
  | O => Some els
  | S n =>
      match destroy_at tail els with
      | None => None
      | Some els => clear_loop n els (next_slot tail)
      end
  end.

Definition clear (r : ring_buffer) : outcome :=
  match clear_loop (Z.to_nat (size_ r)) (elements_ r) (tail_ r) with
  | None => UB
  | Some els => Done (RingBuffer els 0 0 0)
  end.

(** The copy loop from element [constructed] on: the slots built and how many they are, and
    whether a constructor threw. *)
Fixpoint copy_loop (n : nat) (src : list (option A)) (tail constructed : Z) (els : list (option A))
  : option (bool * Z * list (option A)) :=
  match n with
  | O => Some (true, constructed, els)
  | S n =>
      match zget src (nth_slot tail constructed) with
      | Some (Some v) =>
          if throws v then Some (false, constructed, els)
          else
            match construct_at (nth_slot tail constructed) v els with
            | None => None
            | Some els => copy_loop n src tail (constructed + 1) els
            end
      | _ => None
      end
  end.

(** The rollback [for (j = 0; j < constructed; ++j) destroy_at((tail_ + j) % N)]. *)
Fixpoint rollback (n : nat) (tail j : Z) (els : list (option A)) : option (list (option A)) :=
  match n with
  | O => Some els
  | S n =>
      match destroy_at (nth_slot tail j) els with
      | None => None
      | Some els => rollback n tail (j + 1) els
      end
  end.

(** [copy_impl(rhs)] into storage [els] with no live object. *)
Definition copy_impl (rhs : ring_buffer) (els : list (option A)) : outcome :=
  match copy_loop (Z.to_nat (size_ rhs)) (elements_ rhs) (tail_ rhs) 0 els with
  | None => UB
  | Some (true, _, els) => Done (RingBuffer els (head_ rhs) (tail_ rhs) (size_ rhs))
  | Some (false, constructed, els) =>
      match rollback (Z.to_nat constructed) (tail_ rhs) 0 els with
      | None => UB
      | Some els => Threw (RingBuffer els 0 0 0)
      end
  end.

Definition ring_copy (rhs : ring_buffer) : outcome := copy_impl rhs (zrepeat None N).

Definition ring_assign (rhs r : ring_buffer) : outcome :=
  match clear r with
  | Done r => copy_impl rhs (elements_ r)
  | o => o
  end.

Definition front (r : ring_buffer) : option A := mjoin (zget (elements_ r) (tail_ r)).

Definition back (r : ring_buffer) : option A :=
  let idx := if head_ r =? 0 then N - 1 else head_ r - 1 in
  mjoin (zget (elements_ r) idx).

(** Iteration from [begin()] to [end()]: [index_] steps around the storage while [count_]
    goes up to the size. *)
Fixpoint iterate (n : nat) (els : list (option A)) (index : Z) : list (option A) :=
  match n with
  | O => []
  | S n => mjoin (zget els index) :: iterate n els (next_slot index)
  end.

Definition to_list (r : ring_buffer) : list (option A) :=
  iterate (Z.to_nat (size_ r)) (elements_ r) (tail_ r).

End Container.

Arguments ring_buffer : clear implicits.
Arguments outcome : clear implicits.

(** * Representation *)

Section Facts.
Context {A : Type} (N : Z) (Overwrite : bool) (throws : A -> bool).
Implicit Types (r : ring_buffer A) (els : list (option A)) (q : list A).

(** Slots [tail], [tail + 1], ... hold the queue [q] and no other slot holds an object. *)
Definition window els (tail : Z) q : Prop :=
  zlen els = N /\ 0 <= tail < N /\ zlen q <= N /\
  forall k, 0 <= k < N -> zget els ((tail + k) mod N) = Some (zget q k).

Record rep r q : Prop := Rep {
  rep_window : window (elements_ r) (tail_ r) q;
  rep_size : size_ r = zlen q;
  rep_head : head_ r = (tail_ r + zlen q) mod N
}.

Hypothesis HN : 0 < N < 2 ^ 62.

Lemma next_slot_eq i : 0 <= i < N -> next_slot N i = (i + 1) mod N.
Proof. intros. unfold next_slot. by rewrite u64_small by lia. Qed.

Lemma nth_slot_eq i k : 0 <= i < N -> 0 <= k <= N -> nth_slot N i k = (i + k) mod N.
Proof. intros. unfold nth_slot. by rewrite u64_small by lia. Qed.

Lemma slot_inj t k k' : 0 <= k < N -> 0 <= k' < N -> (t + k) mod N = (t + k') mod N -> k = k'.
Proof.
  intros. assert ((k - k') mod N = 0) as Hm.
  { replace (k - k') with ((t + k) - (t + k')) by lia. rewrite Zminus_mod, H1, Z.sub_diag. by apply Z.mod_0_l; lia. }
  apply Z.mod_divide in Hm as [z Hz]; [|lia]. assert (z = 0) by nia. lia.
Qed.

(** Writing the [j]-th slot of a window. *)
Lemma window_put els t j x k :
  zlen els = N -> 0 <= j < N -> 0 <= k < N ->
  zget (zput els ((t + j) mod N) x) ((t + k) mod N) = if k =? j then Some x else zget els ((t + k) mod N).
Proof.
  intros Hl Hj Hk. pose proof (Z.mod_pos_bound (t + j) N). rewrite zget_put by lia.
  destruct (Z.eqb_spec ((t + k) mod N) ((t + j) mod N)) as [E|E]; zcase; try done.
  - by apply slot_inj in E.
  - congruence.
Qed.

(** The same storage seen from the next slot. *)
Lemma window_next els t q x :
  window els t (x :: q) -> zlen q < N ->
  destroy_at t els = Some (zput els t None) /\ window (zput els t None) ((t + 1) mod N) q.
Proof.
  intros (Hl & Ht & Hq & Hw) Hlt. assert (zget els t = Some (Some x)) as Hx.
  { specialize (Hw 0 ltac:(lia)). rewrite Z.add_0_r, Z.mod_small in Hw by lia. done. }
  split; [unfold destroy_at; by rewrite Hx|]. pose proof (Z.mod_pos_bound (t + 1) N).
  unfold window. rewrite zlen_put. split_and!; try lia. intros k Hk.
  rewrite Zplus_mod_idemp_l. replace t with ((t + 0) mod N) at 1 by (rewrite Z.add_0_r; apply Z.mod_small; lia).
  destruct (decide (k = N - 1)) as [->|Hne].
  - replace (t + 1 + (N - 1)) with (t + 0 + 1 * N) by lia. rewrite Z_mod_plus_full, window_put by lia.
    rewrite Z.eqb_refl. symmetry. f_equal. apply zget_None. lia.
  - replace (t + 1 + k) with (t + (k + 1)) by lia. rewrite window_put by lia. zcase; [lia|]. rewrite Hw by lia.
    f_equal. unfold zget. zcase; try lia. replace (Z.to_nat (k + 1)) with (S (Z.to_nat k)) by lia. done.
Qed.

(** Adding an object in the first free slot. *)
Lemma window_push els t q v :
  window els t q -> zlen q < N ->
  construct_at ((t + zlen q) mod N) v els = Some (zput els ((t + zlen q) mod N) (Some v)) /\
  window (zput els ((t + zlen q) mod N) (Some v)) t (q ++ [v]).
Proof.
  intros (Hl & Ht & Hq & Hw) Hlt. pose proof (zlen_nonneg q).
  assert (zget els ((t + zlen q) mod N) = Some None) as Hfree.
  { rewrite Hw by lia. f_equal. apply zget_None. lia. }
  split; [unfold construct_at; by rewrite Hfree|].
  unfold window. rewrite zlen_put, zlen_app. change (zlen [v]) with 1. split_and!; try lia.
  intros k Hk. rewrite window_put by lia. rewrite zget_app. zcase; try lia; subst.
  - by apply Hw.
  - by rewrite Z.sub_diag.
  - rewrite Hw by lia. f_equal. rewrite (proj2 (zget_None q k)) by lia. symmetry. apply zget_None.
    change (zlen [v]) with 1. lia.
Qed.

Lemma rep_init : rep (ring_init N) [].
Proof.
  split; simpl; [|done|by rewrite Z.mod_0_l by lia].
  unfold window. rewrite zlen_repeat by lia. split_and!; try lia; [unfold zlen; simpl; lia|].
  intros k Hk. pose proof (Z.mod_pos_bound (0 + k) N). rewrite zget_repeat. zcase; simpl; try lia.
  f_equal. symmetry. apply zget_None. unfold zlen. simpl. lia.
Qed.

(** The queue after a push: at capacity, the oldest element makes room (or the value is
    dropped when overwriting is off). *)
Definition pushed q (v : A) : list A :=
  if zlen q =? N then (if Overwrite then tail q ++ [v] else q) else q ++ [v].

Lemma push_back_spec r q v :
  rep r q -> throws v = false -> exists r', push_back N Overwrite throws v r = Done r' /\ rep r' (pushed q v).
Proof.
  intros [Hw Hs Hh] Hv. pose proof Hw as (Hl & Ht & Hq & _). unfold push_back, full, pushed. rewrite Hs.
  destruct (Z.eqb_spec (zlen q) N) as [E|E].
  - destruct Overwrite; simpl; [|by exists r]. unfold push_back_impl, full. rewrite Hs.
    destruct (Z.eqb_spec (zlen q) N) as [_|]; [|done]. rewrite Hv.
    destruct q as [|x q]; [unfold zlen in E; simpl in E; lia|].
    assert (zlen q = N - 1) as Hlq by (unfold zlen in *; simpl in E; lia).
    assert (head_ r = tail_ r) as Hht.
    { rewrite Hh, E. replace (tail_ r + N) with (tail_ r + 1 * N) by lia. rewrite Z_mod_plus_full. apply Z.mod_small. lia. }
    destruct (window_next _ _ _ _ Hw ltac:(lia)) as [Hd Hw1]. rewrite Hht, Hd.
    destruct (window_push _ _ _ v Hw1 ltac:(lia)) as [Hc Hw2].
    assert (((tail_ r + 1) mod N + zlen q) mod N = tail_ r) as Hslot.
    { rewrite Zplus_mod_idemp_l, Hlq. replace (tail_ r + 1 + (N - 1)) with (tail_ r + 1 * N) by lia.
      rewrite Z_mod_plus_full. apply Z.mod_small. lia. }
    rewrite Hslot in Hc, Hw2. rewrite Hc. eexists. split; [done|]. rewrite !next_slot_eq by lia.
    split; simpl; rewrite ?zlen_app; change (zlen [v]) with 1; [done|lia|].
    replace (_ + (zlen q + 1)) with ((tail_ r + 1) mod N + 1 * N) by lia.
    by rewrite Z_mod_plus_full, Z.mod_mod by lia.
  - rewrite andb_false_r. unfold push_back_impl, full. rewrite Hs.
    destruct (Z.eqb_spec (zlen q) N) as [|_]; [done|]. rewrite Hv.
    destruct (window_push _ _ _ v Hw ltac:(lia)) as [Hc Hw2]. rewrite Hh, Hc. eexists. split; [done|].
    pose proof (Z.mod_pos_bound (tail_ r + zlen q) N). pose proof (zlen_nonneg q).
    split; simpl; rewrite ?zlen_app; change (zlen [v]) with 1; [done|by uwrap|].
    rewrite next_slot_eq, Zplus_mod_idemp_l by lia. f_equal. lia.
Qed.

Lemma pop_front_spec r q : rep r q -> exists r', pop_front N r = Done r' /\ rep r' (tail q).
Proof.
  intros [Hw Hs Hh]. pose proof Hw as (Hl & Ht & Hq & _). unfold pop_front, ring_empty. rewrite Hs.
  destruct q as [|x q]; [by exists r|].
  assert (zlen (x :: q) = zlen q + 1) as Hlen by (unfold zlen; simpl; lia). pose proof (zlen_nonneg q).
  destruct (Z.eqb_spec (zlen (x :: q)) 0); [lia|].
  destruct (window_next _ _ _ _ Hw ltac:(lia)) as [Hd Hw1]. rewrite Hd. eexists. split; [done|].
  rewrite next_slot_eq by lia. split; simpl; [done|uwrap; lia|].
  rewrite Zplus_mod_idemp_l, Hh, Hlen. f_equal. lia.
Qed.

Lemma clear_loop_spec els t q :
  window els t q -> exists els' t', clear_loop N (length q) els t = Some els' /\ window els' t' [].
Proof.
  revert els t. induction q as [|x q IH]; intros els t Hw; simpl; [eauto|].
  pose proof Hw as (Hl & Ht & Hq & _).
  assert (zlen (x :: q) = zlen q + 1) as Hlen by (unfold zlen; simpl; lia).
  destruct (window_next _ _ _ _ Hw ltac:(lia)) as [Hd Hw1]. rewrite Hd, next_slot_eq by lia. by apply IH.
Qed.

(** A window with no element: every slot is raw, whatever its origin. *)
Lemma window_nil els t t' : window els t [] -> 0 <= t' < N -> window els t' [].
Proof.
  intros (Hl & Ht & Hq & Hw) Ht'. split_and!; try done; try lia. intros k Hk.
  specialize (Hw ((t' + k - t) mod N)). pose proof (Z.mod_pos_bound (t' + k - t) N).
  rewrite Zplus_mod_idemp_r in Hw. replace (t + (t' + k - t)) with (t' + k) in Hw by lia.
  rewrite Hw by lia. f_equal. rewrite !(proj2 (zget_None _ _)); unfold zlen; simpl; done || lia.
Qed.

Lemma ring_clear_spec r q : rep r q -> exists r', clear N r = Done r' /\ rep r' [].
Proof.
  intros [Hw Hs Hh]. unfold clear. rewrite Hs. unfold zlen. rewrite Nat2Z.id.
  destruct (clear_loop_spec _ _ _ Hw) as (els' & t' & -> & Hw'). eexists. split; [done|].
  split; simpl; [apply (window_nil _ t'); [done|lia]|done|by rewrite Z.mod_0_l by lia].
Qed.

(** ** Copying *)

Lemma rollback_spec els t q : window els t q ->
  exists els', rollback N (length q) t 0 els = Some els' /\ window els' t [].
Proof.
  intros Hw. pose proof Hw as (_ & Ht0 & _ & _). assert (forall q j els', 0 <= j -> j + zlen q <= N -> window els' ((t + j) mod N) q ->
    exists els'', rollback N (length q) t j els' = Some els'' /\ exists t', window els'' t' []) as Hgen.
  { clear els q Hw. induction q as [|x q IH]; intros j els Hj Hlen Hw; simpl; [eauto|].
    pose proof Hw as (Hl & Ht & Hq & _).
    assert (zlen (x :: q) = zlen q + 1) as Hlq by (unfold zlen; simpl; lia). pose proof (zlen_nonneg q).
    destruct (window_next _ _ _ _ Hw ltac:(lia)) as [Hd Hw1].
    rewrite nth_slot_eq by lia.
    rewrite Hd. apply IH; [lia|lia|]. rewrite Zplus_mod_idemp_l in Hw1. by replace (t + (j + 1)) with (t + j + 1) by lia. }
  pose proof Hw as (Hl & Ht & Hq & _).
  destruct (Hgen q 0 els) as (els' & E & t' & Hw'); [lia|lia|by rewrite Z.add_0_r, Z.mod_small by lia|].
  exists els'. split; [done|]. by apply (window_nil _ t').
Qed.

Lemma copy_loop_spec src t built todo els :
  window src t (built ++ todo) -> window els t built ->
  exists els' built', copy_loop N throws (length todo) src t (zlen built) els
      = Some (forallb (fun v => negb (throws v)) todo, zlen built', els') /\
    window els' t built' /\ (forallb (fun v => negb (throws v)) todo = true -> built' = built ++ todo).
Proof.
  intros Hsrc. revert built els Hsrc. induction todo as [|v todo IH]; intros built els Hsrc Hw; simpl.
  { exists els, built. rewrite app_nil_r. done. }
  pose proof Hsrc as (_ & Ht & Hq & Hs). rewrite zlen_app in Hq.
  assert (zlen (v :: todo) = zlen todo + 1) as Hl by (unfold zlen; simpl; lia).
  pose proof (zlen_nonneg built). pose proof (zlen_nonneg todo).
  rewrite nth_slot_eq, Hs by lia. rewrite zget_app. zcase; [lia|]. rewrite Z.sub_diag. simpl.
  destruct (throws v) eqn:Ev; simpl.
  { by exists els, built. }
  destruct (window_push _ _ _ v Hw ltac:(lia)) as [Hc Hw']. rewrite Hc.
  destruct (IH (built ++ [v]) (zput els ((t + zlen built) mod N) (Some v))) as (els' & built' & E & Hw2 & Hall).
  { by rewrite <- app_assoc. }
  { done. }
  rewrite zlen_app in E. change (zlen [v]) with 1 in E. rewrite E. exists els', built'.
  split; [done|]. split; [done|]. intros Hok. rewrite Hall by done. by rewrite <- app_assoc.
Qed.

Lemma copy_impl_spec rhs q els t :
  rep rhs q -> window els t [] ->
  if forallb (fun v => negb (throws v)) q
  then exists r', copy_impl N throws rhs els = Done r' /\ rep r' q
  else exists r', copy_impl N throws rhs els = Threw r' /\ rep r' [].
Proof.
  intros [Hw Hs Hh] He. pose proof Hw as (_ & Ht & _ & _). unfold copy_impl. rewrite Hs.
  destruct (copy_loop_spec (elements_ rhs) (tail_ rhs) [] q els Hw) as (els' & built' & E & Hw' & Hall).
  { by apply (window_nil _ t). }
  replace (Z.to_nat (zlen q)) with (length q) by (unfold zlen; lia).
  change (zlen []) with 0 in E. rewrite E. destruct (forallb _ q).
  - rewrite Hall in Hw' by done. eexists. split; [done|]. by split.
  - unfold zlen. rewrite Nat2Z.id. destruct (rollback_spec _ _ _ Hw') as (els'' & -> & Hw'').
    eexists. split; [done|]. split; simpl; [|done|by rewrite Z.mod_0_l by lia].
    apply (window_nil _ (tail_ rhs)); [done|lia].
Qed.

(** ** Reading *)

Lemma iterate_spec els t q rest :
  window els t (q ++ rest) -> zlen q <= N -> iterate N (length q) els t = map Some q.
Proof.
  intros Hw Hle. pose proof Hw as (_ & Ht & _ & _).
  assert (forall q' j, 0 <= j -> (forall k, 0 <= k < zlen q' -> zget q' k = zget (q ++ rest) (j + k)) -> j + zlen q' <= N ->
    iterate N (length q') els ((t + j) mod N) = map Some q') as Hgen.
  { clear Hle. induction q' as [|x q' IH]; intros j Hj Hget Hlen; simpl; [done|].
    assert (zlen (x :: q') = zlen q' + 1) as Hlq by (unfold zlen; simpl; lia). pose proof (zlen_nonneg q').
    pose proof (Z.mod_pos_bound (t + j) N). destruct Hw as (Hl & _ & Hq & Hw).
    rewrite Hw, next_slot_eq, Zplus_mod_idemp_l by lia.
    specialize (Hget 0 ltac:(lia)) as Hx0. rewrite Z.add_0_r in Hx0. rewrite <- Hx0. simpl. f_equal.
    replace (t + j + 1) with (t + (j + 1)) by lia. apply IH; [lia| |lia].
    intros k Hk. replace (j + 1 + k) with (j + (k + 1)) by lia. rewrite <- Hget by lia.
    unfold zget. zcase; try lia. by replace (Z.to_nat (k + 1)) with (S (Z.to_nat k)) by lia. }
  rewrite <- (Hgen q 0); [by rewrite Z.add_0_r, Z.mod_small by lia|lia| |lia].
  intros k Hk. rewrite zget_app. zcase; [done|lia].
Qed.

Lemma to_list_spec r q : rep r q -> to_list N r = map Some q.
Proof.
  intros [Hw Hs _]. unfold to_list. rewrite Hs. replace (Z.to_nat (zlen q)) with (length q) by (unfold zlen; lia).
  apply (iterate_spec _ _ q []); [by rewrite app_nil_r|apply Hw].
Qed.

Lemma ring_front_spec r q : rep r q -> front r = head q.
Proof.
  intros [Hw Hs _]. pose proof Hw as (_ & Ht & _ & Hq). unfold front. specialize (Hq 0 ltac:(lia)).
  rewrite Z.add_0_r, Z.mod_small in Hq by lia. rewrite Hq. by destruct q.
Qed.

Lemma ring_back_spec r q : rep r q -> 0 < zlen q -> back N r = last q.
Proof.
  intros [Hw Hs Hh] Hne. pose proof Hw as (_ & Ht & Hle & Hq). unfold back.
  assert ((if head_ r =? 0 then N - 1 else head_ r - 1) = (tail_ r + (zlen q - 1)) mod N) as ->.
  { rewrite Hh. rewrite !(mod_once _ N) by lia. zcases; lia. }
  rewrite Hq by lia. simpl. rewrite last_lookup. unfold zget, zlen in *. zcase; [lia|]. f_equal. lia.
Qed.

End Facts.

(** * Any sequence of operations *)

Inductive ring_op (A : Type) := RPush (v : A) | RPop | RClear.
Arguments RPush {A}. Arguments RPop {A}. Arguments RClear {A}.

Section Runs.
Context {A : Type} (N : Z) (Overwrite : bool) (throws : A -> bool).

Definition ring_step (o : ring_op A) (r : ring_buffer A) : outcome A :=
  match o with
  | RPush v => push_back N Overwrite throws v r
  | RPop => pop_front N r
  | RClear => clear N r
  end.

(** The operations one after the other; [None] on undefined behaviour or an exception. *)
Fixpoint ring_run (ops : list (ring_op A)) (r : ring_buffer A) : option (ring_buffer A) :=
  match ops with
  | [] => Some r
  | o :: ops => match ring_step o r with Done r => ring_run ops r | _ => None end
  end.

Definition bounded_step (q : list A) (o : ring_op A) : list A :=
  match o with
  | RPush v => pushed N Overwrite q v
  | RPop => tail q
  | RClear => []
  end.

Definition no_throw (o : ring_op A) : Prop := match o with RPush v => throws v = false | _ => True end.

Lemma ring_step_spec o r q :
  0 < N < 2 ^ 62 -> rep N r q -> no_throw o -> exists r', ring_step o r = Done r' /\ rep N r' (bounded_step q o).
Proof.
  intros HN Hr Ho. destruct o; simpl; [by apply push_back_spec|by apply pop_front_spec|by apply (ring_clear_spec N HN r q)].
Qed.

Lemma ring_run_spec ops r q :
  0 < N < 2 ^ 62 -> rep N r q -> Forall no_throw ops ->
  exists r', ring_run ops r = Some r' /\ rep N r' (fold_left bounded_step ops q).
Proof.
  intros HN Hr Hops. revert r q Hr. induction Hops as [|o ops Ho _ IH]; intros r q Hr; simpl; [eauto|].
  destruct (ring_step_spec o r q HN Hr Ho) as (r' & -> & Hr'). by apply IH.
Qed.

End Runs.

(** * Properties *)

(** Every sequence of [push_back], [pop_front] and [clear] on a fresh ring runs without
    destroying a missing object or overwriting a live one, and iterating the result gives
    the last [N] elements of a bounded queue (with overwriting off, pushes at capacity are
    ignored), [front()] and [back()] its ends. *)
Theorem ring_buffer_refines {A} (N : Z) (Overwrite : bool) (throws : A -> bool) (ops : list (ring_op A)) :
  0 < N < 2 ^ 62 -> Forall (no_throw throws) ops ->
  let q := fold_left (bounded_step N Overwrite) ops [] in
  exists r, ring_run N Overwrite throws ops (ring_init N) = Some r /\ to_list N r = map Some q /\
    front r = head q /\ (0 < zlen q -> back N r = last q) /\ zlen q <= N.
Proof.
  intros HN Hops q. destruct (ring_run_spec N Overwrite throws ops (ring_init N) [] HN (rep_init N HN) Hops) as (r & Hr & Hrep).
  exists r. split; [done|]. split; [by apply to_list_spec|]. split; [by apply (ring_front_spec N)|].
  split; [by apply ring_back_spec|]. apply Hrep.
Qed.

Lemma ring_buffer_refines_witness :
  let ops := [RPush 1; RPush 2; RPush 3; RPush 4; RPop; RPush 5] in
  let q := fold_left (bounded_step 3 true) ops [] in
  q = [3; 4; 5] /\
  exists r, ring_run 3 true (fun _ => false) ops (ring_init 3) = Some r /\ to_list 3 r = map Some q /\
    front r = head q /\ (0 < zlen q -> back 3 r = last q) /\ zlen q <= 3.
Proof.
  split; [reflexivity|]. apply (ring_buffer_refines 3 true (fun _ => false)); [lia|]. repeat constructor.
Defined.

(** Copying is exception safe. A copy assignment either gives the source's elements or,
    when copying one of them throws, reports the exception and leaves an empty ring whose
    slots hold no object: what was built is destroyed, and nothing else is. *)
Theorem ring_assign_exception_safe {A} (N : Z) (throws : A -> bool) (rhs r : ring_buffer A) (q q' : list A) :
  0 < N < 2 ^ 62 -> rep N rhs q -> rep N r q' ->
  if forallb (fun v => negb (throws v)) q
  then exists r', ring_assign N throws rhs r = Done r' /\ to_list N r' = map Some q
  else exists r', ring_assign N throws rhs r = Threw r' /\ rep N r' [].
Proof.
  intros HN Hrhs Hr. destruct (ring_clear_spec N HN r q' Hr) as (r1 & E & Hr1). unfold ring_assign. rewrite E.
  pose proof (copy_impl_spec N throws HN rhs q (elements_ r1) (tail_ r1) Hrhs (rep_window _ _ _ Hr1)) as HC.
  destruct (forallb _ q); [|done]. destruct HC as (r' & -> & Hrep). exists r'. split; [done|]. by apply to_list_spec.
Qed.

Lemma ring_assign_exception_safe_witness :
  let src := ring_run 3 true (fun _ : Z => false) [RPush 1; RPush 2] (ring_init 3) in
  exists rhs, src = Some rhs /\ exists r', ring_assign 3 (fun v => v =? 2) rhs (ring_init 3) = Threw r' /\ rep 3 r' [].
Proof.
  destruct (ring_run_spec 3 true (fun _ : Z => false) [RPush 1; RPush 2] (ring_init 3) [] ltac:(lia) (rep_init 3 ltac:(lia)))
    as (rhs & E & Hrep); [repeat constructor|].
  exists rhs. split; [exact E|].
  exact (ring_assign_exception_safe 3 (fun v => v =? 2) rhs (ring_init 3) [1; 2] [] ltac:(lia) Hrep (rep_init 3 ltac:(lia))).
Defined.

(** [push_back] on a full overwriting ring is not exception safe. It destroys the oldest
    element before it constructs the new one; when the constructor throws the ring still
    counts the destroyed slot, and its destructor destroys that slot a second time. *)
Theorem ring_push_throw_double_destroy {A} (N : Z) (throws : A -> bool) (r : ring_buffer A) (q : list A) (v : A) :
  0 < N < 2 ^ 62 -> rep N r q -> zlen q = N -> throws v = true ->
  exists r', push_back N true throws v r = Threw r' /\ clear N r' = UB.
Proof.
  intros HN [Hw Hs Hh] Hfull Hv. pose proof Hw as (Hl & Ht & _ & _).
  destruct q as [|x q]; [unfold zlen in Hfull; simpl in Hfull; lia|].
  assert (zlen q = N - 1) as Hlq by (unfold zlen in *; simpl in Hfull; lia).
  destruct (window_next N HN _ _ _ _ Hw ltac:(lia)) as [Hd _].
  assert (head_ r = tail_ r) as Hht.
  { rewrite Hh, Hfull. replace (tail_ r + N) with (tail_ r + 1 * N) by lia. rewrite Z_mod_plus_full. apply Z.mod_small. lia. }
  unfold push_back, push_back_impl, full. rewrite Hs, Hfull, Z.eqb_refl. simpl. rewrite Hht, Hd, Hv.
  eexists. split; [done|]. unfold clear. cbn [size_ elements_ tail_].
  destruct (Z.to_nat N) as [|m] eqn:Em; [lia|]. simpl. unfold destroy_at. by rewrite zget_put_eq by lia.
Qed.

Lemma ring_push_throw_double_destroy_witness :
  exists r, ring_run 1 true (fun _ : Z => false) [RPush 1] (ring_init 1) = Some r /\
  exists r', push_back 1 true (fun _ => true) 2 r = Threw r' /\ clear 1 r' = UB.
Proof.
  destruct (ring_run_spec 1 true (fun _ : Z => false) [RPush 1] (ring_init 1) [] ltac:(lia) (rep_init 1 ltac:(lia)))
    as (r & E & Hrep); [repeat constructor|].
  exists r. split; [exact E|].
  apply (ring_push_throw_double_destroy 1 (fun _ => true) r [1] 2); [lia|exact Hrep|reflexivity|reflexivity].
Defined.
