(* ===== verification/ActorId.v ===== *)
(** Actor and core identifiers (src/qb/core/ActorId.h, ActorId.cpp, CoreSet.h, CoreSet.cpp).

    An [ActorId] is a 16-bit service id and a 16-bit core id, converted to and from one
    32-bit integer by [std::bit_cast]; the model takes a little-endian layout, where the
    first member is the low half. A [CoreIdSet] is a 256-bit mask. A [CoreSet] numbers the
    members of a mask densely, for use as mailbox indices. *)

From S2P Require Import Prelude.

Definition MaxCores : Z := 256.

(** * Actor ids *)

Record ActorId := mk_ActorId { _service_id : Z; _core_id : Z }.

Definition NotFound : Z := 0.
Definition BroadcastSid : Z := 65535.

Definition actor_id_default : ActorId := mk_ActorId 0 0.

(** [ActorId(uint32_t)] and [operator uint32_t()]: [std::bit_cast]. *)
Definition actor_of_u32 (id : Z) : ActorId := mk_ActorId (Z.land id 65535) (Z.shiftr id 16).
Definition actor_to_u32 (a : ActorId) : Z := Z.lor (_service_id a) (Z.shiftl (_core_id a) 16).

Definition sid (a : ActorId) : Z := _service_id a.
Definition index (a : ActorId) : Z := _core_id a.
Definition is_broadcast (a : ActorId) : bool := _service_id a =? BroadcastSid.
Definition is_valid (a : ActorId) : bool := negb (actor_to_u32 a =? NotFound).

(** [BroadcastId(core_id)]: the core id is truncated to 16 bits. *)
Definition BroadcastId (core_id : Z) : ActorId := mk_ActorId BroadcastSid (u16 core_id).

(** [std::hash<ActorId>] *)
Definition actor_hash (a : ActorId) : Z := actor_to_u32 a.

#[export] Instance ActorId_eq_dec : EqDecision ActorId.
Proof. solve_decision. Defined.

#[export] Instance ActorId_countable : Countable ActorId.
Proof.
  refine (inj_countable' (fun a => (_service_id a, _core_id a)) (fun p => mk_ActorId p.1 p.2) _).
  by intros [].
Defined.

Definition actor_id_ok (a : ActorId) : Prop := 0 <= _service_id a < 2 ^ 16 /\ 0 <= _core_id a < 2 ^ 16.

(** * Sets of core ids *)

Module CoreIdBitSet.

(** [std::bitset<MaxCores>] as a mask. *)
Definition t : Type := Z.

Definition empty : t := 0.

Definition contains (id : Z) (s : t) : bool := (id <? MaxCores) && Z.testbit s id.

Definition insert (id : Z) (s : t) : t :=
  if id <? MaxCores then Z.setbit s id else s.

Definition remove (id : Z) (s : t) : t :=
  if id <? MaxCores then Z.clearbit s id else s.

(** The constructors from a list or a set of ids, out-of-range ids skipped. *)
Definition core_ids (ids : list Z) : t := fold_left (fun s id => insert id s) ids empty.

(** [to_vector()] from position [i] on. *)
Fixpoint to_vector_loop (n : nat) (i : Z) (s : t) : list Z :=
  match n with
  | O => []
  | S n => if Z.testbit s i then u16 i :: to_vector_loop n (i + 1) s else to_vector_loop n (i + 1) s
  end.

Definition to_vector (s : t) : list Z := to_vector_loop (Z.to_nat MaxCores) 0 s.

Definition size (s : t) : Z := zlen (filter (fun i => Z.testbit s i = true) (seqZ 0 MaxCores)).

(** [iterator::advance()]: the next member at or after [_pos]. *)
Fixpoint advance (fuel : nat) (_pos : Z) (s : t) : Z :=
  match fuel with
  | O => _pos
  | S fuel => if (_pos <? MaxCores) && negb (Z.testbit s _pos) then advance fuel (_pos + 1) s else _pos
  end.

Definition advance_from (_pos : Z) (s : t) : Z := advance (Z.to_nat (MaxCores - _pos)) _pos s.

(** [for (auto id : set)]: dereference, increment, until [end()]. *)
Fixpoint iterate (fuel : nat) (_pos : Z) (s : t) : list Z :=
  match fuel with
  | O => []
  | S fuel => if _pos =? MaxCores then [] else u16 _pos :: iterate fuel (advance_from (_pos + 1) s) s
  end.

Definition elements (s : t) : list Z := iterate (Z.to_nat MaxCores) (advance_from 0 s) s.

End CoreIdBitSet.

Import CoreIdBitSet.

(** * Dense numbering *)

Record CoreSet := mk_CoreSet { _raw_set : CoreIdBitSet.t; _nb_core : Z; _size : Z; _set : list Z }.

(** The search for the largest member, from [i] down. *)
Fixpoint max_member (n : nat) (s : CoreIdBitSet.t) : Z :=
  match n with
  | O => 0
  | S n => if contains (Z.of_nat n) s then Z.of_nat n + 1 else max_member n s
  end.

(** [for (auto id : set) _set[id] = idx++] with a [uint8_t] counter. *)
Fixpoint number (ids : list Z) (idx : Z) (tbl : list Z) : list Z :=
  match ids with
  | [] => tbl
  | id :: ids => number ids (u8 (idx + 1)) (zput tbl id idx)
  end.

Definition make_CoreSet (s : CoreIdBitSet.t) : CoreSet :=
  mk_CoreSet s (size s) (max_member (Z.to_nat MaxCores) s) (number (elements s) 0 (zrepeat 0 MaxCores)).

Definition resolve (id : Z) (c : CoreSet) : Z :=
  if id <? MaxCores then default 0 (zget (_set c) id) else 0.

Definition getSize (c : CoreSet) : Z := _size c.
Definition getNbCore (c : CoreSet) : Z := _nb_core c.
Definition raw (c : CoreSet) : CoreIdBitSet.t := _raw_set c.

(** [CoreSet::build(nb_core)] *)
Definition build (nb_core : Z) : CoreSet :=
  let bound := Z.min nb_core 65536 in
  make_CoreSet (fold_left (fun s i => insert (u16 i) s) (seqZ 0 bound) empty).

(** * Lemmas on actor ids *)

Lemma land_low16 z : Z.land z 65535 = z mod 2 ^ 16.
Proof. change 65535 with (Z.ones 16). by rewrite Z.land_ones by lia. Qed.

Lemma actor_to_u32_sum a : actor_id_ok a -> actor_to_u32 a = _service_id a + _core_id a * 2 ^ 16.
Proof.
  intros [Hs Hc]. unfold actor_to_u32. rewrite Z.shiftl_mul_pow2 by lia.
  assert (Z.land (_service_id a) (_core_id a * 2 ^ 16) = 0) as Hl.
  { apply Z.bits_inj'. intros i Hi. rewrite Z.land_spec, Z.bits_0, Z.mul_pow2_bits by lia.
    destruct (decide (i < 16)); [rewrite (Z.testbit_neg_r _ (i - 16)) by lia; apply andb_false_r|].
    by rewrite (bits_above _ _ 16) by lia. }
  by rewrite Z.add_nocarry_lxor, Z.lxor_lor.
Qed.

Lemma u32_actor_roundtrip z : 0 <= z < 2 ^ 32 -> actor_id_ok (actor_of_u32 z) /\ actor_to_u32 (actor_of_u32 z) = z.
Proof.
  intros Hz. assert (actor_id_ok (actor_of_u32 z)) as Hok.
  { unfold actor_id_ok, actor_of_u32. simpl. rewrite land_low16, Z.shiftr_div_pow2 by lia.
    pose proof (Z.mod_pos_bound z (2 ^ 16)). split; [lia|]. split; [apply Z.div_pos; lia|].
    apply Z.div_lt_upper_bound; lia. }
  split; [done|]. rewrite actor_to_u32_sum by done. unfold actor_of_u32. simpl.
  rewrite land_low16, Z.shiftr_div_pow2 by lia. pose proof (Z.div_mod z (2 ^ 16)). lia.
Qed.

Lemma actor_u32_roundtrip a : actor_id_ok a -> 0 <= actor_to_u32 a < 2 ^ 32 /\ actor_of_u32 (actor_to_u32 a) = a.
Proof.
  intros Hok. rewrite actor_to_u32_sum by done. destruct a as [s c]. destruct Hok as [Hs Hc]. simpl in *.
  split; [lia|]. unfold actor_of_u32. rewrite land_low16, Z.shiftr_div_pow2 by lia.
  rewrite Z.mod_add, Z.mod_small by lia. rewrite Z.div_add, Z.div_small by lia. done.
Qed.

(** * Lemmas on core sets *)

(** Membership as a decidable predicate, the members in ascending order, and how many
    members precede an id. *)
Definition member (s : CoreIdBitSet.t) (i : Z) : Prop := Z.testbit s i = true.

#[export] Instance member_dec s i : Decision (member s i).
Proof. unfold member. apply _. Defined.

Definition members (s : CoreIdBitSet.t) : list Z := filter (member s) (seqZ 0 MaxCores).
Definition rank (s : CoreIdBitSet.t) (id : Z) : Z := zlen (filter (member s) (seqZ 0 id)).

Lemma seqZ_cons_S i n : 0 < n -> seqZ i n = i :: seqZ (i + 1) (n - 1).
Proof. intros. by rewrite seqZ_cons by lia. Qed.

Lemma to_vector_loop_spec n i s :
  0 <= i -> i + Z.of_nat n <= MaxCores -> to_vector_loop n i s = filter (member s) (seqZ i (Z.of_nat n)).
Proof.
  unfold MaxCores. revert i. induction n as [|n IH]; intros i Hi Hn; simpl; [done|].
  rewrite seqZ_cons_S by lia. rewrite IH by lia. replace (Z.of_nat (S n) - 1) with (Z.of_nat n) by lia.
  destruct (Z.testbit s i) eqn:E.
  - rewrite filter_cons_True by done. by rewrite u16_small by lia.
  - rewrite filter_cons_False; [done|]. unfold member. congruence.
Qed.

Lemma to_vector_members s : to_vector s = members s.
Proof. unfold to_vector, members. by rewrite to_vector_loop_spec by (unfold MaxCores; lia). Qed.

(** Positions without a member can be skipped. *)
Lemma filter_skip s p q :
  p <= q <= MaxCores -> (forall i, p <= i < q -> Z.testbit s i = false) ->
  filter (member s) (seqZ p (MaxCores - p)) = filter (member s) (seqZ q (MaxCores - q)).
Proof.
  intros Hq Hno. replace (MaxCores - p) with ((q - p) + (MaxCores - q)) by lia.
  rewrite seqZ_app, filter_app by lia. replace (p + (q - p)) with q by lia.
  rewrite (filter_none _ (seqZ p _)); [done|]. intros i Hi%elem_of_seqZ Hm.
  unfold member in Hm. by rewrite Hno in Hm by lia.
Qed.

Lemma advance_spec fuel p s :
  0 <= p <= MaxCores -> MaxCores - p <= Z.of_nat fuel ->
  let q := advance fuel p s in
  p <= q <= MaxCores /\ (forall i, p <= i < q -> Z.testbit s i = false) /\ (q = MaxCores \/ Z.testbit s q = true).
Proof.
  revert p. induction fuel as [|fuel IH]; intros p Hp Hf; simpl; [split; [lia|]; split; [lia|left; lia]|].
  destruct (Z.ltb_spec p MaxCores); simpl; [|split; [lia|]; split; [lia|left; lia]].
  destruct (Z.testbit s p) eqn:E; simpl; [split; [lia|]; split; [lia|by right]|].
  destruct (IH (p + 1)) as (H1 & H2 & H3); [lia|lia|]. split; [lia|]. split; [|done].
  intros i Hi. destruct (decide (i = p)) as [->|]; [done|]. apply H2. lia.
Qed.

Lemma advance_from_spec p s :
  0 <= p <= MaxCores ->
  filter (member s) (seqZ p (MaxCores - p))
    = filter (member s) (seqZ (advance_from p s) (MaxCores - advance_from p s)) /\
  p <= advance_from p s <= MaxCores /\
  (advance_from p s = MaxCores \/ Z.testbit s (advance_from p s) = true).
Proof.
  intros Hp. destruct (advance_spec (Z.to_nat (MaxCores - p)) p s Hp ltac:(lia)) as (H1 & H2 & H3).
  split; [by apply filter_skip|]. done.
Qed.

Lemma core_iterate_spec fuel p s :
  0 <= p <= MaxCores -> MaxCores - p <= Z.of_nat fuel -> p = MaxCores \/ Z.testbit s p = true ->
  iterate fuel p s = filter (member s) (seqZ p (MaxCores - p)).
Proof.
  revert p. induction fuel as [|fuel IH]; intros p Hp Hf Hm; simpl.
  { replace (MaxCores - p) with 0 by lia. done. }
  destruct (Z.eqb_spec p MaxCores) as [->|Hne]; [by rewrite Z.sub_diag|]. destruct Hm as [|Hm]; [done|].
  destruct (advance_from_spec (p + 1) s) as (H1 & H2 & H3); [lia|].
  rewrite seqZ_cons_S, filter_cons_True by (done || lia). rewrite u16_small by (unfold MaxCores in *; lia).
  f_equal. rewrite IH by (done || lia). rewrite <- H1. do 2 f_equal. lia.
Qed.

Lemma elements_members s : elements s = members s.
Proof.
  destruct (advance_from_spec 0 s) as (H1 & H2 & H3); [unfold MaxCores; lia|]. unfold elements, members.
  rewrite core_iterate_spec by (done || lia). rewrite <- H1. by rewrite Z.sub_0_r.
Qed.

Lemma members_range s id : id ∈ members s <-> 0 <= id < MaxCores /\ member s id.
Proof. unfold members. rewrite list_elem_of_filter, elem_of_seqZ. split; intros [? ?]; split; done || lia. Qed.

Lemma contains_member s id : 0 <= id -> contains id s = true <-> id ∈ members s.
Proof.
  intros Hid. unfold contains. rewrite members_range, andb_true_iff, Z.ltb_lt. unfold member.
  split; intros [? ?]; split; done || lia.
Qed.

Lemma members_NoDup s : NoDup (members s).
Proof. apply NoDup_filter, NoDup_seqZ. Qed.

Lemma members_len s : zlen (members s) <= MaxCores.
Proof.
  unfold zlen. pose proof (length_filter (member s) (seqZ 0 MaxCores)) as H. fold (members s) in H.
  rewrite length_seqZ in H. unfold MaxCores in *. lia.
Qed.

(** A member sits in the list of members at its rank. *)
Lemma members_rank s id : id ∈ members s -> members s !! Z.to_nat (rank s id) = Some id.
Proof.
  rewrite members_range. intros [Hid Hm]. unfold members, rank, zlen. rewrite Nat2Z.id.
  replace MaxCores with (id + (MaxCores - id)) by lia. rewrite seqZ_app, filter_app by lia.
  rewrite lookup_app_r, Nat.sub_diag by lia. by rewrite seqZ_cons_S, filter_cons_True by (done || lia).
Qed.

Lemma rank_lt s id id' : 0 <= id < id' -> member s id -> rank s id < rank s id'.
Proof.
  intros Hid Hm. unfold rank. replace id' with (id + (id' - id)) by lia.
  rewrite seqZ_app, filter_app, zlen_app by lia.
  rewrite (seqZ_cons_S (0 + id)), filter_cons_True by (done || lia). unfold zlen. simpl. lia.
Qed.

Lemma rank_nonneg s id : 0 <= rank s id.
Proof. apply zlen_nonneg. Qed.

(** The table holds the position of every id of the list, and its old content elsewhere. *)
Lemma number_spec ids idx tbl :
  NoDup ids -> Forall (fun id => 0 <= id < zlen tbl) ids -> 0 <= idx -> idx + zlen ids <= 256 ->
  (forall k id, ids !! k = Some id -> zget (number ids idx tbl) id = Some (idx + Z.of_nat k)) /\
  (forall id, id ∉ ids -> zget (number ids idx tbl) id = zget tbl id).
Proof.
  intros Hnd. revert idx tbl. induction Hnd as [|id ids Hni Hnd IH]; intros idx tbl Hr Hidx Hlen; simpl.
  { split; [by intros []|done]. }
  apply Forall_cons in Hr as [Hid Hr].
  assert (zlen (id :: ids) = zlen ids + 1) as Hl by (unfold zlen; simpl; lia). pose proof (zlen_nonneg ids).
  destruct (decide (ids = [])) as [->|Hne].
  { simpl. split.
    - intros [|k] id' Hk; simpl in Hk; simplify_eq. rewrite zget_put_eq by lia. f_equal. lia.
    - intros id' Hid'. apply zget_put_ne. set_solver. }
  assert (0 < zlen ids) by (unfold zlen; destruct ids; [done|simpl; lia]).
  destruct (IH (idx + 1) (zput tbl id idx)) as [IH1 IH2]; [by rewrite zlen_put|lia|lia|].
  unfold u8. rewrite Z.mod_small by lia. split.
  - intros [|k] id' Hk; simpl in Hk; simplify_eq.
    + rewrite IH2 by done. rewrite zget_put_eq by lia. f_equal. lia.
    + rewrite (IH1 k id' Hk). f_equal. lia.
  - intros id' [Hne' Hni']%not_elem_of_cons. rewrite IH2 by done. by apply zget_put_ne.
Qed.

Lemma resolve_spec s id :
  0 <= id -> resolve id (make_CoreSet s) = if decide (id ∈ members s) then rank s id else 0.
Proof.
  intros Hid. unfold resolve, make_CoreSet. cbn [_set]. rewrite elements_members.
  destruct (number_spec (members s) 0 (zrepeat 0 MaxCores)) as [H1 H2].
  - apply members_NoDup.
  - apply Forall_forall. intros i [Hi _]%members_range. rewrite zlen_repeat by (unfold MaxCores; lia). done.
  - lia.
  - pose proof (members_len s). unfold MaxCores in *. lia.
  - case_decide as Hm.
    + pose proof (proj1 (members_range s id) Hm) as [? _]. zcase; [|lia].
      rewrite (H1 _ _ (members_rank s id Hm)). simpl. pose proof (rank_nonneg s id). lia.
    + zcase; [|done]. rewrite (H2 id Hm), zget_repeat. zcase; simpl; try lia; done.
Qed.

Lemma max_member_spec n s :
  let m := max_member n s in
  0 <= m <= Z.of_nat n /\ (m = 0 \/ contains (m - 1) s = true) /\
  (forall id, 0 <= id < Z.of_nat n -> contains id s = true -> id < m).
Proof.
  induction n as [|n IH]; simpl; [split; [lia|]; split; [by left|lia]|].
  destruct (contains (Z.of_nat n) s) eqn:E.
  - split; [lia|]. split; [right; by replace (Z.of_nat n + 1 - 1) with (Z.of_nat n) by lia|]. lia.
  - destruct IH as (H1 & H2 & H3). split; [lia|]. split; [done|]. intros id Hid Hc.
    destruct (decide (id = Z.of_nat n)) as [->|]; [congruence|]. apply H3; [lia|done].
Qed.

(** * Properties *)

(** An actor id and its 32-bit form determine each other, so the form is a perfect
    hash; the only invalid id is the default one, and a broadcast id stays a broadcast id of
    its (16-bit) core through the conversion. *)
Theorem actor_id_bit_cast (a b : ActorId) (z core : Z) :
  actor_id_ok a -> actor_id_ok b -> 0 <= z < 2 ^ 32 ->
  actor_to_u32 (actor_of_u32 z) = z /\ actor_of_u32 (actor_to_u32 a) = a /\
  (actor_hash a = actor_hash b <-> a = b) /\ (is_valid a = false <-> a = actor_id_default) /\
  is_broadcast (actor_of_u32 (actor_to_u32 (BroadcastId core))) = true /\
  index (actor_of_u32 (actor_to_u32 (BroadcastId core))) = core mod 2 ^ 16.
Proof.
  intros Ha Hb Hz. destruct (actor_u32_roundtrip a Ha) as [_ Ea]. destruct (actor_u32_roundtrip b Hb) as [_ Eb].
  assert (actor_id_ok (BroadcastId core)) as Hbc.
  { unfold actor_id_ok, BroadcastId, BroadcastSid, u16. simpl. pose proof (Z.mod_pos_bound core (2 ^ 16)). lia. }
  rewrite (proj2 (actor_u32_roundtrip _ Hbc)).
  split; [apply (u32_actor_roundtrip z Hz)|]. split; [done|]. split; [unfold actor_hash; split; congruence|].
  split; [|done]. unfold is_valid, NotFound. rewrite negb_false_iff, Z.eqb_eq. split; [|by intros ->].
  intros H. by rewrite <- Ea, H.
Qed.

Lemma actor_id_bit_cast_witness :
  let a := mk_ActorId 7 3 in
  actor_to_u32 a = 196615 /\ actor_of_u32 (actor_to_u32 a) = a.
Proof.
  split; [reflexivity|].
  apply (actor_id_bit_cast (mk_ActorId 7 3) (mk_ActorId 1 2) 5 0); [vm_compute; intuition congruence..|lia].
Defined.

(** [CoreSet] numbers the cores of a set densely and in order: [resolve] maps the
    members one to one onto [0 .. getNbCore() - 1], keeping their order, sends every other
    id (out-of-range ones included) to 0, and [getSize()] is one more than the largest
    member. *)
Theorem core_set_dense (s : CoreIdBitSet.t) :
  let c := make_CoreSet s in
  (forall id, 0 <= id -> contains id s = true -> 0 <= resolve id c < getNbCore c) /\
  (forall id id', 0 <= id < id' -> contains id s = true -> contains id' s = true -> resolve id c < resolve id' c) /\
  (forall j, 0 <= j < getNbCore c -> exists id, 0 <= id /\ contains id s = true /\ resolve id c = j) /\
  (forall id, 0 <= id -> contains id s = false -> resolve id c = 0) /\
  (forall id, 0 <= id -> contains id s = true -> id < getSize c) /\
  (getSize c = 0 \/ contains (getSize c - 1) s = true).
Proof.
  assert (forall id, 0 <= id -> contains id s = true -> resolve id (make_CoreSet s) = rank s id) as Hrank.
  { intros id Hid Hc. rewrite resolve_spec by done. rewrite contains_member in Hc by done. by case_decide. }
  assert (getNbCore (make_CoreSet s) = zlen (members s)) as Hnb by done.
  destruct (max_member_spec (Z.to_nat MaxCores) s) as (Hm1 & Hm2 & Hm3).
  split_and!; [| | | | |done].
  - intros id Hid Hc. rewrite Hrank, Hnb by done. pose proof (rank_nonneg s id). split; [done|].
    apply contains_member in Hc; [|done]. pose proof (lookup_lt_Some _ _ _ (members_rank s id Hc)). unfold zlen. lia.
  - intros id id' Hid Hc Hc'. rewrite !Hrank by (done || lia). apply rank_lt; [done|].
    apply contains_member in Hc; [|lia]. by apply members_range in Hc as [_ ?].
  - intros j Hj. rewrite Hnb in Hj. destruct (lookup_lt_is_Some_2 (members s) (Z.to_nat j)) as [id Hid]; [unfold zlen in Hj; lia|].
    pose proof (list_elem_of_lookup_2 _ _ _ Hid) as Hin. pose proof (proj1 (members_range s id) Hin) as [? _].
    exists id. split; [lia|]. split; [apply contains_member; [lia|done]|]. rewrite resolve_spec by lia. case_decide; [|done].
    pose proof (NoDup_lookup _ _ _ _ (members_NoDup s) Hid (members_rank s id Hin)). pose proof (rank_nonneg s id). lia.
  - intros id Hid Hc. rewrite resolve_spec by done. case_decide as Hm; [|done].
    apply contains_member in Hm; [congruence|done].
  - intros id Hid Hc. pose proof Hc as Hr. apply contains_member in Hr; [|done]. apply members_range in Hr as [? _].
    apply Hm3; [lia|done].
Qed.
