(* ===== verification/ServiceIdPool.v ===== *)
(** The pool of free service ids of a virtual core ([ServiceIdPool] in
    src/qb/core/VirtualCore.h): a bitset of 64-bit words with a scan cursor and a cached
    population count. *)

From S2P Require Import Prelude ActorId.

Definition kBits : Z := BroadcastSid.
Definition kWords : Z := (kBits + 63) / 64.

Record pool := Pool { _bits : list Z; _next_word : Z; _count : Z }.

(** [init(min_sid)]: the loop over [[min_sid, kBits)]. *)
Fixpoint init_loop (n : nat) (sid : Z) (bits : list Z) (count : Z) : list Z * Z :=
  match n with
  | O => (bits, count)
  | S n =>
      let w := default 0 (zget bits (sid / 64)) in
      init_loop n (sid + 1) (zput bits (sid / 64) (Z.lor w (Z.shiftl 1 (sid mod 64)))) (count +s 1)
  end.

Definition init (min_sid : Z) : pool :=
  let '(bits, count) := init_loop (Z.to_nat (kBits - min_sid)) min_sid (zrepeat 0 kWords) 0 in
  Pool bits (min_sid / 64) count.

(** [std::countr_zero] of a word, searched from bit [i]. *)
Fixpoint countr_zero_from (n : nat) (i word : Z) : Z :=
  match n with
  | O => i
  | S n => if Z.testbit word i then i else countr_zero_from n (i + 1) word
  end.

Definition countr_zero (word : Z) : Z := countr_zero_from 64 0 word.

(** [acquire()]: the scan from word [w] on. *)
Fixpoint acquire_scan (n : nat) (w : Z) (p : pool) : Z * pool :=
  match n with
  | O => (BroadcastSid, p)
  | S n =>
      let word := default 0 (zget (_bits p) w) in
      if negb (word =? 0) then
        let bit := countr_zero word in
        (u16 (w * 64 + bit), Pool (zput (_bits p) w (Z.land word (word - 1))) w (_count p -s 1))
      else acquire_scan n (w + 1) p
  end.

Definition acquire (p : pool) : Z * pool :=
  if _count p =? 0 then (BroadcastSid, p)
  else acquire_scan (Z.to_nat (kWords - _next_word p)) (_next_word p) p.

Definition release (sid : Z) (p : pool) : pool :=
  if kBits <=? sid then p
  else
    let w := sid / 64 in
    let m := Z.shiftl 1 (sid mod 64) in
    let word := default 0 (zget (_bits p) w) in
    if Z.land word m =? 0 then
      Pool (zput (_bits p) w (Z.lor word m)) (if w <? _next_word p then w else _next_word p) (_count p +s 1)
    else p.

Definition empty (p : pool) : bool := _count p =? 0.
Definition size (p : pool) : Z := _count p.

(** [VirtualCore::__generate_id__()] on the pool of the core [_index]. *)
Definition __generate_id__ (_index : Z) (p : pool) : ActorId * pool :=
  if empty p then (actor_of_u32 NotFound, p)
  else
    let '(sid, p) := acquire p in
    if sid =? BroadcastSid then (actor_of_u32 NotFound, p) else (mk_ActorId sid _index, p).

(** * Specification *)

(** Whether [sid] is free. *)
Definition free (p : pool) (sid : Z) : bool :=
  match zget (_bits p) (sid / 64) with Some w => Z.testbit w (sid mod 64) | None => false end.

Definition free_sids (p : pool) : list Z := filter (fun i => free p i = true) (seqZ 0 kBits).

Record pool_ok (p : pool) : Prop := PoolOk {
  pool_len : zlen (_bits p) = kWords;
  pool_words : forall w x, zget (_bits p) w = Some x -> 0 <= x < 2 ^ 64;
  pool_last : forall s, kBits <= s -> free p s = false;
  pool_cursor : 0 <= _next_word p /\ forall w x, w < _next_word p -> zget (_bits p) w = Some x -> x = 0;
  pool_count : _count p = zlen (free_sids p)
}.

(** * The bit tricks *)

Lemma countr_zero_from_spec n i word :
  0 <= i -> (exists j, i <= j < i + Z.of_nat n /\ Z.testbit word j = true) ->
  let k := countr_zero_from n i word in
  i <= k < i + Z.of_nat n /\ Z.testbit word k = true /\ forall j, i <= j < k -> Z.testbit word j = false.
Proof.
  revert i. induction n as [|n IH]; intros i Hi (j & Hj & Hb); simpl; [lia|].
  destruct (Z.testbit word i) eqn:E; [split; [lia|]; split; [done|lia]|].
  destruct (IH (i + 1)) as (H1 & H2 & H3); [lia| |].
  { exists j. split; [|done]. destruct (decide (j = i)) as [->|]; [congruence|lia]. }
  split; [lia|]. split; [done|]. intros j' Hj'. destruct (decide (j' = i)) as [->|]; [done|]. apply H3. lia.
Qed.

(** A non-zero word has a bit, and [countr_zero] finds its lowest one. *)
Lemma countr_zero_spec word :
  0 < word < 2 ^ 64 ->
  let k := countr_zero word in
  0 <= k < 64 /\ Z.testbit word k = true /\ forall j, 0 <= j < k -> Z.testbit word j = false.
Proof.
  intros Hw. apply countr_zero_from_spec; [lia|]. exists (Z.log2 word).
  split; [|apply Z.bit_log2; lia]. pose proof (Z.log2_nonneg word). pose proof (Z.log2_lt_pow2 word 64). lia.
Qed.

(** [word & (word - 1)] clears the lowest set bit and nothing else. *)
Lemma clear_lowest word k i :
  0 <= word -> 0 <= k -> Z.testbit word k = true -> (forall j, 0 <= j < k -> Z.testbit word j = false) -> 0 <= i ->
  Z.testbit (Z.land word (word - 1)) i = Z.testbit word i && negb (i =? k).
Proof.
  intros Hw Hk Hbit Hlow Hi. rewrite Z.land_spec.
  assert (word mod 2 ^ k = 0) as Hmod.
  { apply Z.bits_inj'. intros j Hj. rewrite Z.bits_0. destruct (decide (j < k)).
    - rewrite Z.mod_pow2_bits_low by lia. apply Hlow. lia.
    - by rewrite Z.mod_pow2_bits_high by lia. }
  assert (0 < 2 ^ k) by (apply Z.pow_pos_nonneg; lia).
  assert (Z.odd (word / 2 ^ k) = true) as Hodd by (rewrite <- Z.bit0_odd, Z.div_pow2_bits, Z.add_0_l by lia; done).
  set (q := word / 2 ^ k) in *. assert (word = q * 2 ^ k) as Hq.
  { pose proof (Z.div_mod word (2 ^ k)). lia. }
  assert (q = 2 * (q / 2) + 1) as Hq2.
  { pose proof (Z.div_mod q 2). pose proof (Zmod_odd q). rewrite Hodd in *. lia. }
  assert (2 ^ (k + 1) = 2 * 2 ^ k) as Hp by (rewrite Z.pow_add_r; lia).
  destruct (decide (i < k)) as [Hlt|Hge].
  { rewrite Hlow by lia. done. }
  destruct (Z.eqb_spec i k) as [->|Hne]; simpl.
  - rewrite andb_false_r. replace k with (0 + k) at 2 by lia.
    rewrite <- (Z.div_pow2_bits (word - 1)) by lia.
    assert ((word - 1) / 2 ^ k = 2 * (q / 2)) as ->.
    { symmetry. apply (Z.div_unique _ _ _ (2 ^ k - 1)); [lia|]. rewrite Hq, Hq2 at 1. lia. }
    rewrite Z.bit0_odd, Z.odd_mul. simpl. by rewrite andb_false_r.
  - rewrite andb_true_r. replace i with (i - (k + 1) + (k + 1)) by lia.
    rewrite <- !(Z.div_pow2_bits _ (k + 1)) by lia.
    assert ((word - 1) / 2 ^ (k + 1) = q / 2) as ->.
    { symmetry. apply (Z.div_unique _ _ _ (2 ^ k - 1)); [lia|]. rewrite Hq, Hq2 at 1. rewrite Hp. lia. }
    assert (word / 2 ^ (k + 1) = q / 2) as ->.
    { symmetry. apply (Z.div_unique _ _ _ (2 ^ k)); [lia|]. rewrite Hq, Hq2 at 1. rewrite Hp. lia. }
    apply andb_diag.
Qed.

(** * The operations on the set of free ids *)

Lemma kWords_eq : kWords = 1024.
Proof. reflexivity. Qed.

Lemma sid_word s : 0 <= s -> s = 64 * (s / 64) + s mod 64 /\ 0 <= s mod 64 < 64 /\ 0 <= s / 64.
Proof.
  intros. pose proof (Z.div_mod s 64). pose proof (Z.mod_pos_bound s 64). pose proof (Z.div_pos s 64). lia.
Qed.

Lemma free_put p w x c n s :
  0 <= w < zlen (_bits p) ->
  free (Pool (zput (_bits p) w x) n c) s = if s / 64 =? w then Z.testbit x (s mod 64) else free p s.
Proof. intros Hw. unfold free. simpl. rewrite zget_put by done. by zcase. Qed.

(** A word that is not zero holds a free id, and conversely. *)
Lemma free_word p s w : free p s = true -> zget (_bits p) (s / 64) = Some w -> w <> 0.
Proof. unfold free. intros Hf Hw ->. by rewrite Hw, Z.bits_0 in Hf. Qed.

(** The smallest element of a filtered range. *)
Lemma filter_seqZ_first (P : Z -> Prop) `{forall x, Decision (P x)} n s :
  0 <= s < n -> P s -> (forall x, 0 <= x < s -> ~ P x) -> exists rest, filter P (seqZ 0 n) = s :: rest.
Proof.
  intros Hs HP Hno. replace n with (s + (n - s)) by lia. rewrite seqZ_app, filter_app by lia.
  rewrite (filter_none _ (seqZ 0 s)) by (intros x Hx%elem_of_seqZ; apply Hno; lia).
  rewrite (seqZ_cons_S (0 + s)), filter_cons_True by (done || lia). simpl. eauto.
Qed.

Lemma acquire_scan_spec n w p :
  pool_ok p -> 0 <= w -> Z.of_nat n = kWords - w ->
  (forall w' x, w' < w -> zget (_bits p) w' = Some x -> x = 0) ->
  (acquire_scan n w p = (BroadcastSid, p) /\ forall w' x, zget (_bits p) w' = Some x -> x = 0) \/
  (exists w0 x, zget (_bits p) w0 = Some x /\ x <> 0 /\ (forall w' x, w' < w0 -> zget (_bits p) w' = Some x -> x = 0) /\
     acquire_scan n w p = (u16 (w0 * 64 + countr_zero x), Pool (zput (_bits p) w0 (Z.land x (x - 1))) w0 (_count p -s 1))).
Proof.
  intros Hok. revert w. induction n as [|n IH]; intros w Hw Hn Hz.
  { left. split; [done|]. intros w' x Hx. apply (Hz w'); [|done].
    pose proof (zget_Some_range _ _ _ Hx). rewrite (pool_len _ Hok) in *. lia. }
  simpl. destruct (zget_in_range (_bits p) w) as [x Hx]; [rewrite (pool_len _ Hok); lia|]. rewrite Hx. simpl.
  destruct (Z.eqb_spec x 0) as [->|Hne]; simpl; [|right; exists w, x; done].
  apply IH; [lia|lia|]. intros w' y Hlt Hy. destruct (decide (w' = w)) as [->|]; [congruence|]. apply (Hz w'); [lia|done].
Qed.

Lemma free_lowest p w0 x s :
  pool_ok p -> zget (_bits p) w0 = Some x -> x <> 0 -> (forall w' x, w' < w0 -> zget (_bits p) w' = Some x -> x = 0) ->
  s = w0 * 64 + countr_zero x ->
  0 <= s < kBits /\ free p s = true /\ (forall i, 0 <= i < s -> free p i = false) /\ s / 64 = w0 /\ s mod 64 = countr_zero x.
Proof.
  intros Hok Hx Hne Hz ->. pose proof (zget_Some_range _ _ _ Hx) as Hr. pose proof (pool_words _ Hok _ _ Hx).
  destruct (countr_zero_spec x ltac:(lia)) as (Hk & Hb & Hlow). set (k := countr_zero x) in *.
  assert ((w0 * 64 + k) / 64 = w0) as Hd by (rewrite Z.div_add_l, Z.div_small by lia; lia).
  assert ((w0 * 64 + k) mod 64 = k) as Hm by (rewrite Z.add_comm, Z.mod_add, Z.mod_small by lia; done).
  assert (free p (w0 * 64 + k) = true) as Hf by (unfold free; by rewrite Hd, Hm, Hx).
  split_and!; try done.
  - lia.
  - destruct (decide (w0 * 64 + k < kBits)) as [|Hge]; [done|]. rewrite (pool_last _ Hok) in Hf by lia. done.
  - intros i Hi. unfold free. destruct (zget (_bits p) (i / 64)) as [y|] eqn:Ey; [|done].
    destruct (sid_word i ltac:(lia)) as (Ei & Hi1 & Hi2).
    destruct (decide (i / 64 = w0)) as [E|E]; [rewrite E, Hx in Ey; simplify_eq; apply Hlow; lia|].
    rewrite (Hz (i / 64) y) by (done || lia). apply Z.bits_0.
Qed.

Lemma free_sids_le p : zlen (free_sids p) <= kBits.
Proof.
  pose proof (length_filter (fun i => free p i = true) (seqZ 0 kBits)) as H. rewrite length_seqZ in H.
  unfold free_sids, zlen, kBits, BroadcastSid in *. lia.
Qed.

Lemma land_range x y : 0 <= x < 2 ^ 64 -> 0 <= Z.land x y < 2 ^ 64.
Proof.
  intros Hx. assert (Z.land x y = (Z.land x y) mod 2 ^ 64) as ->; [|apply Z.mod_pos_bound; lia].
  rewrite <- Z.land_ones by lia. apply Z.bits_inj'. intros i Hi. rewrite !Z.land_spec.
  destruct (decide (i < 64)); [rewrite Z.ones_spec_low by lia; by rewrite andb_true_r|].
  by rewrite (bits_above x i 64) by lia.
Qed.

(** Taking the lowest bit of the first non-zero word. *)
Lemma take_lowest_spec p w0 x s :
  pool_ok p -> zget (_bits p) w0 = Some x -> x <> 0 -> (forall w' x, w' < w0 -> zget (_bits p) w' = Some x -> x = 0) ->
  s = w0 * 64 + countr_zero x ->
  let p' := Pool (zput (_bits p) w0 (Z.land x (x - 1))) w0 (_count p -s 1) in
  pool_ok p' /\ forall y, 0 <= y -> free p' y = free p y && negb (y =? s).
Proof.
  intros Hok Hx Hxn Hz Es p'. destruct (free_lowest p w0 x s Hok Hx Hxn Hz Es) as (Hs & Hf & Hlow & Hd & Hm).
  pose proof (zget_Some_range _ _ _ Hx) as Hr. pose proof (pool_words _ Hok _ _ Hx) as Hxr.
  destruct (countr_zero_spec x ltac:(lia)) as (Hk & Hb & Hl).
  assert (forall y, 0 <= y -> free p' y = free p y && negb (y =? s)) as Hfree.
  { intros y Hy. unfold p'. rewrite free_put by done. destruct (sid_word y Hy) as (Ey & Hy1 & Hy2).
    destruct (Z.eqb_spec (y / 64) w0) as [Ew|Ew].
    - rewrite (clear_lowest x (countr_zero x)) by (done || lia).
      unfold free. rewrite Ew, Hx. f_equal. f_equal. zcase; lia || done.
    - destruct (Z.eqb_spec y s) as [->|]; [congruence|]. by rewrite andb_true_r. }
  split; [|done]. split; simpl.
  - rewrite zlen_put. apply Hok.
  - intros w y Hy. rewrite zget_put in Hy by done. destruct (Z.eqb_spec w w0); [|by apply (pool_words _ Hok w)].
    simplify_eq. by apply land_range.
  - intros y Hy. unfold kBits, BroadcastSid in *. rewrite Hfree by lia. by rewrite (pool_last _ Hok) by done.
  - split; [lia|]. intros w y Hw Hy. rewrite zget_put_ne in Hy by lia. by apply (Hz w).
  - assert (zlen (free_sids p') = zlen (free_sids p) - 1) as Hone.
    { apply (filter_remove_one _ _ _ s); [apply NoDup_seqZ|apply elem_of_seqZ; lia|done|].
      intros y Hy%elem_of_seqZ. rewrite Hfree by lia. rewrite andb_true_iff, negb_true_iff, Z.eqb_neq. done. }
    pose proof (free_sids_le p). pose proof (zlen_nonneg (free_sids p')).
    rewrite (pool_count _ Hok), Hone, u64_small; unfold kBits, BroadcastSid in *; lia.
Qed.

Lemma acquire_spec p :
  pool_ok p ->
  let '(sid, p') := acquire p in
  match free_sids p with
  | [] => sid = BroadcastSid /\ p' = p
  | s :: _ => sid = s /\ 0 <= s < kBits /\ pool_ok p' /\ forall x, 0 <= x -> free p' x = free p x && negb (x =? s)
  end.
Proof.
  intros Hok. destruct (pool_cursor _ Hok) as [Hc0 Hc]. pose proof (pool_count _ Hok) as Hcnt. unfold acquire.
  destruct (Z.eqb_spec (_count p) 0) as [E|E].
  { rewrite E in Hcnt. by rewrite (zlen_nil_inv (free_sids p)). }
  assert (exists s w, 0 <= s /\ zget (_bits p) (s / 64) = Some w /\ w <> 0) as (s0 & w0' & Hs0 & Hw0 & Hn0).
  { destruct (free_sids p) as [|s l] eqn:El; [done|].
    assert (s ∈ free_sids p) as [Hf Hs%elem_of_seqZ]%list_elem_of_filter by (rewrite El; by left).
    exists s. unfold free in Hf. destruct (zget (_bits p) (s / 64)) as [w|] eqn:Ew; [|done].
    exists w. split; [lia|]. split; [done|]. apply (free_word p s w); [|done]. unfold free. by rewrite Ew. }
  assert (_next_word p <= kWords) as Hnw.
  { destruct (decide (_next_word p <= kWords)) as [|Hgt]; [done|]. destruct Hn0. apply (Hc (s0 / 64)); [|done].
    pose proof (zget_Some_range _ _ _ Hw0). rewrite (pool_len _ Hok) in *. lia. }
  destruct (acquire_scan_spec (Z.to_nat (kWords - _next_word p)) (_next_word p) p Hok Hc0 ltac:(lia) Hc)
    as [[_ Hall]|(w0 & x & Hx & Hxn & Hz & ->)]; [destruct Hn0; by apply (Hall (s0 / 64))|].
  set (s := w0 * 64 + countr_zero x).
  destruct (free_lowest p w0 x s Hok Hx Hxn Hz eq_refl) as (Hs & Hf & Hlow & _).
  destruct (filter_seqZ_first (fun i => free p i = true) kBits s Hs Hf) as [rest Hfirst].
  { intros i Hi. rewrite Hlow by done. done. }
  unfold free_sids. rewrite Hfirst. rewrite u16_small by (unfold kBits, BroadcastSid in *; lia).
  split; [done|]. split; [done|]. by apply take_lowest_spec.
Qed.

(** ** Release *)

Lemma land_bit word k : 0 <= k -> (Z.land word (Z.shiftl 1 k) =? 0) = negb (Z.testbit word k).
Proof.
  intros Hk. rewrite Z.shiftl_1_l. destruct (Z.testbit word k) eqn:E; simpl.
  - apply Z.eqb_neq. intros H0. assert (Z.testbit (Z.land word (2 ^ k)) k = true) as Ht.
    { rewrite Z.land_spec, E, Z.pow2_bits_true by lia. done. }
    by rewrite H0, Z.bits_0 in Ht.
  - apply Z.eqb_eq. apply Z.bits_inj'. intros i Hi. rewrite Z.land_spec, Z.bits_0, Z.pow2_bits_eqb by lia.
    destruct (Z.eqb_spec k i) as [<-|]; [by rewrite E|apply andb_false_r].
Qed.

Lemma lor_bit_range word k : 0 <= word < 2 ^ 64 -> 0 <= k < 64 -> 0 <= Z.lor word (Z.shiftl 1 k) < 2 ^ 64.
Proof.
  intros Hw Hk. rewrite Z.shiftl_1_l. assert (2 ^ k < 2 ^ 64) by (apply Z.pow_lt_mono_r; lia).
  assert (0 < 2 ^ k) by (apply Z.pow_pos_nonneg; lia).
  split; [apply Z.lor_nonneg; lia|]. destruct (decide (word = 0)) as [->|]; [rewrite Z.lor_0_l; lia|].
  apply Z.log2_lt_cancel. rewrite Z.log2_lor, Z.log2_pow2 by lia.
  change (Z.log2 (2 ^ 64)) with 64. pose proof (Z.log2_lt_pow2 word 64). lia.
Qed.

Lemma lor_bit_spec word k i : 0 <= k -> 0 <= i -> Z.testbit (Z.lor word (Z.shiftl 1 k)) i = Z.testbit word i || (i =? k).
Proof. intros. rewrite Z.lor_spec, Z.shiftl_1_l, Z.pow2_bits_eqb by lia. by rewrite (Z.eqb_sym k). Qed.

(** Setting the bit of [s] in an array of words. *)
Lemma free_set_bit p s word c n x :
  0 <= s -> zget (_bits p) (s / 64) = Some word -> 0 <= x ->
  free (Pool (zput (_bits p) (s / 64) (Z.lor word (Z.shiftl 1 (s mod 64)))) n c) x = free p x || (x =? s).
Proof.
  intros Hs Hw Hx. pose proof (zget_Some_range _ _ _ Hw). rewrite free_put by done.
  destruct (sid_word s Hs) as (Es & ? & ?). destruct (sid_word x Hx) as (Ex & ? & ?).
  destruct (Z.eqb_spec (x / 64) (s / 64)) as [E|E].
  - rewrite lor_bit_spec by lia. unfold free. rewrite E, Hw. f_equal. zcase; lia || done.
  - destruct (Z.eqb_spec x s) as [->|]; [done|]. by rewrite orb_false_r.
Qed.

Lemma release_spec s p :
  pool_ok p -> 0 <= s < kBits ->
  pool_ok (release s p) /\ forall x, 0 <= x -> free (release s p) x = free p x || (x =? s).
Proof.
  intros Hok Hs. unfold release. destruct (Z.leb_spec kBits s); [lia|].
  destruct (sid_word s ltac:(lia)) as (Es & Hm & Hd).
  destruct (zget_in_range (_bits p) (s / 64)) as [word Hw].
  { rewrite (pool_len _ Hok), kWords_eq. unfold kBits, BroadcastSid in *. lia. }
  rewrite Hw. simpl. rewrite land_bit by lia. destruct (Z.testbit word (s mod 64)) eqn:E; simpl.
  { split; [done|]. intros x Hx. destruct (Z.eqb_spec x s) as [->|]; [|by rewrite orb_false_r].
    unfold free. rewrite Hw, E. done. }
  pose proof (zget_Some_range _ _ _ Hw) as Hr.
  set (p' := Pool _ _ _). assert (forall x, 0 <= x -> free p' x = free p x || (x =? s)) as Hfree.
  { intros x Hx. by apply free_set_bit; [lia| |]. }
  split; [|done]. split; simpl.
  - rewrite zlen_put. apply Hok.
  - intros w y Hy. rewrite zget_put in Hy by done. destruct (Z.eqb_spec w (s / 64)); [|by apply (pool_words _ Hok w)].
    simplify_eq. apply lor_bit_range; [by apply (pool_words _ Hok (s / 64))|lia].
  - intros x Hx. rewrite Hfree by (unfold kBits, BroadcastSid in *; lia). rewrite (pool_last _ Hok) by done. zcase; lia || done.
  - destruct (pool_cursor _ Hok) as [Hc0 Hc]. split; [zcase; lia|]. intros w y Hw' Hy.
    destruct (decide (w = s / 64)) as [->|]; [zcase_in Hw'; lia|].
    rewrite zget_put_ne in Hy by done. apply (Hc w); [zcase_in Hw'; lia|done].
  - assert (zlen (free_sids p) = zlen (free_sids p') - 1) as Hone.
    { apply (filter_remove_one _ _ _ s); [apply NoDup_seqZ|apply elem_of_seqZ; lia| |].
      - rewrite Hfree, Z.eqb_refl by lia. apply orb_true_r.
      - intros y Hy%elem_of_seqZ. rewrite Hfree by lia. rewrite orb_true_iff, Z.eqb_eq. split; [|tauto].
        intros Hy'. split; [by left|]. intros ->. unfold free in Hy'. rewrite Hw in Hy'. congruence. }
    pose proof (free_sids_le p'). pose proof (zlen_nonneg (free_sids p)).
    rewrite (pool_count _ Hok), Hone, u64_small; unfold kBits, BroadcastSid in *; lia.
Qed.

(** ** Initialisation *)

Lemma init_loop_spec n s bits count :
  zlen bits = kWords -> (forall w x, zget bits w = Some x -> 0 <= x < 2 ^ 64) ->
  0 <= s -> s + Z.of_nat n <= kBits -> 0 <= count -> count + Z.of_nat n < 2 ^ 64 ->
  let '(bits', count') := init_loop n s bits count in
  zlen bits' = kWords /\ (forall w x, zget bits' w = Some x -> 0 <= x < 2 ^ 64) /\ count' = count + Z.of_nat n /\
  forall x, 0 <= x ->
    free (Pool bits' 0 0) x = free (Pool bits 0 0) x || ((s <=? x) && (x <? s + Z.of_nat n)).
Proof.
  revert s bits count. induction n as [|n IH]; intros s bits count Hl Hw Hs Hn Hc Hcn; cbn [init_loop].
  { split_and!; try done; [lia|]. intros x Hx. replace (s + Z.of_nat 0) with s by lia.
    zcase; simpl; try lia; by rewrite orb_false_r. }
  destruct (sid_word s Hs) as (Es & Hm & Hd).
  destruct (zget_in_range bits (s / 64)) as [word Hword].
  { rewrite Hl, kWords_eq. unfold kBits, BroadcastSid in *. lia. }
  rewrite Hword. cbn [default]. rewrite (u64_small (count + 1)) by lia.
  specialize (IH (s + 1) (zput bits (s / 64) (Z.lor word (Z.shiftl 1 (s mod 64)))) (count + 1)).
  rewrite zlen_put in IH. specialize (IH Hl).
  pose proof (zget_Some_range _ _ _ Hword) as Hr.
  destruct (init_loop n (s + 1) _ (count + 1)) as [bits' count']. destruct IH as (IH1 & IH2 & IH3 & IH4); try lia.
  { intros w x Hx. rewrite zget_put in Hx by done. destruct (Z.eqb_spec w (s / 64)); [|by apply (Hw w)].
    simplify_eq. apply lor_bit_range; [by apply (Hw (s / 64))|lia]. }
  split_and!; try done; [lia|]. intros x Hx. rewrite IH4 by done.
  rewrite (free_set_bit (Pool bits 0 0)) by done. rewrite <- orb_assoc. f_equal. zcase; simpl; lia || done.
Qed.

Lemma init_spec min_sid :
  0 <= min_sid <= kBits ->
  pool_ok (init min_sid) /\ forall x, 0 <= x -> free (init min_sid) x = (min_sid <=? x) && (x <? kBits).
Proof.
  intros Hm. unfold init.
  assert (forall w x, zget (zrepeat 0 kWords) w = Some x -> x = 0) as Hz.
  { intros w x. rewrite zget_repeat. zcase; simpl; intros; by simplify_eq. }
  pose proof (init_loop_spec (Z.to_nat (kBits - min_sid)) min_sid (zrepeat 0 kWords) 0) as HL.
  unfold kBits, BroadcastSid in *. rewrite zlen_repeat in HL by (rewrite kWords_eq; lia).
  specialize (HL eq_refl ltac:(intros w x Hx; rewrite (Hz w x Hx); lia) ltac:(lia) ltac:(lia) ltac:(lia) ltac:(lia)).
  destruct (init_loop _ _ _ _) as [bits count]. destruct HL as (H1 & H2 & H3 & H4).
  replace (min_sid + Z.of_nat (Z.to_nat (65535 - min_sid))) with 65535 in H4 by lia.
  assert (forall x, 0 <= x -> free (Pool bits (min_sid / 64) count) x = (min_sid <=? x) && (x <? 65535)) as Hfree.
  { intros x Hx. change (free (Pool bits (min_sid / 64) count) x) with (free (Pool bits 0 0) x).
    rewrite H4 by done. unfold free at 1. cbn [_bits]. destruct (zget (zrepeat 0 kWords) (x / 64)) eqn:E; [|done].
    by rewrite (Hz _ _ E), Z.bits_0. }
  split; [|done]. split; simpl; try done.
  - intros s Hs. unfold kBits, BroadcastSid in *. rewrite Hfree by lia. zcase; simpl; lia || done.
  - split; [apply Z.div_pos; lia|]. intros w x Hw Hx. pose proof (zget_Some_range _ _ _ Hx).
    apply Z.bits_inj'. intros i Hi. rewrite Z.bits_0. destruct (decide (i < 64)) as [Hlt|Hge];
      [|apply (bits_above x i 64); [by apply (H2 w)|lia]].
    specialize (Hfree (w * 64 + i) ltac:(lia)). unfold free in Hfree. simpl in Hfree.
    rewrite Z.div_add_l, Z.div_small, Z.add_0_r, Hx in Hfree by lia.
    rewrite Z.add_comm, Z.mod_add, Z.mod_small in Hfree by lia. rewrite Hfree.
    pose proof (Z.div_mod min_sid 64). pose proof (Z.mod_pos_bound min_sid 64). zcase; simpl; lia || done.
  - assert (free_sids (Pool bits (min_sid / 64) count) = seqZ min_sid (65535 - min_sid)) as ->.
    { unfold free_sids, kBits, BroadcastSid. replace 65535 with (min_sid + (65535 - min_sid)) at 1 by lia.
      rewrite seqZ_app, filter_app by lia. rewrite filter_none, filter_all; [done| |].
      - intros x Hx%elem_of_seqZ. rewrite Hfree by lia. zcase; simpl; lia || done.
      - intros x Hx%elem_of_seqZ. rewrite Hfree by lia. zcase; simpl; lia || done. }
    rewrite H3. unfold zlen. rewrite length_seqZ. lia.
Qed.

(** ** Pools a virtual core can hold *)

Inductive pool_reach : pool -> Prop :=
  | reach_init min_sid : 0 <= min_sid <= kBits -> pool_reach (init min_sid)
  | reach_acquire p : pool_reach p -> pool_reach (acquire p).2
  | reach_release p s : pool_reach p -> 0 <= s < 2 ^ 16 -> pool_reach (release s p).

Lemma pool_reach_ok p : pool_reach p -> pool_ok p.
Proof.
  induction 1 as [m Hm|p _ IH|p s _ IH Hs].
  - by apply init_spec.
  - pose proof (acquire_spec p IH) as HA. destruct (acquire p) as [sid p'].
    destruct (free_sids p); [by destruct HA as [_ ->]|apply HA].
  - destruct (decide (s < kBits)) as [|Hge]; [by apply release_spec; [|lia]|].
    unfold release. destruct (Z.leb_spec kBits s); [done|lia].
Qed.

Lemma free_sids_elem p s : s ∈ free_sids p <-> 0 <= s < kBits /\ free p s = true.
Proof. unfold free_sids. rewrite list_elem_of_filter, elem_of_seqZ. split; intros [? ?]; split; done || lia. Qed.

(** The head of the sorted list of free ids is the smallest one. *)
Lemma free_sids_first p s l x : free_sids p = s :: l -> 0 <= x < s -> free p x = false.
Proof.
  intros E Hx. assert (s ∈ free_sids p) as [Hs _]%free_sids_elem by (rewrite E; by left).
  destruct (free p x) eqn:Ef; [|done].
  unfold free_sids in E. replace kBits with (x + (kBits - x)) in E by lia. rewrite seqZ_app, filter_app in E by lia.
  assert (forall y, y ∈ filter (fun i => free p i = true) (seqZ 0 x) -> y < s) as Hlt.
  { intros y [_ Hy%elem_of_seqZ]%list_elem_of_filter. lia. }
  rewrite (seqZ_cons_S (0 + x)) in E by lia. rewrite (filter_cons_True _ (0 + x)) in E by (by rewrite Z.add_0_l).
  destruct (filter _ (seqZ 0 x)) as [|y l'] eqn:El; simpl in E; simplify_eq; [lia|].
  specialize (Hlt s ltac:(by left)). lia.
Qed.

(** * Properties *)

(** Whatever the history of the pool, [acquire] hands out the smallest free service id
    and takes exactly that one out of the pool, or reports exhaustion exactly when no id is
    free; it never hands out the broadcast id or an id in use. *)
Theorem pool_acquire_smallest (p : pool) :
  pool_reach p ->
  let '(s, p') := acquire p in
  (s = BroadcastSid /\ p' = p /\ (forall x, 0 <= x < kBits -> free p x = false)) \/
  (0 <= s < kBits /\ free p s = true /\ (forall x, 0 <= x < s -> free p x = false) /\
   (forall x, 0 <= x -> free p' x = free p x && negb (x =? s)) /\ size p' = size p - 1).
Proof.
  intros Hr. pose proof (pool_reach_ok p Hr) as Hok. pose proof (acquire_spec p Hok) as HA.
  pose proof (pool_reach_ok _ (reach_acquire p Hr)) as Hok'.
  destruct (acquire p) as [s p']. simpl in Hok'. destruct (free_sids p) as [|s' l] eqn:E.
  - left. destruct HA as [-> ->]. split_and!; try done. intros x Hx. destruct (free p x) eqn:Ef; [|done].
    assert (x ∈ free_sids p) as Hin by (by apply free_sids_elem). rewrite E in Hin. by apply elem_of_nil in Hin.
  - right. destruct HA as (-> & Hs & _ & Hfree).
    assert (s' ∈ free_sids p) as [_ Hf]%free_sids_elem by (rewrite E; by left).
    split_and!; try done; try lia; [intros x Hx; by apply (free_sids_first p s' l)|].
    unfold size. rewrite (pool_count _ Hok), (pool_count _ Hok').
    apply (filter_remove_one _ _ _ s'); [apply NoDup_seqZ|apply elem_of_seqZ; lia|done|].
    intros y Hy%elem_of_seqZ. rewrite Hfree by lia. rewrite andb_true_iff, negb_true_iff, Z.eqb_neq. done.
Qed.

Lemma pool_acquire_smallest_witness :
  let p := release 65520 (acquire (acquire (init 65520)).2).2 in
  (acquire p).1 = 65520 /\
  let '(s, p') := acquire p in
  (s = BroadcastSid /\ p' = p /\ (forall x, 0 <= x < kBits -> free p x = false)) \/
  (0 <= s < kBits /\ free p s = true /\ (forall x, 0 <= x < s -> free p x = false) /\
   (forall x, 0 <= x -> free p' x = free p x && negb (x =? s)) /\ size p' = size p - 1).
Proof.
  split; [vm_compute; reflexivity|]. apply (pool_acquire_smallest (release 65520 (acquire (acquire (init 65520)).2).2)).
  apply reach_release; [|lia]. do 2 apply reach_acquire. apply reach_init. unfold kBits, BroadcastSid. lia.
Defined.

(** A released id goes back to the pool (releasing a free id or the broadcast id
    changes nothing), and when it is the smallest one the next [acquire] returns it again,
    however far the scan cursor had advanced, leaving the pool as it was. *)
Theorem pool_release_reuse (p : pool) (s : Z) :
  pool_reach p -> 0 <= s < kBits ->
  (forall x, 0 <= x -> free (release s p) x = free p x || (x =? s)) /\
  (free p s = false -> (forall x, 0 <= x < s -> free p x = false) ->
   (acquire (release s p)).1 = s /\ forall x, 0 <= x -> free (acquire (release s p)).2 x = free p x).
Proof.
  intros Hr Hs. pose proof (pool_reach_ok p Hr) as Hok. destruct (release_spec s p Hok Hs) as [Hok' Hfree].
  split; [done|]. intros Hns Hlow.
  destruct (filter_seqZ_first (fun i => free (release s p) i = true) kBits s Hs) as [rest Hfirst].
  { rewrite Hfree, Z.eqb_refl by lia. apply orb_true_r. }
  { intros x Hx. rewrite Hfree, Hlow by lia. zcase; simpl; lia || done. }
  pose proof (acquire_spec _ Hok') as HA. unfold free_sids in HA. rewrite Hfirst in HA.
  destruct (acquire (release s p)) as [s' p']. destruct HA as (-> & _ & _ & HA). split; [done|].
  intros x Hx. simpl. rewrite HA, Hfree by done. destruct (Z.eqb_spec x s) as [->|]; simpl.
  - by rewrite Hns.
  - by rewrite orb_false_r, andb_true_r.
Qed.

Lemma pool_release_reuse_witness :
  pool_reach (init 65520) /\ (acquire (release 65519 (init 65520))).1 = 65519.
Proof.
  assert (pool_reach (init 65520)) as Hr by (apply reach_init; unfold kBits, BroadcastSid; lia).
  assert (forall x, 0 <= x < 65520 -> free (init 65520) x = false) as Hf.
  { intros x Hx. rewrite (proj2 (init_spec 65520 ltac:(unfold kBits, BroadcastSid; lia)) x) by lia. destruct (Z.leb_spec 65520 x); [lia|done]. }
  split; [exact Hr|].
  apply (pool_release_reuse (init 65520) 65519 Hr ltac:(unfold kBits, BroadcastSid; lia));
    [apply Hf; lia|intros x Hx; apply Hf; lia].
Defined.
