(* ===== verification/Event.v ===== *)
(** Events (src/qb/core/Event.h, Event.cpp, Pipe.h).

    An event is a fixed header followed by its payload, placed in a whole number of
    64-byte buckets of a pipe. The payload is represented by an identity, [payload]: what
    matters of it to the transport is who owns it and when its destructor runs. A pipe is a
    sequence of buckets; the first bucket of an event holds its header, the next ones are
    opaque bytes that must never be read as a header. *)

From S2P Require Import Prelude ActorId PipeAlloc.
From stdpp Require Import strings.
#[local] Open Scope Z_scope.

(** * The header word

    [union Header]: four bytes 'q', 'b', 0 and [4 | (64 / 16) << 3], little-endian, whose
    top byte holds [alive] (1 bit), [qos] (2 bits) and [factor] (5 bits). *)

Definition QB_LOCKFREE_EVENT_BUCKET_BYTES : Z := 64.

Definition header_default : Z :=
  113 + Z.shiftl 98 8 + Z.shiftl (Z.lor 4 (Z.shiftl (QB_LOCKFREE_EVENT_BUCKET_BYTES / 16) 3)) 24.

Definition alive_bit (state : Z) : bool := Z.testbit state 24.
Definition qos_bits (state : Z) : Z := Z.land (Z.shiftr state 25) 3.
Definition factor_bits (state : Z) : Z := Z.land (Z.shiftr state 27) 31.
Definition magic (state : Z) : Z := Z.land state (Z.ones 24).

Definition set_alive (flag : bool) (state : Z) : Z :=
  if flag then Z.setbit state 24 else Z.clearbit state 24.
Definition set_qos (q : Z) (state : Z) : Z :=
  Z.lor (Z.ldiff state (Z.shiftl 3 25)) (Z.shiftl (Z.land q 3) 25).

(** * Events *)

(** [service]: the [forward] and [service_event_id] members of a [ServiceEvent]. *)
Record event := Event {
  state : Z; bucket_size : Z; id : Z; dest : ActorId; source : ActorId;
  service : option (ActorId * Z); payload : Z
}.

Definition is_alive (e : event) : bool := alive_bit (state e).
Definition getQOS (e : event) : Z := qos_bits (state e).
Definition getSize (e : event) : Z := bucket_size e * QB_LOCKFREE_EVENT_BUCKET_BYTES.

Definition with_alive (flag : bool) (e : event) : event :=
  Event (set_alive flag (state e)) (bucket_size e) (id e) (dest e) (source e) (service e) (payload e).

Definition redirect (d s : ActorId) (e : event) : event :=
  Event (state e) (bucket_size e) (id e) d s (service e) (payload e).

(** [ServiceEvent::received()] *)
Definition received (e : event) : event :=
  match service e with
  | Some (forward, service_event_id) =>
      with_alive true (Event (state e) (bucket_size e) service_event_id forward (source e)
                             (Some (dest e, id e)) (payload e))
  | None => e
  end.

(** What a type contributes to its events: its registered id, [sizeof], whether it derives
    from [EventQOS0] or [ServiceEvent] and whether its destructor is trivial. *)
Record event_type := EventType {
  t_id : Z; t_sizeof : Z; t_qos0 : bool; t_service : bool; t_trivial : bool
}.

(** A constructed event of type [T], before its header is stamped: the constructor of
    [EventQOS0] clears [qos], a service event starts with the id 0 in [service_event_id]. *)
Definition construct (T : event_type) (service_id : Z) (p : Z) : event :=
  Event (if t_qos0 T then set_qos 0 header_default else header_default) 0 0
        actor_id_default actor_id_default (if t_service T then Some (actor_id_default, service_id) else None) p.

(** [VirtualCore::fill_event] *)
Definition fill_event (T : event_type) (d s : ActorId) (n : Z) (e : event) : event :=
  match service e with
  | Some (_, service_event_id) =>
      Event (state e) n service_event_id d s (Some (s, t_id T)) (payload e)
  | None => Event (state e) n (t_id T) d s None (payload e)
  end.

(** The bucket count of [push] and [send], and of [allocated_push] with [extra] trailing
    bytes; the header keeps its low 16 bits. *)
Definition push_buckets (T : event_type) : Z := getItemSize (t_sizeof T) QB_LOCKFREE_EVENT_BUCKET_BYTES.

Definition allocated_buckets (T : event_type) (extra : Z) : Z :=
  let size := extra +s t_sizeof T in
  size / QB_LOCKFREE_EVENT_BUCKET_BYTES + (if size mod QB_LOCKFREE_EVENT_BUCKET_BYTES =? 0 then 0 else 1).

(** * Buckets *)

Inductive bucket := Head (e : event) | Bytes.

(** The buckets an event of [n] buckets occupies. *)
Definition encode_in (n : Z) (e : event) : list bucket := Head e :: zrepeat Bytes (n - 1).
Definition encode (e : event) : list bucket := encode_in (bucket_size e) e.
Definition stream (es : list event) : list bucket := concat (map encode es).

(** [reinterpret_cast<Event *>(events + i)]: [None] when the bytes there are no header. *)
Definition event_at (bs : list bucket) (i : Z) : option event :=
  match zget bs i with
  | Some (Head e) => Some e
  | _ => None
  end.

(** An event whose header was stamped from its real size. *)
Definition event_ok (e : event) : Prop := 1 <= bucket_size e < 2 ^ 16.

(** [Pipe::push], [VirtualCore::push<T>] and [Pipe::allocated_push]: the buckets they write. *)
Definition push_cells (T : event_type) (d s : ActorId) (service_id p : Z) : list bucket :=
  let n := push_buckets T in
  encode_in n (fill_event T d s (u16 n) (construct T service_id p)).

Definition allocated_push_cells (T : event_type) (extra : Z) (d s : ActorId) (service_id p : Z) : list bucket :=
  let n := allocated_buckets T extra in
  encode_in n (fill_event T d s (u16 n) (construct T service_id p)).

(** * Type ids

    [detail::register_type_id]: the registry is the list of published slots, newest first,
    the 16-bit counter of ids handed out, and the table of names by id. The spin lock of the
    source makes one registration atomic. *)

Record registry := Registry { slots : list (string * Z); _type_id_counter : Z; _type_names : gmap Z string }.

Definition registry_empty : registry := Registry [] 0 ∅.

Fixpoint find_slot (name : string) (l : list (string * Z)) : Z :=
  match l with
  | [] => 0
  | (n, i) :: l => if decide (n = name) then i else find_slot name l
  end.

Definition register_type_name (i : Z) (name : string) (r : registry) : registry :=
  Registry (slots r) (_type_id_counter r) (<[i := name]> (_type_names r)).

Definition register_type_id (name : string) (r : registry) : Z * registry :=
  let result := find_slot name (slots r) in
  if result =? 0 then
    let counter := u16 (_type_id_counter r + 1) in
    let new_id := u16 (_type_id_counter r + 1) in
    let r := register_type_name new_id name (Registry (slots r) counter (_type_names r)) in
    (new_id, Registry ((name, new_id) :: slots r) (_type_id_counter r) (_type_names r))
  else (result, r).

Definition type_name_for (i : Z) (r : registry) : string :=
  match _type_names r !! i with
  | Some name => name
  | None => "<unregistered>"
  end.

(** The ids a sequence of registrations gives, and the registry it leaves. *)
Fixpoint register_all (names : list string) (r : registry) : list Z * registry :=
  match names with
  | [] => ([], r)
  | n :: names =>
      let '(i, r) := register_type_id n r in
      let '(ids, r) := register_all names r in (i :: ids, r)
  end.

(** * The header word, bit by bit *)

Lemma land_ext (m a b : Z) :
  0 <= m -> (forall i, 0 <= i -> Z.testbit m i = true -> Z.testbit a i = Z.testbit b i) -> Z.land a m = Z.land b m.
Proof.
  intros Hm H. apply Z.bits_inj'. intros i Hi. rewrite !Z.land_spec.
  destruct (Z.testbit m i) eqn:E; [by rewrite H|by rewrite !andb_false_r].
Qed.

(** The bits of the masks used by the bit-field accessors. *)
Lemma mask_low (n i : Z) : 0 <= n -> 0 <= i -> Z.testbit (Z.ones n) i = true -> i < n.
Proof. intros Hn Hi H. destruct (decide (i < n)); [done|]. rewrite Z.ones_spec_high in H by lia. done. Qed.

Lemma set_alive_other flag s i : 0 <= i -> i <> 24 -> Z.testbit (set_alive flag s) i = Z.testbit s i.
Proof.
  intros Hi Hne. unfold set_alive. destruct flag; [rewrite Z.setbit_eqb|rewrite Z.clearbit_eqb]; try lia;
    destruct (Z.eqb_spec 24 i); try lia; simpl; [done|by rewrite andb_true_r].
Qed.

Lemma set_qos_other q s i : 0 <= i -> ~ (25 <= i < 27) -> Z.testbit (set_qos q s) i = Z.testbit s i.
Proof.
  intros Hi Hne. unfold set_qos. rewrite Z.lor_spec, Z.ldiff_spec, !Z.shiftl_spec by lia.
  rewrite Z.land_spec. destruct (decide (i < 25)).
  - rewrite (Z.testbit_neg_r 3), (Z.testbit_neg_r q) by lia. simpl. by rewrite andb_true_r, orb_false_r.
  - change 3 with (Z.ones 2). rewrite Z.ones_spec_high by lia.
    by rewrite andb_false_r, andb_true_r, orb_false_r.
Qed.

Lemma field_ext (n off a b : Z) :
  0 <= n -> 0 <= off -> (forall i, off <= i < off + n -> Z.testbit a i = Z.testbit b i) ->
  Z.land (Z.shiftr a off) (Z.ones n) = Z.land (Z.shiftr b off) (Z.ones n).
Proof.
  intros Hn Hoff H. apply land_ext; [rewrite Z.ones_equiv; pose proof (Z.pow_pos_nonneg 2 n); lia|].
  intros i Hi Hm. apply mask_low in Hm; [|done|done]. rewrite !Z.shiftr_spec by done. apply H. lia.
Qed.

Lemma qos_field s : qos_bits s = Z.land (Z.shiftr s 25) (Z.ones 2).
Proof. reflexivity. Qed.

Lemma factor_field s : factor_bits s = Z.land (Z.shiftr s 27) (Z.ones 5).
Proof. reflexivity. Qed.

Lemma set_alive_fields flag s :
  alive_bit (set_alive flag s) = flag /\ qos_bits (set_alive flag s) = qos_bits s /\
  factor_bits (set_alive flag s) = factor_bits s /\ magic (set_alive flag s) = magic s.
Proof.
  split_and!.
  - unfold alive_bit, set_alive. destruct flag; [apply Z.setbit_eq; lia|apply Z.clearbit_eq].
  - rewrite !qos_field. apply field_ext; [lia|lia|]. intros i Hi. apply set_alive_other; lia.
  - rewrite !factor_field. apply field_ext; [lia|lia|]. intros i Hi. apply set_alive_other; lia.
  - apply land_ext; [done|]. intros i Hi Hm. apply mask_low in Hm; [|lia|done]. apply set_alive_other; lia.
Qed.

Lemma set_qos_fields s :
  qos_bits (set_qos 0 s) = 0 /\ alive_bit (set_qos 0 s) = alive_bit s /\
  factor_bits (set_qos 0 s) = factor_bits s /\ magic (set_qos 0 s) = magic s.
Proof.
  split_and!.
  - unfold qos_bits, set_qos. change (Z.land 0 3) with 0. rewrite Z.shiftl_0_l, Z.lor_0_r.
    apply Z.bits_inj'. intros i Hi. rewrite Z.land_spec, Z.shiftr_spec, Z.ldiff_spec, Z.shiftl_spec, Z.bits_0 by lia.
    replace (i + 25 - 25) with i by lia.
    destruct (Z.testbit 3 i); simpl; [by rewrite andb_false_r|by rewrite andb_false_r].
  - apply set_qos_other; lia.
  - rewrite !factor_field. apply field_ext; [lia|lia|]. intros i Hi. apply set_qos_other; lia.
  - apply land_ext; [done|]. intros i Hi Hm. apply mask_low in Hm; [|lia|done]. apply set_qos_other; lia.
Qed.

(** The bit-fields of the header word are independent. A fresh event is not alive, has
    QoS 2 and factor 4; setting [alive] leaves the QoS, the factor and the magic bytes
    alone, and the QoS-0 constructor changes nothing but the QoS. *)
Theorem event_header_fields (flag : bool) (s : Z) :
  (alive_bit header_default = false /\ qos_bits header_default = 2 /\ factor_bits header_default = 4) /\
  (alive_bit (set_alive flag s) = flag /\ qos_bits (set_alive flag s) = qos_bits s /\
   factor_bits (set_alive flag s) = factor_bits s /\ magic (set_alive flag s) = magic s) /\
  (qos_bits (set_qos 0 s) = 0 /\ alive_bit (set_qos 0 s) = alive_bit s /\
   factor_bits (set_qos 0 s) = factor_bits s /\ magic (set_qos 0 s) = magic s).
Proof. split; [split_and!; reflexivity|]. split; [apply set_alive_fields|apply set_qos_fields]. Qed.

(** * Footprints *)

Lemma zlen_encode_in n e : 1 <= n -> zlen (encode_in n e) = n.
Proof.
  intros Hn. unfold encode_in. change (Head e :: zrepeat Bytes (n - 1)) with ([Head e] ++ zrepeat Bytes (n - 1)).
  rewrite zlen_app, zlen_repeat by lia. change (zlen [Head e]) with 1. lia.
Qed.

Lemma zlen_encode e : event_ok e -> zlen (encode e) = bucket_size e.
Proof. intros [? ?]. unfold encode. by rewrite zlen_encode_in. Qed.

Lemma fill_event_fields T d s n e :
  bucket_size (fill_event T d s n e) = n /\ dest (fill_event T d s n e) = d /\
  source (fill_event T d s n e) = s /\ payload (fill_event T d s n e) = payload e /\
  state (fill_event T d s n e) = state e.
Proof. unfold fill_event. by destruct (service e) as [[]|]. Qed.

(** Rounding up to whole buckets. *)
Lemma buckets_round_up size :
  0 < size ->
  let n := size / 64 + (if size mod 64 =? 0 then 0 else 1) in
  64 * (n - 1) < size <= 64 * n.
Proof.
  intros Hs. cbv zeta. pose proof (Z.div_mod size 64). pose proof (Z.mod_pos_bound size 64). zcase; lia.
Qed.

(** [allocated_push] of a type with [extra] trailing bytes writes a whole event whose
    header carries exactly the number of buckets it occupies, enough for the object and the
    trailing bytes with less than a bucket to spare, and without trailing bytes it writes
    what [push] writes: as long as the total is at most 65535 buckets. The header is stamped
    with the destination, the source, and the type id, or the id chosen by the service event. *)
Theorem event_footprint (T : event_type) (extra : Z) (d s : ActorId) (service_id p : Z) :
  0 < t_sizeof T -> 0 <= extra -> t_sizeof T + extra <= 64 * 65535 ->
  exists e, allocated_push_cells T extra d s service_id p = encode e /\ event_ok e /\
    64 * (bucket_size e - 1) < t_sizeof T + extra <= 64 * bucket_size e /\
    dest e = d /\ source e = s /\ payload e = p /\
    (id e, service e) = (if t_service T then (service_id, Some (s, t_id T)) else (t_id T, None)) /\
    getQOS e = (if t_qos0 T then 0 else 2) /\ is_alive e = false /\
    (extra = 0 -> push_cells T d s service_id p = encode e).
Proof.
  intros HT Hx Hmax.
  assert (allocated_buckets T extra = (t_sizeof T + extra) / 64 + (if (t_sizeof T + extra) mod 64 =? 0 then 0 else 1)) as En.
  { unfold allocated_buckets, QB_LOCKFREE_EVENT_BUCKET_BYTES. cbv zeta.
    rewrite (u64_small (extra + t_sizeof T)) by lia. by rewrite (Z.add_comm extra). }
  pose proof (buckets_round_up (t_sizeof T + extra)) as Hr. cbv zeta in Hr. rewrite <- En in Hr.
  exists (fill_event T d s (u16 (allocated_buckets T extra)) (construct T service_id p)).
  destruct (fill_event_fields T d s (u16 (allocated_buckets T extra)) (construct T service_id p)) as (Eb & Ed & Es & Ep & Est).
  rewrite u16_small in * by lia. unfold encode, event_ok, getQOS, is_alive. rewrite Eb, Ed, Es, Ep, Est.
  split_and!; try lia; try done.
  - unfold allocated_push_cells. cbv zeta. by rewrite u16_small by lia.
  - unfold fill_event, construct. simpl. by destruct (t_service T).
  - unfold construct. simpl. by destruct (t_qos0 T).
  - unfold construct. simpl. by destruct (t_qos0 T).
  - intros ->. unfold push_cells, push_buckets. cbv zeta.
    assert (getItemSize (t_sizeof T) QB_LOCKFREE_EVENT_BUCKET_BYTES = allocated_buckets T 0) as ->.
    { rewrite En. unfold getItemSize, QB_LOCKFREE_EVENT_BUCKET_BYTES. by rewrite !Z.add_0_r. }
    by rewrite u16_small by lia.
Qed.

Lemma event_footprint_witness :
  let T := EventType 7 96 false false false in
  exists e, allocated_push_cells T 32 (mk_ActorId 3 1) (mk_ActorId 4 0) 0 99 = encode e /\ event_ok e /\
    64 * (bucket_size e - 1) < 96 + 32 <= 64 * bucket_size e /\
    dest e = mk_ActorId 3 1 /\ source e = mk_ActorId 4 0 /\ payload e = 99 /\
    (id e, service e) = (7, None) /\ getQOS e = 2 /\ is_alive e = false /\
    (32 = 0 -> push_cells T (mk_ActorId 3 1) (mk_ActorId 4 0) 0 99 = encode e).
Proof. apply (event_footprint (EventType 7 96 false false false) 32 (mk_ActorId 3 1) (mk_ActorId 4 0) 0 99); simpl; lia. Defined.

(** * Streams of events *)

Lemma stream_cons e es : stream (e :: es) = encode e ++ stream es.
Proof. done. Qed.

Lemma stream_app es es' : stream (es ++ es') = stream es ++ stream es'.
Proof. unfold stream. by rewrite map_app, concat_app. Qed.

Lemma stream_snoc es e : stream (es ++ [e]) = stream es ++ encode e.
Proof. rewrite stream_app. f_equal. apply (app_nil_r (encode e)). Qed.

Lemma event_at_mid pre e rest : event_at (pre ++ encode e ++ rest) (zlen pre) = Some e.
Proof.
  unfold event_at, encode, encode_in. rewrite zget_app. pose proof (zlen_nonneg pre).
  destruct (Z.ltb_spec (zlen pre) (zlen pre)); [lia|]. by rewrite Z.sub_diag.
Qed.

Lemma stream_nil_inv es : stream es = [] -> es = [].
Proof. by destruct es. Qed.

Lemma zlen_stream_pos e es : event_ok e -> 0 < zlen (stream (e :: es)).
Proof. intros Hok. rewrite stream_cons, zlen_app, zlen_encode by done. pose proof (zlen_nonneg (stream es)). destruct Hok. lia. Qed.

(** Buckets decode to at most one sequence of well-formed events. *)
Lemma stream_inj es es' : Forall event_ok es -> Forall event_ok es' -> stream es = stream es' -> es = es'.
Proof.
  intros H. revert es'. induction H as [|e es He _ IH]; intros es' H' E.
  - by rewrite (stream_nil_inv es').
  - destruct H' as [|e' es' He' H']; [done|]. rewrite !stream_cons in E.
    assert (e = e') as <- by (unfold encode, encode_in in E; by injection E).
    apply app_inv_head in E. f_equal. by apply IH.
Qed.

(** * The type registry *)

(** Slots are unique by name, ids lie between 1 and the counter, and the name table inverts
    them. *)
Record registry_ok (r : registry) : Prop := RegistryOk {
  reg_names : NoDup (slots r).*1;
  reg_count : _type_id_counter r = zlen (slots r);
  reg_slots n i : (n, i) ∈ slots r -> 1 <= i <= _type_id_counter r /\ _type_names r !! i = Some n;
}.

Lemma find_slot_spec name l :
  NoDup l.*1 -> (forall n i, (n, i) ∈ l -> 1 <= i) ->
  ((name ∉ l.*1) /\ find_slot name l = 0) \/ (name, find_slot name l) ∈ l.
Proof.
  induction l as [|[n i] l IH]; intros Hnd Hpos; [left; set_solver|].
  simpl in *. apply NoDup_cons in Hnd as [Hn Hnd]. case_decide as En; [subst; right; by left|].
  destruct IH as [[Hno E]|Hin]; [done|set_solver| |right; by right].
  left. split; [set_solver|done].
Qed.

Lemma registry_empty_ok : registry_ok registry_empty.
Proof. split; simpl; [constructor|done|set_solver]. Qed.

Lemma register_type_id_spec name r :
  registry_ok r -> zlen (slots r) < 65535 \/ name ∈ (slots r).*1 ->
  let '(i, r') := register_type_id name r in
  registry_ok r' /\ (name, i) ∈ slots r' /\ (slots r ⊆ slots r') /\ (slots r').*1 ⊆ name :: (slots r).*1.
Proof.
  intros [Hnd Hc Hs] Hroom. unfold register_type_id.
  destruct (find_slot_spec name (slots r) Hnd (fun n i H => proj1 (proj1 (Hs n i H)))) as [[Hno E]|Hin].
  - rewrite E. simpl. destruct Hroom as [Hroom|]; [|done]. pose proof (zlen_nonneg (slots r)).
    rewrite u16_small by lia. split; [|set_solver]. split; simpl.
    + by constructor.
    + rewrite Hc. unfold zlen. simpl. lia.
    + intros n i [[= -> ->]|Hi]%elem_of_cons; [split; [lia|by rewrite lookup_insert_eq]|].
      apply Hs in Hi as [Hi Hl]. rewrite lookup_insert_ne by lia. split; [lia|done].
  - pose proof (Hs _ _ Hin). destruct (Z.eqb_spec (find_slot name (slots r)) 0); [lia|].
    split; [by split|]. set_solver.
Qed.

Lemma registry_room r (S : gset string) name :
  registry_ok r -> list_to_set (slots r).*1 ⊆ S -> name ∈ S -> Z.of_nat (size S) <= 65535 ->
  zlen (slots r) < 65535 \/ name ∈ (slots r).*1.
Proof.
  intros Hok Hsub Hin HS. destruct (decide (name ∈ (slots r).*1)) as [|Hno]; [by right|left].
  assert (size (list_to_set (name :: (slots r).*1) : gset string) <= size S)%nat as Hle.
  { apply subseteq_size. set_solver. }
  rewrite size_list_to_set in Hle by (constructor; [done|apply Hok]). simpl in Hle. rewrite length_fmap in Hle.
  unfold zlen. lia.
Qed.

Lemma register_all_spec names r (S : gset string) :
  registry_ok r -> list_to_set (slots r).*1 ⊆ S -> list_to_set names ⊆ S -> Z.of_nat (size S) <= 65535 ->
  let '(ids, r') := register_all names r in
  registry_ok r' /\ slots r ⊆ slots r' /\ list_to_set (slots r').*1 ⊆ S /\
  Forall2 (fun n i => (n, i) ∈ slots r') names ids.
Proof.
  revert r. induction names as [|n names IH]; intros r Hok Hsub Hn HS; simpl.
  { split_and!; done || constructor. }
  pose proof (register_type_id_spec n r Hok (registry_room r S n Hok Hsub ltac:(set_solver) HS)) as Hone.
  destruct (register_type_id n r) as [i r1]. destruct Hone as (Hok1 & Hi & Hsub1 & Hnames).
  specialize (IH r1 Hok1 ltac:(set_solver) ltac:(set_solver) HS).
  destruct (register_all names r1) as [ids r']. destruct IH as (Hok' & Hsub' & HS' & Hall).
  split_and!; [done|set_solver|done|]. constructor; [set_solver|done].
Qed.

Lemma registry_slot_inj r n i n' i' :
  registry_ok r -> (n, i) ∈ slots r -> (n', i') ∈ slots r -> (i = i' <-> n = n').
Proof.
  intros [Hnd _ Hs] H H'. split.
  - intros <-. apply Hs in H as [_ H], H' as [_ H']. congruence.
  - intros <-. apply list_elem_of_lookup in H as [k H], H' as [k' H'].
    assert (k = k') as <-; [|congruence]. eapply (NoDup_lookup (slots r).*1); [done| |]; by rewrite list_lookup_fmap, ?H, ?H'.
Qed.

(** With at most 65535 distinct event types, however often and in whatever order each of
    them is registered, two registrations give the same id exactly when they name the same
    type; every id is between 1 and 65535 (0 stays "unregistered") and the id is translated
    back to the name of its type. *)
Theorem type_ids_unique (names : list string) :
  Z.of_nat (size (list_to_set names : gset string)) <= 65535 ->
  let '(ids, r) := register_all names registry_empty in
  Forall2 (fun n i => 1 <= i <= 65535 /\ type_name_for i r = n) names ids /\
  forall k k' n n' i i', names !! k = Some n -> ids !! k = Some i -> names !! k' = Some n' -> ids !! k' = Some i' ->
    (i = i' <-> n = n').
Proof.
  intros HS. pose proof (register_all_spec names registry_empty (list_to_set names) registry_empty_ok
                           ltac:(set_solver) ltac:(set_solver) HS) as H.
  destruct (register_all names registry_empty) as [ids r]. destruct H as (Hok & _ & Hsub & Hall).
  assert (zlen (slots r) <= 65535) as Hlen.
  { assert (size (list_to_set (slots r).*1 : gset string) <= size (list_to_set names : gset string))%nat as Hle
      by by apply subseteq_size.
    rewrite size_list_to_set, length_fmap in Hle by apply Hok. unfold zlen. lia. }
  split.
  - eapply Forall2_impl; [exact Hall|]. intros n i Hi. destruct (reg_slots r Hok n i Hi) as [Hr Hl].
    rewrite (reg_count r Hok) in Hr. unfold type_name_for. rewrite Hl. split; [lia|done].
  - intros k k' n n' i i' Hn Hi Hn' Hi'. rewrite Forall2_lookup in Hall.
    pose proof (Hall k) as H1. pose proof (Hall k') as H2. rewrite Hn, Hi in H1. rewrite Hn', Hi' in H2.
    inversion_clear H1. inversion_clear H2. by eapply registry_slot_inj.
Qed.

Lemma type_ids_unique_witness :
  let '(ids, r) := register_all ["KillEvent"; "PingEvent"; "KillEvent"] registry_empty in
  Forall2 (fun n i => 1 <= i <= 65535 /\ type_name_for i r = n) ["KillEvent"; "PingEvent"; "KillEvent"] ids /\
  forall k k' n n' i i', ["KillEvent"; "PingEvent"; "KillEvent"] !! k = Some n -> ids !! k = Some i ->
    ["KillEvent"; "PingEvent"; "KillEvent"] !! k' = Some n' -> ids !! k' = Some i' -> (i = i' <-> n = n').
Proof. apply (type_ids_unique ["KillEvent"; "PingEvent"; "KillEvent"]). by vm_compute. Defined.
