(* ===== verification/Router.v ===== *)
(** The event router (src/qb/system/event/router.h): [memh<Event>] with one
    [semh<_Event, void>] per registered event type.

    Handlers are objects named by an address. What routing needs of the core that owns the
    router is the interface [Host]: whether a handler is alive, the effect of running its
    [on(event)] (which may subscribe, unsubscribe, kill, and change the event it is given),
    and the effect of an event's destructor. *)

From S2P Require Import Prelude ActorId Event.

(** [_registered_events] maps a type id to the handlers subscribed under their ids;
    [_disposers] is the static registry of type-erased disposers and [_disposer_cache] the
    memo each router keeps of it. *)
Record router := Router {
  _registered_events : gmap Z (gmap ActorId Z); _disposers : gset Z; _disposer_cache : gset Z
}.

Definition router_empty : router := Router ∅ ∅ ∅.

(** [SafeDispose<T>], run once per type by [subscribe] and [ensure_disposer]. *)
Definition safe_dispose (t : Z) (r : router) : router :=
  Router (_registered_events r) ({[ t ]} ∪ _disposers r) (_disposer_cache r).

Definition find_disposer (t : Z) (r : router) : bool * router :=
  if decide (t ∈ _disposer_cache r) then (true, r)
  else
    let resolved := bool_decide (t ∈ _disposers r) in
    (resolved, if resolved then Router (_registered_events r) (_disposers r) ({[ t ]} ∪ _disposer_cache r) else r).

Definition subscribe (t : Z) (a : ActorId) (h : Z) (r : router) : router :=
  let r := safe_dispose t r in
  match _registered_events r !! t with
  | None => Router (<[t := {[ a := h ]}]> (_registered_events r)) (_disposers r) (_disposer_cache r)
  | Some handlers => Router (<[t := <[a := h]> handlers]> (_registered_events r)) (_disposers r) (_disposer_cache r)
  end.

Definition unsubscribe (t : Z) (a : ActorId) (r : router) : router :=
  match _registered_events r !! t with
  | None => r
  | Some handlers => Router (<[t := delete a handlers]> (_registered_events r)) (_disposers r) (_disposer_cache r)
  end.

Definition unsubscribe_all (a : ActorId) (r : router) : router :=
  Router (delete a <$> _registered_events r) (_disposers r) (_disposer_cache r).

(** What a router needs of its owner. *)
Class Host (W : Type) := {
  host_router : W -> router;
  set_router : router -> W -> W;
  handler_alive : Z -> W -> bool;
  handler_on : Z -> event -> W -> event * W;
  destroy : event -> W -> W;
}.

Section Routing.
Context {W : Type} `{Host W}.

(** [std::is_trivially_destructible_v] of the type with a given id, negated, and the order in
    which a hash map of handlers is walked. *)
Context (nontrivial : Z -> bool).
Context (walk : gmap ActorId Z -> list (ActorId * Z)).

(** [dispatch_trampoline] *)
Definition dispatch (h : Z) (e : event) (w : W) : event * W :=
  if handler_alive h w then handler_on h e w else (e, w).

(** [EventPolicy::dispose] *)
Definition policy_dispose (t : Z) (e : event) (w : W) : W :=
  if nontrivial t && negb (is_alive e) then destroy e w else w.

Fixpoint broadcast_loop (snapshot : list (ActorId * Z)) (e : event) (w : W) : event * W :=
  match snapshot with
  | [] => (e, w)
  | (_, h) :: snapshot => let '(e, w) := dispatch h e w in broadcast_loop snapshot e w
  end.

(** [semh<_Event, void>::route<true>] of the resolver registered for type [t]. *)
Definition semh_route (t : Z) (handlers : gmap ActorId Z) (e : event) (w : W) : event * W :=
  let '(e, w) :=
    if is_broadcast (dest e) then broadcast_loop (walk handlers) e w
    else match handlers !! dest e with
         | Some h => dispatch h e w
         | None => (e, w)
         end in
  (e, policy_dispose t e w).

(** [memh::dispose]: destroy the payload of an event that will not be routed. *)
Definition dispose (e : event) (w : W) : W :=
  let '(found, r) := find_disposer (id e) (host_router w) in
  let w := set_router r w in
  if found && nontrivial (id e) then destroy e w else w.

(** [memh::route]; [onError] only logs. *)
Definition route (e : event) (w : W) : event * W :=
  match _registered_events (host_router w) !! id e with
  | Some handlers => semh_route (id e) handlers e w
  | None => (e, dispose e w)
  end.

End Routing.

(** * Facts *)

(** The handler an event of type [t] for [a] reaches. *)
Definition target (r : router) (t : Z) (a : ActorId) : option Z := _registered_events r !! t ≫= (.!! a).

(** The memo and the resolvers only name types with a disposer. *)
Record router_ok (r : router) : Prop := RouterOk {
  cache_sound : _disposer_cache r ⊆ _disposers r;
  registered_sound : dom (_registered_events r) ⊆ _disposers r;
}.

Lemma find_disposer_spec t r :
  router_ok r ->
  (find_disposer t r).1 = bool_decide (t ∈ _disposers r) /\ router_ok (find_disposer t r).2 /\
  _registered_events (find_disposer t r).2 = _registered_events r /\ _disposers (find_disposer t r).2 = _disposers r.
Proof.
  intros [Hc Hr]. unfold find_disposer. case_decide as E.
  - rewrite bool_decide_eq_true_2 by set_solver. done.
  - case_bool_decide; simpl; split_and!; try done. split; simpl; set_solver.
Qed.

Lemma safe_dispose_ok t r : router_ok r -> router_ok (safe_dispose t r).
Proof. intros [Hc Hr]. split; simpl; set_solver. Qed.

Lemma subscribe_spec t a h r :
  router_ok r ->
  router_ok (subscribe t a h r) /\
  forall t' a', target (subscribe t a h r) t' a' = if decide (t' = t /\ a' = a) then Some h else target r t' a'.
Proof.
  intros [Hc Hr]. unfold subscribe, target. simpl. destruct (_registered_events r !! t) as [hs|] eqn:E; simpl.
  - split; [split; simpl; [set_solver|rewrite dom_insert_L; set_solver]|]. intros t' a'.
    destruct (decide (t' = t)) as [->|Ht].
    + rewrite lookup_insert_eq, E. simpl. destruct (decide (a' = a)) as [->|Ha].
      * rewrite lookup_insert_eq, decide_True by done. done.
      * rewrite lookup_insert_ne, decide_False by naive_solver. done.
    + rewrite lookup_insert_ne, decide_False by naive_solver. done.
  - split; [split; simpl; [set_solver|rewrite dom_insert_L; set_solver]|]. intros t' a'.
    destruct (decide (t' = t)) as [->|Ht].
    + rewrite lookup_insert_eq, E. simpl. destruct (decide (a' = a)) as [->|Ha].
      * rewrite lookup_singleton_eq, decide_True by done. done.
      * rewrite lookup_singleton_ne, decide_False by naive_solver. done.
    + rewrite lookup_insert_ne, decide_False by naive_solver. done.
Qed.

Lemma unsubscribe_spec t a r :
  router_ok r ->
  router_ok (unsubscribe t a r) /\
  forall t' a', target (unsubscribe t a r) t' a' = if decide (t' = t /\ a' = a) then None else target r t' a'.
Proof.
  intros Hok. pose proof Hok as [Hc Hr]. unfold unsubscribe, target.
  destruct (_registered_events r !! t) as [hs|] eqn:E; simpl.
  - split; [split; simpl; [done|]|].
    { rewrite dom_insert_L. apply elem_of_dom_2 in E. set_solver. }
    intros t' a'. destruct (decide (t' = t)) as [->|Ht].
    + rewrite lookup_insert_eq, E. simpl. destruct (decide (a' = a)) as [->|Ha].
      * rewrite lookup_delete_eq, decide_True by done. done.
      * rewrite lookup_delete_ne, decide_False by naive_solver. done.
    + rewrite lookup_insert_ne, decide_False by naive_solver. done.
  - split; [done|]. intros t' a'. case_decide as D; [destruct D as [-> ->]; by rewrite E|done].
Qed.

Lemma unsubscribe_all_spec a r :
  router_ok r ->
  router_ok (unsubscribe_all a r) /\
  forall t' a', target (unsubscribe_all a r) t' a' = if decide (a' = a) then None else target r t' a'.
Proof.
  intros [Hc Hr]. unfold unsubscribe_all, target. split; [split; simpl; [done|by rewrite dom_fmap_L]|].
  intros t' a'. simpl. rewrite lookup_fmap. destruct (_registered_events r !! t') as [hs|] eqn:E; simpl.
  - case_decide as D; [subst; by rewrite lookup_delete_eq|by rewrite lookup_delete_ne].
  - by case_decide.
Qed.

(** Every subscription operation against the abstract registry, a map from (type, actor). *)
Inductive sub_op :=
| Sub (t : Z) (a : ActorId) (h : Z)
| Unsub (t : Z) (a : ActorId)
| UnsubAll (a : ActorId)
| Ensure (t : Z). (* ensure_disposer, run when an event of the type is enqueued *)

Definition router_step (r : router) (o : sub_op) : router :=
  match o with
  | Sub t a h => subscribe t a h r
  | Unsub t a => unsubscribe t a r
  | UnsubAll a => unsubscribe_all a r
  | Ensure t => safe_dispose t r
  end.

Definition registry_step (m : gmap (Z * ActorId) Z) (o : sub_op) : gmap (Z * ActorId) Z :=
  match o with
  | Sub t a h => <[(t, a) := h]> m
  | Unsub t a => delete (t, a) m
  | UnsubAll a => filter (fun kv => kv.1.2 <> a) m
  | Ensure _ => m
  end.

Lemma router_step_spec o r m :
  router_ok r -> (forall t a, target r t a = m !! (t, a)) ->
  router_ok (router_step r o) /\ forall t a, target (router_step r o) t a = registry_step m o !! (t, a).
Proof.
  intros Hok Hm. destruct o as [t0 a0 h|t0 a0|a0|t0]; simpl.
  - destruct (subscribe_spec t0 a0 h r Hok) as [Hok' Ht]. split; [done|]. intros t a. rewrite Ht.
    case_decide as D; [destruct D as [-> ->]; by rewrite lookup_insert_eq|].
    rewrite lookup_insert_ne by naive_solver. apply Hm.
  - destruct (unsubscribe_spec t0 a0 r Hok) as [Hok' Ht]. split; [done|]. intros t a. rewrite Ht.
    case_decide as D; [destruct D as [-> ->]; by rewrite lookup_delete_eq|].
    rewrite lookup_delete_ne by naive_solver. apply Hm.
  - destruct (unsubscribe_all_spec a0 r Hok) as [Hok' Ht]. split; [done|]. intros t a. rewrite Ht.
    rewrite map_lookup_filter. case_decide as D; subst.
    + destruct (m !! (t, a0)) as [h|] eqn:E; simpl; [|done]. rewrite option_guard_False; [done|naive_solver].
    + rewrite Hm. destruct (m !! (t, a)) as [h|] eqn:E; simpl; [|done]. rewrite option_guard_True; done.
  - split; [by apply safe_dispose_ok|done].
Qed.

Lemma router_steps_spec os r m :
  router_ok r -> (forall t a, target r t a = m !! (t, a)) ->
  router_ok (fold_left router_step os r) /\
  forall t a, target (fold_left router_step os r) t a = fold_left registry_step os m !! (t, a).
Proof.
  revert r m. induction os as [|o os IH]; intros r m Hok Hm; [done|]. simpl.
  destruct (router_step_spec o r m Hok Hm) as [Hok' Hm']. by apply IH.
Qed.

(** Disposers are only ever added. *)
Lemma router_step_disposers o r : _disposers r ⊆ _disposers (router_step r o).
Proof.
  destruct o; simpl; unfold subscribe, unsubscribe; simpl; repeat case_match; simpl; set_solver.
Qed.

Lemma router_steps_ensured os r t : t ∈ _disposers r \/ Ensure t ∈ os -> t ∈ _disposers (fold_left router_step os r).
Proof.
  revert r. induction os as [|o os IH]; intros r Ht; simpl; [set_solver|]. apply IH.
  pose proof (router_step_disposers o r). destruct Ht as [Ht|[<-|Ht]%elem_of_cons]; [set_solver|simpl; set_solver|auto].
Qed.

Lemma router_empty_ok : router_ok router_empty.
Proof. split; simpl; set_solver. Qed.

(** A type that was ever subscribed keeps its resolver, and has a disposer. *)
Lemma router_ok_registered r t hs : router_ok r -> _registered_events r !! t = Some hs -> t ∈ _disposers r.
Proof. intros [_ Hr] E. apply Hr. by apply elem_of_dom_2 in E. Qed.

(** What the router relies on: what its owner records of deliveries and destructions, and
    that handlers neither destroy events, nor exchange payloads, nor revive one another. *)
Class HostLaws (W : Type) `{Host W} := {
  delivered : W -> list (Z * Z);
  destroyed : W -> list Z;
  get_set_router r w : host_router (set_router r w) = r;
  set_router_delivered r w : delivered (set_router r w) = delivered w;
  set_router_destroyed r w : destroyed (set_router r w) = destroyed w;
  set_router_alive r w h : handler_alive h (set_router r w) = handler_alive h w;
  on_delivered h e w : delivered (handler_on h e w).2 = delivered w ++ [(h, payload e)];
  on_destroyed h e w : destroyed (handler_on h e w).2 = destroyed w;
  on_payload h e w : payload (handler_on h e w).1 = payload e;
  on_alive h e w h' : handler_alive h' (handler_on h e w).2 = true -> handler_alive h' w = true;
  destroy_delivered e w : delivered (destroy e w) = delivered w;
  destroy_destroyed e w : destroyed (destroy e w) = destroyed w ++ [payload e];
  destroy_alive e w h : handler_alive h (destroy e w) = handler_alive h w;
}.

Section RoutingFacts.
Context {W : Type} `{HL : HostLaws W}.
Context (nontrivial : Z -> bool).
Context (walk : gmap ActorId Z -> list (ActorId * Z)).
Implicit Types w : W.

Lemma dispatch_spec h e w :
  let '(e', w') := dispatch h e w in
  delivered w' = delivered w ++ (if handler_alive h w then [(h, payload e)] else []) /\
  destroyed w' = destroyed w /\ payload e' = payload e /\
  (forall h', handler_alive h' w' = true -> handler_alive h' w = true).
Proof.
  unfold dispatch. destruct (handler_alive h w) eqn:Ea.
  - pose proof (on_delivered h e w). pose proof (on_destroyed h e w). pose proof (on_payload h e w).
    pose proof (on_alive h e w). destruct (handler_on h e w) as [e' w']. done.
  - by rewrite app_nil_r.
Qed.

Lemma broadcast_loop_spec snapshot e w :
  let '(e', w') := broadcast_loop snapshot e w in
  (exists hs, delivered w' = delivered w ++ ((., payload e) <$> hs) /\ sublist hs snapshot.*2 /\
     (forall h, h ∈ hs -> handler_alive h w = true) /\
     (forall h, h ∈ snapshot.*2 -> handler_alive h w' = true -> h ∈ hs)) /\
  destroyed w' = destroyed w /\ payload e' = payload e /\
  (forall h', handler_alive h' w' = true -> handler_alive h' w = true).
Proof.
  revert e w. induction snapshot as [|[a h] snapshot IH]; intros e w; simpl.
  { split; [|done]. exists []. rewrite app_nil_r. split_and!; try done; set_solver. }
  pose proof (dispatch_spec h e w) as Hd. destruct (dispatch h e w) as [e1 w1].
  destruct Hd as (Hdel & Hdes & Hp & Hal). specialize (IH e1 w1).
  destruct (broadcast_loop snapshot e1 w1) as [e' w'].
  destruct IH as ((hs & Hdel' & Hsub & Hin & Hall) & Hdes' & Hp' & Hal'). rewrite Hp in Hdel'.
  split; [|by split_and!; [congruence|congruence|auto]].
  destruct (handler_alive h w) eqn:Ea; [exists (h :: hs)|exists hs]; rewrite Hdel', Hdel.
  - split_and!; [by rewrite <- app_assoc|by constructor| |].
    + intros x [->|Hx]%elem_of_cons; [done|auto].
    + intros x [->|Hx]%elem_of_cons; [by left|]. intros. right. auto.
  - rewrite app_nil_r. split_and!; [done|by constructor|auto|].
    intros x [->|Hx]%elem_of_cons Hx'; [|auto]. apply Hal', Hal in Hx'. congruence.
Qed.

Lemma dispose_spec e w :
  router_ok (host_router w) ->
  delivered (dispose nontrivial e w) = delivered w /\
  destroyed (dispose nontrivial e w) =
    destroyed w ++ (if bool_decide (id e ∈ _disposers (host_router w)) && nontrivial (id e) then [payload e] else []).
Proof.
  intros Hok. unfold dispose. destruct (find_disposer_spec (id e) _ Hok) as (Ef & _ & _ & _).
  destruct (find_disposer (id e) (host_router w)) as [found r]. simpl in Ef. subst found.
  destruct (bool_decide _ && nontrivial (id e)).
  - by rewrite destroy_delivered, destroy_destroyed, set_router_delivered, set_router_destroyed.
  - by rewrite set_router_delivered, set_router_destroyed, app_nil_r.
Qed.

Lemma policy_dispose_spec t e w :
  delivered (policy_dispose nontrivial t e w) = delivered w /\
  destroyed (policy_dispose nontrivial t e w) =
    destroyed w ++ (if nontrivial t && negb (is_alive e) then [payload e] else []) /\
  forall h, handler_alive h (policy_dispose nontrivial t e w) = handler_alive h w.
Proof.
  unfold policy_dispose. destruct (_ && _).
  - split_and!; [by rewrite destroy_delivered|by rewrite destroy_destroyed|intros; by rewrite destroy_alive].
  - by rewrite app_nil_r.
Qed.

Lemma route_unicast_spec e w :
  router_ok (host_router w) -> is_broadcast (dest e) = false -> is_alive e = false ->
  let '(e', w') := route nontrivial walk e w in
  delivered w' = delivered w ++
    (match target (host_router w) (id e) (dest e) with
     | Some h => if handler_alive h w then [(h, payload e)] else []
     | None => []
     end) /\
  destroyed w' = destroyed w ++
    (if nontrivial (id e) && bool_decide (id e ∈ _disposers (host_router w)) && negb (is_alive e') then [payload e] else []) /\
  payload e' = payload e.
Proof.
  intros Hok Hb Ha. unfold route, target.
  destruct (_registered_events (host_router w) !! id e) as [hs|] eqn:Er; simpl.
  - unfold semh_route. rewrite Hb. rewrite bool_decide_eq_true_2 by by eapply router_ok_registered.
    rewrite andb_true_r. destruct (hs !! dest e) as [h|].
    + pose proof (dispatch_spec h e w) as Hd. destruct (dispatch h e w) as [e' w'].
      destruct Hd as (Hdel & Hdes & Hp & _). destruct (policy_dispose_spec (id e) e' w') as (Hd1 & Hd2 & _).
      by rewrite Hd1, Hd2, Hdel, Hdes, Hp.
    + destruct (policy_dispose_spec (id e) e w) as (Hd1 & Hd2 & _). by rewrite Hd1, Hd2, app_nil_r.
  - destruct (dispose_spec e w Hok) as [Hd1 Hd2]. rewrite Hd1, Hd2, app_nil_r, Ha. simpl.
    rewrite andb_true_r. by rewrite (andb_comm (nontrivial (id e))).
Qed.

Lemma route_broadcast_spec e w hs0 :
  is_broadcast (dest e) = true -> _registered_events (host_router w) !! id e = Some hs0 ->
  let '(e', w') := route nontrivial walk e w in
  (exists hs, delivered w' = delivered w ++ ((., payload e) <$> hs) /\ sublist hs (walk hs0).*2 /\
     (forall h, h ∈ hs -> handler_alive h w = true) /\
     (forall h, h ∈ (walk hs0).*2 -> handler_alive h w' = true -> h ∈ hs)) /\
  destroyed w' = destroyed w ++ (if nontrivial (id e) && negb (is_alive e') then [payload e] else []).
Proof.
  intros Hb Er. unfold route. rewrite Er. unfold semh_route. rewrite Hb.
  pose proof (broadcast_loop_spec (walk hs0) e w) as Hl. destruct (broadcast_loop (walk hs0) e w) as [e' w'].
  destruct Hl as ((hs & Hdel & Hsub & Hin & Hall) & Hdes & Hp & _).
  destruct (policy_dispose_spec (id e) e' w') as (Hd1 & Hd2 & Hd3). rewrite Hd1, Hd2, Hdes, Hp.
  split; [|done]. exists hs. split_and!; [done|done|done|]. intros h Hh. rewrite Hd3. by apply Hall.
Qed.

End RoutingFacts.

(** What is true of the owner stays true across [route] if handlers keep it: [Q h] is what a
    handler needs to run, and running one handler must not take it from another. *)
Lemma route_rule {W : Type} `{Host W} (nontrivial : Z -> bool) (walk : gmap ActorId Z -> list (ActorId * Z))
    (P : W -> Prop) (Q : Z -> W -> Prop) (e : event) (w : W) :
  (forall hs p, p ∈ walk hs -> hs !! p.1 = Some p.2) ->
  P w -> (forall t a h, target (host_router w) t a = Some h -> Q h w) ->
  (forall h e w, P w -> Q h w -> handler_alive h w = true ->
     P (handler_on h e w).2 /\ forall h', Q h' w -> Q h' (handler_on h e w).2) ->
  (forall e w, P w -> P (destroy e w)) -> (forall w, P w -> P (set_router (find_disposer (id e) (host_router w)).2 w)) ->
  P (route nontrivial walk e w).2.
Proof.
  intros Hwalk Hw HQ Hon Hdes Hset.
  assert (forall h e w, P w -> Q h w -> P (dispatch h e w).2 /\ forall h', Q h' w -> Q h' (dispatch h e w).2) as Hdisp.
  { intros h e' w' Hw' Hh. unfold dispatch. destruct (handler_alive h w') eqn:E; [by apply Hon|done]. }
  assert (forall l e w, P w -> (forall p, p ∈ l -> Q p.2 w) -> P (broadcast_loop l e w).2) as Hloop.
  { induction l as [|[a h] l IH]; intros e' w' Hw' Hl; simpl; [done|].
    destruct (Hdisp h e' w' Hw') as [H1 H2]; [apply (Hl (a, h)); by left|]. destruct (dispatch h e' w') as [e1 w1].
    apply IH; [done|]. intros p Hp. apply H2, Hl. by right. }
  assert (forall t e w, P w -> P (policy_dispose nontrivial t e w)) as Hpol.
  { intros t e' w' Hw'. unfold policy_dispose. destruct (_ && _); auto. }
  unfold route. destruct (_registered_events (host_router w) !! id e) as [hs|] eqn:Er.
  - assert (forall a h, hs !! a = Some h -> Q h w) as Hhs by (intros a h Ha; apply (HQ (id e) a); unfold target; by rewrite Er).
    unfold semh_route. destruct (is_broadcast (dest e)).
    + pose proof (Hloop (walk hs) e w Hw) as HL. destruct (broadcast_loop (walk hs) e w) as [e1 w1]. simpl. apply Hpol, HL.
      intros p Hp. apply (Hhs p.1), Hwalk, Hp.
    + destruct (hs !! dest e) as [h|] eqn:Eh; [|simpl; by apply Hpol].
      pose proof (Hdisp h e w Hw (Hhs _ _ Eh)) as [H1 _]. destruct (dispatch h e w) as [e1 w1]. simpl. by apply Hpol.
  - simpl. unfold dispose. specialize (Hset w Hw). destruct (find_disposer (id e) (host_router w)) as [found r]. simpl in *.
    destruct (found && nontrivial (id e)); [by apply Hdes|done].
Qed.

(** * A recording host

    Handlers run a script of router operations, kills, and at most one [Actor::reply]; the
    world records deliveries and destructions. *)

Inductive handler_call := HRouter (o : sub_op) | HKill (h : Z) | HReply.

Record trace_world := TraceWorld {
  tw_router : router; tw_dead : gset Z; tw_delivered : list (Z * Z); tw_destroyed : list Z
}.

Section TraceHost.
Context (script : Z -> list handler_call).

(** [Actor::reply]: a broadcast event is never sent back. *)
Definition actor_reply (e : event) : event :=
  if is_broadcast (dest e) then e else with_alive true (redirect (source e) (dest e) e).

Definition trace_call (c : handler_call) (ew : event * trace_world) : event * trace_world :=
  let '(e, w) := ew in
  match c with
  | HRouter o => (e, TraceWorld (router_step (tw_router w) o) (tw_dead w) (tw_delivered w) (tw_destroyed w))
  | HKill h => (e, TraceWorld (tw_router w) ({[ h ]} ∪ tw_dead w) (tw_delivered w) (tw_destroyed w))
  | HReply => (actor_reply e, w)
  end.

#[local] Instance trace_host : Host trace_world := {
  host_router := tw_router;
  set_router r w := TraceWorld r (tw_dead w) (tw_delivered w) (tw_destroyed w);
  handler_alive h w := bool_decide (h ∉ tw_dead w);
  handler_on h e w :=
    fold_left (fun ew c => trace_call c ew) (script h)
              (e, TraceWorld (tw_router w) (tw_dead w) (tw_delivered w ++ [(h, payload e)]) (tw_destroyed w));
  destroy e w := TraceWorld (tw_router w) (tw_dead w) (tw_delivered w) (tw_destroyed w ++ [payload e]);
}.

Lemma trace_script_spec cs e w :
  let '(e', w') := fold_left (fun ew c => trace_call c ew) cs (e, w) in
  tw_delivered w' = tw_delivered w /\ tw_destroyed w' = tw_destroyed w /\ payload e' = payload e /\
  tw_dead w ⊆ tw_dead w'.
Proof.
  revert e w. induction cs as [|c cs IH]; intros e w; cbn [fold_left]; [done|].
  assert (exists e1 w1, trace_call c (e, w) = (e1, w1) /\ tw_delivered w1 = tw_delivered w /\
            tw_destroyed w1 = tw_destroyed w /\ payload e1 = payload e /\ tw_dead w ⊆ tw_dead w1)
    as (e1 & w1 & -> & H1 & H2 & H3 & H4).
  { destruct c as [o|h|]; simpl; eexists _, _; (split; [reflexivity|]); simpl; split_and!; try done; try set_solver.
    unfold actor_reply. by destruct (is_broadcast (dest e)). }
  specialize (IH e1 w1). destruct (fold_left _ cs (e1, w1)) as [e' w'].
  rewrite <- H1, <- H2, <- H3. set_solver.
Qed.

#[local] Instance trace_host_laws : HostLaws trace_world.
Proof.
  refine {| delivered := tw_delivered; destroyed := tw_destroyed |}; try done;
    intros h e w; [| | |intros h'];
    pose proof (trace_script_spec (script h) e
                  (TraceWorld (tw_router w) (tw_dead w) (tw_delivered w ++ [(h, payload e)]) (tw_destroyed w))) as Hs;
    simpl; destruct (fold_left _ _ _) as [e' w'] eqn:E; simpl in *; rewrite ?E in *; destruct Hs as (H1 & H2 & H3 & H4); try done.
  rewrite !bool_decide_eq_true. set_solver.
Defined.

End TraceHost.

Section Theorems.
Context {W : Type} `{HL : HostLaws W}.
Context (nontrivial : Z -> bool).
Context (walk : gmap ActorId Z -> list (ActorId * Z)).

(** The router reached by [os] and what the operations mean. *)
Definition built (os : list sub_op) : router := fold_left router_step os router_empty.
Definition subscriptions (os : list sub_op) : gmap (Z * ActorId) Z := fold_left registry_step os ∅.

Lemma built_spec os :
  router_ok (built os) /\ forall t a, target (built os) t a = subscriptions os !! (t, a).
Proof. apply router_steps_spec; [apply router_empty_ok|]. intros t a. by rewrite lookup_empty. Qed.

(** After any sequence of subscriptions, unsubscriptions and enqueues, routing a unicast
    event runs exactly the handler whose subscription for that type and destination is the
    latest one still in force, once, and only if it is alive; the payload of an event with a
    destructor is then destroyed exactly once, unless the handler sent the event on. *)
Theorem route_unicast_delivery (os : list sub_op) (e : event) (w : W) :
  host_router w = built os -> is_broadcast (dest e) = false -> is_alive e = false ->
  (nontrivial (id e) = true -> Ensure (id e) ∈ os) ->
  let '(e', w') := route nontrivial walk e w in
  delivered w' = delivered w ++
    (match subscriptions os !! (id e, dest e) with
     | Some h => if handler_alive h w then [(h, payload e)] else []
     | None => []
     end) /\
  destroyed w' = destroyed w ++ (if nontrivial (id e) && negb (is_alive e') then [payload e] else []).
Proof.
  intros Hr Hb Ha He. destruct (built_spec os) as [Hok Ht].
  pose proof (route_unicast_spec nontrivial walk e w) as HR. rewrite Hr in HR. specialize (HR Hok Hb Ha).
  destruct (route nontrivial walk e w) as [e' w']. destruct HR as (H1 & H2 & _). rewrite H1, H2, Ht. split; [done|].
  destruct (nontrivial (id e)); [|done]. simpl. rewrite bool_decide_eq_true_2; [done|].
  apply router_steps_ensured. right. by apply He.
Qed.

Hypothesis walk_all : forall hs, walk hs ≡ₚ map_to_list hs.

Lemma walk_elem hs h : h ∈ (walk hs).*2 <-> exists a, hs !! a = Some h.
Proof.
  rewrite (fmap_Permutation snd (walk hs) (map_to_list hs)) by apply walk_all. rewrite list_elem_of_fmap. split.
  - intros ([a h'] & -> & Hin%elem_of_map_to_list). by exists a.
  - intros (a & Ha%elem_of_map_to_list). by exists (a, h).
Qed.

Lemma walk_NoDup (hs : gmap ActorId Z) :
  (forall a a' h, hs !! a = Some h -> hs !! a' = Some h -> a = a') -> NoDup (walk hs).*2.
Proof.
  intros Hinj. rewrite (fmap_Permutation snd (walk hs) (map_to_list hs)) by apply walk_all.
  apply NoDup_fmap_2_strong; [|apply NoDup_map_to_list].
  intros [a h] [a' h'] H1%elem_of_map_to_list H2%elem_of_map_to_list. simpl. intros ->. f_equal. by eapply Hinj.
Qed.

(** C6: a broadcast reaches each handler that was subscribed to its type when routing
    started at most once, and exactly once if the handler is still alive afterwards, whatever
    the handlers subscribe, unsubscribe or kill meanwhile; nobody else receives it, and its
    payload is destroyed once, after the last handler. The walk order of the handler table is
    arbitrary. *)
Theorem route_broadcast_delivery (os : list sub_op) (e : event) (w : W) :
  host_router w = built os -> is_broadcast (dest e) = true -> is_alive e = false ->
  (nontrivial (id e) = true -> Ensure (id e) ∈ os) ->
  (forall a a' h, subscriptions os !! (id e, a) = Some h -> subscriptions os !! (id e, a') = Some h -> a = a') ->
  let '(e', w') := route nontrivial walk e w in
  (exists hs, delivered w' = delivered w ++ ((., payload e) <$> hs) /\ NoDup hs /\
     (forall h, h ∈ hs -> handler_alive h w = true /\ exists a, subscriptions os !! (id e, a) = Some h) /\
     (forall a h, subscriptions os !! (id e, a) = Some h -> handler_alive h w' = true -> h ∈ hs)) /\
  destroyed w' = destroyed w ++ (if nontrivial (id e) && negb (is_alive e') then [payload e] else []).
Proof.
  intros Hr Hb Ha He Hinj. destruct (built_spec os) as [Hok Ht]. unfold target in Ht.
  destruct (_registered_events (host_router w) !! id e) as [hs0|] eqn:Er.
  - assert (forall a, subscriptions os !! (id e, a) = hs0 !! a) as Hs.
    { intros a. by rewrite <- Ht, <- Hr, Er. }
    pose proof (route_broadcast_spec nontrivial walk e w hs0 Hb Er) as HR.
    destruct (route nontrivial walk e w) as [e' w']. destruct HR as ((hs & H1 & H2 & H3 & H4) & H5).
    split; [|done]. exists hs. split_and!; [done| | |].
    + eapply sublist_NoDup; [|exact H2]. apply walk_NoDup. intros a a' h. rewrite <- !Hs. apply Hinj.
    + intros h Hh. split; [by apply H3|]. apply (sublist_subseteq _ _ H2) in Hh as [a Hh']%walk_elem.
      exists a. by rewrite Hs.
    + intros a h Hh. rewrite Hs in Hh. intros Hal. apply H4; [|done]. apply walk_elem. by exists a.
  - unfold route. rewrite Er. destruct (dispose_spec nontrivial e w) as [H1 H2]; [by rewrite Hr|].
    split.
    + exists []. rewrite H1, app_nil_r. split_and!; [done|constructor|set_solver|].
      intros a h Hh. rewrite <- Ht, <- Hr, Er in Hh. done.
    + rewrite H2, Ha, andb_true_r. destruct (nontrivial (id e)); [|by rewrite andb_false_r].
      rewrite bool_decide_eq_true_2; [done|]. rewrite Hr. apply router_steps_ensured. right. by apply He.
Qed.

End Theorems.

(** Actors 1, 2 and 3 subscribe to type 7; actor 1 kills actor 2 and subscribes actor 4 while it
    handles an event, and actor 3 replies. *)
Definition demo_ops : list sub_op :=
  [Ensure 7; Sub 7 (mk_ActorId 1 0) 101; Sub 7 (mk_ActorId 2 0) 102; Sub 7 (mk_ActorId 3 0) 103;
   Sub 7 (mk_ActorId 5 0) 105; Unsub 7 (mk_ActorId 5 0)].

Definition demo_script (h : Z) : list handler_call :=
  if h =? 101 then [HKill 102; HRouter (Sub 7 (mk_ActorId 4 0) 104)] else if h =? 103 then [HReply] else [].

Definition demo_event (d : ActorId) : event := Event header_default 1 7 d (mk_ActorId 9 1) None 55.

Lemma route_unicast_delivery_witness :
  let w := TraceWorld (built demo_ops) ∅ [] [] in
  let '(e', w') := @route _ (trace_host demo_script) (fun _ => true) map_to_list (demo_event (mk_ActorId 3 0)) w in
  is_alive e' = true /\ tw_delivered w' = [] ++ [(103, 55)] /\ tw_destroyed w' = [] ++ [].
Proof.
  pose proof (@route_unicast_delivery _ (trace_host demo_script) (trace_host_laws demo_script) (fun _ => true)
                map_to_list demo_ops (demo_event (mk_ActorId 3 0)) (TraceWorld (built demo_ops) ∅ [] [])
                eq_refl eq_refl eq_refl ltac:(intros _; left)) as HR.
  vm_compute in HR. vm_compute. split; [reflexivity|exact HR].
Defined.

Lemma demo_subs h a :
  subscriptions demo_ops !! (7, a) = Some h ->
  (h, a) ∈ [(101, mk_ActorId 1 0); (102, mk_ActorId 2 0); (103, mk_ActorId 3 0)].
Proof. intros Hh. apply elem_of_map_to_list in Hh. vm_compute in Hh. set_solver. Qed.

Lemma demo_subs_inj a a' h :
  subscriptions demo_ops !! (7, a) = Some h -> subscriptions demo_ops !! (7, a') = Some h -> a = a'.
Proof.
  intros H1%demo_subs H2%demo_subs. rewrite !elem_of_cons, elem_of_nil in H1, H2.
  destruct_or!; simplify_eq; done.
Qed.

Lemma route_broadcast_delivery_witness :
  let w := TraceWorld (built demo_ops) {[ 103 ]} [] [] in
  let '(e', w') := @route _ (trace_host demo_script) (fun _ => true) map_to_list (demo_event (BroadcastId 0)) w in
  (exists hs, tw_delivered w' = [] ++ ((., 55) <$> hs) /\ NoDup hs /\ 101 ∈ hs /\ ~ 103 ∈ hs /\ ~ 104 ∈ hs) /\
  tw_destroyed w' = [55].
Proof.
  pose proof (@route_broadcast_delivery _ (trace_host demo_script) (trace_host_laws demo_script) (fun _ => true)
                map_to_list ltac:(reflexivity) demo_ops (demo_event (BroadcastId 0))
                (TraceWorld (built demo_ops) {[ 103 ]} [] []) eq_refl eq_refl eq_refl ltac:(intros _; left)) as HR.
  specialize (HR demo_subs_inj).
  destruct (@route _ _ _ _ _ _) as [e' w'] eqn:E. vm_compute in E. injection E as <- <-.
  destruct HR as ((hs & H1 & H2 & H3 & H4) & H5). split; [|exact H5]. exists hs. split_and!; [exact H1|done| | |].
  - apply (H4 (mk_ActorId 1 0)); [reflexivity|]. vm_compute. done.
  - intros Hh. by destruct (H3 103 Hh).
  - intros Hh. destruct (H3 104 Hh) as [_ [a Ha%demo_subs]]. by repeat (apply elem_of_cons in Ha as [[=]|Ha]); apply elem_of_nil in Ha.
Defined.
