(* ===== verification/Transport.v ===== *)
(** The two interfaces an event crosses between cores, and their implementations.

    [Mailbox] is what a sending core relies on of the destination's mailbox
    ([SharedCoreCommunication::Mailbox], a ring of 1023 buckets per producer): one
    all-or-nothing enqueue and, for the consumer, a batch per producer. [OutPipe] is what it
    relies on of its outbound pipe ([VirtualPipe]). The clients are proved against the
    interfaces; [mpsc_mailbox] and [base_pipe_out] discharge them with the ring buffers of
    Mpsc.v and the growable pipe of PipeAlloc.v. *)

From S2P Require Import Prelude Spsc Mpsc PipeAlloc ActorId Event.

(** [SharedCoreCommunication::MaxRingEvents], the capacity of a producer's ring and the
    widest event that can ever cross ([kMaxDeliverableBuckets]), and
    [VirtualCore::MaxRingEvents], the batch limit of the receiver. *)
Definition MaxRingEvents : Z := (2 ^ 16 - 1) / QB_LOCKFREE_EVENT_BUCKET_BYTES.
Definition kMaxDeliverableBuckets : Z := MaxRingEvents.

(** * Interfaces *)

Class Mailbox (M : Type) := {
  mb_ok : M -> Prop;
  mb_producers : M -> Z;
  (** what producer [i] has enqueued and the consumer not yet taken *)
  mb_queue : Z -> M -> list bucket;
  (** [enqueue(i, buckets, n)]: the number of buckets stored *)
  mb_enqueue : Z -> list bucket -> M -> Z * M;
  (** [consume_all(func, scratch, chunk)]: the batch of every producer
      that has one *)
  mb_consume : Z -> M -> list (list bucket) * M;
}.

Class MailboxLaws (M : Type) `{Mailbox M} := {
  mb_producers_nonneg m : 0 <= mb_producers m;
  mb_queue_bound i m : mb_ok m -> 0 <= i < mb_producers m -> zlen (mb_queue i m) <= MaxRingEvents;
  mb_enqueue_law i bs m : mb_ok m -> 0 <= i < mb_producers m -> zlen bs < 2 ^ 64 ->
    let '(n, m') := mb_enqueue i bs m in
    mb_ok m' /\ mb_producers m' = mb_producers m /\
    (forall j, j <> i -> mb_queue j m' = mb_queue j m) /\
    if zlen (mb_queue i m) + zlen bs <=? MaxRingEvents
    then n = zlen bs /\ mb_queue i m' = mb_queue i m ++ bs
    else n = 0 /\ mb_queue i m' = mb_queue i m;
  mb_consume_law chunk m : mb_ok m -> MaxRingEvents <= chunk < 2 ^ 64 ->
    let '(batches, m') := mb_consume chunk m in
    mb_ok m' /\ mb_producers m' = mb_producers m /\
    batches = filter (fun b => b <> []) (map (fun i => mb_queue i m) (seqZ 0 (mb_producers m))) /\
    forall i, mb_queue i m' = [];
}.

Class OutPipe (P : Type) := {
  pp_ok : P -> Prop;
  pp_items : P -> list bucket;
  (** [allocate_back] and [recycle_back]; [None]: the allocation failed *)
  pp_push : list bucket -> P -> option P;
  (** [recycle] *)
  pp_recycle : list bucket -> P -> option P;
  (** [reset(begin + n)] and [reset()] *)
  pp_skip : Z -> P -> P;
  pp_reset : P -> P;
}.

Class OutPipeLaws (P : Type) `{OutPipe P} := {
  pp_push_law bs p p' : pp_ok p -> zlen bs < 2 ^ 63 -> pp_push bs p = Some p' ->
    pp_ok p' /\ pp_items p' = pp_items p ++ bs;
  pp_recycle_law bs p p' : pp_ok p -> zlen bs < 2 ^ 63 -> pp_recycle bs p = Some p' ->
    pp_ok p' /\ (pp_items p' = pp_items p ++ bs \/ pp_items p' = bs ++ pp_items p);
  pp_skip_law n p : pp_ok p -> 0 <= n <= zlen (pp_items p) ->
    pp_ok (pp_skip n p) /\ pp_items (pp_skip n p) = zslice (pp_items p) n (zlen (pp_items p) - n);
  pp_reset_law p : pp_ok p -> pp_ok (pp_reset p) /\ pp_items (pp_reset p) = [];
}.

(** * The ring buffers as a mailbox *)

Definition full_sized (b : ringbuffer bucket) : Prop := capacity b = MaxRingEvents.

#[export] Instance mpsc_mailbox : Mailbox (mpsc bucket) := {
  mb_ok m := mpsc_ok m /\ Forall full_sized m /\ zlen m <= MaxCores;
  mb_producers m := zlen m;
  mb_queue i m := default [] (zget (queues m) i);
  mb_enqueue i bs m := default (0, m) (enqueue_bulk_at true i bs m);
  mb_consume chunk m :=
    let '(_, batches, _, m') := mpsc_consume_chunk (fun l b => l ++ [b]) [] (zrepeat Bytes chunk) chunk m in
    (batches, m');
}.

Lemma consume_chunk_capacity {S} (func : S -> list bucket -> S) nb st scratch chunk (ps : mpsc bucket) :
  mpsc_ok ps -> 0 <= chunk < 2 ^ 64 ->
  map capacity (consume_chunk_loop func nb st scratch chunk ps).2 = map capacity ps.
Proof.
  intros Hok Hc. revert nb st scratch. induction Hok as [|b ps Hb _ IH]; intros nb st scratch; [done|].
  cbn [consume_chunk_loop]. pose proof (rb_dequeue_spec scratch 0 chunk b Hb Hc ltac:(lia)) as HD. cbv zeta in HD.
  unfold rb_dequeue_func. destruct (rb_dequeue scratch 0 chunk b) as [[n out1] b1]. destruct HD as (_ & Hcap & _).
  match goal with |- context [consume_chunk_loop func ?a ?b' ?c chunk ps] => specialize (IH a b' c) end.
  destruct (consume_chunk_loop _ _ _ _ _ ps) as [[[nb' st'] scratch'] ps']. simpl in *. by rewrite Hcap, IH.
Qed.

Lemma full_sized_map (ps ps' : mpsc bucket) :
  map capacity ps' = map capacity ps -> Forall full_sized ps -> Forall full_sized ps'.
Proof.
  intros E H. apply (Forall_fmap capacity (fun c => c = MaxRingEvents)).
  change (capacity <$> ps') with (map capacity ps'). rewrite E.
  by apply (Forall_fmap capacity (fun c => c = MaxRingEvents)).
Qed.

Lemma queues_len (m : mpsc bucket) : zlen (queues m) = zlen m.
Proof. unfold queues, zlen. by rewrite length_map. Qed.

Lemma queues_get (m : mpsc bucket) i b : zget m i = Some b -> zget (queues m) i = Some (rb_contents b).
Proof.
  unfold queues, zget. zcase; [done|]. intros Hb. change (map rb_contents m) with (rb_contents <$> m).
  by rewrite list_lookup_fmap, Hb.
Qed.

(** The batches [consume_all] collects are the non-empty queues. *)
Lemma hand_collect (qs acc : list (list bucket)) :
  fold_left (hand (fun l b => l ++ [b])) qs acc = acc ++ filter (fun b => b <> []) qs.
Proof.
  revert acc. induction qs as [|q qs IH]; intros acc; simpl; [by rewrite app_nil_r|]. rewrite IH.
  destruct q as [|x q]; simpl; [done|]. rewrite filter_cons_True by done. by rewrite <- app_assoc.
Qed.

Lemma queues_by_index (m : mpsc bucket) :
  queues m = map (fun i => default [] (zget (queues m) i)) (seqZ 0 (zlen m)).
Proof.
  apply zlist_eq_len; [rewrite queues_len; unfold zlen; rewrite length_map, length_seqZ; lia|].
  intros i Hi. rewrite queues_len in Hi. destruct (zget_in_range (queues m) i) as [q Hq]; [by rewrite queues_len|].
  rewrite Hq. unfold zget at 1. zcase; [lia|].
  change (map ?f ?l) with (f <$> l). rewrite list_lookup_fmap, (lookup_seqZ_lt 0) by lia. simpl.
  replace (0 + Z.of_nat (Z.to_nat i)) with i by lia. by rewrite Hq.
Qed.

Lemma chunks_whole chunk (qs : list (list bucket)) :
  Forall (fun q => zlen q <= chunk) qs -> chunks chunk qs = qs /\ after_chunk chunk qs = map (fun _ => []) qs.
Proof.
  induction 1 as [|q qs Hq _ [IH1 IH2]]; [done|]. unfold chunks, after_chunk in *. simpl. rewrite IH1, IH2.
  rewrite Z.min_r, zslice_all by lia. by rewrite Z.sub_diag, zslice_nil by lia.
Qed.

Lemma queues_bounded (m : mpsc bucket) :
  mpsc_ok m -> Forall full_sized m -> Forall (fun q => zlen q <= MaxRingEvents) (queues m).
Proof.
  intros Hok Hf. unfold queues. apply (Forall_fmap rb_contents (fun q => zlen q <= MaxRingEvents)).
  eapply Forall_impl; [apply Forall_and; split; [exact Hok|exact Hf]|]. intros b [Hb Hc]. simpl.
  pose proof (rb_len_bound b Hb). unfold full_sized in Hc. lia.
Qed.

Lemma chunk_total (m : mpsc bucket) :
  mpsc_ok m -> Forall full_sized m -> zlen m <= MaxCores -> zlen (concat (queues m)) < 2 ^ 64.
Proof.
  intros Hok Hf Hn. pose proof (queues_bounded m Hok Hf) as Hb. rewrite <- queues_len in Hn. clear Hok Hf.
  assert (zlen (concat (queues m)) <= MaxRingEvents * zlen (queues m)).
  { clear Hn. induction Hb as [|q qs Hq _ IH]; [done|]. simpl. rewrite zlen_app.
    change (q :: qs) with ([q] ++ qs). zlens. }
  change MaxRingEvents with 1023 in *. unfold MaxCores in Hn. lia.
Qed.

Lemma mpsc_enqueue_spec i bs (m : mpsc bucket) :
  mb_ok m -> 0 <= i < mb_producers m -> zlen bs < 2 ^ 64 ->
  let '(n, m') := mb_enqueue i bs m in
  mb_ok m' /\ mb_producers m' = mb_producers m /\
  (forall j, j <> i -> mb_queue j m' = mb_queue j m) /\
  if zlen (mb_queue i m) + zlen bs <=? MaxRingEvents
  then n = zlen bs /\ mb_queue i m' = mb_queue i m ++ bs
  else n = 0 /\ mb_queue i m' = mb_queue i m.
Proof.
  intros (Hok & Hf & Hn) Hi Hbs. simpl in *. destruct (zget_in_range m i Hi) as [b Hb].
  pose proof (mpsc_ok_get m i b Hok Hb) as Hbok. unfold enqueue_bulk_at. rewrite (on_ring_queues _ _ _ _ Hb). simpl.
  pose proof (rb_enqueue_bulk_spec true bs b Hbok Hbs) as HE. destruct (rb_enqueue_bulk true bs b) as [n b'].
  destruct HE as (Hb' & Hcap & -> & Hc). simpl.
  assert (capacity b = MaxRingEvents) as Hcb.
  { rewrite Forall_forall in Hf. apply Hf. unfold zget in Hb. zcase_in Hb; [done|]. by apply list_elem_of_lookup_2 in Hb. }
  rewrite zlen_put, (queues_get m i b Hb), queues_put. rewrite zget_put_eq by by rewrite queues_len. simpl.
  split_and!; try done.
  + by apply mpsc_ok_put.
  + unfold zput. zcase; [done|]. apply Forall_insert; [done|]. unfold full_sized. congruence.
  + intros j Hj. by rewrite zget_put_ne by done.
  + rewrite Hcb in *. unfold accepted in *. zcases; try lia; (split; [done|]); rewrite Hc;
      [by rewrite zslice_all|by rewrite zslice_nil, app_nil_r by lia].
Qed.

Lemma mpsc_consume_spec chunk (m : mpsc bucket) :
  mb_ok m -> MaxRingEvents <= chunk < 2 ^ 64 ->
  let '(batches, m') := mb_consume chunk m in
  mb_ok m' /\ mb_producers m' = mb_producers m /\
  batches = filter (fun b => b <> []) (map (fun i => mb_queue i m) (seqZ 0 (mb_producers m))) /\
  forall i, mb_queue i m' = [].
Proof.
  intros (Hok & Hf & Hn) Hch. simpl.
  pose proof (queues_bounded m Hok Hf) as Hb.
  destruct (chunks_whole chunk (queues m)) as [Hw1 Hw2]; [eapply Forall_impl; [exact Hb|]; simpl; lia|].
  change MaxRingEvents with 1023 in Hch. unfold mpsc_consume_chunk.
  pose proof (consume_chunk_loop_spec (fun l b => l ++ [b]) 0 [] (zrepeat Bytes chunk) chunk m Hok) as HC.
  rewrite zlen_repeat, Hw1, Hw2 in HC by lia.
  specialize (HC ltac:(lia) ltac:(lia) ltac:(lia) ltac:(pose proof (chunk_total m Hok Hf Hn); lia)).
  pose proof (consume_chunk_capacity (fun l b => l ++ [b]) 0 [] (zrepeat Bytes chunk) chunk m Hok ltac:(lia)) as HK.
  destruct (consume_chunk_loop _ _ _ _ _ m) as [[[nb st'] scratch'] m']. simpl in HK. destruct HC as (Hok' & Hq & -> & _).
  assert (zlen m' = zlen m) as Hlen.
  { unfold zlen. rewrite <- (length_map capacity m'), HK. by rewrite length_map. }
  split_and!; [done|by eapply full_sized_map|lia|done| |].
  + rewrite hand_collect. simpl. f_equal. apply queues_by_index.
  + intros i. rewrite Hq. unfold zget. zcase; [done|]. change (map ?f ?l) with (f <$> l).
    rewrite list_lookup_fmap. by destruct (queues m !! Z.to_nat i).
Qed.

#[export] Instance mpsc_mailbox_laws : MailboxLaws (mpsc bucket).
Proof.
  split; [| |apply mpsc_enqueue_spec|apply mpsc_consume_spec].
  - intros m. apply zlen_nonneg.
  - intros i m (Hok & Hf & _) Hi. simpl in *. destruct (zget_in_range m i Hi) as [b Hb]. rewrite (queues_get m i b Hb).
    simpl. pose proof (queues_bounded m Hok Hf) as Hq. rewrite Forall_forall in Hq. apply Hq.
    pose proof (queues_get m i b Hb) as Hg. unfold zget in Hg. zcase_in Hg; [done|]. by apply list_elem_of_lookup_2 in Hg.
Qed.

(** * The growable pipe as an outbound pipe *)

Section BasePipe.
Context (alloc_ok : Z -> bool).

(** Every cell between the indices has been written. *)
Definition written (p : base_pipe bucket) : list bucket := omap (fun c => c) (elements p).

#[export] Instance base_pipe_out : OutPipe (base_pipe bucket) := {
  pp_ok p := pipe_ok p /\ elements p = map Some (written p);
  pp_items := written;
  pp_push bs p := match recycle_back alloc_ok (map Some bs) p with (Some _, p') => Some p' | (None, _) => None end;
  pp_recycle bs p := match recycle alloc_ok (map Some bs) p with (Some _, p') => Some p' | (None, _) => None end;
  pp_skip n p := reset_to (_begin p +s n) p;
  pp_reset := reset;
}.

Lemma omap_map_Some {A} (l : list A) : omap (fun c => c) (map Some l) = l.
Proof. induction l as [|x l IH]; [done|]. cbn. f_equal. apply IH. Qed.

Lemma zlen_map {A B} (f : A -> B) (l : list A) : zlen (map f l) = zlen l.
Proof. unfold zlen. by rewrite length_map. Qed.

Lemma zslice_map {A B} (f : A -> B) (l : list A) off n : zslice (map f l) off n = map f (zslice l off n).
Proof. unfold zslice. by rewrite skipn_map, firstn_map. Qed.

Lemma written_of p l : elements p = map Some l -> written p = l /\ elements p = map Some (written p).
Proof.
  intros E. assert (written p = l) as Hw by (unfold written; rewrite E; apply omap_map_Some). by rewrite Hw.
Qed.

#[export] Instance base_pipe_out_laws : OutPipeLaws (base_pipe bucket).
Proof.
  split.
  - intros bs p p' [Hok He] Hbs E. simpl in *. pose proof (recycle_back_spec alloc_ok (map Some bs) p Hok) as HR.
    rewrite zlen_map in HR. specialize (HR ltac:(lia)). destruct (recycle_back alloc_ok (map Some bs) p) as [[off|] p1]; [|done].
    injection E as <-. destruct HR as (Hok' & Hel & _). rewrite He, <- map_app in Hel.
    destruct (written_of _ _ Hel) as [-> ?]. done.
  - intros bs p p' [Hok He] Hbs E. simpl in *. pose proof (recycle_spec alloc_ok (map Some bs) p Hok) as HR.
    rewrite zlen_map in HR. specialize (HR Hbs). destruct (recycle alloc_ok (map Some bs) p) as [[off|] p1]; [|done].
    injection E as <-. destruct HR as [Hok' Hel]. rewrite He, <- !map_app in Hel.
    destruct (_flag_front p1); destruct (written_of _ _ Hel) as [-> ?]; auto.
  - intros n p [Hok He] Hn. simpl in *. pose proof (zlen_elements p Hok) as Hl. pose proof (size_eq p Hok) as Hs.
    rewrite He, zlen_map in Hl. pose proof (ok_begin _ Hok). pose proof (ok_end _ Hok).
    pose proof (capacity_le p Hok). unfold max_cells in *. rewrite u64_small by lia.
    destruct (reset_to_spec (_begin p + n) p Hok ltac:(lia)) as [Hok' Hel].
    rewrite He, zslice_map in Hel. destruct (written_of _ _ Hel) as [-> ?].
    split; [done|]. f_equal; lia.
  - intros p [Hok He]. simpl. destruct (pipe_clear_spec p Hok) as [Hok' Hel].
    destruct (written_of _ [] Hel) as [-> ?]. done.
Qed.

End BasePipe.
