(* ===== verification/Outbound.v ===== *)
(** Sending events to other cores: [SharedCoreCommunication::send] (src/qb/core/Main.cpp),
    and [try_send], [send], [push], [__flush_all__] and
    [__dispose_residual_to_stopped_cores__] of src/qb/core/VirtualCore.cpp.

    The sending core owns one outbound pipe per destination and one producer slot, [me], in
    every mailbox. The other threads run meanwhile: before the [k]-th access of this core to
    the mailboxes they have turned [boxes] into [env k boxes]; a consumer that ran has taken
    everything this core had put into its mailbox ([env_fair]). Mailboxes and pipes are used
    through the interfaces of Transport.v. Waking the destination ([notify], a condition
    variable) changes nothing the model observes. *)

From S2P Require Import Prelude Spsc Mpsc PipeAlloc ActorId Event Transport.

(** The retry budget of one event in [__flush_all__]. *)
Definition kFlushSpinAttempts : Z := 64.
Definition kFlushYieldAttempts : Z := 512.

Section Outbound.
Context {M : Type} `{Mailbox M} {P : Type} `{OutPipe P}.
Context (cset : CoreSet) (me : Z) (env : Z -> list M -> list M).

(** The mailboxes, the number of accesses made to them, the send counters of [_metrics] and
    the events handed to [_router.dispose]. The ghost field [arrivals] records, for each
    mailbox, the buckets of this core that its consumer has taken out. *)
Record net := Net {
  mail_boxes : list M; clock : Z; nb_event_sent_try : Z; nb_event_sent : Z; nb_bucket_sent : Z;
  disposed : list event; arrivals : Z -> list bucket
}.

(** What the consumer of mailbox [i] took while the mailboxes went from [old] to [new]. *)
Definition drained (old new : list M) (i : Z) : list bucket :=
  match zget old i, zget new i with
  | Some o, Some n => zslice (mb_queue me o) 0 (zlen (mb_queue me o) - zlen (mb_queue me n))
  | _, _ => []
  end.

Definition count_try (s : net) : net :=
  Net (mail_boxes s) (clock s) (nb_event_sent_try s +s 1) (nb_event_sent s) (nb_bucket_sent s) (disposed s)
      (arrivals s).
Definition count_sent (e : event) (s : net) : net :=
  Net (mail_boxes s) (clock s) (nb_event_sent_try s) (nb_event_sent s +s 1) (nb_bucket_sent s +s bucket_size e) (disposed s)
      (arrivals s).
Definition log_dispose (e : event) (s : net) : net :=
  Net (mail_boxes s) (clock s) (nb_event_sent_try s) (nb_event_sent s) (nb_bucket_sent s) (disposed s ++ [e])
      (arrivals s).

(** [SharedCoreCommunication::send(source_index, event)]: [cells] are the [bucket_size]
    buckets at the event's address. The resolved index always names a mailbox. *)
Definition try_send (e : event) (cells : list bucket) (s : net) : bool * net :=
  let boxes := env (clock s) (mail_boxes s) in
  let dest_index := resolve (index (dest e)) cset in
  match zget boxes dest_index with
  | Some m =>
      let '(n, m) := mb_enqueue me cells m in
      (negb (n =? 0), Net (zput boxes dest_index m) (clock s + 1) (nb_event_sent_try s) (nb_event_sent s)
                          (nb_bucket_sent s) (disposed s)
                          (fun i => arrivals s i ++ drained (mail_boxes s) boxes i))
  | None => (false, s)
  end.

(** The bounded backoff on a guaranteed event. *)
Fixpoint retry (attempts : nat) (e : event) (cells : list bucket) (s : net) : bool * net :=
  match attempts with
  | O => (false, s)
  | S attempts =>
      let '(sent, s) := try_send e cells (count_try s) in
      if sent then (true, s) else retry attempts e cells s
  end.

(** How the loop over one pipe ends: the pipe can be reset, everything before [cur] is
    consumed, or the bytes at [cur] are no event. *)
Inductive flush_exit := Drained | Partial (cur : Z) | NotAnEvent.

Fixpoint flush_loop (fuel : nat) (items : list bucket) (cur : Z) (s : net) : flush_exit * net :=
  match fuel with
  | O => (NotAnEvent, s)
  | S fuel =>
      if zlen items <=? cur then (Drained, s)
      else match event_at items cur with
      | None => (NotAnEvent, s)
      | Some e =>
          let cells := zslice items cur (bucket_size e) in
          let next := cur + bucket_size e in
          let '(ok, s) := try_send e cells (count_try s) in
          if ok then flush_loop fuel items next (count_sent e s)
          else if bucket_size e =? 0 then (Drained, s)
          else if kMaxDeliverableBuckets <? bucket_size e then
            flush_loop fuel items next (count_sent e (log_dispose e s))
          else if getQOS e =? 0 then flush_loop fuel items next (count_sent e s)
          else
            let '(sent, s) := retry (Z.to_nat kFlushYieldAttempts) e cells s in
            if sent then flush_loop fuel items next (count_sent e s) else (Partial cur, s)
      end
  end.

(** One iteration per event, each of at least one bucket, and a last one to stop. *)
Definition flush_pipe (p : P) (s : net) : P * net :=
  match flush_loop (S (length (pp_items p))) (pp_items p) 0 s with
  | (Drained, s) => (pp_reset p, s)
  | (Partial cur, s) => (pp_skip cur p, s)
  | (NotAnEvent, s) => (p, s)
  end.

(** [__flush_all__] from pipe [idx] on; the flag tells whether there was any work. *)
Fixpoint flush_all_from (idx : Z) (pipes : list P) (s : net) : bool * list P * net :=
  match pipes with
  | [] => (false, [], s)
  | p :: pipes =>
      if (idx =? me) || (zlen (pp_items p) =? 0) then
        let '(any, pipes, s) := flush_all_from (idx + 1) pipes s in (any, p :: pipes, s)
      else
        let '(p, s) := flush_pipe p s in
        let '(_, pipes, s) := flush_all_from (idx + 1) pipes s in (true, p :: pipes, s)
  end.

Definition __flush_all__ (pipes : list P) (s : net) : bool * list P * net := flush_all_from 0 pipes s.

(** The walk of a pipe whose destination has stopped: every event is disposed. *)
Fixpoint dispose_loop (fuel : nat) (items : list bucket) (cur : Z) (s : net) : net :=
  match fuel with
  | O => s
  | S fuel =>
      if zlen items <=? cur then s
      else match event_at items cur with
      | None => s
      | Some e => if bucket_size e =? 0 then s else dispose_loop fuel items (cur + bucket_size e) (log_dispose e s)
      end
  end.

(** [__dispose_residual_to_stopped_cores__]; [stopped] are the flags the cores published. *)
Fixpoint dispose_residual_from (stopped : Z -> bool) (idx : Z) (pipes : list P) (s : net) : bool * list P * net :=
  match pipes with
  | [] => (false, [], s)
  | p :: pipes =>
      if (idx =? me) || (zlen (pp_items p) =? 0) then
        let '(live, pipes, s) := dispose_residual_from stopped (idx + 1) pipes s in (live, p :: pipes, s)
      else if negb (stopped idx) then
        let '(_, pipes, s) := dispose_residual_from stopped (idx + 1) pipes s in (true, p :: pipes, s)
      else
        let s := dispose_loop (S (length (pp_items p))) (pp_items p) 0 s in
        let '(live, pipes, s) := dispose_residual_from stopped (idx + 1) pipes s in (live, pp_reset p :: pipes, s)
  end.

Definition __dispose_residual_to_stopped_cores__ (stopped : Z -> bool) (pipes : list P) (s : net) : bool * list P * net :=
  dispose_residual_from stopped 0 pipes s.

(** [VirtualCore::push(event)] and [VirtualCore::send(event)]; [_index] is the id of this
    core. [None]: the pipe could not grow, which ends the process in a [noexcept] function. *)
Definition push (e : event) (pipes : list P) : option (list P) :=
  let i := resolve (index (dest e)) cset in
  p ← zget pipes i; p' ← pp_push (encode e) p; Some (zput pipes i p').

Definition send (_index : Z) (e : event) (pipes : list P) (s : net) : option (list P * net) :=
  let i := resolve (index (dest e)) cset in
  let recycle s := p ← zget pipes i; p' ← pp_recycle (encode e) p; Some (zput pipes i p', s) in
  if index (dest e) =? _index then recycle s
  else
    let '(sent, s) := try_send e (encode e) s in
    if sent then Some (pipes, s) else recycle s.

(** [VirtualCore::reply] and [VirtualCore::forward]. *)
Definition reply (_index : Z) (e : event) (pipes : list P) (s : net) : event * option (list P * net) :=
  let e := with_alive true (redirect (source e) (dest e) e) in (e, send _index e pipes s).

Definition forward (_index : Z) (d : ActorId) (e : event) (pipes : list P) (s : net) : event * option (list P * net) :=
  let e := with_alive true (redirect d (source e) e) in (e, send _index e pipes s).

End Outbound.

Arguments net : clear implicits.

(** * Facts *)

Section Facts.
Context {M : Type} `{ML : MailboxLaws M} {P : Type} `{PL : OutPipeLaws P}.
Context (cset : CoreSet) (me : Z) (env : Z -> list M -> list M).
Implicit Types (s : net M) (es qs : list event).

(** What the other threads may do to the producer slot of this core: nothing, or take
    everything in it. Only the consumer touches it, and it takes whole batches. *)
Definition env_fair : Prop := forall k boxes i m,
  zget boxes i = Some m -> mb_ok m -> 0 <= me < mb_producers m ->
  exists m', zget (env k boxes) i = Some m' /\ mb_ok m' /\ mb_producers m' = mb_producers m /\
    (mb_queue me m' = mb_queue me m \/ mb_queue me m' = []).

Hypothesis fair : env_fair.

(** Mailbox [j] holds the events [qs] of this core. *)
Definition queue_is s (j : Z) qs : Prop :=
  exists m, zget (mail_boxes s) j = Some m /\ mb_ok m /\ 0 <= me < mb_producers m /\ mb_queue me m = stream qs.

(** From [s] to [s'], this core has added [added] to mailbox [j] and its consumer has taken
    some events from the front. *)
Definition moved s s' (j : Z) (added : list event) : Prop :=
  forall qs, queue_is s j qs -> exists taken qs', queue_is s' j qs' /\ qs ++ added = taken ++ qs' /\
    arrivals s' j = arrivals s j ++ stream taken.

Lemma moved_same s s' j : mail_boxes s' = mail_boxes s -> arrivals s' = arrivals s -> moved s s' j [].
Proof.
  intros E Ea qs (m & Hm). exists [], qs. rewrite Ea, !app_nil_r. split; [|done]. exists m. by rewrite E.
Qed.

Lemma moved_trans s1 s2 s3 j a b : moved s1 s2 j a -> moved s2 s3 j b -> moved s1 s3 j (a ++ b).
Proof.
  intros H1 H2 qs Hq. destruct (H1 qs Hq) as (t1 & qs1 & Hq1 & E1 & A1).
  destruct (H2 qs1 Hq1) as (t2 & qs2 & Hq2 & E2 & A2). exists (t1 ++ t2), qs2. split_and!; [done| |].
  - by rewrite app_assoc, E1, <- app_assoc, E2, app_assoc.
  - by rewrite A2, A1, stream_app, app_assoc.
Qed.

Lemma zget_env_box s j qs :
  queue_is s j qs ->
  exists m, zget (env (clock s) (mail_boxes s)) j = Some m /\ mb_ok m /\ 0 <= me < mb_producers m /\
    exists taken qs', qs = taken ++ qs' /\ mb_queue me m = stream qs' /\
      drained me (mail_boxes s) (env (clock s) (mail_boxes s)) j = stream taken.
Proof.
  intros (m & Hg & Hok & Hme & Hq). destruct (fair (clock s) _ _ _ Hg Hok Hme) as (m' & Hg' & Hok' & Hp & Hd).
  exists m'. rewrite Hp. split_and!; try done; try lia. unfold drained. rewrite Hg, Hg'. destruct Hd as [E|E]; rewrite E.
  - exists [], qs. split_and!; [done|done|]. by rewrite Z.sub_diag, zslice_nil.
  - exists qs, []. rewrite app_nil_r, Z.sub_0_r, zslice_all. done.
Qed.

Lemma try_send_other e cells s i :
  i <> resolve (index (dest e)) cset -> moved s (try_send cset me env e cells s).2 i [].
Proof.
  intros Hi. unfold try_send. destruct (zget (env (clock s) (mail_boxes s)) (resolve (index (dest e)) cset)) as [m|]; simpl;
    [|by apply moved_same]. destruct (mb_enqueue me cells m) as [n m']. intros qs Hq.
  destruct (zget_env_box s i qs Hq) as (mi & Hg & Hok & Hme & taken & qs' & -> & Hqi & Hdr).
  exists taken, qs'. rewrite app_nil_r. simpl. rewrite Hdr. split_and!; [|done|done].
  exists mi. simpl. by rewrite zget_put_ne by done.
Qed.

Lemma try_send_spec e cells s j qs :
  queue_is s j qs -> resolve (index (dest e)) cset = j -> cells = encode e -> event_ok e ->
  let '(ok, s') := try_send cset me env e cells s in
  moved s s' j (if ok then [e] else []) /\ (forall i, i <> j -> moved s s' i []) /\
  clock s' = clock s + 1 /\ disposed s' = disposed s /\ (ok = true -> bucket_size e <= MaxRingEvents).
Proof.
  intros Hq Hj -> He. pose proof (zlen_encode e He) as Hlen. destruct He as [He1 He2].
  pose proof (fun i Hi => try_send_other e (encode e) s i Hi) as Hother. rewrite Hj in Hother.
  destruct (zget_env_box s j qs Hq) as (m & Hg & Hok & Hme & _).
  unfold try_send in *. rewrite Hj, Hg in *.
  pose proof (mb_enqueue_law me (encode e) m Hok Hme ltac:(lia)) as HE.
  destruct (mb_enqueue me (encode e) m) as [n m']. destruct HE as (Hok' & Hp' & _ & HE). simpl in *.
  pose proof (zget_Some_range _ _ _ Hg) as Hr. pose proof (zlen_nonneg (mb_queue me m)).
  split_and!; try done.
  - intros qs0 Hq0. destruct (zget_env_box s j qs0 Hq0) as (m0 & Hg0 & _ & _ & taken & qs' & -> & Hqm & Hdr).
    assert (m0 = m) as -> by congruence. exists taken. rewrite <- app_assoc. simpl. rewrite Hdr.
    destruct (Z.leb_spec (zlen (mb_queue me m) + zlen (encode e)) MaxRingEvents).
    + destruct HE as [-> HE]. rewrite Hlen. destruct (Z.eqb_spec (bucket_size e) 0); [lia|]. simpl.
      eexists. split; [|done]. exists m'. simpl. rewrite zget_put_eq, Hp', HE, Hqm, stream_snoc by done. done.
    + destruct HE as [-> HE]. simpl. eexists. split; [|done]. exists m'. simpl.
      rewrite zget_put_eq, Hp', HE, Hqm, app_nil_r by done. done.
  - destruct (Z.leb_spec (zlen (mb_queue me m) + zlen (encode e)) MaxRingEvents); [lia|].
    destruct HE as [-> _]. done.
Qed.

Lemma queue_is_moved s s' j a qs : moved s s' j a -> queue_is s j qs -> exists qs', queue_is s' j qs'.
Proof. intros Hm Hq. destruct (Hm qs Hq) as (_ & qs' & Hq' & _ & _). by exists qs'. Qed.

(** One or more attempts on the same event. *)
Lemma retry_spec n e cells s j qs :
  queue_is s j qs -> resolve (index (dest e)) cset = j -> cells = encode e -> event_ok e ->
  let '(ok, s') := retry cset me env n e cells s in
  moved s s' j (if ok then [e] else []) /\ (forall i, i <> j -> moved s s' i []) /\
  clock s <= clock s' <= clock s + Z.of_nat n /\ disposed s' = disposed s.
Proof.
  intros Hq Hj Hc He. revert s qs Hq. induction n as [|n IH]; intros s qs Hq.
  { simpl. split_and!; try done; try lia; intros; by apply moved_same. }
  cbn [retry]. assert (queue_is (count_try s) j qs) as Hq' by exact Hq.
  pose proof (try_send_spec e cells (count_try s) j qs Hq' Hj Hc He) as HT.
  destruct (try_send cset me env e cells (count_try s)) as [ok s1]. destruct HT as (Hm & Ho & Hk & Hd & _). simpl in Hk, Hd.
  destruct ok.
  - split_and!; try done; try lia.
  - destruct (queue_is_moved _ _ _ _ _ Hm Hq') as [qs1 Hq1]. specialize (IH s1 qs1 Hq1).
    destruct (retry cset me env n e cells s1) as [ok s2]. destruct IH as (Hm2 & Ho2 & Hk2 & Hd2).
    split_and!; try lia.
    + apply (moved_trans s s1 s2 j [] _ Hm Hm2).
    + intros i Hi. apply (moved_trans s s1 s2 i [] [] (Ho i Hi) (Ho2 i Hi)).
    + congruence.
Qed.

(** What a flush makes of the events it goes past, in order: sent, disposed of when wider
    than a ring, or dropped when best-effort. *)
Inductive flushed : list event -> list event -> list event -> Prop :=
| flushed_nil : flushed [] [] []
| flushed_sent e es sent disp :
    bucket_size e <= kMaxDeliverableBuckets -> flushed es sent disp -> flushed (e :: es) (e :: sent) disp
| flushed_oversize e es sent disp :
    kMaxDeliverableBuckets < bucket_size e -> flushed es sent disp -> flushed (e :: es) sent (e :: disp)
| flushed_dropped e es sent disp :
    getQOS e = 0 -> flushed es sent disp -> flushed (e :: es) sent disp.

(** Events that must not be lost. *)
Definition guaranteed (e : event) : bool := negb (getQOS e =? 0) && (bucket_size e <=? kMaxDeliverableBuckets).

(** The outcome of the loop started at the event list [es] behind [done]. *)
Record flush_post (done es : list event) (j : Z) s (x : flush_exit) s' : Prop := FlushPost {
  fp_split : exists es1 es2 sent disp, es = es1 ++ es2 /\ flushed es1 sent disp /\
    moved s s' j sent /\ disposed s' = disposed s ++ disp /\
    match x with
    | Drained => es2 = []
    | Partial cur => cur = zlen (stream (done ++ es1)) /\ exists e rest, es2 = e :: rest /\ guaranteed e = true
    | NotAnEvent => False
    end;
  fp_other i : i <> j -> moved s s' i [];
  fp_clock : clock s <= clock s' <= clock s + (kFlushYieldAttempts + 1) * zlen es
}.

(** The loop goes past one event. *)
Lemma flush_post_cons done e es j s s1 x s' sent disp :
  flushed [e] sent disp -> moved s s1 j sent -> (forall i, i <> j -> moved s s1 i []) ->
  disposed s1 = disposed s ++ disp -> clock s <= clock s1 <= clock s + (kFlushYieldAttempts + 1) ->
  flush_post (done ++ [e]) es j s1 x s' -> flush_post done (e :: es) j s x s'.
Proof.
  intros Hf Hm Ho Hd Hc [(es1 & es2 & sent' & disp' & -> & Hf' & Hm' & Hd' & Hx) Ho' Hc']. split.
  - exists (e :: es1), es2, (sent ++ sent'), (disp ++ disp'). split_and!; [done| | | |].
    + inversion Hf; subst; try match goal with H : flushed [] _ _ |- _ => inversion H; subst end; simpl; by constructor.
    + by eapply moved_trans.
    + by rewrite Hd', Hd, app_assoc.
    + destruct x; [done| |done]. by rewrite <- app_assoc in Hx.
  - intros i Hi. apply (moved_trans s s1 s' i [] []); auto.
  - unfold zlen in *. simpl length. lia.
Qed.

Lemma zslice_mid {A} (pre k rest : list A) : zslice (pre ++ k ++ rest) (zlen pre) (zlen k) = k.
Proof. rewrite zslice_app_r, zslice_app_l by lia. apply zslice_all. Qed.

Lemma flush_loop_spec fuel done es s j qs items :
  items = stream (done ++ es) -> Forall event_ok es ->
  Forall (fun e => resolve (index (dest e)) cset = j) es -> (length es < fuel)%nat -> queue_is s j qs ->
  let '(x, s') := flush_loop cset me env fuel items (zlen (stream done)) s in flush_post done es j s x s'.
Proof.
  revert done es s qs. induction fuel as [|fuel IH]; intros done es s qs -> Hok Hdest Hfuel Hq; [lia|]. cbn [flush_loop].
  destruct Hok as [|e es He Hok].
  { rewrite app_nil_r. destruct (Z.leb_spec (zlen (stream done)) (zlen (stream done))); [|lia]. split.
    - exists [], [], [], []. split_and!; [done|apply flushed_nil|by apply moved_same|by rewrite app_nil_r|done].
    - intros i _. by apply moved_same.
    - unfold zlen. simpl. lia. }
  apply Forall_cons in Hdest as [Hj Hdest]. simpl in Hfuel.
  assert (stream (done ++ e :: es) = stream done ++ encode e ++ stream es) as Es by by rewrite stream_app.
  pose proof (zlen_stream_pos e es He). rewrite Es.
  destruct (Z.leb_spec (zlen (stream done ++ encode e ++ stream es)) (zlen (stream done))) as [Hle|_].
  { rewrite zlen_app in Hle. rewrite stream_cons in *. lia. }
  rewrite event_at_mid. rewrite <- (zlen_encode e He), zslice_mid.
  assert (zlen (stream done) + zlen (encode e) = zlen (stream (done ++ [e]))) as Enext.
  { by rewrite stream_snoc, zlen_app. }
  rewrite Enext. rewrite <- Es.
  assert (stream (done ++ e :: es) = stream ((done ++ [e]) ++ es)) as Es' by by rewrite <- app_assoc.
  pose proof (try_send_spec e (encode e) (count_try s) j qs Hq Hj eq_refl He) as HT.
  destruct (try_send cset me env e (encode e) (count_try s)) as [ok s1]. destruct HT as (Hm & Ho & Hc & Hd & Hfit).
  simpl in Hc, Hd. change (mail_boxes (count_try s)) with (mail_boxes s) in *.
  destruct (queue_is_moved _ _ _ _ _ Hm Hq) as [qs1 Hq1].
  assert (forall s2 qs2 sent disp, flushed [e] sent disp -> moved s s2 j sent -> (forall i, i <> j -> moved s s2 i []) ->
            disposed s2 = disposed s ++ disp -> clock s <= clock s2 <= clock s + (kFlushYieldAttempts + 1) ->
            queue_is s2 j qs2 ->
            let '(x, s') := flush_loop cset me env fuel (stream (done ++ e :: es)) (zlen (stream (done ++ [e]))) s2 in
            flush_post done (e :: es) j s x s') as Hnext.
  { intros s2 qs2 sent disp ? ? ? ? ? Hq2. specialize (IH (done ++ [e]) es s2 qs2 Es' Hok Hdest ltac:(lia) Hq2).
    destruct (flush_loop _ _ _ _ _ _ s2) as [x s']. by eapply flush_post_cons. }
  unfold kFlushYieldAttempts in *. destruct ok.
  { apply (Hnext _ qs1 [e] []); try done; simpl; [constructor; [by apply Hfit|constructor]|by rewrite app_nil_r|lia]. }
  rewrite (zlen_encode e He). destruct (Z.eqb_spec (bucket_size e) 0) as [E0|_]; [destruct He; lia|].
  destruct (Z.ltb_spec kMaxDeliverableBuckets (bucket_size e)) as [Hbig|Hsmall].
  { apply (Hnext _ qs1 [] [e]); try done; simpl; [constructor; [done|constructor]|by rewrite Hd|lia]. }
  destruct (Z.eqb_spec (getQOS e) 0) as [Hqos|Hqos].
  { apply (Hnext _ qs1 [] []); try done; simpl; [constructor; [done|constructor]|by rewrite app_nil_r|lia]. }
  pose proof (retry_spec 512 e (encode e) s1 j qs1 Hq1 Hj eq_refl He) as HR.
  change (Z.to_nat 512) with 512%nat in *. destruct (retry cset me env 512 e (encode e) s1) as [sent s2].
  destruct HR as (Hm2 & Ho2 & Hc2 & Hd2). destruct (queue_is_moved _ _ _ _ _ Hm2 Hq1) as [qs2 Hq2].
  pose proof (moved_trans _ _ _ _ _ _ Hm Hm2) as Hm12.
  assert (forall i, i <> j -> moved s s2 i []) as Ho12 
    by (intros i Hi; exact (moved_trans s s1 s2 i [] [] (Ho i Hi) (Ho2 i Hi))).
  assert (disposed s2 = disposed s ++ []) as Hd12 by (rewrite app_nil_r; congruence). destruct sent.
  { apply (Hnext _ qs2 [e] []); try done; simpl; [constructor; [done|constructor]|lia]. }
  split; [|done|unfold zlen, kFlushYieldAttempts; simpl length; lia].
  exists [], (e :: es), [], []. split_and!; [done|constructor|exact Hm12|done|by rewrite app_nil_r|].
  exists e, es. split; [done|]. unfold guaranteed. apply andb_true_iff. split; [by apply negb_true_iff, Z.eqb_neq|by apply Z.leb_le].
Qed.

(** A pipe holds the events [es], all of them for core [j]. *)
Definition holds (p : P) (j : Z) es : Prop :=
  pp_ok p /\ pp_items p = stream es /\ Forall event_ok es /\ Forall (fun e => resolve (index (dest e)) cset = j) es.

Definition pipe_is (pipes : list P) (j : Z) es : Prop := exists p, zget pipes j = Some p /\ holds p j es.

Lemma stream_length es : Forall event_ok es -> (length es <= length (stream es))%nat.
Proof.
  induction 1 as [|e es He _ IH]; [done|]. rewrite stream_cons, length_app. simpl length at 1.
  pose proof (zlen_encode e He) as Hl. destruct He. unfold zlen in Hl. lia.
Qed.

Lemma flush_pipe_spec j p es s qs :
  holds p j es -> queue_is s j qs ->
  let '(p', s') := flush_pipe cset me env p s in
  exists es1 es2 sent disp, es = es1 ++ es2 /\ flushed es1 sent disp /\ moved s s' j sent /\
    (forall i, i <> j -> moved s s' i []) /\ disposed s' = disposed s ++ disp /\
    clock s <= clock s' <= clock s + (kFlushYieldAttempts + 1) * zlen es /\
    pp_ok p' /\ pp_items p' = stream es2 /\ match es2 with [] => True | e :: _ => guaranteed e = true end.
Proof.
  intros (Hok & Hit & Hes & Hdest) Hq. unfold flush_pipe. pose proof (stream_length es Hes) as Hlen.
  pose proof (flush_loop_spec (S (length (pp_items p))) [] es s j qs (pp_items p) Hit Hes Hdest
                ltac:(rewrite Hit; lia) Hq) as HL.
  change (zlen (stream [])) with 0 in HL. destruct (flush_loop _ _ _ _ _ 0 s) as [x s'].
  destruct HL as [(es1 & es2 & sent & disp & -> & Hf & Hm & Hd & Hx) Ho Hc].
  destruct x as [|cur|]; [| |done].
  - subst es2. destruct (pp_reset_law p Hok) as [Hok' Hit'].
    exists es1, [], sent, disp. by split_and!; try lia.
  - destruct Hx as (-> & e & rest & -> & Hge). simpl. rewrite stream_app in Hit.
    pose proof (zlen_nonneg (stream es1)). pose proof (zlen_nonneg (stream (e :: rest))).
    destruct (pp_skip_law (zlen (stream es1)) p Hok) as [Hok' Hit'].
    { rewrite Hit, zlen_app. lia. }
    exists es1, (e :: rest), sent, disp. split_and!; try done; try lia.
    rewrite Hit', Hit, zlen_app, zslice_app_r. replace (_ + _ - _) with (zlen (stream (e :: rest))) by lia.
    apply zslice_all.
Qed.

(** What a flush does to the link towards [j]. *)
Definition link_flushed (p : P) s (p' : P) s' (j : Z) : Prop :=
  forall es qs, holds p j es -> queue_is s j qs ->
  exists es1 es2 sent disp taken qs', es = es1 ++ es2 /\ flushed es1 sent disp /\
    holds p' j es2 /\ queue_is s' j qs' /\ qs ++ sent = taken ++ qs' /\
    arrivals s' j = arrivals s j ++ stream taken /\
    match es2 with [] => True | e :: _ => guaranteed e = true end.

Lemma link_flushed_before p s s1 p' s' j : moved s s1 j [] -> link_flushed p s1 p' s' j -> link_flushed p s p' s' j.
Proof.
  intros Hm Hl es qs Hp Hq. destruct (Hm qs Hq) as (t1 & qs1 & Hq1 & E1 & A1). rewrite app_nil_r in E1.
  destruct (Hl es qs1 Hp Hq1) as (es1 & es2 & sent & disp & t2 & qs' & He & Hf & Hp' & Hq' & E2 & A2 & Hx).
  exists es1, es2, sent, disp, (t1 ++ t2), qs'. split_and!; try done; [by rewrite E1, <- !app_assoc, E2|].
  by rewrite A2, A1, stream_app, app_assoc.
Qed.

Lemma link_flushed_after p s p' s1 s' j : link_flushed p s p' s1 j -> moved s1 s' j [] -> link_flushed p s p' s' j.
Proof.
  intros Hl Hm es qs Hp Hq. destruct (Hl es qs Hp Hq) as (es1 & es2 & sent & disp & t1 & qs1 & He & Hf & Hp' & Hq1 & E1 & A1 & Hx).
  destruct (Hm qs1 Hq1) as (t2 & qs' & Hq' & E2 & A2). rewrite app_nil_r in E2.
  exists es1, es2, sent, disp, (t1 ++ t2), qs'. split_and!; try done; [by rewrite E1, E2, app_assoc|].
  by rewrite A2, A1, stream_app, app_assoc.
Qed.

Lemma link_flushed_empty p s s' j : zlen (pp_items p) = 0 -> moved s s' j [] -> link_flushed p s p s' j.
Proof.
  intros Hz Hm es qs Hp Hq. assert (es = []) as ->.
  { destruct Hp as (_ & Hit & _). rewrite Hit in Hz. by apply stream_nil_inv, zlen_nil_inv. }
  destruct (Hm qs Hq) as (t & qs' & Hq' & E & A). exists [], [], [], [], t, qs'. split_and!; try done. constructor.
Qed.

Lemma Forall_app_r {A} (Q : A -> Prop) (l k : list A) : Forall Q (l ++ k) -> Forall Q k.
Proof. by rewrite Forall_app; intros [_ ?]. Qed.

Lemma flush_pipe_link j p s :
  (exists es qs, holds p j es /\ queue_is s j qs) ->
  let '(p', s') := flush_pipe cset me env p s in
  link_flushed p s p' s' j /\ (forall i, i <> j -> moved s s' i []) /\ exists qs', queue_is s' j qs'.
Proof.
  intros (es0 & qs0 & Hp0 & Hq0). pose proof (fun es qs => flush_pipe_spec j p es s qs) as HF.
  destruct (flush_pipe cset me env p s) as [p' s'].
  destruct (HF es0 qs0 Hp0 Hq0) as (? & ? & sent0 & ? & _ & _ & Hm0 & Ho & _).
  split_and!; [|done|by eapply queue_is_moved]. intros es qs Hp Hq.
  destruct (HF es qs Hp Hq) as (es1 & es2 & sent & disp & -> & Hf & Hm & _ & _ & _ & Hok & Hit & Hx).
  destruct (Hm qs Hq) as (t & qs' & Hq' & E & A). exists es1, es2, sent, disp, t, qs'. split_and!; try done.
  destruct Hp as (_ & _ & H1%Forall_app_r & H2%Forall_app_r). done.
Qed.

Lemma zget_cons {A} (x : A) (l : list A) k : zget (x :: l) k = if k =? 0 then Some x else zget l (k - 1).
Proof.
  unfold zget. destruct (Z.ltb_spec k 0), (Z.eqb_spec k 0), (Z.ltb_spec (k - 1) 0); try lia; try done; [by subst|].
  replace (Z.to_nat k) with (S (Z.to_nat (k - 1))) by lia. done.
Qed.

(** [__flush_all__] from pipe [idx] on: every other core's link is flushed, this core's own
    pipe is left alone. *)
Lemma flush_all_from_spec idx pipes s :
  0 <= idx ->
  (forall k p, zget pipes k = Some p -> idx + k <> me -> exists es qs, holds p (idx + k) es /\ queue_is s (idx + k) qs) ->
  let '(_, pipes', s') := flush_all_from cset me env idx pipes s in
  (forall k p, zget pipes k = Some p -> exists p', zget pipes' k = Some p' /\
     if idx + k =? me then p' = p else link_flushed p s p' s' (idx + k)) /\
  (forall j, j < idx \/ j = me -> moved s s' j []).
Proof.
  revert idx s. induction pipes as [|p pipes IH]; intros idx s Hidx Hall; cbn [flush_all_from].
  { split; [|intros; by apply moved_same]. intros k p. unfold zget. by zcase. }
  assert (forall k q, zget pipes k = Some q -> zget (p :: pipes) (k + 1) = Some q) as Htl.
  { intros k q Hk. pose proof (zget_Some_range _ _ _ Hk). rewrite zget_cons. destruct (Z.eqb_spec (k + 1) 0); [lia|].
    by replace (k + 1 - 1) with k by lia. }
  assert (forall s1, (forall i, i <> idx -> moved s s1 i []) -> forall k q, zget pipes k = Some q -> idx + 1 + k <> me ->
            exists es qs, holds q (idx + 1 + k) es /\ queue_is s1 (idx + 1 + k) qs) as Hrest.
  { intros s1 Hm k q Hk Hne. destruct (Hall (k + 1) q (Htl k q Hk) ltac:(lia)) as (es & qs & He & Hq).
    replace (idx + (k + 1)) with (idx + 1 + k) in * by lia. pose proof (zget_Some_range _ _ _ Hk).
    destruct (queue_is_moved _ _ _ _ _ (Hm (idx + 1 + k) ltac:(lia)) Hq) as [qs' Hq']. eauto. }
  destruct ((idx =? me) || (zlen (pp_items p) =? 0)) eqn:Eskip.
  - specialize (IH (idx + 1) s ltac:(lia) (Hrest s ltac:(intros; by apply moved_same))).
    destruct (flush_all_from _ _ _ _ pipes s) as [[any pipes'] s']. destruct IH as [IH1 IH2]. split; [|intros; apply IH2; lia].
    intros k q. rewrite !zget_cons. destruct (Z.eqb_spec k 0) as [->|Hk].
    + intros [= <-]. exists p. split; [done|]. rewrite Z.add_0_r. destruct (Z.eqb_spec idx me); [done|]. simpl in Eskip.
      apply link_flushed_empty; [by apply Z.eqb_eq|]. apply IH2. lia.
    + intros Hq. destruct (IH1 (k - 1) q Hq) as (q' & Hq' & Hl). exists q'. split; [done|].
      by replace (idx + 1 + (k - 1)) with (idx + k) in Hl by lia.
  - apply orb_false_iff in Eskip as [Eme%Z.eqb_neq _].
    pose proof (flush_pipe_link idx p s) as HF. destruct (flush_pipe cset me env p s) as [p' s1].
    destruct HF as (Hl & Ho & _).
    { destruct (Hall 0 p) as (es & qs & He & Hq); [done|lia|]. rewrite Z.add_0_r in *. eauto. }
    specialize (IH (idx + 1) s1 ltac:(lia) (Hrest s1 Ho)).
    destruct (flush_all_from _ _ _ _ pipes s1) as [[any pipes'] s']. destruct IH as [IH1 IH2].
    split; [|intros j Hj; apply (moved_trans s s1 s' j [] []); [apply Ho; lia|apply IH2; lia]].
    intros k q. rewrite !zget_cons. destruct (Z.eqb_spec k 0) as [->|Hk].
    + intros [= <-]. exists p'. split; [done|]. rewrite Z.add_0_r. destruct (Z.eqb_spec idx me); [done|].
      apply (link_flushed_after p s p' s1); [done|]. apply IH2. lia.
    + intros Hq. destruct (IH1 (k - 1) q Hq) as (q' & Hq' & Hlk). exists q'. split; [done|].
      replace (idx + 1 + (k - 1)) with (idx + k) in Hlk by lia. pose proof (zget_Some_range _ _ _ Hq).
      destruct (idx + k =? me); [done|]. apply (link_flushed_before q s s1); [apply Ho; lia|done].
Qed.

(** ** Runs of a sending core *)

Inductive out_op := OPush (e : event) | OSend (e : event) | OFlush.

Definition out_step (_index : Z) (o : out_op) (st : list P * net M) : option (list P * net M) :=
  let '(pipes, s) := st in
  match o with
  | OPush e => pipes' ← push cset e pipes; Some (pipes', s)
  | OSend e => send cset me env _index e pipes s
  | OFlush => let '(_, pipes', s') := __flush_all__ cset me env pipes s in Some (pipes', s')
  end.

Fixpoint out_run (_index : Z) (os : list out_op) (st : list P * net M) : option (list P * net M) :=
  match os with
  | [] => Some st
  | o :: os => st ← out_step _index o st; out_run _index os st
  end.

(** The events a run addressed to core [j], all of them or only the pushed ones. *)
Definition to_core (j : Z) (e : event) : bool := resolve (index (dest e)) cset =? j.

Definition addressed (j : Z) (o : out_op) : option event :=
  match o with
  | OPush e | OSend e => if to_core j e then Some e else None
  | OFlush => None
  end.

Definition pushed (j : Z) (o : out_op) : option event :=
  match o with
  | OPush e => if to_core j e then Some e else None
  | _ => None
  end.

Definition sel (f : event -> bool) es : list event := filter (fun e => f e = true) es.

(** [ordered] tells the pushed events of a run from the sent ones. *)
Context (ordered : event -> bool).

Definition op_ok (o : out_op) : Prop :=
  match o with
  | OPush e => event_ok e /\ ordered e = true
  | OSend e => event_ok e /\ ordered e = false
  | OFlush => True
  end.

Definition in_order (e : event) : bool := guaranteed e && ordered e.

(** The events on their way to [j], those that arrived first. *)
Definition link_inv (hist : list out_op) (j : Z) (st : list P * net M) : Prop :=
  exists arrived qs es, arrivals st.2 j = stream arrived /\ queue_is st.2 j qs /\ pipe_is st.1 j es /\
    sel in_order (arrived ++ qs ++ es) = sel guaranteed (omap (pushed j) hist) /\
    sel guaranteed (arrived ++ qs ++ es) ≡ₚ sel guaranteed (omap (addressed j) hist).

Lemma sel_app f es es' : sel f (es ++ es') = sel f es ++ sel f es'.
Proof. apply filter_app. Qed.

Lemma sel_one f e : sel f [e] = if f e then [e] else [].
Proof. unfold sel. destruct (f e) eqn:E; [by rewrite filter_cons_True|by rewrite filter_cons_False by congruence]. Qed.

Lemma flushed_sel es sent disp :
  flushed es sent disp -> sel guaranteed es = sel guaranteed sent /\ sel in_order es = sel in_order sent.
Proof.
  assert (forall e es, guaranteed e = false -> sel guaranteed (e :: es) = sel guaranteed es /\ sel in_order (e :: es) = sel in_order es)
    as Hskip.
  { intros e es' Hg. change (e :: es') with ([e] ++ es'). rewrite !sel_app, !sel_one. unfold in_order. by rewrite Hg. }
  induction 1 as [|e es sent disp Hb _ [IH1 IH2]|e es sent disp Hb _ [IH1 IH2]|e es sent disp Hb _ [IH1 IH2]]; [done| | |].
  - change (e :: es) with ([e] ++ es). change (e :: sent) with ([e] ++ sent). by rewrite !sel_app, IH1, IH2.
  - destruct (Hskip e es) as [-> ->]; [|done]. unfold guaranteed.
    destruct (Z.leb_spec (bucket_size e) kMaxDeliverableBuckets); [lia|]. apply andb_false_r.
  - destruct (Hskip e es) as [-> ->]; [|done]. unfold guaranteed. by rewrite Hb.
Qed.

Lemma holds_push p j es e p' :
  holds p j es -> event_ok e -> to_core j e = true -> pp_push (encode e) p = Some p' -> holds p' j (es ++ [e]).
Proof.
  intros (Hok & Hit & Hes & Hd) He Hj%Z.eqb_eq Hp. pose proof (zlen_encode e He). destruct He as [He1 He2].
  destruct (pp_push_law (encode e) p p' Hok ltac:(lia) Hp) as [Hok' Hit'].
  split_and!; [done|by rewrite Hit', Hit, stream_snoc| |]; apply Forall_app; (split; [done|]); by constructor.
Qed.

Lemma holds_recycle p j es e p' :
  holds p j es -> event_ok e -> to_core j e = true -> pp_recycle (encode e) p = Some p' ->
  holds p' j (es ++ [e]) \/ holds p' j (e :: es).
Proof.
  intros (Hok & Hit & Hes & Hd) He Hj%Z.eqb_eq Hp. pose proof (zlen_encode e He). pose proof He as [He1 He2].
  destruct (pp_recycle_law (encode e) p p' Hok ltac:(lia) Hp) as [Hok' [Hit'|Hit']]; [left|right];
    (split; [done|]); (split; [rewrite Hit', Hit; by rewrite ?stream_snoc|]); split;
    try (by constructor); apply Forall_app; (split; [done|]); by constructor.
Qed.

(** An event put anywhere among those on their way. *)
Lemma sel_insert f pre post e : sel f (pre ++ e :: post) ≡ₚ sel f (pre ++ post) ++ sel f [e].
Proof.
  change (e :: post) with ([e] ++ post). rewrite !sel_app, <- app_assoc. apply Permutation_app_head, Permutation_app_comm.
Qed.

Lemma sel_insert_none f pre post e : f e = false -> sel f (pre ++ e :: post) = sel f (pre ++ post).
Proof. intros He. change (e :: post) with ([e] ++ post). by rewrite !sel_app, sel_one, He. Qed.

(** An event sent, not pushed, joins the link at any place. *)
Lemma link_inv_sent hist j st' e pre post arrived' qs' es' arrived qs es :
  to_core j e = true -> ordered e = false ->
  sel in_order (arrived ++ qs ++ es) = sel guaranteed (omap (pushed j) hist) ->
  sel guaranteed (arrived ++ qs ++ es) ≡ₚ sel guaranteed (omap (addressed j) hist) ->
  arrived ++ qs ++ es = pre ++ post -> arrived' ++ qs' ++ es' = pre ++ e :: post ->
  arrivals st'.2 j = stream arrived' -> queue_is st'.2 j qs' -> pipe_is st'.1 j es' ->
  link_inv (hist ++ [OSend e]) j st'.
Proof.
  intros Hj Ho H1 H2 E E' A Hq Hp. exists arrived', qs', es'. split_and!; [done|done|done| |]; rewrite E', omap_app; simpl.
  - rewrite sel_insert_none, <- E, H1, app_nil_r; [done|]. unfold in_order. by rewrite Ho, andb_false_r.
  - rewrite sel_insert, <- E, H2, Hj, sel_app. done.
Qed.

(** An operation that neither addresses core [j] nor touches its pipe. *)
Lemma link_inv_other hist j pipes s pipes' s' o :
  addressed j o = None -> pushed j o = None -> zget pipes' j = zget pipes j -> moved s s' j [] ->
  link_inv hist j (pipes, s) -> link_inv (hist ++ [o]) j (pipes', s').
Proof.
  intros Ha Hp Hz Hm (arrived & qs & es & A & Hq & (p & Hg & Hh) & H1 & H2). simpl in *.
  destruct (Hm qs Hq) as (taken & qs' & Hq' & E & A'). rewrite app_nil_r in E. subst qs.
  exists (arrived ++ taken), qs', es. split_and!; [simpl; by rewrite A', A, stream_app|done|exists p; simpl; by rewrite Hz| |];
    rewrite omap_app; simpl; rewrite ?Ha, ?Hp; simpl; rewrite app_nil_r, <- !app_assoc in *; done.
Qed.

Lemma to_core_resolve j e : to_core j e = bool_decide (resolve (index (dest e)) cset = j).
Proof. unfold to_core. by case_bool_decide; [apply Z.eqb_eq|apply Z.eqb_neq]. Qed.

Lemma push_step_inv hist j pipes s pipes' e :
  event_ok e -> ordered e = true -> push cset e pipes = Some pipes' -> link_inv hist j (pipes, s) ->
  link_inv (hist ++ [OPush e]) j (pipes', s).
Proof.
  intros He Hord Hpush Hinv. unfold push in Hpush. apply bind_Some in Hpush as (p & Hg & Hpush).
  apply bind_Some in Hpush as (p' & Hp' & [= <-]). pose proof (zget_Some_range _ _ _ Hg).
  destruct (decide (resolve (index (dest e)) cset = j)) as [Hj|Hj].
  - assert (to_core j e = true) as Hto by by apply Z.eqb_eq. rewrite Hj in *.
    destruct Hinv as (arrived & qs & es & A & Hq & (p0 & Hg0 & Hh) & H1' & H2'). simpl in *.
    assert (p0 = p) as -> by congruence. pose proof (holds_push p j es e p' Hh He Hto Hp') as Hh'.
    exists arrived, qs, (es ++ [e]). split_and!; [done|done|exists p'; simpl; by rewrite zget_put_eq| |];
      replace (arrived ++ qs ++ es ++ [e]) with ((arrived ++ qs ++ es) ++ [e]) by (by rewrite <- !app_assoc);
      rewrite omap_app, (sel_app _ (arrived ++ qs ++ es) [e]), (sel_app _ (omap _ hist)); simpl; rewrite Hto; simpl.
    + rewrite H1'. f_equal. rewrite !sel_one. unfold in_order. by rewrite Hord, andb_true_r.
    + by rewrite H2'.
  - eapply link_inv_other; [| | |by apply moved_same|done]; simpl;
      [by rewrite to_core_resolve, bool_decide_eq_false_2|by rewrite to_core_resolve, bool_decide_eq_false_2|].
    by rewrite zget_put_ne.
Qed.

Lemma recycle_inv hist j s1 pipes s pipes' e p p' :
  event_ok e -> ordered e = false -> to_core j e = true -> moved s s1 j [] ->
  zget pipes j = Some p -> pp_recycle (encode e) p = Some p' -> pipes' = zput pipes j p' ->
  link_inv hist j (pipes, s) -> link_inv (hist ++ [OSend e]) j (pipes', s1).
Proof.
  intros He Hord Hto Hm Hg Hp' -> (arrived & qs & es & A & Hq & (p0 & Hg0 & Hh) & H1' & H2'). simpl in *.
  assert (p0 = p) as -> by congruence. destruct (Hm qs Hq) as (taken & qs' & Hq' & E & A'). rewrite app_nil_r in E. subst qs.
  pose proof (zget_Some_range _ _ _ Hg). rewrite <- !app_assoc in *. rewrite A, <- stream_app in A'.
  destruct (holds_recycle p j es e p' Hh He Hto Hp') as [Hh'|Hh'].
  - eapply (link_inv_sent hist j _ e (arrived ++ taken ++ qs' ++ es) [] (arrived ++ taken) qs' (es ++ [e])
             arrived (taken ++ qs') es); try done; rewrite ?app_nil_r, <- ?app_assoc; try done.
    exists p'. simpl. by rewrite zget_put_eq.
  - eapply (link_inv_sent hist j _ e (arrived ++ taken ++ qs') es (arrived ++ taken) qs' (e :: es)
             arrived (taken ++ qs') es); try done; rewrite <- ?app_assoc; try done.
    exists p'. simpl. by rewrite zget_put_eq.
Qed.

Lemma send_step_inv hist _index j pipes s pipes' s' e :
  j <> me -> resolve _index cset = me -> event_ok e -> ordered e = false ->
  send cset me env _index e pipes s = Some (pipes', s') -> link_inv hist j (pipes, s) ->
  link_inv (hist ++ [OSend e]) j (pipes', s').
Proof.
  intros Hjme Hidx He Hord Hsend Hinv. unfold send in Hsend.
  destruct (decide (resolve (index (dest e)) cset = j)) as [Hj|Hj].
  - assert (to_core j e = true) as Hto by by apply Z.eqb_eq.
    destruct (Z.eqb_spec (index (dest e)) _index) as [E|_]; [congruence|].
    destruct Hinv as (arrived & qs & es & A & Hq & Hp & H1' & H2'). simpl in *.
    pose proof (try_send_spec e (encode e) s j qs Hq Hj eq_refl He) as HT.
    destruct (try_send cset me env e (encode e) s) as [ok s1]. destruct HT as (Hm & _ & _ & _ & _). destruct ok.
    + injection Hsend as <- <-. destruct (Hm qs Hq) as (taken & qs' & Hq' & E & A').
      rewrite A, <- stream_app in A'.
      eapply (link_inv_sent hist j _ e (arrived ++ qs) es (arrived ++ taken) qs' es arrived qs es); try done;
        rewrite <- ?app_assoc; try done. by rewrite (app_assoc taken), <- E, <- app_assoc.
    + apply bind_Some in Hsend as (p & Hg & Hsend). apply bind_Some in Hsend as (p' & Hp' & [= <- <-]). rewrite Hj in *.
      eapply (recycle_inv hist j s1 pipes s _ e p p'); try done. by exists arrived, qs, es.
  - assert (to_core j e = false) as Hto by by apply Z.eqb_neq.
    assert (forall s1 r, moved s s1 j [] ->
              (p ← zget pipes (resolve (index (dest e)) cset); p' ← pp_recycle (encode e) p;
               Some (zput pipes (resolve (index (dest e)) cset) p', s1)) = Some r ->
              link_inv (hist ++ [OSend e]) j r) as Hrec.
    { intros s1 r Hm Hr. apply bind_Some in Hr as (p & Hg & Hr). apply bind_Some in Hr as (p' & Hp' & [= <-]).
      eapply link_inv_other; [simpl; by rewrite Hto|done| |exact Hm|exact Hinv]. by rewrite zget_put_ne by done. }
    destruct (index (dest e) =? _index); [by apply (Hrec s); [apply moved_same|]|].
    pose proof (try_send_other e (encode e) s j ltac:(done)) as Hm.
    destruct (try_send cset me env e (encode e) s) as [ok s1]. simpl in Hm. destruct ok; [|by apply (Hrec s1)].
    injection Hsend as <- <-. eapply link_inv_other; [simpl; by rewrite Hto|done|done|exact Hm|exact Hinv].
Qed.

Lemma link_flushed_inv hist j pipes s pipes' s' p p' :
  zget pipes j = Some p -> zget pipes' j = Some p' -> link_flushed p s p' s' j ->
  link_inv hist j (pipes, s) -> link_inv (hist ++ [OFlush]) j (pipes', s').
Proof.
  intros Hg Hg' Hl (arrived & qs & es & A & Hq & (p0 & Hg0 & Hh) & H1' & H2'). simpl in *.
  assert (p0 = p) as -> by congruence.
  destruct (Hl es qs Hh Hq) as (es1 & es2 & sent & disp & taken & qs' & -> & Hf & Hh' & Hq' & E & A' & _).
  destruct (flushed_sel es1 sent disp Hf) as [Hs1 Hs2].
  assert ((arrived ++ taken) ++ qs' ++ es2 = arrived ++ qs ++ sent ++ es2) as Eall.
  { rewrite (app_assoc qs), E. by rewrite <- !app_assoc. }
  exists (arrived ++ taken), qs', es2. split_and!; [simpl; by rewrite A', A, stream_app|done|by exists p'| |]; rewrite Eall, omap_app; simpl; rewrite app_nil_r;
    [rewrite <- H1'|rewrite <- H2']; rewrite !sel_app, ?Hs1, ?Hs2; done.
Qed.

Definition all_links (hist : list out_op) (n : Z) (st : list P * net M) : Prop :=
  zlen st.1 = n /\ forall j, 0 <= j < n -> j <> me -> link_inv hist j st.

Lemma flush_all_length idx pipes s : zlen (flush_all_from cset me env idx pipes s).1.2 = zlen pipes.
Proof.
  revert idx s. induction pipes as [|p pipes IH]; intros idx s; cbn [flush_all_from]; [done|]. unfold zlen in *. destruct (_ || _).
  - specialize (IH (idx + 1) s). destruct (flush_all_from _ _ _ _ pipes s) as [[any1 pipes1] s1]. simpl in *. lia.
  - destruct (flush_pipe _ _ _ p s) as [p1 s0]. specialize (IH (idx + 1) s0).
    destruct (flush_all_from _ _ _ _ pipes s0) as [[any1 pipes1] s1]. simpl in *. lia.
Qed.

Lemma flush_step_inv hist n pipes s :
  all_links hist n (pipes, s) ->
  let '(_, pipes', s') := __flush_all__ cset me env pipes s in all_links (hist ++ [OFlush]) n (pipes', s').
Proof.
  intros [Hn Hinv]. simpl in Hn. unfold __flush_all__. pose proof (flush_all_from_spec 0 pipes s ltac:(lia)) as HF.
  destruct (flush_all_from cset me env 0 pipes s) as [[any pipes'] s'] eqn:Ef. destruct HF as [HF _].
  { intros k p Hk Hne. pose proof (zget_Some_range _ _ _ Hk). rewrite Z.add_0_l in *.
    destruct (Hinv k ltac:(lia) Hne) as (arrived & qs & es & _ & Hq & (p0 & Hg0 & Hh) & _). simpl in *.
    assert (p0 = p) as -> by congruence. eauto. }
  pose proof (flush_all_length 0 pipes s) as Hn'. rewrite Ef in Hn'. simpl in Hn'.
  split; [simpl; lia|]. intros j Hj Hne. destruct (zget_in_range pipes j ltac:(lia)) as [p Hp].
  destruct (HF j p Hp) as (p' & Hp' & Hl). rewrite Z.add_0_l in Hl. destruct (Z.eqb_spec j me); [done|].
  apply (link_flushed_inv hist j pipes s pipes' s' p p' Hp Hp' Hl). by apply Hinv.
Qed.

Lemma out_step_inv hist n _index o st st' :
  resolve _index cset = me -> op_ok o -> out_step _index o st = Some st' ->
  all_links hist n st -> all_links (hist ++ [o]) n st'.
Proof.
  intros Hidx Ho Hstep Hinv. destruct st as [pipes s]. pose proof Hinv as [Hn Hlink]. simpl in *.
  destruct o as [e|e|]; simpl in *.
  - apply bind_Some in Hstep as (pipes' & Hpush & [= <-]). destruct Ho as [He Hord]. split.
    + unfold push in Hpush. apply bind_Some in Hpush as (p & _ & Hpush).
      apply bind_Some in Hpush as (p' & _ & [= <-]). simpl. by rewrite zlen_put.
    + intros j Hj Hne. eapply push_step_inv; try done. by apply Hlink.
  - destruct st' as [pipes' s']. destruct Ho as [He Hord]. split.
    + unfold send in Hstep. simpl.
      assert (forall s1, (p ← zget pipes (resolve (index (dest e)) cset); p' ← pp_recycle (encode e) p;
                Some (zput pipes (resolve (index (dest e)) cset) p', s1)) = Some (pipes', s') -> zlen pipes' = n) as Hrec.
      { intros s1 Hr. apply bind_Some in Hr as (p & _ & Hr). apply bind_Some in Hr as (p' & _ & [= <- _]). by rewrite zlen_put. }
      destruct (_ =? _); [by eapply Hrec|]. destruct (try_send _ _ _ _ _ s) as [[] s1]; [by injection Hstep as <- _|by eapply Hrec].
    + intros j Hj Hne. eapply send_step_inv; try done. by apply Hlink.
  - pose proof (flush_step_inv hist n pipes s Hinv) as HF. destruct (__flush_all__ cset me env pipes s) as [[any pipes'] s'].
    by injection Hstep as <-.
Qed.

Lemma out_run_inv hist n _index os st st' :
  resolve _index cset = me -> Forall op_ok os -> out_run _index os st = Some st' ->
  all_links hist n st -> all_links (hist ++ os) n st'.
Proof.
  intros Hidx Hos. revert hist st. induction Hos as [|o os Ho _ IH]; intros hist st Hrun Hinv; simpl in Hrun.
  - injection Hrun as <-. by rewrite app_nil_r.
  - apply bind_Some in Hrun as (st1 & Hstep & Hrun). change (o :: os) with ([o] ++ os). rewrite app_assoc.
    eapply IH; [done|]. by eapply out_step_inv.
Qed.

End Facts.

(** * Properties *)

(** A consumer that empties every mailbox before the accesses [sched] selects. *)
Definition consumer_env {M} `{Mailbox M} (sched : Z -> bool) (k : Z) (boxes : list M) : list M :=
  if sched k then map (fun m => (mb_consume 1024 m).2) boxes else boxes.

Lemma consumer_env_fair {M} `{MailboxLaws M} me sched : env_fair (M := M) me (consumer_env sched).
Proof.
  intros k boxes i m Hg Hok Hme. unfold consumer_env. destruct (sched k).
  - pose proof (mb_consume_law 1024 m Hok ltac:(done)) as HC. exists (mb_consume 1024 m).2.
    destruct (mb_consume 1024 m) as [bs m'] eqn:E. destruct HC as (Hok' & Hp & _ & Hq). simpl. rewrite Hp. split_and!; try done.
    + unfold zget in *. destruct (i <? 0); [done|]. change (map ?f ?l) with (f <$> l).
      rewrite list_lookup_fmap, Hg. simpl. by rewrite E.
    + right. apply Hq.
  - exists m. split_and!; try done; try lia. by left.
Qed.

(** C1: while a core pushes and sends events and flushes its pipes, with the consumers of the
    mailboxes emptying them at arbitrary moments in between, no guaranteed event (QoS other than 0
    and at most a ring wide) for another core is lost or duplicated: those that arrived, those
    in the destination's mailbox and those still in the outbound pipe are together exactly
    those addressed to it. The pushed ones among them are in the order they were pushed,
    arrived ones first, and what arrived and what is in flight are sequences of whole events. *)
Theorem outbound_fifo {M P} `{MailboxLaws M} `{OutPipeLaws P} (cset : CoreSet) (me _index : Z)
    (env : Z -> list M -> list M) (ordered : event -> bool) (os : list out_op)
    (pipes0 : list P) (s0 : net M) (pipes : list P) (s : net M) (j : Z) :
  env_fair me env -> resolve _index cset = me -> Forall (op_ok ordered) os ->
  (forall i, 0 <= i < zlen pipes0 -> i <> me ->
     arrivals s0 i = [] /\ queue_is me s0 i [] /\ pipe_is cset pipes0 i []) ->
  out_run cset me env _index os (pipes0, s0) = Some (pipes, s) -> 0 <= j < zlen pipes0 -> j <> me ->
  exists arrived queued pending,
    arrivals s j = stream arrived /\ queue_is me s j queued /\ pipe_is cset pipes j pending /\
    sel (in_order ordered) (arrived ++ queued ++ pending) = sel guaranteed (omap (pushed cset j) os) /\
    sel guaranteed (arrived ++ queued ++ pending) ≡ₚ sel guaranteed (omap (addressed cset j) os).
Proof.
  intros Hfair Hidx Hos Hinit Hrun Hj Hne.
  assert (all_links cset me ordered [] (zlen pipes0) (pipes0, s0)) as Hstart.
  { split; [done|]. intros i Hi Hi'. destruct (Hinit i Hi Hi') as (A & Hq & Hp). by exists [], [], []. }
  destruct (out_run_inv cset me env Hfair ordered [] _ _index os _ _ Hidx Hos Hrun Hstart) as [_ Hl]. by apply Hl.
Qed.

(** Core 0 of two: three events for core 1, one sent past the pipe, with a drain in between. *)
Definition demo_cores : CoreSet := make_CoreSet (CoreIdBitSet.core_ids [0; 1]).
Definition demo_box : mpsc bucket := [make 1023 (zrepeat Bytes 1024); make 1023 (zrepeat Bytes 1024)].
Definition demo_net : net (mpsc bucket) := Net [demo_box; demo_box] 0 0 0 0 [] (fun _ => []).
Definition demo_msg (size p : Z) : event := Event header_default size 7 (mk_ActorId 3 1) (mk_ActorId 4 0) None p.
Definition demo_run : list out_op :=
  [OPush (demo_msg 2 11); OPush (demo_msg 1000 13); OFlush; OSend (demo_msg 40 20); OFlush; OPush (demo_msg 1 15)].

Lemma demo_box_ok : mb_ok demo_box.
Proof.
  assert (rb_ok (make 1023 (zrepeat Bytes 1024)) /\ full_sized (make 1023 (zrepeat Bytes 1024))) as [H1 H2].
  { destruct (make_spec 1023 (zrepeat Bytes 1024)) as (H1 & _ & H2); [lia|by apply zlen_repeat|]. done. }
  split_and!; [by repeat constructor|by repeat constructor|by vm_compute].
Qed.

Lemma demo_run_ok : Forall (op_ok (fun e => Z.odd (payload e))) demo_run.
Proof. repeat constructor; vm_compute; congruence. Qed.

Lemma demo_start i :
  0 <= i < zlen [pipe_moved_from (A := bucket); pipe_moved_from] -> i <> 0 ->
  arrivals demo_net i = [] /\ queue_is 0 demo_net i [] /\
  pipe_is (H0 := base_pipe_out (fun _ => true)) demo_cores [pipe_moved_from; pipe_moved_from] i [].
Proof.
  intros Hi Hne. assert (i = 1) as -> by (unfold zlen in Hi; simpl in Hi; lia). split; [done|]. split.
  - exists demo_box. split_and!; [done|apply demo_box_ok|done|done|by vm_compute].
  - exists pipe_moved_from. split; [done|]. split_and!; [|done|constructor|constructor].
    split; [apply pipe_moved_from_ok|done].
Qed.

Lemma outbound_fifo_witness :
  match out_run (P := base_pipe bucket) (H0 := base_pipe_out (fun _ => true)) demo_cores 0
          (consumer_env (fun k => k =? 2)) 0 demo_run ([pipe_moved_from; pipe_moved_from], demo_net) with
  | Some (pipes, s) =>
      exists arrived queued pending, arrivals s 1 = stream arrived /\ queue_is 0 s 1 queued /\
        pipe_is (H0 := base_pipe_out (fun _ => true)) demo_cores pipes 1 pending /\
        sel (in_order (fun e => Z.odd (payload e))) (arrived ++ queued ++ pending)
          = sel guaranteed [demo_msg 2 11; demo_msg 1000 13; demo_msg 1 15] /\
        sel guaranteed (arrived ++ queued ++ pending)
          ≡ₚ sel guaranteed [demo_msg 2 11; demo_msg 1000 13; demo_msg 40 20; demo_msg 1 15]
  | None => False
  end.
Proof.
  destruct (out_run _ _ _ _ _ _) as [[pipes s]|] eqn:E; [|by vm_compute in E].
  assert (omap (pushed demo_cores 1) demo_run = [demo_msg 2 11; demo_msg 1000 13; demo_msg 1 15]) as Ep by by vm_compute.
  assert (omap (addressed demo_cores 1) demo_run = [demo_msg 2 11; demo_msg 1000 13; demo_msg 40 20; demo_msg 1 15])
    as Ea by by vm_compute.
  rewrite <- Ep, <- Ea.
  clear Ep Ea. refine (outbound_fifo demo_cores 0 0 (consumer_env (fun k => k =? 2)) _ demo_run
    [pipe_moved_from; pipe_moved_from] demo_net pipes s 1 (consumer_env_fair 0 _) eq_refl demo_run_ok demo_start E _ _).
  - split; by vm_compute.
  - lia.
Defined.
