(* ===== verification/Scheduler.v ===== *)
(** The coroutine scheduler of one thread ([CoroutineScheduler],
    src/qb/io/async/coroutine/scheduler.h) and the ownership of coroutine frames by it and
    by [task<T>] objects (src/qb/io/async/coroutine/task.h).

    A coroutine frame is named by its address; an address may be reused once its frame is
    freed. [fault] is raised where the code would touch a frame that is not allocated
    (resuming, testing or destroying it) and where it would free the frame of the coroutine
    that is executing.

    What coroutines and awaiters do is [body_step]; its premises are what the scheduler asks of
    them. A wake-up names an allocated frame, and not the coroutine that is executing. With
    [lax] set, a spawned coroutine may be woken even while it executes, and then complete while
    it is queued: this is safe as long as [run_ready] is called without a bound, because the
    loop then skips the completed handle before the frame is freed; with a bound it is not
    ([wake_while_running_dangles]). *)

From S2P Require Import Prelude.

(** A frame: whether it reached its final suspend point, the frames of the [task<T>] objects
    that live in it, and the handles of the spawned helpers its awaiter reclaims with
    [cancel_spawned] when it is destroyed. *)
Record frame := Frame { f_done : bool; f_tasks : list Z; f_helpers : list Z }.

(** [active] is the coroutine that is executing. The ghost fields record every handle pushed
    on the ready queue, resumed from it, and removed from it unresumed. *)
Record sched := Sched {
  ready_queue_ : list Z; in_flight_ : gset Z; owned_frames_ : gset Z; suspended_coroutines_ : gset Z;
  frames_to_destroy_ : list Z; in_run_ready_ : bool;
  heap : gmap Z frame; fault : bool;
  pushed : list Z; resumed : list Z; scrubbed : list Z;
  active : option Z
}.

Definition sched_empty : sched := Sched [] ∅ ∅ ∅ [] false ∅ false [] [] [] None.

Definition with_fault (s : sched) : sched :=
  Sched (ready_queue_ s) (in_flight_ s) (owned_frames_ s) (suspended_coroutines_ s) (frames_to_destroy_ s)
        (in_run_ready_ s) (heap s) true (pushed s) (resumed s) (scrubbed s) (active s).
Definition with_heap (hp : gmap Z frame) (s : sched) : sched :=
  Sched (ready_queue_ s) (in_flight_ s) (owned_frames_ s) (suspended_coroutines_ s) (frames_to_destroy_ s)
        (in_run_ready_ s) hp (fault s) (pushed s) (resumed s) (scrubbed s) (active s).
Definition with_owned (o : gset Z) (s : sched) : sched :=
  Sched (ready_queue_ s) (in_flight_ s) o (suspended_coroutines_ s) (frames_to_destroy_ s)
        (in_run_ready_ s) (heap s) (fault s) (pushed s) (resumed s) (scrubbed s) (active s).
Definition with_suspended (x : gset Z) (s : sched) : sched :=
  Sched (ready_queue_ s) (in_flight_ s) (owned_frames_ s) x (frames_to_destroy_ s)
        (in_run_ready_ s) (heap s) (fault s) (pushed s) (resumed s) (scrubbed s) (active s).
Definition with_to_destroy (l : list Z) (s : sched) : sched :=
  Sched (ready_queue_ s) (in_flight_ s) (owned_frames_ s) (suspended_coroutines_ s) l
        (in_run_ready_ s) (heap s) (fault s) (pushed s) (resumed s) (scrubbed s) (active s).
Definition with_running (b : bool) (s : sched) : sched :=
  Sched (ready_queue_ s) (in_flight_ s) (owned_frames_ s) (suspended_coroutines_ s) (frames_to_destroy_ s)
        b (heap s) (fault s) (pushed s) (resumed s) (scrubbed s) (active s).

Definition with_active (a : option Z) (s : sched) : sched :=
  Sched (ready_queue_ s) (in_flight_ s) (owned_frames_ s) (suspended_coroutines_ s) (frames_to_destroy_ s)
        (in_run_ready_ s) (heap s) (fault s) (pushed s) (resumed s) (scrubbed s) a.
Definition log_resumed (h : Z) (s : sched) : sched :=
  Sched (ready_queue_ s) (in_flight_ s) (owned_frames_ s) (suspended_coroutines_ s) (frames_to_destroy_ s)
        (in_run_ready_ s) (heap s) (fault s) (pushed s) (resumed s ++ [h]) (scrubbed s) (active s).
Definition log_skipped (h : Z) (s : sched) : sched :=
  Sched (ready_queue_ s) (in_flight_ s) (owned_frames_ s) (suspended_coroutines_ s) (frames_to_destroy_ s)
        (in_run_ready_ s) (heap s) (fault s) (pushed s) (resumed s) (scrubbed s ++ [h]) (active s).

(** [ready_queue_.push_back] together with [in_flight_.insert]. *)
Definition enqueue (h : Z) (s : sched) : sched :=
  Sched (ready_queue_ s ++ [h]) ({[ h ]} ∪ in_flight_ s) (owned_frames_ s) (suspended_coroutines_ s)
        (frames_to_destroy_ s) (in_run_ready_ s) (heap s) (fault s) (pushed s ++ [h]) (resumed s) (scrubbed s) (active s).

(** [handle.done()] *)
Definition is_done (h : Z) (s : sched) : bool :=
  match heap s !! h with
  | Some f => f_done f
  | None => false
  end.

(** [schedule_resume] and [enqueue_for_later], which have the same body. *)
Definition schedule_resume (h : Z) (s : sched) : sched :=
  match heap s !! h with
  | None => with_fault s
  | Some f => if f_done f then s else if decide (h ∈ in_flight_ s) then s else enqueue h s
  end.
Definition enqueue_for_later (h : Z) (s : sched) : sched := schedule_resume h s.

Definition register_suspended (h : Z) (s : sched) : sched :=
  with_suspended ({[ h ]} ∪ suspended_coroutines_ s) s.
Definition unregister_suspended (h : Z) (s : sched) : sched :=
  with_suspended (suspended_coroutines_ s ∖ {[ h ]}) s.

(** [forget]: out of the suspended set, and out of the ready queue if it is in flight. *)
Definition forget (h : Z) (s : sched) : sched :=
  let s := unregister_suspended h s in
  if decide (h ∈ in_flight_ s) then
    Sched (filter (fun x => x <> h) (ready_queue_ s)) (in_flight_ s ∖ {[ h ]}) (owned_frames_ s)
          (suspended_coroutines_ s) (frames_to_destroy_ s) (in_run_ready_ s) (heap s) (fault s)
          (pushed s) (resumed s) (scrubbed s ++ filter (fun x => x = h) (ready_queue_ s)) (active s)
  else s.

Definition defer_destroy (h : Z) (s : sched) : sched := with_to_destroy (frames_to_destroy_ s ++ [h]) s.

(** An owned frame taken out of every container, as [cancel_spawned] does before freeing it. *)
Definition disown (x : Z) (s : sched) : sched :=
  let s := with_owned (owned_frames_ s ∖ {[ x ]}) s in
  let s := forget x s in
  with_to_destroy (filter (fun y => y <> x) (frames_to_destroy_ s)) s.

(** [final_suspend] of a coroutine that has run to its end: a spawned frame is handed back to
    the scheduler. (An awaited one transfers to its continuation next.) *)
Definition final_suspend (c : Z) (s : sched) : sched :=
  match heap s !! c with
  | None => with_fault s
  | Some f =>
      let s' := with_active None (with_heap (<[c := Frame true (f_tasks f) (f_helpers f)]> (heap s)) s) in
      if decide (c ∈ owned_frames_ s) then defer_destroy c s' else s'
  end.

(** [handle.destroy()]: the awaiter it is parked on reclaims its helpers, the [task<T>]
    objects in the frame destroy their own frames, and the awaiter leaves the suspended set.
    Each nested call frees one more frame. *)
Fixpoint destroy (fuel : nat) (h : Z) (s : sched) : sched :=
  match fuel with
  | O => with_fault s
  | S fuel =>
      match heap s !! h with
      | None => with_fault s
      | Some f =>
          let s := with_heap (delete h (heap s)) (if decide (active s = Some h) then with_fault s else s) in
          let s := fold_left (fun s x =>
                     if decide (x ∈ owned_frames_ s) then destroy fuel x (disown x s) else s) (f_helpers f) s in
          let s := fold_left (fun s c => destroy fuel c (if is_done c s then s else forget c s)) (f_tasks f) s in
          unregister_suspended h s
      end
  end.

(** Enough for a cascade that visits every allocated frame. *)
Definition cascade (s : sched) : nat := S (size (heap s)).

Definition cancel_spawned (x : Z) (s : sched) : sched :=
  if decide (x ∈ owned_frames_ s) then destroy (cascade s) x (disown x s) else s.

(** [~task]: scrub a frame that has not completed, then destroy it. *)
Definition task_destroy (c : Z) (s : sched) : sched :=
  destroy (cascade s) c (if is_done c s then s else forget c s).

(** [spawn_tracked] of a task whose frame is [h]. *)
Definition spawn_tracked (h : Z) (s : sched) : sched :=
  enqueue h (with_owned ({[ h ]} ∪ owned_frames_ s) s).

(** [pop_front] together with [in_flight_.erase]. *)
Definition pop_ready (q : list Z) (h : Z) (s : sched) : sched :=
  Sched q (in_flight_ s ∖ {[ h ]}) (owned_frames_ s) (suspended_coroutines_ s) (frames_to_destroy_ s)
        (in_run_ready_ s) (heap s) (fault s) (pushed s) (resumed s) (scrubbed s) (active s).

Definition pending_count (s : sched) : Z := zlen (ready_queue_ s).
Definition active_count (s : sched) : Z := zlen (ready_queue_ s) + Z.of_nat (size (suspended_coroutines_ s)).

(** The drain of [frames_to_destroy_], from the back. *)
Fixpoint drain_destroy (fuel : nat) (s : sched) : sched :=
  match fuel with
  | O => s
  | S fuel =>
      match last (frames_to_destroy_ s) with
      | None => s
      | Some h =>
          let s := with_to_destroy (take (length (frames_to_destroy_ s) - 1) (frames_to_destroy_ s)) s in
          let s := with_owned (owned_frames_ s ∖ {[ h ]}) s in
          drain_destroy fuel (destroy (cascade s) h s)
      end
  end.

Section Run.
(** What resuming a frame does until it suspends or completes: the coroutine's own code. *)
Context (resume : Z -> sched -> sched).

(** The loop of [run_ready]; [None]: out of fuel. *)
Fixpoint run_loop (fuel : nat) (max_count count : Z) (s : sched) : option (Z * sched) :=
  match ready_queue_ s with
  | [] => Some (count, s)
  | h :: q =>
      match fuel with
      | O => None
      | S fuel =>
          let s := pop_ready q h s in
          match heap s !! h with
          | None => Some (count, with_fault s)
          | Some f =>
              let '(count, s) :=
                if f_done f then (count, log_skipped h s)
                else (count + 1, with_active None (resume h (with_active (Some h) (log_resumed h s)))) in
              if negb (max_count =? 0) && (max_count <=? count) then Some (count, s)
              else run_loop fuel max_count count s
          end
      end
  end.

Definition run_ready (fuel : nat) (max_count : Z) (s : sched) : option (Z * sched) :=
  if in_run_ready_ s then Some (0, s)
  else
    match run_loop fuel max_count 0 (with_running true s) with
    | None => None
    | Some (count, s) => Some (count, with_running false (drain_destroy (length (frames_to_destroy_ s)) s))
    end.
End Run.

Section Teardown.
(** The order in which a hash set of handles is walked. *)
Context (walk : gset Z -> list Z).

(** One root of [destroy_all_suspended]: out of the deferred list, then destroyed unless it
    has completed. *)
Definition destroy_root (h : Z) (s : sched) : sched :=
  let s := with_to_destroy (filter (fun y => y <> h) (frames_to_destroy_ s)) s in
  match heap s !! h with
  | None => with_fault s
  | Some f => if f_done f then s else destroy (cascade s) h s
  end.

Definition destroy_leaf (h : Z) (s : sched) : sched :=
  let s := with_owned (owned_frames_ s ∖ {[ h ]}) s in
  match heap s !! h with
  | None => with_fault s
  | Some f => if f_done f then s else destroy (cascade s) h s
  end.

Definition destroy_all_suspended (s : sched) : sched :=
  let owned_roots := walk (owned_frames_ s) in
  let s := fold_left (fun s h => destroy_root h s) owned_roots (with_owned ∅ s) in
  let to_destroy := walk (suspended_coroutines_ s) in
  fold_left (fun s h => destroy_leaf h s) to_destroy (with_suspended ∅ s).

(** The loop of [~CoroutineScheduler] over the ready queue, and the deferred frames. *)
Definition scheduler_destructor (s : sched) : sched :=
  let s := fold_left (fun s h =>
             match heap s !! h with
             | None => with_fault s
             | Some f =>
                 if negb (f_done f) && bool_decide (h ∈ owned_frames_ s) then
                   let s := with_owned (owned_frames_ s ∖ {[ h ]}) s in destroy (cascade s) h s
                 else s
             end) (ready_queue_ s) s in
  let s := fold_left (fun s h =>
             let s := with_owned (owned_frames_ s ∖ {[ h ]}) s in destroy (cascade s) h s)
             (frames_to_destroy_ s) s in
  Sched [] ∅ ∅ ∅ [] (in_run_ready_ s) (heap s) (fault s) (pushed s) (resumed s) (scrubbed s) (active s).

(** [listener::reset_coro_scheduler] *)
Definition reset_coro_scheduler (s : sched) : sched := scheduler_destructor (destroy_all_suspended s).
End Teardown.

(** * The invariant *)

Section Invariant.
(** Whether spawned coroutines may be woken while they execute. *)
Context (lax : bool).

(** The scheduler's containers are in step with one another and only name live frames;
    every frame a [task<T>] owns has one owner; the executing coroutine is not queued, unless
    it may be woken. *)
Record sched_ok (s : sched) : Prop := SchedOk {
  ok_fault : fault s = false;
  ok_nodup : NoDup (ready_queue_ s);
  ok_flight h : h ∈ ready_queue_ s <-> h ∈ in_flight_ s;
  ok_ready h : h ∈ ready_queue_ s -> exists f, heap s !! h = Some f /\ (f_done f = false \/ lax = true /\ h ∈ frames_to_destroy_ s);
  ok_owned h : h ∈ owned_frames_ s -> is_Some (heap s !! h);
  ok_deferred_nodup : NoDup (frames_to_destroy_ s);
  ok_deferred h : h ∈ frames_to_destroy_ s -> h ∈ owned_frames_ s /\ is_done h s = true;
  ok_tasks p f c : heap s !! p = Some f -> c ∈ f_tasks f -> is_Some (heap s !! c) /\ c ∉ owned_frames_ s;
  ok_tasks_nodup p f : heap s !! p = Some f -> NoDup (f_tasks f);
  ok_tasks_uniq p p' f f' c :
    heap s !! p = Some f -> heap s !! p' = Some f' -> c ∈ f_tasks f -> c ∈ f_tasks f' -> p = p';
  ok_log : pushed s ≡ₚ resumed s ++ ready_queue_ s ++ scrubbed s;
  ok_order : sublist (resumed s ++ ready_queue_ s) (pushed s);
  ok_active c : active s = Some c -> exists f, heap s !! c = Some f /\ f_done f = false;
  ok_active_ready c : active s = Some c -> c ∈ ready_queue_ s -> lax = true /\ c ∈ owned_frames_ s;
}.

(** A frame owned by neither the scheduler nor a [task<T>] inside a frame. *)
Definition orphan (c : Z) (s : sched) : Prop :=
  is_Some (heap s !! c) /\ (c ∉ owned_frames_ s) /\ forall p f, heap s !! p = Some f -> c ∉ f_tasks f.

(** What freeing frames does to the rest of the state. *)
Record shrinks (s s' : sched) : Prop := Shrinks {
  sh_heap : heap s' ⊆ heap s;
  sh_owned : owned_frames_ s' ⊆ owned_frames_ s;
  sh_ready : ready_queue_ s' ⊆ ready_queue_ s;
  sh_deferred : (length (frames_to_destroy_ s') <= length (frames_to_destroy_ s))%nat;
  sh_pushed : pushed s' = pushed s;
  sh_resumed : resumed s' = resumed s;
  sh_active : active s' = active s;
}.

Lemma shrinks_refl s : shrinks s s.
Proof. by split. Qed.

Lemma shrinks_trans s1 s2 s3 : shrinks s1 s2 -> shrinks s2 s3 -> shrinks s1 s3.
Proof.
  intros [] []. split; try congruence; try (by etrans); try lia.
Qed.

Lemma orphan_shrinks c s s' : shrinks s s' -> orphan c s -> is_Some (heap s' !! c) -> orphan c s'.
Proof.
  intros [Hh Ho _ _ _ _ _] (_ & Hno & Hp) Hc. split_and!; [done|set_solver|].
  intros p f Hpf. apply (Hp p). by apply (lookup_weaken _ _ _ _ Hpf).
Qed.

Lemma filter_ne_eq (h : Z) (l : list Z) : l ≡ₚ filter (fun x => x <> h) l ++ filter (fun x => x = h) l.
Proof.
  induction l as [|x l IH]; [done|]. rewrite !filter_cons. destruct (decide (x = h)) as [->|Hx].
  - rewrite decide_False by tauto. by rewrite <- Permutation_middle, <- IH.
  - rewrite decide_True by done. simpl. by rewrite <- IH.
Qed.

Lemma forget_ok h s :
  sched_ok s ->
  sched_ok (forget h s) /\ (h ∉ ready_queue_ (forget h s)) /\ heap (forget h s) = heap s /\
  owned_frames_ (forget h s) = owned_frames_ s /\ frames_to_destroy_ (forget h s) = frames_to_destroy_ s /\
  shrinks s (forget h s).
Proof.
  intros Hok. unfold forget. simpl. destruct (decide (h ∈ in_flight_ s)) as [Hin|Hin].
  - split_and!; try done.
    + destruct Hok; split; simpl; try done.
      * by apply NoDup_filter.
      * intros x. rewrite list_elem_of_filter, ok_flight0. set_solver.
      * intros x [_ Hx]%list_elem_of_filter. by apply ok_ready0.
      * rewrite ok_log0. apply Permutation_app_head.
        rewrite (Permutation_app_comm (scrubbed s)), app_assoc. apply Permutation_app_tail, filter_ne_eq.
      * etrans; [|exact ok_order0]. apply sublist_app; [done|]. apply sublist_filter.
      * intros c Hc [_ Hin']%list_elem_of_filter. by apply ok_active_ready0.
    + simpl. rewrite list_elem_of_filter. tauto.
    + split; simpl; try done. intros x [_ Hx]%list_elem_of_filter. done.
  - split_and!; try done.
    + by destruct Hok; split.
    + simpl. by rewrite (ok_flight s Hok).
Qed.

Lemma with_owned_ok x s :
  sched_ok s -> x ∉ frames_to_destroy_ s -> x ∉ ready_queue_ s -> sched_ok (with_owned (owned_frames_ s ∖ {[ x ]}) s).
Proof.
  intros [] Hx Hr. split; simpl; try done.
  - intros h Hh. apply ok_owned0. set_solver.
  - intros h Hh. destruct (ok_deferred0 h Hh). set_solver.
  - intros p f c Hp Hc. destruct (ok_tasks0 p f c Hp Hc). set_solver.
  - intros c Hc Hin. destruct (ok_active_ready0 c Hc Hin). split; [done|]. apply elem_of_difference.
    split; [done|]. by intros ->%elem_of_singleton.
Qed.

Lemma with_to_destroy_ok x s :
  sched_ok s -> x ∉ ready_queue_ s -> sched_ok (with_to_destroy (filter (fun y => y <> x) (frames_to_destroy_ s)) s).
Proof.
  intros [] Hx. split; simpl; try done.
  - intros h Hh. destruct (ok_ready0 h Hh) as (f & Hf & Hd). exists f. split; [done|]. destruct Hd as [?|[? Hd]]; [by left|right].
    split; [done|]. apply list_elem_of_filter. split; [by intros ->|done].
  - by apply NoDup_filter.
  - intros h [_ Hh]%list_elem_of_filter. auto.
Qed.

Lemma disown_eq x s :
  disown x s = with_owned (owned_frames_ s ∖ {[ x ]})
                 (with_to_destroy (filter (fun y => y <> x) (frames_to_destroy_ s)) (forget x s)).
Proof. unfold disown, forget. simpl. by destruct (decide (x ∈ in_flight_ s)). Qed.

Lemma disown_ok x s :
  sched_ok s -> x ∈ owned_frames_ s ->
  sched_ok (disown x s) /\ orphan x (disown x s) /\ (x ∉ ready_queue_ (disown x s)) /\
  heap (disown x s) = heap s /\ shrinks s (disown x s).
Proof.
  intros Hok Hx. rewrite disown_eq. destruct (forget_ok x s Hok) as (Hok1 & Hr & Hh & Ho & Hd & Hs).
  rewrite <- Ho, <- Hd. split_and!.
  - apply (with_owned_ok x (with_to_destroy _ (forget x s))); [by apply with_to_destroy_ok| |done].
    simpl. rewrite list_elem_of_filter. tauto.
  - destruct (ok_owned s Hok x Hx) as [f Hf]. split_and!; [simpl; rewrite Hh; by exists f|simpl; set_solver|].
    intros p g Hp Hc. simpl in Hp. rewrite Hh in Hp. by destruct (ok_tasks s Hok p g x Hp Hc).
  - done.
  - done.
  - eapply shrinks_trans; [exact Hs|]. split; simpl; try done; [set_solver|].
    by apply Nat.lt_succ_r, le_n_S, length_filter.
Qed.

(** The frames that the destruction of one may free: through its tasks and its helpers. *)
Inductive holds (hp : gmap Z frame) : Z -> Z -> Prop :=
| holds_refl h : holds hp h h
| holds_part h f c x : hp !! h = Some f -> c ∈ f_tasks f ++ f_helpers f -> holds hp c x -> holds hp h x.

Lemma holds_mono hp hp' h x : hp' ⊆ hp -> holds hp' h x -> holds hp h x.
Proof.
  intros Hsub. induction 1 as [|h f c x Hh Hc _ IH]; [constructor|]. apply (holds_part _ h f c); [|done|done].
  by apply (lookup_weaken _ _ _ _ Hh).
Qed.

(** The destruction of a frame does not reach the executing coroutine. *)
Definition apart (h : Z) (s : sched) : Prop := forall a, active s = Some a -> ~ holds (heap s) h a.

Lemma apart_shrinks h s s' : shrinks s s' -> apart h s -> apart h s'.
Proof. intros Hs Ha a Hact Hh. rewrite (sh_active _ _ Hs) in Hact. apply (Ha a Hact). by apply (holds_mono _ (heap s')); [apply Hs|]. Qed.

(** The state of an [orphan] frame while its cascade runs. *)
Definition freed (x : Z) (s s' : sched) : Prop :=
  sched_ok s' /\ shrinks s s' /\ heap s' !! x = None /\ forall c, c <> x -> orphan c s -> orphan c s'.

Lemma delete_ok h s :
  sched_ok s -> orphan h s -> h ∉ ready_queue_ s -> apart h s -> sched_ok (with_heap (delete h (heap s)) s).
Proof.
  intros [] (_ & Hno & Hp) Hr Ha. split; simpl; try done.
  - intros x Hx. destruct (ok_ready0 x Hx) as (f & Hf & Hd). exists f. rewrite lookup_delete_ne by (by intros ->). done.
  - intros x Hx. rewrite lookup_delete_ne by (by intros ->). auto.
  - intros x Hx. destruct (ok_deferred0 x Hx) as [Ho Hd]. split; [done|]. unfold is_done in *. simpl.
    rewrite lookup_delete_ne by (by intros ->). done.
  - intros p f c [Hne Hpf]%lookup_delete_Some Hc. destruct (ok_tasks0 p f c Hpf Hc). split; [|done].
    rewrite lookup_delete_ne; [done|]. intros ->. by apply (Hp p f).
  - intros p f [_ Hpf]%lookup_delete_Some. eauto.
  - intros p p' f f' c [_ H1]%lookup_delete_Some [_ H2]%lookup_delete_Some. eauto.
  - intros c Hc. rewrite lookup_delete_ne; [by apply ok_active0|]. intros ->. apply (Ha c Hc), holds_refl.
Qed.

Lemma unregister_ok h s : sched_ok s -> sched_ok (unregister_suspended h s).
Proof. by intros []. Qed.

(** One helper or task of the frame being freed. *)
Lemma freed_then x s s1 s2 :
  shrinks s s1 -> heap s1 = heap s -> freed x s1 s2 -> shrinks s s2 /\ sched_ok s2 /\ (size (heap s2) <= size (heap s))%nat.
Proof.
  intros Hs Hh (Hok & Hs' & _ & _). split_and!; [by eapply shrinks_trans|done|].
  rewrite <- Hh. apply map_subseteq_size, (sh_heap _ _ Hs').
Qed.

Section Destroy.
Context (fuel : nat).
Context (IH : forall h s, sched_ok s -> orphan h s -> h ∉ ready_queue_ s -> apart h s -> (size (heap s) <= fuel)%nat ->
                freed h s (destroy fuel h s)).

Lemma helpers_spec xs s :
  sched_ok s -> (size (heap s) <= fuel)%nat -> Forall (fun x => apart x s) xs ->
  let s' := fold_left (fun s x => if decide (x ∈ owned_frames_ s) then destroy fuel x (disown x s) else s) xs s in
  sched_ok s' /\ shrinks s s' /\ forall c, orphan c s -> orphan c s'.
Proof.
  revert s. induction xs as [|x xs IHx]; intros s Hok Hsz Ha; simpl; [split_and!; [done|apply shrinks_refl|done]|].
  apply Forall_cons in Ha as [Hax Ha]. destruct (decide (x ∈ owned_frames_ s)) as [Hx|]; [|by apply IHx].
  destruct (disown_ok x s Hok Hx) as (Hok1 & Ho1 & Hr1 & Hh1 & Hs1).
  pose proof (IH x _ Hok1 Ho1 Hr1 (apart_shrinks _ _ _ Hs1 Hax) ltac:(by rewrite Hh1)) as Hf.
  destruct (freed_then _ _ _ _ Hs1 Hh1 Hf) as (Hs2 & Hok2 & Hsz2). destruct Hf as (_ & _ & _ & Hsp).
  destruct (IHx _ Hok2 ltac:(lia)) as (Hok3 & Hs3 & Hc3).
  { eapply Forall_impl; [exact Ha|]. intros y. by apply apart_shrinks. }
  split_and!; [done|by eapply shrinks_trans|].
  intros c Hc. apply Hc3, Hsp; [by intros ->; destruct Hc as (_ & ? & _)|].
  apply (orphan_shrinks c s); [done|done|]. rewrite Hh1. apply Hc.
Qed.

Lemma tasks_spec ts s :
  sched_ok s -> (size (heap s) <= fuel)%nat -> NoDup ts -> (forall c, c ∈ ts -> orphan c s) -> Forall (fun x => apart x s) ts ->
  let s' := fold_left (fun s c => destroy fuel c (if is_done c s then s else forget c s)) ts s in
  sched_ok s' /\ shrinks s s' /\ forall c, c ∉ ts -> orphan c s -> orphan c s'.
Proof.
  revert s. induction ts as [|x ts IHt]; intros s Hok Hsz Hnd Ho Ha; simpl; [split_and!; [done|apply shrinks_refl|done]|].
  apply Forall_cons in Ha as [Hax Ha].
  apply NoDup_cons in Hnd as [Hx Hnd]. set (s1 := if is_done x s then s else forget x s).
  assert (sched_ok s1 /\ (x ∉ ready_queue_ s1) /\ heap s1 = heap s /\ owned_frames_ s1 = owned_frames_ s /\ shrinks s s1)
    as (Hok1 & Hr1 & Hh1 & Ho1 & Hs1).
  { unfold s1. destruct (is_done x s) eqn:Ed.
    - split_and!; [done| |done|done|apply shrinks_refl]. intros Hr. destruct (ok_ready s Hok x Hr) as (f & Hf & Hd).
      unfold is_done in Ed. rewrite Hf in Ed. destruct Hd as [?|[_ Hd]]; [congruence|].
      destruct (ok_deferred s Hok x Hd) as [Hw _]. by destruct (Ho x ltac:(by left)) as (_ & ? & _).
    - destruct (forget_ok x s Hok) as (? & ? & ? & ? & _ & ?). done. }
  pose proof (IH x s1 Hok1) as Hf.
  assert (orphan x s1) as Hox by (apply (orphan_shrinks x s); [done|apply Ho; by left|rewrite Hh1; apply Ho; by left]).
  specialize (Hf Hox Hr1 (apart_shrinks _ _ _ Hs1 Hax) ltac:(by rewrite Hh1)).
  destruct (freed_then _ _ _ _ Hs1 Hh1 Hf) as (Hs2 & Hok2 & Hsz2). destruct Hf as (_ & _ & _ & Hsp).
  assert (forall c, c <> x -> orphan c s -> orphan c (destroy fuel x s1)) as Hsp'.
  { intros c Hc Hoc. apply Hsp; [done|]. apply (orphan_shrinks c s); [done|done|]. rewrite Hh1. apply Hoc. }
  destruct (IHt _ Hok2 ltac:(lia) Hnd) as (Hok3 & Hs3 & Hc3).
  { intros c Hc. apply Hsp'; [by intros ->|]. apply Ho. by right. }
  { eapply Forall_impl; [exact Ha|]. intros y. by apply apart_shrinks. }
  split_and!; [done|by eapply shrinks_trans|]. intros c Hc Hoc.
  apply Hc3; [set_solver|]. apply Hsp'; set_solver.
Qed.
End Destroy.

(** Destroying an orphan frees it, and whatever else it frees was reachable from it. *)
Lemma destroy_spec fuel h s :
  sched_ok s -> orphan h s -> h ∉ ready_queue_ s -> apart h s -> (size (heap s) <= fuel)%nat -> freed h s (destroy fuel h s).
Proof.
  revert h s. induction fuel as [|fuel IH]; intros h s Hok Ho Hr Ha Hsz.
  { destruct Ho as (Hf & _). apply map_size_ne_0_lookup_2 in Hf. lia. }
  cbn [destroy]. pose proof Ho as ([f Hf] & Hno & Hpar). rewrite Hf.
  rewrite decide_False by (intros Hact; apply (Ha h Hact), holds_refl). set (s0 := with_heap (delete h (heap s)) s).
  assert (sched_ok s0) as Hok0 by by apply delete_ok.
  assert (size (heap s0) <= fuel)%nat as Hsz0.
  { simpl. rewrite map_size_delete_Some by (by exists f). lia. }
  assert (shrinks s s0) as Hs0 by (split; simpl; try done; apply delete_subseteq).
  assert (forall c, c <> h -> orphan c s -> orphan c s0) as Hc0.
  { intros c Hc Hoc. apply (orphan_shrinks c s); [done|done|]. simpl. rewrite lookup_delete_ne by done. apply Hoc. }
  assert (Forall (fun x => apart x s0) (f_tasks f ++ f_helpers f)) as [Hat Hah]%Forall_app.
  { apply Forall_forall. intros c Hc a Hact Hh. apply (Ha a Hact). apply (holds_part _ h f c); [done|done|].
    by apply (holds_mono _ (heap s0)); [apply Hs0|]. }
  destruct (helpers_spec fuel IH (f_helpers f) s0 Hok0 Hsz0 Hah) as (Hok1 & Hs1 & Hc1). set (s1 := fold_left _ (f_helpers f) s0) in *.
  assert (forall c, c ∈ f_tasks f -> orphan c s0) as Ht0.
  { intros c Hc. destruct (ok_tasks s Hok h f c Hf Hc) as [Hsome Hnoc].
    assert (c <> h) by (intros ->; by apply (Hpar h f)). split_and!; [by simpl; rewrite lookup_delete_ne|done|].
    intros p g Hp Hcg. unfold s0 in Hp. simpl in Hp. apply lookup_delete_Some in Hp as [Hne Hp]. by destruct (ok_tasks_uniq s Hok h p f g c). }
  destruct (tasks_spec fuel IH (f_tasks f) s1 Hok1) as (Hok2 & Hs2 & Hc2).
  { pose proof (map_subseteq_size _ _ (sh_heap _ _ Hs1)). lia. }
  { by apply (ok_tasks_nodup s Hok h). }
  { intros c Hc. by apply Hc1, Ht0. }
  { eapply Forall_impl; [exact Hat|]. intros y. by apply apart_shrinks. }
  set (s2 := fold_left _ (f_tasks f) s1) in *.
  pose proof (shrinks_trans _ _ _ (shrinks_trans _ _ _ Hs0 Hs1) Hs2) as Hs.
  split_and!; [by apply unregister_ok|by destruct Hs; split| |].
  - apply (lookup_weaken_None _ (heap s0)); [apply lookup_delete_eq|].
    apply (sh_heap _ _ (shrinks_trans _ _ _ Hs1 Hs2)).
  - intros c Hc Hoc. assert (c ∉ f_tasks f) by by destruct Hoc as (_ & _ & Hp); apply (Hp h).
    by apply Hc2, Hc1, Hc0.
Qed.

Lemma cancel_spawned_ok x s :
  sched_ok s -> apart x s -> sched_ok (cancel_spawned x s) /\ resumed (cancel_spawned x s) = resumed s.
Proof.
  intros Hok Ha. unfold cancel_spawned. destruct (decide (x ∈ owned_frames_ s)) as [Hx|]; [|done].
  destruct (disown_ok x s Hok Hx) as (Hok1 & Ho1 & Hr1 & Hh1 & Hs1).
  destruct (destroy_spec (cascade s) x _ Hok1 Ho1 Hr1 (apart_shrinks _ _ _ Hs1 Ha)) as (Hok2 & Hs2 & _); [rewrite Hh1; unfold cascade; lia|].
  split; [done|]. apply (sh_resumed _ _ (shrinks_trans _ _ _ Hs1 Hs2)).
Qed.

Lemma task_destroy_ok c s :
  sched_ok s -> orphan c s -> apart c s -> sched_ok (task_destroy c s) /\ resumed (task_destroy c s) = resumed s.
Proof.
  intros Hok Ho Ha. pose proof (tasks_spec (cascade s) (destroy_spec (cascade s)) [c] s Hok) as HT.
  destruct HT as (H1 & H2 & _); [unfold cascade; lia|apply NoDup_singleton| | |].
  - by intros x ->%list_elem_of_singleton.
  - by constructor.
  - split; [done|apply (sh_resumed _ _ H2)].
Qed.

(** * What coroutines and awaiters do *)

(** A new task, its moves between frames, [spawn] of a task that has not started, the
    destruction of a task object, the wake-ups and registrations made by awaiters; control
    that passes to another coroutine by symmetric transfer, or leaves the executing one when it
    suspends; and the completion of the executing coroutine. A wake-up names an allocated
    frame that is not executing; a frame that gets control by a transfer was not also woken;
    and a coroutine destroys neither itself nor a frame that holds it. With [lax], spawned
    coroutines are free of the first two restrictions. *)
Inductive body_step : sched -> sched -> Prop :=
| bs_new h s : heap s !! h = None -> body_step s (with_heap (<[h := Frame false [] []]> (heap s)) s)
| bs_adopt p f c s : heap s !! p = Some f -> orphan c s ->
    body_step s (with_heap (<[p := Frame (f_done f) (f_tasks f ++ [c]) (f_helpers f)]> (heap s)) s)
| bs_release p f c s : heap s !! p = Some f ->
    body_step s (with_heap (<[p := Frame (f_done f) (filter (fun y => y <> c) (f_tasks f)) (f_helpers f)]> (heap s)) s)
| bs_helpers p f xs s : heap s !! p = Some f ->
    body_step s (with_heap (<[p := Frame (f_done f) (f_tasks f) xs]> (heap s)) s)
| bs_spawn h s : orphan h s -> is_done h s = false -> h ∉ ready_queue_ s -> active s <> Some h -> body_step s (spawn_tracked h s)
| bs_drop c s : orphan c s -> apart c s -> body_step s (task_destroy c s)
| bs_schedule h s : is_Some (heap s !! h) -> active s <> Some h \/ lax = true /\ h ∈ owned_frames_ s ->
    body_step s (schedule_resume h s)
| bs_register h s : body_step s (register_suspended h s)
| bs_unregister h s : body_step s (unregister_suspended h s)
| bs_cancel x s : apart x s -> body_step s (cancel_spawned x s)
| bs_transfer c f s : heap s !! c = Some f -> f_done f = false -> c ∉ ready_queue_ s \/ lax = true /\ c ∈ owned_frames_ s ->
    body_step s (with_active (Some c) s)
| bs_suspend s : body_step s (with_active None s)
| bs_complete c s : active s = Some c -> body_step s (final_suspend c s).

Lemma new_frame_ok h s :
  sched_ok s -> heap s !! h = None -> sched_ok (with_heap (<[h := Frame false [] []]> (heap s)) s).
Proof.
  intros [] Hh. split; simpl; try done.
  - intros x Hx. destruct (ok_ready0 x Hx) as (f & Hf & Hd). exists f. by rewrite lookup_insert_ne by congruence.
  - intros x [f Hf]%ok_owned0. exists f. by rewrite lookup_insert_ne by congruence.
  - intros x Hx. destruct (ok_deferred0 x Hx) as [Ho Hd]. split; [done|]. unfold is_done in *. simpl.
    destruct (decide (x = h)) as [->|]; [by rewrite Hh in Hd|by rewrite lookup_insert_ne].
  - intros p f c Hp Hc. apply lookup_insert_Some in Hp as [[_ <-]|[Hne Hp]]; [by apply elem_of_nil in Hc|].
    destruct (ok_tasks0 p f c Hp Hc) as [[g Hg] Hno]. split; [|done]. exists g. by rewrite lookup_insert_ne by congruence.
  - intros p f Hp. apply lookup_insert_Some in Hp as [[_ <-]|[_ Hp]]; [constructor|eauto].
  - intros p p' f f' c Hp Hp' Hc Hc'.
    apply lookup_insert_Some in Hp as [[_ <-]|[_ Hp]]; [by apply elem_of_nil in Hc|].
    apply lookup_insert_Some in Hp' as [[_ <-]|[_ Hp']]; [by apply elem_of_nil in Hc'|]. eauto.
  - intros c Hc. destruct (ok_active0 c Hc) as (f & Hf & Hd). exists f. by rewrite lookup_insert_ne by congruence.
Qed.

(** Replacing what a frame holds by tasks it had or that nobody has. *)
Lemma set_frame_ok p f f' s :
  sched_ok s -> heap s !! p = Some f -> f_done f' = f_done f -> NoDup (f_tasks f') ->
  (forall c, c ∈ f_tasks f' -> c ∈ f_tasks f \/ orphan c s) ->
  sched_ok (with_heap (<[p := f']> (heap s)) s).
Proof.
  intros Hok Hp Hd Hnd Hc. pose proof Hok as [].
  assert (forall x, is_Some (heap s !! x) -> is_Some (<[p := f']> (heap s) !! x)) as Hsome.
  { intros x Hx. apply lookup_insert_is_Some'. by right. }
  assert (forall x g, <[p := f']> (heap s) !! x = Some g -> exists g0, heap s !! x = Some g0 /\ f_done g = f_done g0 /\
            forall c, c ∈ f_tasks g -> c ∈ f_tasks g0 \/ (x = p /\ orphan c s)) as Hold.
  { intros x g Hx. apply lookup_insert_Some in Hx as [[<- <-]|[_ Hx]]; [exists f|exists g]; split_and!; try done.
    - intros c Hcf. destruct (Hc c Hcf); [by left|by right].
    - intros c Hcg. by left. }
  split; simpl; try done.
  - intros x Hx. destruct (ok_ready0 x Hx) as (g & Hg & Hdg). destruct (decide (x = p)) as [->|].
    + exists f'. rewrite lookup_insert_eq. split; [done|]. by replace (f_done f') with (f_done g) by congruence.
    + exists g. by rewrite lookup_insert_ne by congruence.
  - intros x Hx. by apply Hsome, ok_owned0.
  - intros x Hx. destruct (ok_deferred0 x Hx) as [Ho Hdx]. split; [done|]. unfold is_done in *. simpl.
    destruct (decide (x = p)) as [->|]; [rewrite Hp in Hdx; rewrite lookup_insert_eq; congruence|by rewrite lookup_insert_ne].
  - intros x g c Hx Hcg. destruct (Hold x g Hx) as (g0 & Hg0 & _ & Hcs).
    destruct (Hcs c Hcg) as [Hcg0|[_ Ho]]; [|by split; [apply Hsome, Ho|apply Ho]].
    destruct (ok_tasks0 x g0 c Hg0 Hcg0). by split; [apply Hsome|].
  - intros x g Hx. apply lookup_insert_Some in Hx as [[<- <-]|[_ Hx]]; [done|eauto].
  - intros x y g g' c Hx Hy Hcx Hcy. destruct (Hold x g Hx) as (g0 & Hg0 & _ & Hcs).
    destruct (Hold y g' Hy) as (g0' & Hg0' & _ & Hcs').
    destruct (Hcs c Hcx) as [Hcg0|[-> Ho]], (Hcs' c Hcy) as [Hcg0'|[-> Ho']]; [eauto| | |done].
    + by destruct Ho' as (_ & _ & Hn); destruct (Hn x g0 Hg0).
    + by destruct Ho as (_ & _ & Hn); destruct (Hn y g0' Hg0').
  - intros x Hx. destruct (ok_active0 x Hx) as (g & Hg & Hdg). destruct (decide (x = p)) as [->|].
    + exists f'. rewrite lookup_insert_eq. split; [done|congruence].
    + exists g. by rewrite lookup_insert_ne by congruence.
Qed.

Lemma enqueue_ok h f s :
  sched_ok s -> heap s !! h = Some f -> f_done f = false -> h ∉ ready_queue_ s ->
  active s <> Some h \/ lax = true /\ h ∈ owned_frames_ s -> sched_ok (enqueue h s).
Proof.
  intros [] Hh Hd Hr Ha. split; simpl; try done.
  - apply NoDup_app. split_and!; [done| |apply NoDup_singleton]. set_solver.
  - intros x. rewrite elem_of_app, ok_flight0. set_solver.
  - intros x [Hx| ->%list_elem_of_singleton]%elem_of_app; [auto|exists f; auto].
  - rewrite ok_log0, <- !app_assoc. do 2 apply Permutation_app_head. apply Permutation_app_comm.
  - rewrite app_assoc. by apply sublist_app.
  - intros c Hc [Hx| ->%list_elem_of_singleton]%elem_of_app; [by apply ok_active_ready0|by destruct Ha].
Qed.

Lemma schedule_ok h s :
  sched_ok s -> is_Some (heap s !! h) -> active s <> Some h \/ lax = true /\ h ∈ owned_frames_ s -> sched_ok (schedule_resume h s).
Proof.
  intros Hok [f Hf] Ha. unfold schedule_resume. rewrite Hf. destruct (f_done f) eqn:Hd; [done|].
  destruct (decide (h ∈ in_flight_ s)) as [|Hn]; [done|]. eapply enqueue_ok; [done|done|done| |done].
  by rewrite (ok_flight s Hok).
Qed.

Lemma spawn_ok h s :
  sched_ok s -> orphan h s -> is_done h s = false -> h ∉ ready_queue_ s -> active s <> Some h -> sched_ok (spawn_tracked h s).
Proof.
  intros [] ([f Hf] & Hno & Hpar) Hd Hr Ha. unfold is_done in Hd. rewrite Hf in Hd.
  apply (enqueue_ok h f); [|done|done|done|by left]. split; simpl; try done.
  - intros x [->%elem_of_singleton|Hx]%elem_of_union; [by exists f|auto].
  - intros x Hx. destruct (ok_deferred0 x Hx). set_solver.
  - intros p g c Hp Hc. destruct (ok_tasks0 p g c Hp Hc) as [? Hco]. split; [done|].
    intros [->%elem_of_singleton|Hx]%elem_of_union; [by apply (Hpar p g)|done].
  - intros c Hc Hin. destruct (ok_active_ready0 c Hc Hin). split; [done|]. apply elem_of_union. by right.
Qed.

(** The executing coroutine reaches its end. A spawned one may be queued still; its frame is
    then among those to destroy. *)
Lemma complete_ok c s : sched_ok s -> active s = Some c -> sched_ok (final_suspend c s).
Proof.
  intros Hok Hact. destruct (ok_active s Hok c Hact) as (f & Hc & Hd). pose proof Hok as []. unfold final_suspend. rewrite Hc.
  assert (c ∉ frames_to_destroy_ s) as Hcd.
  { intros Hin. destruct (ok_deferred0 c Hin) as [_ He]. unfold is_done in He. rewrite Hc in He. congruence. }
  set (hp := <[c := _]> (heap s)).
  assert (forall x g, hp !! x = Some g -> exists g0, heap s !! x = Some g0 /\ f_tasks g = f_tasks g0) as Hold.
  { intros x g Hx. apply lookup_insert_Some in Hx as [[<- <-]|[_ Hx]]; eauto. }
  assert (forall x, is_Some (heap s !! x) -> is_Some (hp !! x)) as Hsome by (intros x Hx; apply lookup_insert_is_Some'; by right).
  assert (forall x, is_done x s = true -> is_done x (with_heap hp s) = true) as Hdone.
  { intros x Hx. unfold is_done, hp in *. simpl. destruct (decide (x = c)) as [->|]; [by rewrite lookup_insert_eq|by rewrite lookup_insert_ne]. }
  assert (forall l, NoDup l -> (forall x, x ∈ l -> x ∈ frames_to_destroy_ s \/ x = c /\ c ∈ owned_frames_ s) ->
            (forall x, x ∈ frames_to_destroy_ s -> x ∈ l) -> (c ∈ owned_frames_ s -> c ∈ l) ->
            sched_ok (with_to_destroy l (with_active None (with_heap hp s)))) as Hall.
  { intros l Hnd Hl1 Hl2 Hl3. split; simpl; try done.
    - intros x Hx. destruct (decide (x = c)) as [->|Hne].
      + destruct (ok_active_ready0 c Hact Hx) as [-> Ho]. unfold hp. rewrite lookup_insert_eq. eexists. split; [done|]. right. auto.
      + destruct (ok_ready0 x Hx) as (g & Hg & Hdg). exists g. unfold hp. rewrite lookup_insert_ne by congruence.
        split; [done|]. destruct Hdg as [?|[? ?]]; [by left|right; auto].
    - intros x Hx. by apply Hsome, ok_owned0.
    - intros x Hx. destruct (Hl1 x Hx) as [Hx'|[-> Ho]].
      + destruct (ok_deferred0 x Hx') as [Ho Hdx]. split; [done|]. by apply Hdone.
      + split; [done|]. unfold is_done, hp. simpl. by rewrite lookup_insert_eq.
    - intros p g x (g0 & Hg0 & ->)%Hold Hx. destruct (ok_tasks0 p g0 x Hg0 Hx). by split; [apply Hsome|].
    - intros p g (g0 & Hg0 & ->)%Hold. eauto.
    - intros p p' g g' x (g0 & Hg0 & ->)%Hold (g0' & Hg0' & ->)%Hold. eauto. }
  cbv zeta. case_decide as Ho.
  - apply (Hall (frames_to_destroy_ s ++ [c])); [|set_solver..].
    apply NoDup_app. split_and!; [done|set_solver|apply NoDup_singleton].
  - apply (Hall (frames_to_destroy_ s)); [done|auto|done|done].
Qed.

Lemma transfer_ok c f s :
  sched_ok s -> heap s !! c = Some f -> f_done f = false -> c ∉ ready_queue_ s \/ lax = true /\ c ∈ owned_frames_ s ->
  sched_ok (with_active (Some c) s).
Proof.
  intros [] Hc Hd Hr. split; simpl; try done.
  - intros x [= <-]. eauto.
  - intros x [= <-] Hin. by destruct Hr.
Qed.

Lemma inactive_ok s : sched_ok s -> sched_ok (with_active None s).
Proof. by intros []. Qed.

Lemma schedule_resumed h s : resumed (schedule_resume h s) = resumed s.
Proof. unfold schedule_resume. destruct (heap s !! h) as [f|]; [|done]. destruct (f_done f); [done|]. by case_decide. Qed.

Lemma body_step_ok s s' : body_step s s' -> sched_ok s -> sched_ok s' /\ resumed s' = resumed s.
Proof.
  intros Hstep Hok. destruct Hstep as [h s Hh|p f c s Hp Hc|p f c s Hp|p f xs s Hp|h s Ho Hd Hr Ha|c s Hc Ha|h s Hh Ha|h s|h s|x s Ha|c f s Hc Hd Hr|s|c s Hc].
  - by split; [apply new_frame_ok|].
  - split; [|done]. apply (set_frame_ok p f); try done; simpl.
    + apply NoDup_app. split_and!; [by apply (ok_tasks_nodup _ Hok p)| |apply NoDup_singleton].
      intros x Hx ->%list_elem_of_singleton. destruct Hc as (_ & _ & Hn). by apply (Hn p f).
    + intros x [Hx| ->%list_elem_of_singleton]%elem_of_app; [by left|by right].
  - split; [|done]. apply (set_frame_ok p f); try done; simpl.
    + by apply NoDup_filter, (ok_tasks_nodup _ Hok p).
    + intros x [_ Hx]%list_elem_of_filter. by left.
  - split; [|done]. apply (set_frame_ok p f); try done; simpl; [by apply (ok_tasks_nodup _ Hok p)|]. by left.
  - by split; [apply spawn_ok|].
  - by apply task_destroy_ok.
  - split; [by apply schedule_ok|apply schedule_resumed].
  - by destruct Hok.
  - by split; [apply unregister_ok|].
  - by apply cancel_spawned_ok.
  - split; [by apply (transfer_ok c f)|done].
  - by split; [apply inactive_ok|].
  - split; [by apply complete_ok|]. unfold final_suspend. destruct (heap s !! c); [|done]. by case_decide.
Qed.

Lemma body_steps_ok s s' : rtc body_step s s' -> sched_ok s -> sched_ok s' /\ resumed s' = resumed s.
Proof.
  induction 1 as [|s1 s2 s3 H1 _ IH]; intros Hok; [done|]. destruct (body_step_ok _ _ H1 Hok) as [Hok2 E].
  destruct (IH Hok2) as [Hok3 E']. split; [done|congruence].
Qed.

(** The front of the queue popped, and logged as resumed or as skipped. *)
Lemma pop_ready_ok h q s :
  sched_ok s -> ready_queue_ s = h :: q ->
  sched_ok (log_skipped h (pop_ready q h s)) /\
  (is_done h s = false -> sched_ok (with_active (Some h) (log_resumed h (pop_ready q h s)))).
Proof.
  intros [] Hq. rewrite Hq in *. apply NoDup_cons in ok_nodup0 as [Hh Hnd].
  assert (forall x, x ∈ q <-> x ∈ in_flight_ s ∖ {[ h ]}) as Hflight.
  { intros x. rewrite elem_of_difference, <- ok_flight0, elem_of_cons, elem_of_singleton. split; [|naive_solver].
    intros Hx. split; [by right|]. by intros ->. }
  destruct (ok_ready0 h ltac:(by left)) as (f & Hf & Hdf).
  split; [|intros Hd]; (split; simpl; try done); try (by intros x Hx; apply ok_ready0; right).
  - rewrite ok_log0. apply Permutation_app_head. simpl. rewrite app_assoc, <- Permutation_cons_append. done.
  - etrans; [|exact ok_order0]. apply sublist_app; [done|]. by apply sublist_cons.
  - intros c Hc Hin. apply ok_active_ready0; [done|by right].
  - by rewrite ok_log0, <- app_assoc.
  - by rewrite <- app_assoc.
  - intros x [= <-]. unfold is_done in Hd. rewrite Hf in Hd. eauto.
  - by intros x [= <-].
Qed.

Lemma drain_destroy_ok n s :
  sched_ok s -> active s = None -> (lax = true -> ready_queue_ s = []) -> sched_ok (drain_destroy n s).
Proof.
  revert s. induction n as [|n IH]; intros s Hok Hact Hrd; [done|]. cbn [drain_destroy].
  destruct (last (frames_to_destroy_ s)) as [h|] eqn:El; [|done]. apply last_Some in El as [l El]. rewrite El.
  rewrite length_app, Nat.add_sub, take_app_length.
  pose proof (ok_deferred_nodup s Hok) as Hnd. rewrite El in Hnd. apply NoDup_app in Hnd as (Hnd & Hdis & _).
  assert (h ∉ l) as Hl by (intros Hx; by apply (Hdis h Hx), list_elem_of_singleton).
  assert (h ∈ owned_frames_ s /\ is_done h s = true) as [Ho Hd].
  { apply (ok_deferred s Hok). rewrite El. set_solver. }
  assert (forall x, x ∈ ready_queue_ s -> exists f, heap s !! x = Some f /\ f_done f = false) as Hready.
  { intros x Hx. destruct (ok_ready s Hok x Hx) as (f & Hf & [?|[Hlax _]]); [eauto|]. rewrite (Hrd Hlax) in Hx. by apply elem_of_nil in Hx. }
  assert (h ∉ ready_queue_ s) as Hr.
  { intros Hr. destruct (Hready h Hr) as (f & Hf & Hd'). unfold is_done in Hd. rewrite Hf in Hd. congruence. }
  assert (sched_ok (with_to_destroy l s)) as Hok1.
  { destruct Hok; split; simpl; try done.
    - intros x Hx. destruct (Hready x Hx) as (f & ? & ?). exists f. auto.
    - intros x Hx. apply ok_deferred0. rewrite El. set_solver. }
  pose proof (with_owned_ok h _ Hok1 Hl Hr) as Hok2. simpl in Hok2.
  set (s2 := with_owned _ _) in *. simpl. fold s2.
  destruct (destroy_spec (cascade s2) h s2 Hok2) as (Hok3 & Hs & _); [| |by intros a; simpl; rewrite Hact|unfold cascade; lia|].
  - split_and!; [by apply (ok_owned s Hok)|simpl; set_solver|]. intros p f Hp Hc. by destruct (ok_tasks s Hok p f h Hp Hc).
  - done.
  - apply IH; [exact Hok3|etrans; [exact (sh_active _ _ Hs)|done]|]. intros Hlax. pose proof (sh_ready _ _ Hs) as Hsub. simpl in Hsub.
    rewrite (Hrd Hlax) in Hsub. by apply list_nil_subseteq in Hsub.
Qed.

Lemma sched_empty_ok : sched_ok sched_empty.
Proof.
  split; try done; try (by intros ? []%elem_of_nil); try (by constructor); intros; set_solver.
Qed.

Section RunFacts.
Context (resume : Z -> sched -> sched).
Hypothesis resume_body : forall h s, sched_ok s -> active s = Some h -> rtc body_step s (resume h s).

(** One turn of the loop: the front of the queue is live, and is resumed unless it has
    completed, which takes a wake-up of an executing coroutine. *)
Lemma run_loop_step fuel max_count count s h q :
  sched_ok s -> ready_queue_ s = h :: q ->
  exists s1 hs, sched_ok s1 /\ active s1 = (if hs is [] then active s else None) /\ resumed s1 = resumed s ++ hs /\ zlen hs <= 1 /\
    (lax = false -> hs = [h]) /\
    run_loop resume (S fuel) max_count count s =
      if negb (max_count =? 0) && (max_count <=? count + zlen hs) then Some (count + zlen hs, s1)
      else run_loop resume fuel max_count (count + zlen hs) s1.
Proof.
  intros Hok Hq. destruct (pop_ready_ok h q s Hok Hq) as [Hskip Hres].
  destruct (ok_ready s Hok h) as (f & Hf & Hd); [rewrite Hq; by left|]. cbn [run_loop]. rewrite Hq.
  change (heap (pop_ready q h s)) with (heap s). rewrite Hf. unfold is_done in Hres. rewrite Hf in Hres.
  destruct (f_done f).
  - exists (log_skipped h (pop_ready q h s)), []. change (zlen []) with 0. rewrite Z.add_0_r, app_nil_r.
    split_and!; try done. intros Hl. destruct Hd as [?|[? _]]; congruence.
  - specialize (Hres eq_refl). destruct (body_steps_ok _ _ (resume_body h _ Hres eq_refl) Hres) as [Hok2 E].
    exists (with_active None (resume h (with_active (Some h) (log_resumed h (pop_ready q h s))))), [h].
    split_and!; try done. by apply inactive_ok.
Qed.

Lemma run_loop_ok fuel max_count count s n s' :
  sched_ok s -> active s = None -> run_loop resume fuel max_count count s = Some (n, s') ->
  sched_ok s' /\ active s' = None /\ (exists hs, resumed s' = resumed s ++ hs /\ n = count + zlen hs) /\
  (max_count = 0 -> ready_queue_ s' = []).
Proof.
  revert count s. induction fuel as [|fuel IH]; intros count s Hok Ha Hrun; destruct (ready_queue_ s) as [|h q] eqn:Hq.
  1,3: cbn [run_loop] in Hrun; rewrite Hq in Hrun; injection Hrun as <- <-; split_and!; try done;
       exists []; rewrite app_nil_r; split; [done|unfold zlen; simpl; lia].
  - cbn [run_loop] in Hrun. by rewrite Hq in Hrun.
  - destruct (run_loop_step fuel max_count count s h q Hok Hq) as (s1 & hs & Hok1 & Ha1 & E1 & _ & _ & Er). rewrite Er in Hrun.
    assert (active s1 = None) as Ha2 by (rewrite Ha1; by destruct hs).
    destruct (negb (max_count =? 0) && (max_count <=? count + zlen hs)) eqn:Eb.
    + injection Hrun as <- <-. split_and!; [done|done|by exists hs|]. intros ->. done.
    + destruct (IH _ _ Hok1 Ha2 Hrun) as (Hok' & Ha' & (hs' & E & ->) & Hr). split_and!; [done|done| |done]. exists (hs ++ hs').
      rewrite E, E1, <- app_assoc. split; [done|]. unfold zlen. rewrite length_app. lia.
Qed.

Lemma run_loop_bounded fuel max_count count s :
  lax = false -> sched_ok s -> 0 <= count < max_count -> max_count - count <= Z.of_nat fuel ->
  exists n s', run_loop resume fuel max_count count s = Some (n, s') /\ n <= max_count /\
    (n < max_count -> ready_queue_ s' = []).
Proof.
  intros Hlax. revert count s. induction fuel as [|fuel IH]; intros count s Hok Hc Hf; [lia|].
  destruct (ready_queue_ s) as [|h q] eqn:Hq.
  { exists count, s. cbn [run_loop]. rewrite Hq. split_and!; [done|lia|done]. }
  destruct (run_loop_step fuel max_count count s h q Hok Hq) as (s1 & hs & Hok1 & _ & _ & _ & Hhs & ->).
  rewrite (Hhs Hlax). change (zlen [h]) with 1.
  destruct (Z.eqb_spec max_count 0); [lia|]. simpl. destruct (Z.leb_spec max_count (count + 1)).
  - exists (count + 1), s1. split_and!; [done|lia|lia].
  - destruct (IH (count + 1) s1 Hok1 ltac:(lia) ltac:(lia)) as (n0 & s' & E & Hn & He). eauto.
Qed.

Lemma with_running_ok b s : sched_ok s -> sched_ok (with_running b s).
Proof. by intros []. Qed.

Lemma run_ready_ok fuel max_count s n s' :
  sched_ok s -> active s = None -> (lax = true -> max_count = 0) ->
  run_ready resume fuel max_count s = Some (n, s') -> sched_ok s'.
Proof.
  intros Hok Ha Hl. unfold run_ready. destruct (in_run_ready_ s); [by intros [= <- <-]|].
  destruct (run_loop _ _ _ _ _) as [[n1 s1]|] eqn:El; [|done]. intros [= <- <-].
  destruct (run_loop_ok _ _ _ _ _ _ (with_running_ok true s Hok) Ha El) as (Hok1 & Ha1 & _ & Hr).
  apply with_running_ok, drain_destroy_ok; [done|done|]. intros Hlax. by apply Hr, Hl.
Qed.

(** The states of a scheduler driven from outside and by [run_ready], which the event loop
    calls. *)
Inductive reach : sched -> Prop :=
| reach_empty : reach sched_empty
| reach_step s s' : reach s -> body_step s s' -> reach s'
| reach_run fuel max_count s n s' :
    reach s -> active s = None -> (lax = true -> max_count = 0) -> run_ready resume fuel max_count s = Some (n, s') -> reach s'.

Lemma reach_ok s : reach s -> sched_ok s.
Proof.
  induction 1; [apply sched_empty_ok|by eapply body_step_ok|by eapply run_ready_ok].
Qed.
End RunFacts.
End Invariant.

(** * Properties *)

(** C4: coroutines may create, move, spawn and destroy tasks, wake one another, transfer
    control, register helpers, cancel spawned frames and complete, in any order, under the
    conditions of [body_step]: a wake-up names an allocated coroutine that is not executing,
    control is not transferred to a coroutine that is also queued, and no coroutine destroys
    itself or a frame that holds it. Then the scheduler never touches a frame that is not
    allocated, frees none twice and never frees the executing one: a handle is queued once and
    names an allocated coroutine that has not completed, and every frame the scheduler owns or
    is about to destroy is allocated. If spawned coroutines may even be woken while they
    execute ([lax]) this still holds for [run_ready] without a bound, where a queued handle
    that has completed is skipped before its frame is destroyed. *)
Theorem scheduler_memory_safe (lax : bool) (resume : Z -> sched -> sched) (s : sched) :
  (forall h s, sched_ok lax s -> active s = Some h -> rtc (body_step lax) s (resume h s)) -> reach lax resume s ->
  fault s = false /\ NoDup (ready_queue_ s) /\
  (forall h, h ∈ ready_queue_ s -> exists f, heap s !! h = Some f /\ (f_done f = false \/ lax = true /\ h ∈ frames_to_destroy_ s)) /\
  (forall h, h ∈ owned_frames_ s -> is_Some (heap s !! h)) /\
  (forall h, h ∈ frames_to_destroy_ s -> h ∈ owned_frames_ s /\ is_done h s = true) /\
  (forall h, active s = Some h -> exists f, heap s !! h = Some f /\ f_done f = false).
Proof. intros Hres Hs. destruct (reach_ok lax resume Hres s Hs). done. Qed.

(** Every wake-up counts once. The handles put on the ready queue are exactly those
    resumed since, those still waiting, and those taken out because their frame was
    destroyed or had completed; the first two are in the order in which they were queued. *)
Theorem scheduler_fifo (lax : bool) (resume : Z -> sched -> sched) (s : sched) :
  (forall h s, sched_ok lax s -> active s = Some h -> rtc (body_step lax) s (resume h s)) -> reach lax resume s ->
  pushed s ≡ₚ resumed s ++ ready_queue_ s ++ scrubbed s /\ sublist (resumed s ++ ready_queue_ s) (pushed s).
Proof. intros Hres Hs. destruct (reach_ok lax resume Hres s Hs). done. Qed.

(** [run_ready(n)] with [n > 0] returns after at most [n] resumptions, whatever the
    coroutines reschedule; if it made fewer, it emptied the queue. *)
Theorem run_ready_bounded (resume : Z -> sched -> sched) (s : sched) (n : Z) :
  (forall h s, sched_ok false s -> active s = Some h -> rtc (body_step false) s (resume h s)) -> reach false resume s ->
  active s = None -> in_run_ready_ s = false -> 0 < n ->
  exists count s1 s', run_ready resume (Z.to_nat n) n s = Some (count, s') /\
    run_loop resume (Z.to_nat n) n 0 (with_running true s) = Some (count, s1) /\
    0 <= count <= n /\ (exists hs, resumed s1 = resumed s ++ hs /\ zlen hs = count) /\
    (count < n -> ready_queue_ s1 = []).
Proof.
  intros Hres Hs Ha Hrun Hn. pose proof (with_running_ok false true s (reach_ok false resume Hres s Hs)) as Hok.
  destruct (run_loop_bounded false resume Hres (Z.to_nat n) n 0 _ eq_refl Hok ltac:(lia) ltac:(lia)) as (count & s1 & El & Hc & He).
  destruct (run_loop_ok false resume Hres _ _ _ _ _ _ Hok Ha El) as (_ & _ & (hs & E & Hlen) & _).
  unfold run_ready. rewrite Hrun, El. eexists count, s1, _. split_and!; try done; [unfold zlen in Hlen; lia|].
  exists hs. by split; [|lia].
Qed.

(** A coroutine that spawns one child and completes; the child wakes itself first, where that
    is allowed. *)
Definition demo_spawn (h : Z) (s : sched) : sched :=
  match heap s !! h with
  | None => spawn_tracked h (with_heap (<[h := Frame false [] []]> (heap s)) s)
  | Some _ => s
  end.

Definition demo_resume (lax : bool) (h : Z) (s : sched) : sched :=
  final_suspend h (if h <? 100 then demo_spawn (h + 100) s
                   else if lax && bool_decide (h ∈ owned_frames_ s) then schedule_resume h s else s).

Lemma demo_spawn_body lax h s : sched_ok lax s -> active s <> Some h -> rtc (body_step lax) s (demo_spawn h s).
Proof.
  intros Hok Ha. unfold demo_spawn. destruct (heap s !! h) eqn:Hh; [apply rtc_refl|].
  eapply rtc_l; [by apply bs_new|]. apply rtc_once, bs_spawn; [| | |done].
  - split_and!; [by simpl; rewrite lookup_insert_eq|intros Ho; by destruct (ok_owned lax s Hok h Ho) as [? ?]; congruence|].
    intros p f Hp Hc. simpl in Hp. apply lookup_insert_Some in Hp as [[_ <-]|[_ Hp]]; [by apply elem_of_nil in Hc|].
    destruct (ok_tasks lax s Hok p f h Hp Hc) as [[? ?] _]. congruence.
  - unfold is_done. simpl. by rewrite lookup_insert_eq.
  - intros Hr. destruct (ok_ready lax s Hok h Hr) as (f & Hf & _). congruence.
Qed.

Lemma demo_resume_body lax h s : sched_ok lax s -> active s = Some h -> rtc (body_step lax) s (demo_resume lax h s).
Proof.
  intros Hok Ha. unfold demo_resume. eapply rtc_r; [|apply bs_complete].
  - destruct (h <? 100); [apply demo_spawn_body; [done|]; rewrite Ha; intros [= E]; lia|].
    destruct lax; [|apply rtc_refl]. simpl. case_bool_decide; [|apply rtc_refl].
    destruct (ok_active _ s Hok h Ha) as (f & Hf & _). apply rtc_once, bs_schedule; [by exists f|by right].
  - destruct (h <? 100); [unfold demo_spawn; by case_match|]. destruct (lax && _); [|done].
    unfold schedule_resume. case_match; [|done]. case_match; [done|]. by case_decide.
Qed.

Definition demo_sched : sched := demo_spawn 2 (demo_spawn 1 sched_empty).

Lemma demo_steps_reach lax resume s s' : reach lax resume s -> rtc (body_step lax) s s' -> reach lax resume s'.
Proof. intros Hs H. induction H; [done|]. apply IHrtc. by eapply reach_step. Qed.

Lemma demo_reach lax : reach lax (demo_resume lax) demo_sched.
Proof.
  eapply demo_steps_reach; [eapply demo_steps_reach; [apply reach_empty|]|]; apply demo_spawn_body; try done.
  - apply sched_empty_ok.
  - apply (body_steps_ok lax _ _ (demo_spawn_body lax 1 _ (sched_empty_ok lax) ltac:(done))), sched_empty_ok.
Qed.

(** Four coroutines run; two of them completed while they were queued. *)
Lemma scheduler_memory_safe_witness :
  match run_ready (demo_resume true) 9 0 demo_sched with
  | Some (n, s) => n = 4 /\ ready_queue_ s = [] /\ scrubbed s = [101; 102] /\ fault s = false /\
      (forall h, h ∈ owned_frames_ s -> is_Some (heap s !! h))
  | None => False
  end.
Proof.
  destruct (run_ready (demo_resume true) 9 0 demo_sched) as [[n s]|] eqn:E; [|by vm_compute in E].
  assert (n = 4 /\ ready_queue_ s = [] /\ scrubbed s = [101; 102]) as (-> & Hq & Hsc) by (vm_compute in E; injection E as <- <-; done).
  destruct (scheduler_memory_safe true (demo_resume true) s (demo_resume_body true)) as (H1 & _ & _ & H4 & _);
    [eapply (reach_run _ _ 9 0); [apply demo_reach|done|done|exact E]|]. split_and!; done.
Defined.

Lemma scheduler_fifo_witness :
  match run_ready (demo_resume false) 9 3 demo_sched with
  | Some (_, s) => resumed s = [1; 2; 101] /\ sublist ([1; 2; 101] ++ ready_queue_ s) (pushed s)
  | None => False
  end.
Proof.
  destruct (run_ready (demo_resume false) 9 3 demo_sched) as [[n s]|] eqn:E; [|by vm_compute in E].
  assert (resumed s = [1; 2; 101]) as Hq by (vm_compute in E; injection E as <- <-; done).
  split; [done|]. rewrite <- Hq. apply (scheduler_fifo false (demo_resume false) s (demo_resume_body false)).
  eapply (reach_run _ _ 9 3); [apply demo_reach|done|done|exact E].
Defined.

Lemma run_ready_bounded_witness :
  exists count s', run_ready (demo_resume false) (Z.to_nat 3) 3 demo_sched = Some (count, s') /\ 0 <= count <= 3.
Proof.
  destruct (run_ready_bounded (demo_resume false) demo_sched 3 (demo_resume_body false) (demo_reach false) eq_refl eq_refl ltac:(lia))
    as (count & s1 & s' & E & _ & Hc & _). eauto.
Defined.

(** With a bound, the wake-up of an executing coroutine is not safe: a spawned coroutine that
    was woken while it executed and then completed is destroyed at the end of the bounded run,
    its handle stays in the ready queue, and the next run tests a freed frame. *)
Theorem wake_while_running_dangles :
  match run_ready (demo_resume true) 9 1 (demo_spawn 101 sched_empty) with
  | Some (n, s) => n = 1 /\ fault s = false /\ ready_queue_ s = [101] /\ heap s = ∅ /\
      match run_ready (demo_resume true) 9 1 s with Some (_, s') => fault s' = true | None => False end
  | None => False
  end.
Proof. vm_compute. repeat split; reflexivity. Qed.

(** A frame that holds nothing is freed alone. *)
Lemma destroy_leaf_frame n h s :
  heap s !! h = Some (Frame false [] []) -> active s <> Some h ->
  destroy (S n) h s = unregister_suspended h (with_heap (delete h (heap s)) s).
Proof. intros Hh Ha. cbn [destroy]. by rewrite Hh, decide_False. Qed.

(** [listener::reset_coro_scheduler] with a spawned coroutine that has not run yet reads a
    freed frame: [destroy_all_suspended] destroys the frame but leaves its handle in the ready
    queue, where the destructor of the scheduler tests it with [done()]. *)
Theorem reset_reads_freed_frame (walk : gset Z -> list Z) (h : Z) :
  walk ∅ = [] -> walk {[ h ]} = [ h ] -> fault (reset_coro_scheduler walk (demo_spawn h sched_empty)) = true.
Proof.
  intros Hw0 Hw1. unfold demo_spawn. change (heap sched_empty) with (∅ : gmap Z frame). rewrite lookup_empty.
  set (s0 := spawn_tracked h _). assert (owned_frames_ s0 = {[ h ]}) as Ho by apply union_empty_r_L.
  set (s1 := with_to_destroy [] (with_owned ∅ s0)).
  assert (heap s1 !! h = Some (Frame false [] [])) as Hh by apply lookup_insert_eq.
  assert (destroy_root h (with_owned ∅ s0) = unregister_suspended h (with_heap (delete h (heap s1)) s1)) as Hd.
  { unfold destroy_root. change (with_to_destroy _ _) with s1. rewrite Hh. unfold cascade. by rewrite destroy_leaf_frame. }
  unfold reset_coro_scheduler, destroy_all_suspended. rewrite Ho, Hw1. cbn [fold_left]. rewrite Hd.
  change (suspended_coroutines_ _) with (∅ ∖ {[ h ]} : gset Z). replace (∅ ∖ {[ h ]}) with (∅ : gset Z) by set_solver. rewrite Hw0.
  unfold scheduler_destructor. simpl. by rewrite lookup_delete_eq.
Qed.

Lemma reset_reads_freed_frame_witness :
  fault (reset_coro_scheduler elements (demo_spawn 5 sched_empty)) = true.
Proof. apply (reset_reads_freed_frame elements 5); by vm_compute. Defined.
