(* ===== verification/Sync.v ===== *)
(** What the coroutine synchronisation primitives (src/qb/io/async/coroutine/sync.h) share:
    the wait queues, and the accounting of the awaiters in a table.

    Coroutines run one at a time on a thread, so every operation of a primitive is atomic. An
    awaiter is named by the handle of the coroutine it belongs to; its fields live in a table
    [nodes] from the [co_await] until it is destroyed, which may be before it is resumed (a
    loser of [when_any], a frame reclaimed by its owner). *)

From S2P Require Import Prelude.

(** [erase_handle], [remove_parked], [remove_waiter]: the queue without the first [h], or
    [None] when [h] is not queued. *)
Fixpoint erase_handle (h : Z) (q : list Z) : option (list Z) :=
  match q with
  | [] => None
  | x :: q => if x =? h then Some q else cons x <$> erase_handle h q
  end.

Lemma erase_handle_spec h q :
  match erase_handle h q with
  | Some q' => q ≡ₚ h :: q' /\ sublist q' q
  | None => h ∉ q
  end.
Proof.
  induction q as [|x q IH]; simpl; [apply not_elem_of_nil|]. destruct (Z.eqb_spec x h) as [->|Hx].
  - split; [done|by constructor].
  - destruct (erase_handle h q) as [q'|]; simpl.
    + destruct IH as [Hp Hs]. split; [|by constructor]. rewrite Hp. apply Permutation_swap.
    + apply not_elem_of_cons. done.
Qed.

(** In a queue without duplicates nothing else moves. *)
Lemma erase_handle_nodup h q q' :
  NoDup q -> erase_handle h q = Some q' -> NoDup q' /\ h ∈ q /\ forall x, x ∈ q' <-> x ∈ q /\ x <> h.
Proof.
  intros Hnd E. pose proof (erase_handle_spec h q) as Hs. rewrite E in Hs. destruct Hs as [Hp _].
  rewrite Hp in Hnd. apply NoDup_cons in Hnd as [Hh Hnd]. split; [done|]. split; [rewrite Hp; by left|].
  intros x. rewrite Hp, elem_of_cons. split; [|tauto]. intros Hx. split; [by right|]. by intros ->.
Qed.

(** [l] lists, once each, the keys of the table whose entry satisfies [f]. *)
Section Counting.
Context {A : Type}.
Implicit Types (f : A -> bool) (m : gmap Z A) (l : list Z).

Definition has f m (h : Z) : bool := match m !! h with Some n => f n | None => false end.
Definition counts f m l : Prop := NoDup l /\ forall h, h ∈ l <-> has f m h = true.

Lemma counts_empty f : counts f ∅ [].
Proof. split; [constructor|]. intros h. unfold has. rewrite lookup_empty. split; [intros []%elem_of_nil|done]. Qed.

Lemma counts_same f m m' l : counts f m l -> (forall x, has f m' x = has f m x) -> counts f m' l.
Proof. intros [Hnd Hl] Hx. split; [done|]. intros h. by rewrite Hx. Qed.

Lemma counts_add f m m' l h :
  counts f m l -> has f m h = false -> has f m' h = true -> (forall x, x <> h -> has f m' x = has f m x) ->
  counts f m' (l ++ [h]).
Proof.
  intros [Hnd Hl] H0 H1 Hx. split.
  - apply NoDup_app. split_and!; [done| |apply NoDup_singleton].
    intros x Hin ->%list_elem_of_singleton. apply Hl in Hin. congruence.
  - intros x. rewrite elem_of_app, list_elem_of_singleton. destruct (decide (x = h)) as [->|Hne]; [tauto|].
    rewrite Hx, Hl by done. tauto.
Qed.

Lemma counts_del f m m' l l' h :
  counts f m l -> l ≡ₚ h :: l' -> has f m' h = false -> (forall x, x <> h -> has f m' x = has f m x) -> counts f m' l'.
Proof.
  intros [Hnd Hl] Hp H1 Hx. rewrite Hp in Hnd. apply NoDup_cons in Hnd as [Hh Hnd]. split; [done|].
  intros x. destruct (decide (x = h)) as [->|Hne]; [by rewrite H1|]. rewrite Hx, <- Hl, Hp, elem_of_cons by done. tauto.
Qed.

(** An entry that satisfies [f] is somewhere in the list. *)
Lemma counts_split f m l h : counts f m l -> has f m h = true -> exists l', l ≡ₚ h :: l'.
Proof. intros [_ Hl] Hh. apply Hl, list_elem_of_split in Hh as (l1 & l2 & ->). exists (l1 ++ l2). by rewrite Permutation_middle. Qed.

Lemma has_insert f m h n x : has f (<[h := n]> m) x = if decide (x = h) then f n else has f m x.
Proof. unfold has. case_decide as E; [subst; by rewrite lookup_insert_eq|by rewrite lookup_insert_ne]. Qed.

Lemma has_delete f m h x : has f (delete h m) x = if decide (x = h) then false else has f m x.
Proof. unfold has. case_decide as E; [subst; by rewrite lookup_delete_eq|by rewrite lookup_delete_ne]. Qed.

Lemma alter_Some (g : A -> A) m h n : m !! h = Some n -> alter g h m = <[h := g n]> m.
Proof.
  intros E. apply map_eq. intros x. destruct (decide (x = h)) as [->|].
  - by rewrite lookup_alter_eq, E, lookup_insert_eq.
  - by rewrite lookup_alter_ne, lookup_insert_ne.
Qed.

Lemma has_None f m h : m !! h = None -> has f m h = false.
Proof. unfold has. by intros ->. Qed.

Lemma has_Some f m h n : m !! h = Some n -> has f m h = f n.
Proof. unfold has. by intros ->. Qed.

(** A new entry. *)
Lemma counts_insert_false f m l h n : counts f m l -> m !! h = None -> f n = false -> counts f (<[h := n]> m) l.
Proof.
  intros Hc Hh Hf. apply (counts_same _ m); [done|]. intros x. rewrite has_insert.
  case_decide; [subst; by rewrite has_None|done].
Qed.

Lemma counts_insert_true f m l h n : counts f m l -> m !! h = None -> f n = true -> counts f (<[h := n]> m) (l ++ [h]).
Proof.
  intros Hc Hh Hf. apply (counts_add _ m); [done|by apply has_None|by rewrite has_insert, decide_True|].
  intros x Hx. by rewrite has_insert, decide_False.
Qed.

(** An entry that goes away, or changes. *)
Lemma counts_delete_false f m l h n : counts f m l -> m !! h = Some n -> f n = false -> counts f (delete h m) l.
Proof.
  intros Hc Hh Hf. apply (counts_same _ m); [done|]. intros x. rewrite has_delete.
  case_decide; [subst; by rewrite (has_Some _ _ _ _ Hh)|done].
Qed.

Lemma counts_delete_true f m l h n :
  counts f m l -> m !! h = Some n -> f n = true -> exists l', l ≡ₚ h :: l' /\ zlen l = zlen l' + 1 /\ counts f (delete h m) l'.
Proof.
  intros Hc Hh Hf. destruct (counts_split f m l h Hc) as [l' Hp]; [by rewrite (has_Some _ _ _ _ Hh)|].
  exists l'. split_and!; [done|apply Permutation_length in Hp; unfold zlen; simpl in Hp; lia|].
  eapply (counts_del _ m); [done|done|by rewrite has_delete, decide_True|].
  intros x Hx. by rewrite has_delete, decide_False.
Qed.

Lemma counts_change_false f m l h n n' :
  counts f m l -> m !! h = Some n -> f n = f n' -> counts f (<[h := n']> m) l.
Proof.
  intros Hc Hh Hf. apply (counts_same _ m); [done|]. intros x. rewrite has_insert.
  case_decide; [subst; by rewrite (has_Some _ _ _ _ Hh)|done].
Qed.

Lemma counts_change_true f m l h n n' :
  counts f m l -> m !! h = Some n -> f n = true -> f n' = false ->
  exists l', zlen l = zlen l' + 1 /\ counts f (<[h := n']> m) l'.
Proof.
  intros Hc Hh Hf Hf'. destruct (counts_split f m l h Hc) as [l' Hp]; [by rewrite (has_Some _ _ _ _ Hh)|].
  exists l'. split; [apply Permutation_length in Hp; unfold zlen; simpl in Hp; lia|].
  eapply (counts_del _ m); [done|done|by rewrite has_insert, decide_True|].
  intros x Hx. by rewrite has_insert, decide_False.
Qed.
End Counting.

(** Decides what an updated table has at a key. *)
Ltac has_solve :=
  intros; rewrite ?has_insert, ?has_delete; repeat case_decide; subst; try done; try congruence.
