(* ===== verification/SyncSemaphore.v ===== *)
(** [semaphore] (src/qb/io/async/coroutine/sync.h), with plain and cancellation-aware
    acquirers. [woken] is the log of [schedule_via_current]; the ghost counter [holders] says
    how many coroutines own a permit. *)

From S2P Require Import Prelude Sync.

Record semaphore := Make { _permits : Z; _available : Z; _held : Z; _waiters : list Z }.

(** [waiter_node] and the flags of [acquire_awaiter] / [cancel_acquire_awaiter] of a parked
    acquirer. *)
Record node := Node { granted : bool; cancelled : bool; resumed : bool; with_token : bool }.

Record sys := Sys { sem : semaphore; nodes : gmap Z node; woken : list Z; holders : Z }.

Definition create (permits : Z) : sys := Sys (Make permits permits 0 []) ∅ [] 0.

(** The fast path of [await_ready], [await_suspend] and [try_acquire]. *)
Definition take (m : semaphore) : semaphore := Make (_permits m) (_available m - 1) (_held m + 1) (_waiters m).

Definition try_acquire (s : sys) : bool * sys :=
  if 0 <? _available (sem s) then (true, Sys (take (sem s)) (nodes s) (woken s) (holders s + 1)) else (false, s).

(** [co_await acquire()]: [await_ready], then [await_suspend]. *)
Definition acquire (h : Z) (token : bool) (s : sys) : sys :=
  if 0 <? _available (sem s) then Sys (take (sem s)) (nodes s) (woken s) (holders s + 1)
  else
    let m := sem s in
    Sys (Make (_permits m) (_available m) (_held m) (_waiters m ++ [h]))
        (<[h := Node false false false token]> (nodes s)) (woken s) (holders s).

(** [co_await acquire(token)]: an already cancelled token throws before taking anything. *)
Definition acquire_token (h : Z) (is_cancelled : bool) (s : sys) : sys :=
  if is_cancelled then s else acquire h true s.

(** [semaphore::release]. *)
Definition release (s : sys) : sys :=
  let m := sem s in
  if _held m =? 0 then s
  else match _waiters m with
  | h :: q =>
      Sys (Make (_permits m) (_available m) (_held m) q)
          (alter (fun n => Node true (cancelled n) (resumed n) (with_token n)) h (nodes s)) (woken s ++ [h]) (holders s)
  | [] =>
      Sys (Make (_permits m) (if _available m <? _permits m then _available m + 1 else _available m) (_held m - 1) [])
          (nodes s) (woken s) (holders s)
  end.

(** A coroutine that holds a permit gives it back. *)
Definition holder_release (s : sys) : sys :=
  if 0 <? holders s then release (Sys (sem s) (nodes s) (woken s) (holders s - 1)) else s.

Definition remove_waiter (h : Z) (s : sys) : sys :=
  let m := sem s in
  match erase_handle h (_waiters m) with
  | Some q => Sys (Make (_permits m) (_available m) (_held m) q) (nodes s) (woken s) (holders s)
  | None => s
  end.

(** The [on_cancel] callback of a parked acquirer; [await_resume] deregisters it. *)
Definition cancel (h : Z) (s : sys) : sys :=
  match nodes s !! h with
  | Some n =>
      if with_token n && negb (granted n) && negb (cancelled n) && negb (resumed n) then
        let s := Sys (sem s) (<[h := Node (granted n) true (resumed n) true]> (nodes s)) (woken s) (holders s) in
        let s := remove_waiter h s in
        Sys (sem s) (nodes s) (woken s ++ [h]) (holders s)
      else s
  | None => s
  end.

(** [await_resume] of an acquirer that was scheduled: a permit, or [cancelled_error]. *)
Definition resume (h : Z) (s : sys) : sys :=
  match nodes s !! h with
  | Some n =>
      if (granted n || cancelled n) && negb (resumed n) then
        Sys (sem s) (<[h := Node (granted n) (cancelled n) true (with_token n)]> (nodes s)) (woken s)
            (if granted n then holders s + 1 else holders s)
      else s
  | None => s
  end.

(** [~acquire_awaiter] and [~cancel_acquire_awaiter] of a parked acquirer. *)
Definition destroy (h : Z) (s : sys) : sys :=
  match nodes s !! h with
  | Some n =>
      let s := Sys (sem s) (delete h (nodes s)) (woken s) (holders s) in
      if resumed n then s
      else if granted n then release s
      else if cancelled n then s
      else remove_waiter h s
  | None => s
  end.

Inductive op :=
| OTry | OAcquire (h : Z) (token : bool) | OAcquireToken (h : Z) (is_cancelled : bool) | ORelease
| OCancel (h : Z) | OResume (h : Z) | ODestroy (h : Z).

(** A handle belongs to one suspended coroutine at a time. *)
Definition step (o : op) (s : sys) : sys :=
  match o with
  | OTry => (try_acquire s).2
  | OAcquire h token => if decide (h ∈ dom (nodes s)) then s else acquire h token s
  | OAcquireToken h c => if decide (h ∈ dom (nodes s)) then s else acquire_token h c s
  | ORelease => holder_release s
  | OCancel h => cancel h s
  | OResume h => resume h s
  | ODestroy h => destroy h s
  end.

(** A parked acquirer waits in the queue; one that was granted a permit owns it until it
    resumes or is destroyed. *)
Definition waiting (n : node) : bool := negb (granted n) && negb (cancelled n) && negb (resumed n).
Definition pending (n : node) : bool := granted n && negb (resumed n).

Record inv (s : sys) : Prop := Inv {
  inv_total : _available (sem s) + _held (sem s) = _permits (sem s);
  inv_avail : 0 <= _available (sem s);
  inv_idle : 0 < _available (sem s) -> _waiters (sem s) = [];
  inv_queue : counts waiting (nodes s) (_waiters (sem s));
  inv_held : exists pend, counts pending (nodes s) pend /\ _held (sem s) = holders s + zlen pend;
  inv_holders : 0 <= holders s;
}.

Lemma sem_create_inv permits : 0 <= permits -> inv (create permits).
Proof.
  intros Hp. split; simpl; try done; try lia; [apply counts_empty|]. exists []. split; [apply counts_empty|done].
Qed.

(** Taking a permit on the fast path. *)
Lemma sem_take_inv s :
  inv s -> 0 < _available (sem s) -> inv (Sys (take (sem s)) (nodes s) (woken s) (holders s + 1)).
Proof.
  intros [Ht Ha Hi Hq (pend & Hp & Hh) Hn] Hav. specialize (Hi Hav). split; simpl; try done; try lia.
  exists pend. split; [done|lia].
Qed.

Lemma sem_acquire_inv h token s : inv s -> nodes s !! h = None -> inv (acquire h token s).
Proof.
  intros Hinv Hh. unfold acquire. destruct (Z.ltb_spec 0 (_available (sem s))) as [Ha|Ha]; [by apply sem_take_inv|].
  destruct Hinv as [Ht Ha' Hi Hq (pend & Hp & Hhe) Hn]. split; simpl; try done; try lia.
  - apply (counts_add _ (nodes s)); [done|by apply has_None|by rewrite has_insert, decide_True|has_solve].
  - exists pend. split; [|done]. apply (counts_same _ (nodes s)); [done|]. has_solve. by rewrite has_None.
Qed.

(** One permit is given back: [d] is what it adds to the permits accounted for. *)
Lemma sem_release_inv s :
  inv (Sys (sem s) (nodes s) (woken s) (holders s + 1)) -> 0 <= holders s -> inv (release s).
Proof.
  intros [Ht Ha Hi Hq (pend & Hp & Hh) Hn] Hn'. simpl in *. unfold release.
  pose proof (zlen_nonneg pend). destruct (Z.eqb_spec (_held (sem s)) 0); [lia|].
  destruct (_waiters (sem s)) as [|h q] eqn:Eq; simpl.
  - split; simpl; try done; try (zcase; lia). exists pend. split; [done|lia].
  - assert (has waiting (nodes s) h = true) as Hw by (apply Hq; by left). pose proof Hw as Hw'. unfold has in Hw'.
    destruct (nodes s !! h) as [n0|] eqn:En; [|done].
    rewrite (alter_Some _ _ _ _ En).
    assert (resumed n0 = false /\ granted n0 = false) as [Hr Hg].
    { unfold waiting in Hw'. destruct (granted n0), (cancelled n0), (resumed n0); done. }
    split; simpl; try done.
    + intros Hav. by specialize (Hi Hav).
    + eapply (counts_del _ (nodes s)); [exact Hq|done|by rewrite has_insert, decide_True|has_solve].
    + exists (pend ++ [h]). split.
      * eapply (counts_add _ (nodes s)); [exact Hp| | |has_solve].
        -- rewrite (has_Some _ _ _ _ En). unfold pending. by rewrite Hg.
        -- rewrite has_insert, decide_True by done. unfold pending. simpl. by rewrite Hr.
      * zlens.
Qed.

Lemma sem_holder_release_inv s : inv s -> inv (holder_release s).
Proof.
  intros Hinv. unfold holder_release. destruct (Z.ltb_spec 0 (holders s)); [|done].
  apply sem_release_inv; simpl; [|lia]. replace (holders s - 1 + 1) with (holders s) by lia. by destruct s.
Qed.

(** Taking a waiting acquirer out of the queue and of the table, or marking it cancelled. *)
Lemma sem_retract_inv h n m' s :
  inv s -> nodes s !! h = Some n -> waiting n = true ->
  (forall x, has waiting m' x = if decide (x = h) then false else has waiting (nodes s) x) ->
  (forall x, has pending m' x = has pending (nodes s) x) ->
  inv (remove_waiter h (Sys (sem s) m' (woken s) (holders s))).
Proof.
  intros [Ht Ha Hi Hq (pend & Hp & Hh) Hn] En Hw Hm1 Hm2. unfold remove_waiter. simpl.
  pose proof (erase_handle_spec h (_waiters (sem s))) as He. destruct (erase_handle h (_waiters (sem s))) as [q|].
  - destruct He as [Hperm _]. split; simpl; try done.
    + intros Hav. specialize (Hi Hav). rewrite Hi in Hperm. by apply Permutation_nil_cons in Hperm.
    + eapply (counts_del _ (nodes s)); [exact Hq|exact Hperm|rewrite Hm1; by rewrite decide_True|].
      intros x Hx. rewrite Hm1. by rewrite decide_False.
    + exists pend. split; [|done]. by eapply counts_same.
  - destruct He. apply Hq. by rewrite (has_Some _ _ _ _ En).
Qed.

Lemma sem_remove_waiter_woken h s w :
  remove_waiter h (Sys (sem s) (nodes s) (woken s ++ w) (holders s)) =
  let s' := remove_waiter h s in Sys (sem s') (nodes s') (woken s' ++ w) (holders s').
Proof. unfold remove_waiter. simpl. by destruct (erase_handle h (_waiters (sem s))). Qed.

Lemma sem_inv_woken s w : inv s -> inv (Sys (sem s) (nodes s) w (holders s)).
Proof. by intros []. Qed.

Lemma sem_cancel_inv h s : inv s -> inv (cancel h s).
Proof.
  intros Hinv. unfold cancel. destruct (nodes s !! h) as [n|] eqn:En; [|done].
  destruct (with_token n), (granted n) eqn:Eg, (cancelled n) eqn:Ec, (resumed n) eqn:Er; simpl; try done.
  apply sem_inv_woken, (sem_retract_inv h n); [done|done|by unfold waiting; rewrite Eg, Ec, Er| |]; has_solve.
  rewrite (has_Some _ _ _ _ En). unfold pending. by rewrite Eg.
Qed.

Lemma sem_resume_inv h s : inv s -> inv (resume h s).
Proof.
  intros Hinv. unfold resume. destruct (nodes s !! h) as [n|] eqn:En; [|done].
  destruct (resumed n) eqn:Er; [by rewrite andb_false_r|]. destruct Hinv as [Ht Ha Hi Hq (pend & Hp & Hh) Hn].
  assert (granted n || cancelled n = true -> has waiting (nodes s) h = false) as Hw.
  { rewrite (has_Some _ _ _ _ En). unfold waiting. by destruct (granted n), (cancelled n). }
  destruct (granted n) eqn:Eg; simpl.
  - assert (has pending (nodes s) h = true) as Hpen by (rewrite (has_Some _ _ _ _ En); unfold pending; by rewrite Eg, Er).
    destruct (counts_split _ _ _ _ Hp Hpen) as [pend' Hperm]. split; simpl; try done; try lia.
    + apply (counts_same _ (nodes s)); [done|]. has_solve. by rewrite Hw.
    + exists pend'. split; [eapply (counts_del _ (nodes s)); [done|done|by rewrite has_insert, decide_True|has_solve]|].
      apply Permutation_length in Hperm. simpl in Hperm. unfold zlen in *. lia.
  - destruct (cancelled n) eqn:Ec; simpl; [|by split; try done; exists pend].
    split; simpl; try done; try lia.
    + apply (counts_same _ (nodes s)); [done|]. has_solve. by rewrite Hw.
    + exists pend. split; [|done]. apply (counts_same _ (nodes s)); [done|]. has_solve.
      rewrite (has_Some _ _ _ _ En). unfold pending. by rewrite Eg.
Qed.

Lemma sem_destroy_inv h s : inv s -> inv (destroy h s).
Proof.
  intros Hinv. unfold destroy. destruct (nodes s !! h) as [n|] eqn:En; [|done].
  assert (forall f, f n = false -> forall x, has f (delete h (nodes s)) x = has f (nodes s) x) as Hsame.
  { intros f Hf x. rewrite has_delete. case_decide; [subst; by rewrite (has_Some _ _ _ _ En)|done]. }
  destruct (resumed n) eqn:Er; [|destruct (granted n) eqn:Eg; [|destruct (cancelled n) eqn:Ec]].
  2: { destruct Hinv as [Ht Ha Hi Hq (pend & Hp & Hh) Hn].
    assert (has pending (nodes s) h = true) as Hpen by (rewrite (has_Some _ _ _ _ En); unfold pending; by rewrite Eg, Er).
    destruct (counts_split _ _ _ _ Hp Hpen) as [pend' Hperm]. apply sem_release_inv; simpl; [|done].
    split; simpl; try done; try lia.
    - apply (counts_same _ (nodes s)); [done|]. apply Hsame. unfold waiting. by rewrite Eg.
    - exists pend'. split; [eapply (counts_del _ (nodes s)); [done|done|by rewrite has_delete, decide_True|has_solve]|].
      apply Permutation_length in Hperm. simpl in Hperm. unfold zlen in *. lia. }
  3: { apply (sem_retract_inv h n); [done|done|by unfold waiting; rewrite Eg, Ec, Er|has_solve|].
       apply Hsame. unfold pending. by rewrite Eg. }
  all: destruct Hinv as [Ht Ha Hi Hq (pend & Hp & Hh) Hn]; split; simpl; try done;
    [|exists pend; split; [|done]]; apply (counts_same _ (nodes s)); try done; apply Hsame;
    unfold waiting, pending; rewrite ?Er, ?Eg, ?Ec, ?andb_false_r; done.
Qed.

Lemma sem_step_inv o s : inv s -> inv (step o s).
Proof.
  intros Hinv. destruct o; simpl.
  - unfold try_acquire. destruct (Z.ltb_spec 0 (_available (sem s))); [by apply sem_take_inv|done].
  - case_decide as Hd; [done|]. apply sem_acquire_inv; [done|]. by apply not_elem_of_dom.
  - case_decide as Hd; [done|]. unfold acquire_token. destruct is_cancelled; [done|].
    apply sem_acquire_inv; [done|]. by apply not_elem_of_dom.
  - by apply sem_holder_release_inv.
  - by apply sem_cancel_inv.
  - by apply sem_resume_inv.
  - by apply sem_destroy_inv.
Qed.

Definition run (os : list op) (s : sys) : sys := fold_left (fun s o => step o s) os s.

Lemma sem_run_inv os s : inv s -> inv (run os s).
Proof. unfold run. revert s. induction os as [|o os IH]; intros s Hs; simpl; [done|]. by apply IH, sem_step_inv. Qed.

(** The number of permits never changes. *)
Lemma sem_release_permits s : _permits (sem (release s)) = _permits (sem s).
Proof. unfold release. destruct (_held (sem s) =? 0); [done|]. by destruct (_waiters (sem s)). Qed.

Lemma sem_remove_waiter_permits h s : _permits (sem (remove_waiter h s)) = _permits (sem s).
Proof. unfold remove_waiter. by destruct (erase_handle h (_waiters (sem s))). Qed.

Lemma sem_step_permits o s : _permits (sem (step o s)) = _permits (sem s).
Proof.
  assert (forall h t, _permits (sem (acquire h t s)) = _permits (sem s)) as Ha.
  { intros h t. unfold acquire. by destruct (0 <? _available (sem s)). }
  destruct o; simpl.
  - unfold try_acquire. by destruct (0 <? _available (sem s)).
  - case_decide; [done|apply Ha].
  - case_decide; [done|]. destruct is_cancelled; [done|apply Ha].
  - unfold holder_release. destruct (0 <? holders s); [|done]. by rewrite sem_release_permits.
  - unfold cancel. destruct (nodes s !! h) as [n|]; [|done]. destruct (with_token n && _ && _ && _); [|done]. simpl.
    by rewrite sem_remove_waiter_permits.
  - unfold resume. destruct (nodes s !! h) as [n|]; [|done]. by destruct ((granted n || cancelled n) && _).
  - unfold destroy. destruct (nodes s !! h) as [n|]; [|done].
    destruct (resumed n), (granted n), (cancelled n); rewrite ?sem_release_permits, ?sem_remove_waiter_permits; done.
Qed.

Lemma sem_run_permits os permits : _permits (sem (run os (create permits))) = permits.
Proof.
  assert (forall s, _permits (sem (run os s)) = _permits (sem s)) as H; [|apply H]. unfold run.
  induction os as [|o os IH]; intros s; simpl; [done|]. by rewrite IH, sem_step_permits.
Qed.

(** * Properties *)

(** C28: a semaphore neither loses nor invents a permit, however acquirers are cancelled or
    destroyed, parked or already granted: the permits available, those held and those granted
    to a coroutine that has not resumed yet always add up to the total. So at most the total
    are held, and nobody queues while one is available. *)
Theorem semaphore_permits (permits : Z) (os : list op) :
  0 <= permits ->
  let s := run os (create permits) in
  exists pend, counts pending (nodes s) pend /\
    _available (sem s) + holders s + zlen pend = permits /\
    0 <= _available (sem s) /\ 0 <= holders s <= permits /\
    (0 < _available (sem s) -> _waiters (sem s) = []).
Proof.
  intros Hp. cbv zeta. pose proof (sem_run_inv os _ (sem_create_inv permits Hp)) as [Ht Ha Hi _ (pend & Hc & Hh) Hn].
  assert (_permits (sem (run os (create permits))) = permits) as E
    by apply sem_run_permits.
  pose proof (zlen_nonneg pend). exists pend. split_and!; try done; try lia.
Qed.

Lemma semaphore_permits_witness :
  let s := run [OAcquire 1 false; OAcquire 2 true; OAcquire 3 false;
                          ORelease; ODestroy 2; OResume 3] (create 1) in
  woken s = [2; 3] /\ holders s = 1 /\
  exists pend, counts pending (nodes s) pend /\
    _available (sem s) + holders s + zlen pend = 1.
Proof.
  split_and!; [by vm_compute|by vm_compute|].
  destruct (semaphore_permits 1 [OAcquire 1 false; OAcquire 2 true; OAcquire 3 false;
              ORelease; ODestroy 2; OResume 3] ltac:(lia)) as (pend & H1 & H2 & _).
  by exists pend.
Defined.
