(* ===== verification/SyncMutex.v ===== *)
(** [async_mutex] (src/qb/io/async/coroutine/sync.h). [woken] is the log of
    [schedule_via_current]; the ghost counters say how many coroutines are in the critical
    section and how many grants died with an awaiter. *)

From S2P Require Import Prelude Sync.

(** The flags of a [lock_awaiter]. [handed] is ghost: [unlock] has passed the lock on to it. *)
Record node := Node { parked : bool; resumed : bool; handed : bool }.

(** [lost] counts the lock grants that died with an awaiter. *)
Record sys := Sys {
  _locked : bool; _waiters : list Z; nodes : gmap Z node; woken : list Z; holders : Z; lost : Z
}.

Definition create : sys := Sys false [] ∅ [] 0 0.

Definition try_lock (s : sys) : bool * sys :=
  if _locked s then (false, s) else (true, Sys true (_waiters s) (nodes s) (woken s) (holders s + 1) (lost s)).

(** [co_await lock()]: always suspends, through the scheduler when the mutex is free. *)
Definition lock (h : Z) (s : sys) : sys :=
  if _locked s then
    Sys true (_waiters s ++ [h]) (<[h := Node true false false]> (nodes s)) (woken s) (holders s) (lost s)
  else Sys true (_waiters s) (<[h := Node false false false]> (nodes s)) (woken s ++ [h]) (holders s) (lost s).

Definition unlock (s : sys) : sys :=
  match _waiters s with
  | [] => Sys false [] (nodes s) (woken s) (holders s) (lost s)
  | h :: q =>
      Sys (_locked s) q (alter (fun n => Node (parked n) (resumed n) true) h (nodes s)) (woken s ++ [h])
          (holders s) (lost s)
  end.

(** The coroutine inside the critical section unlocks. *)
Definition holder_unlock (s : sys) : sys :=
  if 0 <? holders s then unlock (Sys (_locked s) (_waiters s) (nodes s) (woken s) (holders s - 1) (lost s)) else s.

(** [await_resume] of an awaiter that was scheduled. *)
Definition resume (h : Z) (s : sys) : sys :=
  match nodes s !! h with
  | Some n =>
      if negb (resumed n) && (negb (parked n) || handed n) then
        Sys (_locked s) (_waiters s) (<[h := Node (parked n) true (handed n)]> (nodes s)) (woken s) (holders s + 1) (lost s)
      else s
  | None => s
  end.

(** [~lock_awaiter]: an awaiter that never parked does nothing, even if it was not resumed. *)
Definition destroy (h : Z) (s : sys) : sys :=
  match nodes s !! h with
  | Some n =>
      let s := Sys (_locked s) (_waiters s) (delete h (nodes s)) (woken s) (holders s) (lost s) in
      if resumed n then s
      else if negb (parked n) then Sys (_locked s) (_waiters s) (nodes s) (woken s) (holders s) (lost s + 1)
      else match erase_handle h (_waiters s) with
           | Some q => Sys (_locked s) q (nodes s) (woken s) (holders s) (lost s)
           | None => unlock s
           end
  | None => s
  end.

Inductive op := OTry | OLock (h : Z) | OUnlock | OResume (h : Z) | ODestroy (h : Z).

Definition step (o : op) (s : sys) : sys :=
  match o with
  | OTry => (try_lock s).2
  | OLock h => if decide (h ∈ dom (nodes s)) then s else lock h s
  | OUnlock => holder_unlock s
  | OResume h => resume h s
  | ODestroy h => destroy h s
  end.

Definition run (os : list op) (s : sys) : sys := fold_left (fun s o => step o s) os s.

Definition waiting (n : node) : bool := parked n && negb (resumed n) && negb (handed n).
Definition pending (n : node) : bool := negb (resumed n) && (negb (parked n) || handed n).

Record inv (s : sys) : Prop := Inv {
  inv_idle : _locked s = false -> _waiters s = [];
  inv_queue : counts waiting (nodes s) (_waiters s);
  inv_owner : exists pend, counts pending (nodes s) pend /\
    (if _locked s then 1 else 0) = holders s + zlen pend + lost s;
  inv_holders : 0 <= holders s;
  inv_lost : 0 <= lost s;
}.

Lemma mtx_create_inv : inv create.
Proof. split; simpl; try done; [apply counts_empty|]. exists []. split; [apply counts_empty|done]. Qed.

Lemma mtx_lock_inv h s : inv s -> nodes s !! h = None -> inv (lock h s).
Proof.
  intros [Hi Hq (pend & Hp & Hh) Hn Hl] Hh0. unfold lock. destruct (_locked s); split; simpl; try done.
  - apply (counts_add _ (nodes s)); [done|by apply has_None|by rewrite has_insert, decide_True|has_solve].
  - exists pend. split; [|done]. apply (counts_same _ (nodes s)); [done|]. has_solve. by rewrite has_None.
  - apply (counts_same _ (nodes s)); [done|]. has_solve. by rewrite has_None.
  - exists (pend ++ [h]). split.
    + apply (counts_add _ (nodes s)); [done|by apply has_None|by rewrite has_insert, decide_True|has_solve].
    + zlens.
Qed.

(** The lock passes from one owner to the next waiter, or becomes free. *)
Lemma mtx_unlock_inv s :
  inv (Sys (_locked s) (_waiters s) (nodes s) (woken s) (holders s + 1) (lost s)) -> 0 <= holders s -> inv (unlock s).
Proof.
  intros [Hi Hq (pend & Hp & Hh) Hn Hl] Hn'. simpl in *. pose proof (zlen_nonneg pend). unfold unlock.
  destruct (_locked s); [|lia]. destruct (_waiters s) as [|h q] eqn:Eq.
  - split; simpl; try done. exists pend. split; [done|lia].
  - assert (has waiting (nodes s) h = true) as Hw by (apply Hq; by left). pose proof Hw as Hw'. unfold has in Hw'.
    destruct (nodes s !! h) as [n0|] eqn:En; [|done]. rewrite (alter_Some _ _ _ _ En).
    assert (resumed n0 = false /\ handed n0 = false /\ parked n0 = true) as (Hr & Hg & Hpk).
    { unfold waiting in Hw'. destruct (parked n0), (resumed n0), (handed n0); done. }
    split; simpl; try done.
    + eapply (counts_del _ (nodes s)); [exact Hq|done| |has_solve].
      rewrite has_insert, decide_True by done. unfold waiting. simpl. by rewrite andb_false_r.
    + exists (pend ++ [h]). split.
      * eapply (counts_add _ (nodes s)); [exact Hp| | |has_solve].
        -- rewrite (has_Some _ _ _ _ En). unfold pending. by rewrite Hg, Hpk, andb_false_r.
        -- rewrite has_insert, decide_True by done. unfold pending. simpl. by rewrite Hr, orb_true_r.
      * zlens.
Qed.

Lemma mtx_resume_inv h s : inv s -> inv (resume h s).
Proof.
  intros Hinv. unfold resume. destruct (nodes s !! h) as [n|] eqn:En; [|done].
  destruct (negb (resumed n) && (negb (parked n) || handed n)) eqn:Hpen; [|done].
  destruct Hinv as [Hi Hq (pend & Hp & Hh) Hn Hl].
  assert (has pending (nodes s) h = true) as Hpen' by by rewrite (has_Some _ _ _ _ En).
  destruct (counts_split _ _ _ _ Hp Hpen') as [pend' Hperm]. split; simpl; try done; try lia.
  - apply (counts_same _ (nodes s)); [done|]. has_solve. rewrite (has_Some _ _ _ _ En). unfold waiting. simpl.
    destruct (parked n), (resumed n), (handed n); done.
  - exists pend'. split; [eapply (counts_del _ (nodes s)); [done|done|by rewrite has_insert, decide_True|has_solve]|].
    apply Permutation_length in Hperm. simpl in Hperm. unfold zlen in *. lia.
Qed.

Lemma mtx_destroy_inv h s : inv s -> inv (destroy h s).
Proof.
  intros Hinv. unfold destroy. destruct (nodes s !! h) as [n|] eqn:En; [|done].
  destruct Hinv as [Hi Hq (pend & Hp & Hh) Hn Hl].
  assert (forall f, f n = false -> forall x, has f (delete h (nodes s)) x = has f (nodes s) x) as Hsame.
  { intros f Hf x. rewrite has_delete. case_decide; [subst; by rewrite (has_Some _ _ _ _ En)|done]. }
  assert (pending n = true -> exists pend', counts pending (delete h (nodes s)) pend' /\ zlen pend = zlen pend' + 1) as Hpd.
  { intros Hpn. destruct (counts_split _ _ _ h Hp) as [pend' Hperm]; [by rewrite (has_Some _ _ _ _ En)|].
    exists pend'. split; [eapply (counts_del _ (nodes s)); [done|done|by rewrite has_delete, decide_True|has_solve]|].
    apply Permutation_length in Hperm. simpl in Hperm. unfold zlen in *. lia. }
  destruct (resumed n) eqn:Er; [|destruct (parked n) eqn:Epk; simpl].
  - split; simpl; try done; [|exists pend; split; [|done]]; apply (counts_same _ (nodes s)); try done; apply Hsame;
      unfold waiting, pending; rewrite Er; by rewrite ?andb_false_r.
  - pose proof (erase_handle_spec h (_waiters s)) as He. destruct (erase_handle h (_waiters s)) as [q|].
    + destruct He as [Hperm _]. assert (waiting n = true) as Hw.
      { assert (h ∈ _waiters s) as Hin by (rewrite Hperm; by left). apply Hq in Hin.
        by rewrite (has_Some _ _ _ _ En) in Hin. }
      split; simpl; try done.
      * intros Hlk. specialize (Hi Hlk). rewrite Hi in Hperm. by apply Permutation_nil_cons in Hperm.
      * eapply (counts_del _ (nodes s)); [done|exact Hperm|by rewrite has_delete, decide_True|has_solve].
      * exists pend. split; [|done]. apply (counts_same _ (nodes s)); [done|]. apply Hsame.
        unfold waiting in Hw. unfold pending. rewrite Er, Epk in *. by destruct (handed n).
    + assert (waiting n = false) as Hw.
      { destruct (waiting n) eqn:Hw; [|done]. destruct He. apply Hq. by rewrite (has_Some _ _ _ _ En). }
      assert (pending n = true) as Hpn.
      { unfold waiting in Hw. unfold pending. rewrite Er, Epk in *. by destruct (handed n). }
      destruct (Hpd Hpn) as (pend' & Hp' & Hlen). apply mtx_unlock_inv; [|done]. split; simpl; try done; try lia.
      * apply (counts_same _ (nodes s)); [done|]. by apply Hsame.
      * exists pend'. split; [done|lia].
  - destruct (Hpd ltac:(unfold pending; by rewrite Er, Epk)) as (pend' & Hp' & Hlen).
    split; simpl; try done; try lia.
    + apply (counts_same _ (nodes s)); [done|]. apply Hsame. unfold waiting. by rewrite Epk.
    + exists pend'. split; [done|lia].
Qed.

Lemma mtx_step_inv o s : inv s -> inv (step o s).
Proof.
  intros Hinv. destruct o; simpl.
  - unfold try_lock. destruct (_locked s) eqn:El; [done|]. destruct Hinv as [Hi Hq (pend & Hp & Hh) Hn Hl].
    rewrite El in Hh. split; simpl; try done; try lia. exists pend. split; [done|lia].
  - case_decide as Hd; [done|]. apply mtx_lock_inv; [done|]. by apply not_elem_of_dom.
  - unfold holder_unlock. destruct (Z.ltb_spec 0 (holders s)); [|done]. apply mtx_unlock_inv; simpl; [|lia].
    replace (holders s - 1 + 1) with (holders s) by lia. by destruct s.
  - by apply mtx_resume_inv.
  - by apply mtx_destroy_inv.
Qed.

Lemma mtx_run_inv os s : inv s -> inv (run os s).
Proof. unfold run. revert s. induction os as [|o os IH]; intros s Hs; simpl; [done|]. by apply IH, mtx_step_inv. Qed.

(** No operation brings a lost grant back. *)
Lemma mtx_step_lost o s : lost s <= lost (step o s).
Proof.
  assert (forall s, lost (unlock s) = lost s) as Hu by (intros s0; unfold unlock; by destruct (_waiters s0)).
  destruct o; simpl.
  - unfold try_lock. by destruct (_locked s).
  - case_decide; [done|]. unfold lock. by destruct (_locked s).
  - unfold holder_unlock. by destruct (0 <? holders s); rewrite ?Hu.
  - unfold resume. destruct (nodes s !! h) as [n|]; [|done]. by destruct (negb (resumed n) && _).
  - unfold destroy. destruct (nodes s !! h) as [n|]; [|done]. destruct (resumed n); [done|].
    destruct (parked n); simpl; [|lia]. destruct (erase_handle h (_waiters s)); rewrite ?Hu; done.
Qed.

Lemma mtx_run_lost os s : lost s <= lost (run os s).
Proof.
  unfold run. revert s. induction os as [|o os IH]; intros s; simpl; [done|]. pose proof (mtx_step_lost o s). etrans; [done|apply IH].
Qed.

Lemma mtx_lost_prefix h : lost (step (ODestroy h) (step (OLock h) create)) = 1.
Proof.
  unfold step. rewrite decide_False by set_solver. unfold lock, destroy. cbn -[insert lookup delete].
  by rewrite lookup_insert_eq.
Qed.

(** * Properties *)

(** At most one coroutine is inside an [async_mutex], whatever the order of locks,
    unlocks, resumptions and destroyed awaiters. A locked mutex is held, or granted to one
    coroutine that has not resumed, or was granted to an awaiter that is gone; a free one has
    no waiter. *)
Theorem mutex_exclusion (os : list op) :
  let s := run os create in
  0 <= holders s <= 1 /\
  (exists pend, counts pending (nodes s) pend /\
     (if _locked s then 1 else 0) = holders s + zlen pend + lost s) /\
  (_locked s = false -> _waiters s = []).
Proof.
  cbv zeta. pose proof (mtx_run_inv os _ mtx_create_inv) as [Hi _ (pend & Hc & Hh) Hn Hl].
  pose proof (zlen_nonneg pend). split_and!; try done; [|by exists pend]. destruct (_locked _); lia.
Qed.

(** A free mutex granted to an awaiter that is destroyed before it resumes is locked for
    ever: [~lock_awaiter] only gives the lock back if the awaiter had been parked. No sequence
    of operations ever lets another coroutine in. *)
Theorem mutex_grant_lost (h : Z) (os : list op) :
  let s := run (OLock h :: ODestroy h :: os) create in
  _locked s = true /\ holders s = 0.
Proof.
  cbv zeta. pose proof (mtx_run_inv (OLock h :: ODestroy h :: os) _ mtx_create_inv)
    as [_ _ (pend & _ & Hh) Hn _]. pose proof (zlen_nonneg pend).
  assert (1 <= lost (run (OLock h :: ODestroy h :: os) create)) as Hl.
  { rewrite <- (mtx_lost_prefix h). apply (mtx_run_lost os). }
  destruct (_locked _); [split; [done|lia]|lia].
Qed.
