(* ===== verification/SyncRwLock.v ===== *)
(** [async_rw_lock] (src/qb/io/async/coroutine/sync.h). [woken] is the log of
    [schedule_via_current]; the ghost counters say how many coroutines are inside. *)

From S2P Require Import Prelude Sync.

(** The flags of a [read_lock_awaiter] or a [write_lock_awaiter]; [handed] is ghost. *)
Record node := Node { writer : bool; parked : bool; resumed : bool; handed : bool }.

Record lock := Lock { _write_locked : bool; _readers : Z; _read_waiters : list Z; _write_waiters : list Z }.

(** The ghost counters: coroutines inside the lock, and grants that died with an awaiter. *)
Record ghost := Ghost { rholders : Z; wholders : Z; rlost : Z; wlost : Z }.

Record sys := Sys { rw : lock; nodes : gmap Z node; woken : list Z; gh : ghost }.

Definition create : sys := Sys (Lock false 0 [] []) ∅ [] (Ghost 0 0 0 0).

(** The nodes popped from a wait list. *)
Definition mark (n : node) : node := Node (writer n) (parked n) (resumed n) true.
Definition hand (l : list Z) (m : gmap Z node) : gmap Z node :=
  map_imap (fun h n => Some (if decide (h ∈ l) then mark n else n)) m.

Definition lock_read (h : Z) (s : sys) : sys :=
  let '(Lock wl r rq wq) := rw s in
  if negb wl && match wq with [] => true | _ => false end then
    Sys (Lock wl (r + 1) rq wq) (<[h := Node false false false false]> (nodes s)) (woken s ++ [h]) (gh s)
  else Sys (Lock wl r (rq ++ [h]) wq) (<[h := Node false true false false]> (nodes s)) (woken s) (gh s).

Definition lock_write (h : Z) (s : sys) : sys :=
  let '(Lock wl r rq wq) := rw s in
  if negb wl && (r =? 0) then
    Sys (Lock true r rq wq) (<[h := Node true false false false]> (nodes s)) (woken s ++ [h]) (gh s)
  else Sys (Lock wl r rq (wq ++ [h])) (<[h := Node true true false false]> (nodes s)) (woken s) (gh s).

Definition unlock_read (s : sys) : sys :=
  let '(Lock wl r rq wq) := rw s in
  if r =? 0 then s
  else match wq with
  | h :: q =>
      if r - 1 =? 0 then Sys (Lock true (r - 1) rq q) (hand [h] (nodes s)) (woken s ++ [h]) (gh s)
      else Sys (Lock wl (r - 1) rq wq) (nodes s) (woken s) (gh s)
  | [] => Sys (Lock wl (r - 1) rq wq) (nodes s) (woken s) (gh s)
  end.

(** Pending readers first, all of them; then the next writer. *)
Definition unlock_write (s : sys) : sys :=
  let '(Lock wl r rq wq) := rw s in
  match rq, wq with
  | _ :: _, _ => Sys (Lock false (r + zlen rq) [] wq) (hand rq (nodes s)) (woken s ++ rq) (gh s)
  | [], h :: q => Sys (Lock true r [] q) (hand [h] (nodes s)) (woken s ++ [h]) (gh s)
  | [], [] => Sys (Lock false r [] []) (nodes s) (woken s) (gh s)
  end.

(** The coroutines inside unlock. *)
Definition reader_unlock (s : sys) : sys :=
  let g := gh s in
  if 0 <? rholders g
  then unlock_read (Sys (rw s) (nodes s) (woken s) (Ghost (rholders g - 1) (wholders g) (rlost g) (wlost g))) else s.

Definition writer_unlock (s : sys) : sys :=
  let g := gh s in
  if 0 <? wholders g
  then unlock_write (Sys (rw s) (nodes s) (woken s) (Ghost (rholders g) (wholders g - 1) (rlost g) (wlost g))) else s.

Definition resume (h : Z) (s : sys) : sys :=
  match nodes s !! h with
  | Some n =>
      if negb (resumed n) && (negb (parked n) || handed n) then
        let g := gh s in
        Sys (rw s) (<[h := Node (writer n) (parked n) true (handed n)]> (nodes s)) (woken s)
            (if writer n then Ghost (rholders g) (wholders g + 1) (rlost g) (wlost g)
             else Ghost (rholders g + 1) (wholders g) (rlost g) (wlost g))
      else s
  | None => s
  end.

(** [~read_lock_awaiter] and [~write_lock_awaiter]. *)
Definition destroy (h : Z) (s : sys) : sys :=
  match nodes s !! h with
  | Some n =>
      let s := Sys (rw s) (delete h (nodes s)) (woken s) (gh s) in
      let '(Lock wl r rq wq) := rw s in
      let g := gh s in
      if resumed n then s
      else if writer n then
        if negb (parked n) then Sys (rw s) (nodes s) (woken s) (Ghost (rholders g) (wholders g) (rlost g) (wlost g + 1))
        else match erase_handle h wq with
             | Some q => Sys (Lock wl r rq q) (nodes s) (woken s) g
             | None => unlock_write s
             end
      else
        if negb (parked n) then Sys (rw s) (nodes s) (woken s) (Ghost (rholders g) (wholders g) (rlost g + 1) (wlost g))
        else match erase_handle h rq with
             | Some q => Sys (Lock wl r q wq) (nodes s) (woken s) g
             | None => unlock_read s
             end
  | None => s
  end.

Inductive op :=
| OLockRead (h : Z) | OLockWrite (h : Z) | OUnlockRead | OUnlockWrite | OResume (h : Z) | ODestroy (h : Z).

Definition step (o : op) (s : sys) : sys :=
  match o with
  | OLockRead h => if decide (h ∈ dom (nodes s)) then s else lock_read h s
  | OLockWrite h => if decide (h ∈ dom (nodes s)) then s else lock_write h s
  | OUnlockRead => reader_unlock s
  | OUnlockWrite => writer_unlock s
  | OResume h => resume h s
  | ODestroy h => destroy h s
  end.

Definition run (os : list op) (s : sys) : sys := fold_left (fun s o => step o s) os s.

(** Waiting in a queue, or granted and not yet resumed; [w] selects the writers. *)
Definition waiting (w : bool) (n : node) : bool := Bool.eqb (writer n) w && parked n && negb (resumed n) && negb (handed n).
Definition pending (w : bool) (n : node) : bool := Bool.eqb (writer n) w && negb (resumed n) && (negb (parked n) || handed n).

Record inv (s : sys) : Prop := Inv {
  inv_excl : _write_locked (rw s) = true -> _readers (rw s) = 0;
  inv_rqueue : counts (waiting false) (nodes s) (_read_waiters (rw s));
  inv_wqueue : counts (waiting true) (nodes s) (_write_waiters (rw s));
  inv_readers : exists pend, counts (pending false) (nodes s) pend /\
    _readers (rw s) = rholders (gh s) + zlen pend + rlost (gh s);
  inv_writer : exists pend, counts (pending true) (nodes s) pend /\
    (if _write_locked (rw s) then 1 else 0) = wholders (gh s) + zlen pend + wlost (gh s);
  inv_rholders : 0 <= rholders (gh s); inv_wholders : 0 <= wholders (gh s);
  inv_rlost : 0 <= rlost (gh s); inv_wlost : 0 <= wlost (gh s);
}.

Lemma rw_has_hand f l m x : has f (hand l m) x = if decide (x ∈ l) then has (fun n => f (mark n)) m x else has f m x.
Proof. unfold has, hand. rewrite map_lookup_imap. destruct (m !! x); simpl; by case_decide. Qed.

Lemma rw_create_inv : inv create.
Proof.
  split; simpl; try done; try apply counts_empty; exists []; (split; [apply counts_empty|done]).
Qed.

(** Handing the lock to the nodes [k] of one wait list. *)
Section Hand.
Context (w : bool) (k : list Z) (m : gmap Z node).
Hypothesis waits : forall x, x ∈ k -> has (waiting w) m x = true.

Lemma rw_waits_node x : x ∈ k -> exists n, m !! x = Some n /\ writer n = w /\ parked n = true /\ resumed n = false /\ handed n = false.
Proof.
  intros Hx%waits. unfold has in Hx. destruct (m !! x) as [n|]; [|done]. exists n. unfold waiting in Hx.
  destruct (writer n), w, (parked n), (resumed n), (handed n); done.
Qed.

Lemma rw_hand_has f x :
  has f (hand k m) x = if decide (x ∈ k) then f (Node w true false true) else has f m x.
Proof.
  rewrite rw_has_hand. case_decide as Hx; [|done]. destruct (rw_waits_node x Hx) as ([w0 p r hd] & Hn & Hw & Hp & Hr & Hh).
  simpl in *. subst. unfold has. by rewrite Hn.
Qed.

Lemma rw_hand_had f x : x ∈ k -> has f m x = f (Node w true false false).
Proof.
  intros Hx. destruct (rw_waits_node x Hx) as ([w0 p r hd] & Hn & Hw & Hp & Hr & Hh). simpl in *. subst.
  unfold has. by rewrite Hn.
Qed.

Lemma rw_hand_queue rest : counts (waiting w) m (k ++ rest) -> counts (waiting w) (hand k m) rest.
Proof.
  intros [(_ & Hdis & Hnd)%NoDup_app Hl]. split; [done|]. intros x. rewrite rw_hand_has. case_decide as Hx.
  - split; [by intros Hr; destruct (Hdis x Hx)|]. unfold waiting. simpl. by rewrite andb_false_r.
  - rewrite <- Hl, elem_of_app. tauto.
Qed.

Lemma rw_hand_queue_other l : counts (waiting (negb w)) m l -> counts (waiting (negb w)) (hand k m) l.
Proof.
  intros Hc. apply (counts_same _ m); [done|]. intros x. rewrite rw_hand_has. case_decide as Hx; [|done].
  rewrite rw_hand_had by done. by destruct w.
Qed.

Lemma rw_hand_pending pend : NoDup k -> counts (pending w) m pend -> counts (pending w) (hand k m) (pend ++ k).
Proof.
  intros Hk [Hnd Hl]. split.
  - apply NoDup_app. split_and!; [done| |done]. intros x Hx Hxk. apply Hl in Hx. rewrite rw_hand_had in Hx by done. by destruct w.
  - intros x. rewrite rw_hand_has, elem_of_app, Hl. case_decide as Hx; [|tauto]. destruct w; tauto.
Qed.

Lemma rw_hand_pending_other pend : counts (pending (negb w)) m pend -> counts (pending (negb w)) (hand k m) pend.
Proof.
  intros Hc. apply (counts_same _ m); [done|]. intros x. rewrite rw_hand_has. case_decide as Hx; [|done].
  rewrite rw_hand_had by done. by destruct w.
Qed.
End Hand.

Lemma rw_lock_read_inv h s : inv s -> nodes s !! h = None -> inv (lock_read h s).
Proof.
  intros [Hx Hrq Hwq (pr & Hpr & Hr) (pw & Hpw & Hw) H1 H2 H3 H4] Hh. unfold lock_read.
  destruct s as [[wl r rq wq] ns wk g]. simpl in *.
  destruct (negb wl && _) eqn:E; split; simpl; try done; auto using counts_insert_false, counts_insert_true.
  - by destruct wl.
  - exists (pr ++ [h]). split; [by apply counts_insert_true|]. zlens.
  - exists pw. split; [by apply counts_insert_false|done].
  - exists pr. split; [by apply counts_insert_false|done].
  - exists pw. split; [by apply counts_insert_false|done].
Qed.

Lemma rw_lock_write_inv h s : inv s -> nodes s !! h = None -> inv (lock_write h s).
Proof.
  intros [Hx Hrq Hwq (pr & Hpr & Hr) (pw & Hpw & Hw) H1 H2 H3 H4] Hh. unfold lock_write.
  destruct s as [[wl r rq wq] ns wk g]. simpl in *.
  destruct (Z.eqb_spec r 0) as [->|]; destruct wl; simpl; split; simpl; try done; auto using counts_insert_false, counts_insert_true.
  all: try (exists pr; split; [by apply counts_insert_false|lia]); try (exists pw; split; [by apply counts_insert_false|lia]).
  exists (pw ++ [h]). split; [by apply counts_insert_true|]. zlens.
Qed.

(** A reader leaves; the last one lets the next writer in. *)
Lemma rw_unlock_read_inv s :
  inv (Sys (rw s) (nodes s) (woken s) (Ghost (rholders (gh s) + 1) (wholders (gh s)) (rlost (gh s)) (wlost (gh s)))) ->
  0 <= rholders (gh s) -> inv (unlock_read s).
Proof.
  destruct s as [[wl r rq wq] ns wk g]. intros [Hx Hrq Hwq (pr & Hpr & Hr) (pw & Hpw & Hw) H1 H2 H3 H4] Hg.
  unfold unlock_read. simpl in *. pose proof (zlen_nonneg pr). destruct (Z.eqb_spec r 0); [lia|].
  assert (wl = false) as -> by (destruct wl; [specialize (Hx eq_refl); lia|done]).
  destruct wq as [|h q]; [|destruct (Z.eqb_spec (r - 1) 0)].
  2: { assert (forall x, x ∈ [h] -> has (waiting true) ns x = true) as Hk.
       { intros x ->%list_elem_of_singleton. apply Hwq. by left. }
       split; simpl; try done; try lia.
       - by apply (rw_hand_queue_other true).
       - apply (rw_hand_queue true [h]); [done|exact Hwq].
       - exists pr. split; [by apply (rw_hand_pending_other true)|lia].
       - exists (pw ++ [h]). split; [apply rw_hand_pending; [done|apply NoDup_singleton|done]|].
         zlens. }
  all: split; simpl; try done; try lia; [exists pr; split; [done|lia]|exists pw; split; [done|lia]].
Qed.

(** The writer leaves; all pending readers come in, or the next writer. *)
Lemma rw_unlock_write_inv s :
  inv (Sys (rw s) (nodes s) (woken s) (Ghost (rholders (gh s)) (wholders (gh s) + 1) (rlost (gh s)) (wlost (gh s)))) ->
  0 <= wholders (gh s) -> inv (unlock_write s).
Proof.
  destruct s as [[wl r rq wq] ns wk g]. intros [Hx Hrq Hwq (pr & Hpr & Hr) (pw & Hpw & Hw) H1 H2 H3 H4] Hg.
  unfold unlock_write. simpl in *. pose proof (zlen_nonneg pw). destruct wl; [|lia]. specialize (Hx eq_refl).
  destruct rq as [|h0 rq0]; [destruct wq as [|h q]|].
  - split; simpl; try done; [exists pr; split; [done|lia]|exists pw; split; [done|lia]].
  - assert (forall x, x ∈ [h] -> has (waiting true) ns x = true) as Hk.
    { intros x ->%list_elem_of_singleton. apply Hwq. by left. }
    split; simpl; try done; try lia.
    + by apply (rw_hand_queue_other true).
    + apply (rw_hand_queue true [h]); [done|exact Hwq].
    + exists pr. split; [by apply (rw_hand_pending_other true)|lia].
    + exists (pw ++ [h]). split; [apply rw_hand_pending; [done|apply NoDup_singleton|done]|].
      zlens.
  - set (k := h0 :: rq0) in *. assert (forall x, x ∈ k -> has (waiting false) ns x = true) as Hk by (intros x; apply Hrq).
    split; simpl; try done.
    + apply (rw_hand_queue false k); [done|]. by rewrite app_nil_r.
    + by apply (rw_hand_queue_other false).
    + exists (pr ++ k). split; [apply rw_hand_pending; [done|apply Hrq|done]|]. rewrite zlen_app. lia.
    + exists pw. split; [by apply (rw_hand_pending_other false)|lia].
Qed.

Lemma rw_resume_inv h s : inv s -> inv (resume h s).
Proof.
  intros Hinv. unfold resume. destruct (nodes s !! h) as [[w p r hd]|] eqn:En; [|done]. simpl.
  destruct (negb r && (negb p || hd)) eqn:Hpen; [|done].
  destruct Hinv as [Hx Hrq Hwq (pr & Hpr & Hr) (pw & Hpw & Hw) H1 H2 H3 H4].
  assert (forall b, waiting b (Node w p r hd) = false) as Hwt.
  { intros b. unfold waiting. simpl. destruct p, r, hd; try done; by rewrite ?andb_false_r. }
  assert (forall b, waiting b (Node w p true hd) = false) as Hwt'.
  { intros b. unfold waiting. simpl. by rewrite andb_false_r. }
  assert (r = false /\ (negb p || hd) = true) as [-> Hph] by by apply andb_true_iff in Hpen as [?%negb_true_iff ?].
  assert (forall f l, counts f (nodes s) l -> f (Node w p false hd) = f (Node w p true hd) ->
            counts f (<[h := Node w p true hd]> (nodes s)) l) as Hsame
    by by intros f l Hc Hf; apply (counts_change_false f _ l h _ _ Hc En).
  destruct w; split; simpl; try done; try lia; try (apply Hsame; [done|by rewrite Hwt, Hwt']).
  - exists pr. split; [by apply Hsame|done].
  - destruct (counts_change_true _ _ _ _ _ (Node true p true hd) Hpw En) as (pw' & Hl & Hc); [by unfold pending; simpl; rewrite Hph|done|].
    exists pw'. split; [done|lia].
  - destruct (counts_change_true _ _ _ _ _ (Node false p true hd) Hpr En) as (pr' & Hl & Hc); [by unfold pending; simpl; rewrite Hph|done|].
    exists pr'. split; [done|lia].
  - exists pw. split; [by apply Hsame|done].
Qed.

Lemma rw_destroy_inv h s : inv s -> inv (destroy h s).
Proof.
  intros Hinv. unfold destroy. destruct (nodes s !! h) as [[w p r hd]|] eqn:En; [|done].
  destruct s as [[wl rd rq wq] ns wk g]. simpl in *.
  destruct Hinv as [Hx Hrq Hwq (pr & Hpr & Hr) (pw & Hpw & Hw) H1 H2 H3 H4]. simpl in *.
  assert (forall f l, counts f ns l -> f (Node w p r hd) = false -> counts f (delete h ns) l) as Hno
    by by intros f l Hc Hf; apply (counts_delete_false f _ l h _ Hc En).
  assert (forall f l, counts f ns l -> f (Node w p r hd) = true -> exists l', l ≡ₚ h :: l' /\ zlen l = zlen l' + 1 /\ counts f (delete h ns) l')
    as Hyes by by intros f l Hc Hf; apply (counts_delete_true f _ l h _ Hc En).
  destruct r.
  { split; simpl; try done; try (apply Hno; [done|unfold waiting; simpl; by rewrite andb_false_r]).
    - exists pr. split; [apply Hno; [done|by unfold pending; simpl; rewrite andb_false_r]|done].
    - exists pw. split; [apply Hno; [done|by unfold pending; simpl; rewrite andb_false_r]|done]. }
  destruct w, p; simpl.
  - pose proof (erase_handle_spec h wq) as He. destruct (erase_handle h wq) as [q|].
    + destruct He as [Hperm _]. assert (hd = false) as ->.
      { assert (h ∈ wq) as Hin by (rewrite Hperm; by left). apply Hwq in Hin. rewrite (has_Some _ _ _ _ En) in Hin. by destruct hd. }
      split; simpl; try done.
      * by apply Hno.
      * eapply (counts_del _ ns); [done|exact Hperm|by rewrite has_delete, decide_True|has_solve].
      * exists pr. split; [by apply Hno|done].
      * exists pw. split; [by apply Hno|done].
    + assert (hd = true) as ->.
      { destruct hd; [done|]. destruct He. apply Hwq. by rewrite (has_Some _ _ _ _ En). }
      destruct (Hyes _ _ Hpw eq_refl) as (pw' & _ & Hl & Hc). apply rw_unlock_write_inv; [|done].
      split; simpl; try done; try lia; try (by apply Hno).
      * exists pr. split; [by apply Hno|done].
      * exists pw'. split; [done|lia].
  - destruct (Hyes _ _ Hpw eq_refl) as (pw' & _ & Hl & Hc).
    split; simpl; try done; try lia; try (by apply Hno).
    + exists pr. split; [by apply Hno|done].
    + exists pw'. split; [done|lia].
  - pose proof (erase_handle_spec h rq) as He. destruct (erase_handle h rq) as [q|].
    + destruct He as [Hperm _]. assert (hd = false) as ->.
      { assert (h ∈ rq) as Hin by (rewrite Hperm; by left). apply Hrq in Hin. rewrite (has_Some _ _ _ _ En) in Hin. by destruct hd. }
      split; simpl; try done.
      * eapply (counts_del _ ns); [done|exact Hperm|by rewrite has_delete, decide_True|has_solve].
      * by apply Hno.
      * exists pr. split; [by apply Hno|done].
      * exists pw. split; [by apply Hno|done].
    + assert (hd = true) as ->.
      { destruct hd; [done|]. destruct He. apply Hrq. by rewrite (has_Some _ _ _ _ En). }
      destruct (Hyes _ _ Hpr eq_refl) as (pr' & _ & Hl & Hc). apply rw_unlock_read_inv; [|done].
      split; simpl; try done; try lia; try (by apply Hno).
      * exists pr'. split; [done|lia].
      * exists pw. split; [by apply Hno|done].
  - destruct (Hyes _ _ Hpr eq_refl) as (pr' & _ & Hl & Hc).
    split; simpl; try done; try lia; try (by apply Hno).
    + exists pr'. split; [done|lia].
    + exists pw. split; [by apply Hno|done].
Qed.

Lemma rw_step_inv o s : inv s -> inv (step o s).
Proof.
  intros Hinv. destruct o; simpl.
  - case_decide as Hd; [done|]. apply rw_lock_read_inv; [done|]. by apply not_elem_of_dom.
  - case_decide as Hd; [done|]. apply rw_lock_write_inv; [done|]. by apply not_elem_of_dom.
  - unfold reader_unlock. destruct (Z.ltb_spec 0 (rholders (gh s))); [|done]. apply rw_unlock_read_inv; simpl; [|lia].
    replace (rholders (gh s) - 1 + 1) with (rholders (gh s)) by lia. by destruct s as [? ? ? []].
  - unfold writer_unlock. destruct (Z.ltb_spec 0 (wholders (gh s))); [|done]. apply rw_unlock_write_inv; simpl; [|lia].
    replace (wholders (gh s) - 1 + 1) with (wholders (gh s)) by lia. by destruct s as [? ? ? []].
  - by apply rw_resume_inv.
  - by apply rw_destroy_inv.
Qed.

Lemma rw_run_inv os s : inv s -> inv (run os s).
Proof. unfold run. revert s. induction os as [|o os IH]; intros s Hs; simpl; [done|]. by apply IH, rw_step_inv. Qed.

(** A reader parked behind no writer: nothing in the lock will wake it. *)
Definition stranded (x : Z) (s : sys) : Prop :=
  _write_locked (rw s) = false /\ _write_waiters (rw s) = [] /\ x ∈ _read_waiters (rw s).

(** Operations other than a new writer and the end of [x] itself. *)
Definition bystander (x : Z) (o : op) : Prop :=
  match o with
  | OLockWrite _ => False
  | ODestroy h => h <> x
  | _ => True
  end.

Lemma rw_no_writer s h n :
  inv s -> _write_locked (rw s) = false -> nodes s !! h = Some n -> writer n = true -> resumed n = false ->
  _write_waiters (rw s) = [] -> False.
Proof.
  intros [_ _ Hwq _ (pw & Hpw & Hw) _ H2 _ H4] Hl Hn Hwr Hr Hq. rewrite Hl in Hw. pose proof (zlen_nonneg pw).
  assert (pw = []) as -> by (apply zlen_nil_inv; lia). rewrite Hq in Hwq.
  assert (has (pending true) (nodes s) h = true \/ has (waiting true) (nodes s) h = true) as Hx.
  { rewrite !(has_Some _ _ _ _ Hn). unfold pending, waiting. rewrite Hwr, Hr. by destruct (parked n), (handed n); auto. }
  destruct Hx as [Hx|Hx]; [apply Hpw in Hx|apply Hwq in Hx]; by apply elem_of_nil in Hx.
Qed.

Lemma rw_unlock_read_stranded x s : stranded x s -> stranded x (unlock_read s).
Proof.
  destruct s as [[wl r rq wq] ns wk g]. unfold stranded, unlock_read. simpl. intros (-> & -> & Hx).
  by destruct (r =? 0).
Qed.

Lemma rw_stranded_step x o s : inv s -> stranded x s -> bystander x o -> stranded x (step o s).
Proof.
  intros Hinv Hst Ho. pose proof Hst as (Hl & Hq & Hx). destruct o as [h|h| | |h|h]; simpl in *; try done.
  - case_decide; [done|]. destruct s as [[wl r rq wq] ns wk g]. simpl in *. subst. by unfold lock_read.
  - unfold reader_unlock. destruct (0 <? rholders (gh s)); [|done]. by apply rw_unlock_read_stranded.
  - unfold writer_unlock. destruct Hinv as [_ _ _ _ (pw & _ & Hw) _ H2 _ H4]. rewrite Hl in Hw.
    pose proof (zlen_nonneg pw). destruct (Z.ltb_spec 0 (wholders (gh s))); [lia|done].
  - unfold resume. destruct (nodes s !! h) as [n|]; [|done]. by destruct (negb (resumed n) && _).
  - unfold destroy. destruct (nodes s !! h) as [n|] eqn:En; [|done].
    destruct (resumed n) eqn:Er; [by destruct s as [[]]|]. destruct (writer n) eqn:Ew.
    + by destruct (rw_no_writer s h n).
    + destruct s as [[wl r rq wq] ns wk g]. simpl in *. subst. destruct (parked n); simpl; [|done].
      destruct (erase_handle h rq) as [q|] eqn:Ee; [|by apply rw_unlock_read_stranded].
      split_and!; [done|done|]. simpl. eapply erase_handle_nodup; [|exact Ee|done]. apply (inv_rqueue _ Hinv).
Qed.

Lemma rw_run_stranded x os s : inv s -> stranded x s -> Forall (bystander x) os -> stranded x (run os s).
Proof.
  unfold run. intros Hinv Hst Hos. revert s Hinv Hst. induction Hos as [|o os Ho _ IH]; intros s Hinv Hst; simpl; [done|].
  apply IH; [by apply rw_step_inv|by apply rw_stranded_step].
Qed.

Lemma rw_run_app os os' s : run (os ++ os') s = run os' (run os s).
Proof. apply fold_left_app. Qed.

(** A reader inside, a writer and a reader behind it, and the writer gone. *)
Lemma rw_stranding_prefix r w x :
  NoDup [r; w; x] ->
  rw (run [OLockRead r; OResume r; OLockWrite w; OLockRead x; ODestroy w; OUnlockRead] create) = Lock false 0 [x] [].
Proof.
  rewrite !NoDup_cons, !not_elem_of_cons. intros ((Hrw & Hrx & _) & (Hwx & _) & _).
  set (n0 := Node false false true false). set (g1 := Ghost 1 0 0 0).
  assert (step (OResume r) (step (OLockRead r) create) = Sys (Lock false 1 [] []) {[ r := n0 ]} [r] g1) as E1.
  { unfold step. rewrite decide_False by set_solver. unfold resume, lock_read. cbn -[insert lookup].
    rewrite lookup_insert_eq. cbn -[insert]. by rewrite insert_insert_eq. }
  set (m1 := <[w := Node true true false false]> {[ r := n0 ]} : gmap Z node).
  assert (step (OLockWrite w) (Sys (Lock false 1 [] []) {[ r := n0 ]} [r] g1) = Sys (Lock false 1 [] [w]) m1 [r] g1) as E2.
  { unfold step. rewrite decide_False by set_solver. done. }
  set (m2 := <[x := Node false true false false]> m1).
  assert (step (OLockRead x) (Sys (Lock false 1 [] [w]) m1 [r] g1) = Sys (Lock false 1 [x] [w]) m2 [r] g1) as E3.
  { unfold step. rewrite decide_False by set_solver. done. }
  assert (step (ODestroy w) (Sys (Lock false 1 [x] [w]) m2 [r] g1) = Sys (Lock false 1 [x] []) (delete w m2) [r] g1) as E4.
  { unfold step, destroy, m2, m1. cbn -[insert lookup delete]. rewrite lookup_insert_ne, lookup_insert_eq by done.
    cbn -[insert delete]. by rewrite Z.eqb_refl. }
  unfold run. cbn [fold_left]. rewrite E1, E2, E3, E4. done.
Qed.

(** * Properties *)

(** C27: an [async_rw_lock] never lets a writer in together with another writer or with a
    reader, whatever awaiters are destroyed on the way. *)
Theorem rwlock_exclusion (os : list op) :
  let s := run os create in
  0 <= wholders (gh s) <= 1 /\ 0 <= rholders (gh s) /\
  (0 < wholders (gh s) -> rholders (gh s) = 0).
Proof.
  cbv zeta. pose proof (rw_run_inv os _ rw_create_inv) as [Hx _ _ (pr & _ & Hr) (pw & _ & Hw) H1 H2 H3 H4].
  pose proof (zlen_nonneg pr). pose proof (zlen_nonneg pw). destruct (_write_locked _); [|split_and!; lia].
  specialize (Hx eq_refl). split_and!; lia.
Qed.

(** A reader that parked behind a waiting writer is left behind when that writer's
    awaiter is destroyed: once the readers in front of it are gone the lock is free, and it
    stays parked through any operations other than those of a later writer. *)
Theorem rwlock_reader_stranded (r w x : Z) (os : list op) :
  NoDup [r; w; x] -> Forall (bystander x) os ->
  let prefix := [OLockRead r; OResume r; OLockWrite w; OLockRead x; ODestroy w;
                 OUnlockRead] in
  rw (run prefix create) = Lock false 0 [x] [] /\
  stranded x (run (prefix ++ os) create).
Proof.
  intros Hnd Hos. cbv zeta. set (prefix := [_; _; _; _; _; _]).
  assert (rw (run prefix create) = Lock false 0 [x] []) as E by by apply rw_stranding_prefix.
  split; [done|]. rewrite rw_run_app. apply rw_run_stranded; [|unfold stranded; rewrite E|done].
  - apply rw_run_inv, rw_create_inv.
  - split_and!; [done|done|by left].
Qed.

Lemma rwlock_reader_stranded_witness :
  stranded 3 (run ([OLockRead 1; OResume 1; OLockWrite 2; OLockRead 3;
    ODestroy 2; OUnlockRead] ++ [OLockRead 4; OResume 4; OUnlockRead]) create).
Proof.
  apply (rwlock_reader_stranded 1 2 3); [|by repeat constructor].
  repeat constructor; set_solver.
Defined.
