(* ===== verification/SyncMisc.v ===== *)
(** [barrier], [async_event] and [async_latch] (src/qb/io/async/coroutine/sync.h). The wake
    logs record [schedule_via_current]. *)

From S2P Require Import Prelude Sync.

(** * Barrier *)

Record barrier := Barrier { _expected : Z; _remaining : Z; _b_waiters : list Z; b_woken : list Z }.

Definition barrier_create (count : Z) : barrier := Barrier count count [] [].

(** [co_await arrive_and_wait()]; [true] when the coroutine does not suspend. *)
Definition arrive_and_wait (h : Z) (b : barrier) : bool * barrier :=
  if _remaining b =? 0 then (true, b)
  else
    let waiters := _b_waiters b ++ [h] in
    let remaining := _remaining b - 1 in
    (false, if remaining =? 0 then Barrier (_expected b) remaining [] (b_woken b ++ waiters)
            else Barrier (_expected b) remaining waiters (b_woken b)).

Definition barrier_destroy (h : Z) (b : barrier) : barrier :=
  match erase_handle h (_b_waiters b) with
  | Some q => Barrier (_expected b) (_remaining b) q (b_woken b)
  | None => b
  end.

Definition barrier_reset (b : barrier) : barrier := Barrier (_expected b) (_expected b) [] (b_woken b).

(** Before the last arrival nobody passes; the last one lets everybody through, in order of
    arrival. *)
Lemma arrivals_before hs b :
  zlen hs < _remaining b ->
  fold_left (fun b h => (arrive_and_wait h b).2) hs b
    = Barrier (_expected b) (_remaining b - zlen hs) (_b_waiters b ++ hs) (b_woken b).
Proof.
  revert b. induction hs as [|h hs IH]; intros b Hr; simpl.
  { rewrite app_nil_r. unfold zlen. simpl. rewrite Z.sub_0_r. by destruct b. }
  assert (zlen (h :: hs) = 1 + zlen hs) as E by (unfold zlen; simpl length; lia). pose proof (zlen_nonneg hs).
  unfold arrive_and_wait at 2. destruct (Z.eqb_spec (_remaining b) 0); [lia|]. simpl.
  destruct (Z.eqb_spec (_remaining b - 1) 0); [lia|]. rewrite IH by (simpl; lia). simpl. rewrite <- app_assoc. f_equal; lia.
Qed.

Lemma barrier_opens hs h n :
  0 <= n -> zlen hs = n ->
  let b := fold_left (fun b h => (arrive_and_wait h b).2) hs (barrier_create (n + 1)) in
  b_woken b = [] /\ b_woken (arrive_and_wait h b).2 = hs ++ [h] /\ _remaining (arrive_and_wait h b).2 = 0.
Proof.
  intros Hn Hl. cbv zeta. rewrite arrivals_before by (simpl; lia). simpl. unfold arrive_and_wait. simpl. rewrite Hl.
  replace (n + 1 - n) with 1 by lia. done.
Qed.

(** * Event *)

(** The flags of a parked [wait_awaiter]. *)
Record node := Node { resumed : bool }.

Record async_event := AsyncEvent { _signaled : bool; _auto_reset : bool; _waiters : list Z; nodes : gmap Z node; woken : list Z }.

Definition event_create (auto_reset initially_set : bool) : async_event := AsyncEvent initially_set auto_reset [] ∅ [].

(** [co_await wait()]; [true] when the coroutine does not suspend. *)
Definition event_wait (h : Z) (e : async_event) : bool * async_event :=
  if _signaled e then (true, AsyncEvent (negb (_auto_reset e)) (_auto_reset e) (_waiters e) (nodes e) (woken e))
  else (false, AsyncEvent false (_auto_reset e) (_waiters e ++ [h]) (<[h := Node false]> (nodes e)) (woken e)).

Definition event_set (e : async_event) : async_event :=
  if _auto_reset e then
    match _waiters e with
    | h :: q => AsyncEvent (_signaled e) true q (nodes e) (woken e ++ [h])
    | [] => AsyncEvent true true [] (nodes e) (woken e)
    end
  else AsyncEvent true false [] (nodes e) (woken e ++ _waiters e).

Definition event_reset (e : async_event) : async_event := AsyncEvent false (_auto_reset e) (_waiters e) (nodes e) (woken e).

Definition event_resume (h : Z) (e : async_event) : async_event :=
  AsyncEvent (_signaled e) (_auto_reset e) (_waiters e) (alter (fun _ => Node true) h (nodes e)) (woken e).

(** [~wait_awaiter]: a wake-up of an auto-reset event that was not used is given back. *)
Definition event_destroy (h : Z) (e : async_event) : async_event :=
  match nodes e !! h with
  | Some n =>
      let e := AsyncEvent (_signaled e) (_auto_reset e) (_waiters e) (delete h (nodes e)) (woken e) in
      if resumed n then e
      else match erase_handle h (_waiters e) with
           | Some q => AsyncEvent (_signaled e) (_auto_reset e) q (nodes e) (woken e)
           | None => if _auto_reset e then event_set e else e
           end
  | None => e
  end.

(** A signal is never kept while somebody waits for it. *)
Definition event_ok (e : async_event) : Prop := _signaled e = true -> _waiters e = [].

Lemma event_set_ok e : event_ok e -> event_ok (event_set e).
Proof.
  unfold event_ok, event_set. destruct (_auto_reset e); [|done]. destruct (_waiters e); [done|]. simpl. intros Hok Hs. by specialize (Hok Hs).
Qed.

Lemma event_wait_ok h e : event_ok e -> event_ok (event_wait h e).2.
Proof. unfold event_ok, event_wait. destruct (_signaled e); simpl; [|done]. auto. Qed.

Lemma event_destroy_ok h e : event_ok e -> event_ok (event_destroy h e).
Proof.
  intros Hok. unfold event_destroy. destruct (nodes e !! h) as [n|]; [|done]. destruct (resumed n); [done|]. simpl.
  pose proof (erase_handle_spec h (_waiters e)) as He. destruct (erase_handle h (_waiters e)) as [q|].
  - destruct He as [Hp _]. intros Hs. specialize (Hok Hs). rewrite Hok in Hp. by apply Permutation_nil_cons in Hp.
  - destruct (_auto_reset e); [by apply event_set_ok|done].
Qed.

(** A wake-up that its coroutine did not live to use goes to the next waiter. *)
Lemma wake_given_back h h' q e :
  _auto_reset e = true -> _waiters e = h :: h' :: q -> nodes e !! h = Some (Node false) -> h ∉ h' :: q ->
  woken (event_destroy h (event_set e)) = woken e ++ [h; h'] /\ _waiters (event_destroy h (event_set e)) = q.
Proof.
  intros Ha Hw Hn Hnot. unfold event_set at 1 2. rewrite Ha, Hw. unfold event_destroy. simpl. rewrite Hn. simpl.
  assert (erase_handle h (h' :: q) = None) as E.
  { pose proof (erase_handle_spec h (h' :: q)) as He. destruct (erase_handle h (h' :: q)) as [q'|]; [|done].
    destruct Hnot, He as [Hp _]. rewrite Hp. by left. }
  simpl in E. rewrite E. simpl. by rewrite <- app_assoc.
Qed.

(** * Latch *)

Record latch := Latch { _count : Z; _l_waiters : list Z; l_woken : list Z }.

Definition latch_create (count : Z) : latch := Latch count [] [].

Definition count_down (n : Z) (l : latch) : latch :=
  if _count l =? 0 then l
  else
    let c := if _count l <=? n then 0 else _count l - n in
    if c =? 0 then Latch c [] (l_woken l ++ _l_waiters l) else Latch c (_l_waiters l) (l_woken l).

Definition is_ready (l : latch) : bool := _count l =? 0.

(** [co_await wait()]; [true] when the coroutine does not suspend. *)
Definition latch_wait (h : Z) (l : latch) : bool * latch :=
  if _count l =? 0 then (true, l) else (false, Latch (_count l) (_l_waiters l ++ [h]) (l_woken l)).

Definition latch_destroy (h : Z) (l : latch) : latch :=
  match erase_handle h (_l_waiters l) with
  | Some q => Latch (_count l) q (l_woken l)
  | None => l
  end.

Inductive latch_op := ODown (n : Z) | OWait (h : Z) | ODestroy (h : Z).

Definition latch_step (o : latch_op) (l : latch) : latch :=
  match o with
  | ODown n => count_down n l
  | OWait h => (latch_wait h l).2
  | ODestroy h => latch_destroy h l
  end.

Definition latch_run (os : list latch_op) (l : latch) : latch := fold_left (fun l o => latch_step o l) os l.

(** The total counted down so far. *)
Definition latch_total (os : list latch_op) : Z := foldr (fun o t => match o with ODown n => n + t | _ => t end) 0 os.

Lemma destroy_count h l : _count (latch_destroy h l) = _count l /\ l_woken (latch_destroy h l) = l_woken l.
Proof. unfold latch_destroy. by destruct (erase_handle h (_l_waiters l)). Qed.

(** The latch opens when the count is used up, not before, and then nobody is left waiting. *)
Lemma latch_opens os l :
  0 < _count l -> Forall (fun o => match o with ODown n => 0 <= n | _ => True end) os ->
  _count (latch_run os l) = Z.max 0 (_count l - latch_total os) /\
  (latch_total os < _count l -> l_woken (latch_run os l) = l_woken l) /\ (_count l <= latch_total os -> _l_waiters (latch_run os l) = []).
Proof.
  intros Hc Hos. revert l Hc. assert (forall os, Forall (fun o => match o with ODown n => 0 <= n | _ => True end) os -> 0 <= latch_total os) as Ht.
  { intros os' H'. induction H' as [|[n|h|h] os' Hn _ IH']; simpl; lia. }
  assert (forall os l, _count l = 0 -> _l_waiters l = [] -> latch_run os l = l) as Hopen.
  { intros os'. induction os' as [|o os' IH']; intros l Hl Hw; [done|]. simpl. assert (latch_step o l = l) as ->; [|by apply IH'].
    destruct o as [n|h|h]; simpl; [unfold count_down|unfold latch_wait|unfold latch_destroy]; rewrite ?Hl, ?Hw; done. }
  induction Hos as [|o os Ho Hos IH]; intros l Hc; simpl; [split_and!; [lia|done|lia]|].
  specialize (Ht os Hos). destruct o as [n|h|h]; simpl.
  - unfold count_down. destruct (Z.eqb_spec (_count l) 0); [lia|]. destruct (Z.leb_spec (_count l) n); simpl.
    + unfold latch_run in Hopen. rewrite Hopen by done. simpl. split_and!; [lia|lia|done].
    + destruct (Z.eqb_spec (_count l - n) 0); [lia|]. destruct (IH (Latch (_count l - n) (_l_waiters l) (l_woken l))) as (H1 & H2 & H3); [simpl; lia|].
      simpl in *. rewrite H1. split_and!; [lia|intros; apply H2; lia|intros; apply H3; lia].
  - unfold latch_wait. destruct (Z.eqb_spec (_count l) 0); [lia|]. by apply (IH (Latch (_count l) (_l_waiters l ++ [h]) (l_woken l))).
  - destruct (destroy_count h l) as [E1 E2]. specialize (IH (latch_destroy h l)). rewrite E1, E2 in IH. by apply IH.
Qed.
