(* ===== verification/Channel.v ===== *)
(** [channel<T>] (src/qb/io/async/coroutine/channel.h): sends and receives that wait, the
    non-blocking and the timed ones, one channel's part in a [select()], and [close()].

    Everything runs on one thread. A suspended operation is named by the handle of its
    coroutine; its awaiter's fields are in the tables [senders], [receivers] and [selects].
    [ready] holds the handles given to [schedule_via_current] and not resumed yet; an awaiter
    may be destroyed at any time. Values are abstract. The channel outlives its awaiters. *)

From S2P Require Import Prelude Sync.

(** A parked [send_awaiter] or [timed_send_awaiter]: its value, and for the timed one what
    [fired] points to. *)
Record sender := Sender { s_value : Z; s_timed : bool; s_fired : bool }.

(** [channel_select_state] of a [recv_for] or of a [select()] over several channels. *)
Record select := Select { resolved : bool; timed_out : bool; s_closed : bool; value : option Z }.

(** The ghost logs: values whose send succeeded, in order; values that left the channel for a
    receiver, in order; values returned to receivers; values dropped by an abandoned
    [select()]; and whether a destroyed receiver put a value back. *)
Record logs := Logs { accepted : list Z; taken : list Z; received : list Z; dropped : list Z; rebuffered : bool }.

Record chan := Chan {
  _capacity : Z; _buffer : list Z; _send_waiters : list Z; _recv_waiters : list Z; _select_waiters : list Z;
  _closed : bool;
  senders : gmap Z sender; receivers : gmap Z (option Z); selects : gmap Z select;
  guards : gmap Z bool; ready : gset Z; log : logs
}.

Definition create (capacity : Z) : chan := Chan capacity [] [] [] [] false ∅ ∅ ∅ ∅ ∅ (Logs [] [] [] [] false).

(** * Field updates *)

Definition with_buffer (b : list Z) (c : chan) : chan :=
  Chan (_capacity c) b (_send_waiters c) (_recv_waiters c) (_select_waiters c) (_closed c)
       (senders c) (receivers c) (selects c) (guards c) (ready c) (log c).
Definition with_send_waiters (q : list Z) (c : chan) : chan :=
  Chan (_capacity c) (_buffer c) q (_recv_waiters c) (_select_waiters c) (_closed c)
       (senders c) (receivers c) (selects c) (guards c) (ready c) (log c).
Definition with_recv_waiters (q : list Z) (c : chan) : chan :=
  Chan (_capacity c) (_buffer c) (_send_waiters c) q (_select_waiters c) (_closed c)
       (senders c) (receivers c) (selects c) (guards c) (ready c) (log c).
Definition with_select_waiters (q : list Z) (c : chan) : chan :=
  Chan (_capacity c) (_buffer c) (_send_waiters c) (_recv_waiters c) q (_closed c)
       (senders c) (receivers c) (selects c) (guards c) (ready c) (log c).
Definition with_closed (c : chan) : chan :=
  Chan (_capacity c) (_buffer c) (_send_waiters c) (_recv_waiters c) (_select_waiters c) true
       (senders c) (receivers c) (selects c) (guards c) (ready c) (log c).
Definition with_senders (m : gmap Z sender) (c : chan) : chan :=
  Chan (_capacity c) (_buffer c) (_send_waiters c) (_recv_waiters c) (_select_waiters c) (_closed c)
       m (receivers c) (selects c) (guards c) (ready c) (log c).
Definition with_receivers (m : gmap Z (option Z)) (c : chan) : chan :=
  Chan (_capacity c) (_buffer c) (_send_waiters c) (_recv_waiters c) (_select_waiters c) (_closed c)
       (senders c) m (selects c) (guards c) (ready c) (log c).
Definition with_selects (m : gmap Z select) (c : chan) : chan :=
  Chan (_capacity c) (_buffer c) (_send_waiters c) (_recv_waiters c) (_select_waiters c) (_closed c)
       (senders c) (receivers c) m (guards c) (ready c) (log c).
Definition with_guards (m : gmap Z bool) (c : chan) : chan :=
  Chan (_capacity c) (_buffer c) (_send_waiters c) (_recv_waiters c) (_select_waiters c) (_closed c)
       (senders c) (receivers c) (selects c) m (ready c) (log c).
Definition with_ready (r : gset Z) (c : chan) : chan :=
  Chan (_capacity c) (_buffer c) (_send_waiters c) (_recv_waiters c) (_select_waiters c) (_closed c)
       (senders c) (receivers c) (selects c) (guards c) r (log c).
Definition with_log (l : logs) (c : chan) : chan :=
  Chan (_capacity c) (_buffer c) (_send_waiters c) (_recv_waiters c) (_select_waiters c) (_closed c)
       (senders c) (receivers c) (selects c) (guards c) (ready c) l.

(** [schedule_via_current], and the scheduler dropping a handle. *)
Definition schedule (h : Z) (c : chan) : chan := with_ready ({[ h ]} ∪ ready c) c.
Definition unschedule (h : Z) (c : chan) : chan := with_ready (ready c ∖ {[ h ]}) c.

Definition log_accept (v : Z) (c : chan) : chan :=
  let l := log c in with_log (Logs (accepted l ++ [v]) (taken l) (received l) (dropped l) (rebuffered l)) c.
Definition log_take (v : Z) (c : chan) : chan :=
  let l := log c in with_log (Logs (accepted l) (taken l ++ [v]) (received l) (dropped l) (rebuffered l)) c.
Definition log_receive (v : Z) (c : chan) : chan :=
  let l := log c in with_log (Logs (accepted l) (taken l) (received l ++ [v]) (dropped l) (rebuffered l)) c.
Definition log_drop (v : Z) (c : chan) : chan :=
  let l := log c in with_log (Logs (accepted l) (taken l) (received l) (dropped l ++ [v]) (rebuffered l)) c.
Definition log_rebuffer (c : chan) : chan :=
  let l := log c in with_log (Logs (accepted l) (taken l) (received l) (dropped l) true) c.

(** * Operations *)

(** [*entry.guard]; an entry of a plain [send] has no guard. *)
Definition guarded (h : Z) (c : chan) : bool := default false (guards c !! h).

(** Waking an entry of [_send_waiters] sets its guard. *)
Definition wake_sender (h : Z) (c : chan) : chan :=
  schedule h (with_guards (alter (fun _ => true) h (guards c)) c).

(** [wake_one_sender]: entries already woken by their timer are skipped. *)
Fixpoint wake_from (q : list Z) (c : chan) : chan :=
  match q with
  | [] => with_send_waiters [] c
  | h :: q => if guarded h c then wake_from q c else wake_sender h (with_send_waiters q c)
  end.
Definition wake_one_sender (c : chan) : chan := wake_from (_send_waiters c) c.

(** [channel_select_state::resolve] *)
Definition resolve (h : Z) (v : option Z) (ch_closed : bool) (c : chan) : chan :=
  match selects c !! h with
  | Some s =>
      if resolved s then c
      else schedule h (with_selects (<[h := Select true (timed_out s) ch_closed v]> (selects c)) c)
  | None => c
  end.

Definition is_resolved (h : Z) (c : chan) : bool := match selects c !! h with Some s => resolved s | None => true end.

(** [offer_to_select_waiter] *)
Fixpoint offer_from (q : list Z) (v : Z) (c : chan) : bool * chan :=
  match q with
  | [] => (false, with_select_waiters [] c)
  | h :: q =>
      if is_resolved h c then offer_from q v c
      else (true, log_take v (resolve h (Some v) false (with_select_waiters q c)))
  end.
Definition offer_to_select_waiter (v : Z) (c : chan) : bool * chan := offer_from (_select_waiters c) v c.

(** A waiting receiver first, then a waiting select: the hand-over every send tries. *)
Definition hand_over (v : Z) (c : chan) : bool * chan :=
  match _recv_waiters c with
  | h :: q =>
      (true, log_take v (schedule h (with_receivers (<[h := Some v]> (receivers c)) (with_recv_waiters q c))))
  | [] => offer_to_select_waiter v c
  end.

Definition push_buffer (v : Z) (c : chan) : chan := with_buffer (_buffer c ++ [v]) c.

Definition try_send (v : Z) (c : chan) : bool * chan :=
  if _closed c then (false, c)
  else
    let '(ok, c) := hand_over v c in
    if ok then (true, log_accept v c)
    else if zlen (_buffer c) <? _capacity c then (true, log_accept v (push_buffer v c))
    else (false, c).

(** [co_await send(v)]: [Some true] when it completed, [Some false] when it throws
    [channel_closed], [None] when it parked. *)
Definition send (h : Z) (v : Z) (c : chan) : option bool * chan :=
  if _closed c then (Some false, c)
  else
    let '(ok, c) := hand_over v c in
    if ok then (Some true, log_accept v c)
    else if zlen (_buffer c) <? _capacity c then (Some true, log_accept v (push_buffer v c))
    else (None, with_send_waiters (_send_waiters c ++ [h]) (with_senders (<[h := Sender v false false]> (senders c)) c)).

(** [send_awaiter::await_resume] and [timed_send_awaiter::await_resume] of a woken sender. *)
Definition send_resume (h : Z) (c : chan) : bool * chan :=
  match senders c !! h with
  | Some s =>
      if decide (h ∈ ready c) then
        let c := with_senders (delete h (senders c)) (unschedule h c) in
        if s_fired s || _closed c then (false, c)
        else
          let '(ok, c) := hand_over (s_value s) c in
          if ok then (true, log_accept (s_value s) c) else (true, log_accept (s_value s) (push_buffer (s_value s) c))
      else (false, c)
  | None => (false, c)
  end.

(** [~send_awaiter] takes its entry out of the queue; [~timed_send_awaiter] only sets its guard. *)
Definition send_destroy (h : Z) (c : chan) : chan :=
  match senders c !! h with
  | Some s =>
      let c := with_senders (delete h (senders c)) (unschedule h c) in
      if s_timed s then with_guards (alter (fun _ => true) h (guards c)) c
      else match erase_handle h (_send_waiters c) with
           | Some q => with_send_waiters q c
           | None => c
           end
  | None => c
  end.

Definition try_recv (c : chan) : option Z * chan :=
  match _buffer c with
  | v :: b => (Some v, log_receive v (log_take v (wake_one_sender (with_buffer b c))))
  | [] => (None, c)
  end.

(** [co_await recv()]: [Some r] when it completed with [r], [None] when it parked. *)
Definition recv (h : Z) (c : chan) : option (option Z) * chan :=
  match _buffer c with
  | v :: b => (Some (Some v), log_receive v (log_take v (wake_one_sender (with_buffer b c))))
  | [] =>
      if _closed c then (Some None, c)
      else (None, wake_one_sender (with_recv_waiters (_recv_waiters c ++ [h]) (with_receivers (<[h := None]> (receivers c)) c)))
  end.

Definition recv_resume (h : Z) (c : chan) : option Z * chan :=
  match receivers c !! h with
  | Some r =>
      if decide (h ∈ ready c) then
        let c := with_receivers (delete h (receivers c)) (unschedule h c) in
        match r with
        | Some v => (Some v, log_receive v c)
        | None => try_recv c
        end
      else (None, c)
  | None => (None, c)
  end.

(** [~recv_awaiter]: a value handed over and not consumed goes back to the buffer. *)
Definition recv_destroy (h : Z) (c : chan) : chan :=
  match receivers c !! h with
  | Some r =>
      let c := with_receivers (delete h (receivers c)) (unschedule h c) in
      match erase_handle h (_recv_waiters c) with
      | Some q => with_recv_waiters q c
      | None => match r with Some v => log_rebuffer (push_buffer v c) | None => c end
      end
  | None => c
  end.

Definition new_select (h : Z) (c : chan) : chan :=
  with_selects (<[h := Select false false false None]> (selects c)) c.

(** Parking in [_select_waiters], which wakes a sender that is already there. *)
Definition park_select (h : Z) (c : chan) : chan :=
  wake_one_sender (with_select_waiters (_select_waiters c ++ [h]) c).

(** [recv_for], up to its suspension. *)
Definition recv_for (h : Z) (c : chan) : option (option Z) * chan :=
  match _buffer c with
  | _ :: _ => let '(r, c) := try_recv c in (Some r, c)
  | [] => if _closed c then (Some None, c) else (None, park_select h (new_select h c))
  end.

(** One channel's part of a [select()]: [register_select_waiter] on a new select state. *)
Definition register_select_waiter (h : Z) (c : chan) : chan :=
  match _buffer c with
  | v :: b => resolve h (Some v) false (log_take v (wake_one_sender (with_buffer b c)))
  | [] => if _closed c then resolve h None true c else park_select h c
  end.

(** [channel_timer] fires, or another channel wins the [select()]: this channel's entry is stale. *)
Definition select_timeout (h : Z) (c : chan) : chan :=
  match selects c !! h with
  | Some s =>
      if resolved s then c
      else schedule h (with_selects (<[h := Select true true (s_closed s) (value s)]> (selects c)) c)
  | None => c
  end.

(** [timed_recv_awaiter::await_resume] and [channel_select_awaiter::await_resume]. *)
Definition select_resume (h : Z) (c : chan) : option Z * chan :=
  match selects c !! h with
  | Some s =>
      if decide (h ∈ ready c) then
        let c := with_selects (<[h := Select true (timed_out s) (s_closed s) None]> (selects c)) (unschedule h c) in
        if timed_out s || s_closed s then (None, c)
        else match value s with
             | Some v => (Some v, log_receive v c)
             | None => (None, c)
             end
      else (None, c)
  | None => (None, c)
  end.

(** [~timed_recv_awaiter] puts an unused value back; [~channel_select_awaiter] drops it. *)
Definition select_destroy (single : bool) (h : Z) (c : chan) : chan :=
  match selects c !! h with
  | Some s =>
      let c := with_selects (<[h := Select true (timed_out s) (s_closed s) None]> (selects c)) (unschedule h c) in
      if negb (resolved s) || timed_out s || s_closed s then c
      else match value s with
           | Some v => if single then log_rebuffer (push_buffer v c) else log_drop v c
           | None => c
           end
  | None => c
  end.

Definition has_live_select_waiter (c : chan) : bool := existsb (fun h => negb (is_resolved h c)) (_select_waiters c).

(** [send_for], up to its suspension. *)
Definition send_for (h : Z) (v : Z) (c : chan) : option bool * chan :=
  if _closed c then (Some false, c)
  else if (zlen (_buffer c) <? _capacity c) || negb (bool_decide (_recv_waiters c = [])) || has_live_select_waiter c then
    send h v c
  else
    (None, with_send_waiters (_send_waiters c ++ [h])
             (with_guards (<[h := false]> (guards c)) (with_senders (<[h := Sender v true false]> (senders c)) c))).

(** [send_timer]: the entry stays in [_send_waiters], guarded. *)
Definition send_timer (h : Z) (c : chan) : chan :=
  match guards c !! h, senders c !! h with
  | Some false, Some s =>
      schedule h (with_guards (<[h := true]> (guards c)) (with_senders (<[h := Sender (s_value s) true true]> (senders c)) c))
  | _, _ => c
  end.

Fixpoint close_senders (q : list Z) (c : chan) : chan :=
  match q with
  | [] => with_send_waiters [] c
  | h :: q => close_senders q (if guarded h c then c else wake_sender h c)
  end.

Fixpoint close_selects (q : list Z) (c : chan) : chan :=
  match q with
  | [] => with_select_waiters [] c
  | h :: q => close_selects q (resolve h None true c)
  end.

Definition close (c : chan) : chan :=
  if _closed c then c
  else
    let c := with_closed c in
    let c := with_recv_waiters [] (with_ready (list_to_set (_recv_waiters c) ∪ ready c) c) in
    let c := close_senders (_send_waiters c) c in
    close_selects (_select_waiters c) c.

Inductive op :=
| OTrySend (v : Z) | OSend (h v : Z) | OSendFor (h v : Z) | OSendResume (h : Z) | OSendDestroy (h : Z) | OSendTimer (h : Z)
| OTryRecv | ORecv (h : Z) | ORecvResume (h : Z) | ORecvDestroy (h : Z)
| ORecvFor (h : Z) | OSelect (h : Z) | OTimeout (h : Z) | OSelectResume (h : Z) | OSelectDestroy (single : bool) (h : Z)
| OClose.

(** A handle names one awaiter, and a new one is not in use anywhere. *)
Definition fresh (h : Z) (c : chan) : bool :=
  bool_decide (h ∉ list_to_set (_send_waiters c ++ _select_waiters c) ∪ ready c ∪ dom (senders c) ∪ dom (receivers c) ∪ dom (selects c) ∪ dom (guards c)).

Definition step (o : op) (c : chan) : chan :=
  match o with
  | OTrySend v => (try_send v c).2
  | OSend h v => if fresh h c then (send h v c).2 else c
  | OSendFor h v => if fresh h c then (send_for h v c).2 else c
  | OSendResume h => (send_resume h c).2
  | OSendDestroy h => send_destroy h c
  | OSendTimer h => send_timer h c
  | OTryRecv => (try_recv c).2
  | ORecv h => if fresh h c then (recv h c).2 else c
  | ORecvResume h => (recv_resume h c).2
  | ORecvDestroy h => recv_destroy h c
  | ORecvFor h => if fresh h c then (recv_for h c).2 else c
  | OSelect h => if fresh h c then register_select_waiter h (new_select h c) else c
  | OTimeout h => select_timeout h c
  | OSelectResume h => (select_resume h c).2
  | OSelectDestroy single h => select_destroy single h c
  | OClose => close c
  end.

Definition run (os : list op) (c : chan) : chan := fold_left (fun c o => step o c) os c.

(** * The invariant *)

(** The values held in a table. *)
Definition vals {A} (f : A -> option Z) (m : gmap Z A) : list Z := omap (fun p => f p.2) (map_to_list m).

(** Values that left the buffer but have not reached their receiver. *)
Definition in_hands (c : chan) : list Z := vals (fun r => r) (receivers c) ++ vals value (selects c).

Definition idle (c : chan) : Prop := _recv_waiters c = [] /\ has_live_select_waiter c = false.

(** An unresolved select is untouched; one that timed out or saw the channel close has no value. *)
Definition select_ok (s : select) : Prop :=
  (resolved s = false -> s = Select false false false None) /\ (timed_out s || s_closed s = true -> value s = None).

Record inv (c : chan) : Prop := Inv {
  inv_conserve : accepted (log c) ≡ₚ received (log c) ++ _buffer c ++ in_hands c ++ dropped (log c);
  inv_select : map_Forall (fun _ => select_ok) (selects c);
  inv_fifo : rebuffered (log c) = false -> accepted (log c) = taken (log c) ++ _buffer c;
  inv_waiting : rebuffered (log c) = false -> _buffer c <> [] -> idle c;
}.

(** A parked receiver has no value yet and is not scheduled; no handle belongs to a receiver
    and to another operation. *)
Record tidy (c : chan) : Prop := Tidy {
  tidy_nodup : NoDup (_recv_waiters c);
  tidy_parked h : h ∈ _recv_waiters c -> receivers c !! h = Some None /\ (h ∉ ready c);
  tidy_apart h : h ∈ dom (receivers c) -> (h ∉ _send_waiters c) /\ (h ∉ dom (senders c)) /\ (h ∉ dom (selects c));
}.

Section Vals.
Context {A : Type} (f : A -> option Z).
Implicit Types m : gmap Z A.

Lemma vals_insert m h a : vals f (<[h := a]> m) ≡ₚ option_list (f a) ++ vals f (delete h m).
Proof.
  unfold vals. rewrite <- insert_delete_eq, map_to_list_insert by apply lookup_delete_eq. simpl. by destruct (f a).
Qed.

Lemma vals_lookup m h a : m !! h = Some a -> vals f m ≡ₚ option_list (f a) ++ vals f (delete h m).
Proof. intros E. rewrite <- (vals_insert m h a). by rewrite insert_id. Qed.

Lemma vals_fresh m h a : m !! h = None -> f a = None -> vals f (<[h := a]> m) ≡ₚ vals f m.
Proof. intros E Ef. by rewrite vals_insert, Ef, delete_id. Qed.

(** A change that keeps the value, and one that puts a value where there was none. *)
Lemma vals_keep m h a a' : m !! h = Some a -> f a' = f a -> vals f (<[h := a']> m) ≡ₚ vals f m.
Proof. intros E Ef. by rewrite vals_insert, Ef, <- (vals_lookup m h a). Qed.

Lemma vals_put m h a a' v : m !! h = Some a -> f a = None -> f a' = Some v -> vals f (<[h := a']> m) ≡ₚ v :: vals f m.
Proof. intros E Ef Ef'. by rewrite vals_insert, Ef', (vals_lookup m h a), Ef. Qed.
End Vals.

(** The part of the state the invariant speaks of. *)
Definition core (c : chan) :=
  (_buffer c, _recv_waiters c, _select_waiters c, receivers c, selects c, log c).

Lemma idle_ext c c' : core c = core c' -> idle c -> idle c'.
Proof.
  unfold core, idle, has_live_select_waiter, is_resolved. intros [= H1 H2 H3 H4 H5 H6]. by rewrite H2, H3, H5.
Qed.

Lemma inv_ext c c' : core c = core c' -> inv c -> inv c'.
Proof.
  intros E Hc. pose proof E as E'. unfold core in E'. injection E' as H1 H2 H3 H4 H5 H6.
  destruct Hc. split; unfold in_hands in *; rewrite <- ?H1, <- ?H2, <- ?H4, <- ?H5, <- ?H6; auto.
  intros Hr Hb. eapply idle_ext; [exact E|auto].
Qed.

Lemma wake_from_core q c : core (wake_from q c) = core c.
Proof.
  induction q as [|h q IH]; [done|]. cbn [wake_from]. by destruct (guarded h c).
Qed.

Lemma wake_core c : core (wake_one_sender c) = core c.
Proof. apply wake_from_core. Qed.

Lemma wake_from_tidy q c : q ⊆ _send_waiters c -> tidy c -> tidy (wake_from q c).
Proof.
  intros Hq Hc. induction q as [|h q IH]; simpl.
  - destruct Hc. split; simpl; set_solver.
  - destruct (guarded h c); [apply IH; set_solver|]. destruct Hc as [Hn Hp Ha]. split; simpl; [done| |].
    + intros x Hx. destruct (Hp x Hx) as [E Hr]. split; [done|]. assert (x ∈ dom (receivers c)) by (apply elem_of_dom; eauto).
      destruct (Ha x) as (Hs & _); [done|]. set_solver.
    + intros x Hx. destruct (Ha x Hx) as (? & ? & ?). set_solver.
Qed.

Lemma wake_tidy c : tidy c -> tidy (wake_one_sender c).
Proof. by apply wake_from_tidy. Qed.

Lemma live_forall c : has_live_select_waiter c = false <-> forall h, h ∈ _select_waiters c -> is_resolved h c = true.
Proof.
  unfold has_live_select_waiter. rewrite <- not_true_iff_false, existsb_exists. split.
  - intros Hn h Hh. apply not_false_iff_true. intros E. apply Hn. exists h. rewrite E. by split; [apply list_elem_of_In|].
  - intros Ha (h & Hh%list_elem_of_In & Hr). by rewrite Ha in Hr.
Qed.

Lemma is_resolved_insert h s c x :
  is_resolved x (with_selects (<[h := s]> (selects c)) c) = if decide (x = h) then resolved s else is_resolved x c.
Proof.
  unfold is_resolved. simpl. case_decide as E; [subst; by rewrite lookup_insert_eq|by rewrite lookup_insert_ne].
Qed.

(** What offering a value to the parked selects does. *)
Lemma offer_spec q v c :
  inv c -> q ⊆ _select_waiters c -> _recv_waiters c = [] -> (forall h, h ∈ _select_waiters c -> h ∉ q -> is_resolved h c = true) ->
  let '(ok, c') := offer_from q v c in
  if ok then inv (log_accept v c') else core c' = core (with_select_waiters [] c) /\ idle c'.
Proof.
  intros Hc Hq Hr. revert Hq. induction q as [|h q IH]; intros Hq Hold; simpl; [done|].
  destruct (is_resolved h c) eqn:Er.
  - apply IH; [set_solver|]. intros x Hx Hxq. destruct (decide (x = h)) as [->|]; [done|]. apply Hold; [done|set_solver].
  - assert (has_live_select_waiter c = true) as Hlive.
    { destruct (has_live_select_waiter c) eqn:El; [done|]. pose proof (proj1 (live_forall c) El h ltac:(set_solver)). congruence. }
    assert (rebuffered (log c) = false -> _buffer c = []) as Hb.
    { intros Hrb. destruct (_buffer c) as [|v0 b] eqn:Eb; [done|]. destruct (inv_waiting c Hc Hrb) as [_ Hl]; [by rewrite Eb|congruence]. }
    unfold resolve. unfold is_resolved in Er. simpl. destruct (selects c !! h) as [s|] eqn:Es; [|done]. rewrite Er.
    pose proof (proj1 (inv_select c Hc h s Es) Er) as ->. destruct Hc. split; simpl; try done.
    + rewrite inv_conserve0. unfold in_hands. simpl. rewrite (vals_put value _ _ _ _ v Es) by done.
      solve_Permutation.
    + by apply map_Forall_insert_2.
    + intros Hrb. rewrite (inv_fifo0 Hrb), (Hb Hrb), !app_nil_r. done.
    + intros Hrb Hne. by rewrite (Hb Hrb) in Hne.
Qed.

Lemma in_dom {A} (m : gmap Z A) h a : m !! h = Some a -> h ∈ dom m.
Proof. intros E. apply elem_of_dom. eauto. Qed.

(** A change that parks nobody, and schedules or adds only handles of other operations. *)
Lemma tidy_same c c' :
  _recv_waiters c' = _recv_waiters c -> receivers c' = receivers c ->
  (forall h, h ∈ ready c' -> h ∈ ready c \/ (h ∉ dom (receivers c))) ->
  (forall h, h ∈ _send_waiters c' \/ h ∈ dom (senders c') \/ h ∈ dom (selects c') ->
             h ∈ _send_waiters c \/ h ∈ dom (senders c) \/ h ∈ dom (selects c) \/ (h ∉ dom (receivers c))) ->
  tidy c -> tidy c'.
Proof.
  intros H1 H2 H3 H4 [Hn Hp Ha]. split; rewrite H1 || rewrite H2; [done| |].
  - intros h Hh. rewrite H2. destruct (Hp h Hh) as [E Hr]. split; [done|]. intros Hr'. destruct (H3 h Hr') as [|Hd]; [done|].
    by apply Hd, (in_dom _ _ None).
  - intros h Hh. destruct (Ha h Hh) as (? & ? & ?). specialize (H4 h). naive_solver.
Qed.

Lemma resolve_tidy h v b c : tidy c -> tidy (resolve h v b c).
Proof.
  intros Hc. unfold resolve. destruct (selects c !! h) as [s|] eqn:E; [|done]. destruct (resolved s); [done|].
  apply in_dom in E. assert (h ∉ dom (receivers c)) by (intros Hd; destruct (tidy_apart c Hc h Hd); set_solver).
  eapply tidy_same; [..|exact Hc]; simpl; try done; [set_solver|rewrite dom_insert_L; set_solver].
Qed.

Lemma log_tidy l c : tidy c -> tidy (with_log l c).
Proof. intros [? ? ?]. by split. Qed.

Lemma buffer_tidy b c : tidy c -> tidy (with_buffer b c).
Proof. intros [? ? ?]. by split. Qed.

Lemma select_waiters_tidy q c : tidy c -> tidy (with_select_waiters q c).
Proof. intros [? ? ?]. by split. Qed.

Lemma offer_from_tidy q v c : tidy c -> tidy (offer_from q v c).2.
Proof.
  intros Hc. induction q as [|h q IH]; simpl; [by apply select_waiters_tidy|].
  destruct (is_resolved h c); [done|]. by apply log_tidy, resolve_tidy, select_waiters_tidy.
Qed.

Lemma hand_over_tidy v c : tidy c -> tidy (hand_over v c).2.
Proof.
  intros Hc. unfold hand_over. destruct (_recv_waiters c) as [|h q] eqn:E; [by apply offer_from_tidy|].
  destruct Hc as [Hn Hp Ha]. rewrite E in *. apply NoDup_cons in Hn as [Hh Hn]. split; simpl; [done| |].
  - intros x Hx. destruct (Hp x) as [? ?]; [set_solver|]. rewrite lookup_insert_ne by set_solver. set_solver.
  - intros x Hx. apply Ha. rewrite dom_insert_L in Hx. destruct (Hp h) as [Ed%in_dom _]; set_solver.
Qed.

(** Removing a receiver that is not parked (any more). *)
Lemma drop_receiver_tidy h q c :
  tidy c -> NoDup q -> q ⊆ _recv_waiters c -> (h ∉ q) ->
  tidy (with_recv_waiters q (with_receivers (delete h (receivers c)) (unschedule h c))).
Proof.
  intros [Hn Hp Ha] Hq Hs Hh. split; simpl; [done| |].
  - intros x Hx. rewrite lookup_delete_ne by set_solver. destruct (Hp x) as [? ?]; [by apply Hs|]. set_solver.
  - intros x Hx. apply Ha. set_solver.
Qed.

Lemma add_sender_tidy h s q c :
  tidy c -> (h ∉ dom (receivers c)) -> q ⊆ h :: _send_waiters c ->
  tidy (with_send_waiters q (with_senders (<[h := s]> (senders c)) c)).
Proof.
  intros Hc Hh Hq. eapply tidy_same; [..|exact Hc]; simpl; [done|done|set_solver|].
  intros x [Hx|[Hx|Hx]]; [apply Hq in Hx|rewrite dom_insert_L in Hx|]; set_solver.
Qed.

Lemma drop_sender_tidy h c : tidy c -> tidy (with_senders (delete h (senders c)) (unschedule h c)).
Proof. intros Hc. eapply tidy_same; [..|exact Hc]; simpl; set_solver. Qed.

Lemma set_select_tidy h s c : tidy c -> (h ∉ dom (receivers c)) -> tidy (with_selects (<[h := s]> (selects c)) c).
Proof. intros Hc Hh. eapply tidy_same; [..|exact Hc]; simpl; [done|done|set_solver|]. rewrite dom_insert_L. set_solver. Qed.

Lemma unschedule_tidy h c : tidy c -> tidy (unschedule h c).
Proof. intros Hc. eapply tidy_same; [..|exact Hc]; simpl; set_solver. Qed.

Lemma guards_tidy g c : tidy c -> tidy (with_guards g c).
Proof. intros [? ? ?]. by split. Qed.

Lemma try_send_tidy v c : tidy c -> tidy (try_send v c).2.
Proof.
  intros Hc. unfold try_send. destruct (_closed c); [done|]. pose proof (hand_over_tidy v c Hc) as Hh.
  destruct (hand_over v c) as [ok c']. destruct ok; [by apply log_tidy|]. case_match; [by apply log_tidy, buffer_tidy|done].
Qed.

Lemma hand_over_dom v c : tidy c -> dom (receivers (hand_over v c).2) = dom (receivers c).
Proof.
  intros Hc. unfold hand_over. destruct (_recv_waiters c) as [|h q] eqn:E.
  - unfold offer_to_select_waiter. induction (_select_waiters c) as [|x q IH]; simpl; [done|]. destruct (is_resolved x c); [done|].
    unfold resolve. simpl. destruct (selects c !! x) as [s|]; [|done]. by destruct (resolved s).
  - simpl. destruct (tidy_parked c Hc h) as [Ed%in_dom _]; [rewrite E; set_solver|]. rewrite dom_insert_L. set_solver.
Qed.

Lemma send_tidy h v c : tidy c -> (h ∉ dom (receivers c)) -> tidy (send h v c).2.
Proof.
  intros Hc Hd. unfold send. destruct (_closed c); [done|]. pose proof (hand_over_tidy v c Hc) as Hh.
  pose proof (hand_over_dom v c Hc) as Hdom.
  destruct (hand_over v c) as [ok c']. simpl in *. destruct ok; [by apply log_tidy|]. case_match; [by apply log_tidy, buffer_tidy|].
  apply (add_sender_tidy h _ (_send_waiters c' ++ [h])); [done|by rewrite Hdom|set_solver].
Qed.

Lemma send_for_tidy h v c : tidy c -> (h ∉ dom (receivers c)) -> tidy (send_for h v c).2.
Proof.
  intros Hc Hd. unfold send_for. destruct (_closed c); [done|]. case_match; [by apply send_tidy|]. simpl.
  apply (add_sender_tidy h _ (_send_waiters c ++ [h])) with (c := with_guards _ c); simpl; [by apply guards_tidy|done|set_solver].
Qed.

Lemma send_resume_tidy h c : tidy c -> tidy (send_resume h c).2.
Proof.
  intros Hc. unfold send_resume. destruct (senders c !! h) as [s|]; [|done]. case_decide; [|done].
  apply (drop_sender_tidy h) in Hc. cbv zeta. case_match; [done|].
  pose proof (hand_over_tidy (s_value s) _ Hc) as Hh. destruct (hand_over _ _) as [ok c']. simpl in Hh.
  destruct ok; [by apply log_tidy|by apply log_tidy, buffer_tidy].
Qed.

Lemma send_destroy_tidy h c : tidy c -> tidy (send_destroy h c).
Proof.
  intros Hc. unfold send_destroy. destruct (senders c !! h) as [s|]; [|done]. apply (drop_sender_tidy h) in Hc. cbv zeta.
  destruct (s_timed s); [by apply guards_tidy|]. pose proof (erase_handle_spec h (_send_waiters c)) as Hs. simpl.
  destruct (erase_handle h (_send_waiters c)) as [q|]; [|done]. destruct Hs as [Hp _].
  eapply tidy_same; [..|exact Hc]; simpl; [done|done|set_solver|]. setoid_rewrite Hp. set_solver.
Qed.

Lemma send_timer_tidy h c : tidy c -> tidy (send_timer h c).
Proof.
  intros Hc. unfold send_timer. destruct (guards c !! h) as [[]|]; [done| |done]. destruct (senders c !! h) as [s|] eqn:E; [|done].
  apply in_dom in E. assert (h ∉ dom (receivers c)) by (intros Hd; destruct (tidy_apart c Hc h Hd); set_solver).
  eapply tidy_same; [..|exact Hc]; simpl; [done|done|set_solver|]. rewrite dom_insert_L. set_solver.
Qed.

Lemma try_recv_tidy c : tidy c -> tidy (try_recv c).2.
Proof.
  intros Hc. unfold try_recv. destruct (_buffer c); [done|]. by apply log_tidy, log_tidy, wake_tidy, buffer_tidy.
Qed.

Lemma recv_tidy h c : tidy c -> fresh h c = true -> tidy (recv h c).2.
Proof.
  intros Hc Hf%bool_decide_eq_true. unfold recv. destruct (_buffer c); [|by apply log_tidy, log_tidy, wake_tidy, buffer_tidy].
  destruct (_closed c); [done|]. apply wake_tidy. destruct Hc as [Hn Hp Ha].
  assert (h ∉ _recv_waiters c) by (intros Hh; destruct (Hp h Hh) as [E%in_dom _]; set_solver). split; simpl.
  - apply NoDup_app. split; [done|]. split; [set_solver|apply NoDup_singleton].
  - intros x [Hx|Hx]%elem_of_app; [rewrite lookup_insert_ne by set_solver; auto|].
    apply list_elem_of_singleton in Hx as ->. rewrite lookup_insert_eq. set_solver.
  - intros x. rewrite dom_insert_L. intros [Hx|Hx]%elem_of_union; [set_solver|auto].
Qed.

Lemma woken_not_parked h c : tidy c -> h ∈ ready c -> h ∉ _recv_waiters c.
Proof. intros Hc Hr Hh. by destruct (tidy_parked c Hc h Hh). Qed.

Lemma recv_resume_tidy h c : tidy c -> tidy (recv_resume h c).2.
Proof.
  intros Hc. unfold recv_resume. destruct (receivers c !! h) as [r|]; [|done]. case_decide as Hr; [|done].
  pose proof (drop_receiver_tidy h (_recv_waiters c) c Hc (tidy_nodup c Hc) (reflexivity _) (woken_not_parked h c Hc Hr)) as Hd.
  destruct r; [by apply log_tidy|by apply try_recv_tidy].
Qed.

Lemma recv_destroy_tidy h c : tidy c -> tidy (recv_destroy h c).
Proof.
  intros Hc. unfold recv_destroy. destruct (receivers c !! h) as [r|]; [|done]. simpl.
  pose proof (erase_handle_spec h (_recv_waiters c)) as Hs. destruct (erase_handle h (_recv_waiters c)) as [q|] eqn:E.
  - destruct (erase_handle_nodup _ _ _ (tidy_nodup c Hc) E) as (Hn & _ & Hq). apply (drop_receiver_tidy h q c Hc Hn); set_solver.
  - pose proof (drop_receiver_tidy h (_recv_waiters c) c Hc (tidy_nodup c Hc) (reflexivity _) Hs).
    destruct r; [by apply log_tidy, buffer_tidy|done].
Qed.

Lemma park_select_tidy h c : tidy c -> tidy (park_select h c).
Proof. intros Hc. by apply wake_tidy, select_waiters_tidy. Qed.

Lemma recv_for_tidy h c : tidy c -> (h ∉ dom (receivers c)) -> tidy (recv_for h c).2.
Proof.
  intros Hc Hd. unfold recv_for. pose proof (try_recv_tidy c Hc) as Ht. destruct (_buffer c) as [|v b].
  - destruct (_closed c); [done|]. by apply park_select_tidy, set_select_tidy.
  - by destruct (try_recv c).
Qed.

Lemma register_select_tidy h c : tidy c -> tidy (register_select_waiter h c).
Proof.
  intros Hc. unfold register_select_waiter. destruct (_buffer c) as [|v b].
  - destruct (_closed c); [by apply resolve_tidy|by apply park_select_tidy].
  - by apply resolve_tidy, log_tidy, wake_tidy, buffer_tidy.
Qed.

Lemma select_apart h s c : tidy c -> selects c !! h = Some s -> h ∉ dom (receivers c).
Proof. intros Hc E%in_dom Hd. destruct (tidy_apart c Hc h Hd); set_solver. Qed.

Lemma select_timeout_tidy h c : tidy c -> tidy (select_timeout h c).
Proof.
  intros Hc. unfold select_timeout. destruct (selects c !! h) as [s|] eqn:E; [|done]. destruct (resolved s); [done|].
  pose proof (select_apart h s c Hc E). eapply tidy_same; [..|exact Hc]; simpl; try done; [set_solver|].
  rewrite dom_insert_L. set_solver.
Qed.

Lemma select_resume_tidy h c : tidy c -> tidy (select_resume h c).2.
Proof.
  intros Hc. unfold select_resume. destruct (selects c !! h) as [s|] eqn:E; [|done]. case_decide; [|done].
  pose proof (set_select_tidy h (Select true (timed_out s) (s_closed s) None) _ (unschedule_tidy h c Hc) (select_apart h s c Hc E)) as Hs.
  cbv zeta. case_match; [done|]. destruct (value s); [by apply log_tidy|done].
Qed.

Lemma select_destroy_tidy b h c : tidy c -> tidy (select_destroy b h c).
Proof.
  intros Hc. unfold select_destroy. destruct (selects c !! h) as [s|] eqn:E; [|done].
  pose proof (set_select_tidy h (Select true (timed_out s) (s_closed s) None) _ (unschedule_tidy h c Hc) (select_apart h s c Hc E)) as Hs.
  cbv zeta. case_match; [done|]. destruct (value s); [|done]. destruct b; [by apply log_tidy, buffer_tidy|by apply log_tidy].
Qed.

Lemma close_selects_tidy q c : tidy c -> tidy (close_selects q c).
Proof.
  revert c. induction q as [|h q IH]; intros c Hc; simpl; [by apply select_waiters_tidy|]. by apply IH, resolve_tidy.
Qed.

Lemma close_senders_tidy q c : tidy c -> q ⊆ _send_waiters c -> tidy (close_senders q c).
Proof.
  revert c. induction q as [|h q IH]; intros c Hc Hq; simpl.
  - eapply tidy_same; [..|exact Hc]; simpl; set_solver.
  - destruct (guarded h c); [apply IH; set_solver|]. apply IH; [|set_solver].
    assert (h ∉ dom (receivers c)) by (intros Hd; destruct (tidy_apart c Hc h Hd); set_solver).
    eapply tidy_same; [..|exact Hc]; simpl; set_solver.
Qed.

Lemma close_tidy c : tidy c -> tidy (close c).
Proof.
  intros Hc. unfold close. destruct (_closed c); [done|]. apply close_selects_tidy, close_senders_tidy; [|done].
  destruct Hc as [Hn Hp Ha]. split; simpl; [constructor|set_solver|done].
Qed.

Lemma fresh_apart h c : fresh h c = true -> h ∉ dom (receivers c).
Proof. intros Hf%bool_decide_eq_true. set_solver. Qed.

Lemma step_tidy o c : tidy c -> tidy (step o c).
Proof.
  intros Hc. destruct o; simpl; try (destruct (fresh _ _) eqn:Hf; [|done]; pose proof (fresh_apart _ _ Hf)).
  - by apply try_send_tidy.
  - by apply send_tidy.
  - by apply send_for_tidy.
  - by apply send_resume_tidy.
  - by apply send_destroy_tidy.
  - by apply send_timer_tidy.
  - by apply try_recv_tidy.
  - by apply recv_tidy.
  - by apply recv_resume_tidy.
  - by apply recv_destroy_tidy.
  - by apply recv_for_tidy.
  - by apply register_select_tidy, set_select_tidy.
  - by apply select_timeout_tidy.
  - by apply select_resume_tidy.
  - by apply select_destroy_tidy.
  - by apply close_tidy.
Qed.

(** * Every operation keeps the invariant *)

Lemma hand_over_spec v c :
  inv c -> tidy c ->
  let '(ok, c') := hand_over v c in if ok then inv (log_accept v c') else inv c' /\ idle c'.
Proof.
  intros Hc Ht. unfold hand_over. destruct (_recv_waiters c) as [|h q] eqn:E.
  - pose proof (offer_spec (_select_waiters c) v c Hc (reflexivity _) E) as Ho. unfold offer_to_select_waiter.
    destruct (offer_from _ v c) as [ok c']. specialize (Ho ltac:(set_solver)). destruct ok; [done|].
    destruct Ho as [Hcore Hi]. split; [|done]. eapply inv_ext; [symmetry; exact Hcore|]. by destruct Hc.
  - destruct (tidy_parked c Ht h) as [Er _]; [rewrite E; set_solver|].
    assert (rebuffered (log c) = false -> _buffer c = []) as Hb.
    { intros Hrb. destruct (_buffer c) as [|v0 b] eqn:Eb; [done|]. destruct (inv_waiting c Hc Hrb) as [Hl _]; [by rewrite Eb|congruence]. }
    destruct Hc as [Hcons Hs Hf Hw]. split; simpl; try done.
    + rewrite Hcons. unfold in_hands. simpl. rewrite (vals_put (fun r => r) _ _ _ _ v Er) by done. solve_Permutation.
    + intros Hrb. rewrite (Hf Hrb), (Hb Hrb), !app_nil_r. done.
    + intros Hrb Hne. by rewrite (Hb Hrb) in Hne.
Qed.

Lemma push_inv v c : inv c -> idle c -> inv (log_accept v (push_buffer v c)).
Proof.
  intros [Hcons Hs Hf Hw] Hi. split; simpl; try done.
  - rewrite Hcons. unfold in_hands. simpl. solve_Permutation.
  - intros Hrb. by rewrite (Hf Hrb), app_assoc.
Qed.

Lemma try_send_inv v c : inv c -> tidy c -> inv (try_send v c).2.
Proof.
  intros Hc Ht. unfold try_send. destruct (_closed c); [done|]. pose proof (hand_over_spec v c Hc Ht) as Hh.
  destruct (hand_over v c) as [ok c']. destruct ok; [done|]. destruct Hh. case_match; [by apply push_inv|done].
Qed.

Lemma send_inv h v c : inv c -> tidy c -> inv (send h v c).2.
Proof.
  intros Hc Ht. unfold send. destruct (_closed c); [done|]. pose proof (hand_over_spec v c Hc Ht) as Hh.
  destruct (hand_over v c) as [ok c']. destruct ok; [done|]. destruct Hh as [Hc' Hi]. case_match; [by apply push_inv|].
  revert Hc'. by apply inv_ext.
Qed.

Lemma send_for_inv h v c : inv c -> tidy c -> inv (send_for h v c).2.
Proof.
  intros Hc Ht. unfold send_for. destruct (_closed c); [done|]. case_match; [by apply send_inv|]. revert Hc. by apply inv_ext.
Qed.

Lemma send_resume_inv h c : inv c -> tidy c -> inv (send_resume h c).2.
Proof.
  intros Hc Ht. unfold send_resume. destruct (senders c !! h) as [s|]; [|done]. case_decide; [|done].
  assert (inv (with_senders (delete h (senders c)) (unschedule h c))) as Hc' by (revert Hc; by apply inv_ext).
  cbv zeta. case_match; [done|]. pose proof (hand_over_spec (s_value s) _ Hc' (drop_sender_tidy h c Ht)) as Hh.
  destruct (hand_over _ _) as [ok c']. destruct ok; [done|]. destruct Hh. by apply push_inv.
Qed.

Lemma send_destroy_inv h c : inv c -> inv (send_destroy h c).
Proof.
  intros Hc. unfold send_destroy. destruct (senders c !! h) as [s|]; [|done]. cbv zeta.
  destruct (s_timed s); [revert Hc; by apply inv_ext|]. destruct (erase_handle _ _); revert Hc; by apply inv_ext.
Qed.

Lemma send_timer_inv h c : inv c -> inv (send_timer h c).
Proof.
  intros Hc. unfold send_timer. destruct (guards c !! h) as [[]|]; [done| |done]. destruct (senders c !! h) as [s|]; [|done].
  revert Hc. by apply inv_ext.
Qed.

Lemma wake_inv c : inv c -> inv (wake_one_sender c).
Proof. apply inv_ext. symmetry. apply wake_core. Qed.

Lemma core_log l c c' : core c = core c' -> core (with_log l c) = core (with_log l c').
Proof. unfold core. simpl. congruence. Qed.

Lemma core_log_eq c c' : core c = core c' -> log c = log c'.
Proof. unfold core. congruence. Qed.

Lemma core_take v c c' : core c = core c' -> core (log_take v c) = core (log_take v c').
Proof. intros E. unfold log_take. rewrite (core_log_eq _ _ E). by apply core_log. Qed.

Lemma core_receive v c c' : core c = core c' -> core (log_receive v c) = core (log_receive v c').
Proof. intros E. unfold log_receive. rewrite (core_log_eq _ _ E). by apply core_log. Qed.

Lemma take_front_inv v b c :
  inv c -> _buffer c = v :: b -> inv (log_receive v (log_take v (wake_one_sender (with_buffer b c)))).
Proof.
  intros Hc Eb. eapply inv_ext; [apply core_receive, core_take; symmetry; apply wake_core|].
  destruct Hc as [Hcons Hs Hf Hw]. split; simpl; try done.
  - rewrite Hcons, Eb. unfold in_hands. simpl. solve_Permutation.
  - intros Hrb. rewrite (Hf Hrb), Eb, <- app_assoc. done.
  - intros Hrb Hne. apply Hw; [done|by rewrite Eb].
Qed.

Lemma try_recv_inv c : inv c -> inv (try_recv c).2.
Proof. intros Hc. unfold try_recv. destruct (_buffer c) eqn:Eb; [done|]. by apply take_front_inv. Qed.

Lemma recv_inv h c : inv c -> fresh h c = true -> inv (recv h c).2.
Proof.
  intros Hc Hf%fresh_apart. unfold recv. destruct (_buffer c) eqn:Eb; [|by apply take_front_inv].
  destruct (_closed c); [done|]. apply wake_inv. destruct Hc as [Hcons Hs Hff Hw]. split; simpl; try done.
  - rewrite Hcons. unfold in_hands. simpl. rewrite (vals_fresh (fun r => r)); [done|by apply not_elem_of_dom|done].
Qed.

(** Taking a receiver out of its table, with or without the value it was given. *)
Lemma drop_receiver_inv h q c :
  inv c -> receivers c !! h = Some None -> q ⊆ _recv_waiters c ->
  inv (with_recv_waiters q (with_receivers (delete h (receivers c)) (unschedule h c))).
Proof.
  intros [Hcons Hs Hf Hw] E Hq. split; simpl; try done.
  - rewrite Hcons. unfold in_hands. simpl. by rewrite (vals_lookup (fun r => r) _ _ _ E).
  - intros Hrb Hne. destruct (Hw Hrb Hne) as [Hr Hl]. split; [|done]. simpl. rewrite Hr in Hq. destruct q; [done|set_solver].
Qed.

Lemma in_hands_receiver h v c :
  receivers c !! h = Some (Some v) ->
  in_hands c ≡ₚ v :: in_hands (with_receivers (delete h (receivers c)) (unschedule h c)).
Proof. intros E. unfold in_hands. simpl. by rewrite (vals_lookup (fun r => r) _ _ _ E). Qed.

Lemma recv_resume_inv h c : inv c -> inv (recv_resume h c).2.
Proof.
  intros Hc. unfold recv_resume. destruct (receivers c !! h) as [[v|]|] eqn:E; [| |done]; (case_decide; [|done]); cbv zeta.
  - destruct Hc as [Hcons Hs Hf Hw]. split; try done.
    simpl. rewrite Hcons, (in_hands_receiver h v c E). unfold in_hands. simpl. solve_Permutation.
  - apply try_recv_inv. by apply (drop_receiver_inv h (_recv_waiters c)).
Qed.

Lemma recv_destroy_inv h c : inv c -> tidy c -> inv (recv_destroy h c).
Proof.
  intros Hc Ht. unfold recv_destroy. destruct (receivers c !! h) as [r|] eqn:E; [|done]. simpl.
  pose proof (erase_handle_spec h (_recv_waiters c)) as Hs. destruct (erase_handle h (_recv_waiters c)) as [q|] eqn:Eq.
  - destruct (erase_handle_nodup _ _ _ (tidy_nodup c Ht) Eq) as (_ & Hin & Hq). destruct (tidy_parked c Ht h Hin) as [E' _].
    apply drop_receiver_inv; set_solver.
  - destruct r as [v|]; [|by apply (drop_receiver_inv h (_recv_waiters c))]. destruct Hc as [Hcons Hss Hf Hw]. split; simpl; try done.
    rewrite Hcons, (in_hands_receiver h v c E). unfold in_hands. simpl. solve_Permutation.
Qed.

(** A select entry that changes without gaining or losing a value, to a resolved one. *)
Lemma set_select_inv h s c :
  inv c -> select_ok s ->
  match selects c !! h with Some s' => value s = value s' /\ (resolved s = false -> resolved s' = false) | None => value s = None end ->
  (selects c !! h = None -> h ∉ _select_waiters c) ->
  inv (with_selects (<[h := s]> (selects c)) c).
Proof.
  intros [Hcons Hs Hf Hw] Hok Hv Hn. split; simpl; try done.
  - rewrite Hcons. unfold in_hands. simpl. destruct (selects c !! h) as [s'|] eqn:E.
    + destruct Hv. by rewrite (vals_keep value _ _ s').
    + by rewrite (vals_fresh value).
  - by apply map_Forall_insert_2.
  - intros Hrb Hne. destruct (Hw Hrb Hne) as [Hr Hl]. split; [done|]. apply live_forall. intros x Hx.
    rewrite is_resolved_insert. pose proof (proj1 (live_forall c) Hl x Hx) as Hres. case_decide as Ex; [subst x|done].
    unfold is_resolved in Hres. destruct (selects c !! h) as [s'|]; [|by destruct (Hn eq_refl)].
    destruct (resolved s) eqn:Er; [done|]. destruct Hv as [_ Hv]. rewrite (Hv eq_refl) in Hres. done.
Qed.

Lemma new_select_inv h c : inv c -> fresh h c = true -> inv (new_select h c).
Proof.
  intros Hc Hf%bool_decide_eq_true. assert (selects c !! h = None) as E by (apply not_elem_of_dom; set_solver).
  apply set_select_inv; [done|by split|by rewrite E|set_solver].
Qed.

Lemma park_select_inv h c : inv c -> _buffer c = [] -> inv (park_select h c).
Proof. intros [Hcons Hs Hf Hw] Eb. apply wake_inv. by split. Qed.

Lemma recv_for_inv h c : inv c -> fresh h c = true -> inv (recv_for h c).2.
Proof.
  intros Hc Hf. unfold recv_for. pose proof (try_recv_inv c Hc) as Ht. destruct (_buffer c) as [|v b] eqn:Eb.
  - destruct (_closed c); [done|]. apply park_select_inv; [by apply new_select_inv|done].
  - by destruct (try_recv c).
Qed.

Lemma resolve_none_inv h b c : inv c -> inv (resolve h None b c).
Proof.
  intros Hc. unfold resolve. destruct (selects c !! h) as [s|] eqn:E; [|done]. destruct (resolved s) eqn:Er; [done|].
  pose proof (proj1 (inv_select c Hc h s E) Er) as ->.
  eapply (inv_ext (with_selects _ c)); [done|]. apply set_select_inv; [done|by split| |]; rewrite E; done.
Qed.

Lemma register_select_inv h c : inv c -> selects c !! h = Some (Select false false false None) -> inv (register_select_waiter h c).
Proof.
  intros Hc E. unfold register_select_waiter. destruct (_buffer c) as [|v b] eqn:Eb.
  - destruct (_closed c); [by apply resolve_none_inv|by apply park_select_inv].
  - pose proof (wake_core (with_buffer b c)) as Hw. pose proof Hw as Hw'. unfold core in Hw'. simpl in Hw'.
    injection Hw' as _ _ _ _ Hsel _. unfold resolve. simpl. rewrite Hsel, E. simpl.
    eapply (inv_ext (with_selects (<[h := Select true false false (Some v)]> (selects c)) (log_take v (with_buffer b c)))).
    { unfold core in *. simpl in *. congruence. }
    destruct Hc as [Hcons Hs Hf Hwt]. split; simpl; try done.
    + rewrite Hcons, Eb. unfold in_hands. simpl. rewrite (vals_put value _ _ _ _ v E) by done. solve_Permutation.
    + by apply map_Forall_insert_2.
    + intros Hrb. rewrite (Hf Hrb), Eb, <- app_assoc. done.
    + intros Hrb Hne. destruct Hwt as [Hr Hl]; [done|by rewrite Eb|]. split; [done|]. apply live_forall. intros x Hx.
      pose proof (proj1 (live_forall c) Hl x Hx) as Hres. unfold is_resolved in *. simpl.
      destruct (decide (x = h)) as [->|]; [by rewrite lookup_insert_eq|by rewrite lookup_insert_ne].
Qed.

Lemma select_timeout_inv h c : inv c -> inv (select_timeout h c).
Proof.
  intros Hc. unfold select_timeout. destruct (selects c !! h) as [s|] eqn:E; [|done]. destruct (resolved s) eqn:Er; [done|].
  pose proof (proj1 (inv_select c Hc h s E) Er) as ->.
  eapply (inv_ext (with_selects _ c)); [done|]. apply set_select_inv; [done|by split| |]; rewrite E; done.
Qed.

(** A select state whose owner is done with it; its value has gone where [l] and [b] say. *)
Lemma end_select_inv h s c c' :
  inv c -> selects c !! h = Some s ->
  selects c' = <[h := Select true (timed_out s) (s_closed s) None]> (selects c) ->
  receivers c' = receivers c -> _recv_waiters c' = _recv_waiters c -> _select_waiters c' = _select_waiters c ->
  accepted (log c') = accepted (log c) -> taken (log c') = taken (log c) ->
  received (log c') ++ _buffer c' ++ dropped (log c') ≡ₚ option_list (value s) ++ received (log c) ++ _buffer c ++ dropped (log c) ->
  (rebuffered (log c') = false -> rebuffered (log c) = false /\ _buffer c' = _buffer c) -> inv c'.
Proof.
  intros [Hcons Hs Hf Hw] E H1 H2 H3 H4 H5 H6 H7 H8. split.
  - rewrite H5, Hcons. unfold in_hands. rewrite H1, H2, vals_insert, (vals_lookup value _ _ _ E). simpl.
    trans (vals (fun r => r) (receivers c) ++ vals value (delete h (selects c)) ++ (option_list (value s) ++ received (log c) ++ _buffer c ++ dropped (log c)));
      [solve_Permutation|]. rewrite <- H7. solve_Permutation.
  - rewrite H1. by apply map_Forall_insert_2.
  - intros Hrb. destruct (H8 Hrb) as [Hrb' ->]. rewrite H5, H6. auto.
  - intros Hrb Hne. destruct (H8 Hrb) as [Hrb' Eb]. rewrite Eb in Hne. destruct (Hw Hrb' Hne) as [Hr Hl].
    split; [by rewrite H3|]. apply live_forall. rewrite H4. intros x Hx.
    pose proof (proj1 (live_forall c) Hl x Hx) as Hres. unfold is_resolved in *. rewrite H1.
    destruct (decide (x = h)) as [->|]; [by rewrite lookup_insert_eq|by rewrite lookup_insert_ne].
Qed.

Lemma select_resume_inv h c : inv c -> inv (select_resume h c).2.
Proof.
  intros Hc. unfold select_resume. destruct (selects c !! h) as [s|] eqn:E; [|done]. case_decide; [|done]. cbv zeta.
  destruct (timed_out s || s_closed s) eqn:Eb.
  - pose proof (proj2 (inv_select c Hc h s E) Eb) as Hv. eapply end_select_inv; try exact Hc; try exact E; try done. by rewrite Hv.
  - destruct (value s) as [v|] eqn:Ev; (eapply end_select_inv; [exact Hc|exact E|try done..]); rewrite Ev; simpl; [solve_Permutation|done].
Qed.

Lemma select_destroy_inv b h c : inv c -> inv (select_destroy b h c).
Proof.
  intros Hc. unfold select_destroy. destruct (selects c !! h) as [s|] eqn:E; [|done]. cbv zeta.
  destruct (inv_select c Hc h s E) as [Hu Hv].
  destruct (negb (resolved s) || timed_out s || s_closed s) eqn:Eb.
  - assert (value s = None) as Hn.
    { destruct (resolved s); [by apply Hv|by rewrite (Hu eq_refl)]. }
    eapply end_select_inv; try exact Hc; try exact E; try done. by rewrite Hn.
  - destruct (value s) as [v|] eqn:Ev; [destruct b|]; (eapply end_select_inv; [exact Hc|exact E|try done..]); rewrite Ev; simpl;
      [solve_Permutation|solve_Permutation|done].
Qed.

Lemma close_selects_inv q c : inv c -> inv (close_selects q c).
Proof.
  revert c. induction q as [|h q IH]; intros c Hc; simpl; [|by apply IH, resolve_none_inv].
  destruct Hc as [Hcons Hs Hf Hw]. split; simpl; try done. intros Hrb Hne. by destruct (Hw Hrb Hne).
Qed.

Lemma close_senders_inv q c : inv c -> inv (close_senders q c).
Proof.
  revert c. induction q as [|h q IH]; intros c Hc; simpl; [revert Hc; by apply inv_ext|].
  apply IH. destruct (guarded h c); [done|]. revert Hc. by apply inv_ext.
Qed.

Lemma close_inv c : inv c -> inv (close c).
Proof.
  intros Hc. unfold close. destruct (_closed c); [done|]. apply close_selects_inv, close_senders_inv.
  destruct Hc as [Hcons Hs Hf Hw]. split; simpl; try done. intros Hrb Hne. by destruct (Hw Hrb Hne).
Qed.

Lemma chan_step_inv o c : inv c -> tidy c -> inv (step o c).
Proof.
  intros Hc Ht. destruct o; simpl; try (destruct (fresh _ _) eqn:Hf; [|done]).
  - by apply try_send_inv.
  - by apply send_inv.
  - by apply send_for_inv.
  - by apply send_resume_inv.
  - by apply send_destroy_inv.
  - by apply send_timer_inv.
  - by apply try_recv_inv.
  - by apply recv_inv.
  - by apply recv_resume_inv.
  - by apply recv_destroy_inv.
  - by apply recv_for_inv.
  - apply register_select_inv; [by apply new_select_inv|]. apply lookup_insert_eq.
  - by apply select_timeout_inv.
  - by apply select_resume_inv.
  - by apply select_destroy_inv.
  - by apply close_inv.
Qed.

Lemma run_chan_inv os c : inv c -> tidy c -> inv (run os c) /\ tidy (run os c).
Proof.
  revert c. induction os as [|o os IH]; intros c Hc Ht; [done|]. apply IH; [by apply chan_step_inv|by apply step_tidy].
Qed.

Lemma create_ok cap : inv (create cap) /\ tidy (create cap).
Proof.
  split; split; simpl; try done; try apply map_Forall_empty; try constructor; set_solver.
Qed.

(** * Theorems *)

(** C22: No value is lost or duplicated by a channel, whatever sends, receives, timed operations,
    selects, timeouts, destructions of suspended operations and closes happen, and in whatever
    order: the values whose send succeeded are those received, those buffered, those handed to
    a receiver that has not resumed yet, and those of a [select()] that was abandoned after it
    had won. As long as no receiver was destroyed with a value in hand, values also leave the
    channel in the order their sends succeeded, and nobody waits while the buffer has a value. *)
Theorem channel_conservation (cap : Z) (os : list op) :
  let c := run os (create cap) in
  accepted (log c) ≡ₚ received (log c) ++ _buffer c ++ in_hands c ++ dropped (log c) /\
  (rebuffered (log c) = false ->
   accepted (log c) = taken (log c) ++ _buffer c /\ (_buffer c <> [] -> _recv_waiters c = [] /\ has_live_select_waiter c = false)).
Proof.
  intros c. destruct (create_ok cap) as [Hc Ht]. destruct (run_chan_inv os _ Hc Ht) as [[Hcons _ Hf Hw] _].
  split; [done|]. intros Hrb. split; [by apply Hf|by apply Hw].
Qed.

(** A sender that was woken because a slot became free finds the slot taken by a later
    [try_send] and pushes all the same: a channel of capacity one then buffers two values, and
    the later value is ahead of the earlier one. *)
Theorem channel_capacity_overshoot (v1 v2 v3 : Z) :
  let c := run [OTrySend v1; OSend 1 v2; OTryRecv; OTrySend v3; OSendResume 1] (create 1) in
  _buffer c = [v3; v2] /\ _capacity c < zlen (_buffer c).
Proof. vm_compute. done. Qed.

(** Two ways to wait for ever beside what one waits for, both after the destruction of an
    operation that had been woken. On a rendezvous channel a parking receiver wakes one waiting
    sender; if that sender is destroyed before it resumes, the receiver and the next sender stay
    parked. And a value that was handed to a receiver destroyed before it resumed is put back in
    the buffer without waking the receiver parked next. In both cases nothing is scheduled. *)
Theorem channel_wake_lost (cap v1 v2 : Z) :
  (let c := run [OSend 1 v1; OSend 2 v2; ORecv 3; OSendDestroy 1] (create 0) in
   _recv_waiters c = [3] /\ _send_waiters c = [2] /\ ready c = ∅ /\ _closed c = false) /\
  (let c := run [ORecv 1; ORecv 2; OTrySend v1; ORecvDestroy 1] (create cap) in
   _recv_waiters c = [2] /\ _buffer c = [v1] /\ ready c = ∅ /\ _closed c = false).
Proof. vm_compute. done. Qed.
