(* ===== verification/Ask.v ===== *)
(** Request and response between actors: the registry of pending asks of a worker thread
    (src/qb/core/Actor.cpp), the awaiter behind [qb::ask] (src/qb/core/Actor.h) with its three
    wake sources, and the cancellation token of an actor's coroutine scope
    (src/qb/io/async/coroutine/cancellation.h).

    Everything runs on one thread. Awaiters are named by their address; tokens by the address
    of the shared state, and an address without an entry in [tokens] is the empty token.
    Values carried by events are abstract. *)

From S2P Require Import Prelude ActorId.

(** * Cancellation tokens

    A callback is named by the awaiter that registered it. *)

Record token := Token { cancelled : bool; next_id : Z; callbacks : list (Z * Z) }.

Definition token_new : token := Token false 0 [].

(** [on_cancel] of a token that is not cancelled. *)
Definition token_add (k : Z) (t : token) : Z * token :=
  let id := u64 (next_id t + 1) in (id, Token (cancelled t) id (callbacks t ++ [(id, k)])).

Definition remove_on_cancel (id : Z) (t : token) : token :=
  if id =? 0 then t else Token (cancelled t) (next_id t) (swap_remove (fun c => c.1 = id) (callbacks t)).

(** * The registry and the awaiters *)

Inductive kind := Pending | Ok | TimedOut | Cancelled.

#[export] Instance kind_eq_dec : EqDecision kind.
Proof. solve_decision. Defined.

Record awaiter := Awaiter {
  aid : Z; owner : ActorId; slot_done : bool; a_token : option Z; timer_started : bool; outcome : kind; result : option Z; cancel_id : Z
}.

(** [scheduled] are the awaiters whose coroutine was handed to the scheduler and not resumed
    yet. Ghost: [wakes] logs every such hand-over, [answers] every delivered reply. *)
Record sys := Sys {
  tls_ask_slots : gmap Z Z; tls_ask_counter : Z; tls_ask_types : gset Z;
  tokens : gmap Z token; awaiters : gmap Z awaiter; scheduled : gset Z;
  wakes : list Z; answers : list (Z * Z)
}.

Definition sys_empty : sys := Sys ∅ 0 ∅ ∅ ∅ ∅ [] [].

Definition with_slots (m : gmap Z Z) (s : sys) : sys :=
  Sys m (tls_ask_counter s) (tls_ask_types s) (tokens s) (awaiters s) (scheduled s) (wakes s) (answers s).
Definition with_counter (n : Z) (s : sys) : sys :=
  Sys (tls_ask_slots s) n (tls_ask_types s) (tokens s) (awaiters s) (scheduled s) (wakes s) (answers s).
Definition with_types (ts : gset Z) (s : sys) : sys :=
  Sys (tls_ask_slots s) (tls_ask_counter s) ts (tokens s) (awaiters s) (scheduled s) (wakes s) (answers s).
Definition with_tokens (m : gmap Z token) (s : sys) : sys :=
  Sys (tls_ask_slots s) (tls_ask_counter s) (tls_ask_types s) m (awaiters s) (scheduled s) (wakes s) (answers s).
Definition with_awaiters (m : gmap Z awaiter) (s : sys) : sys :=
  Sys (tls_ask_slots s) (tls_ask_counter s) (tls_ask_types s) (tokens s) m (scheduled s) (wakes s) (answers s).
Definition with_scheduled (q : gset Z) (s : sys) : sys :=
  Sys (tls_ask_slots s) (tls_ask_counter s) (tls_ask_types s) (tokens s) (awaiters s) q (wakes s) (answers s).

Definition ask_next_id (a : ActorId) (s : sys) : Z * sys :=
  let n := u64 (tls_ask_counter s + 1) in
  let seq := if n =? 0 then u64 (n + 1) else n in
  (Z.lor (u64 (Z.shiftl (index a) 48)) seq, with_counter seq s).

Definition ask_register (id k : Z) (s : sys) : sys := with_slots (<[id := k]> (tls_ask_slots s)) s.
Definition ask_unregister (id : Z) (s : sys) : sys := with_slots (delete id (tls_ask_slots s)) s.
Definition ask_register_type (t : Z) (s : sys) : sys := with_types ({[ t ]} ∪ tls_ask_types s) s.

(** [schedule_via_current(cont)] *)
Definition schedule (k : Z) (s : sys) : sys :=
  Sys (tls_ask_slots s) (tls_ask_counter s) (tls_ask_types s) (tokens s) (awaiters s) ({[ k ]} ∪ scheduled s)
      (wakes s ++ [k]) (answers s).

Definition log_answer (k v : Z) (s : sys) : sys :=
  Sys (tls_ask_slots s) (tls_ask_counter s) (tls_ask_types s) (tokens s) (awaiters s) (scheduled s) (wakes s) (answers s ++ [(k, v)]).

(** The first of the three sources that finds [slot.done] unset sets it, records its outcome
    and wakes the coroutine. *)
Definition settle (k : Z) (o : kind) (v : option Z) (s : sys) : sys :=
  match awaiters s !! k with
  | Some a =>
      if slot_done a then s
      else schedule k (with_awaiters (<[k := Awaiter (aid a) (owner a) true (a_token a) (timer_started a) o v (cancel_id a)]> (awaiters s)) s)
  | None => s
  end.

(** [deliver_thunk], [on_timeout], and the callback registered with the scope's token. *)
Definition deliver_thunk (k v : Z) (s : sys) : sys :=
  match awaiters s !! k with
  | Some a => if slot_done a then s else log_answer k v (settle k Ok (Some v) s)
  | None => s
  end.
Definition on_timeout (k : Z) (s : sys) : sys :=
  match awaiters s !! k with
  | Some a => if timer_started a then settle k TimedOut None s else s
  | None => s
  end.
Definition on_cancel_callback (k : Z) (s : sys) : sys := settle k Cancelled None s.

Definition ask_deliver (id : Z) (o : ActorId) (v : Z) (s : sys) : bool * sys :=
  if id =? 0 then (false, s)
  else
    match tls_ask_slots s !! id with
    | Some k =>
        match awaiters s !! k with
        | Some a => if slot_done a || negb (bool_decide (owner a = o)) then (false, s) else (true, deliver_thunk k v s)
        | None => (false, s)
        end
    | None => (false, s)
    end.

Definition ask_try_deliver_reply (t id : Z) (dest : ActorId) (v : Z) (s : sys) : bool * sys :=
  if decide (t ∈ tls_ask_types s) then ask_deliver id dest v s else (false, s).

Definition is_cancelled (t : Z) (s : sys) : bool := match tokens s !! t with Some c => cancelled c | None => false end.

(** [cancellation_token::cancel]: the callbacks are moved out, then run in order. *)
Definition cancel (t : Z) (s : sys) : sys :=
  match tokens s !! t with
  | Some c =>
      if cancelled c then s
      else fold_left (fun s p => on_cancel_callback p.2 s) (callbacks c) (with_tokens (<[t := Token true (next_id c) []]> (tokens s)) s)
  | None => s
  end.

Definition on_cancel (t k : Z) (s : sys) : Z * sys :=
  match tokens s !! t with
  | Some c =>
      if cancelled c then (0, on_cancel_callback k s)
      else let '(id, c) := token_add k c in (id, with_tokens (<[t := c]> (tokens s)) s)
  | None => (0, s)
  end.

(** [finish()]; stopping the timer is the awaiter's own field. *)
Definition finish (a : awaiter) (s : sys) : sys :=
  let s := ask_unregister (aid a) s in
  match a_token a with
  | Some t => with_tokens (alter (remove_on_cancel (cancel_id a)) t (tokens s)) s
  | None => s
  end.

(** [qb::ask]: the id, the awaiter at the new address [k], its constructor, [await_ready] and
    [await_suspend]. [None] when the coroutine parks. The awaiter has a copy of the token, which
    stays empty if the token is. The request itself is an event. *)
Definition ask (k : Z) (o : ActorId) (type t : Z) (timeout : bool) (s : sys) : option kind * sys :=
  let '(id, s) := ask_next_id o s in
  let s := ask_register_type type s in
  if is_cancelled t s then (Some Cancelled, ask_unregister id s)
  else
    let s := ask_register id k s in
    let '(c, s) := on_cancel t k s in
    let copy := if decide (t ∈ dom (tokens s)) then Some t else None in
    (None, with_awaiters (<[k := Awaiter id o false copy timeout Pending None c]> (awaiters s)) s).

(** [await_resume] of a scheduled awaiter, and the end of its life. *)
Definition resume (k : Z) (s : sys) : option (kind * option Z) * sys :=
  match awaiters s !! k with
  | Some a =>
      if decide (k ∈ scheduled s) then
        (Some (outcome a, result a), with_awaiters (delete k (awaiters s)) (with_scheduled (scheduled s ∖ {[ k ]}) (finish a s)))
      else (None, s)
  | None => (None, s)
  end.

(** [~ask_awaiter] of a coroutine destroyed while it waits; the scheduler forgets its handle. *)
Definition destroy (k : Z) (s : sys) : sys :=
  match awaiters s !! k with
  | Some a => with_awaiters (delete k (awaiters s)) (with_scheduled (scheduled s ∖ {[ k ]}) (finish a s))
  | None => s
  end.

Inductive op :=
| OToken (t : Z) | OAsk (k : Z) (o : ActorId) (type t : Z) (timeout : bool)
| ODeliver (id : Z) (o : ActorId) (v : Z) | OTimeout (k : Z) | OCancel (t : Z) | OResume (k : Z) | ODestroy (k : Z).

(** Addresses are not reused, so that the logs name one awaiter each; a token is created once. *)
Definition step (o : op) (s : sys) : sys :=
  match o with
  | OToken t => if decide (t ∈ dom (tokens s)) then s else with_tokens (<[t := token_new]> (tokens s)) s
  | OAsk k o type t timeout =>
      if decide (k ∈ dom (awaiters s) \/ k ∈ wakes s) then s else (ask k o type t timeout s).2
  | ODeliver id o v => (ask_deliver id o v s).2
  | OTimeout k => on_timeout k s
  | OCancel t => cancel t s
  | OResume k => (resume k s).2
  | ODestroy k => destroy k s
  end.

Definition run (os : list op) (s : sys) : sys := fold_left (fun s o => step o s) os s.

(** * The invariant *)

(** The sequence number in an ask id. *)
Definition seq_of (id : Z) : Z := id mod 2 ^ 48.

(** [X] are the awaiters a cancellation in progress has yet to reach. *)
Record awaiter_ok (X : Z -> Prop) (s : sys) (k : Z) (a : awaiter) : Prop := AwaiterOk {
  ok_slot : tls_ask_slots s !! aid a = Some k;
  ok_seq : 1 <= seq_of (aid a) <= tls_ask_counter s;
  ok_done : if slot_done a then k ∈ scheduled s /\ k ∈ wakes s else outcome a = Pending /\ (k ∉ wakes s);
  ok_result : outcome a = Ok -> exists v, result a = Some v /\ (k, v) ∈ answers s;
  ok_token : slot_done a = false -> ~ X k ->
    forall t, a_token a = Some t -> exists c, tokens s !! t = Some c /\ cancelled c = false /\ (cancel_id a, k) ∈ callbacks c;
}.

(** A token that was copied into an awaiter exists. *)
Definition copies_exist (s : sys) : Prop :=
  forall k a t, awaiters s !! k = Some a -> a_token a = Some t -> t ∈ dom (tokens s).

Record token_ok (s : sys) (t : Z) (c : token) : Prop := TokenOk {
  ok_next : 0 <= next_id c <= tls_ask_counter s;
  ok_ids : NoDup (callbacks c).*1;
  ok_callback id k : (id, k) ∈ callbacks c ->
    1 <= id <= next_id c /\ exists a, awaiters s !! k = Some a /\ a_token a = Some t /\ cancel_id a = id;
  ok_cancel_id k a : awaiters s !! k = Some a -> a_token a = Some t -> 1 <= cancel_id a <= next_id c;
  ok_cancel_inj k k' a a' : awaiters s !! k = Some a -> awaiters s !! k' = Some a' -> a_token a = Some t -> a_token a' = Some t ->
    cancel_id a = cancel_id a' -> k = k';
}.

Record inv_but (X : Z -> Prop) (s : sys) : Prop := Inv {
  inv_awaiter k a : awaiters s !! k = Some a -> awaiter_ok X s k a;
  inv_slot id k : tls_ask_slots s !! id = Some k -> exists a, awaiters s !! k = Some a /\ aid a = id;
  inv_token t c : tokens s !! t = Some c -> token_ok s t c;
  inv_wakes : NoDup (wakes s);
  inv_answers : NoDup (answers s).*1 /\ forall k v, (k, v) ∈ answers s -> k ∈ wakes s;
  inv_counter : 0 <= tls_ask_counter s;
  inv_copies : copies_exist s;
}.

Definition inv : sys -> Prop := inv_but (fun _ => False).

(** An id keeps its sequence number apart from the owner's core. *)
Lemma seq_of_lor i seq : 0 <= i -> 0 <= seq < 2 ^ 48 -> seq_of (Z.lor (u64 (Z.shiftl i 48)) seq) = seq.
Proof.
  intros Hi Hs. unfold seq_of. rewrite <- Z.land_ones by lia. rewrite Z.land_lor_distr_l.
  assert (Z.land (u64 (Z.shiftl i 48)) (Z.ones 48) = 0) as ->.
  { unfold u64. rewrite Z.shiftl_mul_pow2, Z.land_ones by lia. change (2 ^ 64) with (2 ^ 48 * 2 ^ 16).
    rewrite (Z.mul_comm i), Z.mul_mod_distr_l by lia. rewrite Z.mul_comm. apply Z_mod_mult. }
  rewrite Z.lor_0_l, Z.land_ones by lia. apply Z.mod_small. lia.
Qed.

Lemma ask_next_id_spec o s :
  0 <= index o -> 0 <= tls_ask_counter s < 2 ^ 48 - 1 ->
  seq_of (ask_next_id o s).1 = tls_ask_counter s + 1 /\ (ask_next_id o s).2 = with_counter (tls_ask_counter s + 1) s.
Proof.
  intros Ho Hs. unfold ask_next_id. simpl. rewrite (u64_small (tls_ask_counter s + 1)) by lia.
  destruct (Z.eqb_spec (tls_ask_counter s + 1) 0); [lia|]. rewrite seq_of_lor by lia. done.
Qed.

Lemma sys_empty_inv : inv sys_empty.
Proof. split; simpl; try (intros ? ?; by rewrite lookup_empty); [constructor|split; [constructor|set_solver]|lia|].
  intros ? ? ?. simpl. by rewrite lookup_empty.
Qed.

(** What settling an awaiter changes. *)
Lemma settle_inv X k o v s l :
  inv_but X s -> (o = Ok -> exists w, v = Some w /\ l = [(k, w)]) -> (o <> Ok -> l = []) -> o <> Pending ->
  inv_but (fun x => X x /\ x <> k)
    (match awaiters s !! k with
     | Some a => if slot_done a then s
                 else Sys (tls_ask_slots s) (tls_ask_counter s) (tls_ask_types s) (tokens s)
                          (<[k := Awaiter (aid a) (owner a) true (a_token a) (timer_started a) o v (cancel_id a)]> (awaiters s))
                          ({[ k ]} ∪ scheduled s) (wakes s ++ [k]) (answers s ++ l)
     | None => s
     end).
Proof.
  intros [Ha Hs Ht Hw [Hn Hin] Hc Hcp] Hl Hl' Ho.
  assert (forall x b, awaiters s !! x = Some b -> slot_done b = true \/ x <> k -> awaiter_ok (fun x => X x /\ x <> k) s x b) as Hsame.
  { intros x b E Hx. destruct (Ha x b E) as [H1 H2 H3 H4 H5]. split; try done. intros Hd HX. apply H5; [done|].
    intros HXx. apply HX. split; [done|]. destruct Hx; congruence. }
  destruct (awaiters s !! k) as [a|] eqn:E; [destruct (slot_done a) eqn:Ed|].
  2: {
    destruct (Ha k a E) as [H1 H2 H3 H4 H5]. rewrite Ed in H3. destruct H3 as [Hp Hkw].
    split; simpl; try done.
    - intros x b Hx. destruct (decide (x = k)) as [->|Hne].
      + rewrite lookup_insert_eq in Hx. injection Hx as <-. split; simpl; [done|done|set_solver| |done].
        intros ->. destruct Hl as (w & -> & ->); [done|]. exists w. set_solver.
      + rewrite lookup_insert_ne in Hx by done. destruct (Hsame x b Hx (or_intror Hne)) as [I1 I2 I3 I4 I5]. split; simpl; try done.
        * destruct (slot_done b); set_solver.
        * intros Hob. destruct (I4 Hob) as (w & ? & ?). exists w. set_solver.
    - intros id x Hx. destruct (Hs id x Hx) as (b & Eb & Hid). destruct (decide (x = k)) as [->|Hne].
      + rewrite lookup_insert_eq. eexists. split; [done|]. simpl. congruence.
      + rewrite lookup_insert_ne by done. eauto.
    - intros t c Hc'. destruct (Ht t c Hc') as [T1 T2 T3 T4 T5].
      assert (forall x b, <[k := Awaiter (aid a) (owner a) true (a_token a) (timer_started a) o v (cancel_id a)]> (awaiters s) !! x = Some b ->
                exists b', awaiters s !! x = Some b' /\ a_token b = a_token b' /\ cancel_id b = cancel_id b') as Hold.
      { intros x b. destruct (decide (x = k)) as [->|]; [rewrite lookup_insert_eq|rewrite lookup_insert_ne by done]; naive_solver. }
      split; simpl; try done.
      + intros id x Hx. destruct (T3 id x Hx) as (? & b & Eb & ? & ?). split; [done|]. destruct (decide (x = k)) as [->|Hne].
        * rewrite lookup_insert_eq. eexists. split; [done|]. simpl. split; congruence.
        * rewrite lookup_insert_ne by done. eauto.
      + intros x b (b' & Eb & -> & ->)%Hold. eauto.
      + intros x x' b b' (? & ? & -> & ->)%Hold (? & ? & -> & ->)%Hold. eauto.
    - apply NoDup_app. split; [done|]. split; [set_solver|apply NoDup_singleton].
    - destruct (decide (o = Ok)) as [->|Hno].
      + destruct Hl as (w & -> & ->); [done|]. rewrite fmap_app. simpl. split.
        * apply NoDup_app. split; [done|]. split; [|apply NoDup_singleton].
          intros x Hx Hk. apply list_elem_of_fmap in Hx as ([x' w'] & -> & Hx). apply Hin in Hx. set_solver.
        * intros x w'. rewrite elem_of_app. intros [Hx|Hx]; [apply Hin in Hx; set_solver|]. set_solver.
      + rewrite Hl', app_nil_r by done. split; [done|]. intros x w Hx. apply Hin in Hx. set_solver.
    - intros x b t. simpl. destruct (decide (x = k)) as [->|]; [rewrite lookup_insert_eq|rewrite lookup_insert_ne by done; apply Hcp].
      intros [= <-]. by apply (Hcp k a). }
  all: split; try done; intros x b Hx; apply Hsame; [done|]; destruct (decide (x = k)) as [->|]; [left|by right]; congruence.
Qed.

Lemma deliver_inv X k v s : inv_but X s -> inv_but (fun x => X x /\ x <> k) (deliver_thunk k v s).
Proof.
  intros Hs. pose proof (settle_inv X k Ok (Some v) s [(k, v)] Hs ltac:(eauto) ltac:(done) ltac:(done)) as Hk.
  unfold deliver_thunk, settle. destruct (awaiters s !! k) as [a|]; [|done]. by destruct (slot_done a).
Qed.

Lemma settle_other_inv X k o s : inv_but X s -> o <> Ok -> o <> Pending -> inv_but (fun x => X x /\ x <> k) (settle k o None s).
Proof.
  intros Hs Ho Hp. pose proof (settle_inv X k o None s [] Hs ltac:(done) ltac:(done) Hp) as Hk.
  unfold settle. destruct (awaiters s !! k) as [a|]; [|done]. destruct (slot_done a); [done|].
  by rewrite app_nil_r in Hk.
Qed.

Lemma inv_but_mono (X Y : Z -> Prop) s : (forall k, X k -> Y k) -> inv_but X s -> inv_but Y s.
Proof.
  intros HXY [Ha Hs Ht Hw Hn Hc Hcp]. split; try done. intros k a E. destruct (Ha k a E) as [H1 H2 H3 H4 H5]. split; try done.
  intros Hd HY. apply H5; auto.
Qed.

Lemma cancel_callbacks_inv (cs : list (Z * Z)) s :
  inv_but (fun x => x ∈ cs.*2) s -> inv (fold_left (fun s p => on_cancel_callback p.2 s) cs s).
Proof.
  revert s. induction cs as [|[id k] cs IH]; intros s Hs; simpl.
  - revert Hs. apply inv_but_mono. set_solver.
  - apply IH. eapply inv_but_mono; [|by apply settle_other_inv]. set_solver.
Qed.

Lemma cancel_inv t s : inv s -> inv (cancel t s).
Proof.
  intros Hs. unfold cancel. destruct (tokens s !! t) as [c|] eqn:E; [|done]. destruct (cancelled c) eqn:Ec; [done|].
  apply cancel_callbacks_inv. destruct Hs as [Ha Hs Ht Hw Hn Hc Hcp]. split; simpl; try done.
  - intros k a Ek. destruct (Ha k a Ek) as [H1 H2 H3 H4 H5]. split; try done. simpl. intros Hd Hx t' Et.
    destruct (H5 Hd (fun f => f) t' Et) as (c' & Ec' & Hcc & Hin). destruct (decide (t' = t)) as [->|].
    + assert (c' = c) as -> by congruence. destruct Hx. apply list_elem_of_fmap. by exists (cancel_id a, k).
    + rewrite lookup_insert_ne by done. eauto.
  - intros t' c' Ec'. destruct (decide (t' = t)) as [->|]; [|rewrite lookup_insert_ne in Ec' by done].
    + rewrite lookup_insert_eq in Ec'. injection Ec' as <-. destruct (Ht t c E) as [T1 T2 T3 T4 T5].
      split; simpl; try done; [constructor|set_solver].
    + by destruct (Ht t' c' Ec').
  - intros k a t' Ek Et. simpl. rewrite dom_insert_L. pose proof (Hcp k a t' Ek Et). set_solver.
Qed.

Lemma finish_tokens a s :
  tokens (finish a s) = match a_token a with Some t => alter (remove_on_cancel (cancel_id a)) t (tokens s) | None => tokens s end.
Proof. unfold finish. by destruct (a_token a). Qed.

(** What [finish] leaves of a token. *)
Lemma finish_token k a s t c' :
  inv s -> awaiters s !! k = Some a -> tokens (finish a s) !! t = Some c' ->
  exists c, tokens s !! t = Some c /\ next_id c' = next_id c /\ cancelled c' = cancelled c /\ NoDup (callbacks c').*1 /\
    forall x, x ∈ callbacks c' <-> x ∈ callbacks c /\ (a_token a = Some t -> x.1 <> cancel_id a).
Proof.
  intros [Ha Hs Ht Hw Hn Hc Hcp] Ek. rewrite finish_tokens. destruct (a_token a) as [t0|] eqn:Et.
  - rewrite lookup_alter. case_decide as D; [subst t0|].
    + rewrite fmap_Some. intros (c & Ec & ->). exists c. destruct (Ht t c Ec) as [T1 T2 T3 T4 T5].
      pose proof (T4 k a Ek Et). unfold remove_on_cancel. destruct (Z.eqb_spec (cancel_id a) 0); [lia|]. simpl.
      destruct (swap_remove_key fst (cancel_id a) (callbacks c) T2) as [Hnd Hel]. split_and!; try done.
      intros x. rewrite Hel. naive_solver.
    + intros Ec. exists c'. destruct (Ht t c' Ec). split_and!; try done. naive_solver.
  - intros Ec. exists c'. destruct (Ht t c' Ec). split_and!; try done. naive_solver.
Qed.

(** The end of an awaiter's life: its slot and its callback go with it. *)
Lemma drop_inv k a s :
  inv s -> awaiters s !! k = Some a ->
  inv (with_awaiters (delete k (awaiters s)) (with_scheduled (scheduled s ∖ {[ k ]}) (finish a s))).
Proof.
  intros Hinv Ek. pose proof Hinv as [Ha Hs Ht Hw Hn Hc Hcp].
  assert (tls_ask_slots (finish a s) = delete (aid a) (tls_ask_slots s)) as Eslots by (unfold finish; by destruct (a_token a)).
  pose proof (finish_tokens a s) as Etokens.
  assert (tls_ask_counter (finish a s) = tls_ask_counter s /\ wakes (finish a s) = wakes s /\ answers (finish a s) = answers s)
    as (Ecounter & Ewakes & Eanswers) by (unfold finish; by destruct (a_token a)).
  pose proof (fun t c' => finish_token k a s t c' Hinv Ek) as Htok.
  split; simpl; rewrite ?Eslots, ?Ecounter, ?Ewakes, ?Eanswers; try done.
  - intros x b Hx. destruct (decide (x = k)) as [->|Hne]; [by rewrite lookup_delete_eq in Hx|]. rewrite lookup_delete_ne in Hx by done.
    destruct (Ha x b Hx) as [H1 H2 H3 H4 H5]. destruct (Ha k a Ek) as [K1 K2 K3 K4 K5].
    split; simpl; rewrite ?Eslots, ?Ecounter, ?Ewakes, ?Eanswers; try done.
    + rewrite lookup_delete_ne; [done|]. congruence.
    + destruct (slot_done b); set_solver.
    + intros Hd HX t Et. destruct (H5 Hd HX t Et) as (c & Ec & Hcc & Hin).
      destruct (tokens (finish a s) !! t) as [c'|] eqn:Ec'.
      * destruct (Htok t c' Ec') as (c2 & Ec2 & _ & Hc2 & _ & Hel). assert (c2 = c) as -> by congruence.
        exists c'. split_and!; [done|congruence|]. apply Hel. split; [done|]. simpl. intros Eat Heq.
        destruct (Ht t c Ec) as [_ _ _ _ T5]. by apply Hne, (T5 x k b a).
      * rewrite Etokens in Ec'. destruct (a_token a) as [t0|]; [|congruence].
        rewrite lookup_alter in Ec'. case_decide; [subst; by rewrite Ec in Ec'|congruence].
  - intros id x Hx. apply lookup_delete_Some in Hx as [Hid Hx]. destruct (Hs id x Hx) as (b & Eb & Hidb).
    exists b. split; [|done]. rewrite lookup_delete_ne; [done|]. intros ->. congruence.
  - intros t c' Ec'. destruct (Htok t c' Ec') as (c & Ec & En & Hcc & Hnd & Hel). destruct (Ht t c Ec) as [T1 T2 T3 T4 T5].
    split; simpl; rewrite ?Ecounter, ?En; try done.
    + intros id x Hx. apply Hel in Hx as [Hx Hne]. destruct (T3 id x Hx) as (Hid & b & Eb & Hbt & Hbc). split; [done|].
      exists b. split_and!; try done. rewrite lookup_delete_ne; [done|]. intros ->. assert (b = a) as -> by congruence.
      by apply (Hne Hbt).
    + intros x b Hx. apply lookup_delete_Some in Hx as [_ Hx]. eauto.
    + intros x x' b b' Hx Hx'. apply lookup_delete_Some in Hx as [_ Hx]. apply lookup_delete_Some in Hx' as [_ Hx']. eauto.
  - intros x b t Hx Et. simpl in *. apply lookup_delete_Some in Hx as [_ Hx]. rewrite Etokens. pose proof (Hcp x b t Hx Et).
    destruct (a_token a); [by rewrite dom_alter_L|done].
Qed.

Lemma token_new_inv t s : inv s -> (t ∉ dom (tokens s)) -> inv (with_tokens (<[t := token_new]> (tokens s)) s).
Proof.
  intros [Ha Hs Ht Hw Hn Hc Hcp] Hd. split; simpl; try done.
  - intros k a Ek. destruct (Ha k a Ek) as [H1 H2 H3 H4 H5]. split; try done. simpl. intros Hdn HX t' Et.
    destruct (H5 Hdn HX t' Et) as (c & Ec & ?). exists c. rewrite lookup_insert_ne; [done|].
    intros <-. apply Hd. apply elem_of_dom. eauto.
  - intros t' c Ec. destruct (decide (t' = t)) as [->|]; [|rewrite lookup_insert_ne in Ec by done; by destruct (Ht t' c Ec)].
    rewrite lookup_insert_eq in Ec. injection Ec as <-. split; simpl; [done|constructor|set_solver| |].
    + intros k a Ek Et. by destruct (Hd (Hcp k a t Ek Et)).
    + intros k k' a a' Ek _ Et. by destruct (Hd (Hcp k a t Ek Et)).
  - intros k a t' Ek Et. simpl. rewrite dom_insert_L. pose proof (Hcp k a t' Ek Et). set_solver.
Qed.

(** Drawing an id: the counter and the types are all that changes. *)
Lemma counter_inv n ts s : inv s -> tls_ask_counter s <= n -> inv (with_types ts (with_counter n s)).
Proof.
  intros [Ha Hs Ht Hw Hn Hc Hcp] Hle. split; simpl; try done; [| |lia].
  - intros k a Ek. destruct (Ha k a Ek). split; simpl; try done. lia.
  - intros t c Ec. destruct (Ht t c Ec). split; simpl; try done. lia.
Qed.

(** A token while an awaiter that does not copy it is added, and the token it copies. *)
Lemma old_token_ok s k a m t c :
  token_ok s t c -> a_token a <> Some t -> awaiters s !! k = None ->
  token_ok (with_awaiters (<[k := a]> (awaiters s)) (with_tokens m (ask_register (aid a) k s))) t c.
Proof.
  intros [T1 T2 T3 T4 T5] Hne Hk. split; simpl; try done.
  - intros i x Hx. destruct (T3 i x Hx) as (? & b & Eb & ? & ?). split; [done|]. exists b. rewrite lookup_insert_ne by congruence. done.
  - intros x b Hx Et. apply lookup_insert_Some in Hx as [[_ <-]|[_ Hx]]; [done|eauto].
  - intros x x' b b' Hx Hx' Et Et'. apply lookup_insert_Some in Hx as [[_ <-]|[_ Hx]]; [done|].
    apply lookup_insert_Some in Hx' as [[_ <-]|[_ Hx']]; [done|]. eauto.
Qed.

Lemma added_token_ok s k a m t c :
  token_ok s t c -> awaiters s !! k = None -> a_token a = Some t -> cancel_id a = next_id c + 1 -> next_id c + 1 <= tls_ask_counter s ->
  token_ok (with_awaiters (<[k := a]> (awaiters s)) (with_tokens m (ask_register (aid a) k s))) t
           (Token false (next_id c + 1) (callbacks c ++ [(cancel_id a, k)])).
Proof.
  intros [T1 T2 T3 T4 T5] Hk Hat Hci Hb. split; simpl; [lia| | | |].
  - rewrite fmap_app. simpl. apply NoDup_app. split; [done|]. split; [|apply NoDup_singleton].
    intros i Hi Hi'. apply list_elem_of_fmap in Hi as ([i' x] & -> & Hx). apply T3 in Hx as [? _]. simpl in *.
    apply list_elem_of_singleton in Hi'. lia.
  - intros i x. rewrite elem_of_app. intros [Hx|Hx%list_elem_of_singleton].
    + destruct (T3 i x Hx) as (? & b & Eb & ? & ?). split; [lia|]. exists b. rewrite lookup_insert_ne by congruence. done.
    + injection Hx as -> ->. split; [lia|]. exists a. by rewrite lookup_insert_eq.
  - intros x b Hx Et. apply lookup_insert_Some in Hx as [[_ <-]|[_ Hx]]; [lia|]. pose proof (T4 x b Hx Et). lia.
  - intros x x' b b' Hx Hx' Et Et' Heq.
    apply lookup_insert_Some in Hx as [[<- <-]|[_ Hx]]; apply lookup_insert_Some in Hx' as [[<- <-]|[_ Hx']]; [done| | |by eapply T5].
    + pose proof (T4 x' b' Hx' Et'). lia.
    + pose proof (T4 x b Hx Et). lia.
Qed.

(** A new awaiter, with a fresh id and the callback it was given. *)
Lemma new_awaiter_inv k a s m :
  inv s -> (k ∉ dom (awaiters s)) -> (k ∉ wakes s) -> tls_ask_slots s !! aid a = None ->
  1 <= seq_of (aid a) <= tls_ask_counter s -> slot_done a = false -> outcome a = Pending ->
  match a_token a with
  | Some t => exists c, tokens s !! t = Some c /\ cancelled c = false /\ cancel_id a = next_id c + 1 /\
                next_id c + 1 <= tls_ask_counter s /\ m = <[t := Token false (next_id c + 1) (callbacks c ++ [(cancel_id a, k)])]> (tokens s)
  | None => m = tokens s
  end ->
  inv (with_awaiters (<[k := a]> (awaiters s)) (with_tokens m (ask_register (aid a) k s))).
Proof.
  intros [Ha Hs Ht Hw Hn Hc Hcp] Hk%not_elem_of_dom Hkw Hid Hseq Hd Ho Hm. split; simpl; try done.
  - intros x b. destruct (decide (x = k)) as [->|Hne]; [rewrite lookup_insert_eq|rewrite lookup_insert_ne by done].
    + intros [= <-]. split; simpl; [by rewrite lookup_insert_eq|done|by rewrite Hd|congruence|].
      intros _ _ t Et. rewrite Et in Hm. destruct Hm as (c & Ec & Hcc & Hci & Hb & ->). rewrite lookup_insert_eq.
      eexists. split_and!; [done|done|set_solver].
    + intros Eb. destruct (Ha x b Eb) as [H1 H2 H3 H4 H5]. split; simpl; try done.
      * rewrite lookup_insert_ne; [done|]. congruence.
      * intros Hdb HX t Et. destruct (H5 Hdb HX t Et) as (c & Ec & Hcc & Hin). destruct (a_token a) as [t0|]; [|subst m; eauto].
        destruct Hm as (c0 & Ec0 & Hc0 & Hci & Hb & ->). destruct (decide (t = t0)) as [->|]; [|rewrite lookup_insert_ne by done; eauto].
        rewrite lookup_insert_eq. eexists. split_and!; [done|done|]. simpl. assert (c0 = c) as -> by congruence. set_solver.
  - intros i x. destruct (decide (i = aid a)) as [->|Hne]; [rewrite lookup_insert_eq|rewrite lookup_insert_ne by done].
    + intros [= <-]. rewrite lookup_insert_eq. eauto.
    + intros Hx. destruct (Hs i x Hx) as (b & Eb & Hib). exists b. split; [|done]. rewrite lookup_insert_ne; congruence.
  - intros t c' Ec'. destruct (a_token a) as [t0|] eqn:Eat; [|subst m; apply old_token_ok; [by apply Ht|by rewrite Eat|done]].
    destruct Hm as (c & Ec & Hcc & Hci & Hb & ->). destruct (decide (t = t0)) as [->|Hne].
    + rewrite lookup_insert_eq in Ec'. injection Ec' as <-. by apply added_token_ok; [apply Ht|..].
    + rewrite lookup_insert_ne in Ec' by done. apply old_token_ok; [by apply Ht|congruence|done].
  - intros x b t Hx Et. simpl in *. apply lookup_insert_Some in Hx as [[_ <-]|[_ Hx]].
    + rewrite Et in Hm. destruct Hm as (c & Ec & _ & _ & _ & ->). rewrite dom_insert_L. set_solver.
    + pose proof (Hcp x b t Hx Et). destruct (a_token a); [|by subst m]. destruct Hm as (c & _ & _ & _ & _ & ->). rewrite dom_insert_L. set_solver.
Qed.

Lemma ask_inv k o type t timeout s :
  inv s -> (k ∉ dom (awaiters s)) -> (k ∉ wakes s) -> 0 <= index o -> tls_ask_counter s < 2 ^ 48 - 1 ->
  inv (ask k o type t timeout s).2.
Proof.
  intros Hinv Hk Hkw Ho Hb. pose proof (inv_counter _ _ Hinv) as H0.
  destruct (ask_next_id_spec o s Ho) as [Hseq Hs1]; [lia|]. unfold ask. destruct (ask_next_id o s) as [id s1]. simpl in *. subst s1.
  assert (tls_ask_slots s !! id = None) as Hid.
  { destruct (tls_ask_slots s !! id) as [x|] eqn:E; [|done]. destruct (inv_slot _ _ Hinv id x E) as (a & Ea & Haid).
    pose proof (ok_seq _ _ _ _ (inv_awaiter _ _ Hinv x a Ea)). rewrite Haid, Hseq in *. lia. }
  pose proof (counter_inv (tls_ask_counter s + 1) ({[ type ]} ∪ tls_ask_types s) s Hinv ltac:(lia)) as Hinv'.
  unfold ask_register_type, is_cancelled, on_cancel, ask_register. simpl. destruct (tokens s !! t) as [c|] eqn:Et.
  - destruct (cancelled c) eqn:Ec; simpl.
    + destruct Hinv' as [Ha Hs Ht Hw Hn Hc Hcp]. unfold ask_unregister. split; simpl in *; by rewrite ?delete_id by done.
    + unfold token_add. pose proof (inv_token _ _ Hinv t c Et) as [[HT HT'] _ _ _ _].
      rewrite u64_small by lia. simpl. rewrite decide_True by (rewrite dom_insert_L; set_solver).
      apply (new_awaiter_inv k (Awaiter id o false (Some t) timeout Pending None (next_id c + 1)) _
               (<[t := Token false (next_id c + 1) (callbacks c ++ [(next_id c + 1, k)])]> (tokens s)) Hinv'); simpl; try done; [lia|].
      exists c. split_and!; try done. lia.
  - simpl. rewrite decide_False by by apply not_elem_of_dom.
    apply (new_awaiter_inv k (Awaiter id o false None timeout Pending None 0) _ (tokens s) Hinv'); simpl; try done. lia.
Qed.

Lemma resume_inv k s : inv s -> inv (resume k s).2.
Proof.
  intros Hs. unfold resume. destruct (awaiters s !! k) as [a|] eqn:E; [|done]. case_decide; [|done]. by apply drop_inv.
Qed.

Lemma destroy_inv k s : inv s -> inv (destroy k s).
Proof. intros Hs. unfold destroy. destruct (awaiters s !! k) as [a|] eqn:E; [|done]. by apply drop_inv. Qed.

Lemma inv_but_none (X : Z -> Prop) s : inv_but X s -> (forall k, ~ X k) -> inv s.
Proof. intros Hs HX. eapply inv_but_mono; [|exact Hs]. intros k. apply HX. Qed.

Lemma ask_deliver_inv id o v s : inv s -> inv (ask_deliver id o v s).2.
Proof.
  intros Hs. unfold ask_deliver. destruct (id =? 0); [done|]. destruct (tls_ask_slots s !! id) as [k|]; [|done].
  destruct (awaiters s !! k) as [a|]; [|done]. destruct (_ || _); [done|]. simpl.
  eapply inv_but_none; [by apply deliver_inv|]. tauto.
Qed.

Lemma on_timeout_inv k s : inv s -> inv (on_timeout k s).
Proof.
  intros Hs. unfold on_timeout. destruct (awaiters s !! k) as [a|]; [|done]. destruct (timer_started a); [|done].
  eapply inv_but_none; [by apply settle_other_inv|]. tauto.
Qed.

(** Actors and cores have ids in range. *)
Definition op_ok (o : op) : Prop := match o with OAsk _ a _ _ _ => 0 <= index a | _ => True end.

Lemma settle_counter k o v s : tls_ask_counter (settle k o v s) = tls_ask_counter s.
Proof. unfold settle. destruct (awaiters s !! k) as [a|]; [|done]. by destruct (slot_done a). Qed.

Lemma step_counter o s :
  inv s -> op_ok o -> tls_ask_counter s < 2 ^ 48 - 1 -> tls_ask_counter s <= tls_ask_counter (step o s) <= tls_ask_counter s + 1.
Proof.
  intros Hs Ho Hb. pose proof (inv_counter _ _ Hs). destruct o; simpl.
  - case_decide; simpl; lia.
  - case_decide; [lia|]. destruct (ask_next_id_spec o s Ho) as [_ Hs1]; [lia|]. unfold ask.
    destruct (ask_next_id o s) as [id s1]. simpl in Hs1. subst s1. destruct (is_cancelled _ _); simpl; [lia|].
    unfold on_cancel, ask_register, ask_register_type. simpl. destruct (tokens s !! t) as [c|]; simpl; [|lia].
    destruct (cancelled c); simpl; [|lia]. unfold on_cancel_callback. rewrite settle_counter. simpl. lia.
  - unfold ask_deliver. destruct (id =? 0); [simpl; lia|]. destruct (tls_ask_slots s !! id) as [k|]; [|simpl; lia].
    destruct (awaiters s !! k) as [a|] eqn:E; [|simpl; lia]. destruct (_ || _); [simpl; lia|]. simpl. unfold deliver_thunk.
    rewrite E. destruct (slot_done a); [lia|]. simpl. rewrite settle_counter. lia.
  - unfold on_timeout. destruct (awaiters s !! k) as [a|]; [|lia]. destruct (timer_started a); [rewrite settle_counter|]; lia.
  - unfold cancel. destruct (tokens s !! t) as [c|]; [|lia]. destruct (cancelled c); [lia|].
    assert (forall cs s, tls_ask_counter (fold_left (fun s p => on_cancel_callback p.2 s) cs s) = tls_ask_counter s) as ->; [|simpl; lia].
    intros cs. induction cs as [|p cs IH]; intros s'; simpl; [done|]. rewrite IH. apply settle_counter.
  - unfold resume. destruct (awaiters s !! k) as [a|]; [|simpl; lia]. case_decide; [|simpl; lia]. simpl.
    unfold finish. destruct (a_token a); simpl; lia.
  - unfold destroy. destruct (awaiters s !! k) as [a|]; [|lia]. simpl. unfold finish. destruct (a_token a); simpl; lia.
Qed.

Lemma ask_step_inv o s : inv s -> op_ok o -> tls_ask_counter s < 2 ^ 48 - 1 -> inv (step o s).
Proof.
  intros Hs Ho Hb. destruct o; simpl.
  - case_decide; [done|by apply token_new_inv].
  - case_decide as D; [done|]. apply ask_inv; try done; tauto.
  - by apply ask_deliver_inv.
  - by apply on_timeout_inv.
  - by apply cancel_inv.
  - by apply resume_inv.
  - by apply destroy_inv.
Qed.

Lemma ask_run_inv os s :
  inv s -> Forall op_ok os -> tls_ask_counter s + zlen os < 2 ^ 48 -> inv (run os s) /\ tls_ask_counter (run os s) < 2 ^ 48.
Proof.
  revert s. induction os as [|o os IH]; intros s Hs Hos Hb; [unfold zlen in Hb; simpl in *; split; [done|lia]|].
  apply Forall_cons in Hos as [Ho Hos]. unfold zlen in Hb. simpl in *.
  pose proof (step_counter o s Hs Ho ltac:(lia)). apply IH; [apply ask_step_inv; [done|done|lia]|done|unfold zlen; lia].
Qed.

(** * Theorems *)

(** C21: Whatever the order in which replies arrive, timers fire, scopes are cancelled and
    coroutines are resumed or destroyed: every awaiter of [qb::ask] is handed to the scheduler
    at most once, by the first of its three wake sources, and takes at most one reply. The
    registry holds exactly the awaiters that exist, each under its own id, and every callback
    left with a cancellation token belongs to an awaiter that exists. An awaiter that has been
    settled is scheduled, with the reply if that is what settled it, and one that has not is
    never on a cancelled token. *)
Theorem ask_settles_once (os : list op) :
  Forall op_ok os -> zlen os < 2 ^ 48 ->
  let s := run os sys_empty in
  NoDup (wakes s) /\ NoDup (answers s).*1 /\
  (forall id k, tls_ask_slots s !! id = Some k <-> exists a, awaiters s !! k = Some a /\ aid a = id) /\
  (forall t c id k, tokens s !! t = Some c -> (id, k) ∈ callbacks c -> exists a, awaiters s !! k = Some a /\ cancel_id a = id) /\
  (forall k a, awaiters s !! k = Some a ->
     if slot_done a
     then k ∈ scheduled s /\ (outcome a = Ok -> exists v, result a = Some v /\ (k, v) ∈ answers s)
     else outcome a = Pending /\ (k ∉ wakes s) /\ forall t, a_token a = Some t -> is_cancelled t s = false).
Proof.
  intros Hos Hb. destruct (ask_run_inv os sys_empty sys_empty_inv Hos Hb) as [[Ha Hs Ht Hw [Hn Hin] Hc Hcp] _].
  split_and!; try done.
  - intros id k. split; [apply Hs|]. intros (a & Ea & <-). apply (ok_slot _ _ _ _ (Ha k a Ea)).
  - intros t c id k Ec Hk. destruct (ok_callback _ _ _ (Ht t c Ec) id k Hk) as (_ & a & Ea & _ & Hid). eauto.
  - intros k a Ea. destruct (Ha k a Ea) as [H1 H2 H3 H4 H5]. destruct (slot_done a); [by destruct H3|].
    destruct H3 as [Hp Hkw]. split_and!; [done|done|]. intros t Et. destruct (H5 eq_refl (fun f => f) t Et) as (c & Ec & Hcc & _).
    unfold is_cancelled. by rewrite Ec.
Qed.

(** Actor 7 of core 2 asks three times; the first ask is answered, the second times out, and
    the scope is cancelled while the third waits. *)
Definition demo : list op :=
  let me := mk_ActorId 7 2 in
  [OToken 9; OAsk 1 me 5 9 true; OAsk 2 me 5 9 true; OAsk 3 me 5 9 false; ODeliver (2 * 2 ^ 48 + 1) me 77; OTimeout 1; OTimeout 2;
   ODeliver (2 * 2 ^ 48 + 2) me 78; OCancel 9; OResume 1].

Lemma demo_ok : Forall op_ok demo.
Proof. repeat constructor; simpl; lia. Qed.

Lemma ask_settles_once_witness :
  let s := run demo sys_empty in
  wakes s = [1; 2; 3] /\ answers s = [(1, 77)] /\ dom (awaiters s) = {[ 2; 3 ]} /\
  (forall id k, tls_ask_slots s !! id = Some k <-> exists a, awaiters s !! k = Some a /\ aid a = id).
Proof.
  destruct (ask_settles_once demo demo_ok ltac:(vm_compute; reflexivity)) as (_ & _ & H & _).
  split; [vm_compute; reflexivity|]. split; [vm_compute; reflexivity|]. split; [vm_compute; reflexivity|exact H].
Defined.

(** Ask ids drawn by any two cores are different, and so are those drawn by one core:
    within the first 2^48 asks of a core an id determines the core and the ask. *)
Theorem ask_ids_unique (a b : ActorId) (s s' : sys) :
  0 <= index a < 2 ^ 16 -> 0 <= index b < 2 ^ 16 ->
  0 <= tls_ask_counter s < 2 ^ 48 - 1 -> 0 <= tls_ask_counter s' < 2 ^ 48 - 1 ->
  (ask_next_id a s).1 = (ask_next_id b s').1 -> index a = index b /\ tls_ask_counter s = tls_ask_counter s'.
Proof.
  intros Ha Hb Hs Hs' Heq. destruct (ask_next_id_spec a s) as [H1 _]; [lia|done|]. destruct (ask_next_id_spec b s') as [H2 _]; [lia|done|].
  split; [|rewrite Heq in H1; lia]. apply (f_equal (fun z => Z.shiftr z 48)) in Heq. revert Heq. unfold ask_next_id. simpl.
  assert (forall i n, 0 <= i < 2 ^ 16 -> 0 <= n < 2 ^ 48 - 1 ->
            Z.shiftr (Z.lor (u64 (Z.shiftl i 48)) (if u64 (n + 1) =? 0 then u64 (u64 (n + 1) + 1) else u64 (n + 1))) 48 = i) as Hhi.
  { intros i n Hi Hn. rewrite (u64_small (n + 1)) by lia. destruct (Z.eqb_spec (n + 1) 0); [lia|].
    rewrite (Z.shiftl_mul_pow2 i) by lia. rewrite u64_small by lia. rewrite Z.shiftr_lor.
    rewrite <- Z.shiftl_mul_pow2, Z.shiftr_shiftl_l by lia. rewrite Z.sub_diag, Z.shiftl_0_r.
    rewrite (Z.shiftr_div_pow2 (n + 1)), Z.div_small by lia. apply Z.lor_0_r. }
  rewrite !Hhi by lia. done.
Qed.

Lemma ask_ids_unique_witness :
  (ask_next_id (mk_ActorId 7 2) sys_empty).1 = 2 * 2 ^ 48 + 1 /\
  ((ask_next_id (mk_ActorId 7 2) sys_empty).1 = (ask_next_id (mk_ActorId 3 2) sys_empty).1 ->
   2 = 2 /\ tls_ask_counter sys_empty = tls_ask_counter sys_empty).
Proof.
  split; [reflexivity|]. apply (ask_ids_unique (mk_ActorId 7 2) (mk_ActorId 3 2) sys_empty sys_empty); simpl; lia.
Defined.
