(* ===== verification/Core.v ===== *)
(** The actors of one [VirtualCore] (src/qb/core/VirtualCore.cpp, VirtualCore.h, Actor.cpp):
    construction, registration, asynchronous initialisation, killing and removal.

    An actor object lives at an address of the heap [objs]; addresses are never reused, so that
    a pointer to a destroyed actor is one without an object, and its use is logged in [faults].
    User code is a script of calls to the framework: what a constructor, an [onInit()], an event
    handler, a tick or a destructor does. Scripts can add actors whose own scripts run inside. *)

From S2P Require Import Prelude ActorId ServiceIdPool Event Router Ask.

(** [InitOutcome]: how far driving [onInit()] got. *)
Inductive init_outcome := ReadyTrue | ReadyFalse | Suspended.

(** Calls a destructor may make. *)
Inductive last_call := LKill (a : ActorId) | LPush (e : event).

Inductive call :=
| CKill                                  (* kill() *)
| CKillActor (a : ActorId)               (* kill() of an actor of this core, through a pointer *)
| CRegister (t : Z) | CUnregister (t : Z)
| CRegisterCallback
| CPush (e : event)                      (* push, send, broadcast, unregisterCallback *)
| CScope                                 (* the first spawn() creates the coroutine scope *)
| CAsk (k type : Z) (timeout : bool)     (* qb::ask, whose awaiter is at the address k *)
| CAdd (svc : option Z) (defaults : bool) (ctor init : list call) (out : init_outcome)
       (on : Z -> option (list call * bool)) (tick : list call) (dtor : list last_call). (* addRefActor *)

(** The virtual functions of an actor: [onInit()] and how far driving it gets; [b_on t], the
    handler for type [t] beside the default ones, and whether it replies to the event; the tick
    [on(LoopEvent)]; the destructor. *)
Record behaviour := Behaviour {
  b_init : list call; b_out : init_outcome; b_on : Z -> option (list call * bool); b_tick : list call; b_dtor : list last_call
}.

(** What the platform and the program's types provide: the ids of the default event types,
    which types have a destructor, the correlation id of a correlated event, the type a
    [PingEvent] asks for, the [id_type] of an actor's class, the [RequireEvent] with a type and a
    correlation id, and the order in which the hash containers are walked. *)
Class Platform := {
  KillEvent : Z; SignalEvent : Z; UnregisterCallbackEvent : Z; PingEvent : Z; RequireEvent : Z;
  nontrivial : Z -> bool;
  correlation_id : event -> Z;
  ping_type : event -> Z;
  id_type : behaviour -> Z;
  require_event (d s : ActorId) (type corr : Z) : event;
  walk_handlers : gmap ActorId Z -> list (ActorId * Z);
  walk_ids : gset ActorId -> list ActorId;
  activation_deadline_ns : Z;
}.

Class PlatformLaws `{Platform} : Prop := {
  walk_handlers_all hs : walk_handlers hs ≡ₚ map_to_list hs;
  walk_ids_all X : walk_ids X ≡ₚ elements X;
}.

Record actor := Actor { a_id : ActorId; _alive : bool; _activated : bool; a_beh : behaviour }.

(** [Activation]; [init] is [None] while the [onInit] frame is suspended, and its verdict once
    it has finished (false when it threw). *)
Record activation := Activation { init : option bool; deadline_ns : Z; cancelling : bool; stash : list event }.

(** Ghost logs: [outbox] the events handed to the pipes; [c_delivered] and [c_destroyed] what
    the router did; [arrived], [routed] and [disposed] the fate of received events; [lost] the
    stashed events whose destructor was skipped; [faults] the addresses of destroyed actors
    that were used. [rejected] records that a service was added where it already exists, or an
    actor without an id (the pool is exhausted) was given an [onInit()] that suspends. *)
Record logs := Logs {
  outbox : list event; c_delivered : list (Z * Z); c_destroyed : list Z;
  arrived : list event; routed : list event; disposed : list event; lost : list event;
  faults : list Z; rejected : bool
}.

Record core := Core {
  _index : Z; nb_service : Z; _ids : pool; _router : router; _actors : gmap ActorId Z; objs : gmap Z actor; next_addr : Z;
  _actor_callbacks : gmap ActorId Z; _callback_list : list (ActorId * Z);
  _actor_to_remove : gset ActorId; _activating : gmap ActorId activation; _dying_with_frame : gset ActorId;
  asks : Ask.sys; clock : Z; log : logs
}.

(** * Field updates *)

Definition set_ids (p : pool) (w : core) : core :=
  Core (_index w) (nb_service w) p (_router w) (_actors w) (objs w) (next_addr w)
       (_actor_callbacks w) (_callback_list w) (_actor_to_remove w) (_activating w) (_dying_with_frame w) (asks w) (clock w) (log w).
Definition set_core_router (r : router) (w : core) : core :=
  Core (_index w) (nb_service w) (_ids w) r (_actors w) (objs w) (next_addr w)
       (_actor_callbacks w) (_callback_list w) (_actor_to_remove w) (_activating w) (_dying_with_frame w) (asks w) (clock w) (log w).
Definition set_actors (m : gmap ActorId Z) (w : core) : core :=
  Core (_index w) (nb_service w) (_ids w) (_router w) m (objs w) (next_addr w)
       (_actor_callbacks w) (_callback_list w) (_actor_to_remove w) (_activating w) (_dying_with_frame w) (asks w) (clock w) (log w).
Definition set_objs (m : gmap Z actor) (w : core) : core :=
  Core (_index w) (nb_service w) (_ids w) (_router w) (_actors w) m (next_addr w)
       (_actor_callbacks w) (_callback_list w) (_actor_to_remove w) (_activating w) (_dying_with_frame w) (asks w) (clock w) (log w).
Definition set_next (n : Z) (w : core) : core :=
  Core (_index w) (nb_service w) (_ids w) (_router w) (_actors w) (objs w) n
       (_actor_callbacks w) (_callback_list w) (_actor_to_remove w) (_activating w) (_dying_with_frame w) (asks w) (clock w) (log w).
Definition set_callbacks (m : gmap ActorId Z) (l : list (ActorId * Z)) (w : core) : core :=
  Core (_index w) (nb_service w) (_ids w) (_router w) (_actors w) (objs w) (next_addr w)
       m l (_actor_to_remove w) (_activating w) (_dying_with_frame w) (asks w) (clock w) (log w).
Definition set_to_remove (s : gset ActorId) (w : core) : core :=
  Core (_index w) (nb_service w) (_ids w) (_router w) (_actors w) (objs w) (next_addr w)
       (_actor_callbacks w) (_callback_list w) s (_activating w) (_dying_with_frame w) (asks w) (clock w) (log w).
Definition set_activating (m : gmap ActorId activation) (w : core) : core :=
  Core (_index w) (nb_service w) (_ids w) (_router w) (_actors w) (objs w) (next_addr w)
       (_actor_callbacks w) (_callback_list w) (_actor_to_remove w) m (_dying_with_frame w) (asks w) (clock w) (log w).
Definition set_dying (s : gset ActorId) (w : core) : core :=
  Core (_index w) (nb_service w) (_ids w) (_router w) (_actors w) (objs w) (next_addr w)
       (_actor_callbacks w) (_callback_list w) (_actor_to_remove w) (_activating w) s (asks w) (clock w) (log w).
Definition set_asks (s : Ask.sys) (w : core) : core :=
  Core (_index w) (nb_service w) (_ids w) (_router w) (_actors w) (objs w) (next_addr w)
       (_actor_callbacks w) (_callback_list w) (_actor_to_remove w) (_activating w) (_dying_with_frame w) s (clock w) (log w).
Definition set_clock (t : Z) (w : core) : core :=
  Core (_index w) (nb_service w) (_ids w) (_router w) (_actors w) (objs w) (next_addr w)
       (_actor_callbacks w) (_callback_list w) (_actor_to_remove w) (_activating w) (_dying_with_frame w) (asks w) t (log w).
Definition set_log (l : logs) (w : core) : core :=
  Core (_index w) (nb_service w) (_ids w) (_router w) (_actors w) (objs w) (next_addr w)
       (_actor_callbacks w) (_callback_list w) (_actor_to_remove w) (_activating w) (_dying_with_frame w) (asks w) (clock w) l.

Definition push_event (e : event) (w : core) : core :=
  let l := log w in
  set_log (Logs (outbox l ++ [e]) (c_delivered l) (c_destroyed l) (arrived l) (routed l) (disposed l) (lost l) (faults l) (rejected l)) w.
Definition log_delivered (h v : Z) (w : core) : core :=
  let l := log w in
  set_log (Logs (outbox l) (c_delivered l ++ [(h, v)]) (c_destroyed l) (arrived l) (routed l) (disposed l) (lost l) (faults l) (rejected l)) w.
Definition log_destroyed (v : Z) (w : core) : core :=
  let l := log w in
  set_log (Logs (outbox l) (c_delivered l) (c_destroyed l ++ [v]) (arrived l) (routed l) (disposed l) (lost l) (faults l) (rejected l)) w.
Definition log_fates (a r d x : list event) (w : core) : core :=
  let l := log w in
  set_log (Logs (outbox l) (c_delivered l) (c_destroyed l) (arrived l ++ a) (routed l ++ r) (disposed l ++ d) (lost l ++ x) (faults l) (rejected l)) w.
Definition log_fault (h : Z) (w : core) : core :=
  let l := log w in
  set_log (Logs (outbox l) (c_delivered l) (c_destroyed l) (arrived l) (routed l) (disposed l) (lost l) (faults l ++ [h]) (rejected l)) w.
Definition log_rejected (w : core) : core :=
  let l := log w in
  set_log (Logs (outbox l) (c_delivered l) (c_destroyed l) (arrived l) (routed l) (disposed l) (lost l) (faults l) true) w.

(** [VirtualCore::VirtualCore] *)
Definition core_new (index services : Z) : core :=
  Core index services (ServiceIdPool.init (services + 1)) router_empty ∅ ∅ 0 ∅ [] ∅ ∅ ∅ Ask.sys_empty 0
       (Logs [] [] [] [] [] [] [] [] false).

(** * Operations on one actor *)

Section Ops.
Context `{Platform}.

Definition alloc (o : actor) (w : core) : core := set_next (next_addr w + 1) (set_objs (<[next_addr w := o]> (objs w)) w).

(** [Actor::__cancel_coro_scope__]; the scope of the actor at [h] is the token [h]. *)
Definition cancel_scope (h : Z) (w : core) : core := set_asks (Ask.cancel h (asks w)) w.

(** [Actor::kill] and [VirtualCore::killActor] *)
Definition kill (h : Z) (w : core) : core :=
  match objs w !! h with
  | Some o =>
      let w := set_objs (<[h := Actor (a_id o) false (_activated o) (a_beh o)]> (objs w)) w in
      let w := cancel_scope h w in
      set_to_remove ({[ a_id o ]} ∪ _actor_to_remove w) w
  | None => w
  end.

Definition kill_actor (a : ActorId) (w : core) : core :=
  match _actors w !! a with Some h => kill h w | None => w end.

Definition registerEvent (t h : Z) (w : core) : core :=
  match objs w !! h with
  | Some o => if is_valid (a_id o) then set_core_router (subscribe t (a_id o) h (_router w)) w else w
  | None => w
  end.

Definition unregisterEvent (t h : Z) (w : core) : core :=
  match objs w !! h with
  | Some o => set_core_router (unsubscribe t (a_id o) (_router w)) w
  | None => w
  end.

Definition unregisterEvents (a : ActorId) (w : core) : core := set_core_router (unsubscribe_all a (_router w)) w.

Definition registerCallback (h : Z) (w : core) : core :=
  match objs w !! h with
  | Some o =>
      if is_valid (a_id o) then
        match _actor_callbacks w !! a_id o with
        | Some _ => w
        | None => set_callbacks (<[a_id o := h]> (_actor_callbacks w)) (_callback_list w ++ [(a_id o, h)]) w
        end
      else w
  | None => w
  end.

Definition __unregisterCallback (a : ActorId) (w : core) : core :=
  match _actor_callbacks w !! a with
  | Some _ => set_callbacks (delete a (_actor_callbacks w)) (swap_remove (fun c => c.1 = a) (_callback_list w)) w
  | None => w
  end.

(** What a destructor does, and the end of the object. *)
Definition last (c : last_call) (w : core) : core :=
  match c with LKill a => kill_actor a w | LPush e => push_event e w end.

Definition destroy_actor (h : Z) (w : core) : core :=
  match objs w !! h with
  | Some o => let w := fold_left (fun w c => last c w) (b_dtor (a_beh o)) w in set_objs (delete h (objs w)) w
  | None => w
  end.

(** The part of [removeActor] that is not deferred. *)
Definition teardown (a : ActorId) (w : core) : core :=
  let w := unregisterEvents a (__unregisterCallback a w) in
  match _actors w !! a with
  | Some h =>
      let w := destroy_actor h (set_actors (delete a (_actors w)) (cancel_scope h w)) in
      if nb_service w <? _service_id a then set_ids (ServiceIdPool.release (_service_id a) (_ids w)) w else w
  | None => w
  end.

Definition removeActor (a : ActorId) (w : core) : core :=
  match _activating w !! a with
  | Some act =>
      let w := match _actors w !! a with Some h => cancel_scope h w | None => w end in
      match init act with
      | None => set_dying ({[ a ]} ∪ _dying_with_frame w) w
      | Some _ =>
          teardown a (log_fates [] [] [] (stash act)
            (set_dying (_dying_with_frame w ∖ {[ a ]}) (set_activating (delete a (_activating w)) w)))
      end
  | None => teardown a w
  end.

(** [Actor::Actor]: the id, the object, the default registrations. *)
Definition construct (svc : option Z) (defaults : bool) (b : behaviour) (w : core) : Z * core :=
  let '(a, ids) := match svc with
                   | Some s => (mk_ActorId s (_index w), _ids w)
                   | None => __generate_id__ (_index w) (_ids w)
                   end in
  let h := next_addr w in
  let w := alloc (Actor a true true b) (set_ids ids w) in
  (h, if defaults
      then fold_left (fun w t => registerEvent t h w) [KillEvent; SignalEvent; UnregisterCallbackEvent; PingEvent; RequireEvent] w
      else w).

Definition __begin_activation__ (h : Z) (w : core) : core :=
  match objs w !! h with
  | Some o =>
      let w := set_objs (<[h := Actor (a_id o) (_alive o) false (a_beh o)]> (objs w)) w in
      let deadline := if activation_deadline_ns =? 0 then 0 else u64 (clock w + activation_deadline_ns) in
      match _activating w !! a_id o with
      | Some _ => w
      | None => set_activating (<[a_id o := Activation None deadline false []]> (_activating w)) w
      end
  | None => w
  end.

(** An id that is not drawn from the pool is a service's, or none. *)
Definition note_rejected (a : ActorId) (w : core) : core :=
  if _service_id a <=? nb_service w then log_rejected w else w.

(** The end of [appendActor]: the insertion of an actor that has an id. [None] stands for
    [ActorId::NotFound]; an actor that is not inserted is destroyed. *)
Definition emplace (a : ActorId) (h : Z) (w : core) : option ActorId * core :=
  if is_valid a then
    match _actors w !! a with
    | Some _ => (Some a, destroy_actor h (note_rejected a w))
    | None => (Some a, set_actors (<[a := h]> (_actors w)) w)
    end
  else (None, destroy_actor h w).

(** [initActor] once [__drive_init__] has told how far [onInit()] got, and the insertion. *)
Definition finish_init (a : ActorId) (h : Z) (out : init_outcome) (w : core) : option ActorId * core :=
  match out with
  | ReadyTrue => emplace a h w
  | ReadyFalse =>
      let w := match _actors w !! a with Some _ => note_rejected a w | None => w end in
      (None, destroy_actor h (removeActor a w))
  | Suspended => emplace a h (__begin_activation__ h (if is_valid a then w else log_rejected w))
  end.

(** [appendActor]: the duplicate check, [onInit()] when [doInit] asks for it, the insertion. *)
Definition append (doInit : option ((core -> core) * init_outcome)) (h : Z) (w : core) : option ActorId * core :=
  match objs w !! h with
  | None => (None, w)
  | Some o =>
      match _actors w !! a_id o with
      | Some _ => (None, destroy_actor h (note_rejected (a_id o) w))
      | None =>
          match doInit with
          | None => emplace (a_id o) h w
          | Some (body, out) => finish_init (a_id o) h out (body w)
          end
      end
  end.

(** A call made by the actor at [self]; [addReferencedActor] constructs, runs the rest of the
    constructor, and appends. *)
Fixpoint exec (self : Z) (c : call) (w : core) {struct c} : core :=
  let execs := fix execs (h : Z) (cs : list call) (w : core) {struct cs} : core :=
    match cs with [] => w | c :: cs => execs h cs (exec h c w) end in
  match c with
  | CKill => kill self w
  | CKillActor a => kill_actor a w
  | CRegister t => registerEvent t self w
  | CUnregister t => unregisterEvent t self w
  | CRegisterCallback => registerCallback self w
  | CPush e => push_event e w
  | CScope => set_asks (Ask.step (OToken self) (asks w)) w
  | CAsk k type timeout =>
      match objs w !! self with
      | Some o => set_asks (Ask.step (OAsk k (a_id o) type self timeout) (asks w)) w
      | None => w
      end
  | CAdd svc defaults ctor init out on tick dtor =>
      let '(h, w) := construct svc defaults (Behaviour init out on tick dtor) w in
      (append (Some (execs h init, out)) h (execs h ctor w)).2
  end.

Fixpoint execs (h : Z) (cs : list call) (w : core) : core :=
  match cs with [] => w | c :: cs => execs h cs (exec h c w) end.

End Ops.

(** * Scripts *)

(** The services a script adds are registered ones. *)
Fixpoint call_ok (nb : Z) (c : call) {struct c} : Prop :=
  let calls_ok := fix calls_ok (cs : list call) {struct cs} : Prop :=
    match cs with [] => True | c :: cs => call_ok nb c /\ calls_ok cs end in
  match c with
  | CAdd svc _ ctor init _ on tick _ =>
      match svc with Some s => 0 < s <= nb | None => True end /\ calls_ok ctor /\ calls_ok init /\ calls_ok tick /\
      forall t, match on t with Some (cs, _) => calls_ok cs | None => True end
  | CAsk _ _ _ => True
  | _ => True
  end.

Fixpoint calls_ok (nb : Z) (cs : list call) : Prop :=
  match cs with [] => True | c :: cs => call_ok nb c /\ calls_ok nb cs end.

Definition behaviour_ok (nb : Z) (b : behaviour) : Prop :=
  calls_ok nb (b_init b) /\ calls_ok nb (b_tick b) /\ forall t, match b_on b t with Some (cs, _) => calls_ok nb cs | None => True end.

Definition actor_ok (nb : Z) (o : actor) : Prop := behaviour_ok nb (a_beh o).

Section CallInd.
Context (P : call -> Prop).
Hypothesis P_basic : forall c, match c with CAdd _ _ _ _ _ _ _ _ => False | _ => True end -> P c.
Hypothesis P_add : forall svc defaults ctor init out on tick dtor,
  Forall P ctor -> Forall P init -> P (CAdd svc defaults ctor init out on tick dtor).

Fixpoint call_induction (c : call) : P c :=
  let all := fix all (cs : list call) : Forall P cs :=
    match cs with [] => Forall_nil_2 P | c :: cs => Forall_cons_2 P c cs (call_induction c) (all cs) end in
  match c with
  | CAdd svc defaults ctor init out on tick dtor => P_add svc defaults ctor init out on tick dtor (all ctor) (all init)
  | c => P_basic c I
  end.
End CallInd.

(** * Invariants

    [X] are actors that were killed and are about to be removed. *)

Record ok (X : gset ActorId) (w : core) : Prop := Ok_ {
  ok_router : router_ok (_router w);
  ok_target t a h : target (_router w) t a = Some h -> exists o, objs w !! h = Some o /\ a_id o = a;
  ok_actor a h : _actors w !! a = Some h ->
    is_valid a = true /\ exists o, objs w !! h = Some o /\ a_id o = a /\
      (_alive o = false -> a ∈ _actor_to_remove w \/ a ∈ _dying_with_frame w \/ a ∈ X);
  ok_callback a h : _actor_callbacks w !! a = Some h -> exists o, objs w !! h = Some o /\ a_id o = a;
  ok_list : NoDup (_callback_list w).*1 /\ forall a h, (a, h) ∈ _callback_list w <-> _actor_callbacks w !! a = Some h;
  ok_obj h o : objs w !! h = Some o -> h < next_addr w /\ actor_ok (nb_service w) o;
  ok_activating : dom (_activating w) ⊆ dom (_actors w);
  ok_dying : _dying_with_frame w ⊆ dom (_activating w);
  ok_pool : pool_ok (_ids w) /\ 0 <= nb_service w;
  ok_free s : free (_ids w) s = true -> nb_service w < s;
  ok_used a : a ∈ dom (_actors w) -> free (_ids w) (_service_id a) = false;
  ok_log : faults (log w) = [] /\ rejected (log w) = false;
  ok_named : (forall t a h, target (_router w) t a = Some h -> is_valid a = true) /\
             (forall a h, _actor_callbacks w !! a = Some h -> is_valid a = true);
  ok_index a : a ∈ dom (_actors w) -> _core_id a = _index w;
}.

(** What user code can do to a core. *)
Record grows (w w' : core) : Prop := Grows {
  g_objs h o : objs w !! h = Some o -> exists o', objs w' !! h = Some o' /\ a_id o' = a_id o /\
    (_alive o' = false -> _alive o = false \/ a_id o ∈ _actor_to_remove w');
  g_remove : _actor_to_remove w ⊆ _actor_to_remove w';
  g_free s : free (_ids w') s = true -> free (_ids w) s = true;
  g_actors a h : _actors w !! a = Some h -> _actors w' !! a = Some h;
  g_new a : a ∈ dom (_actors w') -> a ∈ dom (_actors w) \/ free (_ids w) (_service_id a) = true \/ _service_id a <= nb_service w;
  g_const : nb_service w' = nb_service w /\ _index w' = _index w /\ clock w' = clock w /\ _dying_with_frame w' = _dying_with_frame w;
  g_activating a act : _activating w !! a = Some act -> _activating w' !! a = Some act;
  g_new_activation a act : _activating w' !! a = Some act -> _activating w !! a = Some act \/ (init act = None /\ stash act = []);
  g_addr : next_addr w <= next_addr w';
  g_log : arrived (log w') = arrived (log w) /\ routed (log w') = routed (log w) /\ disposed (log w') = disposed (log w) /\
          lost (log w') = lost (log w);
}.

Lemma free_neg p s : s < 0 -> free p s = false.
Proof.
  intros Hs. unfold free. assert (s / 64 < 0) by (apply Z.div_lt_upper_bound; lia).
  unfold zget. destruct (Z.ltb_spec (s / 64) 0); [done|lia].
Qed.

Lemma grows_refl w : grows w w.
Proof. split; try done; try (intros; by left). intros h o Ho. exists o. auto. Qed.

Lemma grows_trans w1 w2 w3 : grows w1 w2 -> grows w2 w3 -> grows w1 w3.
Proof.
  intros [A1 A2 A3 A4 A5 A6 A7 A8 A9 A10] [B1 B2 B3 B4 B5 B6 B7 B8 B9 B10]. split.
  - intros h o Ho. destruct (A1 h o Ho) as (o2 & E2 & I2 & K2). destruct (B1 h o2 E2) as (o3 & E3 & I3 & K3).
    exists o3. split_and!; [done|congruence|]. intros Hd. destruct (K3 Hd) as [Hd2|Hr]; [|right; congruence].
    destruct (K2 Hd2) as [|Hr]; [by left|right; by apply B2].
  - by trans (_actor_to_remove w2).
  - auto.
  - auto.
  - intros a Ha. destruct A6 as (E1 & _). destruct (B5 a Ha) as [H2|[H2|H2]]; [by apply A5| |right; right; by rewrite <- E1].
    right. left. auto.
  - destruct_and!. split_and!; congruence.
  - auto.
  - intros a act Ha. destruct (B8 a act Ha) as [H2|H2]; [by apply A8|by right].
  - lia.
  - destruct_and!. split_and!; congruence.
Qed.

Section Safety.
Context `{Platform}.
Implicit Types (w : core) (X : gset ActorId).

(** An operation of user code keeps the invariant and only adds. *)
Definition good X w w' : Prop := ok X w' /\ grows w w'.

Lemma good_refl X w : ok X w -> good X w w.
Proof. intros Hw. split; [done|apply grows_refl]. Qed.

Lemma good_trans X w1 w2 w3 : good X w1 w2 -> good X w2 w3 -> good X w1 w3.
Proof. intros [H1 H2] [H3 H4]. split; [done|by eapply grows_trans]. Qed.

(** Replacing an object by one with the same id. *)
Lemma insert_same_ids (m : gmap Z actor) h o o' x p :
  m !! h = Some o -> a_id o' = a_id o -> m !! x = Some p -> exists p', <[h := o']> m !! x = Some p' /\ a_id p' = a_id p.
Proof.
  intros E Ha Ex. destruct (decide (x = h)) as [->|]; [rewrite lookup_insert_eq|rewrite lookup_insert_ne by done]; eexists; (split; [done|]); congruence.
Qed.

Lemma set_obj_good X w h o o' :
  ok X w -> objs w !! h = Some o -> a_id o' = a_id o -> actor_ok (nb_service w) o' ->
  (_alive o' = false -> _alive o = false \/ a_id o ∈ _actor_to_remove w) ->
  good X w (set_objs (<[h := o']> (objs w)) w).
Proof.
  intros [I1 I2 I3 I4 I5 I6 I7 I8 I9 I10 I11 I12 I13 I14] E Ha Hok Hk. split; split; simpl; try done.
  - intros t a x Hx. destruct (I2 t a x Hx) as (p & Ep & <-). by apply (insert_same_ids _ _ o).
  - intros a x Hx. destruct (I3 a x Hx) as (Hv & p & Ep & Hpa & Hpd). split; [done|]. destruct (decide (x = h)) as [->|].
    + rewrite lookup_insert_eq. exists o'. assert (p = o) as -> by congruence. split_and!; [done|congruence|]. intros Hd.
      destruct (Hk Hd) as [Hd'|Hr]; [auto|]. left. congruence.
    + rewrite lookup_insert_ne by done. eauto.
  - intros a x Hx. destruct (I4 a x Hx) as (p & Ep & <-). by apply (insert_same_ids _ _ o).
  - intros x p Hx. apply lookup_insert_Some in Hx as [[<- <-]|[_ Hx]]; [|by apply I6]. destruct (I6 h o E). done.
  - intros x p Hx. destruct (decide (x = h)) as [->|].
    + rewrite lookup_insert_eq. exists o'. assert (p = o) as -> by congruence. auto.
    + rewrite lookup_insert_ne by done. exists p. auto.
  - intros a Hd. by left.
  - intros a act Hd. by left.
Qed.

Lemma to_remove_good X w s :
  ok X w -> _actor_to_remove w ⊆ s -> good X w (set_to_remove s w).
Proof.
  intros [I1 I2 I3 I4 I5 I6 I7 I8 I9 I10 I11 I12 I13 I14] Hs. split; split; simpl; try done; try (intros; by left).
  - intros a h Hh. destruct (I3 a h Hh) as (Hv & o & Eo & Ha & Hd). split; [done|]. exists o. split_and!; [done|done|].
    intros Hal. destruct (Hd Hal) as [?|[?|?]]; auto.
  - intros h o Ho. exists o. auto.
Qed.

Lemma asks_good X w s : ok X w -> good X w (set_asks s w).
Proof.
  intros [I1 I2 I3 I4 I5 I6 I7 I8 I9 I10 I11 I12 I13 I14]. split; split; simpl; try done; try (intros; by left).
  intros h o Ho. exists o. auto.
Qed.

Lemma push_good X w e : ok X w -> good X w (push_event e w).
Proof.
  intros [I1 I2 I3 I4 I5 I6 I7 I8 I9 I10 I11 I12 I13 I14]. split; split; simpl; try done; try (intros; by left).
  intros h o Ho. exists o. auto.
Qed.

Lemma kill_good X w h : ok X w -> good X w (kill h w).
Proof.
  intros Hw. unfold kill. destruct (objs w !! h) as [o|] eqn:E; [|by apply good_refl].
  set (w1 := set_to_remove ({[ a_id o ]} ∪ _actor_to_remove w) w).
  assert (good X w w1) as H1 by (apply to_remove_good; [done|set_solver]).
  assert (good X w1 (set_objs (<[h := Actor (a_id o) false (_activated o) (a_beh o)]> (objs w1)) w1)) as H2.
  { apply (set_obj_good X w1 h o); [by destruct H1|done|done| |].
    - destruct (ok_obj X w Hw h o E) as [_ ?]. done.
    - intros _. right. simpl. set_solver. }
  eapply good_trans; [exact H1|]. eapply good_trans; [exact H2|]. exact (asks_good X _ (Ask.cancel h (asks w)) (proj1 H2)).
Qed.

Lemma kill_actor_good X w a : ok X w -> good X w (kill_actor a w).
Proof. intros Hw. unfold kill_actor. destruct (_actors w !! a); [by apply kill_good|by apply good_refl]. Qed.

Lemma last_good X w c : ok X w -> good X w (last c w).
Proof. intros Hw. destruct c; simpl; [by apply kill_actor_good|by apply push_good]. Qed.

Lemma lasts_good X w cs : ok X w -> good X w (fold_left (fun w c => last c w) cs w).
Proof.
  revert w. induction cs as [|c cs IH]; intros w Hw; simpl; [by apply good_refl|].
  pose proof (last_good X w c Hw) as H1. eapply good_trans; [exact H1|]. apply IH. by destruct H1.
Qed.

Lemma router_good X w r :
  ok X w -> router_ok r ->
  (forall t a h, target r t a = Some h -> is_valid a = true /\ exists o, objs w !! h = Some o /\ a_id o = a) ->
  good X w (set_core_router r w).
Proof.
  intros [I1 I2 I3 I4 I5 I6 I7 I8 I9 I10 I11 I12 I13 I14] Hr Ht. split; split; simpl; try done; try (intros; by left).
  - intros t a h Hh. by destruct (Ht t a h Hh).
  - split; [|by destruct I13]. intros t a h Hh. by destruct (Ht t a h Hh).
  - intros h o Ho. exists o. auto.
Qed.

Lemma target_named X w t a h : ok X w -> target (_router w) t a = Some h -> is_valid a = true /\ exists o, objs w !! h = Some o /\ a_id o = a.
Proof. intros Hw Ht. split; [by apply (proj1 (ok_named X w Hw) t a h)|by apply (ok_target X w Hw t)]. Qed.

Lemma registerEvent_good X w t h : ok X w -> good X w (registerEvent t h w).
Proof.
  intros Hw. unfold registerEvent. destruct (objs w !! h) as [o|] eqn:E; [|by apply good_refl].
  destruct (is_valid (a_id o)) eqn:Ev; [|by apply good_refl]. destruct (subscribe_spec t (a_id o) h _ (ok_router X w Hw)) as [Hr Ht].
  apply router_good; [done|done|]. intros t' a' h'. rewrite Ht. case_decide as D; [|by apply (target_named X)].
  intros [= <-]. destruct D as [-> ->]. eauto.
Qed.

Lemma unregisterEvent_good X w t h : ok X w -> good X w (unregisterEvent t h w).
Proof.
  intros Hw. unfold unregisterEvent. destruct (objs w !! h) as [o|] eqn:E; [|by apply good_refl].
  destruct (unsubscribe_spec t (a_id o) _ (ok_router X w Hw)) as [Hr Ht].
  apply router_good; [done|done|]. intros t' a' h'. rewrite Ht. case_decide; [done|by apply (target_named X)].
Qed.

Lemma registerCallback_good X w h : ok X w -> good X w (registerCallback h w).
Proof.
  intros Hw. unfold registerCallback. destruct (objs w !! h) as [o|] eqn:E; [|by apply good_refl].
  destruct (is_valid (a_id o)) eqn:Ev; [|by apply good_refl]. destruct (_actor_callbacks w !! a_id o) as [h0|] eqn:Ec; [by apply good_refl|].
  destruct Hw as [I1 I2 I3 I4 [I5 I5'] I6 I7 I8 I9 I10 I11 I12 I13 I14]. split; split; simpl; try done; try (intros; by left).
  - intros a x Hx. apply lookup_insert_Some in Hx as [[<- <-]|[_ Hx]]; [by exists o|by apply I4].
  - split.
    + rewrite fmap_app. apply NoDup_app. split; [done|]. split; [|apply NoDup_singleton].
      intros a Ha Ha'. apply list_elem_of_fmap in Ha as ([a' x] & -> & Hx). apply I5' in Hx.
      apply list_elem_of_singleton in Ha'. simpl in *. congruence.
    + intros a x. rewrite elem_of_app, I5', list_elem_of_singleton. destruct (decide (a = a_id o)) as [->|Hne].
      * rewrite lookup_insert_eq, Ec. naive_solver.
      * rewrite lookup_insert_ne by done. naive_solver.
  - split; [by destruct I13|]. intros a x Hx. apply lookup_insert_Some in Hx as [[<- _]|[_ Hx]]; [done|]. destruct I13 as [_ I13]. eauto.
  - intros x p Hp. exists p. auto.
Qed.

(** What destructors leave alone. *)
Definition fixed w := (_router w, _actor_callbacks w, _callback_list w, _actors w, _activating w, _dying_with_frame w, _ids w,
                       (_index w, nb_service w, next_addr w, clock w)).

Lemma kill_fixed h w : fixed (kill h w) = fixed w.
Proof. unfold kill. by destruct (objs w !! h). Qed.

Lemma lasts_fixed cs w : fixed (fold_left (fun w c => last c w) cs w) = fixed w.
Proof.
  revert w. induction cs as [|c cs IH]; intros w; simpl; [done|]. rewrite IH. destruct c as [a|e]; simpl; [|done].
  unfold kill_actor. destruct (_actors w !! a); [apply kill_fixed|done].
Qed.

(** Nothing points to the object [h]. *)
Definition unreferenced (h : Z) w : Prop :=
  (forall t a, target (_router w) t a <> Some h) /\ (forall a, _actor_callbacks w !! a <> Some h) /\ (forall a, _actors w !! a <> Some h).

Lemma unreferenced_fixed h w w' : fixed w' = fixed w -> unreferenced h w -> unreferenced h w'.
Proof. unfold fixed, unreferenced. intros [= -> -> _ -> _ _ _ _ _ _ _]. done. Qed.

Lemma free_ok X h w : ok X w -> unreferenced h w -> ok X (set_objs (delete h (objs w)) w).
Proof.
  intros [I1 I2 I3 I4 I5 I6 I7 I8 I9 I10 I11 I12 I13 I14] (U1 & U2 & U3). split; simpl; try done.
  - intros t a x Hx. destruct (I2 t a x Hx) as (o & Eo & Ha). exists o. rewrite lookup_delete_ne; [done|]. intros ->. by apply (U1 t a).
  - intros a x Hx. destruct (I3 a x Hx) as (Hv & o & Eo & Ha). split; [done|]. exists o.
    rewrite lookup_delete_ne; [done|]. intros ->. by apply (U3 a).
  - intros a x Hx. destruct (I4 a x Hx) as (o & Eo & Ha). exists o. rewrite lookup_delete_ne; [done|]. intros ->. by apply (U2 a).
  - intros x o Hx. apply lookup_delete_Some in Hx as [_ Hx]. by apply I6.
Qed.

Lemma destroy_ok X h w : ok X w -> unreferenced h w -> ok X (destroy_actor h w).
Proof.
  intros Hw Hu. unfold destroy_actor. destruct (objs w !! h) as [o|] eqn:E; [|done].
  destruct (lasts_good X w (b_dtor (a_beh o)) Hw) as [H1 _]. apply free_ok; [done|]. eapply unreferenced_fixed; [apply lasts_fixed|done].
Qed.

Lemma destroy_grows X h w0 w : ok X w -> grows w0 w -> objs w0 !! h = None -> grows w0 (destroy_actor h w).
Proof.
  intros Hw Hg Hh. unfold destroy_actor. destruct (objs w !! h) as [o|] eqn:E; [|done].
  destruct (lasts_good X w (b_dtor (a_beh o)) Hw) as [_ H2].
  pose proof (grows_trans _ _ _ Hg H2) as [A1 A2 A3 A4 A5 A6 A7 A8 A9 A10]. split; simpl; try done.
  intros x p Hp. destruct (A1 x p Hp) as (p' & Ep' & ?). exists p'. rewrite lookup_delete_ne; [done|]. congruence.
Qed.

Lemma unregisterCallback_good X w a : ok X w -> good X w (__unregisterCallback a w) /\ _actor_callbacks (__unregisterCallback a w) !! a = None.
Proof.
  intros Hw. unfold __unregisterCallback. destruct (_actor_callbacks w !! a) as [h|] eqn:E; [|by split; [apply good_refl|]].
  destruct Hw as [I1 I2 I3 I4 [I5 I5'] I6 I7 I8 I9 I10 I11 I12 I13 I14]. split; [|apply lookup_delete_eq].
  destruct (swap_remove_key fst a (_callback_list w) I5) as [Hnd Hel].
  split; split; simpl; try done; try (intros; by left).
  - intros x y Hy. apply lookup_delete_Some in Hy as [_ Hy]. by apply I4.
  - split; [done|]. intros x y. rewrite Hel, I5'. simpl. rewrite lookup_delete_Some. naive_solver.
  - split; [by destruct I13|]. intros x y Hy. apply lookup_delete_Some in Hy as [_ Hy]. destruct I13 as [_ I13]. eauto.
  - intros x p Hp. exists p. auto.
Qed.

Lemma unregisterEvents_good X w a :
  ok X w -> good X w (unregisterEvents a w) /\ forall t, target (_router (unregisterEvents a w)) t a = None.
Proof.
  intros Hw. unfold unregisterEvents. destruct (unsubscribe_all_spec a _ (ok_router X w Hw)) as [Hr Ht]. split.
  - apply router_good; [done|done|]. intros t a' h. rewrite Ht. case_decide; [done|by apply (target_named X)].
  - intros t. simpl. rewrite Ht. by rewrite decide_True.
Qed.

Lemma unregister_good X w a :
  ok X w -> let w' := unregisterEvents a (__unregisterCallback a w) in
  good X w w' /\ (forall t, target (_router w') t a = None) /\ _actor_callbacks w' !! a = None /\ _actors w' = _actors w /\ objs w' = objs w.
Proof.
  intros Hw w'. destruct (unregisterCallback_good X w a Hw) as [H1 H2]. destruct (unregisterEvents_good X _ a (proj1 H1)) as [H3 H4].
  split_and!; [by eapply good_trans|done|done| |]; unfold w', unregisterEvents, __unregisterCallback; by destruct (_actor_callbacks w !! a).
Qed.

(** After its registrations are gone, an object that is no (longer an) actor is unreferenced. *)
Lemma unreferenced_intro X w h o :
  ok X w -> objs w !! h = Some o -> (forall t, target (_router w) t (a_id o) = None) -> _actor_callbacks w !! a_id o = None ->
  _actors w !! a_id o <> Some h -> unreferenced h w.
Proof.
  intros Hw E Ht Hc Ha. split_and!.
  - intros t a Hta. destruct (ok_target X w Hw t a h Hta) as (o' & Eo' & <-). assert (o' = o) as -> by congruence. by rewrite Ht in Hta.
  - intros a Hca. destruct (ok_callback X w Hw a h Hca) as (o' & Eo' & <-). assert (o' = o) as -> by congruence. congruence.
  - intros a Haa. destruct (ok_actor X w Hw a h Haa) as (_ & o' & Eo' & <- & _). assert (o' = o) as -> by congruence. done.
Qed.

End Safety.

(** The calls that only add to a core. *)
Create HintDb actors.
#[export] Hint Resolve good_refl kill_good kill_actor_good push_good asks_good registerEvent_good unregisterEvent_good
  registerCallback_good : actors.

(** [__generate_id__] draws a free id and makes it busy, or has none to give. *)
Lemma generate_spec i p :
  pool_ok p ->
  let '(a, p') := __generate_id__ i p in
  pool_ok p' /\ (forall s, free p' s = true -> free p s = true) /\
  (is_valid a = true -> _core_id a = i) /\
  (_service_id a = 0 \/ free p (_service_id a) = true /\ free p' (_service_id a) = false).
Proof.
  intros Hp. unfold __generate_id__. destruct (empty p); [split_and!; [done|done|done|by left]|].
  pose proof (acquire_spec p Hp) as HA. destruct (acquire p) as [sid p']. destruct (free_sids p) as [|s l] eqn:El.
  { destruct HA as [-> ->]. rewrite Z.eqb_refl. split_and!; [done|done|done|by left]. }
  destruct HA as (-> & Hs & Hp' & Hf). destruct (Z.eqb_spec s BroadcastSid); [unfold kBits in *; lia|].
  assert (s ∈ free_sids p) as [_ Hfs]%free_sids_elem by (rewrite El; by left).
  split_and!; [done| |done|right; simpl; split; [done|]].
  - intros x Hx. destruct (decide (x < 0)); [by rewrite free_neg in Hx|]. rewrite Hf in Hx by lia. by apply andb_true_iff in Hx as [? _].
  - rewrite Hf by lia. by rewrite Z.eqb_refl, andb_false_r.
Qed.

Section Execution.
Context `{Platform}.
Implicit Types (w : core) (X : gset ActorId).

Lemma alloc_good X w o ids :
  ok X w -> actor_ok (nb_service w) o -> pool_ok ids -> (forall s, free ids s = true -> free (_ids w) s = true) ->
  good X w (alloc o (set_ids ids w)).
Proof.
  intros [I1 I2 I3 I4 I5 I6 I7 I8 I9 I10 I11 I12 I13 I14] Ho Hp Hf.
  assert (forall h p, objs w !! h = Some p -> <[next_addr w := o]> (objs w) !! h = Some p) as Hold.
  { intros h p Hp'. destruct (I6 h p Hp') as [? _]. by rewrite lookup_insert_ne by lia. }
  split; split; simpl; try done; try (intros; by left).
  - intros t a h Hh. destruct (I2 t a h Hh) as (p & ? & ?). eauto.
  - intros a h Hh. destruct (I3 a h Hh) as (? & p & ? & ?). eauto.
  - intros a h Hh. destruct (I4 a h Hh) as (p & ? & ?). eauto.
  - intros h p Hh. apply lookup_insert_Some in Hh as [[<- <-]|[_ Hh]]; [split; [lia|done]|]. destruct (I6 h p Hh). split; [lia|done].
  - destruct I9. done.
  - auto.
  - intros a Ha. destruct (free ids (_service_id a)) eqn:E; [|done]. apply Hf in E. by rewrite I11 in E.
  - intros h p Hh. exists p. auto.
  - lia.
Qed.

Lemma registers_good X w h ts : ok X w -> good X w (fold_left (fun w t => registerEvent t h w) ts w).
Proof.
  revert w. induction ts as [|t ts IH]; intros w Hw; simpl; [by apply good_refl|].
  pose proof (registerEvent_good X w t h Hw) as H1. eapply good_trans; [exact H1|]. apply IH. by destruct H1.
Qed.

Lemma registers_objs w h ts : objs (fold_left (fun w t => registerEvent t h w) ts w) = objs w /\
  _ids (fold_left (fun w t => registerEvent t h w) ts w) = _ids w /\ _actors (fold_left (fun w t => registerEvent t h w) ts w) = _actors w.
Proof.
  revert w. induction ts as [|t ts IH]; intros w; simpl; [done|]. destruct (IH (registerEvent t h w)) as (-> & -> & ->).
  unfold registerEvent. destruct (objs w !! h) as [o|]; [|done]. by destruct (is_valid (a_id o)).
Qed.

(** The id [a] was drawn after [w0] and belongs to an actor that is not inserted yet, unless it
    is a service's id, or none. *)
Definition mine w0 w (a : ActorId) : Prop :=
  (is_valid a = true -> _core_id a = _index w0) /\
  (_service_id a <= nb_service w0 \/
   (free (_ids w0) (_service_id a) = true /\ free (_ids w) (_service_id a) = false /\ (a ∉ dom (_actors w)))).

(** A new actor is alive, and its id is its own. *)
Lemma construct_spec X w svc defaults b :
  ok X w -> match svc with Some s => 0 < s <= nb_service w | None => True end -> behaviour_ok (nb_service w) b ->
  let '(h, w') := construct svc defaults b w in
  h = next_addr w /\ good X w w' /\ objs w !! h = None /\ next_addr w < next_addr w' /\
  exists o, objs w' !! h = Some o /\ _alive o = true /\
    mine w w' (a_id o).
Proof.
  intros Hw Hs Hb. pose proof (ok_pool X w Hw) as [Hp Hnb]. unfold construct.
  assert (exists a ids, (match svc with Some s => (mk_ActorId s (_index w), _ids w) | None => __generate_id__ (_index w) (_ids w) end) = (a, ids) /\
            pool_ok ids /\ (forall s, free ids s = true -> free (_ids w) s = true) /\
            (is_valid a = true -> _core_id a = _index w) /\
            (_service_id a <= nb_service w \/ (free ids (_service_id a) = false /\ free (_ids w) (_service_id a) = true)))
    as (a & ids & -> & Hids & Hf & Hix & Ha).
  { destruct svc as [s|]; [exists (mk_ActorId s (_index w)), (_ids w); split_and!; try done; left; simpl; lia|].
    pose proof (generate_spec (_index w) (_ids w) Hp) as HG. destruct (__generate_id__ (_index w) (_ids w)) as [a ids].
    exists a, ids. destruct HG as (H1 & H2 & H5 & [H3|[H3 H4]]); split_and!; try done; [left; lia|by right]. }
  set (w1 := alloc (Actor a true true b) (set_ids ids w)).
  assert (good X w w1) as H1 by by apply alloc_good.
  assert (objs w !! next_addr w = None) as Hn.
  { destruct (objs w !! next_addr w) as [o|] eqn:E; [|done]. destruct (ok_obj X w Hw _ o E). lia. }
  set (w2 := if defaults then _ else _). assert (good X w w2 /\ objs w2 = objs w1 /\ _ids w2 = _ids w1 /\ _actors w2 = _actors w1 /\ next_addr w1 <= next_addr w2)
    as (H2 & E1 & E2 & E3 & E4).
  { unfold w2. destruct defaults; [|done]. pose proof (registers_good X w1 (next_addr w) [KillEvent; SignalEvent; UnregisterCallbackEvent; PingEvent; RequireEvent] (proj1 H1)) as Hr.
    pose proof (registers_objs w1 (next_addr w) [KillEvent; SignalEvent; UnregisterCallbackEvent; PingEvent; RequireEvent]) as (? & ? & ?).
    split_and!; try done; [by eapply good_trans|]. destruct Hr as [_ [_ _ _ _ _ _ _ _ Hr _]]. exact Hr. }
  split_and!; try done; [unfold w1 in E4; simpl in E4; lia|]. rewrite E1. exists (Actor a true true b).
  split_and!; [apply lookup_insert_eq|done|]. unfold mine. rewrite E2, E3. simpl. split; [done|].
  destruct Ha as [Ha|[Ha Ha']]; [by left|right].
  split_and!; [done|done|]. intros Hd. by rewrite (ok_used X w Hw a Hd) in Ha'.
Qed.

(** ** What was rejected stays rejected *)

Lemma kill_rej h w : rejected (log (kill h w)) = rejected (log w).
Proof. unfold kill. by destruct (objs w !! h). Qed.

Lemma lasts_rej cs w : rejected (log (fold_left (fun w c => last c w) cs w)) = rejected (log w).
Proof.
  revert w. induction cs as [|c cs IH]; intros w; simpl; [done|]. rewrite IH. destruct c; simpl; [|done].
  unfold kill_actor. destruct (_actors w !! a); [apply kill_rej|done].
Qed.

Lemma destroy_rej h w : rejected (log (destroy_actor h w)) = rejected (log w).
Proof. unfold destroy_actor. destruct (objs w !! h); simpl; [apply lasts_rej|done]. Qed.

Lemma teardown_rej a w : rejected (log (teardown a w)) = rejected (log w).
Proof.
  unfold teardown, unregisterEvents, __unregisterCallback.
  destruct (_actor_callbacks w !! a); simpl; (destruct (_actors w !! a); [|done]);
    (destruct (nb_service _ <? _service_id a); simpl; by rewrite destroy_rej).
Qed.

Lemma remove_rej a w : rejected (log (removeActor a w)) = rejected (log w).
Proof.
  unfold removeActor. destruct (_activating w !! a) as [act|]; [|apply teardown_rej].
  destruct (_actors w !! a), (init act); simpl; rewrite ?teardown_rej; done.
Qed.

Lemma begin_rej h w : rejected (log (__begin_activation__ h w)) = rejected (log w).
Proof. unfold __begin_activation__. destruct (objs w !! h); [|done]. simpl. by destruct (_activating w !! a_id _). Qed.

Lemma note_rej a w : rejected (log w) = true -> rejected (log (note_rejected a w)) = true.
Proof. unfold note_rejected. by destruct (_ <=? _). Qed.

Lemma emplace_rej a h w : rejected (log w) = true -> rejected (log (emplace a h w).2) = true.
Proof.
  intros Hw. unfold emplace. destruct (is_valid _); [destruct (_actors w !! a)|]; simpl; rewrite ?destroy_rej; try done. by apply note_rej.
Qed.

Lemma finish_init_rej a h out w : rejected (log w) = true -> rejected (log (finish_init a h out w).2) = true.
Proof.
  intros Hw. destruct out; simpl; [by apply emplace_rej| |].
  - rewrite destroy_rej, remove_rej. destruct (_actors w !! a); [by apply note_rej|done].
  - apply emplace_rej. rewrite begin_rej. by destruct (is_valid _).
Qed.

Lemma append_rej body out h w :
  (rejected (log w) = true -> rejected (log (body w)) = true) ->
  rejected (log w) = true -> rejected (log (append (Some (body, out)) h w).2) = true.
Proof.
  intros Hb Hw. unfold append. destruct (objs w !! h) as [o|]; [|done].
  destruct (_actors w !! a_id o); simpl; [rewrite destroy_rej; by apply note_rej|]. by apply finish_init_rej, Hb.
Qed.

Lemma registers_log w h ts : log (fold_left (fun w t => registerEvent t h w) ts w) = log w.
Proof.
  revert w. induction ts as [|t ts IH]; intros w; simpl; [done|]. rewrite IH.
  unfold registerEvent. destruct (objs w !! h) as [o|]; [|done]. by destruct (is_valid (a_id o)).
Qed.

Lemma construct_log svc defaults b w : log (construct svc defaults b w).2 = log w.
Proof.
  unfold construct. destruct (match svc with Some s => _ | None => _ end) as [a ids].
  destruct defaults; [|done]. exact (registers_log (alloc _ _) _ _).
Qed.

Lemma exec_rej c : forall self w, rejected (log w) = true -> rejected (log (exec self c w)) = true.
Proof.
  induction c as [c Hc|svc defaults ctor ini out on tick dtor IHc IHi] using call_induction; intros self w Hw.
  - destruct c; try done; simpl.
    + by rewrite kill_rej.
    + unfold kill_actor. destruct (_actors w !! a); [by rewrite kill_rej|done].
    + unfold registerEvent. destruct (objs w !! self) as [o|]; [|done]. by destruct (is_valid (a_id o)).
    + unfold unregisterEvent. by destruct (objs w !! self).
    + unfold registerCallback. destruct (objs w !! self) as [o|]; [|done]. destruct (is_valid (a_id o)); [|done].
      by destruct (_actor_callbacks w !! a_id o).
    + by destruct (objs w !! self).
  - assert (forall cs h w, Forall (fun c => forall self w, rejected (log w) = true -> rejected (log (exec self c w)) = true) cs ->
              rejected (log w) = true -> rejected (log (execs h cs w)) = true) as Hcs.
    { intros cs h w' HF. revert w'. induction HF as [|c cs Hc _ IH]; intros w' Hw'; [done|]. simpl. apply IH, Hc, Hw'. }
    simpl. pose proof (construct_log svc defaults (Behaviour ini out on tick dtor) w) as Hl. destruct (construct _ _ _ w) as [h w1].
    simpl in Hl. apply append_rej; [intros Hr; by apply (Hcs ini)|]. apply (Hcs ctor); [done|by rewrite Hl].
Qed.

(** ** Adding an actor *)

Definition safe X w w' : Prop := rejected (log w') = true \/ good X w w'.

Lemma mine_grows w0 w w' a : mine w0 w a -> nb_service w = nb_service w0 -> grows w w' -> mine w0 w' a.
Proof.
  intros [Hix [Ha|(H1 & H2 & H3)]] Hnb [A1 A2 A3 A4 A5 A6 A7 A8 A9 A10]; (split; [done|]); [by left|].
  destruct (decide (_service_id a <= nb_service w0)); [by left|right]. split_and!; [done| |].
  - destruct (free (_ids w') _) eqn:E; [|done]. apply A3 in E. congruence.
  - intros Hd. destruct (A5 a Hd) as [?|[?|?]]; [done|congruence|lia].
Qed.

Lemma insert_actor_good X w0 w a h o :
  ok X w -> grows w0 w -> objs w !! h = Some o -> a_id o = a -> is_valid a = true -> _actors w !! a = None ->
  mine w0 w a -> (_alive o = false -> a ∈ _actor_to_remove w) ->
  good X w0 (set_actors (<[a := h]> (_actors w)) w).
Proof.
  intros [I1 I2 I3 I4 I5 I6 I7 I8 I9 I10 I11 I12 I13 I14] [A1 A2 A3 A4 A5 A6 A7 A8 A9 A10] E Ha Hv Hn Hm Hk. destruct A6 as (Hnb & Hidx & A6).
  destruct Hm as [Hix Hm]. split; split; simpl; try done.
  - intros b x Hx. apply lookup_insert_Some in Hx as [[<- <-]|[_ Hx]]; [|by apply I3]. split; [done|]. exists o. auto.
  - rewrite dom_insert_L. set_solver.
  - intros b. rewrite dom_insert_L. intros [->%elem_of_singleton|Hb]%elem_of_union; [|by apply I11].
    destruct Hm as [Hm|(_ & Hm & _)]; [|done]. destruct (free (_ids w) _) eqn:Ef; [|done]. apply I10 in Ef. lia.
  - intros b. rewrite dom_insert_L. intros [->%elem_of_singleton|Hb]%elem_of_union; [|by apply I14]. rewrite Hix; done.
  - intros b x Hx. rewrite lookup_insert_ne; [by apply A4|]. intros ->. by rewrite (A4 _ _ Hx) in Hn.
  - intros b. rewrite dom_insert_L. intros [->%elem_of_singleton|Hb]%elem_of_union; [|by apply A5].
    destruct Hm as [Hm|(Hm & _ & _)]; auto.
Qed.

Lemma activation_good X w a d :
  ok X w -> a ∈ dom (_actors w) -> _activating w !! a = None ->
  good X w (set_activating (<[a := Activation None d false []]> (_activating w)) w).
Proof.
  intros [I1 I2 I3 I4 I5 I6 I7 I8 I9 I10 I11 I12 I13 I14] Ha Hn. split; split; simpl; try done; try (intros; by left).
  - rewrite dom_insert_L. set_solver.
  - rewrite dom_insert_L. set_solver.
  - intros h o Ho. exists o. auto.
  - intros b act Hb. rewrite lookup_insert_ne; [done|]. congruence.
  - intros b act Hb. apply lookup_insert_Some in Hb as [[<- <-]|[_ Hb]]; [by right|by left].
Qed.

Lemma destroy_new_good X w0 w h : ok X w -> grows w0 w -> objs w0 !! h = None -> unreferenced h w -> good X w0 (destroy_actor h w).
Proof. intros Hw Hg Hn Hu. split; [by apply destroy_ok|by eapply destroy_grows]. Qed.

(** An actor without an id has registered nothing. *)
Lemma anonymous_unreferenced X w h o : ok X w -> objs w !! h = Some o -> is_valid (a_id o) = false -> unreferenced h w.
Proof.
  intros Hw E Hv. assert (forall a o', objs w !! h = Some o' -> a_id o' = a -> is_valid a = true -> False) as Hno by naive_solver congruence.
  split_and!.
  - intros t a Ht. destruct (target_named X w t a h Hw Ht) as (? & o' & ? & ?). by eapply Hno.
  - intros a Hc. destruct (ok_callback X w Hw a h Hc) as (o' & ? & ?). eapply Hno; [done..|]. by apply (proj2 (ok_named X w Hw) a h).
  - intros a Ha. destruct (ok_actor X w Hw a h Ha) as (? & o' & ? & ? & _). by eapply Hno.
Qed.

(** Only a service's id can already be taken. *)
Lemma duplicate_noted w0 w w' a h :
  mine w0 w a -> nb_service w = nb_service w0 -> _actors w !! a = Some h -> nb_service w' = nb_service w ->
  rejected (log (note_rejected a w')) = true.
Proof.
  intros [_ [Hm|(_ & _ & Hm)]] Hnb Ha Hnb'; [|by destruct Hm; apply elem_of_dom].
  unfold note_rejected. destruct (Z.leb_spec (_service_id a) (nb_service w')); [done|lia].
Qed.

Lemma not_activating X w a : ok X w -> _actors w !! a = None -> _activating w !! a = None.
Proof. intros Hw Ha. apply not_elem_of_dom. intros Hd%(ok_activating X w Hw). by apply not_elem_of_dom in Ha. Qed.

Lemma emplace_ok X w0 w a h o :
  ok X w -> grows w0 w -> objs w0 !! h = None -> objs w !! h = Some o -> a_id o = a -> mine w0 w a ->
  (_alive o = false -> a ∈ _actor_to_remove w) -> safe X w0 (emplace a h w).2.
Proof.
  intros Hw Hg Hn E Ha Hm Hk. pose proof (g_const _ _ Hg) as (Hnb & _). unfold emplace. destruct (is_valid a) eqn:Ev.
  - destruct (_actors w !! a) as [h'|] eqn:Ea; [left|right; by eapply insert_actor_good].
    simpl. rewrite destroy_rej. by eapply duplicate_noted.
  - right. apply destroy_new_good; try done. eapply anonymous_unreferenced; [done..|]. by rewrite Ha.
Qed.

Lemma begin_fixed h w :
  _actors (__begin_activation__ h w) = _actors w /\ nb_service (__begin_activation__ h w) = nb_service w.
Proof. unfold __begin_activation__. destruct (objs w !! h) as [o|]; [|done]. simpl. by destruct (_activating w !! a_id o). Qed.

Lemma suspend_ok X w0 w h o :
  ok X w -> grows w0 w -> objs w0 !! h = None -> objs w !! h = Some o -> mine w0 w (a_id o) -> is_valid (a_id o) = true ->
  (_alive o = false -> a_id o ∈ _actor_to_remove w) -> safe X w0 (emplace (a_id o) h (__begin_activation__ h w)).2.
Proof.
  intros Hw Hg Hn E Hm Ev Hk. pose proof (g_const _ _ Hg) as (Hnb & _). destruct (_actors w !! a_id o) as [h'|] eqn:Ea.
  { left. unfold emplace. destruct (begin_fixed h w) as [-> ?]. rewrite Ev, Ea. simpl. rewrite destroy_rej. by eapply duplicate_noted. }
  right. pose proof (not_activating X w _ Hw Ea) as Hact.
  set (o' := Actor (a_id o) (_alive o) false (a_beh o)).
  assert (good X w (set_objs (<[h := o']> (objs w)) w)) as H1.
  { apply (set_obj_good X w h o); try done; [by destruct (ok_obj X w Hw h o E)|by left]. }
  assert (good X w0 (set_actors (<[a_id o := h]> (_actors w)) (set_objs (<[h := o']> (objs w)) w))) as H2.
  { apply (insert_actor_good X w0 (set_objs (<[h := o']> (objs w)) w) (a_id o) h o'); try done.
    - by destruct H1.
    - eapply grows_trans; [exact Hg|by destruct H1].
    - apply lookup_insert_eq. }
  eapply good_trans; [exact H2|]. unfold emplace, __begin_activation__. rewrite E, Ev. simpl. rewrite Hact. simpl. rewrite Ea.
  assert (a_id o ∈ dom (<[a_id o := h]> (_actors w))) as Hd by (rewrite dom_insert_L; set_solver).
  exact (activation_good X (set_actors (<[a_id o := h]> (_actors w)) (set_objs (<[h := o']> (objs w)) w)) (a_id o)
           (if activation_deadline_ns =? 0 then 0 else u64 (clock w + activation_deadline_ns)) (proj1 H2) Hd Hact).
Qed.

Lemma finish_init_ok X w0 w h o out :
  ok X w -> grows w0 w -> objs w0 !! h = None -> objs w !! h = Some o -> mine w0 w (a_id o) ->
  (_alive o = false -> a_id o ∈ _actor_to_remove w) -> safe X w0 (finish_init (a_id o) h out w).2.
Proof.
  intros Hw Hg Hn E Hm Hk. pose proof (g_const _ _ Hg) as (Hnb & _). destruct out; simpl.
  - by eapply emplace_ok.
  - destruct (_actors w !! a_id o) as [h'|] eqn:Ea; [left; rewrite destroy_rej, remove_rej; by eapply duplicate_noted|].
    right. unfold removeActor. rewrite (not_activating X w _ Hw Ea).
    unfold teardown. destruct (unregister_good X w (a_id o) Hw) as (H1 & H2 & H3 & H4 & H5).
    rewrite H4, Ea. apply destroy_new_good; [by destruct H1|by eapply grows_trans; [exact Hg|destruct H1]|done|].
    apply (unreferenced_intro X _ h o); [by destruct H1|by rewrite H5|done|done|by rewrite H4, Ea].
  - destruct (is_valid (a_id o)) eqn:Ev; [by apply suspend_ok|left; apply emplace_rej; by rewrite begin_rej].
Qed.

(** ** Scripts *)

Lemma execs_rej h cs w : rejected (log w) = true -> rejected (log (execs h cs w)) = true.
Proof. revert w. induction cs as [|c cs IH]; intros w Hw; simpl; [done|]. by apply IH, exec_rej. Qed.

Lemma execs_ok X h cs w :
  Forall (fun c => forall X h w, ok X w -> call_ok (nb_service w) c -> safe X w (exec h c w)) cs ->
  ok X w -> calls_ok (nb_service w) cs -> safe X w (execs h cs w).
Proof.
  intros HF. revert w. induction HF as [|c cs Hc _ IH]; intros w Hw Hcs; simpl; [right; by apply good_refl|].
  destruct Hcs as [Hc' Hcs]. destruct (Hc X h w Hw Hc') as [Hr|[H1 H2]]; [left; by apply execs_rej|].
  destruct (IH (exec h c w) H1) as [Hr|H3]; [by rewrite (proj1 (g_const _ _ H2))|by left|]. right. by eapply good_trans.
Qed.

Lemma call_ok_lists nb cs :
  (fix calls_ok (cs : list call) {struct cs} : Prop := match cs with [] => True | c :: cs => call_ok nb c /\ calls_ok cs end) cs = calls_ok nb cs.
Proof. induction cs as [|c cs IH]; [done|]. simpl. by rewrite IH. Qed.

Lemma exec_ok c : forall X h w, ok X w -> call_ok (nb_service w) c -> safe X w (exec h c w).
Proof.
  induction c as [c Hc|svc defaults ctor ini out on tick dtor IHc IHi] using call_induction; intros X self w Hw Hwf.
  - right. destruct c; try done; simpl; try (destruct (objs w !! self)); auto with actors.
  - simpl in Hwf. rewrite !call_ok_lists in Hwf. destruct Hwf as (Hsvc & Hctor & Hinit & Htick & Hon).
    assert (forall t, match on t with Some (cs, _) => calls_ok (nb_service w) cs | None => True end) as Hon'.
    { intros t. specialize (Hon t). destruct (on t) as [[cs ?]|]; [|done]. by rewrite call_ok_lists in Hon. }
    simpl. pose proof (construct_spec X w svc defaults (Behaviour ini out on tick dtor) Hw Hsvc (conj Hinit (conj Htick Hon'))) as HC.
    destruct (construct _ _ _ w) as [h w1]. destruct HC as (-> & [Hw1 Hg1] & Hn & _ & o & E & Hal & Hm).
    pose proof (proj1 (g_const _ _ Hg1)) as Hnb1. set (h := next_addr w) in *.
    destruct (execs_ok X h ctor w1 IHc Hw1) as [Hr|[Hw2 Hg2]]; [by rewrite Hnb1| |].
    { left. apply append_rej; [|done]. intros Hr'. by apply execs_rej. }
    change (safe X w (append (Some (execs h ini, out)) h (execs h ctor w1)).2). set (w2 := execs h ctor w1) in *.
    pose proof (proj1 (g_const _ _ Hg2)) as Hnb2. destruct (g_objs _ _ Hg2 h o E) as (o2 & E2 & Hid & Hk2).
    assert (mine w w2 (a_id o2)) as Hm2 by (rewrite Hid; by eapply mine_grows).
    unfold append. rewrite E2. destruct (_actors w2 !! a_id o2) as [h'|] eqn:Ea.
    { left. simpl. rewrite destroy_rej. eapply duplicate_noted; [exact Hm2|congruence|done|done]. }
    destruct (execs_ok X h ini w2 IHi Hw2) as [Hr|[Hw3 Hg3]]; [congruence|left; by apply finish_init_rej|].
    pose proof (grows_trans _ _ _ Hg1 (grows_trans _ _ _ Hg2 Hg3)) as Hg. set (w3 := execs h ini w2) in *.
    destruct (g_objs _ _ Hg3 h o2 E2) as (o3 & E3 & Hid3 & Hk3). rewrite <- Hid3 in Hm2 |- *.
    apply finish_init_ok; try done; [eapply mine_grows; [exact Hm2|congruence|done]|].
    intros Hd. rewrite Hid3, Hid. destruct (Hk3 Hd) as [Hd2|Hr]; [|congruence].
    destruct (Hk2 Hd2) as [Hd1|Hr]; [congruence|]. by apply (g_remove _ _ Hg3).
Qed.

End Execution.
