(* ===== verification/Workflow.v ===== *)
(** The loop of a [VirtualCore] (src/qb/core/VirtualCore.cpp): the start of its actors, the
    reception of events with the gate in front of actors whose [onInit()] is suspended, the
    completion of such an [onInit()], the callbacks, and the removal of killed actors.

    What happens outside is an input of each turn: the time, what the coroutines that
    [listener::run] resumes do, and the events received. *)

From S2P Require Import Prelude ActorId ServiceIdPool Event Router Ask Core.

Definition SIGINT : Z := 2.
Definition SIGTERM : Z := 15.
Definition kActivationStashCap : Z := 4096.

Section Workflow.
Context `{Platform}.

(** * Delivery *)

(** The handlers of the base class [Actor]; the signal number of a [SignalEvent] is its value. *)
Definition default_on (h : Z) (e : event) (w : core) : core :=
  if id e =? KillEvent then kill h w
  else if id e =? SignalEvent then if (payload e =? SIGINT) || (payload e =? SIGTERM) then kill h w else w
  else if id e =? UnregisterCallbackEvent then
    match objs w !! h with Some o => __unregisterCallback (a_id o) w | None => w end
  else if id e =? PingEvent then
    match objs w !! h with
    | Some o =>
        if (ping_type e =? 0) || (ping_type e =? id_type (a_beh o))
        then push_event (require_event (source e) (a_id o) (ping_type e) (correlation_id e)) w else w
    | None => w
    end
  else if id e =? RequireEvent then
    match objs w !! h with
    | Some o => set_asks (Ask.ask_deliver (correlation_id e) (a_id o) (payload e) (asks w)).2 w
    | None => w
    end
  else w.

Definition actor_on (h : Z) (e : event) (w : core) : event * core :=
  match objs w !! h with
  | None => (e, log_fault h (log_delivered h (payload e) w))
  | Some o =>
      let w := log_delivered h (payload e) w in
      match b_on (a_beh o) (id e) with
      | Some (cs, replies) =>
          let w := execs h cs w in
          if replies && negb (is_broadcast (dest e)) then (actor_reply e, push_event (actor_reply e) w) else (e, w)
      | None => (e, default_on h e w)
      end
  end.

(** A core owns the router. The use of a destroyed actor is not caught by its [is_alive()]. *)
#[export] Instance core_host : Host core := {
  host_router := _router;
  set_router := set_core_router;
  handler_alive h w := match objs w !! h with Some o => _alive o | None => true end;
  handler_on := actor_on;
  destroy e w := log_destroyed (payload e) w;
}.

Definition route_event (e : event) (w : core) : core :=
  (route nontrivial walk_handlers (with_alive false e) (log_fates [] [e] [] [] w)).2.

Definition dispose_event (e : event) (w : core) : core := dispose nontrivial e (log_fates [] [] [e] [] w).

(** * Reception *)

Definition __is_activating__ (a : ActorId) (w : core) : bool := bool_decide (a ∈ dom (_activating w)).

Definition __stash_event__ (a : ActorId) (e : event) (w : core) : bool * core :=
  match _activating w !! a with
  | None => (false, w)
  | Some act =>
      if kActivationStashCap <=? zlen (stash act)
      then (false, set_activating (<[a := Activation (init act) 1 (cancelling act) (stash act)]> (_activating w)) w)
      else (true, set_activating (<[a := Activation (init act) (deadline_ns act) (cancelling act) (stash act ++ [e])]> (_activating w)) w)
  end.

(** One event of [__receive_events__]. *)
Definition receive_event (e : event) (w : core) : core :=
  let w := log_fates [e] [] [] [] w in
  if negb (is_broadcast (dest e)) && __is_activating__ (dest e) w && negb (id e =? KillEvent) then
    let '(taken, s) := Ask.ask_try_deliver_reply (id e) (correlation_id e) (dest e) (payload e) (asks w) in
    let w := set_asks s w in
    if taken then dispose_event e w
    else
      let '(kept, w) := __stash_event__ (dest e) e w in
      if kept then w else dispose_event e w
  else route_event e w.

(** [__receive_events__]: a malformed event ends the batch. *)
Fixpoint __receive_events__ (es : list event) (w : core) : core :=
  match es with
  | [] => w
  | e :: es => if bucket_size e =? 0 then w else __receive_events__ es (receive_event e w)
  end.

(** * Activation *)

(** The first loop of [__pump_activations__]: finished frames are collected, a frame past its
    deadline has its scope cancelled, once. *)
Definition scan (p : list ActorId * core) (a : ActorId) : list ActorId * core :=
  let '(done_ids, w) := p in
  match _activating w !! a with
  | Some act =>
      match init act with
      | Some _ => (done_ids ++ [a], w)
      | None =>
          if negb (cancelling act) && negb (deadline_ns act =? 0) && (deadline_ns act <=? clock w) then
            let w := set_activating (<[a := Activation None (deadline_ns act) true (stash act)]> (_activating w)) w in
            (done_ids, match _actors w !! a with Some h => cancel_scope h w | None => w end)
          else p
      end
  | None => p
  end.

(** The second loop: one finished frame. *)
Definition activate (h : Z) (w : core) : core :=
  match objs w !! h with
  | Some o => set_objs (<[h := Actor (a_id o) (_alive o) true (a_beh o)]> (objs w)) w
  | None => log_fault h w
  end.

Definition finalize (a : ActorId) (w : core) : core :=
  match _activating w !! a with
  | None => w
  | Some act =>
      let dying := bool_decide (a ∈ _dying_with_frame w) in
      let w := set_dying (_dying_with_frame w ∖ {[ a ]}) (set_activating (delete a (_activating w)) w) in
      match _actors w !! a with
      | Some h =>
          if dying || negb (default false (init act))
          then removeActor a (fold_left (fun w e => dispose_event e w) (stash act) w)
          else fold_left (fun w e => route_event e w) (stash act) (activate h w)
      | None => fold_left (fun w e => dispose_event e w) (stash act) w
      end
  end.

Definition __pump_activations__ (w : core) : core :=
  let '(done_ids, w) := fold_left scan (walk_ids (dom (_activating w))) ([], w) in
  fold_left (fun w a => finalize a w) done_ids w.

(** * Callbacks and removal *)

Definition tick (p : ActorId * Z) (w : core) : core :=
  let '(a, h) := p in
  if bool_decide (a ∈ _actor_to_remove w) then w
  else match objs w !! h with
       | Some o => execs h (b_tick (a_beh o)) w
       | None => log_fault h w
       end.

Definition callbacks (w : core) : core := fold_left (fun w p => tick p w) (_callback_list w) w.

(** One pass over a batch of killed actors. *)
Definition reap_batch (w : core) : core :=
  fold_left (fun w a => removeActor a w) (walk_ids (_actor_to_remove w)) (set_to_remove ∅ w).

Fixpoint reap_loop (fuel : nat) (w : core) : core :=
  match fuel with
  | O => w
  | S fuel => if decide (_actor_to_remove w = ∅) then w else reap_loop fuel (reap_batch w)
  end.

Definition reap (w : core) : core := reap_loop (2 + base.size (_actors w)) w.

(** * The loop *)

(** What [listener::run] makes coroutines do: resume the [onInit] frame of an actor, which runs
    a script and may finish; run a script for an actor; an operation on the pending asks. *)
Inductive resumption :=
| RInit (a : ActorId) (cs : list call) (verdict : option bool)
| RScript (a : ActorId) (cs : list call)
| RAsk (o : Ask.op).

Definition resume (r : resumption) (w : core) : core :=
  match r with
  | RInit a cs verdict =>
      match _activating w !! a, _actors w !! a with
      | Some act, Some h =>
          match init act with
          | Some _ => w
          | None =>
              let w := execs h cs w in
              set_activating (alter (fun act => Activation verdict (deadline_ns act) (cancelling act) (stash act)) a (_activating w)) w
          end
      | _, _ => w
      end
  | RScript a cs => match _actors w !! a with Some h => execs h cs w | None => w end
  | RAsk o => set_asks (Ask.step o (asks w)) w
  end.

Record input := Input { i_now : Z; i_resumptions : list resumption; i_events : list event }.

(** The rest of a turn after the reception. *)
Definition turn_end (w : core) : bool * core :=
  let w := if decide (_actor_to_remove w = ∅) then callbacks w else w in
  if decide (_actor_to_remove w = ∅) then (true, w)
  else let w := reap w in (negb (bool_decide (_actors w = ∅)), w).

(** One pass of the loop of [__workflow__]; false when the loop is left. *)
Definition turn (i : input) (w : core) : bool * core :=
  let w := fold_left (fun w r => resume r w) (i_resumptions i) (set_clock (i_now i) w) in
  if decide (_activating w = ∅) then turn_end (__receive_events__ (i_events i) w)
  else
    let w := __pump_activations__ w in
    if decide (_actors w = ∅) then (false, w) else turn_end (__receive_events__ (i_events i) w).

Fixpoint __workflow__ (ins : list input) (w : core) : core :=
  match ins with
  | [] => w
  | i :: ins => let '(go, w) := turn i w in if go then __workflow__ ins w else w
  end.

(** * Start *)

(** The factories of [Main::start_thread] in order, until an actor is refused: whether the
    actor is a service, whether it has the default handlers, its constructor, its behaviour. *)
Record factory := Factory { f_svc : option Z; f_defaults : bool; f_ctor : list call; f_beh : behaviour }.

Fixpoint create_all (fs : list factory) (w : core) : bool * core :=
  match fs with
  | [] => (true, w)
  | f :: fs =>
      let '(h, w) := construct (f_svc f) (f_defaults f) (f_beh f) w in
      match append None h (execs h (f_ctor f) w) with
      | (Some _, w) => create_all fs w
      | (None, w) => (false, w)
      end
  end.

(** [__init__actors__]: the [onInit()] of every actor the core has by then. *)
Fixpoint init_loop (hs : list Z) (w : core) : bool * core :=
  match hs with
  | [] => (true, w)
  | h :: hs =>
      match objs w !! h with
      | None => (true, log_fault h w)
      | Some o =>
          let w := execs h (b_init (a_beh o)) w in
          match b_out (a_beh o) with
          | ReadyTrue => init_loop hs w
          | ReadyFalse => (false, w)
          | Suspended => init_loop hs (__begin_activation__ h w)
          end
      end
  end.

Definition __init__actors__ (w : core) : bool * core :=
  init_loop (omap (fun a => _actors w !! a) (walk_ids (dom (_actors w)))) w.

(** [None] when the core does not start. *)
Definition start (index services : Z) (fs : list factory) : option core :=
  match fs with
  | [] => None
  | _ =>
      let '(created, w) := create_all fs (core_new index services) in
      if created then let '(good, w) := __init__actors__ w in if good then Some w else None
      else None
  end.

End Workflow.

(** * Removal keeps the invariant *)

Section Removal.
Context `{Platform}.
Implicit Types (w : core) (X : gset ActorId).

(** An actor leaves the table, then its object and its id go. *)
Lemma leave_ok X w a h :
  ok ({[ a ]} ∪ X) w -> _actors w !! a = Some h -> _activating w !! a = None ->
  (forall t, target (_router w) t a = None) -> _actor_callbacks w !! a = None ->
  ok X (set_actors (delete a (_actors w)) w) /\ unreferenced h (set_actors (delete a (_actors w)) w).
Proof.
  intros Hw Ha Hact Ht Hc. destruct (ok_actor _ w Hw a h Ha) as (_ & o & Eo & Hoa & _).
  assert (ok X (set_actors (delete a (_actors w)) w)) as Hok.
  { destruct Hw as [I1 I2 I3 I4 I5 I6 I7 I8 I9 I10 I11 I12 I13 I14]. split; simpl; try done.
    - intros b x Hx. apply lookup_delete_Some in Hx as [Hne Hx]. destruct (I3 b x Hx) as (Hv & p & Ep & Hp & Hd). split; [done|].
      exists p. split_and!; [done|done|]. intros Hal. destruct (Hd Hal) as [?|[?|?]]; [auto|auto|set_solver].
    - intros b Hb. rewrite dom_delete_L. apply elem_of_difference. split; [auto|]. intros ->%elem_of_singleton.
      by apply not_elem_of_dom in Hact.
    - intros b Hb. apply I11. rewrite dom_delete_L in Hb. set_solver.
    - intros b Hb. apply I14. rewrite dom_delete_L in Hb. set_solver. }
  split; [done|]. apply (unreferenced_intro X _ h o); simpl; try done; [by rewrite Hoa|by rewrite Hoa|].
  rewrite Hoa, lookup_delete_eq. done.
Qed.

Lemma release_ok X w a :
  ok X w -> nb_service w < _service_id a -> _core_id a = _index w -> (a ∉ dom (_actors w)) ->
  ok X (set_ids (ServiceIdPool.release (_service_id a) (_ids w)) w).
Proof.
  intros [I1 I2 I3 I4 I5 I6 I7 I8 [I9 I9'] I10 I11 I12 I13 I14] Hs Hi Ha.
  assert (pool_ok (ServiceIdPool.release (_service_id a) (_ids w)) /\
          forall x, free (ServiceIdPool.release (_service_id a) (_ids w)) x = true -> free (_ids w) x = true \/ x = _service_id a) as [Hp Hf].
  { destruct (decide (_service_id a < kBits)).
    - destruct (release_spec (_service_id a) (_ids w) I9) as [Hp Hf]; [lia|]. split; [done|]. intros x Hx.
      destruct (decide (x < 0)); [by rewrite free_neg in Hx|]. rewrite Hf in Hx by lia. apply orb_true_iff in Hx as [?|Hx]; [by left|].
      right. by apply Z.eqb_eq.
    - unfold ServiceIdPool.release. destruct (Z.leb_spec kBits (_service_id a)); [|lia]. auto. }
  split; simpl; try done.
  - intros s Hx. destruct (Hf s Hx) as [?| ->]; [by apply I10|done].
  - intros b Hb. destruct (free _ (_service_id b)) eqn:E; [|done]. destruct (Hf _ E) as [E'|E']; [by rewrite I11 in E'|].
    destruct Ha. assert (b = a) as <-; [|done]. pose proof (I14 b Hb) as Hib. destruct a as [sa ca], b as [sb cb]. simpl in *. congruence.
Qed.

Lemma ok_weaken X Y w : X ⊆ Y -> ok X w -> ok Y w.
Proof.
  intros HXY [I1 I2 I3 I4 I5 I6 I7 I8 I9 I10 I11 I12 I13 I14]. split; try done. intros a h Ha.
  destruct (I3 a h Ha) as (Hv & o & Eo & Hoa & Hd). split; [done|]. exists o. split_and!; [done|done|].
  intros Hal. destruct (Hd Hal) as [?|[?|?]]; auto.
Qed.

(** Nobody is left to remove under an id that is no actor's. *)
Lemma ok_absent X w a : ok ({[ a ]} ∪ X) w -> _actors w !! a = None -> ok X w.
Proof.
  intros [I1 I2 I3 I4 I5 I6 I7 I8 I9 I10 I11 I12 I13 I14] Ha. split; try done. intros b h Hb.
  destruct (I3 b h Hb) as (Hv & o & Eo & Hoa & Hd). split; [done|]. exists o. split_and!; [done|done|].
  intros Hal. destruct (Hd Hal) as [?|[?|[->%elem_of_singleton|?]%elem_of_union]]; auto. congruence.
Qed.

Lemma teardown_ok X w a : ok ({[ a ]} ∪ X) w -> _activating w !! a = None -> ok X (teardown a w).
Proof.
  intros Hw Hact. unfold teardown. destruct (unregister_good _ w a Hw) as ([H1 Hg] & H2 & H3 & H4 & H5).
  set (w1 := unregisterEvents a (__unregisterCallback a w)) in *. destruct (_actors w1 !! a) as [h|] eqn:Ea; [|by eapply ok_absent].
  assert (_activating w1 !! a = None) as Hact1.
  { destruct (_activating w1 !! a) as [act|] eqn:E; [|done].
    assert (_activating w1 = _activating w) as Eq by (unfold w1, unregisterEvents, __unregisterCallback; by destruct (_actor_callbacks w !! a)).
    congruence. }
  destruct (asks_good _ w1 (Ask.cancel h (asks w1)) H1) as [H6 _].
  destruct (leave_ok X (set_asks (Ask.cancel h (asks w1)) w1) a h H6 Ea Hact1 H2 H3) as [H7 Hu].
  change (set_actors (delete a (_actors (set_asks (Ask.cancel h (asks w1)) w1))) (set_asks (Ask.cancel h (asks w1)) w1))
    with (set_actors (delete a (_actors w1)) (cancel_scope h w1)) in H7, Hu.
  pose proof (destroy_ok X h _ H7 Hu) as H8. set (w2 := set_actors (delete a (_actors w1)) (cancel_scope h w1)) in *.
  assert (fixed (destroy_actor h w2) = fixed w2) as Hfix.
  { unfold destroy_actor. destruct (objs w2 !! h); [|done]. apply (lasts_fixed (b_dtor (a_beh _)) w2). }
  unfold fixed in Hfix. injection Hfix as _ _ _ Hfa _ _ _ Hfi Hfn _ _.
  destruct (Z.ltb_spec (nb_service (destroy_actor h w2)) (_service_id a)); [|done].
  apply release_ok; [done|done| |].
  - rewrite Hfi. unfold w2. simpl. apply (ok_index _ w1 H1). by apply elem_of_dom.
  - rewrite Hfa. unfold w2. simpl. rewrite dom_delete_L. set_solver.
Qed.

Lemma remove_ok X w a : ok ({[ a ]} ∪ X) w -> ok X (removeActor a w).
Proof.
  intros Hw. unfold removeActor. destruct (_activating w !! a) as [act|] eqn:Ea; [|by apply teardown_ok].
  set (w1 := match _actors w !! a with Some h => cancel_scope h w | None => w end).
  assert (ok ({[ a ]} ∪ X) w1) as H1 by (unfold w1; destruct (_actors w !! a); [apply (asks_good _ w _ Hw)|done]).
  assert (_activating w1 = _activating w) as E1 by (unfold w1; by destruct (_actors w !! a)).
  destruct (init act) as [v|].
  - apply teardown_ok; [|simpl; apply lookup_delete_eq].
    destruct H1 as [I1 I2 I3 I4 I5 I6 I7 I8 I9 I10 I11 I12 I13 I14]. split; simpl; try done.
    + intros b h Hb. destruct (I3 b h Hb) as (Hv & o & Eo & Hoa & Hd). split; [done|]. exists o. split_and!; [done|done|].
      intros Hal. destruct (Hd Hal) as [?|[?|?]]; [auto| |auto]. destruct (decide (b = a)); set_solver.
    + rewrite dom_delete_L. set_solver.
    + rewrite dom_delete_L. set_solver.
  - destruct H1 as [I1 I2 I3 I4 I5 I6 I7 I8 I9 I10 I11 I12 I13 I14]. split; simpl; try done.
    + intros b h Hb. destruct (I3 b h Hb) as (Hv & o & Eo & Hoa & Hd). split; [done|]. exists o. split_and!; [done|done|].
      intros Hal. destruct (Hd Hal) as [?|[?|?]]; [auto|set_solver|]. destruct (decide (b = a)); set_solver.
    + rewrite E1 in *. apply elem_of_dom_2 in Ea. set_solver.
Qed.

End Removal.

(** * Delivery keeps the invariant *)

Section Delivery.
Context `{Platform} `{!PlatformLaws}.
Implicit Types (w : core) (X : gset ActorId).

Lemma script_ok X w h cs : ok X w -> calls_ok (nb_service w) cs -> safe X w (execs h cs w).
Proof. intros Hw Hcs. apply execs_ok; [|done|done]. apply Forall_true. intros c X' h' w'. apply exec_ok. Qed.

Lemma safe_refl X w : ok X w -> safe X w w.
Proof. intros Hw. right. by apply good_refl. Qed.

Lemma safe_good X w1 w2 w3 : good X w1 w2 -> safe X w2 w3 -> safe X w1 w3.
Proof. intros H1 [H2|H2]; [by left|right; by eapply good_trans]. Qed.

Lemma safe_then X w1 w2 w3 :
  safe X w1 w2 -> (rejected (log w2) = true -> rejected (log w3) = true) -> (good X w1 w2 -> safe X w2 w3) -> safe X w1 w3.
Proof. intros [H1|H1] Hr Hs; [left; auto|by eapply safe_good; [exact H1|auto]]. Qed.

(** Writing the logs of the router changes nothing else. *)
Lemma log_good X w l :
  ok X w -> faults l = faults (log w) -> rejected l = rejected (log w) -> arrived l = arrived (log w) -> routed l = routed (log w) ->
  disposed l = disposed (log w) -> lost l = lost (log w) -> good X w (set_log l w).
Proof.
  intros [I1 I2 I3 I4 I5 I6 I7 I8 I9 I10 I11 [I12 I12'] I13 I14] E1 E2 E3 E4 E5 E6. split; split; simpl; try done; try (intros; by left).
  - split; congruence.
  - intros h o Ho. exists o. auto.
Qed.

Lemma delivered_good X w h v : ok X w -> good X w (log_delivered h v w).
Proof. intros Hw. by apply log_good. Qed.

Lemma default_on_ok X w h e : ok X w -> good X w (default_on h e w).
Proof.
  intros Hw. unfold default_on. destruct (_ =? KillEvent); [auto with actors|]. destruct (_ =? SignalEvent).
  { destruct (_ || _); auto with actors. }
  destruct (objs w !! h) as [o|]; [|repeat (destruct (_ =? _)); auto with actors].
  destruct (_ =? UnregisterCallbackEvent); [by apply (unregisterCallback_good X w (a_id o) Hw)|].
  destruct (_ =? PingEvent); [destruct (_ || _)|destruct (_ =? RequireEvent)]; auto with actors.
Qed.

Lemma default_on_rej h e w : rejected (log (default_on h e w)) = rejected (log w).
Proof.
  unfold default_on. destruct (_ =? KillEvent); [apply kill_rej|]. destruct (_ =? SignalEvent).
  { destruct (_ || _); [apply kill_rej|done]. }
  destruct (objs w !! h) as [o|]; [|by repeat (destruct (_ =? _))].
  destruct (_ =? UnregisterCallbackEvent); [unfold __unregisterCallback; by destruct (_actor_callbacks w !! a_id o)|].
  destruct (_ =? PingEvent); [by destruct (_ || _)|]. by destruct (_ =? RequireEvent).
Qed.

Lemma actor_on_rej h e w : rejected (log w) = true -> rejected (log (actor_on h e w).2) = true.
Proof.
  intros Hw. unfold actor_on. destruct (objs w !! h) as [o|]; [|done]. destruct (b_on (a_beh o) (id e)) as [[cs r]|].
  - assert (rejected (log (execs h cs (log_delivered h (payload e) w))) = true) by by apply execs_rej. by destruct (_ && _).
  - simpl. by rewrite default_on_rej.
Qed.

Lemma actor_on_ok X w h o e : ok X w -> objs w !! h = Some o -> safe X w (actor_on h e w).2.
Proof.
  intros Hw E. unfold actor_on. rewrite E. pose proof (delivered_good X w h (payload e) Hw) as H1.
  destruct (ok_obj X w Hw h o E) as [_ (_ & _ & Hon)]. specialize (Hon (id e)).
  destruct (b_on (a_beh o) (id e)) as [[cs r]|]; simpl.
  - pose proof (script_ok X (log_delivered h (payload e) w) h cs (proj1 H1) Hon) as H2.
    assert (safe X w (execs h cs (log_delivered h (payload e) w))) as H3 by by eapply safe_good.
    destruct (_ && _); [|done]. eapply safe_then; [exact H3|done|]. intros H4. right. apply push_good. by destruct H4.
  - right. eapply good_trans; [exact H1|]. apply default_on_ok. by destruct H1.
Qed.

Lemma disposer_good X w t : ok X w -> good X w (set_core_router (find_disposer t (_router w)).2 w).
Proof.
  intros Hw. destruct (find_disposer_spec t _ (ok_router X w Hw)) as (_ & Hr & He & _). apply router_good; [done|done|].
  intros t' a h. unfold target. rewrite He. apply (target_named X w t' a h Hw).
Qed.

Lemma route_ok X w e : ok X w -> safe X w (route nontrivial walk_handlers e w).2.
Proof.
  intros Hw. apply (route_rule nontrivial walk_handlers (safe X w) (fun h w' => rejected (log w') = true \/ exists o, objs w' !! h = Some o)).
  - intros hs [a h] Hp. rewrite walk_handlers_all in Hp. by apply elem_of_map_to_list in Hp.
  - by apply safe_refl.
  - intros t a h Ht. right. destruct (ok_target X w Hw t a h Ht) as (o & ? & _). eauto.
  - intros h e' w' [Hr|Hg] Hh _.
    { split; [left; by apply actor_on_rej|]. intros h' _. left. by apply actor_on_rej. }
    destruct Hh as [Hr|[o Ho]]; [destruct Hg as [Hok _]; destruct (ok_log X w' Hok); congruence|].
    pose proof (actor_on_ok X w' h o e' (proj1 Hg) Ho) as Hs. split; [by eapply safe_good|]. intros h' Hh'.
    destruct Hs as [Hr|[_ Hg']]; [by left|right]. destruct Hh' as [Hr|[o' Ho']]; [destruct Hg as [Hok _]; destruct (ok_log X w' Hok); congruence|].
    destruct (g_objs _ _ Hg' h' o' Ho') as (o2 & ? & _). eauto.
  - intros e' w' [Hr|Hg]; [by left|]. right. eapply good_trans; [exact Hg|]. apply log_good; try done. by destruct Hg.
  - intros w' [Hr|Hg]; [by left|]. right. eapply good_trans; [exact Hg|]. apply disposer_good. by destruct Hg.
Qed.

Lemma dispose_ok X w e : ok X w -> good X w (dispose nontrivial e w).
Proof.
  intros Hw. unfold dispose. pose proof (disposer_good X w (id e) Hw) as H1. simpl in *.
  destruct (find_disposer (id e) (_router w)) as [found r]. simpl in *. destruct (found && nontrivial (id e)); [|done].
  eapply good_trans; [exact H1|]. apply log_good; try done. by destruct H1.
Qed.

End Delivery.

(** * The fate of received events *)

Section Fates.
Context `{Platform} `{!PlatformLaws} (nb : Z).
Implicit Types (w : core) (X : gset ActorId) (Y : ActorId -> Prop) (L : list event).

(** The events the gate holds back: unicast ones other than [KillEvent]. *)
Definition business (e : event) : bool := negb (is_broadcast (dest e)) && negb (id e =? KillEvent).

(** The business events of a log that are for [a]. *)
Definition sel (a : ActorId) (l : list event) : list event := filter (fun e => business e = true /\ dest e = a) l.

(** The other events of a log: broadcasts, and [KillEvent]s, which the gate lets through. *)
Definition ungated (l : list event) : list event := filter (fun e => business e = false) l.

Definition stash_of (a : ActorId) (m : gmap ActorId activation) : list event :=
  match m !! a with Some act => stash act | None => [] end.

Definition stashes (m : gmap ActorId activation) : list event := map_to_list m ≫= (fun p => stash p.2).

(** Business events leave the core for an actor in the order they arrived, the other events in
    the order of theirs, and every received event was routed, disposed of, is stashed, or is about to be replayed ([L]). *)
Record fates L w : Prop := Fates {
  f_order a : sublist (sel a (routed (log w)) ++ stash_of a (_activating w) ++ sel a L) (sel a (arrived (log w)));
  f_fate : arrived (log w) ≡ₚ routed (log w) ++ disposed (log w) ++ stashes (_activating w) ++ L;
  f_stash a e : e ∈ stash_of a (_activating w) -> business e = true /\ dest e = a;
  f_lost : lost (log w) = [];
  f_through : sublist (ungated (routed (log w)) ++ ungated L) (ungated (arrived (log w)));
}.

(** Unfinished [onInit] frames, but for those in [Y]. *)
Definition pending (Y : ActorId -> Prop) w : Prop :=
  forall a act, _activating w !! a = Some act -> init act = None \/ Y a.

Lemma flow_sel_app a l k : sel a (l ++ k) = sel a l ++ sel a k.
Proof. apply filter_app. Qed.

Lemma ungated_business l : (forall e, e ∈ l -> business e = true) -> ungated l = [].
Proof.
  unfold ungated. induction l as [|e l IH]; intros Hl; [done|]. rewrite filter_cons_False; [apply IH; intros x Hx; apply Hl; by right|].
  rewrite (Hl e) by (by left). done.
Qed.

Lemma flow_sel_all a l : (forall e, e ∈ l -> business e = true /\ dest e = a) -> sel a l = l.
Proof. apply filter_all. Qed.

Lemma flow_sel_none a l : (forall e, e ∈ l -> ~ (business e = true /\ dest e = a)) -> sel a l = [].
Proof. apply filter_none. Qed.

Lemma stashes_insert m a act : stashes (<[a := act]> m) ≡ₚ stash act ++ stashes (delete a m).
Proof.
  unfold stashes. rewrite <- insert_delete_eq, map_to_list_insert by apply lookup_delete_eq. done.
Qed.

Lemma stashes_lookup m a act : m !! a = Some act -> stashes m ≡ₚ stash act ++ stashes (delete a m).
Proof. intros E. rewrite <- (stashes_insert m a act). by rewrite insert_id. Qed.

(** New activations have empty stashes. *)
Lemma stashes_grow (m m' : gmap ActorId activation) :
  (forall a act, m !! a = Some act -> m' !! a = Some act) ->
  (forall a act, m' !! a = Some act -> m !! a = Some act \/ stash act = []) -> stashes m' ≡ₚ stashes m.
Proof.
  revert m. induction m' as [|a act m' Hn IH] using map_ind; intros m H1 H2.
  { assert (m = ∅) as ->; [|done]. apply map_empty. intros a. destruct (m !! a) as [act|] eqn:E; [|done]. by apply H1 in E. }
  rewrite stashes_insert, delete_id by done. destruct (m !! a) as [act0|] eqn:E.
  - pose proof (H1 a act0 E) as E'. rewrite lookup_insert_eq in E'. injection E' as <-. rewrite (stashes_lookup m a act E). f_equiv.
    apply IH.
    + intros b x Hb. apply lookup_delete_Some in Hb as [Hne Hb]. apply H1 in Hb. by rewrite lookup_insert_ne in Hb.
    + intros b x Hb. assert (b <> a) by congruence. rewrite lookup_delete_ne by done. apply H2. by rewrite lookup_insert_ne.
  - destruct (H2 a act) as [?| ->]; [apply lookup_insert_eq|congruence|]. simpl. apply IH.
    + intros b x Hb. assert (b <> a) by congruence. apply H1 in Hb. by rewrite lookup_insert_ne in Hb.
    + intros b x Hb. apply H2. rewrite lookup_insert_ne; [done|]. congruence.
Qed.

Lemma stash_of_grow (m m' : gmap ActorId activation) a :
  (forall a act, m !! a = Some act -> m' !! a = Some act) ->
  (forall a act, m' !! a = Some act -> m !! a = Some act \/ stash act = []) -> stash_of a m' = stash_of a m.
Proof.
  intros H1 H2. unfold stash_of. destruct (m !! a) as [act|] eqn:E; [by rewrite (H1 a act E)|].
  destruct (m' !! a) as [act|] eqn:E'; [|done]. destruct (H2 a act E') as [?|?]; [congruence|done].
Qed.

Lemma fates_grows L w w' : grows w w' -> fates L w -> fates L w'.
Proof.
  intros [A1 A2 A3 A4 A5 A6 A7 A8 A9 (B1 & B2 & B3 & B4)] [F1 F2 F3 F4 F5].
  assert (forall a act, _activating w' !! a = Some act -> _activating w !! a = Some act \/ stash act = []) as H2.
  { intros a act Ha. destruct (A8 a act Ha) as [?|[_ ?]]; auto. }
  split; rewrite ?B1, ?B2, ?B3, ?B4; try done.
  - intros a. by rewrite (stash_of_grow (_activating w) _ a A7 H2).
  - by rewrite (stashes_grow (_activating w) _ A7 H2).
  - intros a e. rewrite (stash_of_grow (_activating w) _ a A7 H2). apply F3.
Qed.

Lemma pending_grows Y w w' : grows w w' -> pending Y w -> pending Y w'.
Proof.
  intros Hg Hp a act Ha. destruct (g_new_activation _ _ Hg a act Ha) as [Ha'|[? _]]; [|by left]. by apply (Hp a act).
Qed.

(** The state of a core between two steps; [nb] is the number of services. *)
Record inv X Y L w : Prop := Inv { inv_ok : ok X w; inv_fates : fates L w; inv_pending : pending Y w; inv_nb : nb_service w = nb }.

Definition fine X Y L w : Prop := rejected (log w) = true \/ inv X Y L w.

Lemma inv_good X Y L w w' : inv X Y L w -> good X w w' -> inv X Y L w'.
Proof.
  intros [H1 H2 H3 H4] [Hok Hg]. split; [done|by eapply fates_grows|by eapply pending_grows|].
  by rewrite (proj1 (g_const _ _ Hg)).
Qed.

Lemma inv_weaken X Y Y' L w : (forall a, a ∈ dom (_activating w) -> Y a -> Y' a) -> inv X Y L w -> inv X Y' L w.
Proof.
  intros HY [H1 H2 H3 H4]. split; [done|done| |done]. intros a act Ha. destruct (H3 a act Ha); [by left|right].
  apply HY; [by eapply elem_of_dom_2|done].
Qed.

Lemma fine_safe X Y L w w' : inv X Y L w -> safe X w w' -> fine X Y L w'.
Proof.
  intros Hw [Hr|Hg]; [by left|right]. by eapply inv_good.
Qed.

(** Routing an event that was waiting for it. *)
Lemma route_event_ok X Y L w e :
  inv X Y (e :: L) w -> (business e = true -> stash_of (dest e) (_activating w) = []) ->
  rejected (log (route_event e w)) = true \/
  inv X Y L (route_event e w) /\ forall a, stash_of a (_activating (route_event e w)) = stash_of a (_activating w).
Proof.
  intros [H1 [F1 F2 F3 F4 F5] H3 H4] Hs. unfold route_event. set (w1 := log_fates [] [e] [] [] w).
  assert (ok X w1) as Hok by (destruct H1 as [I1 I2 I3 I4 I5 I6 I7 I8 I9 I10 I11 I12 I13 I14]; by split).
  assert (inv X Y L w1) as Hinv.
  { split; [done| |done|done]. split; simpl; rewrite ?app_nil_r; try done.
    - intros a. specialize (F1 a). rewrite flow_sel_app. destruct (decide (business e = true /\ dest e = a)) as [D|D].
      + destruct D as [Hb <-]. rewrite (Hs Hb) in *. unfold sel in *. rewrite !filter_cons_True in F1 |- * by done.
        rewrite <- !app_assoc. simpl in *. done.
      + unfold sel in *. rewrite filter_cons_False in F1 |- * by done. by rewrite app_nil_r.
    - rewrite F2. solve_Permutation.
    - unfold ungated in *. rewrite filter_app. rewrite !filter_cons in *. case_decide; simpl in *; rewrite <- app_assoc; done. }
  destruct (route_ok X w1 (with_alive false e) Hok) as [Hr|Hg]; [by left|].
  destruct (fine_safe X Y L w1 _ Hinv (or_intror Hg)) as [?|?]; [by left|right; split; [done|]].
  intros a. destruct Hg as [_ Hg]. apply (stash_of_grow (_activating w1)); [apply (g_activating _ _ Hg)|].
  intros b act Hb. destruct (g_new_activation _ _ Hg b act Hb) as [?|[_ ?]]; auto.
Qed.

Lemma dispose_event_ok X Y L w e : inv X Y (e :: L) w -> inv X Y L (dispose_event e w).
Proof.
  intros [H1 [F1 F2 F3 F4 F5] H3 H4]. unfold dispose_event. set (w1 := log_fates [] [] [e] [] w).
  assert (ok X w1) as H1' by (destruct H1 as [I1 I2 I3 I4 I5 I6 I7 I8 I9 I10 I11 I12 I13 I14]; by split).
  apply (inv_good X Y L w1); [|by apply dispose_ok]. split; [done| |done|done]. split; simpl; rewrite ?app_nil_r; try done.
  - intros a. specialize (F1 a). etrans; [|exact F1]. apply sublist_app; [done|]. apply sublist_app; [done|].
    unfold sel. rewrite filter_cons. case_decide; [by apply sublist_cons|done].
  - rewrite F2. solve_Permutation.
  - etrans; [|exact F5]. apply sublist_app; [done|]. unfold ungated. rewrite filter_cons. case_decide; [by apply sublist_cons|done].
Qed.

(** ** What was rejected stays rejected *)

Lemma route_rej e w : rejected (log w) = true -> rejected (log (route nontrivial walk_handlers e w).2) = true.
Proof.
  intros Hw. apply (route_rule nontrivial walk_handlers (fun w => rejected (log w) = true) (fun _ _ => True)); try done.
  - intros hs [a h] Hp. rewrite walk_handlers_all in Hp. by apply elem_of_map_to_list in Hp.
  - intros h e' w' Hw' _ _. split; [by apply actor_on_rej|done].
Qed.

Lemma dispose_event_same e w :
  rejected (log (dispose_event e w)) = rejected (log w) /\ _activating (dispose_event e w) = _activating w.
Proof. unfold dispose_event, dispose. destruct (find_disposer _ _) as [found r]. by destruct (found && _). Qed.

Lemma disposes_same es w :
  rejected (log (fold_left (fun w e => dispose_event e w) es w)) = rejected (log w) /\
  _activating (fold_left (fun w e => dispose_event e w) es w) = _activating w.
Proof.
  revert w. induction es as [|e es IH]; intros w; [done|]. simpl. destruct (IH (dispose_event e w)) as [-> ->]. apply dispose_event_same.
Qed.

Lemma receive_event_rej e w : rejected (log w) = true -> rejected (log (receive_event e w)) = true.
Proof.
  intros Hw. unfold receive_event. destruct (_ && _); [|by apply route_rej].
  destruct (ask_try_deliver_reply _ _ _ _ _) as [taken s]. destruct taken; [by rewrite (proj1 (dispose_event_same _ _))|].
  unfold __stash_event__. destruct (_activating _ !! dest e) as [act|]; [|by rewrite (proj1 (dispose_event_same _ _))].
  destruct (kActivationStashCap <=? _); [by rewrite (proj1 (dispose_event_same _ _))|done].
Qed.

(** ** Reception *)

Lemma arrive_ok X Y w e : inv X Y [] w -> inv X Y [e] (log_fates [e] [] [] [] w).
Proof.
  intros [H1 [F1 F2 F3 F4 F5] H3 H4]. split; [|split|done|done]; simpl; rewrite ?app_nil_r; try done.
  - destruct H1 as [I1 I2 I3 I4 I5 I6 I7 I8 I9 I10 I11 I12 I13 I14]. by split.
  - intros a. specialize (F1 a). rewrite flow_sel_app, app_assoc. apply sublist_app; [|done]. by rewrite app_nil_r in F1.
  - rewrite F2, app_nil_r. solve_Permutation.
  - unfold ungated. rewrite filter_app. apply sublist_app; [|done]. by rewrite app_nil_r in F5.
Qed.

(** Changing an activation without touching its stash. *)
Lemma replace_activation_ok X Y L w a act act' :
  inv X Y L w -> _activating w !! a = Some act -> stash act' = stash act -> (init act' = init act \/ Y a) ->
  inv X Y L (set_activating (<[a := act']> (_activating w)) w).
Proof.
  intros [H1 [F1 F2 F3 F4 F5] H3 H4] E Hs Hi.
  assert (forall b, stash_of b (<[a := act']> (_activating w)) = stash_of b (_activating w)) as Hst.
  { intros b. unfold stash_of. destruct (decide (b = a)) as [->|]; [by rewrite lookup_insert_eq, E|by rewrite lookup_insert_ne]. }
  assert (dom (<[a := act']> (_activating w)) = dom (_activating w)) as Hd.
  { rewrite dom_insert_L. apply elem_of_dom_2 in E. set_solver. }
  split; [|split| |done]; simpl; try done.
  - destruct H1 as [I1 I2 I3 I4 I5 I6 I7 I8 I9 I10 I11 I12 I13 I14]. split; simpl; rewrite ?Hd; done.
  - intros b. by rewrite Hst.
  - rewrite stashes_insert, Hs, <- (stashes_lookup _ a act E). done.
  - intros b e. rewrite Hst. apply F3.
  - intros b x Hx. simpl in Hx. apply lookup_insert_Some in Hx as [[<- <-]|[_ Hx]]; [|by apply H3].
    destruct Hi as [->|?]; [by apply H3|by right].
Qed.

Lemma update_activation_ok X Y L w a act act' :
  inv X Y L w -> _activating w !! a = Some act -> stash act' = stash act -> init act' = init act ->
  inv X Y L (set_activating (<[a := act']> (_activating w)) w).
Proof. intros Hw E Hs Hi. eapply replace_activation_ok; [done|done|done|by left]. Qed.

Lemma stash_event_ok X Y w e :
  inv X Y [e] w -> business e = true ->
  let '(kept, w') := __stash_event__ (dest e) e w in if kept then inv X Y [] w' else inv X Y [e] w'.
Proof.
  intros Hw Hb. unfold __stash_event__. destruct (_activating w !! dest e) as [act|] eqn:E; [|done].
  destruct (kActivationStashCap <=? zlen (stash act)); [by eapply update_activation_ok|].
  destruct Hw as [H1 [F1 F2 F3 F4 F5] H3 H4].
  assert (forall b, stash_of b (<[dest e := Activation (init act) (deadline_ns act) (cancelling act) (stash act ++ [e])]> (_activating w)) =
            stash_of b (_activating w) ++ sel b [e]) as Hst.
  { intros b. unfold stash_of. destruct (decide (b = dest e)) as [->|Hne].
    - rewrite lookup_insert_eq, E. rewrite (flow_sel_all (dest e) [e]); [done|]. intros x ->%list_elem_of_singleton. done.
    - rewrite lookup_insert_ne by done. rewrite (flow_sel_none b [e]); [by rewrite app_nil_r|]. intros x ->%list_elem_of_singleton. naive_solver. }
  split; [|split| |done]; simpl; try done.
  - destruct H1 as [I1 I2 I3 I4 I5 I6 I7 I8 I9 I10 I11 I12 I13 I14]. split; simpl; try done; rewrite dom_insert_L; apply elem_of_dom_2 in E; set_solver.
  - intros b. rewrite Hst. rewrite app_nil_r. apply F1.
  - rewrite F2, stashes_insert, (stashes_lookup _ _ act E). simpl. solve_Permutation.
  - intros b x. rewrite Hst, elem_of_app. intros [Hx|Hx]; [by apply F3|]. unfold sel in Hx. by apply list_elem_of_filter in Hx as [? _].
  - etrans; [|exact F5]. by apply sublist_app, sublist_nil_l.
  - intros b x Hx. simpl in Hx. apply lookup_insert_Some in Hx as [[<- <-]|[_ Hx]]; [by apply (H3 _ act)|by apply H3].
Qed.

Lemma asks_inv X Y L w s : inv X Y L w -> inv X Y L (set_asks s w).
Proof.
  intros Hw. eapply inv_good; [done|]. apply asks_good, (inv_ok _ _ _ _ Hw).
Qed.

Lemma receive_event_ok X Y w e : inv X Y [] w -> fine X Y [] (receive_event e w).
Proof.
  intros Hw. apply (arrive_ok X Y w e) in Hw. unfold receive_event. set (w1 := log_fates [e] [] [] [] w) in *.
  destruct (negb (is_broadcast (dest e)) && __is_activating__ (dest e) w1 && negb (id e =? KillEvent)) eqn:Eg.
  - apply andb_true_iff in Eg as [[E1 E2]%andb_true_iff E3].
    assert (business e = true) as Hb by (unfold business; by rewrite E1, E3).
    destruct (ask_try_deliver_reply _ _ _ _ _) as [taken s]. apply (asks_inv X Y [e] w1 s) in Hw.
    destruct taken; [right; by apply dispose_event_ok|]. pose proof (stash_event_ok X Y _ e Hw Hb) as Hs.
    destruct (__stash_event__ _ _ _) as [kept w2]. right. destruct kept; [done|by apply dispose_event_ok].
  - destruct (route_event_ok X Y [] w1 e Hw) as [?|[? _]]; [|by left|by right].
    intros Hb. unfold business in Hb. apply andb_true_iff in Hb as [Hb1 Hb2]. rewrite Hb1, Hb2, andb_true_r in Eg. simpl in Eg.
    unfold stash_of. apply bool_decide_eq_false in Eg. apply not_elem_of_dom in Eg. by rewrite Eg.
Qed.

Lemma receive_events_ok X Y es w : fine X Y [] w -> fine X Y [] (__receive_events__ es w).
Proof.
  revert w. induction es as [|e es IH]; intros w Hw; simpl; [done|]. destruct (bucket_size e =? 0); [done|]. apply IH.
  destruct Hw as [Hr|Hw]; [left; by apply receive_event_rej|by apply receive_event_ok].
Qed.

(** ** Activation and removal *)

Lemma disposes_ok X Y L es w : inv X Y (es ++ L) w -> inv X Y L (fold_left (fun w e => dispose_event e w) es w).
Proof. revert w. induction es as [|e es IH]; intros w Hw; [done|]. simpl. by apply IH, dispose_event_ok. Qed.

Lemma routes_rej es w : rejected (log w) = true -> rejected (log (fold_left (fun w e => route_event e w) es w)) = true.
Proof. revert w. induction es as [|e es IH]; intros w Hw; [done|]. simpl. apply IH. by apply route_rej. Qed.

(** Replaying the stash of an actor that is not activating any more. *)
Lemma replay_ok X Y a es w :
  inv X Y es w -> stash_of a (_activating w) = [] -> (forall e, e ∈ es -> dest e = a) ->
  fine X Y [] (fold_left (fun w e => route_event e w) es w).
Proof.
  revert w. induction es as [|e es IH]; intros w Hw Hs Hd; [by right|]. simpl.
  destruct (route_event_ok X Y es w e Hw) as [Hr|[Hw' Hs']]; [intros _; by rewrite (Hd e) by (by left)|left; by apply routes_rej|].
  apply IH; [done|by rewrite Hs'|]. intros x Hx. apply Hd. by right.
Qed.

Lemma activate_ok X Y L w a h : inv X Y L w -> _actors w !! a = Some h -> inv X Y L (activate h w).
Proof.
  intros Hw Ha. pose proof (inv_ok _ _ _ _ Hw) as H1. destruct (ok_actor X w H1 a h Ha) as (_ & o & Eo & _). unfold activate. rewrite Eo.
  eapply inv_good; [exact Hw|]. apply (set_obj_good X w h o); [done|done|done|by destruct (ok_obj X w H1 h o Eo)|by left].
Qed.

(** Taking an activation out: its stash is next. *)
Lemma take_activation_ok Y w a act :
  inv ∅ Y [] w -> _activating w !! a = Some act ->
  let w' := set_dying (_dying_with_frame w ∖ {[ a ]}) (set_activating (delete a (_activating w)) w) in
  inv {[ a ]} (fun b => Y b /\ b <> a) (stash act) w' /\ (a ∉ _dying_with_frame w -> ok ∅ w').
Proof.
  intros [H1 [F1 F2 F3 F4 F5] H3 H4] E w'.
  assert (forall e, e ∈ stash act -> business e = true /\ dest e = a) as Hst.
  { intros e He. apply F3. unfold stash_of. by rewrite E. }
  assert (forall X, (a ∈ _dying_with_frame w -> a ∈ X) -> ok X w') as Hok.
  { intros X HX. destruct H1 as [I1 I2 I3 I4 I5 I6 I7 I8 I9 I10 I11 I12 I13 I14]. split; simpl; try done.
    - intros b h Hb. destruct (I3 b h Hb) as (Hv & o & Eo & Hoa & Hd). split; [done|]. exists o. split_and!; [done|done|].
      intros Hal. destruct (Hd Hal) as [?|[?|?]]; [auto| |set_solver]. destruct (decide (b = a)) as [->|]; set_solver.
    - rewrite dom_delete_L. set_solver.
    - rewrite dom_delete_L. set_solver. }
  split; [split; [| | |done]|intros Hn; by apply Hok].
  - apply Hok. set_solver.
  - split; simpl; try done.
    + intros b. specialize (F1 b). rewrite app_nil_r in F1. destruct (decide (b = a)) as [->|Hne].
      * rewrite (flow_sel_all a (stash act)) by done. unfold stash_of in *. rewrite lookup_delete_eq. by rewrite E in F1.
      * rewrite (flow_sel_none b (stash act)) by naive_solver. unfold stash_of in *. by rewrite lookup_delete_ne, app_nil_r.
    + rewrite F2, (stashes_lookup _ a act E). solve_Permutation.
    + intros b e. unfold stash_of. destruct (decide (b = a)) as [->|Hne]; [rewrite lookup_delete_eq; set_solver|].
      rewrite lookup_delete_ne by done. apply F3.
    + rewrite (ungated_business (stash act)) by (intros e He; by destruct (Hst e He)). done.
  - intros b x Hx. simpl in Hx. apply lookup_delete_Some in Hx as [Hne Hx]. destruct (H3 b x Hx); [by left|right; split; congruence].
Qed.

Lemma destroy_fates h w :
  _activating (destroy_actor h w) = _activating w /\ arrived (log (destroy_actor h w)) = arrived (log w) /\
  routed (log (destroy_actor h w)) = routed (log w) /\ disposed (log (destroy_actor h w)) = disposed (log w) /\
  lost (log (destroy_actor h w)) = lost (log w).
Proof.
  unfold destroy_actor. destruct (objs w !! h) as [o|]; [|done]. simpl.
  generalize (b_dtor (a_beh o)) as cs. intros cs. revert w. induction cs as [|c cs IH]; intros w; simpl; [done|].
  destruct (IH (last c w)) as (-> & -> & -> & -> & ->). destruct c as [a|e]; simpl; [|done].
  unfold kill_actor, kill. destruct (_actors w !! a) as [h'|]; [|done]. by destruct (objs w !! h').
Qed.

Lemma teardown_fates a w :
  _activating (teardown a w) = _activating w /\ arrived (log (teardown a w)) = arrived (log w) /\
  routed (log (teardown a w)) = routed (log w) /\ disposed (log (teardown a w)) = disposed (log w) /\
  lost (log (teardown a w)) = lost (log w).
Proof.
  unfold teardown. set (w1 := unregisterEvents a (__unregisterCallback a w)).
  assert (_activating w1 = _activating w /\ log w1 = log w) as [<- <-]
    by (unfold w1, unregisterEvents, __unregisterCallback; by destruct (_actor_callbacks w !! a)).
  destruct (_actors w1 !! a) as [h|]; [|done].
  pose proof (destroy_fates h (set_actors (delete a (_actors w1)) (cancel_scope h w1))) as Hd.
  by destruct (nb_service _ <? _service_id a).
Qed.

Lemma fates_eq L w w' :
  _activating w' = _activating w /\ arrived (log w') = arrived (log w) /\ routed (log w') = routed (log w) /\
  disposed (log w') = disposed (log w) /\ lost (log w') = lost (log w) -> fates L w -> fates L w'.
Proof. intros (E1 & E2 & E3 & E4 & E5) [F1 F2 F3 F4 F5]. split; rewrite ?E1, ?E2, ?E3, ?E4, ?E5; done. Qed.

Lemma teardown_nb a w : nb_service (teardown a w) = nb_service w.
Proof.
  unfold teardown. set (w1 := unregisterEvents a (__unregisterCallback a w)).
  assert (nb_service w1 = nb_service w) as <- by (unfold w1, unregisterEvents, __unregisterCallback; by destruct (_actor_callbacks w !! a)).
  destruct (_actors w1 !! a) as [h|]; [|done]. set (w2 := set_actors _ _).
  assert (nb_service (destroy_actor h w2) = nb_service w2) as Hd; [|by destruct (_ <? _)].
  unfold destroy_actor. destruct (objs w2 !! h) as [o|]; [|done]. pose proof (lasts_fixed (b_dtor (a_beh o)) w2) as Hf.
  unfold fixed in Hf. by injection Hf.
Qed.

Lemma remove_nb a w : nb_service (removeActor a w) = nb_service w.
Proof.
  unfold removeActor. destruct (_activating w !! a) as [act|]; [|apply teardown_nb].
  destruct (init act); [rewrite teardown_nb|]; by destruct (_actors w !! a).
Qed.

(** Removing an actor, when the only finished frames are elsewhere. *)
Lemma remove_inv X Y L w a : inv ({[ a ]} ∪ X) Y L w -> ~ Y a -> inv X Y L (removeActor a w).
Proof.
  intros [H1 H2 H3 H4] HY. split; [by apply remove_ok| | |by rewrite remove_nb].
  - unfold removeActor. destruct (_activating w !! a) as [act|] eqn:E; [|by eapply fates_eq; [apply teardown_fates|]].
    destruct (H3 a act E) as [->|?]; [|done]. revert H2. apply fates_eq. by destruct (_actors w !! a).
  - unfold removeActor. destruct (_activating w !! a) as [act|] eqn:E.
    + destruct (H3 a act E) as [->|?]; [|done]. intros b x Hx. apply (H3 b x). destruct (_actors w !! a); exact Hx.
    + intros b x. destruct (teardown_fates a w) as [-> _]. apply H3.
Qed.

Lemma finalize_rej a w : rejected (log w) = true -> rejected (log (finalize a w)) = true.
Proof.
  intros Hw. unfold finalize. destruct (_activating w !! a) as [act|]; [|done]. cbv zeta.
  set (w1 := set_dying _ _). assert (rejected (log w1) = true) as H1 by done. destruct (_actors w1 !! a) as [h|].
  - destruct (_ || _); [rewrite remove_rej; by rewrite (proj1 (disposes_same _ _))|]. apply routes_rej.
    unfold activate. by destruct (objs w1 !! h).
  - by rewrite (proj1 (disposes_same _ _)).
Qed.

Lemma finalize_ok Y w a : inv ∅ (fun b => b = a \/ Y b) [] w -> fine ∅ Y [] (finalize a w).
Proof.
  intros Hw. unfold finalize. destruct (_activating w !! a) as [act|] eqn:E.
  2: { right. revert Hw. apply inv_weaken. apply not_elem_of_dom in E. naive_solver. }
  pose proof (take_activation_ok _ w a act Hw E) as [H1 H2]. cbv zeta.
  set (w1 := set_dying (_dying_with_frame w ∖ {[ a ]}) (set_activating (delete a (_activating w)) w)) in *.
  assert (forall X L w', inv X (fun b => (b = a \/ Y b) /\ b <> a) L w' -> inv X Y L w') as HY.
  { intros X L w'. apply inv_weaken. naive_solver. }
  destruct (_actors w1 !! a) as [h|] eqn:Ea.
  - destruct (bool_decide (a ∈ _dying_with_frame w) || negb (default false (init act))) eqn:Ed.
    + right. apply HY. apply remove_inv; [|naive_solver]. rewrite union_empty_r_L. apply disposes_ok. by rewrite app_nil_r.
    + apply orb_false_iff in Ed as [Ed _]. apply bool_decide_eq_false in Ed.
      assert (inv ∅ Y (stash act) w1) as H3 by (apply HY; destruct H1 as [G1 G2 G3 G4]; by split; [apply H2| | |]).
      apply (replay_ok ∅ Y a); [by eapply activate_ok| |].
      * unfold activate. destruct (objs w1 !! h); simpl; unfold stash_of; by rewrite lookup_delete_eq.
      * intros e He. apply (f_stash _ _ (inv_fates _ _ _ _ Hw) a e). unfold stash_of. by rewrite E.
  - exfalso. destruct Hw as [H4 _ _ _]. apply elem_of_dom_2 in E. apply (ok_activating _ w H4) in E. by apply not_elem_of_dom in Ea.
Qed.

Lemma finalizes_ok l w : fine ∅ (fun b => b ∈ l) [] w -> fine ∅ (fun _ => False) [] (fold_left (fun w a => finalize a w) l w).
Proof.
  revert w. induction l as [|a l IH]; intros w Hw; simpl.
  - destruct Hw as [Hr|Hw]; [by left|right]. revert Hw. apply inv_weaken. set_solver.
  - apply IH. destruct Hw as [Hr|Hw]; [left; by apply finalize_rej|]. apply finalize_ok. revert Hw. apply inv_weaken. set_solver.
Qed.

(** The scan collects every finished frame. *)
Lemma scan_rej p a : rejected (log p.2) = true -> rejected (log (scan p a).2) = true.
Proof.
  destruct p as [ds w]. intros Hw. unfold scan. destruct (_activating w !! a) as [act|]; [|done].
  destruct (init act); [done|]. destruct (_ && _); [|done]. simpl. by destruct (_actors w !! a).
Qed.

Lemma scan_ok X Y ds w a :
  inv X (fun b => b = a \/ Y b \/ b ∈ ds) [] w -> let '(ds', w') := scan (ds, w) a in inv X (fun b => Y b \/ b ∈ ds') [] w'.
Proof.
  intros Hw. unfold scan. destruct (_activating w !! a) as [act|] eqn:E.
  2: { revert Hw. apply inv_weaken. apply not_elem_of_dom in E. naive_solver. }
  destruct (init act) as [v|] eqn:Ei.
  { revert Hw. apply inv_weaken. set_solver. }
  assert (inv X (fun b => Y b \/ b ∈ ds) [] w) as Hw'.
  { destruct Hw as [H1 H2 H3 H4]. split; [done|done| |done]. intros b x Hx. destruct (H3 b x Hx) as [?|[->|?]]; [by left|left; congruence|by right]. }
  destruct (_ && _); [|done]. set (w1 := set_activating _ w).
  assert (inv X (fun b => Y b \/ b ∈ ds) [] w1) as H1 by (eapply update_activation_ok; [done|done|done|done]).
  destruct (_actors w1 !! a); [by apply asks_inv|done].
Qed.

Lemma scans_ok X l p :
  inv X (fun b => b ∈ l \/ b ∈ p.1) [] p.2 -> let '(ds, w) := fold_left scan l p in inv X (fun b => b ∈ ds) [] w.
Proof.
  revert p. induction l as [|a l IH]; intros [ds w] Hw; cbn [fold_left].
  - revert Hw. apply inv_weaken. set_solver.
  - apply IH. pose proof (scan_ok X (fun b => b ∈ l) ds w a) as Hs. destruct (scan (ds, w) a) as [ds' w']. apply Hs.
    revert Hw. apply inv_weaken. set_solver.
Qed.

Lemma pump_rej w : rejected (log w) = true -> rejected (log (__pump_activations__ w)) = true.
Proof.
  intros Hw. unfold __pump_activations__. set (l := walk_ids _).
  assert (forall l p, rejected (log p.2) = true -> rejected (log (fold_left scan l p).2) = true) as Hs.
  { clear. intros l. induction l as [|a l IH]; intros p Hp; [done|]. simpl. by apply IH, scan_rej. }
  specialize (Hs l ([], w) Hw). destruct (fold_left scan l ([], w)) as [ds w1]. simpl in Hs. clear Hw. revert w1 Hs.
  induction ds as [|a ds IH]; intros w1 Hw; [done|]. simpl. by apply IH, finalize_rej.
Qed.

Lemma pump_ok w : inv ∅ (fun _ => True) [] w -> fine ∅ (fun _ => False) [] (__pump_activations__ w).
Proof.
  intros Hw. unfold __pump_activations__. pose proof (scans_ok ∅ (walk_ids (dom (_activating w))) ([], w)) as Hs.
  destruct (fold_left scan _ _) as [ds w']. apply finalizes_ok. right. apply Hs. revert Hw. apply inv_weaken. simpl.
  intros a Ha _. left. rewrite walk_ids_all. by apply elem_of_elements.
Qed.

(** ** Callbacks *)

Lemma tick_rej p w : rejected (log w) = true -> rejected (log (tick p w)) = true.
Proof.
  destruct p as [a h]. intros Hw. unfold tick. case_bool_decide; [done|]. destruct (objs w !! h); [by apply execs_rej|done].
Qed.

Lemma ticks_ok X Y L l w :
  fine X Y L w -> (rejected (log w) = false -> forall a h, (a, h) ∈ l -> is_Some (objs w !! h)) ->
  fine X Y L (fold_left (fun w p => tick p w) l w).
Proof.
  revert w. induction l as [|[a h] l IH]; intros w Hw Hl; cbn [fold_left]; [done|].
  destruct Hw as [Hr|Hw].
  { apply IH; [left; by apply tick_rej|]. by rewrite tick_rej. }
  pose proof (inv_ok _ _ _ _ Hw) as Hok. specialize (Hl (proj2 (ok_log _ _ Hok))).
  assert (safe X w (tick (a, h) w)) as Hs.
  { unfold tick. case_bool_decide; [by apply safe_refl|]. destruct (Hl a h) as [o Eo]; [by left|]. rewrite Eo.
    apply script_ok; [done|]. by destruct (ok_obj _ _ Hok h o Eo) as [_ (_ & ? & _)]. }
  apply IH; [by eapply fine_safe|]. intros Hr b x Hx. destruct Hs as [?|[_ Hg]]; [congruence|].
  destruct (Hl b x) as [o Eo]; [by right|]. destruct (g_objs _ _ Hg x o Eo) as (o' & E' & _). by exists o'.
Qed.

Lemma callbacks_ok X Y L w : fine X Y L w -> fine X Y L (callbacks w).
Proof.
  intros Hw. apply ticks_ok; [done|]. intros Hr a h Hin. destruct Hw as [?|[Hok _ _ _]]; [congruence|].
  apply (proj2 (ok_list _ _ Hok)) in Hin. destruct (ok_callback _ _ Hok a h Hin) as (o & Eo & _). by exists o.
Qed.

(** ** Removal of killed actors *)

Lemma removes_ok Y L l w :
  inv (list_to_set l) Y L w -> (forall a, ~ Y a) -> inv ∅ Y L (fold_left (fun w a => removeActor a w) l w).
Proof.
  intros Hw HY. revert w Hw. induction l as [|a l IH]; intros w Hw; cbn [fold_left]; [done|]. apply IH. by apply remove_inv.
Qed.

Lemma reap_batch_ok Y L w : inv ∅ Y L w -> (forall a, ~ Y a) -> inv ∅ Y L (reap_batch w).
Proof.
  intros [H1 H2 H3 H4] HY. apply removes_ok; [|done].
  assert (list_to_set (walk_ids (_actor_to_remove w)) = _actor_to_remove w) as ->.
  { apply set_eq. intros a. by rewrite elem_of_list_to_set, walk_ids_all, elem_of_elements. }
  split; [|by destruct H2|done|done]. destruct H1 as [I1 I2 I3 I4 I5 I6 I7 I8 I9 I10 I11 I12 I13 I14]. split; simpl; try done.
  intros a h Ha. destruct (I3 a h Ha) as (Hv & o & Eo & Hoa & Hd). split; [done|]. exists o. split_and!; [done|done|].
  intros Hal. destruct (Hd Hal) as [?|[?|?]]; [auto|auto|set_solver].
Qed.

Lemma reap_loop_ok fuel w : fine ∅ (fun _ => False) [] w -> fine ∅ (fun _ => False) [] (reap_loop fuel w).
Proof.
  revert w. induction fuel as [|fuel IH]; intros w Hw; [done|]. simpl. case_decide; [done|]. apply IH.
  destruct Hw as [Hr|Hw]; [left|right; by apply reap_batch_ok; [|auto]].
  unfold reap_batch. generalize (walk_ids (_actor_to_remove w)). intros l.
  assert (rejected (log (set_to_remove ∅ w)) = true) as Hr' by done. revert Hr'. generalize (set_to_remove ∅ w).
  induction l as [|a l IHl]; intros w' Hw'; [done|]. simpl. apply IHl. by rewrite remove_rej.
Qed.

(** Removing an actor marks others only when it takes an actor out of the table. *)
Lemma teardown_measure a w :
  (_actor_to_remove (teardown a w) = _actor_to_remove w /\ _actors (teardown a w) = _actors w) \/
  (base.size (_actors (teardown a w)) < base.size (_actors w))%nat.
Proof.
  unfold teardown. set (w1 := unregisterEvents a (__unregisterCallback a w)).
  assert (_actors w1 = _actors w /\ _actor_to_remove w1 = _actor_to_remove w) as [<- <-]
    by (unfold w1, unregisterEvents, __unregisterCallback; by destruct (_actor_callbacks w !! a)).
  destruct (_actors w1 !! a) as [h|] eqn:E; [right|by left]. set (w2 := set_actors _ _).
  assert (_actors (destroy_actor h w2) = delete a (_actors w1)) as Hd.
  { unfold destroy_actor. destruct (objs w2 !! h) as [o|]; [|done]. pose proof (lasts_fixed (b_dtor (a_beh o)) w2) as Hf.
    unfold fixed in Hf. by injection Hf. }
  assert (base.size (delete a (_actors w1)) < base.size (_actors w1))%nat as Hs.
  { rewrite (map_size_delete_Some a) by done. assert (base.size (_actors w1) <> 0)%nat; [|lia]. intros Hz%map_size_empty_inv.
    rewrite Hz in E. by rewrite lookup_empty in E. }
  destruct (_ <? _); cbn [_actors set_ids]; by rewrite Hd.
Qed.

Lemma remove_measure a w :
  (_actor_to_remove (removeActor a w) = _actor_to_remove w /\ _actors (removeActor a w) = _actors w) \/
  (base.size (_actors (removeActor a w)) < base.size (_actors w))%nat.
Proof.
  unfold removeActor. destruct (_activating w !! a) as [act|]; [|apply teardown_measure].
  set (w1 := match _actors w !! a with Some h => cancel_scope h w | None => w end).
  assert (_actors w1 = _actors w /\ _actor_to_remove w1 = _actor_to_remove w) as [<- <-] by (unfold w1; by destruct (_actors w !! a)).
  destruct (init act); [|by left]. exact (teardown_measure a (log_fates [] [] [] (stash act) (set_dying _ (set_activating _ w1)))).
Qed.

Lemma reap_batch_measure w :
  _actor_to_remove (reap_batch w) = ∅ \/ (base.size (_actors (reap_batch w)) < base.size (_actors w))%nat.
Proof.
  unfold reap_batch. generalize (walk_ids (_actor_to_remove w)). intros l.
  assert (forall w, (_actor_to_remove (fold_left (fun w a => removeActor a w) l w) = _actor_to_remove w /\
      _actors (fold_left (fun w a => removeActor a w) l w) = _actors w) \/
      (base.size (_actors (fold_left (fun w a => removeActor a w) l w)) < base.size (_actors w))%nat) as Hl.
  { clear. induction l as [|a l IH]; intros w; [by left|]. simpl. destruct (IH (removeActor a w)) as [[-> ->]|?];
      destruct (remove_measure a w) as [[E1 E2]|?]; rewrite ?E1, ?E2 in *; auto; right; lia. }
  destruct (Hl (set_to_remove ∅ w)) as [[-> _]|?]; auto.
Qed.

Lemma reap_loop_done fuel w : (base.size (_actors w) < fuel)%nat -> _actor_to_remove (reap_loop fuel w) = ∅.
Proof.
  revert w. induction fuel as [|fuel IH]; intros w Hf; [lia|]. simpl. case_decide as D; [done|].
  destruct (reap_batch_measure w) as [E|Hlt]; [|apply IH; lia].
  destruct fuel as [|fuel]; [done|]. simpl. by case_decide.
Qed.

Lemma reap_done w : _actor_to_remove (reap w) = ∅.
Proof. apply reap_loop_done. lia. Qed.

(** ** Turns *)

Definition resumption_ok (r : resumption) : Prop :=
  match r with RInit _ cs _ | RScript _ cs => calls_ok nb cs | RAsk _ => True end.

Definition input_ok (i : input) : Prop := Forall resumption_ok (i_resumptions i).

Lemma resume_rej r w : rejected (log w) = true -> rejected (log (resume r w)) = true.
Proof.
  intros Hw. destruct r as [a cs v|a cs|o]; simpl; [| |done].
  - destruct (_activating w !! a) as [act|], (_actors w !! a) as [h|]; try done. destruct (init act); [done|]. by apply execs_rej.
  - destruct (_actors w !! a); [by apply execs_rej|done].
Qed.

Lemma resume_ok r w : inv ∅ (fun _ => True) [] w -> resumption_ok r -> fine ∅ (fun _ => True) [] (resume r w).
Proof.
  intros Hw Hr. pose proof (inv_ok _ _ _ _ Hw) as Hok. pose proof (inv_nb _ _ _ _ Hw) as Hnb.
  destruct r as [a cs v|a cs|o]; simpl in *; [| |right; by apply asks_inv].
  - destruct (_activating w !! a) as [act|] eqn:E, (_actors w !! a) as [h|]; try (by right). destruct (init act); [by right|].
    destruct (fine_safe _ _ _ w (execs h cs w) Hw) as [?|H1]; [by apply script_ok; [|rewrite Hnb]|by left|right].
    set (w1 := execs h cs w) in *. destruct (_activating w1 !! a) as [act1|] eqn:E1.
    + assert (forall f : activation -> activation, alter f a (_activating w1) = <[a := f act1]> (_activating w1)) as Halt.
      { intros f. apply map_eq. intros b. destruct (decide (b = a)) as [->|]; [by rewrite lookup_alter_eq, lookup_insert_eq, E1|].
        by rewrite lookup_alter_ne, lookup_insert_ne. }
      rewrite Halt. eapply replace_activation_ok; [done|exact E1|done|by right].
    + assert (forall f : activation -> activation, alter f a (_activating w1) = _activating w1) as Halt.
      { intros f. apply map_eq. intros b. destruct (decide (b = a)) as [->|]; [by rewrite lookup_alter_eq, E1|by rewrite lookup_alter_ne]. }
      rewrite Halt. destruct H1 as [[I1 I2 I3 I4 I5 I6 I7 I8 I9 I10 I11 I12 I13 I14] [F1 F2 F3 F4 F5] H3 H4]. by split; [split|split| |].
  - destruct (_actors w !! a) as [h|]; [|by right]. eapply fine_safe; [done|]. apply script_ok; [done|by rewrite Hnb].
Qed.

Lemma resumes_ok rs w :
  fine ∅ (fun _ => True) [] w -> Forall resumption_ok rs -> fine ∅ (fun _ => True) [] (fold_left (fun w r => resume r w) rs w).
Proof.
  revert w. induction rs as [|r rs IH]; intros w Hw Hrs; cbn [fold_left]; [done|]. inversion Hrs as [|?? Hr Hrs']; subst. apply IH; [|done].
  destruct Hw as [?|Hw]; [left; by apply resume_rej|by apply resume_ok].
Qed.

Lemma clock_ok X Y L t w : inv X Y L w -> inv X Y L (set_clock t w).
Proof.
  intros [[I1 I2 I3 I4 I5 I6 I7 I8 I9 I10 I11 I12 I13 I14] [F1 F2 F3 F4 F5] H3 H4]. by split; [split|split| |].
Qed.

Lemma turn_end_ok w :
  fine ∅ (fun _ => False) [] w ->
  fine ∅ (fun _ => False) [] (turn_end w).2 /\ ((turn_end w).1 = true -> _actor_to_remove (turn_end w).2 = ∅).
Proof.
  intros Hw. unfold turn_end. set (w1 := if decide (_actor_to_remove w = ∅) then callbacks w else w).
  assert (fine ∅ (fun _ => False) [] w1) as H1 by (unfold w1; case_decide; [by apply callbacks_ok|done]).
  case_decide as D; [done|]. split; [by apply reap_loop_ok|]. intros _. apply reap_done.
Qed.

Lemma turn_ok i w :
  input_ok i -> fine ∅ (fun _ => False) [] w ->
  fine ∅ (fun _ => False) [] (turn i w).2 /\ ((turn i w).1 = true -> _actor_to_remove (turn i w).2 = ∅).
Proof.
  intros Hi Hw. unfold turn. set (w1 := fold_left _ _ _).
  assert (fine ∅ (fun _ => True) [] w1) as H1.
  { apply resumes_ok; [|done]. destruct Hw as [?|Hw]; [by left|right]. apply clock_ok. revert Hw. by apply inv_weaken. }
  case_decide as D.
  - apply turn_end_ok, receive_events_ok. destruct H1 as [?|H1]; [by left|right]. revert H1. apply inv_weaken. rewrite D. set_solver.
  - assert (fine ∅ (fun _ => False) [] (__pump_activations__ w1)) as H2
      by (destruct H1 as [?|H1]; [left; by apply pump_rej|by apply pump_ok]).
    cbv zeta. case_decide; [done|]. by apply turn_end_ok, receive_events_ok.
Qed.

Lemma workflow_ok ins w :
  Forall input_ok ins -> fine ∅ (fun _ => False) [] w -> fine ∅ (fun _ => False) [] (__workflow__ ins w).
Proof.
  intros Hins. revert w. induction Hins as [|i ins Hi _ IH]; intros w Hw; simpl; [done|].
  pose proof (turn_ok i w Hi Hw) as [H1 _]. destruct (turn i w) as [go w']. destruct go; [by apply IH|done].
Qed.

(** ** Start *)

Definition factory_ok (f : factory) : Prop :=
  match f_svc f with Some s => 0 < s <= nb | None => True end /\ calls_ok nb (f_ctor f) /\ behaviour_ok nb (f_beh f).

Lemma core_new_ok index : 0 <= nb -> nb + 1 <= kBits -> inv ∅ (fun _ => False) [] (core_new index nb).
Proof.
  intros H1 H2. destruct (init_spec (nb + 1)) as [Hp Hf]; [lia|]. split; [split| | |done]; simpl; try done.
  - split; [constructor|]. intros a h. rewrite lookup_empty. split; [by intros ?%elem_of_nil|done].
  - intros s Hs. destruct (decide (s < 0)); [by rewrite free_neg in Hs|]. rewrite Hf in Hs by lia. apply andb_true_iff in Hs. lia.
  - split; simpl; [done|done| |done|done]. intros a e. unfold stash_of. rewrite lookup_empty. set_solver.
Qed.

(** An actor of the table starts its activation. *)
Lemma begin_ok X w h o :
  ok X w -> objs w !! h = Some o -> _actors w !! a_id o = Some h -> good X w (__begin_activation__ h w).
Proof.
  intros Hw E Ha. unfold __begin_activation__. rewrite E. set (w1 := set_objs _ w).
  assert (good X w w1) as H1 by (apply (set_obj_good X w h o); [done|done|done|by destruct (ok_obj X w Hw h o E)|by left]).
  destruct (_activating w1 !! a_id o) eqn:Ea; [done|]. eapply good_trans; [exact H1|].
  apply activation_good; [by destruct H1|simpl; by apply elem_of_dom|done].
Qed.

Lemma create_rej fs w : rejected (log w) = true -> rejected (log (create_all fs w).2) = true.
Proof.
  revert w. induction fs as [|f fs IH]; intros w Hw; [done|]. simpl. pose proof (construct_log (f_svc f) (f_defaults f) (f_beh f) w) as Hl.
  destruct (construct _ _ _ w) as [h w1]. simpl in Hl. rewrite <- Hl in Hw. apply (execs_rej h (f_ctor f)) in Hw.
  assert (rejected (log (append None h (execs h (f_ctor f) w1)).2) = true) as Ha.
  { unfold append. destruct (objs _ !! h) as [o|]; [|done]. destruct (_actors _ !! a_id o); [simpl; by rewrite destroy_rej, note_rej|by apply emplace_rej]. }
  destruct (append _ _ _) as [[a|] w2]; [by apply IH|done].
Qed.

Lemma create_all_ok X fs w : ok X w -> nb_service w = nb -> Forall factory_ok fs -> safe X w (create_all fs w).2.
Proof.
  intros Hw Hnb Hfs. revert w Hw Hnb. induction Hfs as [|f fs (F1 & F2 & F3) _ IH]; intros w Hw Hnb; [by apply safe_refl|].
  simpl. rewrite <- Hnb in F1, F2, F3. pose proof (construct_spec X w (f_svc f) (f_defaults f) (f_beh f) Hw F1 F3) as HC.
  destruct (construct _ _ _ w) as [h w1]. destruct HC as (-> & [Hw1 Hg1] & Hn & _ & o & E & Hal & Hm).
  pose proof (proj1 (g_const _ _ Hg1)) as Hnb1. set (h := next_addr w) in *. set (w2 := execs h (f_ctor f) w1).
  assert (safe X w (append None h w2).2) as Ha.
  { destruct (script_ok X w1 h (f_ctor f) Hw1) as [Hr|[Hw2 Hg2]]; [by rewrite Hnb1| |].
    { fold w2 in Hr. left. unfold append. destruct (objs w2 !! h) as [o2|]; [|done].
      destruct (_actors w2 !! a_id o2); [simpl; by rewrite destroy_rej, note_rej|by apply emplace_rej]. }
    fold w2 in Hw2, Hg2. destruct (g_objs _ _ Hg2 h o E) as (o2 & E2 & Hid & Hk2).
    assert (mine w w2 (a_id o2)) as Hm2 by (rewrite Hid; by eapply mine_grows).
    unfold append. rewrite E2. destruct (_actors w2 !! a_id o2) as [h'|] eqn:Ea.
    { left. simpl. rewrite destroy_rej. eapply duplicate_noted; [exact Hm2| |done|done]. rewrite (proj1 (g_const _ _ Hg2)). done. }
    eapply emplace_ok; [done|by eapply grows_trans|done|done|done|done|]. intros Hd. rewrite Hid.
    destruct (Hk2 Hd); [congruence|done]. }
  destruct (append None h w2) as [[a|] w3]; [|done]. simpl in Ha. destruct Ha as [Hr|[H3 Hg3]]; [left; by apply create_rej|].
  eapply safe_good; [by split|]. apply IH; [done|]. by rewrite (proj1 (g_const _ _ Hg3)).
Qed.

Lemma init_loop_rej hs w : rejected (log w) = true -> rejected (log (init_loop hs w).2) = true.
Proof.
  revert w. induction hs as [|h hs IH]; intros w Hw; [done|]. simpl. destruct (objs w !! h) as [o|]; [|done].
  apply (execs_rej h (b_init (a_beh o))) in Hw. destruct (b_out (a_beh o)); [by apply IH|done|]. apply IH. by rewrite begin_rej.
Qed.

Lemma init_loop_ok X hs w :
  ok X w -> (forall h, h ∈ hs -> exists a, _actors w !! a = Some h) -> safe X w (init_loop hs w).2.
Proof.
  revert w. induction hs as [|h hs IH]; intros w Hw Hhs; [by apply safe_refl|]. simpl.
  destruct (Hhs h) as [a Ha]; [by left|]. destruct (ok_actor X w Hw a h Ha) as (_ & o & E & Hoa & _). rewrite E.
  destruct (script_ok X w h (b_init (a_beh o)) Hw) as [Hr|[H1 Hg]]; [by destruct (ok_obj X w Hw h o E) as [_ (? & _)]| |].
  { left. destruct (b_out (a_beh o)); [by apply init_loop_rej|done|apply init_loop_rej; by rewrite begin_rej]. }
  set (w1 := execs h (b_init (a_beh o)) w) in *.
  assert (forall w', good X w1 w' -> safe X w (init_loop hs w').2) as Hrest.
  { intros w' [H2 Hg2]. apply (safe_good X w w'); [split; [done|by eapply grows_trans]|]. apply IH; [done|].
    intros x Hx. destruct (Hhs x) as [b Hb]; [by right|]. exists b. by apply (g_actors _ _ Hg2), (g_actors _ _ Hg). }
  destruct (b_out (a_beh o)); [by apply Hrest, good_refl|right; by split|]. apply Hrest.
  destruct (g_objs _ _ Hg h o E) as (o1 & E1 & Hid & _). apply (begin_ok X w1 h o1); [done|done|].
  rewrite Hid, Hoa. by apply (g_actors _ _ Hg).
Qed.

Lemma start_ok index fs w :
  0 <= nb -> nb + 1 <= kBits -> Forall factory_ok fs -> start index nb fs = Some w -> fine ∅ (fun _ => False) [] w.
Proof.
  intros H1 H2 Hfs Hs. pose proof (core_new_ok index H1 H2) as H3. unfold start in Hs. destruct fs as [|f fs]; [done|]. set (l := f :: fs) in *.
  pose proof (create_all_ok ∅ l _ (inv_ok _ _ _ _ H3) (inv_nb _ _ _ _ H3) Hfs) as Hc.
  destruct (create_all l _) as [created w1]. simpl in Hc. destruct created; [|done].
  apply (fine_safe _ _ _ _ _ H3) in Hc. unfold __init__actors__ in Hs. set (hs := omap _ _) in Hs.
  pose proof (init_loop_rej hs w1) as Hr. pose proof (init_loop_ok ∅ hs w1) as Hi.
  destruct (init_loop hs w1) as [good w2]. simpl in *. destruct good; [|done]. injection Hs as <-.
  destruct Hc as [Hc|Hc]; [left; by apply Hr|]. eapply fine_safe; [exact Hc|]. apply Hi; [by destruct Hc|].
  intros h Hh. apply list_elem_of_omap in Hh as (a & _ & Ha). by exists a.
Qed.

End Fates.

(** * The properties of a running core *)

Section Theorems.
Context `{Platform} `{!PlatformLaws}.
Implicit Types (w : core).

Lemma running_ok index nb fs ins w0 :
  0 <= nb -> nb + 1 <= kBits -> Forall (factory_ok nb) fs -> Forall (input_ok nb) ins -> start index nb fs = Some w0 ->
  fine nb ∅ (fun _ => False) [] (__workflow__ ins w0).
Proof. intros H1 H2 Hfs Hins Hs. apply workflow_ok; [done|]. by eapply start_ok. Qed.

(** C2: Memory safety of a core: after any number of turns, as long as no service was added
    twice and no suspending actor was given no id, no destroyed actor has been used, and every
    pointer kept by the router, the callback list and the actor table is to a live object that
    has the id it is filed under; the ids in use are not free in the pool. *)
Theorem core_memory_safe index nb fs ins w0 :
  0 <= nb -> nb + 1 <= kBits -> Forall (factory_ok nb) fs -> Forall (input_ok nb) ins -> start index nb fs = Some w0 ->
  let w := __workflow__ ins w0 in
  rejected (log w) = false ->
  faults (log w) = [] /\
  (forall t a h, target (_router w) t a = Some h -> exists o, objs w !! h = Some o /\ a_id o = a) /\
  (forall a h, (a, h) ∈ _callback_list w -> exists o, objs w !! h = Some o /\ a_id o = a) /\
  (forall a h, _actors w !! a = Some h -> exists o, objs w !! h = Some o /\ a_id o = a) /\
  (forall a, a ∈ dom (_actors w) -> free (_ids w) (_service_id a) = false).
Proof.
  intros H1 H2 Hfs Hins Hs w Hr. destruct (running_ok index nb fs ins w0 H1 H2 Hfs Hins Hs) as [?|[Hok _ _ _]]; [unfold w in *; congruence|].
  fold w in Hok. split_and!.
  - apply (proj1 (ok_log _ _ Hok)).
  - apply (ok_target _ _ Hok).
  - intros a h Ha. apply (ok_callback _ _ Hok). by apply (proj2 (ok_list _ _ Hok)).
  - intros a h Ha. destruct (ok_actor _ _ Hok a h Ha) as (_ & o & Eo & Hoa & _). by exists o.
  - apply (ok_used _ _ Hok).
Qed.

(** C5: The gate in front of an actor whose [onInit()] is suspended, as long as no service was
    added twice and no suspending actor was given no id: the unicast events routed to an actor,
    followed by those stashed for it, are in the order of their arrival, [KillEvent]s apart;
    these and broadcasts are never stashed, may overtake what is stashed, and are routed in the
    order of their own arrival; and every event received, of whatever kind, was routed, disposed
    of, or is stashed, exactly once. *)
Theorem activation_fifo index nb fs ins w0 :
  0 <= nb -> nb + 1 <= kBits -> Forall (factory_ok nb) fs -> Forall (input_ok nb) ins -> start index nb fs = Some w0 ->
  let w := __workflow__ ins w0 in
  rejected (log w) = false ->
  (forall a, sublist (sel a (routed (log w)) ++ stash_of a (_activating w)) (sel a (arrived (log w)))) /\
  (forall a e, e ∈ stash_of a (_activating w) -> business e = true /\ dest e = a) /\
  sublist (ungated (routed (log w))) (ungated (arrived (log w))) /\
  arrived (log w) ≡ₚ routed (log w) ++ disposed (log w) ++ stashes (_activating w) /\ lost (log w) = [].
Proof.
  intros H1 H2 Hfs Hins Hs w Hr. destruct (running_ok index nb fs ins w0 H1 H2 Hfs Hins Hs) as [?|[_ [F1 F2 F3 F4 F5] _ _]]; [unfold w in *; congruence|].
  fold w in F1, F2, F3, F4, F5. split_and!; [|done|by rewrite app_nil_r in F5|by rewrite app_nil_r in F2|done].
  intros a. specialize (F1 a). by rewrite app_nil_r in F1.
Qed.

(** C20: Removal is complete, as long as no service was added twice and no suspending actor was
    given no id: a turn after which the loop goes on leaves no actor marked for
    removal, and an actor still in the table is alive unless its [onInit()] is suspended, in
    which case its removal waits for that frame. *)
Theorem turn_reaps index nb fs ins w0 i w' :
  0 <= nb -> nb + 1 <= kBits -> Forall (factory_ok nb) fs -> Forall (input_ok nb) ins -> start index nb fs = Some w0 ->
  input_ok nb i -> turn i (__workflow__ ins w0) = (true, w') -> rejected (log w') = false ->
  _actor_to_remove w' = ∅ /\
  forall a h, _actors w' !! a = Some h -> exists o, objs w' !! h = Some o /\
    (_alive o = true \/ a ∈ _dying_with_frame w' /\ exists act, _activating w' !! a = Some act /\ init act = None).
Proof.
  intros H1 H2 Hfs Hins Hs Hi Ht Hr.
  destruct (turn_ok nb i _ Hi (running_ok index nb fs ins w0 H1 H2 Hfs Hins Hs)) as [[?|[Hok _ Hp _]] He]; rewrite Ht in *; simpl in *; [congruence|].
  specialize (He eq_refl). split; [done|]. intros a h Ha. destruct (ok_actor _ _ Hok a h Ha) as (_ & o & Eo & _ & Hd). exists o. split; [done|].
  destruct (_alive o); [by left|right]. destruct (Hd eq_refl) as [?|[Hdy|?]]; [set_solver| |set_solver]. split; [done|].
  apply (ok_dying _ _ Hok) in Hdy. apply elem_of_dom in Hdy as [act Hact]. exists act. split; [done|]. by destruct (Hp a act Hact).
Qed.

(** The removal loop ends: destructors that kill other actors are followed to the end, and
    as many passes as there are actors, and one, leave nobody marked. *)
Theorem reap_terminates fuel w : (base.size (_actors w) < fuel)%nat -> _actor_to_remove (reap_loop fuel w) = ∅ /\ _actor_to_remove (reap w) = ∅.
Proof. intros Hf. split; [by apply reap_loop_done|apply reap_done]. Qed.

End Theorems.

(** * Instances *)

(** Type ids 1 to 5 are the default events; hash containers are walked in key order. *)
#[local] Instance demo_platform : Platform := {
  KillEvent := 1; SignalEvent := 2; UnregisterCallbackEvent := 3; PingEvent := 4; RequireEvent := 5;
  nontrivial _ := true; correlation_id _ := 0; ping_type := payload; id_type _ := 1; require_event d s t c := Event header_default 1 5 d s None t;
  walk_handlers := map_to_list; walk_ids := elements; activation_deadline_ns := 0;
}.

#[local] Instance demo_platform_laws : PlatformLaws.
Proof. by split. Qed.

Definition demo_services : Z := 65530.
Definition demo_id : ActorId := mk_ActorId 65531 0.
Definition demo_mail (d : ActorId) (t v : Z) : event := Event header_default 1 t d (mk_ActorId 9 1) None v.

(** An actor whose [onInit()] suspends, handles type 7, and kills itself on type 8; the second
    actor ticks and, when destroyed, kills the first. *)
Definition demo_factories : list factory :=
  [Factory None true [CRegister 7; CRegister 8]
     (Behaviour [] Suspended (fun t => if t =? 7 then Some ([CPush (demo_mail (mk_ActorId 9 1) 7 1)], false) else if t =? 8 then Some ([CKill], false) else None) [] []);
   Factory None true [CRegisterCallback] (Behaviour [] ReadyTrue (fun _ => None) [CPush (demo_mail demo_id 7 2)] [LKill demo_id])].

Definition demo_inputs : list input :=
  [Input 1 [] [demo_mail demo_id 7 10; demo_mail demo_id 7 11]; Input 2 [RInit demo_id [] (Some true)] [demo_mail demo_id 7 12]].

Lemma demo_factories_ok : Forall (factory_ok demo_services) demo_factories.
Proof.
  repeat constructor; simpl; try done. intros t. destruct (t =? 7); [done|]. by destruct (t =? 8).
Qed.

Lemma demo_inputs_ok : Forall (input_ok demo_services) demo_inputs.
Proof. repeat constructor. Qed.

Definition demo_start : core := default (core_new 0 demo_services) (start 0 demo_services demo_factories).

Lemma demo_starts : start 0 demo_services demo_factories = Some demo_start.
Proof. vm_compute. reflexivity. Qed.

Lemma core_memory_safe_witness :
  let w := __workflow__ demo_inputs demo_start in
  c_delivered (log w) = [(0, 10); (0, 11); (0, 12)] /\ faults (log w) = [] /\
  (forall t a h, target (_router w) t a = Some h -> exists o, objs w !! h = Some o /\ a_id o = a).
Proof.
  destruct (core_memory_safe 0 demo_services demo_factories demo_inputs demo_start ltac:(done) ltac:(done) demo_factories_ok demo_inputs_ok
              demo_starts ltac:(vm_compute; reflexivity)) as (H1 & H2 & _).
  split_and!; [vm_compute; reflexivity|exact H1|exact H2].
Defined.

Lemma activation_fifo_witness :
  let w := __workflow__ demo_inputs demo_start in
  payload <$> routed (log w) = [10; 11; 12] /\
  sublist (sel demo_id (routed (log w)) ++ stash_of demo_id (_activating w)) (sel demo_id (arrived (log w))) /\
  arrived (log w) ≡ₚ routed (log w) ++ disposed (log w) ++ stashes (_activating w).
Proof.
  destruct (activation_fifo 0 demo_services demo_factories demo_inputs demo_start ltac:(done) ltac:(done) demo_factories_ok demo_inputs_ok
              demo_starts ltac:(vm_compute; reflexivity)) as (H1 & _ & _ & H2 & _).
  split_and!; [vm_compute; reflexivity|exact (H1 demo_id)|exact H2].
Defined.

(** The first actor is killed while its [onInit()] is suspended. *)
Definition demo_kill : input := Input 3 [] [demo_mail demo_id 1 0].

Lemma turn_reaps_witness :
  let p := turn demo_kill demo_start in
  p.1 = true /\ _actor_to_remove p.2 = ∅ /\ demo_id ∈ dom (_actors p.2) /\ demo_id ∈ _dying_with_frame p.2.
Proof.
  destruct (turn_reaps 0 demo_services demo_factories [] demo_start demo_kill (turn demo_kill demo_start).2 ltac:(done) ltac:(done) demo_factories_ok
              (Forall_nil_2 _) demo_starts (Forall_nil_2 _) ltac:(vm_compute; reflexivity) ltac:(vm_compute; reflexivity)) as [H1 H2].
  split_and!; [vm_compute; reflexivity|exact H1|apply elem_of_dom; exists 0; vm_compute; reflexivity|].
  destruct (H2 demo_id 0 ltac:(vm_compute; reflexivity)) as (o & Eo & [Hal|[Hd _]]); [|exact Hd].
  vm_compute in Eo. injection Eo as <-. discriminate Hal.
Defined.

Lemma reap_terminates_witness : _actor_to_remove (reap_loop 3 (kill 1 demo_start)) = ∅ /\ base.size (_actors demo_start) = 2%nat.
Proof.
  destruct (reap_terminates 3 (kill 1 demo_start) ltac:(vm_compute; lia)) as [H1 _]. split; [exact H1|vm_compute; reflexivity].
Defined.

(** * What the hypotheses exclude, and two surprises *)

(** A service that is added where it already exists is destroyed, but its constructor has
    replaced the handlers of the first one: the router keeps a pointer to a destroyed actor,
    and the next event for the service uses it. *)
Theorem duplicate_service_dangles :
  exists fs ins w0, Forall (factory_ok demo_services) fs /\ Forall (input_ok demo_services) ins /\ start 0 demo_services fs = Some w0 /\
    let w := __workflow__ ins w0 in
    _actors w !! mk_ActorId 1 0 = Some 0 /\ target (_router w) 7 (mk_ActorId 1 0) = Some 2 /\ objs w !! 2 = None /\ faults (log w) = [2].
Proof.
  exists [Factory (Some 1) true [CRegister 7] (Behaviour [] ReadyTrue (fun _ => None) [] []);
          Factory None true [] (Behaviour [] ReadyTrue (fun _ => None) [] [])].
  exists [Input 1 [RScript demo_id [CAdd (Some 1) true [CRegister 7] [] ReadyTrue (fun _ => None) [] []]] [demo_mail (mk_ActorId 1 0) 7 10]].
  eexists. split; [repeat constructor; simpl; done|]. split; [repeat constructor; simpl; done|]. split; [vm_compute; reflexivity|]. vm_compute. repeat split.
Qed.

(** An actor that a statically added actor creates in its constructor has its [onInit()] run
    twice: when it is added, and with all the actors of the core before the loop starts. *)
Theorem child_initialised_twice :
  exists fs w0 e, Forall (factory_ok demo_services) fs /\ start 0 demo_services fs = Some w0 /\
    rejected (log w0) = false /\ base.size (_actors w0) = 2%nat /\ outbox (log w0) = [e; e].
Proof.
  exists [Factory None true [CAdd None true [] [CPush (demo_mail demo_id 7 1)] ReadyTrue (fun _ => None) [] []]
            (Behaviour [] ReadyTrue (fun _ => None) [] [])].
  eexists. exists (demo_mail demo_id 7 1).
  split_and!; [repeat constructor; simpl; done|vm_compute; reflexivity|vm_compute; reflexivity|vm_compute; reflexivity|vm_compute; reflexivity].
Qed.

(** The id of an actor created at run time whose [onInit()] fails at once is not given back:
    the actor is gone, and its id is neither free nor in use. *)
Theorem failed_init_leaks_id :
  exists fs ins w0, Forall (factory_ok demo_services) fs /\ Forall (input_ok demo_services) ins /\ start 0 demo_services fs = Some w0 /\
    let w := __workflow__ ins w0 in
    rejected (log w) = false /\ free (_ids w0) 65532 = true /\ free (_ids w) 65532 = false /\
    _actors w !! mk_ActorId 65532 0 = None /\ base.size (objs w) = 1%nat.
Proof.
  exists [Factory None true [] (Behaviour [] ReadyTrue (fun _ => None) [] [])].
  exists [Input 1 [RScript demo_id [CAdd None true [] [] ReadyFalse (fun _ => None) [] []]] []].
  eexists. split; [repeat constructor; simpl; done|]. split; [repeat constructor; simpl; done|]. split; [vm_compute; reflexivity|]. vm_compute. repeat split.
Qed.
