(* ===== verification/Engine.v ===== *)
(** The start of an engine and its signals (src/qb/core/Main.cpp, the head of the loop of
    src/qb/core/VirtualCore.cpp).

    The start-up barrier is one atomic counter shared by all core threads; a step is one of the
    atomic accesses of one thread, and any interleaving of steps is allowed. The signal slot is
    raised by a handler and polled by each core. *)

From S2P Require Import Prelude ActorId Workflow.

(** * The start-up barrier *)

(** [VirtualCore::Error] *)
Definition BadInit : Z := 2 ^ 9.
Definition NoActor : Z := 2 ^ 10.
Definition BadActorInit : Z := 2 ^ 11.
Definition ExceptionThrown : Z := 2 ^ 12.

(** Where a thread is in [start_thread]: initialising; before the [fetch_add]; in the spin loop;
    in [__workflow__]; turned away; stopped by an exception of its initialisation or of its
    workflow; back from its workflow. *)
Inductive stage := SInit | SReady | SSpin | SRunning | SRefused | SThrown | SCrashed | SStopped.

#[export] Instance stage_eq_dec : EqDecision stage.
Proof. solve_decision. Defined.

(** [failed] is a ghost: some initialisation failed. *)
Record engine := Engine { sync_start : Z; stages : list stage; failed : bool }.

(** The ways the first part of [start_thread] ends. *)
Inductive outcome := IGood | IBadInit | INoActor | IBadActorInit | IThrow.

Definition set_stage (i : nat) (s : stage) (g : engine) : engine := Engine (sync_start g) (<[i := s]> (stages g)) (failed g).
Definition store (v : Z) (g : engine) : engine := Engine v (stages g) (failed g).
Definition fail (g : engine) : engine := Engine (sync_start g) (stages g) true.

(** [Main::start]: one thread per core. *)
Definition engine_new (n : nat) : engine := Engine 0 (replicate n SInit) false.

Inductive op := OInit (i : nat) (o : outcome) | OAdd (i : nat) | OPoll (i : nat) | OThrow (i : nat) | OFinish (i : nat).

Definition init_step (i : nat) (o : outcome) (g : engine) : engine :=
  match o with
  | IGood => set_stage i SReady g
  | IBadInit => set_stage i SReady (fail (store BadInit g))
  | INoActor => set_stage i SReady (fail (store NoActor g))
  | IBadActorInit => set_stage i SReady (fail (store BadActorInit g))
  | IThrow => set_stage i SThrown (fail (store ExceptionThrown g))
  end.

(** The [fetch_add] of [__wait__all__cores__ready], and one round of its loop. *)
Definition add_step (i : nat) (g : engine) : engine := set_stage i SSpin (store (u64 (sync_start g + 1)) g).

Definition poll_step (i : nat) (g : engine) : engine :=
  let ret := sync_start g in
  if ret <? zlen (stages g) then g else if ret <? BadInit then set_stage i SRunning g else set_stage i SRefused g.

Definition step (o : op) (g : engine) : engine :=
  match o with
  | OInit i r => if decide (stages g !! i = Some SInit) then init_step i r g else g
  | OAdd i => if decide (stages g !! i = Some SReady) then add_step i g else g
  | OPoll i => if decide (stages g !! i = Some SSpin) then poll_step i g else g
  | OThrow i => if decide (stages g !! i = Some SRunning) then set_stage i SCrashed (store ExceptionThrown g) else g
  | OFinish i => if decide (stages g !! i = Some SRunning) then set_stage i SStopped g else g
  end.

Definition run (os : list op) (g : engine) : engine := fold_left (fun g o => step o g) os g.

(** [Main::hasError], and a round of the loop of [Main::start] that waits for the cores. *)
Definition hasError (g : engine) : bool := BadInit <=? sync_start g.
Definition start_wait (g : engine) : option bool := if sync_start g <? zlen (stages g) then None else Some (hasError g).

(** * Signals *)

(** [_signal_pending] and the 32-bit [_signal_generation]. *)
Record signals := Signals { _signal_pending : Z; _signal_generation : Z }.

Definition onSignal (signum : Z) (s : signals) : signals := Signals signum (u32 (_signal_generation s + 1)).
Definition stop (s : signals) : signals := onSignal SIGINT s.
Definition signals_reset : signals := Signals 0 0.

(** What a core remembers of them. *)
Record watcher := Watcher { _last_signal_generation : Z; _stop_delivered : bool }.
Definition watcher_new : watcher := Watcher 0 false.

(** The head of the loop of [__workflow__]: the signal number of the [SignalEvent] that is
    broadcast to the actors of the core, if one is. *)
Definition poll_signal (stop_requested : bool) (s : signals) (c : watcher) : option Z * watcher :=
  if negb (_signal_pending s =? 0) || stop_requested then
    let signum := _signal_pending s in
    let new_signal := negb (signum =? 0) && negb (_signal_generation s =? _last_signal_generation c) in
    if new_signal || (stop_requested && negb (_stop_delivered c)) then
      (Some (if signum =? 0 then SIGINT else signum),
       Watcher (if new_signal then _signal_generation s else _last_signal_generation c) (if stop_requested then true else _stop_delivered c))
    else (None, c)
  else (None, c).

(** * The barrier: invariant *)

(** A thread that has done its [fetch_add]; one that entered its workflow. *)
Definition past (s : stage) : bool := match s with SSpin | SRunning | SRefused | SCrashed | SStopped => true | _ => false end.
Definition entered (s : stage) : bool := match s with SRunning | SCrashed | SStopped => true | _ => false end.

Fixpoint tally (l : list stage) : Z := match l with [] => 0 | s :: l => (if past s then 1 else 0) + tally l end.

Record engine_ok (n : nat) (g : engine) : Prop := EngineOk {
  e_len : length (stages g) = n;
  e_count : BadInit <= sync_start g \/ (sync_start g = tally (stages g) /\ failed g = false /\ ~ SCrashed ∈ stages g /\ ~ SThrown ∈ stages g);
  e_bound : 0 <= sync_start g <= ExceptionThrown + tally (stages g);
  e_entered s : s ∈ stages g -> entered s = true -> failed g = false /\ forall t, t ∈ stages g -> past t = true;
  e_error : BadInit <= sync_start g -> failed g = true \/ SCrashed ∈ stages g;
  e_refused : SRefused ∈ stages g -> failed g = true \/ SCrashed ∈ stages g;
}.

Lemma tally_bounds l : 0 <= tally l <= zlen l.
Proof. unfold zlen. induction l as [|s l IH]; simpl; [lia|]. destruct (past s); lia. Qed.

Lemma tally_insert l i x y :
  l !! i = Some x -> tally (<[i := y]> l) = tally l + (if past y then 1 else 0) - (if past x then 1 else 0).
Proof.
  revert i. induction l as [|s l IH]; intros i E; [done|]. destruct i as [|i]; simpl in *; [injection E as ->; lia|].
  rewrite (IH i E). lia.
Qed.

Lemma tally_all l s : tally l = zlen l -> s ∈ l -> past s = true.
Proof.
  intros Ht. induction l as [|x l IH]; [by intros ?%elem_of_nil|]. unfold zlen in *. simpl in Ht.
  pose proof (tally_bounds l) as Hb. unfold zlen in Hb. intros [->|Hs]%elem_of_cons; [destruct (past x); [done|lia]|].
  apply IH; [|done]. destruct (past x); lia.
Qed.

Lemma stage_insert (l : list stage) (i : nat) x y s : l !! i = Some x -> s ∈ <[i := y]> l -> s = y \/ s ∈ l.
Proof.
  intros E Hs. apply list_elem_of_lookup in Hs as [j Hj]. apply list_lookup_insert_Some in Hj as [(_ & -> & _)|[_ Hj]]; [by left|right].
  by eapply list_elem_of_lookup_2.
Qed.

(** A crashed core stays crashed. *)
Lemma crashed_insert (l : list stage) (i : nat) x y : l !! i = Some x -> x <> SCrashed -> SCrashed ∈ l -> SCrashed ∈ <[i := y]> l.
Proof.
  intros E Hx Hin. apply list_elem_of_lookup in Hin as [j Hj]. apply (list_elem_of_lookup_2 _ j).
  rewrite list_lookup_insert_ne; [done|]. intros ->. congruence.
Qed.

Lemma tally_full l : (forall s, s ∈ l -> past s = true) -> tally l = zlen l.
Proof.
  unfold zlen. induction l as [|s l IH]; intros Hl; [done|]. simpl. rewrite (Hl s) by (by left). rewrite IH; [lia|].
  intros t Ht. apply Hl. by right.
Qed.

(** A step that leaves the counter alone and moves a thread that has done its [fetch_add]. *)
Lemma move_ok n g i x y :
  engine_ok n g -> stages g !! i = Some x -> past x = true -> past y = true -> x <> SCrashed -> y <> SCrashed ->
  (y = SRefused -> BadInit <= sync_start g) ->
  (entered y = true -> failed g = false /\ forall t, t ∈ stages g -> past t = true) -> engine_ok n (set_stage i y g).
Proof.
  intros [H1 H2 H3 H4 H5 H6] E Hx Hy Hcx Hc Hr He.
  assert (failed g = true \/ SCrashed ∈ stages g -> failed g = true \/ SCrashed ∈ <[i := y]> (stages g)) as Hkeep
    by (intros [?|?]; [by left|right; by apply (crashed_insert _ _ x)]).
  split; simpl.
  - by rewrite length_insert.
  - destruct H2 as [?|(H2 & Hf & Hn & Ht)]; [by left|right]. rewrite (tally_insert _ _ x), Hx, Hy by done. split_and!; [lia|done| |].
    + intros Hin. destruct (stage_insert _ _ x y _ E Hin); [congruence|done].
    + intros Hin. destruct (stage_insert _ _ x y _ E Hin); [by subst|done].
  - rewrite (tally_insert _ _ x), Hx, Hy by done. lia.
  - intros s Hs Hse.
    assert (failed g = false /\ forall t, t ∈ stages g -> past t = true) as [Hf Ha]
      by (destruct (stage_insert _ _ x y _ E Hs) as [->|Hs']; [by apply He|by apply (H4 s)]).
    split; [done|]. intros t Ht. destruct (stage_insert _ _ x y _ E Ht) as [->|]; [done|by apply Ha].
  - intros Hs. by apply Hkeep, H5.
  - intros Hs. apply Hkeep. destruct (stage_insert _ _ x y _ E Hs) as [<-|]; [by apply H5, Hr|by apply H6].
Qed.

(** Nobody entered as long as a thread has not done its [fetch_add]. *)
Lemma nobody_entered n g i x s : engine_ok n g -> stages g !! i = Some x -> past x = false -> s ∈ stages g -> entered s = false.
Proof.
  intros Hg E Hx Hs. destruct (entered s) eqn:He; [|done]. destruct (e_entered _ _ Hg s Hs He) as [_ Ha].
  rewrite (Ha x) in Hx; [done|]. by eapply list_elem_of_lookup_2.
Qed.

Lemma init_step_ok n g i o : engine_ok n g -> stages g !! i = Some SInit -> engine_ok n (init_step i o g).
Proof.
  intros Hg E. pose proof (nobody_entered n g i SInit) as Hno. pose proof (tally_bounds (stages g)) as Hb.
  assert (forall v y b, (b = true -> BadInit <= v <= ExceptionThrown) -> (b = false -> v = sync_start g) -> past y = false -> (b = false -> y = SReady) ->
    engine_ok n (Engine v (<[i := y]> (stages g)) (if b then true else failed g))) as Hall.
  { intros v y b Hv1 Hv2 Hp Hy. destruct Hg as [H1 H2 H3 H4 H5 H6].
    assert (failed g = true \/ SCrashed ∈ stages g -> failed g = true \/ SCrashed ∈ <[i := y]> (stages g)) as Hkeep
      by (intros [?|?]; [by left|right; by apply (crashed_insert _ _ SInit)]).
    split; simpl.
    - by rewrite length_insert.
    - destruct b; [left; by apply Hv1|]. rewrite (Hv2 eq_refl), (Hy eq_refl), (tally_insert _ _ SInit) by done. simpl.
      destruct H2 as [?|(-> & Hf & Hn & Ht)]; [by left|right]. split_and!; [lia|done| |];
        intros Hin; by destruct (stage_insert _ _ SInit SReady _ E Hin).
    - rewrite (tally_insert _ _ SInit), Hp by done. simpl. unfold BadInit in *. destruct b; [specialize (Hv1 eq_refl); lia|].
      rewrite (Hv2 eq_refl). lia.
    - intros s Hs Hse. exfalso. destruct (stage_insert _ _ SInit y _ E Hs) as [->|Hs']; [by destruct y|].
      rewrite (Hno s) in Hse; [done|by split|done|done|done].
    - destruct b; [by left|]. rewrite (Hv2 eq_refl). intros Hs. by apply Hkeep, H5.
    - destruct b; [by left|]. intros Hs. apply Hkeep. destruct (stage_insert _ _ SInit y _ E Hs) as [<-|]; [done|by apply H6]. }
  destruct o; simpl.
  - by apply (Hall (sync_start g) SReady false).
  - by apply (Hall BadInit SReady true).
  - by apply (Hall NoActor SReady true).
  - by apply (Hall BadActorInit SReady true).
  - by apply (Hall ExceptionThrown SThrown true).
Qed.

Lemma add_step_ok n g i : (n <= 256)%nat -> engine_ok n g -> stages g !! i = Some SReady -> engine_ok n (add_step i g).
Proof.
  intros Hn Hg E. pose proof (nobody_entered n g i SReady) as Hno. pose proof (tally_bounds (stages g)) as Hb.
  destruct Hg as [H1 H2 H3 H4 H5 H6]. unfold zlen, ExceptionThrown in *. unfold add_step. rewrite u64_small by lia.
  assert (failed g = true \/ SCrashed ∈ stages g -> failed g = true \/ SCrashed ∈ <[i := SSpin]> (stages g)) as Hkeep
    by (intros [?|?]; [by left|right; by apply (crashed_insert _ _ SReady)]).
  split; simpl.
  - by rewrite length_insert.
  - rewrite (tally_insert _ _ SReady) by done. simpl. destruct H2 as [?|(H2 & Hf & Hn1 & Hn2)]; [left; lia|right].
    split_and!; [lia|done| |]; intros Hin; by destruct (stage_insert _ _ SReady SSpin _ E Hin).
  - rewrite (tally_insert _ _ SReady) by done. simpl. unfold ExceptionThrown. lia.
  - intros s Hs Hse. exfalso. destruct (stage_insert _ _ SReady SSpin _ E Hs) as [->|Hs']; [done|].
    rewrite (Hno s) in Hse; [done|by split|done|done|done].
  - intros Hs. apply Hkeep, H5. destruct H2 as [|(H2 & _)]; [done|]. unfold BadInit in *. lia.
  - intros Hs. apply Hkeep. destruct (stage_insert _ _ SReady SSpin _ E Hs); [done|by apply H6].
Qed.

Lemma poll_step_ok n g i : engine_ok n g -> stages g !! i = Some SSpin -> engine_ok n (poll_step i g).
Proof.
  intros Hg E. unfold poll_step. destruct (Z.ltb_spec (sync_start g) (zlen (stages g))) as [|Hge]; [done|].
  destruct (Z.ltb_spec (sync_start g) BadInit) as [Hlt|]; [|by apply (move_ok n g i SSpin)].
  apply (move_ok n g i SSpin); try done. intros _. destruct (e_count _ _ Hg) as [?|(Hc & Hf & _)]; [lia|]. split; [done|].
  intros t. apply tally_all. pose proof (tally_bounds (stages g)). lia.
Qed.

Lemma engine_step_ok n o g : (n <= 256)%nat -> engine_ok n g -> engine_ok n (step o g).
Proof.
  intros Hn Hg. destruct o as [i r|i|i|i|i]; simpl; case_decide as E; try done.
  - by apply init_step_ok.
  - by apply add_step_ok.
  - by apply poll_step_ok.
  - assert (SRunning ∈ stages g) as Hin by (by eapply list_elem_of_lookup_2).
    destruct (e_entered _ _ Hg SRunning Hin eq_refl) as [Hf Ha]. destruct Hg as [H1 H2 H3 H4 H5 H6].
    assert (SCrashed ∈ <[i := SCrashed]> (stages g)) as Hcr
      by (eapply list_elem_of_lookup_2, list_lookup_insert_eq; by eapply lookup_lt_Some). pose proof (tally_bounds (stages g)). split; simpl.
    + by rewrite length_insert.
    + by left.
    + rewrite (tally_insert _ _ SRunning) by done. simpl. unfold ExceptionThrown in *. lia.
    + intros s Hs Hse. split; [done|]. intros t Ht. destruct (stage_insert _ _ SRunning SCrashed _ E Ht) as [->|]; [done|by apply Ha].
    + by right.
    + by right.
  - apply (move_ok n g i SRunning); try done. intros _. apply (e_entered _ _ Hg SRunning); [by eapply list_elem_of_lookup_2|done].
Qed.

Lemma engine_new_ok n : engine_ok n (engine_new n).
Proof.
  assert (tally (replicate n SInit) = 0) as Ht by (induction n; [done|]; simpl; lia).
  split; simpl; rewrite ?Ht.
  - apply length_replicate.
  - right. split_and!; [done|done| |]; by intros [? _]%elem_of_replicate.
  - done.
  - by intros s [-> _]%elem_of_replicate.
  - done.
  - by intros [? _]%elem_of_replicate.
Qed.

Lemma engine_run_ok n os : (n <= 256)%nat -> engine_ok n (run os (engine_new n)).
Proof.
  intros Hn. unfold run. generalize (engine_new_ok n). generalize (engine_new n). induction os as [|o os IH]; intros g Hg; [done|].
  simpl. by apply IH, engine_step_ok.
Qed.

(** C25: No core runs before all are initialised, and none runs if one failed: whatever the
    interleaving, once a core has entered its workflow, the initialisation of every core has
    succeeded and every core has passed its [fetch_add] of the barrier. And a core is turned
    away at the barrier only because some initialisation failed or because a core that was
    already running was stopped by an exception before this one polled: the cores need not all
    run, but without an error none is turned away. *)
Theorem startup_gate n os :
  (n <= 256)%nat -> let g := run os (engine_new n) in
  (forall s, s ∈ stages g -> entered s = true ->
     failed g = false /\ forall t, t ∈ stages g -> t <> SInit /\ t <> SReady /\ t <> SThrown) /\
  (SRefused ∈ stages g -> failed g = true \/ SCrashed ∈ stages g).
Proof.
  intros Hn g. pose proof (engine_run_ok n os Hn) as Hg. split; [|apply (e_refused _ _ Hg)]. intros s Hs He.
  destruct (e_entered _ _ Hg s Hs He) as [Hf Ha]. split; [done|]. intros t Ht. specialize (Ha t Ht). by destruct t.
Qed.

(** C36: The barrier does not block: when no core is initialising or about to do its
    [fetch_add], the next poll of a waiting core lets it through or turns it away, through if
    no error was recorded, and the wait of [Main::start] is over. *)
Theorem startup_progress n os i :
  (n <= 256)%nat -> let g := run os (engine_new n) in
  ~ SInit ∈ stages g -> ~ SReady ∈ stages g -> stages g !! i = Some SSpin ->
  stages (step (OPoll i) g) !! i = Some (if hasError g then SRefused else SRunning) /\ start_wait g = Some (hasError g).
Proof.
  intros Hn g H1 H2 E. pose proof (engine_run_ok n os Hn) as Hg. fold g in Hg.
  assert (zlen (stages g) <= sync_start g) as Hge.
  { unfold zlen. rewrite (e_len _ _ Hg). destruct (e_count _ _ Hg) as [?|(-> & _ & _ & Ht)]; [unfold BadInit in *; lia|].
    rewrite tally_full; [unfold zlen; rewrite (e_len _ _ Hg); lia|]. intros s Hs. by destruct s. }
  assert (i < length (stages g))%nat as Hi by (by eapply lookup_lt_Some).
  unfold start_wait. simpl. rewrite decide_True by done. unfold poll_step, hasError.
  destruct (Z.ltb_spec (sync_start g) (zlen (stages g))); [lia|]. split; [|done].
  destruct (Z.ltb_spec (sync_start g) BadInit), (Z.leb_spec BadInit (sync_start g)); try lia; simpl; by apply list_lookup_insert_eq.
Qed.

(** Three cores: the third fails to initialise its actors. *)
Definition demo_fail : list op := [OInit 0 IGood; OAdd 0; OPoll 0; OInit 1 IGood; OInit 2 IBadActorInit; OAdd 1; OAdd 2; OPoll 1].
Definition demo_run : list op := [OInit 0 IGood; OAdd 0; OInit 1 IGood; OAdd 1; OPoll 0].

(** Both cores initialise; the first runs and throws before the second polls. *)
Definition demo_crash : list op := [OInit 0 IGood; OAdd 0; OInit 1 IGood; OAdd 1; OPoll 0; OThrow 0; OPoll 1].

Lemma startup_gate_witness :
  stages (run demo_run (engine_new 2)) = [SRunning; SSpin] /\ failed (run demo_run (engine_new 2)) = false /\
  stages (run demo_fail (engine_new 3)) = [SSpin; SRefused; SSpin] /\
  stages (run demo_crash (engine_new 2)) = [SCrashed; SRefused] /\
  (failed (run demo_crash (engine_new 2)) = true \/ SCrashed ∈ stages (run demo_crash (engine_new 2))).
Proof.
  destruct (startup_gate 2 demo_run ltac:(lia)) as [H1 _]. destruct (H1 SRunning ltac:(left) eq_refl) as [H2 _].
  destruct (startup_gate 2 demo_crash ltac:(lia)) as [_ H3].
  split_and!; [reflexivity|exact H2|reflexivity|reflexivity|apply H3; right; left].
Defined.

Lemma startup_progress_witness :
  let g := run demo_fail (engine_new 3) in stages (step (OPoll 2) g) !! 2%nat = Some SRefused /\ start_wait g = Some true.
Proof.
  apply (startup_progress 3 demo_fail 2); [lia| | |reflexivity]; vm_compute; intros Hin;
    repeat (apply elem_of_cons in Hin as [Hin|Hin]; [discriminate Hin|]); by apply elem_of_nil in Hin.
Defined.

(** * Signals: what a core delivers *)

Definition raise (l : list Z) (s : signals) : signals := fold_left (fun s n => onSignal n s) l s.

Lemma raise_spec l s :
  0 <= _signal_generation s < 2 ^ 32 ->
  _signal_generation (raise l s) = u32 (_signal_generation s + zlen l) /\
  _signal_pending (raise l s) = default (_signal_pending s) (last l).
Proof.
  unfold zlen. revert s. induction l as [|n l IH]; intros s Hs; cbn [raise fold_left length].
  - rewrite Z.add_0_r, u32_small by lia. done.
  - destruct (IH (onSignal n s)) as [Hg Hp]; [unfold onSignal, u32; cbn; apply Z.mod_pos_bound; lia|].
    unfold raise in *. rewrite Hg, Hp, last_cons. cbn [onSignal _signal_generation _signal_pending]. split.
    + unfold u32. rewrite Zplus_mod_idemp_l. f_equal. lia.
    + by destruct (last l).
Qed.

(** A core that is up to date delivers, at its next poll, the latest of the signals raised
    since (fewer than 2^32 of them), whatever was pending before, and only once: another poll
    delivers nothing, and neither does a poll when none was raised. *)
Theorem signals_delivered_once s l c :
  0 <= _signal_generation s < 2 ^ 32 -> _last_signal_generation c = _signal_generation s ->
  zlen l < 2 ^ 32 -> (forall n, n ∈ l -> n <> 0) ->
  let s' := raise l s in
  let '(o, c') := poll_signal false s' c in
  o = last l /\ _last_signal_generation c' = _signal_generation s' /\ (poll_signal false s' c').1 = None.
Proof.
  intros Hs Hc Hl Hn s'. destruct (raise_spec l s Hs) as [Hg Hp]. fold s' in Hg, Hp.
  assert (forall c', _last_signal_generation c' = _signal_generation s' -> poll_signal false s' c' = (None, c')) as Hsame.
  { intros c' Hc'. unfold poll_signal. rewrite Hc', Z.eqb_refl. cbn. rewrite andb_false_r, orb_false_r. by destruct (negb _). }
  destruct (last l) as [n|] eqn:E.
  - assert (n <> 0) as Hn0 by (apply Hn; by apply last_Some_elem_of).
    assert (_signal_generation s' <> _signal_generation s) as Hne.
    { rewrite Hg. assert (0 < zlen l) by (destruct l; [done|unfold zlen; simpl; lia]). unfold u32. intros Heq.
      assert ((_signal_generation s + zlen l) mod 2 ^ 32 = _signal_generation s mod 2 ^ 32) as Hm by (rewrite (Z.mod_small (_signal_generation s)); lia).
      apply (f_equal (fun x => (x - _signal_generation s) mod 2 ^ 32)) in Hm. rewrite !Zminus_mod_idemp_l in Hm.
      replace (_signal_generation s + zlen l - _signal_generation s) with (zlen l) in Hm by lia.
      rewrite Z.sub_diag, Z.mod_0_l, Z.mod_small in Hm by lia. lia. }
    assert (poll_signal false s' c = (Some n, Watcher (_signal_generation s') (_stop_delivered c))) as ->.
    { unfold poll_signal. rewrite Hp. cbn. apply Z.eqb_neq in Hn0, Hne. by rewrite Hn0, Hc, Hne. }
    by rewrite Hsame.
  - apply last_None in E. subst l. rewrite Hsame; [by rewrite Hsame|]. done.
Qed.

(** An interrupt is followed by a reload signal and a [stop] before the core polls. *)
Lemma signals_delivered_once_witness :
  (poll_signal false (raise [1; SIGINT] (onSignal 15 signals_reset)) (Watcher 1 false)).1 = Some SIGINT /\
  stop (raise [1] (onSignal 15 signals_reset)) = raise [1; SIGINT] (onSignal 15 signals_reset).
Proof.
  pose proof (signals_delivered_once (onSignal 15 signals_reset) [1; SIGINT] (Watcher 1 false) ltac:(done) ltac:(done) ltac:(done)) as HS.
  assert (forall n, n ∈ [1; SIGINT] -> n <> 0) as Hn by (unfold SIGINT; set_solver).
  specialize (HS Hn). cbv zeta in HS. destruct (poll_signal _ _ _) as [o c']. destruct HS as [-> _]. split; reflexivity.
Defined.
