(* ===== verification/Uri.v ===== *)
(** URIs (src/qb/io/uri.h, uri.cpp): percent encoding, the parser, query parameters and path
    normalisation.

    A string is a list of [ascii] bytes; the character tests of the source only accept ASCII
    characters, so the sign of [char] does not matter. A pointer range into the source is the
    list it delimits; the loops that move a pointer while a condition holds are [span]. Path
    normalisation keeps the indices of the code. *)

From S2P Require Import Prelude UriPorts.
From Stdlib Require Import Ascii.
From stdpp Require Import strings.

#[local] Open Scope Z_scope.

Abbreviation str := (list ascii).

Definition chars (s : string) : str := String.list_ascii_of_string s.

(** * Characters *)

Definition code (c : ascii) : Z := Z.of_N (N_of_ascii c).
Definition chr (z : Z) : ascii := ascii_of_N (Z.to_N (u8 z)).
Definition within (lo hi c : ascii) : bool := (code lo <=? code c) && (code c <=? code hi).
Definition eqc (c d : ascii) : bool := Ascii.eqb c d.
Definition one_of (s : string) (c : ascii) : bool := existsb (Ascii.eqb c) (chars s).

Definition is_alnum (c : ascii) : bool := within "0" "9" c || within "A" "Z" c || within "a" "z" c.
Definition isalpha (c : ascii) : bool := within "A" "Z" c || within "a" "z" c.
Definition is_digit (c : ascii) : bool := within "0" "9" c.
Definition is_hex_digit (c : ascii) : bool := within "0" "9" c || within "a" "f" c || within "A" "F" c.
Definition is_unreserved (c : ascii) : bool := is_alnum c || one_of "-._~" c.
Definition is_gen_delim (c : ascii) : bool := one_of ":/?#[]@" c.
Definition is_sub_delim (c : ascii) : bool := one_of "!$&'()*+,;=" c.
Definition is_reserved (c : ascii) : bool := is_gen_delim c || is_sub_delim c.
Definition is_scheme_character (c : ascii) : bool := is_alnum c || one_of "+-." c.
Definition is_authority_character (c : ascii) : bool := is_unreserved c || is_sub_delim c || one_of "%@:[]" c.
Definition is_path_character (c : ascii) : bool := is_unreserved c || is_sub_delim c || one_of "%/:@" c.

Definition hex_value (c : ascii) : Z :=
  if within "0" "9" c then code c - code "0"
  else if within "a" "f" c then code c - code "a" + 10
  else if within "A" "F" c then code c - code "A" + 10
  else 0.

Definition charToLower (c : ascii) : ascii := if within "A" "Z" c then chr (code c + 32) else c.
Definition convert (s : str) : str := map charToLower s.

(** * Percent encoding *)

(** [uri::tbl] *)
Definition tbl : list Z := [
  -1; -1; -1; -1; -1; -1; -1; -1; -1; -1; -1; -1; -1; -1; -1; -1; -1; -1; -1; -1; -1; -1; -1; -1; -1; -1; -1; -1; -1; -1; -1; -1;
  -1; -1; -1; -1; -1; -1; -1; -1; -1; -1; -1; -1; -1; -1; -1; -1; 0; 1; 2; 3; 4; 5; 6; 7; 8; 9; -1; -1; -1; -1; -1; -1;
  -1; 10; 11; 12; 13; 14; 15; -1; -1; -1; -1; -1; -1; -1; -1; -1; -1; -1; -1; -1; -1; -1; -1; -1; -1; -1; -1; -1; -1; -1; -1; -1;
  -1; 10; 11; 12; 13; 14; 15; -1; -1; -1; -1; -1; -1; -1; -1; -1; -1; -1; -1; -1; -1; -1; -1; -1; -1; -1; -1; -1; -1; -1; -1; -1;
  -1; -1; -1; -1; -1; -1; -1; -1; -1; -1; -1; -1; -1; -1; -1; -1; -1; -1; -1; -1; -1; -1; -1; -1; -1; -1; -1; -1; -1; -1; -1; -1;
  -1; -1; -1; -1; -1; -1; -1; -1; -1; -1; -1; -1; -1; -1; -1; -1; -1; -1; -1; -1; -1; -1; -1; -1; -1; -1; -1; -1; -1; -1; -1; -1;
  -1; -1; -1; -1; -1; -1; -1; -1; -1; -1; -1; -1; -1; -1; -1; -1; -1; -1; -1; -1; -1; -1; -1; -1; -1; -1; -1; -1; -1; -1; -1; -1;
  -1; -1; -1; -1; -1; -1; -1; -1; -1; -1; -1; -1; -1; -1; -1; -1; -1; -1; -1; -1; -1; -1; -1; -1; -1; -1; -1; -1; -1; -1; -1; -1
].

Definition hex : str := chars "0123456789ABCDEF".
Definition hex_digit (z : Z) : ascii := default "0"%char (zget hex z).
Definition percent (c : ascii) : str :=
  ["%"%char; hex_digit (Z.land (Z.shiftr (code c) 4) 15); hex_digit (Z.land (code c) 15)].

(** [decode(string_view)] and [encode(string_view)] *)
Fixpoint decode (input : str) : str :=
  match input with
  | [] => []
  | c :: rest =>
      if eqc c "%" then
        match rest with
        | h :: ((l :: rest') as _) =>
            if is_hex_digit h && is_hex_digit l then chr (Z.lor (Z.shiftl (hex_value h) 4) (hex_value l)) :: decode rest'
            else "%"%char :: decode rest
        | _ => c :: decode rest
        end
      else if eqc c "+" then " "%char :: decode rest
      else c :: decode rest
  end.

Definition encode_char (c : ascii) : str :=
  if is_unreserved c then [c] else if eqc c " " then ["+"%char] else percent c.
Definition encode (input : str) : str := flat_map encode_char input.

(** The iterator versions: [decode] stops at a malformed sequence, [encode] keeps reserved
    characters. *)
Definition tbl_at (c : ascii) : Z := default (-1) (zget tbl (code c)).

Fixpoint decode_range (input : str) : str :=
  match input with
  | [] => []
  | c :: rest =>
      if eqc c "%" then
        match rest with
        | h :: l :: rest' =>
            if tbl_at h <? 0 then [] else if tbl_at l <? 0 then []
            else chr (Z.lor (Z.shiftl (tbl_at h) 4) (tbl_at l)) :: decode_range rest'
        | _ => []
        end
      else c :: decode_range rest
  end.

Definition encode_range_char (c : ascii) : str := if negb (is_unreserved c) && negb (is_reserved c) then percent c else [c].
Definition encode_range (input : str) : str := flat_map encode_range_char input.

(** * Parsing *)

(** The longest prefix whose characters satisfy [f], and the rest. *)
Fixpoint span (f : ascii -> bool) (s : str) : str * str :=
  match s with
  | [] => ([], [])
  | c :: r => if f c then let '(a, b) := span f r in (c :: a, b) else ([], s)
  end.

Definition until (stops : string) (s : str) : str * str := span (fun c => negb (one_of stops c)) s.

(** The address families, the values of the platform's headers. *)
Inductive family := AF_INET | AF_INET6 | AF_UNIX.

#[export] Instance family_eq_dec : EqDecision family.
Proof. solve_decision. Defined.

Record uri := Uri {
  _af : family; _valid : bool; _source : str; _scheme : str; _user_info : str; _host : str; _port : str; _path : str;
  _raw_queries : str; _fragment : str; _queries : gmap str (list str)
}.

(** A scheme is a letter and scheme characters before a colon. *)
Definition parse_scheme (s : str) : option str * str :=
  match s with
  | c :: r =>
      if isalpha c then
        match span is_scheme_character r with
        | (a, d :: r') => if eqc d ":" then (Some (c :: a), r') else (None, s)
        | (_, []) => (None, s)
        end
      else (None, s)
  | [] => (None, s)
  end.

(** The last colon of [s] that is not its first character, searched from the end. *)
Definition last_colon (s : str) : option (str * str) :=
  match s with
  | [] => None
  | c :: r =>
      match span (fun d => negb (eqc d ":")) (reverse r) with
      | (b, _ :: a) => Some (c :: reverse a, reverse b)
      | (_, []) => None
      end
  end.

(** Host and port of an authority without its user information; [None] is invalid. *)
Definition parse_host_port (s : str) : option (str * option str) :=
  match s with
  | c :: r =>
      if eqc c "[" then
        match span (fun d => negb (eqc d "]")) r with
        | (_, []) => None
        | (inside, _ :: after) =>
            let host := c :: inside ++ ["]"%char] in
            match after with
            | d :: port => if eqc d ":" then if forallb is_digit port then Some (host, Some port) else None else Some (host, None)
            | [] => Some (host, None)
            end
        end
      else
        match last_colon s with
        | Some (host, port) => if forallb is_digit port && negb (bool_decide (port = [])) then Some (host, Some port) else Some (s, None)
        | None => Some (s, None)
        end
  | [] => Some ([], None)
  end.

Definition parse_authority (s : str) : option (option str * str * option str) :=
  match span (fun c => negb (eqc c "@")) s with
  | (uinfo, _ :: r) => '(host, port) ← parse_host_port r; Some (Some uinfo, host, port)
  | (_, []) => '(host, port) ← parse_host_port s; Some (None, host, port)
  end.

(** ** Query parameters *)

(** [_queries[key].push_back(value)]; the map lower-cases its keys. *)
Definition add_query (key value : str) (q : gmap str (list str)) : gmap str (list str) :=
  <[convert key := default [] (q !! convert key) ++ [value]]> q.

(** Key and value of one parameter, split at its first equals sign. *)
Definition parse_param (param : str) : str * str :=
  match span (fun c => negb (eqc c "=")) param with
  | (key, _ :: value) => (decode key, decode value)
  | (key, []) => (decode key, [])
  end.

(** One turn of the loop per parameter: skip ampersands, take the parameter up to the next one.
    Every turn but the last consumes a character. *)
Fixpoint query_loop (fuel : nat) (s : str) (q : gmap str (list str)) : gmap str (list str) :=
  match fuel with
  | O => q
  | S fuel =>
      match (span (eqc "&") s).2 with
      | [] => q
      | s =>
          let '(param, rest) := span (fun c => negb (eqc c "&")) s in
          let '(key, value) := parse_param param in
          query_loop fuel (tail rest) (add_query key value q)
      end
  end.

Definition parse_query_parameters (s : str) (q : gmap str (list str)) : gmap str (list str) := query_loop (S (length s)) s q.

(** [query] and [query_or] *)
Definition query_or (name : str) (fallback : str) (index : nat) (u : uri) : str :=
  match _queries u !! convert name with Some vs => default fallback (vs !! index) | None => fallback end.
Definition query (name : str) (index : nat) (u : uri) : str := query_or name [] index u.

(** ** The whole source *)

Definition default_port (scheme : str) : option str :=
  chars ∘ snd <$> List.find (fun p => bool_decide (chars p.1 = scheme)) default_ports.

Definition bracketed (host : str) : bool :=
  match host with c :: ((_ :: _) as r) => eqc c "[" && eqc (List.last r " "%char) "]" | _ => false end.

(** The family and the stored host of a non-empty authority. *)
Definition locate (af : family) (host : str) : family * str :=
  match af with
  | AF_UNIX => (AF_UNIX, host)
  | _ =>
      if bracketed host then (AF_INET6, removelast (tail host))
      else (if existsb (fun c => eqc c ":") host then AF_INET6 else AF_INET, host)
  end.

(** What is left of a uri whose source is rejected. *)
Definition parse_failed (u : uri) : uri := Uri (_af u) false (_source u) [] [] [] [] [] [] [] ∅.

(** The part of [parse] after the authority: path, query and fragment, then the fields. *)
Definition parse_rest (u : uri) (scheme : option str) (authority : option (option str * str * option str)) (s : str) : uri :=
  let '(path, s) := until "?#" s in
  if negb (forallb is_path_character path) then parse_failed u
  else
    let '(query, s) := match s with
                       | c :: r => if eqc c "?" then let '(q, r) := until "#" r in (q, r) else ([], s)
                       | [] => ([], s)
                       end in
    let fragment := match s with c :: r => if eqc c "#" then r else [] | [] => [] end in
    let af := if bool_decide (scheme = Some (chars "unix")) then AF_UNIX else _af u in
    let '(uinfo, host, port) := match authority with
                                | Some (i, h, p) => (i, Some h, p)
                                | None => (None, None, None)
                                end in
    let '(af, host) := match host with Some h => locate af h | None => (af, []) end in
    let port := match port with
                | Some p => p
                | None => match scheme with Some c => default [] (default_port c) | None => [] end
                end in
    Uri af true (_source u) (default [] scheme) (default [] uinfo) host port
        (match path with [] => chars "/" | _ => path end) query fragment
        (match query with [] => ∅ | _ => parse_query_parameters query ∅ end).

(** [uri::parse]; the returned flag is [_valid]. The address family is not reset. *)
Definition parse (u : uri) : uri :=
  match _source u with
  | [] => Uri (_af u) true [] [] [] [] [] (chars "/") [] [] ∅
  | s =>
      let '(scheme, s) := parse_scheme s in
      match s with
      | c :: d :: r =>
          if eqc c "/" && eqc d "/" then
            let '(authority, rest) := until "/?#" r in
            if negb (forallb is_authority_character authority) then parse_failed u
            else
              match authority with
              | [] => parse_rest u scheme None rest
              | _ =>
                  match parse_authority authority with
                  | None => parse_failed u
                  | Some a => parse_rest u scheme (Some a) rest
                  end
              end
          else parse_rest u scheme None s
      | _ => parse_rest u scheme None s
      end
  end.

Definition uri_default : uri := Uri AF_INET true [] [] [] [] [] [] [] [] ∅.
Definition with_source (s : str) (u : uri) : uri :=
  Uri (_af u) (_valid u) s (_scheme u) (_user_info u) (_host u) (_port u) (_path u) (_raw_queries u) (_fragment u) (_queries u).

(** The constructors from a string, [from] and assignment from a string. *)
Definition make (s : str) (af : family) : uri := parse (Uri af true s [] [] [] [] [] [] [] ∅).
Definition from (s : str) (u : uri) : uri := parse (with_source s u).
(** Copy assignment. *)
Definition assign (rhs u : uri) : uri :=
  parse (Uri (_af rhs) (_valid u) (_source rhs) (_scheme u) (_user_info u) (_host u) (_port u) (_path u) (_raw_queries u) (_fragment u) (_queries u)).

(** [u_port]: [std::from_chars] into an [int] reads the leading digits (after a minus sign). *)
Fixpoint from_digits (acc : Z) (s : str) : Z * str :=
  match s with
  | c :: r => if is_digit c then from_digits (10 * acc + (code c - code "0")) r else (acc, s)
  | [] => (acc, [])
  end.

Definition from_chars (s : str) : option (Z * str) :=
  let '(neg, d) := match s with c :: r => if eqc c "-" then (true, r) else (false, s) | [] => (false, s) end in
  match d with
  | c :: _ =>
      if is_digit c then
        let '(v, r) := from_digits 0 d in
        let v := if neg : bool then - v else v in
        if (- 2 ^ 31 <=? v) && (v <? 2 ^ 31) then Some (v, r) else None
      else None
  | [] => None
  end.

Definition u_port (u : uri) : Z :=
  match from_chars (_port u) with
  | Some (p, []) => if (p <? 0) || (65535 <? p) then 0 else u16 p
  | _ => 0
  end.

(** ** Validation *)

Definition is_valid_scheme (s : str) : bool :=
  match s with [] => false | c :: _ => isalpha c && forallb is_scheme_character s end.
Definition is_valid_host (s : str) : bool := match s with [] => false | _ => forallb is_authority_character s end.

(** * Path normalisation *)

(** [path.find('/', pos)] *)
Fixpoint find_slash (pos : Z) (s : str) : option Z :=
  match s with [] => None | c :: r => if eqc c "/" then Some pos else find_slash (pos + 1) r end.
Definition find_from (path : str) (start : Z) : option Z := find_slash start (drop (Z.to_nat start) path).

Fixpoint split_loop (fuel : nat) (path : str) (start : Z) (segments : list str) : list str :=
  match fuel with
  | O => segments
  | S fuel =>
      match find_from path start with
      | Some pos => split_loop fuel path (pos + 1) (if start <? pos then segments ++ [zslice path start (pos - start)] else segments)
      | None => if start <? zlen path then segments ++ [zslice path start (zlen path - start)] else segments
      end
  end.

Definition dot : str := chars ".".
Definition dotdot : str := chars "..".

Definition resolve_segment (is_absolute : bool) (normalized : list str) (segment : str) : list str :=
  if bool_decide (segment = dot) then normalized
  else if bool_decide (segment = dotdot) then
    if negb (bool_decide (normalized = [])) && negb (bool_decide (last normalized = Some dotdot)) then removelast normalized
    else if negb is_absolute then normalized ++ [dotdot]
    else normalized
  else normalized ++ [segment].

Fixpoint rebuild (normalized : list str) : str :=
  match normalized with
  | [] => []
  | [s] => s
  | s :: r => s ++ chars "/" ++ rebuild r
  end.

Definition normalize_path (path : str) : str :=
  match path with
  | [] => chars "/"
  | _ =>
      let path := map (fun c => if eqc c "\" then "/"%char else c) path in
      if bool_decide (path = chars "/") || bool_decide (path = dot) then chars "/"
      else
        let is_absolute := match path with c :: _ => eqc c "/" | [] => false end in
        let segments := split_loop (S (length path)) path (if is_absolute then 1 else 0) [] in
        let normalized := fold_left (resolve_segment is_absolute) segments [] in
        let result := (if is_absolute then chars "/" else []) ++ rebuild normalized in
        match result with [] => if is_absolute then chars "/" else [] | _ => result end
  end.

(** * Percent encoding round trips *)

Lemma eqc_spec c d : reflect (c = d) (eqc c d).
Proof. apply Ascii.eqb_spec. Qed.

Lemma decode_encode_char c r : decode (encode_char c ++ r) = c :: decode r.
Proof. destruct c as [[] [] [] [] [] [] [] []]; reflexivity. Qed.

Lemma decode_encode s : decode (encode s) = s.
Proof. unfold encode. induction s as [|c s IH]; [done|]. cbn [flat_map]. by rewrite decode_encode_char, IH. Qed.

Lemma decode_encode_range_char c r : decode_range (encode_range_char c ++ r) = c :: decode_range r.
Proof. destruct c as [[] [] [] [] [] [] [] []]; reflexivity. Qed.

(** The characters of encoded text. *)
Definition safe_char (c : ascii) : bool := is_unreserved c || one_of "+%" c.

Lemma encode_char_safe c : forallb safe_char (encode_char c) = true.
Proof. destruct c as [[] [] [] [] [] [] [] []]; reflexivity. Qed.

Lemma encode_safe s : forallb safe_char (encode s) = true.
Proof. unfold encode. induction s as [|c s IH]; [done|]. cbn [flat_map]. by rewrite forallb_app, encode_char_safe, IH. Qed.

(** Percent encoding loses nothing: decoding what was encoded gives the bytes back, for the
    form encoding of query strings and for the plain one, and encoded text has only unreserved
    characters, plus signs and percent signs. *)
Theorem uri_codec_roundtrip s :
  decode (encode s) = s /\ decode_range (encode_range s) = s /\ forallb safe_char (encode s) = true.
Proof.
  split_and!; [apply decode_encode| |apply encode_safe].
  unfold encode_range. induction s as [|c s IH]; [done|]. cbn [flat_map]. by rewrite decode_encode_range_char, IH.
Qed.

(** * Query parameters *)

Lemma span_app f a b : forallb f a = true -> span f (a ++ b) = (a ++ (span f b).1, (span f b).2).
Proof.
  induction a as [|c a IH]; simpl; [by destruct (span f b)|]. intros [Hc Ha]%andb_true_iff. rewrite Hc, (IH Ha). done.
Qed.

(** A run of [f] ended by a character outside it, or by the end. *)
Lemma span_stop f a c b : forallb f a = true -> f c = false -> span f (a ++ c :: b) = (a, c :: b).
Proof. intros Ha Hc. rewrite (span_app f a (c :: b) Ha). simpl. by rewrite Hc, app_nil_r. Qed.

Lemma span_end f a : forallb f a = true -> span f a = (a, []).
Proof. intros Ha. pose proof (span_app f a [] Ha) as E. by rewrite !app_nil_r in E. Qed.

Lemma forallb_weaken (f g : ascii -> bool) s : (forall c, f c = true -> g c = true) -> forallb f s = true -> forallb g s = true.
Proof. intros H. rewrite !forallb_forall. auto. Qed.

(** The query string of some parameters. *)
Definition render_param (p : str * str) : str := encode p.1 ++ "="%char :: encode p.2.
Fixpoint render_query (ps : list (str * str)) : str :=
  match ps with
  | [] => []
  | [p] => render_param p
  | p :: ps => render_param p ++ "&"%char :: render_query ps
  end.

Lemma parse_render_param p : parse_param (render_param p) = p.
Proof.
  destruct p as [k v]. unfold parse_param, render_param. cbn [fst snd]. rewrite span_stop; [|eapply forallb_weaken, encode_safe|done].
  - by rewrite !decode_encode.
  - intros c. destruct c as [[] [] [] [] [] [] [] []]; done.
Qed.

Lemma param_no_amp p : forallb (fun c => negb (eqc c "&")) (render_param p) = true.
Proof.
  destruct p as [k v]. unfold render_param. rewrite forallb_app. cbn [forallb].
  rewrite !(forallb_weaken safe_char (fun c => negb (eqc c "&"))); [done|..]; try apply encode_safe; intros c; destruct c as [[] [] [] [] [] [] [] []]; done.
Qed.

(** A parameter starts with a character that is not skipped. *)
Lemma param_start p b : (span (eqc "&") (render_param p ++ b)).2 = render_param p ++ b.
Proof.
  pose proof (param_no_amp p) as Hp. unfold render_param in *. destruct (encode p.1) as [|c l]; [done|].
  cbn [app forallb span] in Hp |- *. apply andb_true_iff in Hp as [Hc _]. by destruct (eqc_spec "&" c) as [<-|].
Qed.

Lemma query_loop_render fuel ps q :
  (length (render_query ps) < fuel)%nat -> query_loop fuel (render_query ps) q = fold_left (fun q p => add_query p.1 p.2 q) ps q.
Proof.
  revert fuel q. induction ps as [|p ps IH]; intros fuel q Hf; destruct fuel as [|fuel]; try (simpl in Hf; lia); [done|].
  assert (forall b, exists c t, render_param p ++ b = c :: t) as Hne.
  { intros b. unfold render_param. destruct (encode p.1); simpl; eauto. }
  assert (exists b, render_query (p :: ps) = render_param p ++ b /\ (span (fun c => negb (eqc c "&")) (render_param p ++ b)) = (render_param p, b) /\
            tail b = render_query ps) as (b & Eb & Es & Et).
  { destruct ps as [|p' ps].
    - exists []. rewrite app_nil_r. split_and!; [done|apply span_end, param_no_amp|done].
    - exists ("&"%char :: render_query (p' :: ps)). split_and!; [done| |done]. apply span_stop; [apply param_no_amp|done]. }
  rewrite Eb in *. cbn [query_loop]. rewrite param_start. destruct (Hne b) as (c & t & Ec). rewrite Ec. cbv iota. rewrite <- Ec, Es, parse_render_param.
  destruct p as [k v]. rewrite Et. cbn [fold_left fst snd]. apply IH. rewrite length_app in Hf. rewrite <- Et.
  assert (length (tail b) <= length b)%nat by (destruct b; simpl; lia). unfold render_param in Hf. rewrite length_app in Hf. simpl in Hf. lia.
Qed.

(** Query strings round trip: the parameters of a query string that was put together from
    encoded keys and values are these, in order, whatever bytes they hold. *)
Theorem query_roundtrip ps :
  parse_query_parameters (render_query ps) ∅ = fold_left (fun q p => add_query p.1 p.2 q) ps ∅.
Proof. apply query_loop_render. lia. Qed.

(** * Path normalisation: a reference definition *)

Fixpoint split_slash (s : str) : list str :=
  match s with
  | [] => [[]]
  | c :: r => if eqc c "/" then [] :: split_slash r else match split_slash r with x :: l => (c :: x) :: l | [] => [[c]] end
  end.

Definition segments (s : str) : list str := filter (fun x => x <> []) (split_slash s).

(** The directories entered so far, the last one first. *)
Definition enter (is_absolute : bool) (dirs : list str) (segment : str) : list str :=
  if bool_decide (segment = dot) then dirs
  else if bool_decide (segment = dotdot) then
    match dirs with
    | top :: up => if bool_decide (top = dotdot) then if is_absolute then dirs else dotdot :: dirs else up
    | [] => if is_absolute then [] else [dotdot]
    end
  else segment :: dirs.

Definition slashes (path : str) : str := map (fun c => if eqc c "\" then "/"%char else c) path.

Definition normalize_reference (path : str) : str :=
  let path := slashes path in
  if bool_decide (path = []) || bool_decide (path = dot) then chars "/"
  else
    match path with
    | c :: r => if eqc c "/" then "/"%char :: rebuild (reverse (fold_left (enter true) (segments r) []))
                else rebuild (reverse (fold_left (enter false) (segments path) []))
    | [] => []
    end.

Lemma split_no_slash s : forallb (fun c => negb (eqc c "/")) s = true -> split_slash s = [s].
Proof.
  induction s as [|c s IH]; [done|]. cbn [forallb split_slash]. intros [Hc Hs]%andb_true_iff. rewrite (IH Hs).
  by destruct (eqc c "/").
Qed.

Lemma split_slash_app a b : forallb (fun c => negb (eqc c "/")) a = true -> split_slash (a ++ "/"%char :: b) = a :: split_slash b.
Proof.
  induction a as [|c a IH]; [done|]. cbn [forallb split_slash app]. intros [Hc Ha]%andb_true_iff. rewrite (IH Ha).
  by destruct (eqc c "/").
Qed.

Lemma find_slash_spec pos s :
  match find_slash pos s with
  | Some k => exists a b, s = a ++ "/"%char :: b /\ k = pos + zlen a /\ forallb (fun c => negb (eqc c "/")) a = true
  | None => forallb (fun c => negb (eqc c "/")) s = true
  end.
Proof.
  revert pos. induction s as [|c s IH]; intros pos; [done|]. cbn [find_slash]. destruct (eqc_spec c "/") as [->|Hne].
  - exists [], s. split_and!; [done|unfold zlen; simpl; lia|done].
  - assert (eqc c "/" = false) as Hc by (by destruct (eqc_spec c "/")).
    specialize (IH (pos + 1)). destruct (find_slash (pos + 1) s) as [k|].
    + destruct IH as (a & b & -> & -> & Ha). exists (c :: a), b. cbn [forallb]. rewrite Hc. split_and!; [done|unfold zlen; simpl; lia|done].
    + cbn [forallb]. by rewrite Hc.
Qed.

(** What is appended for a piece between two slashes. *)
Lemma split_loop_spec fuel path pre s segs :
  path = pre ++ s -> (length s < fuel)%nat -> split_loop fuel path (zlen pre) segs = segs ++ segments s.
Proof.
  revert pre s segs. induction fuel as [|fuel IH]; intros pre s segs -> Hf; [lia|]. cbn [split_loop]. unfold find_from.
  assert (drop (Z.to_nat (zlen pre)) (pre ++ s) = s) as -> by (unfold zlen; rewrite Nat2Z.id; apply drop_app_length).
  pose proof (find_slash_spec (zlen pre) s) as Hs. pose proof (zlen_nonneg pre). destruct (find_slash (zlen pre) s) as [k|].
  - destruct Hs as (a & b & -> & -> & Ha). pose proof (zlen_nonneg a).
    assert (zlen pre + zlen a + 1 = zlen (pre ++ a ++ ["/"%char])) as -> by zlens.
    rewrite (IH (pre ++ a ++ ["/"%char]) b); [|by rewrite <- !app_assoc|rewrite length_app in Hf; simpl in Hf; lia].
    unfold segments. rewrite split_slash_app, filter_cons by done.
    replace (zlen pre + zlen a - zlen pre) with (zlen a) by lia. rewrite zslice_app_r, (zslice_app_l a) by lia. rewrite zslice_all.
    destruct a as [|c a].
    + rewrite decide_False by (intros Hn; by apply Hn). rewrite zlen_nil. by destruct (Z.ltb_spec (zlen pre) (zlen pre + 0)); [lia|].
    + rewrite decide_True by done. destruct (Z.ltb_spec (zlen pre) (zlen pre + zlen (c :: a))); [by rewrite <- app_assoc|].
      unfold zlen in *. simpl in *. lia.
  - unfold segments. rewrite split_no_slash, filter_cons, filter_nil by done. rewrite zlen_app.
    replace (zlen pre + zlen s - zlen pre) with (zlen s) by lia. rewrite zslice_app_r, zslice_all. destruct s as [|c s].
    + rewrite decide_False by (intros Hn; by apply Hn). rewrite zlen_nil. destruct (Z.ltb_spec (zlen pre) (zlen pre + 0)); [lia|]. by rewrite app_nil_r.
    + rewrite decide_True by done. destruct (Z.ltb_spec (zlen pre) (zlen pre + zlen (c :: s))); [done|]. unfold zlen in *. simpl in *. lia.
Qed.

Lemma resolve_enter abs dirs seg : resolve_segment abs (reverse dirs) seg = reverse (enter abs dirs seg).
Proof.
  unfold resolve_segment, enter. case_bool_decide; [done|]. case_bool_decide; [|by rewrite reverse_cons].
  destruct dirs as [|top up]; [by destruct abs|]. rewrite reverse_cons, last_snoc, removelast_last.
  rewrite (bool_decide_eq_false_2 (reverse up ++ [top] = [])) by (by destruct (reverse up)). simpl.
  rewrite (bool_decide_ext (Some top = Some dotdot) (top = dotdot)) by (split; congruence).
  case_bool_decide; [|done]. subst. destruct abs; simpl; by rewrite ?reverse_cons.
Qed.

Lemma resolves_enter abs l dirs : fold_left (resolve_segment abs) l (reverse dirs) = reverse (fold_left (enter abs) l dirs).
Proof. revert dirs. induction l as [|x l IH]; intros dirs; [done|]. cbn [fold_left]. by rewrite resolve_enter, IH. Qed.

Lemma resolves_nil abs l : fold_left (resolve_segment abs) l [] = reverse (fold_left (enter abs) l []).
Proof. exact (resolves_enter abs l []). Qed.

Lemma normalize_path_eq path : normalize_path path = normalize_reference path.
Proof.
  unfold normalize_path, normalize_reference. destruct path as [|c0 path0]; [done|]. fold (slashes (c0 :: path0)).
  assert (exists c p, slashes (c0 :: path0) = c :: p) as (c & p & ->) by (simpl; eauto).
  rewrite (bool_decide_eq_false_2 (c :: p = [])) by done. cbn [orb].
  destruct (bool_decide (c :: p = dot)) eqn:Ed; [by rewrite orb_true_r|]. rewrite orb_false_r.
  destruct (eqc_spec c "/") as [->|Hne].
  - assert (split_loop (S (length ("/"%char :: p))) ("/"%char :: p) 1 [] = segments p) as -> by (by apply (split_loop_spec _ _ ["/"%char] p []); [|simpl; lia]).
    rewrite resolves_nil. clear Ed. case_bool_decide as Ep; [|reflexivity]. change (chars "/") with ["/"%char] in Ep. by injection Ep as ->.
  - rewrite (bool_decide_eq_false_2 (c :: p = chars "/")) by (intros [= -> _]; done).
    assert (split_loop (S (length (c :: p))) (c :: p) 0 [] = segments (c :: p)) as -> by (by apply (split_loop_spec _ _ [] (c :: p) []); [|simpl; lia]).
    rewrite resolves_nil. cbn [app]. by destruct (rebuild _).
Qed.

(** Path normalisation, which cuts the path at indices and edits a vector from its end, is
    equal to its definition by recursion: split at slashes, enter and leave directories on a
    stack, join. *)
Theorem normalize_path_reference path : normalize_path path = normalize_reference path.
Proof. apply normalize_path_eq. Qed.

(** ** Absolute paths *)

(** A directory name: not empty, not a dot segment, without separators. *)
Definition clean (s : str) : Prop :=
  s <> [] /\ s <> dot /\ s <> dotdot /\ forallb (fun c => negb (eqc c "/") && negb (eqc c "\")) s = true.

Lemma split_pieces s x :
  forallb (fun c => negb (eqc c "\")) s = true -> x ∈ split_slash s -> forallb (fun c => negb (eqc c "/") && negb (eqc c "\")) x = true.
Proof.
  revert x. induction s as [|c s IH]; intros x; cbn [forallb split_slash].
  { intros _ ->%list_elem_of_singleton. done. }
  intros [Hc Hs]%andb_true_iff. specialize (fun x => IH x Hs). destruct (eqc c "/") eqn:E.
  - intros [->|Hx]%elem_of_cons; [done|by apply IH].
  - destruct (split_slash s) as [|y l]; [intros ->%list_elem_of_singleton; cbn; by rewrite E, Hc|].
    intros [->|Hx]%elem_of_cons; [|apply IH; by right]. cbn [forallb]. rewrite E, Hc. apply IH. by left.
Qed.

Lemma slashes_clean p : forallb (fun c => negb (eqc c "\")) (slashes p) = true.
Proof. induction p as [|c p IH]; [done|]. cbn [slashes map forallb]. fold (slashes p). rewrite IH. by destruct (eqc c "\") eqn:E; rewrite ?E. Qed.

Lemma enter_clean l dirs :
  (forall x, x ∈ l -> x <> [] /\ forallb (fun c => negb (eqc c "/") && negb (eqc c "\")) x = true) ->
  Forall clean dirs -> Forall clean (fold_left (enter true) l dirs).
Proof.
  revert dirs. induction l as [|x l IH]; intros dirs Hl Hd; [done|]. cbn [fold_left]. apply IH; [set_solver|].
  destruct (Hl x) as [H1 H2]; [by left|]. unfold enter. case_bool_decide; [done|]. case_bool_decide; [|by constructor].
  destruct Hd as [|top up Ht Hup]; [constructor|]. case_bool_decide; [|done]. subst. by destruct Ht as (_ & _ & ? & _).
Qed.

(** Splitting what [rebuild] joined. *)
Lemma split_rebuild l : Forall clean l -> segments (rebuild l) = l.
Proof.
  intros Hl. assert (forall x, clean x -> forallb (fun c => negb (eqc c "/")) x = true) as Hns.
  { intros x (_ & _ & _ & Hx). eapply forallb_weaken, Hx. intros c [? _]%andb_true_iff. done. }
  unfold segments. induction Hl as [|x l Hx Hl IH]; [done|]. destruct l as [|y l].
  - cbn [rebuild]. rewrite split_no_slash, filter_cons, decide_True by (by apply Hns || by destruct Hx). done.
  - change (rebuild (x :: y :: l)) with (x ++ "/"%char :: rebuild (y :: l)).
    rewrite split_slash_app, filter_cons, decide_True by (by apply Hns || by destruct Hx). by rewrite IH.
Qed.

Lemma enter_all l dirs : Forall clean l -> fold_left (enter true) l dirs = reverse l ++ dirs.
Proof.
  intros Hl. revert dirs. induction Hl as [|x l (_ & H1 & H2 & _) _ IH]; intros dirs; [done|]. cbn [fold_left].
  assert (enter true dirs x = x :: dirs) as -> by (unfold enter; by rewrite !bool_decide_eq_false_2). by rewrite IH, reverse_cons, <- app_assoc.
Qed.

Lemma slashes_id s : forallb (fun c => negb (eqc c "\")) s = true -> slashes s = s.
Proof. induction s as [|c s IH]; [done|]. cbn [forallb slashes map]. intros [Hc Hs]%andb_true_iff. fold (slashes s). rewrite (IH Hs). by destruct (eqc c "\"). Qed.

Lemma rebuild_no_backslash l : Forall clean l -> forallb (fun c => negb (eqc c "\")) (rebuild l) = true.
Proof.
  intros Hl. assert (forall x, clean x -> forallb (fun c => negb (eqc c "\")) x = true) as Hns.
  { intros x (_ & _ & _ & Hx). eapply forallb_weaken, Hx. intros c [_ ?]%andb_true_iff. done. }
  induction Hl as [|x l Hx Hl IH]; [done|]. destruct l as [|y l]; [by apply Hns|].
  change (rebuild (x :: y :: l)) with (x ++ "/"%char :: rebuild (y :: l)). rewrite forallb_app, (Hns x Hx). cbn [forallb]. by rewrite IH.
Qed.

Lemma normalize_clean l : Forall clean l -> normalize_reference ("/"%char :: rebuild l) = "/"%char :: rebuild l.
Proof.
  intros Hl. unfold normalize_reference. assert (slashes ("/"%char :: rebuild l) = "/"%char :: rebuild l) as ->
    by (cbn [slashes map]; fold (slashes (rebuild l)); by rewrite slashes_id by (by apply rebuild_no_backslash)).
  rewrite (bool_decide_eq_false_2 (_ = [])), (bool_decide_eq_false_2 (_ = dot)) by done. cbn [orb].
  change (eqc "/" "/") with true. cbv iota. by rewrite split_rebuild, enter_all, app_nil_r, reverse_involutive by done.
Qed.

(** Normalising an absolute path gives a slash and directory names joined by slashes, none of
    them empty, a dot segment, or with a separator in it, so that the result never leads out of
    the root; and normalising it again changes nothing. *)
Theorem normalize_absolute_safe path :
  exists names, normalize_path ("/"%char :: path) = "/"%char :: rebuild names /\ Forall clean names /\
    normalize_path (normalize_path ("/"%char :: path)) = normalize_path ("/"%char :: path).
Proof.
  rewrite !normalize_path_eq. set (names := reverse (fold_left (enter true) (segments (slashes path)) [])).
  assert (Forall clean names) as Hc.
  { apply Forall_reverse, enter_clean; [|constructor]. intros x Hx. apply list_elem_of_filter in Hx as [Hne Hx]. split; [done|].
    eapply split_pieces; [apply slashes_clean|done]. }
  assert (normalize_reference ("/"%char :: path) = "/"%char :: rebuild names) as ->.
  { unfold normalize_reference. cbn [slashes map]. fold (slashes path).
    by rewrite (bool_decide_eq_false_2 (_ = [])), (bool_decide_eq_false_2 (_ = dot)). }
  exists names. split_and!; [done|done|]. by apply normalize_clean.
Qed.

(** * Parsing what was put together *)

Record parts := Parts {
  p_scheme : str; p_user : option str; p_host : str; p_port : option str; p_path : str; p_query : option str; p_fragment : option str
}.

(** [c] and the text, when there is one. *)
Definition prefixed (c : ascii) (s : option str) : str := match s with Some s => c :: s | None => [] end.

Definition render_authority (p : parts) : str :=
  match p_user p with Some i => i ++ "@"%char :: p_host p ++ prefixed ":" (p_port p) | None => p_host p ++ prefixed ":" (p_port p) end.

Definition render_rest (p : parts) : str := p_path p ++ prefixed "?" (p_query p) ++ prefixed "#" (p_fragment p).

Definition render (p : parts) : str := p_scheme p ++ ":"%char :: "/"%char :: "/"%char :: render_authority p ++ render_rest p.

Definition is_host_character (c : ascii) : bool := is_unreserved c || is_sub_delim c || eqc c "%".
Definition is_user_character (c : ascii) : bool := is_authority_character c && negb (eqc c "@").

Record parts_ok (p : parts) : Prop := PartsOk {
  ok_scheme : is_valid_scheme (p_scheme p) = true;
  ok_user i : p_user p = Some i -> forallb is_user_character i = true;
  ok_host : p_host p <> [] /\ forallb is_host_character (p_host p) = true;
  ok_port n : p_port p = Some n -> n <> [] /\ forallb is_digit n = true;
  ok_path : forallb is_path_character (p_path p) = true /\ match p_path p with [] => True | c :: _ => c = "/"%char end;
  ok_query q : p_query p = Some q -> forallb (fun c => negb (eqc c "#")) q = true;
}.

Lemma span_break f a b : forallb f a = true -> match b with [] => True | c :: _ => f c = false end -> span f (a ++ b) = (a, b).
Proof. intros Ha Hb. destruct b as [|c b]; [rewrite app_nil_r; by apply span_end|by apply span_stop]. Qed.

(** A class of characters inside another one, tested on all characters. *)
Ltac by_char := let x := fresh "x" in intros x; destruct x as [[] [] [] [] [] [] [] []]; done.

Lemma parse_scheme_render s r : is_valid_scheme s = true -> parse_scheme (s ++ ":"%char :: r) = (Some s, r).
Proof.
  destruct s as [|c s]; [done|]. cbn [is_valid_scheme forallb]. intros [Hc [_ Hs]%andb_true_iff]%andb_true_iff.
  cbn [parse_scheme app]. by rewrite Hc, span_stop.
Qed.

Lemma forallb_reverse (f : ascii -> bool) s : forallb f (reverse s) = forallb f s.
Proof.
  induction s as [|c s IH]; [done|]. rewrite reverse_cons, forallb_app, IH. cbn [forallb]. rewrite andb_true_r. apply andb_comm.
Qed.

Lemma parse_host_port_render h n :
  h <> [] -> forallb is_host_character h = true -> (forall s, n = Some s -> s <> [] /\ forallb is_digit s = true) ->
  parse_host_port (h ++ prefixed ":" n) = Some (h, n).
Proof.
  intros Hne Hh Hn. destruct h as [|c h]; [done|]. cbn [forallb] in Hh. apply andb_true_iff in Hh as [Hc Hh].
  assert (eqc c "[" = false) as Hb by (destruct (eqc_spec c "[") as [->|]; done).
  assert (forallb (fun d => negb (eqc d ":")) h = true) as Hnc by (eapply forallb_weaken, Hh; by_char).
  cbn [parse_host_port app]. rewrite Hb. unfold last_colon. destruct n as [s|]; cbn [prefixed].
  - destruct (Hn s eq_refl) as [Hs1 Hs2]. rewrite reverse_app, reverse_cons, <- app_assoc. cbn [app].
    rewrite span_stop; [|rewrite forallb_reverse; eapply forallb_weaken, Hs2; by_char|done].
    by rewrite !reverse_involutive, Hs2, bool_decide_eq_false_2.
  - rewrite !app_nil_r, span_end by (by rewrite forallb_reverse). done.
Qed.

Lemma parse_authority_render p :
  parts_ok p -> parse_authority (render_authority p) = Some (p_user p, p_host p, p_port p).
Proof.
  intros [H1 H2 [H3 H4] H5 H6 H7]. unfold parse_authority, render_authority.
  assert (forallb (fun c => negb (eqc c "@")) (p_host p ++ prefixed ":" (p_port p)) = true) as Hat.
  { rewrite forallb_app, (forallb_weaken is_host_character _ (p_host p)) by (by_char || done). destruct (p_port p) as [n|]; [|done].
    cbn [prefixed forallb]. rewrite (forallb_weaken is_digit _ n); [done|by_char|by apply H5]. }
  destruct (p_user p) as [i|].
  - rewrite span_stop; [|eapply forallb_weaken, (H2 i eq_refl); by_char|done]. by rewrite parse_host_port_render.
  - rewrite span_end by done. by rewrite parse_host_port_render.
Qed.

Lemma render_authority_chars p : parts_ok p -> forallb is_authority_character (render_authority p) = true /\ render_authority p <> [].
Proof.
  intros [H1 H2 [H3 H4] H5 H6 H7]. unfold render_authority.
  assert (forallb is_authority_character (p_host p ++ prefixed ":" (p_port p)) = true) as Hh.
  { rewrite forallb_app, (forallb_weaken is_host_character _ (p_host p)) by (by_char || done). destruct (p_port p) as [n|]; [|done].
    cbn [prefixed forallb]. rewrite (forallb_weaken is_digit _ n); [done|by_char|by apply H5]. }
  destruct (p_user p) as [i|].
  - split; [|by destruct i]. rewrite forallb_app. cbn [forallb]. rewrite Hh.
    rewrite (forallb_weaken is_user_character _ i); [done|by_char|by apply H2].
  - split; [done|]. by destruct (p_host p).
Qed.

Lemma render_rest_head p stops :
  parts_ok p -> one_of stops "/" = true -> one_of stops "?" = true -> one_of stops "#" = true ->
  match render_rest p with [] => True | c :: _ => negb (one_of stops c) = false end.
Proof.
  intros [_ _ _ _ [_ H6] _] Hs Hq Hf. unfold render_rest. destruct (p_path p) as [|c l]; [|subst c; cbn [app]; by rewrite Hs].
  destruct (p_query p); cbn [app prefixed]; [by rewrite Hq|]. destruct (p_fragment p); cbn [prefixed]; [by rewrite Hf|done].
Qed.

Lemma locate_host h : h <> [] -> forallb is_host_character h = true -> forall af, af <> AF_UNIX -> locate af h = (AF_INET, h).
Proof.
  intros Hne Hh af Haf. destruct h as [|c h]; [done|]. assert (bracketed (c :: h) = false) as Hb.
  { cbn [forallb] in Hh. apply andb_true_iff in Hh as [Hc _]. destruct h as [|d h]; [done|]. cbn [bracketed].
    by destruct (eqc_spec c "[") as [->|]. }
  assert (existsb (fun c => eqc c ":") (c :: h) = false) as Hx.
  { apply not_true_iff_false. rewrite existsb_exists. intros (d & Hd & E). rewrite forallb_forall in Hh. specialize (Hh d Hd).
    by destruct (eqc_spec d ":") as [->|]. }
  unfold locate. rewrite Hb, Hx. by destruct af.
Qed.

Lemma parse_rest_render u p :
  parts_ok p -> _af u <> AF_UNIX -> p_scheme p <> chars "unix" ->
  parse_rest u (Some (p_scheme p)) (Some (p_user p, p_host p, p_port p)) (render_rest p) =
  Uri AF_INET true (_source u) (p_scheme p) (default [] (p_user p)) (p_host p)
      (match p_port p with Some n => n | None => default [] (default_port (p_scheme p)) end)
      (match p_path p with [] => chars "/" | s => s end) (default [] (p_query p)) (default [] (p_fragment p))
      (match default [] (p_query p) with [] => ∅ | q => parse_query_parameters q ∅ end).
Proof.
  intros Hp Haf Hu. destruct Hp as [H1 H2 [H3 H4] H5 [H6 H6'] H7]. unfold parse_rest, render_rest, until.
  rewrite span_break; [|eapply forallb_weaken, H6; by_char|by destruct (p_query p), (p_fragment p)].
  rewrite H6. cbn [negb]. rewrite (bool_decide_eq_false_2 (Some (p_scheme p) = _)) by congruence.
  rewrite (locate_host (p_host p) H3 H4 _ Haf).
  destruct (p_query p) as [q|] eqn:Eq; cbn [prefixed app].
  - change (eqc "?" "?") with true. cbv iota.
    assert (span (fun c => negb (one_of "#" c)) (q ++ prefixed "#" (p_fragment p)) = (q, prefixed "#" (p_fragment p))) as ->.
    { apply span_break; [eapply forallb_weaken, (H7 q eq_refl); by_char|by destruct (p_fragment p)]. }
    by destruct (p_fragment p), (p_port p), (p_path p), q.
  - by destruct (p_fragment p), (p_port p), (p_path p).
Qed.

(** C35: Parsing inverts putting together: a source made of a scheme, optional user information, a
    host name, an optional port, a path, an optional query and an optional fragment, each with
    the characters it allows, is accepted and its components are these; a missing port is the
    default one of the scheme, a missing path is a slash. *)
Theorem uri_parse_render u p :
  parts_ok p -> _af u <> AF_UNIX -> p_scheme p <> chars "unix" ->
  from (render p) u =
  Uri AF_INET true (render p) (p_scheme p) (default [] (p_user p)) (p_host p)
      (match p_port p with Some n => n | None => default [] (default_port (p_scheme p)) end)
      (match p_path p with [] => chars "/" | s => s end) (default [] (p_query p)) (default [] (p_fragment p))
      (match default [] (p_query p) with [] => ∅ | q => parse_query_parameters q ∅ end).
Proof.
  intros Hp Haf Hu. unfold from, parse. cbn [with_source _source].
  assert (exists c l, render p = c :: l) as (c & l & E).
  { unfold render. destruct (p_scheme p) as [|c l] eqn:Es; [|simpl; eauto]. destruct Hp as [H1 _ _ _ _ _]. by rewrite Es in H1. }
  rewrite E. cbv iota. rewrite <- E. unfold render at 1. rewrite parse_scheme_render by apply Hp. change (eqc "/" "/") with true. cbn [andb].
  destruct (render_authority_chars p Hp) as [Ha Hne]. unfold until at 1.
  rewrite span_break; [|eapply forallb_weaken, Ha; by_char|by apply render_rest_head]. rewrite Ha. cbn [negb].
  rewrite (parse_authority_render p Hp). destruct (render_authority p) as [|d r]; [done|].
  by rewrite (parse_rest_render (with_source (render p) u) p Hp Haf Hu).
Qed.

Definition demo_parts : parts :=
  Parts (chars "https") (Some (chars "me:pw")) (chars "host.example") (Some (chars "8443")) (chars "/a/b") (Some (chars "x=1&y=%20")) (Some (chars "top")).

Lemma uri_parse_render_witness :
  let u := from (chars "https://me:pw@host.example:8443/a/b?x=1&y=%20#top") uri_default in
  _valid u = true /\ _host u = chars "host.example" /\ u_port u = 8443 /\ query (chars "Y") 0 u = chars " ".
Proof.
  assert (parts_ok demo_parts) as Hp.
  { split; try done; intros ? [= <-]; done. }
  pose proof (uri_parse_render uri_default demo_parts Hp ltac:(done) ltac:(done)) as HR.
  change (render demo_parts) with (chars "https://me:pw@host.example:8443/a/b?x=1&y=%20#top") in HR. cbv zeta. rewrite HR.
  split_and!; vm_compute; reflexivity.
Defined.

(** * The address family *)

Lemma parse_rest_unix u s a r : _af u = AF_UNIX -> _af (parse_rest u s a r) = AF_UNIX.
Proof.
  intros Hu. unfold parse_rest. destruct (until "?#" r) as [path rest]. destruct (negb _); [done|].
  assert ((if bool_decide (s = Some (chars "unix")) then AF_UNIX else _af u) = AF_UNIX) as -> by (by rewrite Hu; destruct (bool_decide _)).
  destruct (match rest with [] => _ | _ => _ end) as [q rest']. destruct a as [[[i h] p]|]; done.
Qed.

(** The address family of a uri object is never reset: once it was given a [unix] source,
    every later source leaves it at [AF_UNIX], also one for which a new object has
    [AF_INET]. *)
Theorem family_sticks s :
  _af (from s (make (chars "unix:///tmp/socket") AF_INET)) = AF_UNIX /\ _af (make (chars "http://host/") AF_INET) = AF_INET.
Proof.
  split; [|vm_compute; reflexivity]. assert (_af (make (chars "unix:///tmp/socket") AF_INET) = AF_UNIX) as Hu by (vm_compute; reflexivity).
  revert Hu. generalize (make (chars "unix:///tmp/socket") AF_INET). intros u Hu. unfold from, parse. cbn [with_source _source].
  destruct s as [|c s]; [done|]. destruct (parse_scheme (c :: s)) as [scheme [|d [|e r]]]; try (by apply parse_rest_unix).
  destruct (_ && _); [|by apply parse_rest_unix]. destruct (until "/?#" r) as [a rest]. destruct (negb _); [done|].
  destruct a as [|x a]; [by apply parse_rest_unix|]. destruct (parse_authority (x :: a)); [by apply parse_rest_unix|done].
Qed.

(** Normalisation is not idempotent on relative paths: one that resolves to nothing becomes the
    empty path, and that becomes the root. *)
Lemma normalize_relative_escapes : normalize_path (chars "a/..") = [] /\ normalize_path (normalize_path (chars "a/..")) = chars "/".
Proof. split; vm_compute; reflexivity. Qed.

(** The second entry for the scheme [swarm] is never used. *)
Lemma swarm_port : default_port (chars "swarm") = Some (chars "2377") /\ In ("swarm", "1633")%stdpp default_ports.
Proof. split; [vm_compute; reflexivity|]. vm_compute. tauto. Qed.
