(* ===== verification/Protocol.v ===== *)
(** * Framing protocols: io/protocol/base.h, io/protocol/text.h, io/async/protocol.h

    A protocol finds the next message in the input buffer of a connection. [ByteTerminated],
    [BytesTerminated] and [SizeAsHeader] are the protocols of base.h with their resume state
    ([_offset], [_size]); [NoProtocol] is the sentinel. [getMessageSize] is the virtual call.

    Each protocol has a reference definition, a function [cut] from the bytes received since
    the last message to a verdict: a message, more bytes needed, or malformed.
    [getMessageSize_next] says that the resumable search computes [cut]; the connection (Session)
    is proved against it. *)

From S2P Require Import Prelude.
From Stdlib Require Import Strings.Byte.

#[local] Open Scope Z_scope.

Definition bytes := list byte.

#[global] Instance byte_eq_dec' : EqDecision byte := Byte.byte_eq_dec.

(** * Bytes and numbers *)

Definition byte_Z (b : byte) : Z := Z.of_N (Byte.to_N b).

(** The conversion of an unsigned integer to [char]. *)
Definition Z_byte (z : Z) : byte := default x00 (Byte.of_N (Z.to_N (u8 z))).

Lemma byte_Z_range (b : byte) : 0 <= byte_Z b < 2 ^ 8.
Proof. unfold byte_Z. pose proof (Byte.to_N_bounded b). lia. Qed.

Lemma byte_Z_byte (z : Z) : byte_Z (Z_byte z) = u8 z.
Proof.
  assert (0 <= u8 z < 2 ^ 8) by (apply Z.mod_pos_bound; lia).
  unfold byte_Z, Z_byte. destruct (Byte.of_N (Z.to_N (u8 z))) as [b|] eqn:E; simpl.
  - apply Byte.to_of_N in E. lia.
  - apply Byte.of_N_None_iff in E. lia.
Qed.

(** The types [uint8_t], [uint16_t] and [uint32_t] of a size header. *)
Inductive size_header := UInt8 | UInt16 | UInt32.

#[global] Instance size_header_eq_dec : EqDecision size_header.
Proof. solve_decision. Defined.

(** [SIZEOF]. *)
Definition SIZEOF (w : size_header) : Z := match w with UInt8 => 1 | UInt16 => 2 | UInt32 => 4 end.

(** [std::numeric_limits<_Size>::max()]. *)
Definition header_max (w : size_header) : Z := 2 ^ (8 * SIZEOF w) - 1.

(** The bytes of a header in memory after [htons] or [htonl]: most significant first. *)
Definition header_bytes (w : size_header) (v : Z) : bytes :=
  match w with
  | UInt8 => [Z_byte v]
  | UInt16 => [Z_byte (v / 2 ^ 8); Z_byte v]
  | UInt32 => [Z_byte (v / 2 ^ 24); Z_byte (v / 2 ^ 16); Z_byte (v / 2 ^ 8); Z_byte v]
  end.

(** The value of the first [SIZEOF] bytes after [ntohs] or [ntohl]. *)
Definition header_value (buf : bytes) : Z := fold_left (fun acc b => acc * 2 ^ 8 + byte_Z b) buf 0.

(** [size_as_header::Header]: [None] is the exception for a size the header cannot hold. *)
Definition Header (w : size_header) (size : Z) : option bytes :=
  if header_max w <? size then None else Some (header_bytes w size).

(** * The protocols *)

Inductive framing :=
| ByteTerminated (end_byte : byte) (offset : Z)
| BytesTerminated (end_bytes : bytes) (offset : Z)
| SizeAsHeader (w : size_header) (size : Z)
| NoProtocol.

(** [IProtocol]: the status flag beside the state of the concrete protocol. *)
Record protocol := Protocol {
  framing_of : framing;
  _status : bool
}.

(** A protocol that is ok. *)
Definition fresh (f : framing) : protocol := Protocol f true.

(** [no_protocol()]: the sentinel, permanently not ok. *)
Definition no_protocol : protocol := Protocol NoProtocol false.

Definition ok (p : protocol) : bool := _status p.

(** [not_ok()]; the override of the sentinel does nothing. *)
Definition not_ok (p : protocol) : protocol :=
  match framing_of p with NoProtocol => p | f => Protocol f false end.

(** [should_flush()]: true for a protocol with messages, set to false by the sentinel. *)
Definition should_flush (p : protocol) : bool :=
  match framing_of p with NoProtocol => false | _ => true end.

(** The loop of [byte_terminated::getMessageSize]: [inl] the position of the end byte, [inr]
    the position where the search stopped. *)
Fixpoint byte_scan (end_byte : byte) (l : bytes) (it : Z) : Z + Z :=
  match l with
  | [] => inr it
  | b :: l' => if bool_decide (b = end_byte) then inl it else byte_scan end_byte l' (it + 1)
  end.

Definition byte_terminated_getMessageSize (end_byte : byte) (offset : Z) (buf : bytes) : Z * Z :=
  match byte_scan end_byte (drop (Z.to_nat offset) buf) offset with
  | inl it => (it + 1, 0)
  | inr it => (0, it)
  end.

(** The loop of [bytes_terminated::getMessageSize]; [i != end] is that a whole delimiter fits. *)
Fixpoint bytes_scan (end_bytes : bytes) (l : bytes) (i : Z) : Z + Z :=
  if zlen l <? zlen end_bytes then inr i
  else if bool_decide (take (length end_bytes) l = end_bytes) then inl i
  else match l with
       | [] => inr i
       | _ :: l' => bytes_scan end_bytes l' (i + 1)
       end.

Definition bytes_terminated_getMessageSize (end_bytes : bytes) (offset : Z) (buf : bytes) : Z * Z :=
  let rest := drop (Z.to_nat offset) buf in
  if zlen rest <? zlen end_bytes then (0, offset)
  else match bytes_scan end_bytes rest offset with
       | inl i => (i + zlen end_bytes, 0)
       | inr i => (0, i)
       end.

(** [size_as_header::getMessageSize]: the result, whether the protocol is still ok, [_size]
    and the buffer, from which a header that was read has been removed. *)
Definition size_as_header_getMessageSize (w : size_header) (size : Z) (buf : bytes) : Z * bool * Z * bytes :=
  let complete (size : Z) (buf : bytes) :=
    if negb (size =? 0) && (size <=? zlen buf) then (size, true, 0, buf) else (0, true, size, buf) in
  if (size =? 0) && (SIZEOF w <=? zlen buf) then
    let size' := header_value (zslice buf 0 (SIZEOF w)) in
    if size' =? 0 then (0, false, 0, buf) else complete size' (drop (Z.to_nat (SIZEOF w)) buf)
  else complete size buf.

(** The virtual call: the size, the protocol and the buffer after it. *)
Definition getMessageSize (p : protocol) (buf : bytes) : Z * protocol * bytes :=
  match framing_of p with
  | ByteTerminated e off =>
      let '(ret, off') := byte_terminated_getMessageSize e off buf in
      (ret, Protocol (ByteTerminated e off') (_status p), buf)
  | BytesTerminated e off =>
      let '(ret, off') := bytes_terminated_getMessageSize e off buf in
      (ret, Protocol (BytesTerminated e off') (_status p), buf)
  | SizeAsHeader w size =>
      let '(ret, good, size', buf') := size_as_header_getMessageSize w size buf in
      (ret, Protocol (SizeAsHeader w size') (_status p && good), buf')
  | NoProtocol => (0, p, buf)
  end.

(** [shiftSize]: the size of a message without its delimiter. *)
Definition shiftSize (delimiter_size size : Z) : Z :=
  if delimiter_size <=? size then size - delimiter_size else 0.

(** The bytes [onMessage] of [basic_text] and [basic_binary] hands to the connection; a class
    derived from [bytes_terminated] is taken to remove the delimiter with [shiftSize] as well. *)
Definition payload (f : framing) (size : Z) (buf : bytes) : bytes :=
  match f with
  | ByteTerminated _ _ => zslice buf 0 (shiftSize 1 size)
  | BytesTerminated e _ => zslice buf 0 (shiftSize (zlen e) size)
  | SizeAsHeader _ _ => zslice buf 0 size
  | NoProtocol => []
  end.

(** [reset()]. *)
Definition reset_framing (f : framing) : framing :=
  match f with
  | ByteTerminated e _ => ByteTerminated e 0
  | BytesTerminated e _ => BytesTerminated e 0
  | SizeAsHeader w _ => SizeAsHeader w 0
  | NoProtocol => NoProtocol
  end.

(** The constructors: the state is as after [reset()]. *)
Definition construct (f : framing) : protocol :=
  match f with NoProtocol => no_protocol | _ => Protocol (reset_framing f) true end.

(** * The reference: one cut of the bytes received *)

Inductive verdict :=
| Incomplete
| Message (m rest : bytes)
| Malformed.

(** The first position at which [d] occurs in [l]. *)
Fixpoint find_sub (d l : bytes) : option nat :=
  if bool_decide (take (length d) l = d) then Some 0%nat
  else match l with
       | [] => None
       | _ :: l' => S <$> find_sub d l'
       end.

Definition cut_terminated (d l : bytes) : verdict :=
  match find_sub d l with
  | Some i => Message (take i l) (drop (i + length d) l)
  | None => Incomplete
  end.

Definition cut_header (w : size_header) (l : bytes) : verdict :=
  let n := header_value (zslice l 0 (SIZEOF w)) in
  if zlen l <? SIZEOF w then Incomplete
  else if n =? 0 then Malformed
  else if zlen l <? SIZEOF w + n then Incomplete
  else Message (zslice l (SIZEOF w) n) (drop (Z.to_nat (SIZEOF w + n)) l).

Definition cut (f : framing) (l : bytes) : verdict :=
  match f with
  | ByteTerminated e _ => cut_terminated [e] l
  | BytesTerminated e _ => cut_terminated e l
  | SizeAsHeader w _ => cut_header w l
  | NoProtocol => Incomplete
  end.

(** The bytes of a message that the protocol has already removed from the buffer. *)
Definition held (f : framing) : bytes :=
  match f with
  | SizeAsHeader w size => if size =? 0 then [] else header_bytes w size
  | _ => []
  end.

(** A search may resume at [off]: the delimiter [d] does not occur before, and what comes
    later cannot change that. *)
Record scanned (d : bytes) (off : Z) (buf : bytes) : Prop := Scanned {
  scanned_range : 0 <= off <= Z.max 0 (zlen buf - zlen d + 1);
  scanned_none : forall k, (Z.of_nat k < off) -> take (length d) (drop k buf) <> d
}.

Definition framing_ok (f : framing) (buf : bytes) : Prop :=
  match f with
  | ByteTerminated e off => scanned [e] off buf
  | BytesTerminated e off => e <> [] /\ scanned e off buf
  | SizeAsHeader w size => 0 <= size <= header_max w
  | NoProtocol => True
  end.

(** * Searching *)

Lemma find_sub_Some (d l : bytes) (i : nat) :
  find_sub d l = Some i -> take (length d) (drop i l) = d /\ forall k, (k < i)%nat -> take (length d) (drop k l) <> d.
Proof.
  revert i. induction l as [|b l IH]; intros i; cbn [find_sub]; case_bool_decide as E.
  - intros [= <-]. split; [done|lia].
  - done.
  - intros [= <-]. split; [done|lia].
  - destruct (find_sub d l) as [j|]; [|done]. intros [= <-]. destruct (IH j eq_refl) as [Hj Hk].
    split; [done|]. intros [|k] Hlt; [done|]. apply Hk. lia.
Qed.

Lemma find_sub_None (d l : bytes) : find_sub d l = None -> forall k, take (length d) (drop k l) <> d \/ (length l <= k)%nat.
Proof.
  induction l as [|b l IH]; cbn [find_sub]; case_bool_decide as E; try done.
  - intros _ k. right. simpl. lia.
  - destruct (find_sub d l) eqn:F; [done|]. intros _ [|k]; [by left|].
    destruct (IH eq_refl k) as [|]; [by left|right; simpl; lia].
Qed.

(** A match leaves room for the delimiter. *)
Lemma take_match_len (d l : bytes) (k : nat) : d <> [] -> take (length d) (drop k l) = d -> (k + length d <= length l)%nat.
Proof.
  intros Hd E. assert (length (take (length d) (drop k l)) = length d) as L by (by rewrite E).
  rewrite length_take, length_drop in L. assert (length d <> 0%nat) by (by destruct d). lia.
Qed.

(** The first match is unique. *)
Lemma find_sub_intro (d l : bytes) (i : nat) :
  d <> [] -> take (length d) (drop i l) = d -> (forall k, (k < i)%nat -> take (length d) (drop k l) <> d) ->
  find_sub d l = Some i.
Proof.
  intros Hd Hi Hk. destruct (find_sub d l) as [j|] eqn:F.
  - apply find_sub_Some in F as [Hj Hlt]. f_equal.
    destruct (decide (j < i)%nat); [by destruct (Hk j)|]. destruct (decide (i < j)%nat); [by destruct (Hlt i)|lia].
  - exfalso. pose proof (take_match_len d l i Hd Hi). destruct d; [done|].
    destruct (find_sub_None _ _ F i) as [|]; [done|]. simpl in *. lia.
Qed.

Lemma find_sub_app (d l k : bytes) (i : nat) : d <> [] -> find_sub d l = Some i -> find_sub d (l ++ k) = Some i.
Proof.
  intros Hd F. apply find_sub_Some in F as [Hi Hlt]. pose proof (take_match_len _ _ _ Hd Hi).
  assert (forall j, (j <= i)%nat -> take (length d) (drop j (l ++ k)) = take (length d) (drop j l)) as Happ
    by (intros j Hj; rewrite drop_app_le, take_app_le by (rewrite ?length_drop; lia); done).
  apply find_sub_intro; [done|by rewrite Happ|]. intros j Hj. rewrite Happ by lia. by apply Hlt.
Qed.

(** Resuming the search where it stopped finds the same. *)
Lemma find_sub_resume (d buf : bytes) (off : Z) :
  d <> [] -> scanned d off buf ->
  find_sub d buf = (fun i => (Z.to_nat off + i)%nat) <$> find_sub d (drop (Z.to_nat off) buf).
Proof.
  intros Hd [Hr Hn]. destruct (find_sub d (drop (Z.to_nat off) buf)) as [i|] eqn:F; simpl.
  - apply find_sub_Some in F as [Hi Hlt]. rewrite drop_drop in Hi. apply find_sub_intro; [done..|].
    intros k Hk. destruct (decide (Z.of_nat k < off)); [by apply Hn|].
    specialize (Hlt (k - Z.to_nat off)%nat ltac:(lia)). rewrite drop_drop in Hlt.
    by replace (Z.to_nat off + (k - Z.to_nat off))%nat with k in Hlt by lia.
  - destruct (find_sub d buf) as [i|] eqn:G; [|done]. exfalso. apply find_sub_Some in G as [Hi _].
    destruct (decide (Z.of_nat i < off)); [by apply (Hn i)|]. pose proof (take_match_len _ _ _ Hd Hi).
    destruct (find_sub_None _ _ F (i - Z.to_nat off)%nat) as [Hne|Hle].
    + rewrite drop_drop in Hne. by replace (Z.to_nat off + (i - Z.to_nat off))%nat with i in Hne by lia.
    + rewrite length_drop in Hle. destruct d; simpl in *; [done|lia].
Qed.

Lemma byte_scan_find (e : byte) (l : bytes) (it : Z) :
  byte_scan e l it = match find_sub [e] l with Some i => inl (it + Z.of_nat i) | None => inr (it + zlen l) end.
Proof.
  revert it. induction l as [|b l IH]; intros it; cbn [byte_scan find_sub].
  - rewrite bool_decide_eq_false_2 by done. f_equal. unfold zlen. simpl. lia.
  - simpl (length [e]). simpl (take 1 (b :: l)). rewrite take_0. case_bool_decide as E.
    + subst. rewrite bool_decide_eq_true_2 by done. f_equal. lia.
    + rewrite bool_decide_eq_false_2 by congruence. rewrite IH. unfold zlen.
      destruct (find_sub [e] l); simpl; f_equal; lia.
Qed.

Lemma bytes_scan_find (d l : bytes) (i : Z) :
  d <> [] -> bytes_scan d l i = match find_sub d l with Some k => inl (i + Z.of_nat k) | None => inr (i + Z.max 0 (zlen l - zlen d + 1)) end.
Proof.
  intros Hd. revert i. induction l as [|b l IH]; intros i; cbn [bytes_scan find_sub].
  - destruct d; [done|]. simpl. f_equal. unfold zlen. simpl. lia.
  - zcase.
    + rewrite bool_decide_eq_false_2.
      2: { intros E. pose proof (take_match_len d (b :: l) 0 Hd E). unfold zlen in *. lia. }
      destruct (find_sub d l) as [k|] eqn:F; simpl.
      * apply find_sub_Some in F as [F _]. pose proof (take_match_len _ _ _ Hd F). unfold zlen in *. simpl in *. lia.
      * f_equal. lia.
    + case_bool_decide as E; [f_equal; lia|]. rewrite IH. unfold zlen in *. simpl in *.
      destruct (find_sub d l); simpl; f_equal; lia.
Qed.

(** * Headers *)

Lemma zlen_header_bytes (w : size_header) (v : Z) : zlen (header_bytes w v) = SIZEOF w.
Proof. by destruct w. Qed.

Lemma header_value_bytes (w : size_header) (v : Z) : 0 <= v <= header_max w -> header_value (header_bytes w v) = v.
Proof.
  unfold header_max, header_value. destruct w; simpl; intros; rewrite ?byte_Z_byte; unfold u8;
    Z.div_mod_to_equations; lia.
Qed.

Lemma header_value_range (w : size_header) (l : bytes) : zlen l = SIZEOF w -> 0 <= header_value l <= header_max w.
Proof.
  unfold header_value, header_max, zlen. destruct w; simpl; intros Hl;
    repeat (destruct l as [|? l]; simpl in Hl; try lia); simpl;
    repeat match goal with |- context [byte_Z ?b] => lazymatch goal with H : 0 <= byte_Z b < _ |- _ => fail | _ => pose proof (byte_Z_range b) end end;
    lia.
Qed.

Lemma byte_Z_inj (b c : byte) : byte_Z b = byte_Z c -> b = c.
Proof.
  unfold byte_Z. intros E. assert (Byte.to_N b = Byte.to_N c) as E' by lia.
  pose proof (Byte.of_to_N b) as Hb. rewrite E', Byte.of_to_N in Hb. congruence.
Qed.

Lemma Z_byte_eq (z : Z) (b : byte) : u8 z = byte_Z b -> Z_byte z = b.
Proof. intros E. apply byte_Z_inj. by rewrite byte_Z_byte. Qed.

Lemma header_bytes_value (w : size_header) (l : bytes) : zlen l = SIZEOF w -> header_bytes w (header_value l) = l.
Proof.
  unfold header_value, zlen. destruct w; simpl; intros Hl;
    repeat (destruct l as [|? l]; simpl in Hl; try lia); simpl;
    repeat match goal with b : byte |- _ => lazymatch goal with H : 0 <= byte_Z b < _ |- _ => fail | _ => pose proof (byte_Z_range b) end end;
    repeat f_equal; apply Z_byte_eq; unfold u8; Z.div_mod_to_equations; lia.
Qed.

Lemma header_split (w : size_header) (buf : bytes) :
  SIZEOF w <= zlen buf -> buf = header_bytes w (header_value (zslice buf 0 (SIZEOF w))) ++ drop (Z.to_nat (SIZEOF w)) buf.
Proof.
  intros H. rewrite header_bytes_value by (rewrite zlen_slice; destruct w; simpl in *; lia).
  unfold zslice. by rewrite drop_0, take_drop.
Qed.

(** * The resumable protocols compute the reference *)

Lemma scanned_zero (d buf : bytes) : scanned d 0 buf.
Proof. split; [lia|]. intros k Hk. lia. Qed.

Lemma scanned_app (d buf more : bytes) (off : Z) : scanned d off buf -> scanned d off (buf ++ more).
Proof.
  intros [Hr Hn]. pose proof (zlen_nonneg more). split; [zlens|]. intros k Hk E. apply (Hn k Hk).
  rewrite drop_app_le, take_app_le in E by (rewrite ?length_drop; unfold zlen in *; lia). done.
Qed.

(** Nothing found: the whole buffer has been searched. *)
Lemma scanned_all (d buf : bytes) (off : Z) :
  d <> [] -> find_sub d buf = None -> 0 <= off <= Z.max 0 (zlen buf - zlen d + 1) -> scanned d off buf.
Proof.
  intros Hd F Hr. split; [done|]. intros k Hk. destruct (find_sub_None _ _ F k) as [|Hle]; [done|].
  assert (0 < zlen d) by (destruct d; [done|unfold zlen; simpl; lia]). unfold zlen in *. lia.
Qed.

Lemma scanned_find (d buf : bytes) (off : Z) (i : nat) :
  d <> [] -> scanned d off buf -> find_sub d (drop (Z.to_nat off) buf) = Some i ->
  find_sub d buf = Some (Z.to_nat off + i)%nat /\ (Z.to_nat off + i + length d <= length buf)%nat.
Proof.
  intros Hd Hs F. pose proof (find_sub_resume _ _ _ Hd Hs) as G. rewrite F in G. split; [done|].
  apply find_sub_Some in G as [G _]. by apply take_match_len in G.
Qed.

Lemma terminated_message (d buf : bytes) (i : nat) :
  d <> [] -> (i + length d <= length buf)%nat ->
  0 < Z.of_nat i + zlen d <= zlen buf /\
  zslice buf 0 (shiftSize (zlen d) (Z.of_nat i + zlen d)) = take i buf /\
  drop (Z.to_nat (Z.of_nat i + zlen d)) buf = drop (i + length d) buf.
Proof.
  intros Hd Hi. assert (0 < zlen d) by (destruct d; [done|unfold zlen; simpl; lia]).
  unfold shiftSize, zslice. zcase; [|lia]. unfold zlen in *. rewrite drop_0.
  split; [lia|]. split; f_equal; lia.
Qed.

(** What a call of [getMessageSize] does, by the verdict on the bytes since the last message. *)
Definition next_spec (p : protocol) (buf : bytes) : Prop :=
  let f := framing_of p in
  match cut f (held f ++ buf) with
  | Incomplete => exists f' buf',
      getMessageSize p buf = (0, fresh f', buf') /\ framing_ok f' buf' /\
      held f' ++ buf' = held f ++ buf /\ reset_framing f' = reset_framing f
  | Message m rest => exists n buf',
      getMessageSize p buf = (n, fresh (reset_framing f), buf') /\ 0 < n <= zlen buf' /\
      payload (reset_framing f) n buf' = m /\ drop (Z.to_nat n) buf' = rest
  | Malformed => exists f', getMessageSize p buf = (0, Protocol f' false, buf) /\ reset_framing f' = reset_framing f
  end.

Lemma byte_terminated_next (e : byte) (off : Z) (buf : bytes) :
  scanned [e] off buf -> next_spec (fresh (ByteTerminated e off)) buf.
Proof.
  intros Hs. assert ([e] <> []) as Hd by done. unfold next_spec, cut_terminated. simpl.
  pose proof (find_sub_resume [e] buf off Hd Hs) as G. unfold cut_terminated. rewrite G.
  unfold getMessageSize. simpl. unfold byte_terminated_getMessageSize. rewrite byte_scan_find.
  destruct (find_sub [e] (drop (Z.to_nat off) buf)) as [i|] eqn:F; simpl.
  - destruct (scanned_find _ _ _ _ Hd Hs F) as [_ Hlen]. destruct (terminated_message [e] buf _ Hd Hlen) as (? & Hp & Hr).
    destruct Hs as [Hs _]. change (zlen [e]) with 1 in *. replace (off + Z.of_nat i + 1) with (Z.of_nat (Z.to_nat off + i) + 1) by lia.
    eexists _, _. split; [done|]. done.
  - destruct Hs as [Hs _]. simpl in G. eexists _, _. split; [done|]. split; [|done]. simpl.
    apply scanned_all; [done..|]. unfold zlen in *. rewrite length_drop. simpl in *. lia.
Qed.

Lemma bytes_terminated_next (e : bytes) (off : Z) (buf : bytes) :
  e <> [] -> scanned e off buf -> next_spec (fresh (BytesTerminated e off)) buf.
Proof.
  intros Hd Hs. unfold next_spec, cut_terminated. simpl.
  pose proof (find_sub_resume e buf off Hd Hs) as G. unfold cut_terminated. rewrite G.
  unfold getMessageSize. simpl. unfold bytes_terminated_getMessageSize. rewrite bytes_scan_find by done.
  destruct (find_sub e (drop (Z.to_nat off) buf)) as [i|] eqn:F; simpl.
  - destruct (scanned_find _ _ _ _ Hd Hs F) as [_ Hlen]. destruct (terminated_message e buf _ Hd Hlen) as (? & Hp & Hr).
    destruct Hs as [Hs _]. zcase; [unfold zlen in *; rewrite length_drop in *; lia|].
    replace (off + Z.of_nat i + zlen e) with (Z.of_nat (Z.to_nat off + i) + zlen e) by lia.
    eexists _, _. split; [done|]. done.
  - simpl in G. zcase; (eexists _, _; split; [done|]; split; [|done]); [done|]. destruct Hs as [Hs _].
    split; [done|]. apply scanned_all; [done..|]. assert (length e <> 0%nat) by (by destruct e).
    unfold zlen in *. rewrite length_drop in *. lia.
Qed.

Lemma drop_app_Z {A} (h l : list A) (n : Z) : 0 <= n -> drop (Z.to_nat (zlen h + n)) (h ++ l) = drop (Z.to_nat n) l.
Proof. intros. unfold zlen. rewrite Z2Nat.inj_add, Nat2Z.id by lia. by rewrite <- drop_drop, drop_app_length. Qed.

Lemma size_as_header_next (w : size_header) (size : Z) (buf : bytes) :
  0 <= size <= header_max w -> next_spec (fresh (SizeAsHeader w size)) buf.
Proof.
  intros Hsz. assert (0 < SIZEOF w) by (destruct w; simpl; lia).
  unfold next_spec, getMessageSize, size_as_header_getMessageSize. simpl.
  destruct (Z.eqb_spec size 0) as [->|Hne]; simpl.
  - unfold cut_header. destruct (Z.leb_spec (SIZEOF w) (zlen buf)) as [Hw|Hw].
    2: { rewrite (proj2 (Z.ltb_lt _ _)) by lia. simpl. eexists _, _. split; [done|]. simpl. done. }
    rewrite (proj2 (Z.ltb_ge _ _)) by lia. set (n := header_value (zslice buf 0 (SIZEOF w))).
    assert (0 <= n <= header_max w) by (apply header_value_range; rewrite zlen_slice; lia).
    destruct (Z.eqb_spec n 0); simpl; [by eexists|].
    assert (zlen (drop (Z.to_nat (SIZEOF w)) buf) = zlen buf - SIZEOF w) as El by (unfold zlen in *; rewrite length_drop; lia).
    rewrite El. zcase; try lia; simpl.
    + eexists _, _. split; [done|]. simpl. rewrite El. split; [lia|]. unfold zslice. rewrite drop_0.
      rewrite drop_drop. split; [done|]. f_equal. lia.
    + eexists _, _. split; [done|]. simpl. rewrite (proj2 (Z.eqb_neq _ _)) by done.
      split; [done|]. split; [|done]. symmetry. by apply header_split.
  - unfold cut_header. assert (zslice (header_bytes w size ++ buf) 0 (SIZEOF w) = header_bytes w size) as ->.
    { rewrite zslice_app_l by (rewrite ?zlen_header_bytes; lia). rewrite <- (zlen_header_bytes w size) at 1. apply zslice_all. }
    rewrite header_value_bytes by done. zlens. rewrite zlen_header_bytes.
    rewrite (proj2 (Z.ltb_ge _ _)) by (pose proof (zlen_nonneg buf); lia). rewrite (proj2 (Z.eqb_neq _ _)) by done.
    zcase; try lia; simpl.
    + eexists _, _. split; [done|]. simpl. split; [lia|]. split.
      * rewrite <- (zlen_header_bytes w size). by rewrite zslice_app_r.
      * rewrite <- (zlen_header_bytes w size). symmetry. apply drop_app_Z. lia.
    + eexists _, _. split; [done|]. simpl. by rewrite (proj2 (Z.eqb_neq _ _)) by done.
Qed.

(** The virtual call computes the verdict of the reference. *)
Lemma getMessageSize_next (p : protocol) (buf : bytes) :
  ok p = true -> framing_ok (framing_of p) buf -> next_spec p buf.
Proof.
  destruct p as [[e off|e off|w size|] st]; simpl; intros ->.
  - apply byte_terminated_next.
  - intros [? ?]. by apply bytes_terminated_next.
  - apply size_as_header_next.
  - intros _. unfold next_spec. simpl. by eexists _, _.
Qed.

Lemma framing_ok_app (f : framing) (buf more : bytes) : framing_ok f buf -> framing_ok f (buf ++ more).
Proof.
  destruct f; simpl; [apply scanned_app| |done..]. intros [? ?]. split; [done|]. by apply scanned_app.
Qed.

(** A protocol that can be used: a delimiter has at least one byte. *)
Definition usable (f : framing) : Prop := match f with BytesTerminated e _ => e <> [] | _ => True end.

Lemma framing_ok_reset (f : framing) (buf : bytes) : usable f -> framing_ok (reset_framing f) buf.
Proof.
  destruct f as [| |w|]; simpl; intros; auto using scanned_zero. unfold header_max. destruct w; simpl; lia.
Qed.

Lemma framing_ok_usable (f : framing) (buf : bytes) : framing_ok f buf -> usable f.
Proof. destruct f; simpl; [done|by intros [? ?]|done..]. Qed.

Lemma usable_reset (f f' : framing) : reset_framing f' = reset_framing f -> usable f -> usable f'.
Proof. destruct f, f'; simpl; intros [=]; subst; auto. Qed.

Lemma held_reset (f : framing) : held (reset_framing f) = [].
Proof. by destruct f. Qed.

Lemma cut_reset (f f' : framing) (l : bytes) : reset_framing f' = reset_framing f -> cut f' l = cut f l.
Proof. destruct f, f'; simpl; intros [=]; subst; done. Qed.

(** A message that is complete stays complete, and takes at least one byte. *)
Lemma cut_app (f : framing) (l k m rest : bytes) :
  usable f -> cut f l = Message m rest -> cut f (l ++ k) = Message m (rest ++ k).
Proof.
  assert (forall d, d <> [] -> cut_terminated d l = Message m rest -> cut_terminated d (l ++ k) = Message m (rest ++ k)) as Ht.
  { intros d Hd. unfold cut_terminated. destruct (find_sub d l) as [i|] eqn:F; [|done]. intros [= <- <-].
    rewrite (find_sub_app d l k i) by done. apply find_sub_Some in F as [F _]. apply take_match_len in F; [|done].
    by rewrite take_app_le, drop_app_le by lia. }
  destruct f as [e off|e off|w size|]; simpl; intros Hu; [by apply Ht|by apply Ht| |done].
  unfold cut_header. assert (0 < SIZEOF w) by (destruct w; simpl; lia).
  intros E. zcase_in E; try done. injection E as <- <-. zlens. pose proof (zlen_nonneg k).
  rewrite (zslice_app_l l k 0) by lia. set (sz := header_value (zslice l 0 (SIZEOF w))) in *.
  assert (0 <= sz <= header_max w) by (apply header_value_range; rewrite zlen_slice; lia).
  rewrite !(proj2 (Z.ltb_ge _ _)) by lia. rewrite (proj2 (Z.eqb_neq _ _)) by done.
  rewrite zslice_app_l by lia. by rewrite drop_app_le by (unfold zlen in *; lia).
Qed.

Lemma cut_shorter (f : framing) (l m rest : bytes) : usable f -> cut f l = Message m rest -> (length m + length rest < length l)%nat.
Proof.
  assert (forall d, d <> [] -> cut_terminated d l = Message m rest -> (length m + length rest < length l)%nat) as Ht.
  { intros d Hd. unfold cut_terminated. destruct (find_sub d l) as [i|] eqn:F; [|done]. intros [= <- <-].
    apply find_sub_Some in F as [F _]. apply take_match_len in F; [|done]. rewrite length_take, length_drop.
    assert (length d <> 0%nat) by (by destruct d). lia. }
  destruct f as [e off|e off|w size|]; simpl; intros Hu; [by apply Ht|by apply Ht| |done].
  unfold cut_header. assert (0 < SIZEOF w) by (destruct w; simpl; lia). intros E. zcase_in E; try done.
  injection E as <- <-. set (sz := header_value (zslice l 0 (SIZEOF w))) in *.
  assert (0 <= sz <= header_max w) by (apply header_value_range; rewrite zlen_slice; lia).
  assert (zlen (zslice l (SIZEOF w) sz) = sz) by (apply zlen_slice; lia). rewrite length_drop. unfold zlen in *. lia.
Qed.

(** * The reference on a whole stream *)

(** The messages of a stream, the bytes after the last one, and whether they are malformed.
    Each message takes at least one byte, which bounds the recursion. *)
Fixpoint frames_go (fuel : nat) (f : framing) (l : bytes) : list bytes * bytes * bool :=
  match fuel with
  | O => ([], l, true)
  | S fuel =>
      match cut f l with
      | Message m rest => let '(ms, tail, good) := frames_go fuel f rest in (m :: ms, tail, good)
      | Incomplete => ([], l, true)
      | Malformed => ([], l, false)
      end
  end.

Definition frames (f : framing) (l : bytes) : list bytes * bytes * bool := frames_go (S (length l)) f l.

Lemma frames_go_fuel (f : framing) (l : bytes) (n n' : nat) :
  usable f -> (length l < n)%nat -> (length l < n')%nat -> frames_go n f l = frames_go n' f l.
Proof.
  intros Hu. revert l n'. induction n as [|n IH]; intros l [|n'] Hn Hn'; try lia. simpl.
  destruct (cut f l) as [|m rest|] eqn:E; [done| |done]. apply cut_shorter in E; [|done].
  by rewrite (IH rest n') by lia.
Qed.

Lemma frames_eq (f : framing) (l : bytes) :
  usable f -> frames f l = match cut f l with
    | Message m rest => let '(ms, tail, good) := frames f rest in (m :: ms, tail, good)
    | Incomplete => ([], l, true)
    | Malformed => ([], l, false)
    end.
Proof.
  intros Hu. unfold frames at 1. cbn [frames_go]. destruct (cut f l) as [|m rest|] eqn:E; [done| |done].
  apply cut_shorter in E; [|done]. unfold frames. by rewrite (frames_go_fuel f rest (length l) (S (length rest))) by (done || lia).
Qed.

(** Induction over the messages of a stream. *)
Lemma stream_ind (f : framing) (P : bytes -> Prop) :
  usable f ->
  (forall l, (forall m rest, cut f l = Message m rest -> P rest) -> P l) -> forall l, P l.
Proof.
  intros Hu Hstep l. remember (length l) as n eqn:Hn. revert l Hn. induction n as [n IH] using lt_wf_ind.
  intros l ->. apply Hstep. intros m rest E. apply cut_shorter in E; [|done]. apply (IH (length rest)); [lia|done].
Qed.

(** Cutting a stream and the bytes that follow it: first the messages of the stream, then
    those of what was left of it and the bytes. *)
Lemma frames_app (f : framing) (l k : bytes) :
  usable f -> forall ms tail, frames f l = (ms, tail, true) ->
  frames f (l ++ k) = let '(ms', tail', good) := frames f (tail ++ k) in (ms ++ ms', tail', good).
Proof.
  intros Hu. revert l. refine (stream_ind f _ Hu _). intros l IH ms tail.
  rewrite frames_eq by done. destruct (cut f l) as [|m rest|] eqn:E; [| |done].
  - intros [= <- <-]. by destruct (frames f (l ++ k)) as [[? ?] ?].
  - destruct (frames f rest) as [[ms1 tail1] good1] eqn:F. intros [= <- <- ->].
    rewrite frames_eq, (cut_app f l k m rest) by done. rewrite (IH m rest eq_refl ms1 tail1 F).
    by destruct (frames f (tail1 ++ k)) as [[? ?] ?].
Qed.

(** * Sending *)

(** What a sender writes for one message: the payload and the delimiter, or the header made by
    [Header] and the payload. [None] when [Header] throws. *)
Definition encode (f : framing) (m : bytes) : option bytes :=
  match f with
  | ByteTerminated e _ => Some (m ++ [e])
  | BytesTerminated e _ => Some (m ++ e)
  | SizeAsHeader w _ => h ← Header w (zlen m); Some (h ++ m)
  | NoProtocol => None
  end.

(** The messages a protocol can carry: the delimiter does not occur early, the size is
    positive and fits the header. *)
Definition carries (f : framing) (m : bytes) : Prop :=
  match f with
  | ByteTerminated e _ => find_sub [e] (m ++ [e]) = Some (length m)
  | BytesTerminated e _ => e <> [] /\ find_sub e (m ++ e) = Some (length m)
  | SizeAsHeader w _ => 0 < zlen m <= header_max w
  | NoProtocol => False
  end.

#[global] Instance carries_dec (f : framing) (m : bytes) : Decision (carries f m).
Proof. destruct f; simpl; apply _. Defined.

Lemma carries_encode (f : framing) (m : bytes) : carries f m -> exists b, encode f m = Some b.
Proof.
  destruct f as [| |w size|]; simpl; [eauto..| |done]. intros H. unfold Header. zcase; [lia|]. simpl. eauto.
Qed.

Lemma cut_encode (f : framing) (m b k : bytes) :
  carries f m -> encode f m = Some b -> cut f (b ++ k) = Message m k.
Proof.
  assert (forall d, d <> [] -> find_sub d (m ++ d) = Some (length m) -> cut_terminated d ((m ++ d) ++ k) = Message m k) as Ht.
  { intros d Hd F. unfold cut_terminated. rewrite (find_sub_app d (m ++ d) k (length m)) by done.
    rewrite <- app_assoc. rewrite take_app_length. f_equal. rewrite app_assoc, <- length_app. apply drop_app_length. }
  destruct f as [e off|e off|w size|]; simpl; [intros H [= <-]; by apply Ht|intros [? ?] [= <-]; by apply Ht| |done].
  unfold Header. intros Hm. zcase; [lia|]. simpl. intros [= <-]. unfold cut_header.
  pose proof (zlen_header_bytes w (zlen m)) as Hw. assert (0 < SIZEOF w) by (destruct w; simpl; lia).
  assert (zslice ((header_bytes w (zlen m) ++ m) ++ k) 0 (SIZEOF w) = header_bytes w (zlen m)) as ->.
  { rewrite <- app_assoc, zslice_app_l by lia. rewrite <- Hw. apply zslice_all. }
  rewrite header_value_bytes by lia. zlens. rewrite Hw. pose proof (zlen_nonneg k).
  rewrite !(proj2 (Z.ltb_ge _ _)) by lia. rewrite (proj2 (Z.eqb_neq _ _)) by lia. f_equal.
  - rewrite <- app_assoc. rewrite <- Hw at 1. rewrite zslice_app_r.
    rewrite zslice_app_l by lia. apply zslice_all.
  - rewrite <- Hw. rewrite <- app_assoc, drop_app_Z by lia. unfold zlen. by rewrite Nat2Z.id, drop_app_length.
Qed.

Lemma carries_usable (f : framing) (m : bytes) : carries f m -> usable f.
Proof. destruct f; simpl; [done|by intros [? ?]|done..]. Qed.

(** The stream of a list of messages. *)
Fixpoint encode_all (f : framing) (ms : list bytes) : option bytes :=
  match ms with
  | [] => Some []
  | m :: ms => b ← encode f m; w ← encode_all f ms; Some (b ++ w)
  end.

Lemma encode_all_cons (f : framing) (m : bytes) (ms : list bytes) (w : bytes) :
  encode_all f (m :: ms) = Some w -> exists b w', encode f m = Some b /\ encode_all f ms = Some w' /\ w = b ++ w'.
Proof.
  simpl. destruct (encode f m) as [b|]; [|done]. simpl.
  destruct (encode_all f ms) as [w'|]; [|done]. simpl. intros [= <-]. by eexists _, _.
Qed.

(** A stream of encoded messages is cut into these messages. *)
Lemma frames_encode (f : framing) (ms : list bytes) (w : bytes) :
  usable f -> Forall (carries f) ms -> encode_all f ms = Some w -> frames f w = (ms, [], true).
Proof.
  intros Hu Hms. revert w. induction Hms as [|m ms Hm Hms IH]; intros w Hw.
  - injection Hw as <-. rewrite frames_eq by done. destruct f as [e off|e off|[] size|]; try done.
    simpl in *. unfold cut_terminated. simpl. by rewrite bool_decide_eq_false_2 by (by rewrite take_nil).
  - apply encode_all_cons in Hw as (b & w' & Hb & Hw & ->). rewrite frames_eq by done.
    by rewrite (cut_encode f m b w'), (IH w') by done.
Qed.

Lemma cut_malformed_app (f : framing) (l k : bytes) : cut f l = Malformed -> cut f (l ++ k) = Malformed.
Proof.
  assert (forall d, cut_terminated d l <> Malformed) as Ht by (intros d; unfold cut_terminated; by destruct (find_sub d l)).
  destruct f as [e off|e off|w size|]; simpl; [by intros ?%Ht|by intros ?%Ht| |done].
  unfold cut_header. assert (0 < SIZEOF w) by (destruct w; simpl; lia). intros E.
  pose proof (zlen_nonneg k). destruct (Z.ltb_spec (zlen l) (SIZEOF w)); [done|].
  destruct (Z.eqb_spec (header_value (zslice l 0 (SIZEOF w))) 0) as [Ez|]; [|by destruct (zlen l <? _)].
  rewrite (zslice_app_l l k), Ez, zlen_app, (proj2 (Z.ltb_ge _ _)) by lia. done.
Qed.

(** A proper beginning of an encoded message is incomplete. *)
Lemma cut_encode_prefix (f : framing) (m p q : bytes) :
  carries f m -> encode f m = Some (p ++ q) -> q <> [] -> cut f p = Incomplete.
Proof.
  intros Hm He Hq. pose proof (cut_encode f m (p ++ q) [] Hm He) as Hc. rewrite app_nil_r in Hc.
  destruct (cut f p) as [|m' r|] eqn:E; [done| |].
  - rewrite (cut_app f p q m' r) in Hc by eauto using carries_usable. injection Hc as _ Hr. by destruct r, q.
  - by rewrite (cut_malformed_app f p q) in Hc.
Qed.

(** Every beginning of a stream of encoded messages consists of the first of these messages
    and a beginning of the next one. *)
Lemma frames_prefix (f : framing) (ms : list bytes) (w pre : bytes) :
  usable f -> Forall (carries f) ms -> encode_all f ms = Some w -> pre `prefix_of` w ->
  exists ms1 ms2 tail, ms = ms1 ++ ms2 /\ frames f pre = (ms1, tail, true) /\
    (tail = [] \/ exists m b, m ∈ ms /\ encode f m = Some b /\ zlen tail < zlen b).
Proof.
  intros Hu Hms. revert w pre. induction Hms as [|m ms Hm Hms IH]; intros w pre Hw Hp.
  - injection Hw as <-. apply prefix_nil_inv in Hp as ->. exists [], [], []. split; [done|]. split; [|by left].
    by apply (frames_encode f []).
  - apply encode_all_cons in Hw as (b & w' & Hb & Hw & ->). destruct Hp as [q0 Hq0].
    apply app_eq_inv in Hq0 as [(q & -> & _)|(k & -> & ->)].
    + destruct (decide (q = [])) as [->|Hq].
      * rewrite app_nil_r in *. exists [m], ms, []. split; [done|]. split; [|by left].
        rewrite frames_eq by done. rewrite <- (app_nil_r pre) at 1. rewrite (cut_encode f m pre []) by done.
        by rewrite (frames_encode f [] []) by done.
      * exists [], (m :: ms), pre. split; [done|]. split; [|right].
        -- by rewrite frames_eq, (cut_encode_prefix f m pre q) by done.
        -- exists m, (pre ++ q). split; [by left|]. split; [done|]. zlens.
           assert (0 < zlen q) by (destruct q; [done|unfold zlen; simpl; lia]). lia.
    + destruct (IH (k ++ q0) k Hw) as (ms1 & ms2 & tail & -> & Hf & Ht); [by exists q0|]. exists (m :: ms1), ms2, tail. split; [done|].
      split; [by rewrite frames_eq, (cut_encode f m b k), Hf by done|].
      destruct Ht as [|(m' & b' & ? & ? & ?)]; [by left|right]. exists m', b'. split; [by right|done].
Qed.

(** What is left of a stream has no further message. *)
Lemma frames_tail (f : framing) (l : bytes) :
  usable f -> forall ms tail, frames f l = (ms, tail, true) -> frames f tail = ([], tail, true).
Proof.
  intros Hu. revert l. refine (stream_ind f _ Hu _). intros l IH ms tail. rewrite frames_eq by done.
  destruct (cut f l) as [|m rest|] eqn:E; [| |done].
  - intros [= <- <-]. by rewrite frames_eq, E.
  - destruct (frames f rest) as [[ms1 tail1] good1] eqn:F. intros [= <- <- ->]. by apply (IH m rest eq_refl ms1).
Qed.
