(* ===== verification/Session.v ===== *)
(** * Connections: io/async/io.h, io/async/buffered_io.h, io/stream.h

    A connection reads bytes from a socket into a buffer, lets a protocol (Protocol) cut them
    into messages, hands these to the user's class, and writes out what is published. [conn] is
    the state of the class [io] and of the stream it derives from; [input], [output] and
    [buffered_io] have the same fields or a part of them. The user's class is a function
    [react] from the calls made so far and the present call to the actions it takes.

    A buffer is the list of its bytes; PipeAlloc proves that the buffer class refines it. The
    kernel is the input of an event: which directions are ready, what [recv] returns, how many
    bytes [send] takes. *)

From S2P Require Import Prelude Protocol.
From Stdlib Require Import Strings.Byte.

#[local] Open Scope Z_scope.

(** * State *)

(** The calls on the user's class and on its server. *)
Inductive notice :=
| NMessage (m : bytes)
| NPendingRead (n : Z)
| NEof
| NEos
| NPendingWrite (n : Z)
| NDisconnected (reason error : Z)
| NServer
| NDispose.

(** What the user's class may do when it is called. *)
Inductive action :=
| APublish (args : list bytes)
| ADisconnect (reason : Z)
| ASwitch (f : framing)
| AClear
| ACloseAfterDeliver.

(** The watcher [_async_event]: started, interest in reading and writing, and an event fed by
    [disconnect()] that has not been handled. *)
Record watcher := Watcher {
  active : bool;
  ev_read : bool;
  ev_write : bool;
  fed : bool
}.

Record conn := Conn {
  _in_buffer : bytes;
  _max_read_buffer_size : Z;
  _out_buffer : bytes;
  _max_write_buffer_size : Z;
  _protocol : protocol;
  _on_message : bool;
  _is_disposed : bool;
  _reason : Z;
  _system_error : Z;
  _max_message_size : Z;
  _bytes_read : Z;
  _bytes_written : Z;
  _messages_processed : Z;
  _async_event : watcher;
  _errno : Z;
  has_server : bool;
  (** Ghost: the calls made on the user's class and the bytes the kernel took. *)
  notices : list notice;
  wire : bytes
}.

(** ** Updates of fields *)

Definition set_input (p : protocol) (b : bytes) (s : conn) : conn :=
  Conn b (_max_read_buffer_size s) (_out_buffer s) (_max_write_buffer_size s) p (_on_message s)
    (_is_disposed s) (_reason s) (_system_error s) (_max_message_size s) (_bytes_read s) (_bytes_written s)
    (_messages_processed s) (_async_event s) (_errno s) (has_server s) (notices s) (wire s).

Definition set_output (b w : bytes) (s : conn) : conn :=
  Conn (_in_buffer s) (_max_read_buffer_size s) b (_max_write_buffer_size s) (_protocol s) (_on_message s)
    (_is_disposed s) (_reason s) (_system_error s) (_max_message_size s) (_bytes_read s) (_bytes_written s)
    (_messages_processed s) (_async_event s) (_errno s) (has_server s) (notices s) w.

Definition set_status (on_message is_disposed : bool) (reason system_error : Z) (s : conn) : conn :=
  Conn (_in_buffer s) (_max_read_buffer_size s) (_out_buffer s) (_max_write_buffer_size s) (_protocol s) on_message
    is_disposed reason system_error (_max_message_size s) (_bytes_read s) (_bytes_written s)
    (_messages_processed s) (_async_event s) (_errno s) (has_server s) (notices s) (wire s).

Definition set_counters (rd wr msgs : Z) (s : conn) : conn :=
  Conn (_in_buffer s) (_max_read_buffer_size s) (_out_buffer s) (_max_write_buffer_size s) (_protocol s) (_on_message s)
    (_is_disposed s) (_reason s) (_system_error s) (_max_message_size s) rd wr
    msgs (_async_event s) (_errno s) (has_server s) (notices s) (wire s).

Definition set_watcher (w : watcher) (s : conn) : conn :=
  Conn (_in_buffer s) (_max_read_buffer_size s) (_out_buffer s) (_max_write_buffer_size s) (_protocol s) (_on_message s)
    (_is_disposed s) (_reason s) (_system_error s) (_max_message_size s) (_bytes_read s) (_bytes_written s)
    (_messages_processed s) w (_errno s) (has_server s) (notices s) (wire s).

Definition set_errno (e : Z) (s : conn) : conn :=
  Conn (_in_buffer s) (_max_read_buffer_size s) (_out_buffer s) (_max_write_buffer_size s) (_protocol s) (_on_message s)
    (_is_disposed s) (_reason s) (_system_error s) (_max_message_size s) (_bytes_read s) (_bytes_written s)
    (_messages_processed s) (_async_event s) e (has_server s) (notices s) (wire s).

Definition add_notice (n : notice) (s : conn) : conn :=
  Conn (_in_buffer s) (_max_read_buffer_size s) (_out_buffer s) (_max_write_buffer_size s) (_protocol s) (_on_message s)
    (_is_disposed s) (_reason s) (_system_error s) (_max_message_size s) (_bytes_read s) (_bytes_written s)
    (_messages_processed s) (_async_event s) (_errno s) (has_server s) (notices s ++ [n]) (wire s).

Definition set_on_message (b : bool) (s : conn) : conn :=
  set_status b (_is_disposed s) (_reason s) (_system_error s) s.

Definition set_reason (reason system_error : Z) (s : conn) : conn :=
  set_status (_on_message s) (_is_disposed s) reason system_error s.

Definition set_protocol (p : protocol) (s : conn) : conn := set_input p (_in_buffer s) s.

(** * Constants *)

(** [static_cast<std::size_t>(-1)]: no limit on the write buffer. *)
Definition npos : Z := 2 ^ 64 - 1.

Definition QB_DEFAULT_READ_BUFFER_SIZE : Z := 65536.

(** [event::disconnect_reason]. *)
Definition user_initiated : Z := 1.
Definition protocol_error : Z := -1.
Definition message_too_large : Z := -2.
Definition buffer_overflow : Z := -3.

(** [istream::ErrBufferLimitExceeded]. *)
Definition ErrBufferLimitExceeded : Z := -2.

(** Values of [errno] on Linux. *)
Definition EINTR : Z := 4.
Definition EAGAIN : Z := 11.
Definition ENOBUFS : Z := 105.

Definition not_send_error (error : Z) : bool := (error =? EAGAIN) || (error =? EINTR) || (error =? ENOBUFS).
Definition not_recv_error (error : Z) : bool := (error =? EAGAIN) || (error =? EINTR).

(** * The stream under the connection *)

(** What the kernel answers: bytes or an error; how many bytes it takes or an error. *)
Inductive recv_result := Recv (b : bytes) | RecvError (e : Z).
Inductive send_result := SendUpTo (n : nat) | SendError (e : Z).

(** [tcp::socket::read]: an orderly close by the peer is an error with [errno] cleared. *)
Definition socket_read (r : recv_result) : bytes + Z :=
  match r with
  | Recv [] => inr 0
  | Recv b => inl b
  | RecvError e => inr e
  end.

(** [tcp::socket::write]: the number of bytes sent. The clamp to [INT_MAX] is a bound on what
    the kernel takes, which is any number here. *)
Definition socket_write (r : send_result) (b : bytes) : Z + Z :=
  match r with
  | SendUpTo n => inl (Z.min (Z.of_nat n) (zlen b))
  | SendError e => inr e
  end.

Definition pendingRead (s : conn) : Z := zlen (_in_buffer s).
Definition pendingWrite (s : conn) : Z := zlen (_out_buffer s).

(** [istream::read]. *)
Definition stream_read (r : recv_result) (s : conn) : Z * conn :=
  if (_max_read_buffer_size s <? pendingRead s) ||
     (_max_read_buffer_size s - pendingRead s <? QB_DEFAULT_READ_BUFFER_SIZE)
  then (ErrBufferLimitExceeded, s)
  else match socket_read r with
       | inl b => (zlen b, set_input (_protocol s) (_in_buffer s ++ b) s)
       | inr e => (-1, set_errno e s)
       end.

(** [istream::flush]. *)
Definition flush (size : Z) (s : conn) : conn := set_input (_protocol s) (drop (Z.to_nat size) (_in_buffer s)) s.

(** [istream::eof]: the buffer is compacted, its contents stay. *)
Definition stream_eof (s : conn) : conn :=
  if pendingRead s =? 0 then set_input (_protocol s) [] s else s.

(** [stream::write]. *)
Definition stream_write (r : send_result) (s : conn) : Z * conn :=
  match socket_write r (_out_buffer s) with
  | inl ret =>
      if 0 <? ret then
        let sent := wire s ++ zslice (_out_buffer s) 0 ret in
        if negb (ret =? pendingWrite s) then (ret, set_output (drop (Z.to_nat ret) (_out_buffer s)) sent s)
        else (ret, set_output [] sent s)
      else (ret, s)
  | inr e => (-1, set_errno e s)
  end.

(** * Operations of the connection *)

Definition ready_to_write (s : conn) : conn :=
  let w := _async_event s in
  if ev_write w then s else set_watcher (Watcher (active w) (ev_read w) true (fed w)) s.

Definition disconnect (reason : Z) (s : conn) : conn :=
  let w := _async_event s in
  set_watcher (Watcher (active w) (ev_read w) (ev_write w) true)
    (set_reason (if reason =? 0 then user_initiated else reason) (_system_error s) s).

(** [switch_protocol]. *)
Definition switch_protocol (f : framing) (s : conn) : conn :=
  let up := construct f in if ok up then set_protocol up s else s.

Definition clear_protocols (s : conn) : conn := set_protocol no_protocol s.

Definition close_after_deliver (s : conn) : conn := set_protocol (not_ok (_protocol s)) s.

Definition publish (args : list bytes) (s : conn) : conn :=
  if _is_disposed s || negb (_reason s =? 0) then s
  else
    let max_write := _max_write_buffer_size s in
    if negb (max_write =? npos) && (max_write <=? pendingWrite s) then
      disconnect buffer_overflow (set_reason (_reason s) 0 s)
    else
      let s1 := ready_to_write s in
      match args with
      | [] => s1
      | _ =>
          let before := pendingWrite s1 in
          let s2 := set_output (_out_buffer s1 ++ concat args) (wire s1) s1 in
          let after := pendingWrite s2 in
          if negb (max_write =? npos) && (max_write <? after) then
            let added := after - before in
            let overflow := after - max_write in
            let s3 := if overflow <=? added
                      then set_output (zslice (_out_buffer s2) 0 (after - overflow)) (wire s2) s2 else s2 in
            disconnect buffer_overflow (set_reason (_reason s3) 0 s3)
          else s2
      end.

Definition act (s : conn) (a : action) : conn :=
  match a with
  | APublish args => publish args s
  | ADisconnect r => disconnect r s
  | ASwitch f => switch_protocol f s
  | AClear => clear_protocols s
  | ACloseAfterDeliver => close_after_deliver s
  end.

(** [start()] on an open socket; the watcher is armed for reading. *)
Definition start (s : conn) : conn :=
  set_watcher (Watcher true true false (fed (_async_event s))) (set_status false false 0 0 s).

Definition stop (s : conn) : conn :=
  let w := _async_event s in set_watcher (Watcher false (ev_read w) (ev_write w) false) s.

(** [reset_io_state()]. *)
Definition reset_io_state (s : conn) : conn := set_status false false 0 0 s.

(** [_async_event.set(EV_READ)]. *)
Definition watch_read_only (s : conn) : conn :=
  let w := _async_event s in set_watcher (Watcher (active w) true false (fed w)) s.

Section Handlers.
Context (react : list notice -> notice -> list action).

(** A call on the user's class, which acts on the connection before it returns. A class
    without a handler for the event takes no action. *)
Definition emit (n : notice) (s : conn) : conn :=
  fold_left act (react (notices s) n) (add_notice n s).

(** [onMessage]. *)
Definition onMessage (size : Z) (s : conn) : conn :=
  emit (NMessage (payload (framing_of (_protocol s)) size (_in_buffer s))) s.

Definition count_message (s : conn) : conn :=
  set_counters (_bytes_read s) (_bytes_written s) (_messages_processed s +s 1) s.

(** The check for frames that are too large: [None], or the connection marked. *)
Definition too_large (ret : Z) (s : conn) : bool :=
  (_max_message_size s <? ret) || (should_flush (_protocol s) && (pendingRead s <? ret)).

Definition reject_frame (s : conn) : conn :=
  set_on_message false (set_reason message_too_large 0 (set_protocol (not_ok (_protocol s)) s)).

Definition flush_if (b : bool) (size : Z) (s : conn) : conn := if b then flush size s else s.

(** The loop of [io::process_messages]. Each round takes at least one byte from the buffer. *)
Fixpoint process_messages_loop (fuel : nat) (s : conn) : bool * conn :=
  match fuel with
  | O => (true, s)
  | S fuel =>
      let '(ret, p, buf) := getMessageSize (_protocol s) (_in_buffer s) in
      let s1 := set_input p buf s in
      if ret <=? 0 then (true, set_on_message false s1)
      else if too_large ret s1 then (false, reject_frame s1)
      else
        let old_should_flush := should_flush (_protocol s1) in
        let s2 := count_message (onMessage ret s1) in
        if negb (_reason s2 =? 0) then
          let s3 := flush_if old_should_flush ret s2 in
          if 0 <? pendingWrite s3 then (true, set_on_message false (ready_to_write s3))
          else (false, set_on_message false s3)
        else if negb (ok (_protocol s2)) then
          let s3 := flush_if old_should_flush ret s2 in
          if 0 <? pendingWrite s3 then (true, set_on_message false (ready_to_write s3))
          else (false, set_on_message false (set_reason protocol_error 0 s3))
        else process_messages_loop fuel (flush_if old_should_flush ret s2)
  end.

Definition process_messages (s : conn) : bool * conn :=
  process_messages_loop (S (length (_in_buffer s))) (set_on_message true s).

Definition handle_post_read (s : conn) : conn :=
  if 0 <? pendingRead s then emit (NPendingRead (pendingRead s)) s else emit NEof s.

(** [io::handle_write]. *)
Definition handle_write (r : send_result) (s : conn) : bool * conn :=
  let '(raw_ret, s1) := stream_write r s in
  if raw_ret <? 0 then
    if not_send_error (_errno s1) then (true, ready_to_write s1) else (false, s1)
  else
    let s2 := set_counters (_bytes_read s1) (_bytes_written s1 +s raw_ret) (_messages_processed s1) s1 in
    if pendingWrite s2 =? 0 then
      if negb (_reason s2 =? 0) || negb (ok (_protocol s2)) then
        (false, if _reason s2 =? 0 then emit NEos s2 else s2)
      else (true, emit NEos (watch_read_only s2))
    else (true, emit (NPendingWrite (pendingWrite s2)) s2).

(** [io::dispose]. *)
Definition dispose (s : conn) : conn :=
  if _is_disposed s then s
  else
    let s1 := set_status (_on_message s) true (_reason s) (_system_error s) s in
    let s2 := emit (NDisconnected (_reason s1) (_system_error s1)) s1 in
    if has_server s2 then add_notice NServer s2 else emit NDispose (stop s2).

(** The label [error] of [io::on]. *)
Definition on_error (s : conn) : conn :=
  let s1 := if _reason s =? 0 then set_reason 0 (if ok (_protocol s) then _errno s else 0) s else s in
  dispose s1.

(** How a phase of the handler ends: [return], [goto error], or on with the flag [ok]. *)
Inductive flow := FReturn | FError | FNext (ok : bool).

(** The part of [io::on] for read readiness. *)
Definition read_phase (rd : bool) (r : recv_result) (s : conn) : flow * conn :=
  if rd && ok (_protocol s) then
    let '(ret, s1) := stream_read r s in
    if ret =? -1 then
      if not_recv_error (_errno s1) then (FReturn, s1) else (FError, s1)
    else if ret =? ErrBufferLimitExceeded then (FError, set_reason buffer_overflow 0 s1)
    else
      let s2 := set_counters (_bytes_read s1 +s ret) (_bytes_written s1) (_messages_processed s1) s1 in
      let '(good, s3) := process_messages s2 in
      if good then (FNext true, handle_post_read (stream_eof s3)) else (FError, s3)
  else (FNext false, s).

(** [io::on(event::io)]. *)
Definition on_io (rd wr : bool) (r : recv_result) (w : send_result) (s : conn) : conn :=
  if _on_message s then s
  else if negb (_reason s =? 0) then on_error s
  else match read_phase rd r s with
       | (FReturn, s1) => s1
       | (FError, s1) => on_error s1
       | (FNext ok, s1) =>
           if wr || (ok && (0 <? pendingWrite s1)) then
             let '(good, s2) := handle_write w s1 in
             if good then s2 else on_error s2
           else if ok then s1 else on_error s1
       end.

(** ** The classes [input], [output] and [buffered_io]

    They repeat the operations above with differences in when a connection ends. *)

(** The loop of [input::process_messages]: no output is waited for. *)
Fixpoint input_process_loop (fuel : nat) (s : conn) : bool * conn :=
  match fuel with
  | O => (true, s)
  | S fuel =>
      let '(ret, p, buf) := getMessageSize (_protocol s) (_in_buffer s) in
      let s1 := set_input p buf s in
      if ret <=? 0 then (true, set_on_message false s1)
      else if too_large ret s1 then (false, reject_frame s1)
      else
        let old_should_flush := should_flush (_protocol s1) in
        let s2 := count_message (onMessage ret s1) in
        if negb (_reason s2 =? 0) then (false, set_on_message false (flush_if old_should_flush ret s2))
        else if negb (ok (_protocol s2)) then (false, set_on_message false (set_reason protocol_error 0 s2))
        else input_process_loop fuel (flush_if old_should_flush ret s2)
  end.

Definition input_process_messages (s : conn) : bool * conn :=
  input_process_loop (S (length (_in_buffer s))) (set_on_message true s).

(** The label [error] of [input::on] and [output::on]. *)
Definition plain_error (s : conn) : conn :=
  dispose (if _reason s =? 0 then set_reason 0 (_errno s) s else s).

(** [input::on(event::io)]. *)
Definition on_input (rd : bool) (r : recv_result) (s : conn) : conn :=
  if _on_message s then s
  else if negb (_reason s =? 0) || negb (ok (_protocol s)) then
    plain_error (if negb (ok (_protocol s)) then set_reason protocol_error 0 s else s)
  else if rd then
    let '(ret, s1) := stream_read r s in
    if ret =? -1 then
      if not_recv_error (_errno s1) then s1 else plain_error s1
    else if ret =? ErrBufferLimitExceeded then plain_error (set_reason buffer_overflow 0 s1)
    else
      let '(good, s2) := input_process_messages (set_counters (_bytes_read s1 +s ret) (_bytes_written s1) (_messages_processed s1) s1) in
      if good then handle_post_read (stream_eof s2) else plain_error s2
  else plain_error s.

(** [output::on(event::io)]; [_async_event.set(EV_NONE)] when everything is sent. *)
Definition on_output (wr : bool) (w : send_result) (s : conn) : conn :=
  if negb (_reason s =? 0) then plain_error s
  else if wr then
    let '(ret, s1) := stream_write w s in
    if ret <? 0 then
      if not_send_error (_errno s1) then ready_to_write s1 else plain_error s1
    else
      let s2 := if 0 <? ret then set_counters (_bytes_read s1) (_bytes_written s1 +s ret) (_messages_processed s1) s1 else s1 in
      if pendingWrite s2 =? 0 then
        let e := _async_event s2 in
        emit NEos (set_watcher (Watcher (active e) false false (fed e)) s2)
      else emit (NPendingWrite (pendingWrite s2)) s2
  else plain_error s.

(** The loop of [buffered_io::process_input]. *)
Fixpoint buffered_loop (fuel : nat) (s : conn) : option bool * conn :=
  match fuel with
  | O => (None, s)
  | S fuel =>
      let '(ret, p, buf) := getMessageSize (_protocol s) (_in_buffer s) in
      let s1 := set_input p buf s in
      if ret <=? 0 then (None, set_on_message false s1)
      else if too_large ret s1 then (Some false, reject_frame s1)
      else
        let old_should_flush := should_flush (_protocol s1) in
        let s2 := count_message (onMessage ret s1) in
        let s3 := flush_if old_should_flush ret s2 in
        if negb (_reason s2 =? 0) then (Some (0 <? pendingWrite s3), set_on_message false s3)
        else if negb (ok (_protocol s2)) then
          if 0 <? pendingWrite s3 then (Some true, set_on_message false s3)
          else (Some false, set_on_message false (set_reason protocol_error 0 s3))
        else buffered_loop fuel s3
  end.

(** [buffered_io::process_input]. *)
Definition process_input (s : conn) : bool * conn :=
  if _is_disposed s || negb (_reason s =? 0) then (false, s)
  else match framing_of (_protocol s) with
       | NoProtocol =>
           (true, if 0 <? pendingRead s then emit (NPendingRead (pendingRead s)) s else s)
       | _ =>
           if negb (ok (_protocol s)) then (false, s)
           else if _on_message s then (true, s)
           else match buffered_loop (S (length (_in_buffer s))) (set_on_message true s) with
                | (Some res, s1) => (res, s1)
                | (None, s1) => let s2 := handle_post_read s1 in (ok (_protocol s2), s2)
                end
       end.

(** ** Runs *)

(** What happens to a connection: events of the kernel, the event fed by [disconnect()], and
    calls of the user. *)
Inductive op :=
| OpEvent (rd wr : bool) (r : recv_result) (w : send_result)
| OpFed (r : recv_result) (w : send_result)
| OpAct (a : action).

(** The loop reports only directions the watcher is interested in. A fed event has the value
    [EV_UNDEF], all bits set. *)
Definition step (s : conn) (o : op) : conn :=
  match o with
  | OpEvent rd wr r w =>
      let e := _async_event s in
      let rd := rd && ev_read e in
      let wr := wr && ev_write e in
      if active e && (rd || wr) then on_io rd wr r w s else s
  | OpFed r w =>
      let e := _async_event s in
      if fed e then on_io true true r w (set_watcher (Watcher (active e) (ev_read e) (ev_write e) false) s) else s
  | OpAct a => act s a
  end.

Definition run (s : conn) (ops : list op) : conn := fold_left step ops s.

End Handlers.

(** A connection as constructed, with a protocol, and started. *)
Definition opened (f : framing) (max_read max_write max_message : Z) (server : bool) : conn :=
  start (switch_protocol f
    (Conn [] max_read [] max_write no_protocol false false 0 0 max_message 0 0 0 (Watcher false false false false) 0 server [] [])).

(** * An induction rule for the handler

    A predicate that survives each elementary update of the connection survives a whole event,
    whatever the user's class does. *)

(** The calls other than [on(disconnected)], which [dispose] makes with its flag. *)
Definition allowed (s : conn) (n : notice) : Prop :=
  match n with
  | NMessage m => zlen m <= _max_message_size s
  | NDisconnected _ _ => False
  | _ => True
  end.

Record closed (I : conn -> Prop) : Prop := Closed {
  cl_input : forall s p b, I s -> zlen b <= zlen (_in_buffer s) -> I (set_input p b s);
  cl_read : forall s b, I s -> zlen (_in_buffer s) + QB_DEFAULT_READ_BUFFER_SIZE <= _max_read_buffer_size s ->
    zlen b <= QB_DEFAULT_READ_BUFFER_SIZE -> I (set_input (_protocol s) (_in_buffer s ++ b) s);
  cl_send : forall s ret, I s -> 0 < ret <= pendingWrite s ->
    I (set_output (drop (Z.to_nat ret) (_out_buffer s)) (wire s ++ zslice (_out_buffer s) 0 ret) s);
  cl_on_message : forall s b, I s -> I (set_on_message b s);
  cl_reason : forall s r e, I s -> I (set_reason r e s);
  cl_counters : forall s a b c, I s -> I (set_counters a b c s);
  cl_watcher : forall s w, I s -> I (set_watcher w s);
  cl_errno : forall s e, I s -> I (set_errno e s);
  cl_notice : forall s n, I s -> allowed s n -> I (add_notice n s);
  cl_dispose : forall s r e, I s -> _is_disposed s = false ->
    I (add_notice (NDisconnected r e) (set_status (_on_message s) true (_reason s) (_system_error s) s))
}.

Lemma getMessageSize_shrinks (p : protocol) (buf : bytes) (ret : Z) (p' : protocol) (buf' : bytes) :
  getMessageSize p buf = (ret, p', buf') -> zlen buf' <= zlen buf.
Proof.
  unfold getMessageSize. destruct (framing_of p) as [e off|e off|w size|].
  - destruct (byte_terminated_getMessageSize e off buf). by intros [= _ _ <-].
  - destruct (bytes_terminated_getMessageSize e off buf). by intros [= _ _ <-].
  - unfold size_as_header_getMessageSize. zcase; simpl; intros [= _ _ <-]; unfold zlen; rewrite ?length_drop; lia.
  - by intros [= _ _ <-].
Qed.

Lemma payload_length (f : framing) (size : Z) (buf : bytes) : 0 <= size -> zlen (payload f size buf) <= size.
Proof.
  intros Hs. assert (forall n, 0 <= n -> zlen (zslice buf 0 n) <= n) as Hz.
  { intros n Hn. unfold zslice, zlen. rewrite length_take. lia. }
  assert (forall d, 0 <= d -> shiftSize d size <= size /\ 0 <= shiftSize d size) as Hsh by (intros; unfold shiftSize; zcase; lia).
  destruct f as [e off|e off|w sz|]; simpl; [| |by apply Hz|done].
  - destruct (Hsh 1) as [? ?]; [lia|]. etransitivity; [by apply Hz|done].
  - destruct (Hsh (zlen e)) as [? ?]; [done|]. etransitivity; [by apply Hz|done].
Qed.

(** All actions but publishing are elementary updates. *)
Lemma closed_act (I : conn -> Prop) :
  closed I -> (forall s args, I s -> I (publish args s)) -> forall s a, I s -> I (act s a).
Proof.
  intros HI Hp s a H. assert (forall p, I (set_protocol p s)) as Hprot by (intros; by apply (cl_input I HI)).
  destruct a as [args|r|f| |]; simpl; [by apply Hp| |unfold switch_protocol; case_match; [apply Hprot|done]|by apply Hprot..].
  apply (cl_watcher I HI). by apply (cl_reason I HI).
Qed.

Section Rule.
Context (react : list notice -> notice -> list action) (I : conn -> Prop) (HI : closed I).
Context (Hreact : forall log n a s, a ∈ react log n -> I s -> I (act s a)).

Lemma cl_protocol s p : I s -> I (set_protocol p s).
Proof. intros H. apply (cl_input I HI); done. Qed.

Lemma cl_ready s : I s -> I (ready_to_write s).
Proof. intros H. unfold ready_to_write. destruct (ev_write (_async_event s)); [done|]. by apply (cl_watcher I HI). Qed.

Lemma cl_acts log n s : I s -> I (fold_left act (react log n) s).
Proof.
  assert (forall a, a ∈ react log n -> forall s, I s -> I (act s a)) as Ha by eauto. revert s Ha.
  induction (react log n) as [|a l IH]; intros s Ha H; simpl; [done|].
  apply IH; [intros a' Ha'; apply Ha; by right|]. apply Ha; [by left|done].
Qed.

Lemma cl_emit n s : I s -> allowed s n -> I (emit react n s).
Proof. intros H Hn. apply cl_acts. by apply (cl_notice I HI). Qed.

Lemma cl_flush b n s : I s -> I (flush_if b n s).
Proof.
  intros H. destruct b; simpl; [|done]. apply (cl_input I HI); [done|]. unfold zlen. rewrite length_drop. lia.
Qed.

Lemma cl_loop fuel s : I s -> I (process_messages_loop react fuel s).2.
Proof.
  revert s. induction fuel as [|fuel IH]; intros s H; [done|]. cbn [process_messages_loop].
  destruct (getMessageSize (_protocol s) (_in_buffer s)) as [[ret p] buf] eqn:E.
  assert (I (set_input p buf s)) as H1 by (apply (cl_input I HI); eauto using getMessageSize_shrinks).
  set (s1 := set_input p buf s) in *. destruct (Z.leb_spec ret 0); simpl; [by apply (cl_on_message I HI)|].
  destruct (too_large ret s1) eqn:Etl; simpl.
  { apply (cl_on_message I HI), (cl_reason I HI). by apply cl_protocol. }
  assert (I (count_message (onMessage react ret s1))) as H2.
  { apply (cl_counters I HI), cl_emit; [done|]. simpl. unfold too_large in Etl. apply orb_false_iff in Etl as [Etl _].
    apply Z.ltb_ge in Etl. etransitivity; [|exact Etl]. apply payload_length. lia. }
  set (s2 := count_message (onMessage react ret s1)) in *.
  assert (forall b, I (flush_if b ret s2)) as H3 by (intros; by apply cl_flush).
  repeat case_match; simpl; repeat first [apply (cl_on_message I HI)|apply (cl_reason I HI)|apply cl_ready]; auto.
Qed.

Lemma cl_handle_write w s : I s -> I (handle_write react w s).2.
Proof.
  intros H. unfold handle_write. destruct (stream_write w s) as [ret s1] eqn:E.
  assert (I s1) as H1.
  { revert E. unfold stream_write, socket_write. destruct w as [n|e]; [|intros [= _ <-]; by apply (cl_errno I HI)].
    destruct (Z.ltb_spec 0 (Z.min (Z.of_nat n) (zlen (_out_buffer s)))); [|by intros [= _ <-]].
    set (m := Z.min _ _) in *. pose proof (cl_send I HI s m H) as Hs. unfold pendingWrite in *.
    destruct (Z.eqb_spec m (zlen (_out_buffer s))) as [Em|]; simpl; intros [= _ <-]; [|apply Hs; lia].
    rewrite Em in Hs at 3. unfold zlen in Hs. rewrite Nat2Z.id, drop_all in Hs. apply Hs. unfold zlen in *. lia. }
  repeat case_match; simpl; try done; try (by apply cl_ready);
    repeat first [apply cl_emit; [|done]|apply (cl_watcher I HI)|apply (cl_counters I HI)]; done.
Qed.

Lemma cl_dispose_all s : I s -> I (dispose react s).
Proof.
  intros H. unfold dispose. destruct (_is_disposed s) eqn:E; [done|]. set (s2 := emit _ _ _).
  assert (I s2) as H2 by (apply cl_acts; by apply (cl_dispose I HI)).
  destruct (has_server s2); [by apply (cl_notice I HI)|]. apply cl_emit; [|done]. by apply (cl_watcher I HI).
Qed.

Lemma cl_on_error s : I s -> I (on_error react s).
Proof. intros H. apply cl_dispose_all. case_match; [|done]. by apply (cl_reason I HI). Qed.

(** The chunk [recv] gives fits the reservation it was asked to fill. *)
Definition recv_fits (r : recv_result) : Prop :=
  match r with Recv b => zlen b <= QB_DEFAULT_READ_BUFFER_SIZE | RecvError _ => True end.

Lemma cl_stream_read r s ret s1 : recv_fits r -> stream_read r s = (ret, s1) -> I s -> I s1.
Proof.
  intros Hr E H. revert E. unfold stream_read, pendingRead. zcase; simpl; try (by intros [= _ <-]).
  unfold socket_read. destruct r as [[|b l]|e]; intros [= _ <-]; [by apply (cl_errno I HI)| |by apply (cl_errno I HI)].
  apply (cl_read I HI); [done|lia|done].
Qed.

Lemma cl_read_phase rd r s : recv_fits r -> I s -> I (read_phase react rd r s).2.
Proof.
  intros Hr H. unfold read_phase. destruct (rd && ok (_protocol s)); [|done].
  destruct (stream_read r s) as [ret s1] eqn:E. assert (I s1) by (by apply (cl_stream_read _ _ _ _ Hr E)).
  destruct (ret =? -1); [by destruct (not_recv_error (_errno s1))|].
  destruct (ret =? ErrBufferLimitExceeded); [by apply (cl_reason I HI)|]. unfold process_messages.
  match goal with |- context [process_messages_loop react ?n ?t] =>
    assert (I t) as Ht by (apply (cl_on_message I HI); by apply (cl_counters I HI));
    pose proof (cl_loop n t Ht) as Hl; destruct (process_messages_loop react n t) as [[] s3] end; simpl in *; [|done].
  assert (I (stream_eof s3)) by (unfold stream_eof; zcase; [apply (cl_input I HI); [done|unfold pendingRead in *; zlens]|done]).
  unfold handle_post_read. zcase; by apply cl_emit.
Qed.

Lemma cl_on_io rd wr r w s : recv_fits r -> I s -> I (on_io react rd wr r w s).
Proof.
  intros Hr H. unfold on_io. destruct (_on_message s); [done|]. destruct (negb (_reason s =? 0)); [by apply cl_on_error|].
  pose proof (cl_read_phase rd r s Hr H) as Hp. destruct (read_phase react rd r s) as [[| |k] s1]; simpl in Hp; [done|by apply cl_on_error|].
  destruct (wr || _).
  - pose proof (cl_handle_write w s1 Hp). destruct (handle_write react w s1) as [[] s2]; [done|by apply cl_on_error].
  - destruct k; [done|by apply cl_on_error].
Qed.

Definition op_fits (o : op) : Prop :=
  match o with OpEvent _ _ r _ => recv_fits r | OpFed r _ => recv_fits r | OpAct _ => True end.

Lemma cl_step s o : op_fits o -> (forall a, o = OpAct a -> I (act s a)) -> I s -> I (step react s o).
Proof.
  intros Hfit Ha H. destruct o as [rd wr r w|r w|a]; simpl in *; repeat case_match; try done; [by apply cl_on_io| |by apply Ha].
  apply cl_on_io; [done|]. by apply (cl_watcher I HI).
Qed.

End Rule.

(** A predicate that publishing keeps as well holds through every run. *)
Lemma closed_run (react : list notice -> notice -> list action) (I : conn -> Prop) (ops : list op) (s : conn) :
  closed I -> (forall s args, I s -> I (publish args s)) -> Forall op_fits ops -> I s -> I (run react s ops).
Proof.
  intros HI Hp Ho. pose proof (closed_act I HI Hp) as Ha. revert s.
  induction Ho as [|o ops Hfit Ho IH]; intros s H; [done|]. apply IH. apply (cl_step react I HI); auto.
Qed.

(** * What publishing does *)

Lemma publish_keeps (args : list bytes) (s : conn) :
  let s' := publish args s in
  _in_buffer s' = _in_buffer s /\ _protocol s' = _protocol s /\ _on_message s' = _on_message s /\
  _is_disposed s' = _is_disposed s /\ notices s' = notices s /\ wire s' = wire s /\
  _max_read_buffer_size s' = _max_read_buffer_size s /\ _max_write_buffer_size s' = _max_write_buffer_size s /\
  _max_message_size s' = _max_message_size s /\ has_server s' = has_server s.
Proof. unfold publish, disconnect, ready_to_write. repeat case_match; done. Qed.

(** The output grows at its end, and not past the limit. *)
Lemma publish_output (args : list bytes) (s : conn) :
  exists more, _out_buffer (publish args s) = _out_buffer s ++ more.
Proof.
  assert (exists more, _out_buffer s = _out_buffer s ++ more) as Hnil by (exists []; by rewrite app_nil_r).
  unfold publish, disconnect. destruct (_is_disposed s || _); [done|]. destruct (negb _ && _); [done|].
  assert (_out_buffer (ready_to_write s) = _out_buffer s) as Er by (unfold ready_to_write; by case_match).
  destruct args as [|a args]; [by rewrite Er|]. remember (concat (a :: args)) as c eqn:Ec. simpl. unfold pendingWrite.
  destruct (negb _ && _) eqn:E; simpl; [|exists c; by rewrite Er].
  zcase; simpl; [|exists c; by rewrite Er]. autorewrite with zlist in *. rewrite Er in *.
  set (m := _max_write_buffer_size s) in *. exists (zslice c 0 (m - zlen (_out_buffer s))).
  replace (zlen (_out_buffer s) + zlen c - (zlen (_out_buffer s) + zlen c - m)) with
    (zlen (_out_buffer s) + (m - zlen (_out_buffer s))) by lia.
  rewrite zslice_app by (done || lia). rewrite zslice_app_l, zslice_all by lia. f_equal. apply zslice_app_r.
Qed.

Lemma publish_bound (args : list bytes) (s : conn) :
  _max_write_buffer_size s <> npos -> zlen (_out_buffer s) <= _max_write_buffer_size s ->
  zlen (_out_buffer (publish args s)) <= _max_write_buffer_size s.
Proof.
  intros Hm Hs. unfold publish, disconnect. destruct (_is_disposed s || _); [done|].
  assert (_out_buffer (ready_to_write s) = _out_buffer s) as Er by (unfold ready_to_write; by case_match).
  assert (_max_write_buffer_size (ready_to_write s) = _max_write_buffer_size s) as Em by (unfold ready_to_write; by case_match).
  destruct (Z.eqb_spec (_max_write_buffer_size s) npos) as [|_]; [done|]. simpl. unfold pendingWrite.
  destruct (_ <=? _); [done|]. destruct args as [|a args]; [by rewrite Er|]. remember (concat (a :: args)) as c eqn:Ec. simpl.
  rewrite Er. autorewrite with zlist. pose proof (zlen_nonneg c). pose proof (zlen_nonneg (_out_buffer s)).
  zcase; simpl; try (autorewrite with zlist; lia). unfold zlen, zslice in *. rewrite length_take. lia.
Qed.

(** A call that does not overflow the buffer appends its arguments. *)
Lemma publish_appends (args : list bytes) (s : conn) :
  _is_disposed s = false -> _reason s = 0 ->
  (_max_write_buffer_size s = npos \/ zlen (_out_buffer s) + zlen (concat args) <= _max_write_buffer_size s /\ zlen (_out_buffer s) < _max_write_buffer_size s) ->
  _out_buffer (publish args s) = _out_buffer s ++ concat args /\ _reason (publish args s) = 0.
Proof.
  intros Hd Hr Hm. set (m := _max_write_buffer_size s) in *.
  assert (negb (m =? npos) && (m <=? zlen (_out_buffer s)) = false) as E1.
  { destruct Hm as [->|[_ ?]]; [done|]. rewrite (proj2 (Z.leb_gt _ _)) by done. apply andb_false_r. }
  assert (negb (m =? npos) && (m <? zlen (_out_buffer s) + zlen (concat args)) = false) as E2.
  { destruct Hm as [->|[? _]]; [done|]. rewrite (proj2 (Z.ltb_ge _ _)) by done. apply andb_false_r. }
  assert (_out_buffer (ready_to_write s) = _out_buffer s) as Er by (unfold ready_to_write; by case_match).
  assert (_reason (ready_to_write s) = 0) as Rr by (unfold ready_to_write; by case_match).
  unfold publish. rewrite Hd, Hr. simpl. fold m. unfold pendingWrite. rewrite E1.
  destruct args as [|b args]; [simpl; by rewrite Er, app_nil_r|].
  cbn [set_output _out_buffer]. rewrite zlen_app, Er, E2. by cbn.
Qed.

(** * Output is only appended to

    What the kernel has taken followed by what is buffered: every operation keeps it or adds
    at the end, so bytes leave in the order they were published, none twice, none skipped. *)

Definition output_stream (s : conn) : bytes := wire s ++ _out_buffer s.

Lemma closed_output (P : bytes -> Prop) : closed (fun s => P (output_stream s)).
Proof.
  unfold output_stream. split; try done.
  intros s ret H Hret. simpl. rewrite <- app_assoc. unfold zslice. by rewrite drop_0, take_drop.
Qed.

Lemma publish_stream (args : list bytes) (s : conn) : exists more, output_stream (publish args s) = output_stream s ++ more.
Proof.
  unfold output_stream. destruct (publish_output args s) as [more ->].
  destruct (publish_keeps args s) as (_ & _ & _ & _ & _ & -> & _). exists more. by rewrite app_assoc.
Qed.


(** * The user's class is told once *)

Definition is_disconnected (n : notice) : bool := match n with NDisconnected _ _ => true | _ => false end.

Definition disconnections (s : conn) : nat := length (filter (fun n => is_disconnected n = true) (notices s)).

Lemma closed_once : closed (fun s => disconnections s = if _is_disposed s then 1%nat else 0%nat).
Proof.
  unfold disconnections. split; try done.
  - intros s n H Hn. simpl. rewrite filter_app, length_app, H. destruct n; simpl in *; try done; lia.
  - intros s r e H Hd. simpl. rewrite filter_app, length_app, H, Hd. done.
Qed.

(** Between two calls of start(), on(disconnected) is called at most once, and it has been
    called exactly if the connection is disposed of, whatever the user's class does in its handlers. *)
Theorem session_disconnected_once (react : list notice -> notice -> list action) (s : conn) (ops : list op) :
  Forall op_fits ops -> notices s = [] -> _is_disposed s = false ->
  disconnections (run react s ops) = if _is_disposed (run react s ops) then 1%nat else 0%nat.
Proof.
  intros Hops Hn Hd. apply (closed_run react _ ops s closed_once); [|done|unfold disconnections; by rewrite Hn, Hd].
  intros s' args. unfold disconnections. destruct (publish_keeps args s') as (_ & _ & _ & -> & -> & _). done.
Qed.

(** * Bounds *)

Definition message_bounded (max : Z) (n : notice) : Prop := match n with NMessage m => zlen m <= max | _ => True end.

(** The buffers stay within their limits and no message exceeds its limit. *)
Record bounded (max_read max_write max_message : Z) (s : conn) : Prop := Bounded {
  bo_read : _max_read_buffer_size s = max_read;
  bo_write : _max_write_buffer_size s = max_write;
  bo_message : _max_message_size s = max_message;
  bo_in : zlen (_in_buffer s) <= max_read;
  bo_out : max_write <> npos -> zlen (_out_buffer s) <= max_write;
  bo_notices : Forall (message_bounded max_message) (notices s)
}.

Lemma closed_bounded (max_read max_write max_message : Z) : closed (bounded max_read max_write max_message).
Proof.
  split; try (intros; match goal with H : bounded _ _ _ _ |- _ => destruct H end; split; done).
  - intros s p b [] Hb. split; simpl; done || lia.
  - intros s b [] Hb Hb'. split; simpl; try done. zlens.
  - intros s ret [] Hret. split; simpl; try done. intros Hm. specialize (bo_out0 Hm).
    unfold zlen in *. rewrite length_drop. lia.
  - intros s n [] Hn. split; simpl; try done. apply Forall_app. split; [done|]. constructor; [|done].
    destruct n; simpl in *; try done. lia.
  - intros s r e [] Hd. split; simpl; try done. apply Forall_app. by split; [|constructor].
Qed.

Lemma publish_bounded (max_read max_write max_message : Z) (args : list bytes) (s : conn) :
  bounded max_read max_write max_message s -> bounded max_read max_write max_message (publish args s).
Proof.
  intros []. destruct (publish_keeps args s) as (Ei & _ & _ & _ & En & _ & Er & Ew & Em & _).
  split; rewrite ?Ei, ?Er, ?Ew, ?Em, ?En; try done. intros Hm. subst. by apply publish_bound; auto.
Qed.

(** C29: The input buffer never exceeds max_read_buffer_size, the output buffer never exceeds
    max_write_buffer_size (unless it is unlimited), and no message larger than max_message_size
    reaches the user's class, whatever the peer sends and the user's class does. *)
Theorem session_bounded (react : list notice -> notice -> list action) (f : framing) (max_read max_write max_message : Z)
    (server : bool) (ops : list op) :
  0 <= max_read -> 0 <= max_write -> Forall op_fits ops ->
  bounded max_read max_write max_message (run react (opened f max_read max_write max_message server) ops).
Proof.
  intros Hr Hw Hops. apply (closed_run react _ ops _ (closed_bounded max_read max_write max_message)); [|done|by destruct f; split].
  intros s args. apply publish_bounded.
Qed.

(** * Messages delivered *)

Definition message_of (n : notice) : option bytes := match n with NMessage m => Some m | _ => None end.

(** The messages handed to the user's class, in order. *)
Definition messages (s : conn) : list bytes := omap message_of (notices s).

(** The bytes a protocol counts to a message beside its payload. *)
Definition delimiter_size (f : framing) : Z :=
  match f with ByteTerminated _ _ => 1 | BytesTerminated e _ => zlen e | _ => 0 end.

Lemma payload_size (f : framing) (n : Z) (buf : bytes) :
  0 < n <= zlen buf -> f <> NoProtocol -> n <= zlen (payload f n buf) + delimiter_size f.
Proof.
  intros Hn Hf. destruct f as [e off|e off|w sz|]; simpl; [| | |done].
  - unfold shiftSize. zcase; [|lia]. rewrite zlen_slice; lia.
  - pose proof (zlen_nonneg e). unfold shiftSize. zcase; [rewrite zlen_slice; lia|]. pose proof (zlen_nonneg (zslice buf 0 0)). lia.
  - rewrite zlen_slice; lia.
Qed.

(** A class that answers by publishing only. *)
Definition publisher (react : list notice -> notice -> list action) : Prop :=
  forall log n a, a ∈ react log n -> exists args, a = APublish args.

(** A connection that is up, with protocol [f], its output unlimited; [tail] are the bytes
    received since the last message. *)
Record listening (f : framing) (max_read max_message : Z) (tail : bytes) (s : conn) : Prop := Listening {
  li_ok : ok (_protocol s) = true;
  li_framing : framing_ok (framing_of (_protocol s)) (_in_buffer s);
  li_kind : reset_framing (framing_of (_protocol s)) = reset_framing f;
  li_tail : held (framing_of (_protocol s)) ++ _in_buffer s = tail;
  li_disposed : _is_disposed s = false;
  li_reason : _reason s = 0;
  li_max_read : _max_read_buffer_size s = max_read;
  li_max_write : _max_write_buffer_size s = npos;
  li_max_message : _max_message_size s = max_message;
  li_active : active (_async_event s) = true;
  li_ev_read : ev_read (_async_event s) = true;
  li_fed : fed (_async_event s) = false
}.

Section Publisher.
Context (react : list notice -> notice -> list action) (Hpub : publisher react).
Context (f : framing) (max_read max_message : Z).

#[local] Abbreviation up := (listening f max_read max_message).

Lemma publish_up args tail s : up tail s -> up tail (publish args s) /\ _on_message (publish args s) = _on_message s.
Proof.
  intros [Hok Hfr Hk Ht Hd Hr Hmr Hmw Hmm Ha He Hf].
  destruct (publish_keeps args s) as (Ei & Ep & Eo & Ed & _ & _ & Emr & Emw & Emm & _).
  destruct (publish_appends args s Hd Hr (or_introl Hmw)) as [_ Er]. split; [|done].
  assert (active (_async_event (publish args s)) = true /\ ev_read (_async_event (publish args s)) = true /\
          fed (_async_event (publish args s)) = false) as (? & ? & ?).
  { unfold publish, ready_to_write. rewrite Hd, Hr, Hmw. destruct args; simpl; by case_match. }
  split; rewrite ?Ep, ?Ei, ?Ed, ?Emr, ?Emw, ?Emm; done.
Qed.

(** What the reaction leaves alone. *)
Definition kept (s s' : conn) : Prop :=
  _protocol s' = _protocol s /\ _in_buffer s' = _in_buffer s /\ _on_message s' = _on_message s.

Lemma acts_up l tail s : (forall a, a ∈ l -> exists args, a = APublish args) -> up tail s ->
  up tail (fold_left act l s) /\ kept s (fold_left act l s) /\ notices (fold_left act l s) = notices s.
Proof.
  revert s. induction l as [|a l IH]; intros s Hl H; [done|]. destruct (Hl a (list_elem_of_here _ _)) as [args ->]. simpl.
  destruct (publish_up args tail s H) as [H' Eo]. destruct (publish_keeps args s) as (Ei & Ep & _ & _ & En & _).
  destruct (IH (publish args s)) as (H2 & (Ep2 & Ei2 & Eo2) & En2); [|done|]. { intros a Ha. apply Hl. by right. }
  split; [done|]. unfold kept. by rewrite Ep2, Ei2, Eo2, En2.
Qed.

Lemma emit_up n tail s : up tail s ->
  up tail (emit react n s) /\ kept s (emit react n s) /\ notices (emit react n s) = notices s ++ [n].
Proof.
  intros H. unfold emit. apply (acts_up (react (notices s) n) tail (add_notice n s)); [apply Hpub|]. by destruct H.
Qed.

(** One event with bytes [b]: the messages they complete are delivered. *)
Lemma loop_up fuel tail s ms tail' :
  usable f -> f <> NoProtocol -> up tail s -> (length (_in_buffer s) < fuel)%nat ->
  frames f tail = (ms, tail', true) -> Forall (fun m => zlen m + delimiter_size f <= max_message) ms ->
  exists s', process_messages_loop react fuel s = (true, s') /\ up tail' s' /\ _on_message s' = false /\
    messages s' = messages s ++ ms.
Proof.
  intros Hu Hf. revert tail s ms. induction fuel as [|fuel IH]; intros tail s ms H Hlen Hfr Hms; [lia|].
  cbn [process_messages_loop]. pose proof (getMessageSize_next (_protocol s) (_in_buffer s) (li_ok _ _ _ _ _ H) (li_framing _ _ _ _ _ H)) as Hn.
  rewrite frames_eq in Hfr by done. unfold next_spec in Hn. rewrite (li_tail _ _ _ _ _ H) in Hn.
  rewrite (cut_reset f) in Hn by apply (li_kind _ _ _ _ _ H).
  destruct (cut f tail) as [|m rest|] eqn:Ec; [| |done].
  - injection Hfr as <- <-. destruct Hn as (f' & buf' & -> & Hok & Hh & Hk). simpl. eexists. split; [done|].
    rewrite app_nil_r. split; [|done]. destruct H. split; simpl; try done. by rewrite Hk.
  - destruct (frames f rest) as [[ms1 tail1] good] eqn:Er. injection Hfr as <- -> ->. apply Forall_cons in Hms as [Hm Hms].
    destruct Hn as (n & buf' & Eg & Hn & Hp & Hd). pose proof (getMessageSize_shrinks _ _ _ _ _ Eg) as Hshrink.
    rewrite Eg, (proj2 (Z.leb_gt _ _)) by lia.
    rewrite (li_kind _ _ _ _ _ H) in *. set (s1 := set_input (fresh (reset_framing f)) buf' s).
    assert (reset_framing f <> NoProtocol) as Hrf by (by destruct f).
    assert (delimiter_size (reset_framing f) = delimiter_size f) as Hds by (by destruct f).
    pose proof (payload_size (reset_framing f) n buf' Hn Hrf) as Hps. rewrite Hp, Hds in Hps.
    assert (up buf' s1) as H1.
    { destruct H. split; simpl; try done; [by apply framing_ok_reset|by destruct f|by rewrite held_reset]. }
    assert (too_large n s1 = false) as ->.
    { unfold too_large, pendingRead. rewrite (li_max_message _ _ _ _ _ H1). simpl. zcase; lia. }
    assert (should_flush (_protocol s1) = true) as -> by (simpl; by destruct f).
    unfold onMessage. simpl (framing_of (_protocol s1)). simpl (_in_buffer s1). rewrite Hp.
    destruct (emit_up (NMessage m) buf' s1 H1) as (H2 & (Ep & Ei & _) & En). set (s2 := emit react (NMessage m) s1) in *.
    rewrite (li_reason _ _ _ _ _ H2 : _reason (count_message s2) = 0), (li_ok _ _ _ _ _ H2 : ok (_protocol (count_message s2)) = true).
    simpl (negb _). cbv iota.
    destruct (IH rest (flush_if true n (count_message s2)) ms1) as (s' & -> & Hup & Hom & Hmsg); try done.
    + subst rest. destruct H2. split; simpl; try done; rewrite ?Ep, ?Ei; simpl; [by apply framing_ok_reset|by rewrite held_reset].
    + simpl. rewrite Ei. simpl. rewrite length_drop. unfold zlen in *. lia.
    + exists s'. split; [done|]. split; [done|]. split; [done|]. rewrite Hmsg. unfold messages at 1. simpl. rewrite En.
      unfold messages. rewrite omap_app. simpl. by rewrite <- app_assoc.
Qed.

Lemma messages_emit n s : notices (emit react n s) = notices s ++ [n] -> message_of n = None -> messages (emit react n s) = messages s.
Proof. intros E Hn. unfold messages. rewrite E, omap_app. simpl. by rewrite Hn, app_nil_r. Qed.

(** Taking bytes to send, or being told to try again, leaves the connection up. *)
Definition send_fine (w : send_result) : Prop := match w with SendUpTo _ => True | SendError e => not_send_error e = true end.
Definition recv_fine (r : recv_result) : Prop :=
  match r with Recv b => 0 < zlen b <= QB_DEFAULT_READ_BUFFER_SIZE | RecvError e => not_recv_error e = true end.

Lemma stream_write_up w tail s : send_fine w -> up tail s ->
  exists ret s', stream_write w s = (ret, s') /\ up tail s' /\ kept s s' /\ notices s' = notices s /\
    (ret < 0 -> not_send_error (_errno s') = true).
Proof.
  intros Hw []. unfold stream_write, socket_write. destruct w as [n|e]; simpl in Hw.
  - zcase; simpl; eexists _, _; (split; [done|]); (split; [by split|]); (split; [done|]); (split; [done|]);
      pose proof (zlen_nonneg (_out_buffer s)); lia.
  - eexists _, _. split; [done|]. split; [by split|]. done.
Qed.

Lemma handle_write_up w tail s : send_fine w -> up tail s ->
  exists s', handle_write react w s = (true, s') /\ up tail s' /\ kept s s' /\ messages s' = messages s.
Proof.
  intros Hw H. unfold handle_write. destruct (stream_write_up w tail s Hw H) as (ret & s1 & -> & H1 & (Ep & Ei & Eo) & En & He).
  assert (messages s1 = messages s) as Em by (unfold messages; by rewrite En).
  destruct (Z.ltb_spec ret 0).
  - rewrite He by done. eexists. split; [done|]. unfold ready_to_write. destruct H1. by case_match; (split; [split; done|done]).
  - set (s2 := set_counters _ _ _ s1). assert (up tail s2) as H2 by (by destruct H1).
    rewrite (li_reason _ _ _ _ _ H2), (li_ok _ _ _ _ _ H2). simpl.
    assert (up tail (watch_read_only s2)) as H3 by (by destruct H2).
    destruct (Z.eqb_spec (pendingWrite s2) 0).
    + destruct (emit_up NEos tail _ H3) as (? & (Ep' & Ei' & Eo') & En'). eexists. split; [done|]. split; [done|].
      rewrite messages_emit by done. unfold kept. rewrite Ep', Ei', Eo'. done.
    + destruct (emit_up (NPendingWrite (pendingWrite s2)) tail _ H2) as (? & (Ep' & Ei' & Eo') & En'). eexists. split; [done|].
      split; [done|]. rewrite messages_emit by done. unfold kept. rewrite Ep', Ei', Eo'. done.
Qed.

Lemma post_read_up tail s : up tail s ->
  up tail (handle_post_read react (stream_eof s)) /\ _on_message (handle_post_read react (stream_eof s)) = _on_message s /\
  messages (handle_post_read react (stream_eof s)) = messages s.
Proof.
  intros H. assert (stream_eof s = s) as ->.
  { unfold stream_eof, pendingRead. zcase; [|done]. match goal with E : _ = 0 |- _ => apply zlen_nil_inv in E end.
    destruct s; simpl in *. by subst. }
  unfold handle_post_read. case_match.
  - destruct (emit_up (NPendingRead (pendingRead s)) tail _ H) as (? & (_ & _ & Eo) & En). by rewrite messages_emit, Eo.
  - destruct (emit_up NEof tail _ H) as (? & (_ & _ & Eo) & En). by rewrite messages_emit, Eo.
Qed.

(** The bytes received together with those pending are within the limits. *)
Definition fits (l : bytes) : Prop :=
  let '(ms, tail, good) := frames f l in
  good = true /\ Forall (fun m => zlen m + delimiter_size f <= max_message) ms /\ zlen tail + QB_DEFAULT_READ_BUFFER_SIZE <= max_read.

Lemma read_phase_up b tail s ms tail' :
  usable f -> f <> NoProtocol -> up tail s -> _on_message s = false -> 0 < zlen b -> zlen tail + QB_DEFAULT_READ_BUFFER_SIZE <= max_read ->
  frames f (tail ++ b) = (ms, tail', true) -> Forall (fun m => zlen m + delimiter_size f <= max_message) ms ->
  exists s', read_phase react true (Recv b) s = (FNext true, s') /\ up tail' s' /\ _on_message s' = false /\ messages s' = messages s ++ ms.
Proof.
  intros Hu Hf H Ho Hb Hroom Hfr Hms. unfold read_phase. rewrite (li_ok _ _ _ _ _ H). simpl. unfold stream_read, pendingRead.
  assert (zlen (_in_buffer s) <= zlen tail) as Hin by (rewrite <- (li_tail _ _ _ _ _ H), zlen_app; pose proof (zlen_nonneg (held (framing_of (_protocol s)))); lia).
  rewrite (li_max_read _ _ _ _ _ H). unfold QB_DEFAULT_READ_BUFFER_SIZE in *.
  rewrite (proj2 (Z.ltb_ge max_read _)), (proj2 (Z.ltb_ge (max_read - _) _)) by lia. simpl.
  destruct b as [|b0 b]; [done|]. set (bs := b0 :: b) in *. change (socket_read (Recv bs)) with (@inl bytes Z bs). cbv iota beta.
  unfold ErrBufferLimitExceeded. rewrite !(proj2 (Z.eqb_neq (zlen bs) _)) by lia.
  unfold process_messages. match goal with |- context [process_messages_loop react ?n ?t] => set (s2 := t) end.
  assert (up (tail ++ bs) s2) as H2.
  { destruct H. split; simpl; try done; [by apply framing_ok_app|]. by rewrite app_assoc, li_tail0. }
  destruct (loop_up _ (tail ++ bs) s2 ms tail' Hu Hf H2 (Nat.lt_succ_diag_r _) Hfr Hms) as (s3 & E & H3 & Eo & Em).
  simpl (_in_buffer _) in *. rewrite E. destruct (post_read_up tail' s3 H3) as (? & Eo' & Em').
  eexists. split; [done|]. split; [done|]. by rewrite Eo', Em', Em.
Qed.

(** Events that end well, and calls of publish. *)
Definition fine (o : op) : Prop :=
  match o with
  | OpEvent _ _ r w => recv_fine r /\ send_fine w
  | OpFed _ _ => True
  | OpAct (APublish _) => True
  | OpAct _ => False
  end.

Definition received (o : op) : bytes := match o with OpEvent true _ (Recv b) _ => b | _ => [] end.

(** After an event: the connection is up with the bytes [tail], and [ms] have been delivered. *)
Definition progress (tail : bytes) (ms : list bytes) (s s' : conn) : Prop :=
  up tail s' /\ _on_message s' = false /\ messages s' = messages s ++ ms.

Lemma progress_nil tail s s' : up tail s' -> kept s s' -> _on_message s = false -> messages s' = messages s -> progress tail [] s s'.
Proof. intros H (_ & _ & Eo) Ho Em. split; [done|]. by rewrite Eo, Em, app_nil_r. Qed.

Lemma on_io_read b wr w tail s ms tail' :
  usable f -> f <> NoProtocol -> up tail s -> _on_message s = false -> 0 < zlen b -> send_fine w ->
  zlen tail + QB_DEFAULT_READ_BUFFER_SIZE <= max_read ->
  frames f (tail ++ b) = (ms, tail', true) -> Forall (fun m => zlen m + delimiter_size f <= max_message) ms ->
  progress tail' ms s (on_io react true wr (Recv b) w s).
Proof.
  intros Hu Hf H Ho Hb Hw Hroom Hfr Hms. unfold on_io. rewrite Ho, (li_reason _ _ _ _ _ H). simpl.
  destruct (read_phase_up b tail s ms tail' Hu Hf H Ho Hb Hroom Hfr Hms) as (s1 & -> & H1 & Eo & Em).
  destruct (wr || _); [|done]. destruct (handle_write_up w tail' s1 Hw H1) as (s2 & -> & H2 & (_ & _ & Eo2) & Em2).
  split; [done|]. by rewrite Eo2, Em2.
Qed.

Lemma on_io_other rd wr r w tail s :
  up tail s -> _on_message s = false -> send_fine w -> zlen tail + QB_DEFAULT_READ_BUFFER_SIZE <= max_read ->
  (rd = false /\ wr = true \/ rd = true /\ exists e, r = RecvError e /\ not_recv_error e = true) ->
  progress tail [] s (on_io react rd wr r w s).
Proof.
  intros H Ho Hw Hroom Hcase. unfold on_io. rewrite Ho, (li_reason _ _ _ _ _ H). simpl.
  assert (zlen (_in_buffer s) <= zlen tail) as Hin by (rewrite <- (li_tail _ _ _ _ _ H), zlen_app; pose proof (zlen_nonneg (held (framing_of (_protocol s)))); lia).
  destruct Hcase as [[-> ->]|(-> & e & -> & He)]; simpl.
  - destruct (handle_write_up w tail s Hw H) as (s2 & -> & H2 & Hk & Em2). by apply progress_nil.
  - unfold read_phase. rewrite (li_ok _ _ _ _ _ H). simpl. unfold stream_read, pendingRead. rewrite (li_max_read _ _ _ _ _ H).
    unfold QB_DEFAULT_READ_BUFFER_SIZE in *. rewrite (proj2 (Z.ltb_ge max_read _)), (proj2 (Z.ltb_ge (max_read - _) _)) by lia.
    simpl. rewrite He. by apply progress_nil; [destruct H|done|done|done].
Qed.

Lemma step_up o tail s ms tail' :
  usable f -> f <> NoProtocol -> up tail s -> _on_message s = false -> fine o ->
  zlen tail + QB_DEFAULT_READ_BUFFER_SIZE <= max_read -> frames f tail = ([], tail, true) ->
  frames f (tail ++ received o) = (ms, tail', true) -> Forall (fun m => zlen m + delimiter_size f <= max_message) ms ->
  progress tail' ms s (step react s o).
Proof.
  intros Hu Hf H Ho Hfine Hroom Hstuck Hfr Hms.
  assert (received o = [] -> progress tail [] s (step react s o) -> progress tail' ms s (step react s o)) as Hnone.
  { intros E. rewrite E, app_nil_r, Hstuck in Hfr. by injection Hfr as <- <-. }
  assert (progress tail [] s s) as Hsame by (by apply progress_nil).
  destruct o as [rd wr r w|r w|[args| | | |]]; simpl in Hfine; try done.
  - destruct Hfine as [Hr Hw]. simpl in *. rewrite (li_active _ _ _ _ _ H), (li_ev_read _ _ _ _ _ H), andb_true_r in *. simpl in *.
    destruct rd, r as [b|e]; simpl in *.
    + apply (on_io_read b _ w tail); tauto || done.
    + apply Hnone; [done|]. apply on_io_other; eauto.
    + destruct (wr && ev_write (_async_event s)); [|by apply Hnone]. apply Hnone; [done|]. apply on_io_other; auto.
    + destruct (wr && ev_write (_async_event s)); [|by apply Hnone]. apply Hnone; [done|]. apply on_io_other; auto.
  - apply Hnone; [done|]. simpl. by rewrite (li_fed _ _ _ _ _ H).
  - apply Hnone; [done|]. simpl. destruct (publish_up args tail s H) as [H' Eo].
    destruct (publish_keeps args s) as (Ei & Ep & _ & _ & En & _). apply progress_nil; [done|by split|done|]. unfold messages. by rewrite En.
Qed.

(** A run of such events delivers the messages of the reference. *)
Lemma run_up ops tail s ms tail' :
  usable f -> f <> NoProtocol -> up tail s -> _on_message s = false -> Forall fine ops -> frames f tail = ([], tail, true) ->
  (forall pre, pre `prefix_of` concat (received <$> ops) -> fits (tail ++ pre)) ->
  frames f (tail ++ concat (received <$> ops)) = (ms, tail', true) ->
  progress tail' ms s (run react s ops).
Proof.
  intros Hu Hf H Ho Hops. revert tail s ms H Ho. induction Hops as [|o ops Hfine Hops IH]; intros tail s ms H Ho Hstuck Hfits Hfr; simpl in *.
  - rewrite app_nil_r, Hstuck in Hfr. injection Hfr as <- <-. by apply progress_nil.
  - change (list_fmap op bytes received ops) with (received <$> ops) in *.
    assert (fits tail) as Hroom by (rewrite <- (app_nil_r tail); apply Hfits; apply prefix_nil). unfold fits in Hroom.
    rewrite Hstuck in Hroom. destruct Hroom as (_ & _ & Hroom).
    pose proof (Hfits (received o) ltac:(by eexists)) as Hmid. unfold fits in Hmid.
    destruct (frames f (tail ++ received o)) as [[ms1 tail1] good] eqn:E1. destruct Hmid as (-> & Hms1 & _).
    destruct (step_up o tail s ms1 tail1) as (H1 & Eo & Em); try done.
    rewrite app_assoc, (frames_app f _ _ Hu ms1 tail1 E1) in Hfr.
    destruct (frames f (tail1 ++ concat (received <$> ops))) as [[ms2 tail2] good2] eqn:E2. injection Hfr as <- <- ->.
    destruct (IH tail1 (step react s o) ms2) as (H2 & Eo2 & Em2); try done.
    + by apply (frames_tail f (tail ++ received o) Hu ms1).
    + intros pre Hpre. specialize (Hfits (received o ++ pre) ltac:(by apply prefix_app)). unfold fits in *.
      rewrite app_assoc, (frames_app f _ pre Hu ms1 tail1 E1) in Hfits. destruct (frames f (tail1 ++ pre)) as [[? ?] ?].
      destruct Hfits as (? & HF & ?). apply Forall_app in HF as [_ ?]. done.
    + split; [done|]. split; [done|]. rewrite app_assoc. by rewrite <- Em.
Qed.
End Publisher.

(** * The loops end, and agree *)

Section Loops.
Context (react : list notice -> notice -> list action).

Lemma acts_input l s : _in_buffer (fold_left act l s) = _in_buffer s.
Proof.
  revert s. induction l as [|a l IH]; intros s; simpl; [done|]. rewrite IH.
  destruct a as [args| |f| |]; try done; [apply publish_keeps|by destruct f].
Qed.

Lemma onMessage_input n s : _in_buffer (count_message (onMessage react n s)) = _in_buffer s.
Proof. unfold onMessage, emit. simpl. by rewrite acts_input. Qed.

(** A positive size comes from a protocol that flushes, and is not malformed. *)
Lemma getMessageSize_positive p buf ret p' buf' :
  getMessageSize p buf = (ret, p', buf') -> 0 < ret -> should_flush p' = true /\ ok p' = ok p.
Proof.
  unfold getMessageSize, should_flush, ok. destruct (framing_of p) as [e off|e off|w size|].
  - destruct (byte_terminated_getMessageSize e off buf). by intros [= <- <- <-].
  - destruct (bytes_terminated_getMessageSize e off buf). by intros [= <- <- <-].
  - unfold size_as_header_getMessageSize. zcase; simpl; intros [= <- <- <-] Hr; simpl; rewrite ?andb_true_r; done || lia.
  - intros [= <- <- <-]. lia.
Qed.

(** What is left after a round is shorter. *)
Lemma round_shorter p buf ret p' buf' s :
  getMessageSize p buf = (ret, p', buf') -> 0 < ret -> too_large ret (set_input p' buf' s) = false ->
  (length (drop (Z.to_nat ret) buf') < length buf)%nat.
Proof.
  intros E Hr Ht. destruct (getMessageSize_positive _ _ _ _ _ E Hr) as [Hf _]. apply getMessageSize_shrinks in E.
  unfold too_large, pendingRead in Ht. simpl in Ht. rewrite Hf in Ht. apply orb_false_iff in Ht as [_ Ht%Z.ltb_ge].
  rewrite length_drop. unfold zlen in *. lia.
Qed.

Lemma loop_fuel n n' s : (length (_in_buffer s) < n)%nat -> (length (_in_buffer s) < n')%nat ->
  process_messages_loop react n s = process_messages_loop react n' s.
Proof.
  revert n' s. induction n as [|n IH]; intros [|n'] s Hn Hn'; try lia. cbn [process_messages_loop].
  destruct (getMessageSize (_protocol s) (_in_buffer s)) as [[ret p] buf] eqn:E. destruct (Z.leb_spec ret 0); [done|].
  destruct (too_large ret (set_input p buf s)) eqn:Et; [done|]. pose proof (round_shorter _ _ _ _ _ _ E ltac:(lia) Et) as Hlt.
  destruct (getMessageSize_positive _ _ _ _ _ E ltac:(lia)) as [Hf _]. simpl (should_flush _). rewrite Hf.
  assert (forall t, _in_buffer (flush_if true ret t) = drop (Z.to_nat ret) (_in_buffer t)) as Hfl by done.
  case_match; [done|]. case_match; [done|]. apply IH; rewrite Hfl, onMessage_input; simpl (_in_buffer _); lia.
Qed.

End Loops.

(** C37: The framing loop ends: one round per buffered byte and one to stop are enough, whatever
    the user's class does (also when it replaces the protocol), since each message takes at least one byte. *)
Theorem process_messages_terminates (react : list notice -> notice -> list action) (s : conn) (more : nat) :
  process_messages react s = process_messages_loop react (S (length (_in_buffer s)) + more) (set_on_message true s).
Proof. unfold process_messages. apply loop_fuel; simpl; lia. Qed.

(** A connection on which publishing cannot fail. *)
Definition steady (s : conn) : Prop :=
  _reason s = 0 /\ _is_disposed s = false /\ _max_write_buffer_size s = npos.

Lemma publisher_steady (react : list notice -> notice -> list action) (n : notice) (s : conn) :
  publisher react -> steady s -> steady (emit react n s) /\ _protocol (emit react n s) = _protocol s.
Proof.
  intros Hpub Hs. unfold emit. assert (forall a, a ∈ react (notices s) n -> exists args, a = APublish args) as Ha by apply Hpub.
  change (_protocol s) with (_protocol (add_notice n s)). assert (steady (add_notice n s)) as Hs' by done.
  clear Hs. revert Hs' Ha. generalize (add_notice n s). induction (react (notices s) n) as [|a l IH]; intros s' Hs Ha; [done|].
  destruct (Ha a (list_elem_of_here _ _)) as [args ->]. simpl. destruct Hs as (Hr & Hd & Hm).
  destruct (publish_appends args s' Hd Hr (or_introl Hm)) as [_ Er].
  destruct (publish_keeps args s') as (_ & Ep & _ & Ed & _ & _ & _ & Em & _). rewrite <- Ep. apply IH.
  - split; [done|]. by rewrite Ed, Em.
  - intros a Hin. apply Ha. by right.
Qed.

(** The framing loops of input, io and buffered_io, which are written separately, treat the
    same bytes alike as long as the user's class only publishes: they leave the same connection,
    and succeed or fail together. *)
Theorem framing_loops_agree (react : list notice -> notice -> list action) (fuel : nat) (s : conn) :
  publisher react -> steady s -> ok (_protocol s) = true ->
  input_process_loop react fuel s = process_messages_loop react fuel s /\
  buffered_loop react fuel s = (if (process_messages_loop react fuel s).1 then None else Some false, (process_messages_loop react fuel s).2).
Proof.
  intros Hpub. revert s. induction fuel as [|fuel IH]; intros s Hs Hok; [done|].
  cbn [input_process_loop process_messages_loop buffered_loop].
  destruct (getMessageSize (_protocol s) (_in_buffer s)) as [[ret p] buf] eqn:E. destruct (Z.leb_spec ret 0); [done|].
  destruct (too_large ret (set_input p buf s)) eqn:Et; [done|]. destruct (getMessageSize_positive _ _ _ _ _ E ltac:(lia)) as [Hf Hp].
  simpl (should_flush _). rewrite Hf. unfold onMessage. set (m := NMessage _). set (s1 := set_input p buf s) in *.
  destruct (publisher_steady react m s1 Hpub Hs) as [Hs2 Ep]. set (s2 := emit react m s1) in *.
  pose proof (proj1 Hs2) as Hr. change (_reason (count_message s2)) with (_reason s2). change (_protocol (count_message s2)) with (_protocol s2).
  rewrite Hr, Ep. simpl (_protocol s1). rewrite Hp, Hok. simpl (negb _). cbv iota. apply IH; [done|]. simpl. by rewrite Ep, <- Hok.
Qed.
