(* ===== verification/SessionProps.v ===== *)
(** * Properties of connections

    Theorems on the connections of Session: a stream is delivered as its messages however the
    kernel cuts it, messages sent by one connection arrive at another, and the runs in which a
    connection ends before its output is sent or reports a wrong reason. *)

From S2P Require Import Prelude Protocol Session.
From Stdlib Require Import Strings.Byte.

#[local] Open Scope Z_scope.

(** A class that takes no action. *)
Definition silent : list notice -> notice -> list action := fun _ _ => [].

Lemma silent_publisher : publisher silent.
Proof. intros log n a H. by apply elem_of_nil in H. Qed.

Lemma opened_up (f : framing) (max_read max_message : Z) (server : bool) :
  usable f -> f <> NoProtocol -> listening f max_read max_message [] (opened f max_read npos max_message server).
Proof.
  intros Hu Hf. assert (opened f max_read npos max_message server =
    start (set_protocol (fresh (reset_framing f))
      (Conn [] max_read [] npos no_protocol false false 0 0 max_message 0 0 0 (Watcher false false false false) 0 server [] []))) as ->
    by (by destruct f).
  split; try done; simpl; [by apply framing_ok_reset|by destruct f|by rewrite held_reset].
Qed.

Lemma opened_quiet (f : framing) (max_read max_write max_message : Z) (server : bool) :
  let s := opened f max_read max_write max_message server in messages s = [] /\ output_stream s = [] /\ _on_message s = false.
Proof. by destruct f. Qed.

Lemma frames_nil (f : framing) : usable f -> frames f [] = ([], [], true).
Proof. intros Hu. by apply (frames_encode f [] []). Qed.

(** * The limit on the output

    A connection with a limit behaves like one without, until publishing runs over the limit and
    disconnects it with [buffer_overflow]. *)

Definition unlimit (s : conn) : conn :=
  Conn (_in_buffer s) (_max_read_buffer_size s) (_out_buffer s) npos (_protocol s) (_on_message s)
    (_is_disposed s) (_reason s) (_system_error s) (_max_message_size s) (_bytes_read s) (_bytes_written s)
    (_messages_processed s) (_async_event s) (_errno s) (has_server s) (notices s) (wire s).

Section Limit.
Context (react : list notice -> notice -> list action) (Hpub : publisher react).

#[local] Abbreviation over s := (_reason s = buffer_overflow).

Lemma publish_idle args s : _reason s <> 0 \/ _is_disposed s = true -> publish args s = s.
Proof. intros [H|H]; unfold publish; [rewrite (proj2 (Z.eqb_neq _ _)), orb_true_r by done|rewrite H]; done. Qed.

Lemma acts_idle l s : (forall a, a ∈ l -> exists args, a = APublish args) -> _reason s <> 0 \/ _is_disposed s = true -> fold_left act l s = s.
Proof.
  intros Hl Hs. induction l as [|a l IH]; [done|]. destruct (Hl a (list_elem_of_here _ _)) as [args ->]. simpl. rewrite publish_idle by done.
  apply IH. intros a Ha. apply Hl. by right.
Qed.

Lemma emit_idle n s : _reason s <> 0 \/ _is_disposed s = true -> emit react n s = add_notice n s.
Proof. intros Hs. by apply (acts_idle _ (add_notice n s)); [apply Hpub|]. Qed.

Lemma publish_sim args s : ~ over (publish args s) -> publish args (unlimit s) = unlimit (publish args s).
Proof.
  unfold publish. simpl. destruct (_is_disposed s || negb (_reason s =? 0)); [done|].
  destruct (negb (_max_write_buffer_size s =? npos) && (_max_write_buffer_size s <=? pendingWrite s)); [by intros []|].
  assert (ready_to_write (unlimit s) = unlimit (ready_to_write s)) as E by (unfold ready_to_write; simpl; by case_match).
  rewrite E. destruct args as [|b args]; [done|]. case_match; [|done]. by intros [].
Qed.

Lemma acts_sim l s : (forall a, a ∈ l -> exists args, a = APublish args) -> ~ over (fold_left act l s) ->
  fold_left act l (unlimit s) = unlimit (fold_left act l s).
Proof.
  revert s. induction l as [|a l IH]; intros s Hl Ho; [done|]. destruct (Hl a (list_elem_of_here _ _)) as [args ->]. simpl in *.
  assert (forall a, a ∈ l -> exists args, a = APublish args) as Hl' by (intros a Ha; apply Hl; by right).
  rewrite publish_sim; [by apply IH|]. intros E. apply Ho. rewrite acts_idle; [done|done|]. left. rewrite E. done.
Qed.

Lemma emit_sim n s : ~ over (emit react n s) -> emit react n (unlimit s) = unlimit (emit react n s).
Proof. intros Ho. by apply (acts_sim _ (add_notice n s)); [apply Hpub|]. Qed.

Lemma emit_over n s : over s -> over (emit react n s).
Proof. intros Ho. rewrite emit_idle; [done|]. left. by rewrite Ho. Qed.

Lemma loop_sim fuel s : ~ over (process_messages_loop react fuel s).2 ->
  process_messages_loop react fuel (unlimit s) = ((process_messages_loop react fuel s).1, unlimit (process_messages_loop react fuel s).2).
Proof.
  revert s. induction fuel as [|fuel IH]; intros s; [done|]. cbn [process_messages_loop].
  change (_protocol (unlimit s)) with (_protocol s). change (_in_buffer (unlimit s)) with (_in_buffer s).
  destruct (getMessageSize (_protocol s) (_in_buffer s)) as [[ret p] buf]. destruct (ret <=? 0); [done|].
  change (set_input p buf (unlimit s)) with (unlimit (set_input p buf s)). set (s1 := set_input p buf s).
  change (too_large ret (unlimit s1)) with (too_large ret s1). destruct (too_large ret s1); [done|].
  change (should_flush (_protocol (unlimit s1))) with (should_flush (_protocol s1)). set (b := should_flush _).
  assert (~ over (onMessage react ret s1) -> count_message (onMessage react ret (unlimit s1)) = unlimit (count_message (onMessage react ret s1))) as Hm.
  { intros Ho. unfold onMessage. change (payload (framing_of (_protocol (unlimit s1))) ret (_in_buffer (unlimit s1)))
      with (payload (framing_of (_protocol s1)) ret (_in_buffer s1)). by rewrite emit_sim. }
  change (_reason (count_message (onMessage react ret s1))) with (_reason (onMessage react ret s1)).
  destruct (Z.eqb_spec (_reason (onMessage react ret s1)) 0) as [Er|Er]; cbn [negb].
  - specialize (Hm ltac:(rewrite Er; done)). rewrite Hm. set (s2 := count_message (onMessage react ret s1)) in *.
    rewrite (Er : _reason (unlimit s2) = 0). cbn [negb Z.eqb].
    change (_protocol (unlimit s2)) with (_protocol s2). destruct (ok (_protocol s2)); cbn [negb].
    + intros Ho. rewrite <- IH by done. by destruct b.
    + assert (flush_if b ret (unlimit s2) = unlimit (flush_if b ret s2)) as -> by (by destruct b).
      set (s3 := flush_if b ret s2). change (pendingWrite (unlimit s3)) with (pendingWrite s3).
      destruct (0 <? pendingWrite s3); [|done]. intros _. unfold ready_to_write. simpl. by case_match.
  - intros Ho. set (s2 := count_message (onMessage react ret s1)) in *.
    assert (_reason (flush_if b ret s2) = _reason (onMessage react ret s1)) as Ef by (by destruct b).
    assert (~ over (onMessage react ret s1)) as Hno.
    { rewrite <- Ef. intros E. apply Ho. destruct (0 <? pendingWrite (flush_if b ret s2)); [|exact E].
      unfold ready_to_write. case_match; exact E. }
    rewrite (Hm Hno), (proj2 (Z.eqb_neq (_reason (unlimit s2)) 0) Er). cbn [negb].
    assert (flush_if b ret (unlimit s2) = unlimit (flush_if b ret s2)) as -> by (by destruct b).
    set (s3 := flush_if b ret s2). change (pendingWrite (unlimit s3)) with (pendingWrite s3).
    destruct (0 <? pendingWrite s3); [|done]. unfold ready_to_write. change (_async_event (unlimit s3)) with (_async_event s3).
    by destruct (ev_write (_async_event s3)).
Qed.

Lemma dispose_sim s : dispose react (unlimit s) = unlimit (dispose react s) /\ _reason (dispose react s) = _reason s.
Proof.
  set (s1 := set_status (_on_message s) true (_reason s) (_system_error s) s). set (n := NDisconnected (_reason s1) (_system_error s1)).
  assert (forall t, _is_disposed t = true -> _reason t = _reason s ->
    (if has_server (unlimit t) then add_notice NServer (unlimit t) else emit react NDispose (stop (unlimit t))) =
    unlimit (if has_server t then add_notice NServer t else emit react NDispose (stop t)) /\
    _reason (if has_server t then add_notice NServer t else emit react NDispose (stop t)) = _reason s) as Ht.
  { intros t Hd Hr. simpl (has_server (unlimit t)). destruct (has_server t); [done|]. rewrite (emit_idle NDispose (stop t)) by (by right).
    by rewrite (emit_idle NDispose (stop (unlimit t))) by (by right). }
  unfold dispose. simpl (_is_disposed (unlimit s)). destruct (_is_disposed s); [done|]. cbv zeta. fold s1 n.
  rewrite (emit_idle n s1) by (by right). change (set_status _ _ _ _ (unlimit s)) with (unlimit s1).
  change (NDisconnected (_reason (unlimit s1)) (_system_error (unlimit s1))) with n. rewrite (emit_idle n (unlimit s1)) by (by right).
  by apply (Ht (add_notice n s1)).
Qed.

Lemma on_error_sim s : on_error react (unlimit s) = unlimit (on_error react s) /\ _reason (on_error react s) = _reason s.
Proof.
  unfold on_error. simpl. destruct (Z.eqb_spec (_reason s) 0) as [E|E]; [|apply dispose_sim]. rewrite E.
  apply (dispose_sim (set_reason 0 (if ok (_protocol s) then _errno s else 0) s)).
Qed.

Lemma handle_write_sim w s :
  (over s -> over (handle_write react w s).2) /\
  (~ over (handle_write react w s).2 -> handle_write react w (unlimit s) = ((handle_write react w s).1, unlimit (handle_write react w s).2)).
Proof.
  unfold handle_write.
  assert (stream_write w (unlimit s) = ((stream_write w s).1, unlimit (stream_write w s).2) /\ _reason (stream_write w s).2 = _reason s) as [-> Er].
  { unfold stream_write. simpl. destruct (socket_write w (_out_buffer s)) as [ret|e]; [|done]. destruct (0 <? ret); [|done].
    change (pendingWrite (unlimit s)) with (pendingWrite s). by destruct (negb _). }
  destruct (stream_write w s) as [ret s1]. simpl in Er. cbn [fst snd]. destruct (ret <? 0).
  - change (_errno (unlimit s1)) with (_errno s1). destruct (not_send_error (_errno s1)); [|split; [by rewrite <- Er|done]].
    unfold ready_to_write. simpl. case_match; (split; [by rewrite <- Er|done]).
  - set (s2 := set_counters (_bytes_read s1) (_bytes_written s1 +s ret) (_messages_processed s1) s1).
    change (set_counters _ _ _ (unlimit s1)) with (unlimit s2). change (pendingWrite (unlimit s2)) with (pendingWrite s2).
    change (_reason (unlimit s2)) with (_reason s2). change (_protocol (unlimit s2)) with (_protocol s2).
    change (watch_read_only (unlimit s2)) with (unlimit (watch_read_only s2)).
    assert (over s -> over s2) as Ho by (intros E; etrans; [exact Er|exact E]).
    destruct (pendingWrite s2 =? 0); [|split; [intros E; by apply emit_over, Ho|intros E; simpl; by rewrite emit_sim]].
    destruct (negb (_reason s2 =? 0) || negb (ok (_protocol s2))).
    + destruct (_reason s2 =? 0); (split; [intros E|intros E]); simpl in *; [by apply emit_over, Ho|by rewrite emit_sim|by apply Ho|done].
    + split; [intros E; by apply emit_over, Ho|intros E; simpl; by rewrite emit_sim].
Qed.

Lemma read_phase_sim rd r s : _reason s = 0 -> ~ over (read_phase react rd r s).2 ->
  read_phase react rd r (unlimit s) = ((read_phase react rd r s).1, unlimit (read_phase react rd r s).2).
Proof.
  intros Hr. unfold read_phase. simpl (_protocol (unlimit s)). destruct (rd && ok (_protocol s)); [|done].
  assert (stream_read r (unlimit s) = ((stream_read r s).1, unlimit (stream_read r s).2)) as ->.
  { unfold stream_read. simpl. change (pendingRead (unlimit s)) with (pendingRead s). destruct (_ || _); [done|]. by destruct (socket_read r). }
  destruct (stream_read r s) as [ret s1]. cbn [fst snd]. destruct (ret =? -1); [simpl; by destruct (not_recv_error (_errno s1))|].
  destruct (ret =? ErrBufferLimitExceeded); [done|]. set (s2 := set_counters (_bytes_read s1 +s ret) _ _ s1).
  change (set_counters _ _ _ (unlimit s1)) with (unlimit s2). unfold process_messages.
  change (_in_buffer (unlimit s2)) with (_in_buffer s2). change (set_on_message true (unlimit s2)) with (unlimit (set_on_message true s2)).
  pose proof (loop_sim (S (length (_in_buffer s2))) (set_on_message true s2)) as Hl.
  destruct (process_messages_loop react _ (set_on_message true s2)) as [good s3]. cbn [fst snd] in *. destruct good; intros Ho; cbn [snd] in Ho.
  - assert (stream_eof (unlimit s3) = unlimit (stream_eof s3)) as E1
      by (unfold stream_eof; change (pendingRead (unlimit s3)) with (pendingRead s3); by destruct (pendingRead s3 =? 0)).
    assert (over s3 -> over (stream_eof s3)) as E2 by (unfold stream_eof; by destruct (pendingRead s3 =? 0)).
    unfold handle_post_read in *. set (s4 := stream_eof s3) in *. change (pendingRead (unlimit s4)) with (pendingRead s4) in *.
    assert (~ over s3) as Hno by (intros E; apply Ho; destruct (0 <? pendingRead s4); by apply emit_over, E2).
    rewrite (Hl Hno), E1. change (pendingRead (unlimit s4)) with (pendingRead s4). cbn [fst snd]. destruct (0 <? pendingRead s4); by rewrite emit_sim.
  - by rewrite (Hl Ho).
Qed.

Lemma on_io_sim rd wr r w s :
  (over s -> over (on_io react rd wr r w s)) /\
  (~ over (on_io react rd wr r w s) -> on_io react rd wr r w (unlimit s) = unlimit (on_io react rd wr r w s)).
Proof.
  unfold on_io. simpl (_on_message (unlimit s)). simpl (_reason (unlimit s)). destruct (_on_message s); [done|].
  destruct (Z.eqb_spec (_reason s) 0) as [Er|Er]; cbn [negb].
  2:{ destruct (on_error_sim s) as [-> E]. split; [by rewrite E|done]. }
  split; [rewrite Er; done|]. pose proof (read_phase_sim rd r s Er) as Hp. destruct (read_phase react rd r s) as [[| |k] s1]; cbn [fst snd] in Hp.
  - intros Ho. by rewrite (Hp Ho).
  - destruct (on_error_sim s1) as [E1 E2]. rewrite E2. intros Ho. by rewrite (Hp Ho), E1.
  - destruct (wr || _) eqn:Eb.
    + pose proof (handle_write_sim w s1) as [Hover Hsim]. destruct (handle_write react w s1) as [good s2]. cbn [fst snd] in *.
      destruct (on_error_sim s2) as [E1 E2]. intros Ho.
      assert (~ over s2) as Hno by (destruct good; [done|by rewrite E2 in Ho]). rewrite (Hp (fun E => Hno (Hover E))).
      change (pendingWrite (unlimit s1)) with (pendingWrite s1). rewrite Eb, (Hsim Hno). by destruct good.
    + destruct (on_error_sim s1) as [E1 E2]. intros Ho. assert (~ over s1) as Hno by (destruct k; [done|by rewrite E2 in Ho]).
      rewrite (Hp Hno). change (pendingWrite (unlimit s1)) with (pendingWrite s1). rewrite Eb. by destruct k.
Qed.

Lemma step_sim o s : fine o ->
  (over s -> over (step react s o)) /\ (~ over (step react s o) -> step react (unlimit s) o = unlimit (step react s o)).
Proof.
  intros Hf. destruct o as [rd wr r w|r w|[args| | | |]]; simpl in *; try done.
  - destruct (_ && _); [apply on_io_sim|done].
  - destruct (fed (_async_event s)); [apply (on_io_sim true true r w (set_watcher _ s))|done].
  - split; [intros E; rewrite publish_idle; [done|left; by rewrite E]|apply publish_sim].
Qed.

Lemma run_sim ops s : Forall fine ops ->
  (over s -> over (run react s ops)) /\ (~ over (run react s ops) -> run react (unlimit s) ops = unlimit (run react s ops)).
Proof.
  intros Hops. revert s. induction Hops as [|o ops Hf _ IH]; intros s; [done|]. destruct (step_sim o s Hf) as [H1 H2], (IH (step react s o)) as [H3 H4].
  split; [intros E; by apply H3, H1|]. intros Ho. etrans; [|exact (H4 Ho)]. unfold run. simpl. rewrite H2; [done|]. intros E. by apply Ho, H3.
Qed.

(** A run of a connection with a limit that does not end in an overflow is one without. *)
Lemma opened_sim f max_read max_write max_message server ops :
  Forall fine ops -> max_write = npos \/ ~ over (run react (opened f max_read max_write max_message server) ops) ->
  let s := run react (opened f max_read max_write max_message server) ops in
  let s' := run react (opened f max_read npos max_message server) ops in
  messages s = messages s' /\ _is_disposed s = _is_disposed s' /\ _reason s = _reason s' /\ wire s = wire s' /\ _out_buffer s = _out_buffer s'.
Proof.
  intros Hops [->|Ho]; [done|]. destruct (run_sim ops (opened f max_read max_write max_message server) Hops) as [_ H].
  assert (unlimit (opened f max_read max_write max_message server) = opened f max_read npos max_message server) as E by (by destruct f).
  rewrite E in H. rewrite (H Ho). done.
Qed.
End Limit.

(** C18: A connection delivers exactly the messages of a well-formed byte stream, in order,
    however the kernel cuts the stream into reads and interleaves them with partial writes and
    retries, while the user's class answers by publishing: they are those of the reference
    [frames], which sees the whole stream at once, for every protocol. The messages and what is
    buffered between them are within the limits of the connection, the kernel reports no error
    but to try again, and the output has no limit or the connection does not run over it. *)
Theorem session_delivers_frames (react : list notice -> notice -> list action) (f : framing) (max_read max_write max_message : Z)
    (server : bool) (ops : list op) (ms : list bytes) (tail : bytes) :
  publisher react -> usable f -> f <> NoProtocol -> Forall fine ops ->
  (forall pre, pre `prefix_of` concat (received <$> ops) -> fits f max_read max_message pre) ->
  frames f (concat (received <$> ops)) = (ms, tail, true) ->
  let s := run react (opened f max_read max_write max_message server) ops in
  max_write = npos \/ _reason s <> buffer_overflow ->
  messages s = ms /\ _is_disposed s = false /\ _reason s = 0.
Proof.
  intros Hpub Hu Hf Hops Hfits Hfr s Hlim. destruct (opened_sim react Hpub f max_read max_write max_message server ops Hops Hlim) as (Em & Ed & Er & _).
  unfold s. rewrite Em, Ed, Er. destruct (opened_quiet f max_read npos max_message server) as (Eq & _ & Eo).
  destruct (run_up react Hpub f max_read max_message ops [] _ ms tail Hu Hf (opened_up f max_read max_message server Hu Hf) Eo Hops
    (frames_nil f Hu) Hfits Hfr) as ([] & _ & Em'). by rewrite Em', Eq.
Qed.

(** ** Sending *)

Definition published (o : op) : bytes := match o with OpAct (APublish args) => concat args | _ => [] end.

Lemma fine_fits (o : op) : fine o -> op_fits o \/ (exists r w, o = OpFed r w).
Proof.
  destruct o as [rd wr r w|r w|a]; simpl; [|by eauto..]. intros [Hr _]. left. destruct r; [by destruct Hr|done].
Qed.

(** With a class that takes no action, the output is what was published. *)
Lemma silent_step (s : conn) (o : op) :
  fine o -> _is_disposed s = false -> _reason s = 0 -> _max_write_buffer_size s = npos -> fed (_async_event s) = false ->
  output_stream (step silent s o) = output_stream s ++ published o.
Proof.
  intros Hf Hd Hr Hm Hfed. destruct (fine_fits o Hf) as [Ho|(r & w & ->)].
  - destruct o as [rd wr r w|r w|[args| | | |]]; try done.
    + simpl published. rewrite app_nil_r.
      apply (cl_step silent (fun t => output_stream t = output_stream s) (closed_output (fun b => b = output_stream s))); try done.
      intros log n a t H. by apply elem_of_nil in H.
    + simpl. by rewrite Hfed, app_nil_r.
    + simpl. unfold output_stream. destruct (publish_appends args s Hd Hr (or_introl Hm)) as [-> _].
      destruct (publish_keeps args s) as (_ & _ & _ & _ & _ & -> & _). by rewrite app_assoc.
  - simpl. by rewrite Hfed, app_nil_r.
Qed.

Lemma silent_run (f : framing) (max_read max_message : Z) (ops : list op) (s : conn) :
  usable f -> f <> NoProtocol -> QB_DEFAULT_READ_BUFFER_SIZE <= max_read -> Forall fine ops -> concat (received <$> ops) = [] ->
  listening f max_read max_message [] s -> _on_message s = false ->
  output_stream (run silent s ops) = output_stream s ++ concat (published <$> ops).
Proof.
  intros Hu Hnp Hmax Hops. revert s. induction Hops as [|o ops Ho Hops IH]; intros s Hrec H Hom; simpl in *; [by rewrite app_nil_r|].
  apply app_nil in Hrec as [Hrec1 Hrec2].
  destruct (step_up silent silent_publisher f max_read max_message o [] s [] []) as (H' & Hom' & _); try done.
  { by apply frames_nil. } { rewrite Hrec1. by apply frames_nil. }
  destruct H. change (fold_left (step silent) ops (step silent s o)) with (run silent (step silent s o) ops).
  rewrite (IH _ Hrec2 H' Hom'), silent_step by done. by rewrite app_assoc.
Qed.

(** The sizes of the messages respect the limits of the receiver. *)
Definition within (f : framing) (max_read max_message : Z) (m : bytes) : Prop :=
  match encode f m with Some b => zlen b <= max_message /\ zlen b + QB_DEFAULT_READ_BUFFER_SIZE <= max_read | None => False end.

Lemma encode_size (f : framing) (m b : bytes) : encode f m = Some b -> zlen m + delimiter_size f <= zlen b.
Proof.
  destruct f as [e off|e off|w size|]; simpl; [intros [= <-]; zlens..| |done].
  unfold Header. zcase; [done|]. simpl. intros [= <-]. zlens. pose proof (zlen_nonneg (header_bytes w (zlen m))). lia.
Qed.

(** A beginning of an encoded stream is within the limits. *)
Lemma encoded_fits (f : framing) (max_read max_message : Z) (ms : list bytes) (w pre : bytes) :
  usable f -> Forall (carries f) ms -> Forall (within f max_read max_message) ms -> QB_DEFAULT_READ_BUFFER_SIZE <= max_read ->
  encode_all f ms = Some w -> pre `prefix_of` w -> fits f max_read max_message pre.
Proof.
  intros Hu Hc Hw Hmax He Hp. destruct (frames_prefix f ms w pre Hu Hc He Hp) as (ms1 & ms2 & tail & -> & Hf & Ht).
  unfold fits. rewrite Hf. split; [done|]. split.
  - apply Forall_app in Hw as [Hw _]. eapply Forall_impl; [exact Hw|]. intros m. unfold within. simpl.
    destruct (encode f m) as [b|] eqn:E; [|done]. pose proof (encode_size f m b E). lia.
  - destruct Ht as [->|(m & b & Hm & Hb & Hlt)]; [done|]. rewrite Forall_forall in Hw. specialize (Hw m Hm).
    unfold within in Hw. rewrite Hb in Hw. lia.
Qed.

(** C3: Two connections joined by the network: messages that the protocol can carry (a delimiter
    does not occur in them, a size fits its header) and that are within the limits of the
    receiver, published in their encoding by one, sent in pieces of any size with retries and
    read by the other in pieces of any size, are delivered there in order and unchanged: a
    beginning of the list, and all of it once everything is read that was sent and the sender's
    buffer is empty. The receiving class answers by publishing only, the sending class takes no
    action of its own and receives nothing, the kernel reports no error but to try again, and on
    each side the output has no limit or the connection does not run over it. *)
Theorem session_roundtrip (react : list notice -> notice -> list action) (f : framing) (max_read max_message write_s write_r : Z)
    (ms : list bytes) (w : bytes) (ops_s ops_r : list op) :
  publisher react -> f <> NoProtocol -> usable f -> Forall (carries f) ms -> Forall (within f max_read max_message) ms ->
  QB_DEFAULT_READ_BUFFER_SIZE <= max_read -> encode_all f ms = Some w ->
  Forall fine ops_s -> concat (received <$> ops_s) = [] -> concat (published <$> ops_s) = w -> Forall fine ops_r ->
  let sender := run silent (opened f max_read write_s max_message false) ops_s in
  let receiver := run react (opened f max_read write_r max_message true) ops_r in
  write_s = npos \/ _reason sender <> buffer_overflow -> write_r = npos \/ _reason receiver <> buffer_overflow ->
  concat (received <$> ops_r) = wire sender ->
  messages receiver `prefix_of` ms /\ (_out_buffer sender = [] -> messages receiver = ms).
Proof.
  intros Hpub Hnp Hu Hc Hw Hmax He Hs Hrec Hpublished Hr sender receiver Hls Hlr.
  destruct (opened_sim silent silent_publisher f max_read write_s max_message false ops_s Hs Hls) as (_ & _ & _ & Ewire & Ebuf).
  destruct (opened_sim react Hpub f max_read write_r max_message true ops_r Hr Hlr) as (Emsg & _).
  unfold sender, receiver. rewrite Ewire, Ebuf, Emsg. clear sender receiver Hls Hlr Ewire Ebuf Emsg. intros Hwire.
  set (sender := run silent _ ops_s) in *. set (receiver := run react _ ops_r).
  assert (output_stream sender = w) as Hout.
  { unfold sender. rewrite (silent_run f max_read max_message ops_s _ Hu Hnp Hmax Hs Hrec (opened_up f max_read max_message false Hu Hnp)
      (proj2 (proj2 (opened_quiet _ _ _ _ _)))). by rewrite (proj1 (proj2 (opened_quiet _ _ _ _ _))). }
  assert (wire sender `prefix_of` w) as Hpre by (rewrite <- Hout; by eexists).
  destruct (frames_prefix f ms w _ Hu Hc He Hpre) as (ms1 & ms2 & tail & -> & Hf & _).
  destruct (run_up react Hpub f max_read max_message ops_r [] _ ms1 tail Hu Hnp (opened_up f max_read max_message true Hu Hnp) (proj2 (proj2 (opened_quiet _ _ _ _ _))) Hr
    (frames_nil f Hu)) as (_ & _ & Em).
  { intros pre Hp. apply (encoded_fits f max_read max_message (ms1 ++ ms2) w); try done. rewrite Hwire in Hp. by etransitivity. }
  { simpl. by rewrite Hwire. }
  unfold receiver. rewrite Em, (proj1 (opened_quiet _ _ _ _ _)). simpl. split; [by eexists|]. intros Hempty.
  assert (wire sender = w) as Ew by (rewrite <- Hout; unfold output_stream; by rewrite Hempty, app_nil_r).
  rewrite Ew in Hf. rewrite (frames_encode f (ms1 ++ ms2) w) in Hf by done. by injection Hf as Hf _.
Qed.

(** ** Where connections end too early *)

Lemma acts_wire (l : list action) (s : conn) :
  wire (fold_left act l s) = wire s /\ notices (fold_left act l s) = notices s /\
  _is_disposed (fold_left act l s) = _is_disposed s.
Proof.
  revert s. induction l as [|a l IH]; intros s; [done|]. simpl. destruct (IH (act s a)) as (-> & -> & ->).
  destruct a as [args| |f| |]; try done; [|by destruct f]. by destruct (publish_keeps args s) as (_ & _ & _ & ? & ? & ? & _).
Qed.

(** [dispose] tells the user's class and sends nothing. *)
Lemma dispose_effect (react : list notice -> notice -> list action) (s : conn) :
  _is_disposed s = false ->
  _is_disposed (dispose react s) = true /\ wire (dispose react s) = wire s /\
  NDisconnected (_reason s) (_system_error s) ∈ notices (dispose react s).
Proof.
  intros Hd. unfold dispose. rewrite Hd. set (s1 := set_status _ _ _ _ _). set (n := NDisconnected _ _).
  destruct (acts_wire (react (notices s1) n) (add_notice n s1)) as (Ew & En & Ed).
  fold (emit react n s1) in *. set (s2 := emit react n s1) in *.
  assert (n ∈ notices s2) as Hn by (rewrite En; simpl; apply elem_of_app; right; by left).
  destruct (has_server s2).
  - simpl. rewrite Ed, Ew. split; [done|]. split; [done|]. apply elem_of_app. by left.
  - unfold emit. destruct (acts_wire (react (notices (stop s2)) NDispose) (add_notice NDispose (stop s2))) as (-> & -> & ->).
    simpl. rewrite Ed, Ew. split; [done|]. split; [done|]. apply elem_of_app. by left.
Qed.

(** C40: After close_after_deliver() the output that is still buffered is lost as soon as the peer
    sends anything: an event that is readable and not writable disposes of the connection without
    writing, and reports an orderly close. *)
Theorem close_after_deliver_truncates (react : list notice -> notice -> list action) (s : conn) (r : recv_result) (w : send_result) :
  _on_message s = false -> _reason s = 0 -> _is_disposed s = false -> ok (_protocol s) = false ->
  active (_async_event s) = true -> ev_read (_async_event s) = true ->
  let s' := step react s (OpEvent true false r w) in
  _is_disposed s' = true /\ wire s' = wire s /\ NDisconnected 0 0 ∈ notices s'.
Proof.
  intros Ho Hr Hd Hok Ha He. simpl. rewrite Ha, He. simpl. unfold on_io. rewrite Ho, Hr. simpl.
  unfold read_phase. rewrite Hok. simpl. unfold on_error. rewrite Hr, Hok. simpl.
  apply (dispose_effect react (set_reason 0 0 s)). done.
Qed.

(** A server that answers with three bytes and closes when they are delivered; the kernel took
    one of them. *)
Definition answer_and_close : list notice -> notice -> list action :=
  fun _ n => match n with NMessage _ => [APublish [[x62; x79; x65]]; ACloseAfterDeliver] | _ => [] end.

Definition answered : conn :=
  run answer_and_close (opened (ByteTerminated x0a 0) 200000 npos 1000 false)
    [OpEvent true false (Recv [x68; x69; x0a]) (SendUpTo 1)].

Lemma close_after_deliver_truncates_witness :
  pendingWrite answered = 2 /\
  let s' := step answer_and_close answered (OpEvent true false (Recv [x6f]) (SendUpTo 9)) in
  _is_disposed s' = true /\ wire s' = wire answered /\ NDisconnected 0 0 ∈ notices s'.
Proof. split; [reflexivity|]. apply close_after_deliver_truncates; reflexivity. Defined.

(** A malformed header (size zero) marks the protocol, but io reports the disconnection with
    reason 0, peer closed, and only at the next event, while input reports protocol_error. *)
Theorem malformed_header_reason (w : size_header) (r : recv_result) (k : send_result) :
  let s := opened (SizeAsHeader w 0) 200000 npos 1000 false in
  let zeros := Recv (replicate (Z.to_nat (SIZEOF w)) x00) in
  let s1 := step silent s (OpEvent true false zeros k) in
  _is_disposed s1 = false /\ _reason s1 = 0 /\
  NDisconnected 0 0 ∈ notices (step silent s1 (OpEvent true false r k)) /\
  NDisconnected protocol_error 0 ∈ notices (on_input silent true r (on_input silent true zeros s)).
Proof.
  destruct w; (split; [reflexivity|]); (split; [reflexivity|]); split; vm_compute; set_solver.
Qed.

(** A NUL-terminated protocol cuts a payload that contains a NUL byte at that byte, so the
    MessagePack protocol json_packed, whose encoding of zero and of small numbers has such
    bytes, receives a shorter message than was sent. *)
Theorem packed_message_cut (m : bytes) :
  x00 ∈ m -> exists p rest, m = p ++ x00 :: rest /\ (frames (ByteTerminated x00 0) (m ++ [x00])).1.1 !! 0%nat = Some p.
Proof.
  intros H. apply list_elem_of_split_l in H as (p & q & -> & Hp). exists p, q. split; [done|].
  rewrite frames_eq by done. simpl. rewrite <- app_assoc. simpl.
  assert (find_sub [x00] (p ++ x00 :: q ++ [x00]) = Some (length p)) as F.
  { apply find_sub_intro; [done|by rewrite drop_app_length|]. intros k Hk E.
    apply lookup_lt_is_Some_2 in Hk as [b Hb]. rewrite (drop_S _ b) in E by (by apply lookup_app_l_Some). simpl in E.
    rewrite take_0 in E. injection E as ->. apply Hp. by eapply list_elem_of_lookup_2. }
  unfold cut_terminated. rewrite F, take_app_length. by destruct (frames _ _) as [[? ?] ?].
Qed.

(** The array [[0]] is 0x91 0x00 in MessagePack. *)
Lemma packed_message_cut_witness :
  exists p rest, [x91; x00] = p ++ x00 :: rest /\ (frames (ByteTerminated x00 0) ([x91; x00] ++ [x00])).1.1 !! 0%nat = Some p.
Proof. apply packed_message_cut. right. left. Defined.

(** * Concrete runs *)

(** An echo server. *)
Definition echo : list notice -> notice -> list action :=
  fun _ n => match n with NMessage m => [APublish [m]] | _ => [] end.

Lemma echo_publisher : publisher echo.
Proof.
  intros log n a H. destruct n; simpl in H; try (by apply elem_of_nil in H). apply list_elem_of_singleton in H as ->. eauto.
Qed.

(** Two messages behind 16-bit headers, read in four pieces. *)
Definition two_messages : list bytes := [[x68; x69]; [x79; x6f; x21]].
Definition header16 : framing := SizeAsHeader UInt16 0.
Definition pieces : list op :=
  [OpEvent true false (Recv [x00]) (SendUpTo 0); OpEvent true false (Recv [x02; x68]) (SendUpTo 0);
   OpEvent true true (RecvError EAGAIN) (SendUpTo 0); OpEvent true true (Recv [x69; x00; x03; x79; x6f]) (SendUpTo 1);
   OpEvent true true (Recv [x21]) (SendError EAGAIN)].
Definition sending : list op :=
  [OpAct (APublish [[x00; x02]; [x68; x69]]); OpEvent false true (RecvError EAGAIN) (SendUpTo 3);
   OpAct (APublish [[x00; x03; x79; x6f; x21]]); OpEvent false true (RecvError EAGAIN) (SendError EINTR);
   OpEvent false true (RecvError EAGAIN) (SendUpTo 100)].

Lemma two_messages_carried : Forall (carries header16) two_messages.
Proof. apply Forall_forall. intros m H. by repeat (apply elem_of_cons in H as [->|H]; [done|]); apply elem_of_nil in H. Qed.

Lemma two_messages_within : Forall (within header16 200000 1000) two_messages.
Proof. repeat constructor; vm_compute; done. Qed.

Lemma pieces_fine : Forall fine pieces.
Proof. repeat (constructor; [done|]). constructor. Qed.

Lemma sending_fine : Forall fine sending.
Proof. repeat (constructor; [done|]). constructor. Qed.

Lemma pieces_fit (pre : bytes) : pre `prefix_of` concat (received <$> pieces) -> fits header16 200000 1000 pre.
Proof.
  intros Hp. apply (encoded_fits header16 200000 1000 two_messages (concat (received <$> pieces))); try done;
    [apply two_messages_carried|apply two_messages_within].
Qed.

Lemma session_delivers_frames_witness :
  let s := run echo (opened header16 200000 65536 1000 false) pieces in
  messages s = two_messages /\ _is_disposed s = false /\ _reason s = 0.
Proof.
  apply (session_delivers_frames echo header16 200000 65536 1000 false pieces two_messages []);
    [apply echo_publisher|exact I|discriminate|apply pieces_fine|apply pieces_fit|vm_compute; reflexivity|right; vm_compute; discriminate].
Defined.

Lemma session_roundtrip_witness :
  let sender := run silent (opened header16 200000 65536 1000 false) sending in
  let receiver := run echo (opened header16 200000 npos 1000 true) pieces in
  messages receiver `prefix_of` two_messages /\ (_out_buffer sender = [] -> messages receiver = two_messages).
Proof.
  apply (session_roundtrip echo header16 200000 1000 65536 npos two_messages (concat (received <$> pieces)) sending pieces);
    [apply echo_publisher|discriminate|exact I|apply two_messages_carried|apply two_messages_within|vm_compute; discriminate
    |vm_compute; reflexivity|apply sending_fine|reflexivity|reflexivity|apply pieces_fine|right; vm_compute; discriminate|left; reflexivity|vm_compute; reflexivity].
Defined.

Lemma pieces_fits : Forall op_fits pieces.
Proof. repeat (constructor; [done|]). constructor. Qed.


(** An answer, an event that ends the connection, and a disconnect() that comes too late. *)
Definition closing : list op :=
  [OpEvent true false (Recv [x68; x69; x0a]) (SendUpTo 1); OpEvent true false (Recv [x6f]) (SendUpTo 9);
   OpAct (ADisconnect 0); OpFed (RecvError EAGAIN) (SendUpTo 0)].

Lemma closing_fits : Forall op_fits closing.
Proof. repeat (constructor; [done|]). constructor. Qed.

Lemma session_disconnected_once_witness :
  let s := opened (ByteTerminated x0a 0) 200000 npos 1000 false in
  disconnections (run answer_and_close s closing) = if _is_disposed (run answer_and_close s closing) then 1%nat else 0%nat.
Proof.
  apply (session_disconnected_once answer_and_close (opened (ByteTerminated x0a 0) 200000 npos 1000 false) closing);
    [apply closing_fits|reflexivity|reflexivity].
Defined.

Lemma session_bounded_witness : bounded 200000 5 1000 (run echo (opened header16 200000 5 1000 false) pieces).
Proof. apply session_bounded; [discriminate|discriminate|apply pieces_fits]. Defined.

Lemma framing_loops_agree_witness :
  let s := set_input (fresh header16) [x00; x02; x68; x69; x00] (opened header16 200000 npos 1000 false) in
  input_process_loop echo 6 s = process_messages_loop echo 6 s /\
  buffered_loop echo 6 s = (if (process_messages_loop echo 6 s).1 then None else Some false, (process_messages_loop echo 6 s).2).
Proof. apply (framing_loops_agree echo 6); [apply echo_publisher|repeat split|reflexivity]. Defined.
