(* ===== verification/JsonGuard.v ===== *)
(** * The nesting guard of the JSON protocols: io/protocol/json.h

    [json_depth_within] scans a payload before it is parsed and rejects deep nesting. [text]
    is the grammar of bracketed texts with strings, of which JSON documents are instances, with
    the nesting depth of a text. *)

From S2P Require Import Prelude Protocol.
From Stdlib Require Import Strings.Byte.

#[local] Open Scope Z_scope.

Definition kJsonMaxNestingDepth : Z := 512.

Definition quote : byte := x22.
Definition backslash : byte := x5c.

(** The brackets that open and close, by [switch (c)]. *)
Definition opening (c : byte) : bool := bool_decide (c = x7b) || bool_decide (c = x5b).
Definition closing_bracket (c : byte) : bool := bool_decide (c = x7d) || bool_decide (c = x5d).

(** The loop of [json_depth_within]. *)
Fixpoint json_depth_scan (data : bytes) (depth : Z) (in_string escaped : bool) (max_depth : Z) : bool :=
  match data with
  | [] => true
  | c :: data =>
      if in_string then
        if escaped then json_depth_scan data depth true false max_depth
        else if bool_decide (c = backslash) then json_depth_scan data depth true true max_depth
        else if bool_decide (c = quote) then json_depth_scan data depth false false max_depth
        else json_depth_scan data depth true false max_depth
      else if bool_decide (c = quote) then json_depth_scan data depth true escaped max_depth
      else if opening c then
        if max_depth <? depth +s 1 then false else json_depth_scan data (depth +s 1) false escaped max_depth
      else if closing_bracket c then
        json_depth_scan data (if depth =? 0 then depth else depth -s 1) false escaped max_depth
      else json_depth_scan data depth false escaped max_depth
  end.

Definition json_depth_within (data : bytes) (max_depth : Z) : bool := json_depth_scan data 0 false false max_depth.

(** [msgpack_depth_sax]: the callbacks of the MessagePack reader that count. *)
Definition sax_start (depth max_depth : Z) : Z * bool := let depth := depth +s 1 in (depth, depth <=? max_depth).
Definition sax_end (depth : Z) : Z * bool := (if depth =? 0 then depth else depth -s 1, true).

(** * Texts and their depth *)

(** A byte outside strings that is neither a quote nor a bracket. *)
Definition plain (c : byte) : bool := negb (bool_decide (c = quote)) && negb (opening c) && negb (closing_bracket c).

(** The inside of a string: characters, and pairs of a backslash and any byte. *)
Inductive string_body : bytes -> Prop :=
| body_nil : string_body []
| body_char c l : c <> quote -> c <> backslash -> string_body l -> string_body (c :: l)
| body_escape c l : string_body l -> string_body (backslash :: c :: l).

Inductive text : Z -> bytes -> Prop :=
| text_plain l : Forall (fun c => plain c = true) l -> text 0 l
| text_string l : string_body l -> text 0 (quote :: l ++ [quote])
| text_group d l o c : opening o = true -> closing_bracket c = true -> text d l -> text (1 + d) (o :: l ++ [c])
| text_app d1 d2 l1 l2 : text d1 l1 -> text d2 l2 -> text (Z.max d1 d2) (l1 ++ l2).

Lemma text_depth_nonneg d l : text d l -> 0 <= d.
Proof. induction 1; lia. Qed.

Lemma scan_body l rest k max :
  string_body l -> json_depth_scan (l ++ quote :: rest) k true false max = json_depth_scan rest k false false max.
Proof.
  induction 1 as [|c l Hq Hb Hl IH|c l Hl IH]; simpl.
  - done.
  - by rewrite !bool_decide_eq_false_2 by done.
  - done.
Qed.

Lemma opening_not_quote o : opening o = true -> bool_decide (o = quote) = false.
Proof. intros H. apply bool_decide_eq_false_2. by intros ->. Qed.

Lemma closing_plain c : closing_bracket c = true -> bool_decide (c = quote) = false /\ opening c = false.
Proof.
  unfold closing_bracket. intros [H|H]%orb_true_iff; apply bool_decide_eq_true_1 in H as ->; done.
Qed.

(** Scanning a text of depth [d] from depth [k]: rejected if the depths exceed the limit, else
    the scan goes on at depth [k]. *)
Lemma scan_text d l k max rest :
  text d l -> 0 <= k <= max -> max < 2 ^ 63 -> d < 2 ^ 62 ->
  json_depth_scan (l ++ rest) k false false max = if k + d <=? max then json_depth_scan rest k false false max else false.
Proof.
  intros Ht. revert k rest. induction Ht as [l Hl|l Hl|d l o c Ho Hc Ht IH|d1 d2 l1 l2 H1 IH1 H2 IH2]; intros k rest Hk Hmax Hd.
  - replace (k + 0) with k by lia. rewrite (proj2 (Z.leb_le _ _)) by lia. induction Hl as [|c l Hc Hl IH]; [done|]. simpl.
    unfold plain in Hc. rewrite !andb_true_iff, !negb_true_iff in Hc. destruct Hc as [[-> ->] ->]. done.
  - rewrite (proj2 (Z.leb_le _ _)) by lia. simpl. rewrite <- app_assoc. by apply scan_body.
  - apply text_depth_nonneg in Ht. rewrite <- app_comm_cons, <- app_assoc. cbn [json_depth_scan app].
    rewrite opening_not_quote, Ho by done. uwrap. zcase; try lia; try done; rewrite IH by lia; zcase; try lia; try done.
    simpl. destruct (closing_plain c Hc) as [-> ->]. rewrite Hc. uwrap. zcase; [lia|]. f_equal. lia.
  - pose proof (text_depth_nonneg _ _ H1). pose proof (text_depth_nonneg _ _ H2).
    rewrite <- app_assoc, IH1 by lia. zcase; try lia; try done; rewrite IH2 by lia; zcase; lia || done.
Qed.

(** The guard accepts a document exactly if its nesting depth is at most the limit; brackets
    inside strings, also after escaped quotes, do not count. *)
Theorem json_depth_exact (d : Z) (l : bytes) (max_depth : Z) :
  text d l -> 0 <= max_depth < 2 ^ 63 -> d < 2 ^ 62 -> json_depth_within l max_depth = (d <=? max_depth).
Proof.
  intros Ht Hmax Hd. unfold json_depth_within. rewrite <- (app_nil_r l), (scan_text d l), Z.add_0_l by (done || lia).
  by destruct (d <=? max_depth).
Qed.

(** [[["]"],{}]]: brackets in a string are not counted. *)
Lemma json_depth_exact_witness :
  json_depth_within (x5b :: ((x5b :: (quote :: [x5d] ++ [quote]) ++ [x5d]) ++ [x2c] ++ (x7b :: [] ++ [x7d])) ++ [x5d]) 1 = false.
Proof.
  change false with (1 + Z.max (1 + 0) (Z.max 0 (1 + 0)) <=? 1).
  apply json_depth_exact; [|split; [discriminate|reflexivity]|reflexivity].
  apply text_group; [done|done|]. apply text_app.
  - apply text_group; [done|done|]. apply text_string. by repeat constructor.
  - apply text_app; [apply text_plain; by repeat constructor|]. apply text_group; [done|done|]. by apply text_plain.
Defined.
