(* ===== verification/EvHeap.v ===== *)
(** * The heap of timers: ev/ev.c

    libev keeps its timers in a heap with four children per node, in an array whose first entry
    is at index [HEAP0]. An entry is a timestamp and a watcher; each watcher stores the index of
    its entry ([ev_active]), so that it can be removed. The operations move entries and update
    these indices on the way.

    Timestamps are doubles in the code, which are only compared, added and subtracted: the class
    [Timestamp] says what the heap needs of them. *)

From S2P Require Import Prelude.

#[local] Open Scope Z_scope.

(** [ev_tstamp]: a total order (timestamps are not NaN), with operations that may round. *)
Class Timestamp (T : Type) := {
  ts_le : T -> T -> bool;
  ts_add : T -> T -> T;
  ts_sub : T -> T -> T;
  ts_zero : T;
  ts_le_total : forall x y, ts_le x y = true \/ ts_le y x = true;
  ts_le_trans : forall x y z, ts_le x y = true -> ts_le y z = true -> ts_le x z = true
}.

Definition ts_lt {T} `{Timestamp T} (x y : T) : bool := negb (ts_le y x).

#[global] Program Instance Z_timestamp : Timestamp Z :=
  {| ts_le := Z.leb; ts_add := Z.add; ts_sub := Z.sub; ts_zero := 0 |}.
Next Obligation. intros x y. rewrite !Z.leb_le. lia. Qed.
Next Obligation. intros x y z. rewrite !Z.leb_le. lia. Qed.

Section Heap.
Context {T : Type} `{!Timestamp T}.

#[local] Notation "x ⪯ y" := (ts_le x y = true) (at level 70).

(** An [ANHE]: cached timestamp and watcher. *)
#[local] Abbreviation entry := (T * Z)%type.

Definition DHEAP : Z := 4.
Definition HEAP0 : Z := DHEAP - 1.
Definition HPARENT (k : Z) : Z := Z.quot (k - HEAP0 - 1) DHEAP + HEAP0.
Definition UPHEAP_DONE (p k : Z) : bool := p =? k.

(** The array and [ev_active] of the watchers, 0 for one that is not active. *)
Record heap := Heap { cells : list entry; active : gmap Z Z }.

Definition cell (h : heap) (i : Z) : entry := default (ts_zero, 0) (zget (cells h) i).
Definition at_ (h : heap) (i : Z) : T := (cell h i).1.
Definition ev_active (h : heap) (w : Z) : Z := default 0 (active h !! w).

(** [heap[k] = he; ev_active(ANHE_w(he)) = k]. *)
Definition place (k : Z) (he : entry) (h : heap) : heap := Heap (zput (cells h) k he) (<[he.2 := k]> (active h)).

(** The smallest of the children at [pos], of which those before [E] exist. The fast path of
    the code is the case in which all four do. *)
Definition better (h : heap) (E pos : Z) (best : Z) (j : Z) : Z :=
  if (pos + j <? E) && ts_lt (at_ h (pos + j)) (at_ h best) then pos + j else best.

Definition min_child (h : heap) (E pos : Z) : Z :=
  if pos + DHEAP - 1 <? E then
    let minpos := pos in
    let minpos := if ts_lt (at_ h (pos + 1)) (at_ h minpos) then pos + 1 else minpos in
    let minpos := if ts_lt (at_ h (pos + 2)) (at_ h minpos) then pos + 2 else minpos in
    if ts_lt (at_ h (pos + 3)) (at_ h minpos) then pos + 3 else minpos
  else better h E pos (better h E pos (better h E pos pos 1) 2) 3.

(** The loop of [downheap]; [he] is the entry that is moved. *)
Fixpoint downheap_loop (fuel : nat) (N : Z) (he : entry) (k : Z) (h : heap) : heap :=
  match fuel with
  | O => place k he h
  | S fuel =>
      let E := N + HEAP0 in
      let pos := DHEAP * (k - HEAP0) + HEAP0 + 1 in
      if negb (pos <? E) then place k he h
      else
        let minpos := min_child h E pos in
        if ts_le he.1 (at_ h minpos) then place k he h
        else downheap_loop fuel N he minpos (place k (cell h minpos) h)
  end.

Definition downheap (N k : Z) (h : heap) : heap := downheap_loop (Z.to_nat N) N (cell h k) k h.

(** The loop of [upheap]. *)
Fixpoint upheap_loop (fuel : nat) (he : entry) (k : Z) (h : heap) : heap :=
  match fuel with
  | O => place k he h
  | S fuel =>
      let p := HPARENT k in
      if UPHEAP_DONE p k || ts_le (at_ h p) he.1 then place k he h
      else upheap_loop fuel he p (place k (cell h p) h)
  end.

Definition upheap (k : Z) (h : heap) : heap := upheap_loop (Z.to_nat k) (cell h k) k h.

Definition adjustheap (N k : Z) (h : heap) : heap :=
  if (HEAP0 <? k) && ts_le (at_ h k) (at_ h (HPARENT k)) then upheap k h else downheap N k h.

(** * Structure *)

Definition in_heap (N i : Z) : Prop := HEAP0 <= i < HEAP0 + N.

Lemma HPARENT_root : HPARENT HEAP0 = HEAP0.
Proof. reflexivity. Qed.

Lemma HPARENT_eq k : HEAP0 < k -> HPARENT k = (k - 4) / 4 + 3.
Proof. unfold HPARENT, HEAP0, DHEAP. intros. rewrite Z.quot_div_nonneg by lia. f_equal. f_equal. lia. Qed.

Lemma HPARENT_above k : HEAP0 < k -> HEAP0 <= HPARENT k < k.
Proof.
  intros Hk. rewrite HPARENT_eq by done. unfold HEAP0, DHEAP in *.
  assert (0 <= (k - 4) / 4) by (apply Z.div_pos; lia). assert ((k - 4) / 4 <= k - 4) by (apply Z.div_le_upper_bound; lia). lia.
Qed.

(** The children of [k] are the four entries from [4 * (k - 3) + 4] on. *)
Lemma HPARENT_child k i : HEAP0 <= k -> HEAP0 < i ->
  HPARENT i = k <-> DHEAP * (k - HEAP0) + HEAP0 + 1 <= i < DHEAP * (k - HEAP0) + HEAP0 + 1 + DHEAP.
Proof.
  intros Hk Hi. rewrite HPARENT_eq by done. unfold HEAP0, DHEAP in *. split; intros H.
  - pose proof (Z.div_mod (i - 4) 4 ltac:(lia)). pose proof (Z.mod_pos_bound (i - 4) 4 ltac:(lia)). lia.
  - replace (i - 4) with ((k - 3) * 4 + (i - 4 * (k - 3) - 4)) by lia. rewrite Z.div_add_l by lia.
    rewrite (Z.div_small (i - 4 * (k - 3) - 4)) by lia. lia.
Qed.

Lemma ts_le_refl x : x ⪯ x.
Proof. by destruct (ts_le_total x x). Qed.

Lemma ts_not_le x y : ts_le x y = false -> y ⪯ x.
Proof. intros H. destruct (ts_le_total x y); [congruence|done]. Qed.

Lemma ts_lt_le x y : ts_lt x y = true -> x ⪯ y.
Proof. unfold ts_lt. intros H%negb_true_iff. by apply ts_not_le. Qed.

(** Of two timestamps the smaller is kept. *)
Lemma better_spec h E pos best j :
  let b := better h E pos best j in
  (b = best \/ b = pos + j /\ pos + j < E) /\ at_ h b ⪯ at_ h best /\ (pos + j < E -> at_ h b ⪯ at_ h (pos + j)).
Proof.
  unfold better. destruct (Z.ltb_spec (pos + j) E) as [Hj|Hj]; simpl; [|split; [by left|]; split; [apply ts_le_refl|lia]].
  destruct (ts_lt (at_ h (pos + j)) (at_ h best)) eqn:Ec; (split; [by eauto|]).
  - split; [by apply ts_lt_le|]. intros _. apply ts_le_refl.
  - split; [apply ts_le_refl|]. intros _. unfold ts_lt in Ec. by apply negb_false_iff in Ec.
Qed.

Lemma min_child_fast h E pos : pos + DHEAP - 1 < E -> min_child h E pos = better h E pos (better h E pos (better h E pos pos 1) 2) 3.
Proof.
  intros HE. unfold min_child. unfold DHEAP in *. rewrite (proj2 (Z.ltb_lt _ _)) by lia. unfold better.
  rewrite !(proj2 (Z.ltb_lt (_ + _) E)) by lia. done.
Qed.

Lemma min_child_spec h E pos : pos < E ->
  let m := min_child h E pos in
  pos <= m < pos + DHEAP /\ m < E /\ forall i, pos <= i < pos + DHEAP -> i < E -> at_ h m ⪯ at_ h i.
Proof.
  intros HE. assert (min_child h E pos = better h E pos (better h E pos (better h E pos pos 1) 2) 3) as ->.
  { destruct (Z.ltb_spec (pos + DHEAP - 1) E) as [H|H]; [by apply min_child_fast|]. unfold min_child. by rewrite (proj2 (Z.ltb_ge _ _)) by lia. }
  destruct (better_spec h E pos pos 1) as (B1 & L1 & M1). set (b1 := better h E pos pos 1) in *.
  destruct (better_spec h E pos b1 2) as (B2 & L2 & M2). set (b2 := better h E pos b1 2) in *.
  destruct (better_spec h E pos b2 3) as (B3 & L3 & M3). set (b3 := better h E pos b2 3) in *. simpl. unfold DHEAP in *.
  split; [lia|]. split; [lia|]. intros i Hi Hlt.
  assert (i = pos \/ i = pos + 1 \/ i = pos + 2 \/ i = pos + 3) as [->|[->|[->| ->]]] by lia; eauto using ts_le_trans.
Qed.

(** * Entries and indices

    [P] holds of the entries, [A] is the set of watchers in the heap, and [f] gives the index of
    the others, which the heap leaves alone. *)

Section Moves.
Context (P : entry -> Prop) (A : Z -> Prop) (f : Z -> Z) (N : Z).

(** While an entry [he] is moved, cell [k] is free. *)
Record hole (he : entry) (k : Z) (h : heap) : Prop := Hole {
  ho_len : HEAP0 + N <= zlen (cells h);
  ho_k : in_heap N k;
  ho_active : forall i, in_heap N i -> i <> k -> ev_active h (cell h i).2 = i;
  ho_cell : forall w, A w -> w <> he.2 -> in_heap N (ev_active h w) /\ ev_active h w <> k /\ (cell h (ev_active h w)).2 = w;
  ho_apart : forall i, in_heap N i -> i <> k -> (cell h i).2 <> he.2;
  ho_entries : forall i, in_heap N i -> i <> k -> P (cell h i);
  ho_members : forall i, in_heap N i -> i <> k -> A (cell h i).2;
  ho_frame : forall w, ~ A w -> ev_active h w = f w
}.

Record heap_ok (h : heap) : Prop := HeapOk {
  hp_len : 0 < N -> HEAP0 + N <= zlen (cells h);
  hp_active : forall i, in_heap N i -> ev_active h (cell h i).2 = i;
  hp_cell : forall w, A w -> in_heap N (ev_active h w) /\ (cell h (ev_active h w)).2 = w;
  hp_entries : forall i, in_heap N i -> P (cell h i);
  hp_members : forall i, in_heap N i -> A (cell h i).2;
  hp_frame : forall w, ~ A w -> ev_active h w = f w;
  hp_order : forall i, HEAP0 < i < HEAP0 + N -> at_ h (HPARENT i) ⪯ at_ h i
}.

Lemma cell_place k he h i : 0 <= k < zlen (cells h) -> cell (place k he h) i = if i =? k then he else cell h i.
Proof. intros Hk. unfold cell, place. simpl. rewrite zget_put by done. by zcase. Qed.

Lemma active_place k he h w : ev_active (place k he h) w = if decide (w = he.2) then k else ev_active h w.
Proof.
  unfold ev_active, place. simpl. case_decide as E; [subst; by rewrite lookup_insert_eq|by rewrite lookup_insert_ne].
Qed.

(** The timestamps with [he] put into the free cell. *)
Definition key (he : entry) (k : Z) (h : heap) (i : Z) : T := if i =? k then he.1 else at_ h i.

Lemma at_place k he h i : 0 <= k < zlen (cells h) -> at_ (place k he h) i = key he k h i.
Proof. intros Hk. unfold at_, key. rewrite cell_place by done. by zcase. Qed.

Lemma hole_range he k h : hole he k h -> 0 <= k < zlen (cells h).
Proof. intros [Hl Hk _ _ _ _ _ _]. unfold in_heap, HEAP0, DHEAP in *. lia. Qed.

(** Putting the entry down. *)
Lemma hole_fill he k h : hole he k h -> P he -> A he.2 ->
  (forall i, HEAP0 < i < HEAP0 + N -> key he k h (HPARENT i) ⪯ key he k h i) -> heap_ok (place k he h).
Proof.
  intros Hh HP HA Ho. pose proof (hole_range _ _ _ Hh) as Hr. destruct Hh as [Hl Hk Hact Hcell Hap He Hm Hw]. split.
  - unfold place. simpl. by rewrite zlen_put.
  - intros i Hi. rewrite cell_place, active_place by done. zcase; [by rewrite decide_True|]. rewrite decide_False by auto. auto.
  - intros w HwA. rewrite active_place. case_decide as E.
    + split; [done|]. rewrite cell_place by done. by rewrite Z.eqb_refl.
    + destruct (Hcell w HwA E) as (? & ? & ?). split; [done|]. rewrite cell_place by done. by zcase.
  - intros i Hi. rewrite cell_place by done. zcase; auto.
  - intros i Hi. rewrite cell_place by done. zcase; auto.
  - intros w Hn. rewrite active_place. case_decide as E; [by subst w|auto].
  - intros i Hi. rewrite !at_place by done. by apply Ho.
Qed.

(** Moving the entry of cell [c] into the free cell. *)
Lemma hole_move he k c h : hole he k h -> in_heap N c -> c <> k -> hole he c (place k (cell h c) h).
Proof.
  intros Hh Hc Hne. pose proof (hole_range _ _ _ Hh) as Hr. destruct Hh as [Hl Hk Hact Hcell Hap He Hm Hw].
  pose proof (Hact c Hc Hne) as Hcact. pose proof (Hap c Hc Hne) as Hcap.
  assert (forall i, in_heap N i -> i <> k -> i <> c -> (cell h i).2 <> (cell h c).2) as Hdiff.
  { intros i Hi H1 H2 E. pose proof (Hact i Hi H1) as E2. rewrite E, Hcact in E2. done. }
  split.
  - unfold place. simpl. by rewrite zlen_put.
  - done.
  - intros i Hi Hic. rewrite cell_place, active_place by done. zcase; [by rewrite decide_True|]. rewrite decide_False by auto. auto.
  - intros w HwA Hw1. rewrite active_place. case_decide as E.
    + split; [done|]. split; [done|]. rewrite cell_place by done. by rewrite Z.eqb_refl.
    + destruct (Hcell w HwA Hw1) as (H1 & H2 & H3). split; [done|].
      assert (ev_active h w <> c) by (intros E2; rewrite E2 in H3; congruence). split; [done|]. rewrite cell_place by done. by zcase.
  - intros i Hi Hic. rewrite cell_place by done. zcase; auto.
  - intros i Hi Hic. rewrite cell_place by done. zcase; auto.
  - intros i Hi Hic. rewrite cell_place by done. zcase; auto.
  - intros w Hn. rewrite active_place. case_decide as E; [|auto]. subst w. by destruct Hn; auto.
Qed.

Lemma key_move he k c h i : hole he k h -> key he c (place k (cell h c) h) i = if i =? c then he.1 else if i =? k then at_ h c else at_ h i.
Proof. intros Hh. pose proof (hole_range _ _ _ Hh). unfold key at 1. zcase; try done; rewrite at_place by done; unfold key, at_; by zcase. Qed.

(** ** Towards the leaves *)

(** Sinking: the heap is in order except below [k]. *)
Record sinking (he : entry) (k : Z) (h : heap) : Prop := Sinking {
  si_hole : hole he k h;
  si_above : forall i, HEAP0 < i < HEAP0 + N -> HPARENT i <> k -> key he k h (HPARENT i) ⪯ key he k h i;
  si_below : forall i, HEAP0 < i < HEAP0 + N -> HPARENT i = k -> HEAP0 < k -> key he k h (HPARENT k) ⪯ key he k h i
}.

Lemma sinking_move he k c h :
  sinking he k h -> HEAP0 < c < HEAP0 + N -> HPARENT c = k -> at_ h c ⪯ he.1 ->
  (forall i, HEAP0 < i < HEAP0 + N -> HPARENT i = k -> at_ h c ⪯ at_ h i) ->
  sinking he c (place k (cell h c) h).
Proof.
  intros [Hh Ha Hb] Hc Hp Hle Hmin. pose proof (HPARENT_above c ltac:(lia)) as Hpc. pose proof (ho_k _ _ _ Hh) as Hk.
  assert (forall i, key he k h i = if i =? k then he.1 else at_ h i) as Hkey by done.
  split; [apply hole_move; [done|unfold in_heap in *; lia|lia]|..].
  - intros i Hi Hne. rewrite !key_move by done. pose proof (HPARENT_above i ltac:(lia)).
    destruct (Z.eqb_spec (HPARENT i) c) as [|_]; [done|]. destruct (Z.eqb_spec i c) as [->|Hic].
    + rewrite Hp, Z.eqb_refl. done.
    + destruct (Z.eqb_spec (HPARENT i) k) as [Ek|Hnk].
      * destruct (Z.eqb_spec i k); [lia|]. auto.
      * destruct (Z.eqb_spec i k) as [->|Hik].
        -- specialize (Hb c Hc Hp ltac:(lia)). rewrite !Hkey in Hb. revert Hb. zcase; try lia; done.
        -- specialize (Ha i Hi Hnk). rewrite !Hkey in Ha. revert Ha. zcase; try lia; done.
  - intros i Hi Hic Hc0. rewrite !key_move by done. pose proof (HPARENT_above i ltac:(lia)). rewrite Hp.
    destruct (Z.eqb_spec k c) as [|_]; [lia|]. rewrite Z.eqb_refl. destruct (Z.eqb_spec i c) as [|_]; [lia|].
    destruct (Z.eqb_spec i k) as [|_]; [lia|]. specialize (Ha i Hi ltac:(lia)). rewrite !Hkey, Hic in Ha. revert Ha. zcase; try lia; done.
Qed.

Lemma downheap_loop_ok fuel he k h :
  sinking he k h -> P he -> A he.2 -> HEAP0 + N - k <= Z.of_nat fuel -> heap_ok (downheap_loop fuel N he k h).
Proof.
  revert k h. induction fuel as [|fuel IH]; intros k h Hs HP HA Hf.
  { pose proof (ho_k _ _ _ (si_hole _ _ _ Hs)). unfold in_heap in *. lia. }
  cbn [downheap_loop]. set (pos := DHEAP * (k - HEAP0) + HEAP0 + 1). pose proof (ho_k _ _ _ (si_hole _ _ _ Hs)) as Hk.
  assert (forall i, HEAP0 < i -> HPARENT i = k <-> pos <= i < pos + DHEAP) as Hch by (intros i Hi; apply HPARENT_child; [apply Hk|done]).
  assert (forall c, HEAP0 < c -> HPARENT c = k -> key he k h c = at_ h c) as Hkc.
  { intros c Hc Hp. pose proof (HPARENT_above c Hc). unfold key. zcase; [lia|done]. }
  assert ((forall i, HEAP0 < i < HEAP0 + N -> HPARENT i = k -> he.1 ⪯ at_ h i) -> heap_ok (place k he h)) as Hstop.
  { intros Hle. apply hole_fill; [apply Hs|done|done|]. intros i Hi. destruct (decide (HPARENT i = k)) as [Hp|Hp]; [|by apply (si_above _ _ _ Hs)].
    rewrite (Hkc i) by (lia || done). rewrite Hp. unfold key. rewrite Z.eqb_refl. by apply Hle. }
  destruct (Z.ltb_spec pos (N + HEAP0)) as [Hlt|Hge]; simpl; [|apply Hstop; intros i Hi Hp; apply Hch in Hp; lia].
  destruct (min_child_spec h (N + HEAP0) pos Hlt) as (Hm & HmE & Hmin). set (m := min_child h (N + HEAP0) pos) in *.
  assert (HEAP0 < m) as Hm0 by (unfold pos, in_heap, HEAP0, DHEAP in *; lia). assert (HPARENT m = k) as Hpm by (by apply Hch).
  destruct (ts_le he.1 (at_ h m)) eqn:Ec.
  - apply Hstop. intros i Hi Hp. apply Hch in Hp; [|lia]. eapply ts_le_trans; [exact Ec|]. apply Hmin; lia.
  - pose proof (HPARENT_above m Hm0). apply IH; [|done|done|lia]. apply sinking_move; [done|lia|done|by apply ts_not_le|].
    intros i Hi Hp. apply Hch in Hp; [|lia]. apply Hmin; lia.
Qed.

(** ** Towards the root *)

(** Rising: the heap is in order except between [k] and its parent. *)
Record rising (he : entry) (k : Z) (h : heap) : Prop := Rising {
  ri_hole : hole he k h;
  ri_other : forall i, HEAP0 < i < HEAP0 + N -> i <> k -> key he k h (HPARENT i) ⪯ key he k h i;
  ri_below : forall i, HEAP0 < i < HEAP0 + N -> HPARENT i = k -> HEAP0 < k -> key he k h (HPARENT k) ⪯ key he k h i
}.

Lemma rising_move he k h :
  rising he k h -> HEAP0 < k -> he.1 ⪯ at_ h (HPARENT k) -> rising he (HPARENT k) (place k (cell h (HPARENT k)) h).
Proof.
  intros [Hh Ho Hb] Hk Hle. pose proof (HPARENT_above k Hk) as Hp. pose proof (ho_k _ _ _ Hh) as Hin. set (p := HPARENT k) in *.
  assert (forall i, key he k h i = if i =? k then he.1 else at_ h i) as Hkey by done.
  assert (forall i, HEAP0 < i < HEAP0 + N -> HPARENT i = p -> i <> k -> at_ h p ⪯ at_ h i) as Hsib.
  { intros i Hi Hip Hik. specialize (Ho i Hi Hik). rewrite !Hkey, Hip in Ho. revert Ho. zcase; try lia; done. }
  split; [apply hole_move; [done|unfold in_heap in *; lia|lia]|..].
  - intros i Hi Hne. rewrite !key_move by done. pose proof (HPARENT_above i ltac:(lia)) as Hpi.
    destruct (Z.eqb_spec i p) as [|_]; [done|]. destruct (Z.eqb_spec i k) as [->|Hik].
    + fold p. by rewrite Z.eqb_refl.
    + destruct (Z.eqb_spec (HPARENT i) p) as [Ep|Hnp]; [eapply ts_le_trans; [exact Hle|by apply Hsib]|].
      destruct (Z.eqb_spec (HPARENT i) k) as [Ek|Hnk].
      * specialize (Hb i Hi Ek Hk). rewrite !Hkey in Hb. fold p in Hb. revert Hb. zcase; try lia; done.
      * specialize (Ho i Hi Hik). rewrite !Hkey in Ho. revert Ho. zcase; try lia; done.
  - intros i Hi Hip Hp0. rewrite !key_move by done. pose proof (HPARENT_above p Hp0) as Hpp. pose proof (HPARENT_above i ltac:(lia)) as Hpi.
    destruct (Z.eqb_spec (HPARENT p) p) as [|_]; [lia|]. destruct (Z.eqb_spec (HPARENT p) k) as [|_]; [lia|].
    destruct (Z.eqb_spec i p) as [|_]; [lia|].
    assert (at_ h (HPARENT p) ⪯ at_ h p) as Hup.
    { specialize (Ho p ltac:(unfold in_heap in *; lia) ltac:(lia)). rewrite !Hkey in Ho. revert Ho. zcase; try lia; done. }
    destruct (Z.eqb_spec i k) as [->|Hik]; [done|]. eapply ts_le_trans; [exact Hup|by apply Hsib].
Qed.

Lemma upheap_loop_ok fuel he k h :
  rising he k h -> P he -> A he.2 -> k - HEAP0 < Z.of_nat fuel -> heap_ok (upheap_loop fuel he k h).
Proof.
  revert k h. induction fuel as [|fuel IH]; intros k h Hs HP HA Hf.
  { pose proof (ho_k _ _ _ (ri_hole _ _ _ Hs)). unfold in_heap in *. lia. }
  cbn [upheap_loop]. pose proof (ho_k _ _ _ (ri_hole _ _ _ Hs)) as Hk. unfold UPHEAP_DONE.
  assert ((HEAP0 < k -> at_ h (HPARENT k) ⪯ he.1) -> heap_ok (place k he h)) as Hstop.
  { intros Hle. apply hole_fill; [apply Hs|done|done|]. intros i Hi. destruct (decide (i = k)) as [->|Hne]; [|by apply (ri_other _ _ _ Hs)].
    pose proof (HPARENT_above k ltac:(lia)). unfold key. rewrite Z.eqb_refl. destruct (Z.eqb_spec (HPARENT k) k); [lia|]. apply Hle. lia. }
  destruct (Z.eqb_spec (HPARENT k) k) as [Hd|Hd]; simpl.
  - apply Hstop. intros Hlt. pose proof (HPARENT_above k Hlt). lia.
  - assert (HEAP0 < k) as Hlt.
    { destruct (decide (k = HEAP0)) as [->|]; [by rewrite HPARENT_root in Hd|unfold in_heap in Hk; lia]. }
    pose proof (HPARENT_above k Hlt). destruct (ts_le (at_ h (HPARENT k)) he.1) eqn:Ec; [by apply Hstop|].
    apply IH; [|done|done|lia]. apply rising_move; [done|done|by apply ts_not_le].
Qed.

(** ** One entry out of place *)

(** The heap is in order but for the timestamp of cell [k]. *)
Record disturbed (k : Z) (h : heap) : Prop := Disturbed {
  di_hole : hole (cell h k) k h;
  di_entry : P (cell h k);
  di_watcher : A (cell h k).2;
  di_other : forall i, HEAP0 < i < HEAP0 + N -> i <> k -> HPARENT i <> k -> at_ h (HPARENT i) ⪯ at_ h i;
  di_below : forall i, HEAP0 < i < HEAP0 + N -> HPARENT i = k -> HEAP0 < k -> at_ h (HPARENT k) ⪯ at_ h i
}.

Lemma key_cell k h i : key (cell h k) k h i = at_ h i.
Proof. unfold key, at_. by zcase; [subst|]. Qed.

Lemma downheap_ok k h : disturbed k h -> (HEAP0 < k -> at_ h (HPARENT k) ⪯ at_ h k) -> heap_ok (downheap N k h).
Proof.
  intros [Hh HP HA Ho Hb] Hup. pose proof (ho_k _ _ _ Hh) as Hk. unfold downheap.
  apply downheap_loop_ok; [|done|done|unfold in_heap in *; lia]. split; [done|..]; intros i Hi; rewrite !key_cell; [|by apply Hb].
  intros Hne. destruct (decide (i = k)) as [->|]; [apply Hup; lia|by apply Ho].
Qed.

Lemma upheap_ok k h : disturbed k h -> (forall i, HEAP0 < i < HEAP0 + N -> HPARENT i = k -> at_ h k ⪯ at_ h i) -> heap_ok (upheap k h).
Proof.
  intros [Hh HP HA Ho Hb] Hdown. pose proof (ho_k _ _ _ Hh) as Hk. unfold upheap.
  apply upheap_loop_ok; [|done|done|unfold in_heap, HEAP0, DHEAP in *; lia]. split; [done|..]; intros i Hi; rewrite !key_cell; [|by apply Hb].
  intros Hne. destruct (decide (HPARENT i = k)) as [E|]; [rewrite E; by apply Hdown|by apply Ho].
Qed.

Lemma adjustheap_ok k h : disturbed k h -> heap_ok (adjustheap N k h).
Proof.
  intros Hd. unfold adjustheap. destruct (Z.ltb_spec HEAP0 k) as [Hk|Hk]; simpl; [|apply downheap_ok; [done|lia]].
  destruct (ts_le (at_ h k) (at_ h (HPARENT k))) eqn:Ec; [|apply downheap_ok; [done|intros _; by apply ts_not_le]].
  apply upheap_ok; [done|]. intros i Hi Hp. eapply ts_le_trans; [exact Ec|]. by apply (di_below _ _ Hd).
Qed.
End Moves.

(** The root has the earliest timestamp. *)
Lemma root_min P A f N h i : heap_ok P A f N h -> in_heap N i -> at_ h HEAP0 ⪯ at_ h i.
Proof.
  intros Hok. assert (forall n i, i - HEAP0 <= Z.of_nat n -> in_heap N i -> at_ h HEAP0 ⪯ at_ h i) as H.
  { induction n as [|n IH]; intros j Hj Hin; (destruct (decide (j = HEAP0)) as [->|Hne]; [apply ts_le_refl|]); [unfold in_heap in *; lia|].
    pose proof (HPARENT_above j ltac:(unfold in_heap in *; lia)). eapply ts_le_trans; [apply (IH (HPARENT j)); unfold in_heap in *; lia|].
    apply (hp_order _ _ _ _ _ Hok). unfold in_heap in *. lia. }
  intros Hin. apply (H (Z.to_nat (i - HEAP0))); [unfold in_heap in *; lia|done].
Qed.
End Heap.
