(* ===== verification/EvTimers.v ===== *)
(** * Timers of the event loop: ev/ev.c

    Starting, stopping and restarting timers, making the due ones pending, and invoking pending
    watchers. Timers have the default priority (qb sets no other), so there is one queue of
    pending watchers. A callback may set, start, stop and restart any timers; it does not run the
    loop itself and feeds no events. *)

From Stdlib Require Import Sorted.
From S2P Require Import Prelude EvHeap.

#[local] Open Scope Z_scope.

Section Timers.
Context {T : Type} `{!Timestamp T}.

#[local] Notation "x ⪯ y" := (ts_le x y = true) (at level 70).

(** A watcher; [ev_active] is with the heap. *)
Record watcher := Watcher { w_at : T; w_repeat : T; w_pending : Z }.

#[global] Instance watcher_inhabited : Inhabited watcher := populate (Watcher ts_zero ts_zero 0).

(** The part of [ev_loop] for timers; [None] in [pendings] is the dummy [pending_w]. *)
Record loop := Loop {
  timers : heap (T := T);
  timercnt : Z;
  watchers : gmap Z watcher;
  mn_now : T;
  pendings : list (option Z)
}.

Definition wat (l : loop) (w : Z) : watcher := watchers l !!! w.
Definition ev_is_active (l : loop) (w : Z) : bool := negb (ev_active (timers l) w =? 0).

Definition set_watcher (w : Z) (x : watcher) (l : loop) : loop :=
  Loop (timers l) (timercnt l) (<[w := x]> (watchers l)) (mn_now l) (pendings l).

Definition set_at (w : Z) (t : T) (l : loop) : loop :=
  set_watcher w (Watcher t (w_repeat (wat l w)) (w_pending (wat l w))) l.

Definition set_heap (h : heap) (cnt : Z) (l : loop) : loop := Loop h cnt (watchers l) (mn_now l) (pendings l).

(** [x != 0.]. *)
Definition nonzero (x : T) : bool := negb (ts_le x ts_zero && ts_le ts_zero x).

(** ** Pending watchers *)

Definition ev_feed_event (w : Z) (l : loop) : loop :=
  let x := wat l w in
  if negb (w_pending x =? 0) then l
  else Loop (timers l) (timercnt l) (<[w := Watcher (w_at x) (w_repeat x) (zlen (pendings l) + 1)]> (watchers l))
         (mn_now l) (pendings l ++ [Some w]).

Definition clear_pending (w : Z) (l : loop) : loop :=
  let x := wat l w in
  if w_pending x =? 0 then l
  else Loop (timers l) (timercnt l) (<[w := Watcher (w_at x) (w_repeat x) 0]> (watchers l))
         (mn_now l) (zput (pendings l) (w_pending x - 1) None).

(** One turn of the loop of [ev_invoke_pending]: the watcher whose callback is called. *)
Definition invoke_pending (l : loop) : option (option Z) * loop :=
  match last (pendings l) with
  | None => (None, l)
  | Some p =>
      let l1 := Loop (timers l) (timercnt l) (watchers l) (mn_now l) (removelast (pendings l)) in
      (Some p, match p with
               | Some w => set_watcher w (Watcher (w_at (wat l w)) (w_repeat (wat l w)) 0) l1
               | None => l1
               end)
  end.

(** ** Timers *)

(** [array_needsize]. *)
Definition needsize (n : Z) (c : list (T * Z)) : list (T * Z) := c ++ zrepeat (ts_zero, 0) (n - zlen c).

Definition ev_timer_set (w : Z) (after repeat : T) (l : loop) : loop :=
  set_watcher w (Watcher after repeat (w_pending (wat l w))) l.

Definition ev_timer_start (w : Z) (l : loop) : loop :=
  if ev_is_active l w then l
  else
    let l1 := set_at w (ts_add (w_at (wat l w)) (mn_now l)) l in
    let cnt := timercnt l1 + 1 in
    let k := cnt + HEAP0 - 1 in
    let h := Heap (needsize (k + 1) (cells (timers l1))) (active (timers l1)) in
    set_heap (upheap k (place k (w_at (wat l1 w), w) h)) cnt l1.

(** [ev_stop]. *)
Definition deactivate (w : Z) (h : heap (T := T)) : heap := Heap (cells h) (<[w := 0]> (active h)).

Definition ev_timer_stop (w : Z) (l : loop) : loop :=
  let l1 := clear_pending w l in
  if negb (ev_is_active l1 w) then l1
  else
    let h := timers l1 in
    let a := ev_active h w in
    let cnt := timercnt l1 - 1 in
    let h1 := if a <? cnt + HEAP0
              then adjustheap cnt a (Heap (zput (cells h) a (cell h (cnt + HEAP0))) (active h)) else h in
    set_at w (ts_sub (w_at (wat l1 w)) (mn_now l1)) (set_heap (deactivate w h1) cnt l1).

(** [ANHE_at_cache(timers[k])] after [ev_at(w) = t]. *)
Definition rekey (k : Z) (t : T) (h : heap) : heap := Heap (zput (cells h) k (t, (cell h k).2)) (active h).

Definition ev_timer_again (w : Z) (l : loop) : loop :=
  let l1 := clear_pending w l in
  let r := w_repeat (wat l1 w) in
  if ev_is_active l1 w then
    if nonzero r then
      let t := ts_add (mn_now l1) r in
      let k := ev_active (timers l1) w in
      set_at w t (set_heap (adjustheap (timercnt l1) k (rekey k t (timers l1))) (timercnt l1) l1)
    else ev_timer_stop w l1
  else if nonzero r then ev_timer_start w (set_at w r l1)
  else l1.

(** One turn of the loop of [timers_reify]: the watcher put into [rfeeds]. *)
Definition reify_one (l : loop) : option (Z * loop) :=
  if negb (timercnt l =? 0) && ts_lt (at_ (timers l) HEAP0) (mn_now l) then
    let w := (cell (timers l) HEAP0).2 in
    let x := wat l w in
    Some (w,
      if nonzero (w_repeat x) then
        let t := ts_add (w_at x) (w_repeat x) in
        let t := if ts_lt t (mn_now l) then mn_now l else t in
        set_at w t (set_heap (downheap (timercnt l) HEAP0 (rekey HEAP0 t (timers l))) (timercnt l) l)
      else ev_timer_stop w l)
  else None.

Fixpoint reify_loop (fuel : nat) (l : loop) : list Z * loop :=
  match fuel with
  | O => ([], l)
  | S fuel =>
      match reify_one l with
      | Some (w, l1) => let '(ws, l2) := reify_loop fuel l1 in (w :: ws, l2)
      | None => ([], l)
      end
  end.

(** [timers_reify], with the watchers in the order in which they were taken from the heap;
    [feed_reverse_done] feeds them in the opposite order. *)
Definition timers_reify (l : loop) : list Z * loop :=
  let '(rfeeds, l1) := reify_loop (size (active (timers l))) l in
  (rfeeds, fold_left (fun l w => ev_feed_event w l) (reverse rfeeds) l1).

(** ** The checks of [ev_verify] *)

Definition verify_watcher (l : loop) (w : Z) : bool :=
  (w_pending (wat l w) =? 0) || bool_decide (zget (pendings l) (w_pending (wat l w) - 1) = Some (Some w)).

Definition verify_entry (l : loop) (i : Z) : bool :=
  let h := timers l in
  (ev_active h (cell h i).2 =? i) &&
  ((i =? HEAP0) || ts_le (at_ h (HPARENT i)) (at_ h i)) &&
  (ts_le (at_ h i) (w_at (wat l (cell h i).2)) && ts_le (w_at (wat l (cell h i).2)) (at_ h i)) &&
  verify_watcher l (cell h i).2.

Definition verify_heap (l : loop) : bool :=
  forallb (fun n => verify_entry l (HEAP0 + Z.of_nat n)) (seq 0 (Z.to_nat (timercnt l))).

(** ** Runs *)

Inductive op := Set_ (w : Z) (after repeat : T) | Start (w : Z) | Stop (w : Z) | Again (w : Z) | Now (t : T) | Reify | Invoke.

(** [ev_timer_set] is for watchers that are not active. *)
Definition step (l : loop) (o : op) : loop :=
  match o with
  | Set_ w after repeat => if ev_is_active l w then l else ev_timer_set w after repeat l
  | Start w => ev_timer_start w l
  | Stop w => ev_timer_stop w l
  | Again w => ev_timer_again w l
  | Now t => Loop (timers l) (timercnt l) (watchers l) t (pendings l)
  | Reify => (timers_reify l).2
  | Invoke => (invoke_pending l).2
  end.

(** What a callback may do to the loop. *)
Definition act (l : loop) (o : op) : loop :=
  match o with Now _ | Reify | Invoke => l | _ => step l o end.

(** [ev_invoke_pending], where [cb w] are the operations of the callback of [w] on the loop it
    finds: the watchers in the order of their calls, with what their callbacks did. *)
Fixpoint invoke_all (cb : Z -> loop -> list op) (fuel : nat) (l : loop) : list (Z * list op) * loop :=
  match fuel with
  | O => ([], l)
  | S fuel =>
      match invoke_pending l with
      | (Some (Some w), l1) =>
          let os := cb w l1 in
          let '(ws, l2) := invoke_all cb fuel (fold_left act os l1) in ((w, os) :: ws, l2)
      | (Some None, l1) => invoke_all cb fuel l1
      | (None, _) => ([], l)
      end
  end.

(** Callbacks do not lengthen the queue. *)
Definition ev_invoke_pending (cb : Z -> loop -> list op) (l : loop) : list (Z * list op) * loop :=
  invoke_all cb (length (pendings l)) l.

Definition new_loop (now : T) : loop := Loop (Heap [] ∅) 0 ∅ now [].
Definition run (now : T) (ops : list op) : loop := fold_left step ops (new_loop now).

(** * The heap and its watchers *)

Definition running (h : heap (T := T)) (w : Z) : Prop := ev_active h w <> 0.
Definition cached (m : gmap Z watcher) (e : T * Z) : Prop := e.1 = w_at (m !!! e.2).

#[local] Ltac heaplia := unfold in_heap, HEAP0, DHEAP in *; lia.

Lemma heap_ok_iff P P' A A' f N (h : heap (T := T)) :
  heap_ok P A f N h -> (forall e, A e.2 -> P e -> P' e) -> (forall w, A w <-> A' w) -> heap_ok P' A' f N h.
Proof.
  intros [] HP HA. split; try done.
  - intros w Hw%HA. auto.
  - intros i Hi. apply HP; auto.
  - intros i Hi. by apply HA, hp_members.
  - intros w Hw. apply hp_frame. by rewrite HA.
Qed.

(** The watchers of a heap are the running ones. *)
Lemma heap_running P A N (h : heap (T := T)) `{forall w, Decision (A w)} :
  heap_ok P A (fun _ => 0) N h -> forall w, A w <-> running h w.
Proof.
  intros [] w. unfold running. split.
  - intros Hw. destruct (hp_cell w Hw) as [Hin _]. heaplia.
  - intros Hnz. destruct (decide (A w)) as [|Hn]; [done|]. by specialize (hp_frame w Hn).
Qed.

Lemma cell_put c m k (e : T * Z) i : 0 <= k < zlen c -> cell (Heap (zput c k e) m) i = if i =? k then e else cell (Heap c m) i.
Proof. intros Hk. unfold cell. simpl. rewrite zget_put by done. by zcase. Qed.

Lemma cell_needsize c m n i : 0 <= i < zlen c -> cell (Heap (needsize n c) m) i = cell (Heap c m : heap (T := T)) i.
Proof. intros Hi. unfold cell, needsize. cbn [cells]. rewrite zget_app. destruct (Z.ltb_spec i (zlen c)); [done|lia]. Qed.

Lemma zlen_needsize n (c : list (T * Z)) : n <= zlen (needsize n c).
Proof.
  unfold needsize. destruct (Z.le_gt_cases (zlen c) n); rewrite zlen_app; [rewrite zlen_repeat by lia; lia|].
  pose proof (zlen_nonneg (zrepeat (ts_zero, 0) (n - zlen c) : list (T * Z))). lia.
Qed.

(** A watcher that is not in the heap is added at its end. *)
Lemma insert_ok P N (h : heap (T := T)) w t :
  heap_ok P (running h) (fun _ => 0) N h -> 0 <= N -> ~ running h w -> P (t, w) ->
  let k := N + 1 + HEAP0 - 1 in
  heap_ok P (fun x => x = w \/ running h x) (fun _ => 0) (N + 1) (upheap k (place k (t, w) (Heap (needsize (k + 1) (cells h)) (active h)))).
Proof.
  intros [Hlen Hact Hcell Hent Hmem Hfr Hord] HN Hw HP k. set (h0 := Heap (needsize (k + 1) (cells h)) (active h)).
  pose proof (zlen_needsize (k + 1) (cells h)) as Hz. assert (0 <= k < zlen (cells h0)) as Hk by (unfold h0; cbn [cells]; unfold k in *; heaplia).
  set (h1 := place k (t, w) h0). assert (forall i, in_heap N i -> cell h1 i = cell h i) as Hold.
  { intros i Hi. unfold h1. rewrite cell_place by done. destruct (Z.eqb_spec i k); [unfold k in *; heaplia|].
    unfold h0. rewrite cell_needsize by heaplia. by destruct h. }
  assert (cell h1 k = (t, w)) as Hnew by (unfold h1; rewrite cell_place by done; by rewrite Z.eqb_refl).
  assert (forall x, ev_active h1 x = if decide (x = w) then k else ev_active h x) as Hact1 by (intros; exact (active_place k (t, w) h0 x)).
  assert (forall i, in_heap N i -> (cell h i).2 <> w) as Hne by (intros i Hi E; apply Hw; unfold running; rewrite <- E, Hact by done; heaplia).
  assert (forall i, in_heap (N + 1) i -> i <> k -> in_heap N i) as Hin by (intros; unfold k in *; heaplia).
  apply upheap_ok.
  - split; [split|..]; rewrite ?Hnew; simpl.
    + simpl in *. unfold h1, place. simpl. rewrite zlen_put. unfold k in *. heaplia.
    + unfold k. heaplia.
    + intros i Hi Hik. rewrite Hold, Hact1 by auto. rewrite decide_False by auto. auto.
    + intros x [->|Hx] Hxw; [done|]. rewrite Hact1, decide_False by done. destruct (Hcell x Hx) as [Hi Hc].
      split; [heaplia|]. split; [unfold k; heaplia|]. by rewrite Hold.
    + intros i Hi Hik. rewrite Hold by auto. auto.
    + intros i Hi Hik. rewrite Hold by auto. auto.
    + intros i Hi Hik. rewrite Hold by auto. auto.
    + intros x Hx. rewrite Hact1, decide_False by (intros ->; tauto). apply Hfr. tauto.
    + done.
    + by left.
    + intros i Hi Hik Hp. unfold at_. pose proof (HPARENT_above i ltac:(lia)).
      rewrite !Hold by (unfold k in *; heaplia). apply Hord. unfold k in *. heaplia.
    + intros i Hi Hp. pose proof (HPARENT_above i ltac:(lia)). unfold k in *. heaplia.
  - intros i Hi Hp. pose proof (HPARENT_above i ltac:(lia)). unfold k in *. heaplia.
Qed.

(** The index of a watcher that left the heap is cleared. *)
Lemma deactivate_ok P A N (h : heap (T := T)) w a :
  heap_ok P A (fun x => if decide (x = w) then a else 0) N h -> ~ A w -> heap_ok P A (fun _ => 0) N (deactivate w h).
Proof.
  intros [Hlen Hact Hcell Hent Hmem Hfr Hord] Hw.
  assert (forall x, ev_active (deactivate w h) x = if decide (x = w) then 0 else ev_active h x) as Ha.
  { intros x. unfold ev_active, deactivate. simpl. case_decide; [subst; by rewrite lookup_insert_eq|by rewrite lookup_insert_ne]. }
  split; try done.
  - intros i Hi. rewrite Ha. case_decide as E; [|by apply Hact]. destruct Hw. rewrite <- E. exact (Hmem i Hi).
  - intros x Hx. rewrite Ha, decide_False by (by intros ->). by apply Hcell.
  - intros x Hx. rewrite Ha. case_decide as E; [done|]. rewrite Hfr by done. by rewrite decide_False.
Qed.

Section Removal.
Context (P : T * Z -> Prop) (N : Z) (h : heap (T := T)) (w : Z).
Context (Hok : heap_ok P (running h) (fun _ => 0) N h) (Hw : running h w).

#[local] Abbreviation a := (ev_active h w).
#[local] Abbreviation rest := (fun x => running h x /\ x <> w).
#[local] Abbreviation left_at := (fun x => if decide (x = w) then a else 0).

Lemma removal_cell : in_heap N a /\ (cell h a).2 = w.
Proof. by apply (hp_cell _ _ _ _ _ Hok). Qed.

Lemma removal_other i : in_heap N i -> i <> a -> (cell h i).2 <> w.
Proof. intros Hi Hia E. apply Hia. by rewrite <- (hp_active _ _ _ _ _ Hok i Hi), E. Qed.

Lemma removal_frame x : ~ rest x -> ev_active h x = left_at x.
Proof. cbv beta. intros Hx. case_decide as E; [by rewrite E|]. destruct (decide (ev_active h x = 0)); [done|]. by destruct Hx. Qed.

Lemma removal_active x : running h x -> x <> w -> in_heap N (ev_active h x) /\ (cell h (ev_active h x)).2 = x /\ ev_active h x <> a.
Proof.
  intros Hx Hne. destruct (hp_cell _ _ _ _ _ Hok x Hx) as [Hi Hc]. split; [done|]. split; [done|]. intros E.
  destruct removal_cell as [_ Ha]. congruence.
Qed.

(** The last entry takes the cell of the watcher. *)
Lemma removal_disturbed : a < N - 1 + HEAP0 ->
  disturbed P rest left_at (N - 1) a (Heap (zput (cells h) a (cell h (N - 1 + HEAP0))) (active h)).
Proof.
  intros Hlt. destruct removal_cell as [Ha _]. pose proof Hok as [Hlen Hact Hcell Hent Hmem Hfr Hord]. specialize (Hlen ltac:(heaplia)).
  set (n := N - 1 + HEAP0) in *. set (h2 := Heap _ _). set (he := cell h n). assert (in_heap N n) as Hn by (unfold n; heaplia).
  assert (forall i, cell h2 i = if i =? a then he else cell h i) as Hc2.
  { intros i. unfold h2. rewrite cell_put by heaplia. by destruct h. }
  assert (forall i, in_heap (N - 1) i -> i <> a -> cell h2 i = cell h i /\ in_heap N i /\ i <> n) as Hold.
  { intros i Hi Hia. rewrite Hc2. destruct (Z.eqb_spec i a); [done|]. unfold n. split; [done|]. split; heaplia. }
  assert (cell h2 a = he) as Hhe by (rewrite Hc2; by rewrite Z.eqb_refl). pose proof (removal_other n Hn ltac:(lia)) as Hnw.
  split; [split|..]; rewrite ?Hhe.
  - unfold h2. simpl. rewrite zlen_put. lia.
  - unfold n in *. heaplia.
  - intros i Hi Hia. destruct (Hold i Hi Hia) as (-> & ? & _). by apply Hact.
  - intros x [Hx Hxw] Hxh. destruct (removal_active x Hx Hxw) as (Hi & Hcx & Hxa). change (ev_active h2 x) with (ev_active h x).
    assert (ev_active h x <> n) by (intros E; rewrite E in Hcx; done).
    assert (in_heap (N - 1) (ev_active h x)) as Hi' by (unfold n in *; heaplia). split; [done|]. split; [done|]. by destruct (Hold _ Hi' Hxa) as (-> & _).
  - intros i Hi Hia E. destruct (Hold i Hi Hia) as (Ec & Hi1 & Hi2). rewrite Ec in E. pose proof (Hact i Hi1) as E1. rewrite E in E1.
    apply Hi2. by rewrite <- E1, <- (Hact n Hn) at 1.
  - intros i Hi Hia. destruct (Hold i Hi Hia) as (-> & ? & _). by apply Hent.
  - intros i Hi Hia. destruct (Hold i Hi Hia) as (-> & ? & _). split; [by apply Hmem|by apply removal_other].
  - intros x Hx. by apply removal_frame.
  - by apply Hent.
  - split; [by apply Hmem|done].
  - intros i Hi Hia Hp. unfold at_. rewrite !Hc2. destruct (Z.eqb_spec (HPARENT i) a); [done|]. destruct (Z.eqb_spec i a); [done|].
    apply Hord. lia.
  - intros i Hi Hp Ha0. unfold at_. rewrite !Hc2. pose proof (HPARENT_above i ltac:(lia)). pose proof (HPARENT_above a Ha0).
    destruct (Z.eqb_spec (HPARENT a) a); [lia|]. destruct (Z.eqb_spec i a); [lia|].
    eapply ts_le_trans; [apply (Hord a); heaplia|]. rewrite <- Hp. apply (Hord i). lia.
Qed.

(** The watcher is the last entry. *)
Lemma removal_last : N - 1 + HEAP0 <= a -> heap_ok P rest left_at (N - 1) h.
Proof.
  intros Hge. destruct removal_cell as [Ha _]. pose proof Hok as [Hlen Hact Hcell Hent Hmem Hfr Hord].
  assert (forall i, in_heap (N - 1) i -> in_heap N i /\ i <> a) as Hin by (intros; split; heaplia).
  split.
  - intros. specialize (Hlen ltac:(lia)). lia.
  - intros i Hi. by apply Hact, Hin.
  - intros x [Hx Hxw]. destruct (removal_active x Hx Hxw) as (Hi & Hcx & Hxa). split; [heaplia|done].
  - intros i Hi. by apply Hent, Hin.
  - intros i Hi. destruct (Hin i Hi). split; [by apply Hmem|by apply removal_other].
  - intros x Hx. by apply removal_frame.
  - intros i Hi. apply Hord. lia.
Qed.

Lemma removal_ok :
  let h1 := if a <? N - 1 + HEAP0 then adjustheap (N - 1) a (Heap (zput (cells h) a (cell h (N - 1 + HEAP0))) (active h)) else h in
  heap_ok P rest (fun _ => 0) (N - 1) (deactivate w h1).
Proof.
  intros h1. apply (deactivate_ok _ _ _ _ _ a); [|by intros [_ ?]]. unfold h1. destruct (Z.ltb_spec a (N - 1 + HEAP0)).
  - by apply adjustheap_ok, removal_disturbed.
  - by apply removal_last.
Qed.
End Removal.

(** The timestamp of an entry changes. *)
Lemma rekey_disturbed P P' N (h : heap (T := T)) k t :
  heap_ok P (running h) (fun _ => 0) N h -> in_heap N k -> P' (t, (cell h k).2) ->
  (forall e, e.2 <> (cell h k).2 -> P e -> P' e) ->
  disturbed P' (running h) (fun _ => 0) N k (rekey k t h).
Proof.
  intros [Hlen Hact Hcell Hent Hmem Hfr Hord] Hk HP HP'. specialize (Hlen ltac:(heaplia)). set (w := (cell h k).2) in *. set (h2 := rekey k t h).
  assert (forall i, cell h2 i = if i =? k then (t, w) else cell h i) as Hc2.
  { intros i. unfold h2, rekey. rewrite cell_put by heaplia. by destruct h. }
  assert (cell h2 k = (t, w)) as Hhe by (rewrite Hc2; by rewrite Z.eqb_refl).
  assert (forall x, ev_active h2 x = ev_active h x) as Ha2 by done.
  assert (forall i, in_heap N i -> i <> k -> (cell h i).2 <> w) as Hne.
  { intros i Hi Hik E. pose proof (Hact i Hi) as E1. rewrite E in E1. apply Hik. by rewrite <- E1, <- (Hact k Hk) at 1. }
  split; [split|..]; rewrite ?Hhe; simpl.
  - unfold h2, rekey. simpl. by rewrite zlen_put.
  - done.
  - intros i Hi Hik. rewrite Ha2, Hc2. destruct (Z.eqb_spec i k); [done|]. auto.
  - intros x Hx Hxw. rewrite Ha2, Hc2. destruct (Hcell x Hx) as [Hi Hcx]. split; [done|].
    assert (ev_active h x <> k) by (intros E; rewrite E in Hcx; done). split; [done|]. destruct (Z.eqb_spec (ev_active h x) k); done.
  - intros i Hi Hik. rewrite Hc2. destruct (Z.eqb_spec i k); [done|]. auto.
  - intros i Hi Hik. rewrite Hc2. destruct (Z.eqb_spec i k); [done|]. auto.
  - intros i Hi Hik. rewrite Hc2. destruct (Z.eqb_spec i k); [done|]. auto.
  - intros x Hx. rewrite Ha2. by apply Hfr.
  - done.
  - by apply Hmem.
  - intros i Hi Hia Hp. unfold at_. rewrite !Hc2. destruct (Z.eqb_spec (HPARENT i) k); [done|]. destruct (Z.eqb_spec i k); [done|].
    apply Hord. lia.
  - intros i Hi Hp Ha0. unfold at_. rewrite !Hc2. pose proof (HPARENT_above i ltac:(lia)). pose proof (HPARENT_above k Ha0).
    destruct (Z.eqb_spec (HPARENT k) k); [lia|]. destruct (Z.eqb_spec i k); [lia|].
    eapply ts_le_trans; [apply (Hord k); heaplia|]. rewrite <- Hp. apply (Hord i). lia.
Qed.

(** * The loop *)

Definition pending_ok (m : gmap Z watcher) (ps : list (option Z)) : Prop :=
  (forall w, 0 <= w_pending (m !!! w)) /\
  forall i w, zget ps i = Some (Some w) <-> 0 <= i /\ w_pending (m !!! w) = i + 1.

Record loop_ok (l : loop) : Prop := LoopOk {
  lo_count : 0 <= timercnt l;
  lo_heap : heap_ok (cached (watchers l)) (running (timers l)) (fun _ => 0) (timercnt l) (timers l);
  lo_pending : pending_ok (watchers l) (pendings l)
}.

Lemma total_insert (m : gmap Z watcher) w x y : <[w := x]> m !!! y = if decide (y = w) then x else m !!! y.
Proof. case_decide as E; [subst; apply lookup_total_insert_eq|by apply lookup_total_insert_ne]. Qed.

(** What an operation on the pending queue leaves alone. *)
Definition quiet (l l' : loop) : Prop :=
  timers l' = timers l /\ timercnt l' = timercnt l /\ mn_now l' = mn_now l /\
  forall x, w_at (wat l' x) = w_at (wat l x) /\ w_repeat (wat l' x) = w_repeat (wat l x).

Lemma quiet_ok l l' : quiet l l' -> pending_ok (watchers l') (pendings l') -> loop_ok l -> loop_ok l'.
Proof.
  intros (Eh & Ec & _ & Ew) Hp []. split; [by rewrite Ec| |done]. rewrite Eh, Ec. eapply heap_ok_iff; [done| |done].
  intros e _. unfold cached. destruct (Ew e.2) as [E _]. unfold wat in E. by rewrite E.
Qed.

Lemma clear_pending_ok w l : loop_ok l -> loop_ok (clear_pending w l) /\ quiet l (clear_pending w l).
Proof.
  intros Hl. destruct (lo_pending _ Hl) as [H0 Hp]. unfold clear_pending. fold (wat l w) in H0. destruct (Z.eqb_spec (w_pending (wat l w)) 0) as [|Hnz]; [done|].
  assert (quiet l (Loop (timers l) (timercnt l) (<[w := Watcher (w_at (wat l w)) (w_repeat (wat l w)) 0]> (watchers l))
    (mn_now l) (zput (pendings l) (w_pending (wat l w) - 1) None))) as Hq.
  { split; [done|]. split; [done|]. split; [done|]. intros x. unfold wat. simpl. rewrite total_insert. case_decide; [by subst|done]. }
  split; [|done]. apply (quiet_ok l); [done| |done]. simpl. pose proof (H0 w) as Hw. fold (wat l w) in Hw.
  assert (zget (pendings l) (w_pending (wat l w) - 1) = Some (Some w)) as Hz by (apply Hp; unfold wat in *; lia).
  split; [intros x; rewrite total_insert; by case_decide|]. intros i x. rewrite zget_put by (by eapply zget_Some_range). rewrite total_insert.
  destruct (Z.eqb_spec i (w_pending (wat l w) - 1)) as [->|Hi].
  - split; [done|]. case_decide as E; simpl; [lia|]. intros [Hle E2]. assert (zget (pendings l) (w_pending (wat l w) - 1) = Some (Some x)) by (by apply Hp).
    congruence.
  - rewrite Hp. case_decide as E; [subst|done]. simpl. unfold wat in Hi. lia.
Qed.

Lemma feed_ok w l : loop_ok l -> loop_ok (ev_feed_event w l) /\ quiet l (ev_feed_event w l).
Proof.
  intros Hl. destruct (lo_pending _ Hl) as [H0 Hp]. unfold ev_feed_event. destruct (Z.eqb_spec (w_pending (wat l w)) 0) as [Hz|]; [|done]. simpl.
  match goal with |- loop_ok ?t /\ _ => assert (quiet l t) as Hq end.
  { split; [done|]. split; [done|]. split; [done|]. intros x. unfold wat. simpl. rewrite total_insert. case_decide; [by subst|done]. }
  split; [|done]. apply (quiet_ok l); [done| |done]. simpl. pose proof (zlen_nonneg (pendings l)).
  assert (forall i x, zget (pendings l) i = Some (Some x) -> i < zlen (pendings l) /\ x <> w) as Hold.
  { intros i x Hx. split; [by eapply zget_Some_range|]. intros ->. apply Hp in Hx as [? E]. unfold wat in Hz. lia. }
  split; [intros x; rewrite total_insert; case_decide; [simpl; lia|apply H0]|]. intros i x. rewrite zget_app, total_insert.
  destruct (Z.ltb_spec i (zlen (pendings l))) as [Hi|Hi].
  - case_decide as E; [|apply Hp]. subst. simpl. split; [intros Hx; by apply Hold in Hx as [_ ?]|lia].
  - destruct (decide (i = zlen (pendings l))) as [->|Hne].
    + rewrite Z.sub_diag. change (zget [Some w] 0) with (Some (Some w)). case_decide as E; [subst; simpl; split; [intros _; lia|done]|].
      split; [intros [= E2]; by subst|]. intros Hx. apply Hp in Hx. apply Hold in Hx. lia.
    + assert (zget [Some w] (i - zlen (pendings l)) = None) as -> by (apply zget_None; change (zlen [Some w]) with 1; lia).
      split; [done|]. case_decide; [simpl; lia|]. intros Hx. apply Hp in Hx. apply Hold in Hx. lia.
Qed.

Lemma removelast_last {A} (l : list A) p : last l = Some p -> l = removelast l ++ [p].
Proof. intros (l' & ->)%last_Some. by rewrite removelast_last. Qed.

Lemma invoke_ok l : loop_ok l -> loop_ok (invoke_pending l).2.
Proof.
  intros Hl. unfold invoke_pending. destruct (last (pendings l)) as [p|] eqn:E; [|done]. simpl.
  apply removelast_last in E. destruct (lo_pending _ Hl) as [H0 Hp]. rewrite E in Hp. set (ps := removelast (pendings l)) in *.
  assert (forall i x, zget ps i = Some (Some x) -> zget (ps ++ [p]) i = Some (Some x)) as Hkeep.
  { intros i x Hx. rewrite zget_app. apply zget_Some_range in Hx as Hr. rewrite (proj2 (Z.ltb_lt _ _)) by lia. done. }
  assert (forall i x, zget (ps ++ [p]) i = Some (Some x) -> i <> zlen ps -> zget ps i = Some (Some x)) as Hback.
  { intros i x. rewrite zget_app. destruct (Z.ltb_spec i (zlen ps)); [done|]. intros Hx Hne. apply zget_Some_range in Hx. change (zlen [p]) with 1 in Hx. lia. }
  assert (zget (ps ++ [p]) (zlen ps) = Some p) as Hend by (rewrite zget_app, (proj2 (Z.ltb_ge _ _)), Z.sub_diag by lia; done).
  destruct p as [w|].
  - apply Hp in Hend as Hw. apply (quiet_ok l); [split; [done|]; split; [done|]; split; [done|]; intros x; unfold wat; simpl; rewrite total_insert;
      case_decide; [by subst|done]| |done]. simpl. split; [intros x; rewrite total_insert; by case_decide|]. intros i x. rewrite total_insert.
    case_decide as Ex; simpl.
    + subst x. split; [|lia]. intros Hx. pose proof (zget_Some_range _ _ _ Hx). apply Hkeep, Hp in Hx. lia.
    + split; [intros Hx; by apply Hp, Hkeep|]. intros Hx%Hp. apply Hback; [done|]. intros ->. congruence.
  - apply (quiet_ok l); [done| |done]. simpl. split; [done|]. intros i x. split; [intros Hx; by apply Hp, Hkeep|].
    intros Hx%Hp. apply Hback; [done|]. intros ->. congruence.
Qed.

(** ** Operations on timers *)

Lemma insert_cached (m : gmap Z watcher) w x e : e.2 <> w -> cached m e -> cached (<[w := x]> m) e.
Proof. intros Hne. unfold cached. by rewrite total_insert, decide_False. Qed.

Lemma insert_pending (m : gmap Z watcher) w x ps : w_pending x = w_pending (m !!! w) -> pending_ok m ps -> pending_ok (<[w := x]> m) ps.
Proof.
  intros E [H0 Hp]. assert (forall y, w_pending (<[w := x]> m !!! y) = w_pending (m !!! y)) as Hy.
  { intros y. rewrite total_insert. case_decide; [by subst|done]. }
  split; intros; rewrite Hy; auto.
Qed.

Lemma set_at_ok w t l : loop_ok l -> ~ running (timers l) w -> loop_ok (set_at w t l).
Proof.
  intros [] Hw. split; simpl; [done| |by apply insert_pending]. eapply heap_ok_iff; [done| |done].
  intros e He. apply insert_cached. by intros <-.
Qed.

Lemma timer_set_ok w t r l : loop_ok l -> ~ running (timers l) w -> loop_ok (ev_timer_set w t r l).
Proof.
  intros [] Hw. split; simpl; [done| |by apply insert_pending]. eapply heap_ok_iff; [done| |done].
  intros e He. apply insert_cached. by intros <-.
Qed.

Lemma is_active_spec l w : ev_is_active l w = true <-> running (timers l) w.
Proof. unfold ev_is_active, running. rewrite negb_true_iff, Z.eqb_neq. done. Qed.

Lemma timer_start_ok w l : loop_ok l -> loop_ok (ev_timer_start w l).
Proof.
  intros Hl. unfold ev_timer_start. destruct (ev_is_active l w) eqn:Ea; [done|].
  assert (~ running (timers l) w) as Hw by (rewrite <- is_active_spec; by rewrite Ea).
  set (t := ts_add _ _). destruct (set_at_ok w t l Hl Hw) as [Hc Hh Hp]. set (l1 := set_at w t l) in *.
  assert (w_at (wat l1 w) = t) as Et by (unfold wat; simpl; by rewrite lookup_total_insert_eq).
  pose proof (insert_ok (cached (watchers l1)) (timercnt l1) (timers l1) w (w_at (wat l1 w)) Hh Hc Hw eq_refl) as Hi. simpl in Hi.
  split; [simpl in *; lia| |done]. eapply heap_ok_iff; [exact Hi|done|]. eapply (heap_running _ _ _ _ Hi).
Qed.

(** What stopping does to the others. *)
Record stopped (w : Z) (l l' : loop) : Prop := Stopped {
  st_running : forall x, running (timers l') x <-> running (timers l) x /\ x <> w;
  st_at : forall x, x <> w -> w_at (wat l' x) = w_at (wat l x);
  st_now : mn_now l' = mn_now l
}.

Lemma stop_spec w l : loop_ok l -> loop_ok (ev_timer_stop w l) /\ stopped w l (ev_timer_stop w l).
Proof.
  intros Hl. unfold ev_timer_stop. destruct (clear_pending_ok w l Hl) as [Hl1 (Eh & Ec & En & Ew)]. set (l1 := clear_pending w l) in *.
  destruct (ev_is_active l1 w) eqn:Ea; simpl.
  - apply is_active_spec in Ea as Hw. destruct Hl1 as [Hcnt Hh Hp].
    pose proof (removal_ok _ _ _ w Hh Hw) as Hr. cbv zeta in Hr. set (h1 := deactivate w _) in *.
    assert (forall x, running h1 x <-> running (timers l1) x /\ x <> w) as Hrun.
    { intros x. symmetry. apply (heap_running _ _ _ _ Hr). }
    split; [split; simpl|split; simpl].
    + destruct (hp_cell _ _ _ _ _ Hh w Hw). heaplia.
    + eapply heap_ok_iff; [exact Hr| |by intros; rewrite Hrun]. intros e [_ He]. by apply insert_cached.
    + by apply insert_pending.
    + intros x. by rewrite Hrun, Eh.
    + intros x Hx. unfold wat at 1. simpl. rewrite total_insert, decide_False by done. apply Ew.
    + done.
  - split; [done|]. assert (~ running (timers l1) w) as Hn by (rewrite <- is_active_spec; by rewrite Ea).
    split; [|intros; apply Ew|done]. intros x. rewrite <- Eh. split; [|by intros [? _]]. intros Hx. split; [done|]. by intros ->.
Qed.

(** The timestamp of a running timer changes and its entry moves. *)
Lemma rekey_ok w t l (h : heap) :
  loop_ok l -> running (timers l) w ->
  (disturbed (cached (<[w := Watcher t (w_repeat (wat l w)) (w_pending (wat l w))]> (watchers l))) (running (timers l)) (fun _ => 0) (timercnt l)
     (ev_active (timers l) w) (rekey (ev_active (timers l) w) t (timers l)) ->
   heap_ok (cached (<[w := Watcher t (w_repeat (wat l w)) (w_pending (wat l w))]> (watchers l))) (running (timers l)) (fun _ => 0) (timercnt l) h) ->
  loop_ok (set_at w t (set_heap h (timercnt l) l)) /\ forall x, running h x <-> running (timers l) x.
Proof.
  intros [Hc Hh Hp] Hw Hgo. destruct (hp_cell _ _ _ _ _ Hh w Hw) as [Hk Ek].
  assert (heap_ok (cached (<[w := Watcher t (w_repeat (wat l w)) (w_pending (wat l w))]> (watchers l))) (running (timers l)) (fun _ => 0) (timercnt l) h) as Hr.
  { apply Hgo. eapply rekey_disturbed; [exact Hh|done|..]; rewrite Ek; [unfold cached; simpl; by rewrite lookup_total_insert_eq|].
    intros e He. by apply insert_cached. }
  assert (forall x, running h x <-> running (timers l) x) as Hrun by (intros x; symmetry; apply (heap_running _ _ _ _ Hr)).
  split; [|done]. split; simpl; [done| |by apply insert_pending]. eapply heap_ok_iff; [exact Hr|done|]. intros x. by rewrite Hrun.
Qed.

Lemma again_ok w l : loop_ok l -> loop_ok (ev_timer_again w l).
Proof.
  intros Hl. unfold ev_timer_again. destruct (clear_pending_ok w l Hl) as [Hl1 _]. set (l1 := clear_pending w l) in *.
  destruct (ev_is_active l1 w) eqn:Ea.
  - destruct (nonzero _); [|by apply stop_spec]. apply is_active_spec in Ea. apply rekey_ok; [done|done|]. apply adjustheap_ok.
  - destruct (nonzero _); [|done]. apply timer_start_ok, set_at_ok; [done|]. rewrite <- is_active_spec. by rewrite Ea.
Qed.

(** * Firing *)

Definition due (l : loop) (w : Z) : Prop := running (timers l) w /\ ts_lt (w_at (wat l w)) (mn_now l) = true.

#[global] Instance due_dec l w : Decision (due l w).
Proof. unfold due, running. apply _. Defined.

Lemma running_dom (h : heap (T := T)) w : running h w -> w ∈ dom (active h).
Proof.
  unfold running, ev_active. intros H. apply elem_of_dom. destruct (active h !! w); [by eauto|done].
Qed.

(** One turn of the loop takes the earliest of the due timers. *)
Record fires (w : Z) (l l' : loop) : Prop := Fires {
  fi_due : due l w;
  fi_first : forall x, due l x -> w_at (wat l w) ⪯ w_at (wat l x);
  fi_rest : forall x, due l' x <-> due l x /\ x <> w;
  fi_at : forall x, x <> w -> w_at (wat l' x) = w_at (wat l x);
  fi_now : mn_now l' = mn_now l;
  fi_pending : forall x, Some x ∈ pendings l' -> Some x ∈ pendings l
}.

(** The entries of the watchers in [f] become dummies. *)
Definition dropped (f : Z -> bool) (p : option Z) : option Z := match p with Some w => if f w then None else Some w | None => None end.

Lemma dropped_in f w (ps : list (option Z)) : Some w ∈ dropped f <$> ps <-> Some w ∈ ps /\ f w = false.
Proof.
  rewrite list_elem_of_fmap. split.
  - intros ([x|] & E & Hx); [|done]. simpl in E. destruct (f x) eqn:Ef; [done|]. by injection E as ->.
  - intros [Hw Hf]. exists (Some w). simpl. by rewrite Hf.
Qed.

Lemma dropped_none f (ps : list (option Z)) : (forall w, f w = false) -> dropped f <$> ps = ps.
Proof. intros Hf. induction ps as [|[w|] ps IH]; [done| |]; rewrite fmap_cons, IH; [simpl; by rewrite Hf|done]. Qed.

Lemma clear_pending_pendings w l : loop_ok l -> pendings (clear_pending w l) = dropped (Z.eqb w) <$> pendings l.
Proof.
  intros Hl. destruct (lo_pending _ Hl) as [H0 Hp]. specialize (H0 w). fold (wat l w) in H0. unfold clear_pending.
  assert (forall i, zget (dropped (Z.eqb w) <$> pendings l) i = match zget (pendings l) i with Some p => Some (dropped (Z.eqb w) p) | None => None end) as Hg.
  { intros i. unfold zget. destruct (i <? 0); [done|]. apply list_lookup_fmap. }
  assert (forall i x, zget (pendings l) i = Some (Some x) -> dropped (Z.eqb w) (Some x) = if i =? w_pending (wat l w) - 1 then None else Some x) as Hd.
  { intros i x Hx. simpl. destruct (Z.eqb_spec w x) as [<-|Hne].
    - apply Hp in Hx as [_ E]. unfold wat. rewrite E, Z.add_simpl_r, Z.eqb_refl. done.
    - destruct (Z.eqb_spec i (w_pending (wat l w) - 1)) as [->|]; [|done]. assert (0 <= w_pending (wat l w) - 1) by (by eapply zget_Some_range).
      assert (zget (pendings l) (w_pending (wat l w) - 1) = Some (Some w)) as Hw by (apply Hp; unfold wat in *; lia). congruence. }
  destruct (Z.eqb_spec (w_pending (wat l w)) 0) as [Hz|Hnz]; simpl; apply zlist_eq; intros i Hi; rewrite Hg.
  - destruct (zget (pendings l) i) as [[x|]|] eqn:E; [|done..]. rewrite (Hd i x E).
    destruct (Z.eqb_spec i (w_pending (wat l w) - 1)); [lia|done].
  - assert (zget (pendings l) (w_pending (wat l w) - 1) = Some (Some w)) as Hw by (apply Hp; unfold wat in *; lia).
    rewrite zget_put by (by eapply zget_Some_range). destruct (Z.eqb_spec i (w_pending (wat l w) - 1)) as [->|Hne].
    + rewrite Hw. simpl. by rewrite Z.eqb_refl.
    + destruct (zget (pendings l) i) as [[x|]|] eqn:E; [|done..]. rewrite (Hd i x E).
      destruct (Z.eqb_spec i (w_pending (wat l w) - 1)); [done|done].
Qed.

Lemma stop_pendings w l : loop_ok l -> pendings (ev_timer_stop w l) = dropped (Z.eqb w) <$> pendings l.
Proof. intros Hl. rewrite <- clear_pending_pendings by done. unfold ev_timer_stop. by destruct (negb _). Qed.

Lemma heap_at l w : loop_ok l -> running (timers l) w -> at_ (timers l) (ev_active (timers l) w) = w_at (wat l w).
Proof.
  intros [_ Hh _] Hw. destruct (hp_cell _ _ _ _ _ Hh w Hw) as [Hk Ek]. pose proof (hp_entries _ _ _ _ _ Hh _ Hk) as Hc.
  unfold cached in Hc. rewrite Ek in Hc. done.
Qed.

Lemma reify_one_spec l : loop_ok l ->
  match reify_one l with
  | Some (w, l') => loop_ok l' /\ fires w l l'
  | None => forall x, ~ due l x
  end.
Proof.
  intros Hl. pose proof (lo_count _ Hl) as Hc. pose proof (lo_heap _ Hl) as Hh.
  assert (forall x, running (timers l) x -> at_ (timers l) HEAP0 ⪯ w_at (wat l x)) as Hmin.
  { intros x Hx. rewrite <- heap_at by done. eapply root_min; [exact Hh|]. by apply (hp_cell _ _ _ _ _ Hh). }
  unfold reify_one. destruct (Z.eqb_spec (timercnt l) 0) as [E0|Hn]; simpl.
  { intros x [Hx _]. destruct (hp_cell _ _ _ _ _ Hh x Hx). rewrite E0 in *. heaplia. }
  destruct (ts_lt (at_ (timers l) HEAP0) (mn_now l)) eqn:Elt.
  2:{ intros x [Hx Hd]. unfold ts_lt in *. apply negb_false_iff in Elt. apply negb_true_iff in Hd.
      rewrite (ts_le_trans _ _ _ Elt (Hmin x Hx)) in Hd. done. }
  assert (in_heap (timercnt l) HEAP0) as H0 by heaplia. set (w := (cell (timers l) HEAP0).2).
  assert (running (timers l) w) as Hw by (by apply (hp_members _ _ _ _ _ Hh)).
  assert (ev_active (timers l) w = HEAP0) as Ew by (by apply (hp_active _ _ _ _ _ Hh)).
  assert (at_ (timers l) HEAP0 = w_at (wat l w)) as Eat by (rewrite <- Ew; by apply heap_at). rewrite Eat in Elt, Hmin.
  assert (due l w) as Hdue by done. assert (forall x, due l x -> w_at (wat l w) ⪯ w_at (wat l x)) as Hfirst by (intros x [Hx _]; auto).
  destruct (nonzero (w_repeat (wat l w))).
  - set (t := if ts_lt _ _ then _ else _). assert (ts_lt t (mn_now l) = false) as Ht.
    { unfold t. destruct (ts_lt (ts_add _ _) _) eqn:E; [|done]. unfold ts_lt. by rewrite ts_le_refl. }
    destruct (rekey_ok w t l (downheap (timercnt l) HEAP0 (rekey HEAP0 t (timers l))) Hl Hw) as [Hok Hrun].
    { rewrite Ew. intros Hd. apply downheap_ok; [done|]. intros; heaplia. }
    split; [done|]. split; try done.
    + intros x. unfold due. simpl. rewrite Hrun. unfold wat at 1. simpl. rewrite total_insert. case_decide as E; simpl.
      * rewrite Ht. subst. split; [by intros [_ ?]|by intros [_ ?]].
      * tauto.
    + intros x Hx. unfold wat at 1. simpl. by rewrite total_insert, decide_False.
  - destruct (stop_spec w l Hl) as [Hok [Hrun Hat Hnow]]. split; [done|]. split; try done.
    2:{ intros x. rewrite stop_pendings by done. by intros [? _]%dropped_in. }
    intros x. unfold due. rewrite Hrun, Hnow. split.
    + intros [[Hx Hne] Hd]. rewrite Hat in Hd by done. done.
    + intros [[Hx Hd] Hne]. rewrite Hat by done. done.
Qed.

Definition due_set (l : loop) : gset Z := filter (due l) (dom (active (timers l))).

Lemma elem_of_due_set l w : w ∈ due_set l <-> due l w.
Proof. unfold due_set. rewrite elem_of_filter. split; [by intros [? _]|]. intros Hd. split; [done|]. apply running_dom, Hd. Qed.

Lemma reify_loop_spec fuel l : loop_ok l -> (size (due_set l) <= fuel)%nat ->
  let '(ws, l') := reify_loop fuel l in
  loop_ok l' /\ (forall w, w ∈ ws <-> due l w) /\ NoDup ws /\ StronglySorted (fun x y => w_at (wat l x) ⪯ w_at (wat l y)) ws /\
  (forall w, ~ due l' w) /\ (forall x, Some x ∈ pendings l' -> Some x ∈ pendings l).
Proof.
  revert l. induction fuel as [|fuel IH]; intros l Hl Hs; simpl.
  - assert (due_set l = ∅) as E by (apply leibniz_equiv, size_empty_iff; lia).
    assert (forall w, ~ due l w) as Hno by (intros w Hw%elem_of_due_set; rewrite E in Hw; set_solver).
    split; [done|]. split; [intros w; split; [by intros ?%elem_of_nil|by intros ?%Hno]|]. split; [constructor|]. split; [constructor|]. done.
  - pose proof (reify_one_spec l Hl) as H1. destruct (reify_one l) as [[w l1]|].
    + destruct H1 as [Hl1 [Hd Hf Hr Hat Hnow Hpend]].
      assert (due_set l1 = due_set l ∖ {[w]}) as Eset.
      { apply leibniz_equiv. intros x. rewrite elem_of_difference, !elem_of_due_set, Hr, elem_of_singleton. done. }
      specialize (IH l1 Hl1). assert (size (due_set l1) <= fuel)%nat as Hs1.
      { rewrite Eset, size_difference, size_singleton; [lia|]. apply singleton_subseteq_l. by apply elem_of_due_set. }
      specialize (IH Hs1). destruct (reify_loop fuel l1) as [ws l2]. destruct IH as (Hl2 & Hin & Hnd & Hsort & Hno & Hp).
      assert (forall x, x ∈ ws -> due l x /\ x <> w) as Hws by (intros x Hx; by apply Hr, Hin).
      split; [done|]. split; [intros x; rewrite elem_of_cons, Hin, Hr; destruct (decide (x = w)); [by subst; tauto|tauto]|].
      split; [constructor; [intros Hw; by apply Hws in Hw as [_ ?]|done]|]. split; [|split; [done|]].
      * constructor; [|apply Forall_forall; intros x Hx; apply Hf; by apply Hws].
        clear -Hsort Hws Hat. induction Hsort as [|x ws Hs IHs Hall]; constructor; [apply IHs; intros; apply Hws; by right|].
        rewrite Forall_forall in Hall |- *. intros y Hy. specialize (Hall y Hy).
        rewrite !Hat in Hall; [done|apply Hws; by right|apply Hws; by left].
      * intros x Hx. by apply Hpend, Hp.
    + split; [done|]. split; [intros w; split; [by intros ?%elem_of_nil|by intros ?%H1]|]. split; [constructor|]. split; [constructor|]. done.
Qed.

(** ** Pending and invocation *)

Lemma quiet_refl l : quiet l l.
Proof. done. Qed.

Lemma quiet_trans l1 l2 l3 : quiet l1 l2 -> quiet l2 l3 -> quiet l1 l3.
Proof.
  intros (A1 & B1 & C1 & D1) (A2 & B2 & C2 & D2). split; [congruence|]. split; [congruence|]. split; [congruence|].
  intros x. destruct (D1 x), (D2 x). split; congruence.
Qed.

Lemma quiet_due l l' w : quiet l l' -> due l' w <-> due l w.
Proof. intros (Eh & _ & En & Ew). unfold due. destruct (Ew w) as [-> _]. by rewrite Eh, En. Qed.

(** Watchers that are pending already keep their place. *)
Lemma feed_all ws l : loop_ok l ->
  let l' := fold_left (fun l w => ev_feed_event w l) ws l in
  loop_ok l' /\ quiet l l' /\
  exists new, sublist new ws /\ pendings l' = pendings l ++ (Some <$> new) /\ forall w, w ∈ ws -> w ∈ new \/ Some w ∈ pendings l.
Proof.
  revert l. induction ws as [|w ws IH]; intros l Hl; simpl.
  { split; [done|]. split; [apply quiet_refl|]. exists []. rewrite app_nil_r. split; [done|]. split; [done|]. by intros w ?%elem_of_nil. }
  destruct (feed_ok w l Hl) as [Hl1 Hq1]. destruct (IH (ev_feed_event w l) Hl1) as (Hl2 & Hq2 & new & Hsub & Ep & Hin).
  split; [done|]. split; [by eapply quiet_trans|]. destruct (lo_pending _ Hl) as [H0 Hp]. specialize (H0 w).
  destruct (decide (w_pending (wat l w) = 0)) as [Hz|Hnz].
  - assert (pendings (ev_feed_event w l) = pendings l ++ [Some w]) as E by (unfold ev_feed_event; by rewrite Hz). rewrite E in *.
    exists (w :: new). split; [by apply sublist_skip|]. split; [by rewrite Ep, <- app_assoc|].
    intros x [->|Hx]%elem_of_cons; [left; by left|]. destruct (Hin x Hx) as [?|[?|[= ->]%list_elem_of_singleton]%elem_of_app];
      [left; by right|by right|left; by left].
  - assert (ev_feed_event w l = l) as E by (unfold ev_feed_event; by rewrite (proj2 (Z.eqb_neq _ _))). rewrite E in *.
    exists new. split; [by apply sublist_cons|]. split; [done|]. intros x [->|Hx]%elem_of_cons; [|by apply Hin]. right.
    assert (zget (pendings l) (w_pending (wat l w) - 1) = Some (Some w)) as Hw by (apply Hp; unfold wat in *; lia).
    unfold zget in Hw. case_match; [done|]. by eapply list_elem_of_lookup_2.
Qed.

Lemma invoke_quiet l : quiet l (invoke_pending l).2.
Proof.
  unfold invoke_pending. destruct (last (pendings l)) as [[w|]|]; [|done..]. split; [done|]. split; [done|]. split; [done|].
  intros x. unfold wat. simpl. rewrite total_insert. case_decide; [by subst|done].
Qed.

(** ** The queue of calls *)

(** The watchers to call, in the order of the calls. *)
Definition calls (ps : list (option Z)) : list Z := omap (fun p => p) (reverse ps).

Lemma elem_of_calls w ps : w ∈ calls ps <-> Some w ∈ ps.
Proof.
  unfold calls. rewrite list_elem_of_omap. split; [intros (p & Hp & ->); by rewrite elem_of_reverse in Hp|].
  intros Hw. exists (Some w). by rewrite elem_of_reverse.
Qed.

Lemma calls_some (ws : list Z) : calls (Some <$> ws) = reverse ws.
Proof. unfold calls. rewrite <- fmap_reverse. induction (reverse ws) as [|w vs IH]; [done|]. simpl. by f_equal. Qed.

Lemma calls_app ps qs : calls (ps ++ qs) = calls qs ++ calls ps.
Proof. unfold calls. by rewrite reverse_app, omap_app. Qed.

Lemma calls_dropped f ps : calls (dropped f <$> ps) = filter (fun w => f w = false) (calls ps).
Proof.
  unfold calls. rewrite <- fmap_reverse. induction (reverse ps) as [|[w|] qs IH]; simpl; [done| |done].
  rewrite filter_cons. destruct (f w); simpl; [done|by f_equal].
Qed.

Lemma calls_nodup l : loop_ok l -> NoDup (calls (pendings l)).
Proof.
  intros Hl. destruct (lo_pending _ Hl) as [_ Hp].
  assert (forall i j w, pendings l !! i = Some (Some w) -> pendings l !! j = Some (Some w) -> i = j) as Huniq.
  { intros i j w Hi Hj. assert (zget (pendings l) (Z.of_nat i) = Some (Some w)) as [_ E1]%Hp by (unfold zget; rewrite (proj2 (Z.ltb_ge _ _)), Nat2Z.id by lia; done).
    assert (zget (pendings l) (Z.of_nat j) = Some (Some w)) as [_ E2]%Hp by (unfold zget; rewrite (proj2 (Z.ltb_ge _ _)), Nat2Z.id by lia; done). lia. }
  clear Hp Hl. induction (pendings l) as [|p ps IH]; [constructor|]. change (p :: ps) with ([p] ++ ps). rewrite calls_app.
  apply NoDup_app. split_and!.
  - apply IH. intros i j w Hi Hj. specialize (Huniq (S i) (S j) w Hi Hj). lia.
  - intros w (i & Hi)%elem_of_calls%list_elem_of_lookup Hw%elem_of_calls%list_elem_of_singleton. subst p. by specialize (Huniq 0%nat (S i) w eq_refl Hi).
  - destruct p; [apply NoDup_singleton|constructor].
Qed.

(** ** What callbacks do *)

Definition cancels (o : op) (w : Z) : bool := match o with Stop x | Again x => x =? w | _ => false end.
Definition restarts (o : op) (w : Z) : bool := match o with Start x | Again x => x =? w | _ => false end.
Definition cancelled (os : list op) (w : Z) : bool := existsb (fun o => cancels o w) os.
Definition restarted (os : list op) (w : Z) : bool := existsb (fun o => restarts o w) os.

Lemma dropped_twice f g (ps : list (option Z)) : dropped f <$> (dropped g <$> ps) = dropped (fun w => g w || f w) <$> ps.
Proof. rewrite <- list_fmap_compose. apply list_fmap_ext. intros i [w|] _; simpl; [|done]. by destruct (g w). Qed.

Lemma dropped_ext f g (ps : list (option Z)) : (forall w, f w = g w) -> dropped f <$> ps = dropped g <$> ps.
Proof. intros H. apply list_fmap_ext. intros i [w|] _; simpl; [|done]. by rewrite H. Qed.

Lemma act_pendings l o : loop_ok l -> pendings (act l o) = dropped (cancels o) <$> pendings l.
Proof.
  intros Hl. destruct o as [w t r|w|w|w|t| |]; simpl; try (by rewrite dropped_none).
  - rewrite dropped_none by done. by destruct (ev_is_active l w).
  - rewrite dropped_none by done. unfold ev_timer_start. by destruct (ev_is_active l w).
  - by apply stop_pendings.
  - unfold ev_timer_again. destruct (clear_pending_ok w l Hl) as [Hl1 _]. rewrite <- (clear_pending_pendings w l Hl : _ = dropped (cancels (Again w)) <$> _).
    set (l1 := clear_pending w l) in *. destruct (ev_is_active l1 w), (nonzero _); try done.
    + rewrite stop_pendings by done. unfold l1. rewrite clear_pending_pendings by done. rewrite dropped_twice. apply dropped_ext. intros x. by destruct (w =? x).
    + unfold ev_timer_start. by destruct (ev_is_active _ w).
Qed.

Lemma start_others w x l : loop_ok l -> x <> w -> due (ev_timer_start w l) x -> due l x.
Proof.
  intros Hl Hx. unfold ev_timer_start. destruct (ev_is_active l w) eqn:Ea; [done|].
  assert (~ running (timers l) w) as Hw by (rewrite <- is_active_spec; by rewrite Ea).
  set (t := ts_add _ _). destruct (set_at_ok w t l Hl Hw) as [Hc Hh _]. set (l1 := set_at w t l) in *.
  pose proof (insert_ok (cached (watchers l1)) (timercnt l1) (timers l1) w (w_at (wat l1 w)) Hh Hc Hw eq_refl) as Hi. cbv zeta in Hi.
  intros [Hrun Hlt]. apply (heap_running _ _ _ _ Hi) in Hrun as [?|Hrun]; [done|]. split; [done|].
  unfold wat in Hlt. simpl in Hlt. by rewrite total_insert, decide_False in Hlt.
Qed.

Lemma stop_others w x l : loop_ok l -> due (ev_timer_stop w l) x -> due l x.
Proof.
  intros Hl [Hrun Hlt]. destruct (stop_spec w l Hl) as [_ [Hr Hat Hnow]]. apply Hr in Hrun as [Hrun Hne].
  split; [done|]. by rewrite Hat, Hnow in Hlt.
Qed.

Lemma act_due l o w : loop_ok l -> due (act l o) w -> due l w \/ restarts o w = true.
Proof.
  intros Hl. destruct o as [x t r|x|x|x|t| |]; simpl; try (by left).
  - destruct (ev_is_active l x) eqn:Ea; [by left|]. intros [Hrun Hlt]. left. split; [done|]. unfold wat in Hlt. simpl in Hlt.
    rewrite total_insert, decide_False in Hlt; [done|]. intros ->. by rewrite (proj2 (is_active_spec l x) Hrun) in Ea.
  - destruct (Z.eqb_spec x w) as [|Hne]; [by right|]. left. by eapply start_others.
  - left. by eapply stop_others.
  - destruct (Z.eqb_spec x w) as [|Hne]; [by right|]. unfold ev_timer_again. destruct (clear_pending_ok x l Hl) as [Hl1 Hq].
    set (l1 := clear_pending x l) in *. intros Hd. left. apply (quiet_due _ _ _ Hq). revert Hd. destruct (ev_is_active l1 x) eqn:Ea.
    + destruct (nonzero _); [|by apply stop_others]. apply is_active_spec in Ea as Hr. intros [Hrun Hlt].
      set (t := ts_add _ _) in *. destruct (rekey_ok x t l1 (adjustheap (timercnt l1) (ev_active (timers l1) x) (rekey (ev_active (timers l1) x) t (timers l1))) Hl1 Hr) as [_ Hrun'];
        [apply adjustheap_ok|]. split; [by apply Hrun'|]. unfold wat in Hlt. simpl in Hlt. by rewrite total_insert, decide_False in Hlt by congruence.
    + destruct (nonzero _); [|done]. assert (~ running (timers l1) x) as Hnr by (rewrite <- is_active_spec; by rewrite Ea).
      intros Hd. apply start_others in Hd; [|by apply set_at_ok|congruence]. destruct Hd as [Hrun Hlt]. split; [done|].
      unfold wat in Hlt. simpl in Hlt. by rewrite total_insert, decide_False in Hlt by congruence.
Qed.

(** Whatever is pending, the loop stays in order. *)
Lemma reify_ok l : loop_ok l -> loop_ok (timers_reify l).2.
Proof.
  intros Hl. unfold timers_reify. pose proof (reify_loop_spec (size (active (timers l))) l Hl) as H.
  destruct (reify_loop _ l) as [ws l1]. destruct H as [Hl1 _]; [rewrite <- size_dom; apply subseteq_size; unfold due_set; set_solver|].
  simpl. generalize (reverse ws) as vs. intros vs. revert l1 Hl1. induction vs as [|v vs IH]; intros l1 Hl1; simpl; [done|].
  apply IH. by apply feed_ok.
Qed.

Lemma step_loop_ok l o : loop_ok l -> loop_ok (step l o).
Proof.
  intros Hl. destruct o as [w t r|w|w|w|t| |]; simpl.
  - destruct (ev_is_active l w) eqn:E; [done|]. apply timer_set_ok; [done|]. rewrite <- is_active_spec. by rewrite E.
  - by apply timer_start_ok.
  - by apply stop_spec.
  - by apply again_ok.
  - by destruct Hl.
  - by apply reify_ok.
  - by apply invoke_ok.
Qed.

(** A callback: which entries it turns into dummies, and which timers may be due after it. *)
Lemma acts_spec os l : loop_ok l ->
  let l' := fold_left act os l in
  loop_ok l' /\ pendings l' = dropped (cancelled os) <$> pendings l /\ forall w, due l' w -> due l w \/ restarted os w = true.
Proof.
  revert l. induction os as [|o os IH]; intros l Hl; simpl; [split; [done|]; split; [by rewrite dropped_none|auto]|].
  assert (loop_ok (act l o)) as Hl1 by (unfold act; destruct o; try done; by apply step_loop_ok).
  destruct (IH (act l o) Hl1) as (Hl2 & Ep & Hd). split; [done|]. split.
  - rewrite Ep, act_pendings by done. by rewrite dropped_twice.
  - intros w Hw. destruct (Hd w Hw) as [H|H]; [|right; by rewrite H, orb_true_r].
    destruct (act_due l o w Hl H) as [|E]; [by left|right; by rewrite E].
Qed.

(** A queue of watchers is served from its front; a callback takes the watchers that it stops or
    restarts out of what is left of it. *)
Inductive served : list Z -> list (Z * list op) -> Prop :=
| served_nil : served [] []
| served_call w q os tr : served (filter (fun x => cancelled os x = false) q) tr -> served (w :: q) ((w, os) :: tr).

Lemma served_sublist q tr : served q tr -> sublist tr.*1 q.
Proof. induction 1 as [|w q os tr _ IH]; [done|]. simpl. apply sublist_skip. etrans; [exact IH|apply sublist_filter]. Qed.

Lemma served_missing q tr w : served q tr -> w ∈ q -> w ∉ tr.*1 -> exists v os, (v, os) ∈ tr /\ cancelled os w = true.
Proof.
  induction 1 as [|v q os tr _ IH]; intros Hq Hn; [by apply elem_of_nil in Hq|]. simpl in Hn. apply not_elem_of_cons in Hn as [Hne Hn].
  apply elem_of_cons in Hq as [?|Hq]; [done|]. destruct (cancelled os w) eqn:E; [exists v, os; split; [by left|done]|].
  destruct IH as (v' & os' & Hin & Hc); [by apply list_elem_of_filter|done|]. exists v', os'. split; [by right|done].
Qed.

Lemma served_after q tr pre v os post w : served q tr -> tr = pre ++ (v, os) :: post -> cancelled os w = true -> w ∉ post.*1.
Proof.
  intros H. revert pre. induction H as [|x q os' tr Hs IH]; intros pre E Hc; [by destruct pre|].
  destruct pre as [|y pre]; injection E; [intros -> -> -> Hw|intros E' _; by apply (IH pre)].
  pose proof (served_sublist _ _ Hs) as Hsub. assert (w ∈ filter (fun x => cancelled os x = false) q) as [? _]%list_elem_of_filter
    by (by eapply elem_of_sublist). congruence.
Qed.

Lemma invoke_all_spec cb fuel l : loop_ok l -> length (pendings l) = fuel ->
  let '(fired, l') := invoke_all cb fuel l in
  loop_ok l' /\ served (calls (pendings l)) fired /\
  forall w, due l' w -> due l w \/ exists v os, (v, os) ∈ fired /\ restarted os w = true.
Proof.
  revert l. induction fuel as [|fuel IH]; intros l Hl Hlen; simpl.
  { apply nil_length_inv in Hlen. rewrite Hlen. split; [done|]. split; [constructor|auto]. }
  pose proof (invoke_ok l Hl) as Hl1. pose proof (invoke_quiet l) as Hq1. destruct (invoke_pending l) as [[p|] l1] eqn:E; simpl in *.
  2:{ unfold invoke_pending in E. destruct (last (pendings l)) eqn:El; [done|]. apply last_None in El. by rewrite El in Hlen. }
  unfold invoke_pending in E. destruct (last (pendings l)) as [q|] eqn:El; [|done]. injection E as -> E. apply removelast_last in El.
  assert (pendings l1 = removelast (pendings l)) as Ep by (subst l1; by destruct p). rewrite <- Ep in El.
  assert (length (pendings l1) = fuel) as Hlen1 by (rewrite El, length_app in Hlen; simpl in Hlen; lia).
  assert (calls (pendings l) = (if p is Some w then [w] else []) ++ calls (pendings l1)) as Ec by (rewrite El, calls_app; by destruct p).
  rewrite Ec. destruct p as [w|].
  - destruct (acts_spec (cb w l1) l1 Hl1) as (Hl2 & Ep2 & Hd2). set (l2 := fold_left act _ l1) in *.
    specialize (IH l2 Hl2). rewrite Ep2, length_fmap in IH. specialize (IH Hlen1). destruct (invoke_all cb fuel l2) as [fired l3].
    destruct IH as (Hl3 & Hs & Hd). split; [done|]. split; [constructor; by rewrite <- calls_dropped|].
    intros x Hx. destruct (Hd x Hx) as [H|(v & os & Hin & Hr)]; [|right; exists v, os; split; [by right|done]].
    destruct (Hd2 x H) as [H'|Hr]; [left; by apply (quiet_due _ _ _ Hq1)|right; exists w, (cb w l1); split; [by left|done]].
  - specialize (IH l1 Hl1 Hlen1). destruct (invoke_all cb fuel l1) as [fired l3]. destruct IH as (Hl3 & Hs & Hd). split; [done|]. split; [done|].
    intros x Hx. destruct (Hd x Hx) as [H|]; [left; by apply (quiet_due _ _ _ Hq1)|by right].
Qed.

Lemma StronglySorted_sublist {A} (R : A -> A -> Prop) (l k : list A) : sublist l k -> StronglySorted R k -> StronglySorted R l.
Proof.
  induction 1 as [|x l k Hsub IH|x l k Hsub IH]; intros Hs; [done| |]; apply StronglySorted_inv in Hs as [Hs Hall]; [|by apply IH].
  constructor; [by apply IH|]. rewrite Forall_forall in Hall |- *. intros y Hy. apply Hall. by eapply elem_of_sublist.
Qed.

Lemma sublist_rev {A} (l k : list A) : sublist l k -> sublist (reverse l) (reverse k).
Proof.
  induction 1 as [|x l k Hsub IH|x l k Hsub IH]; [done| |]; rewrite ?reverse_cons; [by apply sublist_app|].
  etrans; [exact IH|]. by apply sublist_inserts_r.
Qed.

(** The queue after the timers were checked: timers that are due, the earliest first, then what
    was pending before. *)
Lemma reify_queue l : loop_ok l ->
  let l' := (timers_reify l).2 in
  loop_ok l' /\ (forall w, ~ due l' w) /\
  exists new old, calls (pendings l') = new ++ old /\ StronglySorted (fun x y => w_at (wat l x) ⪯ w_at (wat l y)) new /\
    (forall w, w ∈ new -> due l w) /\ (forall w, w ∈ old -> Some w ∈ pendings l) /\ (forall w, due l w -> w ∈ new ++ old).
Proof.
  intros Hl. pose proof (reify_ok l Hl) as Hok. revert Hok. unfold timers_reify. pose proof (reify_loop_spec (size (active (timers l))) l Hl) as H.
  destruct (reify_loop _ l) as [ws l1]. destruct H as (Hl1 & Hin & Hnd & Hs & Hno & Hp).
  { rewrite <- size_dom. apply subseteq_size. unfold due_set. set_solver. }
  simpl. intros Hok. destruct (feed_all (reverse ws) l1 Hl1) as (_ & Hq & new & Hsub & Ep & Hfed).
  split; [done|]. split; [intros w Hw; apply (Hno w); by apply (quiet_due _ _ _ Hq)|].
  assert (sublist (reverse new) ws) as Hsub' by (rewrite <- (reverse_involutive ws); by apply sublist_rev).
  exists (reverse new), (calls (pendings l1)). split_and!.
  - by rewrite Ep, calls_app, calls_some.
  - by apply (StronglySorted_sublist _ _ ws).
  - intros w Hw. apply Hin. by eapply elem_of_sublist.
  - intros w Hw%elem_of_calls. by apply Hp.
  - intros w Hw%Hin. apply elem_of_app. destruct (Hfed w) as [?|?]; [by apply elem_of_reverse|left; by apply elem_of_reverse|right; by apply elem_of_calls].
Qed.

Lemma run_timers_ok now ops : loop_ok (run now ops).
Proof.
  unfold run. assert (loop_ok (new_loop now)) as H.
  { split; [done| |].
    - split; simpl; try done; try (intros; heaplia).
    - split; [done|]. intros i w. unfold zget. split; [by case_match|]. intros [? E]. change (0 = i + 1) in E. lia. }
  revert H. generalize (new_loop now). induction ops as [|o ops IH]; intros l Hl; [done|]. apply IH. by apply step_loop_ok.
Qed.

Lemma loop_verified l : loop_ok l -> verify_heap l = true.
Proof.
  intros Hl. unfold verify_heap. apply forallb_forall. intros n Hn%in_seq. pose proof (lo_heap _ Hl) as Hh.
  set (i := HEAP0 + Z.of_nat n). assert (in_heap (timercnt l) i) as Hi by (unfold i; heaplia). unfold verify_entry.
  rewrite (hp_active _ _ _ _ _ Hh i Hi), Z.eqb_refl. rewrite (hp_entries _ _ _ _ _ Hh i Hi : at_ (timers l) i = w_at (wat l (cell (timers l) i).2)).
  rewrite ts_le_refl. simpl. apply andb_true_iff. split; [apply andb_true_iff; split; [|done]|].
  - destruct (Z.eqb_spec i HEAP0) as [|Hne]; [done|]. simpl. rewrite <- (hp_entries _ _ _ _ _ Hh i Hi).
    apply (hp_order _ _ _ _ _ Hh). heaplia.
  - unfold verify_watcher. destruct (Z.eqb_spec (w_pending (wat l (cell (timers l) i).2)) 0) as [|Hnz]; [done|]. simpl.
    apply bool_decide_eq_true. destruct (lo_pending _ Hl) as [H0 Hp]. apply Hp. specialize (H0 (cell (timers l) i).2). unfold wat in Hnz |- *. lia.
Qed.

End Timers.

(** C16: The checks of libev on its timer heap hold after any sequence of operations: every watcher
    knows its place, parents are not later than children, cached timestamps are those of the
    watchers, and pending watchers are in the queue. *)
Theorem timer_heap_verified {T : Type} `{!Timestamp T} (now : T) (ops : list op) : verify_heap (run now ops) = true.
Proof. apply loop_verified, run_timers_ok. Qed.

(** C11: When the loop checks its timers and then invokes what is pending, whatever was pending
    before and whatever timers the callbacks set, start, stop and restart: the timers that are due
    are queued, those that were not pending before in front and the earliest first; watchers are
    called in the order of the queue, each at most once; one that is not called was stopped or
    restarted by a callback of the round; one that a callback stopped or restarted is not called
    after it; and a timer that is due after the round was started or restarted by a callback. *)
Theorem timers_fire_in_order {T : Type} `{!Timestamp T} (now : T) (ops : list op) (cb : Z -> loop -> list op) :
  let l := run now ops in
  let l1 := (timers_reify l).2 in
  let '(fired, l2) := ev_invoke_pending cb l1 in
  (exists new old, calls (pendings l1) = new ++ old /\ StronglySorted (fun x y => ts_le (w_at (wat l x)) (w_at (wat l y)) = true) new /\
     (forall w, w ∈ new -> due l w) /\ (forall w, w ∈ old -> Some w ∈ pendings l) /\ (forall w, due l w -> w ∈ new ++ old)) /\
  NoDup (calls (pendings l1)) /\ sublist fired.*1 (calls (pendings l1)) /\
  (forall w, w ∈ calls (pendings l1) -> w ∉ fired.*1 -> exists v os, (v, os) ∈ fired /\ cancelled os w = true) /\
  (forall pre v os post w, fired = pre ++ (v, os) :: post -> cancelled os w = true -> w ∉ post.*1) /\
  (forall w, due l2 w -> exists v os, (v, os) ∈ fired /\ restarted os w = true).
Proof.
  intros l l1. destruct (reify_queue l (run_timers_ok now ops)) as (Hl1 & Hno & Hq). fold l1 in Hl1, Hno, Hq.
  pose proof (invoke_all_spec cb (length (pendings l1)) l1 Hl1 eq_refl) as H. unfold ev_invoke_pending.
  destruct (invoke_all cb _ l1) as [fired l2]. destruct H as (_ & Hs & Hd). split_and!.
  - exact Hq.
  - by apply calls_nodup.
  - by apply served_sublist.
  - intros w. by apply served_missing.
  - intros pre v os post w. by apply (served_after _ _ pre v os post w Hs).
  - intros w Hw. destruct (Hd w Hw) as [H|H]; [by destruct (Hno w)|done].
Qed.

Definition five_timers : list (op (T := Z)) :=
  [Set_ 1 50 0; Start 1; Set_ 2 20 5; Start 2; Set_ 3 40 0; Start 3; Set_ 4 10 0; Start 4; Set_ 5 30 0; Start 5; Stop 3; Now 145].

(** Three timers are due; the callback of the first may stop the last. *)
Lemma timers_fire_in_order_witness :
  (ev_invoke_pending (fun _ _ => []) (timers_reify (run 100 five_timers)).2).1.*1 = [4; 2; 5] /\
  (ev_invoke_pending (fun w _ => if w =? 4 then [Stop 5] else []) (timers_reify (run 100 five_timers)).2).1.*1 = [4; 2] /\
  NoDup (calls (pendings (timers_reify (run 100 five_timers)).2)).
Proof.
  split; [vm_compute; reflexivity|]. split; [vm_compute; reflexivity|].
  pose proof (timers_fire_in_order 100 five_timers (fun _ _ => [])) as H. cbv zeta in H.
  destruct (ev_invoke_pending _ _) as [fired l2]. destruct H as (_ & H & _). exact H.
Defined.
