(* ===== verification/EvIo.v ===== *)
(** * Descriptors of the event loop: ev/ev.c and ev/ev_epoll.c

    The watchers of file descriptors, the list of descriptors that changed, and the epoll back end
    that keeps the kernel's interest list in step with the watchers. The kernel is modelled by what
    epoll documents: an interest list, and the errors of adding what is there, changing what is not,
    and using a descriptor that is closed or cannot be polled. A descriptor is not duplicated, so an
    entry of the interest list goes when its number is closed. All watchers have one priority; the
    singly linked list of the watchers of a descriptor is a list. *)

From S2P Require Import Prelude.

Definition EV_READ : Z := 1.
Definition EV_WRITE : Z := 2.
Definition EV__IOFDSET : Z := 128.
Definition EV_ANFD_REIFY : Z := 1.
Definition EV_ERROR : Z := 2 ^ 31.
Definition EV_EMASK_EPERM : Z := 128.

(** [ev_io]; the ghost [io_gen] is the use of the descriptor number that [ev_io_set] was for. *)
Record ev_io := EvIo { io_fd : Z; io_events : Z; io_active : bool; io_pending : Z; io_gen : Z }.

#[global] Instance ev_io_inhabited : Inhabited ev_io := populate (EvIo 0 0 false 0 0).

(** [ANFD]. *)
Record anfd := Anfd { head : list Z; events : Z; reify : Z; emask : Z; egen : Z }.

Definition anfd0 : anfd := Anfd [] 0 0 0 0.

(** The kernel: the open descriptors, with whether they can be polled, and the interest list with the
    mask and the generation counter that was stored with it. *)
Record kernel := Kernel { opened : gmap Z bool; interest : gmap Z (Z * Z) }.

Record loop := Loop {
  anfds : list anfd;
  fdchanges : list Z;
  watchers : gmap Z ev_io;
  activecnt : Z;
  pendings : list (option Z * Z);
  epoll_eperms : list Z;
  postfork : Z;
  kern : kernel;
  (** Ghost: how often a descriptor number has been closed. *)
  closes : gmap Z Z
}.

Definition wat (l : loop) (w : Z) : ev_io := watchers l !!! w.
Definition fd_at (l : loop) (fd : Z) : anfd := default anfd0 (zget (anfds l) fd).

Definition set_watcher (w : Z) (x : ev_io) (l : loop) : loop :=
  Loop (anfds l) (fdchanges l) (<[w := x]> (watchers l)) (activecnt l) (pendings l) (epoll_eperms l) (postfork l) (kern l) (closes l).
Definition set_anfd (fd : Z) (a : anfd) (l : loop) : loop :=
  Loop (zput (anfds l) fd a) (fdchanges l) (watchers l) (activecnt l) (pendings l) (epoll_eperms l) (postfork l) (kern l) (closes l).
Definition set_changes (c : list Z) (l : loop) : loop :=
  Loop (anfds l) c (watchers l) (activecnt l) (pendings l) (epoll_eperms l) (postfork l) (kern l) (closes l).
Definition set_pendings (p : list (option Z * Z)) (l : loop) : loop :=
  Loop (anfds l) (fdchanges l) (watchers l) (activecnt l) p (epoll_eperms l) (postfork l) (kern l) (closes l).
Definition set_kernel (k : kernel) (l : loop) : loop :=
  Loop (anfds l) (fdchanges l) (watchers l) (activecnt l) (pendings l) (epoll_eperms l) (postfork l) k (closes l).
Definition set_eperms (e : list Z) (l : loop) : loop :=
  Loop (anfds l) (fdchanges l) (watchers l) (activecnt l) (pendings l) e (postfork l) (kern l) (closes l).
Definition set_postfork (p : Z) (l : loop) : loop :=
  Loop (anfds l) (fdchanges l) (watchers l) (activecnt l) (pendings l) (epoll_eperms l) p (kern l) (closes l).

(** ** Growth of the arrays *)

Definition MALLOC_ROUND : Z := 4096.
Definition INT_MAX : Z := 2 ^ 31 - 1.

Fixpoint double_until (fuel : nat) (cnt ncur : Z) : option Z :=
  match fuel with
  | O => None
  | S fuel => let ncur := u64 (Z.shiftl ncur 1) in if ncur <? cnt then double_until fuel cnt ncur else Some ncur
  end.

(** [array_nextsize]; [None] is a loop that has not ended. *)
Definition array_nextsize (elem cur cnt : Z) : option Z :=
  ncur ← double_until 64 cnt (cur +s 1);
  let ncur := if MALLOC_ROUND - 32 <? elem *s ncur then
                let nbytes := Z.land (u64 (elem *s ncur + elem + (MALLOC_ROUND - 1) + 32)) (Z.lnot (MALLOC_ROUND - 1)) in
                Z.quot (nbytes -s 32) elem
              else ncur in
  Some (if INT_MAX <? ncur then INT_MAX else ncur).

(** ** Pending watchers *)

Definition ev_feed_event (w revents : Z) (l : loop) : loop :=
  let x := wat l w in
  if negb (io_pending x =? 0) then
    match zget (pendings l) (io_pending x - 1) with
    | Some (p, e) => set_pendings (zput (pendings l) (io_pending x - 1) (p, Z.lor e revents)) l
    | None => l
    end
  else
    set_pendings (pendings l ++ [(Some w, revents)])
      (set_watcher w (EvIo (io_fd x) (io_events x) (io_active x) (zlen (pendings l) + 1) (io_gen x)) l).

Definition clear_pending (w : Z) (l : loop) : loop :=
  let x := wat l w in
  if io_pending x =? 0 then l else
  let l := match zget (pendings l) (io_pending x - 1) with
           | Some (_, e) => set_pendings (zput (pendings l) (io_pending x - 1) (None, e)) l
           | None => l
           end in
  set_watcher w (EvIo (io_fd x) (io_events x) (io_active x) 0 (io_gen x)) l.

(** ** Descriptors *)

Definition fd_event_nocheck (fd revents : Z) (l : loop) : loop :=
  fold_left (fun l w => let ev := Z.land (io_events (wat l w)) revents in if ev =? 0 then l else ev_feed_event w ev l) (head (fd_at l fd)) l.

Definition fd_event (fd revents : Z) (l : loop) : loop :=
  if reify (fd_at l fd) =? 0 then fd_event_nocheck fd revents l else l.

Definition ev_feed_fd_event (fd revents : Z) (l : loop) : loop :=
  if (0 <=? fd) && (fd <? zlen (anfds l)) then fd_event_nocheck fd revents l else l.

Definition fd_change (fd flags : Z) (l : loop) : loop :=
  let a := fd_at l fd in
  let l1 := set_anfd fd (Anfd (head a) (events a) (Z.lor (reify a) flags) (emask a) (egen a)) l in
  if reify a =? 0 then set_changes (fdchanges l1 ++ [fd]) l1 else l1.

(** [wlist_add], [wlist_del]. *)
Definition wlist_add (w : Z) (ws : list Z) : list Z := w :: ws.
Fixpoint wlist_del (w : Z) (ws : list Z) : list Z :=
  match ws with
  | [] => []
  | x :: ws => if x =? w then ws else x :: wlist_del w ws
  end.

(** [ev_start] and [ev_stop]. *)
Definition ev_start (w : Z) (l : loop) : loop :=
  let x := wat l w in
  let l := set_watcher w (EvIo (io_fd x) (io_events x) true (io_pending x) (io_gen x)) l in
  Loop (anfds l) (fdchanges l) (watchers l) (activecnt l + 1) (pendings l) (epoll_eperms l) (postfork l) (kern l) (closes l).
Definition ev_stop (w : Z) (l : loop) : loop :=
  let x := wat l w in
  let l := set_watcher w (EvIo (io_fd x) (io_events x) false (io_pending x) (io_gen x)) l in
  Loop (anfds l) (fdchanges l) (watchers l) (activecnt l - 1) (pendings l) (epoll_eperms l) (postfork l) (kern l) (closes l).

Definition SIZEOF_ANFD : Z := 16.

(** [array_needsize] of [anfds], zero-filled. *)
Definition needsize (n : Z) (l : loop) : loop :=
  if zlen (anfds l) <? n then
    match array_nextsize SIZEOF_ANFD (zlen (anfds l)) n with
    | Some m => Loop (anfds l ++ zrepeat anfd0 (m - zlen (anfds l))) (fdchanges l) (watchers l) (activecnt l) (pendings l)
                  (epoll_eperms l) (postfork l) (kern l) (closes l)
    | None => l
    end
  else l.

Definition ev_io_set (w fd evs : Z) (l : loop) : loop :=
  let x := wat l w in
  set_watcher w (EvIo fd (Z.lor evs EV__IOFDSET) (io_active x) (io_pending x) (default 0 (closes l !! fd))) l.

Definition ev_io_start (w : Z) (l : loop) : loop :=
  let fd := io_fd (wat l w) in
  if io_active (wat l w) then l else
  let l := ev_start w l in
  let l := needsize (fd + 1) l in
  let a := fd_at l fd in
  let l := set_anfd fd (Anfd (wlist_add w (head a)) (events a) (reify a) (emask a) (egen a)) l in
  let x := wat l w in
  let l := fd_change fd (Z.lor (Z.land (io_events x) EV__IOFDSET) EV_ANFD_REIFY) l in
  set_watcher w (EvIo (io_fd x) (Z.ldiff (io_events x) EV__IOFDSET) (io_active x) (io_pending x) (io_gen x)) l.

Definition ev_io_stop (w : Z) (l : loop) : loop :=
  let l := clear_pending w l in
  if negb (io_active (wat l w)) then l else
  let fd := io_fd (wat l w) in
  let a := fd_at l fd in
  let l := set_anfd fd (Anfd (wlist_del w (head a)) (events a) (reify a) (emask a) (egen a)) l in
  fd_change fd EV_ANFD_REIFY (ev_stop w l).

Definition ev_io_modify (w evs : Z) (l : loop) : loop :=
  let x := wat l w in
  let evs := Z.land evs (Z.lor EV_READ EV_WRITE) in
  let nev := Z.lor (Z.land (io_events x) EV__IOFDSET) evs in
  if io_events x =? nev then l else
  let l := set_watcher w (EvIo (io_fd x) nev (io_active x) (io_pending x) (io_gen x)) l in
  if io_active x then fd_change (io_fd x) 0 l else l.

(** [fd_kill]: every watcher of the descriptor is stopped and told. *)
Fixpoint fd_kill_loop (fuel : nat) (fd : Z) (l : loop) : loop :=
  match fuel with
  | O => l
  | S fuel =>
      match head (fd_at l fd) with
      | [] => l
      | w :: _ => fd_kill_loop fuel fd (ev_feed_event w (Z.lor EV_ERROR (Z.lor EV_READ EV_WRITE)) (ev_io_stop w l))
      end
  end.
Definition fd_kill (fd : Z) (l : loop) : loop := fd_kill_loop (length (head (fd_at l fd))) fd l.

(** ** The epoll back end *)

Inductive errno := OK | ENOENT | EEXIST | EPERM | EBADF.
Inductive ctl := CTL_ADD | CTL_MOD | CTL_DEL.

Definition epoll_ctl (op : ctl) (fd mask gen : Z) (k : kernel) : kernel * errno :=
  match opened k !! fd with
  | None => (k, EBADF)
  | Some false => (k, EPERM)
  | Some true =>
      match op, interest k !! fd with
      | CTL_ADD, Some _ => (k, EEXIST)
      | CTL_ADD, None => (Kernel (opened k) (<[fd := (mask, gen)]> (interest k)), OK)
      | CTL_MOD, Some _ => (Kernel (opened k) (<[fd := (mask, gen)]> (interest k)), OK)
      | CTL_DEL, Some _ => (Kernel (opened k) (delete fd (interest k)), OK)
      | _, None => (k, ENOENT)
      end
  end.

(** [epoll_modify]. A mask is kept in libev's bits: [EPOLLIN] and [EPOLLRDHUP] go with [EV_READ],
    [EPOLLOUT] with [EV_WRITE]. *)
Definition epoll_modify (fd oev nev : Z) (l : loop) : loop :=
  if nev =? 0 then l else
  let a := fd_at l fd in
  let oldmask := emask a in
  let gen := u32 (egen a + 1) in
  let with_emask m g l := set_anfd fd (Anfd (head (fd_at l fd)) (events (fd_at l fd)) (reify (fd_at l fd)) m g) l in
  let l := with_emask nev gen l in
  let dec_egen l := with_emask (emask (fd_at l fd)) (u32 (egen (fd_at l fd) - 1)) l in
  let op := if negb (oev =? 0) && negb (oldmask =? nev) then CTL_MOD else CTL_ADD in
  let '(k, e) := epoll_ctl op fd nev gen (kern l) in
  match e with
  | OK => set_kernel k l
  | ENOENT =>
      let '(k, e) := epoll_ctl CTL_ADD fd nev gen (kern l) in
      match e with OK => set_kernel k l | _ => dec_egen (fd_kill fd l) end
  | EEXIST =>
      if oldmask =? nev then dec_egen l else
      let '(k, e) := epoll_ctl CTL_MOD fd nev gen (kern l) in
      match e with OK => set_kernel k l | _ => dec_egen (fd_kill fd l) end
  | EPERM =>
      let l := with_emask EV_EMASK_EPERM gen l in
      if Z.land oldmask EV_EMASK_EPERM =? 0 then set_eperms (epoll_eperms l ++ [fd]) l else l
  | EBADF => dec_egen (fd_kill fd l)
  end.

(** The union of the masks of the watchers in a list. *)
Definition wanted (l : loop) (ws : list Z) : Z := fold_left (fun m w => Z.lor m (io_events (wat l w))) ws 0.

(** One round of [fd_reify]. *)
Definition reify_fd (l : loop) (fd : Z) : loop :=
  let a := fd_at l fd in
  let nev := wanted l (head a) in
  let o_reify := if events a =? nev then reify a else EV__IOFDSET in
  let l := set_anfd fd (Anfd (head a) nev 0 (emask a) (egen a)) l in
  if Z.land o_reify EV__IOFDSET =? 0 then l else epoll_modify fd (events a) nev l.

Definition fd_reify (l : loop) : loop :=
  let changecnt := length (fdchanges l) in
  let l := fold_left reify_fd (fdchanges l) l in
  set_changes (drop changecnt (fdchanges l)) l.

(** One event of [epoll_poll]: the descriptor and the generation that were stored, and what is ready,
    in libev's bits. *)
Definition poll_event (l : loop) (ev : Z * Z * Z) : loop :=
  let '(fd, gen, got) := ev in
  if (fd <? 0) || (zlen (anfds l) <=? fd) then l else
  let a := fd_at l fd in
  let want := events a in
  if negb (egen a =? gen) then set_postfork (Z.lor (postfork l) 2) l else
  if Z.ldiff got want =? 0 then fd_event fd got l else
  let l := set_anfd fd (Anfd (head a) want (reify a) want (egen a)) l in
  let '(k, e) := epoll_ctl (if want =? 0 then CTL_DEL else CTL_MOD) fd want gen (kern l) in
  match e with
  | OK => fd_event fd got (set_kernel k l)
  | _ => set_postfork (Z.lor (postfork l) 2) l
  end.

(** The descriptors that cannot be polled, from the last; one that is no longer wanted is replaced by
    the last of the list. *)
Fixpoint poll_eperms (i : nat) (l : loop) : loop :=
  match i with
  | O => l
  | S i =>
      match epoll_eperms l !! i with
      | None => l
      | Some fd =>
          let a := fd_at l fd in
          let evs := Z.land (events a) (Z.lor EV_READ EV_WRITE) in
          poll_eperms i
            (if negb (Z.land (emask a) EV_EMASK_EPERM =? 0) && negb (evs =? 0) then fd_event fd evs l else
             let eperms := match last (epoll_eperms l) with
                           | Some z => removelast (<[i := z]> (epoll_eperms l))
                           | None => []
                           end in
             set_anfd fd (Anfd (head a) (events a) (reify a) 0 (egen a)) (set_eperms eperms l))
      end
  end.

Definition epoll_poll (evs : list (Z * Z * Z)) (l : loop) : loop :=
  let l := fold_left poll_event evs l in poll_eperms (length (epoll_eperms l)) l.

(** [fd_rearm_all], after [epoll_fork] has made a new interest list. *)
Definition rearm_fd (l : loop) (fd : Z) : loop :=
  let a := fd_at l fd in
  if events a =? 0 then l else
  fd_change fd (Z.lor EV__IOFDSET EV_ANFD_REIFY) (set_anfd fd (Anfd (head a) 0 (reify a) 0 (egen a)) l).

Definition epoll_fork (l : loop) : loop :=
  fold_left rearm_fd (seqZ 0 (zlen (anfds l))) (set_kernel (Kernel (opened (kern l)) ∅) l).

(** ** The checks of [ev_verify] on descriptors *)

Definition verify_watcher (l : loop) (w : Z) : bool :=
  (io_pending (wat l w) =? 0) || bool_decide ((fst <$> zget (pendings l) (io_pending (wat l w) - 1)) = Some (Some w)).

(** The walk over the watchers of [anfds[i]]; [w2s] is what the slow pointer has before it. *)
Fixpoint verify_list (l : loop) (i : Z) (odd : bool) (ws w2s : list Z) : bool :=
  match ws with
  | [] => true
  | w :: ws =>
      verify_watcher l w
      && (if odd then match w2s with [] => false | w2 :: _ => negb (w =? w2) end else true)
      && io_active (wat l w) && (io_fd (wat l w) =? i)
      && verify_list l i (negb odd) ws (if odd then tail w2s else w2s)
  end.

Definition verify_fds (l : loop) : bool :=
  forallb (fun fd => 0 <=? fd) (fdchanges l)
  && forallb (fun i => verify_list l i false (head (fd_at l i)) (head (fd_at l i))) (seqZ 0 (zlen (anfds l))).

(** ** Executions *)

Definition new_loop : loop := Loop [] [] ∅ 0 [] [] 0 (Kernel ∅ ∅) ∅.

(** One turn of the loop of [ev_invoke_pending]. *)
Definition invoke_pending (l : loop) : loop :=
  match last (pendings l) with
  | None => l
  | Some (p, _) =>
      let l := set_pendings (removelast (pendings l)) l in
      match p with
      | Some w => let x := wat l w in set_watcher w (EvIo (io_fd x) (io_events x) (io_active x) 0 (io_gen x)) l
      | None => l
      end
  end.

Inductive op :=
  | Set_ (w fd evs : Z) | Start (w : Z) | Stop (w : Z) | Modify (w evs : Z)
  | OpenFd (fd : Z) (pollable : bool) | CloseFd (fd : Z) | Reify | Poll (evs : list (Z * Z)) | Eperms | Invoke | Fork.

(** The kernel reports descriptors of its interest list, with the generation stored there. *)
Definition poll_reported (l : loop) (ev : Z * Z) : loop :=
  match interest (kern l) !! ev.1 with
  | Some (_, gen) => poll_event l (ev.1, gen, ev.2)
  | None => l
  end.

(** libev is used as its manual asks: a watcher is set up while it is not active, for a descriptor that
    is open and that has not been closed since, and a descriptor is closed when no watcher is active
    on it. *)
Definition step (l : loop) (o : op) : loop :=
  match o with
  | Set_ w fd evs => if negb (io_active (wat l w)) && (0 <=? fd) && (fd <? INT_MAX) then ev_io_set w fd (Z.land evs (Z.lor EV_READ EV_WRITE)) l else l
  | Start w =>
      let fd := io_fd (wat l w) in
      if bool_decide (is_Some (opened (kern l) !! fd)) && (io_gen (wat l w) =? default 0 (closes l !! fd)) then ev_io_start w l else l
  | Stop w => ev_io_stop w l
  | Modify w evs => ev_io_modify w evs l
  | OpenFd fd b =>
      if bool_decide (opened (kern l) !! fd = None) then set_kernel (Kernel (<[fd := b]> (opened (kern l))) (interest (kern l))) l else l
  | CloseFd fd =>
      if bool_decide (head (fd_at l fd) = []) then
        let l := set_kernel (Kernel (delete fd (opened (kern l))) (delete fd (interest (kern l)))) l in
        Loop (anfds l) (fdchanges l) (watchers l) (activecnt l) (pendings l) (epoll_eperms l) (postfork l) (kern l)
          (<[fd := default 0 (closes l !! fd) + 1]> (closes l))
      else l
  | Reify => fd_reify l
  | Poll evs => fold_left poll_reported evs l
  | Eperms => poll_eperms (length (epoll_eperms l)) l
  | Invoke => invoke_pending l
  | Fork => epoll_fork l
  end.

Definition run (ops : list op) : loop := fold_left step ops new_loop.
