(* ===== verification/EvIoProps.v ===== *)
(** * Properties of the descriptors of the event loop (EvIo.v)

    The invariant of the watchers, the changed descriptors and the kernel's interest list under every
    operation, and what a round of the loop then delivers. *)

From S2P Require Import Prelude EvIo.

Open Scope size_scope.

(** ** Growth of the arrays *)

Lemma double_until_ends fuel cnt n :
  1 <= n < 2 ^ 32 -> cnt <= INT_MAX -> cnt <= 2 ^ Z.of_nat fuel * n -> (0 < fuel)%nat ->
  exists m, double_until fuel cnt n = Some m /\ cnt <= m /\ 2 * n <= m <= Z.max (2 * n) (2 * cnt).
Proof.
  revert n. induction fuel as [|fuel IH]; intros n Hn Hc He Hf; [lia|]. cbn [double_until].
  assert (Hs : u64 (Z.shiftl n 1) = 2 * n).
  { rewrite Z.shiftl_mul_pow2 by lia. unfold INT_MAX in *. unfold u64. rewrite Z.mod_small; lia. }
  rewrite Hs. destruct (Z.ltb_spec (2 * n) cnt) as [Hlt|Hge].
  - rewrite Nat2Z.inj_succ, Z.pow_succ_r in He by lia.
    destruct (IH (2 * n)) as (m & -> & ? & ?); unfold INT_MAX in *; try lia.
    + destruct fuel; [simpl in He; lia|lia].
    + exists m. split; [done|]. lia.
  - exists (2 * n). split; [done|]. lia.
Qed.

Lemma round_up_ge x : 0 <= x -> x <= Z.land (x + (MALLOC_ROUND - 1)) (Z.lnot (MALLOC_ROUND - 1)) <= x + (MALLOC_ROUND - 1).
Proof.
  intros Hx. rewrite <- Z.ldiff_land.
  change (MALLOC_ROUND - 1) with (Z.ones 12) at 2 4. rewrite Z.ldiff_ones_r by lia.
  rewrite Z.shiftr_div_pow2, Z.shiftl_mul_pow2 by lia. unfold MALLOC_ROUND.
  pose proof (Z.div_mod (x + (4096 - 1)) (2 ^ 12) ltac:(lia)).
  pose proof (Z.mod_pos_bound (x + (4096 - 1)) (2 ^ 12) ltac:(lia)). lia.
Qed.

(** [array_nextsize] ends, and the new size holds what was asked for and is at least twice the old
    one, or is the largest [int]. *)
Theorem array_nextsize_grows elem cur cnt :
  1 <= elem <= 2 ^ 16 -> 0 <= cur <= INT_MAX -> 0 <= cnt <= INT_MAX ->
  exists m, array_nextsize elem cur cnt = Some m /\ cnt <= m <= INT_MAX /\ Z.min (2 * cur) INT_MAX <= m.
Proof.
  intros He Hc Hn. unfold array_nextsize. unfold INT_MAX in *.
  assert (Hu : u64 (cur + 1) = cur + 1) by (unfold u64; rewrite Z.mod_small; lia). rewrite Hu.
  destruct (double_until_ends 64 cnt (cur + 1)) as (m & -> & Hm & Hm2); unfold INT_MAX; try lia.
  cbn [mbind option_bind].
  assert (Hp : elem *s m = elem * m) by (unfold u64; rewrite Z.mod_small; nia).
  rewrite Hp. set (r := if MALLOC_ROUND - 32 <? _ then _ else _).
  assert (m <= r) as Hr.
  { subst r. zcase; [|lia].
    assert (0 <= elem * m + elem + 32 <= 2 ^ 52) as Hb by nia.
    pose proof (round_up_ge (elem * m + elem + 32) ltac:(lia)) as Hg. unfold MALLOC_ROUND in *.
    replace (elem * m + elem + (4096 - 1) + 32) with (elem * m + elem + 32 + (4096 - 1)) by lia.
    replace (u64 (elem * m + elem + 32 + (4096 - 1))) with (elem * m + elem + 32 + (4096 - 1)) by (unfold u64; rewrite Z.mod_small; lia).
    set (z := Z.land _ _) in *. unfold u64. rewrite Z.mod_small by lia.
    rewrite Z.quot_div_nonneg by lia. apply Z.div_le_lower_bound; nia. }
  eexists; split; [reflexivity|]. zcase; lia.
Qed.

(** ** The invariant *)

(** What the loop believes of a descriptor is what the back end does: the kernel has the mask and the
    generation counter, or the descriptor is on the list of those that cannot be polled. *)
Definition registered (l : loop) (fd : Z) : Prop :=
  match opened (kern l) !! fd with
  | Some true => interest (kern l) !! fd = Some (events (fd_at l fd), egen (fd_at l fd))
  | Some false => emask (fd_at l fd) = EV_EMASK_EPERM /\ fd ∈ epoll_eperms l
  | None => False
  end.

#[global] Instance registered_dec l fd : Decision (registered l fd).
Proof. unfold registered. destruct (opened (kern l) !! fd) as [[]|]; apply _. Defined.

Record fd_core (l : loop) (fd : Z) : Prop := {
  fc_nodup : NoDup (head (fd_at l fd));
  fc_head w : w ∈ head (fd_at l fd) <-> io_active (wat l w) = true /\ io_fd (wat l w) = fd;
  fc_open : head (fd_at l fd) <> [] -> is_Some (opened (kern l) !! fd);
  fc_reify : reify (fd_at l fd) <> 0 -> fd ∈ fdchanges l;
  fc_same : fd ∈ fdchanges l \/ events (fd_at l fd) = wanted l (head (fd_at l fd));
  fc_kern m g : interest (kern l) !! fd = Some (m, g) ->
    opened (kern l) !! fd = Some true /\ g = egen (fd_at l fd) /\ (emask (fd_at l fd) = m \/ emask (fd_at l fd) = 0) /\ 0 <= fd < zlen (anfds l);
  fc_eperm : Z.land (emask (fd_at l fd)) EV_EMASK_EPERM <> 0 -> fd ∈ epoll_eperms l;
  fc_bits : 0 <= events (fd_at l fd) < 4 /\ 0 <= egen (fd_at l fd) < 2 ^ 32
}.

Definition unset (l : loop) (fd : Z) : Prop := Z.land (reify (fd_at l fd)) EV__IOFDSET = 0.

(** A descriptor the back end must still be told of is queued with [EV__IOFDSET], or has no watcher;
    then the next one to start on it has been set up since the descriptor was opened. *)
Record fd_reg (l : loop) (fd : Z) : Prop := {
  fr_reg : events (fd_at l fd) = 0 \/ registered l fd \/
           (fd ∈ fdchanges l /\ (~ unset l fd \/ head (fd_at l fd) = []));
  fr_fresh w : events (fd_at l fd) <> 0 -> ~ registered l fd -> unset l fd ->
    io_fd (wat l w) = fd -> io_active (wat l w) = false -> io_gen (wat l w) = default 0 (closes l !! fd) ->
    Z.land (io_events (wat l w)) EV__IOFDSET <> 0
}.

Record w_ok (l : loop) (w : Z) : Prop := {
  wo_fd : 0 <= io_fd (wat l w) < INT_MAX;
  wo_mask : 0 <= Z.ldiff (io_events (wat l w)) EV__IOFDSET < 4;
  wo_active : io_active (wat l w) = true -> 0 <= io_events (wat l w) < 4 /\ io_fd (wat l w) < zlen (anfds l);
  wo_gen : io_gen (wat l w) <= default 0 (closes l !! io_fd (wat l w));
  wo_pending : io_pending (wat l w) = 0 \/ exists e, zget (pendings l) (io_pending (wat l w) - 1) = Some (Some w, e)
}.

Record io_ok (l : loop) : Prop := {
  ok_core fd : fd_core l fd;
  ok_reg fd : fd_reg l fd;
  ok_w w : w_ok l w;
  ok_changes fd : fd ∈ fdchanges l -> 0 <= fd < zlen (anfds l);
  ok_size : zlen (anfds l) <= INT_MAX;
  ok_pend i w e : zget (pendings l) i = Some (Some w, e) -> io_pending (wat l w) = i + 1
}.

(** ** Frames *)

Definition same_w (x y : ev_io) : Prop :=
  io_fd x = io_fd y /\ io_events x = io_events y /\ io_active x = io_active y /\ io_gen x = io_gen y.

(** Nothing of [fd] differs in the two states. *)
Record agrees (l l' : loop) (fd : Z) : Prop := {
  ag_fd : fd_at l' fd = fd_at l fd;
  ag_changes : fd ∈ fdchanges l' <-> fd ∈ fdchanges l;
  ag_open : opened (kern l') !! fd = opened (kern l) !! fd;
  ag_int : interest (kern l') !! fd = interest (kern l) !! fd;
  ag_eperms : fd ∈ epoll_eperms l' <-> fd ∈ epoll_eperms l;
  ag_closes : closes l' !! fd = closes l !! fd;
  ag_size : zlen (anfds l) <= zlen (anfds l');
  ag_w w : io_fd (wat l w) = fd \/ io_fd (wat l' w) = fd -> same_w (wat l' w) (wat l w)
}.

Lemma agrees_trans l1 l2 l3 fd : agrees l1 l2 fd -> agrees l2 l3 fd -> agrees l1 l3 fd.
Proof.
  intros [] []. split; try congruence; try lia; try tauto. intros w Hw.
  assert (io_fd (wat l2 w) = fd) as Hf.
  { destruct Hw as [Hw|Hw]; [destruct (ag_w0 w (or_introl Hw)) as (?&_)|destruct (ag_w1 w (or_intror Hw)) as (?&_)]; congruence. }
  destruct (ag_w0 w (or_intror Hf)) as (?&?&?&?), (ag_w1 w (or_introl Hf)) as (?&?&?&?). repeat split; congruence.
Qed.

Lemma wanted_ext l l' ws : (forall w, w ∈ ws -> io_events (wat l' w) = io_events (wat l w)) -> wanted l' ws = wanted l ws.
Proof.
  unfold wanted. generalize 0. induction ws as [|w ws IH]; intros z H; simpl; [done|].
  rewrite H by set_solver. apply IH. set_solver.
Qed.

Lemma registered_agrees l l' fd : agrees l l' fd -> registered l' fd <-> registered l fd.
Proof. intros []. unfold registered. rewrite ag_open0, ag_int0, ag_fd0. by destruct (opened (kern l) !! fd) as [[]|]; rewrite ?ag_eperms0. Qed.

Lemma fd_core_agrees l l' fd : agrees l l' fd -> fd_core l fd -> fd_core l' fd.
Proof.
  intros A C. pose proof A as []. destruct C. split; rewrite ?ag_fd0, ?ag_open0, ?ag_int0, ?ag_changes0, ?ag_eperms0; try done.
  - intros w. rewrite fc_head0. split; intros [Ha Hf].
    + destruct (ag_w0 w (or_introl Hf)) as (? & ? & ? & ?). split; congruence.
    + destruct (ag_w0 w (or_intror Hf)) as (? & ? & ? & ?). split; congruence.
  - destruct fc_same0 as [|E]; [by left|]. right. rewrite E. symmetry. apply wanted_ext. intros w Hw.
    apply fc_head0 in Hw as [_ Hf]. by destruct (ag_w0 w (or_introl Hf)) as (? & ? & ? & ?).
  - intros m g Hi. destruct (fc_kern0 m g Hi) as (? & ? & ? & ?). repeat split; try done; lia.
Qed.

Lemma fd_reg_agrees l l' fd : agrees l l' fd -> fd_reg l fd -> fd_reg l' fd.
Proof.
  intros A [R F]. pose proof (registered_agrees _ _ _ A) as Hr. pose proof A as []. unfold unset in *.
  split; unfold unset; rewrite ?ag_fd0, ?ag_changes0, ?Hr; [done|].
  intros w Hz Hn Hu Hf Ha Hg. rewrite Hr in Hn. rewrite ag_closes0 in Hg.
  destruct (ag_w0 w (or_intror Hf)) as (E1 & E2 & E3 & E4). rewrite E2. apply F; try done; congruence.
Qed.

Lemma wat_set_eq l w x : wat (set_watcher w x l) w = x.
Proof. unfold wat. simpl. by rewrite lookup_total_insert_eq. Qed.
Lemma wat_set_ne l w w' x : w <> w' -> wat (set_watcher w x l) w' = wat l w'.
Proof. intros. unfold wat. simpl. by rewrite lookup_total_insert_ne. Qed.
Lemma wat_set l w w' x : wat (set_watcher w x l) w' = if w' =? w then x else wat l w'.
Proof. zcase; [subst; apply wat_set_eq | apply wat_set_ne; lia]. Qed.

Lemma fd_at_set_eq l fd a : 0 <= fd < zlen (anfds l) -> fd_at (set_anfd fd a l) fd = a.
Proof. intros. unfold fd_at. simpl. by rewrite zget_put_eq. Qed.
Lemma fd_at_set_ne l fd fd' a : fd <> fd' -> fd_at (set_anfd fd a l) fd' = fd_at l fd'.
Proof. intros. unfold fd_at. simpl. by rewrite zget_put_ne. Qed.

(** ** Pending watchers *)

Definition pend_ok (l : loop) : Prop :=
  (forall w, io_pending (wat l w) = 0 \/ exists e, zget (pendings l) (io_pending (wat l w) - 1) = Some (Some w, e)) /\
  (forall i w e, zget (pendings l) i = Some (Some w, e) -> io_pending (wat l w) = i + 1).

(** Only pending watchers differ. *)
Record quiet (l l' : loop) : Prop := {
  q_anfds : anfds l' = anfds l;
  q_changes : fdchanges l' = fdchanges l;
  q_eperms : epoll_eperms l' = epoll_eperms l;
  q_kern : kern l' = kern l;
  q_closes : closes l' = closes l;
  q_w w : same_w (wat l' w) (wat l w)
}.

Lemma io_quiet_refl l : quiet l l.
Proof. by split. Qed.
Lemma io_quiet_trans l1 l2 l3 : quiet l1 l2 -> quiet l2 l3 -> quiet l1 l3.
Proof.
  intros [] []. split; try congruence. intros w. destruct (q_w0 w) as (?&?&?&?), (q_w1 w) as (?&?&?&?). repeat split; congruence.
Qed.

Lemma quiet_agrees l l' fd : quiet l l' -> agrees l l' fd.
Proof.
  intros []. split; rewrite ?q_changes0, ?q_eperms0, ?q_kern0, ?q_closes0, ?q_anfds0; try done.
  unfold fd_at. by rewrite q_anfds0.
Qed.

Lemma io_pend_ok l : io_ok l -> pend_ok l.
Proof. intros []. split; [intros w; apply ok_w0|done]. Qed.

Lemma io_ok_quiet l l' : quiet l l' -> pend_ok l' -> io_ok l -> io_ok l'.
Proof.
  intros Q [P1 P2] []. split.
  - intros fd. eapply fd_core_agrees; [by apply quiet_agrees|done].
  - intros fd. eapply fd_reg_agrees; [by apply quiet_agrees|done].
  - intros w. destruct Q. destruct (q_w0 w) as (E1&E2&E3&E4), (ok_w0 w).
    split; rewrite ?E1, ?E2, ?E3, ?E4, ?q_anfds0, ?q_closes0; done || apply P1.
  - destruct Q. by rewrite q_changes0, q_anfds0.
  - destruct Q. by rewrite q_anfds0.
  - done.
Qed.

(** The events a watcher is pending with. *)
Definition pending_events (l : loop) (w : Z) : Z :=
  match zget (pendings l) (io_pending (wat l w) - 1) with
  | Some (Some w', e) => if w' =? w then e else 0
  | _ => 0
  end.

Lemma feed_quiet w e l : quiet l (ev_feed_event w e l).
Proof.
  unfold ev_feed_event. destruct (negb _) eqn:?; [destruct (zget _ _) as [[]|]; by split|].
  split; try done. intros w'. unfold wat. simpl. destruct (decide (w = w')) as [->|].
  - by rewrite lookup_total_insert_eq.
  - by rewrite lookup_total_insert_ne.
Qed.

Lemma feed_pend w e l : pend_ok l -> pend_ok (ev_feed_event w e l).
Proof.
  intros [P1 P2]. unfold ev_feed_event. destruct (Z.eqb_spec (io_pending (wat l w)) 0) as [E|E]; simpl.
  - split.
    + intros w'. change (wat (set_pendings _ ?l) w') with (wat l w'). rewrite wat_set. simpl. zcase; simpl.
      * right. exists e. replace (zlen (pendings l) + 1 - 1) with (zlen (pendings l)) by lia.
        rewrite zget_app, Z.ltb_irrefl, Z.sub_diag. by subst.
      * destruct (P1 w') as [|[e' He]]; [by left|]. right. exists e'. rewrite zget_app.
        apply zget_Some_range in He as ?. zcase; [done|lia].
    + intros i w' e'. change (wat (set_pendings _ ?l) w') with (wat l w'). simpl. rewrite zget_app, wat_set. zcase; simpl; intros H1.
      * subst. apply zget_Some_range in H1 as Hr. apply P2 in H1. lia.
      * by apply P2 in H1.
      * apply zget_Some_range in H1 as Hr. change (zlen [_]) with 1 in Hr. lia.
      * destruct (decide (i = zlen (pendings l))) as [->|].
        -- rewrite Z.sub_diag in H1. injection H1 as ? ?. lia.
        -- apply zget_Some_range in H1 as Hr. change (zlen [_]) with 1 in Hr. lia.
  - destruct (P1 w) as [|[e0 He]]; [done|]. rewrite He. simpl. apply zget_Some_range in He as Hr. split.
    + intros w'. change (wat (set_pendings _ ?l) w') with (wat l w'). simpl. rewrite zget_put by lia. zcase.
      * right. exists (Z.lor e0 e). destruct (P1 w') as [?|[e2 He2]]; [lia|]. congruence.
      * apply P1.
    + intros i w' e'. change (wat (set_pendings _ ?l) w') with (wat l w'). simpl. rewrite zget_put by lia. zcase; [|apply P2].
      intros [= -> _]. lia.
Qed.

(** The watcher is pending, with at least the events [e]. *)
Definition told (l : loop) (w e : Z) : Prop := io_pending (wat l w) <> 0 /\ Z.land e (pending_events l w) = e.

Lemma land_lor_self a b : Z.land a (Z.lor b a) = a.
Proof. apply Z.bits_inj'. intros n Hn. rewrite Z.land_spec, Z.lor_spec. destruct (Z.testbit a n), (Z.testbit b n); done. Qed.
Lemma land_lor_keep a b c : Z.land a b = a -> Z.land a (Z.lor b c) = a.
Proof.
  intros H. apply Z.bits_inj'. intros n Hn. apply (f_equal (fun z => Z.testbit z n)) in H. revert H.
  rewrite !Z.land_spec, Z.lor_spec. by destruct (Z.testbit a n), (Z.testbit b n), (Z.testbit c n).
Qed.

Lemma feed_told w e l : pend_ok l -> told (ev_feed_event w e l) w e.
Proof.
  intros [P1 P2]. unfold told, pending_events, ev_feed_event. destruct (Z.eqb_spec (io_pending (wat l w)) 0) as [E|E]; simpl.
  - change (wat (set_pendings _ ?l) w) with (wat l w). rewrite wat_set_eq. simpl.
    pose proof (zlen_nonneg (pendings l)). split; [lia|].
    rewrite Z.add_simpl_r, zget_app, Z.ltb_irrefl, Z.sub_diag. simpl. rewrite Z.eqb_refl. apply Z.land_diag.
  - destruct (P1 w) as [|[e0 He]]; [done|]. rewrite He. simpl. apply zget_Some_range in He as Hr.
    change (wat (set_pendings _ ?l) w) with (wat l w). split; [done|].
    rewrite zget_put_eq, Z.eqb_refl by lia. apply land_lor_self.
Qed.

Lemma feed_keeps w e l w' e' : pend_ok l -> told l w' e' -> told (ev_feed_event w e l) w' e'.
Proof.
  intros [P1 P2] [Hp Ht]. destruct (P1 w') as [|[e1 He1]]; [done|]. apply zget_Some_range in He1 as Hr1.
  unfold told, pending_events in *. rewrite He1, Z.eqb_refl in Ht.
  unfold ev_feed_event. destruct (Z.eqb_spec (io_pending (wat l w)) 0) as [E|E]; simpl.
  - change (wat (set_pendings _ ?l) w') with (wat l w'). rewrite wat_set_ne by congruence. split; [done|].
    simpl. rewrite zget_app. zcase; [|lia]. by rewrite He1, Z.eqb_refl.
  - destruct (P1 w) as [|[e0 He]]; [done|]. rewrite He. simpl. apply zget_Some_range in He as Hr.
    change (wat (set_pendings _ ?l) w') with (wat l w'). split; [done|]. rewrite zget_put by lia.
    destruct (Z.eqb_spec (io_pending (wat l w') - 1) (io_pending (wat l w) - 1)) as [Hq|Hq].
    + rewrite Hq, He in He1. injection He1 as -> ->. rewrite Z.eqb_refl. by apply land_lor_keep.
    + by rewrite He1, Z.eqb_refl.
Qed.

Definition feed_wanted (revents : Z) (l : loop) (w : Z) : loop :=
  let ev := Z.land (io_events (wat l w)) revents in if ev =? 0 then l else ev_feed_event w ev l.

Lemma feed_all_spec revents ws l :
  pend_ok l ->
  let l' := fold_left (feed_wanted revents) ws l in
  quiet l l' /\ pend_ok l' /\
  (forall w e, told l w e -> told l' w e) /\
  (forall w, w ∈ ws -> Z.land (io_events (wat l w)) revents <> 0 -> told l' w (Z.land (io_events (wat l w)) revents)).
Proof.
  revert l. induction ws as [|w ws IH]; intros l P; simpl; [split_and!; try done; set_solver|].
  unfold feed_wanted at 2 4 6 8. destruct (Z.eqb_spec (Z.land (io_events (wat l w)) revents) 0) as [E|E].
  - destruct (IH l P) as (?&?&?&Ht). split_and!; try done. intros w' [->|]%elem_of_cons ?; [done|by apply Ht].
  - set (l1 := ev_feed_event w _ l). assert (pend_ok l1) as P1 by by apply feed_pend.
    pose proof (feed_quiet w (Z.land (io_events (wat l w)) revents) l) as Q. fold l1 in Q.
    destruct (IH l1 P1) as (Q'&P'&K&Ht). split_and!; [by eapply io_quiet_trans|done| |].
    + intros w' e' H. apply K. by apply feed_keeps.
    + intros w' Hw Hn. destruct (q_w _ _ Q w') as (_&He&_&_).
      apply elem_of_cons in Hw as [->|Hw]; [apply K; by apply feed_told|]. rewrite <- He in *. by apply Ht.
Qed.

Lemma fd_event_nocheck_spec fd revents l :
  pend_ok l ->
  let l' := fd_event_nocheck fd revents l in
  quiet l l' /\ pend_ok l' /\
  (forall w, w ∈ head (fd_at l fd) -> Z.land (io_events (wat l w)) revents <> 0 -> told l' w (Z.land (io_events (wat l w)) revents)).
Proof. intros P. destruct (feed_all_spec revents (head (fd_at l fd)) l P) as (?&?&?&?). by split_and!. Qed.

Lemma fd_event_ok fd revents l : io_ok l -> io_ok (fd_event fd revents l).
Proof.
  intros O. unfold fd_event. zcase; [|done].
  destruct (fd_event_nocheck_spec fd revents l (io_pend_ok _ O)) as (?&?&?). by eapply io_ok_quiet.
Qed.

(** ** The operations on watchers *)

Lemma clear_pending_quiet w l : pend_ok l -> quiet l (clear_pending w l) /\ pend_ok (clear_pending w l) /\ io_pending (wat (clear_pending w l) w) = 0.
Proof.
  intros [P1 P2]. unfold clear_pending. destruct (Z.eqb_spec (io_pending (wat l w)) 0) as [E|E]; [done|].
  destruct (P1 w) as [|[e0 He]]; [done|]. rewrite He. apply zget_Some_range in He as Hr. split_and!.
  - split; try done. intros w'. rewrite wat_set. zcase; [by subst|done].
  - split.
    + intros w'. rewrite wat_set. simpl. zcase; simpl; [by left|].
      destruct (P1 w') as [|[e' He']]; [by left|]. right. exists e'. rewrite zget_put by lia.
      change (wat (set_pendings _ l) w') with (wat l w'). 
      destruct (Z.eqb_spec (io_pending (wat l w') - 1) (io_pending (wat l w) - 1)) as [Hq|Hq]; [congruence|done].
    + intros i w' e'. simpl. rewrite zget_put by lia. rewrite wat_set. zcase; simpl; try done; intros Hi.
      * apply P2 in Hi as ?. subst. lia.
      * by apply P2 in Hi.
  - by rewrite wat_set_eq.
Qed.

Lemma removelast_snoc {A} (k : list A) x : removelast (k ++ [x]) = k.
Proof. apply removelast_last. Qed.

Lemma io_invoke_quiet l : pend_ok l -> quiet l (invoke_pending l) /\ pend_ok (invoke_pending l).
Proof.
  intros P. pose proof P as [P1 P2]. unfold invoke_pending.
  destruct (pendings l) as [|x k _] eqn:Ep using rev_ind; [split; [apply io_quiet_refl|done]|].
  rewrite last_snoc, removelast_snoc. destruct x as [[w|] e].
  - assert (io_pending (wat l w) = zlen k + 1) as Hw.
    { eapply P2. rewrite ?Ep, zget_app, Z.ltb_irrefl, Z.sub_diag. done. }
    split; [split; try done; intros w'; rewrite wat_set; zcase; by subst|]. split.
    + intros w'. rewrite wat_set. simpl. zcase; simpl; [by left|]. change (wat (set_pendings _ l) w') with (wat l w').
      destruct (P1 w') as [|[e' He']]; [by left|]. right. exists e'. rewrite ?Ep, zget_app in He'. zcase_in He'; [done|].
      apply zget_Some_range in He' as Hr. change (zlen [_]) with 1 in Hr.
      replace (io_pending (wat l w') - 1 - zlen k) with 0 in He' by lia. injection He' as ->. lia.
    + intros i w' e' Hi. simpl in Hi. apply zget_Some_range in Hi as Hr. rewrite wat_set.
      assert (io_pending (wat l w') = i + 1) as Hw'. { eapply P2. rewrite ?Ep, zget_app. zcase; [done|lia]. }
      zcase; [subst; lia|done].
  - split; [by split|]. split.
    + intros w'. change (wat (set_pendings _ l) w') with (wat l w'). simpl.
      destruct (P1 w') as [|[e' He']]; [by left|]. right. exists e'. rewrite ?Ep, zget_app in He'. zcase_in He'; [done|].
      apply zget_Some_range in He' as Hr. change (zlen [_]) with 1 in Hr.
      replace (io_pending (wat l w') - 1 - zlen k) with 0 in He' by lia. done.
    + intros i w' e' Hi. simpl in Hi. apply zget_Some_range in Hi as Hr.
      change (wat (set_pendings _ l) w') with (wat l w'). eapply P2. rewrite ?Ep, zget_app. zcase; [done|lia].
Qed.

(** Bits of the masks. *)
Lemma lt4_cases z : 0 <= z < 4 -> z = 0 \/ z = 1 \/ z = 2 \/ z = 3.
Proof. lia. Qed.
Lemma lor_lt4 a b : 0 <= a < 4 -> 0 <= b < 4 -> 0 <= Z.lor a b < 4.
Proof. intros [->|[->|[->| ->]]]%lt4_cases [->|[->|[->| ->]]]%lt4_cases; split; vm_compute; congruence. Qed.
Lemma land_rw_lt4 e : 0 <= Z.land e (Z.lor EV_READ EV_WRITE) < 4.
Proof.
  change (Z.lor EV_READ EV_WRITE) with (Z.ones 2). rewrite Z.land_ones by lia.
  change (2 ^ 2) with 4. apply Z.mod_pos_bound. lia.
Qed.
Lemma ldiff_lor_set e a : 0 <= a < 4 -> Z.ldiff (Z.lor (Z.land e EV__IOFDSET) a) EV__IOFDSET = a.
Proof.
  intros Ha. transitivity (Z.ldiff a EV__IOFDSET).
  - apply Z.bits_inj'. intros n Hn. rewrite !Z.ldiff_spec, Z.lor_spec, Z.land_spec. by destruct (Z.testbit e n), (Z.testbit a n), (Z.testbit _ n).
  - by destruct (lt4_cases a Ha) as [->|[->|[->| ->]]].
Qed.
Lemma land_lor_set e a : 0 <= a < 4 -> Z.land (Z.lor (Z.land e EV__IOFDSET) a) EV__IOFDSET = Z.land e EV__IOFDSET.
Proof.
  intros Ha. transitivity (Z.lor (Z.land e EV__IOFDSET) (Z.land a EV__IOFDSET)).
  - apply Z.bits_inj'. intros n Hn. rewrite !Z.land_spec, !Z.lor_spec, !Z.land_spec. by destruct (Z.testbit e n), (Z.testbit a n), (Z.testbit _ n).
  - destruct (lt4_cases a Ha) as [->|[->|[->| ->]]]; apply Z.lor_0_r.
Qed.
Lemma lt4_no_set e : 0 <= e < 4 -> Z.land e EV__IOFDSET = 0.
Proof. by intros [->|[->|[->| ->]]]%lt4_cases. Qed.
Lemma ldiff_lt4 e : 0 <= e < 4 -> Z.ldiff e EV__IOFDSET = e.
Proof. by intros [->|[->|[->| ->]]]%lt4_cases. Qed.
Lemma wanted_lt4 l ws : (forall w, w ∈ ws -> 0 <= io_events (wat l w) < 4) -> 0 <= wanted l ws < 4.
Proof.
  intros H. unfold wanted. enough (forall z, 0 <= z < 4 -> 0 <= fold_left (fun m w => Z.lor m (io_events (wat l w))) ws z < 4) as E by (apply E; lia).
  induction ws as [|w ws IH]; intros z Hz; simpl; [lia|].
  apply IH; [set_solver|]. apply lor_lt4; [lia|apply H; set_solver].
Qed.

(** ** Views of the steps *)

(** [fd_change] touches one descriptor and the list of changes. *)
Lemma fd_change_at fd fl l fd' :
  0 <= fd < zlen (anfds l) ->
  fd_at (fd_change fd fl l) fd' =
    if fd' =? fd then let a := fd_at l fd in Anfd (head a) (events a) (Z.lor (reify a) fl) (emask a) (egen a) else fd_at l fd'.
Proof.
  intros Hr. unfold fd_change. assert (fd_at (set_anfd fd (Anfd (head (fd_at l fd)) (events (fd_at l fd)) (Z.lor (reify (fd_at l fd)) fl) (emask (fd_at l fd)) (egen (fd_at l fd))) l) fd' =
    if fd' =? fd then let a := fd_at l fd in Anfd (head a) (events a) (Z.lor (reify a) fl) (emask a) (egen a) else fd_at l fd') as H.
  { zcase; [subst; by rewrite fd_at_set_eq | rewrite fd_at_set_ne by lia; done]. }
  by destruct (reify _ =? 0).
Qed.

Lemma fd_change_rest fd fl l :
  let l' := fd_change fd fl l in
  watchers l' = watchers l /\ pendings l' = pendings l /\ epoll_eperms l' = epoll_eperms l /\ kern l' = kern l /\ closes l' = closes l /\
  zlen (anfds l') = zlen (anfds l) /\
  (forall fd', fd' ∈ fdchanges l' <-> fd' ∈ fdchanges l \/ (fd' = fd /\ reify (fd_at l fd) = 0)).
Proof.
  unfold fd_change. destruct (Z.eqb_spec (reify (fd_at l fd)) 0); simpl; rewrite zlen_put; split_and!; try done; set_solver.
Qed.

Lemma needsize_view n l :
  zlen (anfds l) <= INT_MAX -> 0 <= n <= INT_MAX ->
  let l' := needsize n l in
  (forall fd, fd_at l' fd = fd_at l fd) /\ n <= zlen (anfds l') <= INT_MAX /\ zlen (anfds l) <= zlen (anfds l') /\
  watchers l' = watchers l /\ pendings l' = pendings l /\ epoll_eperms l' = epoll_eperms l /\ kern l' = kern l /\ closes l' = closes l /\
  fdchanges l' = fdchanges l.
Proof.
  intros Hs Hn. pose proof (zlen_nonneg (anfds l)) as H0. unfold needsize. zcase; [|split_and!; try done; lia].
  destruct (array_nextsize_grows SIZEOF_ANFD (zlen (anfds l)) n) as (m & -> & Hm & _); unfold SIZEOF_ANFD; try lia.
  simpl. rewrite zlen_app, zlen_repeat by lia. split_and!; try done; try lia.
  intros fd. unfold fd_at. simpl. rewrite zget_app, zget_repeat. zcase; simpl; try lia; try done;
    rewrite (proj2 (zget_None (anfds l) fd)) by lia; done.
Qed.

(** ** Watchers are set up, started, stopped and modified *)

Lemma setw_inactive_core l w x fd :
  io_active (wat l w) = false -> io_active x = false -> fd_core l fd -> fd_core (set_watcher w x l) fd.
Proof.
  intros Ha Hx []. split; try done.
  - intros w'. rewrite wat_set. change (fd_at (set_watcher w x l) fd) with (fd_at l fd). rewrite fc_head0.
    zcase; [subst; naive_solver congruence|done].
  - destruct fc_same0 as [|E]; [by left|]. right. change (fd_at (set_watcher w x l) fd) with (fd_at l fd). rewrite E. symmetry.
    apply wanted_ext. intros w' Hw. apply fc_head0 in Hw as [? _]. rewrite wat_set_ne by congruence. done.
Qed.

Lemma setw_inactive_ok l w x :
  io_ok l -> io_active (wat l w) = false -> io_active x = false -> io_pending x = io_pending (wat l w) ->
  0 <= io_fd x < INT_MAX -> 0 <= Z.ldiff (io_events x) EV__IOFDSET < 4 -> io_gen x <= default 0 (closes l !! io_fd x) ->
  Z.land (io_events x) EV__IOFDSET <> 0 \/
  (io_fd x = io_fd (wat l w) /\ io_gen x = io_gen (wat l w) /\ Z.land (io_events x) EV__IOFDSET = Z.land (io_events (wat l w)) EV__IOFDSET) ->
  io_ok (set_watcher w x l).
Proof.
  intros O Ha Hx Hp Hf Hm Hg Hs. pose proof O as []. split; try done.
  - intros fd. by apply setw_inactive_core.
  - intros fd. destruct (ok_reg0 fd) as [R F]. split; [exact R|]. intros w' ? ? ?. rewrite wat_set. zcase; [|by apply F].
    subst. intros Hfd _ Hgn. destruct Hs as [|(E1&E2&E3)]; [done|]. rewrite E3. apply F; try done; [congruence|]. by rewrite <- E2.
  - intros w'. destruct (decide (w' = w)) as [->|Hn].
    + split; rewrite wat_set_eq; try done; [congruence|]. rewrite Hp. apply ok_w0.
    + destruct (ok_w0 w'). split; rewrite wat_set_ne by done; done.
  - intros i w' e Hi. rewrite wat_set. apply ok_pend0 in Hi. zcase; congruence.
Qed.

(** A step that touches one watcher of a descriptor, and queues the descriptor. *)
Record touch (l l' : loop) (w fd : Z) : Prop := {
  t_range : 0 <= fd < zlen (anfds l');
  t_other fd' : fd' <> fd -> fd_at l' fd' = fd_at l fd';
  t_same : events (fd_at l' fd) = events (fd_at l fd) /\ emask (fd_at l' fd) = emask (fd_at l fd) /\ egen (fd_at l' fd) = egen (fd_at l fd);
  t_unset : unset l' fd -> unset l fd;
  t_queued : fd ∈ fdchanges l';
  t_changes fd' : fd' <> fd -> fd' ∈ fdchanges l' <-> fd' ∈ fdchanges l;
  t_kern : kern l' = kern l;
  t_eperms : epoll_eperms l' = epoll_eperms l;
  t_closes : closes l' = closes l;
  t_pend : pendings l' = pendings l;
  t_size : zlen (anfds l) <= zlen (anfds l') <= INT_MAX;
  t_w w' : w' <> w -> wat l' w' = wat l w';
  t_fd : io_fd (wat l w) = fd /\ io_fd (wat l' w) = fd;
  t_wpend : io_pending (wat l' w) = io_pending (wat l w) /\ io_gen (wat l' w) = io_gen (wat l w);
  t_mask : 0 <= Z.ldiff (io_events (wat l' w)) EV__IOFDSET < 4 /\ (io_active (wat l' w) = true -> 0 <= io_events (wat l' w) < 4)
}.

Lemma touch_agrees l l' w fd fd' : touch l l' w fd -> fd' <> fd -> agrees l l' fd'.
Proof.
  intros [] Hn. split; rewrite ?t_kern0, ?t_eperms0, ?t_closes0; auto; [lia|].
  intros w' Hw. destruct (decide (w' = w)) as [->|Hw']; [|by rewrite t_w0].
  destruct t_fd0 as [E1 E2]. rewrite E1, E2 in Hw. naive_solver.
Qed.

Lemma touch_registered l l' w fd : touch l l' w fd -> registered l' fd <-> registered l fd.
Proof. intros []. destruct t_same0 as (E1&E2&E3). unfold registered. by rewrite t_kern0, t_eperms0, E1, E2, E3. Qed.

Lemma touch_reg l l' w fd :
  io_ok l -> touch l l' w fd ->
  (events (fd_at l fd) <> 0 -> ~ registered l fd -> unset l fd -> head (fd_at l fd) = [] -> ~ unset l' fd) ->
  fd_reg l' fd.
Proof.
  intros O T K. pose proof (touch_registered _ _ _ _ T) as Hr. destruct (fr_reg _ _ (ok_reg _ O fd)) as [E|[R|[Hq H]]].
  - destruct (t_same _ _ _ _ T) as (E1&_). split; [left; congruence|]. intros ? ?. congruence.
  - split; [right; left; by apply Hr|]. intros ? _ Hn. by rewrite Hr in Hn.
  - destruct (t_same _ _ _ _ T) as (E1&_). destruct (decide (events (fd_at l fd) = 0)) as [E|E].
    { split; [left; congruence|]. intros ? ?. congruence. }
    assert (registered l fd \/ ~ unset l' fd) as [R|R].
    { destruct H as [H|H]; [right; intros Hu; by apply H, (t_unset _ _ _ _ T)|].
      destruct (decide (registered l fd)) as [|Hn]; [by left|right]. intros Hu. apply (K E Hn); [by apply (t_unset _ _ _ _ T)|done..]. }
    + split; [right; left; by apply Hr|]. intros ? _ Hn. by rewrite Hr in Hn.
    + split; [right; right; split; [apply T|by left]|]. done.
Qed.

Lemma touch_ok l l' w fd :
  io_ok l -> touch l l' w fd ->
  NoDup (head (fd_at l' fd)) -> (forall w', w' ∈ head (fd_at l' fd) <-> io_active (wat l' w') = true /\ io_fd (wat l' w') = fd) ->
  (head (fd_at l' fd) <> [] -> is_Some (opened (kern l) !! fd)) ->
  (events (fd_at l fd) <> 0 -> ~ registered l fd -> unset l fd -> head (fd_at l fd) = [] -> ~ unset l' fd) ->
  io_ok l'.
Proof.
  intros O T Hd Hh Ho K. pose proof O as []. pose proof T as []. split.
  - intros fd'. destruct (decide (fd' = fd)) as [->|Hn]; [|eapply fd_core_agrees; [by eapply touch_agrees|done]].
    destruct (ok_core0 fd). destruct t_same0 as (E1&E2&E3).
    split; rewrite ?E1, ?E2, ?E3, ?t_kern0, ?t_eperms0; auto. intros m g Hi. destruct (fc_kern0 m g Hi) as (?&?&?&?). split_and!; done || lia.
  - intros fd'. destruct (decide (fd' = fd)) as [->|Hn]; [by eapply touch_reg|eapply fd_reg_agrees; [by eapply touch_agrees|done]].
  - intros w'. destruct (decide (w' = w)) as [->|Hn].
    + destruct (ok_w0 w), t_fd0 as [E1 E2], t_wpend0 as [E3 E4], t_mask0.
      split; rewrite ?E2, ?E3, ?E4, ?t_closes0, ?t_pend0; try done; [lia| |congruence]. intros Ha. split; [auto|lia].
    + destruct (ok_w0 w'). split; rewrite t_w0 by done; rewrite ?t_closes0, ?t_pend0; try done.
      intros Ha. destruct (wo_active0 Ha). split; [done|lia].
  - intros fd' Hf. destruct (decide (fd' = fd)) as [->|Hn]; [done|]. apply t_changes0 in Hf; [|done]. apply ok_changes0 in Hf. lia.
  - lia.
  - intros i w' e. rewrite t_pend0. intros Hi%ok_pend0. destruct (decide (w' = w)) as [->|Hn]; [|by rewrite t_w0].
    destruct t_wpend0. congruence.
Qed.

Lemma wat_eq l l' w : watchers l' = watchers l -> wat l' w = wat l w.
Proof. unfold wat. by intros ->. Qed.

Lemma ev_io_set_ok w fd evs l :
  io_ok l -> io_active (wat l w) = false -> 0 <= fd < INT_MAX -> io_ok (ev_io_set w fd (Z.land evs (Z.lor EV_READ EV_WRITE)) l).
Proof.
  intros O Ha Hf. unfold ev_io_set. pose proof (land_rw_lt4 evs) as Hl. set (z := Z.land evs _) in *.
  assert (Z.lor z EV__IOFDSET = Z.lor (Z.land EV__IOFDSET EV__IOFDSET) z) as E by (rewrite Z.land_diag; apply Z.lor_comm).
  apply setw_inactive_ok; simpl; try done; rewrite ?E, ?ldiff_lor_set, ?land_lor_set by done; [done|by left].
Qed.

Lemma ev_io_modify_ok w evs l : io_ok l -> io_ok (ev_io_modify w evs l).
Proof.
  intros O. unfold ev_io_modify. pose proof (land_rw_lt4 evs) as Hl. set (z := Z.land evs _) in *. zcase; [done|].
  pose proof (ok_w _ O w) as []. destruct (io_active (wat l w)) eqn:Ha.
  2: { apply setw_inactive_ok; simpl; try done; rewrite ?ldiff_lor_set, ?land_lor_set by done; [done|by right]. }
  destruct (wo_active0 eq_refl) as [He Hr]. set (fd := io_fd (wat l w)) in *. set (nev := Z.lor _ z) in *.
  assert (nev = z) as Hnev by (subst nev; by rewrite lt4_no_set, Z.lor_0_l).
  set (x := EvIo fd nev true (io_pending (wat l w)) (io_gen (wat l w))). set (l1 := set_watcher w x l).
  destruct (fd_change_rest fd 0 l1) as (Rw&Rp&Re&Rk&Rc&Rs&Rch).
  assert (forall fd', fd_at (fd_change fd 0 l1) fd' = fd_at l fd') as Rat.
  { intros fd'. rewrite fd_change_at by (simpl; lia). zcase; [subst|done]. cbv zeta. rewrite Z.lor_0_r. change (fd_at l1 fd) with (fd_at l fd). by destruct (fd_at l fd). }
  assert (w ∈ head (fd_at l fd)) as Hw by (by apply (ok_core _ O)).
  pose proof (ok_core _ O fd) as [].
  assert (wat (fd_change fd 0 l1) w = x) as Rww by (rewrite (wat_eq _ _ _ Rw); apply wat_set_eq).
  assert (forall w', w' <> w -> wat (fd_change fd 0 l1) w' = wat l w') as Rwn by (intros w' Hn; rewrite (wat_eq _ _ _ Rw); by apply wat_set_ne).
  apply (touch_ok l _ w fd); [done| |by rewrite Rat| |rewrite Rat; auto|by intros _ _ _ Hnil; rewrite Hnil in Hw; apply not_elem_of_nil in Hw].
  - split; rewrite ?Rat, ?Rs, ?Rww, ?Rp, ?Re, ?Rk, ?Rc; try done.
    + simpl. lia.
    + unfold unset. by rewrite Rat.
    + apply Rch. destruct (decide (reify (fd_at l fd) = 0)); [by right|left]. by apply fc_reify0.
    + intros fd' Hn. rewrite Rch. tauto.
    + split; [done|apply O].
    + simpl. rewrite Hnev. by rewrite ldiff_lt4.
  - intros w'. rewrite Rat, fc_head0. destruct (decide (w' = w)) as [->|Hn]; [|by rewrite Rwn]. by rewrite Rww, Ha.
Qed.

Lemma ev_io_start_view w l :
  let fd := io_fd (wat l w) in let l' := ev_io_start w l in let a := fd_at l fd in
  io_active (wat l w) = false -> 0 <= fd < INT_MAX -> zlen (anfds l) <= INT_MAX ->
  fd_at l' fd = Anfd (w :: head a) (events a) (Z.lor (reify a) (Z.lor (Z.land (io_events (wat l w)) EV__IOFDSET) EV_ANFD_REIFY)) (emask a) (egen a) /\
  (forall fd', fd' <> fd -> fd_at l' fd' = fd_at l fd') /\
  wat l' w = EvIo fd (Z.ldiff (io_events (wat l w)) EV__IOFDSET) true (io_pending (wat l w)) (io_gen (wat l w)) /\
  (forall w', w' <> w -> wat l' w' = wat l w') /\
  (forall fd', fd' ∈ fdchanges l' <-> fd' ∈ fdchanges l \/ (fd' = fd /\ reify a = 0)) /\
  pendings l' = pendings l /\ epoll_eperms l' = epoll_eperms l /\ kern l' = kern l /\ closes l' = closes l /\
  zlen (anfds l) <= zlen (anfds l') <= INT_MAX /\ fd < zlen (anfds l').
Proof.
  intros fd l' a Ha Hf Hs. subst l'. unfold ev_io_start. rewrite Ha. fold fd.
  destruct (needsize_view (fd + 1) (ev_start w l) Hs ltac:(lia)) as (Nat&Ns&Nz&Nw&Np&Ne&Nk&Nc&Nch).
  set (l2 := needsize (fd + 1) (ev_start w l)) in *.
  change (fd_at (ev_start w l)) with (fd_at l) in Nat. rewrite Nat. fold a.
  set (l3 := set_anfd fd _ l2).
  assert (forall w', wat l3 w' = wat (ev_start w l) w') as W3 by (intros; by apply wat_eq).
  assert (wat (ev_start w l) w = EvIo fd (io_events (wat l w)) true (io_pending (wat l w)) (io_gen (wat l w))) as Ws by apply wat_set_eq.
  rewrite !W3, !Ws. cbn [io_fd io_events io_active io_pending io_gen].
  set (fl := Z.lor _ EV_ANFD_REIFY). destruct (fd_change_rest fd fl l3) as (Rw&Rp&Re&Rk&Rc&Rs&Rch).
  assert (zlen (anfds l3) = zlen (anfds l2)) as Hz by apply zlen_put.
  assert (fd_at l3 fd = Anfd (w :: head a) (events a) (reify a) (emask a) (egen a)) as A3 by (apply fd_at_set_eq; lia).
  rewrite A3 in Rch. split_and!.
  - change (fd_at (set_watcher ?u ?v ?k) ?z) with (fd_at k z). rewrite fd_change_at by lia. by rewrite Z.eqb_refl, A3.
  - intros fd' Hn. change (fd_at (set_watcher ?u ?v ?k) ?z) with (fd_at k z). rewrite fd_change_at by lia. zcase; [done|].
    unfold l3. rewrite fd_at_set_ne by done. apply Nat.
  - apply wat_set_eq.
  - intros w' Hn. rewrite wat_set_ne by done. rewrite (wat_eq _ _ _ Rw), W3. by apply wat_set_ne.
  - intros fd'. simpl. rewrite Rch. change (fdchanges l3) with (fdchanges l2). by rewrite Nch.
  - simpl. by rewrite Rp.
  - simpl. by rewrite Re.
  - simpl. by rewrite Rk.
  - simpl. by rewrite Rc.
  - simpl. rewrite Rs, Hz. exact Nz.
  - simpl. lia.
  - simpl. lia.
Qed.

Lemma lor_land_set a b : Z.land (Z.lor a (Z.lor (Z.land b EV__IOFDSET) EV_ANFD_REIFY)) EV__IOFDSET = 0 ->
  Z.land a EV__IOFDSET = 0 /\ Z.land b EV__IOFDSET = 0.
Proof.
  rewrite Z.land_lor_distr_l. intros [H1 H2]%Z.lor_eq_0_iff. rewrite Z.land_lor_distr_l in H2.
  apply Z.lor_eq_0_iff in H2 as [H2 _]. rewrite <- Z.land_assoc, Z.land_diag in H2. done.
Qed.

Lemma ev_io_start_ok w l :
  io_ok l -> is_Some (opened (kern l) !! io_fd (wat l w)) -> io_gen (wat l w) = default 0 (closes l !! io_fd (wat l w)) ->
  io_ok (ev_io_start w l).
Proof.
  intros O Ho Hg. destruct (io_active (wat l w)) eqn:Ha; [unfold ev_io_start; by rewrite Ha|].
  pose proof (ok_w _ O w) as [Hf Hm _ _ _].
  destruct (ev_io_start_view w l Ha Hf (ok_size _ O)) as (Vat&Vn&Vw&Vwn&Vch&Vp&Ve&Vk&Vc&Vs&Vr).
  set (fd := io_fd (wat l w)) in *. set (l' := ev_io_start w l) in *. clearbody l'.
  pose proof (ok_core _ O fd) as []. apply (touch_ok l l' w fd); [done| |rewrite Vat; simpl| |done|].
  - split; rewrite ?Vat, ?Vw, ?Vk, ?Ve, ?Vc, ?Vp; simpl; try done; try lia.
    + unfold unset. rewrite Vat. simpl. by intros [? _]%lor_land_set.
    + apply Vch. destruct (decide (reify (fd_at l fd) = 0)); [by right|left; by apply fc_reify0].
    + intros fd' Hn. rewrite Vch. tauto.
    + by rewrite ldiff_lt4.
  - constructor; [|done]. intros Hin. apply fc_head0 in Hin as [? _]. congruence.
  - intros w'. rewrite Vat. simpl. rewrite elem_of_cons, fc_head0. destruct (decide (w' = w)) as [->|Hn]; [|rewrite Vwn by done; tauto].
    rewrite Vw. simpl. tauto.
  - intros Hz Hn Hu _. unfold unset. rewrite Vat. simpl. intros [_ H]%lor_land_set.
    by apply (fr_fresh _ _ (ok_reg _ O fd) w Hz Hn Hu eq_refl Ha Hg).
Qed.

Lemma wlist_del_spec w ws : NoDup ws -> NoDup (wlist_del w ws) /\ forall x, x ∈ wlist_del w ws <-> x ∈ ws /\ x <> w.
Proof.
  induction ws as [|y ws IH]; intros Hd; simpl; [split; [done|set_solver]|].
  apply NoDup_cons in Hd as [Hy Hd]. destruct (IH Hd) as [IH1 IH2]. zcase.
  - subst. split; [done|]. intros x. rewrite elem_of_cons. split; [intros; split; [by right|congruence]|naive_solver].
  - split; [constructor; [rewrite IH2; tauto|done]|]. intros x. rewrite !elem_of_cons, IH2. naive_solver lia.
Qed.

Lemma ev_io_stop_ok w l : io_ok l -> io_ok (ev_io_stop w l).
Proof.
  intros O0. unfold ev_io_stop. destruct (clear_pending_quiet w l (io_pend_ok _ O0)) as (Q&P&_).
  pose proof (io_ok_quiet _ _ Q P O0) as O. set (l0 := clear_pending w l) in *. clearbody l0. clear Q P O0 l.
  destruct (io_active (wat l0 w)) eqn:Ha; simpl; [|done]. pose proof (ok_w _ O w) as [Hf Hm Hact _ _].
  destruct (Hact Ha) as [He Hr]. set (fd := io_fd (wat l0 w)) in *. pose proof (ok_core _ O fd) as [].
  set (a := fd_at l0 fd) in *. set (l1 := set_anfd fd _ l0). set (l2 := ev_stop w l1).
  assert (forall fd', fd_at l2 fd' = if fd' =? fd then Anfd (wlist_del w (head a)) (events a) (reify a) (emask a) (egen a) else fd_at l0 fd') as A2.
  { intros fd'. change (fd_at l2 fd') with (fd_at l1 fd'). zcase; [subst; apply fd_at_set_eq; lia|apply fd_at_set_ne; lia]. }
  assert (zlen (anfds l2) = zlen (anfds l0)) as Z2 by apply zlen_put.
  destruct (fd_change_rest fd EV_ANFD_REIFY l2) as (Rw&Rp&Re&Rk&Rc&Rs&Rch).
  rewrite A2, Z.eqb_refl in Rch. simpl in Rch.
  assert (forall fd', fd_at (fd_change fd EV_ANFD_REIFY l2) fd' =
    if fd' =? fd then Anfd (wlist_del w (head a)) (events a) (Z.lor (reify a) EV_ANFD_REIFY) (emask a) (egen a) else fd_at l0 fd') as Rat.
  { intros fd'. rewrite fd_change_at by lia. rewrite !A2, Z.eqb_refl. zcase; done. }
  assert (forall w', wat (fd_change fd EV_ANFD_REIFY l2) w' = if w' =? w then EvIo fd (io_events (wat l0 w)) false (io_pending (wat l0 w)) (io_gen (wat l0 w)) else wat l0 w') as Rww.
  { intros w'. rewrite (wat_eq _ _ _ Rw). exact (wat_set l1 w w' _). }
  assert (w ∈ head a) as Hw by (by apply fc_head0).
  set (l' := fd_change fd EV_ANFD_REIFY l2) in *. clearbody l'.
  destruct (wlist_del_spec w (head a) fc_nodup0) as [D1 D2].
  apply (touch_ok l0 l' w fd); [done| |rewrite Rat, Z.eqb_refl; simpl; done| | |].
  - split; rewrite ?Rat, ?Rww, ?Z.eqb_refl, ?Rp, ?Re, ?Rk, ?Rc, ?Rs, ?Z2; simpl; try done; try lia.
    + intros fd' Hn. rewrite Rat. zcase; [done|done].
    + unfold unset. rewrite Rat, Z.eqb_refl. simpl. rewrite Z.land_lor_distr_l. by intros [? _]%Z.lor_eq_0_iff.
    + apply Rch. destruct (decide (reify a = 0)); [by right|left; by apply fc_reify0].
    + intros fd' Hn. rewrite Rch. tauto.
    + split; [done|apply O].
    + intros w' Hn. rewrite Rww. by zcase.
  - intros w'. rewrite Rat, Rww, Z.eqb_refl. simpl. rewrite D2, fc_head0. zcase; simpl; [subst; naive_solver|tauto].
  - intros _. apply fc_open0. fold a. intros Hn. rewrite Hn in Hw. by apply not_elem_of_nil in Hw.
  - intros _ _ _ Hn. fold a in Hn. rewrite Hn in Hw. by apply not_elem_of_nil in Hw.
Qed.

(** ** Descriptors are opened and closed *)

Lemma io_open_ok fd b l :
  io_ok l -> opened (kern l) !! fd = None -> io_ok (set_kernel (Kernel (<[fd := b]> (opened (kern l))) (interest (kern l))) l).
Proof.
  intros O Hno. set (l' := set_kernel _ l). pose proof O as []. split; try done.
  - intros fd'. destruct (decide (fd' = fd)) as [->|Hn].
    + destruct (ok_core0 fd). split; try done; simpl.
      * intros _. rewrite lookup_insert_eq. eauto.
      * intros m g Hi. destruct (fc_kern0 m g Hi) as (?&_). congruence.
    + eapply fd_core_agrees; [|done]. split; try done; simpl; by rewrite lookup_insert_ne.
  - intros fd'. destruct (decide (fd' = fd)) as [->|Hn].
    + assert (~ registered l fd) as Hr by (unfold registered; rewrite Hno; tauto). destruct (ok_reg0 fd) as [R F]. split.
      * destruct R as [R|[R|R]]; [by left|done|right; right; exact R].
      * intros w' Hz _ Hu Hf Ha Hg. by apply F.
    + eapply fd_reg_agrees; [|done]. split; try done; simpl; by rewrite lookup_insert_ne.
  - intros w. by destruct (ok_w0 w).
Qed.

Lemma close_ok fd l : io_ok l -> io_ok (step l (CloseFd fd)).
Proof.
  intros O. simpl. case_bool_decide as Hh; [|done]. set (l' := Loop _ _ _ _ _ _ _ _ _). pose proof O as [].
  assert (forall fd', fd' <> fd -> agrees l l' fd') as A.
  { intros fd' Hn. split; try done; simpl; rewrite ?lookup_delete_ne, ?lookup_insert_ne by done; done. }
  split; try done.
  - intros fd'. destruct (decide (fd' = fd)) as [->|Hn]; [|eapply fd_core_agrees; eauto].
    destruct (ok_core0 fd). split; try done; simpl.
    intros m g Hi. by rewrite lookup_delete_eq in Hi.
  - intros fd'. destruct (decide (fd' = fd)) as [->|Hn]; [|eapply fd_reg_agrees; eauto]. split.
    + destruct (fc_same _ _ (ok_core0 fd)) as [Hq|Hq]; [by right; right; split; [|right]|left].
      change (events (fd_at l fd) = 0). by rewrite Hq, Hh.
    + intros w _ _ _ Hf _. simpl. rewrite lookup_insert_eq. simpl. change (wat l' w) with (wat l w) in *.
      pose proof (wo_gen _ _ (ok_w0 w)) as Hg. rewrite Hf in Hg. lia.
  - intros w. destruct (ok_w0 w). split; try done. change (wat l' w) with (wat l w). simpl.
    destruct (decide (fd = io_fd (wat l w))) as [->|]; [rewrite lookup_insert_eq; simpl; lia|by rewrite lookup_insert_ne].
Qed.

(** ** The back end *)

Lemma u32_range z : 0 <= u32 z < 2 ^ 32.
Proof. apply Z.mod_pos_bound. lia. Qed.

Lemma u32_back z : 0 <= z < 2 ^ 32 -> u32 (u32 (z + 1) - 1) = z.
Proof. intros. unfold u32. rewrite Zminus_mod_idemp_l, Z.add_simpl_r. by apply Z.mod_small. Qed.

(** A state that differs in what the back end keeps of one descriptor. *)
Record backend (l l' : loop) (fd m g : Z) : Prop := {
  b_at fd' : fd_at l' fd' = if fd' =? fd then Anfd (head (fd_at l fd)) (events (fd_at l fd)) (reify (fd_at l fd)) m g else fd_at l fd';
  b_size : zlen (anfds l') = zlen (anfds l);
  b_changes : fdchanges l' = fdchanges l;
  b_w : watchers l' = watchers l;
  b_pend : pendings l' = pendings l;
  b_closes : closes l' = closes l;
  b_open : opened (kern l') = opened (kern l);
  b_int fd' : fd' <> fd -> interest (kern l') !! fd' = interest (kern l) !! fd';
  b_eperms fd' : fd' <> fd -> fd' ∈ epoll_eperms l' <-> fd' ∈ epoll_eperms l
}.

Definition back_as (l : loop) (fd m g : Z) (i : gmap Z (Z * Z)) (e : list Z) : loop :=
  set_eperms e (set_kernel (Kernel (opened (kern l)) i) (set_anfd fd (Anfd (head (fd_at l fd)) (events (fd_at l fd)) (reify (fd_at l fd)) m g) l)).

Lemma back_as_backend l fd m g i e :
  0 <= fd < zlen (anfds l) -> (forall fd', fd' <> fd -> i !! fd' = interest (kern l) !! fd') ->
  (forall fd', fd' <> fd -> fd' ∈ e <-> fd' ∈ epoll_eperms l) -> backend l (back_as l fd m g i e) fd m g.
Proof.
  intros Hr Hi He. split; try done; [|simpl; apply zlen_put].
  intros fd'. unfold back_as. change (fd_at (set_eperms ?u (set_kernel ?v ?k)) ?z) with (fd_at k z).
  zcase; [subst; by apply fd_at_set_eq|apply fd_at_set_ne; lia].
Qed.

Lemma backend_agrees l l' fd m g fd' : backend l l' fd m g -> fd' <> fd -> agrees l l' fd'.
Proof.
  intros [] Hn. split; rewrite ?b_changes0, ?b_open0, ?b_closes0, ?b_size0; auto; try done.
  - rewrite b_at0. by zcase.
  - intros w _. by rewrite (wat_eq l l' w).
Qed.

Lemma kernel_eta k : Kernel (opened k) (interest k) = k.
Proof. by destruct k. Qed.

Lemma set_anfd_twice fd a b l : set_anfd fd a (set_anfd fd b l) = set_anfd fd a l.
Proof. unfold set_anfd. simpl. f_equal. unfold zput. zcase; [done|]. by rewrite list_insert_insert_eq. Qed.

Lemma back_as_same l fd m g :
  back_as l fd m g (interest (kern l)) (epoll_eperms l) = set_anfd fd (Anfd (head (fd_at l fd)) (events (fd_at l fd)) (reify (fd_at l fd)) m g) l.
Proof. unfold back_as. by rewrite kernel_eta. Qed.

Definition knows (l : loop) (fd : Z) : Prop :=
  forall m g, interest (kern l) !! fd = Some (m, g) ->
    opened (kern l) !! fd = Some true /\ g = egen (fd_at l fd) /\ (emask (fd_at l fd) = m \/ emask (fd_at l fd) = 0).

(** What [epoll_modify] does to an open descriptor. *)
Lemma epoll_modify_eq fd oev l :
  let a := fd_at l fd in let nev := events a in
  0 <= fd < zlen (anfds l) -> nev <> 0 -> is_Some (opened (kern l) !! fd) -> knows l fd -> 0 <= egen a < 2 ^ 32 ->
  epoll_modify fd oev nev l =
  match opened (kern l) !! fd with
  | Some true =>
      let g := if bool_decide (is_Some (interest (kern l) !! fd) /\ emask a = nev) then egen a else u32 (egen a + 1) in
      back_as l fd nev g (<[fd := (nev, g)]> (interest (kern l))) (epoll_eperms l)
  | _ =>
      back_as l fd EV_EMASK_EPERM (u32 (egen a + 1)) (interest (kern l))
        (if Z.land (emask a) EV_EMASK_EPERM =? 0 then epoll_eperms l ++ [fd] else epoll_eperms l)
  end.
Proof.
  intros a nev Hr Hn [b Ho] Hk Hg. unfold epoll_modify.
  destruct (Z.eqb_spec nev 0) as [|_]; [done|]. fold a.
  set (gen := u32 (egen a + 1)). set (l1 := set_anfd fd _ l).
  assert (fd_at l1 fd = Anfd (head a) (events a) (reify a) nev gen) as A1 by by apply fd_at_set_eq.
  assert (forall b, set_anfd fd b l1 = set_anfd fd b l) as T by (intros; apply set_anfd_twice).
  change (kern l1) with (kern l). unfold epoll_ctl. rewrite Ho. destruct b.
  2: { rewrite !T, !A1. simpl. destruct (_ =? 0); [|by rewrite back_as_same].
       unfold back_as. by rewrite kernel_eta. }
  destruct (interest (kern l) !! fd) as [[m g]|] eqn:Ei.
  - destruct (Hk m g Ei) as (_ & -> & Hm). destruct (Z.eqb_spec (emask a) nev) as [E|E].
    + rewrite andb_false_r, bool_decide_true by (split; eauto). rewrite A1. simpl. unfold gen. rewrite u32_back by done.
      rewrite T. cbv zeta. rewrite insert_id by (rewrite Ei; fold a in Hm |- *; destruct Hm; congruence). by rewrite back_as_same.
    + rewrite bool_decide_false by tauto. by destruct (oev =? 0).
  - rewrite bool_decide_false by (intros [[? ?] _]; done). by destruct (negb _ && _).
Qed.

(** The back end is brought in line with what is wanted of an open descriptor. *)
Lemma epoll_modify_registers fd oev l :
  let nev := events (fd_at l fd) in let l' := epoll_modify fd oev nev l in
  0 <= fd < zlen (anfds l) -> nev <> 0 -> is_Some (opened (kern l) !! fd) ->
  knows l fd -> (Z.land (emask (fd_at l fd)) EV_EMASK_EPERM <> 0 -> fd ∈ epoll_eperms l) -> 0 <= egen (fd_at l fd) < 2 ^ 32 ->
  exists g, 0 <= g < 2 ^ 32 /\
  ((opened (kern l) !! fd = Some true /\ backend l l' fd nev g /\ interest (kern l') !! fd = Some (nev, g) /\ epoll_eperms l' = epoll_eperms l) \/
   (opened (kern l) !! fd = Some false /\ backend l l' fd EV_EMASK_EPERM g /\ interest (kern l') !! fd = interest (kern l) !! fd /\ fd ∈ epoll_eperms l')).
Proof.
  intros nev l' Hr Hn [b Ho] Hk He Hg. subst l'. unfold nev in *. rewrite (epoll_modify_eq fd oev l Hr Hn (mk_is_Some _ _ Ho) Hk Hg).
  set (a := fd_at l fd) in *. destruct b; rewrite Ho.
  - cbv zeta. set (g := if bool_decide _ then _ else _). assert (0 <= g < 2 ^ 32) by (unfold g; case_match; [done|apply u32_range]).
    exists g. split; [done|left]. split; [done|]. split_and!; [|simpl; by rewrite lookup_insert_eq|done].
    apply back_as_backend; [done| |done]. intros. by rewrite lookup_insert_ne.
  - exists (u32 (egen a + 1)). split; [apply u32_range|right]. split; [done|]. split_and!; [|done|].
    + apply back_as_backend; [done..|]. intros. case_match; set_solver.
    + simpl. destruct (Z.eqb_spec (Z.land (emask a) EV_EMASK_EPERM) 0); [set_solver|auto].
Qed.

(** ** [fd_reify] *)

(** The back end does for a descriptor what its watchers ask for. *)
Record settled (l : loop) (fd : Z) : Prop := {
  s_reify : reify (fd_at l fd) = 0;
  s_wanted : events (fd_at l fd) = wanted l (head (fd_at l fd));
  s_reg : events (fd_at l fd) = 0 \/ registered l fd
}.

Lemma settled_agrees l l' fd : agrees l l' fd -> fd_core l fd -> settled l fd -> settled l' fd.
Proof.
  intros A C []. pose proof (registered_agrees _ _ _ A) as Hr. pose proof A as []. split; rewrite ?ag_fd0, ?Hr; try done.
  rewrite s_wanted0. symmetry. apply wanted_ext. intros w Hw. apply C in Hw as [_ Hf].
  by destruct (ag_w0 w (or_introl Hf)) as (_&?&_).
Qed.

Lemma settled_reg l fd : settled l fd -> fd_reg l fd.
Proof. intros [_ _ [|]]; split; try done; auto; by intros. Qed.

(** A state in which one descriptor has been settled. *)
Record settles (l l' : loop) (fd : Z) : Prop := {
  st_other fd' : fd' <> fd -> agrees l l' fd';
  st_changes : fdchanges l' = fdchanges l;
  st_w : watchers l' = watchers l;
  st_pend : pendings l' = pendings l;
  st_closes : closes l' = closes l;
  st_size : zlen (anfds l') = zlen (anfds l);
  st_open : opened (kern l') = opened (kern l);
  st_head : head (fd_at l' fd) = head (fd_at l fd);
  st_knows : knows l' fd;
  st_eperm : Z.land (emask (fd_at l' fd)) EV_EMASK_EPERM <> 0 -> fd ∈ epoll_eperms l';
  st_egen : 0 <= egen (fd_at l' fd) < 2 ^ 32;
  st_settled : settled l' fd
}.

Lemma settles_ok l l' fd : io_ok l -> 0 <= fd < zlen (anfds l) -> settles l l' fd -> io_ok l'.
Proof.
  intros O Hr []. pose proof O as []. assert (forall w, wat l' w = wat l w) as Hw by (intros; by apply wat_eq).
  assert (forall fd', fd_core l' fd') as C.
  { intros fd'. destruct (decide (fd' = fd)) as [->|Hn]; [|eapply fd_core_agrees; eauto].
    destruct (ok_core0 fd), st_settled0. split; rewrite ?st_head0, ?st_open0, ?st_changes0; try done.
    - intros w. by rewrite Hw.
    - right. rewrite <- st_head0. done.
    - intros m g Hi. destruct (st_knows0 m g Hi) as (?&?&?). rewrite st_size0, <- st_open0. split_and!; done || lia.
    - split; [|done]. rewrite s_wanted0, st_head0. apply wanted_lt4. intros w Hin. rewrite Hw. apply fc_head0 in Hin as [Ha _].
      by destruct (wo_active _ _ (ok_w0 w) Ha). }
  split; rewrite ?st_changes0, ?st_size0; try done.
  - intros fd'. destruct (decide (fd' = fd)) as [->|Hn]; [by apply settled_reg|eapply fd_reg_agrees; eauto].
  - intros w. destruct (ok_w0 w). split; by rewrite ?Hw, ?st_size0, ?st_closes0, ?st_pend0.
  - intros i w e. rewrite st_pend0, Hw. apply ok_pend0.
Qed.

Lemma backend_settles l l1 l' fd m g :
  (forall fd', fd' <> fd -> agrees l l1 fd') -> backend l1 l' fd m g ->
  fdchanges l1 = fdchanges l -> watchers l1 = watchers l -> pendings l1 = pendings l -> closes l1 = closes l ->
  zlen (anfds l1) = zlen (anfds l) -> kern l1 = kern l -> head (fd_at l1 fd) = head (fd_at l fd) -> reify (fd_at l1 fd) = 0 ->
  events (fd_at l1 fd) = wanted l (head (fd_at l fd)) ->
  knows l' fd -> (Z.land (emask (fd_at l' fd)) EV_EMASK_EPERM <> 0 -> fd ∈ epoll_eperms l') -> 0 <= g < 2 ^ 32 -> registered l' fd ->
  settles l l' fd.
Proof.
  intros A B ? ? ? ? ? Hk Hh Hre Hev Hkn Hep Hg Hreg. pose proof B as [].
  assert (fd_at l' fd = Anfd (head (fd_at l1 fd)) (events (fd_at l1 fd)) (reify (fd_at l1 fd)) m g) as E by (by rewrite b_at0, Z.eqb_refl).
  split; rewrite ?E; simpl; try done; try congruence.
  - intros fd' Hn. eapply agrees_trans; [by apply A|]. by eapply backend_agrees.
  - rewrite E in Hep. done.
  - split; rewrite ?E; simpl; try done; [|by right]. rewrite Hev, Hh. symmetry. apply wanted_ext. intros w _.
    f_equal. apply wat_eq. congruence.
Qed.

Lemma wanted_nonzero l ws : wanted l ws <> 0 -> ws <> [].
Proof. by intros H ->. Qed.

(** The part of [reify_fd] before the back end is called. *)
Lemma anfd_only_agrees l fd fd' a : fd' <> fd -> agrees l (set_anfd fd a l) fd'.
Proof. intros. split; try done; [by apply fd_at_set_ne|]. simpl. by rewrite zlen_put. Qed.

Lemma reify_plain_settles l fd :
  io_ok l -> 0 <= fd < zlen (anfds l) -> let a := fd_at l fd in
  wanted l (head a) = 0 \/ (events a = wanted l (head a) /\ registered l fd) ->
  settles l (set_anfd fd (Anfd (head a) (wanted l (head a)) 0 (emask a) (egen a)) l) fd.
Proof.
  intros O Hr a Hc. set (l1 := set_anfd fd _ l). pose proof (ok_core _ O fd) as [].
  assert (fd_at l1 fd = Anfd (head a) (wanted l (head a)) 0 (emask a) (egen a)) as E by by apply fd_at_set_eq.
  split; rewrite ?E; try done.
  - intros. by apply anfd_only_agrees.
  - apply zlen_put.
  - intros m g Hi. rewrite E. destruct (fc_kern0 m g Hi) as (?&?&?&?). by split_and!.
  - apply fc_bits0.
  - split; rewrite ?E; simpl; [done|by apply wanted_ext|]. destruct Hc as [|[Hc Hg]]; [by left|right].
    unfold registered in *. rewrite E. simpl. fold a in Hg. by rewrite <- Hc.
Qed.

Lemma reify_fd_settles l fd : io_ok l -> 0 <= fd < zlen (anfds l) -> settles l (reify_fd l fd) fd.
Proof.
  intros O Hr. unfold reify_fd. set (a := fd_at l fd). set (nev := wanted l (head a)). set (l1 := set_anfd fd _ l).
  pose proof (reify_plain_settles l fd O Hr) as Hplain. fold a nev l1 in Hplain.
  destruct (decide (nev = 0)) as [E0|E0].
  { assert (epoll_modify fd (events a) nev l1 = l1) as -> by (unfold epoll_modify; by rewrite E0).
    destruct (_ =? 0); apply Hplain; by left. }
  pose proof (ok_core _ O fd) as []. fold a nev in fc_nodup0, fc_open0, fc_reify0, fc_same0, fc_kern0, fc_eperm0, fc_bits0.
  destruct (Z.eqb_spec (Z.land (if events a =? nev then reify a else EV__IOFDSET) EV__IOFDSET) 0) as [Es|_].
  { apply Hplain. right. destruct (Z.eqb_spec (events a) nev) as [Ee|]; [|done]. split; [done|].
    destruct (fr_reg _ _ (ok_reg _ O fd)) as [Hz|[|[_ [Hu|Hh]]]]; [unfold a in *; congruence|done|done|].
    fold a in Hh. unfold nev in E0. by rewrite Hh in E0. }
  assert (fd_at l1 fd = Anfd (head a) nev 0 (emask a) (egen a)) as E by by apply fd_at_set_eq.
  assert (zlen (anfds l1) = zlen (anfds l)) as Hz by apply zlen_put.
  destruct (epoll_modify_registers fd (events a) l1) as (g & Hg & Hcase); rewrite ?E, ?Hz; try done.
  - apply fc_open0. by apply wanted_nonzero in E0.
  - intros m g Hi. rewrite E. destruct (fc_kern0 m g Hi) as (?&?&?&?). by split_and!.
  - apply fc_bits0.
  - rewrite E in Hcase. simpl in Hcase. set (l' := epoll_modify fd (events a) nev l1) in *. clearbody l'.
    destruct Hcase as [(Ho & B & Hi & He)|(Ho & B & Hi & He)].
    + assert (fd_at l' fd = Anfd (head a) nev 0 nev g) as E' by (by rewrite (b_at _ _ _ _ _ B), Z.eqb_refl, E).
      eapply (backend_settles l l1 l' fd nev g); try done; rewrite ?E, ?E'; try done.
      * intros. by apply anfd_only_agrees.
      * intros m g' Hi'. rewrite Hi in Hi'. injection Hi' as <- <-. rewrite (b_open _ _ _ _ _ B), E'. split; [done|]. simpl. auto.
      * intros Hn. destruct Hn. apply lt4_no_set, wanted_lt4. intros w Hin. apply fc_head0 in Hin as [Ha _].
        by destruct (wo_active _ _ (ok_w _ O w) Ha).
      * unfold registered. rewrite (b_open _ _ _ _ _ B), E'. change (opened (kern l1)) with (opened (kern l)) in *. by rewrite Ho.
    + assert (fd_at l' fd = Anfd (head a) nev 0 EV_EMASK_EPERM g) as E' by (by rewrite (b_at _ _ _ _ _ B), Z.eqb_refl, E).
      change (kern l1) with (kern l) in *.
      eapply (backend_settles l l1 l' fd _ g); try done; rewrite ?E, ?E'; try done.
      * intros. by apply anfd_only_agrees.
      * intros m g' Hi'. rewrite Hi in Hi'. destruct (fc_kern0 m g' Hi') as (?&_). congruence.
      * unfold registered. rewrite (b_open _ _ _ _ _ B), E'. change (opened (kern l1)) with (opened (kern l)). by rewrite Ho.
Qed.

Lemma reify_all_spec fds l :
  io_ok l -> (forall fd, fd ∈ fds -> 0 <= fd < zlen (anfds l)) ->
  let l' := fold_left reify_fd fds l in
  io_ok l' /\ (forall fd, fd ∈ fds \/ settled l fd -> settled l' fd) /\ fdchanges l' = fdchanges l /\ watchers l' = watchers l /\
  opened (kern l') = opened (kern l) /\ pendings l' = pendings l /\ (forall fd, head (fd_at l' fd) = head (fd_at l fd)).
Proof.
  revert l. induction fds as [|fd fds IH]; intros l O Hr; simpl; [split_and!; try done; set_solver|].
  pose proof (reify_fd_settles l fd O (Hr fd ltac:(set_solver))) as S. set (l1 := reify_fd l fd) in *. clearbody l1.
  pose proof (settles_ok l l1 fd O (Hr fd ltac:(set_solver)) S) as O1. pose proof S as [].
  destruct (IH l1 O1) as (Ho&Hs&Hc&Hw&Hk&Hp&Hh); [rewrite st_size0; set_solver|]. split_and!; try congruence; try done.
  - intros fd' Hin. apply Hs. destruct (decide (fd' = fd)) as [->|Hn]; [by right|].
    destruct Hin as [Hin|Hin]; [left; set_solver|right]. eapply settled_agrees; [by apply st_other0|apply O|done].
  - intros fd'. rewrite Hh. destruct (decide (fd' = fd)) as [->|Hn]; [done|]. by rewrite (ag_fd _ _ _ (st_other0 fd' Hn)).
Qed.

(** After [fd_reify] no change is queued, and the back end does for every descriptor what its
    watchers ask for. *)
Lemma fd_reify_settles l :
  io_ok l -> let l' := fd_reify l in
  io_ok l' /\ (forall fd, settled l' fd) /\ fdchanges l' = [] /\ watchers l' = watchers l /\
  opened (kern l') = opened (kern l) /\ pendings l' = pendings l /\ (forall fd, head (fd_at l' fd) = head (fd_at l fd)).
Proof.
  intros O l'. destruct (reify_all_spec (fdchanges l) l O (ok_changes _ O)) as (Ho&Hs&Hc&Hw&Hk&Hp&Hh).
  subst l'. unfold fd_reify. set (l1 := fold_left _ _ l) in *. clearbody l1. rewrite Hc, drop_all. pose proof Ho as [].
  assert (forall fd, settled l1 fd) as S.
  { intros fd. destruct (decide (fd ∈ fdchanges l)) as [Hin|Hin]; [apply Hs; by left|]. rewrite <- Hc in Hin.
    destruct (ok_core0 fd), (ok_reg0 fd). split; [destruct (decide (reify (fd_at l1 fd) = 0)); [done|naive_solver]|naive_solver|naive_solver]. }
  assert (forall fd, settled (set_changes [] l1) fd) as S' by (intros fd; by destruct (S fd)).
  split_and!; try done.
  - split; try done.
    + intros fd. destruct (ok_core0 fd), (S fd). split; try done. by right.
    + intros fd. apply settled_reg, S'.
    + intros w. by destruct (ok_w0 w).
    + intros fd Hin. by apply not_elem_of_nil in Hin.
Qed.

(** ** [epoll_poll] *)

Lemma reg_now l fd : events (fd_at l fd) = 0 \/ registered l fd -> fd_reg l fd.
Proof. intros [|]; split; auto; by intros. Qed.

Lemma backend_ok l l' fd m g :
  io_ok l -> backend l l' fd m g -> knows l' fd -> (is_Some (interest (kern l') !! fd) -> 0 <= fd < zlen (anfds l)) ->
  (Z.land m EV_EMASK_EPERM <> 0 -> fd ∈ epoll_eperms l') -> 0 <= g < 2 ^ 32 -> fd_reg l' fd -> io_ok l'.
Proof.
  intros O B K Hr He Hg R. pose proof O as []. pose proof B as [].
  assert (forall w, wat l' w = wat l w) as Hw by (intros; by apply wat_eq).
  assert (fd_at l' fd = Anfd (head (fd_at l fd)) (events (fd_at l fd)) (reify (fd_at l fd)) m g) as E by (by rewrite b_at0, Z.eqb_refl).
  split; rewrite ?b_changes0, ?b_size0; try done.
  - intros fd'. destruct (decide (fd' = fd)) as [->|Hn]; [|eapply fd_core_agrees; [by eapply backend_agrees|done]].
    destruct (ok_core0 fd). split; rewrite ?E, ?b_open0, ?b_changes0; simpl; try done.
    + intros w. by rewrite Hw.
    + destruct fc_same0 as [|Hs]; [by left|right]. rewrite Hs. symmetry. apply wanted_ext. intros w _. by rewrite Hw.
    + intros m' g' Hi. destruct (K m' g' Hi) as (?&?&?). rewrite E in *. rewrite b_size0, <- b_open0.
      assert (0 <= fd < zlen (anfds l)) by eauto. split_and!; done || lia.
    + split; [apply fc_bits0|done].
  - intros fd'. destruct (decide (fd' = fd)) as [->|Hn]; [done|eapply fd_reg_agrees; [by eapply backend_agrees|done]].
  - intros w. destruct (ok_w0 w). split; by rewrite ?Hw, ?b_size0, ?b_closes0, ?b_pend0.
  - intros i w e. rewrite b_pend0, Hw. apply ok_pend0.
Qed.

(** The interest list after an event that nobody asked for. *)
Definition corrected (l : loop) (fd gen : Z) : loop :=
  let want := events (fd_at l fd) in
  back_as l fd want gen (if want =? 0 then delete fd (interest (kern l)) else <[fd := (want, gen)]> (interest (kern l))) (epoll_eperms l).

Lemma poll_reported_eq l fd got m gen :
  io_ok l -> interest (kern l) !! fd = Some (m, gen) ->
  poll_reported l (fd, got) = fd_event fd got (if Z.ldiff got (events (fd_at l fd)) =? 0 then l else corrected l fd gen).
Proof.
  intros O Hi. destruct (fc_kern _ _ (ok_core _ O fd) m gen Hi) as (Ho & Hg & _ & Hr).
  unfold poll_reported. simpl. rewrite Hi. unfold poll_event.
  destruct (Z.ltb_spec fd 0), (Z.leb_spec (zlen (anfds l)) fd); try lia. simpl. rewrite Hg, Z.eqb_refl. simpl.
  destruct (_ =? 0); [done|]. unfold epoll_ctl. simpl. rewrite Ho, Hi. unfold corrected, back_as.
  destruct (events (fd_at l fd) =? 0); done.
Qed.

Lemma corrected_ok l fd m gen : io_ok l -> interest (kern l) !! fd = Some (m, gen) -> io_ok (corrected l fd gen).
Proof.
  intros O Hi. destruct (fc_kern _ _ (ok_core _ O fd) m gen Hi) as (Ho & Hg & _ & Hr). pose proof (fc_bits _ _ (ok_core _ O fd)) as [Hb Hb'].
  set (want := events (fd_at l fd)) in *.
  assert (backend l (corrected l fd gen) fd want gen) as B.
  { apply back_as_backend; [done| |done]. intros fd' Hn. destruct (_ =? 0); [by rewrite lookup_delete_ne|by rewrite lookup_insert_ne]. }
  assert (fd_at (corrected l fd gen) fd = Anfd (head (fd_at l fd)) want (reify (fd_at l fd)) want gen) as E by (by rewrite (b_at _ _ _ _ _ B), Z.eqb_refl).
  apply (backend_ok l _ fd want gen); try done.
  - intros m' g'. rewrite E. simpl. fold want. destruct (Z.eqb_spec want 0); [by rewrite lookup_delete_eq|].
    rewrite lookup_insert_eq. intros [= <- <-]. auto.
  - intros Hn. by rewrite lt4_no_set in Hn.
  - rewrite Hg. done.
  - apply reg_now. rewrite E. simpl. destruct (Z.eqb_spec want 0) as [|Hw]; [by left|right].
    unfold registered. rewrite E. simpl. rewrite Ho. fold want. destruct (Z.eqb_spec want 0); [done|]. by rewrite lookup_insert_eq.
Qed.

Lemma poll_reported_ok l ev : io_ok l -> io_ok (poll_reported l ev).
Proof.
  intros O. destruct ev as [fd got]. destruct (interest (kern l) !! fd) as [[m g]|] eqn:Hi.
  - rewrite (poll_reported_eq l fd got m g) by done. apply fd_event_ok. destruct (_ =? 0); [done|by eapply corrected_ok].
  - unfold poll_reported. simpl. by rewrite Hi.
Qed.

(** The list of those that cannot be polled, without the entry at [i]. *)
Definition drop_eperm (i : nat) (e : list Z) : list Z :=
  match last e with Some z => removelast (<[i := z]> e) | None => [] end.

Lemma drop_eperm_elem i e fd x : e !! i = Some fd -> x <> fd -> x ∈ drop_eperm i e <-> x ∈ e.
Proof.
  intros Hi Hx. unfold drop_eperm. destruct e as [|z k _] using rev_ind; [done|]. rewrite last_snoc.
  destruct (decide (i < length k)%nat) as [Hl|Hl].
  - rewrite insert_app_l, removelast_last by done. rewrite lookup_app_l in Hi by done.
    apply list_elem_of_split_length in Hi as (k1 & k2 & -> & Hlen). 
    rewrite <- (Nat.add_0_r i), Hlen, insert_app_r. simpl. set_solver.
  - apply lookup_lt_Some in Hi as Hlt. rewrite length_app in Hlt. simpl in Hlt. assert (i = length k) as -> by lia.
    rewrite lookup_app_r, Nat.sub_diag in Hi by lia. injection Hi as ->.
    rewrite <- (Nat.add_0_r (length k)), insert_app_r. simpl. rewrite removelast_last. set_solver.
Qed.

Lemma drop_eperm_take i e : (i < length e)%nat -> take i (drop_eperm i e) = take i e /\ length (drop_eperm i e) = (length e - 1)%nat.
Proof.
  intros Hi. unfold drop_eperm. destruct e as [|z k _] using rev_ind; [simpl in Hi; lia|]. rewrite last_snoc.
  rewrite length_app in Hi |- *. simpl in Hi |- *. destruct (decide (i < length k)%nat) as [Hl|Hl].
  - rewrite insert_app_l, removelast_last by done. rewrite take_insert_ge, take_app_le by lia. rewrite length_insert. split; [done|lia].
  - assert (i = length k) as -> by lia. assert (<[length k := z]> (k ++ [z]) = k ++ [z]) as -> by (apply list_insert_id; by rewrite lookup_app_r, Nat.sub_diag by lia).
    rewrite removelast_last, take_app_length, firstn_all. split; [done|lia].
Qed.

(** One round of [poll_eperms]. *)
Definition eperm_round (i : nat) (fd : Z) (l : loop) : loop :=
  let a := fd_at l fd in
  let evs := Z.land (events a) (Z.lor EV_READ EV_WRITE) in
  if negb (Z.land (emask a) EV_EMASK_EPERM =? 0) && negb (evs =? 0) then fd_event fd evs l
  else set_anfd fd (Anfd (head a) (events a) (reify a) 0 (egen a)) (set_eperms (drop_eperm i (epoll_eperms l)) l).

Lemma poll_eperms_S i l :
  poll_eperms (S i) l = match epoll_eperms l !! i with None => l | Some fd => poll_eperms i (eperm_round i fd l) end.
Proof. done. Qed.

Lemma eperm_drop_backend i fd l :
  epoll_eperms l !! i = Some fd -> let a := fd_at l fd in
  backend l (set_anfd fd (Anfd (head a) (events a) (reify a) 0 (egen a)) (set_eperms (drop_eperm i (epoll_eperms l)) l)) fd 0 (egen a).
Proof.
  intros Hi a. split; try done.
  - intros fd'. zcase; [subst|by rewrite fd_at_set_ne by lia].
    destruct (decide (0 <= fd < zlen (anfds l))) as [Hr|Hr]; [by rewrite fd_at_set_eq|].
    assert (zget (anfds l) fd = None) as Hz by (apply zget_None; lia). subst a. unfold fd_at. simpl.
    rewrite Hz, (proj2 (zget_None _ _)); [done|rewrite zlen_put; lia].
  - simpl. apply zlen_put.
  - intros fd' Hn. by apply (drop_eperm_elem i _ fd).
Qed.

Lemma rw_lt4 e : 0 <= e < 4 -> Z.land e (Z.lor EV_READ EV_WRITE) = e.
Proof. by intros [->|[->|[->| ->]]]%lt4_cases. Qed.

Lemma eperm_round_ok i fd l : io_ok l -> epoll_eperms l !! i = Some fd -> io_ok (eperm_round i fd l).
Proof.
  intros O Hi. unfold eperm_round. destruct (ok_core _ O fd), fc_bits0 as [Hb Hg]. rewrite rw_lt4 by done.
  destruct (negb _ && _) eqn:Ec; [by apply fd_event_ok|].
  pose proof (eperm_drop_backend i fd l Hi) as B. cbv zeta in B. set (l' := set_anfd _ _ _) in *.
  assert (kern l' = kern l) as Hk by done. assert (closes l' = closes l /\ fdchanges l' = fdchanges l) as [Hc Hd] by done.
  assert (forall w, wat l' w = wat l w) as Hw by done. clearbody l'.
  assert (fd_at l' fd = Anfd (head (fd_at l fd)) (events (fd_at l fd)) (reify (fd_at l fd)) 0 (egen (fd_at l fd))) as E by (by rewrite (b_at _ _ _ _ _ B), Z.eqb_refl).
  assert (events (fd_at l fd) <> 0 -> registered l fd -> registered l' fd) as Hreg.
  { unfold registered. rewrite Hk, E. simpl. destruct (opened (kern l) !! fd) as [[]|]; try done.
    intros Hz [Hm _]. rewrite Hm in Ec. simpl in Ec. destruct (Z.eqb_spec (events (fd_at l fd)) 0); done. }
  apply (backend_ok l l' fd 0 (egen (fd_at l fd))); try done.
  - intros m g. rewrite Hk, E. simpl. intros Hint. destruct (fc_kern0 m g Hint) as (?&?&?&?). auto.
  - rewrite Hk. intros [[m g] Hint]. by destruct (fc_kern0 m g Hint) as (?&?&?&?).
  - destruct (ok_reg _ O fd) as [R F]. destruct (decide (events (fd_at l fd) = 0)) as [Hz|Hz]; [apply reg_now; rewrite E; by left|].
    split; unfold unset; rewrite E, ?Hd; simpl.
    + destruct R as [|[|]]; [by left|right; left; auto|by right; right].
    + intros w _ Hn. rewrite Hw, Hc. apply F; [done|]. intros H. by apply Hn, Hreg.
Qed.

Lemma poll_eperms_ok i l : io_ok l -> io_ok (poll_eperms i l).
Proof.
  revert l. induction i as [|i IH]; intros l O; [done|]. rewrite poll_eperms_S.
  destruct (epoll_eperms l !! i) eqn:Hi; [|done]. by apply IH, eperm_round_ok.
Qed.

(** ** After a fork *)

Lemma rearm_core l fd fd' :
  0 <= fd < zlen (anfds l) -> (forall x, fd_core l x) -> fd_core (rearm_fd l fd) fd'.
Proof.
  intros Hr C. unfold rearm_fd. destruct (Z.eqb_spec (events (fd_at l fd)) 0) as [|Hz]; [apply C|].
  set (a := fd_at l fd). set (l1 := set_anfd fd _ l). set (fl := Z.lor EV__IOFDSET EV_ANFD_REIFY).
  assert (zlen (anfds l1) = zlen (anfds l)) as Z1 by apply zlen_put.
  destruct (fd_change_rest fd fl l1) as (Rw&Rp&Re&Rk&Rc&Rs&Rch).
  assert (fd_at l1 fd = Anfd (head a) 0 (reify a) 0 (egen a)) as A1 by by apply fd_at_set_eq.
  assert (forall x, fd_at (fd_change fd fl l1) x = if x =? fd then Anfd (head a) 0 (Z.lor (reify a) fl) 0 (egen a) else fd_at l1 x) as Rat.
  { intros x. rewrite fd_change_at by lia. by rewrite A1. }
  rewrite A1 in Rch. set (l' := fd_change fd fl l1) in *. clearbody l'.
  assert (forall w, wat l' w = wat l w) as Hw by (intros; by apply wat_eq).
  destruct (decide (fd' = fd)) as [->|Hn].
  - destruct (C fd). assert (fd_at l' fd = Anfd (head a) 0 (Z.lor (reify a) fl) 0 (egen a)) as E by (by rewrite Rat, Z.eqb_refl).
    assert (fd ∈ fdchanges l') as Hin by (apply Rch; destruct (decide (reify a = 0)); [by right|left; by apply fc_reify0]).
    split; rewrite ?E, ?Rk, ?Re; simpl; try done; [|by left| |].
    + intros w. by rewrite Hw.
    + intros m g Hi. destruct (fc_kern0 m g Hi) as (?&?&?&?). rewrite Rs, Z1. split_and!; auto; lia.
    + split; [lia|apply fc_bits0].
  - eapply fd_core_agrees; [|apply C]. split; rewrite ?Rk, ?Re, ?Rc, ?Rs, ?Z1; try done.
    + rewrite Rat. zcase; [done|]. apply fd_at_set_ne. lia.
    + rewrite Rch. change (fdchanges l1) with (fdchanges l). tauto.
    + intros w _. by rewrite Hw.
Qed.

Lemma rearm_rest l fd :
  0 <= fd < zlen (anfds l) -> let l' := rearm_fd l fd in
  watchers l' = watchers l /\ pendings l' = pendings l /\ closes l' = closes l /\ zlen (anfds l') = zlen (anfds l) /\
  (forall x, x ∈ fdchanges l' -> x ∈ fdchanges l \/ x = fd) /\
  (forall x, x = fd \/ events (fd_at l x) = 0 -> events (fd_at l' x) = 0).
Proof.
  intros Hr. unfold rearm_fd. destruct (Z.eqb_spec (events (fd_at l fd)) 0) as [|Hz]; [split_and!; try done; naive_solver|].
  set (l1 := set_anfd fd _ l). set (fl := Z.lor _ _). assert (zlen (anfds l1) = zlen (anfds l)) as Z1 by apply zlen_put.
  destruct (fd_change_rest fd fl l1) as (Rw&Rp&_&_&Rc&Rs&Rch). cbv zeta. rewrite Rs, Rw, Rp, Rc. split_and!; try done.
  - intros x. rewrite Rch. change (fdchanges l1) with (fdchanges l). tauto.
  - intros x Hx. rewrite fd_change_at by lia. zcase; simpl; [unfold l1; by rewrite fd_at_set_eq|].
    destruct Hx; [done|]. unfold l1. rewrite fd_at_set_ne; [done|lia].
Qed.

Lemma rearm_all_spec fds l :
  (forall x, fd_core l x) -> (forall fd, fd ∈ fds \/ fd ∈ fdchanges l -> 0 <= fd < zlen (anfds l)) ->
  let l' := fold_left rearm_fd fds l in
  (forall x, fd_core l' x) /\ (forall fd, fd ∈ fdchanges l' -> 0 <= fd < zlen (anfds l)) /\
  (forall x, x ∈ fds \/ events (fd_at l x) = 0 -> events (fd_at l' x) = 0) /\
  watchers l' = watchers l /\ pendings l' = pendings l /\ closes l' = closes l /\ zlen (anfds l') = zlen (anfds l).
Proof.
  revert l. induction fds as [|fd fds IH]; intros l C Hr; simpl; [split_and!; try done; [auto|intros x [Hx|]; [set_solver|done]]|].
  assert (0 <= fd < zlen (anfds l)) as Hf by (apply Hr; left; set_solver).
  destruct (rearm_rest l fd Hf) as (Ew&Ep&Ec&Es&Hch&Hev). set (l1 := rearm_fd l fd) in *.
  assert (forall x, fd_core l1 x) as C1 by (intros; by apply rearm_core). clearbody l1.
  destruct (IH l1 C1) as (C'&Hc'&He'&Hw'&Hp'&Hcl'&Hs').
  { rewrite Es. intros x [Hx|Hx]; [apply Hr; left; set_solver|]. destruct (Hch x Hx) as [| ->]; [apply Hr; by right|done]. }
  split_and!; try congruence; try done; [by rewrite <- Es|].
  intros x Hx. apply He'. destruct (decide (x = fd)) as [->|Hn]; [right; auto|]. destruct Hx; [left; set_solver|right; auto].
Qed.

Lemma epoll_fork_ok l : io_ok l -> io_ok (epoll_fork l).
Proof.
  intros O. unfold epoll_fork. set (l0 := set_kernel _ l). pose proof O as [].
  assert (forall x, fd_core l0 x) as C0 by (intros x; by destruct (ok_core0 x)).
  destruct (rearm_all_spec (seqZ 0 (zlen (anfds l))) l0 C0) as (C&Hch&Hev&Ew&Ep&Ec&Es).
  { intros fd [Hfd|Hfd]; [apply elem_of_seqZ in Hfd; simpl; lia|by apply ok_changes0]. }
  set (l' := fold_left _ _ _) in *. clearbody l'.
  assert (forall w, wat l' w = wat l w) as Hw by (intros; by apply wat_eq).
  split; rewrite ?Es; try done.
  - intros fd. apply reg_now. left. apply Hev. destruct (decide (0 <= fd < zlen (anfds l))) as [Hr|Hr]; [left; apply elem_of_seqZ; lia|right].
    change (fd_at l0 fd) with (fd_at l fd). unfold fd_at. by rewrite (proj2 (zget_None _ _)) by lia.
  - intros w. destruct (ok_w0 w). split; by rewrite ?Hw, ?Es, ?Ec, ?Ep.
  - intros i w e. rewrite Ep, Hw. apply ok_pend0.
Qed.

(** ** Executions *)

Lemma new_loop_ok : io_ok new_loop.
Proof.
  assert (forall fd, fd_at new_loop fd = anfd0) as E by (intros; unfold fd_at, zget; simpl; zcase; [done|by rewrite lookup_nil]).
  assert (forall w, wat new_loop w = EvIo 0 0 false 0 0) as W by (intros; unfold wat; simpl; by rewrite lookup_total_empty).
  split; try done.
  - intros fd. split; rewrite ?E; try done; [constructor| |by right].
    intros w. rewrite W. simpl. split; [intros H; by apply not_elem_of_nil in H|naive_solver].
  - intros fd. apply reg_now. left. by rewrite E.
  - intros w. split; rewrite W; try done. by left.
  - intros fd H. by apply not_elem_of_nil in H.
  - intros i w e H. apply zget_Some_range in H. unfold zlen in H. simpl in H. lia.
Qed.

Lemma io_step_ok l o : io_ok l -> io_ok (step l o).
Proof.
  intros O. destruct o; [..|].
  - simpl. destruct (io_active (wat l w)) eqn:Ha; [done|]. simpl. destruct (Z.leb_spec 0 fd), (Z.ltb_spec fd INT_MAX); simpl; try done.
    by apply ev_io_set_ok.
  - simpl. case_bool_decide; [|done]. simpl. zcase; [|done]. by apply ev_io_start_ok.
  - by apply ev_io_stop_ok.
  - by apply ev_io_modify_ok.
  - simpl. case_bool_decide; [|done]. by apply io_open_ok.
  - by apply close_ok.
  - by apply fd_reify_settles.
  - simpl. revert l O. induction evs; intros l O; simpl; [done|]. by apply IHevs, poll_reported_ok.
  - by apply poll_eperms_ok.
  - simpl. destruct (io_invoke_quiet l (io_pend_ok _ O)). by eapply io_ok_quiet.
  - by apply epoll_fork_ok.
Qed.

Lemma io_run_ok ops : io_ok (run ops).
Proof.
  unfold run. pose proof new_loop_ok as O. revert O. generalize new_loop. induction ops; intros l O; simpl; [done|]. by apply IHops, io_step_ok.
Qed.

(** ** What a round delivers *)

Lemma wanted_incl l ws w : w ∈ ws -> Z.land (io_events (wat l w)) (wanted l ws) = io_events (wat l w).
Proof.
  unfold wanted. generalize 0 as z. induction ws as [|x ws IH]; intros z Hin; [by apply not_elem_of_nil in Hin|]. simpl.
  apply elem_of_cons in Hin as [->|Hin]; [|by apply IH].
  assert (Z.land (io_events (wat l x)) (Z.lor z (io_events (wat l x))) = io_events (wat l x)) as H by apply land_lor_self.
  revert H. generalize (Z.lor z (io_events (wat l x))) as y. clear IH. induction ws as [|x' ws IH]; intros y Hy; simpl; [done|].
  apply IH. by apply land_lor_keep.
Qed.

Lemma fd_event_told l fd got w :
  io_ok l -> reify (fd_at l fd) = 0 -> w ∈ head (fd_at l fd) -> Z.land (io_events (wat l w)) got <> 0 ->
  told (fd_event fd got l) w (Z.land (io_events (wat l w)) got).
Proof.
  intros O Hz Hw Hn. unfold fd_event. rewrite Hz. simpl.
  destruct (fd_event_nocheck_spec fd got l (io_pend_ok _ O)) as (_&_&H). by apply H.
Qed.

Lemma fd_event_keeps l fd got w e : io_ok l -> told l w e -> told (fd_event fd got l) w e.
Proof.
  intros O Ht. unfold fd_event. zcase; [|done].
  destruct (feed_all_spec got (head (fd_at l fd)) l (io_pend_ok _ O)) as (_&_&K&_). by apply K.
Qed.

Lemma eperm_round_keeps i fd l w e : io_ok l -> told l w e -> told (eperm_round i fd l) w e.
Proof. intros O Ht. unfold eperm_round. destruct (negb _ && _); [by apply fd_event_keeps|done]. Qed.

Lemma poll_eperms_keeps i l w e : io_ok l -> told l w e -> told (poll_eperms i l) w e.
Proof.
  revert l. induction i as [|i IH]; intros l O Ht; [done|]. rewrite poll_eperms_S.
  destruct (epoll_eperms l !! i) eqn:Hi; [|done]. apply IH; [by apply eperm_round_ok|by apply eperm_round_keeps].
Qed.

(** A round of another descriptor leaves this one, and the entries before it. *)
Lemma eperm_round_other i fd fd' l :
  io_ok l -> epoll_eperms l !! i = Some fd' -> fd' <> fd ->
  fd_at (eperm_round i fd' l) fd = fd_at l fd /\ (forall w, io_events (wat (eperm_round i fd' l) w) = io_events (wat l w)) /\
  take i (epoll_eperms (eperm_round i fd' l)) = take i (epoll_eperms l) /\ (i <= length (epoll_eperms (eperm_round i fd' l)))%nat.
Proof.
  intros O Hi Hn. apply lookup_lt_Some in Hi as Hl. unfold eperm_round. destruct (negb _ && _).
  - unfold fd_event. zcase; [|split_and!; try done; lia].
    destruct (fd_event_nocheck_spec fd' (Z.land (events (fd_at l fd')) (Z.lor EV_READ EV_WRITE)) l (io_pend_ok _ O)) as (Q&_&_).
    pose proof Q as []. rewrite q_eperms0. split_and!; try done; [apply (quiet_agrees _ _ fd Q)| |lia]. intros w. by destruct (q_w0 w) as (_&?&_).
  - destruct (drop_eperm_take i (epoll_eperms l) Hl) as [E1 E2]. split_and!; [by rewrite fd_at_set_ne|done|done|simpl; lia].
Qed.

Lemma poll_eperms_told i l fd w :
  io_ok l -> (i <= length (epoll_eperms l))%nat -> fd ∈ take i (epoll_eperms l) -> emask (fd_at l fd) = EV_EMASK_EPERM ->
  reify (fd_at l fd) = 0 -> w ∈ head (fd_at l fd) -> io_events (wat l w) <> 0 -> events (fd_at l fd) = wanted l (head (fd_at l fd)) ->
  told (poll_eperms i l) w (io_events (wat l w)).
Proof.
  revert l. induction i as [|i IH]; intros l O Hl Hin Hm Hr Hw Hz Hev; [by apply not_elem_of_nil in Hin|]. rewrite poll_eperms_S.
  destruct (lookup_lt_is_Some_2 (epoll_eperms l) i) as [fd' Hi]; [lia|]. rewrite Hi.
  pose proof (eperm_round_ok i fd' l O Hi) as O'. destruct (decide (fd' = fd)) as [->|Hn].
  - apply poll_eperms_keeps; [done|]. unfold eperm_round. rewrite Hm, rw_lt4 by apply (ok_core _ O).
    pose proof (wanted_incl l _ w Hw) as Hi'. rewrite <- Hev in Hi'.
    destruct (Z.eqb_spec (events (fd_at l fd)) 0) as [E|E]; [rewrite E, Z.land_0_r in Hi'; congruence|]. simpl.
    pose proof (fd_event_told l fd (events (fd_at l fd)) w O Hr Hw) as Ht. rewrite Hi' in Ht. by apply Ht.
  - destruct (eperm_round_other i fd fd' l O Hi Hn) as (E1&E2&E3&E4). rewrite <- (E2 w). rewrite <- E1 in Hm, Hr, Hw, Hev.
    apply IH; try done; [|by rewrite E2|].
    + rewrite E3. rewrite (take_S_r _ _ _ Hi) in Hin. set_solver.
    + rewrite Hev. symmetry. by apply wanted_ext.
Qed.

(** C12: the descriptors of the event loop. In any use of io watchers as libev's manual asks, on
    descriptors that are not duplicated, when [fd_reify] has run, the back end does for every descriptor what its active watchers ask for: the
    kernel's interest list has exactly the union of their masks, or the descriptor cannot be polled and
    is on [epoll_eperms]. An event the kernel then reports makes every interested watcher pending with
    the events it asked for, and watchers of descriptors that cannot be polled are made pending by
    [epoll_poll] itself. *)
Theorem io_watchers_served ops w :
  let l := run (ops ++ [Reify]) in let fd := io_fd (wat l w) in let evs := io_events (wat l w) in
  io_active (wat l w) = true -> evs <> 0 ->
  (exists gen, interest (kern l) !! fd = Some (wanted l (head (fd_at l fd)), gen) /\ Z.land evs (wanted l (head (fd_at l fd))) = evs /\
     forall got, Z.land evs got <> 0 -> told (step l (Poll [(fd, got)])) w (Z.land evs got)) \/
  (opened (kern l) !! fd = Some false /\ fd ∈ epoll_eperms l /\ told (step l Eperms) w evs).
Proof.
  intros l fd evs Ha Hz. assert (l = fd_reify (run ops)) as El by (unfold l, run; by rewrite fold_left_app).
  destruct (fd_reify_settles (run ops) (io_run_ok ops)) as (O&S&_). rewrite <- El in O, S. clearbody l. clear El.
  pose proof (ok_core _ O fd) as []. assert (w ∈ head (fd_at l fd)) as Hw by by apply fc_head0.
  destruct (S fd) as [Hr Hev Hreg]. pose proof (wanted_incl l _ w Hw) as Hi. fold evs in Hi. rewrite <- Hev in Hi |- *.
  destruct Hreg as [E|Hreg]; [rewrite E, Z.land_0_r in Hi; congruence|]. unfold registered in Hreg.
  destruct (opened (kern l) !! fd) as [[]|] eqn:Eo; [left|right|done].
  - exists (egen (fd_at l fd)). split_and!; try done. intros got Hg. simpl.
    rewrite (poll_reported_eq l fd got _ _ O Hreg). destruct (_ =? 0); [by apply fd_event_told|].
    apply (fd_event_told (corrected l fd (egen (fd_at l fd))) fd got w); try done; [by eapply corrected_ok| |];
      unfold corrected, back_as; change (fd_at (set_eperms ?u (set_kernel ?v ?k)) ?z) with (fd_at k z);
      destruct (fc_kern0 _ _ Hreg) as (_&_&_&?); by rewrite fd_at_set_eq.
  - destruct Hreg as [Hm He]. split_and!; try done. simpl. apply poll_eperms_told with fd; try done. by rewrite firstn_all.
Qed.

Lemma io_watchers_served_witness :
  told (step (run [OpenFd 5 true; OpenFd 6 false; Set_ 0 5 1; Set_ 1 5 2; Start 0; Start 1; Modify 0 3; Reify]) (Poll [(5, 1)])) 0 1.
Proof.
  destruct (io_watchers_served [OpenFd 5 true; OpenFd 6 false; Set_ 0 5 1; Set_ 1 5 2; Start 0; Start 1; Modify 0 3] 0) as [(gen & _ & _ & H)|(H & _)].
  - reflexivity.
  - vm_compute. congruence.
  - exact (H 1 ltac:(vm_compute; congruence)).
  - vm_compute in H. congruence.
Defined.

(** A descriptor nobody watches any more stays on the kernel's list until it reports an event. *)
Theorem unwatched_removed_on_event ops fd m gen got :
  let l := run (ops ++ [Reify]) in
  head (fd_at l fd) = [] -> interest (kern l) !! fd = Some (m, gen) -> got <> 0 ->
  interest (kern (step l (Poll [(fd, got)]))) !! fd = None.
Proof.
  intros l Hh Hi Hg. assert (l = fd_reify (run ops)) as El by (unfold l, run; by rewrite fold_left_app).
  destruct (fd_reify_settles (run ops) (io_run_ok ops)) as (O&S&_). rewrite <- El in O, S. clearbody l. clear El.
  simpl. rewrite (poll_reported_eq l fd got m gen O Hi). destruct (S fd) as [_ Hev _]. rewrite Hh in Hev. change (wanted l []) with 0 in Hev.
  rewrite Hev, Z.ldiff_0_r. destruct (Z.eqb_spec got 0); [done|].
  assert (kern (fd_event fd got (corrected l fd gen)) = kern (corrected l fd gen)) as ->.
  { unfold fd_event. zcase; [|done]. apply fd_event_nocheck_spec, io_pend_ok. by eapply corrected_ok. }
  unfold corrected. rewrite Hev. simpl. by rewrite lookup_delete_eq.
Qed.

(** [ev_io_modify] queues the descriptor without marking it, so each change before the next round of
    the loop adds it to [fdchanges] again. *)
Theorem modify_queues_again :
  fdchanges (run [OpenFd 5 true; Set_ 0 5 1; Start 0; Reify; Modify 0 3; Modify 0 1; Modify 0 3]) = [5; 5; 5].
Proof. reflexivity. Qed.

(** ** [fd_kill] *)

Lemma ev_io_stop_head w l :
  io_ok l -> io_active (wat l w) = true -> let fd := io_fd (wat l w) in
  head (fd_at (ev_io_stop w l) fd) = wlist_del w (head (fd_at l fd)) /\ io_active (wat (ev_io_stop w l) w) = false /\
  forall w', w' <> w -> io_active (wat (ev_io_stop w l) w') = io_active (wat l w').
Proof.
  intros O Ha fd. unfold ev_io_stop. destruct (clear_pending_quiet w l (io_pend_ok _ O)) as (Q&_&_).
  destruct (wo_active _ _ (ok_w _ O w) Ha) as [_ Hr]. pose proof (wo_fd _ _ (ok_w _ O w)) as [Hf _].
  pose proof (ag_fd _ _ fd (quiet_agrees _ _ fd Q)) as Efd. pose proof Q as []. set (l0 := clear_pending w l) in *. clearbody l0.
  destruct (q_w0 w) as (E1&_&E3&_). rewrite E3, Ha, E1. simpl. fold fd. rewrite Efd.
  set (l1 := set_anfd fd _ l0). assert (zlen (anfds l1) = zlen (anfds l)) as Z1 by (unfold l1; simpl; by rewrite zlen_put, q_anfds0).
  destruct (fd_change_rest fd EV_ANFD_REIFY (ev_stop w l1)) as (Rw&_). split_and!.
  - rewrite fd_change_at by (simpl in *; lia). rewrite Z.eqb_refl. simpl. change (fd_at (ev_stop w l1) fd) with (fd_at l1 fd).
    unfold l1. rewrite fd_at_set_eq; [done|]. rewrite q_anfds0. fold fd in Hf, Hr. lia.
  - rewrite (wat_eq _ _ _ Rw). pose proof (wat_set_eq l1 w (EvIo (io_fd (wat l1 w)) (io_events (wat l1 w)) false (io_pending (wat l1 w)) (io_gen (wat l1 w)))) as H.
    change (wat (ev_stop w l1) w) with (wat (set_watcher w (EvIo (io_fd (wat l1 w)) (io_events (wat l1 w)) false (io_pending (wat l1 w)) (io_gen (wat l1 w))) l1) w). by rewrite H.
  - intros w' Hn. rewrite (wat_eq _ _ _ Rw).
    change (wat (ev_stop w l1) w') with (wat (set_watcher w (EvIo (io_fd (wat l1 w)) (io_events (wat l1 w)) false (io_pending (wat l1 w)) (io_gen (wat l1 w))) l1) w').
    rewrite wat_set_ne by done. by destruct (q_w0 w') as (_&_&?&_).
Qed.

(** [fd_kill] ends with no watcher of the descriptor, and leaves a loop in order. *)
Theorem fd_kill_stops_all fd l : io_ok l -> io_ok (fd_kill fd l) /\ head (fd_at (fd_kill fd l) fd) = [].
Proof.
  unfold fd_kill. intros O. remember (length (head (fd_at l fd))) as n eqn:En. revert l O En.
  induction n as [|n IH]; intros l O En; simpl; [by destruct (head (fd_at l fd))|].
  destruct (head (fd_at l fd)) as [|w ws] eqn:Eh; [done|].
  assert (w ∈ head (fd_at l fd)) as Hw by (rewrite Eh; set_solver). apply (ok_core _ O) in Hw as [Ha Hf].
  destruct (ev_io_stop_head w l O Ha) as (Hh&_). rewrite Hf, Eh in Hh. simpl in Hh. rewrite Z.eqb_refl in Hh.
  pose proof (ev_io_stop_ok w l O) as O1. set (e := Z.lor _ _).
  pose proof (feed_quiet w e (ev_io_stop w l)) as Q. apply IH.
  - eapply io_ok_quiet; [done| |done]. apply feed_pend. by apply io_pend_ok.
  - rewrite (ag_fd _ _ fd (quiet_agrees _ _ fd Q)), Hh. simpl in En. lia.
Qed.

(** ** [ev_verify] *)

Lemma verify_watcher_ok l w : io_ok l -> verify_watcher l w = true.
Proof.
  intros O. unfold verify_watcher. destruct (wo_pending _ _ (ok_w _ O w)) as [->|[e ->]]; [done|]. simpl.
  by rewrite bool_decide_true, orb_true_r.
Qed.

Lemma verify_list_ok l i odd mid ws :
  io_ok l -> (forall w, w ∈ ws -> io_active (wat l w) = true /\ io_fd (wat l w) = i) -> NoDup (mid ++ ws) ->
  (odd = true -> mid <> []) -> verify_list l i odd ws (mid ++ ws) = true.
Proof.
  intros O. revert odd mid. induction ws as [|w ws IH]; intros odd mid Hw Hd Hm; [done|]. cbn [verify_list].
  destruct (Hw w ltac:(set_solver)) as [-> ->]. rewrite verify_watcher_ok, Z.eqb_refl by done. simpl.
  assert (forall k, k ++ w :: ws = (k ++ [w]) ++ ws) as A by (intros; by rewrite <- app_assoc).
  destruct odd; simpl.
  - destruct mid as [|w2 mid]; [naive_solver|]. simpl in *. apply NoDup_cons in Hd as [Hn Hd].
    destruct (Z.eqb_spec w w2) as [->|_]; [set_solver|]. simpl. rewrite A in *. apply IH; [set_solver|done|done].
  - rewrite A in *. apply IH; [set_solver|done|]. by destruct mid.
Qed.

(** C17: the consistency checks of [ev_verify] on descriptors hold after every execution: each list
    of watchers has no loop, its watchers are active, belong to that descriptor, and are on the pending
    queue if they are marked as pending. *)
Theorem io_loop_verified ops : verify_fds (run ops) = true.
Proof.
  pose proof (io_run_ok ops) as O. unfold verify_fds. apply andb_true_intro. split; apply forallb_forall.
  - intros fd Hin%list_elem_of_In. apply (ok_changes _ O) in Hin. lia.
  - intros i _. destruct (ok_core _ O i). apply (verify_list_ok _ _ _ []); [done| |done|done]. intros w Hw. by apply fc_head0.
Qed.
