(* ===== verification/Dedup.v ===== *)
(** * Idempotent answers: core/patterns/idempotency.h

    [dedup_map] is a bounded cache with least-recently-used eviction: a linked list of entries
    and an index from keys to list nodes. A node has an address, so that the index can be wrong.
    The cache refines [lru], a list of entries by recency; [answer_idempotent] is proved on top. *)

From S2P Require Import Prelude.

#[local] Open Scope Z_scope.

Section Dedup.
Context {K V : Type} `{Countable K}.

(** A node of the [std::list]. *)
Record node := Node { n_addr : Z; n_key : K; n_val : V }.

Record dedup_map := DedupMap {
  _cap : Z;
  _order : list node;
  _index : gmap K Z;
  (** Ghost: addresses handed out so far. *)
  next_addr : Z
}.

Definition dedup_new (capacity : Z) : dedup_map :=
  DedupMap (if capacity =? 0 then 1 else capacity) [] ∅ 0.

(** The node an iterator points to. *)
Definition deref (a : Z) (l : list node) : option node := snd <$> list_find (fun n => n_addr n = a) l.

(** [_order.splice(_order.end(), _order, it)]: the node moves to the end. *)
Definition splice_back (a : Z) (l : list node) : list node :=
  match deref a l with
  | Some n => filter (fun m => n_addr m <> a) l ++ [n]
  | None => l
  end.

(** Assignment through an iterator. *)
Definition assign (a : Z) (v : V) (l : list node) : list node :=
  (fun n => if decide (n_addr n = a) then Node a (n_key n) v else n) <$> l.

Definition find (key : K) (m : dedup_map) : option V * dedup_map :=
  match _index m !! key with
  | None => (None, m)
  | Some a =>
      let order := splice_back a (_order m) in
      (n_val <$> deref a order, DedupMap (_cap m) order (_index m) (next_addr m))
  end.

Definition put (key : K) (value : V) (m : dedup_map) : dedup_map :=
  match _index m !! key with
  | Some a => DedupMap (_cap m) (splice_back a (assign a value (_order m))) (_index m) (next_addr m)
  | None =>
      let '(order, index) :=
        if _cap m <=? zlen (_order m) then
          match _order m with
          | n :: order => (order, delete (n_key n) (_index m))
          | [] => ([], _index m)
          end
        else (_order m, _index m) in
      DedupMap (_cap m) (order ++ [Node (next_addr m) key value]) (<[key := next_addr m]> index) (next_addr m + 1)
  end.

Definition contains (key : K) (m : dedup_map) : bool := bool_decide (is_Some (_index m !! key)).
Definition dedup_size (m : dedup_map) : Z := zlen (_order m).
Definition clear (m : dedup_map) : dedup_map := DedupMap (_cap m) [] ∅ (next_addr m).

(** * The specification: entries from the least to the most recently used *)

Definition lru := list (K * V).

Definition lru_lookup (k : K) (l : lru) : option V := snd <$> (snd <$> list_find (fun e => e.1 = k) l).
Definition lru_remove (k : K) (l : lru) : lru := filter (fun e => e.1 <> k) l.

Definition lru_find (k : K) (l : lru) : option V * lru :=
  match lru_lookup k l with
  | Some v => (Some v, lru_remove k l ++ [(k, v)])
  | None => (None, l)
  end.

Definition lru_put (cap : Z) (k : K) (v : V) (l : lru) : lru :=
  match lru_lookup k l with
  | Some _ => lru_remove k l ++ [(k, v)]
  | None => (if cap <=? zlen l then tail l else l) ++ [(k, v)]
  end.

(** * Refinement *)

Definition entries (m : dedup_map) : lru := (fun n => (n_key n, n_val n)) <$> _order m.

Record dedup_ok (m : dedup_map) : Prop := DedupOk {
  dok_cap : 1 <= _cap m;
  dok_size : zlen (_order m) <= _cap m;
  dok_addrs : NoDup (n_addr <$> _order m);
  dok_keys : NoDup (n_key <$> _order m);
  dok_fresh : forall n, n ∈ _order m -> n_addr n < next_addr m;
  dok_index : forall k a, _index m !! k = Some a <-> exists n, n ∈ _order m /\ n_key n = k /\ n_addr n = a
}.

Lemma deref_Some a l n : NoDup (n_addr <$> l) -> n ∈ l -> n_addr n = a -> deref a l = Some n.
Proof.
  intros Hnd Hn Ha. unfold deref. destruct (list_find (fun n => n_addr n = a) l) as [[i n']|] eqn:E; simpl.
  - apply list_find_Some in E as (Hi & Ha' & _). apply list_elem_of_lookup in Hn as [j Hj]. f_equal.
    assert (i = j) as ->; [|congruence]. apply (NoDup_lookup (n_addr <$> l) i j a Hnd); rewrite list_lookup_fmap, ?Hi, ?Hj; simpl; congruence.
  - exfalso. apply list_find_None in E. rewrite Forall_forall in E. by apply (E n Hn).
Qed.

(** Keys and addresses of a list of nodes determine each other. *)
Lemma node_unique l n n' : NoDup (n_addr <$> l) -> n ∈ l -> n' ∈ l -> n_addr n = n_addr n' -> n = n'.
Proof. intros Hnd Hn Hn' E. pose proof (deref_Some _ l n Hnd Hn eq_refl). rewrite E, (deref_Some _ l n' Hnd Hn' eq_refl) in *. congruence. Qed.

Lemma node_key_unique l n n' : NoDup (n_key <$> l) -> n ∈ l -> n' ∈ l -> n_key n = n_key n' -> n = n'.
Proof.
  intros Hnd [i Hi]%list_elem_of_lookup [j Hj]%list_elem_of_lookup E.
  assert (i = j) as ->; [|congruence]. apply (NoDup_lookup (n_key <$> l) i j (n_key n) Hnd); rewrite list_lookup_fmap, ?Hi, ?Hj; simpl; congruence.
Qed.

Lemma filter_fmap {A B} (f : A -> B) (P : B -> Prop) `{forall x, Decision (P x)} (l : list A) :
  filter P (f <$> l) = f <$> filter (fun x => P (f x)) l.
Proof. induction l as [|x l IH]; [done|]. rewrite fmap_cons, !filter_cons. case_decide; simpl; by rewrite IH. Qed.

Lemma zlen_fmap {A B} (f : A -> B) (l : list A) : zlen (f <$> l) = zlen l.
Proof. unfold zlen. by rewrite length_fmap. Qed.

(** Removing a node by address or by key is the same. *)
Lemma filter_addr_key l n : NoDup (n_addr <$> l) -> NoDup (n_key <$> l) -> n ∈ l ->
  (fun n => (n_key n, n_val n)) <$> filter (fun m => n_addr m <> n_addr n) l =
  lru_remove (n_key n) ((fun n => (n_key n, n_val n)) <$> l).
Proof.
  intros Ha Hk Hn. unfold lru_remove, lru. rewrite filter_fmap. f_equal. apply filter_ext_in.
  intros m Hm. simpl. split; intros Hne E; apply Hne.
  - by rewrite (node_key_unique l m n).
  - by rewrite (node_unique l m n).
Qed.

Lemma lru_lookup_entries l n : NoDup (n_key <$> l) -> n ∈ l ->
  lru_lookup (n_key n) ((fun n => (n_key n, n_val n)) <$> l) = Some (n_val n).
Proof.
  intros Hk Hn. unfold lru_lookup. rewrite list_find_fmap. simpl.
  destruct (list_find _ l) as [[i n']|] eqn:E; simpl.
  - apply list_find_Some in E as (Hi & Ek & _). simpl in Ek. f_equal.
    assert (n' = n) as ->; [|done]. eapply node_key_unique; [done| |done|done]. by eapply list_elem_of_lookup_2.
  - exfalso. apply list_find_None in E. rewrite Forall_forall in E. by apply (E n Hn).
Qed.

Lemma lru_lookup_None k (l : list node) : (forall n, n ∈ l -> n_key n <> k) ->
  lru_lookup k ((fun n => (n_key n, n_val n)) <$> l) = None.
Proof.
  intros Hn. unfold lru_lookup. rewrite list_find_fmap. simpl. destruct (list_find _ l) as [[i n']|] eqn:E; [|done].
  exfalso. apply list_find_Some in E as (Hi & Ek & _). apply (Hn n'); [by eapply list_elem_of_lookup_2|done].
Qed.

(** Moving a node to the end. *)
Lemma splice_back_eq l n : NoDup (n_addr <$> l) -> n ∈ l ->
  splice_back (n_addr n) l = filter (fun m => n_addr m <> n_addr n) l ++ [n] /\ splice_back (n_addr n) l ≡ₚ l.
Proof.
  intros Hnd Hn. unfold splice_back. rewrite (deref_Some (n_addr n) l n) by done. split; [done|].
  apply list_elem_of_split in Hn as (l1 & l2 & ->). rewrite fmap_app, fmap_cons in Hnd.
  rewrite filter_app, filter_cons_False by (intros Hne; by apply Hne). apply NoDup_app in Hnd as (Hd1 & Hd12 & Hd2).
  apply NoDup_cons in Hd2 as [Hn2 Hd2]. rewrite !filter_all; [solve_Permutation|..].
  - intros m Hm E. apply Hn2. rewrite <- E. by apply list_elem_of_fmap_2.
  - intros m Hm E. apply (Hd12 (n_addr m)); [by apply list_elem_of_fmap_2|]. rewrite E. by left.
Qed.

(** The order of the nodes does not matter to the invariant. *)
Lemma dedup_ok_perm m order : dedup_ok m -> order ≡ₚ _order m -> dedup_ok (DedupMap (_cap m) order (_index m) (next_addr m)).
Proof.
  intros [] Hp. split; simpl; try done; unfold zlen in *.
  - by rewrite Hp.
  - by rewrite Hp.
  - by rewrite Hp.
  - intros n. rewrite Hp. auto.
  - intros k a. rewrite dok_index0. split; intros (n & Hn & ?); exists n; by rewrite Hp in *.
Qed.

Lemma index_lookup m k : dedup_ok m ->
  match _index m !! k with
  | Some a => exists n, n ∈ _order m /\ n_key n = k /\ n_addr n = a
  | None => forall n, n ∈ _order m -> n_key n <> k
  end.
Proof.
  intros []. destruct (_index m !! k) as [a|] eqn:E; [by apply dok_index0|]. intros n Hn <-.
  assert (_index m !! n_key n = Some (n_addr n)) by (apply dok_index0; eauto). congruence.
Qed.

Lemma find_refines k m : dedup_ok m ->
  dedup_ok (find k m).2 /\ ((find k m).1, entries (find k m).2) = lru_find k (entries m) /\ _cap (find k m).2 = _cap m.
Proof.
  intros Hok. pose proof (index_lookup m k Hok) as Hi. unfold find, lru_find, entries. destruct (_index m !! k) as [a|]; simpl.
  - destruct Hi as (n & Hn & <- & <-). destruct (splice_back_eq _ n (dok_addrs _ Hok) Hn) as [E Hp].
    split; [by apply dedup_ok_perm|]. split; [|done]. rewrite (lru_lookup_entries (_order m) n) by (apply Hok || done).
    f_equal.
    + rewrite (deref_Some (n_addr n) _ n); [done| |by rewrite Hp|done]. rewrite Hp. apply Hok.
    + rewrite E, fmap_app, filter_addr_key by (apply Hok || done). done.
  - split; [done|]. split; [|done]. by rewrite lru_lookup_None.
Qed.

Lemma assign_addr a v l : n_addr <$> assign a v l = n_addr <$> l.
Proof. unfold assign. rewrite <- list_fmap_compose. apply list_fmap_ext. intros i n _. simpl. case_decide; simpl; congruence. Qed.

Lemma assign_key a v l : n_key <$> assign a v l = n_key <$> l.
Proof. unfold assign. rewrite <- list_fmap_compose. apply list_fmap_ext. intros i n _. simpl. by case_decide. Qed.

Lemma assign_filter a v l : filter (fun m => n_addr m <> a) (assign a v l) = filter (fun m => n_addr m <> a) l.
Proof.
  unfold assign. induction l as [|n l IH]; [done|]. rewrite fmap_cons, !filter_cons. simpl in *. rewrite IH.
  destruct (decide (n_addr n = a)); simpl; repeat case_decide; simpl in *; done || congruence.
Qed.

Lemma assign_elem a v l n : n ∈ l -> n_addr n = a -> Node a (n_key n) v ∈ assign a v l.
Proof.
  intros Hn Ha. unfold assign. apply list_elem_of_fmap. exists n. split; [|done]. by rewrite decide_True.
Qed.

(** Overwriting values keeps the invariant. *)
Lemma dedup_ok_assign m a v : dedup_ok m -> dedup_ok (DedupMap (_cap m) (assign a v (_order m)) (_index m) (next_addr m)).
Proof.
  intros []. assert (forall n, n ∈ assign a v (_order m) -> exists n', n' ∈ _order m /\ n_key n' = n_key n /\ n_addr n' = n_addr n) as Hback.
  { intros n (n' & -> & Hn')%list_elem_of_fmap. exists n'. case_decide; simpl; done. }
  assert (forall n, n ∈ _order m -> exists n', n' ∈ assign a v (_order m) /\ n_key n' = n_key n /\ n_addr n' = n_addr n) as Hforth.
  { intros n Hn. eexists. split; [apply list_elem_of_fmap; by exists n|]. case_decide; simpl; done. }
  split; simpl; try done.
  - unfold assign, zlen in *. by rewrite length_fmap.
  - by rewrite assign_addr.
  - by rewrite assign_key.
  - intros n (n' & Hn' & _ & <-)%Hback. auto.
  - intros k b. rewrite dok_index0. split.
    + intros (n & Hn & <- & <-). destruct (Hforth n Hn) as (n' & ? & ? & ?). by exists n'.
    + intros (n & Hn & <- & <-). destruct (Hback n Hn) as (n' & ? & ? & ?). by exists n'.
Qed.

(** Dropping the least recently used node, then adding a fresh one. *)
Lemma dedup_ok_evict m n order : dedup_ok m -> _order m = n :: order ->
  dedup_ok (DedupMap (_cap m) order (delete (n_key n) (_index m)) (next_addr m)).
Proof.
  intros [] E. rewrite E in *. simpl in *. apply NoDup_cons in dok_addrs0 as [Ha ?]. apply NoDup_cons in dok_keys0 as [Hk ?].
  split; simpl; try done.
  - unfold zlen in *. simpl in *. lia.
  - intros m' Hm'. apply dok_fresh0. by right.
  - intros k a. rewrite lookup_delete_Some, dok_index0. split.
    + intros (Hne & n' & [->|Hn']%elem_of_cons & <- & <-); [done|]. by exists n'.
    + intros (n' & Hn' & <- & <-). split; [|exists n'; split; [by right|done]]. intros Eq. apply Hk. rewrite Eq. by apply list_elem_of_fmap_2.
Qed.

Lemma dedup_ok_push m k v : dedup_ok m -> zlen (_order m) < _cap m -> (forall n, n ∈ _order m -> n_key n <> k) ->
  dedup_ok (DedupMap (_cap m) (_order m ++ [Node (next_addr m) k v]) (<[k := next_addr m]> (_index m)) (next_addr m + 1)).
Proof.
  intros [] Hsz Hk. split; simpl; try done.
  - zlens.
  - rewrite fmap_app. apply NoDup_app. split; [done|]. split; [|apply NoDup_singleton]. intros a (n & -> & Hn)%list_elem_of_fmap Ha.
    apply list_elem_of_singleton in Ha. simpl in Ha. specialize (dok_fresh0 n Hn). lia.
  - rewrite fmap_app. apply NoDup_app. split; [done|]. split; [|apply NoDup_singleton]. intros k' (n & -> & Hn)%list_elem_of_fmap Ek.
    apply list_elem_of_singleton in Ek. by apply (Hk n Hn).
  - intros n [Hn|Hn%list_elem_of_singleton]%elem_of_app; [specialize (dok_fresh0 n Hn); lia|subst; simpl; lia].
  - intros k' a. rewrite lookup_insert_Some, dok_index0. split.
    + intros [[<- <-]|(Hne & n & Hn & <- & <-)].
      * eexists. split; [apply elem_of_app; right; by left|done].
      * exists n. split; [apply elem_of_app; by left|done].
    + intros (n & [Hn|Hn%list_elem_of_singleton]%elem_of_app & <- & <-); [|subst; by left].
      right. split; [intros Eq; by apply (Hk n Hn)|]. by exists n.
Qed.

Lemma put_refines k v m : dedup_ok m ->
  dedup_ok (put k v m) /\ entries (put k v m) = lru_put (_cap m) k v (entries m) /\ _cap (put k v m) = _cap m.
Proof.
  intros Hok. pose proof (index_lookup m k Hok) as Hi. unfold put, lru_put, entries. destruct (_index m !! k) as [a|]; simpl.
  - destruct Hi as (n & Hn & <- & <-). pose proof (dedup_ok_assign m (n_addr n) v Hok) as Hok'.
    pose proof (assign_elem (n_addr n) v _ n Hn eq_refl) as Hn'.
    destruct (splice_back_eq _ _ (dok_addrs _ Hok') Hn') as [E Hp]. simpl in E, Hp.
    split; [by apply (dedup_ok_perm _ _ Hok')|]. split; [|done].
    rewrite (lru_lookup_entries (_order m) n) by (apply Hok || done).
    rewrite E, fmap_app, assign_filter, filter_addr_key by (apply Hok || done). done.
  - rewrite lru_lookup_None by done. rewrite (zlen_fmap (fun n => (n_key n, n_val n))). destruct (Z.leb_spec (_cap m) (zlen (_order m))) as [Hfull|Hfree].
    + destruct (_order m) as [|n order] eqn:E; [pose proof (dok_cap _ Hok); unfold zlen in Hfull; simpl in *; lia|]. simpl.
      pose proof (dedup_ok_evict m n order Hok E) as Hok'. split; [|split; [by rewrite fmap_app|done]].
      apply (dedup_ok_push _ k v Hok'); simpl.
      * pose proof (dok_size _ Hok) as Hs. rewrite E in Hs. unfold zlen in *. simpl in *. lia.
      * intros n' Hn'. apply Hi. by right.
    + simpl. split; [|split; [by rewrite fmap_app|done]]. by apply dedup_ok_push.
Qed.

(** * Sequences of operations *)

Inductive cache_op := CFind (k : K) | CPut (k : K) (v : V) | CContains (k : K) | CClear.

(** The answers of [find] and [contains]. *)
Inductive answer := ANone | AFound (v : option V) | ABool (b : bool).

Definition cache_step (o : cache_op) (m : dedup_map) : answer * dedup_map :=
  match o with
  | CFind k => let '(r, m') := find k m in (AFound r, m')
  | CPut k v => (ANone, put k v m)
  | CContains k => (ABool (contains k m), m)
  | CClear => (ANone, clear m)
  end.

Definition lru_step (cap : Z) (o : cache_op) (l : lru) : answer * lru :=
  match o with
  | CFind k => let '(r, l') := lru_find k l in (AFound r, l')
  | CPut k v => (ANone, lru_put cap k v l)
  | CContains k => (ABool (bool_decide (is_Some (lru_lookup k l))), l)
  | CClear => (ANone, [])
  end.

Fixpoint cache_run (ops : list cache_op) (m : dedup_map) : list answer * dedup_map :=
  match ops with
  | [] => ([], m)
  | o :: ops => let '(a, m') := cache_step o m in let '(r, m2) := cache_run ops m' in (a :: r, m2)
  end.

Fixpoint lru_run (cap : Z) (ops : list cache_op) (l : lru) : list answer * lru :=
  match ops with
  | [] => ([], l)
  | o :: ops => let '(a, l') := lru_step cap o l in let '(r, l2) := lru_run cap ops l' in (a :: r, l2)
  end.

Lemma contains_refines k m : dedup_ok m -> contains k m = bool_decide (is_Some (lru_lookup k (entries m))).
Proof.
  intros Hok. pose proof (index_lookup m k Hok) as Hi. unfold contains, entries. apply bool_decide_ext.
  destruct (_index m !! k) as [a|].
  - destruct Hi as (n & Hn & <- & _). rewrite (lru_lookup_entries _ n) by (apply Hok || done). split; eauto.
  - rewrite lru_lookup_None by done. split; intros [? ?]; done.
Qed.

Lemma cache_step_refines o m : dedup_ok m ->
  dedup_ok (cache_step o m).2 /\ _cap (cache_step o m).2 = _cap m /\
  ((cache_step o m).1, entries (cache_step o m).2) = lru_step (_cap m) o (entries m).
Proof.
  intros Hok. destruct o as [k|k v|k|]; simpl.
  - destruct (find_refines k m Hok) as (Hok' & E & Ec). destruct (find k m) as [r m']. simpl in *. rewrite <- E. done.
  - destruct (put_refines k v m Hok) as (Hok' & -> & Ec). done.
  - by rewrite contains_refines.
  - split; [|done]. destruct Hok. split; simpl; try done; [unfold zlen; simpl; lia|apply NoDup_nil_2|apply NoDup_nil_2|set_solver|].
    intros k a. rewrite lookup_empty. split; [done|]. intros (n & Hn & _). by apply elem_of_nil in Hn.
Qed.

Lemma cache_run_refines ops m : dedup_ok m ->
  ((cache_run ops m).1, entries (cache_run ops m).2) = lru_run (_cap m) ops (entries m) /\ dedup_ok (cache_run ops m).2 /\
  _cap (cache_run ops m).2 = _cap m.
Proof.
  revert m. induction ops as [|o ops IH]; intros m Hok; [done|]. simpl.
  destruct (cache_step_refines o m Hok) as (Hok' & Ec & E). destruct (cache_step o m) as [a m']. simpl in *.
  destruct (IH m' Hok') as (E2 & Hok2 & Ec2). rewrite Ec in *. rewrite <- E. destruct (cache_run ops m') as [r m2]. simpl in *.
  by rewrite <- E2.
Qed.

Lemma dedup_new_ok cap : 0 <= cap -> dedup_ok (dedup_new cap).
Proof.
  intros Hc. unfold dedup_new. split; simpl; try (zcase; unfold zlen; simpl; lia); try apply NoDup_nil_2; [set_solver|].
  intros k a. rewrite lookup_empty. split; [done|]. intros (n & Hn & _). by apply elem_of_nil in Hn.
Qed.

(** C26: The cache of linked list and index answers every sequence of find, put, contains and clear
    as the list of entries by recency does, keeps at most its capacity of entries (at least one),
    and its index points at live list nodes only. *)
Theorem dedup_refines_lru (capacity : Z) (ops : list cache_op) :
  0 <= capacity ->
  let m := (cache_run ops (dedup_new capacity)).2 in
  ((cache_run ops (dedup_new capacity)).1, entries m) = lru_run (Z.max 1 capacity) ops [] /\ dedup_ok m /\
  dedup_size m <= Z.max 1 capacity.
Proof.
  intros Hc. destruct (cache_run_refines ops (dedup_new capacity) (dedup_new_ok capacity Hc)) as (E & Hok & Ec).
  assert (_cap (dedup_new capacity) = Z.max 1 capacity) as Ecap by (unfold dedup_new; simpl; zcase; lia).
  cbv zeta. rewrite E, Ecap. split; [done|]. split; [done|]. rewrite <- Ecap, <- Ec. apply Hok.
Qed.
End Dedup.

#[global] Arguments node : clear implicits.
#[global] Arguments dedup_map K V {_ _}.
#[global] Arguments cache_op : clear implicits.

Lemma dedup_refines_lru_witness :
  let ops := [CPut 1 10; CPut 2 20; CFind 1; CPut 3 30; CContains 2; CFind 1] in
  let m := (cache_run ops (dedup_new 2)).2 in
  ((cache_run ops (dedup_new 2)).1, entries m) = ([ANone; ANone; AFound (Some 10); ANone; ABool false; AFound (Some 10)], [(3, 30); (1, 10)]) /\
  dedup_ok m /\ dedup_size m <= 2.
Proof.
  destruct (dedup_refines_lru 2 [CPut 1 10; CPut 2 20; CFind 1; CPut 3 30; CContains 2; CFind 1]) as (E & Hok & Hs); [discriminate|].
  cbv zeta. rewrite E. split; [reflexivity|]. split; [exact Hok|exact Hs].
Defined.

(** * The responder *)

Section Responder.
Context {K V R : Type} `{Countable K}.
(** The default key, the key of a request, whether it is a reply to an ask of the responder
    (what [resolve_ask] finds), and the effect: its [n]-th execution for a request. *)
Context (no_key : K) (key_of : R -> K) (is_reply : R -> bool) (fn : nat -> R -> V).

Record responder := Responder {
  cache : dedup_map K V;
  (** Ghost: the keys for which the effect ran, and the replies sent, latest last. *)
  ran : list K;
  replies : list (K * V)
}.

(** [answer_idempotent]. *)
Definition answer_idempotent (s : responder) (e : R) : responder :=
  if is_reply e then s
  else
    let key := key_of e in
    if negb (bool_decide (key = no_key)) then
      match find key (cache s) with
      | (Some cached, c) => Responder c (ran s) (replies s ++ [(key, cached)])
      | (None, c) =>
          let resp := fn (length (ran s)) e in
          Responder (put key resp c) (ran s ++ [key]) (replies s ++ [(key, resp)])
      end
    else
      let resp := fn (length (ran s)) e in
      Responder (cache s) (ran s ++ [key]) (replies s ++ [(key, resp)]).

(** The keys of the requests that are subject to de-duplication. *)
Definition keyed (es : list R) : list K := filter (fun k => k <> no_key) (key_of <$> filter (fun e => is_reply e = false) es).

Lemma lru_lookup_app (k : K) (l : list (K * V)) (k' : K) (v : V) :
  lru_lookup k (l ++ [(k', v)]) = match lru_lookup k l with Some w => Some w | None => if decide (k' = k) then Some v else None end.
Proof.
  unfold lru_lookup. destruct (list_find (fun e : K * V => e.1 = k) l) as [[i e]|] eqn:E.
  - by rewrite (list_find_app_l _ _ _ i e E).
  - rewrite list_find_app_r by done. simpl. case_decide; done.
Qed.

Lemma lru_lookup_remove (k k' : K) (l : list (K * V)) : lru_lookup k (lru_remove k' l) = if decide (k = k') then None else lru_lookup k l.
Proof.
  unfold lru_lookup, lru_remove. induction l as [|[k0 v0] l IH]; [by case_decide|]. unfold lru in *.
  rewrite filter_cons. simpl. destruct (decide (k0 = k')) as [->|]; simpl.
  - rewrite decide_False by (intros Hne; by apply Hne). rewrite IH. destruct (decide (k = k')) as [->|]; [done|].
    rewrite decide_False by done. by destruct (list_find _ l) as [[? ?]|].
  - rewrite decide_True by done. simpl. destruct (decide (k0 = k)) as [->|]; simpl.
    + by rewrite decide_False by done.
    + destruct (list_find _ (filter _ l)) as [[? ?]|], (list_find _ l) as [[? ?]|]; simpl in *; done.
Qed.

(** Asking for a key does not change what is stored. *)
Lemma lru_find_lookup (k k' : K) (l : list (K * V)) : lru_lookup k' (lru_find k l).2 = lru_lookup k' l.
Proof.
  unfold lru_find. destruct (lru_lookup k l) as [v|] eqn:E; [|done]. simpl. rewrite lru_lookup_app, lru_lookup_remove.
  destruct (decide (k' = k)) as [->|]; [by rewrite decide_True|]. rewrite (decide_False (P := k = k')) by congruence. by destruct (lru_lookup k' l).
Qed.

Lemma lru_lookup_elem (k : K) (l : list (K * V)) : is_Some (lru_lookup k l) <-> k ∈ l.*1.
Proof.
  unfold lru_lookup. destruct (list_find (fun e : K * V => e.1 = k) l) as [[i e]|] eqn:E; simpl.
  - apply list_find_Some in E as (Hi & <- & _). split; [intros _|by eauto]. apply list_elem_of_fmap_2. by eapply list_elem_of_lookup_2.
  - split; [by intros [? ?]|]. intros (e & -> & He)%list_elem_of_fmap. apply list_find_None in E. rewrite Forall_forall in E.
    by destruct (E e He).
Qed.

(** While the keys in use, [keys], are no more than the cache can hold. *)
Record idempotent (keys : gset K) (s : responder) : Prop := Idempotent {
  id_ok : dedup_ok (cache s);
  id_cap : Z.of_nat (size keys) <= _cap (cache s);
  id_keys : forall k, is_Some (lru_lookup k (entries (cache s))) -> k ∈ keys;
  id_replies : forall k v, k <> no_key -> (k, v) ∈ replies s -> lru_lookup k (entries (cache s)) = Some v;
  id_ran : forall k, k <> no_key -> k ∈ ran s -> is_Some (lru_lookup k (entries (cache s)));
  id_once : NoDup (filter (fun k => k <> no_key) (ran s))
}.

(** A new key finds room. *)
Lemma room_for_key (keys : gset K) (c : dedup_map K V) (k : K) :
  dedup_ok c -> Z.of_nat (size keys) <= _cap c -> (forall k, is_Some (lru_lookup k (entries c)) -> k ∈ keys) ->
  k ∈ keys -> lru_lookup k (entries c) = None -> zlen (entries c) < _cap c.
Proof.
  intros Hok Hcap Hin Hk Hnone. assert (NoDup (k :: (entries c).*1)) as Hnd.
  { apply NoDup_cons. split; [intros Hel; apply lru_lookup_elem in Hel as [? ?]; congruence|].
    unfold entries. rewrite <- list_fmap_compose. apply Hok. }
  assert (list_to_set (k :: (entries c).*1) ⊆ keys) as Hsub.
  { intros k'. rewrite elem_of_list_to_set. intros [->|Hk']%elem_of_cons; [done|]. apply Hin. by apply lru_lookup_elem. }
  apply subseteq_size in Hsub. rewrite size_list_to_set in Hsub by done. simpl in Hsub. rewrite length_fmap in Hsub.
  unfold zlen. lia.
Qed.

Lemma lru_put_new (cap : Z) (k : K) (v : V) (l : list (K * V)) :
  lru_lookup k l = None -> zlen l < cap -> lru_put cap k v l = l ++ [(k, v)].
Proof. intros E Hl. unfold lru_put. rewrite E. zcase; [lia|done]. Qed.

Lemma answer_keeps keys s e :
  idempotent keys s -> (is_reply e = false -> key_of e <> no_key -> key_of e ∈ keys) -> idempotent keys (answer_idempotent s e).
Proof.
  intros Hid Hkey. pose proof Hid as [Hok Hcap Hin Hrep Hran Honce]. unfold answer_idempotent. destruct (is_reply e) eqn:Er; [done|].
  set (k := key_of e) in *. case_bool_decide as Ek; simpl.
  - split; simpl; try done.
    + intros k' v Hk' [Hel|Hel%list_elem_of_singleton]%elem_of_app; [by apply Hrep|]. by injection Hel as -> _.
    + intros k' Hk' [Hel|Hel%list_elem_of_singleton]%elem_of_app; [by apply Hran|]. by subst.
    + rewrite filter_app, filter_cons_False by (by intros Hne; apply Hne). by rewrite app_nil_r.
  - destruct (find_refines k (cache s) Hok) as (Hok' & E & Ec). assert (forall k', lru_lookup k' (entries (find k (cache s)).2) = lru_lookup k' (entries (cache s))) as Hl.
    { intros k'. rewrite <- (lru_find_lookup k k' (entries (cache s))). by rewrite <- E. }
    assert ((find k (cache s)).1 = lru_lookup k (entries (cache s))) as Ef.
    { pose proof (f_equal fst E) as E1. simpl in E1. rewrite E1. unfold lru_find. by destruct (lru_lookup k (entries (cache s))). }
    destruct (find k (cache s)) as [[v|] c]; simpl in *.
    + split; simpl; try done; try (intros; rewrite ?Hl; eauto; done).
      * by rewrite Ec.
      * intros k'. rewrite Hl. apply Hin.
      * intros k' v' Hk' [Hel|Hel%list_elem_of_singleton]%elem_of_app; rewrite Hl; [by apply Hrep|]. by injection Hel as -> ->.
    + set (resp := fn (length (ran s)) e). destruct (put_refines k resp c Hok') as (Hok2 & Ep & Ec2).
      assert (zlen (entries c) < _cap c) as Hroom.
      { apply (room_for_key keys c k Hok'); [by rewrite Ec|intros k'; rewrite Hl; apply Hin|by apply Hkey|by rewrite Hl]. }
      rewrite lru_put_new in Ep by (rewrite ?Hl; done).
      assert (forall k', lru_lookup k' (entries (put k resp c)) = match lru_lookup k' (entries (cache s)) with Some w => Some w | None => if decide (k = k') then Some resp else None end) as Hl2
        by (intros k'; by rewrite Ep, lru_lookup_app, Hl).
      split; simpl; try done.
      * by rewrite Ec2, Ec.
      * intros k'. rewrite Hl2. destruct (lru_lookup k' (entries (cache s))) eqn:Ek'; [intros _; apply Hin; by rewrite Ek'|].
        case_decide as Eq; [intros _; subst k'; by apply Hkey|by intros [? ?]].
      * intros k' v' Hk'. rewrite Hl2. intros [Hel|Hel%list_elem_of_singleton]%elem_of_app; [by rewrite (Hrep k' v')|].
        injection Hel as -> ->. by rewrite <- Ef, decide_True.
      * intros k' Hk'. rewrite Hl2. intros [Hel|Hel%list_elem_of_singleton]%elem_of_app.
        -- destruct (Hran k' Hk' Hel) as [w ->]. by eauto.
        -- subst k'. rewrite <- Ef, decide_True by done. by eauto.
      * rewrite filter_app, filter_cons_True by done. apply NoDup_app. split; [done|]. split; [|apply NoDup_singleton].
        intros k' [Hne Hk']%list_elem_of_filter Hel. apply list_elem_of_singleton in Hel. subst k'. destruct (Hran k Ek Hk') as [? ?]. congruence.
Qed.

Lemma answers_keep keys es s :
  idempotent keys s -> (forall k, k ∈ keyed es -> k ∈ keys) -> idempotent keys (fold_left answer_idempotent es s).
Proof.
  revert s. induction es as [|e es IH]; intros s Hid Hk; [done|]. simpl. apply IH.
  - apply answer_keeps; [done|]. intros Hr Hne. apply Hk. unfold keyed. rewrite filter_cons_True by done. simpl.
    rewrite filter_cons_True by done. by left.
  - intros k Hel. apply Hk. unfold keyed in *. rewrite filter_cons. case_decide; [|done]. simpl. rewrite filter_cons. case_decide; [by right|done].
Qed.
End Responder.

(** As long as the distinct keys in use are no more than the capacity of the cache, the effect
    runs at most once per key and every request with that key gets the same response, however the
    requests are repeated and interleaved. *)
Theorem idempotent_once {K V R : Type} `{Countable K} (no_key : K) (key_of : R -> K) (is_reply : R -> bool) (fn : nat -> R -> V)
    (capacity : Z) (es : list R) :
  Z.of_nat (size (list_to_set (keyed no_key key_of is_reply es) : gset K)) <= capacity ->
  let s := fold_left (answer_idempotent no_key key_of is_reply fn) es (Responder (dedup_new capacity) [] []) in
  NoDup (filter (fun k => k <> no_key) (ran s)) /\
  forall k v v', k <> no_key -> (k, v) ∈ replies s -> (k, v') ∈ replies s -> v = v'.
Proof.
  intros Hcap. cbv zeta. set (keys := list_to_set _) in Hcap.
  assert (idempotent no_key keys (Responder (dedup_new capacity) [] [] : responder (K := K) (V := V))) as Hid.
  { split; simpl; try (by intros ? ? ? ?%elem_of_nil); try (by intros ? ? ?%elem_of_nil); [apply dedup_new_ok; lia|zcase; lia| |apply NoDup_nil_2].
    intros k [? ?]. done. }
  destruct (answers_keep no_key key_of is_reply fn keys es _ Hid) as [_ _ _ Hrep _ Honce].
  { intros k Hk. unfold keys. by rewrite elem_of_list_to_set. }
  split; [done|]. intros k v v' Hk Hv Hv'. apply Hrep in Hv; [|done]. apply Hrep in Hv'; [|done]. congruence.
Qed.

(** A responder with room for [capacity] keys that counts its effects; requests are their keys,
    0 being no key. *)
Definition counting (capacity : Z) (es : list Z) : responder (K := Z) (V := Z) :=
  fold_left (answer_idempotent 0 id (fun _ => false) (fun n e => Z.of_nat n)) es (Responder (dedup_new capacity) [] []).

Lemma idempotent_once_witness :
  let s := counting 2 [7; 8; 7; 0; 8; 0; 7] in
  NoDup (filter (fun k => k <> 0) (ran s)) /\
  forall k v v', k <> 0 -> (k, v) ∈ replies s -> (k, v') ∈ replies s -> v = v'.
Proof.
  apply (idempotent_once 0 id (fun _ : Z => false) (fun n _ => Z.of_nat n) 2 [7; 8; 7; 0; 8; 0; 7]).
  vm_compute. discriminate.
Defined.

(** Once more distinct keys than the capacity have been seen, a repeated request runs its effect
    again and gets a different response, although the effect is documented to run at most once per
    distinct key. *)
Theorem idempotent_effect_rerun :
  ran (counting 2 [7; 8; 9; 7]) = [7; 8; 9; 7] /\ replies (counting 2 [7; 8; 9; 7]) = [(7, 0); (8, 1); (9, 2); (7, 3)].
Proof. split; reflexivity. Qed.
