(* ===== verification/WorkerPool.v ===== *)
(** * Distribution over workers: core/patterns/routing.h

    A pool of workers with a round-robin cursor. A read outside the vector is [None]. *)

From S2P Require Import Prelude.

#[local] Open Scope Z_scope.

Section WorkerPool.
Context {W : Type} `{EqDecision W}.

Record pool := Pool { _workers : list W; _cursor : Z }.

Definition add (w : W) (p : pool) : pool := Pool (_workers p ++ [w]) (_cursor p).

Definition remove (w : W) (p : pool) : pool :=
  let workers := filter (fun x => x <> w) (_workers p) in
  Pool workers (match workers with [] => _cursor p | _ => _cursor p mod zlen workers end).

(** [next()]: [None] is a read outside the vector. *)
Definition next (p : pool) : option W * pool :=
  (zget (_workers p) (_cursor p), Pool (_workers p) ((_cursor p +s 1) mod zlen (_workers p))).

Definition for_key (key : Z) (p : pool) : option W := zget (_workers p) (key mod zlen (_workers p)).

(** [n] calls of [next()]. *)
Fixpoint nexts (n : nat) (p : pool) : list (option W) * pool :=
  match n with
  | O => ([], p)
  | S n => let '(w, p') := next p in let '(ws, p2) := nexts n p' in (w :: ws, p2)
  end.

(** The cursor is at a worker, or the pool is empty and the cursor at its start. *)
Definition pool_ok (p : pool) : Prop := 0 <= _cursor p < Z.max 1 (zlen (_workers p)) /\ zlen (_workers p) < 2 ^ 63.

(** The pool from the cursor on, going round. *)
Definition rotation (p : pool) : list W :=
  drop (Z.to_nat (_cursor p)) (_workers p) ++ take (Z.to_nat (_cursor p)) (_workers p).

Lemma remove_length (w : W) (l : list W) : NoDup l -> zlen l <= zlen (filter (fun x => x <> w) l) + 1.
Proof.
  induction 1 as [|x l Hx Hnd IH]; [done|]. rewrite filter_cons. unfold zlen in *. case_decide as E; simpl; [lia|].
  subst x. rewrite (filter_all (fun x => x <> w) l); [lia|]. by intros y Hy ->.
Qed.

Lemma pool_add_ok (w : W) (p : pool) : pool_ok p -> zlen (_workers p) + 1 < 2 ^ 63 -> pool_ok (add w p).
Proof. unfold pool_ok. simpl. intros [? ?] ?. zlens. Qed.

(** With distinct workers, a pool that becomes empty had one worker, so its cursor is 0. *)
Lemma pool_remove_ok (w : W) (p : pool) : NoDup (_workers p) -> pool_ok p -> pool_ok (remove w p).
Proof.
  intros Hnd [Hc Hs]. pose proof (remove_length w _ Hnd) as Hl. unfold pool_ok, remove. simpl.
  assert (zlen (filter (fun x => x <> w) (_workers p)) <= zlen (_workers p)) by (unfold zlen; pose proof (length_filter (fun x => x <> w) (_workers p)); lia).
  destruct (filter (fun x => x <> w) (_workers p)) as [|x l].
  - unfold zlen in *. simpl in *. lia.
  - assert (0 < zlen (x :: l)) by (unfold zlen; simpl; lia). pose proof (Z.mod_pos_bound (_cursor p) (zlen (x :: l))). lia.
Qed.

(** One call takes the first worker of the rotation and moves it to the end. *)
Lemma next_rotates (p : pool) : pool_ok p -> _workers p <> [] ->
  exists w l, rotation p = w :: l /\ (next p).1 = Some w /\ rotation (next p).2 = l ++ [w] /\ pool_ok (next p).2.
Proof.
  intros [Hc Hs] Hne. assert (0 < zlen (_workers p)) as Hz by (destruct (_workers p); [done|unfold zlen; simpl; lia]).
  destruct p as [ws c]. unfold rotation, next, pool_ok in *. simpl in *.
  destruct (zget_in_range ws c) as [w Hw]; [lia|]. pose proof Hw as Hw'. unfold zget in Hw'. zcase_in Hw'; [lia|].
  exists w, (drop (S (Z.to_nat c)) ws ++ take (Z.to_nat c) ws). rewrite (drop_S ws w) by done. split; [done|]. split; [done|].
  uwrap. rewrite mod_once by lia. unfold zlen in *. zcase.
  - replace (Z.to_nat (c + 1)) with (S (Z.to_nat c)) by lia. rewrite (take_S_r ws _ w) by done. split; [by rewrite app_assoc|lia].
  - assert (c = Z.of_nat (length ws) - 1) as -> by lia. split; [|lia].
    replace (Z.to_nat (Z.of_nat (length ws) - 1 + 1 - Z.of_nat (length ws))) with 0%nat by lia. rewrite drop_0, take_0, app_nil_r.
    rewrite drop_ge by lia. simpl. rewrite <- (take_S_r ws _ w) by done. symmetry. apply take_ge. lia.
Qed.

Lemma rotation_length (p : pool) : pool_ok p -> length (rotation p) = length (_workers p).
Proof. intros [Hc _]. unfold rotation, zlen in *. rewrite length_app, length_drop, length_take. lia. Qed.

Lemma nexts_rotate (n : nat) (p : pool) : pool_ok p -> _workers p <> [] -> (n <= length (_workers p))%nat ->
  (nexts n p).1 = Some <$> take n (rotation p) /\ rotation (nexts n p).2 = drop n (rotation p) ++ take n (rotation p).
Proof.
  revert p. induction n as [|n IH]; intros p Hok Hne Hn; [by rewrite take_0, drop_0, app_nil_r|].
  destruct (next_rotates p Hok Hne) as (w & l & Er & Ew & Er' & Hok'). cbn [nexts]. destruct (next p) as [w' p'] eqn:En. simpl in *.
  assert (_workers p' = _workers p) as Ewk by (unfold next in En; by injection En as _ <-).
  destruct (IH p' Hok' ltac:(by rewrite Ewk) ltac:(rewrite Ewk; lia)) as [E1 E2]. destruct (nexts n p') as [ws p2]. simpl in *. subst w'.
  pose proof (rotation_length p Hok) as Hlen. rewrite Er in Hlen. simpl in Hlen.
  rewrite Er, E1, E2, Er'. simpl. rewrite !take_app_le, !drop_app_le by lia. split; [done|]. by rewrite <- app_assoc.
Qed.
End WorkerPool.

(** Round robin is fair: from any position, as many calls of next() as there are workers
    return every worker once, in the order of the pool from the cursor on, and leave the cursor
    where it was. *)
Theorem pool_round_robin {W : Type} `{EqDecision W} (p : pool (W := W)) :
  pool_ok p -> _workers p <> [] ->
  (nexts (length (_workers p)) p).1 = Some <$> rotation p /\ rotation p ≡ₚ _workers p /\
  rotation (nexts (length (_workers p)) p).2 = rotation p.
Proof.
  intros Hok Hne. destruct (nexts_rotate (length (_workers p)) p Hok Hne (le_n _)) as [E1 E2].
  pose proof (rotation_length p Hok) as Hlen. rewrite E1, E2, take_ge, drop_ge by lia. split; [done|]. split; [|done].
  unfold rotation. by rewrite Permutation_app_comm, take_drop.
Qed.

Lemma pool_round_robin_witness :
  (nexts 3 (Pool [7; 8; 9] 2)).1 = Some <$> [9; 7; 8] /\ [9; 7; 8] ≡ₚ [7; 8; 9] /\ rotation (nexts 3 (Pool [7; 8; 9] 2)).2 = [9; 7; 8].
Proof. apply (pool_round_robin (Pool [7; 8; 9] 2)); [split; [split; [discriminate|reflexivity]|reflexivity]|discriminate]. Defined.

(** Removing a worker that was added several times can empty the pool without resetting the
    cursor; the next call of next() after an add() then reads outside the vector. *)
Theorem pool_stale_cursor :
  let p := (nexts 2 (add 5 (add 5 (add 5 (Pool [] 0))))).2 in
  (next (add 6 (remove 5 p))).1 = None.
Proof. reflexivity. Qed.
