(* ===== verification/PubSub.v ===== *)
(** * Publish and subscribe: core/patterns/pubsub.h

    A bus holds the ids of its subscribers and pushes an event to each. Actors come and go and
    their ids are used again, so the set of living actors is part of the state. *)

From S2P Require Import Prelude.

#[local] Open Scope Z_scope.

Definition kPruneEveryPublishes : Z := 1024.

(** The bus and the actors of its core: those that are active, and those whose [onInit()] is
    suspended, which [is_actor_alive] does not count. *)
Record bus := Bus {
  _subscribers : list Z;
  _publishes_since_prune : Z;
  alive : gset Z;
  activating : gset Z;
  (** Ghost: the actors that asked for the topic since they became active, the largest number of
      actors there were at one time, and the events pushed. *)
  asked : gset Z;
  peak : Z;
  pushed : list (list Z)
}.

Definition is_actor_alive (s : bus) (a : Z) : Prop := a ∈ alive s.

Definition prune_dead (s : bus) : bus :=
  Bus (filter (fun a => a ∈ alive s) (_subscribers s)) (_publishes_since_prune s) (alive s) (activating s) (asked s) (peak s) (pushed s).

Definition subscribe (who : Z) (s : bus) : bus :=
  let s := prune_dead s in
  Bus (if decide (who ∈ _subscribers s) then _subscribers s else _subscribers s ++ [who])
    (_publishes_since_prune s) (alive s) (activating s)
    (if decide (who ∈ alive s) then {[who]} ∪ asked s else asked s) (peak s) (pushed s).

Definition unsubscribe (who : Z) (s : bus) : bus :=
  Bus (filter (fun a => a <> who) (_subscribers s)) (_publishes_since_prune s) (alive s) (activating s) (asked s ∖ {[who]}) (peak s) (pushed s).

Definition tracked_slot_count (s : bus) : Z := zlen (_subscribers s).

Definition subscriber_count (s : bus) : Z := zlen (filter (fun a => a ∈ alive s) (_subscribers s)).

(** [publish]: the counter, a sweep now and then, and one event per subscriber. *)
Definition publish (s : bus) : bus :=
  let n := _publishes_since_prune s +s 1 in
  let s1 := if kPruneEveryPublishes <=? n
            then prune_dead (Bus (_subscribers s) 0 (alive s) (activating s) (asked s) (peak s) (pushed s))
            else Bus (_subscribers s) n (alive s) (activating s) (asked s) (peak s) (pushed s) in
  Bus (_subscribers s1) (_publishes_since_prune s1) (alive s1) (activating s1) (asked s1) (peak s1) (pushed s1 ++ [_subscribers s1]).

(** An actor is created, its [onInit()] completes, it is removed; ids are used again. *)
Definition create (a : Z) (s : bus) : bus :=
  let act := {[a]} ∪ activating s in
  Bus (_subscribers s) (_publishes_since_prune s) (alive s) act (asked s ∖ {[a]})
    (Z.max (peak s) (Z.of_nat (size (alive s ∪ act)))) (pushed s).

Definition activate (a : Z) (s : bus) : bus :=
  Bus (_subscribers s) (_publishes_since_prune s) ({[a]} ∪ alive s) (activating s ∖ {[a]}) (asked s) (peak s) (pushed s).

Definition destroy (a : Z) (s : bus) : bus :=
  Bus (_subscribers s) (_publishes_since_prune s) (alive s ∖ {[a]}) (activating s ∖ {[a]}) (asked s ∖ {[a]}) (peak s) (pushed s).

Inductive op := Subscribe (a : Z) | Unsubscribe (a : Z) | Publish | Create (a : Z) | Activate (a : Z) | Destroy (a : Z).

(** Only an actor of the core subscribes; an id is free when it is given to a new actor. *)
Definition possible (s : bus) (o : op) : Prop :=
  match o with
  | Subscribe a => a ∈ alive s ∪ activating s
  | Create a => a ∉ alive s ∪ activating s
  | Activate a => a ∈ activating s
  | _ => True
  end.

Definition step (s : bus) (o : op) : bus :=
  match o with
  | Subscribe a => subscribe a s
  | Unsubscribe a => unsubscribe a s
  | Publish => publish s
  | Create a => create a s
  | Activate a => activate a s
  | Destroy a => destroy a s
  end.

Inductive reachable : bus -> Prop :=
| reach_new : reachable (Bus [] 0 ∅ ∅ ∅ 0 [])
| reach_step s o : reachable s -> possible s o -> reachable (step s o).

Record bus_ok (s : bus) : Prop := BusOk {
  bus_nodup : NoDup (_subscribers s);
  bus_asked : forall a, a ∈ asked s -> a ∈ _subscribers s;
  bus_asked_alive : forall a, a ∈ asked s -> a ∈ alive s;
  bus_peak : Z.of_nat (size (alive s ∪ activating s)) <= peak s;
  bus_bound : zlen (_subscribers s) <= peak s
}.

(** Distinct subscribers that are actors of the core are no more than these. *)
Lemma subscribers_bound (l : list Z) (s : bus) : NoDup l -> (forall a, a ∈ l -> a ∈ alive s ∪ activating s) ->
  Z.of_nat (size (alive s ∪ activating s)) <= peak s -> zlen l <= peak s.
Proof.
  intros Hnd Hin Hpk. assert (list_to_set l ⊆ alive s ∪ activating s) as Hsub by (intros a; rewrite elem_of_list_to_set; apply Hin).
  apply subseteq_size in Hsub. rewrite size_list_to_set in Hsub by done. unfold zlen. lia.
Qed.

Lemma prune_ok (s : bus) : bus_ok s -> bus_ok (prune_dead s) /\ forall a, a ∈ _subscribers (prune_dead s) -> a ∈ alive s.
Proof.
  intros []. assert (forall a, a ∈ _subscribers (prune_dead s) -> a ∈ alive s) as Hlive by (by intros a [? _]%list_elem_of_filter).
  split; [|done]. assert (NoDup (_subscribers (prune_dead s))) by (by apply NoDup_filter). split; try done.
  - simpl. intros a Ha. apply list_elem_of_filter. auto.
  - apply (subscribers_bound _ s); [done| |done]. set_solver.
Qed.

Lemma subscribe_ok (a : Z) (s : bus) : bus_ok s -> a ∈ alive s ∪ activating s -> bus_ok (subscribe a s).
Proof.
  intros Hok Ha. destruct (prune_ok s Hok) as [[Hnd Has Hal Hpk Hb] Hlive]. unfold subscribe. simpl in *.
  set (l := filter (fun a => a ∈ alive s) (_subscribers s)) in *. set (l' := if decide (a ∈ l) then l else l ++ [a]).
  assert (NoDup l' /\ a ∈ l' /\ (forall x, x ∈ l -> x ∈ l') /\ (forall x, x ∈ l' -> x = a \/ x ∈ l)) as (Hnd' & Hal' & Hin & Hout).
  { unfold l'. case_decide; [set_solver|]. split; [|set_solver]. apply NoDup_app. split; [done|]. split; [|apply NoDup_singleton]. set_solver. }
  split; simpl; [done|case_decide; set_solver|case_decide; set_solver|done|].
  apply (subscribers_bound _ s); [done| |done]. intros x [->|Hx]%Hout; [done|]. set_solver.
Qed.

Lemma shrink_peak (x y : gset Z) (p : Z) : x ⊆ y -> Z.of_nat (size y) <= p -> Z.of_nat (size x) <= p.
Proof. intros Hsub%subseteq_size. lia. Qed.

Lemma step_ok (s : bus) (o : op) : bus_ok s -> possible s o -> bus_ok (step s o).
Proof.
  intros Hok Hp. destruct o as [a|a| |a|a|a]; simpl in *.
  - by apply subscribe_ok.
  - destruct Hok. split; simpl; [by apply NoDup_filter|..|done|].
    + intros x Hx. apply list_elem_of_filter. set_solver.
    + set_solver.
    + pose proof (length_filter (fun x => x <> a) (_subscribers s)). unfold zlen in *. lia.
  - unfold publish. zcase; [|by destruct Hok]. destruct (prune_ok s Hok) as [Hok' _]. by destruct Hok'.
  - destruct Hok. split; simpl; [done|set_solver|set_solver|lia|lia].
  - destruct Hok. split; simpl; [done|done|set_solver| |done]. eapply shrink_peak; [|exact bus_peak0].
    intros x. destruct (decide (x = a)); set_solver.
  - destruct Hok. split; simpl; [done|set_solver|set_solver| |done]. eapply shrink_peak; [|exact bus_peak0]. set_solver.
Qed.

Lemma reachable_ok (s : bus) : reachable s -> bus_ok s.
Proof. induction 1; [split; simpl; try done; [apply NoDup_nil_2|set_solver..]|by apply step_ok]. Qed.

(** What a publication pushes. *)
Lemma publish_pushes (s : bus) : bus_ok s ->
  exists l, pushed (publish s) = pushed s ++ [l] /\ NoDup l /\ forall a, a ∈ asked s -> a ∈ l.
Proof.
  intros Hok. unfold publish. zcase; simpl.
  - destruct (prune_ok s Hok) as [[] _]. eexists. split; [done|]. done.
  - destruct Hok. eexists. split; [done|]. done.
Qed.

(** A publication reaches every active actor that subscribed and has neither unsubscribed nor
    died, exactly once, whatever actors come and go; and the bus never holds more ids than there
    were actors at one time. *)
Theorem pubsub_reaches_subscribers (s : bus) :
  reachable s ->
  (exists l, pushed (publish s) = pushed s ++ [l] /\ NoDup l /\ forall a, a ∈ asked s -> a ∈ l) /\
  tracked_slot_count s <= peak s.
Proof. intros Hr%reachable_ok. split; [by apply publish_pushes|by destruct Hr]. Qed.

Definition after (ops : list op) : bus := fold_left step ops (Bus [] 0 ∅ ∅ ∅ 0 []).

Lemma reachable_snoc (ops : list op) (o : op) : reachable (after ops) -> possible (after ops) o -> reachable (after (ops ++ [o])).
Proof. intros H Hp. unfold after. rewrite fold_left_app. by apply reach_step. Qed.

Lemma pubsub_reaches_subscribers_witness :
  let s := after [Create 1; Activate 1; Subscribe 1; Create 2; Subscribe 2; Destroy 2] in
  (exists l, pushed (publish s) = pushed s ++ [l] /\ NoDup l /\ forall a, a ∈ asked s -> a ∈ l) /\ tracked_slot_count s <= peak s.
Proof.
  apply pubsub_reaches_subscribers.
  apply (reachable_snoc [Create 1; Activate 1; Subscribe 1; Create 2; Subscribe 2]); [|done].
  apply (reachable_snoc [Create 1; Activate 1; Subscribe 1; Create 2]); [|simpl; set_solver].
  apply (reachable_snoc [Create 1; Activate 1; Subscribe 1]); [|simpl; set_solver].
  apply (reachable_snoc [Create 1; Activate 1]); [|simpl; set_solver].
  apply (reachable_snoc [Create 1]); [|simpl; set_solver].
  apply (reachable_snoc []); [apply reach_new|simpl; set_solver].
Defined.

(** The id of a dead subscriber is not inert: when it is given to a new actor, that actor is
    counted as a subscriber and publications are pushed to it although it never subscribed. *)
Theorem recycled_id_subscribed :
  let s := after [Create 1; Activate 1; Subscribe 1; Destroy 1; Create 1; Activate 1] in
  (1 ∉ asked s) /\ subscriber_count s = 1 /\ pushed (publish s) = [[1]].
Proof. split; [vm_compute; set_solver|]. split; reflexivity. Qed.

(** An actor that subscribes in its [onInit()], as the documentation shows, and then suspends
    is dropped from the bus when another actor subscribes before it becomes active: it is never
    told, and publications do not reach it. *)
Theorem activating_subscriber_dropped :
  let s := after [Create 1; Subscribe 1; Create 2; Activate 2; Subscribe 2; Activate 1] in
  (1 ∈ alive s) /\ _subscribers s = [2] /\ subscriber_count s = 1 /\ pushed (publish s) = [[2]].
Proof. split; [vm_compute; set_solver|]. repeat split; reflexivity. Qed.
