(* ===== verification/Saga.v ===== *)
(** * Sagas: core/patterns/saga.h

    A saga awaits steps and registers compensations; when a step fails the compensations run in
    reverse. A body is the sequence of what it registers and how its steps end. *)

From S2P Require Import Prelude.

#[local] Open Scope Z_scope.

Section Saga.
Context {C E : Type}.

(** How an awaited action ends. *)
Inductive outcome := Done | Threw (e : E) | Cancelled.

(** What a body does: registers compensations and awaits steps. *)
Inductive action := OnCompensate (c : C) | Await (r : outcome).

(** The body up to its first failure: the compensation stack, latest last, and how it ends. *)
Fixpoint run_body (body : list action) (stack : list C) : list C * outcome :=
  match body with
  | [] => (stack, Done)
  | OnCompensate c :: body => run_body body (stack ++ [c])
  | Await Done :: body => run_body body stack
  | Await r :: _ => (stack, r)
  end.

Context (undo : C -> outcome).

(** [SagaScope::compensate]: the compensations run, in order, and those left. The vector
    [_compensations] is taken from its back, so the loop runs over its reverse. *)
Fixpoint compensate_loop (rev_stack : list C) : list C * list C :=
  match rev_stack with
  | [] => ([], [])
  | c :: rest =>
      match undo c with
      | Cancelled => ([c], rest)
      | _ => let '(ran, kept) := compensate_loop rest in (c :: ran, kept)
      end
  end.

Definition compensate (stack : list C) : list C * list C :=
  let '(ran, kept) := compensate_loop (reverse stack) in (ran, reverse kept).

(** [run_saga]: the compensations run and how the saga ends. *)
Definition run_saga (body : list action) : list C * outcome :=
  match run_body body [] with
  | (_, Done) => ([], Done)
  | (_, Cancelled) => ([], Cancelled)
  | (stack, Threw e) => ((compensate stack).1, Threw e)
  end.

(** The compensations registered before the first failure. *)
Fixpoint registered (body : list action) : list C :=
  match body with
  | [] => []
  | OnCompensate c :: body => c :: registered body
  | Await Done :: body => registered body
  | Await _ :: _ => []
  end.

(** The first failure. *)
Fixpoint failure (body : list action) : outcome :=
  match body with
  | [] => Done
  | Await Done :: body => failure body
  | Await r :: _ => r
  | OnCompensate _ :: body => failure body
  end.

Lemma run_body_spec body stack : run_body body stack = (stack ++ registered body, failure body).
Proof.
  revert stack. induction body as [|[c|[]] body IH]; intros stack; simpl; rewrite ?app_nil_r, ?IH, <- ?app_assoc; done.
Qed.

Lemma compensate_loop_all l : (forall c, c ∈ l -> undo c <> Cancelled) -> compensate_loop l = (l, []).
Proof.
  induction l as [|c l IH]; intros Hl; simpl; [done|]. assert (undo c <> Cancelled) by (apply Hl; by left).
  rewrite IH by (intros; apply Hl; by right). by destruct (undo c).
Qed.

(** Up to the first one that is cancelled. *)
Lemma compensate_loop_cancel l c l' : (forall x, x ∈ l -> undo x <> Cancelled) -> undo c = Cancelled ->
  compensate_loop (l ++ c :: l') = (l ++ [c], l').
Proof.
  intros Hl Hc. induction l as [|x l IH]; simpl; [by rewrite Hc|]. assert (undo x <> Cancelled) by (apply Hl; by left).
  rewrite IH by (intros; apply Hl; by right). by destruct (undo x).
Qed.
End Saga.

(** A saga whose step fails runs every compensation registered before, in reverse order and
    once, also when compensations throw, and then fails with the error of the step; one that
    succeeds or is cancelled runs none. *)
Theorem saga_compensates {C E : Type} (undo : C -> outcome (E := E)) (body : list (action (C := C) (E := E))) :
  (forall c, c ∈ registered body -> undo c <> Cancelled) ->
  run_saga undo body = (match failure body with Threw _ => reverse (registered body) | _ => [] end, failure body).
Proof.
  intros Hundo. unfold run_saga. rewrite run_body_spec. simpl. destruct (failure body); try done.
  unfold compensate. rewrite compensate_loop_all; [done|]. intros c Hc. apply Hundo. by rewrite elem_of_reverse in Hc.
Qed.

Lemma saga_compensates_witness :
  run_saga (fun c : Z => if c =? 2 then Threw 99 else Done)
    [OnCompensate 1; Await Done; OnCompensate 2; Await Done; OnCompensate 3; Await (Threw 7); OnCompensate 4] = ([3; 2; 1], Threw 7).
Proof.
  apply (saga_compensates (fun c : Z => if c =? 2 then Threw 99 else Done)
    [OnCompensate 1; Await Done; OnCompensate 2; Await Done; OnCompensate 3; Await (Threw 7); OnCompensate 4]).
  intros c _. destruct (c =? 2); discriminate.
Defined.
