(* ===== verification/Quorum.v ===== *)
(** * Quorums: core/patterns/scatter.h

    [ask_quorum] asks several actors and resumes with the first [k] replies. The collectors, one
    per ask, act on a shared state; an order in which the asks end is a list of outcomes. *)

From S2P Require Import Prelude.

#[local] Open Scope Z_scope.

Section Quorum.
Context {R E : Type}.

(** [quorum_state]; [cont] is whether the asking coroutine is parked. *)
Record quorum_state := Quorum {
  results : list R;
  need : Z;
  total : Z;
  n_ok : Z;
  n_fail : Z;
  done : bool;
  cont : bool;
  error : option E;
  (** Ghost: how often the coroutine was scheduled. *)
  wakes : Z
}.

Inductive reply := Reply (r : R) | Failure (e : E).

Definition quorum_wake (s : quorum_state) : quorum_state :=
  if cont s then Quorum (results s) (need s) (total s) (n_ok s) (n_fail s) (done s) false (error s) (wakes s + 1) else s.

(** What a collector does with the outcome of its ask. *)
Definition collect (s : quorum_state) (x : reply) : quorum_state :=
  if done s then s
  else match x with
       | Reply r =>
           let ok := n_ok s +s 1 in
           let s1 := Quorum (results s ++ [r]) (need s) (total s) ok (n_fail s) (need s <=? ok) (cont s) (error s) (wakes s) in
           if need s <=? ok then quorum_wake s1 else s1
       | Failure e =>
           let fail := n_fail s +s 1 in
           let over := (total s -s need s) <? fail in
           let s1 := Quorum (results s) (need s) (total s) (n_ok s) fail over (cont s)
                       (match error s with Some e0 => Some e0 | None => Some e end) (wakes s) in
           if over then quorum_wake s1 else s1
       end.

(** [ask_quorum] for [n] targets: the state when the coroutine has parked, before any reply;
    [None] when it returns the empty vector at once. *)
Definition ask_quorum (k n : Z) : option quorum_state :=
  if (k =? 0) || (n =? 0) then None
  else
    let k := if n <? k then n else k in
    Some (Quorum [] k n 0 0 false true None 0).

(** How the coroutine resumes: with replies, with the first failure ([timeout_error] if there is
    none), or because its actor was killed. *)
Inductive resumed := Resumed (rs : list R) | Rethrown (e : option E) | CancelledError.

(** [quorum_awaiter::await_resume]; [cancelled] is the state of the token of the actor. *)
Definition await_resume (cancelled : bool) (s : quorum_state) : resumed :=
  if cancelled then CancelledError
  else if n_ok s <? need s then Rethrown (error s)
  else Resumed (results s).

(** The replies and the failures of a list of outcomes. *)
Definition replies (xs : list reply) : list R := omap (fun x => match x with Reply r => Some r | _ => None end) xs.
Definition failures (xs : list reply) : list E := omap (fun x => match x with Failure e => Some e | _ => None end) xs.

(** A prefix of the outcomes decides the quorum. *)
Definition decided (k n : Z) (xs : list reply) : Prop := k <= zlen (replies xs) \/ n - k < zlen (failures xs).

#[global] Instance decided_dec k n xs : Decision (decided k n xs).
Proof. unfold decided. apply _. Defined.

(** The state after outcomes that do not decide. *)
Record undecided (k n : Z) (xs : list reply) (s : quorum_state) : Prop := Undecided {
  ud_results : results s = replies xs;
  ud_need : need s = k;
  ud_total : total s = n;
  ud_ok : n_ok s = zlen (replies xs);
  ud_fail : n_fail s = zlen (failures xs);
  ud_done : done s = false;
  ud_cont : cont s = true;
  ud_error : error s = head (failures xs);
  ud_wakes : wakes s = 0
}.

(** The state after the outcome that decides, and from then on. *)
Record settled (k : Z) (xs : list reply) (s : quorum_state) : Prop := Settled {
  se_done : done s = true;
  se_wakes : wakes s = 1;
  se_result : await_resume false s = if k <=? zlen (replies xs) then Resumed (replies xs) else Rethrown (head (failures xs))
}.

Lemma replies_app xs ys : replies (xs ++ ys) = replies xs ++ replies ys.
Proof. apply omap_app. Qed.
Lemma failures_app xs ys : failures (xs ++ ys) = failures xs ++ failures ys.
Proof. apply omap_app. Qed.

Lemma collect_settled k xs s x : settled k xs s -> collect s x = s.
Proof. intros []. unfold collect. by rewrite se_done0. Qed.

Lemma collect_next k n xs s x :
  undecided k n xs s -> 0 < k <= n -> n < 2 ^ 63 -> ~ decided k n xs ->
  if decide (decided k n (xs ++ [x])) then settled k (xs ++ [x]) (collect s x) else undecided k n (xs ++ [x]) (collect s x).
Proof.
  intros [] Hk Hn Hnd. pose proof (zlen_nonneg (replies xs)). pose proof (zlen_nonneg (failures xs)).
  assert (zlen (@nil R) = 0) as Er by done. assert (zlen (@nil E) = 0) as Ee by done.
  destruct (decide _) as [D|D]; unfold decided in *; rewrite replies_app, failures_app, !zlen_app in D; unfold collect; rewrite ud_done0;
    destruct x as [r|e]; simpl in *; rewrite ?(zlen_one r), ?(zlen_one e), ?Er, ?Ee in D; rewrite ud_need0, ?ud_total0, ?ud_ok0, ?ud_fail0; uwrap.
  - rewrite (proj2 (Z.leb_le _ _)) by lia. unfold quorum_wake. simpl. rewrite ud_cont0. split; simpl; [done|rewrite ud_wakes0; lia|].
    unfold await_resume. simpl. rewrite replies_app, zlen_app, ?ud_need0, ?ud_results0. simpl. rewrite (zlen_one r). zcase; lia || done.
  - rewrite (proj2 (Z.ltb_lt _ _)) by lia. unfold quorum_wake. simpl. rewrite ud_cont0. split; simpl; [done|rewrite ud_wakes0; lia|].
    unfold await_resume. simpl. rewrite replies_app, failures_app, zlen_app, ?ud_ok0, ?ud_need0, ?ud_error0. simpl. rewrite Er.
    zcase; try lia. f_equal. by destruct (failures xs).
  - rewrite (proj2 (Z.leb_gt _ _)) by lia. split; simpl; rewrite ?replies_app, ?failures_app; simpl; rewrite ?app_nil_r, ?zlen_app, ?ud_results0; done.
  - rewrite (proj2 (Z.ltb_ge _ _)) by lia. split; simpl; rewrite ?replies_app, ?failures_app; simpl; rewrite ?app_nil_r, ?zlen_app, ?ud_error0; try done.
    by destruct (failures xs).
Qed.

(** Either nothing is decided yet, or the first deciding prefix settled the quorum. *)
Lemma collect_all k n xs s0 :
  undecided k n [] s0 -> 0 < k <= n -> n < 2 ^ 63 ->
  (undecided k n xs (fold_left collect xs s0) /\ ~ decided k n xs) \/
  (exists pre x post, xs = pre ++ x :: post /\ ~ decided k n pre /\ decided k n (pre ++ [x]) /\ settled k (pre ++ [x]) (fold_left collect xs s0)).
Proof.
  intros H0 Hk Hn. induction xs as [|x xs IH] using rev_ind.
  - left. split; [done|]. unfold decided, zlen. simpl. lia.
  - rewrite fold_left_app. simpl. destruct IH as [[Hu Hnd]|(pre & y & post & -> & Hp & Hd & Hs)].
    + pose proof (collect_next k n xs _ x Hu Hk Hn Hnd) as Hnext. case_decide as D.
      * right. by exists xs, x, [].
      * by left.
    + right. exists pre, y, (post ++ [x]). split; [by rewrite <- app_assoc|]. rewrite (collect_settled k (pre ++ [y])) by done. done.
Qed.
End Quorum.

(** C31: A quorum of k out of n asks is settled by the first outcome that makes k replies (all n
    when k is larger) or makes them impossible, wakes the asking coroutine once, and is not changed
    by later outcomes: the result is the first k replies in the order of completion, or the first
    failure. When all asks have ended it is settled; with nothing to ask it returns at once. *)
Theorem quorum_first_k {R E : Type} (k n : Z) (xs : list (reply (R := R) (E := E))) :
  0 <= k -> 0 <= n < 2 ^ 63 ->
  match ask_quorum k n with
  | None => k = 0 \/ n = 0
  | Some s0 =>
      let s := fold_left collect xs s0 in
      let k := Z.min k n in
      (~ decided k n xs /\ done s = false /\ wakes s = 0 /\ zlen xs < n) \/
      (exists pre x post, xs = pre ++ x :: post /\ ~ decided k n pre /\ decided k n (pre ++ [x]) /\ settled k (pre ++ [x]) s)
  end.
Proof.
  intros Hk Hn. unfold ask_quorum. destruct (Z.eqb_spec k 0), (Z.eqb_spec n 0); simpl; [by auto..|]. cbv zeta.
  assert ((if n <? k then n else k) = Z.min k n) as -> by (zcase; lia). set (s0 := Quorum _ _ _ _ _ _ _ _ _).
  assert (undecided (Z.min k n) n [] s0) as H0 by (by split).
  destruct (collect_all (Z.min k n) n xs s0 H0) as [[[] Hnd]|Hs]; [lia|lia| |by right]. left. split; [done|]. split; [done|]. split; [done|].
  unfold decided in Hnd. assert (zlen (replies xs) + zlen (failures xs) = zlen xs) as <-; [|lia].
  clear. unfold zlen. induction xs as [|[r|e] xs IH]; simpl in *; lia.
Qed.

Lemma quorum_first_k_witness :
  match ask_quorum 2 5 with
  | None => 2 = 0 \/ 5 = 0
  | Some s0 =>
      let xs := [Failure 5; Reply 10; Reply 11; Failure 6; Reply 12] in
      let s := fold_left collect xs s0 in
      let k := Z.min 2 5 in
      (~ decided k 5 xs /\ done s = false /\ wakes s = 0 /\ zlen xs < 5) \/
      (exists pre x post, xs = pre ++ x :: post /\ ~ decided k 5 pre /\ decided k 5 (pre ++ [x]) /\ settled k (pre ++ [x]) s)
  end.
Proof. apply (quorum_first_k 2 5 [Failure 5; Reply 10; Reply 11; Failure 6; Reply 12]); [discriminate|split; [discriminate|reflexivity]]. Defined.
