(* ===== verification/Batcher.v ===== *)
(** * Batches: core/patterns/aggregate.h

    A batcher hands items over in batches, by count, by time or on demand. The timers are
    coroutines that sleep and compare generations when they wake. *)

From S2P Require Import Prelude.

#[local] Open Scope Z_scope.

Section Batcher.
Context {T : Type}.

Record state := State {
  max : Z;
  has_window : bool;
  buf : list T;
  gen : Z;
  timer_armed : bool;
  (** The timers whose coroutines are asleep, by the generation each guards. *)
  timers : list Z;
  (** Ghost: the batches handed to [on_flush]. *)
  flushed : list (list T)
}.

Definition batcher (m : Z) (window : Z) : state :=
  State (if m =? 0 then 1 else m) (0 <? window) [] 0 false [] [].

Definition do_flush (s : state) : state :=
  let s1 := State (max s) (has_window s) (buf s) (gen s +s 1) false (timers s) (flushed s) in
  match buf s1 with
  | [] => s1
  | batch => State (max s1) (has_window s1) [] (gen s1) (timer_armed s1) (timers s1) (flushed s1 ++ [batch])
  end.

Definition arm_timer (s : state) : state :=
  State (max s) (has_window s) (buf s) (gen s) true (timers s ++ [gen s]) (flushed s).

Definition add (item : T) (s : state) : state :=
  let s1 := State (max s) (has_window s) (buf s ++ [item]) (gen s) (timer_armed s) (timers s) (flushed s) in
  if max s1 <=? zlen (buf s1) then do_flush s1
  else if negb (timer_armed s1) && has_window s1 then arm_timer s1
  else s1.

Definition flush (s : state) : state := do_flush s.

(** The [i]-th sleeping timer wakes up. *)
Definition timer_fires (i : nat) (s : state) : state :=
  match timers s !! i with
  | Some g =>
      let s1 := State (max s) (has_window s) (buf s) (gen s) (timer_armed s) (delete i (timers s)) (flushed s) in
      if negb (gen s1 =? g) then s1 else do_flush s1
  | None => s
  end.

Inductive op := Add (x : T) | Flush | Timer (i : nat).

Definition step (s : state) (o : op) : state :=
  match o with Add x => add x s | Flush => flush s | Timer i => timer_fires i s end.

Definition added (o : op) : list T := match o with Add x => [x] | _ => [] end.

(** Every item once, in order; batches of the right size; the present batch has its timer and
    no other timer is current. *)
Record state_ok (items : list T) (n : Z) (s : state) : Prop := StateOk {
  ok_items : concat (flushed s) ++ buf s = items;
  ok_max : 1 <= max s;
  ok_buf : zlen (buf s) < max s;
  ok_sizes : Forall (fun b => 1 <= zlen b <= max s) (flushed s);
  ok_gen : 0 <= gen s <= n;
  ok_timers : Forall (fun g => 0 <= g <= gen s) (timers s);
  ok_current : length (filter (fun g => g = gen s) (timers s)) = if timer_armed s then 1%nat else 0%nat;
  ok_armed : has_window s = true -> buf s <> [] -> timer_armed s = true
}.

Lemma filter_above (l : list Z) (g : Z) : Forall (fun x => 0 <= x <= g) l -> filter (fun x => x = g + 1) l = [].
Proof. intros H. apply filter_none. intros x Hx ->. rewrite Forall_forall in H. specialize (H _ Hx). simpl in H. lia. Qed.

Lemma do_flush_ok items n s : n + 1 < 2 ^ 64 ->
  concat (flushed s) ++ buf s = items -> 1 <= max s -> zlen (buf s) <= max s -> Forall (fun b => 1 <= zlen b <= max s) (flushed s) ->
  0 <= gen s <= n -> Forall (fun g => 0 <= g <= gen s) (timers s) ->
  state_ok items (n + 1) (do_flush s) /\ buf (do_flush s) = [].
Proof.
  intros Hn Hi Hm Hb Hs Hg Ht. unfold do_flush. simpl. uwrap. pose proof (filter_above _ _ Ht) as Hf.
  assert (Forall (fun g => 0 <= g <= gen s + 1) (timers s)) as Ht' by (eapply Forall_impl; [exact Ht|]; simpl; lia).
  destruct (buf s) as [|x l] eqn:E; (split; [split|done]); simpl; rewrite ?Hf, ?E; try done; try lia.
  - unfold zlen. simpl. lia.
  - subst items. by rewrite concat_app, app_nil_r; simpl; rewrite app_nil_r.
  - unfold zlen. simpl. lia.
  - apply Forall_app. split; [done|]. constructor; [|done]. split; [unfold zlen; simpl; lia|done].
Qed.

Lemma state_ok_weaken items n n' s : n <= n' -> state_ok items n s -> state_ok items n' s.
Proof. intros Hn []. split; try done. lia. Qed.

Lemma add_state_ok items n s x : n + 1 < 2 ^ 64 -> state_ok items n s -> state_ok (items ++ [x]) (n + 1) (add x s).
Proof.
  intros Hn []. unfold add. simpl. assert (zlen (buf s ++ [x]) = zlen (buf s) + 1) as El by (by rewrite zlen_app).
  assert (concat (flushed s) ++ buf s ++ [x] = items ++ [x]) as Ei by (by rewrite app_assoc, ok_items0).
  destruct (Z.leb_spec (max s) (zlen (buf s ++ [x]))).
  - apply do_flush_ok; simpl; try done. lia.
  - assert (buf s ++ [x] <> []) as Hne by (by destruct (buf s)).
    destruct (timer_armed s) eqn:Ea; simpl; [by split; simpl; try done; try lia; rewrite Ea|].
    destruct (has_window s) eqn:Ew; simpl; [|split; simpl; try done; try lia; by rewrite Ea].
    split; simpl; try done; try lia.
    + apply Forall_app. split; [done|]. constructor; [lia|done].
    + rewrite filter_app, length_app, ok_current0, filter_cons_True by done. done.
Qed.

Lemma delete_filter (l : list Z) (i : nat) (g c : Z) : l !! i = Some g ->
  length (filter (fun x => x = c) (delete i l)) = (length (filter (fun x => x = c) l) - if decide (g = c) then 1 else 0)%nat.
Proof.
  intros Hi. rewrite <- (take_drop_middle l i g Hi) at 2. rewrite delete_take_drop, !filter_app, !length_app, filter_cons.
  case_decide; simpl; lia.
Qed.

Lemma timer_state_ok items n s i : n + 1 < 2 ^ 64 -> state_ok items n s -> state_ok items (n + 1) (timer_fires i s).
Proof.
  intros Hn Hok. unfold timer_fires. destruct (timers s !! i) as [g|] eqn:Ei; [|eapply state_ok_weaken; [|done]; lia].
  destruct Hok. assert (Forall (fun g => 0 <= g <= gen s) (delete i (timers s))) as Ht by (by apply Forall_delete).
  simpl. destruct (Z.eqb_spec (gen s) g) as [Eg|Eg]; simpl.
  - apply do_flush_ok; simpl; try done. lia.
  - split; simpl; try done; [lia|]. rewrite (delete_filter _ i g) by done. rewrite decide_False by done. lia.
Qed.

Lemma step_state_ok items n s o : n + 1 < 2 ^ 64 -> state_ok items n s -> state_ok (items ++ added o) (n + 1) (step s o).
Proof.
  intros Hn Hok. destruct o as [x| |i]; simpl; rewrite ?app_nil_r; [by apply add_state_ok| |by apply timer_state_ok].
  destruct Hok. apply do_flush_ok; try done. lia.
Qed.

Lemma run_state_ok ops items n s : n + zlen ops < 2 ^ 64 -> state_ok items n s ->
  state_ok (items ++ concat (added <$> ops)) (n + zlen ops) (fold_left step ops s).
Proof.
  revert items n s. induction ops as [|o ops IH]; intros items n s Hn Hok; simpl.
  - rewrite app_nil_r. change (zlen (@nil op)) with 0. by rewrite Z.add_0_r.
  - assert (zlen (o :: ops) = zlen ops + 1) as El by (unfold zlen; simpl; lia). pose proof (zlen_nonneg ops).
    rewrite El in *. rewrite app_assoc. replace (n + (zlen ops + 1)) with (n + 1 + zlen ops) by lia. apply IH; [lia|]. apply step_state_ok; [lia|done].
Qed.
End Batcher.

(** Every item added to a batcher is handed to on_flush once and in order, in batches of one to
    max items, whichever of the count, the timer and flush() ends a batch; and while items wait
    there is exactly one timer that will flush them, timers of earlier batches having no effect. *)
Theorem batcher_flushes {T : Type} (m window : Z) (ops : list (op (T := T))) :
  0 <= m -> zlen ops < 2 ^ 64 - 1 ->
  state_ok (concat (added <$> ops)) (zlen ops) (fold_left step ops (batcher m window)).
Proof.
  intros Hm Hn. apply (run_state_ok ops [] 0); [lia|]. unfold batcher.
  split; simpl; try done; try (zcase; unfold zlen; simpl; lia).
Qed.

Lemma batcher_flushes_witness :
  state_ok [1; 2; 3] 5 (fold_left step [Add 1; Add 2; Add 3; Timer 0; Timer 0] (batcher 2 50)).
Proof. apply (batcher_flushes 2 50 [Add 1; Add 2; Add 3; Timer 0; Timer 0]); [discriminate|reflexivity]. Defined.
