(* ===== verification/AskStream.v ===== *)
(** * Streamed answers: core/patterns/streaming.h

    [ask_stream] receives a sequence of chunks into a bounded buffer. [next()] is modelled by
    what it returns when it resumes. *)

From S2P Require Import Prelude.

#[local] Open Scope Z_scope.

Section AskStream.
Context {C : Type}.

(** [stream_state]; [token] is whether the scope of the actor is cancelled, [waiter] whether a
    [next()] is parked. *)
Record stream_state := Stream {
  queue : list C;
  cap : Z;
  done : bool;
  dropped : bool;
  token : bool;
  waiter : bool;
  (** Ghost: chunks sent before the end marker, chunks taken, and whether the marker was sent. *)
  sent : list C;
  taken : list C;
  ended : bool
}.

Definition ask_stream (capacity : Z) : stream_state :=
  Stream [] (if capacity =? 0 then 1 else capacity) false false false false [] [] false.

Definition wake (s : stream_state) : stream_state :=
  Stream (queue s) (cap s) (done s) (dropped s) (token s) false (sent s) (taken s) (ended s).

(** A chunk arrives. *)
Definition deliver (e : C) (s : stream_state) : stream_state :=
  let s := Stream (queue s) (cap s) (done s) (dropped s) (token s) (waiter s) (if ended s then sent s else sent s ++ [e]) (taken s) (ended s) in
  if done s then s
  else if cap s <=? zlen (queue s) then
    wake (Stream (queue s) (cap s) true true (token s) (waiter s) (sent s) (taken s) (ended s))
  else wake (Stream (queue s ++ [e]) (cap s) (done s) (dropped s) (token s) (waiter s) (sent s) (taken s) (ended s)).

(** The end marker arrives. *)
Definition finish (s : stream_state) : stream_state :=
  wake (Stream (queue s) (cap s) true (dropped s) (token s) (waiter s) (sent s) (taken s) true).

Definition cancel (s : stream_state) : stream_state :=
  wake (Stream (queue s) (cap s) (done s) (dropped s) true (waiter s) (sent s) (taken s) (ended s)).

Inductive next_result := Chunk (c : C) | Overflow | CancelledError | EndOfStream | TimeoutError | Waits.

(** [next()]: parks, or resumes at once or later; [timed_out] is whether its timer fired. *)
Definition next (timed_out : bool) (s : stream_state) : next_result * stream_state :=
  let s1 := Stream (queue s) (cap s) (done s) (dropped s) (token s) false (sent s) (taken s) (ended s) in
  match queue s with
  | c :: q => (Chunk c, Stream q (cap s) (done s) (dropped s) (token s) false (sent s) (taken s ++ [c]) (ended s))
  | [] =>
      if dropped s then (Overflow, s1)
      else if token s then (CancelledError, s1)
      else if done s then (EndOfStream, s1)
      else if timed_out then (TimeoutError, s1)
      else (Waits, Stream (queue s) (cap s) (done s) (dropped s) (token s) true (sent s) (taken s) (ended s))
  end.

Inductive op := Deliver (c : C) | Finish | Cancel | Next (timed_out : bool).

Definition step (s : stream_state) (o : op) : stream_state :=
  match o with Deliver c => deliver c s | Finish => finish s | Cancel => cancel s | Next t => (next t s).2 end.

(** What was taken and what is queued is the beginning of what was sent; all of it unless a
    chunk overflowed, which is remembered. *)
Record stream_ok (s : stream_state) : Prop := StreamOk {
  so_prefix : (taken s ++ queue s) `prefix_of` sent s;
  so_all : dropped s = false -> taken s ++ queue s = sent s;
  so_done : done s = true -> ended s = true \/ dropped s = true;
  so_dropped : dropped s = true -> done s = true;
  so_ended : ended s = true -> done s = true;
  so_cap : 1 <= cap s;
  so_queue : zlen (queue s) <= cap s
}.

Lemma step_stream_ok (s : stream_state) (o : op) : stream_ok s -> stream_ok (step s o).
Proof.
  intros []. destruct o as [c| | |t]; simpl.
  - unfold deliver. simpl. destruct (done s) eqn:Ed.
    + destruct (so_done0 eq_refl) as [He|Hd]; split; simpl; try done; rewrite ?He; try done.
      * destruct (ended s); [done|]. by apply prefix_app_r.
      * by rewrite Hd.
    + destruct (ended s) eqn:Ee; [by specialize (so_ended0 eq_refl)|]. assert (dropped s = false) as Hd by (destruct (dropped s); [by specialize (so_dropped0 eq_refl)|done]).
      specialize (so_all0 Hd). zcase; split; simpl; try done; try (by right).
      * rewrite so_all0. by eexists.
      * by rewrite app_assoc, so_all0.
      * intros _. by rewrite app_assoc, so_all0.
      * zlens.
  - split; simpl; try done. by left.
  - by split.
  - unfold next. destruct (queue s) as [|c q] eqn:Eq.
    + repeat case_match; split; simpl; rewrite ?Eq; done.
    + simpl. assert ((taken s ++ [c]) ++ q = taken s ++ c :: q) as E by (by rewrite <- app_assoc).
      split; simpl; rewrite ?E; try done. unfold zlen in *. simpl in *. lia.
Qed.

Lemma run_stream_ok ops s : stream_ok s -> stream_ok (fold_left step ops s).
Proof. revert s. induction ops as [|o ops IH]; intros s Hs; simpl; [done|]. apply IH. by apply step_stream_ok. Qed.
End AskStream.

(** The consumer of a streamed answer gets the chunks in the order they were sent and without
    gaps, and is told of the end of the stream only if it has taken every chunk sent before the
    end marker: a chunk that found the buffer full is reported as an overflow, never skipped. *)
Theorem stream_no_silent_loss {C : Type} (capacity : Z) (ops : list (op (C := C))) (timed_out : bool) :
  0 <= capacity ->
  let s := fold_left step ops (ask_stream capacity) in
  taken s `prefix_of` sent s /\ zlen (queue s) <= cap s /\
  ((next timed_out s).1 = EndOfStream -> taken s = sent s /\ ended s = true).
Proof.
  intros Hc. assert (stream_ok (fold_left step ops (ask_stream capacity))) as Hok.
  { apply run_stream_ok. unfold ask_stream. split; simpl; try done; zcase; unfold zlen; simpl; lia. }
  cbv zeta. set (s := fold_left step ops (ask_stream capacity)) in *. destruct Hok.
  split; [etransitivity; [|exact so_prefix0]; by eexists|]. split; [done|].
  unfold next. destruct (queue s) as [|c q]; [|done]. rewrite app_nil_r in *.
  destruct (dropped s) eqn:Ed; [done|]. destruct (token s); [done|]. destruct (done s) eqn:Edn; [|by destruct timed_out].
  intros _. split; [auto|]. by destruct (so_done0 eq_refl).
Qed.

Lemma stream_no_silent_loss_witness :
  let s := fold_left step [Deliver 1; Deliver 2; Next false; Finish; Next false] (ask_stream 2) in
  taken s `prefix_of` sent s /\ zlen (queue s) <= cap s /\ ((next false s).1 = EndOfStream -> taken s = sent s /\ ended s = true).
Proof. apply (stream_no_silent_loss 2 [Deliver 1; Deliver 2; Next false; Finish; Next false] false). discriminate. Defined.
