(* ===== verification/Supervisor.v ===== *)
(** * Supervision: core/patterns/supervisor.h

    A supervisor starts one child per slot and restarts children that report that they stopped.
    The supervisor is modelled together with its core: the actors alive, with the ids they have
    (a new actor gets the smallest free id, as ServiceIdPool proves), the events in the pipe of
    the core, and the removal of killed actors at the end of a turn. A child may stop and report
    it, or die without a report (killed by another actor, or its initialisation failed); the
    creation of a child may fail; and the supervisor itself may be killed. *)

From Stdlib Require Import Sorted.
From S2P Require Import Prelude.

#[local] Open Scope Z_scope.

Inductive restart_strategy := one_for_one | one_for_all | rest_for_one.

(** Events in flight: [ChildDown] to the supervisor, [KillEvent] to an actor. *)
Inductive event := ChildDown (slot generation : Z) | KillEvent (id : Z).

(** A child: its slot, its generation, and whether it has been killed and awaits removal. *)
Record child := Child { c_slot : Z; c_generation : Z; c_killed : bool }.

(** Why a slot may be empty with no report on the way: the creation of its child failed, its
    child died without a report, its report met the restart limit. *)
Inductive loss := NotSpawned | Silent | Escalated.

Record supervisor := Sup {
  _strategy : restart_strategy;
  _count : Z;
  _max_restarts : Z;
  _window : Z;
  _restarts : Z;
  _children : list Z;
  _gen : list Z;
  _restart_times : list Z;
  sup_alive : bool;
  (** The core: actors by id, events in the pipe, the calls of [spawn_child] so far, and which
      of them fail. *)
  actors : gmap Z child;
  events : list event;
  attempts : Z;
  spawn_fails : Z -> bool;
  (** Ghost: the times of all restarts, how often [on_escalate()] was called, the slots lost. *)
  restart_log : list Z;
  escalations : Z;
  lost : list (Z * loss)
}.

(** ** Updates *)

Definition set_children (cs gs : list Z) (s : supervisor) : supervisor :=
  Sup (_strategy s) (_count s) (_max_restarts s) (_window s) (_restarts s) cs gs (_restart_times s) (sup_alive s)
    (actors s) (events s) (attempts s) (spawn_fails s) (restart_log s) (escalations s) (lost s).

Definition set_core (a : gmap Z child) (e : list event) (s : supervisor) : supervisor :=
  Sup (_strategy s) (_count s) (_max_restarts s) (_window s) (_restarts s) (_children s) (_gen s) (_restart_times s) (sup_alive s)
    a e (attempts s) (spawn_fails s) (restart_log s) (escalations s) (lost s).

Definition set_times (n : Z) (ts log : list Z) (esc : Z) (s : supervisor) : supervisor :=
  Sup (_strategy s) (_count s) (_max_restarts s) (_window s) n (_children s) (_gen s) ts (sup_alive s)
    (actors s) (events s) (attempts s) (spawn_fails s) log esc (lost s).

Definition attempt (s : supervisor) : supervisor :=
  Sup (_strategy s) (_count s) (_max_restarts s) (_window s) (_restarts s) (_children s) (_gen s) (_restart_times s) (sup_alive s)
    (actors s) (events s) (attempts s + 1) (spawn_fails s) (restart_log s) (escalations s) (lost s).

Definition lose (slot : Z) (why : loss) (s : supervisor) : supervisor :=
  Sup (_strategy s) (_count s) (_max_restarts s) (_window s) (_restarts s) (_children s) (_gen s) (_restart_times s) (sup_alive s)
    (actors s) (events s) (attempts s) (spawn_fails s) (restart_log s) (escalations s) (lost s ++ [(slot, why)]).

Definition push (e : event) (s : supervisor) : supervisor := set_core (actors s) (events s ++ [e]) s.

(** ** The core *)

(** The smallest id from [i] on that no actor has. *)
Fixpoint smallest_free (fuel : nat) (i : Z) (a : gmap Z child) : Z :=
  match fuel with
  | O => i
  | S fuel => match a !! i with Some _ => smallest_free fuel (i + 1) a | None => i end
  end.

Definition free_id (a : gmap Z child) : Z := smallest_free (size a) 1 a.

(** [spawn_child] as documented: [addRefActor<Child>(id(), slot, generation).id()]; the id is
    invalid if the actor is not created. *)
Definition spawn_child (slot generation : Z) (s : supervisor) : Z * supervisor :=
  if spawn_fails s (attempts s) then (0, lose slot NotSpawned (attempt s))
  else
    let id := free_id (actors s) in
    (id, set_core (<[id := Child slot generation false]> (actors s)) (events s) (attempt s)).

(** ** The supervisor *)

Definition start_slot (i : Z) (s : supervisor) : supervisor :=
  let '(id, s1) := spawn_child i (default 0 (zget (_gen s) i)) s in
  set_children (zput (_children s1) i id) (_gen s1) s1.

Definition bump (i : Z) (s : supervisor) : supervisor :=
  set_children (_children s) (zput (_gen s) i (default 0 (zget (_gen s) i) +s 1)) s.

(** Slots [from] to [from + n - 1]. *)
Definition slots (from : Z) (n : Z) : list Z := (fun k => from + Z.of_nat k) <$> seq 0 (Z.to_nat n).

Definition onInit (s : supervisor) : supervisor :=
  let s1 := set_children (zrepeat 0 (_count s)) (zrepeat 0 (_count s)) s in
  fold_left (fun s i => start_slot i s) (slots 0 (_count s1)) s1.

(** [over_restart_limit()]: the timestamps that have expired are dropped first. *)
Fixpoint prune (cutoff : Z) (ts : list Z) : list Z :=
  match ts with
  | t :: ts' => if t <? cutoff then prune cutoff ts' else ts
  | [] => []
  end.

Definition over_restart_limit (now : Z) (s : supervisor) : bool * supervisor :=
  if _window s <=? 0 then (_max_restarts s <=? _restarts s, s)
  else
    let cutoff := if _window s <? now then now - _window s else 0 in
    let ts := prune cutoff (_restart_times s) in
    (_max_restarts s <=? zlen ts, set_times (_restarts s) ts (restart_log s) (escalations s) s).

Definition record_restart (now : Z) (s : supervisor) : supervisor :=
  set_times (u32 (_restarts s + 1)) (if 0 <? _window s then _restart_times s ++ [now] else _restart_times s)
    (restart_log s ++ [now]) (escalations s) s.

(** [restart_slots(from, to, down)]: first every slot is retired, then every slot is filled. *)
Definition retire (down : Z) (s : supervisor) (j : Z) : supervisor :=
  let s1 := bump j s in
  if negb (j =? down) then push (KillEvent (default 0 (zget (_children s1) j))) s1 else s1.

Definition restart_slots (from to down : Z) (s : supervisor) : supervisor :=
  let js := slots from (to - from) in
  fold_left (fun s j => start_slot j s) js (fold_left (retire down) js s).

(** [on(ChildDown)]: the switch, then the whole handler. *)
Definition apply_strategy (slot : Z) (s : supervisor) : supervisor :=
  match _strategy s with
  | one_for_one => start_slot slot (bump slot s)
  | one_for_all => restart_slots 0 (_count s) slot s
  | rest_for_one => restart_slots slot (_count s) slot s
  end.

Definition on_child_down (now slot generation : Z) (s : supervisor) : supervisor :=
  if (_count s <=? slot) || negb (generation =? default 0 (zget (_gen s) slot)) then s
  else
    let '(over, s1) := if negb (_max_restarts s =? 0) then over_restart_limit now s else (false, s) in
    if over then lose slot Escalated (set_times (_restarts s1) (_restart_times s1) (restart_log s1) (escalations s1 + 1) s1)
    else
      apply_strategy slot (record_restart now s1).

(** [on(KillEvent)] of the supervisor: its children are killed first. *)
Definition on_kill (s : supervisor) : supervisor :=
  let s1 := fold_left (fun s j =>
    let s' := bump j s in
    let id := default 0 (zget (_children s') j) in
    if negb (id =? 0) then push (KillEvent id) s' else s') (slots 0 (zlen (_children s))) s in
  Sup (_strategy s1) (_count s1) (_max_restarts s1) (_window s1) (_restarts s1) (_children s1) (_gen s1) (_restart_times s1) false
    (actors s1) (events s1) (attempts s1) (spawn_fails s1) (restart_log s1) (escalations s1) (lost s1).

(** ** Children and the loop of the core *)

Definition kill_actor (id : Z) (s : supervisor) : supervisor :=
  match actors s !! id with
  | Some c => set_core (<[id := Child (c_slot c) (c_generation c) true]> (actors s)) (events s) s
  | None => s
  end.

(** [SupervisedActor::stop()] of a child that runs. *)
Definition stop (id : Z) (s : supervisor) : supervisor :=
  match actors s !! id with
  | Some c => if c_killed c then s else kill_actor id (push (ChildDown (c_slot c) (c_generation c)) s)
  | None => s
  end.

(** A child that runs dies without a report. *)
Definition crash (id : Z) (s : supervisor) : supervisor :=
  match actors s !! id with
  | Some c => if c_killed c then s else lose (c_slot c) Silent (kill_actor id s)
  | None => s
  end.

(** The first event in the pipe is handled; one for an id without an actor is dropped. *)
Definition deliver (now : Z) (s : supervisor) : supervisor :=
  match events s with
  | [] => s
  | e :: es =>
      let s1 := set_core (actors s) es s in
      match e with
      | ChildDown slot generation => if sup_alive s1 then on_child_down now slot generation s1 else s1
      | KillEvent id => kill_actor id s1
      end
  end.

(** The end of a turn: killed actors are removed and their ids are free again. *)
Definition reap (s : supervisor) : supervisor :=
  set_core (filter (fun kv => c_killed kv.2 = false) (actors s)) (events s) s.

(** [Kill]: the supervisor handles a [KillEvent] of its own. *)
Inductive op := Stop (id : Z) | Crash (id : Z) | Deliver (now : Z) | Reap | Kill.

Definition step (s : supervisor) (o : op) : supervisor :=
  match o with
  | Stop id => stop id s
  | Crash id => crash id s
  | Deliver now => deliver now s
  | Reap => reap s
  | Kill => if sup_alive s then on_kill s else s
  end.

Definition create (strategy : restart_strategy) (count max_restarts window : Z) (fails : Z -> bool) : supervisor :=
  onInit (Sup strategy count max_restarts window 0 [] [] [] true ∅ [] 0 fails [] 0 []).

(** * New ids are free *)

Lemma smallest_free_in (fuel : nat) (i : Z) (a : gmap Z child) :
  exists n, (n <= fuel)%nat /\ smallest_free fuel i a = i + Z.of_nat n /\
    (forall k, (k < n)%nat -> is_Some (a !! (i + Z.of_nat k))) /\ (a !! (i + Z.of_nat n) = None \/ n = fuel).
Proof.
  revert i. induction fuel as [|fuel IH]; intros i; simpl.
  - exists 0%nat. split; [done|]. split; [lia|]. split; [lia|by right].
  - destruct (a !! i) as [c|] eqn:E.
    + destruct (IH (i + 1)) as (n & Hn & Er & Hin & Hend). exists (S n). split; [lia|]. split; [lia|].
      split; [|replace (i + Z.of_nat (S n)) with (i + 1 + Z.of_nat n) by lia; destruct Hend; [by left|right; lia]].
      intros [|k] Hk; [rewrite Z.add_0_r; by eauto|]. replace (i + Z.of_nat (S k)) with (i + 1 + Z.of_nat k) by lia. apply Hin. lia.
    + exists 0%nat. rewrite Z.add_0_r. split; [lia|]. split; [lia|]. split; [lia|by left].
Qed.

(** By counting: if the first [size] ids are taken there is no other actor. *)
Lemma free_id_None (a : gmap Z child) : a !! free_id a = None.
Proof.
  unfold free_id. destruct (smallest_free_in (size a) 1 a) as (n & _ & -> & Hin & [E| ->]); [done|].
  destruct (a !! (1 + Z.of_nat (size a))) as [c|] eqn:E; [exfalso|done].
  set (ids := (fun k => 1 + Z.of_nat k) <$> seq 0 (S (size a))).
  assert (NoDup ids) as Hnd by (apply NoDup_fmap_2; [intros x y ?; lia|apply NoDup_seq]).
  assert (list_to_set ids ⊆ dom a) as Hsub.
  { intros x. rewrite elem_of_list_to_set, elem_of_dom. intros (k & -> & Hk)%list_elem_of_fmap. apply elem_of_seq in Hk.
    destruct (decide (k < size a)%nat); [by apply Hin|]. replace k with (size a) by lia. by eauto. }
  apply subseteq_size in Hsub. rewrite size_list_to_set, size_dom in Hsub by done.
  unfold ids in Hsub. rewrite length_fmap, length_seq in Hsub. lia.
Qed.

Lemma free_id_pos (a : gmap Z child) : free_id a <> 0.
Proof. unfold free_id. destruct (smallest_free_in (size a) 1 a) as (n & _ & -> & _). lia. Qed.

(** * One for one

    While the supervisor lives, every slot has a living child of the present generation, or the
    report of its end is on the way, or it was lost; once the supervisor is killed, every living
    child has a KillEvent on the way; and there is never a second living child for a slot. *)

Record supervised (n : Z) (s : supervisor) : Prop := Supervised {
  su_strategy : _strategy s = one_for_one;
  su_alive : sup_alive s = true;
  su_children : zlen (_children s) = _count s;
  su_gens : zlen (_gen s) = _count s;
  su_gen : forall i g, zget (_gen s) i = Some g -> 0 <= g <= n;
  su_slot : forall i g, zget (_gen s) i = Some g -> exists id, zget (_children s) i = Some id /\
    (actors s !! id = Some (Child i g false) \/ ChildDown i g ∈ events s \/ i ∈ (lost s).*1);
  su_current : forall id c, actors s !! id = Some c -> c_killed c = false ->
    zget (_gen s) (c_slot c) = Some (c_generation c) /\ zget (_children s) (c_slot c) = Some id /\ id <> 0;
  su_events : forall e, e ∈ events s -> exists i g g', e = ChildDown i g /\ zget (_gen s) i = Some g' /\ g <= g';
  su_pending : forall i g, zget (_gen s) i = Some g -> ChildDown i g ∈ events s ->
    forall id c, actors s !! id = Some c -> c_killed c = false -> c_slot c <> i
}.

Lemma reap_supervised n s : supervised n s -> supervised n (reap s).
Proof.
  intros []. unfold reap. split; simpl; try done.
  - intros i g Hg. destruct (su_slot0 i g Hg) as (id & Hid & [Ha|He]); exists id; (split; [done|]); [left|by right].
    apply map_lookup_filter_Some. done.
  - intros id c [Hc _]%map_lookup_filter_Some. auto.
  - intros i g Hg He id c [Hc _]%map_lookup_filter_Some. eauto.
Qed.

(** A child that runs is killed, and its report is on the way or its slot is lost. *)
Lemma end_supervised n s id c es ls :
  supervised n s -> actors s !! id = Some c -> c_killed c = false ->
  (es = [ChildDown (c_slot c) (c_generation c)] \/ es = [] /\ c_slot c ∈ ls.*1) ->
  supervised n (Sup (_strategy s) (_count s) (_max_restarts s) (_window s) (_restarts s) (_children s) (_gen s) (_restart_times s)
    (sup_alive s) (<[id := Child (c_slot c) (c_generation c) true]> (actors s)) (events s ++ es) (attempts s) (spawn_fails s)
    (restart_log s) (escalations s) (lost s ++ ls)).
Proof.
  intros [] Ec Ek Hes. destruct (su_current0 id c Ec Ek) as (Hgen & Hch & _). split; simpl; try done.
  - intros i g Hg. destruct (decide (i = c_slot c)) as [->|Hne].
    + exists id. split; [done|]. right. rewrite Hgen in Hg. injection Hg as <-.
      destruct Hes as [->|[_ Hl]]; [left; apply elem_of_app; right; by left|right]. rewrite fmap_app. apply elem_of_app. by right.
    + destruct (su_slot0 i g Hg) as (id' & Hid' & [Ha|[He|Hl]]); exists id'; (split; [done|]).
      * left. rewrite lookup_insert_ne; [done|]. intros <-. rewrite Ec in Ha. injection Ha as ->. done.
      * right. left. apply elem_of_app. by left.
      * right. right. rewrite fmap_app. apply elem_of_app. by left.
  - intros id' c' Hc' Hk'. destruct (decide (id' = id)) as [->|]; [rewrite lookup_insert_eq in Hc'; by injection Hc' as <-|].
    rewrite lookup_insert_ne in Hc' by done. auto.
  - intros e [He|He]%elem_of_app; [auto|]. destruct Hes as [->|[-> _]]; [|by apply elem_of_nil in He].
    apply list_elem_of_singleton in He as ->. by exists (c_slot c), (c_generation c), (c_generation c).
  - intros i g Hg He id' c' Hc' Hk'. destruct (decide (id' = id)) as [->|]; [rewrite lookup_insert_eq in Hc'; by injection Hc' as <-|].
    rewrite lookup_insert_ne in Hc' by done. apply elem_of_app in He as [He|He]; [eauto|].
    destruct Hes as [->|[-> _]]; [|by apply elem_of_nil in He]. apply list_elem_of_singleton in He as [= -> ->].
    intros Heq. destruct (su_current0 id' c' Hc' Hk') as (_ & Hch' & _). rewrite Heq, Hch in Hch'. by injection Hch'.
Qed.

Lemma stop_supervised n s id : supervised n s -> supervised n (stop id s).
Proof.
  intros Hs. unfold stop. destruct (actors s !! id) as [c|] eqn:Ec; [|done]. destruct (c_killed c) eqn:Ek; [done|].
  unfold kill_actor. simpl. rewrite Ec. pose proof (end_supervised n s id c [ChildDown (c_slot c) (c_generation c)] [] Hs Ec Ek) as H.
  rewrite app_nil_r in H. by apply H; left.
Qed.

Lemma crash_supervised n s id : supervised n s -> supervised n (crash id s).
Proof.
  intros Hs. unfold crash. destruct (actors s !! id) as [c|] eqn:Ec; [|done]. destruct (c_killed c) eqn:Ek; [done|].
  unfold kill_actor. simpl. rewrite Ec. pose proof (end_supervised n s id c [] [(c_slot c, Silent)] Hs Ec Ek) as H.
  rewrite app_nil_r in H. apply H. right. split; [done|]. by left.
Qed.

(** Slot [i], which has no living child, enters a new generation: with a new child, or lost. *)
Lemma refill_supervised n s i g id a ls k :
  supervised n s -> n + 1 < 2 ^ 64 -> zget (_gen s) i = Some g ->
  (forall id c, actors s !! id = Some c -> c_killed c = false -> c_slot c <> i) ->
  a = <[id := Child i (g + 1) false]> (actors s) /\ actors s !! id = None /\ id <> 0 \/ a = actors s /\ i ∈ ls.*1 ->
  supervised (n + 1) (Sup (_strategy s) (_count s) (_max_restarts s) (_window s) (_restarts s) (zput (_children s) i id)
    (zput (_gen s) i (g + 1)) (_restart_times s) (sup_alive s) a (events s) k (spawn_fails s) (restart_log s) (escalations s) (lost s ++ ls)).
Proof.
  intros [] Hn Hg Hnone Ha. pose proof (zget_Some_range _ _ _ Hg) as Hr. pose proof (su_gen0 i g Hg) as Hgr.
  assert (forall id' c, a !! id' = Some c -> (id' = id /\ c = Child i (g + 1) false /\ id <> 0) \/ actors s !! id' = Some c) as Hin.
  { intros id' c Hc. destruct Ha as [(-> & _ & Hid)|(-> & _)]; [|by right]. apply lookup_insert_Some in Hc as [[<- <-]|[_ Hc]]; [by left|by right]. }
  assert (forall id' c, actors s !! id' = Some c -> a !! id' = Some c) as Hkeep.
  { intros id' c Hc. destruct Ha as [(-> & Hfree & _)|(-> & _)]; [|done]. rewrite lookup_insert_ne; [done|]. intros <-. congruence. }
  split; simpl; rewrite ?zlen_put; try done.
  - intros j g'. rewrite zget_put by done. zcase; [intros [= <-]; lia|]. intros Hg'. specialize (su_gen0 j g' Hg'). lia.
  - intros j g'. rewrite zget_put by done. rewrite zget_put by lia. rewrite fmap_app. zcase.
    + intros [= <-]. subst j. exists id. split; [done|]. rewrite elem_of_app. destruct Ha as [(-> & _ & _)|(-> & Hl)]; [left; by rewrite lookup_insert_eq|auto].
    + intros Hg'. destruct (su_slot0 j g' Hg') as (id' & Hid' & [H|[He|Hl]]); exists id'; (split; [done|]); rewrite elem_of_app; [left; by apply Hkeep|auto..].
  - intros id' c Hc Hk. destruct (Hin id' c Hc) as [(-> & -> & Hid)|Hc']; [simpl; by rewrite !zget_put_eq by lia|].
    rewrite !zget_put_ne by (apply not_eq_sym; eauto). auto.
  - intros e He. destruct (su_events0 e He) as (j & h & h' & -> & Hh' & Hle). destruct (decide (j = i)) as [->|].
    + exists i, h, (g + 1). rewrite zget_put_eq by done. rewrite Hg in Hh'. injection Hh' as <-. split; [done|]. split; [done|lia].
    + exists j, h, h'. by rewrite zget_put_ne.
  - intros j g'. rewrite zget_put by done. intros Hg' He id' c Hc Hk. destruct (Hin id' c Hc) as [(-> & -> & _)|Hc'].
    + simpl. intros <-. rewrite Z.eqb_refl in Hg'. injection Hg' as <-.
      destruct (su_events0 _ He) as (j & h & h' & [= <- <-] & Hh' & Hle). rewrite Hg in Hh'. injection Hh' as <-. lia.
    + intros <-. assert (c_slot c <> i) by eauto. rewrite (proj2 (Z.eqb_neq _ _)) in Hg' by done. by eapply su_pending0.
Qed.

Lemma start_supervised n s i g : supervised n s -> n + 1 < 2 ^ 64 -> zget (_gen s) i = Some g ->
  (forall id c, actors s !! id = Some c -> c_killed c = false -> c_slot c <> i) ->
  supervised (n + 1) (start_slot i (bump i s)).
Proof.
  intros Hs Hn Hg Hnone. pose proof (zget_Some_range _ _ _ Hg) as Hr. pose proof (su_gen _ _ Hs i g Hg) as Hgr.
  unfold start_slot, spawn_child, bump. simpl. rewrite Hg. simpl. rewrite zget_put_eq by done. simpl. uwrap.
  destruct (spawn_fails s (attempts s)); simpl.
  - apply (refill_supervised n s i g 0 (actors s) [(i, NotSpawned)] (attempts s + 1) Hs Hn Hg Hnone). right. split; [done|by left].
  - pose proof (refill_supervised n s i g (free_id (actors s)) (<[free_id (actors s) := Child i (g + 1) false]> (actors s)) []
      (attempts s + 1) Hs Hn Hg Hnone) as H. rewrite app_nil_r in H. apply H. left.
    split; [done|]. split; [apply free_id_None|apply free_id_pos].
Qed.

Lemma supervised_weaken n n' s : n <= n' -> supervised n s -> supervised n' s.
Proof. intros Hn []. split; try done. intros i g Hg. specialize (su_gen0 i g Hg). lia. Qed.

(** An event that is not about the present generation, or whose slot is lost, changes nothing
    when it is dropped. *)
Lemma drop_supervised n s i g es :
  supervised n s -> events s = ChildDown i g :: es -> zget (_gen s) i <> Some g \/ i ∈ (lost s).*1 ->
  supervised n (set_core (actors s) es s).
Proof.
  intros [] He Hg. rewrite He in *. split; simpl; try done.
  - intros j g' Hg'. destruct (su_slot0 j g' Hg') as (id & Hid & [Ha|[[[= -> ->]|Hin]%elem_of_cons|Hl]]); exists id; (split; [done|]); auto.
    destruct Hg; [done|auto].
  - intros e Hin. apply su_events0. by right.
  - intros j g' Hg' Hin. apply (su_pending0 j g' Hg'). by right.
Qed.

(** What supervision does not depend on. *)
Lemma times_supervised n k ts log esc s : supervised n s -> supervised n (set_times k ts log esc s).
Proof. by intros []. Qed.

Lemma lose_supervised n i why s : supervised n s -> supervised n (lose i why s).
Proof.
  intros []. split; simpl; try done. intros j g Hg. destruct (su_slot0 j g Hg) as (id & Hid & [Ha|[He|Hl]]); exists id; (split; [done|]); auto.
  right. right. rewrite fmap_app. apply elem_of_app. by left.
Qed.

(** A report of the present generation: the slot is restarted. *)
Lemma restart_supervised n s i g es : supervised n s -> n + 1 < 2 ^ 64 -> zget (_gen s) i = Some g -> events s = ChildDown i g :: es ->
  supervised (n + 1) (start_slot i (bump i (set_core (actors s) es s))).
Proof.
  intros Hs Hn Hg Ee. pose proof Hs as [].
  assert (forall id c, actors s !! id = Some c -> c_killed c = false -> c_slot c <> i) as Hnone by (apply (su_pending0 i g Hg); rewrite Ee; by left).
  pose proof (start_supervised n s i g Hs Hn Hg Hnone) as Hstart. set (t := start_slot i (bump i s)) in *.
  pose proof (zget_Some_range _ _ _ Hg) as Hr. specialize (su_gen0 i g Hg).
  assert (_gen t = zput (_gen s) i (g + 1) /\ events t = events s) as [Eg Et].
  { unfold t, start_slot, spawn_child, bump. simpl. rewrite Hg. simpl. uwrap. by destruct (spawn_fails s (attempts s)). }
  assert (supervised (n + 1) (set_core (actors t) es t)) as Ht.
  { apply (drop_supervised (n + 1) t i g es Hstart); [by rewrite Et|]. left. rewrite Eg, zget_put_eq by done. intros [=]. lia. }
  assert (start_slot i (bump i (set_core (actors s) es s)) = set_core (actors t) es t) as ->; [|done].
  unfold t, start_slot, spawn_child, bump. simpl. by destruct (spawn_fails s (attempts s)).
Qed.

Lemma deliver_supervised n s now : supervised n s -> n + 1 < 2 ^ 64 -> supervised (n + 1) (deliver now s).
Proof.
  intros Hs Hn. unfold deliver. destruct (events s) as [|e es] eqn:Ee; [eapply supervised_weaken; [|done]; lia|].
  destruct (su_events _ _ Hs e) as (i & g & g' & -> & Hg' & Hle); [rewrite Ee; by left|]. simpl. rewrite (su_alive _ _ Hs).
  pose proof (zget_Some_range _ _ _ Hg') as Hr. rewrite (su_gens _ _ Hs) in Hr.
  unfold on_child_down. simpl. rewrite Hg'. simpl. rewrite (proj2 (Z.leb_gt _ _)) by lia. simpl.
  destruct (Z.eqb_spec g g') as [<-|Hne]; simpl.
  2:{ eapply supervised_weaken; [|eapply (drop_supervised n s i g es)]; [lia|done|done|left; congruence]. }
  assert (forall k ts log esc, supervised (n + 1) (apply_strategy i (set_times k ts log esc (set_core (actors s) es s)))) as Hgo.
  { intros k ts log esc. unfold apply_strategy. simpl. rewrite (su_strategy _ _ Hs).
    exact (restart_supervised n (set_times k ts log esc s) i g es (times_supervised _ _ _ _ _ _ Hs) Hn Hg' Ee). }
  assert (forall k ts log esc, supervised (n + 1) (lose i Escalated (set_times k ts log esc (set_core (actors s) es s)))) as Hlose.
  { intros k ts log esc. eapply supervised_weaken; [|apply (drop_supervised n (lose i Escalated (set_times k ts log esc s)) i g es)]; [lia| |done|].
    - by apply lose_supervised, times_supervised.
    - right. simpl. rewrite fmap_app. apply elem_of_app. right. by left. }
  destruct (_max_restarts s =? 0); simpl; [apply Hgo|]. unfold over_restart_limit. simpl.
  destruct (_window s <=? 0); simpl; [destruct (_max_restarts s <=? _restarts s)|destruct (_max_restarts s <=? _)]; (apply Hgo || apply Hlose).
Qed.

(** ** After the supervisor was killed *)

Record dismissed (s : supervisor) : Prop := Dismissed {
  di_alive : sup_alive s = false;
  di_living : forall id c, actors s !! id = Some c -> c_killed c = false ->
    zget (_children s) (c_slot c) = Some id /\ KillEvent id ∈ events s
}.

Lemma kill_fold (js : list Z) (s : supervisor) :
  let s' := fold_left (fun s j =>
    let s' := bump j s in
    let id := default 0 (zget (_children s') j) in
    if negb (id =? 0) then push (KillEvent id) s' else s') js s in
  _children s' = _children s /\ actors s' = actors s /\ (forall e, e ∈ events s -> e ∈ events s') /\
  forall j id, j ∈ js -> zget (_children s) j = Some id -> id <> 0 -> KillEvent id ∈ events s'.
Proof.
  revert s. induction js as [|j js IH]; intros s; simpl; [split_and!; [done|done|done|]; intros j id []%not_elem_of_nil|].
  match goal with |- context [fold_left _ js ?t] => set (s1 := t) end. destruct (IH s1) as (Ec & Ea & Hkeep & Hin).
  assert (_children s1 = _children s) as E1 by (unfold s1; by case_match).
  assert (forall e, e ∈ events s -> e ∈ events s1) as E2 by (unfold s1; case_match; [simpl; set_solver|done]).
  assert (actors s1 = actors s) as E3 by (unfold s1; by case_match).
  split; [exact (eq_trans Ec E1)|]. split; [exact (eq_trans Ea E3)|]. split; [intros e He; exact (Hkeep e (E2 e He))|]. intros k id [->|Hk]%elem_of_cons Hid Hne; [|exact (Hin k id Hk (eq_trans (f_equal (fun cs => zget cs k) E1) Hid) Hne)].
  apply (Hkeep (KillEvent id)). unfold s1. simpl. rewrite Hid. simpl. rewrite (proj2 (Z.eqb_neq _ _)) by done. simpl. set_solver.
Qed.

(** A supervisor that is killed leaves no orphan: each child it knows is sent a KillEvent. *)
Lemma on_kill_no_orphans (s : supervisor) (slot id : Z) :
  zget (_children s) slot = Some id -> id <> 0 -> KillEvent id ∈ events (on_kill s) /\ sup_alive (on_kill s) = false.
Proof.
  intros Hid Hne. split; [|done]. destruct (kill_fold (slots 0 (zlen (_children s))) s) as (_ & _ & _ & H). apply (H slot id); [|done|done].
  apply zget_Some_range in Hid. apply list_elem_of_fmap. exists (Z.to_nat slot). split; [lia|]. apply elem_of_seq. lia.
Qed.

Lemma kill_dismissed n s : supervised n s -> dismissed (on_kill s).
Proof.
  intros Hs. destruct (kill_fold (slots 0 (zlen (_children s))) s) as (Ec & Ea & _). split; [done|].
  intros id c Hc Hk. assert (actors s !! id = Some c) as Hc' by (rewrite <- Ea; exact Hc).
  destruct (su_current _ _ Hs id c Hc' Hk) as (_ & Hch & Hne). split; [etrans; [exact (f_equal (fun l => zget l (c_slot c)) Ec)|done]|].
  by apply (on_kill_no_orphans s (c_slot c)).
Qed.

(** A child that runs ends, in whatever way. *)
Lemma end_dismissed s id c es : dismissed s -> actors s !! id = Some c ->
  forall s', sup_alive s' = false -> _children s' = _children s -> actors s' = <[id := Child (c_slot c) (c_generation c) true]> (actors s) ->
  events s' = events s ++ es -> dismissed s'.
Proof.
  intros [] Hc s' Ha Ech Eac Eev. split; [done|]. intros id' c'. rewrite Ech, Eac, Eev.
  intros [[_ <-]|[_ Hc']]%lookup_insert_Some Hk; [done|]. destruct (di_living0 id' c' Hc' Hk). split; [done|]. apply elem_of_app. by left.
Qed.

Lemma step_dismissed s o : dismissed s -> dismissed (step s o).
Proof.
  intros Hs. destruct o as [id|id|now| |]; simpl.
  - unfold stop. destruct (actors s !! id) as [c|] eqn:Ec; [|done]. destruct (c_killed c); [done|]. unfold kill_actor. simpl. rewrite Ec.
    by eapply (end_dismissed s id c); [| |apply Hs|..].
  - unfold crash. destruct (actors s !! id) as [c|] eqn:Ec; [|done]. destruct (c_killed c); [done|]. unfold kill_actor. rewrite Ec.
    eapply (end_dismissed s id c []); [done|done|apply Hs|done|done|by rewrite app_nil_r].
  - unfold deliver. destruct (events s) as [|e es] eqn:Ee; [done|]. destruct Hs as [Ha Hl]. rewrite Ee in Hl. destruct e as [slot g|id]; simpl.
    + rewrite Ha. split; [done|]. intros id c Hc Hk. destruct (Hl id c Hc Hk) as [? [?|?]%elem_of_cons]; done.
    + unfold kill_actor. simpl. destruct (actors s !! id) as [c|] eqn:Ec; (split; [done|]); simpl; intros id' c'.
      * intros [[_ <-]|[Hne Hc']]%lookup_insert_Some Hk; [done|]. destruct (Hl id' c' Hc' Hk) as [? [[=]|?]%elem_of_cons]; [congruence|done].
      * intros Hc' Hk. destruct (Hl id' c' Hc' Hk) as [? [[= ->]|?]%elem_of_cons]; [congruence|done].
  - destruct Hs as [Ha Hl]. split; [done|]. simpl. intros id c [Hc _]%map_lookup_filter_Some. auto.
  - by rewrite (di_alive _ Hs).
Qed.

(** ** Starting *)

Lemma slots_snoc (from : Z) (k : nat) : slots from (Z.of_nat (S k)) = slots from (Z.of_nat k) ++ [from + Z.of_nat k].
Proof. unfold slots. rewrite !Nat2Z.id, seq_S, fmap_app. done. Qed.

(** The first [k] slots have their children or are lost, and there are no other actors. *)
Record starting (st : restart_strategy) (count maxr w k : Z) (s : supervisor) : Prop := Starting {
  sg_config : (_strategy s, _count s, _max_restarts s, _window s, sup_alive s, events s, _restart_times s, restart_log s) =
    (st, count, maxr, w, true, [], [], []);
  sg_gen : _gen s = zrepeat 0 count;
  sg_children : zlen (_children s) = count;
  sg_slot : forall i, 0 <= i < k -> exists id, zget (_children s) i = Some id /\
    (actors s !! id = Some (Child i 0 false) \/ i ∈ (lost s).*1);
  sg_actor : forall id c, actors s !! id = Some c ->
    c = Child (c_slot c) 0 false /\ 0 <= c_slot c < k /\ zget (_children s) (c_slot c) = Some id /\ id <> 0
}.

Lemma start_next st count maxr w k s : 0 <= k < count -> starting st count maxr w k s -> starting st count maxr w (k + 1) (start_slot k s).
Proof.
  intros Hk []. injection sg_config0 as ? ? ? ? ? ? ? ?. unfold start_slot, spawn_child.
  rewrite sg_gen0, zget_repeat. rewrite (proj2 (Z.leb_le _ _)), (proj2 (Z.ltb_lt _ _)) by lia.
  destruct (spawn_fails s (attempts s)); simpl.
  - split; simpl; rewrite ?zlen_put, ?fmap_app; try done; [congruence| |].
    + intros i Hi. rewrite zget_put by lia. zcase; [subst; exists 0; split; [done|]; right; apply elem_of_app; right; by left|].
      destruct (sg_slot0 i) as (id' & Hid' & [Ha|Hl]); [lia|exists id'; auto..]. split; [done|]. right. apply elem_of_app. by left.
    + intros id' c Hc. destruct (sg_actor0 id' c Hc) as (? & ? & ? & ?). rewrite zget_put_ne by lia. split_and!; try done; lia.
  - pose proof (free_id_None (actors s)) as Hfree. pose proof (free_id_pos (actors s)). set (id := free_id (actors s)) in *.
    split; simpl; rewrite ?zlen_put; try done; [congruence| |].
    + intros i Hi. rewrite zget_put by lia. zcase; [subst; exists id; split; [done|]; left; by rewrite lookup_insert_eq|].
      destruct (sg_slot0 i) as (id' & Hid' & [Ha|Hl]); [lia|exists id'; split; [done|left]|exists id'; auto]. rewrite lookup_insert_ne; [done|]. intros <-. congruence.
    + intros id' c [[<- <-]|[_ Hc]]%lookup_insert_Some; simpl; [rewrite zget_put_eq by lia; split_and!; try done; lia|].
      destruct (sg_actor0 id' c Hc) as (? & ? & ? & ?). rewrite zget_put_ne by lia. split_and!; try done; lia.
Qed.

Lemma create_starting st count maxr w fails : 0 <= count -> starting st count maxr w count (create st count maxr w fails).
Proof.
  intros Hc. unfold create, onInit. cbn [_count set_children]. set (s0 := set_children _ _ _).
  assert (forall k : nat, Z.of_nat k <= count -> starting st count maxr w (Z.of_nat k) (fold_left (fun s i => start_slot i s) (slots 0 (Z.of_nat k)) s0)) as Hk.
  { induction k as [|k IH]; intros Hle.
    - split; simpl; try done; [by rewrite zlen_repeat|lia].
    - rewrite slots_snoc, fold_left_app. simpl. replace (Z.of_nat (S k)) with (Z.of_nat k + 1) by lia.
      apply start_next; [lia|]. apply IH. lia. }
  specialize (Hk (Z.to_nat count)). rewrite Z2Nat.id in Hk by done. by apply Hk.
Qed.

Lemma create_supervised count maxr w fails : 0 <= count -> supervised 0 (create one_for_one count maxr w fails).
Proof.
  intros Hc. destruct (create_starting one_for_one count maxr w fails Hc) as [Hcfg Hgen Hch Hslot Hact].
  injection Hcfg as Hst Hct Hmax Hw Hal Hev _ _. set (s := create one_for_one count maxr w fails) in *.
  assert (forall i g, zget (_gen s) i = Some g -> g = 0 /\ 0 <= i < count) as Hg.
  { intros i g. rewrite Hgen, zget_repeat. zcase; simpl; intros [=]; split; done || lia. }
  split; try done; rewrite ?Hev, ?Hct; try done.
  - by rewrite Hgen, zlen_repeat.
  - intros i g [-> _]%Hg. lia.
  - intros i g [-> Hi]%Hg. destruct (Hslot i Hi) as (id & ? & [?|?]); exists id; auto.
  - intros id c Hc' _. destruct (Hact id c Hc') as (-> & Hr & ? & ?). simpl in *. split; [|done]. rewrite Hgen, zget_repeat. zcase; simpl; try lia. done.
  - intros e He. by apply elem_of_nil in He.
  - intros i g _ He. by apply elem_of_nil in He.
Qed.

Lemma run_supervised ops n s :
  supervised n s \/ dismissed s -> n + zlen ops < 2 ^ 64 -> supervised (n + zlen ops) (fold_left step ops s) \/ dismissed (fold_left step ops s).
Proof.
  revert n s. induction ops as [|o ops IH]; intros n s Hs Hn; simpl.
  - change (zlen (@nil op)) with 0. by rewrite Z.add_0_r.
  - assert (zlen (o :: ops) = 1 + zlen ops) as El by (unfold zlen; simpl; lia). rewrite El in *. pose proof (zlen_nonneg ops).
    replace (n + (1 + zlen ops)) with (n + 1 + zlen ops) by lia. apply IH; [|lia].
    destruct Hs as [Hs|Hs]; [|right; by apply step_dismissed].
    destruct o as [id|id|now| |]; simpl; [| |left; apply deliver_supervised; [done|lia]| |
      rewrite (su_alive _ _ Hs); right; by eapply kill_dismissed];
      left; (eapply supervised_weaken; [|by apply stop_supervised || by apply crash_supervised || by apply reap_supervised]; lia).
Qed.

(** * What restarting leaves alone *)

Definition config (s : supervisor) := (_strategy s, _count s, _max_restarts s, _window s).
Definition intensity (s : supervisor) := (_restarts s, _restart_times s, restart_log s, escalations s).

Definition same (s s' : supervisor) : Prop := config s' = config s /\ intensity s' = intensity s.

Lemma same_fold {A} (f : supervisor -> A -> supervisor) (l : list A) (s : supervisor) :
  (forall s x, same s (f s x)) -> same s (fold_left f l s).
Proof.
  intros Hf. revert s. induction l as [|x l IH]; intros s; [done|]. simpl. destruct (Hf s x) as [E1 E2], (IH (f s x)) as [E3 E4].
  split; congruence.
Qed.

Lemma start_same s i : same s (start_slot i s).
Proof. unfold start_slot, spawn_child. by destruct (spawn_fails s (attempts s)). Qed.

Lemma restart_slots_same from to down s : same s (restart_slots from to down s).
Proof.
  unfold restart_slots. set (t := fold_left (retire down) _ s).
  destruct (same_fold (retire down) (slots from (to - from)) s) as [E1 E2]; [intros s' j; unfold retire; by case_match|].
  destruct (same_fold (fun s j => start_slot j s) (slots from (to - from)) t) as [E3 E4]; [intros; apply start_same|].
  split; fold t in E1, E2; congruence.
Qed.

Lemma apply_strategy_same slot s : same s (apply_strategy slot s).
Proof. unfold apply_strategy. case_match; [apply (start_same (bump slot s))|apply restart_slots_same..]. Qed.

Lemma kill_same id s : same s (kill_actor id s).
Proof. unfold kill_actor. by case_match. Qed.

Lemma stop_same id s : same s (stop id s).
Proof. unfold stop. repeat case_match; try done. apply (kill_same id (push _ s)). Qed.

Lemma crash_same id s : same s (crash id s).
Proof. unfold crash. repeat case_match; try done. apply (kill_same id s). Qed.

Lemma on_kill_same s : same s (on_kill s).
Proof. apply (same_fold _ (slots 0 (zlen (_children s))) s). intros s' j. cbv zeta. by case_match. Qed.

(** What a step does to the record of restarts: nothing, an escalation, or one more restart. *)
Definition limited (now : Z) (s : supervisor) : list Z :=
  if _max_restarts s =? 0 then _restart_times s else _restart_times (over_restart_limit now s).2.

Definition restart_effect (now : Z) (s s' : supervisor) : Prop :=
  config s' = config s /\
  ((restart_log s' = restart_log s /\ (_restart_times s' = _restart_times s \/ _restart_times s' = limited now s)) \/
   (restart_log s' = restart_log s ++ [now] /\
    _restart_times s' = (if 0 <? _window s then limited now s ++ [now] else limited now s) /\
    (_max_restarts s <> 0 -> (over_restart_limit now s).1 = false))).

Lemma child_down_effect now slot g s : restart_effect now s (on_child_down now slot g s).
Proof.
  unfold on_child_down. destruct (_ || _); [split; [done|by left; auto]|].
  assert (forall s1, config s1 = config s -> _restart_times s1 = limited now s -> restart_log s1 = restart_log s ->
    (_max_restarts s <> 0 -> (over_restart_limit now s).1 = false) ->
    restart_effect now s (apply_strategy slot (record_restart now s1))) as Hgo.
  { intros s1 Ec Et El Hm. destruct (apply_strategy_same slot (record_restart now s1)) as [E1 E2].
    split; [by rewrite E1|]. right. injection E2 as _ -> -> _. injection Ec as _ _ _ Ew. simpl. by rewrite Ew, Et, El. }
  destruct (Z.eqb_spec (_max_restarts s) 0) as [Em|Em]; simpl.
  - apply Hgo; [done| |done|done]. unfold limited. by rewrite Em.
  - assert (limited now s = _restart_times (over_restart_limit now s).2) as El by (unfold limited; by zcase).
    destruct (over_restart_limit now s) as [o s1] eqn:E.
    assert (config s1 = config s /\ restart_log s1 = restart_log s) as [Ec Eg]
      by (revert E; unfold over_restart_limit; case_match; by intros [= _ <-]).
    destruct o; [|apply Hgo; auto]. split; [done|]. left. split; [done|]. by right.
Qed.

Lemma step_effect now s o : match o with Deliver n => n = now | _ => True end -> restart_effect now s (step s o).
Proof.
  assert (forall now s', same s s' -> restart_effect now s s') as Hsame.
  { intros n s' [E1 [= _ E2 E3 _]]. split; [done|]. by left; auto. }
  destruct o as [id|id|n| |]; simpl; [intros _; apply Hsame, stop_same|intros _; apply Hsame, crash_same|intros ->|by intros _; apply Hsame|
    intros _; destruct (sup_alive s); [apply Hsame, on_kill_same|by apply Hsame]].
  unfold deliver. destruct (events s) as [|[slot g|id] es]; [by apply Hsame| |apply Hsame, (kill_same id (set_core (actors s) es s))].
  simpl. destruct (sup_alive s); [|by apply Hsame]. pose proof (child_down_effect now slot g (set_core (actors s) es s)) as H.
  unfold restart_effect, limited, over_restart_limit in *. simpl in *. destruct (_window s <=? 0); exact H.
Qed.

Lemma run_config ops s : config (fold_left step ops s) = config s.
Proof. revert s. induction ops as [|o ops IH]; intros s; [done|]. simpl. rewrite IH. by destruct (step_effect (match o with Deliver n => n | _ => 0 end) s o); [destruct o|]. Qed.

(** ** Slots are lost only for a reason *)

(** Nothing is lost where every child can be created. *)
Definition keeps (s s' : supervisor) : Prop :=
  spawn_fails s' = spawn_fails s /\ ((forall n, spawn_fails s n = false) -> lost s' = lost s).

Lemma sup_keeps_trans s1 s2 s3 : keeps s1 s2 -> keeps s2 s3 -> keeps s1 s3.
Proof. intros [E1 H1] [E2 H2]. split; [congruence|]. intros H. rewrite H2, H1; [done|done|]. by rewrite E1. Qed.

Lemma keeps_fold {A} (f : supervisor -> A -> supervisor) (l : list A) (s : supervisor) :
  (forall s x, keeps s (f s x)) -> keeps s (fold_left f l s).
Proof. intros Hf. revert s. induction l as [|x l IH]; intros s; [done|]. by eapply sup_keeps_trans; [apply Hf|apply IH]. Qed.

Lemma start_keeps s i : keeps s (start_slot i s).
Proof.
  unfold start_slot, spawn_child. destruct (spawn_fails s (attempts s)) eqn:E; (split; [done|]); [|done].
  intros H. by rewrite H in E.
Qed.

Lemma restart_slots_keeps from to down s : keeps s (restart_slots from to down s).
Proof.
  unfold restart_slots. set (t := fold_left (retire down) _ s). apply (sup_keeps_trans _ t).
  - apply keeps_fold. intros s' j. unfold retire. by case_match.
  - apply (keeps_fold (fun s j => start_slot j s)). intros; apply start_keeps.
Qed.

Lemma child_down_keeps now slot g s : _max_restarts s = 0 -> keeps s (on_child_down now slot g s).
Proof.
  intros Em. unfold on_child_down. destruct (_ || _); [done|]. rewrite Em. simpl. set (s1 := record_restart now s).
  apply (sup_keeps_trans _ s1); [done|]. unfold apply_strategy. destruct (_strategy s1).
  - apply (start_keeps (bump slot s1)).
  - apply restart_slots_keeps.
  - apply restart_slots_keeps.
Qed.

Definition silent_death (o : op) : bool := match o with Crash _ => true | _ => false end.

Lemma step_keeps s o : _max_restarts s = 0 -> silent_death o = false -> keeps s (step s o).
Proof.
  intros Em Ho. destruct o as [id|id|now| |]; simpl; [|done| |done|].
  - unfold stop, kill_actor. by repeat case_match.
  - unfold deliver. destruct (events s) as [|[slot g|id] es]; [done| |unfold kill_actor; by case_match].
    destruct (sup_alive s) eqn:Ea; simpl; rewrite Ea; [|done]. by apply (child_down_keeps now slot g (set_core (actors s) es s)).
  - destruct (sup_alive s); [|done]. apply (keeps_fold _ (slots 0 (zlen (_children s))) s). intros s' j. cbv zeta. by case_match.
Qed.

Lemma run_keeps ops s : _max_restarts s = 0 -> Forall (fun o => silent_death o = false) ops -> keeps s (fold_left step ops s).
Proof.
  intros Em Ho. revert s Em. induction Ho as [|o ops Ho _ IH]; intros s Em; [done|]. simpl.
  apply (sup_keeps_trans _ (step s o)); [by apply step_keeps|]. apply IH. pose proof (run_config [o] s) as [= _ _ E _]. simpl in E. congruence.
Qed.

Lemma create_keeps strategy count max_restarts window fails :
  (forall n, fails n = false) -> lost (create strategy count max_restarts window fails) = [].
Proof.
  intros Hf. unfold create, onInit. set (s1 := set_children _ _ _).
  destruct (keeps_fold (fun s i => start_slot i s) (slots 0 (_count s1)) s1) as [_ ->]; [intros; apply start_keeps|done|done].
Qed.

(** C19: Under one_for_one, with any restart limit, in whatever order children stop with a report,
    die without one or cannot be created, reports are handled, actors are removed and their ids
    used again, and the supervisor is killed: while the supervisor lives, every slot has a living
    child of the present generation, or a report of its end is on the way, or it was lost, because
    its child died silently, could not be created, or reported beyond the restart limit; without
    these three nothing is lost; there are never two living children in a slot; and once the
    supervisor was killed every living child has a KillEvent on the way. Children report only as
    they stop, and the generation counters do not wrap (fewer than 2^64 steps). *)
Theorem one_for_one_supervises (count max_restarts window : Z) (fails : Z -> bool) (ops : list op) :
  0 <= count -> zlen ops < 2 ^ 64 ->
  let s := fold_left step ops (create one_for_one count max_restarts window fails) in
  (sup_alive s = true -> forall slot, 0 <= slot < count -> exists id g, zget (_children s) slot = Some id /\ zget (_gen s) slot = Some g /\
    (actors s !! id = Some (Child slot g false) \/ ChildDown slot g ∈ events s \/ slot ∈ (lost s).*1)) /\
  (max_restarts = 0 -> Forall (fun o => silent_death o = false) ops -> (forall n, fails n = false) -> lost s = []) /\
  (forall id id' c c', actors s !! id = Some c -> actors s !! id' = Some c' -> c_killed c = false -> c_killed c' = false ->
    c_slot c = c_slot c' -> id = id') /\
  (sup_alive s = false -> forall id c, actors s !! id = Some c -> c_killed c = false -> KillEvent id ∈ events s).
Proof.
  intros Hc Hn s. set (s0 := create one_for_one count max_restarts window fails) in *.
  pose proof (run_config ops s0) as [= _ Ec Em _]. fold s in Ec, Em. destruct (create_starting one_for_one count max_restarts window fails Hc) as [Hcfg _ _ _ _].
  fold s0 in Hcfg. injection Hcfg as _ Ec0 Em0 _ _ _ _ _.
  pose proof (run_supervised ops 0 s0 (or_introl (create_supervised count max_restarts window fails Hc)) Hn) as Hrun. fold s in Hrun.
  assert (forall id c, actors s !! id = Some c -> c_killed c = false -> zget (_children s) (c_slot c) = Some id) as Huniq.
  { intros id c Hid Hk. destruct Hrun as [H|H]; [by destruct (su_current _ _ H id c Hid Hk) as (_ & ? & _)|by destruct (di_living _ H id c Hid Hk)]. }
  split_and!.
  - intros Ha slot Hslot. destruct Hrun as [H|H]; [|by rewrite (di_alive _ H) in Ha]. pose proof (su_gens _ _ H).
    destruct (zget_in_range (_gen s) slot) as [g Hg]; [lia|]. destruct (su_slot _ _ H slot g Hg) as (id & ? & ?). by exists id, g.
  - intros Hm Ho Hf. destruct (run_keeps ops s0) as [_ Hl]; [congruence|done|]. unfold s. rewrite Hl; [by apply create_keeps|].
    intros n. unfold s0, create, onInit. set (s1 := set_children _ _ _).
    destruct (keeps_fold (fun s i => start_slot i s) (slots 0 (_count s1)) s1) as [-> _]; [intros; apply start_keeps|apply Hf].
  - intros id id' c c' Hid Hid' Hk Hk' Heq. pose proof (Huniq id c Hid Hk). pose proof (Huniq id' c' Hid' Hk'). congruence.
  - intros Ha id c Hid Hk. destruct Hrun as [H|H]; [by rewrite (su_alive _ _ H) in Ha|by destruct (di_living _ H id c Hid Hk)].
Qed.

(** Three children, of which two stop and one dies silently; the fifth creation fails; then the
    supervisor is killed. *)
Lemma one_for_one_supervises_witness :
  let ops := [Stop 1; Stop 2; Reap; Deliver 5; Deliver 5; Crash 3; Stop 1] in
  let s := fold_left step ops (create one_for_one 3 5 0 (fun n => n =? 4)) in
  let s' := fold_left step (ops ++ [Deliver 6; Kill]) (create one_for_one 3 5 0 (fun n => n =? 4)) in
  lost s = [(1, NotSpawned); (2, Silent)] /\
  (forall slot, 0 <= slot < 3 -> exists id g, zget (_children s) slot = Some id /\ zget (_gen s) slot = Some g /\
    (actors s !! id = Some (Child slot g false) \/ ChildDown slot g ∈ events s \/ slot ∈ (lost s).*1)) /\
  (forall id c, actors s' !! id = Some c -> c_killed c = false -> KillEvent id ∈ events s').
Proof.
  split; [vm_compute; reflexivity|]. split.
  - apply (one_for_one_supervises 3 5 0 (fun n => n =? 4) [Stop 1; Stop 2; Reap; Deliver 5; Deliver 5; Crash 3; Stop 1]); [discriminate|reflexivity|vm_compute; reflexivity].
  - apply (one_for_one_supervises 3 5 0 (fun n => n =? 4) ([Stop 1; Stop 2; Reap; Deliver 5; Deliver 5; Crash 3; Stop 1] ++ [Deliver 6; Kill]));
      [discriminate|reflexivity|vm_compute; reflexivity].
Defined.

(** Under one_for_all, when two children stop in the same turn, the supervisor pushes a KillEvent
    to the id of the second, which is already free, then gives that id to a new child: the event
    kills the new child, nothing reports it, and its slot stays empty. *)
Theorem one_for_all_loses_child :
  let s := fold_left step [Stop 1; Stop 2; Reap; Deliver 5; Deliver 5; Reap; Deliver 6; Reap] (create one_for_all 2 0 0 (fun _ => false)) in
  zget (_children s) 1 = Some 2 /\ actors s !! 2 = None /\ events s = [] /\ sup_alive s = true /\
  map_Forall (fun _ c => c_slot c <> 1) (actors s).
Proof.
  vm_compute. repeat split. intros id c. destruct (decide (id = 1)) as [->|Hne].
  - intros [= <-]. discriminate.
  - intros Hc. exfalso. destruct id as [|[| |]|]; try done.
Qed.

(** * Restart intensity *)

Definition delivery_times (ops : list op) : list Z := omap (fun o => match o with Deliver now => Some now | _ => None end) ops.

(** The timestamps kept are the end of the log; those dropped expired before [now]. *)
Record rated (now : Z) (s : supervisor) : Prop := Rated {
  ra_max : 0 < _max_restarts s;
  ra_window : 0 < _window s;
  ra_times : Forall (Z.le 0) (_restart_times s);
  ra_log : exists old, restart_log s = old ++ _restart_times s /\ Forall (fun t => t + _window s < now) old;
  ra_spread : forall i t t', restart_log s !! i = Some t -> restart_log s !! (i + Z.to_nat (_max_restarts s))%nat = Some t' ->
    t + _window s < t'
}.

Lemma prune_split cutoff ts : exists old, ts = old ++ prune cutoff ts /\ Forall (fun t => t < cutoff) old.
Proof.
  induction ts as [|t ts (old & E & Hold)]; [by exists []|]. simpl. zcase; [|by exists []].
  exists (t :: old). split; [simpl; congruence|]. by constructor.
Qed.

Lemma limited_split now s : 0 < _max_restarts s -> 0 < _window s -> Forall (Z.le 0) (_restart_times s) ->
  exists old, _restart_times s = old ++ limited now s /\ Forall (fun t => t + _window s < now) old /\
    ((over_restart_limit now s).1 = false -> zlen (limited now s) < _max_restarts s).
Proof.
  intros Hm Hw Hpos. unfold limited, over_restart_limit. rewrite (proj2 (Z.eqb_neq _ _)), (proj2 (Z.leb_gt _ _)) by lia. simpl.
  set (cutoff := if _window s <? now then _ else _). destruct (prune_split cutoff (_restart_times s)) as (old & E & Hold).
  exists old. split; [done|]. split; [|intros ?%Z.leb_gt; done].
  rewrite E in Hpos. apply Forall_app in Hpos as [Hpos _]. apply Forall_forall. intros t Ht.
  pose proof (proj1 (Forall_forall _ _) Hold t Ht) as H1. pose proof (proj1 (Forall_forall _ _) Hpos t Ht) as H2. simpl in *.
  revert H1. unfold cutoff. zcase; lia.
Qed.

(** The log grows by [now], with fewer than the maximum of restarts within the window. *)
Lemma spread_snoc (m : nat) (w now : Z) (old ts : list Z) :
  (length ts < m)%nat -> Forall (fun t => t + w < now) old ->
  (forall i t t', (old ++ ts) !! i = Some t -> (old ++ ts) !! (i + m)%nat = Some t' -> t + w < t') ->
  forall i t t', (old ++ ts ++ [now]) !! i = Some t -> (old ++ ts ++ [now]) !! (i + m)%nat = Some t' -> t + w < t'.
Proof.
  intros Hm Hold Hspread i t t'. rewrite app_assoc. intros Ht Ht'. apply lookup_snoc_Some in Ht' as [[Hl Ht']|[Hl <-]].
  - apply (Hspread i); [|done]. apply lookup_snoc_Some in Ht as [[_ Ht]|[-> _]]; [done|lia].
  - rewrite length_app in Hl. rewrite <- app_assoc, lookup_app_l in Ht by lia. by apply (Forall_lookup_1 _ _ _ _ Hold Ht).
Qed.

Lemma effect_rated now now' s s' : now <= now' -> 0 <= now' -> restart_effect now' s s' -> rated now s -> rated now' s'.
Proof.
  intros Hle Hpos [[= _ _ Em Ew] Hcase] [Hm Hw Hts (old & El & Hold) Hsp].
  assert (Forall (fun t => t + _window s < now') old) as Hold' by (eapply Forall_impl; [exact Hold|]; simpl; lia).
  destruct (limited_split now' s) as (exp & Et & Hexp & Hlt); [lia|lia|done|].
  assert (Forall (Z.le 0) (limited now' s)) as Hlim by (rewrite Et in Hts; by apply Forall_app in Hts as [_ ?]).
  split; rewrite ?Em, ?Ew; try lia.
  - destruct Hcase as [[_ [-> | ->]]|(_ & -> & _)]; [done|done|]. rewrite (proj2 (Z.ltb_lt _ _)) by lia. by apply Forall_app_2; [|constructor].
  - destruct Hcase as [[-> [-> | ->]]|(-> & -> & _)]; [by exists old|exists (old ++ exp)|exists (old ++ exp)].
    + split; [by rewrite El, Et, app_assoc|by apply Forall_app_2].
    + rewrite (proj2 (Z.ltb_lt _ _)) by lia. split; [by rewrite El, Et, !app_assoc|by apply Forall_app_2].
  - destruct Hcase as [[-> _]|(-> & _ & Hno)]; [exact Hsp|]. rewrite El, Et, app_assoc, <- app_assoc.
    apply (spread_snoc _ _ now' (old ++ exp)); [|by apply Forall_app_2|by rewrite <- app_assoc, <- Et, <- El].
    specialize (Hlt (Hno ltac:(lia))). unfold zlen in Hlt. lia.
Qed.

Lemma run_rated ops now s : 0 <= now -> StronglySorted Z.le (now :: delivery_times ops) -> rated now s ->
  exists now', rated now' (fold_left step ops s).
Proof.
  revert now s. induction ops as [|o ops IH]; intros now s Hpos Hsort Hs; [by exists now|]. simpl.
  destruct o as [id|id|n| |]; try (apply (IH now); [done|done|]; eapply effect_rated; [..|exact Hs]; [done|done|]; by apply step_effect).
  apply StronglySorted_inv in Hsort as [Hsort Hall]. apply Forall_cons in Hall as [Hle _].
  apply (IH n); [lia|done|]. eapply effect_rated; [exact Hle|lia|by apply step_effect|done].
Qed.

Lemma create_rated strategy count max_restarts window fails :
  0 < max_restarts -> 0 < window -> rated 0 (create strategy count max_restarts window fails).
Proof.
  intros Hm Hw. unfold create, onInit. destruct (same_fold (fun s i => start_slot i s) (slots 0 count)
    (set_children (zrepeat 0 count) (zrepeat 0 count) (Sup strategy count max_restarts window 0 [] [] [] true ∅ [] 0 fails [] 0 [])))
    as [[= _ _ E1 E2] [= _ E3 E4 _]]; [intros; apply start_same|].
  split; cbn [_count set_children] in *; rewrite ?E1, ?E2, ?E3, ?E4; [done|done|constructor|by exists []|done].
Qed.

Lemma create_config strategy count max_restarts window fails :
  config (create strategy count max_restarts window fails) = (strategy, count, max_restarts, window).
Proof.
  unfold create, onInit. by destruct (same_fold (fun s i => start_slot i s) (slots 0 count)
    (set_children (zrepeat 0 count) (zrepeat 0 count) (Sup strategy count max_restarts window 0 [] [] [] true ∅ [] 0 fails [] 0 [])))
    as [E _]; [intros; apply start_same|].
Qed.

(** With a sliding window the supervisor never restarts more than [max_restarts] times within
    [window]: of any [max_restarts + 1] consecutive restarts the last comes more than [window] after
    the first, whatever the strategy and however children stop. *)
Theorem restart_intensity (strategy : restart_strategy) (count max_restarts window : Z) (fails : Z -> bool) (ops : list op) :
  0 < max_restarts -> 0 < window -> Forall (Z.le 0) (delivery_times ops) -> Sorted Z.le (delivery_times ops) ->
  let s := fold_left step ops (create strategy count max_restarts window fails) in
  forall i t t', restart_log s !! i = Some t -> restart_log s !! (i + Z.to_nat max_restarts)%nat = Some t' -> t + window < t'.
Proof.
  intros Hm Hw Hpos Hsort s i t t'. apply Sorted_StronglySorted in Hsort; [|exact Z.le_trans].
  destruct (run_rated ops 0 (create strategy count max_restarts window fails)) as [now []];
    [done|by constructor|by apply create_rated|]. fold s in ra_spread0.
  pose proof (run_config ops (create strategy count max_restarts window fails)) as [= _ _ E1 E2]. fold s in E1, E2.
  pose proof (create_config strategy count max_restarts window fails) as [= _ _ E3 E4]. rewrite E1, E2, E3, E4 in ra_spread0. apply ra_spread0.
Qed.

Lemma restart_intensity_witness :
  let ops := [Stop 1; Reap; Deliver 10; Stop 1; Reap; Deliver 20; Stop 1; Reap; Deliver 25; Stop 1; Deliver 130] in
  let s := fold_left step ops (create one_for_one 1 2 100 (fun _ => false)) in
  restart_log s = [10; 20] /\ escalations s = 1 /\
  forall i t t', restart_log s !! i = Some t -> restart_log s !! (i + Z.to_nat 2)%nat = Some t' -> t + 100 < t'.
Proof.
  split; [vm_compute; reflexivity|]. split; [vm_compute; reflexivity|].
  apply (restart_intensity one_for_one 1 2 100 (fun _ => false)); [reflexivity|reflexivity|simpl; repeat constructor; discriminate|
    simpl; repeat constructor; discriminate].
Defined.
