(* ===== verification/Breaker.v ===== *)
(** * Guarded calls: core/patterns/resilience.h

    [CircuitBreaker] is a state machine that its callers drive with the clock of their core.
    [ask_guarded] asks it before an ask and reports the outcome after; several such calls may be
    in flight at once, and the frame of a call may be destroyed while it waits. [ask_retry] repeats an ask that times out. Outcomes of asks are inputs. *)

From Stdlib Require Import Sorted.
From S2P Require Import Prelude.

#[local] Open Scope Z_scope.

(** * The breaker *)

Inductive State := Closed | Open | HalfOpen.

#[global] Instance State_eq_dec : EqDecision State.
Proof. solve_decision. Defined.

Record breaker := Breaker {
  _threshold : Z;
  _cooldown : Z;
  _state : State;
  _failures : Z;
  _opened_at : Z
}.

Definition CircuitBreaker (failure_threshold cooldown : Z) : breaker :=
  Breaker (if failure_threshold =? 0 then 1 else failure_threshold) (if cooldown <? 0 then 0 else cooldown) Closed 0 0.

Definition set_state (st : State) (failures opened_at : Z) (b : breaker) : breaker :=
  Breaker (_threshold b) (_cooldown b) st failures opened_at.

Definition allow (now_ns : Z) (b : breaker) : bool * breaker :=
  match _state b with
  | Open =>
      if _cooldown b <=? now_ns -s _opened_at b then (true, set_state HalfOpen (_failures b) (_opened_at b) b)
      else (false, b)
  | HalfOpen => (false, b)
  | Closed => (true, b)
  end.

Definition on_success (b : breaker) : breaker := set_state Closed 0 (_opened_at b) b.

Definition on_failure (now_ns : Z) (b : breaker) : breaker :=
  if decide (_state b = HalfOpen) then set_state Open (_failures b) now_ns b
  else
    let failures := u32 (_failures b + 1) in
    if _threshold b <=? failures then set_state Open failures now_ns b
    else set_state (_state b) failures (_opened_at b) b.

Definition on_abandoned (now_ns : Z) (b : breaker) : breaker :=
  if decide (_state b = HalfOpen) then set_state Open (_failures b) now_ns b else b.

(** * Guarded calls *)

(** The breaker and the calls that share it: those in flight, with whether each was admitted as
    a trial. *)
Record world := World {
  shared : breaker;
  flight : gmap Z bool;
  (** Ghost: the verdicts reported, the times at which trials were admitted, calls turned away;
      the call admitted as the latest trial, and whether its frame was destroyed. *)
  verdicts : list bool;
  trials : list Z;
  refused : list Z;
  trial : option Z;
  lost : bool
}.

(** [ask_guarded] up to its ask. *)
Definition guard (id now : Z) (w : world) : world :=
  let is_trial := bool_decide (_state (shared w) = Open) in
  match allow now (shared w) with
  | (true, b) =>
      World b (<[id := is_trial]> (flight w)) (verdicts w) (if is_trial then trials w ++ [now] else trials w) (refused w)
            (if is_trial then Some id else trial w) (if is_trial then false else lost w)
  | (false, b) => World b (flight w) (verdicts w) (trials w) (refused w ++ [id]) (trial w) (lost w)
  end.

(** How the ask ends. *)
Inductive outcome := Replied | Failed | Cancelled.

(** [ask_guarded] from the end of its ask. *)
Definition settle (id now : Z) (o : outcome) (w : world) : world :=
  let flight' := delete id (flight w) in
  match o with
  | Replied => World (on_success (shared w)) flight' (verdicts w ++ [true]) (trials w) (refused w) (trial w) (lost w)
  | Cancelled => World (on_abandoned now (shared w)) flight' (verdicts w) (trials w) (refused w) (trial w) (lost w)
  | Failed => World (on_failure now (shared w)) flight' (verdicts w ++ [false]) (trials w) (refused w) (trial w) (lost w)
  end.

(** The frame of [ask_guarded] is destroyed while it waits for its ask, as a combinator does
    with a branch that lost: none of its handlers runs. *)
Definition destroyed (id : Z) (w : world) : world :=
  World (shared w) (delete id (flight w)) (verdicts w) (trials w) (refused w) (trial w)
        (if decide (trial w = Some id) then true else lost w).

Inductive op := Call (id now : Z) | End (id now : Z) (o : outcome) | Destroy (id : Z).

(** The clock readings of a run. *)
Definition op_times (o : op) : list Z := match o with Call _ now | End _ now _ => [now] | Destroy _ => [] end.
Definition times (ops : list op) : list Z := ops ≫= op_times.

(** Only a call that is in flight ends or is destroyed. *)
Definition step (w : world) (o : op) : world :=
  match o with
  | Call id now => if flight w !! id is Some _ then w else guard id now w
  | End id now r => if flight w !! id is Some _ then settle id now r w else w
  | Destroy id => if flight w !! id is Some _ then destroyed id w else w
  end.

Definition start (failure_threshold cooldown : Z) : world :=
  World (CircuitBreaker failure_threshold cooldown) ∅ [] [] [] None false.

(** Failures since the last success. *)
Definition consecutive (vs : list bool) : Z := fold_left (fun n (good : bool) => if good then 0 else n + 1) vs 0.

Lemma consecutive_snoc vs v : consecutive (vs ++ [v]) = if v then 0 else consecutive vs + 1.
Proof. unfold consecutive. rewrite fold_left_app. by destruct v. Qed.

(** What holds whatever the clock reads. *)
Record breaker_ok (w : world) : Prop := BreakerOk {
  bo_threshold : 1 <= _threshold (shared w) < 2 ^ 32;
  bo_count : 0 <= consecutive (verdicts w);
  bo_closed : _state (shared w) = Closed -> _failures (shared w) = consecutive (verdicts w);
  bo_trip : _state (shared w) = Closed <-> consecutive (verdicts w) < _threshold (shared w);
  bo_trial : _state (shared w) = HalfOpen -> exists id, trial w = Some id /\ if lost w then True else flight w !! id = Some true
}.

(** What holds as long as the clock does not step back; [now] is its latest reading. *)
Record clock_ok (now : Z) (w : world) : Prop := ClockOk {
  co_cooldown : 0 <= _cooldown (shared w) < 2 ^ 63;
  co_opened : 0 <= _opened_at (shared w) <= now;
  co_past : Forall (fun t => t <= now) (trials w);
  co_last : _state (shared w) = Open -> forall t, last (trials w) = Some t -> t <= _opened_at (shared w);
  co_apart : forall i t t', trials w !! i = Some t -> trials w !! S i = Some t' -> t + _cooldown (shared w) <= t'
}.

Lemma clock_ok_later now now' w : now <= now' -> clock_ok now w -> clock_ok now' w.
Proof. intros Hle []. split; try done; [lia|]. eapply Forall_impl; [done|]. simpl. lia. Qed.

Lemma apart_snoc (d t : Z) (l : list Z) :
  (forall i x y, l !! i = Some x -> l !! S i = Some y -> x + d <= y) -> (forall x, last l = Some x -> x + d <= t) ->
  forall i x y, (l ++ [t]) !! i = Some x -> (l ++ [t]) !! S i = Some y -> x + d <= y.
Proof.
  intros Hl Ht i x y Hx Hy. apply lookup_snoc_Some in Hy as [[Hlt Hy]|[Hlen <-]].
  - apply (Hl i); [|done]. by rewrite lookup_app_l in Hx by lia.
  - apply Ht. rewrite lookup_app_l in Hx by lia. rewrite last_lookup, <- Hlen. done.
Qed.

Lemma guard_ok now id w : breaker_ok w -> breaker_ok (guard id now w).
Proof.
  intros Hw. unfold guard, allow. destruct (_state (shared w)) eqn:Es; [by destruct Hw; split; simpl; try done; intros; congruence| |].
  - rewrite bool_decide_eq_true_2 by done. zcase; [|by destruct Hw].
    destruct Hw as [H1 H2 H3 H4 H5]. split; simpl; try done.
    + rewrite Es in H4. split; [done|]. intros Hlt. by apply H4 in Hlt.
    + intros _. exists id. split; [done|apply lookup_insert_eq].
  - by destruct Hw; split.
Qed.

Lemma guard_clock now id w : now < 2 ^ 64 -> clock_ok now w -> clock_ok now (guard id now w).
Proof.
  intros Hnow Hw. unfold guard, allow. destruct (_state (shared w)) eqn:Es; [by destruct Hw; split; simpl; try done; intros; congruence| |].
  - rewrite bool_decide_eq_true_2 by done. pose proof (co_opened _ _ Hw). uwrap. zcase; [|by destruct Hw].
    destruct Hw as [H1 H2 H3 H4 H5]. split; simpl; try done.
    + by apply Forall_app_2; [|constructor].
    + apply apart_snoc; [done|]. intros x Hx. specialize (H4 Es x Hx). lia.
  - by destruct Hw; split.
Qed.

(** The failures are at the threshold unless the breaker is closed. *)
Lemma tripped w : breaker_ok w -> _state (shared w) <> Closed -> consecutive (verdicts w) >= _threshold (shared w).
Proof.
  intros Hw Hne. destruct (Z.lt_ge_cases (consecutive (verdicts w)) (_threshold (shared w))) as [H|H]; [|lia].
  by apply (bo_trip _ Hw) in H.
Qed.

(** Opening the breaker now, when the failures are at the threshold. *)
Lemma open_ok now w fl vs failures tr lo :
  breaker_ok w -> consecutive vs >= _threshold (shared w) ->
  breaker_ok (World (set_state Open failures now (shared w)) fl vs (trials w) (refused w) tr lo).
Proof. intros [] Hc. split; simpl; try done; lia. Qed.

Lemma open_clock now w fl vs failures tr lo :
  0 <= now -> clock_ok now w -> clock_ok now (World (set_state Open failures now (shared w)) fl vs (trials w) (refused w) tr lo).
Proof.
  intros Hpos [H1 H2 H3 H4 H5]. split; simpl; try done; try lia.
  intros _ t Ht. rewrite Forall_forall in H3. apply H3. by apply last_Some_elem_of.
Qed.

Lemma settle_ok now id o w : breaker_ok w -> breaker_ok (settle id now o w).
Proof.
  intros Hw. pose proof (tripped w Hw) as Htr. destruct o; simpl.
  - destruct Hw. split; simpl; rewrite ?consecutive_snoc; try done. split; [lia|done].
  - unfold on_failure. case_decide as Es; [apply open_ok; [done|rewrite consecutive_snoc; specialize (Htr ltac:(congruence)); lia]|].
    pose proof Hw as [H1 H2 H3 H4 H5]. destruct (_state (shared w)) eqn:E; [| |done].
    + rewrite H3 by done. assert (consecutive (verdicts w) < _threshold (shared w)) by (by apply H4).
      unfold u32. rewrite Z.mod_small by lia. zcase; [apply open_ok; [done|rewrite consecutive_snoc; lia]|].
      split; simpl; rewrite ?consecutive_snoc; try done; try lia.
    + specialize (Htr ltac:(done)). zcase; [apply open_ok; [done|rewrite consecutive_snoc; lia]|].
      split; simpl; rewrite ?consecutive_snoc; try done; try lia. split; [done|lia].
  - unfold on_abandoned. case_decide as Es; [apply open_ok; [done|apply Htr; congruence]|].
    by destruct Hw; split.
Qed.

Lemma settle_clock now id o w : 0 <= now -> clock_ok now w -> clock_ok now (settle id now o w).
Proof.
  intros Hpos Hw. destruct o; simpl.
  - by destruct Hw; split.
  - unfold on_failure. case_decide as Es; [by apply open_clock|]. zcase; [by apply open_clock|]. by destruct Hw; split.
  - unfold on_abandoned. case_decide as Es; [by apply open_clock|]. by destruct Hw; split.
Qed.

Lemma destroyed_ok id w : breaker_ok w -> breaker_ok (destroyed id w).
Proof.
  intros [H1 H2 H3 H4 H5]. split; simpl; try done. intros Es. destruct (H5 Es) as (t & Ht & Hl). exists t. split; [done|].
  case_decide as E; [done|]. destruct (lost w); [done|]. rewrite lookup_delete_ne; [done|congruence].
Qed.

Lemma step_breaker_ok w o : breaker_ok w -> breaker_ok (step w o).
Proof.
  intros Hw. destruct o as [id n|id n r|id]; simpl; destruct (flight w !! id); try done;
    [by apply guard_ok|by apply settle_ok|by apply destroyed_ok].
Qed.

Lemma run_breaker_ok ops w : breaker_ok w -> breaker_ok (fold_left step ops w).
Proof. revert w. induction ops as [|o ops IH]; intros w Hw; [done|]. by apply IH, step_breaker_ok. Qed.

Lemma run_clock_ok ops now w :
  Forall (fun t => 0 <= t < 2 ^ 64) (times ops) -> StronglySorted Z.le (now :: times ops) -> clock_ok now w ->
  exists now', clock_ok now' (fold_left step ops w).
Proof.
  revert now w. induction ops as [|o ops IH]; intros now w Hr Hs Hw; [by exists now|].
  assert (forall n w', times (o :: ops) = n :: times ops -> (0 <= n < 2 ^ 64 -> clock_ok n w -> clock_ok n w') ->
    exists now', clock_ok now' (fold_left step ops w')) as Hgo.
  { intros n w' E Hn. rewrite E in Hr, Hs. apply Forall_cons in Hr as [Hr0 Hr]. apply StronglySorted_inv in Hs as [Hs Hle].
    apply Forall_cons in Hle as [Hle _]. apply (IH n); [done|done|]. apply Hn; [done|]. by eapply clock_ok_later. }
  destruct o as [id n|id n r|id]; simpl.
  - apply (Hgo n); [done|]. intros Hn Hw'. destruct (flight w !! id); [done|]. apply guard_clock; [lia|done].
  - apply (Hgo n); [done|]. intros Hn Hw'. destruct (flight w !! id); [|done]. apply settle_clock; [lia|done].
  - apply (IH now); [done|done|]. destruct (flight w !! id); [|done]. by destruct Hw; split.
Qed.

Lemma run_params ops w : _threshold (shared (fold_left step ops w)) = _threshold (shared w) /\
  _cooldown (shared (fold_left step ops w)) = _cooldown (shared w).
Proof.
  revert w. induction ops as [|o ops IH]; intros w; [done|]. simpl. destruct (IH (step w o)) as [-> ->]. clear IH.
  destruct o as [id n|id n []|id]; simpl; case_match; try done; unfold guard, allow, settle, on_failure, on_abandoned; by repeat case_match; simplify_eq.
Qed.

Lemma start_breaker_ok failure_threshold cooldown : 0 <= failure_threshold < 2 ^ 32 -> breaker_ok (start failure_threshold cooldown).
Proof. intros Ht. split; simpl; try done; [zcase; lia|]. unfold consecutive. simpl. split; [zcase; lia|done]. Qed.

Lemma start_clock_ok failure_threshold cooldown : cooldown < 2 ^ 63 -> clock_ok 0 (start failure_threshold cooldown).
Proof. intros Hc. split; simpl; try done. zcase; lia. Qed.

(** C30: Whatever [ask_guarded] calls overlap, end or are destroyed while they wait, and whatever
    the clock reads, a circuit breaker is closed exactly while fewer failures than the threshold
    were reported since the last success, and while it is half open the latest trial is still in
    flight or its frame was destroyed without a report. If the clock ([ctx.time()], the wall
    clock) does not step back during the run, two trials are at least the cooldown apart. *)
Theorem breaker_contract (failure_threshold cooldown : Z) (ops : list op) :
  0 <= failure_threshold < 2 ^ 32 -> cooldown < 2 ^ 63 ->
  let w := fold_left step ops (start failure_threshold cooldown) in
  (_state (shared w) = Closed <-> consecutive (verdicts w) < Z.max 1 failure_threshold) /\
  (_state (shared w) = HalfOpen -> exists id, trial w = Some id /\ (flight w !! id = Some true \/ lost w = true)) /\
  (Forall (fun t => 0 <= t < 2 ^ 64) (times ops) -> Sorted Z.le (times ops) ->
   forall i t t', trials w !! i = Some t -> trials w !! S i = Some t' -> t + Z.max 0 cooldown <= t').
Proof.
  intros Ht Hc w. destruct (run_params ops (start failure_threshold cooldown)) as [E1 E2]. fold w in E1, E2. simpl in E1, E2.
  pose proof (run_breaker_ok ops _ (start_breaker_ok failure_threshold cooldown Ht)) as [_ _ _ H4 H5]. fold w in H4, H5.
  split_and!.
  - rewrite H4, E1. zcase; lia.
  - intros Es. destruct (H5 Es) as (id & Hid & Hl). exists id. split; [done|]. destruct (lost w); auto.
  - intros Hops Hs. apply Sorted_StronglySorted in Hs; [|exact Z.le_trans].
    destruct (run_clock_ok ops 0 (start failure_threshold cooldown)) as [now [_ _ _ _ Ha]];
      [done|constructor; [done|]|by apply start_clock_ok|].
    { eapply Forall_impl; [exact Hops|]. simpl. lia. }
    fold w in Ha. rewrite E2 in Ha. intros i t t' H1 H2. specialize (Ha i t t' H1 H2). revert Ha. zcase; lia.
Qed.

Lemma breaker_contract_witness :
  let ops := [Call 1 10; Call 2 11; End 1 20 Failed; End 2 21 Failed; Call 3 22; Call 4 130; Call 5 131; End 4 140 Cancelled;
              Call 6 250; Destroy 6] in
  let w := fold_left step ops (start 2 100) in
  refused w = [3; 5] /\ trials w = [130; 250] /\ lost w = true /\
  (_state (shared w) = Closed <-> consecutive (verdicts w) < Z.max 1 2) /\
  (_state (shared w) = HalfOpen -> exists id, trial w = Some id /\ (flight w !! id = Some true \/ lost w = true)) /\
  (forall i t t', trials w !! i = Some t -> trials w !! S i = Some t' -> t + 100 <= t').
Proof.
  split; [reflexivity|]. split; [reflexivity|]. split; [reflexivity|].
  destruct (breaker_contract 2 100
    [Call 1 10; Call 2 11; End 1 20 Failed; End 2 21 Failed; Call 3 22; Call 4 130; Call 5 131; End 4 140 Cancelled; Call 6 250; Destroy 6])
    as (H1 & H2 & H3); [split; [discriminate|reflexivity]|reflexivity|].
  split; [exact H1|]. split; [exact H2|]. apply H3; [repeat constructor; discriminate|simpl; repeat constructor; discriminate].
Defined.

(** A trial whose frame is destroyed while it waits wedges the breaker: half open with nothing in
    flight, it stays half open for ever, and every later call is turned away. *)
Theorem lost_trial_wedges_breaker (w : world) (ops : list op) :
  _state (shared w) = HalfOpen -> flight w = ∅ ->
  let w' := fold_left step ops w in
  _state (shared w') = HalfOpen /\ flight w' = ∅ /\
  refused w' = refused w ++ omap (fun o => match o with Call id _ => Some id | _ => None end) ops.
Proof.
  revert w. induction ops as [|o ops IH]; intros w Hs Hf; simpl; [by rewrite app_nil_r|].
  assert (forall w1, step w o = w1 -> shared w1 = shared w -> flight w1 = ∅ ->
    refused w1 = refused w ++ match o with Call id _ => [id] | _ => [] end ->
    let w' := fold_left step ops (step w o) in _state (shared w') = HalfOpen /\ flight w' = ∅ /\
    refused w' = refused w ++ omap (fun o => match o with Call id _ => Some id | _ => None end) (o :: ops)) as Hgo.
  { intros w1 -> E1 E2 E3. destruct (IH w1) as (H1 & H2 & H3); [congruence|done|]. split_and!; [done|done|].
    cbv zeta. rewrite H3, E3, <- app_assoc. by destruct o. }
  eapply Hgo; [reflexivity|..]; destruct o as [id n|id n r|id]; simpl; rewrite Hf, lookup_empty; try done;
    try (unfold guard, allow; rewrite Hs; done); by rewrite app_nil_r.
Qed.

Lemma lost_trial_wedges_breaker_witness :
  let w := fold_left step [Call 1 0; End 1 5 Failed; Call 2 20; Destroy 2] (start 1 10) in
  refused (fold_left step [Call 3 100; Call 4 (2 ^ 60)] w) = [3; 4].
Proof.
  destruct (lost_trial_wedges_breaker (fold_left step [Call 1 0; End 1 5 Failed; Call 2 20; Destroy 2] (start 1 10))
    [Call 3 100; Call 4 (2 ^ 60)]) as (_ & _ & H); [reflexivity|reflexivity|exact H].
Defined.

(** A clock that steps back ends the cooldown at once: the unsigned difference wraps around. *)
Theorem clock_back_skips_cooldown (now : Z) (b : breaker) :
  _state b = Open -> 0 <= now < _opened_at b -> _opened_at b < 2 ^ 63 -> 0 <= _cooldown b <= 2 ^ 63 ->
  (allow now b).1 = true.
Proof.
  intros Hs Hn Ho Hc. unfold allow. rewrite Hs. assert (now -s _opened_at b = now - _opened_at b + 2 ^ 64) as ->.
  { unfold u64. rewrite <- (Z.mod_add _ 1), Z.mod_small by lia. lia. }
  zcase; [done|lia].
Qed.

Lemma clock_back_skips_cooldown_witness :
  (allow 99 (Breaker 1 (2 ^ 40) Open 1 100)).1 = true /\ (allow 101 (Breaker 1 (2 ^ 40) Open 1 100)).1 = false.
Proof. split; [apply clock_back_skips_cooldown; [reflexivity|simpl; lia|reflexivity|split; discriminate]|reflexivity]. Defined.

(** A half-open breaker does not admit exactly one trial: a call that was admitted before the
    breaker opened and fails late, while the trial is in flight, opens it again, and after the
    cooldown a second trial runs beside the first. *)
Theorem two_trials_in_flight :
  let w := fold_left step
    [Call 1 0; Call 2 0; End 1 10 Failed; Call 3 20; End 2 30 Failed; Call 4 40] (start 1 10) in
  flight w !! 3 = Some true /\ flight w !! 4 = Some true /\ _state (shared w) = HalfOpen /\ trials w = [20; 40].
Proof. repeat split; reflexivity. Qed.

(** * Retries *)

(** How one attempt ends: a reply, a time-out, another error; and whether the sleep after it is
    cancelled. *)
Inductive attempt (R E : Type) := AReply (r : R) | ATimeout (sleep_cancelled : bool) | AError (e : E).
Arguments AReply {R E} r.
Arguments ATimeout {R E} sleep_cancelled.
Arguments AError {R E} e.

Inductive retry_result (R E : Type) := RReply (r : R) | RTimeout | RCancelled | RError (e : E) | RPending.
Arguments RReply {R E} r.
Arguments RTimeout {R E}.
Arguments RCancelled {R E}.
Arguments RError {R E} e.
Arguments RPending {R E}.

(** The loop of [ask_retry]: the result and the number of asks, [RPending] while attempts are to come. *)
Fixpoint retry_loop {R E} (max_attempts attempt_no : Z) (xs : list (attempt R E)) : retry_result R E * Z :=
  match xs with
  | [] => (RPending, attempt_no - 1)
  | AReply r :: _ => (RReply r, attempt_no)
  | AError e :: _ => (RError e, attempt_no)
  | ATimeout c :: xs =>
      if max_attempts <=? attempt_no then (RTimeout, attempt_no)
      else if c then (RCancelled, attempt_no)
      else retry_loop max_attempts (attempt_no + 1) xs
  end.

Definition ask_retry {R E} (max_attempts : Z) (xs : list (attempt R E)) : retry_result R E * Z :=
  retry_loop (if 0 <? max_attempts then max_attempts else 1) 1 xs.

(** The attempts made never exceed the maximum, and a run of that many attempts has a result. *)
Lemma retry_loop_bound {R E} (m k : Z) (xs : list (attempt R E)) :
  1 <= k <= m -> k - 1 <= (retry_loop m k xs).2 <= m /\ (m - k < zlen xs -> (retry_loop m k xs).1 <> RPending).
Proof.
  revert k. induction xs as [|[r|c|e] xs IH]; intros k Hk; simpl; [unfold zlen; simpl; lia|split; [lia|done]| |split; [lia|done]].
  zcase; [split; simpl; [lia|done]|]. destruct c; [split; simpl; [lia|done]|]. destruct (IH (k + 1)) as [H1 H2]; [lia|].
  split; [lia|]. unfold zlen in *. simpl. intros Hl. apply H2. lia.
Qed.

(** [ask_retry] asks at most [max_attempts] times (once if that is not positive) and ends. *)
Lemma ask_retry_bounded {R E} (max_attempts : Z) (xs : list (attempt R E)) :
  (ask_retry max_attempts xs).2 <= Z.max 1 max_attempts /\
  (Z.max 1 max_attempts <= zlen xs -> (ask_retry max_attempts xs).1 <> RPending).
Proof.
  unfold ask_retry. assert ((if 0 <? max_attempts then max_attempts else 1) = Z.max 1 max_attempts) as -> by (zcase; lia).
  destruct (retry_loop_bound (Z.max 1 max_attempts) 1 xs) as [H1 H2]; [lia|]. split; [lia|]. intros H. apply H2. lia.
Qed.
