(* ===== verification/Combinators.v ===== *)
(** * Awaiting several tasks: io/async/coroutine/combinators.h

    [when_all], [when_any] and [coro_with_timeout] run tasks as branches that the scheduler owns
    and resume the awaiting coroutine when the outcome is known. A branch is its frame; an
    execution is the order in which branches end, timers fire and the awaiting coroutine is
    destroyed. *)

From S2P Require Import Prelude.

#[local] Open Scope Z_scope.

Section Combinators.
Context {V E : Type}.

(** How a task ends: with a value or an exception. *)
Definition outcome := (V + E)%type.

(** ** Branches *)

(** [branch_handles], the tasks and the frames: the handle of a branch is cleared when it ends,
    the frame of a branch that is cancelled is destroyed and its task released. *)
Record branches := Branches { handles : list bool; tasks : list bool; frames : list bool }.

Definition set_nth (i : nat) (b : bool) (l : list bool) : list bool := <[i := b]> l.

(** [spawn_tracked] for [n] tasks. *)
Definition spawn_all (n : nat) : branches := Branches (replicate n true) (replicate n true) (replicate n true).

(** [reclaim_branch]: [cancel_spawned] destroys the frame. *)
Definition reclaim_branch (b : branches) (j : nat) : branches :=
  if default false (handles b !! j) then
    Branches (set_nth j false (handles b)) (set_nth j false (tasks b)) (set_nth j false (frames b))
  else b.

Definition reclaim_all (b : branches) : branches := fold_left reclaim_branch (seq 0 (length (handles b))) b.

(** A branch ends: its handle is cleared and its frame ends by itself. *)
Definition end_branch (i : nat) (b : branches) : branches :=
  Branches (set_nth i false (handles b)) (tasks b) (set_nth i false (frames b)).

Definition runs (b : branches) (i : nat) : bool := default false (frames b !! i).

(** Frames and handles agree while the branches run. *)
Definition branches_ok (b : branches) : Prop := handles b = frames b.

Lemma reclaim_branch_ok b j : branches_ok b ->
  branches_ok (reclaim_branch b j) /\ length (handles (reclaim_branch b j)) = length (handles b) /\
  forall i, runs (reclaim_branch b j) i = runs b i && negb (bool_decide (i = j)).
Proof.
  intros Hb. unfold branches_ok, runs in *. unfold reclaim_branch. destruct (default false (handles b !! j)) eqn:Ej; simpl.
  - split; [by rewrite Hb|]. split; [apply length_insert|]. intros i. unfold set_nth.
    assert (j < length (frames b))%nat as Hj.
    { rewrite <- Hb. destruct (handles b !! j) eqn:El; [by eapply lookup_lt_Some|done]. }
    destruct (decide (i = j)) as [->|Hne]; [rewrite list_lookup_insert_eq, bool_decide_true by done; by rewrite andb_false_r|].
    rewrite list_lookup_insert_ne, bool_decide_false by done. by rewrite andb_true_r.
  - split; [done|]. split; [done|]. intros i. rewrite <- Hb. destruct (decide (i = j)) as [->|Hne].
    + by rewrite Ej.
    + rewrite bool_decide_false by done. by rewrite andb_true_r.
Qed.

Lemma reclaim_all_ok b : branches_ok b -> branches_ok (reclaim_all b) /\ (forall i, runs (reclaim_all b) i = false) /\
  length (handles (reclaim_all b)) = length (handles b).
Proof.
  intros Hb. unfold reclaim_all.
  assert (forall js c, branches_ok c -> branches_ok (fold_left reclaim_branch js c) /\
    length (handles (fold_left reclaim_branch js c)) = length (handles c) /\
    forall i, runs (fold_left reclaim_branch js c) i = runs c i && negb (bool_decide (i ∈ js))) as H.
  { induction js as [|j js IH]; intros c Hc; simpl.
    - split; [done|]. split; [done|]. intros i. by destruct (runs c i).
    - destruct (reclaim_branch_ok c j Hc) as (H1 & H2 & H3). destruct (IH _ H1) as (H4 & H5 & H6). split; [done|]. split; [congruence|].
      intros i. rewrite H6, H3, <- andb_assoc. f_equal. rewrite <- negb_orb. f_equal.
      apply eq_true_iff_eq. rewrite orb_true_iff, !bool_decide_eq_true, elem_of_cons. done. }
  destruct (H (seq 0 (length (handles b))) b Hb) as (H1 & H2 & H3). split; [done|]. split; [|done]. intros i. rewrite H3.
  destruct (runs b i) eqn:Er; [|done]. rewrite bool_decide_true; [done|]. apply elem_of_seq. unfold runs in Er. rewrite <- Hb in Er.
  destruct (handles b !! i) eqn:El; [|done]. apply lookup_lt_Some in El. lia.
Qed.

Lemma end_branch_ok i b : branches_ok b -> runs b i = true ->
  branches_ok (end_branch i b) /\ length (handles (end_branch i b)) = length (handles b) /\
  forall j, runs (end_branch i b) j = runs b j && negb (bool_decide (j = i)).
Proof.
  intros Hb Hi. unfold branches_ok, runs in *. simpl. split; [by rewrite Hb|]. split; [apply length_insert|]. intros j. unfold set_nth.
  assert (i < length (frames b))%nat as Hl by (destruct (frames b !! i) eqn:El; [by eapply lookup_lt_Some|done]).
  destruct (decide (j = i)) as [->|Hne]; [rewrite list_lookup_insert_eq, bool_decide_true by done; by rewrite andb_false_r|].
  rewrite list_lookup_insert_ne, bool_decide_false by done. by rewrite andb_true_r.
Qed.

(** ** when_all *)

(** [when_all_vector_awaiter::state_t]. *)
Record all_state := AllState {
  results : list (option V);
  completed : Z;
  continuation : bool;
  first_exception : option E;
  all_branches : branches;
  (** Ghost: the branches that ended, in order, and how often the coroutine was scheduled. *)
  ended : list (nat * outcome);
  scheduled : Z
}.

(** [await_suspend] for [n] tasks. *)
Definition all_start (n : nat) : all_state := AllState (replicate n None) 0 true None (spawn_all n) [] 0.

(** [run_one] of branch [i], from the end of its task. *)
Definition all_end (i : nat) (r : outcome) (s : all_state) : all_state :=
  let n := Z.of_nat (length (results s)) in
  let c := completed s +s 1 in
  AllState (match r with inl v => <[i := Some v]> (results s) | inr _ => results s end) c (continuation s)
    (match r, first_exception s with inr e, None => Some e | _, x => x end)
    (end_branch i (all_branches s)) (ended s ++ [(i, r)])
    (if (c =? n) && continuation s then scheduled s + 1 else scheduled s).

(** [~when_all_vector_awaiter]. *)
Definition all_destroy (s : all_state) : all_state :=
  AllState (results s) (completed s) (continuation s) (first_exception s) (reclaim_all (all_branches s)) (ended s) (scheduled s).

(** [await_resume]: the exception, or the values. *)
Definition all_resume (s : all_state) : list (option V) + E :=
  match first_exception s with Some e => inr e | None => inl (results s) end.

Inductive op := End (i : nat) (r : outcome) | Destroy.

Definition all_step (s : all_state) (o : op) : all_state :=
  match o with
  | End i r => if runs (all_branches s) i then all_end i r s else s
  | Destroy => all_destroy s
  end.

Definition exceptions (l : list (nat * outcome)) : list E := omap (fun x => match x.2 with inr e => Some e | inl _ => None end) l.

(** [done] is the number of branches that ended; a branch ends once, and then no longer runs. *)
Record all_ok (n : nat) (s : all_state) : Prop := AllOk {
  ao_branches : branches_ok (all_branches s);
  ao_handles : length (handles (all_branches s)) = n;
  ao_length : length (results s) = n;
  ao_completed : completed s = zlen (ended s);
  ao_once : NoDup (ended s).*1;
  ao_ended : forall i, i ∈ (ended s).*1 -> runs (all_branches s) i = false /\ (i < n)%nat;
  ao_results : forall i v, results s !! i = Some (Some v) <-> (i, inl v) ∈ ended s;
  ao_first : first_exception s = head (exceptions (ended s));
  ao_cont : continuation s = true;
  ao_scheduled : scheduled s = if zlen (ended s) =? Z.of_nat n then (if (n =? 0)%nat then 0 else 1) else 0
}.

Lemma pigeonhole (l : list nat) (n : nat) : NoDup l -> (forall i, i ∈ l -> (i < n)%nat) -> (length l <= n)%nat.
Proof.
  intros Hnd Hin. rewrite <- (length_seq n 0). apply submseteq_length, NoDup_submseteq; [done|].
  intros i Hi%Hin. apply elem_of_seq. lia.
Qed.

Lemma all_start_ok n : all_ok n (all_start n).
Proof.
  split; simpl; try done; try (by rewrite length_replicate); try (by constructor).
  - intros i Hi. by apply elem_of_nil in Hi.
  - intros i v. split; [intros [? ?]%lookup_replicate; done|by intros ?%elem_of_nil].
  - unfold zlen. simpl. by destruct n.
Qed.

Lemma exceptions_snoc l i r : exceptions (l ++ [(i, r)]) = exceptions l ++ match r with inr e => [e] | inl _ => [] end.
Proof. unfold exceptions. rewrite omap_app. by destruct r. Qed.

Lemma all_end_ok n i r s : Z.of_nat n < 2 ^ 63 -> all_ok n s -> runs (all_branches s) i = true -> all_ok n (all_end i r s).
Proof.
  intros Hn [Hb Hh Hl Hc Ho He Hr Hf Hk Hs] Hi. destruct (end_branch_ok i _ Hb Hi) as (Hb' & Hh' & Hrun).
  assert (i < n)%nat as Hin.
  { rewrite <- Hh. unfold runs in Hi. rewrite <- Hb in Hi. destruct (handles (all_branches s) !! i) eqn:Eh; [by eapply lookup_lt_Some|done]. }
  assert (i ∉ (ended s).*1) as Hnew by (intros Hx; apply He in Hx as [Hx _]; congruence).
  assert ((ended s ++ [(i, r)]).*1 = (ended s).*1 ++ [i]) as Hfst by (by rewrite fmap_app).
  assert (NoDup ((ended s ++ [(i, r)]).*1)) as Hnd.
  { rewrite Hfst. apply NoDup_app. split; [done|]. split; [|apply NoDup_singleton]. intros x Hx ->%list_elem_of_singleton. done. }
  assert (zlen (ended s) + 1 <= Z.of_nat n) as Hle.
  { pose proof (pigeonhole _ n Hnd) as H. rewrite Hfst, length_app, length_fmap in H. unfold zlen. simpl in H.
    assert (length (ended s) + 1 <= n)%nat; [|lia]. apply H. intros x. rewrite elem_of_app, list_elem_of_singleton.
    intros [Hx| ->]; [by apply He|done]. }
  pose proof (zlen_nonneg (ended s)) as Hnn. unfold all_end. split; simpl.
  - done.
  - exact (eq_trans Hh' Hh).
  - destruct r; [by rewrite length_insert|done].
  - rewrite Hc, zlen_app, zlen_one. uwrap. done.
  - done.
  - intros x. rewrite Hfst, elem_of_app, list_elem_of_singleton. rewrite Hrun. intros [Hx| ->]; simpl.
    + destruct (He x Hx) as [-> ?]. done.
    + rewrite bool_decide_true by done. by rewrite andb_false_r.
  - intros j v. rewrite elem_of_app, list_elem_of_singleton. destruct r as [v'|e].
    + destruct (decide (j = i)) as [->|Hne].
      * rewrite list_lookup_insert_eq by lia. split; [intros [= ->]; by right|]. intros [Hx|[= ->]]; [|done].
        destruct Hnew. apply list_elem_of_fmap. by exists (i, inl v).
      * rewrite list_lookup_insert_ne by done. rewrite Hr. split; [by left|]. intros [?|[= ? ?]]; done.
    + rewrite Hr. split; [by left|]. intros [?|[= ?]]; done.
  - rewrite exceptions_snoc, Hf. destruct r; simpl; [by rewrite app_nil_r|]. by destruct (exceptions (ended s)).
  - done.
  - rewrite Hc, Hl, Hk, Hs, zlen_app, zlen_one. uwrap. destruct n as [|n']; [lia|]. rewrite andb_true_r. simpl (_ =? 0)%nat. cbv iota.
    destruct (Z.eqb_spec (zlen (ended s)) (Z.of_nat (S n'))); [lia|]. done.
Qed.

Lemma all_destroy_ok n s : all_ok n s -> all_ok n (all_destroy s) /\ forall i, runs (all_branches (all_destroy s)) i = false.
Proof.
  intros [Hb Hh Hl Hc Ho He Hr Hf Hk Hs]. destruct (reclaim_all_ok _ Hb) as (H1 & H2 & H3). split; [|done].
  split; simpl; try done; [congruence|]. intros i Hi. split; [done|]. by apply He.
Qed.

Lemma all_run_ok n ops : Z.of_nat n < 2 ^ 63 -> all_ok n (fold_left all_step ops (all_start n)).
Proof.
  intros Hn. pose proof (all_start_ok n) as H. revert H. generalize (all_start n). induction ops as [|o ops IH]; intros s Hs; [done|].
  apply IH. destruct o as [i r|]; simpl; [|by apply all_destroy_ok]. destruct (runs (all_branches s) i) eqn:Er; [by apply all_end_ok|done].
Qed.
(** ** when_any *)

(** A branch's frame ends, its handle having been cleared or not. *)
Definition end_frame (i : nat) (b : branches) : branches := Branches (handles b) (tasks b) (set_nth i false (frames b)).

Definition clear_handle (i : nat) (b : branches) : branches := Branches (set_nth i false (handles b)) (tasks b) (frames b).

(** [when_any_vector_awaiter::state_t]. *)
Record any_state := AnyState {
  result : option (nat * option V);
  exception : option E;
  any_done : bool;
  any_continuation : bool;
  any_branches : branches;
  (** Ghost: the branches whose task ended, and how often the coroutine was scheduled. *)
  any_ended : list (nat * outcome);
  any_scheduled : Z
}.

(** [await_suspend] for [n] tasks. *)
Definition any_start (n : nat) : any_state := AnyState None None false true (spawn_all n) [] 0.

(** [run_one] of branch [i], from the end of its task: the first to end takes the outcome, reclaims
    the others and schedules the coroutine. *)
Definition any_end (i : nat) (r : outcome) (s : any_state) : any_state :=
  if any_done s then
    AnyState (result s) (exception s) (any_done s) (any_continuation s) (end_frame i (any_branches s)) (any_ended s ++ [(i, r)]) (any_scheduled s)
  else
    AnyState (Some (i, match r with inl v => Some v | inr _ => None end)) (match r with inr e => Some e | inl _ => exception s end)
      true (any_continuation s) (end_frame i (reclaim_all (clear_handle i (any_branches s)))) (any_ended s ++ [(i, r)])
      (if any_continuation s then any_scheduled s + 1 else any_scheduled s).

(** [~when_any_vector_awaiter]. *)
Definition any_destroy (s : any_state) : any_state :=
  AnyState (result s) (exception s) (any_done s) (any_continuation s) (reclaim_all (any_branches s)) (any_ended s) (any_scheduled s).

(** [await_resume]. *)
Definition any_resume (s : any_state) : nat * option V + E :=
  match exception s, result s with
  | Some e, _ => inr e
  | None, None => inl (0%nat, None)
  | None, Some r => inl r
  end.

Definition any_step (s : any_state) (o : op) : any_state :=
  match o with
  | End i r => if runs (any_branches s) i then any_end i r s else s
  | Destroy => any_destroy s
  end.

(** What the race is meant to give: the first of the [n] tasks to end, unless the awaiting
    coroutine is destroyed before. *)
Fixpoint first_end (n : nat) (ops : list op) : option (nat * outcome) :=
  match ops with
  | [] => None
  | Destroy :: _ => None
  | End i r :: ops => if (i <? n)%nat then Some (i, r) else first_end n ops
  end.

Lemma end_frame_reclaim i b j : end_frame i (reclaim_branch b j) = reclaim_branch (end_frame i b) j.
Proof.
  unfold reclaim_branch, end_frame. simpl. destruct (default false (handles b !! j)); simpl; [|done]. f_equal. unfold set_nth.
  destruct (decide (i = j)) as [->|Hne]; [done|]. by apply list_insert_insert_ne.
Qed.

Lemma end_frame_reclaim_all i b : end_frame i (reclaim_all (clear_handle i b)) = reclaim_all (end_branch i b).
Proof.
  unfold reclaim_all. change (handles (end_branch i b)) with (handles (clear_handle i b)).
  change (end_branch i b) with (end_frame i (clear_handle i b)).
  generalize (seq 0 (length (handles (clear_handle i b)))). generalize (clear_handle i b). intros c js. revert c.
  induction js as [|j js IH]; intros c; [done|]. simpl. by rewrite IH, end_frame_reclaim.
Qed.

(** Once no branch runs, nothing changes but the handles. *)
Lemma any_stopped ops : forall s, branches_ok (any_branches s) -> (forall i, runs (any_branches s) i = false) ->
  let s' := fold_left any_step ops s in
  any_ended s' = any_ended s /\ any_scheduled s' = any_scheduled s /\ any_resume s' = any_resume s /\
  forall i, runs (any_branches s') i = false.
Proof.
  induction ops as [|[i r|] ops IH]; intros s Hb Hr; simpl; [done|rewrite Hr; by apply IH|].
  destruct (reclaim_all_ok _ Hb) as (Hb' & Hr' & _). exact (IH (any_destroy s) Hb' Hr').
Qed.

Lemma any_start_runs n i : runs (any_branches (any_start n)) i = (i <? n)%nat.
Proof.
  unfold runs. simpl. destruct (Nat.ltb_spec i n); [by rewrite lookup_replicate_2|]. by rewrite (proj1 (lookup_replicate_None n true i)).
Qed.

(** The first branch to end settles the race. *)
Lemma any_end_start n i r : (i <? n)%nat = true ->
  let s := any_end i r (any_start n) in
  branches_ok (any_branches s) /\ (forall j, runs (any_branches s) j = false) /\ any_ended s = [(i, r)] /\ any_scheduled s = 1 /\
  any_resume s = match r with inl v => inl (i, Some v) | inr e => inr e end.
Proof.
  intros Hi s. rewrite <- any_start_runs in Hi. destruct (end_branch_ok i (spawn_all n) eq_refl Hi) as (Hb & _).
  destruct (reclaim_all_ok _ Hb) as (Hb' & Hr' & _). rewrite <- end_frame_reclaim_all in Hb', Hr'.
  split; [exact Hb'|]. split; [exact Hr'|]. by destruct r.
Qed.

(** ** coro_with_timeout *)

(** The one-shot watcher of the loop: armed, expired and queued, or neither. *)
Inductive watcher := Inactive | Active | Pending.

(** [timeout_awaiter::state_t], with the awaiter's life and the frame of [run_task]. *)
Record timeout_state := TimeoutState {
  t_result : option V;
  t_exception : option E;
  t_completed : bool;
  t_timed_out : bool;
  t_continuation : bool;
  t_timer : watcher;
  t_timer_started : bool;
  runner_handle : bool;
  (** The frame of [run_task], and whether the awaiter still exists. *)
  t_runs : bool;
  t_alive : bool;
  (** Ghost: the end of the task ([Some]) and the time-out ([None]), in order; the times the
      coroutine was scheduled; whether a frame that had ended was cancelled. *)
  t_log : list (option outcome);
  t_scheduled : Z;
  t_double_free : bool
}.

(** [await_suspend]. *)
Definition timeout_start : timeout_state :=
  TimeoutState None None false false true Active true true true true [] 0 false.

(** [if (!completed) { completed = true; ...; schedule }], of [run_task] and [resolve_timeout]. *)
Definition complete (late : bool) (s : timeout_state) : timeout_state :=
  if t_completed s then s else
  TimeoutState (t_result s) (t_exception s) true (late || t_timed_out s) (t_continuation s) (t_timer s) (t_timer_started s)
    (runner_handle s) (t_runs s) (t_alive s) (t_log s) (if t_continuation s then t_scheduled s + 1 else t_scheduled s) (t_double_free s).

(** [run_task] from the end of the inner task. *)
Definition run_task (r : outcome) (s : timeout_state) : timeout_state :=
  complete false
    (TimeoutState (match r with inl v => Some v | inr _ => t_result s end) (match r with inr e => Some e | inl _ => t_exception s end)
       (t_completed s) (t_timed_out s) (t_continuation s) (t_timer s) (t_timer_started s)
       (runner_handle s) false (t_alive s) (t_log s ++ [Some r]) (t_scheduled s) (t_double_free s)).

(** [on_timeout], and through it [resolve_timeout]: the watcher was stopped when it expired. *)
Definition on_timeout (s : timeout_state) : timeout_state :=
  complete true
    (TimeoutState (t_result s) (t_exception s) (t_completed s) (t_timed_out s) (t_continuation s) Inactive (t_timer_started s)
       (runner_handle s) (t_runs s) (t_alive s) (t_log s ++ [None]) (t_scheduled s) (t_double_free s)).

(** [finish]: [ev_timer_stop] clears a pending entry as well. *)
Definition finish (s : timeout_state) : timeout_state :=
  if t_timer_started s then
    TimeoutState (t_result s) (t_exception s) (t_completed s) (t_timed_out s) (t_continuation s) Inactive false
      (runner_handle s) (t_runs s) (t_alive s) (t_log s) (t_scheduled s) (t_double_free s)
  else s.

(** [~timeout_awaiter]. *)
Definition timeout_destroy (s : timeout_state) : timeout_state :=
  let s := if t_completed s then s else
    TimeoutState (t_result s) (t_exception s) true (t_timed_out s) false (t_timer s) (t_timer_started s) false
      (if runner_handle s then false else t_runs s) (t_alive s) (t_log s) (t_scheduled s)
      (t_double_free s || (runner_handle s && negb (t_runs s))) in
  let s := finish s in
  TimeoutState (t_result s) (t_exception s) (t_completed s) (t_timed_out s) (t_continuation s) (t_timer s) (t_timer_started s)
    (runner_handle s) (t_runs s) false (t_log s) (t_scheduled s) (t_double_free s).

(** The outcome of [await_resume]: a value, the task's exception, or [timeout_error]; [None] where
    an empty [result] would be dereferenced. *)
Inductive timed := Value (v : V) | Raised (e : E) | TimedOut.

Definition timeout_resume (s : timeout_state) : option timed :=
  if t_timed_out s then Some TimedOut
  else match t_exception s with Some e => Some (Raised e) | None => Value <$> t_result s end.

(** The inner task ends; the watcher expires and is invoked; the coroutine resumes and leaves the
    expression; or it is destroyed while it waits. *)
Inductive timeout_op := TaskEnds (r : outcome) | Expires | Invoked | Resumes | Unwound.

Definition timeout_step (s : timeout_state) (o : timeout_op) : timeout_state :=
  match o with
  | TaskEnds r => if t_runs s then run_task r s else s
  | Expires =>
      match t_timer s with
      | Active =>
          TimeoutState (t_result s) (t_exception s) (t_completed s) (t_timed_out s) (t_continuation s) Pending (t_timer_started s)
            (runner_handle s) (t_runs s) (t_alive s) (t_log s) (t_scheduled s) (t_double_free s)
      | _ => s
      end
  | Invoked => match t_timer s with Pending => on_timeout s | _ => s end
  | Resumes => if t_alive s && (t_scheduled s =? 1) then timeout_destroy (finish s) else s
  | Unwound => if t_alive s then timeout_destroy s else s
  end.

(** What the first event decides. *)
Definition decided (o : option outcome) : timed :=
  match o with Some (inl v) => Value v | Some (inr e) => Raised e | None => TimedOut end.

Record timeout_ok (s : timeout_state) : Prop := TimeoutOk {
  to_undecided : t_log s = [] -> t_completed s = negb (t_alive s) /\ t_timed_out s = false /\ t_scheduled s = 0 /\
    t_result s = None /\ t_exception s = None /\ t_runs s = t_alive s /\ t_continuation s = t_alive s /\ runner_handle s = t_alive s;
  to_decided : forall o l, t_log s = o :: l -> t_completed s = true /\ t_scheduled s = 1 /\ timeout_resume s = Some (decided o) /\
    (o = None \/ t_runs s = false);
  to_timer : t_timer_started s = t_alive s;
  to_stopped : t_alive s = false -> t_timer s = Inactive;
  to_frames : t_double_free s = false
}.

Lemma timeout_start_ok : timeout_ok timeout_start.
Proof. split; done. Qed.

Lemma timeout_step_ok s o : timeout_ok s -> timeout_ok (timeout_step s o).
Proof.
  destruct s as [res exc comp late cont tm started rh run alive log sch df]. intros [Hu Hd Ht Hs Hf]; simpl in *. subst started df.
  destruct log as [|a log].
  - destruct (Hu eq_refl) as (-> & -> & -> & -> & -> & -> & -> & ->). clear Hu Hd. destruct alive.
    + destruct o as [[v|e]| | | |], tm; split; simpl; naive_solver.
    + rewrite Hs by done. destruct o; split; simpl; naive_solver.
  - destruct (Hd _ _ eq_refl) as (-> & -> & Hr & Hrun). clear Hu Hd. unfold timeout_resume in Hr; simpl in Hr.
    assert (run = true -> late = true) as Hl.
    { intros ->. destruct Hrun as [-> |]; [|done]. destruct late, exc, res; done. }
    assert (alive = false -> tm = Inactive) as Hs' by done.
    destruct o as [[v|e]| | | |], tm, run, alive; split; simpl in *; try (specialize (Hl eq_refl); subst late); naive_solver.
Qed.

Lemma timeout_run_ok ops s : timeout_ok s -> timeout_ok (fold_left timeout_step ops s).
Proof. revert s. induction ops as [|o ops IH]; intros s Hs; [done|]. by apply IH, timeout_step_ok. Qed.

(** Unwound before anything was decided, the awaiter leaves nothing behind that could act. *)
Lemma timeout_gone ops : forall s, timeout_ok s -> t_alive s = false -> t_log s = [] -> t_log (fold_left timeout_step ops s) = [].
Proof.
  induction ops as [|o ops IH]; intros s Hs Ha Hl; [done|]. cbn [fold_left]. assert (timeout_step s o = s) as ->; [|by apply IH].
  destruct Hs as [Hu _ _ Ht _]. destruct (Hu Hl) as (_ & _ & _ & _ & _ & Hr & _ & _). rewrite Ha in Hr.
  destruct o; simpl; [by rewrite Hr|by rewrite Ht|by rewrite Ht|by rewrite Ha|by rewrite Ha].
Qed.

Lemma timeout_log_grows ops : forall s, t_log s `prefix_of` t_log (fold_left timeout_step ops s).
Proof.
  induction ops as [|o ops IH]; intros s; [done|]. cbn [fold_left]. etrans; [|apply IH].
  destruct s as [res exc comp late cont tm started rh run alive log sch df], o, tm, run, alive, comp, started;
    simpl; unfold timeout_destroy, finish; simpl; repeat case_match; simpl; try done; by apply prefix_app_r.
Qed.
End Combinators.

(** [when_all] schedules the awaiting coroutine once, when every branch has ended, and not before;
    it then gets the first exception in the order of completion, or for each task its value. *)
Theorem when_all_collects {V E : Type} (n : nat) (ops : list (op (V := V) (E := E))) :
  (0 < n)%nat -> Z.of_nat n < 2 ^ 63 ->
  let s := fold_left all_step ops (all_start n) in
  scheduled s = (if zlen (ended s) =? Z.of_nat n then 1 else 0) /\
  (scheduled s = 1 -> forall i, (i < n)%nat -> exists r, (i, r) ∈ ended s) /\
  match all_resume s with
  | inr e => head (exceptions (ended s)) = Some e
  | inl vs => scheduled s = 1 -> forall i, (i < n)%nat -> exists v, vs !! i = Some (Some v) /\ (i, inl v) ∈ ended s
  end.
Proof.
  intros Hpos Hn s. pose proof (all_run_ok n ops Hn) as [Hb Hh Hl Hc Ho He Hr Hf Hk Hs]. fold s in Hb, Hh, Hl, Hc, Ho, He, Hr, Hf, Hk, Hs.
  assert (scheduled s = 1 -> forall i, (i < n)%nat -> exists r, (i, r) ∈ ended s) as Hall.
  { rewrite Hs. destruct (Z.eqb_spec (zlen (ended s)) (Z.of_nat n)) as [E1|]; [|done]. intros _ i Hi.
    assert (i ∈ (ended s).*1) as Hx; [|apply list_elem_of_fmap in Hx as ([j r] & -> & ?); by exists r].
    assert ((ended s).*1 ≡ₚ seq 0 n) as ->; [|apply elem_of_seq; lia].
    apply submseteq_length_Permutation; [|rewrite length_seq, length_fmap; unfold zlen in E1; lia].
    apply NoDup_submseteq; [done|]. intros j Hj%He. apply elem_of_seq. lia. }
  split; [rewrite Hs; by rewrite (proj2 (Nat.eqb_neq n 0)) by lia|]. split; [done|]. unfold all_resume. rewrite Hf.
  destruct (head (exceptions (ended s))) as [e|] eqn:Ee; [done|]. intros H1 i Hi. destruct (Hall H1 i Hi) as [[v|e] Hr1].
  - exists v. split; [by apply Hr|done].
  - exfalso. assert (e ∈ exceptions (ended s)) as Hin by (apply list_elem_of_omap; by exists (i, inr e)).
    destruct (exceptions (ended s)); [by apply elem_of_nil in Hin|done].
Qed.

(** Once the awaiting coroutine is destroyed no branch runs, and nothing is scheduled any more. *)
Lemma when_all_destroyed {V E : Type} (n : nat) (ops ops' : list (op (V := V) (E := E))) :
  Z.of_nat n < 2 ^ 63 ->
  let s := all_step (fold_left all_step ops (all_start n)) Destroy in
  (forall i, runs (all_branches s) i = false) /\ ended (fold_left all_step ops' s) = ended s /\ scheduled (fold_left all_step ops' s) = scheduled s.
Proof.
  intros Hn s. destruct (all_destroy_ok n _ (all_run_ok n ops Hn)) as [Hok Hno]. fold s in Hok, Hno. split; [done|].
  assert (forall t, all_ok n t -> (forall i, runs (all_branches t) i = false) ->
    ended (fold_left all_step ops' t) = ended t /\ scheduled (fold_left all_step ops' t) = scheduled t) as H; [|by apply H].
  induction ops' as [|o ops' IH]; intros t Ht Hnt; [done|]. simpl. destruct o as [i r|]; simpl.
  - rewrite Hnt. by apply IH.
  - destruct (all_destroy_ok n t Ht) as [Ht' Hnt']. destruct (IH (all_destroy t) Ht' Hnt') as [-> ->]. done.
Qed.

(** C38: [when_any] takes the first of its tasks to end, schedules the awaiting coroutine once with its
    index and value, or its exception, and leaves no branch running; no other branch ever ends. *)
Theorem when_any_first {V E : Type} (n : nat) (ops : list (op (V := V) (E := E))) :
  let s := fold_left any_step ops (any_start n) in
  match first_end n ops with
  | Some (i, r) =>
      any_ended s = [(i, r)] /\ any_scheduled s = 1 /\ (forall j, runs (any_branches s) j = false) /\
      any_resume s = match r with inl v => inl (i, Some v) | inr e => inr e end
  | None => any_ended s = [] /\ any_scheduled s = 0 /\ any_resume s = inl (0%nat, None)
  end.
Proof.
  cbv zeta. induction ops as [|[i r|] ops IH]; [done| |].
  - cbn [fold_left any_step first_end]. rewrite any_start_runs. destruct (i <? n)%nat eqn:Ei; [|exact IH].
    destruct (any_end_start n i r Ei) as (Hb & Hr & He & Hs & Hv). destruct (any_stopped ops _ Hb Hr) as (-> & -> & -> & Hr'). done.
  - cbn [fold_left any_step first_end]. destruct (reclaim_all_ok (spawn_all n) eq_refl) as (Hb & Hr & _).
    by destruct (any_stopped ops (any_destroy (any_start n)) Hb Hr) as (-> & -> & -> & _).
Qed.

(** [coro_with_timeout]: the first of the task's end and the time-out decides, whatever happens
    after it; the awaiting coroutine is scheduled once for it, and never again once the awaiter is
    gone; the watcher is stopped by then, also one that has expired and is queued; and no frame of
    [run_task] that has ended is cancelled. *)
Theorem timeout_decides {V E : Type} (ops ops' : list (timeout_op (V := V) (E := E))) :
  let s := fold_left timeout_step ops timeout_start in
  match t_log s with
  | [] => t_scheduled s = 0
  | o :: _ => t_scheduled s = 1 /\ timeout_resume s = Some (decided o) /\ timeout_resume (fold_left timeout_step ops' s) = Some (decided o)
  end /\
  (t_alive s = false -> t_timer s = Inactive /\ t_scheduled (fold_left timeout_step ops' s) = t_scheduled s) /\
  t_double_free s = false.
Proof.
  intros s. pose proof (timeout_run_ok ops _ timeout_start_ok) as Hok. fold s in Hok.
  pose proof (timeout_run_ok ops' _ Hok) as Hok'. pose proof (timeout_log_grows ops' s) as [k Hk].
  destruct Hok as [Hu Hd Ht Hs Hf] eqn:Eok; clear Eok. split; [|split; [|done]].
  - destruct (t_log s) as [|o l]; [by apply Hu|]. destruct (Hd o l eq_refl) as (_ & H1 & H2 & _). split; [done|]. split; [done|].
    by apply (to_decided _ Hok' o (l ++ k)).
  - intros Ha. split; [by apply Hs|]. destruct (t_log s) as [|o l] eqn:El.
    + destruct (Hu eq_refl) as (_ & _ & -> & _). apply (to_undecided _ Hok'). by apply timeout_gone; [split; rewrite ?El| |].
    + destruct (Hd o l eq_refl) as (_ & -> & _). by apply (to_decided _ Hok' o (l ++ k)).
Qed.
