(* ===== verification/HashPolicy.v ===== *)
(** * Sizes and indices of the hash tables: vendor/ska_hash/flat_hash_map.hpp

    The bit tricks [log2] and [next_power_of_two] and the Fibonacci policy, which gives the number
    of slots of a table and the slot of a hash. *)

From S2P Require Import Prelude.

(** [value |= value >> 1; ... value |= value >> 32]: every bit below the highest one is set. *)
Definition smear_step (value k : Z) : Z := Z.lor value (Z.shiftr value k).

Definition smear (value : Z) : Z := fold_left smear_step [1; 2; 4; 8; 16; 32] value.

(** The table of [log2], by the top six bits of a product with a de Bruijn number. *)
Definition log2_table : list Z :=
  [63; 0; 58; 1; 59; 47; 53; 2; 60; 39; 48; 27; 54; 33; 42; 3; 61; 51; 37; 40; 49; 18;
   28; 20; 55; 30; 34; 11; 43; 14; 22; 4; 62; 57; 46; 52; 38; 26; 32; 41; 50; 36; 17; 19;
   29; 10; 13; 21; 56; 45; 25; 31; 35; 16; 9; 12; 44; 24; 15; 8; 23; 7; 6; 5].

Definition log2_index (power : Z) : Z := Z.shiftr (power *s 0x07EDD5E59A4E28C2) 58.

Definition log2 (value : Z) : Z :=
  let value := smear value in
  default (-1) (zget log2_table (log2_index (value -s Z.shiftr value 1))).

Definition next_power_of_two (i : Z) : Z := smear (i -s 1) +s 1.

(** [fibonacci_hash_policy]: the number of slots for a size, with the shift that goes with it, and
    the slot of a hash. *)
Definition next_size_over (size : Z) : Z * Z :=
  let size := Z.max 2 (next_power_of_two size) in (size, 64 - log2 size).

Definition index_for_hash (shift hash : Z) : Z := Z.shiftr (11400714819323198485 *s hash) shift.

(** ** Smearing *)

(** Whether one of the bits [n, n + w) is set. *)
Definition window (a n : Z) (w : nat) : bool := existsb (fun j => Z.testbit a (n + Z.of_nat j)) (seq 0 w).

Lemma window_add a n w w' : window a n (w + w') = window a n w || window a (n + Z.of_nat w) w'.
Proof.
  unfold window. rewrite seq_app, existsb_app. f_equal. simpl. rewrite <- (Nat.add_0_r w) at 1. generalize 0%nat as j.
  induction w' as [|w' IH]; intros j; [done|]. simpl. rewrite <- Nat.add_succ_r, IH. f_equal. f_equal. lia.
Qed.

Lemma smear_step_window a b w n : 0 <= n -> (forall m, 0 <= m -> Z.testbit b m = window a m w) ->
  Z.testbit (smear_step b (Z.of_nat w)) n = window a n (w + w).
Proof.
  intros Hn Hb. unfold smear_step. rewrite Z.lor_spec, Z.shiftr_spec by done. rewrite !Hb by lia. by rewrite window_add.
Qed.

Lemma smear_window a n : 0 <= n -> Z.testbit (smear a) n = window a n 64.
Proof.
  assert (forall m, 0 <= m -> Z.testbit a m = window a m 1) as H0.
  { intros m _. unfold window. simpl. rewrite orb_false_r. f_equal. lia. }
  intros Hn. unfold smear. simpl.
  apply (smear_step_window a _ 32 n Hn). intros m5 H5. apply (smear_step_window a _ 16 m5 H5).
  intros m4 H4. apply (smear_step_window a _ 8 m4 H4). intros m3 H3. apply (smear_step_window a _ 4 m3 H3).
  intros m2 H2. apply (smear_step_window a _ 2 m2 H2). intros m1 H1. by apply (smear_step_window a _ 1 m1 H1).
Qed.

Lemma smear_spec a : 0 < a < 2 ^ 64 -> smear a = 2 ^ (Z.log2 a + 1) - 1.
Proof.
  intros Ha. pose proof (Z.log2_nonneg a) as Hp. assert (Z.log2 a < 64) as Hl by (apply Z.log2_lt_pow2; lia).
  replace (2 ^ (Z.log2 a + 1) - 1) with (Z.ones (Z.log2 a + 1)) by (rewrite Z.ones_equiv; lia).
  apply Z.bits_inj'. intros n Hn. rewrite smear_window, Z.testbit_ones_nonneg by lia. apply eq_true_iff_eq.
  unfold window. rewrite existsb_exists, Z.ltb_lt. split.
  - intros (j & _ & Hj). destruct (Z.le_gt_cases (n + Z.of_nat j) (Z.log2 a)) as [|Hgt]; [lia|]. by rewrite Z.bits_above_log2 in Hj by lia.
  - intros Hlt. exists (Z.to_nat (Z.log2 a - n)). split; [apply in_seq; lia|].
    replace (n + Z.of_nat (Z.to_nat (Z.log2 a - n))) with (Z.log2 a) by lia. apply Z.bit_log2. lia.
Qed.

(** ** The policy *)

Lemma log2_table_ok p : 0 <= p < 64 -> zget log2_table (log2_index (2 ^ p)) = Some p.
Proof.
  intros Hp. assert (forallb (fun n => bool_decide (zget log2_table (log2_index (2 ^ Z.of_nat n)) = Some (Z.of_nat n))) (seq 0 64) = true) as H
    by (vm_compute; reflexivity).
  rewrite forallb_forall in H. specialize (H (Z.to_nat p)). rewrite bool_decide_eq_true, Z2Nat.id in H by lia. apply H, in_seq. lia.
Qed.

(** [log2] is the integer logarithm, for every 64-bit value but 0. *)
Lemma log2_spec v : 0 < v < 2 ^ 64 -> log2 v = Z.log2 v.
Proof.
  intros Hv. unfold log2. rewrite (smear_spec v Hv). pose proof (Z.log2_nonneg v) as Hp.
  assert (Z.log2 v < 64) as Hl by (apply Z.log2_lt_pow2; lia).
  assert (0 < 2 ^ Z.log2 v < 2 ^ 64) as Hr by (split; [apply Z.pow_pos_nonneg; lia|apply Z.pow_lt_mono_r; lia]).
  rewrite Z.shiftr_div_pow2, Z.pow_add_r, Z.pow_1_r by lia.
  assert ((2 ^ Z.log2 v * 2 - 1) / 2 = 2 ^ Z.log2 v - 1) as ->.
  { symmetry. apply (Z.div_unique _ _ _ 1); lia. }
  replace (2 ^ Z.log2 v * 2 - 1 - (2 ^ Z.log2 v - 1)) with (2 ^ Z.log2 v) by lia. rewrite u64_small by lia. by rewrite log2_table_ok.
Qed.

Lemma next_power_of_two_spec i : 1 <= i <= 2 ^ 63 -> next_power_of_two i = 2 ^ Z.log2_up i.
Proof.
  intros Hi. unfold next_power_of_two. rewrite (u64_small (i - 1)) by lia. destruct (Z.eq_dec i 1) as [->|Hne]; [done|].
  rewrite smear_spec by lia. replace (i - 1) with (Z.pred i) by lia. rewrite Z.log2_up_eqn by lia.
  assert (Z.log2 (Z.pred i) < 63) as Hl by (apply Z.log2_lt_pow2; lia). pose proof (Z.log2_nonneg (Z.pred i)).
  assert (2 ^ (Z.log2 (Z.pred i) + 1) <= 2 ^ 63) by (apply Z.pow_le_mono_r; lia).
  assert (0 < 2 ^ (Z.log2 (Z.pred i) + 1)) by (apply Z.pow_pos_nonneg; lia).
  rewrite u64_small by lia. rewrite <- Z.add_1_r. lia.
Qed.

(** Past the largest power of two the size wraps to 0. *)
Lemma next_power_of_two_wraps i : i = 0 \/ 2 ^ 63 < i < 2 ^ 64 -> next_power_of_two i = 0.
Proof.
  intros Hi. unfold next_power_of_two.
  assert (2 ^ 63 <= u64 (i - 1) < 2 ^ 64) as Hr by (destruct Hi as [->|]; [done|rewrite u64_small; lia]).
  rewrite smear_spec by lia. assert (Z.log2 (u64 (i - 1)) = 63) as -> by (apply Z.log2_unique; lia). done.
Qed.

(** The number of slots is a power of two, at least 2, whatever the size asked for. *)
Lemma next_size_over_pow size : is_size size -> exists p, 1 <= p <= 63 /\ next_size_over size = (2 ^ p, 64 - p).
Proof.
  intros Hs. unfold is_size in Hs. unfold next_size_over.
  assert (exists p, 1 <= p <= 63 /\ Z.max 2 (next_power_of_two size) = 2 ^ p) as (p & Hp & E).
  { destruct (decide (size = 0 \/ 2 ^ 63 < size < 2 ^ 64)) as [Hd|Hd].
    - exists 1. rewrite next_power_of_two_wraps by done. done.
    - rewrite next_power_of_two_spec by lia. destruct (Z.eq_dec size 1) as [->|]; [by exists 1|].
      exists (Z.log2_up size). assert (0 < Z.log2_up size) by (apply Z.log2_up_pos; lia).
      assert (Z.log2_up size <= 63) by (apply Z.log2_up_le_pow2; lia). split; [lia|]. apply Z.max_r.
      change 2 with (2 ^ 1) at 1. apply Z.pow_le_mono_r; lia. }
  exists p. split; [done|]. rewrite E. assert (2 ^ p < 2 ^ 64) by (apply Z.pow_lt_mono_r; lia).
  rewrite log2_spec by (split; [apply Z.pow_pos_nonneg|]; lia). by rewrite Z.log2_pow2 by lia.
Qed.

Lemma next_size_over_exact p : 1 <= p <= 63 -> next_size_over (2 ^ p) = (2 ^ p, 64 - p).
Proof.
  intros Hp. assert (2 ^ p <= 2 ^ 63) by (apply Z.pow_le_mono_r; lia). assert (2 ^ 1 <= 2 ^ p) by (apply Z.pow_le_mono_r; lia).
  unfold next_size_over. rewrite next_power_of_two_spec by lia. rewrite Z.log2_up_pow2, Z.max_r by lia.
  rewrite log2_spec by lia. by rewrite Z.log2_pow2 by lia.
Qed.

(** Up to the largest power of two the size asked for fits. *)
Lemma next_size_over_fits size : 1 <= size <= 2 ^ 63 -> exists p, 1 <= p <= 63 /\ next_size_over size = (2 ^ p, 64 - p) /\ size <= 2 ^ p.
Proof.
  intros Hs. destruct (next_size_over_pow size) as (p & Hp & E); [unfold is_size; lia|]. exists p. split; [done|]. split; [done|].
  unfold next_size_over in E. injection E as E _. rewrite next_power_of_two_spec in E by lia.
  destruct (Z.eq_dec size 1) as [-> |]; [apply (Z.pow_le_mono_r 2 0); lia|]. pose proof (Z.log2_up_spec size ltac:(lia)). lia.
Qed.

Lemma index_for_hash_range p hash : 1 <= p <= 63 -> 0 <= index_for_hash (64 - p) hash < 2 ^ p.
Proof.
  intros Hp. unfold index_for_hash. rewrite Z.shiftr_div_pow2 by lia. pose proof (u64_range (11400714819323198485 * hash)) as Hr.
  assert (0 < 2 ^ (64 - p)) by (apply Z.pow_pos_nonneg; lia). split; [apply Z.div_pos; lia|].
  apply Z.div_lt_upper_bound; [done|]. rewrite <- Z.pow_add_r by lia. replace (64 - p + p) with 64 by lia. apply Hr.
Qed.
