(* ===== verification/FlatMap.v ===== *)
(** * The flat hash map: vendor/ska_hash/flat_hash_map.hpp

    [qb::unordered_flat_map] is an open-addressing table with Robin Hood probing: a key lies at
    most [max_lookups] slots behind the slot of its hash, and along a run of slots the distances
    grow by at most one. This file holds the operations; FlatMapProps their properties. *)

From S2P Require Import Prelude HashPolicy.

Section FlatMap.
Context {K V : Type} `{EqDecision K}.
(** The hasher, and the allocator: whether an array of that many entries can be had. *)
Variable hash : K -> Z.
Variable alloc : Z -> bool.

(** [sherwood_v3_entry]: the union holds a value from [emplace] to [destroy_value]. *)
Record entry := Entry { distance_from_desired : Z; value : option (K * V) }.

Definition has_value (e : entry) : bool := 0 <=? distance_from_desired e.
Definition is_empty (e : entry) : bool := distance_from_desired e <? 0.
Definition is_at_desired_position (e : entry) : bool := distance_from_desired e <=? 0.

Definition vacant : entry := Entry (-1) None.
(** [special_end_value]: the entry behind the last slot counts as having a value, and has none. *)
Definition special_end : entry := Entry 0 None.

Definition empty_default_table : list entry := [vacant; vacant; vacant; special_end].

(** [sherwood_v3_table], with [hash_policy.shift]; [_max_load_factor] is its default of a half. *)
Record table := Table {
  entries : list entry;
  num_slots_minus_one : Z;
  shift : Z;
  max_lookups : Z;
  num_elements : Z
}.

Definition new_table : table := Table empty_default_table 0 63 3 0.

Definition end_ (t : table) : Z := num_slots_minus_one t + max_lookups t.
Definition bucket_count (t : table) : Z := if num_slots_minus_one t =? 0 then 0 else num_slots_minus_one t +s 1.
Definition bucket (t : table) (k : K) : Z := index_for_hash (shift t) (hash k).
Definition set_entries (es : list entry) (t : table) : table :=
  Table es (num_slots_minus_one t) (shift t) (max_lookups t) (num_elements t).
Definition set_num (n : Z) (t : table) : table :=
  Table (entries t) (num_slots_minus_one t) (shift t) (max_lookups t) n.

(** How an operation ends: with the table and a result; with [std::bad_alloc] for that many
    entries; or [Stuck], where an access is out of range or reads a value that is not there. *)
Inductive outcome (A : Type) := Ok (t : table) (x : A) | BadAlloc (t : table) (n : Z) | Stuck.
#[global] Arguments Ok {A}.
#[global] Arguments BadAlloc {A}.
#[global] Arguments Stuck {A}.

Definition bind {A B} (o : outcome A) (f : table -> A -> outcome B) : outcome B :=
  match o with Ok t x => f t x | BadAlloc t n => BadAlloc t n | Stuck => Stuck end.

(** The loop of [find] and of [emplace]: the slot where it ends, the distance there, and whether
    the key is there. *)
Fixpoint probe (fuel : nat) (k : K) (es : list entry) (it distance : Z) : option (Z * Z * bool) :=
  match fuel with
  | O => None
  | S fuel =>
      match zget es it with
      | None => None
      | Some e =>
          if distance_from_desired e <? distance then Some (it, distance, false) else
          match value e with
          | None => None
          | Some kv => if decide (k = kv.1) then Some (it, distance, true) else probe fuel k es (it + 1) (distance + 1)
          end
      end
  end.

Definition probe_key (t : table) (k : K) : option (Z * Z * bool) := probe (length (entries t)) k (entries t) (bucket t k) 0.

Definition find (t : table) (k : K) : option Z :=
  match probe_key t k with Some (it, _, true) => Some it | Some (_, _, false) => Some (end_ t) | None => None end.

(** The loop of [emplace_new_key]: [to_insert] is carried along, exchanged for values that are
    nearer to their desired slot. Out of reach it is left at [result], for the new value. *)
Fixpoint displace (fuel : nat) (es : list entry) (max_lookups result : Z) (to_insert : K * V) (distance it : Z) :
    option (list entry * option (K * V)) :=
  match fuel with
  | O => None
  | S fuel =>
      match zget es it with
      | None => None
      | Some e =>
          if is_empty e then Some (zput es it (Entry distance (Some to_insert)), None)
          else if distance_from_desired e <? distance then
            match value e with
            | None => None
            | Some kv =>
                displace fuel (zput es it (Entry distance (Some to_insert))) max_lookups result kv (distance_from_desired e + 1) (it + 1)
            end
          else if distance + 1 =? max_lookups then
            match zget es result with
            | Some (Entry d (Some kv)) => Some (zput es result (Entry d (Some to_insert)), Some kv)
            | _ => None
            end
          else displace fuel es max_lookups result to_insert (distance + 1) (it + 1)
      end
  end.

Definition compute_max_lookups (num_buckets : Z) : Z := Z.max 4 (log2 num_buckets).

(** The array of [rehash]: vacant up to the special end. *)
Definition new_entries (num_buckets max_lookups : Z) : list entry := zrepeat vacant (num_buckets + max_lookups - 1) ++ [special_end].

Definition reset_to_empty_state (t : table) : table := Table empty_default_table 0 63 3 (num_elements t).

(** [rehash] and [grow] call [emplace], and it calls [grow]. *)
Section Growth.
Variable emplace_again : table -> K * V -> outcome (Z * bool).

(** The loop of [rehash] over the old array. *)
Fixpoint move_all (es : list entry) (t : table) : outcome unit :=
  match es with
  | [] => Ok t tt
  | e :: es =>
      if has_value e then
        match value e with None => Stuck | Some kv => bind (emplace_again t kv) (fun t' _ => move_all es t') end
      else move_all es t
  end.

(** [rehash]; with a load factor of a half the elements need twice as many buckets. *)
Definition rehash_with (t : table) (num_buckets : Z) : outcome unit :=
  let num_buckets := Z.max num_buckets (2 * num_elements t) in
  if num_buckets =? 0 then Ok (reset_to_empty_state t) tt else
  let '(num_buckets, new_shift) := next_size_over num_buckets in
  if num_buckets =? bucket_count t then Ok t tt else
  let new_max_lookups := compute_max_lookups num_buckets in
  if alloc (num_buckets + new_max_lookups) then
    move_all (zslice (entries t) 0 (end_ t))
      (Table (new_entries num_buckets new_max_lookups) (num_buckets -s 1) new_shift new_max_lookups 0)
  else BadAlloc t (num_buckets + new_max_lookups).

Definition grow (t : table) : outcome unit := rehash_with t (Z.max 4 (2 *s bucket_count t)).

Definition emplace_new_key (t : table) (kv : K * V) (distance it : Z) : outcome (Z * bool) :=
  if (num_slots_minus_one t =? 0) || (distance =? max_lookups t) || (num_slots_minus_one t + 1 <? 2 * (num_elements t + 1)) then
    bind (grow t) (fun t' _ => emplace_again t' kv)
  else
    match zget (entries t) it with
    | None => Stuck
    | Some e =>
        let es := zput (entries t) it (Entry distance (Some kv)) in
        if is_empty e then Ok (set_num (num_elements t +s 1) (set_entries es t)) (it, true) else
        match value e with
        | None => Stuck
        | Some old =>
            match displace (length es) es (max_lookups t) it old (distance_from_desired e + 1) (it + 1) with
            | None => Stuck
            | Some (es', None) => Ok (set_num (num_elements t +s 1) (set_entries es' t)) (it, true)
            | Some (es', Some kv') => bind (grow (set_entries es' t)) (fun t' _ => emplace_again t' kv')
            end
        end
    end.
End Growth.

(** [emplace]; every level of the recursion has a larger array. *)
Fixpoint emplace_fuel (fuel : nat) (t : table) (kv : K * V) : outcome (Z * bool) :=
  match fuel with
  | O => Stuck
  | S fuel =>
      match probe_key t kv.1 with
      | None => Stuck
      | Some (it, _, true) => Ok t (it, false)
      | Some (it, distance, false) => emplace_new_key (emplace_fuel fuel) t kv distance it
      end
  end.

Definition emplace (t : table) (kv : K * V) : outcome (Z * bool) := emplace_fuel 64 t kv.

Definition rehash (t : table) (num_buckets : Z) : outcome unit := rehash_with emplace t num_buckets.

Definition num_buckets_for_reserve (n : Z) : Z := 2 * n.

Definition reserve (t : table) (n : Z) : outcome unit :=
  if bucket_count t <? num_buckets_for_reserve n then rehash t (num_buckets_for_reserve n) else Ok t tt.

Definition rehash_for_other_container (t other : table) : outcome unit :=
  rehash t (Z.min (num_buckets_for_reserve (num_elements other)) (bucket_count other)).

Definition shrink_to_fit (t : table) : outcome unit := rehash_for_other_container t t.

(** The loop of [erase(iterator)], which moves the values behind the slot back by one. *)
Fixpoint shift_back (fuel : nat) (es : list entry) (current : Z) : option (list entry) :=
  match fuel with
  | O => None
  | S fuel =>
      match zget es (current + 1) with
      | None => None
      | Some e =>
          if is_at_desired_position e then Some es else
          match value e with
          | None => None
          | Some kv => shift_back fuel (zput (zput es current (Entry (distance_from_desired e - 1) (Some kv))) (current + 1) vacant) (current + 1)
          end
      end
  end.

Definition erase_at (t : table) (it : Z) : option table :=
  match zget (entries t) it with
  | Some (Entry _ (Some _)) =>
      match shift_back (length (entries t)) (zput (entries t) it vacant) it with
      | Some es => Some (set_num (num_elements t -s 1) (set_entries es t))
      | None => None
      end
  | _ => None
  end.

(** [erase(key)]. *)
Definition erase (t : table) (k : K) : outcome Z :=
  match find t k with
  | None => Stuck
  | Some it => if it =? end_ t then Ok t 0 else match erase_at t it with Some t' => Ok t' 1 | None => Stuck end
  end.

Definition clear (t : table) : table :=
  set_num 0 (set_entries (map (fun e => if has_value e then vacant else e) (zslice (entries t) 0 (end_ t)) ++ zslice (entries t) (end_ t) 1) t).

(** [begin] and [++]: the first slot from [it] on that counts as having a value. *)
Fixpoint advance (fuel : nat) (es : list entry) (it : Z) : option Z :=
  match fuel with
  | O => None
  | S fuel => match zget es it with None => None | Some e => if has_value e then Some it else advance fuel es (it + 1) end
  end.

Definition begin (t : table) : option Z := advance (length (entries t)) (entries t) 0.

(** [for (auto &v : table)]. *)
Fixpoint iterate_from (fuel : nat) (t : table) (it : Z) : option (list (K * V)) :=
  match fuel with
  | O => None
  | S fuel =>
      if it =? end_ t then Some [] else
      match zget (entries t) it with
      | Some (Entry _ (Some kv)) =>
          match advance (length (entries t)) (entries t) (it + 1) with
          | Some it' => (fun l => kv :: l) <$> iterate_from fuel t it'
          | None => None
          end
      | _ => None
      end
  end.

Definition iterate (t : table) : option (list (K * V)) :=
  match begin t with Some it => iterate_from (S (length (entries t))) t it | None => None end.

(** [insert(first, last)], and with it the copy constructor. *)
Fixpoint insert_all (t : table) (l : list (K * V)) : outcome unit :=
  match l with [] => Ok t tt | kv :: l => bind (emplace t kv) (fun t' _ => insert_all t' l) end.

Definition copy (other : table) : outcome unit :=
  bind (rehash_for_other_container new_table other)
    (fun t _ => match iterate other with Some l => insert_all t l | None => Stuck end).

(** ** flat_hash_map *)

Definition value_at (t : table) (it : Z) : option (K * V) := match zget (entries t) it with Some e => value e | None => None end.

(** [at]: [None] where it throws [std::out_of_range]. *)
Definition at_ (t : table) (k : K) : outcome (option V) :=
  match find t k with
  | None => Stuck
  | Some it => if it =? end_ t then Ok t None else match value_at t it with Some kv => Ok t (Some kv.2) | None => Stuck end
  end.

Definition assign (t : table) (it : Z) (v : V) : outcome unit :=
  match zget (entries t) it with
  | Some (Entry d (Some kv)) => Ok (set_entries (zput (entries t) it (Entry d (Some (kv.1, v)))) t) tt
  | _ => Stuck
  end.

Definition insert_or_assign (t : table) (k : K) (v : V) : outcome (Z * bool) :=
  bind (emplace t (k, v)) (fun t' r => if (r.2 : bool) then Ok t' r else bind (assign t' r.1 v) (fun t'' _ => Ok t'' r)).

Definition try_emplace (t : table) (k : K) (v : V) : outcome (Z * bool) :=
  match find t k with
  | None => Stuck
  | Some it => if it =? end_ t then emplace t (k, v) else Ok t (it, false)
  end.

(** [operator==], with the comparison of the values. *)
Definition eq_maps (veq : V -> V -> bool) (lhs rhs : table) : option bool :=
  if num_elements lhs =? num_elements rhs then
    match iterate lhs with
    | None => None
    | Some l =>
        fold_left (fun r kv => match r with
          | Some true =>
              match find rhs kv.1 with
              | None => None
              | Some it => if it =? end_ rhs then Some false else match value_at rhs it with Some kv' => Some (veq kv.2 kv'.2) | None => None end
              end
          | r => r end) l (Some true)
    end
  else Some false.
End FlatMap.
