(* ===== verification/FlatMapSlots.v ===== *)
(** * The slots of the flat hash map: vendor/ska_hash/flat_hash_map.hpp

    The Robin Hood invariant of the array of entries, and what the loops over it do: probing,
    displacing and shifting back. *)

From S2P Require Import Prelude HashPolicy FlatMap.

Abbreviation dist := distance_from_desired.

Section Slots.
Context {K V : Type} `{EqDecision K}.
Implicit Types (es : list (entry (K := K) (V := V))) (e : entry (K := K) (V := V)) (kv : K * V).

(** ** The values in an array *)

Definition contents es : list (K * V) := omap value es.

Lemma contents_app es es' : contents (es ++ es') = contents es ++ contents es'.
Proof. apply omap_app. Qed.

Lemma elem_of_contents es kv : kv ∈ contents es <-> exists i e, zget es i = Some e /\ value e = Some kv.
Proof.
  unfold contents. rewrite list_elem_of_omap. split.
  - intros (e & [j Hj]%list_elem_of_lookup & He). exists (Z.of_nat j), e. split; [|done]. unfold zget. zcase; [lia|]. by rewrite Nat2Z.id.
  - intros (i & e & Hi & He). exists e. split; [|done]. unfold zget in Hi. destruct (i <? 0); [done|]. by eapply list_elem_of_lookup_2.
Qed.

Lemma zput_split es i e e' : zget es i = Some e ->
  exists l r, es = l ++ e :: r /\ zput es i e' = l ++ e' :: r.
Proof.
  unfold zget, zput. destruct (i <? 0); [done|]. intros H. exists (take (Z.to_nat i) es), (drop (S (Z.to_nat i)) es).
  split; [by rewrite take_drop_middle|]. apply insert_take_drop. by eapply lookup_lt_Some.
Qed.

(** Replacing an entry exchanges its value. *)
Lemma contents_put es i e e' : zget es i = Some e ->
  option_list (value e) ++ contents (zput es i e') ≡ₚ option_list (value e') ++ contents es.
Proof.
  intros (l & r & -> & ->)%(zput_split _ _ _ e'). rewrite !contents_app. unfold contents at 2 4. simpl.
  destruct (value e), (value e'); simpl; solve_Permutation.
Qed.

(** A run of [c] entries with values is a lower bound of the number of values. *)
Lemma contents_run es a c : 0 <= a -> 0 <= c ->
  (forall j, 0 <= j < c -> exists e, zget es (a + j) = Some e /\ is_Some (value e)) -> c <= zlen (contents es).
Proof.
  intros Ha Hc H. destruct (Z.eq_dec c 0) as [->|Hne]; [done|]. assert (es = zslice es 0 a ++ zslice es a c ++ drop (Z.to_nat (a + c)) es) as E.
  { unfold zslice. rewrite drop_0, Z2Nat.inj_add by done. rewrite <- drop_drop, take_drop, take_drop. done. }
  assert (zlen (contents (zslice es a c)) = c) as Hl; [|rewrite E, !contents_app, !zlen_app, Hl; pose proof (zlen_nonneg (contents (zslice es 0 a)));
    pose proof (zlen_nonneg (contents (drop (Z.to_nat (a + c)) es))); lia].
  assert (forall l : list entry, (forall e, e ∈ l -> is_Some (value e)) -> length (contents l) = length l) as Hall.
  { induction l as [|e l IH]; intros Hl; [done|]. unfold contents. simpl. destruct (Hl e) as [kv ->]; [by left|]. simpl. f_equal. apply IH.
    intros e' He'. apply Hl. by right. }
  assert (zlen (zslice es a c) = c) as Hs.
  { apply zlen_slice; [done..|]. destruct (H (c - 1)) as (e & He & _); [lia|]. apply zget_Some_range in He. lia. }
  unfold zlen in *. rewrite Hall; [done|]. intros e [j Hj]%list_elem_of_lookup.
  destruct (H (Z.of_nat j)) as (e' & He' & Hv); [apply lookup_lt_Some in Hj; lia|].
  unfold zslice in Hj. rewrite lookup_take_lt, lookup_drop in Hj by (apply lookup_lt_Some in Hj; rewrite length_take in Hj; lia).
  unfold zget in He'. destruct (Z.ltb_spec (a + Z.of_nat j) 0); [lia|].
  replace (Z.to_nat (a + Z.of_nat j)) with (Z.to_nat a + j)%nat in He' by lia. congruence.
Qed.

(** ** The Robin Hood invariant *)

(** Slots [0, n) are vacant or hold a value at less than [ml] slots behind the desired one; a value
    that is not at its desired slot has a neighbour that is at most one nearer to its own. *)
Record placed (home : K -> Z) (n ml : Z) es : Prop := Placed {
  pl_len : zlen es = n + 1;
  pl_end : zget es n = Some special_end;
  pl_slot : forall i e, zget es i = Some e -> i < n ->
    e = vacant \/ exists d kv, e = Entry d (Some kv) /\ 0 <= d < ml /\ home kv.1 + d = i;
  pl_run : forall i e, zget es i = Some e -> i < n -> 0 < dist e -> exists e', zget es (i - 1) = Some e' /\ dist e - 1 <= dist e'
}.

Context (home : K -> Z) (n ml : Z).
Hypothesis home_range : forall k, 0 <= home k <= n - ml.
Hypothesis ml_pos : 0 < ml.

(** A slot where a value at distance [d] may be put without breaking a run. *)
Definition reached es (it d : Z) : Prop := d = 0 \/ exists e, zget es (it - 1) = Some e /\ d - 1 <= dist e.

Lemma run_back es i e (c : nat) : placed home n ml es -> zget es i = Some e -> i < n -> Z.of_nat c <= dist e ->
  exists e', zget es (i - Z.of_nat c) = Some e' /\ dist e - Z.of_nat c <= dist e'.
Proof.
  intros Hp Hi Hn. induction c as [|c IH]; intros Hc.
  - exists e. rewrite Z.sub_0_r. split; [done|lia].
  - destruct IH as (e' & He' & Hd); [lia|]. destruct (pl_run _ _ _ _ Hp _ _ He') as (e'' & He'' & Hd''); [lia..|].
    exists e''. split; [|lia]. rewrite <- He''. f_equal. lia.
Qed.

(** Behind a reached slot there are as many values as the distance says. *)
Lemma reached_run es it d j : placed home n ml es -> reached es it d -> it <= n -> 1 <= j <= d ->
  exists e, zget es (it - j) = Some e /\ d - j <= dist e.
Proof.
  intros Hp [-> |(e & He & Hd)] Hn Hj; [lia|]. destruct (run_back es (it - 1) e (Z.to_nat (j - 1)) Hp He) as (e' & He' & Hd'); [lia..|].
  exists e'. split; [|lia]. rewrite <- He'. f_equal. lia.
Qed.

Lemma placed_value es i e : placed home n ml es -> zget es i = Some e -> i < n -> 0 <= dist e -> is_Some (value e).
Proof. intros Hp Hi Hn Hd. destruct (pl_slot _ _ _ _ Hp _ _ Hi Hn) as [-> |(d & kv & -> & _)]; [done|by eexists]. Qed.

Lemma reached_count es it d : placed home n ml es -> reached es it d -> 0 <= d -> it <= n -> 0 <= it - d -> d <= zlen (contents es).
Proof.
  intros Hp Hr Hd Hn H0. apply (contents_run es (it - d)); [lia..|]. intros j Hj.
  destruct (reached_run es it d (d - j) Hp Hr) as (e & He & Hde); [lia..|]. exists e.
  replace (it - (d - j)) with (it - d + j) in He by lia. split; [done|]. eapply placed_value; [done..| |]; lia.
Qed.

Lemma placed_put es it e d kv : placed home n ml es -> zget es it = Some e -> it < n -> dist e <= d -> 0 <= d < ml ->
  home kv.1 + d = it -> reached es it d -> placed home n ml (zput es it (Entry d (Some kv))).
Proof.
  intros [Hlen Hend Hslot Hrun] He Hit Hde Hd Hh Hr. pose proof (zget_Some_range _ _ _ He) as Hrg.
  split; [by rewrite zlen_put|by rewrite zget_put_ne by lia| |]; intros i e' Hi Hin; rewrite zget_put in Hi by done.
  - destruct (Z.eqb_spec i it) as [-> |]; [|by apply Hslot]. injection Hi as <-. right. by exists d, kv.
  - intros Hd'. rewrite zget_put by done. destruct (Z.eqb_spec i it) as [-> |Hne].
    + injection Hi as <-. simpl in *. destruct (Z.eqb_spec (it - 1) it); [lia|]. destruct Hr as [-> |]; [lia|done].
    + destruct (Hrun i e' Hi Hin Hd') as (e'' & He'' & Hd''). destruct (Z.eqb_spec (i - 1) it) as [E1|]; [|by exists e''].
      exists (Entry d (Some kv)). split; [done|]. simpl. rewrite E1 in He''. assert (e'' = e) as -> by congruence. lia.
Qed.

(** ** Probing *)

Lemma probe_ok k es (fuel : nat) : placed home n ml es -> forall d, 0 <= d <= ml -> n + 1 <= home k + d + Z.of_nat fuel ->
  reached es (home k + d) d -> (forall j e kv, 0 <= j < d -> zget es (home k + j) = Some e -> value e = Some kv -> kv.1 <> k) ->
  exists it d' b, probe fuel k es (home k + d) d = Some (it, d', b) /\ home k + d' = it /\ 0 <= d' <= ml /\
    if b then exists v, zget es it = Some (Entry d' (Some (k, v)))
    else reached es it d' /\ (exists e, zget es it = Some e /\ dist e < d') /\ forall v, (k, v) ∉ contents es.
Proof.
  intros Hp. induction fuel as [|fuel IH]; intros d Hd Hf Hr Hno; [pose proof (home_range k); lia|].
  pose proof (home_range k) as Hh. destruct (zget_in_range es (home k + d)) as [e He]; [rewrite (pl_len _ _ _ _ Hp); lia|].
  simpl. rewrite He. destruct (Z.ltb_spec (dist e) d) as [Hlt|Hge].
  - exists (home k + d), d, false. split; [done|]. split; [done|]. split; [done|]. split; [done|]. split; [by exists e|].
    intros v (i & e' & Hi & Hv)%elem_of_contents.
    assert (i < n) as Hin.
    { pose proof (zget_Some_range _ _ _ Hi) as Hrg. rewrite (pl_len _ _ _ _ Hp) in Hrg. destruct (Z.eq_dec i n) as [-> |]; [|lia].
      rewrite (pl_end _ _ _ _ Hp) in Hi. by injection Hi as <-. }
    destruct (pl_slot _ _ _ _ Hp _ _ Hi Hin) as [-> |(d0 & kv & -> & Hd0 & Hh0)]; [done|]. simpl in Hv. injection Hv as ->. simpl in Hh0.
    destruct (Z.lt_ge_cases d0 d).
    + apply (Hno d0 (Entry d0 (Some (k, v))) (k, v)); [lia|by rewrite Hh0|done|done].
    + destruct (run_back es i _ (Z.to_nat (d0 - d)) Hp Hi Hin) as (e' & He' & Hde'); [simpl; lia|]. simpl in Hde'.
      replace (i - Z.of_nat (Z.to_nat (d0 - d))) with (home k + d) in He' by lia. assert (e' = e) as -> by congruence. lia.
  - assert (d < ml) as Hdm.
    { destruct (Z.eq_dec d ml) as [-> |]; [|lia]. exfalso.
      destruct (Z.eq_dec (home k + ml) n) as [E1|]; [rewrite E1, (pl_end _ _ _ _ Hp) in He; injection He as <-; simpl in Hge; lia|].
      destruct (pl_slot _ _ _ _ Hp _ _ He) as [-> |(d0 & kv & -> & Hd0 & _)]; simpl in *; lia. }
    destruct (pl_slot _ _ _ _ Hp _ _ He) as [-> |(d0 & kv & -> & Hd0 & Hh0)]; [lia|simpl in Hge; lia|]. simpl in Hge. simpl.
    destruct (decide (k = kv.1)) as [Ek|Ek].
    + exists (home k + d), d, true. split; [done|]. split; [done|]. split; [done|]. destruct kv as [k' v]; simpl in *. subst k'.
      exists v. rewrite He. do 2 f_equal. lia.
    + replace (home k + d + 1) with (home k + (d + 1)) by lia. apply IH; [lia|lia| |].
      * right. exists (Entry d0 (Some kv)). replace (home k + (d + 1) - 1) with (home k + d) by lia. split; [done|simpl; lia].
      * intros j e' kv' Hj He' Hv'. destruct (Z.eq_dec j d) as [-> |]; [|apply (Hno j e' kv'); [lia|done..]].
        assert (e' = Entry d0 (Some kv)) as -> by congruence. injection Hv' as <-. congruence.
Qed.

(** ** Displacing *)

(** What a growing table relies on: the values can be told from the vacant slots. *)
Definition tidy es : Prop := zlen es = n + 1 /\ zget es n = Some special_end /\
  forall i e, zget es i = Some e -> i < n -> e = vacant \/ exists d kv, e = Entry d (Some kv) /\ 0 <= d.

Lemma placed_tidy es : placed home n ml es -> tidy es.
Proof.
  intros [H1 H2 H3 _]. split; [done|]. split; [done|]. intros i e Hi Hin.
  destruct (H3 i e Hi Hin) as [-> |(d & kv & -> & Hd & _)]; [by left|]. right. exists d, kv. split; [done|lia].
Qed.

Lemma tidy_put es i d kv : tidy es -> 0 <= i < n -> 0 <= d -> tidy (zput es i (Entry d (Some kv))).
Proof.
  intros (H1 & H2 & H3) Hi Hd. split; [by rewrite zlen_put|]. split; [by rewrite zget_put_ne by lia|].
  intros j e Hj Hjn. rewrite zget_put in Hj by lia. destruct (Z.eqb_spec j i); [|by apply (H3 j)].
  injection Hj as <-. right. by exists d, kv.
Qed.

Lemma displace_ok (fuel : nat) result kv0 dr : forall es kv d it,
  placed home n ml es -> home kv.1 + d = it -> 0 <= d < ml -> reached es it d -> 0 <= result < it -> 0 <= dr ->
  zget es result = Some (Entry dr (Some kv0)) -> n <= it + Z.of_nat fuel ->
  exists es' r, displace fuel es ml result kv d it = Some (es', r) /\
    match r with
    | None => placed home n ml es' /\ contents es' ≡ₚ kv :: contents es /\ zget es' result = zget es result
    | Some kv' => kv' = kv0 /\ tidy es' /\ kv0 :: contents es' ≡ₚ kv :: contents es /\ ml <= zlen (contents es)
    end.
Proof.
  induction fuel as [|fuel IH]; intros es kv d it Hp Hh Hd Hr Hres Hdr Hget Hf; [pose proof (home_range kv.1); lia|].
  pose proof (home_range kv.1) as Hhr. assert (it < n) as Hit by lia.
  destruct (zget_in_range es it) as [e He]; [rewrite (pl_len _ _ _ _ Hp); lia|]. simpl. rewrite He. unfold is_empty.
  destruct (pl_slot _ _ _ _ Hp _ _ He Hit) as [-> |(de & kve & -> & Hde & Hhe)]; simpl.
  - eexists _, None. split; [done|]. pose proof (contents_put es it _ (Entry d (Some kv)) He) as Hc. simpl in Hc.
    split; [eapply placed_put; [done|done|done|simpl; lia|done..]|]. split; [done|]. apply zget_put_ne. lia.
  - destruct (Z.ltb_spec de 0); [lia|]. destruct (Z.ltb_spec de d) as [Hlt|Hge].
    + assert (placed home n ml (zput es it (Entry d (Some kv)))) as Hp1 by (eapply placed_put; [done|done|done|simpl; lia|done..]).
      pose proof (contents_put es it _ (Entry d (Some kv)) He) as Hc. simpl in Hc.
      destruct (IH (zput es it (Entry d (Some kv))) kve (de + 1) (it + 1)) as (es' & r & E & Hpost); try done; try lia.
      * right. exists (Entry d (Some kv)). replace (it + 1 - 1) with it by lia. rewrite zget_put_eq by (rewrite (pl_len _ _ _ _ Hp); lia).
        split; [done|simpl; lia].
      * by rewrite zget_put_ne by lia.
      * exists es', r. split; [done|]. destruct r as [kv'|].
        -- destruct Hpost as (-> & Ht & Hc' & Hl). split; [done|]. split; [done|]. split; [by rewrite Hc'|].
           apply Permutation_length in Hc. simpl in Hc. unfold zlen in *. lia.
        -- destruct Hpost as (Hp' & Hc' & Hg). split; [done|]. split; [by rewrite Hc'|]. rewrite Hg. apply zget_put_ne. lia.
    + assert (reached es (it + 1) (d + 1)) as Hr1.
      { right. exists (Entry de (Some kve)). replace (it + 1 - 1) with it by lia. split; [done|simpl; lia]. }
      destruct (Z.eqb_spec (d + 1) ml) as [Eml|Hne].
      * rewrite Hget. eexists _, (Some kv0). split; [done|]. split; [done|]. split; [apply tidy_put; [by apply placed_tidy|lia|done]|].
        pose proof (contents_put es result _ (Entry dr (Some kv)) Hget) as Hc. split; [done|]. rewrite <- Eml.
        eapply reached_count; [done|done|lia..].
      * apply IH; try done; lia.
Qed.

(** ** Shifting back *)

(** The array while [current] is the hole: the run behind it may have lost its neighbour. *)
Record holed es (current : Z) : Prop := Holed {
  ho_len : zlen es = n + 1;
  ho_end : zget es n = Some special_end;
  ho_hole : zget es current = Some vacant;
  ho_slot : forall i e, zget es i = Some e -> i < n -> e = vacant \/ exists d kv, e = Entry d (Some kv) /\ 0 <= d < ml /\ home kv.1 + d = i;
  ho_run : forall i e, zget es i = Some e -> i < n -> 0 < dist e -> i <> current + 1 -> exists e', zget es (i - 1) = Some e' /\ dist e - 1 <= dist e';
  ho_next : forall e, zget es (current + 1) = Some e -> current + 1 < n -> 1 < dist e -> exists e', zget es (current - 1) = Some e' /\ dist e - 2 <= dist e'
}.

Lemma vacate_holed es it d kv : placed home n ml es -> zget es it = Some (Entry d (Some kv)) -> it < n -> holed (zput es it vacant) it.
Proof.
  intros Hp Hit Hn. pose proof (zget_Some_range _ _ _ Hit) as Hrg. destruct Hp as [H1 H2 H3 H4]. split.
  - by rewrite zlen_put.
  - by rewrite zget_put_ne by lia.
  - by rewrite zget_put_eq.
  - intros i e Hi Hin. rewrite zget_put in Hi by done. destruct (Z.eqb_spec i it); [left; congruence|by apply H3].
  - intros i e Hi Hin Hd Hne. rewrite zget_put in Hi by done. destruct (Z.eqb_spec i it); [injection Hi as <-; simpl in Hd; lia|].
    rewrite zget_put_ne by lia. by apply H4.
  - intros e Hi Hin Hd. rewrite zget_put_ne in Hi by lia. destruct (H4 _ _ Hi Hin) as (e' & He' & Hd'); [lia|].
    replace (it + 1 - 1) with it in He' by lia. assert (e' = Entry d (Some kv)) as -> by congruence. simpl in Hd'.
    destruct (H4 _ _ Hit Hn) as (e'' & He'' & Hd''); [simpl; lia|]. simpl in Hd''. rewrite zget_put_ne by lia. exists e''. split; [done|lia].
Qed.

Lemma holed_placed es current : holed es current -> (forall e, zget es (current + 1) = Some e -> dist e <= 0) -> placed home n ml es.
Proof.
  intros [H1 H2 H3 H4 H5 H6] Hstop. split; [done..|]. intros i e Hi Hin Hd. apply H5; try done. intros ->. specialize (Hstop e Hi). lia.
Qed.

(** The value behind the hole moves into it. *)
Lemma holed_step es current d kv : holed es current -> 0 <= current -> current + 1 < n -> 0 < d -> zget es (current + 1) = Some (Entry d (Some kv)) ->
  holed (zput (zput es current (Entry (d - 1) (Some kv))) (current + 1) vacant) (current + 1).
Proof.
  intros [H1 H2 H3 H4 H5 H6] H0 Hn Hd Hnext.
  assert (0 <= current < zlen es) as Hr1 by lia. assert (0 <= current + 1 < zlen (zput es current (Entry (d - 1) (Some kv)))) as Hr2 by (rewrite zlen_put; lia).
  assert (forall i, i <> current -> i <> current + 1 -> zget (zput (zput es current (Entry (d - 1) (Some kv))) (current + 1) vacant) i = zget es i) as Hother
    by (intros i ? ?; by rewrite !zget_put_ne by lia).
  assert (zget (zput (zput es current (Entry (d - 1) (Some kv))) (current + 1) vacant) current = Some (Entry (d - 1) (Some kv))) as Hcur
    by (rewrite zget_put_ne by lia; by apply zget_put_eq).
  destruct (H4 _ _ Hnext Hn) as [? |(d' & kv' & [= <- <-] & Hd' & Hh')]; [done|]. split.
  - by rewrite !zlen_put.
  - by rewrite Hother by lia.
  - by apply zget_put_eq.
  - intros i e Hi Hin. destruct (Z.eq_dec i (current + 1)) as [-> |]; [rewrite zget_put_eq in Hi by done; left; congruence|].
    destruct (Z.eq_dec i current) as [-> |]; [|rewrite Hother in Hi by done; by apply H4]. rewrite Hcur in Hi. injection Hi as <-. right.
    exists (d - 1), kv. split; [done|]. lia.
  - intros i e Hi Hin Hde Hne. destruct (Z.eq_dec i (current + 1)) as [-> |]; [rewrite zget_put_eq in Hi by done; injection Hi as <-; simpl in Hde; lia|].
    destruct (Z.eq_dec i current) as [-> |].
    + rewrite Hcur in Hi. injection Hi as <-. simpl in *. destruct (H6 _ Hnext Hn) as (e' & He' & Hd2); [simpl; lia|]. simpl in Hd2.
      exists e'. rewrite Hother by lia. split; [done|lia].
    + rewrite Hother in Hi by done. rewrite Hother by lia. by apply H5.
  - intros e Hi Hin Hde. rewrite Hother in Hi by lia. destruct (H5 _ _ Hi Hin) as (e' & He' & Hd2); [lia..|].
    replace (current + 1 + 1 - 1) with (current + 1) in He' by lia. assert (e' = Entry d (Some kv)) as -> by congruence. simpl in Hd2.
    replace (current + 1 - 1) with current by lia. rewrite Hcur. eexists. split; [done|]. simpl. lia.
Qed.

Lemma shift_back_ok (fuel : nat) : forall es current, holed es current -> 0 <= current < n -> n <= current + Z.of_nat fuel ->
  exists es', shift_back fuel es current = Some es' /\ placed home n ml es' /\ contents es' ≡ₚ contents es.
Proof.
  induction fuel as [|fuel IH]; intros es current Hh Hc Hf; [lia|].
  destruct (zget_in_range es (current + 1)) as [e He]; [rewrite (ho_len _ _ Hh); lia|]. simpl. rewrite He. unfold is_at_desired_position.
  destruct (Z.leb_spec (dist e) 0) as [Hle|Hgt].
  - exists es. split; [done|]. split; [|done]. eapply holed_placed; [done|]. intros e' He'. congruence.
  - assert (current + 1 < n) as Hn.
    { destruct (Z.eq_dec (current + 1) n) as [E1|]; [|lia]. rewrite E1, (ho_end _ _ Hh) in He. injection He as <-. simpl in Hgt. lia. }
    destruct (ho_slot _ _ Hh _ _ He Hn) as [-> |(d & kv & -> & Hd & _)]; [simpl in Hgt; lia|]. simpl in *.
    destruct (IH _ _ (holed_step es current d kv Hh ltac:(lia) Hn Hgt He)) as (es' & E & Hp & Hcon); [lia..|].
    exists es'. split; [done|]. split; [done|]. rewrite Hcon.
    pose proof (contents_put es current _ (Entry (d - 1) (Some kv)) (ho_hole _ _ Hh)) as H1. simpl in H1.
    pose proof (contents_put (zput es current (Entry (d - 1) (Some kv))) (current + 1) (Entry d (Some kv)) vacant) as H2. simpl in H2.
    rewrite zget_put_ne in H2 by lia. specialize (H2 He). rewrite H1 in H2. by apply Permutation_cons_inv in H2.
Qed.

(** ** The array of a new table, and iteration *)

Lemma contents_repeat (c : Z) : contents (zrepeat vacant c) = [].
Proof. unfold contents, zrepeat. by induction (Z.to_nat c). Qed.

Lemma new_entries_placed nb : nb + ml - 1 = n -> 0 <= n -> placed home n ml (new_entries nb ml) /\ contents (new_entries nb ml) = [].
Proof.
  clear home_range ml_pos. intros <- Hn. unfold new_entries. split; [|by rewrite contents_app, contents_repeat].
  assert (zlen (zrepeat (@vacant K V) (nb + ml - 1)) = nb + ml - 1) as Hl by (by apply zlen_repeat).
  assert (forall i e, zget (zrepeat vacant (nb + ml - 1) ++ [special_end]) i = Some e -> i < nb + ml - 1 -> e = @vacant K V) as Hv.
  { intros i e Hi Hin. rewrite zget_app, Hl in Hi. destruct (Z.ltb_spec i (nb + ml - 1)); [|lia]. rewrite zget_repeat in Hi.
    destruct ((0 <=? i) && (i <? nb + ml - 1)); congruence. }
  split.
  - by rewrite zlen_app, Hl, zlen_one.
  - rewrite zget_app, Hl. destruct (Z.ltb_spec (nb + ml - 1) (nb + ml - 1)); [lia|]. by rewrite Z.sub_diag.
  - intros i e Hi Hin. left. by eapply Hv.
  - intros i e Hi Hin Hd. rewrite (Hv i e Hi Hin) in Hd. simpl in Hd. lia.
Qed.

(** The slots before the end hold all values. *)
Lemma tidy_contents es : 0 <= n -> tidy es -> contents (zslice es 0 n) = contents es.
Proof.
  intros H0 (H1 & H2 & _). rewrite <- (zslice_all es) at 2. rewrite H1. rewrite (zslice_app es 0 n 1) by lia. rewrite contents_app.
  assert (zslice es (0 + n) 1 = [special_end]) as ->; [|by rewrite app_nil_r]. rewrite Z.add_0_l. apply zlist_eq_len; [rewrite zlen_slice by lia; done|].
  intros i Hi. rewrite zlen_slice in Hi by lia. rewrite zget_slice_in by lia. assert (i = 0) as -> by lia. by rewrite Z.add_0_r.
Qed.

Lemma zslice_cons {A} (l : list A) (i c : Z) x : 0 < c -> zget l i = Some x -> zslice l i c = x :: zslice l (i + 1) (c - 1).
Proof.
  intros Hc Hi. unfold zget in Hi. destruct (Z.ltb_spec i 0); [done|]. unfold zslice. rewrite (drop_S _ _ _ Hi).
  replace (Z.to_nat c) with (S (Z.to_nat (c - 1))) by lia. replace (Z.to_nat (i + 1)) with (S (Z.to_nat i)) by lia. done.
Qed.

Lemma advance_ok (fuel : nat) : forall es it, tidy es -> 0 <= it <= n -> n < it + Z.of_nat fuel ->
  exists it', advance fuel es it = Some it' /\ it <= it' <= n /\ (it' < n -> exists d kv, zget es it' = Some (Entry d (Some kv))) /\
    contents (zslice es it (n - it)) = contents (zslice es it' (n - it')).
Proof.
  induction fuel as [|fuel IH]; intros es it Ht Hit Hf; [lia|]. pose proof Ht as (H1 & H2 & H3).
  destruct (zget_in_range es it) as [e He]; [lia|]. simpl. rewrite He. destruct (Z.eq_dec it n) as [-> |Hne].
  - rewrite H2 in He. injection He as <-. exists n. split; [done|]. split; [lia|]. split; [lia|done].
  - destruct (H3 it e He) as [-> |(d & kv & -> & Hd)]; [lia| |].
    + destruct (IH es (it + 1) Ht) as (it' & E & Hr & Hv & Hc); [lia..|]. exists it'. split; [done|]. split; [lia|]. split; [done|].
      rewrite (zslice_cons es it (n - it) _ ltac:(lia) He), <- Hc. replace (n - it - 1) with (n - (it + 1)) by lia. done.
    + unfold has_value. simpl. destruct (Z.leb_spec 0 d); [|lia]. exists it. split; [done|]. split; [lia|]. split; [by exists d, kv|done].
Qed.
End Slots.
