(* ===== verification/FlatMapProps.v ===== *)
(** * Properties of the flat hash map: vendor/ska_hash/flat_hash_map.hpp

    The table is a finite map: every operation does to the values in its slots what it says of the
    map, for any hash function and any allocator, and never accesses a slot or a value that is not
    there. *)

From S2P Require Import Prelude HashPolicy FlatMap FlatMapSlots.

Section Props.
Context {K V : Type} `{Countable K}.
Variable hash : K -> Z.
Variable alloc : Z -> bool.
(** No array is larger than the address space. *)
Hypothesis alloc_max : forall c, alloc c = true -> c < 2 ^ 62.

#[local] Abbreviation table := (@table K V).
#[local] Abbreviation outcome := (@outcome K V).
#[local] Abbreviation size_of m := (Z.of_nat (size m)).

(** ** Representation *)

(** A table with [2 ^ p] slots that holds the map [m]. *)
Record allocated (p : Z) (t : table) (m : gmap K V) : Prop := Allocated {
  al_p : 1 <= p <= 61;
  al_slots : num_slots_minus_one t = 2 ^ p - 1;
  al_shift : shift t = 64 - p;
  al_lookups : max_lookups t = Z.max 4 p;
  al_size : num_elements t = size_of m;
  al_load : 2 * size_of m <= 2 ^ p;
  al_placed : placed (bucket hash t) (end_ t) (max_lookups t) (entries t);
  al_contents : contents (entries t) ≡ₚ map_to_list m
}.

(** A table without slots shares the static default array, which is never written. *)
Definition rep (p : Z) (t : table) (m : gmap K V) : Prop := (p = 0 /\ t = new_table /\ m = ∅) \/ allocated p t m.

(** What is left of it when a value waits to be inserted and the table has to grow. *)
Record loose (p : Z) (t : table) (m : gmap K V) : Prop := Loose {
  lo_p : 0 <= p <= 61;
  lo_slots : num_slots_minus_one t = 2 ^ p - 1;
  lo_end : 0 <= end_ t;
  lo_size : num_elements t = size_of m;
  lo_load : 2 * size_of m <= 2 ^ p;
  lo_tidy : tidy (end_ t) (entries t);
  lo_contents : contents (entries t) ≡ₚ map_to_list m
}.

Lemma pow_range p : 1 <= p <= 61 -> 2 <= 2 ^ p < 2 ^ 62.
Proof. intros Hp. split; [change 2 with (2 ^ 1) at 1; apply Z.pow_le_mono_r; lia|apply Z.pow_lt_mono_r; lia]. Qed.

Lemma allocated_loose p t m : allocated p t m -> loose p t m.
Proof.
  intros [Hp Hs Hsh Hl Hn Hld Hpl Hc]. pose proof (pow_range p Hp). split; try done; [lia| |].
  - unfold end_. lia.
  - by eapply placed_tidy.
Qed.

Lemma new_table_loose : loose 0 new_table ∅.
Proof.
  split; simpl; try done. split; [done|]. split; [done|]. intros i e Hi Hn. left.
  pose proof (zget_Some_range _ _ _ Hi) as Hr. unfold end_ in Hn. simpl in Hn. assert (i = 0 \/ i = 1 \/ i = 2) as [-> |[-> | ->]] by lia;
    by injection Hi as <-.
Qed.

Lemma rep_loose p t m : rep p t m -> loose p t m.
Proof. intros [(-> & -> & ->)|Ha]; [apply new_table_loose|by apply allocated_loose]. Qed.

Lemma bucket_range p t m k : allocated p t m -> 0 <= bucket hash t k <= end_ t - max_lookups t.
Proof.
  intros [Hp Hs Hsh _ _ _ _ _]. unfold bucket, end_. rewrite Hsh, Hs. pose proof (index_for_hash_range p (hash k) ltac:(lia)). lia.
Qed.

Lemma lookups_pos p t m : allocated p t m -> 0 < max_lookups t.
Proof. intros Ha. rewrite (al_lookups _ _ _ Ha). lia. Qed.

Lemma contents_lookup es (m : gmap K V) k v : contents es ≡ₚ map_to_list m -> (k, v) ∈ contents es <-> m !! k = Some v.
Proof. intros ->. apply elem_of_map_to_list. Qed.

(** ** Lookup *)

Lemma probe_key_ok p t m k : rep p t m -> exists it d b, probe_key hash t k = Some (it, d, b) /\
  if b then exists v, m !! k = Some v /\ zget (entries t) it = Some (Entry d (Some (k, v))) /\ 0 <= it < end_ t /\ allocated p t m
  else m !! k = None /\ (p = 0 \/ (allocated p t m /\ bucket hash t k + d = it /\ 0 <= d <= max_lookups t /\ reached (entries t) it d /\
         exists e, zget (entries t) it = Some e /\ dist e < d)).
Proof.
  intros [(-> & -> & ->)|Ha].
  - exists (bucket hash (new_table : table) k), 0, false. split; [|split; [done|by left]]. unfold probe_key, bucket.
    pose proof (index_for_hash_range 1 (hash k) ltac:(lia)) as Hr. change (64 - 1) with 63 in Hr. change (shift (new_table : table)) with 63.
    assert (index_for_hash 63 (hash k) = 0 \/ index_for_hash 63 (hash k) = 1) as [-> | ->] by lia; done.
  - pose proof (bucket_range p t m k Ha) as Hb. pose proof (lookups_pos p t m Ha) as Hml. pose proof (al_placed _ _ _ Ha) as Hpl.
    destruct (probe_ok (bucket hash t) (end_ t) (max_lookups t) (fun k => bucket_range p t m k Ha) Hml k (entries t) (length (entries t)) Hpl 0)
      as (it & d & b & E & Hit & Hd & Hpost); [lia| | |lia|].
    + pose proof (pl_len _ _ _ _ Hpl). unfold zlen in *. lia.
    + by left.
    + rewrite Z.add_0_r in E. exists it, d, b. split; [done|]. destruct b.
      * destruct Hpost as [v Hv]. exists v. split; [|split; [done|]].
        -- apply (contents_lookup (entries t) m); [apply Ha|]. apply elem_of_contents. by exists it, (Entry d (Some (k, v))).
        -- split; [|done]. pose proof (zget_Some_range _ _ _ Hv) as Hr. rewrite (pl_len _ _ _ _ Hpl) in Hr.
           destruct (Z.eq_dec it (end_ t)) as [Eq|]; [|lia]. rewrite Eq, (pl_end _ _ _ _ Hpl) in Hv. done.
      * destruct Hpost as (Hr & He & Hno). split; [|right; done].
        destruct (m !! k) as [v|] eqn:Em; [|done]. destruct (Hno v). by apply (contents_lookup (entries t) m); [apply Ha|].
Qed.

(** [find] gives the slot of the key, or the end. *)
Lemma find_ok p t m k : rep p t m -> exists it, find hash t k = Some it /\
  match m !! k with
  | Some v => 0 <= it < end_ t /\ value_at t it = Some (k, v)
  | None => it = end_ t
  end.
Proof.
  intros Hr. destruct (probe_key_ok p t m k Hr) as (it & d & b & E & Hpost). unfold find. rewrite E. destruct b.
  - destruct Hpost as (v & -> & Hv & Hit & _). exists it. split; [done|]. split; [done|]. unfold value_at. by rewrite Hv.
  - destruct Hpost as (-> & _). by exists (end_ t).
Qed.

(** ** Growth *)

(** The size of the next array, and why [n] values may need it: for the load, or because a run of
    as many values as lookups are allowed. *)
Definition grown (p : Z) : Z := if p =? 0 then 2 else p + 1.

Definition needs (n q : Z) : Prop := q <= 2 \/ 2 ^ (q - 1) < 2 * n \/ q - 1 < n.

Definition refused (n c : Z) : Prop := alloc c = false /\ exists q, c = 2 ^ q + Z.max 4 q /\ needs n q.

Lemma refused_mono n n' c : n <= n' -> refused n c -> refused n' c.
Proof. intros Hn (Ha & q & Hc & Hq). split; [done|]. exists q. split; [done|]. unfold needs in *. lia. Qed.

(** What [emplace] of [k] and [v] is to do: nothing to a key that is there. *)
Definition emplaced (p : Z) (t : table) (m : gmap K V) (k : K) (v : V) (o : outcome (Z * bool)) : Prop :=
  match o with
  | Ok t' r =>
      (exists p', p <= p' /\ rep p' t' (<[k := default v (m !! k)]> m)) /\ value_at t' r.1 = Some (k, default v (m !! k)) /\
      r.2 = bool_decide (m !! k = None) /\ (is_Some (m !! k) -> t' = t)
  | BadAlloc _ c => refused (size_of m + 1) c
  | Stuck => False
  end.

Definition again_ok (p0 n : Z) (again : table -> K * V -> outcome (Z * bool)) : Prop :=
  forall p t m k v, rep p t m -> p0 <= p -> size_of m + 1 <= n -> emplaced p t m k v (again t (k, v)).

Definition live (e : @entry K V) : Prop := e = vacant \/ exists d kv, e = Entry d (Some kv) /\ 0 <= d.

(** The values of the old array end up in the new one. *)
Lemma move_all_ok p0 n again : again_ok p0 n again -> forall es p t m,
  rep p t m -> p0 <= p -> Forall live es -> NoDup (contents es).*1 -> (forall k, k ∈ (contents es).*1 -> m !! k = None) ->
  size_of m + zlen (contents es) <= n ->
  match move_all again es t with
  | Ok t' _ => exists p' m', p <= p' /\ rep p' t' m' /\ map_to_list m' ≡ₚ contents es ++ map_to_list m
  | BadAlloc _ c => refused n c
  | Stuck => False
  end.
Proof.
  intros Hag. induction es as [|e es IH]; intros p t m Hr Hp Hl Hnd Hnew Hn; simpl.
  - exists p, m. done.
  - apply Forall_cons in Hl as [He Hl]. destruct He as [-> |(d & [k v] & -> & Hd)]; [by apply IH|].
    unfold has_value. simpl. destruct (Z.leb_spec 0 d); [|lia].
    assert (contents (Entry d (Some (k, v)) :: es) = (k, v) :: contents es) as Ec by done. rewrite Ec in *.
    change (zlen ((k, v) :: contents es)) with (zlen ([(k, v)] ++ contents es)) in Hn. rewrite zlen_app, zlen_one in Hn.
    pose proof (zlen_nonneg (contents es)) as Hz. assert (m !! k = None) as Hk by (apply Hnew; by left).
    rewrite fmap_cons in Hnd, Hnew. simpl in Hnd, Hnew. apply NoDup_cons in Hnd as [Hnk Hnd].
    pose proof (Hag p t m k v Hr Hp ltac:(lia)) as He. unfold emplaced in He. rewrite Hk in He.
    destruct (again t (k, v)) as [t' r|t' c|]; simpl; [|eapply refused_mono; [|exact He]; lia|done].
    destruct He as ((p' & Hp' & Hr') & _). simpl in Hr'.
    specialize (IH p' t' (<[k := v]> m) Hr' ltac:(lia) Hl Hnd).
    destruct (move_all again es t') as [t'' x|t'' c|].
    + destruct IH as (p'' & m'' & Hp'' & Hr'' & Hm''); [| |].
      * intros k' Hk'. rewrite lookup_insert_ne by (intros ->; done). apply Hnew. by right.
      * rewrite map_size_insert_None by done. lia.
      * exists p'', m''. split; [lia|]. split; [done|]. rewrite Hm'', map_to_list_insert by done. by rewrite Permutation_middle.
    + apply IH; [|rewrite map_size_insert_None by done; lia]. intros k' Hk'. rewrite lookup_insert_ne by (intros ->; done). apply Hnew. by right.
    + apply IH; [|rewrite map_size_insert_None by done; lia]. intros k' Hk'. rewrite lookup_insert_ne by (intros ->; done). apply Hnew. by right.
Qed.

(** The new table of [rehash], before the values are moved. *)
Lemma fresh_table_rep p : 1 <= p <= 61 ->
  rep p (Table (new_entries (2 ^ p) (compute_max_lookups (2 ^ p))) (2 ^ p -s 1) (64 - p) (compute_max_lookups (2 ^ p)) 0) ∅.
Proof.
  intros Hp. right. pose proof (pow_range p Hp) as Hr. unfold compute_max_lookups. rewrite log2_spec, Z.log2_pow2 by lia. uwrap.
  destruct (new_entries_placed (V := V) (bucket hash (Table (new_entries (2 ^ p) (Z.max 4 p)) (2 ^ p - 1) (64 - p) (Z.max 4 p) 0 : table))
    (2 ^ p - 1 + Z.max 4 p) (Z.max 4 p) (2 ^ p)) as [Hpl Hc]; [lia..|].
  split; try done; simpl; rewrite ?map_size_empty, ?Hc, ?map_to_list_empty; try done; lia.
Qed.

Lemma tidy_live t n es : zlen es = n + 1 -> tidy (K := K) (V := V) n es -> t = zslice es 0 n -> Forall live t.
Proof.
  intros _ (H1 & H2 & H3) ->. apply Forall_forall. intros e He. apply list_elem_of_lookup in He as [j Hj].
  pose proof (lookup_lt_Some _ _ _ Hj) as Hlt. unfold zslice in Hj, Hlt. rewrite length_take in Hlt.
  rewrite lookup_take_lt, lookup_drop in Hj by lia. apply (H3 (Z.of_nat j)); [|lia]. unfold zget. destruct (Z.ltb_spec (Z.of_nat j) 0); [lia|].
  rewrite Nat2Z.id. by simpl in Hj.
Qed.

(** A new array of [2 ^ q] slots, filled from a table whose slots may be out of order. *)
Lemma refill_ok p q n again t (m : gmap K V) : loose p t m -> 1 <= q <= 61 -> again_ok q n again -> size_of m <= n ->
  match move_all again (zslice (entries t) 0 (end_ t))
          (Table (new_entries (2 ^ q) (compute_max_lookups (2 ^ q))) (2 ^ q -s 1) (64 - q) (compute_max_lookups (2 ^ q)) 0) with
  | Ok t' _ => exists p', q <= p' /\ rep p' t' m
  | BadAlloc _ c => refused n c
  | Stuck => False
  end.
Proof.
  intros [_ _ He Hs Hl Ht Hc] Hq Hag Hn. pose proof (tidy_contents (end_ t) (entries t) He Ht) as Ec.
  pose proof (move_all_ok q n again Hag (zslice (entries t) 0 (end_ t)) q _ ∅ (fresh_table_rep q Hq)) as Hmv.
  rewrite Ec in Hmv. specialize (Hmv ltac:(lia)). rewrite map_to_list_empty, app_nil_r, map_size_empty in Hmv.
  assert (zlen (contents (entries t)) = size_of m) as Hz.
  { unfold zlen. rewrite Hc. by rewrite length_map_to_list. }
  assert (NoDup (contents (entries t)).*1) as Hnd by (rewrite Hc; apply NoDup_fst_map_to_list).
  rewrite Hz in Hmv. specialize (Hmv (tidy_live _ _ _ (proj1 Ht) Ht eq_refl) Hnd ltac:(done) ltac:(lia)).
  destruct (move_all again _ _) as [t' x|t' c|]; [|done..]. destruct Hmv as (p' & m' & Hp' & Hr' & Hm'). exists p'. split; [done|].
  rewrite Hc in Hm'. by rewrite <- (map_to_list_inj m' m Hm').
Qed.

Lemma grown_range p : 0 <= p <= 61 -> p < grown p <= 62 /\ 2 <= grown p /\ 2 ^ p <= 2 ^ grown p.
Proof.
  intros Hp. unfold grown. destruct (Z.eqb_spec p 0) as [-> |]; [done|]. split; [lia|]. split; [lia|]. apply Z.pow_le_mono_r; lia.
Qed.

Lemma grow_size p (t : table) : 0 <= p <= 61 -> num_slots_minus_one t = 2 ^ p - 1 ->
  Z.max 4 (2 *s bucket_count t) = 2 ^ grown p /\ bucket_count t <> 2 ^ grown p.
Proof.
  intros Hp Hs. unfold bucket_count, grown. rewrite Hs. destruct (Z.eqb_spec p 0) as [-> |Hne]; [done|].
  pose proof (pow_range p ltac:(lia)) as Hr. destruct (Z.eqb_spec (2 ^ p - 1) 0); [lia|]. rewrite Z.pow_add_r by lia. uwrap. lia.
Qed.

Lemma grow_ok p n again t (m : gmap K V) : loose p t m -> again_ok (grown p) n again -> size_of m < n -> needs n (grown p) ->
  match grow alloc again t with
  | Ok t' _ => exists p', grown p <= p' /\ rep p' t' m
  | BadAlloc _ c => refused n c
  | Stuck => False
  end.
Proof.
  intros Hl Hag Hn Hneed. pose proof (lo_p _ _ _ Hl) as Hp. destruct (grown_range p Hp) as (Hg & Hg2 & Hg3).
  destruct (grow_size p t Hp (lo_slots _ _ _ Hl)) as [Esz Hne]. unfold grow, rehash_with. rewrite Esz, (lo_size _ _ _ Hl).
  pose proof (lo_load _ _ _ Hl) as Hld. rewrite Z.max_l by lia. assert (0 < 2 ^ grown p) by (apply Z.pow_pos_nonneg; lia).
  destruct (Z.eqb_spec (2 ^ grown p) 0); [lia|]. rewrite next_size_over_exact by lia.
  destruct (Z.eqb_spec (2 ^ grown p) (bucket_count t)); [congruence|].
  assert (compute_max_lookups (2 ^ grown p) = Z.max 4 (grown p)) as Ecm.
  { unfold compute_max_lookups. assert (2 ^ grown p <= 2 ^ 62) by (apply Z.pow_le_mono_r; lia). by rewrite log2_spec, Z.log2_pow2 by lia. }
  destruct (alloc (2 ^ grown p + compute_max_lookups (2 ^ grown p))) eqn:Ea.
  - apply alloc_max in Ea. apply (refill_ok p); [done| |done|lia]. split; [lia|]. destruct (Z.eq_dec (grown p) 62) as [E62|]; [|lia].
    rewrite Ecm, E62 in Ea. lia.
  - rewrite Ecm in Ea |- *. split; [done|]. by exists (grown p).
Qed.

(** Growing, then inserting. *)
Lemma grow_emplace p again t0 t m k v : loose p t0 m -> again_ok (grown p) (size_of m + 1) again -> needs (size_of m + 1) (grown p) ->
  m !! k = None -> emplaced p t m k v (bind (grow alloc again t0) (fun t' _ => again t' (k, v))).
Proof.
  intros Hl Hag Hneed Hk. pose proof (grow_ok p (size_of m + 1) again t0 m Hl Hag ltac:(lia) Hneed) as Hgr.
  destruct (grown_range p (lo_p _ _ _ Hl)) as (Hg & _).
  destruct (grow alloc again t0) as [t1 x|t1 c|]; simpl; [|done..]. destruct Hgr as (p1 & Hp1 & Hr1).
  pose proof (Hag p1 t1 m k v Hr1 Hp1 ltac:(lia)) as He. unfold emplaced in *. rewrite Hk in *.
  destruct (again t1 (k, v)) as [t2 r|t2 c|]; [|done..]. destruct He as ((p2 & Hp2 & Hr2) & Hv & Hb & _).
  split; [exists p2; split; [lia|done]|]. split; [done|]. split; [done|]. by intros [? ?].
Qed.

(** A new key is put into the slots of [t]. *)
Lemma allocated_insert p t m k v es : allocated p t m -> m !! k = None -> 2 * (size_of m + 1) <= 2 ^ p ->
  placed (bucket hash t) (end_ t) (max_lookups t) es -> contents es ≡ₚ (k, v) :: contents (entries t) ->
  rep p (set_num (num_elements t +s 1) (set_entries es t)) (<[k := v]> m).
Proof.
  intros [Hp Hs Hsh Hml Hn Hld Hpl Hc] Hk Hld' Hpl' Hc'. pose proof (pow_range p Hp) as Hr. right. split; try done; simpl.
  - rewrite map_size_insert_None by done. rewrite Hn. rewrite u64_small; lia.
  - rewrite map_size_insert_None by done. lia.
  - rewrite map_to_list_insert by done. by rewrite Hc', Hc.
Qed.

Lemma contents_size p t m : allocated p t m -> zlen (contents (entries t)) = size_of m.
Proof. intros Ha. unfold zlen. rewrite (al_contents _ _ _ Ha). by rewrite length_map_to_list. Qed.

Lemma emplace_new_key_ok p again t m k v d it :
  rep p t m -> again_ok (grown p) (size_of m + 1) again -> m !! k = None ->
  (p = 0 \/ (allocated p t m /\ bucket hash t k + d = it /\ 0 <= d <= max_lookups t /\ reached (entries t) it d /\
     exists e, zget (entries t) it = Some e /\ dist e < d)) ->
  emplaced p t m k v (emplace_new_key alloc again t (k, v) d it).
Proof.
  intros Hr Hag Hk Hpr. unfold emplace_new_key.
  destruct ((num_slots_minus_one t =? 0) || (d =? max_lookups t) || (num_slots_minus_one t + 1 <? 2 * (num_elements t + 1))) eqn:Ec.
  { apply grow_emplace; [by apply rep_loose|done| |done]. pose proof (rep_loose _ _ _ Hr) as Hl. unfold needs, grown.
    destruct (Z.eqb_spec p 0) as [-> |Hp0]; [left; lia|]. replace (p + 1 - 1) with p by lia.
    destruct Hpr as [? |(Ha & Hit & Hd & Hre & _)]; [done|]. pose proof (pow_range p (al_p _ _ _ Ha)).
    rewrite (al_slots _ _ _ Ha), (al_size _ _ _ Ha) in Ec. right. zcase_in Ec; try lia; try done.
    right. pose proof (reached_count _ _ _ (entries t) it d (al_placed _ _ _ Ha) Hre) as Hcnt.
    rewrite (contents_size p t m Ha) in Hcnt. pose proof (bucket_range p t m k Ha). rewrite (al_lookups _ _ _ Ha) in *. lia. }
  apply orb_false_iff in Ec as [Ec Eld]. apply orb_false_iff in Ec as [E0 Ed].
  destruct Hpr as [-> |(Ha & Hit & Hd & Hre & e & He & Hde)].
  { pose proof (rep_loose _ _ _ Hr) as Hl. rewrite (lo_slots _ _ _ Hl) in E0. done. }
  rewrite (al_slots _ _ _ Ha), (al_size _ _ _ Ha) in *. zcase_in E0; try done. zcase_in Ed; try done. zcase_in Eld; try done.
  pose proof (bucket_range p t m k Ha) as Hb. assert (it < end_ t) as Hlt by lia. rewrite He.
  assert (2 * (size_of m + 1) <= 2 ^ p) as Hload by lia.
  assert (placed (bucket hash t) (end_ t) (max_lookups t) (zput (entries t) it (Entry d (Some (k, v))))) as Hpl.
  { eapply placed_put; [apply Ha|done|done|lia|lia|done|done]. }
  assert (0 <= it < zlen (entries t)) as Hrg by (by eapply zget_Some_range).
  pose proof (contents_put (entries t) it e (Entry d (Some (k, v))) He) as Hcp. simpl in Hcp. unfold is_empty.
  assert (forall es, zget es it = Some (Entry d (Some (k, v))) -> placed (bucket hash t) (end_ t) (max_lookups t) es ->
    contents es ≡ₚ (k, v) :: contents (entries t) ->
    emplaced p t m k v (Ok (set_num (size_of m +s 1) (set_entries es t)) (it, true))) as Hins.
  { intros es Hes Hpes Hces. unfold emplaced. rewrite Hk. simpl. split; [exists p; split; [lia|]|].
    - rewrite <- (al_size _ _ _ Ha). by apply allocated_insert.
    - split; [unfold value_at; simpl; by rewrite Hes|]. split; [done|]. by intros [? ?]. }
  destruct (pl_slot _ _ _ _ (al_placed _ _ _ Ha) _ _ He Hlt) as [-> |(de & [k1 v1] & -> & Hde1 & Hh1)]; simpl in *.
  - apply Hins; [by apply zget_put_eq|done|done].
  - destruct (Z.ltb_spec de 0); [lia|].
    destruct (displace_ok _ _ _ (fun k => bucket_range p t m k Ha) (length (zput (entries t) it (Entry d (Some (k, v)))))
      it (k, v) d (zput (entries t) it (Entry d (Some (k, v)))) (k1, v1) (de + 1) (it + 1)) as (es' & r & E & Hpost); try done; simpl; try lia.
    + right. exists (Entry d (Some (k, v))). replace (it + 1 - 1) with it by lia. rewrite zget_put_eq by done. split; [done|simpl; lia].
    + by apply zget_put_eq.
    + pose proof (zlen_put (entries t) it (Entry d (Some (k, v)))) as Hz. pose proof (pl_len _ _ _ _ (al_placed _ _ _ Ha)). unfold zlen in *. lia.
    + rewrite E. destruct r as [kv'|].
      * destruct Hpost as (-> & Ht & Hc & Hml). apply grow_emplace; try done.
        -- pose proof (allocated_loose p t m Ha) as [L1 L2 L3 L4 L5 L6 L7]. split; try done. simpl. rewrite <- (al_contents _ _ _ Ha).
           apply (Permutation_cons_inv (a := (k, v))). by rewrite Hc, Hcp.
        -- assert (zlen (contents (zput (entries t) it (Entry d (Some (k, v))))) = size_of m) as Hz.
           { apply Permutation_length in Hcp. simpl in Hcp. pose proof (contents_size p t m Ha) as Hs. unfold zlen in *. lia. }
           rewrite Hz, (al_lookups _ _ _ Ha) in Hml. unfold needs, grown. destruct (Z.eqb_spec p 0); lia.
      * destruct Hpost as (Hp' & Hc & Hg). apply Hins; [|done|by rewrite Hc, Hcp]. rewrite Hg. by apply zget_put_eq.
Qed.

(** Sixty-four levels of growth are enough: the arrays double, and there is none of [2 ^ 62]. *)
Lemma emplace_fuel_ok (fuel : nat) : forall p0 n, 64 <= p0 + Z.of_nat fuel -> again_ok p0 n (emplace_fuel hash alloc fuel).
Proof.
  induction fuel as [|fuel IH]; intros p0 n Hf p t m k v Hr Hp Hn.
  { pose proof (lo_p _ _ _ (rep_loose _ _ _ Hr)). lia. }
  cbn [emplace_fuel]. destruct (probe_key_ok p t m k Hr) as (it & d & b & E & Hpost). change ((k, v).1) with k. rewrite E. destruct b.
  - destruct Hpost as (v0 & Hk & Hv & Hit & Ha). unfold emplaced. rewrite Hk. simpl. split; [exists p; split; [lia|]|].
    + by rewrite insert_id.
    + split; [unfold value_at; by rewrite Hv|]. done.
  - destruct Hpost as [Hk Hpr]. apply emplace_new_key_ok; [done| |done|done].
    pose proof (grown_range p (lo_p _ _ _ (rep_loose _ _ _ Hr))). apply IH. lia.
Qed.

Lemma flat_emplace_ok p t m k v : rep p t m -> emplaced p t m k v (emplace hash alloc t (k, v)).
Proof.
  intros Hr. apply (emplace_fuel_ok 64 0 (size_of m + 1)); [lia|done| |lia]. pose proof (lo_p _ _ _ (rep_loose _ _ _ Hr)). lia.
Qed.

(** ** The other operations *)

(** An operation keeps or changes the map, or reports that an array was refused. *)
Definition becomes {A} (m : gmap K V) (P : A -> Prop) (o : outcome A) : Prop :=
  match o with
  | Ok t x => (exists p, rep p t m) /\ P x
  | BadAlloc _ c => alloc c = false
  | Stuck => False
  end.

Lemma becomes_bind {A B} (m m' : gmap K V) (P : A -> Prop) (Q : B -> Prop) o f :
  becomes m P o -> (forall p t x, rep p t m -> P x -> becomes m' Q (f t x)) -> becomes m' Q (bind o f).
Proof. intros Ho Hf. destruct o as [t x|t c|]; simpl in *; [|done..]. destruct Ho as [[p Hp] Hx]. by apply (Hf p). Qed.

Lemma rep_size p t m : rep p t m -> num_elements t = size_of m /\ 2 * size_of m < 2 ^ 62.
Proof.
  intros Hr. destruct (rep_loose _ _ _ Hr) as [Hp _ _ Hs Hld _ _]. split; [done|].
  assert (2 ^ p < 2 ^ 62) by (apply Z.pow_lt_mono_r; lia). lia.
Qed.

Lemma rehash_ok p t m nb : rep p t m -> is_size nb -> becomes m (fun _ => True) (rehash hash alloc t nb).
Proof.
  intros Hr Hnb. destruct (rep_size _ _ _ Hr) as [Hs Hlt]. unfold is_size in Hnb. unfold rehash, rehash_with. rewrite Hs.
  destruct (Z.eqb_spec (Z.max nb (2 * size_of m)) 0) as [E0|Hne].
  - assert (m = ∅) as -> by (apply map_size_empty_inv; lia). split; [|done]. exists 0. left. unfold reset_to_empty_state.
    rewrite Hs, map_size_empty. done.
  - destruct (next_size_over_pow (Z.max nb (2 * size_of m))) as (q & Hq & ->); [unfold is_size; lia|].
    destruct (Z.eqb_spec (2 ^ q) (bucket_count t)); [split; [by exists p|done]|].
    destruct (alloc (2 ^ q + compute_max_lookups (2 ^ q))) eqn:Ea; [|done].
    assert (q <= 61) as Hq61.
    { apply alloc_max in Ea. destruct (Z.le_gt_cases q 61) as [|Hgt]; [done|]. assert (2 ^ 62 <= 2 ^ q) by (apply Z.pow_le_mono_r; lia).
      unfold compute_max_lookups in Ea. lia. }
    pose proof (refill_ok p q (size_of m) (emplace hash alloc) t m (rep_loose _ _ _ Hr) ltac:(lia)) as Hrf.
    destruct (move_all _ _ _) as [t' x|t' c|]; simpl.
    + destruct Hrf as (p' & _ & Hr'); [apply (emplace_fuel_ok 64); lia|lia|]. split; [by exists p'|done].
    + destruct Hrf as [? _]; [apply (emplace_fuel_ok 64); lia|lia|done].
    + apply Hrf; [apply (emplace_fuel_ok 64); lia|lia].
Qed.

(** [erase] of a key that is there. *)
Lemma erase_at_ok p t m k v it : rep p t m -> m !! k = Some v -> 0 <= it < end_ t -> value_at t it = Some (k, v) ->
  exists t', erase_at t it = Some t' /\ rep p t' (delete k m).
Proof.
  intros [(-> & -> & ->)|Ha] Hk Hit Hv; [done|]. destruct Ha as [Hp Hs Hsh Hml Hn Hld Hpl Hc] eqn:EHa; clear EHa.
  unfold value_at in Hv. unfold erase_at.
  destruct (zget (entries t) it) as [e|] eqn:Ee; [|done].
  destruct (pl_slot _ _ _ _ Hpl _ _ Ee ltac:(lia)) as [-> |(d & kv & -> & Hd & Hh)]; [done|]. simpl in Hv. injection Hv as ->.
  destruct (shift_back_ok _ _ _ (length (entries t)) _ _ (vacate_holed _ _ _ _ _ _ _ Hpl Ee ltac:(lia)) Hit) as (es & -> & Hp' & Hc').
  { pose proof (pl_len _ _ _ _ Hpl). unfold zlen in *. lia. }
  eexists. split; [done|]. right. pose proof (contents_put _ _ _ vacant Ee) as Hcp. simpl in Hcp.
  assert (size (delete k m) = Nat.pred (size m)) as Esz by (apply map_size_delete_Some; by exists v).
  assert (size m <> 0)%nat as Hnz by (intros E0%map_size_empty_iff; by rewrite E0 in Hk).
  pose proof (pow_range p Hp) as Hpr. split; simpl; try done.
  - rewrite Hn, Esz. rewrite u64_small; lia.
  - lia.
  - rewrite Hc'. apply (Permutation_cons_inv (a := (k, v))). rewrite Hcp, Hc. symmetry. by apply map_to_list_delete.
Qed.

Lemma erase_ok p t m k : rep p t m ->
  becomes (delete k m) (fun c => c = if decide (is_Some (m !! k)) then 1 else 0) (erase hash t k).
Proof.
  intros Hr. destruct (find_ok p t m k Hr) as (it & E & Hit). unfold erase. rewrite E. destruct (m !! k) as [v|] eqn:Ek.
  - destruct Hit as [Hit Hv]. destruct (Z.eqb_spec it (end_ t)); [lia|]. destruct (erase_at_ok p t m k v it Hr Ek Hit Hv) as (t' & -> & Hr').
    split; [by exists p|done].
  - rewrite Hit, Z.eqb_refl. split; [|done]. exists p. by rewrite delete_id.
Qed.

Lemma clear_entries (t : table) : placed (bucket hash t) (end_ t) (max_lookups t) (entries t) -> 0 <= end_ t ->
  entries (clear t) = new_entries (end_ t - max_lookups t + 1) (max_lookups t).
Proof.
  intros Hpl H0. pose proof (pl_len _ _ _ _ Hpl) as Hlen.
  unfold clear, new_entries. simpl. f_equal.
  - replace (end_ t - max_lookups t + 1 + max_lookups t - 1) with (end_ t) by lia. apply zlist_eq. intros i Hi.
    rewrite zget_repeat. unfold zget at 1. destruct (Z.ltb_spec i 0); [lia|]. rewrite list_lookup_fmap.
    assert (zslice (entries t) 0 (end_ t) !! Z.to_nat i = zget (zslice (entries t) 0 (end_ t)) i) as -> by (unfold zget; destruct (Z.ltb_spec i 0); [lia|done]).
    rewrite zget_slice by lia. destruct (Z.leb_spec 0 i), (Z.ltb_spec i (end_ t)); simpl; try lia; [|done].
    destruct (Z.ltb_spec i 0); [lia|]. destruct (zget_in_range (entries t) i) as [e He]; [lia|]. rewrite Z.add_0_l, He. simpl.
    by destruct (pl_slot _ _ _ _ Hpl _ _ He) as [-> |(d & kv & -> & Hd & _)]; [lia| |unfold has_value; simpl; destruct (Z.leb_spec 0 d); [|lia]].
  - by rewrite (zslice_cons _ _ 1 _ ltac:(lia) (pl_end _ _ _ _ Hpl)), zslice_nil by lia.
Qed.

Lemma clear_ok p t m : rep p t m -> rep p (clear t) ∅.
Proof.
  intros [(-> & -> & ->)|Ha]; [by left|]. destruct Ha as [Hp Hs Hsh Hml Hn Hld Hpl Hc]. pose proof (pow_range p Hp) as Hpr.
  assert (0 <= end_ t) as H0 by (unfold end_; lia). pose proof (clear_entries t Hpl H0) as Ee.
  destruct (new_entries_placed (V := V) (bucket hash (clear t)) (end_ t) (max_lookups t) (end_ t - max_lookups t + 1)) as [Hp' Hc']; [lia|unfold end_; lia|].
  rewrite <- Ee in Hp', Hc'. right. split; try done; rewrite ?map_size_empty; try done; [lia|]. by rewrite Hc', map_to_list_empty.
Qed.

Lemma iterate_from_ok p t m (fuel : nat) : rep p t m -> forall it, 0 <= it <= end_ t -> end_ t < it + Z.of_nat fuel ->
  (it < end_ t -> exists d kv, zget (entries t) it = Some (Entry d (Some kv))) ->
  iterate_from fuel t it = Some (contents (zslice (entries t) it (end_ t - it))).
Proof.
  intros Hr. pose proof (rep_loose _ _ _ Hr) as [_ _ _ _ _ Ht _]. pose proof Ht as (Hlen & _).
  induction fuel as [|fuel IH]; intros it Hit Hf Hv; [lia|]. cbn [iterate_from]. destruct (Z.eqb_spec it (end_ t)) as [-> |Hne].
  - by rewrite Z.sub_diag, zslice_nil.
  - destruct (Hv ltac:(lia)) as (d & kv & He). rewrite He.
    destruct (advance_ok (end_ t) (length (entries t)) (entries t) (it + 1) Ht) as (it' & -> & Hr' & Hv' & Hc); [lia|unfold zlen in Hlen; lia|].
    rewrite IH by (done || lia). simpl. rewrite (zslice_cons (entries t) it (end_ t - it) _ ltac:(lia) He). rewrite <- Hc.
    by replace (end_ t - it - 1) with (end_ t - (it + 1)) by lia.
Qed.

(** Iteration visits every value once. *)
Lemma iterate_ok p t m : rep p t m -> exists l, iterate t = Some l /\ l ≡ₚ map_to_list m.
Proof.
  intros Hr. pose proof (rep_loose _ _ _ Hr) as [_ _ He _ _ Ht Hc]. pose proof Ht as (Hlen & _). unfold zlen in Hlen.
  destruct (advance_ok (end_ t) (length (entries t)) (entries t) 0 Ht) as (it' & E & Hr' & Hv & Hcon); [lia..|].
  unfold iterate, begin. rewrite E. erewrite iterate_from_ok by (done || lia). eexists. split; [done|].
  rewrite <- Hcon, Z.sub_0_r, (tidy_contents _ _ He Ht). done.
Qed.

Lemma assign_ok p t m k v0 v it : rep p t m -> m !! k = Some v0 -> value_at t it = Some (k, v0) ->
  becomes (<[k := v]> m) (fun _ => True) (assign t it v).
Proof.
  intros [(-> & -> & ->)|Ha] Hk Hv; [done|]. destruct Ha as [Hp Hs Hsh Hml Hn Hld Hpl Hc]. unfold value_at in Hv. unfold assign.
  destruct (zget (entries t) it) as [e|] eqn:Ee; [|done].
  assert (it < end_ t) as Hit.
  { pose proof (zget_Some_range _ _ _ Ee) as Hr. rewrite (pl_len _ _ _ _ Hpl) in Hr. destruct (Z.eq_dec it (end_ t)) as [E1|]; [|lia].
    rewrite E1, (pl_end _ _ _ _ Hpl) in Ee. by injection Ee as <-. }
  destruct (pl_slot _ _ _ _ Hpl _ _ Ee Hit) as [-> |(d & kv & -> & Hd & Hh)]; [done|]. simpl in Hv. injection Hv as ->.
  split; [|done]. exists p. right. assert (size (<[k := v]> m) = size m) as Esz by (apply map_size_insert_Some; by exists v0).
  split; simpl; rewrite ?Esz; try done.
  - eapply placed_put; [done|done|done|simpl; lia|done|done|].
    destruct (Z.eq_dec d 0); [by left|]. right. by apply (pl_run _ _ _ _ Hpl _ _ Ee Hit); simpl; lia.
  - pose proof (contents_put _ _ _ (Entry d (Some (k, v))) Ee) as Hcp. simpl in Hcp.
    apply (Permutation_cons_inv (a := (k, v0))). rewrite Hcp, Hc.
    rewrite <- (insert_delete_id m k v0 Hk), insert_insert_eq, !map_to_list_insert by apply lookup_delete_eq. by apply Permutation_swap.
Qed.

Lemma insert_or_assign_ok p t m k v : rep p t m ->
  becomes (<[k := v]> m) (fun r => r.2 = bool_decide (m !! k = None)) (insert_or_assign hash alloc t k v).
Proof.
  intros Hr. pose proof (flat_emplace_ok p t m k v Hr) as He. unfold insert_or_assign, emplaced in *.
  destruct (emplace hash alloc t (k, v)) as [t' r|t' c|]; simpl; [|by destruct He|done].
  destruct He as ((p' & _ & Hr') & Hv & Hb & Hsame). rewrite Hb. destruct (m !! k) as [v0|] eqn:Ek; simpl in *.
  - rewrite Hsame in * by done. rewrite insert_id in Hr' by done.
    pose proof (assign_ok p' t m k v0 v r.1 Hr' Ek Hv) as Has. destruct (assign t r.1 v) as [t2 x|t2 c|]; simpl in *; [|done..].
    by destruct Has as [? _].
  - split; [by exists p'|done].
Qed.

Lemma try_emplace_ok p t m k v : rep p t m ->
  becomes (<[k := default v (m !! k)]> m) (fun r => r.2 = bool_decide (m !! k = None)) (try_emplace hash alloc t k v).
Proof.
  intros Hr. destruct (find_ok p t m k Hr) as (it & E & Hit). unfold try_emplace. rewrite E. destruct (m !! k) as [v0|] eqn:Ek.
  - destruct Hit as [Hit Hv]. destruct (Z.eqb_spec it (end_ t)); [lia|]. split; [|done]. exists p. simpl. by rewrite insert_id.
  - rewrite Hit, Z.eqb_refl. pose proof (flat_emplace_ok p t m k v Hr) as He. unfold emplaced in He. rewrite Ek in He.
    destruct (emplace hash alloc t (k, v)) as [t' r|t' c|]; simpl; [|by destruct He|done].
    destruct He as ((p' & _ & Hr') & _ & Hb & _). split; [by exists p'|done].
Qed.

Lemma at_ok p t m k : rep p t m -> becomes m (fun r => r = m !! k) (at_ hash t k).
Proof.
  intros Hr. destruct (find_ok p t m k Hr) as (it & E & Hit). unfold at_. rewrite E. destruct (m !! k) as [v|] eqn:Ek.
  - destruct Hit as [Hit Hv]. destruct (Z.eqb_spec it (end_ t)); [lia|]. rewrite Hv. split; [by exists p|done].
  - rewrite Hit, Z.eqb_refl. split; [by exists p|done].
Qed.

Lemma reserve_ok p t m n : rep p t m -> 0 <= n < 2 ^ 63 -> becomes m (fun _ => True) (reserve hash alloc t n).
Proof.
  intros Hr Hn. unfold reserve, num_buckets_for_reserve. destruct (bucket_count t <? 2 * n); [|split; [by exists p|done]].
  apply (rehash_ok p); [done|]. unfold is_size. lia.
Qed.

Lemma rehash_for_other_ok p t m p' t' m' : rep p t m -> rep p' t' m' -> becomes m (fun _ => True) (rehash_for_other_container hash alloc t t').
Proof.
  intros Hr Hr'. apply (rehash_ok p); [done|]. destruct (rep_size _ _ _ Hr') as [-> Hlt]. unfold num_buckets_for_reserve, is_size, bucket_count.
  pose proof (u64_range (num_slots_minus_one t' + 1)). destruct (num_slots_minus_one t' =? 0); lia.
Qed.

Lemma insert_all_ok l : forall p t m, rep p t m -> NoDup l.*1 -> (forall k, k ∈ l.*1 -> m !! k = None) ->
  becomes (list_to_map l ∪ m) (fun _ => True) (insert_all hash alloc t l).
Proof.
  induction l as [|[k v] l IH]; intros p t m Hr Hnd Hnew; cbn [insert_all].
  - simpl. rewrite (left_id_L ∅ (∪)). split; [by exists p|done].
  - rewrite fmap_cons in Hnd, Hnew. simpl in Hnd, Hnew. apply NoDup_cons in Hnd as [Hk Hnd].
    pose proof (flat_emplace_ok p t m k v Hr) as He. unfold emplaced in He. rewrite (Hnew k) in He by (by left).
    destruct (emplace hash alloc t (k, v)) as [t' r|t' c|]; cbn [bind]; [|by destruct He|done].
    destruct He as ((p' & _ & Hr') & _). simpl in Hr'.
    assert (list_to_map ((k, v) :: l) ∪ m = list_to_map l ∪ <[k := v]> m) as ->.
    { simpl. rewrite <- insert_union_l. rewrite insert_union_r; [done|]. by apply not_elem_of_list_to_map_1. }
    apply (IH p'); [done..|]. intros k' Hk'. rewrite lookup_insert_ne by (intros ->; done). apply Hnew. by right.
Qed.

(** The copy holds the same map. *)
Lemma copy_ok p t m : rep p t m -> becomes m (fun _ => True) (copy hash alloc t).
Proof.
  intros Hr. unfold copy. apply (becomes_bind ∅ m (fun _ => True)).
  - apply (rehash_for_other_ok 0 new_table ∅ p t m); [by left|done].
  - intros p' t' _ Hr' _. destruct (iterate_ok p t m Hr) as (l & -> & Hl).
    pose proof (insert_all_ok l p' t' ∅ Hr') as Hi. rewrite (right_id_L ∅ (∪)) in Hi.
    assert (NoDup l.*1) as Hnd by (rewrite Hl; apply NoDup_fst_map_to_list).
    assert (list_to_map l = m) as <-; [|by apply Hi]. rewrite <- (list_to_map_to_list m). by apply list_to_map_proper.
Qed.

(** [operator==] is equality of the maps. *)
Lemma eq_maps_ok (veq : V -> V -> bool) p1 t1 m1 p2 t2 m2 : (forall a b, veq a b = true <-> a = b) -> rep p1 t1 m1 -> rep p2 t2 m2 ->
  exists b, eq_maps hash veq t1 t2 = Some b /\ (b = true <-> m1 = m2).
Proof.
  intros Hveq Hr1 Hr2. unfold eq_maps. destruct (rep_size _ _ _ Hr1) as [-> _], (rep_size _ _ _ Hr2) as [-> _].
  destruct (Z.eqb_spec (size_of m1) (size_of m2)) as [Esz|Hne]; [|exists false; split; [done|]; split; [done|by intros ->]].
  destruct (iterate_ok _ _ _ Hr1) as (l & -> & Hl).
  assert (forall l, exists b, fold_left (fun r kv => match r with
    | Some true => match find hash t2 kv.1 with None => None | Some it => if it =? end_ t2 then Some false
        else match value_at t2 it with Some kv' => Some (veq kv.2 kv'.2) | None => None end end
    | r => r end) l (Some true) = Some b /\ (b = true <-> forall kv, kv ∈ l -> m2 !! kv.1 = Some kv.2)) as Hfold.
  { clear -Hveq Hr2. induction l as [|[k v] l IH]; [exists true; split; [done|]; split; [intros _ kv Hkv; by apply elem_of_nil in Hkv|done]|].
    destruct (find_ok _ _ _ k Hr2) as (it & E & Hit). cbn [fold_left fst snd]. rewrite E.
    assert (forall l', fold_left (fun (r : option bool) (kv : K * V) => match r with
      | Some true => match find hash t2 kv.1 with None => None | Some it => if it =? end_ t2 then Some false
          else match value_at t2 it with Some kv' => Some (veq kv.2 kv'.2) | None => None end end
      | r => r end) l' (Some false) = Some false) as Hfalse by (induction l'; done).
    destruct (m2 !! k) as [v2|] eqn:Ek.
    - destruct Hit as [Hit ->]. destruct (Z.eqb_spec it (end_ t2)); [lia|]. simpl. destruct (veq v v2) eqn:Ev.
      + destruct IH as (b & -> & Hb). exists b. split; [done|]. rewrite Hb. apply Hveq in Ev as ->. split.
        * intros Hall kv [-> | Hkv]%elem_of_cons; [done|by apply Hall].
        * intros Hall kv Hkv. apply Hall. by right.
      + rewrite Hfalse. exists false. split; [done|]. split; [done|]. intros Hall. specialize (Hall (k, v) ltac:(by left)). simpl in Hall.
        assert (v = v2) as Evv by congruence. apply Hveq in Evv. congruence.
    - rewrite Hit, Z.eqb_refl, Hfalse. exists false. split; [done|]. split; [done|]. intros Hall. specialize (Hall (k, v) ltac:(by left)). simpl in Hall. congruence. }
  destruct (Hfold l) as (b & -> & Hb). exists b. split; [done|]. rewrite Hb. split; [|intros -> kv Hkv; destruct kv; rewrite Hl in Hkv; by apply elem_of_map_to_list in Hkv].
  intros Hall. apply map_subseteq_size_eq; [|lia]. apply map_subseteq_spec. intros k v Hk. apply (Hall (k, v)). rewrite Hl. by apply elem_of_map_to_list.
Qed.

(** ** Sequences of operations *)

Inductive op := Emplace (k : K) (v : V) | InsertOrAssign (k : K) (v : V) | TryEmplace (k : K) (v : V) | Erase (k : K) | At (k : K)
  | Clear | Reserve (n : Z) | Rehash (n : Z) | ShrinkToFit | CopyOf | Iterate | Size.

Inductive result := RBool (b : bool) | RCount (z : Z) | RValue (v : option V) | RList (l : list (K * V)) | RNone.

Definition with_result {A} (f : A -> result) (o : outcome A) : outcome result := bind o (fun t x => Ok t (f x)).

Definition step (t : table) (o : op) : outcome result :=
  match o with
  | Emplace k v => with_result (fun r => RBool r.2) (emplace hash alloc t (k, v))
  | InsertOrAssign k v => with_result (fun r => RBool r.2) (insert_or_assign hash alloc t k v)
  | TryEmplace k v => with_result (fun r => RBool r.2) (try_emplace hash alloc t k v)
  | Erase k => with_result RCount (erase hash t k)
  | At k => with_result RValue (at_ hash t k)
  | Clear => Ok (clear t) RNone
  | Reserve n => with_result (fun _ => RNone) (reserve hash alloc t n)
  | Rehash n => with_result (fun _ => RNone) (rehash hash alloc t n)
  | ShrinkToFit => with_result (fun _ => RNone) (shrink_to_fit hash alloc t)
  | CopyOf => with_result (fun _ => RNone) (copy hash alloc t)
  | Iterate => match iterate t with Some l => Ok t (RList l) | None => Stuck end
  | Size => Ok t (RCount (num_elements t))
  end.

Fixpoint run (ops : list op) (t : table) : outcome (list result) :=
  match ops with
  | [] => Ok t []
  | o :: ops => bind (step t o) (fun t' r => bind (run ops t') (fun t'' rs => Ok t'' (r :: rs)))
  end.

(** The sizes asked for are of type [size_t]; twice the argument of [reserve] is one. *)
Definition valid (o : op) : Prop :=
  match o with Reserve n => 0 <= n < 2 ^ 63 | Rehash n => is_size n | _ => True end.

(** The same on a finite map. *)
Definition spec_step (m : gmap K V) (o : op) : gmap K V * result :=
  match o with
  | Emplace k v | TryEmplace k v => (<[k := default v (m !! k)]> m, RBool (bool_decide (m !! k = None)))
  | InsertOrAssign k v => (<[k := v]> m, RBool (bool_decide (m !! k = None)))
  | Erase k => (delete k m, RCount (if decide (is_Some (m !! k)) then 1 else 0))
  | At k => (m, RValue (m !! k))
  | Clear => (∅, RNone)
  | Reserve _ | Rehash _ | ShrinkToFit | CopyOf => (m, RNone)
  | Iterate => (m, RList (map_to_list m))
  | Size => (m, RCount (size_of m))
  end.

Fixpoint spec_run (m : gmap K V) (ops : list op) : list result :=
  match ops with [] => [] | o :: ops => (spec_step m o).2 :: spec_run (spec_step m o).1 ops end.

(** The order of iteration is not specified. *)
Inductive same_result : result -> result -> Prop :=
  | same_eq r : same_result r r
  | same_list l l' : l ≡ₚ l' -> same_result (RList l) (RList l').

Lemma with_result_ok {A} (m : gmap K V) (P : A -> Prop) (f : A -> result) r o :
  becomes m P o -> (forall x, P x -> f x = r) -> becomes m (fun x => same_result x r) (with_result f o).
Proof. intros Ho Hf. eapply becomes_bind; [done|]. intros p t x Hr Hx. split; [by exists p|]. rewrite (Hf x Hx). constructor. Qed.

Lemma emplace_becomes p t m k v : rep p t m ->
  becomes (<[k := default v (m !! k)]> m) (fun r => r.2 = bool_decide (m !! k = None)) (emplace hash alloc t (k, v)).
Proof.
  intros Hr. pose proof (flat_emplace_ok p t m k v Hr) as He. unfold emplaced in He.
  destruct (emplace hash alloc t (k, v)) as [t' r|t' c|]; simpl; [|by destruct He|done]. destruct He as ((p' & _ & Hr') & _ & Hb & _).
  split; [by exists p'|done].
Qed.

Lemma flat_step_ok p t m o : rep p t m -> valid o -> becomes (spec_step m o).1 (fun r => same_result r (spec_step m o).2) (step t o).
Proof.
  intros Hr Hv. destruct o as [k v|k v|k v|k|k| |n|n| | | |]; cbn [step spec_step fst snd].
  - eapply with_result_ok; [by eapply emplace_becomes|]. by intros x ->.
  - eapply with_result_ok; [by eapply insert_or_assign_ok|]. by intros x ->.
  - eapply with_result_ok; [by eapply try_emplace_ok|]. by intros x ->.
  - eapply with_result_ok; [by eapply erase_ok|]. by intros x ->.
  - eapply with_result_ok; [by eapply at_ok|]. by intros x ->.
  - split; [exists p; by eapply clear_ok|constructor].
  - eapply with_result_ok; [by eapply reserve_ok|done].
  - eapply with_result_ok; [by eapply rehash_ok|done].
  - eapply with_result_ok; [by eapply (rehash_for_other_ok p t m p t m)|done].
  - eapply with_result_ok; [by eapply copy_ok|done].
  - destruct (iterate_ok p t m Hr) as (l & -> & Hl). split; [by exists p|by constructor].
  - destruct (rep_size _ _ _ Hr) as [-> _]. split; [by exists p|constructor].
Qed.

Lemma run_ok ops : forall p t m, rep p t m -> Forall valid ops ->
  match run ops t with
  | Ok _ rs => Forall2 same_result rs (spec_run m ops)
  | BadAlloc _ c => alloc c = false
  | Stuck => False
  end.
Proof.
  induction ops as [|o ops IH]; intros p t m Hr Hv; cbn [run spec_run]; [constructor|]. apply Forall_cons in Hv as [Ho Hv].
  pose proof (flat_step_ok p t m o Hr Ho) as Hs. destruct (step t o) as [t' r|t' c|]; cbn [bind]; [|done..]. destruct Hs as [[p' Hr'] Hres].
  specialize (IH p' t' _ Hr' Hv). destruct (run ops t') as [t'' rs|t'' c|]; cbn [bind]; [|done..]. by constructor.
Qed.
End Props.

(** C9: The flat hash map is a finite map, for every hash function: any sequence of insertions, look-ups,
    erasures, iterations and changes of size gives what it gives on the map, unless the allocator
    refuses an array; no access is out of range, no value is read that is not there, and the
    nested growth ends. *)
Theorem flat_map_refines {K V : Type} `{Countable K} (hash : K -> Z) (alloc : Z -> bool) (ops : list (op (K := K) (V := V))) :
  (forall c, alloc c = true -> c < 2 ^ 62) -> Forall valid ops ->
  match run hash alloc ops new_table with
  | Ok _ rs => Forall2 same_result rs (spec_run ∅ ops)
  | BadAlloc _ c => alloc c = false
  | Stuck => False
  end.
Proof. intros Ha Hv. apply (run_ok hash alloc Ha ops 0); [by left|done]. Qed.

(** The keys 0, 5, 10, ... on an allocator that has no array of more than 40 entries. *)
Lemma flat_map_refines_witness :
  let ops := [Reserve 8; Emplace 0 0; Emplace 5 1; Emplace 10 2; Emplace 31 3; Emplace 52 4; Emplace 65 5; Emplace 13 6; At 13; At 10;
              Erase 10; At 10; At 65; Emplace 65 9; InsertOrAssign 65 9; At 65; Size; ShrinkToFit; CopyOf; Clear; Size] in
  exists t rs, run (fun k => k) (fun c => c <=? 40) ops new_table = Ok t rs /\ Forall2 same_result rs (spec_run ∅ ops).
Proof.
  intros ops. pose proof (flat_map_refines (fun k => k) (fun c => c <=? 40) ops) as Href.
  destruct (run (fun k => k) (fun c => c <=? 40) ops new_table) as [t rs|t c|] eqn:E.
  - exists t, rs. split; [done|]. apply Href; [intros c Hc%Z.leb_le; lia|]. repeat constructor; vm_compute; discriminate || done.
  - vm_compute in E. discriminate.
  - vm_compute in E. discriminate.
Defined.

(** Whatever the hash, [emplace] into a map of fewer than 56 values does not throw, if arrays of up
    to [2 ^ 57] entries can be had: the table grows until the allowed distance exceeds the number
    of values. In general the table only asks for an array that this bound or the load justify. *)
Theorem flat_map_emplace_total {K V : Type} `{Countable K} (hash : K -> Z) (alloc : Z -> bool) (p : Z) (t : table) (m : gmap K V) (k : K) (v : V) :
  (forall c, alloc c = true -> c < 2 ^ 62) -> (forall c, c <= 2 ^ 57 -> alloc c = true) -> rep hash p t m -> (size m < 56)%nat ->
  exists t' r p', emplace hash alloc t (k, v) = Ok t' r /\ rep hash p' t' (<[k := default v (m !! k)]> m).
Proof.
  intros Hmax Hmin Hr Hsz. pose proof (flat_emplace_ok hash alloc Hmax p t m k v Hr) as He. unfold emplaced in He.
  destruct (emplace hash alloc t (k, v)) as [t' r|t' c|]; [|exfalso|done].
  - destruct He as ((p' & _ & Hr') & _). by exists t', r, p'.
  - destruct He as (Ha & q & -> & Hq). unfold needs in Hq. rewrite Hmin in Ha; [done|].
    assert (q <= 56) as Hq56.
    { destruct Hq as [|[Hq|]]; [lia| |lia]. destruct (Z.le_gt_cases q 56); [done|]. assert (2 ^ 56 <= 2 ^ (q - 1)) by (apply Z.pow_le_mono_r; lia). lia. }
    assert (2 ^ q <= 2 ^ 56) by (apply Z.pow_le_mono_r; lia). lia.
Qed.

(** All keys in one bucket. *)
Lemma flat_map_emplace_total_witness :
  exists t' r p', emplace (fun _ => 0) (fun c => c <=? 2 ^ 57) (new_table (K := Z)) (7, 1) = Ok t' r /\ rep (fun _ => 0) p' t' {[7 := 1]}.
Proof.
  destruct (flat_map_emplace_total (fun _ : Z => 0) (fun c => c <=? 2 ^ 57) 0 new_table ∅ 7 1) as (t' & r & p' & E & Hr).
  - intros c Hc%Z.leb_le. lia.
  - intros c Hc. by apply Z.leb_le.
  - by left.
  - rewrite map_size_empty. lia.
  - exists t', r, p'. split; [exact E|]. exact Hr.
Defined.

(** A failed growth is not undone: with the identity hash, the keys 0, 5, 10, 31, 52, 65 in a table of
    16 slots and no memory for 32, [emplace] of 13 throws and leaves the value of the key 10 in a
    slot where it is no longer found, though iteration still shows it. *)
Theorem flat_map_bad_alloc_loses :
  let hash := fun k : Z => k in let alloc := fun c => c <=? 20 in
  exists t rs t' c l,
    run hash alloc [Reserve 8; Emplace 0 0; Emplace 5 1; Emplace 10 2; Emplace 31 3; Emplace 52 4; Emplace 65 5] new_table = Ok t rs /\
    at_ hash t 10 = Ok t (Some 2) /\
    emplace hash alloc t (13, 6) = BadAlloc t' c /\
    at_ hash t' 10 = Ok t' None /\ iterate t' = Some l /\ (10, 2) ∈ l.
Proof.
  cbv zeta. eexists _, _, _, _, _. split; [vm_compute; reflexivity|]. split; [vm_compute; reflexivity|]. split; [vm_compute; reflexivity|].
  split; [vm_compute; reflexivity|]. split; [vm_compute; reflexivity|]. by apply list_elem_of_In; simpl; auto.
Qed.
