(* ===== verification/NodeMap.v ===== *)
(** * The chained hash map: vendor/ska_hash/unordered_map.hpp

    [qb::unordered_map], the map the framework uses, keeps every value in a node of its own; the
    nodes of a bucket are linked. The nodes live in a heap, an access to an address that is not
    allocated is an error. This file holds the operations; NodeMapProps their properties. *)

From S2P Require Import Prelude HashPolicy.

Section NodeMap.
Context {K V : Type} `{EqDecision K}.

(** [sherwood_v10_entry]; the address 0 is the null pointer. *)
Record node := Node { nvalue : K * V; next : Z }.

#[local] Abbreviation heap := (gmap Z node).

(** The hasher; the allocator of buckets, for that many pointers; and the allocator of nodes. *)
Variable hash : K -> Z.
Variable alloc : Z -> bool.
Variable new_node : heap -> option Z.

(** [sherwood_v10_table], with [hash_policy.shift] and the nodes; [_max_load_factor] is its default
    of 1. [entries] starts at the first bucket; the pointer before it is 1 and marks the end. *)
Record table := Table {
  entries : list Z;
  num_slots_minus_one : Z;
  shift : Z;
  num_elements : Z;
  nodes : heap
}.

Definition end_ : Z := 1.

(** The static [empty_table] has room for the two indices of the initial shift. *)
Definition new_table : table := Table [0; 0] 0 63 0 ∅.

Definition bucket_count (t : table) : Z := num_slots_minus_one t +s 1.
Definition bucket (t : table) (k : K) : Z := index_for_hash (shift t) (hash k).

(** How an operation ends; [Stuck] where it follows a pointer to nowhere or leaves an array. *)
Inductive outcome (A : Type) := Ok (t : table) (x : A) | BadAlloc (t : table) | Stuck.
#[global] Arguments Ok {A}.
#[global] Arguments BadAlloc {A}.
#[global] Arguments Stuck {A}.

Definition bind {A B} (o : outcome A) (f : table -> A -> outcome B) : outcome B :=
  match o with Ok t x => f t x | BadAlloc t => BadAlloc t | Stuck => Stuck end.

(** [for (it = *bucket; it; it = it->next)] of [find] and [emplace]: the node of the key, or null. *)
Fixpoint walk (fuel : nat) (h : heap) (k : K) (it : Z) : option Z :=
  match fuel with
  | O => None
  | S fuel =>
      if it =? 0 then Some 0 else
      match h !! it with
      | None => None
      | Some nd => if decide (k = (nvalue nd).1) then Some it else walk fuel h k (next nd)
      end
  end.

Definition walk_bucket (t : table) (k : K) : option Z :=
  match zget (entries t) (bucket t k) with Some e => walk (S (size (nodes t))) (nodes t) k e | None => None end.

Definition find (t : table) (k : K) : option Z :=
  match walk_bucket t k with Some it => Some (if it =? 0 then end_ else it) | None => None end.

(** The inner loop of [rehash]: the nodes of one chain go to the front of their new buckets. *)
Fixpoint relink (fuel : nat) (new_shift : Z) (h : heap) (es : list Z) (e : Z) : option (heap * list Z) :=
  match fuel with
  | O => None
  | S fuel =>
      if e =? 0 then Some (h, es) else
      match h !! e with
      | None => None
      | Some nd =>
          let index := index_for_hash new_shift (hash (nvalue nd).1) in
          match zget es index with
          | None => None
          | Some slot => relink fuel new_shift (<[e := Node (nvalue nd) slot]> h) (zput es index e) (next nd)
          end
      end
  end.

Fixpoint relink_all (new_shift : Z) (old : list Z) (h : heap) (es : list Z) : option (heap * list Z) :=
  match old with
  | [] => Some (h, es)
  | e :: old =>
      match relink (S (size h)) new_shift h es e with
      | Some (h', es') => relink_all new_shift old h' es'
      | None => None
      end
  end.

Definition reset_to_empty_state (t : table) : table := Table [0; 0] 0 63 (num_elements t) (nodes t).

Definition rehash (t : table) (num_buckets : Z) : outcome unit :=
  let num_buckets := Z.max num_buckets (num_elements t) in
  if num_buckets =? 0 then Ok (reset_to_empty_state t) tt else
  let '(num_buckets, new_shift) := next_size_over num_buckets in
  if num_buckets =? bucket_count t then Ok t tt else
  if alloc (num_buckets + 1) then
    let es := zrepeat 0 num_buckets in
    if num_slots_minus_one t =? 0 then Ok (Table es (num_buckets -s 1) new_shift (num_elements t) (nodes t)) tt else
    match relink_all new_shift (zslice (entries t) 0 (num_slots_minus_one t + 1)) (nodes t) es with
    | Some (h, es') => Ok (Table es' (num_buckets -s 1) new_shift (num_elements t) h) tt
    | None => Stuck
    end
  else BadAlloc t.

Definition reserve (t : table) (n : Z) : outcome unit :=
  if n =? 0 then Ok t tt else if bucket_count t <? n then rehash t n else Ok t tt.

Definition is_full (t : table) : bool :=
  if num_slots_minus_one t =? 0 then true else num_slots_minus_one t + 1 <? num_elements t + 1.

Definition grow (t : table) : outcome unit := rehash t (Z.max 4 (2 *s bucket_count t)).

(** [emplace] and [emplace_new_key]; after growing once there is room. *)
Fixpoint emplace_fuel (fuel : nat) (t : table) (kv : K * V) : outcome (Z * bool) :=
  match fuel with
  | O => Stuck
  | S fuel =>
      match walk_bucket t kv.1 with
      | None => Stuck
      | Some it =>
          if it =? 0 then
            if is_full t then bind (grow t) (fun t' _ => emplace_fuel fuel t' kv) else
            match new_node (nodes t), zget (entries t) (bucket t kv.1) with
            | None, _ => BadAlloc t
            | Some a, Some slot =>
                Ok (Table (zput (entries t) (bucket t kv.1) a) (num_slots_minus_one t) (shift t) (num_elements t +s 1)
                      (<[a := Node kv slot]> (nodes t))) (a, true)
            | Some _, None => Stuck
            end
          else Ok t (it, false)
      end
  end.

Definition emplace (t : table) (kv : K * V) : outcome (Z * bool) := emplace_fuel 2 t kv.

(** [while ( *previous != to_erase) previous = &( *previous)->next; *previous = to_erase->next] from
    the node [e] on, which is not the one to erase. *)
Fixpoint unlink (fuel : nat) (h : heap) (e it after : Z) : option heap :=
  match fuel with
  | O => None
  | S fuel =>
      match h !! e with
      | None => None
      | Some nd => if next nd =? it then Some (<[e := Node (nvalue nd) after]> h) else unlink fuel h (next nd) it after
      end
  end.

(** [erase(iterator)], for the node [it] of the bucket [b]. *)
Definition erase_at (t : table) (it b : Z) : option table :=
  match zget (entries t) b, nodes t !! it with
  | Some e, Some nd =>
      let r := if e =? it then Some (nodes t, zput (entries t) b (next nd))
               else (fun h => (h, entries t)) <$> unlink (S (size (nodes t))) (nodes t) e it (next nd) in
      (fun x => Table x.2 (num_slots_minus_one t) (shift t) (num_elements t -s 1) (delete it x.1)) <$> r
  | _, _ => None
  end.

Definition erase (t : table) (k : K) : outcome Z :=
  match find t k with
  | None => Stuck
  | Some it => if it =? end_ then Ok t 0 else match erase_at t it (bucket t k) with Some t' => Ok t' 1 | None => Stuck end
  end.

(** The inner loop of [clear]. *)
Fixpoint free_chain (fuel : nat) (h : heap) (e : Z) : option heap :=
  match fuel with
  | O => None
  | S fuel =>
      if e =? 0 then Some h else
      match h !! e with None => None | Some nd => free_chain fuel (delete e h) (next nd) end
  end.

Fixpoint free_all (es : list Z) (h : heap) : option heap :=
  match es with
  | [] => Some h
  | e :: es => match free_chain (S (size h)) h e with Some h' => free_all es h' | None => None end
  end.

Definition clear (t : table) : option table :=
  if num_slots_minus_one t =? 0 then Some t else
  match free_all (entries t) (nodes t) with
  | Some h => Some (Table (zrepeat 0 (num_slots_minus_one t + 1)) (num_slots_minus_one t) (shift t) 0 h)
  | None => None
  end.

(** The bucket at or below [b] that is not empty, with its first node; the end below the first. *)
Fixpoint scan_down (fuel : nat) (es : list Z) (b : Z) : option (Z * Z) :=
  match fuel with
  | O => None
  | S fuel =>
      if b =? -1 then Some (end_, -1) else
      match zget es b with None => None | Some e => if e =? 0 then scan_down fuel es (b - 1) else Some (e, b) end
  end.

Definition begin (t : table) : option (Z * Z) := scan_down (S (length (entries t))) (entries t) (num_slots_minus_one t).

(** [for (auto &v : table)]. *)
Fixpoint iterate_from (fuel : nat) (t : table) (it b : Z) : option (list (K * V)) :=
  match fuel with
  | O => None
  | S fuel =>
      if it =? end_ then Some [] else
      match nodes t !! it with
      | None => None
      | Some nd =>
          (fun l => nvalue nd :: l) <$>
          (if next nd =? 0 then
             match scan_down (S (length (entries t))) (entries t) (b - 1) with Some (it', b') => iterate_from fuel t it' b' | None => None end
           else iterate_from fuel t (next nd) b)
      end
  end.

Definition iterate (t : table) : option (list (K * V)) :=
  match begin t with Some (it, b) => iterate_from (S (size (nodes t))) t it b | None => None end.

(** ** unordered_map *)

Definition at_ (t : table) (k : K) : outcome (option V) :=
  match find t k with
  | None => Stuck
  | Some it => if it =? end_ then Ok t None else match nodes t !! it with Some nd => Ok t (Some (nvalue nd).2) | None => Stuck end
  end.

Definition try_emplace (t : table) (k : K) (v : V) : outcome (Z * bool) :=
  match find t k with
  | None => Stuck
  | Some it => if it =? end_ then emplace t (k, v) else Ok t (it, false)
  end.

Definition assign (t : table) (it : Z) (v : V) : outcome unit :=
  match nodes t !! it with
  | None => Stuck
  | Some nd => Ok (Table (entries t) (num_slots_minus_one t) (shift t) (num_elements t) (<[it := Node ((nvalue nd).1, v) (next nd)]> (nodes t))) tt
  end.

Definition insert_or_assign (t : table) (k : K) (v : V) : outcome (Z * bool) :=
  bind (try_emplace t k v) (fun t' r => if (r.2 : bool) then Ok t' r else bind (assign t' r.1 v) (fun t'' _ => Ok t'' r)).

(** [operator[]]: the node of the key, with a default value for a new one. *)
Definition subscript (dflt : V) (t : table) (k : K) : outcome Z := bind (emplace t (k, dflt)) (fun t' r => Ok t' r.1).
End NodeMap.
