(* ===== verification/NodeMapProps.v ===== *)
(** * Properties of the chained hash map: vendor/ska_hash/unordered_map.hpp

    The map is a finite map for any hash function; its chains are disjoint and hold every node that
    is allocated, so nothing leaks and no freed node is reached; and nodes do not move. *)

From S2P Require Import Prelude HashPolicy NodeMap.

Section Props.
Context {K V : Type} `{Countable K}.
Variable hash : K -> Z.
Variable alloc : Z -> bool.

#[local] Abbreviation node := (@node K V).
#[local] Abbreviation heap := (gmap Z node).
#[local] Abbreviation table := (@table K V).
#[local] Abbreviation outcome := (@outcome K V).
#[local] Abbreviation size_of m := (Z.of_nat (size m)).

Variable new_node : heap -> option Z.
(** No array is larger than the address space; a new node has an address that is not in use. *)
Hypothesis alloc_max : forall c, alloc c = true -> c < 2 ^ 62.
Hypothesis new_node_fresh : forall h a, new_node h = Some a -> h !! a = None /\ 1 < a.

Implicit Types (h : heap) (t : table) (m : gmap K V) (c : list Z) (cs : list (list Z)).

(** ** Chains *)

Fixpoint chain h (p : Z) c : Prop :=
  match c with
  | [] => p = 0
  | a :: c => p = a /\ 1 < a /\ exists nd, h !! a = Some nd /\ chain h (next nd) c
  end.

(** What the nodes hold, by address. *)
Definition vals h : gmap Z (K * V) := nvalue <$> h.

(** The buckets [es] and their chains. *)
Definition linked (sh : Z) h (es : list Z) cs : Prop := zlen cs = zlen es /\
  forall i e c, zget es i = Some e -> zget cs i = Some c ->
    chain h e c /\ forall a nd, a ∈ c -> h !! a = Some nd -> index_for_hash sh (hash (nvalue nd).1) = i.

Lemma chain_frame h h' p c : chain h p c -> (forall a, a ∈ c -> h' !! a = h !! a) -> chain h' p c.
Proof.
  revert p. induction c as [|a c IH]; intros p; [done|]. intros (-> & Ha & nd & Hnd & Hc) Hsame. split; [done|]. split; [done|].
  exists nd. split; [rewrite Hsame by (by left); done|]. apply IH; [done|]. intros b Hb. apply Hsame. by right.
Qed.

Lemma chain_elem h p c a : chain h p c -> a ∈ c -> 1 < a /\ is_Some (h !! a).
Proof.
  revert p. induction c as [|b c IH]; intros p; [intros _ Hx; by apply elem_of_nil in Hx|]. intros (-> & Hb & nd & Hnd & Hc).
  intros [-> |Ha]%elem_of_cons; [by split; [|exists nd]|by eapply IH].
Qed.

Lemma nodup_heap h c : NoDup c -> (forall a, a ∈ c -> is_Some (h !! a)) -> (length c <= size h)%nat.
Proof.
  intros Hnd Hin. rewrite <- (size_list_to_set (C := gset Z) c Hnd), <- (size_dom (D := gset Z) h). apply subseteq_size.
  intros a Ha. apply elem_of_list_to_set in Ha. by apply elem_of_dom, Hin.
Qed.

(** Exchanging one chain for another. *)
Lemma concat_put cs i c c' : zget cs i = Some c -> c ++ concat (zput cs i c') ≡ₚ c' ++ concat cs.
Proof.
  unfold zget, zput. destruct (i <? 0); [done|]. intros Hi. rewrite insert_take_drop by (by eapply lookup_lt_Some).
  rewrite <- (take_drop_middle cs _ c Hi) at 3. rewrite !concat_app. simpl. solve_Permutation.
Qed.

Lemma elem_of_concat_get cs i c a : zget cs i = Some c -> a ∈ c -> a ∈ concat cs.
Proof. intros Hi Ha. apply (elem_of_Permutation_proper a _ _ (concat_put cs i c [] Hi)). set_solver. Qed.

Lemma elem_of_concat_inv cs a : a ∈ concat cs -> exists i c, zget cs i = Some c /\ a ∈ c.
Proof.
  rewrite list_elem_of_In, in_concat. intros (c & Hc%list_elem_of_In & Ha%list_elem_of_In). apply list_elem_of_lookup in Hc as [j Hj].
  exists (Z.of_nat j), c. split; [|done]. unfold zget. destruct (Z.ltb_spec (Z.of_nat j) 0); [lia|]. by rewrite Nat2Z.id.
Qed.

Lemma nodup_chain cs i c : NoDup (concat cs) -> zget cs i = Some c -> NoDup c.
Proof.
  intros Hnd Hi. pose proof (concat_put cs i c [] Hi) as Hp. simpl in Hp. rewrite <- Hp in Hnd. by apply NoDup_app in Hnd as [? _].
Qed.

(** Two chains have no node in common. *)
Lemma chains_disjoint cs i j c d a : NoDup (concat cs) -> zget cs i = Some c -> zget cs j = Some d -> i <> j -> a ∈ c -> a ∉ d.
Proof.
  intros Hnd Hi Hj Hne Ha Hd. pose proof (concat_put cs i c [] Hi) as Hp. simpl in Hp. rewrite <- Hp in Hnd.
  apply NoDup_app in Hnd as (_ & Hdis & _). apply (Hdis a Ha). apply (elem_of_concat_get _ j d); [by rewrite zget_put_ne|done].
Qed.

(** ** Representation *)

Record allocated (p : Z) t m cs : Prop := Allocated {
  al_p : 0 <= p <= 61;
  al_slots : num_slots_minus_one t = 2 ^ p - 1;
  al_shift : shift t = 64 - Z.max 1 p;
  al_len : zlen (entries t) = 2 ^ Z.max 1 p;
  al_size : num_elements t = size_of m;
  al_load : size_of m <= 2 ^ p;
  al_empty : p = 0 -> m = ∅;
  al_linked : linked (shift t) (nodes t) (entries t) cs;
  al_nodup : NoDup (concat cs);
  al_dom : forall a, a ∈ concat cs <-> is_Some (nodes t !! a);
  al_vals : (map_to_list (vals (nodes t))).*2 ≡ₚ map_to_list m
}.

(** The table [t] has [2 ^ p] buckets, or the two of the static array, and holds the map [m]. *)
Definition rep (p : Z) t m : Prop := exists cs, allocated p t m cs.

Lemma new_table_rep : rep 0 new_table ∅.
Proof.
  exists [[]; []]. split; try done; simpl.
  - split; [done|]. intros i e c He Hc. pose proof (zget_Some_range _ _ _ He) as Hr. change (zlen [0; 0]) with 2 in Hr.
    assert (i = 0 \/ i = 1) as [-> | ->] by lia; injection He as <-; injection Hc as <-; (split; [done|]; intros a nd Ha; by apply elem_of_nil in Ha).
  - by constructor.
  - intros a. rewrite lookup_empty. split; [intros Ha; by apply elem_of_nil in Ha|by intros [? ?]].
Qed.

Lemma node_bucket_range p t m cs k : allocated p t m cs -> 0 <= bucket hash t k < zlen (entries t).
Proof. intros Ha. unfold bucket. rewrite (al_len _ _ _ _ Ha), (al_shift _ _ _ _ Ha). apply index_for_hash_range. pose proof (al_p _ _ _ _ Ha). lia. Qed.

(** A key is in the map when a node holds it. *)
Lemma node_vals_lookup h m k v : (map_to_list (vals h)).*2 ≡ₚ map_to_list m ->
  m !! k = Some v <-> exists a nd, h !! a = Some nd /\ nvalue nd = (k, v).
Proof.
  intros Hv. rewrite <- elem_of_map_to_list, <- Hv, list_elem_of_fmap. split.
  - intros ([a kv] & E & Ha%elem_of_map_to_list). simpl in E. subst kv. unfold vals in Ha. rewrite lookup_fmap in Ha.
    destruct (h !! a) as [nd|] eqn:En; [|done]. injection Ha as Ha. by exists a, nd.
  - intros (a & nd & Ha & Hn). exists (a, (k, v)). split; [done|]. apply elem_of_map_to_list. unfold vals. by rewrite lookup_fmap, Ha, <- Hn.
Qed.

(** An empty map has no nodes. *)
Lemma no_nodes h : (map_to_list (vals h)).*2 ≡ₚ map_to_list (∅ : gmap K V) -> h = ∅.
Proof.
  intros Hv. apply map_empty. intros a. destruct (h !! a) as [nd|] eqn:Ea; [|done].
  assert ((∅ : gmap K V) !! (nvalue nd).1 = Some (nvalue nd).2) as Hx; [|done].
  apply (node_vals_lookup h ∅); [done|]. exists a, nd. split; [done|]. by destruct (nvalue nd).
Qed.

(** ** Lookup *)

Lemma walk_ok (fuel : nat) h k : forall p c, chain h p c -> (length c < fuel)%nat ->
  exists it, walk fuel h k p = Some it /\
    ((it ∈ c /\ exists nd, h !! it = Some nd /\ (nvalue nd).1 = k) \/ (it = 0 /\ forall a nd, a ∈ c -> h !! a = Some nd -> (nvalue nd).1 <> k)).
Proof.
  induction fuel as [|fuel IH]; intros p c Hc Hf; [lia|]. destruct c as [|a c]; simpl in Hc.
  - exists 0. rewrite Hc. split; [done|]. right. split; [done|]. intros a nd Ha. by apply elem_of_nil in Ha.
  - destruct Hc as (-> & Ha & nd & Hnd & Hc). simpl. destruct (Z.eqb_spec a 0); [lia|]. rewrite Hnd.
    destruct (decide (k = (nvalue nd).1)) as [Ek|Ek]; [exists a; split; [done|]; left; split; [by left|by exists nd]|].
    destruct (IH (next nd) c Hc) as (it & E & Hit); [simpl in Hf; lia|]. exists it. split; [done|].
    destruct Hit as [[Hit Hk]|[-> Hno]]; [left; split; [by right|done]|]. right. split; [done|].
    intros b nd' [-> |Hb]%elem_of_cons Hnb; [congruence|by eapply Hno].
Qed.

(** The bucket of a key, and the node of the key in it if the map has it. *)
Lemma walk_bucket_ok p t m cs k : allocated p t m cs ->
  exists e c it, zget (entries t) (bucket hash t k) = Some e /\ zget cs (bucket hash t k) = Some c /\ chain (nodes t) e c /\ walk_bucket hash t k = Some it /\
    match m !! k with
    | Some v => it ∈ c /\ 1 < it /\ exists nd, nodes t !! it = Some nd /\ nvalue nd = (k, v)
    | None => it = 0
    end.
Proof.
  intros Ha. pose proof (node_bucket_range p t m cs k Ha) as Hb. destruct (al_linked _ _ _ _ Ha) as [Hlen Hlk].
  destruct (zget_in_range (entries t) (bucket hash t k) Hb) as [e He]. destruct (zget_in_range cs (bucket hash t k)) as [c Hc]; [lia|].
  destruct (Hlk _ _ _ He Hc) as [Hch Hidx].
  assert (length c <= size (nodes t))%nat as Hlc.
  { apply nodup_heap; [eapply nodup_chain; [apply Ha|done]|]. intros a Hin. by eapply chain_elem. }
  destruct (walk_ok (S (size (nodes t))) (nodes t) k e c Hch) as (it & E & Hit); [lia|].
  exists e, c, it. split; [done|]. split; [done|]. split; [done|]. split; [unfold walk_bucket; by rewrite He|].
  destruct Hit as [(Hin & nd & Hnd & Hk)|[-> Hno]].
  - assert (m !! k = Some (nvalue nd).2) as ->.
    { apply (node_vals_lookup (nodes t) m); [apply Ha|]. exists it, nd. split; [done|]. rewrite <- Hk. by destruct (nvalue nd). }
    split; [done|]. split; [by eapply chain_elem|]. exists nd. split; [done|]. rewrite <- Hk. by destruct (nvalue nd).
  - destruct (m !! k) as [v|] eqn:Em; [|done]. exfalso.
    apply (node_vals_lookup (nodes t) m) in Em as (a & nd & Hnd & Hv); [|apply Ha].
    assert (a ∈ concat cs) as Hin by (apply (al_dom _ _ _ _ Ha); by exists nd).
    apply elem_of_concat_inv in Hin as (j & d & Hj & Hd). pose proof (zget_Some_range _ _ _ Hj) as Hr. rewrite Hlen in Hr.
    destruct (zget_in_range (entries t) j Hr) as [e' He']. destruct (Hlk _ _ _ He' Hj) as [_ Hidx'].
    pose proof (Hidx' a nd Hd Hnd) as Ej. rewrite Hv in Ej. simpl in Ej. fold (bucket hash t k) in Ej.
    assert (d = c) as -> by (rewrite <- Ej in Hj; congruence). apply (Hno a nd Hd Hnd). by rewrite Hv.
Qed.

Lemma node_find_ok p t m k : rep p t m -> exists it, find hash t k = Some it /\
  match m !! k with
  | Some v => 1 < it /\ exists nd, nodes t !! it = Some nd /\ nvalue nd = (k, v)
  | None => it = end_
  end.
Proof.
  intros [cs Ha]. destruct (walk_bucket_ok p t m cs k Ha) as (e & c & it & _ & _ & _ & E & Hit). unfold find. rewrite E.
  eexists. split; [done|]. destruct (m !! k) as [v|]; [|by rewrite Hit]. destruct Hit as (_ & H1 & Hnd). by destruct (Z.eqb_spec it 0); [lia|].
Qed.

(** ** Insertion and rehashing *)

(** A node goes to the front of its bucket. *)
Lemma linked_push sh h es cs a kv idx e c : linked sh h es cs -> a ∉ concat cs -> 1 < a ->
  zget es idx = Some e -> zget cs idx = Some c -> index_for_hash sh (hash kv.1) = idx ->
  linked sh (<[a := Node kv e]> h) (zput es idx a) (zput cs idx (a :: c)).
Proof.
  intros [Hlen Hlk] Hna Ha He Hc Hidx. pose proof (zget_Some_range _ _ _ He) as Hr1. pose proof (zget_Some_range _ _ _ Hc) as Hr2.
  split; [by rewrite !zlen_put|]. intros i e' c' He' Hc'. rewrite zget_put in He' by done. rewrite zget_put in Hc' by done.
  assert (forall j d, zget cs j = Some d -> a ∉ d) as Hfar by (intros j d Hj Hd; apply Hna; by eapply elem_of_concat_get).
  destruct (Z.eqb_spec i idx) as [-> |Hne].
  - injection He' as <-. injection Hc' as <-. destruct (Hlk _ _ _ He Hc) as [Hch Hix]. split.
    + split; [done|]. split; [done|]. exists (Node kv e). split; [apply lookup_insert_eq|]. apply (chain_frame h); [done|].
      intros b Hb. apply lookup_insert_ne. intros ->. by apply (Hfar idx c).
    + intros b nd Hb Hnd. destruct (decide (b = a)) as [-> |Hba].
      * rewrite lookup_insert_eq in Hnd. by injection Hnd as <-.
      * rewrite lookup_insert_ne in Hnd by done. apply elem_of_cons in Hb as [?|Hb]; [done|]. by eapply Hix.
  - destruct (Hlk _ _ _ He' Hc') as [Hch Hix]. split.
    + apply (chain_frame h); [done|]. intros b Hb. apply lookup_insert_ne. intros ->. by apply (Hfar i c').
    + intros b nd Hb Hnd. rewrite lookup_insert_ne in Hnd by (intros ->; by apply (Hfar i c')). by eapply Hix.
Qed.

Lemma relink_ok sh (fuel : nat) : forall h es cs e c, linked sh h es cs -> (forall x, 0 <= index_for_hash sh x < zlen es) ->
  chain h e c -> NoDup (c ++ concat cs) -> (length c < fuel)%nat ->
  exists h' es' cs', relink hash fuel sh h es e = Some (h', es') /\ linked sh h' es' cs' /\ zlen es' = zlen es /\
    concat cs' ≡ₚ c ++ concat cs /\ vals h' = vals h /\ forall a, a ∉ c -> h' !! a = h !! a.
Proof.
  induction fuel as [|fuel IH]; intros h es cs e c Hlk Hrg Hc Hnd Hf; [lia|]. destruct c as [|a c]; simpl in Hc.
  - subst e. exists h, es, cs. done.
  - destruct Hc as (-> & Ha & nd & Hnda & Hc). simpl. destruct (Z.eqb_spec a 0); [lia|]. rewrite Hnda.
    set (idx := index_for_hash sh (hash (nvalue nd).1)). destruct (zget_in_range es idx (Hrg _)) as [slot Hslot].
    destruct (zget_in_range cs idx) as [d Hd]; [rewrite (proj1 Hlk); apply Hrg|]. rewrite Hslot.
    simpl in Hnd. apply NoDup_cons in Hnd as [Hna Hnd].
    assert ((a ∉ c) /\ (a ∉ concat cs)) as [Hac Hacs] by (split; intros ?; apply Hna; apply elem_of_app; auto).
    pose proof (concat_put cs idx d (a :: d) Hd) as Hcp.
    assert (concat (zput cs idx (a :: d)) ≡ₚ a :: concat cs) as Hcp' by (apply (Permutation_app_inv_l d); rewrite Hcp; by rewrite <- Permutation_middle).
    destruct (IH (<[a := Node (nvalue nd) slot]> h) (zput es idx a) (zput cs idx (a :: d)) (next nd) c) as (h' & es' & cs' & E & Hlk' & Hz & Hcc & Hv & Hsame).
    + by apply linked_push.
    + by rewrite zlen_put.
    + apply (chain_frame h); [done|]. intros b Hb. apply lookup_insert_ne. by intros ->.
    + rewrite Hcp'. rewrite <- Permutation_middle. apply NoDup_cons. split; [|done]. by rewrite not_elem_of_app.
    + simpl in Hf. lia.
    + exists h', es', cs'. split; [done|]. split; [done|]. split; [by rewrite Hz, zlen_put|]. split; [rewrite Hcc, Hcp'; by rewrite <- Permutation_middle|]. split.
      * rewrite Hv. unfold vals. rewrite fmap_insert. apply insert_id. by rewrite lookup_fmap, Hnda.
      * intros b Hb. rewrite Hsame by (intros ?; apply Hb; by right). apply lookup_insert_ne. intros ->. apply Hb. by left.
Qed.

Lemma vals_dom h h' : vals h' = vals h -> forall a, is_Some (h' !! a) <-> is_Some (h !! a).
Proof. intros Hv a. apply (f_equal (.!! a)) in Hv. unfold vals in Hv. rewrite !lookup_fmap in Hv. destruct (h !! a), (h' !! a); done. Qed.

Lemma relink_all_ok sh : forall old ds h es cs, linked sh h es cs -> (forall x, 0 <= index_for_hash sh x < zlen es) ->
  Forall2 (chain h) old ds -> NoDup (concat ds ++ concat cs) ->
  exists h' es' cs', relink_all hash sh old h es = Some (h', es') /\ linked sh h' es' cs' /\ zlen es' = zlen es /\
    concat cs' ≡ₚ concat ds ++ concat cs /\ vals h' = vals h.
Proof.
  induction old as [|e old IH]; intros ds h es cs Hlk Hrg Hds Hnd.
  - apply Forall2_nil_inv_l in Hds as ->. by exists h, es, cs.
  - apply Forall2_cons_inv_l in Hds as (d & ds' & Hd & Hds & ->). simpl in Hnd. rewrite <- app_assoc in Hnd.
    pose proof Hnd as (Hndd & Hdis & Hnd')%NoDup_app.
    destruct (relink_ok sh (S (size h)) h es cs e d) as (h1 & es1 & cs1 & E & Hlk1 & Hz1 & Hc1 & Hv1 & Hsame1); try done.
    + apply NoDup_app. split; [done|]. split; [|by apply NoDup_app in Hnd' as (_ & _ & ?)]. intros a Ha Ha'. apply (Hdis a Ha). apply elem_of_app. by right.
    + assert (length d <= size h)%nat; [|lia]. apply nodup_heap; [done|]. intros a Ha. by eapply chain_elem.
    + cbn [relink_all]. rewrite E. destruct (IH ds' h1 es1 cs1 Hlk1) as (h2 & es2 & cs2 & E2 & Hlk2 & Hz2 & Hc2 & Hv2).
      * by rewrite Hz1.
      * apply Forall2_same_length_lookup in Hds as [Hl Hds]. apply Forall2_same_length_lookup. split; [done|]. intros j e' d' He' Hd'.
        apply (chain_frame h); [by eapply Hds|]. intros b Hb. apply Hsame1. apply list_elem_of_lookup_2 in Hd'. intros Hbd. apply (Hdis b Hbd). apply elem_of_app. left. apply list_elem_of_In, in_concat. exists d'. split; by apply list_elem_of_In.
      * rewrite Hc1. rewrite Permutation_app_swap_app. done.
      * exists h2, es2, cs2. split; [done|]. split; [done|]. split; [by rewrite Hz2|]. split; [|by rewrite Hv2].
        rewrite Hc2, Hc1. simpl. rewrite Permutation_app_swap_app. by rewrite <- app_assoc.
Qed.

Lemma pow_pos p : 0 <= p <= 61 -> 1 <= 2 ^ p < 2 ^ 62.
Proof. intros Hp. split; [apply (Z.pow_le_mono_r 2 0); lia|apply Z.pow_lt_mono_r; lia]. Qed.

(** An array of empty buckets. *)
Lemma fresh_linked sh h q : 0 <= q -> linked sh h (zrepeat 0 q) (zrepeat [] q) /\ concat (zrepeat (@nil Z) q) = [].
Proof.
  intros Hq. split; [|unfold zrepeat; by induction (Z.to_nat q)]. split; [by rewrite !zlen_repeat|]. intros i e c He Hc.
  rewrite zget_repeat in He. rewrite zget_repeat in Hc. destruct ((0 <=? i) && (i <? q)); [|done]. injection He as <-. injection Hc as <-.
  split; [done|]. intros a nd Ha. by apply elem_of_nil in Ha.
Qed.

Lemma linked_chains sh h es cs : linked sh h es cs -> Forall2 (chain h) es cs.
Proof.
  intros [Hlen Hlk]. apply Forall2_same_length_lookup. split; [unfold zlen in Hlen; lia|]. intros i e c He Hc.
  apply (Hlk (Z.of_nat i) e c); unfold zget; destruct (Z.ltb_spec (Z.of_nat i) 0); try lia; by rewrite Nat2Z.id.
Qed.

(** An allocator had no memory. *)
Definition refused : Prop := (exists n, alloc n = false) \/ (exists h, new_node h = None).

(** [rehash] to [2 ^ q] buckets: the map is the same, and so are the nodes. *)
Lemma rehash_to p t m nb q : rep p t m -> next_size_over (Z.max nb (size_of m)) = (2 ^ q, 64 - q) -> 1 <= q <= 63 -> size_of m <= 2 ^ q ->
  Z.max nb (size_of m) <> 0 ->
  match rehash hash alloc t nb with
  | Ok t' _ => rep q t' m /\ vals (nodes t') = vals (nodes t)
  | BadAlloc t' => t' = t /\ refused
  | Stuck => False
  end.
Proof.
  intros [cs Ha] Hnext Hq Hld Hne. pose proof Ha as [Hp Hs Hsh Hln Hsz Hl0 He Hlk Hnd Hdom Hv]. unfold rehash. rewrite Hsz.
  pose proof (pow_pos p Hp) as Hpp. destruct (Z.eqb_spec (Z.max nb (size_of m)) 0); [done|]. rewrite Hnext. unfold bucket_count. rewrite Hs.
  rewrite (u64_small (2 ^ p - 1 + 1)) by lia. destruct (Z.eqb_spec (2 ^ q) (2 ^ p - 1 + 1)) as [Eq|Hneq].
  { split; [|done]. replace (2 ^ p - 1 + 1) with (2 ^ p) in Eq by lia. apply Z.pow_inj_r in Eq as ->; [by exists cs|lia..]. }
  destruct (alloc (2 ^ q + 1)) eqn:Ea; [|split; [done|]; left; by eexists]. apply alloc_max in Ea.
  assert (q <= 61) as Hq61.
  { destruct (Z.le_gt_cases q 61) as [|Hgt]; [done|]. assert (2 ^ 62 <= 2 ^ q) by (apply Z.pow_le_mono_r; lia). lia. }
  pose proof (pow_pos q ltac:(lia)) as Hqp. rewrite (u64_small (2 ^ q - 1)) by lia.
  destruct (fresh_linked (64 - q) (nodes t) (2 ^ q) ltac:(lia)) as [Hfl Hfc].
  assert (forall h' es' cs', linked (64 - q) h' es' cs' -> zlen es' = 2 ^ q -> concat cs' ≡ₚ concat cs -> vals h' = vals (nodes t) ->
    rep q (Table es' (2 ^ q - 1) (64 - q) (size_of m) h') m /\ vals h' = vals (nodes t)) as Hfin.
  { intros h' es' cs' Hl' Hz' Hc' Hv'. split; [|done]. exists cs'. split; simpl; rewrite ?Hc', ?Hv', ?(Z.max_r 1 q) by lia; try done; [lia|lia|].
    intros a. rewrite Hc', (vals_dom _ _ Hv'). apply Hdom. }
  destruct (Z.eqb_spec (2 ^ p - 1) 0) as [E0|Hp0].
  - assert (m = ∅) as ->.
    { apply He. destruct (Z.eq_dec p 0); [done|]. assert (2 ^ 1 <= 2 ^ p) by (apply Z.pow_le_mono_r; lia). lia. }
    assert (concat cs = []) as Hcs.
    { destruct (concat cs) as [|a l] eqn:Ec; [done|]. assert (is_Some (nodes t !! a)) as [nd Hx] by (apply Hdom; by left).
      by rewrite (no_nodes _ Hv) in Hx. }
    apply (Hfin _ _ (zrepeat [] (2 ^ q))); [done|by rewrite zlen_repeat by lia|by rewrite Hfc, Hcs|done].
  - assert (1 <= p) as Hp1 by (destruct (Z.eq_dec p 0) as [-> |]; [done|lia]).
    replace (2 ^ p - 1 + 1) with (zlen (entries t)) by (rewrite Hln, Z.max_r by lia; lia). rewrite zslice_all.
    destruct (relink_all_ok (64 - q) (entries t) cs (nodes t) (zrepeat 0 (2 ^ q)) (zrepeat [] (2 ^ q))) as (h' & es' & cs' & E & Hl' & Hz' & Hc' & Hv').
    + done.
    + intros x. rewrite zlen_repeat by lia. apply index_for_hash_range. lia.
    + by eapply linked_chains.
    + by rewrite Hfc, app_nil_r.
    + rewrite E. apply (Hfin _ _ cs'); [done|by rewrite Hz', zlen_repeat by lia|by rewrite Hc', Hfc, app_nil_r|done].
Qed.

(** What an operation on the map [m0] does: it gives the map [m], or reports that memory was refused
    and leaves the map as it was. *)
Definition becomes {A} (m0 m : gmap K V) (P : table -> A -> Prop) (o : outcome A) : Prop :=
  match o with
  | Ok t x => (exists p, rep p t m) /\ P t x
  | BadAlloc t => (exists p, rep p t m0) /\ refused
  | Stuck => False
  end.

(** The nodes of [t] are still there in [t'], with their values. *)
Definition keeps t t' : Prop := vals (nodes t) ⊆ vals (nodes t').

Lemma node_rehash_ok p t m nb : rep p t m -> 0 <= nb <= 2 ^ 63 -> becomes m m (fun t' _ => keeps t t') (rehash hash alloc t nb).
Proof.
  intros Hr Hnb. pose proof Hr as [cs [Hp _ _ _ Hsz Hl0 _ _ _ Hdom Hv]]. pose proof (pow_pos p Hp).
  destruct (Z.eq_dec (Z.max nb (size_of m)) 0) as [E0|Hne].
  - assert (m = ∅) as -> by (apply map_size_empty_inv; lia). unfold rehash. rewrite Hsz, E0. simpl. split; [|unfold keeps; reflexivity]. exists 0.
    unfold reset_to_empty_state. rewrite Hsz. rewrite (no_nodes _ Hv), map_size_empty. apply new_table_rep.
  - destruct (next_size_over_fits (Z.max nb (size_of m))) as (q & Hq & E & Hfit); [lia|].
    pose proof (rehash_to p t m nb q Hr E Hq ltac:(lia) Hne) as Hre. destruct (rehash hash alloc t nb) as [t' x|t'|]; simpl; [|destruct Hre as [-> ?]; split; [by exists p|done]|done].
    destruct Hre as [Hr' Hv']. split; [by exists q|]. unfold keeps. by rewrite Hv'.
Qed.

Lemma node_grow_ok p t m : rep p t m -> match grow hash alloc t with
  | Ok t' _ => exists q, p < q /\ 2 ^ p < 2 ^ q /\ rep q t' m /\ vals (nodes t') = vals (nodes t)
  | BadAlloc t' => t' = t /\ refused
  | Stuck => False
  end.
Proof.
  intros Hr. pose proof Hr as [cs [Hp Hs _ _ _ Hl0 _ _ _ _ _]]. pose proof (pow_pos p Hp) as Hpp. unfold grow, bucket_count. rewrite Hs.
  assert (exists q, p < q <= 62 /\ Z.max 4 (2 *s u64 (2 ^ p - 1 + 1)) = 2 ^ q) as (q & Hq & ->).
  { rewrite (u64_small (2 ^ p - 1 + 1)) by lia. rewrite u64_small by lia. destruct (Z.eq_dec p 0) as [-> |]; [by exists 2|].
    exists (p + 1). split; [lia|]. rewrite Z.pow_add_r by lia. assert (2 ^ 1 <= 2 ^ p) by (apply Z.pow_le_mono_r; lia). lia. }
  assert (2 ^ p < 2 ^ q) as Hlt by (apply Z.pow_lt_mono_r; lia).
  pose proof (rehash_to p t m (2 ^ q) q Hr) as Hre. rewrite Z.max_l in Hre by lia. rewrite next_size_over_exact in Hre by lia.
  specialize (Hre eq_refl ltac:(lia) ltac:(lia) ltac:(lia)). destruct (rehash hash alloc t (2 ^ q)) as [t' x|t'|]; [|done..].
  destruct Hre. exists q. done || (split; [lia|done]).
Qed.

(** ** emplace *)

Definition emplaced t m k v (t' : table) (r : Z * bool) : Prop :=
  keeps t t' /\ r.2 = bool_decide (m !! k = None) /\ 1 < r.1 /\ vals (nodes t') !! r.1 = Some (k, default v (m !! k)).

Lemma emplace_new p t m k v (fuel : nat) : rep p t m -> m !! k = None -> is_full t = false ->
  becomes m (<[k := v]> m) (emplaced t m k v) (emplace_fuel hash alloc new_node (S fuel) t (k, v)).
Proof.
  intros [cs Ha] Hk Hfull. cbn [emplace_fuel]. change ((k, v).1) with k.
  destruct (walk_bucket_ok p t m cs k Ha) as (e & c & it & He & Hc & Hch & E & Hit). rewrite Hk in Hit. subst it. rewrite E, Hfull, He. simpl.
  destruct (new_node (nodes t)) as [a|] eqn:Ea; [|split; [by exists p, cs|right; by eexists]]. apply new_node_fresh in Ea as [Hfr Ha1].
  destruct Ha as [Hp Hs Hsh Hln Hsz Hl0 Hem Hlk Hnd Hdom Hv]. pose proof (pow_pos p Hp) as Hpp.
  assert (a ∉ concat cs) as Hna by (intros Hx%Hdom; rewrite Hfr in Hx; by destruct Hx).
  assert (concat (zput cs (bucket hash t k) (a :: c)) ≡ₚ a :: concat cs) as Hcp.
  { apply (Permutation_app_inv_l c). rewrite (concat_put cs _ c (a :: c) Hc). by rewrite <- Permutation_middle. }
  assert (vals (<[a := Node (k, v) e]> (nodes t)) = <[a := (k, v)]> (vals (nodes t))) as Hvi by (unfold vals; by rewrite fmap_insert).
  assert (vals (nodes t) !! a = None) as Hva by (unfold vals; by rewrite lookup_fmap, Hfr).
  assert (p <> 0 /\ size_of m + 1 <= 2 ^ p) as [Hp0 Hld'].
  { unfold is_full in Hfull. rewrite Hs, Hsz in Hfull. destruct (Z.eqb_spec (2 ^ p - 1) 0) as [|Hn0]; [done|]. apply Z.ltb_ge in Hfull.
    split; [intros ->; done|lia]. }
  split.
  - exists p, (zput cs (bucket hash t k) (a :: c)). split; simpl; try done.
    + by rewrite zlen_put.
    + rewrite map_size_insert_None by done. rewrite Hsz. rewrite u64_small; lia.
    + rewrite map_size_insert_None by done. lia.
    + by apply linked_push.
    + rewrite Hcp. by apply NoDup_cons.
    + intros b. rewrite Hcp, elem_of_cons, Hdom. destruct (decide (b = a)) as [-> |Hne]; [rewrite lookup_insert_eq; split; [by eexists|by left]|].
      rewrite lookup_insert_ne by done. naive_solver.
    + rewrite Hvi, map_to_list_insert by done. rewrite fmap_cons. rewrite map_to_list_insert by done. by rewrite Hv.
  - split; [unfold keeps; simpl; rewrite Hvi; by apply insert_subseteq|]. rewrite Hk. split; [done|]. split; [done|]. simpl. rewrite Hvi. apply lookup_insert_eq.
Qed.

Lemma node_keeps_trans t1 t2 t3 : keeps t1 t2 -> keeps t2 t3 -> keeps t1 t3.
Proof. unfold keeps. by etrans. Qed.

Lemma emplace_full (fuel : nat) t kv : walk_bucket hash t kv.1 = Some 0 -> is_full t = true ->
  emplace_fuel hash alloc new_node (S fuel) t kv = bind (grow hash alloc t) (fun t' _ => emplace_fuel hash alloc new_node fuel t' kv).
Proof. intros E Ef. cbn [emplace_fuel]. by rewrite E, Ef. Qed.

Lemma node_emplace_ok p t m k v : rep p t m ->
  becomes m (<[k := default v (m !! k)]> m) (emplaced t m k v) (emplace hash alloc new_node t (k, v)).
Proof.
  intros Hr. pose proof Hr as [cs Ha]. unfold emplace. destruct (walk_bucket_ok p t m cs k Ha) as (e & c & it & _ & _ & _ & E & Hit).
  destruct (m !! k) as [v0|] eqn:Hk.
  - cbn [emplace_fuel]. change ((k, v).1) with k. rewrite E. destruct Hit as (_ & Hit1 & nd & Hnd & Hv). destruct (Z.eqb_spec it 0); [lia|].
    split; [exists p; simpl; by rewrite insert_id|]. split; [unfold keeps; reflexivity|]. rewrite Hk. split; [done|]. split; [done|].
    simpl. unfold vals. by rewrite lookup_fmap, Hnd, <- Hv.
  - destruct (is_full t) eqn:Ef; [|by apply (emplace_new p)].
    rewrite Hit in E. rewrite emplace_full by done.
    pose proof (node_grow_ok p t m Hr) as Hg. destruct (grow hash alloc t) as [t' x|t'|]; cbn [bind]; [|destruct Hg as [-> ?]; split; [by exists p|done]|done].
    destruct Hg as (q & Hq & Hlt & Hr' & Hv). pose proof Hr' as [cs' [Hp' Hs' _ _ Hsz' _ _ _ _ _ _]].
    assert (is_full t' = false) as Ef'.
    { unfold is_full. rewrite Hs', Hsz'. pose proof (al_load _ _ _ _ Ha). pose proof (pow_pos p (al_p _ _ _ _ Ha)).
      destruct (Z.eqb_spec (2 ^ q - 1) 0); [lia|]. apply Z.ltb_ge. lia. }
    pose proof (emplace_new q t' m k v 0 Hr' Hk Ef') as He. destruct (emplace_fuel hash alloc new_node 1 t' (k, v)) as [t2 r|t2|]; [|done..].
    destruct He as [Hr2 (Hkp & Hrest)]. split; [done|]. split; [|done]. apply (node_keeps_trans t t'); [unfold keeps; by rewrite Hv|done].
Qed.

(** ** Changing one chain *)

(** A chain is replaced by one with some of its nodes, which keep their keys. *)
Lemma linked_replace sh h h' es cs b e c c' : linked sh h es cs -> NoDup (concat cs) -> zget cs b = Some c ->
  chain h' e c' -> (forall a, a ∈ c' -> a ∈ c) -> (forall a, a ∉ c -> h' !! a = h !! a) ->
  (forall a nd, a ∈ c' -> h' !! a = Some nd -> exists nd0, h !! a = Some nd0 /\ (nvalue nd0).1 = (nvalue nd).1) ->
  linked sh h' (zput es b e) (zput cs b c').
Proof.
  intros [Hlen Hlk] Hnd Hb Hch Hsub Hsame Hkey. pose proof (zget_Some_range _ _ _ Hb) as Hr.
  split; [by rewrite !zlen_put|]. intros i e1 c1 He1 Hc1. rewrite zget_put in He1 by lia. rewrite zget_put in Hc1 by lia.
  destruct (Z.eqb_spec i b) as [-> |Hne].
  - injection He1 as <-. injection Hc1 as <-. split; [done|]. intros a nd Ha Hn. destruct (Hkey a nd Ha Hn) as (nd0 & Hn0 & <-).
    destruct (zget_in_range es b) as [e0 He0]; [lia|]. destruct (Hlk _ _ _ He0 Hb) as [_ Hix]. apply (Hix a nd0); [by apply Hsub|done].
  - destruct (Hlk _ _ _ He1 Hc1) as [Hch1 Hix1].
    assert (forall a, a ∈ c1 -> h' !! a = h !! a) as Hs1 by (intros a Ha; apply Hsame; intros Hac; exact (chains_disjoint cs b i c c1 a Hnd Hb Hc1 ltac:(done) Hac Ha)).
    split; [by apply (chain_frame h)|]. intros a nd Ha Hn. rewrite Hs1 in Hn by done. by apply (Hix1 a nd).
Qed.

Lemma zput_same {A} (l : list A) i x : zget l i = Some x -> zput l i x = l.
Proof. unfold zget, zput. destruct (i <? 0); [done|]. apply list_insert_id. Qed.

Lemma filter_notin c (it : Z) : it ∉ c -> filter (fun a => a <> it) c = c.
Proof. intros Hn. apply filter_all. intros a Ha ->. done. Qed.

Lemma unlink_ok (fuel : nat) h it ndi : h !! it = Some ndi -> forall e c, chain h e c -> NoDup c -> it ∈ c -> e <> it -> (length c < fuel)%nat ->
  exists h', unlink fuel h e it (next ndi) = Some h' /\ chain h' e (filter (fun a => a <> it) c) /\ vals h' = vals h /\
    (forall a, a ∉ c -> h' !! a = h !! a) /\ h' !! it = h !! it.
Proof.
  intros Hit. induction fuel as [|fuel IH]; intros e c Hc Hnd Hin Hne Hf; [lia|]. destruct c as [|a c]; [by apply elem_of_nil in Hin|].
  simpl in Hc. destruct Hc as (-> & Ha & nd & Hnda & Hc). apply NoDup_cons in Hnd as [Hna Hnd].
  assert (it ∈ c) as Hin' by (apply elem_of_cons in Hin as [?|?]; [congruence|done]).
  cbn [unlink]. rewrite Hnda. rewrite filter_cons_True by done. destruct (Z.eqb_spec (next nd) it) as [En|Hn].
  - destruct c as [|b c]; [by apply elem_of_nil in Hin'|]. destruct Hc as (Eb & Hb & ndb & Hndb & Hc). rewrite En in Eb. subst b.
    rewrite Hit in Hndb. injection Hndb as <-. apply NoDup_cons in Hnd as [Hnb Hnd].
    exists (<[a := Node (nvalue nd) (next ndi)]> h). split; [done|]. rewrite filter_cons_False by (intros ?; done). rewrite filter_notin by done. split; [|split; [|split]].
    + split; [done|]. split; [done|]. exists (Node (nvalue nd) (next ndi)). split; [apply lookup_insert_eq|]. apply (chain_frame h); [done|].
      intros x Hx. apply lookup_insert_ne. intros ->. apply Hna. by right.
    + unfold vals. rewrite fmap_insert. apply insert_id. by rewrite lookup_fmap, Hnda.
    + intros x Hx. apply lookup_insert_ne. intros ->. apply Hx. by left.
    + by apply lookup_insert_ne.
  - destruct (IH (next nd) c Hc Hnd Hin' Hn) as (h' & E & Hch & Hv & Hsame & Hi); [simpl in Hf; lia|]. exists h'. split; [done|]. split; [|split; [done|split; [|done]]].
    + split; [done|]. split; [done|]. exists nd. by rewrite Hsame.
    + intros x Hx. apply Hsame. intros ?. apply Hx. by right.
Qed.

Lemma vals_node h h' a nd : vals h' = vals h -> h' !! a = Some nd -> exists nd0, h !! a = Some nd0 /\ nvalue nd0 = nvalue nd.
Proof.
  intros Hv Ha. apply (f_equal (.!! a)) in Hv. unfold vals in Hv. rewrite !lookup_fmap, Ha in Hv. destruct (h !! a) as [nd0|]; [|done].
  exists nd0. split; [done|]. by injection Hv.
Qed.

(** A heap and buckets without the node [it]. *)
Lemma erase_rep p t m cs k v b c it nd h' e' : allocated p t m cs -> m !! k = Some v -> zget cs b = Some c -> it ∈ c ->
  nodes t !! it = Some nd -> nvalue nd = (k, v) -> vals h' = vals (nodes t) -> (forall a, a ∉ c -> h' !! a = nodes t !! a) ->
  chain h' e' (filter (fun a => a <> it) c) ->
  rep p (Table (zput (entries t) b e') (num_slots_minus_one t) (shift t) (num_elements t -s 1) (delete it h')) (delete k m).
Proof.
  intros [Hp Hs Hsh Hln Hsz Hl0 Hem Hlk Hnd Hdom Hv] Hk Hb Hit Hnit Hval Hv' Hsame Hch. pose proof (pow_pos p Hp) as Hpp.
  pose proof (nodup_chain cs b c Hnd Hb) as Hndc.
  assert (c ≡ₚ it :: filter (fun a => a <> it) c) as Hc.
  { apply NoDup_Permutation; [done| |].
    - apply NoDup_cons. split; [by intros [? _]%list_elem_of_filter|by apply NoDup_filter].
    - intros x. rewrite elem_of_cons, list_elem_of_filter. destruct (decide (x = it)) as [-> |]; naive_solver. }
  assert (it :: concat (zput cs b (filter (fun a => a <> it) c)) ≡ₚ concat cs) as Hcc.
  { apply (Permutation_app_inv_l (filter (fun a => a <> it) c)). rewrite <- (concat_put cs b c _ Hb).
    rewrite <- Permutation_middle. change (it :: ?x ++ ?y) with ((it :: x) ++ y). by apply Permutation_app_tail. }
  assert (vals (nodes t) !! it = Some (k, v)) as Hvit by (unfold vals; by rewrite lookup_fmap, Hnit, <- Hval).
  assert (size (delete k m) = Nat.pred (size m)) as Esz by (apply map_size_delete_Some; by exists v).
  assert (size m <> 0)%nat as Hnz by (intros E0%map_size_empty_iff; by rewrite E0 in Hk).
  exists (zput cs b (filter (fun a => a <> it) c)). split; simpl; try done.
  - by rewrite zlen_put.
  - rewrite Hsz, Esz. rewrite u64_small; lia.
  - lia.
  - intros ->. rewrite (Hem eq_refl) in Hk. done.
  - apply (linked_replace _ (nodes t) _ _ _ _ _ c); try done.
    + apply (chain_frame h'); [done|]. intros a [Ha _]%list_elem_of_filter. by apply lookup_delete_ne.
    + by intros a [_ ?]%list_elem_of_filter.
    + intros a Ha. rewrite lookup_delete_ne by (by intros ->). by apply Hsame.
    + intros a nd' Ha Hn. apply list_elem_of_filter in Ha as [Ha _]. rewrite lookup_delete_ne in Hn by done.
      destruct (vals_node _ _ _ _ Hv' Hn) as (nd0 & Hn0 & <-). by exists nd0.
  - rewrite <- Hcc in Hnd. by apply NoDup_cons in Hnd as [_ ?].
  - intros a. destruct (decide (a = it)) as [-> |Hne].
    + rewrite lookup_delete_eq. split; [|by intros [? ?]]. intros Hx. rewrite <- Hcc in Hnd. by apply NoDup_cons in Hnd as [? _].
    + rewrite lookup_delete_ne by done. rewrite (vals_dom _ _ Hv'), <- Hdom, <- Hcc, elem_of_cons. naive_solver.
  - assert (vals (delete it h') = delete it (vals (nodes t))) as -> by (unfold vals at 1; by rewrite fmap_delete, <- Hv').
    apply (Permutation_cons_inv (a := (k, v))). rewrite (map_to_list_delete m k v Hk), <- Hv.
    rewrite <- (map_to_list_delete (vals (nodes t)) it (k, v) Hvit). done.
Qed.

Lemma node_erase_ok p t m k : rep p t m ->
  becomes m (delete k m) (fun t' n => n = (if decide (is_Some (m !! k)) then 1 else 0) /\
    forall a kv, vals (nodes t) !! a = Some kv -> kv.1 <> k -> vals (nodes t') !! a = Some kv) (erase hash t k).
Proof.
  intros [cs Ha]. destruct (walk_bucket_ok p t m cs k Ha) as (e & c & it & He & Hc & Hch & E & Hit). unfold erase, find. rewrite E.
  destruct (m !! k) as [v|] eqn:Hk.
  2: { subst it. simpl. split; [exists p, cs; by rewrite delete_id|]. by split. }
  destruct Hit as (Hin & Hit1 & nd & Hnd & Hval). destruct (Z.eqb_spec it 0); [lia|]. unfold end_. destruct (Z.eqb_spec it 1); [lia|].
  pose proof (nodup_chain cs _ c (al_nodup _ _ _ _ Ha) Hc) as Hndc.
  assert (forall h', vals h' = vals (nodes t) -> forall a kv, vals (nodes t) !! a = Some kv -> kv.1 <> k -> vals (delete it h') !! a = Some kv) as Hkeep.
  { intros h' Hv' a kv Hkv Hne. unfold vals. rewrite fmap_delete. fold (vals h'). rewrite Hv'. rewrite lookup_delete_ne; [done|].
    intros <-. unfold vals in Hkv. rewrite lookup_fmap, Hnd in Hkv. injection Hkv as <-. by rewrite Hval in Hne. }
  unfold erase_at. rewrite He, Hnd. destruct (Z.eqb_spec e it) as [-> |Hne].
  - simpl. destruct c as [|a c]; [by apply elem_of_nil in Hin|]. simpl in Hch. destruct Hch as (-> & Ha1 & nd' & Hnd' & Hch).
    assert (nd' = nd) as -> by congruence. apply NoDup_cons in Hndc as [Hna Hndc]. split; [exists p|split; [done|by apply Hkeep]].
    eapply (erase_rep p t m cs k v _ (a :: c) a nd); try done. rewrite filter_cons_False by (intros ?; done). by rewrite filter_notin.
  - assert (length c <= size (nodes t))%nat as Hl by (apply nodup_heap; [done|intros a Hx; by eapply chain_elem]).
    destruct (unlink_ok (S (size (nodes t))) (nodes t) it nd Hnd e c Hch Hndc Hin Hne) as (h' & -> & Hch' & Hv' & Hsame & _); [lia|].
    simpl. split; [exists p|split; [done|by apply Hkeep]]. rewrite <- (zput_same (entries t) (bucket hash t k) e He) at 1.
    by eapply (erase_rep p t m cs k v _ c it nd).
Qed.

(** ** clear *)

Lemma free_chain_ok (fuel : nat) : forall h e c, chain h e c -> NoDup c -> (length c < fuel)%nat ->
  exists h', free_chain fuel h e = Some h' /\ (forall a, a ∈ c -> h' !! a = None) /\ forall a, a ∉ c -> h' !! a = h !! a.
Proof.
  induction fuel as [|fuel IH]; intros h e c Hc Hnd Hf; [lia|]. destruct c as [|a c]; simpl in Hc.
  - subst e. exists h. split; [done|]. split; [intros a Ha; by apply elem_of_nil in Ha|done].
  - destruct Hc as (-> & Ha & nd & Hnda & Hc). apply NoDup_cons in Hnd as [Hna Hnd]. simpl. destruct (Z.eqb_spec a 0); [lia|]. rewrite Hnda.
    destruct (IH (delete a h) (next nd) c) as (h' & E & Hin & Hout); [|done|simpl in Hf; lia|].
    { apply (chain_frame h); [done|]. intros b Hb. apply lookup_delete_ne. by intros ->. }
    exists h'. split; [done|]. split.
    + intros b Hb. destruct (decide (b ∈ c)) as [|Hnb]; [by apply Hin|]. rewrite Hout by done. apply elem_of_cons in Hb as [-> |]; [apply lookup_delete_eq|done].
    + intros b Hb. rewrite Hout by (intros ?; apply Hb; by right). apply lookup_delete_ne. intros ->. apply Hb. by left.
Qed.

Lemma free_all_ok : forall es cs h, Forall2 (chain h) es cs -> NoDup (concat cs) ->
  exists h', free_all es h = Some h' /\ (forall a, a ∈ concat cs -> h' !! a = None) /\ forall a, a ∉ concat cs -> h' !! a = h !! a.
Proof.
  induction es as [|e es IH]; intros cs h Hcs Hnd.
  - apply Forall2_nil_inv_l in Hcs as ->. exists h. split; [done|]. split; [intros a Ha; by apply elem_of_nil in Ha|done].
  - apply Forall2_cons_inv_l in Hcs as (c & cs' & Hc & Hcs & ->). simpl in Hnd. apply NoDup_app in Hnd as (Hndc & Hdis & Hnd). cbn [free_all].
    destruct (free_chain_ok (S (size h)) h e c Hc Hndc) as (h1 & -> & Hin1 & Hout1).
    { assert (length c <= size h)%nat; [|lia]. apply nodup_heap; [done|]. intros a Ha. by eapply chain_elem. }
    destruct (IH cs' h1) as (h2 & E & Hin2 & Hout2); [|done|].
    { apply Forall2_same_length_lookup in Hcs as [Hl Hcs]. apply Forall2_same_length_lookup. split; [done|]. intros j e' d' He' Hd'.
      apply (chain_frame h); [by eapply Hcs|]. intros b Hb. apply Hout1. apply list_elem_of_lookup_2 in Hd'. intros Hbd. apply (Hdis b Hbd).
      apply list_elem_of_In, in_concat. exists d'. split; by apply list_elem_of_In. }
    exists h2. split; [done|]. simpl. split; intros a Ha.
    + destruct (decide (a ∈ concat cs')) as [|Hn]; [by apply Hin2|]. rewrite Hout2 by done. apply elem_of_app in Ha as [|]; [by apply Hin1|done].
    + rewrite not_elem_of_app in Ha. destruct Ha. rewrite Hout2 by done. by apply Hout1.
Qed.

(** Every node is freed, none twice. *)
Lemma node_clear_ok p t m : rep p t m -> exists t', clear t = Some t' /\ rep p t' ∅ /\ nodes t' = ∅.
Proof.
  intros [cs Ha]. pose proof Ha as [Hp Hs Hsh Hln Hsz Hl0 Hem Hlk Hnd Hdom Hv]. pose proof (pow_pos p Hp) as Hpp. unfold clear. rewrite Hs.
  destruct (Z.eqb_spec (2 ^ p - 1) 0) as [E0|Hne].
  - assert (m = ∅) as ->.
    { apply Hem. destruct (Z.eq_dec p 0); [done|]. assert (2 ^ 1 <= 2 ^ p) by (apply Z.pow_le_mono_r; lia). lia. }
    exists t. split; [done|]. split; [by exists cs|]. by apply no_nodes.
  - destruct (free_all_ok (entries t) cs (nodes t) (linked_chains _ _ _ _ Hlk) Hnd) as (h' & -> & Hin & Hout).
    assert (h' = ∅) as ->.
    { apply map_empty. intros a. destruct (decide (a ∈ concat cs)) as [|Hn]; [by apply Hin|]. rewrite Hout by done.
      apply eq_None_not_Some. by rewrite <- Hdom. }
    eexists. split; [done|]. split; [|done]. replace (2 ^ p - 1 + 1) with (2 ^ p) by lia.
    assert (1 <= p) as Hp1 by (destruct (Z.eq_dec p 0) as [-> |]; [done|lia]).
    destruct (fresh_linked (shift t) (∅ : heap) (2 ^ p) ltac:(lia)) as [Hfl Hfc]. exists (zrepeat [] (2 ^ p)).
    split; simpl; rewrite ?Hfc, ?map_size_empty, ?zlen_repeat, ?(Z.max_r 1 p) by lia; try done; try lia; [by constructor|].
    + intros a. rewrite lookup_empty. split; [intros Hx; by apply elem_of_nil in Hx|by intros [? ?]].
Qed.

(** ** Iteration *)

(** The nodes of the [n] first buckets, in the order of iteration. *)
Fixpoint below cs (n : nat) : list Z := match n with O => [] | S n => default [] (cs !! n) ++ below cs n end.

Lemma below_all cs (n : nat) : (n <= length cs)%nat -> below cs n ≡ₚ concat (take n cs).
Proof.
  induction n as [|n IH]; intros Hn; [done|]. destruct (lookup_lt_is_Some_2 cs n) as [c Hc]; [lia|]. simpl. rewrite Hc, (take_S_r _ _ _ Hc), concat_app. simpl.
  rewrite IH by lia. rewrite app_nil_r. by rewrite Permutation_app_comm.
Qed.

(** The values at the addresses [l]. *)
Definition values_at h (l : list Z) : list (K * V) := omap (fun a => vals h !! a) l.

#[local] Instance values_at_proper h : Proper ((≡ₚ) ==> (≡ₚ)) (values_at h).
Proof. unfold values_at. intros l l' Hl. by rewrite Hl. Qed.

Lemma values_at_all h l : NoDup l -> (forall a, a ∈ l <-> is_Some (h !! a)) -> values_at h l ≡ₚ (map_to_list (vals h)).*2.
Proof.
  intros Hnd Hdom. assert (l ≡ₚ (map_to_list (vals h)).*1) as ->.
  { apply NoDup_Permutation; [done|apply NoDup_fst_map_to_list|]. intros a. rewrite Hdom, list_elem_of_fmap. split.
    - intros [nd Ha]. exists (a, nvalue nd). split; [done|]. apply elem_of_map_to_list. unfold vals. by rewrite lookup_fmap, Ha.
    - intros ([a' kv] & -> & Ha%elem_of_map_to_list). unfold vals in Ha. rewrite lookup_fmap in Ha. simpl. destruct (h !! a'); [by eexists|done]. }
  assert (forall L : list (Z * (K * V)), (forall x, x ∈ L -> vals h !! x.1 = Some x.2) -> values_at h L.*1 = L.*2) as Hgen.
  { induction L as [|x L IH]; intros HL; [done|]. unfold values_at. simpl. rewrite (HL x) by (by left). simpl. f_equal. apply IH.
    intros y Hy. apply HL. by right. }
  rewrite Hgen; [done|]. intros [a kv] Ha. by apply elem_of_map_to_list in Ha.
Qed.

Lemma scan_down_ok (fuel : nat) h es cs : Forall2 (chain h) es cs -> forall n : nat, (n <= length es)%nat -> (n < fuel)%nat ->
  exists it b, scan_down fuel es (Z.of_nat n - 1) = Some (it, b) /\
    ((it = end_ /\ below cs n = []) \/ exists j c, b = Z.of_nat j /\ (j < n)%nat /\ chain h it c /\ c <> [] /\ below cs n = c ++ below cs j).
Proof.
  intros Hcs. pose proof (Forall2_length _ _ _ Hcs) as Hlen. induction fuel as [|fuel IH]; intros n Hn Hf; [lia|].
  cbn [scan_down]. destruct n as [|n]; [exists end_, (-1); split; [done|by left]|].
  destruct (Z.eqb_spec (Z.of_nat (S n) - 1) (-1)); [lia|]. destruct (lookup_lt_is_Some_2 es n) as [e He]; [lia|].
  destruct (lookup_lt_is_Some_2 cs n) as [c Hc]; [lia|].
  assert (zget es (Z.of_nat (S n) - 1) = Some e) as ->.
  { unfold zget. destruct (Z.ltb_spec (Z.of_nat (S n) - 1) 0); [lia|]. by replace (Z.to_nat (Z.of_nat (S n) - 1)) with n by lia. }
  assert (chain h e c) as Hch by (by eapply Forall2_lookup_lr). cbn [below]. rewrite Hc. simpl (default _ _).
  destruct c as [|a c]; simpl in Hch.
  - subst e. simpl (0 =? 0). cbv iota. replace (Z.of_nat (S n) - 1 - 1) with (Z.of_nat n - 1) by lia.
    destruct (IH n) as (it & b & E & Hit); [lia..|]. exists it, b. split; [done|]. destruct Hit as [?|(j & c' & ? & ? & ?)]; [by left|]. right. exists j, c'. split; [done|]. split; [lia|done].
  - destruct Hch as (-> & Ha & Hnd). destruct (Z.eqb_spec a 0); [lia|]. exists a, (Z.of_nat (S n) - 1). split; [done|]. right. exists n, (a :: c).
    split; [lia|]. split; [lia|]. done.
Qed.

Lemma node_iterate_from_ok t cs (fuel : nat) : Forall2 (chain (nodes t)) (entries t) cs -> forall (j : nat) it c, (j <= length (entries t))%nat ->
  chain (nodes t) it c -> c <> [] -> (length (c ++ below cs j) < fuel)%nat ->
  iterate_from fuel t it (Z.of_nat j) = Some (values_at (nodes t) (c ++ below cs j)).
Proof.
  intros Hcs. induction fuel as [|fuel IH]; intros j it c Hj Hch Hne Hf; [lia|]. destruct c as [|a c]; [done|]. simpl in Hch.
  destruct Hch as (-> & Ha & nd & Hnd & Hch). cbn [iterate_from]. unfold end_. destruct (Z.eqb_spec a 1); [lia|]. rewrite Hnd.
  assert (values_at (nodes t) ((a :: c) ++ below cs j) = nvalue nd :: values_at (nodes t) (c ++ below cs j)) as ->.
  { unfold values_at. simpl. unfold vals at 1. by rewrite lookup_fmap, Hnd. }
  cbn [app length] in Hf. destruct c as [|a' c].
  - simpl in Hch. rewrite Hch. simpl (0 =? 0). cbv iota. cbn [app] in Hf |- *.
    destruct (scan_down_ok (S (length (entries t))) (nodes t) (entries t) cs Hcs j Hj) as (it' & b' & -> & Hit); [lia|].
    destruct Hit as [[-> Hb]|(j' & c' & -> & Hj' & Hc' & Hne' & Hb)].
    + rewrite Hb. destruct fuel as [|fuel]; [lia|]. done.
    + rewrite Hb. rewrite (IH j' it' c'); [done|lia|done|done|]. rewrite <- Hb. lia.
  - pose proof Hch as (En & Ha' & _). destruct (Z.eqb_spec (next nd) 0); [lia|]. by rewrite (IH j (next nd) (a' :: c)) by (done || (simpl in *; lia)).
Qed.

(** Iteration visits the value of every node once. *)
Lemma node_iterate_ok p t m : rep p t m -> exists l, iterate t = Some l /\ l ≡ₚ map_to_list m.
Proof.
  intros [cs Ha]. pose proof Ha as [Hp Hs Hsh Hln Hsz Hl0 Hem Hlk Hnd Hdom Hv]. pose proof (pow_pos p Hp) as Hpp.
  pose proof (linked_chains _ _ _ _ Hlk) as Hcs. pose proof (Forall2_length _ _ _ Hcs) as Hlen.
  assert (2 ^ p <= zlen (entries t)) as Hle by (rewrite Hln; apply Z.pow_le_mono_r; lia). unfold zlen in Hle, Hln.
  set (n := Z.to_nat (2 ^ p)).
  assert (values_at (nodes t) (below cs n) ≡ₚ map_to_list m) as Hall.
  { rewrite <- Hv. destruct (Z.eq_dec p 0) as [E0|Hp0].
    - rewrite (Hem E0) in Hv. rewrite (no_nodes _ Hv). unfold values_at. generalize (below cs n). by induction l.
    - assert (below cs n ≡ₚ concat cs) as Hbel.
      { rewrite below_all by (subst n; lia). rewrite take_ge; [done|]. rewrite Z.max_r in Hln by lia. subst n. lia. }
      apply values_at_all; [by rewrite Hbel|]. intros a. rewrite Hbel. apply Hdom. }
  assert (length (below cs n) <= size (nodes t))%nat as Hsize.
  { rewrite below_all by (subst n; lia). assert (concat cs ≡ₚ concat (take n cs) ++ concat (drop n cs)) as Hsplit by (by rewrite <- concat_app, take_drop).
    apply nodup_heap; [rewrite Hsplit in Hnd; by apply NoDup_app in Hnd as [? _]|]. intros a Hx. apply Hdom. rewrite Hsplit. apply elem_of_app. by left. }
  unfold iterate, begin. rewrite Hs. replace (2 ^ p - 1) with (Z.of_nat n - 1) by (subst n; lia).
  destruct (scan_down_ok (S (length (entries t))) (nodes t) (entries t) cs Hcs n) as (it & b & -> & Hit); [subst n; lia..|].
  exists (values_at (nodes t) (below cs n)). split; [|done]. destruct Hit as [[-> Hb]|(j & c & -> & Hj & Hc & Hne & Hb)].
  - by rewrite Hb.
  - rewrite Hb. apply node_iterate_from_ok; [done|subst n; lia|done|done|]. rewrite <- Hb. lia.
Qed.

(** ** The operations of the map class *)

Lemma becomes_weaken {A} (m0 m : gmap K V) (P Q : table -> A -> Prop) o : becomes m0 m P o -> (forall t x, P t x -> Q t x) -> becomes m0 m Q o.
Proof. intros Ho HPQ. destruct o as [t x|t|]; simpl in *; [|done..]. destruct Ho. auto. Qed.

Lemma node_at_ok p t m k : rep p t m -> at_ hash t k = Ok t (m !! k).
Proof.
  intros Hr. destruct (node_find_ok p t m k Hr) as (it & E & Hit). unfold at_. rewrite E. destruct (m !! k) as [v|].
  - destruct Hit as (H1 & nd & Hnd & Hv). unfold end_. destruct (Z.eqb_spec it 1); [lia|]. by rewrite Hnd, Hv.
  - subst it. done.
Qed.

Lemma node_try_emplace_ok p t m k v : rep p t m ->
  becomes m (<[k := default v (m !! k)]> m) (emplaced t m k v) (try_emplace hash alloc new_node t k v).
Proof.
  intros Hr. destruct (node_find_ok p t m k Hr) as (it & E & Hit). unfold try_emplace. rewrite E. destruct (m !! k) as [v0|] eqn:Hk.
  - destruct Hit as (H1 & nd & Hnd & Hv). unfold end_. destruct (Z.eqb_spec it 1); [lia|]. split; [exists p; simpl; by rewrite insert_id|].
    split; [unfold keeps; reflexivity|]. rewrite Hk. split; [done|]. split; [done|]. simpl. unfold vals. by rewrite lookup_fmap, Hnd, <- Hv.
  - subst it. simpl. pose proof (node_emplace_ok p t m k v Hr) as He. by rewrite Hk in He.
Qed.

Lemma node_assign_ok p t m k v0 v it : rep p t m -> m !! k = Some v0 -> vals (nodes t) !! it = Some (k, v0) ->
  match assign t it v with Ok t' _ => exists p, rep p t' (<[k := v]> m) | _ => False end.
Proof.
  intros [cs [Hp Hs Hsh Hln Hsz Hl0 Hem Hlk Hnd Hdom Hv]] Hk Hit. unfold vals in Hit. rewrite lookup_fmap in Hit. unfold assign.
  destruct (nodes t !! it) as [nd|] eqn:En; [|done]. injection Hit as Hval. rewrite Hval. simpl.
  set (h' := <[it := Node (k, v) (next nd)]> (nodes t)).
  assert (forall a, h' !! a = if decide (a = it) then Some (Node (k, v) (next nd)) else nodes t !! a) as Hh'.
  { intros a. subst h'. destruct (decide (a = it)) as [-> |]; [apply lookup_insert_eq|by apply lookup_insert_ne]. }
  assert (forall q c, chain (nodes t) q c -> chain h' q c) as Hchain.
  { intros q c. revert q. induction c as [|a c IH]; intros q; [done|]. intros (-> & Ha & nda & Hnda & Hc). split; [done|]. split; [done|].
    rewrite Hh'. destruct (decide (a = it)) as [-> |]; [exists (Node (k, v) (next nd)); split; [done|]; assert (nda = nd) as -> by congruence; by apply IH|].
    exists nda. split; [done|by apply IH]. }
  assert (size (<[k := v]> m) = size m) as Esz by (apply map_size_insert_Some; by exists v0).
  exists p, cs. split; simpl; rewrite ?Esz; try done.
  - intros ->. rewrite (Hem eq_refl) in Hk. done.
  - destruct Hlk as [Hlen Hlk]. split; [done|]. intros i e c He Hc. destruct (Hlk i e c He Hc) as [Hch Hix]. split; [by apply Hchain|].
    intros a nda Ha. rewrite Hh'. destruct (decide (a = it)) as [-> |]; [|by apply Hix]. intros [= <-]. simpl.
    rewrite <- (Hix it nd Ha En). by rewrite Hval.
  - intros a. rewrite Hdom, Hh'. destruct (decide (a = it)) as [-> |]; [rewrite En; split; by eexists|done].
  - assert (vals h' = <[it := (k, v)]> (vals (nodes t))) as -> by (unfold vals; subst h'; by rewrite fmap_insert).
    assert (vals (nodes t) !! it = Some (k, v0)) as Hvit by (unfold vals; by rewrite lookup_fmap, En, <- Hval).
    rewrite <- (insert_delete_id (vals (nodes t)) it (k, v0) Hvit), <- (insert_delete_id m k v0 Hk) in Hv |- *.
    rewrite !insert_insert_eq. rewrite !map_to_list_insert in Hv |- * by apply lookup_delete_eq. rewrite !fmap_cons in *. simpl in *.
    by apply Permutation_cons_inv in Hv as ->.
Qed.

Lemma node_insert_or_assign_ok p t m k v : rep p t m ->
  becomes m (<[k := v]> m) (fun _ r => r.2 = bool_decide (m !! k = None)) (insert_or_assign hash alloc new_node t k v).
Proof.
  intros Hr. pose proof (node_try_emplace_ok p t m k v Hr) as He. unfold insert_or_assign.
  destruct (try_emplace hash alloc new_node t k v) as [t' r|t'|]; simpl in *; [|done..]. destruct He as [[p' Hr'] (Hkp & Hb & H1 & Hv)]. rewrite Hb.
  destruct (m !! k) as [v0|] eqn:Hk; simpl in *; [|split; [by exists p'|done]]. rewrite insert_id in Hr' by done.
  pose proof (node_assign_ok p' t' m k v0 v r.1 Hr' Hk Hv) as Has. destruct (assign t' r.1 v) as [t2 x|t2|]; simpl; [|done..]. by split.
Qed.

(** [operator[]] gives the node of the key. *)
Lemma subscript_ok p t m k dflt : rep p t m ->
  becomes m (<[k := default dflt (m !! k)]> m) (fun t' a => vals (nodes t') !! a = Some (k, default dflt (m !! k)) /\ keeps t t')
    (subscript hash alloc new_node dflt t k).
Proof.
  intros Hr. pose proof (node_emplace_ok p t m k dflt Hr) as He. unfold subscript.
  destruct (emplace hash alloc new_node t (k, dflt)) as [t' r|t'|]; simpl in *; [|done..]. destruct He as [? (? & ? & ? & ?)]. done.
Qed.

Lemma node_reserve_ok p t m n : rep p t m -> 0 <= n <= 2 ^ 63 -> becomes m m (fun t' _ => keeps t t') (reserve hash alloc t n).
Proof.
  intros Hr Hn. unfold reserve. destruct (n =? 0); [split; [by exists p|unfold keeps; reflexivity]|].
  destruct (bucket_count t <? n); [by apply (node_rehash_ok p)|]. split; [by exists p|unfold keeps; reflexivity].
Qed.

(** ** Sequences of operations *)

Inductive op := Emplace (k : K) (v : V) | InsertOrAssign (k : K) (v : V) | TryEmplace (k : K) (v : V) | Subscript (k : K) (dflt : V)
  | Erase (k : K) | At (k : K) | Clear | Reserve (n : Z) | Rehash (n : Z) | Iterate | Size.

Inductive result := RBool (b : bool) | RCount (z : Z) | RValue (v : option V) | RList (l : list (K * V)) | RNone | RBadAlloc.

Definition with_result {A} (f : table -> A -> result) (o : outcome A) : option (table * result) :=
  match o with Ok t x => Some (t, f t x) | BadAlloc t => Some (t, RBadAlloc) | Stuck => None end.

(** The value the reference of [operator[]] shows. *)
Definition deref t (a : Z) : result := RValue (snd <$> vals (nodes t) !! a).

Definition step t (o : op) : option (table * result) :=
  match o with
  | Emplace k v => with_result (fun _ r => RBool r.2) (emplace hash alloc new_node t (k, v))
  | InsertOrAssign k v => with_result (fun _ r => RBool r.2) (insert_or_assign hash alloc new_node t k v)
  | TryEmplace k v => with_result (fun _ r => RBool r.2) (try_emplace hash alloc new_node t k v)
  | Subscript k dflt => with_result deref (subscript hash alloc new_node dflt t k)
  | Erase k => with_result (fun _ n => RCount n) (erase hash t k)
  | At k => with_result (fun _ v => RValue v) (at_ hash t k)
  | Clear => match clear t with Some t' => Some (t', RNone) | None => None end
  | Reserve n => with_result (fun _ _ => RNone) (reserve hash alloc t n)
  | Rehash n => with_result (fun _ _ => RNone) (rehash hash alloc t n)
  | Iterate => match iterate t with Some l => Some (t, RList l) | None => None end
  | Size => Some (t, RCount (num_elements t))
  end.

Fixpoint run (ops : list op) t : option (table * list result) :=
  match ops with
  | [] => Some (t, [])
  | o :: ops => match step t o with
      | Some (t', r) => match run ops t' with Some (t'', rs) => Some (t'', r :: rs) | None => None end
      | None => None
      end
  end.

Definition valid (o : op) : Prop := match o with Reserve n | Rehash n => 0 <= n <= 2 ^ 63 | _ => True end.

Definition spec_step m (o : op) : gmap K V * result :=
  match o with
  | Emplace k v | TryEmplace k v => (<[k := default v (m !! k)]> m, RBool (bool_decide (m !! k = None)))
  | InsertOrAssign k v => (<[k := v]> m, RBool (bool_decide (m !! k = None)))
  | Subscript k dflt => (<[k := default dflt (m !! k)]> m, RValue (Some (default dflt (m !! k))))
  | Erase k => (delete k m, RCount (if decide (is_Some (m !! k)) then 1 else 0))
  | At k => (m, RValue (m !! k))
  | Clear => (∅, RNone)
  | Reserve _ | Rehash _ => (m, RNone)
  | Iterate => (m, RList (map_to_list m))
  | Size => (m, RCount (size_of m))
  end.

(** The order of iteration is not specified. *)
Inductive same_result : result -> result -> Prop :=
  | same_eq r : same_result r r
  | same_list l l' : l ≡ₚ l' -> same_result (RList l) (RList l').

(** The results of a finite map, on which an operation that runs out of memory does nothing. *)
Fixpoint agrees m (ops : list op) (rs : list result) : Prop :=
  match ops, rs with
  | [], [] => True
  | o :: ops, r :: rs => (r = RBadAlloc /\ refused /\ agrees m ops rs) \/ (same_result r (spec_step m o).2 /\ agrees (spec_step m o).1 ops rs)
  | _, _ => False
  end.

Definition step_post m (o : op) (x : option (table * result)) : Prop :=
  match x with
  | Some (t', r) => (r = RBadAlloc /\ refused /\ exists p, rep p t' m) \/ (same_result r (spec_step m o).2 /\ exists p, rep p t' (spec_step m o).1)
  | None => False
  end.

Lemma node_with_result_ok {A} m o (P : table -> A -> Prop) (f : table -> A -> result) (x : outcome A) :
  becomes m (spec_step m o).1 P x -> (forall t y, P t y -> f t y = (spec_step m o).2) -> step_post m o (with_result f x).
Proof.
  intros Hx Hf. destruct x as [t y|t|]; simpl in *; [|left|done].
  - destruct Hx as [Hr Hy]. right. split; [rewrite (Hf t y Hy); constructor|done].
  - by destruct Hx.
Qed.

Lemma node_step_ok p t m o : rep p t m -> valid o -> step_post m o (step t o).
Proof.
  intros Hr Hv. destruct o as [k v|k v|k v|k v|k|k| |n|n| |]; cbn [step].
  - eapply node_with_result_ok; [by apply (node_emplace_ok p)|]. intros t' r (_ & -> & _). done.
  - eapply node_with_result_ok; [by apply (node_insert_or_assign_ok p)|]. intros t' r ->. done.
  - eapply node_with_result_ok; [by apply (node_try_emplace_ok p)|]. intros t' r (_ & -> & _). done.
  - eapply node_with_result_ok; [by apply (subscript_ok p)|]. intros t' a [Ha _]. unfold deref. by rewrite Ha.
  - eapply node_with_result_ok; [by apply (node_erase_ok p)|]. intros t' r [-> _]. done.
  - rewrite (node_at_ok p t m k Hr). right. split; [constructor|by exists p].
  - destruct (node_clear_ok p t m Hr) as (t' & -> & Hr' & _). right. split; [constructor|by exists p].
  - eapply node_with_result_ok; [by apply (node_reserve_ok p)|done].
  - eapply node_with_result_ok; [by apply (node_rehash_ok p)|done].
  - destruct (node_iterate_ok p t m Hr) as (l & -> & Hl). right. split; [by constructor|by exists p].
  - right. split; [|by exists p]. destruct Hr as [cs Ha]. rewrite (al_size _ _ _ _ Ha). constructor.
Qed.

Lemma node_run_ok ops : forall p t m, rep p t m -> Forall valid ops -> exists t' rs, run ops t = Some (t', rs) /\ agrees m ops rs.
Proof.
  induction ops as [|o ops IH]; intros p t m Hr Hv; [by exists t, []|]. apply Forall_cons in Hv as [Ho Hv]. cbn [run].
  pose proof (node_step_ok p t m o Hr Ho) as Hs. destruct (step t o) as [[t1 r]|]; [|done]. destruct Hs as [(-> & Href & p1 & Hr1)|(Hres & p1 & Hr1)];
    destruct (IH p1 t1 _ Hr1 Hv) as (t2 & rs & -> & Hag).
  - exists t2, (RBadAlloc :: rs). split; [done|]. by left.
  - exists t2, (r :: rs). split; [done|]. by right.
Qed.
End Props.

(** C10: The chained hash map is a finite map, for every hash function: any sequence of operations ends
    and gives what it gives on the map. It never follows a pointer to a node that is not there.
    An operation for which there is no memory leaves the map as it was. *)
Theorem node_map_refines {K V : Type} `{Countable K} (hash : K -> Z) (alloc : Z -> bool) (new_node : gmap Z (@node K V) -> option Z)
    (ops : list (op (K := K) (V := V))) :
  (forall c, alloc c = true -> c < 2 ^ 62) -> (forall h a, new_node h = Some a -> h !! a = None /\ 1 < a) -> Forall valid ops ->
  exists t rs, run hash alloc new_node ops new_table = Some (t, rs) /\ agrees alloc new_node ∅ ops rs.
Proof. intros Ha Hn Hv. apply (node_run_ok hash alloc new_node Ha Hn ops 0); [apply new_table_rep|done]. Qed.

(** An allocator of nodes: the first address from 2 on that is free. *)
Definition first_free {K V : Type} (h : gmap Z (@node K V)) : option Z :=
  Some (Z.of_nat (fresh ((fun a => Z.to_nat (a - 2)) <$> (map_to_list h).*1)) + 2).

Lemma first_free_fresh {K V : Type} (h : gmap Z (@node K V)) a : first_free h = Some a -> h !! a = None /\ 1 < a.
Proof.
  intros [= <-]. set (X := (fun a => Z.to_nat (a - 2)) <$> (map_to_list h).*1). pose proof (infinite_is_fresh X) as Hf.
  split; [|lia]. destruct (h !! (Z.of_nat (fresh X) + 2)) as [nd|] eqn:E; [|done]. destruct Hf. subst X.
  set (n := fresh _) in *. apply list_elem_of_fmap. exists (Z.of_nat n + 2). split; [lia|]. apply list_elem_of_fmap. exists (Z.of_nat n + 2, nd).
  split; [done|]. by apply elem_of_map_to_list.
Qed.

Lemma node_map_refines_witness :
  let ops := [Emplace 1 10; Subscript 2 20; Emplace 3 30; Emplace 4 40; Emplace 5 50; Emplace 1 11; At 1; Erase 3; At 3; InsertOrAssign 5 51;
              At 5; Iterate; Clear; Size] in
  exists t rs, run (fun k => k) (fun c => c <=? 6) first_free ops new_table = Some (t, rs) /\ agrees (fun c => c <=? 6) first_free ∅ ops rs.
Proof.
  apply (node_map_refines (fun k => k) (fun c => c <=? 6) first_free); [intros c Hc%Z.leb_le; lia|exact first_free_fresh|repeat constructor].
Defined.

(** Nodes do not move: after [emplace], [rehash] or [reserve] every node is where it was with its
    value, and [emplace] gives the node of its key; [erase] frees the node of its key and no other. *)
Theorem node_map_stable {K V : Type} `{Countable K} (hash : K -> Z) (alloc : Z -> bool) (new_node : gmap Z (@node K V) -> option Z)
    (p : Z) (t : table) (m : gmap K V) (k : K) (v : V) (n : Z) :
  (forall c, alloc c = true -> c < 2 ^ 62) -> (forall h a, new_node h = Some a -> h !! a = None /\ 1 < a) ->
  rep hash p t m -> 0 <= n <= 2 ^ 63 ->
  becomes hash alloc new_node m (<[k := default v (m !! k)]> m) (emplaced t m k v) (emplace hash alloc new_node t (k, v)) /\
  becomes hash alloc new_node m m (fun t' _ => keeps t t') (rehash hash alloc t n) /\
  becomes hash alloc new_node m m (fun t' _ => keeps t t') (reserve hash alloc t n) /\
  becomes hash alloc new_node m (delete k m) (fun t' c => c = (if decide (is_Some (m !! k)) then 1 else 0) /\
    forall a kv, vals (nodes t) !! a = Some kv -> kv.1 <> k -> vals (nodes t') !! a = Some kv) (erase hash t k).
Proof.
  intros Ha Hn Hr Hb. split; [by apply (node_emplace_ok hash alloc new_node Ha Hn p)|]. split; [by eapply node_rehash_ok|].
  split; [by eapply node_reserve_ok|by eapply node_erase_ok].
Qed.
