(* ===== verification/FixedString.v ===== *)
(** * The fixed-size string: string.h

    [qb::string<_Size>] keeps at most [_Size] characters in an array with room for a terminator,
    and truncates what does not fit. Characters are their unsigned values; a C string is its bytes
    in memory, with the terminator. *)

From S2P Require Import Prelude.

(** ** The functions of the C library *)

(** [strcmp]: the sign of the first difference; 0 where memory ends is never reached. *)
Fixpoint strcmp (a b : list Z) : Z :=
  match a, b with
  | x :: a, y :: b => if x =? y then if x =? 0 then 0 else strcmp a b else x - y
  | _, _ => 0
  end.

(** [strncmp(a, b, n) == 0]. *)
Fixpoint strncmp_eq (n : nat) (a b : list Z) : bool :=
  match n, a, b with
  | O, _, _ => true
  | S n, x :: a, y :: b => if x =? y then if x =? 0 then true else strncmp_eq n a b else false
  | _, _, _ => true
  end.

Fixpoint strlen (a : list Z) : Z := match a with [] => 0 | x :: a => if x =? 0 then 0 else 1 + strlen a end.

(** [strstr]: the offset of the first occurrence. *)
Fixpoint strstr (hay needle : list Z) : option Z :=
  if strncmp_eq (Z.to_nat (strlen needle)) hay needle then Some 0 else
  match hay with
  | [] => None
  | x :: hay => if x =? 0 then None else Z.succ <$> strstr hay needle
  end.

(** [memchr] in the first [n] bytes. *)
Fixpoint memchr (n : nat) (a : list Z) (ch : Z) : option Z :=
  match n, a with
  | S n, x :: a => if x =? ch then Some 0 else Z.succ <$> memchr n a ch
  | _, _ => None
  end.

Section FixedString.
(** [_Size]. *)
Variable N : Z.
Hypothesis N_range : 0 < N < 2 ^ 64 - 1.

Definition npos : Z := 2 ^ 64 - 1.

(** [internal::best_size<_Size + 1>::type]. *)
Definition narrow (z : Z) : Z := if N + 1 <=? 255 then u8 z else if N + 1 <=? 65535 then u16 z else u64 z.

Record string := Str { data : list Z; _size : Z }.

(** The default constructor. *)
Definition empty_string : string := Str (zrepeat 0 (N + 1)) 0.

(** What the string holds, and its bytes from [pos] on as a C string. *)
Definition chars (s : string) : list Z := zslice (data s) 0 (_size s).
Definition c_str (s : string) (pos : Z) : list Z := zslice (data s) pos (N + 1 - pos).

(** [assign(char const *, size)]. *)
Definition assign (rhs : list Z) (size : Z) (s : string) : string :=
  let n := narrow (Z.min size N) in Str (zput (zcopy (data s) 0 (zslice rhs 0 n)) n 0) n.

(** [assign(count, ch)]. *)
Definition assign_fill (count ch : Z) (s : string) : string :=
  let n := narrow (Z.min count N) in Str (zput (zcopy (data s) 0 (zrepeat ch n)) n 0) n.

Definition clear (s : string) : string := Str (zput (data s) 0 0) 0.

Definition resize (count ch : Z) (s : string) : string :=
  let count := Z.min count N in
  let d := if _size s <? count then zcopy (data s) (_size s) (zrepeat ch (count - _size s)) else data s in
  Str (zput d (narrow count) 0) (narrow count).

(** [append(const char *, len)]. *)
Definition append (str : list Z) (len : Z) (s : string) : string :=
  let room := N -s _size s in
  let actual_len := Z.min len room in
  let n := narrow (_size s +s actual_len) in
  Str (zput (zcopy (data s) (_size s) (zslice str 0 actual_len)) n 0) n.

(** [append(count, ch)]. *)
Definition append_fill (count ch : Z) (s : string) : string :=
  let room := N -s _size s in
  let actual_count := Z.min count room in
  let n := narrow (_size s +s actual_count) in
  Str (zput (zcopy (data s) (_size s) (zrepeat ch actual_count)) n 0) n.

Definition push_back (ch : Z) (s : string) : string :=
  if _size s <? N then
    let n := narrow (_size s + 1) in Str (zput (zput (data s) (_size s) ch) n 0) n
  else s.

Definition pop_back (s : string) : string :=
  if 0 <? _size s then let n := narrow (_size s - 1) in Str (zput (data s) n 0) n else s.

(** [at]; [None] where it throws. *)
Definition at_ (pos : Z) (s : string) : option Z := if _size s <=? pos then None else zget (data s) pos.

Definition substr (pos len : Z) (s : string) : option string :=
  if _size s <? pos then None else
  let actual_len := Z.min len (_size s -s pos) in
  Some (assign (zslice (data s) pos (N + 1 - pos)) actual_len empty_string).

(** [swap]: the last assignment is from the array, of [_Size + 1] characters. *)
Definition swap (s other : string) : string * string :=
  let temp_data := data s in
  let temp_size := _size s in
  let s := Str (data other) (_size other) in
  let other := assign temp_data (N + 1) other in
  (s, Str (data other) temp_size).

(** [compare], [operator==] with a C string and with a string. *)
Definition compare (s : string) (str : list Z) : Z := strcmp (data s) str.
Definition eq_cstr (s : string) (str : list Z) : bool := strcmp (data s) str =? 0.
Definition eq_string (s rhs : string) : bool := (_size s =? _size rhs) && (strcmp (data s) (data rhs) =? 0).

(** [find(const char *, pos)]. *)
Definition find (str : list Z) (pos : Z) (s : string) : Z :=
  if _size s <=? pos then npos else match strstr (c_str s pos) str with Some i => pos + i | None => npos end.

(** [find(char, pos)]. *)
Definition find_char (ch pos : Z) (s : string) : Z :=
  if _size s <=? pos then npos else
  match memchr (Z.to_nat (_size s - pos)) (c_str s pos) ch with Some i => pos + i | None => npos end.

(** [for (i = start + 1; i > 0; --i)] of the two forms of [rfind]. *)
Fixpoint last_match (test : Z -> bool) (i : nat) : Z :=
  match i with O => npos | S i => if test (Z.of_nat i) then Z.of_nat i else last_match test i end.

Definition rfind (str : list Z) (pos : Z) (s : string) : Z :=
  let str_len := strlen str in
  if _size s <? str_len then npos else
  let start := Z.min pos (_size s -s str_len) in
  last_match (fun i => strncmp_eq (Z.to_nat str_len) (c_str s i) str) (Z.to_nat (start + 1)).

Definition rfind_char (ch pos : Z) (s : string) : Z :=
  if _size s =? 0 then npos else
  let start := Z.min pos (_size s - 1) in
  last_match (fun i => bool_decide (zget (data s) i = Some ch)) (Z.to_nat (start + 1)).

Definition starts_with (prefix : list Z) (s : string) : bool :=
  (strlen prefix <=? _size s) && strncmp_eq (Z.to_nat (strlen prefix)) (data s) prefix.

Definition ends_with (suffix : list Z) (s : string) : bool :=
  (strlen suffix <=? _size s) && strncmp_eq (Z.to_nat (strlen suffix)) (c_str s (_size s - strlen suffix)) suffix.

Definition contains (str : list Z) (s : string) : bool := negb (find str 0 s =? npos).

(** ** The invariant *)

(** The size fits and the terminator is in place. *)
Record terminated (s : string) : Prop := Terminated {
  te_len : zlen (data s) = N + 1;
  te_size : 0 <= _size s <= N;
  te_nul : zget (data s) (_size s) = Some 0
}.

Lemma narrow_id z : 0 <= z <= N -> narrow z = z.
Proof.
  intros Hz. unfold narrow. destruct (Z.leb_spec (N + 1) 255); [apply Z.mod_small; lia|].
  destruct (Z.leb_spec (N + 1) 65535); [apply Z.mod_small; lia|apply u64_small; lia].
Qed.

(** Every modification writes bytes behind the first [off] and then the terminator. *)
Lemma write_ok (s : string) off src : terminated s -> 0 <= off <= _size s -> off + zlen src <= N ->
  let s' := Str (zput (zcopy (data s) off src) (off + zlen src) 0) (off + zlen src) in
  terminated s' /\ chars s' = zslice (data s) 0 off ++ src.
Proof.
  intros [Hl Hs Hn] Ho Hf s'. pose proof (zlen_nonneg src) as Hz. assert (zlen (zcopy (data s) off src) = N + 1) as Hlc by (by rewrite zlen_copy). split.
  - split; simpl; [by rewrite zlen_put|lia|apply zget_put_eq; lia].
  - unfold chars. simpl. rewrite (zslice_app _ 0 off (zlen src)) by lia. rewrite Z.add_0_l. f_equal.
    + apply zlist_eq_len; [rewrite !zlen_slice; rewrite ?zlen_put; lia|]. intros i Hi. rewrite zlen_slice in Hi by (rewrite ?zlen_put; lia).
      rewrite !zget_slice_in by lia. rewrite zget_put_ne by lia. rewrite zget_copy by lia.
      destruct (Z.leb_spec off (0 + i)); [lia|done].
    + apply zlist_eq_len; [rewrite !zlen_slice; rewrite ?zlen_put; lia|]. intros i Hi. rewrite zlen_slice in Hi by (rewrite ?zlen_put; lia).
      rewrite zget_slice_in by lia. rewrite zget_put_ne by lia. rewrite zget_copy by lia.
      destruct (Z.leb_spec off (off + i)), (Z.ltb_spec (off + i) (off + zlen src)); simpl; try lia. f_equal. lia.
Qed.

Lemma chars_len s : terminated s -> zlen (chars s) = _size s.
Proof. intros [Hl Hs _]. unfold chars. rewrite zlen_slice; lia. Qed.

Lemma zlen_slice_min (l : list Z) n : 0 <= n <= zlen l -> zlen (zslice l 0 n) = n.
Proof. intros Hn. rewrite zlen_slice; lia. Qed.

Lemma string_assign_ok s rhs : terminated s -> terminated (assign rhs (zlen rhs) s) /\ chars (assign rhs (zlen rhs) s) = zslice rhs 0 (Z.min (zlen rhs) N).
Proof.
  intros Hs. pose proof (zlen_nonneg rhs) as Hz. unfold assign. rewrite narrow_id by lia.
  assert (zlen (zslice rhs 0 (Z.min (zlen rhs) N)) = Z.min (zlen rhs) N) as Hl by (apply zlen_slice_min; lia).
  pose proof (write_ok s 0 (zslice rhs 0 (Z.min (zlen rhs) N)) Hs) as Hw. rewrite Hl, Z.add_0_l in Hw. rewrite (zslice_nil (data s)) in Hw by lia.
  apply Hw; [pose proof (te_size _ Hs); lia|lia].
Qed.

Lemma assign_fill_ok s count ch : terminated s -> 0 <= count ->
  terminated (assign_fill count ch s) /\ chars (assign_fill count ch s) = zrepeat ch (Z.min count N).
Proof.
  intros Hs Hc. unfold assign_fill. rewrite narrow_id by lia. pose proof (write_ok s 0 (zrepeat ch (Z.min count N)) Hs) as Hw.
  rewrite zlen_repeat, Z.add_0_l in Hw by lia. rewrite (zslice_nil (data s)) in Hw by lia. apply Hw; [pose proof (te_size _ Hs); lia|lia].
Qed.

Lemma string_clear_ok s : terminated s -> terminated (clear s) /\ chars (clear s) = [].
Proof. intros Hs. split; [|done]. destruct Hs as [Hl Hsz _]. split; simpl; [by rewrite zlen_put|lia|apply zget_put_eq; lia]. Qed.

Lemma append_ok s str : terminated s -> is_size (zlen str) ->
  terminated (append str (zlen str) s) /\ chars (append str (zlen str) s) = chars s ++ zslice str 0 (Z.min (zlen str) (N - _size s)).
Proof.
  intros Hs Hlen. unfold is_size in Hlen. pose proof (te_size _ Hs) as Hsz. unfold append. rewrite (u64_small (N - _size s)) by lia.
  rewrite (u64_small (_size s + _)) by lia. rewrite narrow_id by lia.
  pose proof (write_ok s (_size s) (zslice str 0 (Z.min (zlen str) (N - _size s))) Hs) as Hw. rewrite zlen_slice_min in Hw by lia. apply Hw; lia.
Qed.

Lemma append_fill_ok s count ch : terminated s -> is_size count ->
  terminated (append_fill count ch s) /\ chars (append_fill count ch s) = chars s ++ zrepeat ch (Z.min count (N - _size s)).
Proof.
  intros Hs Hc. unfold is_size in Hc. pose proof (te_size _ Hs) as Hsz. unfold append_fill. rewrite (u64_small (N - _size s)) by lia.
  rewrite (u64_small (_size s + _)) by lia. rewrite narrow_id by lia.
  pose proof (write_ok s (_size s) (zrepeat ch (Z.min count (N - _size s))) Hs) as Hw. rewrite zlen_repeat in Hw by lia. apply Hw; lia.
Qed.

(** Putting the terminator nearer. *)
Lemma cut_ok s n : terminated s -> 0 <= n <= _size s -> terminated (Str (zput (data s) n 0) n) /\ chars (Str (zput (data s) n 0) n) = zslice (chars s) 0 n.
Proof.
  intros Hs Hn. pose proof (te_size _ Hs). pose proof (write_ok s n [] Hs) as Hw. change (zlen []) with 0 in Hw. rewrite Z.add_0_r in Hw.
  assert (zcopy (data s) n [] = data s) as E by apply zcopy_nil. rewrite E in Hw. destruct Hw as [Ht Hc]; [lia..|]. split; [done|]. rewrite Hc, app_nil_r.
  unfold chars. by rewrite zslice_slice by lia.
Qed.

Lemma push_back_ok s ch : terminated s ->
  terminated (push_back ch s) /\ chars (push_back ch s) = if _size s <? N then chars s ++ [ch] else chars s.
Proof.
  intros Hs. pose proof (te_size _ Hs) as Hsz. unfold push_back. destruct (Z.ltb_spec (_size s) N); [|done]. rewrite narrow_id by lia.
  pose proof (write_ok s (_size s) [ch] Hs) as Hw. change (zlen [ch]) with 1 in Hw.
  assert (zcopy (data s) (_size s) [ch] = zput (data s) (_size s) ch) as E.
  { unfold zcopy, zput. destruct (Z.ltb_spec (_size s) 0); [lia|]. done. }
  rewrite E in Hw. apply Hw; lia.
Qed.

Lemma pop_back_ok s : terminated s -> terminated (pop_back s) /\ chars (pop_back s) = zslice (chars s) 0 (_size s - 1).
Proof.
  intros Hs. pose proof (te_size _ Hs) as Hsz. unfold pop_back. destruct (Z.ltb_spec 0 (_size s)).
  - rewrite narrow_id by lia. apply cut_ok; [done|lia].
  - split; [done|]. rewrite zslice_nil by lia. unfold chars. by rewrite zslice_nil by lia.
Qed.

Lemma resize_ok s count ch : terminated s -> 0 <= count ->
  terminated (resize count ch s) /\
  chars (resize count ch s) = if _size s <? Z.min count N then chars s ++ zrepeat ch (Z.min count N - _size s) else zslice (chars s) 0 (Z.min count N).
Proof.
  intros Hs Hc. pose proof (te_size _ Hs) as Hsz. unfold resize. rewrite narrow_id by lia. destruct (Z.ltb_spec (_size s) (Z.min count N)).
  - pose proof (write_ok s (_size s) (zrepeat ch (Z.min count N - _size s)) Hs) as Hw. rewrite zlen_repeat in Hw by lia.
    replace (_size s + (Z.min count N - _size s)) with (Z.min count N) in Hw by lia. apply Hw; lia.
  - apply cut_ok; [done|lia].
Qed.

Lemma empty_ok : terminated empty_string /\ chars empty_string = [].
Proof.
  split; [|done]. split; simpl; [apply zlen_repeat; lia|lia|]. rewrite zget_repeat. destruct (Z.leb_spec 0 0), (Z.ltb_spec 0 (N + 1)); try lia. done.
Qed.

Lemma substr_ok s pos len : terminated s -> 0 <= pos -> 0 <= len ->
  match substr pos len s with
  | Some r => pos <= _size s /\ terminated r /\ chars r = zslice (chars s) pos (Z.min len (_size s - pos))
  | None => _size s < pos
  end.
Proof.
  intros Hs Hp Hl. pose proof Hs as [Hlen Hsz _]. unfold substr. destruct (Z.ltb_spec (_size s) pos); [done|]. split; [done|].
  rewrite (u64_small (_size s - pos)) by lia. set (n := Z.min len (_size s - pos)).
  assert (assign (zslice (data s) pos (N + 1 - pos)) n empty_string = assign (zslice (chars s) pos n) (zlen (zslice (chars s) pos n)) empty_string) as ->.
  { assert (zlen (zslice (chars s) pos n) = n) as En by (apply zlen_slice; [lia|lia|rewrite chars_len by done; lia]). rewrite En. unfold assign.
    rewrite narrow_id by lia. rewrite Z.min_l by lia. do 3 f_equal. unfold chars. by rewrite !zslice_slice by lia. }
  destruct empty_ok as [He _]. destruct (string_assign_ok empty_string (zslice (chars s) pos n) He) as [Ht Hc]. split; [done|]. rewrite Hc.
  assert (zlen (zslice (chars s) pos n) = n) as En by (apply zlen_slice; [lia|lia|rewrite chars_len by done; lia]).
  rewrite Z.min_l by lia. apply zslice_all.
Qed.

Lemma swap_ok s other : terminated s -> terminated other ->
  terminated (swap s other).1 /\ terminated (swap s other).2 /\ chars (swap s other).1 = chars other /\ chars (swap s other).2 = chars s.
Proof.
  intros Hs Ho. split; [by destruct Ho|]. pose proof Hs as [Hl Hsz Hn]. pose proof Ho as [Hl' _ _]. unfold swap. simpl.
  rewrite narrow_id by lia. rewrite Z.min_r by lia.
  assert (forall i, 0 <= i < N -> zget (zput (zcopy (data other) 0 (zslice (data s) 0 N)) N 0) i = zget (data s) i) as Hg.
  { intros i Hi. rewrite zget_put_ne by lia. rewrite zget_copy by (rewrite ?zlen_slice; lia). rewrite zlen_slice by lia.
    destruct (Z.leb_spec 0 i), (Z.ltb_spec i (0 + N)); simpl; try lia. rewrite zget_slice_in by lia. f_equal. lia. }
  split; [split; simpl|split; [done|]].
  - by rewrite zlen_put, zlen_copy.
  - done.
  - destruct (Z.eq_dec (_size s) N) as [E|]; [rewrite E; apply zget_put_eq; rewrite zlen_copy; lia|]. by rewrite Hg by lia.
  - unfold chars. simpl. apply zlist_eq_len; [rewrite !zlen_slice; rewrite ?zlen_put, ?zlen_copy; lia|]. intros i Hi.
    rewrite zlen_slice in Hi by (rewrite ?zlen_put, ?zlen_copy; lia). rewrite !zget_slice_in by lia. apply Hg. lia.
Qed.

(** ** Sequences of modifications *)

Inductive op := Assign (l : list Z) | AssignFill (count ch : Z) | Clear | Resize (count ch : Z) | Append (l : list Z)
  | AppendFill (count ch : Z) | PushBack (ch : Z) | PopBack | Substr (pos len : Z).

(** The arguments are of type [size_t], and so are the sizes of the sources. *)
Definition valid (o : op) : Prop :=
  match o with
  | Assign l | Append l => is_size (zlen l)
  | AssignFill count _ | Resize count _ | AppendFill count _ => is_size count
  | Substr pos len => is_size pos /\ is_size len
  | _ => True
  end.

(** [s = s.substr(pos, len)] where it does not throw. *)
Definition step (s : string) (o : op) : string :=
  match o with
  | Assign l => assign l (zlen l) s
  | AssignFill count ch => assign_fill count ch s
  | Clear => clear s
  | Resize count ch => resize count ch s
  | Append l => append l (zlen l) s
  | AppendFill count ch => append_fill count ch s
  | PushBack ch => push_back ch s
  | PopBack => pop_back s
  | Substr pos len => default s (substr pos len s)
  end.

(** The same on a sequence of characters, of which the first [_Size] are kept. *)
Definition fit (l : list Z) : list Z := zslice l 0 N.

Definition spec (x : list Z) (o : op) : list Z :=
  match o with
  | Assign l => fit l
  | AssignFill count ch => zrepeat ch (Z.min count N)
  | Clear => []
  | Resize count ch => if zlen x <? count then fit (x ++ zrepeat ch (Z.min count N - zlen x)) else zslice x 0 count
  | Append l => fit (x ++ l)
  | AppendFill count ch => x ++ zrepeat ch (Z.min count (N - zlen x))
  | PushBack ch => fit (x ++ [ch])
  | PopBack => zslice x 0 (zlen x - 1)
  | Substr pos len => if zlen x <? pos then x else zslice x pos (Z.min len (zlen x - pos))
  end.

Lemma fit_all l : zlen l <= N -> fit l = l.
Proof. intros Hl. unfold fit, zslice, zlen in *. rewrite drop_0. apply take_ge. lia. Qed.

Lemma zslice_min (l : list Z) n : 0 <= n -> zslice l 0 (Z.min (zlen l) n) = zslice l 0 n.
Proof.
  intros Hn. unfold zslice, zlen. rewrite !drop_0. destruct (Z.le_gt_cases (Z.of_nat (length l)) n) as [Hle|Hgt].
  - rewrite Z.min_l by lia. rewrite !take_ge by lia. done.
  - by rewrite Z.min_r by lia.
Qed.

Lemma fit_app x l : zlen x <= N -> fit (x ++ l) = x ++ zslice l 0 (N - zlen x).
Proof.
  intros Hx. unfold fit, zslice, zlen in *. rewrite !drop_0, take_app. rewrite (take_ge x) by lia. f_equal. f_equal. lia.
Qed.

Lemma string_step_ok s o : terminated s -> valid o -> terminated (step s o) /\ chars (step s o) = spec (chars s) o.
Proof.
  intros Hs Hv. pose proof (te_size _ Hs) as Hsz. pose proof (chars_len s Hs) as Hl. unfold is_size in Hv.
  destruct o as [l|count ch| |count ch|l|count ch|ch| |pos len]; cbn [step spec valid] in *; unfold is_size in Hv.
  - destruct (string_assign_ok s l Hs) as [Ht Hc]. split; [done|]. rewrite Hc. apply zslice_min. lia.
  - apply assign_fill_ok; [done|lia].
  - by apply string_clear_ok.
  - destruct (resize_ok s count ch Hs ltac:(lia)) as [Ht Hc]. split; [done|]. rewrite Hc, Hl.
    destruct (Z.ltb_spec (_size s) count), (Z.ltb_spec (_size s) (Z.min count N)); try lia.
    + rewrite fit_app by lia. f_equal. rewrite <- (zslice_all (zrepeat ch (Z.min count N - _size s))) at 1. rewrite zlen_repeat by lia.
      rewrite <- (zslice_min _ (N - zlen (chars s))) by lia. rewrite zlen_repeat by lia. f_equal. lia.
    + replace (Z.min count N) with (_size s) by lia. rewrite Z.sub_diag. unfold zrepeat. simpl. rewrite app_nil_r. rewrite fit_all by lia.
      rewrite <- Hl at 1. apply zslice_all.
    + f_equal. lia.
  - destruct (append_ok s l Hs Hv) as [Ht Hc]. split; [done|]. rewrite Hc, fit_app by lia. f_equal. rewrite Hl. apply zslice_min. lia.
  - rewrite Hl. by apply append_fill_ok.
  - destruct (push_back_ok s ch Hs) as [Ht Hc]. split; [done|]. rewrite Hc, fit_app by lia. rewrite Hl. destruct (Z.ltb_spec (_size s) N).
    + f_equal. rewrite <- (zslice_min [ch]) by lia. change (zlen [ch]) with 1. by rewrite Z.min_l by lia.
    + rewrite zslice_nil by lia. by rewrite app_nil_r.
  - rewrite Hl. by apply pop_back_ok.
  - rewrite Hl. pose proof (substr_ok s pos len Hs) as Hsub. destruct (substr pos len s) as [r|]; simpl.
    + destruct Hsub as (Hp & Ht & Hc); [lia..|]. destruct (Z.ltb_spec (_size s) pos); [lia|done].
    + destruct (Z.ltb_spec (_size s) pos); [done|]. specialize (Hsub ltac:(lia) ltac:(lia)). lia.
Qed.

Lemma steps_ok ops : forall s, terminated s -> Forall valid ops ->
  terminated (fold_left step ops s) /\ chars (fold_left step ops s) = fold_left spec ops (chars s).
Proof.
  induction ops as [|o ops IH]; intros s Hs Hv; [done|]. apply Forall_cons in Hv as [Ho Hv]. simpl. destruct (string_step_ok s o Hs Ho) as [Ht <-]. by apply IH.
Qed.
End FixedString.

(** ** Comparison and search *)

(** Text without the terminator, for which the functions of the C library are exact. *)
Definition nul_free (l : list Z) : Prop := Forall (fun c => 0 < c) l.

Fixpoint lex (x y : list Z) : comparison :=
  match x, y with
  | [], [] => Eq
  | [], _ => Lt
  | _, [] => Gt
  | a :: x, b :: y => match a ?= b with Eq => lex x y | c => c end
  end.

Lemma lex_eq x y : lex x y = Eq <-> x = y.
Proof.
  revert y. induction x as [|a x IH]; intros [|b y]; simpl; try done. destruct (Z.compare_spec a b) as [-> | |]; [|split; [done|intros [= -> ->]; lia]..].
  rewrite IH. split; [by intros ->|by intros [= ->]].
Qed.

Lemma strcmp_lex x y r r' : nul_free x -> nul_free y -> (strcmp (x ++ 0 :: r) (y ++ 0 :: r') ?= 0) = lex x y.
Proof.
  intros Hx. revert y. induction Hx as [|a x Ha Hx IH]; intros y Hy; destruct Hy as [|b y Hb Hy]; simpl; [done| | |].
  - destruct b; try lia. done.
  - destruct (Z.eqb_spec a 0); [lia|]. destruct a; try lia. done.
  - destruct (Z.eqb_spec a b) as [-> |Hne]; [destruct (Z.eqb_spec b 0); [lia|]; rewrite Z.compare_refl; by apply IH|].
    destruct (Z.compare_spec a b); [done|apply Z.compare_lt_iff; lia|apply Z.compare_gt_iff; lia].
Qed.

Lemma strlen_text y r : nul_free y -> strlen (y ++ 0 :: r) = zlen y.
Proof.
  induction 1 as [|b y Hb Hy IH]; [done|]. simpl. destruct (Z.eqb_spec b 0); [lia|]. rewrite IH. unfold zlen. simpl. lia.
Qed.

Lemma strncmp_prefix x y r r' : nul_free x -> nul_free y -> strncmp_eq (length y) (x ++ 0 :: r) (y ++ 0 :: r') = true <-> y `prefix_of` x.
Proof.
  intros Hx Hy. revert x Hx. induction Hy as [|b y Hb Hy IH]; intros x Hx; cbn [length strncmp_eq app]; [split; [intros _; apply prefix_nil|done]|].
  destruct Hx as [|a x Ha Hx]; cbn [app].
  - destruct (Z.eqb_spec 0 b); [lia|]. split; [done|]. intros Hp. by apply prefix_nil_not in Hp.
  - destruct (Z.eqb_spec a b) as [-> |Hne]; [|split; [done|intros Hp; by apply prefix_cons_inv_1 in Hp]].
    destruct (Z.eqb_spec b 0); [lia|]. rewrite IH by done. split; [by apply prefix_cons|by intros Hp%prefix_cons_inv_2].
Qed.

(** Where [y] occurs in [x]. *)
Definition occurs (y x : list Z) (i : Z) : Prop := y `prefix_of` drop (Z.to_nat i) x.

Lemma strstr_first x y r r' : nul_free x -> nul_free y ->
  match strstr (x ++ 0 :: r) (y ++ 0 :: r') with
  | Some i => 0 <= i <= zlen x /\ occurs y x i /\ forall j, 0 <= j < i -> ~ occurs y x j
  | None => forall j, 0 <= j -> ~ occurs y x j
  end.
Proof.
  intros Hx Hy. pose proof (strlen_text y r' Hy) as Hlen. assert (Z.to_nat (zlen y) = length y) as Hn by (unfold zlen; lia).
  induction Hx as [|a x Ha Hx IH].
  - cbn [app strstr]. rewrite Hlen, Hn. pose proof (strncmp_prefix [] y r r' ltac:(constructor) Hy) as Hp. cbn [app] in Hp.
    destruct (strncmp_eq (length y) (0 :: r) (y ++ 0 :: r')) eqn:E; simpl.
    + split; [unfold zlen; simpl; lia|]. split; [by apply Hp|lia].
    + intros j _ Ho. unfold occurs in Ho. rewrite drop_nil in Ho. apply Hp in Ho. congruence.
  - cbn [app strstr]. rewrite Hlen, Hn. pose proof (strncmp_prefix (a :: x) y r r' ltac:(by constructor) Hy) as Hp. cbn [app] in Hp.
    destruct (strncmp_eq (length y) (a :: x ++ 0 :: r) (y ++ 0 :: r')) eqn:E.
    + split; [pose proof (zlen_nonneg (a :: x)); lia|]. split; [by apply Hp|lia].
    + assert (~ occurs y (a :: x) 0) as H0 by (intros Ho; apply Hp in Ho; congruence).
      assert (forall j, 0 < j -> occurs y (a :: x) j <-> occurs y x (j - 1)) as Hshift.
      { intros j Hj. unfold occurs. replace (Z.to_nat j) with (S (Z.to_nat (j - 1))) by lia. done. }
      destruct (Z.eqb_spec a 0); [lia|]. destruct (strstr (x ++ 0 :: r) (y ++ 0 :: r')) as [i|]; simpl.
      * destruct IH as (Hi & Ho & Hno). split; [change (a :: x) with ([a] ++ x); rewrite zlen_app, zlen_one; lia|]. split; [apply Hshift; [lia|]; by replace (Z.succ i - 1) with i by lia|].
        intros j Hj Hoj. destruct (Z.eq_dec j 0) as [-> |]; [done|]. apply Hshift in Hoj; [|lia]. apply (Hno (j - 1)); [lia|done].
      * intros j Hj Hoj. destruct (Z.eq_dec j 0) as [-> |]; [done|]. apply Hshift in Hoj; [|lia]. apply (IH (j - 1)); [lia|done].
Qed.

Lemma occurs_range y x i : occurs y x i -> y <> [] -> i < zlen x.
Proof.
  intros Ho Hy. destruct (Z.lt_ge_cases i (zlen x)) as [|Hge]; [done|]. unfold occurs, zlen in *. rewrite drop_ge in Ho by lia.
  destruct y; [done|]. by apply prefix_nil_not in Ho.
Qed.

Section Strings.
Variable N : Z.
Hypothesis N_range : 0 < N < 2 ^ 64 - 1.

Lemma c_str_split s pos : terminated N s -> 0 <= pos <= _size s -> exists r, c_str N s pos = drop (Z.to_nat pos) (chars s) ++ 0 :: r.
Proof.
  intros [Hl Hs Hn] Hp. assert (data s = chars s ++ 0 :: zslice (data s) (_size s + 1) (N - _size s)) as E.
  { rewrite <- (zslice_all (data s)) at 1. rewrite Hl. replace (N + 1) with (_size s + (1 + (N - _size s))) by lia.
    rewrite (zslice_app (data s) 0 (_size s) (1 + (N - _size s))), (zslice_app _ _ 1 (N - _size s)) by lia. rewrite Z.add_0_l. unfold chars. f_equal.
    unfold zget in Hn. destruct (Z.ltb_spec (_size s) 0); [lia|]. unfold zslice at 1. rewrite (drop_S _ _ _ Hn). done. }
  exists (zslice (data s) (_size s + 1) (N - _size s)). unfold c_str. rewrite E at 1. unfold zslice at 1.
  rewrite drop_app_le by (pose proof (chars_len N s ltac:(done)); unfold zlen in *; lia). apply take_ge.
  pose proof (chars_len N s ltac:(done)) as Hc. unfold zlen in *. rewrite length_app, length_drop. simpl.
  unfold zslice. rewrite length_take, length_drop. lia.
Qed.

Lemma data_split s : terminated N s -> exists r, data s = chars s ++ 0 :: r.
Proof.
  intros Hs. destruct (c_str_split s 0 Hs) as [r Hr]; [pose proof (te_size _ _ Hs); lia|]. exists r. rewrite <- (zslice_all (data s)), (te_len _ _ Hs).
  unfold c_str in Hr. rewrite Z.sub_0_r in Hr. by rewrite Hr.
Qed.

Lemma last_match_ok test (i : nat) :
  match last_match test i with
  | z => (z = npos /\ forall j, 0 <= j < Z.of_nat i -> test j = false) \/ (0 <= z < Z.of_nat i /\ test z = true /\ forall j, z < j < Z.of_nat i -> test j = false)
  end.
Proof.
  induction i as [|i IH]; simpl; [left; split; [done|lia]|]. destruct (test (Z.of_nat i)) eqn:E; [right; split; [lia|]; split; [done|lia]|].
  destruct IH as [[-> Hno]|(Hr & Ht & Hno)]; [left; split; [done|]|right; split; [lia|]; split; [done|]]; intros j Hj;
    (destruct (Z.eq_dec j (Z.of_nat i)) as [-> |]; [done|apply Hno; lia]).
Qed.

(** [find] gives the first occurrence at [pos] or later. *)
Lemma find_first s y pos : terminated N s -> nul_free (chars s) -> nul_free y -> 0 <= pos ->
  let r := find N (y ++ [0]) pos s in
  (r = npos /\ forall i, pos <= i < _size s -> ~ occurs y (chars s) i) \/
  (pos <= r <= _size s /\ occurs y (chars s) r /\ forall i, pos <= i < r -> ~ occurs y (chars s) i).
Proof.
  intros Hs Hx Hy Hp r. subst r. unfold find. destruct (Z.leb_spec (_size s) pos); [left; split; [done|lia]|].
  destruct (c_str_split s pos Hs ltac:(lia)) as [t ->].
  assert (nul_free (drop (Z.to_nat pos) (chars s))) as Hd by (by apply Forall_drop).
  pose proof (strstr_first _ y t [] Hd Hy) as Hst. pose proof (chars_len N s Hs) as Hcl.
  assert (forall j, 0 <= j -> occurs y (drop (Z.to_nat pos) (chars s)) j <-> occurs y (chars s) (pos + j)) as Hsh.
  { intros j Hj. unfold occurs. rewrite drop_drop. by replace (Z.to_nat pos + Z.to_nat j)%nat with (Z.to_nat (pos + j)) by lia. }
  destruct (strstr _ _) as [i|].
  - destruct Hst as (Hi & Ho & Hno). right. unfold zlen in *. rewrite length_drop in Hi. split; [lia|]. split; [apply Hsh; [lia|done]|].
    intros j Hj Hoj. apply (Hno (j - pos)); [lia|]. apply Hsh; [lia|]. by replace (pos + (j - pos)) with j by lia.
  - left. split; [done|]. intros j Hj Hoj. apply (Hst (j - pos)); [lia|]. apply Hsh; [lia|]. by replace (pos + (j - pos)) with j by lia.
Qed.

(** [rfind] gives the last occurrence at [pos] or before. *)
Lemma rfind_last s y pos : terminated N s -> nul_free (chars s) -> nul_free y -> 0 <= pos ->
  let r := rfind N (y ++ [0]) pos s in
  (r = npos /\ forall i, 0 <= i <= pos -> i <= _size s - zlen y -> ~ occurs y (chars s) i) \/
  (0 <= r <= pos /\ r <= _size s - zlen y /\ occurs y (chars s) r /\ forall i, r < i <= pos -> i <= _size s - zlen y -> ~ occurs y (chars s) i).
Proof.
  intros Hs Hx Hy Hp r. subst r. pose proof (te_size _ _ Hs) as Hsz. pose proof (zlen_nonneg y) as Hz. unfold rfind. rewrite (strlen_text y [] Hy).
  destruct (Z.ltb_spec (_size s) (zlen y)); [left; split; [done|]; intros i; lia|]. rewrite (u64_small (_size s - zlen y)) by lia.
  set (test := fun i => strncmp_eq (Z.to_nat (zlen y)) (c_str N s i) (y ++ [0])).
  assert (forall i, 0 <= i <= _size s - zlen y -> test i = true <-> occurs y (chars s) i) as Htest.
  { intros i Hi. subst test. cbv beta. destruct (c_str_split s i Hs ltac:(lia)) as [t ->]. replace (Z.to_nat (zlen y)) with (length y) by (unfold zlen; lia).
    apply strncmp_prefix; [by apply Forall_drop|done]. }
  pose proof (last_match_ok test (Z.to_nat (Z.min pos (_size s - zlen y) + 1))) as Hlm. rewrite Z2Nat.id in Hlm by lia.
  destruct Hlm as [[-> Hno]|(Hr & Ht & Hno)].
  - left. split; [done|]. intros i Hi Hi' Ho. apply Htest in Ho; [|lia]. rewrite Hno in Ho by lia. done.
  - right. split; [lia|]. split; [lia|]. split; [apply Htest; [lia|done]|]. intros i Hi Hi' Ho. apply Htest in Ho; [|lia]. rewrite Hno in Ho by lia. done.
Qed.
End Strings.

(** C34: Every sequence of modifications keeps the size within the capacity and the terminator in place,
    and gives the characters that the same modifications give on a sequence cut at the capacity,
    for every count and length of type [size_t]. *)
Theorem fixed_string_refines (N : Z) (ops : list op) : 0 < N < 2 ^ 64 - 1 -> Forall valid ops ->
  let s := fold_left (step N) ops (empty_string N) in
  terminated N s /\ chars s = fold_left (spec N) ops [].
Proof. intros HN Hv. destruct (empty_ok N HN) as [He _]. exact (steps_ok N HN ops _ He Hv). Qed.

Lemma fixed_string_refines_witness :
  let ops := [Assign [104; 101; 108; 108; 111]; PushBack 33; Append [44; 32; 119]; AppendFill (2 ^ 64 - 1) 46; Resize 4 0; PopBack; Substr 1 9] in
  terminated 8 (fold_left (step 8) ops (empty_string 8)) /\
  chars (fold_left (step 8) ops (empty_string 8)) = [101; 108].
Proof.
  intros ops. destruct (fixed_string_refines 8 ops) as [Ht Hc]; [lia|repeat constructor; vm_compute; discriminate || done|]. split; [exact Ht|].
  rewrite Hc. vm_compute. reflexivity.
Defined.

(** On text without the terminator, comparison is equality and the order of the characters; [find]
    gives the first occurrence from a position on, [rfind] the last one up to it; [starts_with]
    is the test for a prefix. *)
Theorem fixed_string_search (N : Z) (s rhs : string) (y : list Z) (pos : Z) : 0 < N < 2 ^ 64 - 1 -> terminated N s -> terminated N rhs ->
  nul_free (chars s) -> nul_free (chars rhs) -> nul_free y -> 0 <= pos ->
  (eq_string s rhs = true <-> chars s = chars rhs) /\ (eq_cstr s (y ++ [0]) = true <-> chars s = y) /\
  (compare s (y ++ [0]) ?= 0) = lex (chars s) y /\
  (starts_with (y ++ [0]) s = true <-> y `prefix_of` chars s) /\
  (let r := find N (y ++ [0]) pos s in
   (r = npos /\ forall i, pos <= i < _size s -> ~ occurs y (chars s) i) \/
   (pos <= r <= _size s /\ occurs y (chars s) r /\ forall i, pos <= i < r -> ~ occurs y (chars s) i)) /\
  (let r := rfind N (y ++ [0]) pos s in
   (r = npos /\ forall i, 0 <= i <= pos -> i <= _size s - zlen y -> ~ occurs y (chars s) i) \/
   (0 <= r <= pos /\ r <= _size s - zlen y /\ occurs y (chars s) r /\ forall i, r < i <= pos -> i <= _size s - zlen y -> ~ occurs y (chars s) i)).
Proof.
  intros HN Hs Hr Hx Hx' Hy Hp. destruct (data_split N HN s Hs) as [t Et], (data_split N HN rhs Hr) as [t' Et'].
  pose proof (strcmp_lex (chars s) (chars rhs) t t' Hx Hx') as H1. pose proof (strcmp_lex (chars s) y t [] Hx Hy) as H2.
  rewrite <- Et, <- Et' in H1. rewrite <- Et in H2. split; [|split; [|split; [done|split; [|split]]]].
  - unfold eq_string. rewrite andb_true_iff, !Z.eqb_eq, <- (lex_eq (chars s)), <- H1, Z.compare_eq_iff. split; [by intros [_ ?]|]. intros E. split; [|done].
    apply Z.compare_eq_iff in E. rewrite H1 in E. apply lex_eq in E. by rewrite <- (chars_len N s Hs), <- (chars_len N rhs Hr), E.
  - unfold eq_cstr. by rewrite Z.eqb_eq, <- lex_eq, <- H2, Z.compare_eq_iff.
  - unfold starts_with. rewrite (strlen_text y [] Hy), andb_true_iff, Z.leb_le, <- (chars_len N s Hs), Et.
    replace (Z.to_nat (zlen y)) with (length y) by (unfold zlen; lia). rewrite strncmp_prefix by done. split; [by intros [_ ?]|]. intros Hpre. split; [|done].
    apply prefix_length in Hpre. unfold zlen. lia.
  - by eapply find_first.
  - by eapply rfind_last.
Qed.

(** Strings with an embedded terminator: two that differ behind it compare equal. *)
Theorem eq_string_embedded_nul :
  let a := assign 30 [97; 0; 98] 3 (empty_string 30) in let b := assign 30 [97; 0; 99] 3 (empty_string 30) in
  chars a = [97; 0; 98] /\ chars b = [97; 0; 99] /\ eq_string a b = true.
Proof. by vm_compute. Qed.

(** The empty text is found in a string that is not empty, and not in an empty one. *)
Lemma contains_empty : contains 30 [0] (empty_string 30) = false /\ contains 30 [0] (push_back 30 97 (empty_string 30)) = true.
Proof. by vm_compute. Qed.
