(* ===== verification/Scope.v ===== *)
(** * Structured concurrency: io/async/coroutine/scope.h

    A [coroutine_scope] counts the tasks spawned in it and wakes the coroutines that join them. The
    tasks end, joins begin, resume and are destroyed, and timers fire in any order; the ready queue
    of the scheduler takes a coroutine once. *)

From S2P Require Import Prelude.

Section Scope.
Context {E : Type}.

(** How a task ends; a [cancelled_error] is an exception like the others, with a type of its own. *)
Inductive ending := Returned | Failed (e : E) | Cancelled (e : E).

(** What a coroutine waits for: [join_all], [join_any], [join_all_for]. *)
Inductive kind := JoinAll | JoinAny | JoinAllFor.

(** What a join gives its coroutine. *)
Inductive joined := Done (error : option E) | AnyIndex (i : nat) | InTime (all : bool).

Record task_state := TaskState { task_id : Z; completed : bool }.

(** [scope_impl], with the slots of the awaiters ([live]: the slot holds the handle), the timers of
    [join_all_for], the ready queue and whether the scope's token is cancelled. *)
Record scope := Scope {
  tasks : list task_state;
  active_count : Z;
  join_all_waiter_slots : list Z;
  join_any_waiter_slots : list Z;
  first_error : option E;
  cancelled : bool;
  live : gmap Z kind;
  timers : gset Z;
  ready : list Z;
  (** Ghost: the tasks that run, all that were spawned, the errors reported in order, and how many
      tasks had been spawned when a [join_all] was woken. *)
  running : list Z;
  spawned : list Z;
  errors : list E;
  woken : gmap Z nat
}.

Definition new_scope : scope := Scope [] 0 [] [] None false ∅ ∅ [] [] [] [] ∅.

(** [schedule_via_current]. *)
Definition schedule (w : Z) (q : list Z) : list Z := if decide (w ∈ q) then q else q ++ [w].

(** [wake_slots]: the handles of the slots that are not null. *)
Definition wake_slots (slots : list Z) (s : scope) (q : list Z) : list Z :=
  fold_left (fun q w => if decide (is_Some (live s !! w)) then schedule w q else q) slots q.

(** [spawn]. *)
Definition spawn (id : Z) (s : scope) : scope :=
  Scope (tasks s ++ [TaskState id false]) (active_count s +s 1) (join_all_waiter_slots s) (join_any_waiter_slots s) (first_error s)
    (cancelled s) (live s) (timers s) (ready s) (running s ++ [id]) (spawned s ++ [id]) (errors s) (woken s).

Definition complete (id : Z) (l : list task_state) : list task_state :=
  map (fun t => if task_id t =? id then TaskState id true else t) l.

(** [on_task_done]. *)
Definition on_task_done (err : option E) (s : scope) : scope :=
  let n := active_count s -s 1 in
  let q := if decide (join_any_waiter_slots s = []) then ready s else wake_slots (join_any_waiter_slots s) s (ready s) in
  let all := bool_decide (n = 0) && negb (bool_decide (join_all_waiter_slots s = [])) in
  Scope (tasks s) n (if all then [] else join_all_waiter_slots s) [] (match first_error s with Some e => Some e | None => err end)
    (cancelled s) (live s) (timers s) (if all then wake_slots (join_all_waiter_slots s) s q else q)
    (running s) (spawned s) (errors s ++ option_list err)
    (if all then gset_to_gmap (length (spawned s)) (list_to_set (join_all_waiter_slots s)) ∪ woken s else woken s).

(** [run_wrapped] from the end of its task. *)
Definition run_wrapped (id : Z) (r : ending) (s : scope) : scope :=
  let err := match r with Returned => None | Failed e => Some e | Cancelled e => if cancelled s then None else Some e end in
  on_task_done err
    (Scope (complete id (tasks s)) (active_count s) (join_all_waiter_slots s) (join_any_waiter_slots s) (first_error s) (cancelled s)
       (live s) (timers s) (ready s) (filter (fun x => x <> id) (running s)) (spawned s) (errors s) (woken s)).

Definition cancel_all (s : scope) : scope :=
  Scope (tasks s) (active_count s) (join_all_waiter_slots s) (join_any_waiter_slots s) (first_error s) true
    (live s) (timers s) (ready s) (running s) (spawned s) (errors s) (woken s).

(** The index [await_resume] of [join_any] gives: the first task of the list that completed. *)
Fixpoint first_completed (l : list task_state) : nat :=
  match l with [] => 0 | t :: l => if completed t then 0 else S (first_completed l) end.

Definition result (k : kind) (s : scope) : joined :=
  match k with
  | JoinAll => Done (first_error s)
  | JoinAny => AnyIndex (first_completed (tasks s))
  | JoinAllFor => InTime (bool_decide (active_count s = 0))
  end.

(** [join_all], [join_any] and [join_all_for] up to the suspension of the coroutine [w]. *)
Definition join_all (w : Z) (s : scope) : scope * option joined :=
  if decide (active_count s = 0) then (s, Some (result JoinAll s)) else
  (Scope (tasks s) (active_count s) (join_all_waiter_slots s ++ [w]) (join_any_waiter_slots s) (first_error s) (cancelled s)
     (<[w := JoinAll]> (live s)) (timers s) (ready s) (running s) (spawned s) (errors s) (woken s), None).

Definition join_any (w : Z) (s : scope) : scope * option joined :=
  if existsb completed (tasks s) then (s, Some (result JoinAny s)) else
  (Scope (tasks s) (active_count s) (join_all_waiter_slots s) (join_any_waiter_slots s ++ [w]) (first_error s) (cancelled s)
     (<[w := JoinAny]> (live s)) (timers s) (ready s) (running s) (spawned s) (errors s) (woken s), None).

Definition join_all_for (w : Z) (s : scope) : scope * option joined :=
  if decide (active_count s = 0) then (s, Some (InTime true)) else
  (Scope (tasks s) (active_count s) (join_all_waiter_slots s ++ [w]) (join_any_waiter_slots s) (first_error s) (cancelled s)
     (<[w := JoinAllFor]> (live s)) ({[w]} ∪ timers s) (ready s) (running s) (spawned s) (errors s) (woken s), None).

Definition join (w : Z) (k : kind) (s : scope) : scope * option joined :=
  match k with JoinAll => join_all w s | JoinAny => join_any w s | JoinAllFor => join_all_for w s end.

(** [await_resume] and the end of the awaiter: the slot is cleared, the timer cancelled. *)
Definition leave (w : Z) (q : list Z) (s : scope) : scope :=
  Scope (tasks s) (active_count s) (join_all_waiter_slots s) (join_any_waiter_slots s) (first_error s) (cancelled s)
    (delete w (live s)) (timers s ∖ {[w]}) q (running s) (spawned s) (errors s) (woken s).

Definition resume (s : scope) : scope * option (Z * joined) :=
  match ready s with
  | [] => (s, None)
  | w :: q =>
      match live s !! w with
      | Some k => (leave w q s, Some (w, result k s))
      | None => (leave w q s, None)
      end
  end.

(** The awaiting coroutine is destroyed; the scheduler forgets it. *)
Definition unwind (w : Z) (s : scope) : scope := leave w (filter (fun x => x <> w) (ready s)) s.

(** [join_all_timer] after its delay. *)
Definition timer_fires (w : Z) (s : scope) : scope :=
  Scope (tasks s) (active_count s) (join_all_waiter_slots s) (join_any_waiter_slots s) (first_error s) (cancelled s)
    (live s) (timers s ∖ {[w]}) (if decide (is_Some (live s !! w)) then schedule w (ready s) else ready s)
    (running s) (spawned s) (errors s) (woken s).

(** [~coroutine_scope] and its policy. *)
Inductive cleanup_policy := PolicyJoinAll | PolicyCancelAll | PolicyDetach.

Definition destroy (p : cleanup_policy) (s : scope) : scope :=
  match p with
  | PolicyJoinAll => s
  | PolicyCancelAll => cancel_all s
  | PolicyDetach =>
      Scope [] (active_count s) (join_all_waiter_slots s) (join_any_waiter_slots s) (first_error s) (cancelled s)
        (live s) (timers s) (ready s) (running s) (spawned s) (errors s) (woken s)
  end.

Definition prune_completed (s : scope) : scope :=
  Scope (filter (fun t => completed t = false) (tasks s)) (active_count s) (join_all_waiter_slots s) (join_any_waiter_slots s) (first_error s)
    (cancelled s) (live s) (timers s) (ready s) (running s) (spawned s) (errors s) (woken s).

(** ** Executions *)

Inductive op := Spawn (id : Z) | Ends (id : Z) (r : ending) | Join (w : Z) (k : kind) | Resume | Unwind (w : Z) | Timer (w : Z)
  | CancelAll | Prune.

(** Tasks and coroutines are new when they are spawned and begin to wait. *)
Definition step (s : scope) (o : op) : scope :=
  match o with
  | Spawn id => if decide (id ∈ spawned s) then s else spawn id s
  | Ends id r => if decide (id ∈ running s) then run_wrapped id r s else s
  | Join w k => if decide (w ∈ join_all_waiter_slots s \/ w ∈ join_any_waiter_slots s \/ w ∈ ready s \/ is_Some (live s !! w) \/ is_Some (woken s !! w)) then s
                else (join w k s).1
  | Resume => (resume s).1
  | Unwind w => unwind w s
  | Timer w => if decide (w ∈ timers s) then timer_fires w s else s
  | CancelAll => cancel_all s
  | Prune => prune_completed s
  end.

Definition run (ops : list op) (s : scope) : scope := fold_left step ops s.

(** ** The invariant *)

(** When a join does not suspend, and what it changes when it does. *)
Definition ready_now (k : kind) (s : scope) : bool :=
  match k with
  | JoinAny => existsb completed (tasks s)
  | _ => bool_decide (active_count s = 0)
  end.

Lemma join_eq w k s : join w k s =
  if ready_now k s then (s, Some (result k s)) else
  (Scope (tasks s) (active_count s)
     (match k with JoinAny => join_all_waiter_slots s | _ => join_all_waiter_slots s ++ [w] end)
     (match k with JoinAny => join_any_waiter_slots s ++ [w] | _ => join_any_waiter_slots s end)
     (first_error s) (cancelled s) (<[w := k]> (live s)) (match k with JoinAllFor => {[w]} ∪ timers s | _ => timers s end)
     (ready s) (running s) (spawned s) (errors s) (woken s), None).
Proof.
  destruct k; simpl; [unfold join_all|done|unfold join_all_for]; case_decide as Hd;
    [rewrite bool_decide_true by done|rewrite bool_decide_false by done|rewrite bool_decide_true by done|rewrite bool_decide_false by done];
    done.
Qed.

Lemma elem_of_schedule w x q : x ∈ schedule w q <-> x = w \/ x ∈ q.
Proof. unfold schedule. case_decide; rewrite ?elem_of_app, ?list_elem_of_singleton; naive_solver. Qed.

Lemma elem_of_wake x slots s q : x ∈ wake_slots slots s q <-> x ∈ q \/ (x ∈ slots /\ is_Some (live s !! x)).
Proof.
  unfold wake_slots. revert q. induction slots as [|w slots IH]; intros q; simpl; [rewrite elem_of_nil; naive_solver|].
  rewrite IH, elem_of_cons. case_decide as Hd; [rewrite elem_of_schedule; naive_solver|naive_solver].
Qed.

Record scope_ok (s : scope) : Prop := ScopeOk {
  so_spawned : NoDup (spawned s);
  so_running : NoDup (running s);
  so_sub : forall id, id ∈ running s -> id ∈ spawned s;
  so_count : active_count s = zlen (running s);
  so_tasks : forall t, t ∈ tasks s -> task_id t ∈ spawned s /\ (completed t = false <-> task_id t ∈ running s);
  so_listed : forall id, id ∈ running s -> TaskState id false ∈ tasks s;
  so_all : active_count s = 0 -> join_all_waiter_slots s = [];
  so_any : join_any_waiter_slots s <> [] -> forall t, t ∈ tasks s -> completed t = false;
  so_live_any : forall w, live s !! w = Some JoinAny -> w ∈ join_any_waiter_slots s \/ w ∈ ready s;
  so_live_all : forall w k, live s !! w = Some k -> k <> JoinAny -> w ∈ join_all_waiter_slots s \/ w ∈ ready s;
  so_any_kind : forall w k, w ∈ join_any_waiter_slots s -> live s !! w = Some k -> k = JoinAny;
  so_timer : forall w, w ∈ timers s -> live s !! w = Some JoinAllFor;
  so_woken : forall w, live s !! w = Some JoinAll -> w ∈ ready s -> exists n, woken s !! w = Some n /\ (n = length (spawned s) -> active_count s = 0);
  so_woken_le : forall w n, woken s !! w = Some n -> (n <= length (spawned s))%nat;
  so_first : first_error s = head (errors s)
}.

Lemma new_scope_ok : scope_ok new_scope.
Proof.
  split; simpl; try done; try (by constructor); try (intros ? Hx; by apply elem_of_nil in Hx); try (intros ? ? Hx; by apply elem_of_nil in Hx);
    intros w; try (intros ?); rewrite ?lookup_empty; try done; set_solver.
Qed.

Lemma scope_spawn_ok id s : scope_ok s -> id ∉ spawned s -> zlen (spawned s) + 1 < 2 ^ 63 -> scope_ok (spawn id s).
Proof.
  intros Hok Hid Hb. pose proof Hok as [H1 H2 H3 H4 H5 H6 H7 H8 H9 H10 H11 H12 H13 H14 H15].
  assert (zlen (running s) <= zlen (spawned s)) as Hle.
  { unfold zlen. apply inj_le, submseteq_length, NoDup_submseteq; [done|]. intros x. apply H3. }
  pose proof (zlen_nonneg (running s)) as Hz.
  assert (id ∉ running s) as Hr by (by intros ?%H3). split; simpl.
  - apply NoDup_app. split; [done|]. split; [|apply NoDup_singleton]. by intros x Hx ->%list_elem_of_singleton.
  - apply NoDup_app. split; [done|]. split; [|apply NoDup_singleton]. by intros x Hx ->%list_elem_of_singleton.
  - intros x. rewrite !elem_of_app. naive_solver.
  - rewrite H4, zlen_app, zlen_one. rewrite u64_small; lia.
  - intros t. rewrite elem_of_app, list_elem_of_singleton. intros [Ht| ->]; simpl.
    + destruct (H5 t Ht) as [Hs Hc]. split; [set_solver|]. rewrite Hc, elem_of_app, list_elem_of_singleton. split; [by left|]. intros [?|Heq]; [done|]. rewrite Heq in Hs. done.
    + split; [set_solver|]. split; [set_solver|done].
  - intros x. rewrite elem_of_app, list_elem_of_singleton. intros [Hx| ->]; rewrite elem_of_app; [left; by apply H6|right; by left].
  - rewrite H4, u64_small by lia. lia.
  - intros Hne t. rewrite elem_of_app, list_elem_of_singleton. intros [Ht| ->]; [by apply H8|done].
  - done.
  - done.
  - done.
  - done.
  - intros w Hw Hq. destruct (H13 w Hw Hq) as (n & Hn & _). exists n. split; [done|]. pose proof (H14 w n Hn). rewrite length_app. simpl. lia.
  - intros w n Hn. rewrite length_app. pose proof (H14 w n Hn). lia.
  - done.
Qed.

(** The list and the set of running tasks when a task ends. *)
Lemma scope_complete_ok id s t : scope_ok s -> id ∈ running s -> t ∈ complete id (tasks s) ->
  task_id t ∈ spawned s /\ (completed t = false <-> task_id t ∈ filter (fun x => x <> id) (running s)).
Proof.
  intros Hok Hid Ht. unfold complete in Ht. apply list_elem_of_fmap in Ht as (t0 & -> & Ht0). destruct (so_tasks _ Hok t0 Ht0) as [Hs Hc].
  destruct (Z.eqb_spec (task_id t0) id) as [<-|Hne]; simpl; rewrite list_elem_of_filter.
  - split; [done|]. split; [done|naive_solver].
  - split; [done|]. rewrite Hc. naive_solver.
Qed.

Lemma running_less id (l : list Z) : NoDup l -> id ∈ l -> zlen (filter (fun x => x <> id) l) = zlen l - 1.
Proof.
  intros Hnd Hid. assert (l ≡ₚ id :: filter (fun x => x <> id) l) as Hp.
  { apply NoDup_Permutation; [done| |].
    - apply NoDup_cons. split; [by intros [? _]%list_elem_of_filter|by apply NoDup_filter].
    - intros x. rewrite elem_of_cons, list_elem_of_filter. destruct (decide (x = id)) as [-> |]; naive_solver. }
  unfold zlen. rewrite Hp at 2. simpl. lia.
Qed.

(** Who is ready, and who is marked as woken, when a task ends. *)
Lemma done_ready err s x : x ∈ ready (on_task_done err s) <->
  x ∈ ready s \/ (is_Some (live s !! x) /\ (x ∈ join_any_waiter_slots s \/ (active_count s -s 1 = 0 /\ x ∈ join_all_waiter_slots s))).
Proof.
  unfold on_task_done. cbn [ready]. set (q := if decide (join_any_waiter_slots s = []) then ready s else wake_slots (join_any_waiter_slots s) s (ready s)).
  assert (x ∈ q <-> x ∈ ready s \/ (x ∈ join_any_waiter_slots s /\ is_Some (live s !! x))) as Hq.
  { subst q. case_decide as Hd; [rewrite Hd, elem_of_nil; naive_solver|]. by rewrite elem_of_wake. }
  destruct (bool_decide (active_count s -s 1 = 0)) eqn:E1; simpl.
  - apply bool_decide_eq_true in E1. destruct (decide (join_all_waiter_slots s = [])) as [E2|E2].
    + rewrite bool_decide_true by done. simpl. rewrite Hq, E2, elem_of_nil. naive_solver.
    + rewrite bool_decide_false by done. simpl. rewrite elem_of_wake, Hq. naive_solver.
  - apply bool_decide_eq_false in E1. rewrite Hq. naive_solver.
Qed.

Lemma done_woken err s x : woken (on_task_done err s) !! x =
  if decide (active_count s -s 1 = 0 /\ x ∈ join_all_waiter_slots s) then Some (length (spawned s)) else woken s !! x.
Proof.
  unfold on_task_done. cbn [woken]. destruct (bool_decide (active_count s -s 1 = 0)) eqn:E1; simpl.
  - apply bool_decide_eq_true in E1. destruct (decide (join_all_waiter_slots s = [])) as [E2|E2].
    + rewrite bool_decide_true by done. simpl. rewrite decide_False; [done|]. rewrite E2. intros [_ Hx]. by apply elem_of_nil in Hx.
    + rewrite bool_decide_false by done. simpl. case_decide as Hd.
      * apply lookup_union_Some_l, lookup_gset_to_gmap_Some. split; [apply elem_of_list_to_set, Hd|done].
      * apply lookup_union_r, lookup_gset_to_gmap_None. rewrite elem_of_list_to_set. naive_solver.
  - apply bool_decide_eq_false in E1. by rewrite decide_False by naive_solver.
Qed.

Lemma done_all err s : join_all_waiter_slots (on_task_done err s) = if decide (active_count s -s 1 = 0) then [] else join_all_waiter_slots s.
Proof.
  unfold on_task_done. cbn [join_all_waiter_slots]. case_decide as E1; [|by rewrite bool_decide_false by done].
  rewrite bool_decide_true by done. simpl. destruct (decide (join_all_waiter_slots s = [])) as [E2|E2].
  - rewrite bool_decide_true by done. done.
  - rewrite bool_decide_false by done. done.
Qed.

Lemma ends_ok id r s : scope_ok s -> id ∈ running s -> zlen (spawned s) < 2 ^ 63 -> scope_ok (run_wrapped id r s).
Proof.
  intros Hok Hid Hb. pose proof Hok as [H1 H2 H3 H4 H5 H6 H7 H8 H9 H10 H11 H12 H13 H14 H15].
  pose proof (running_less id (running s) H2 Hid) as Hless. pose proof (zlen_nonneg (filter (fun x => x <> id) (running s))) as Hz.
  assert (zlen (running s) <= zlen (spawned s)) as Hle.
  { unfold zlen. apply inj_le, submseteq_length, NoDup_submseteq; [done|]. intros x. apply H3. }
  unfold run_wrapped. set (err := match r with Returned => None | Failed e => Some e | Cancelled e => if cancelled s then None else Some e end).
  set (s1 := Scope _ _ _ _ _ _ _ _ _ _ _ _ _).
  assert (active_count s1 -s 1 = zlen (running s) - 1) as Hn by (simpl; rewrite H4, u64_small by lia; done). split.
  - done.
  - by apply NoDup_filter.
  - intros x [_ Hx]%list_elem_of_filter. by apply H3.
  - change (active_count s1 -s 1 = zlen (filter (fun x => x <> id) (running s))). lia.
  - intros t Ht. exact (scope_complete_ok id s t Hok Hid Ht).
  - intros x [Hne Hx]%list_elem_of_filter. simpl. unfold complete. apply list_elem_of_fmap. exists (TaskState x false). simpl. split; [|by apply H6].
    by destruct (Z.eqb_spec x id).
  - intros E0. rewrite done_all. by rewrite decide_True.
  - done.
  - intros w Hw. right. apply done_ready. destruct (H9 w Hw) as [?|?]; [right; split; [by eexists|by left]|by left].
  - intros w k Hw Hk. rewrite done_all, done_ready. change (live (on_task_done err s1)) with (live s) in Hw. destruct (H10 w k Hw Hk) as [Hin|Hin]; [|by right; left].
    case_decide; [right; right; split; [by eexists|by right]|by left].
  - intros w k Hin. by apply elem_of_nil in Hin.
  - done.
  - intros w Hw Hin. change (live (on_task_done err s1)) with (live s) in Hw. rewrite done_woken. apply done_ready in Hin. case_decide as Hd.
    + exists (length (spawned s)). split; [done|]. intros _. by destruct Hd.
    + destruct Hin as [Hin|[_ [Hin|Hin]]]; [|by specialize (H11 w _ Hin Hw)|done]. destruct (H13 w Hw Hin) as (m & Hm & Hz0).
      exists m. split; [done|]. intros E0. specialize (Hz0 E0). rewrite H4 in Hz0. lia.
  - intros w m. rewrite done_woken. case_decide; [by intros [= <-]|apply H14].
  - simpl. rewrite H15. destruct (errors s); [|done]. simpl. by destruct err.
Qed.

Lemma join_ok w k s : scope_ok s -> w ∉ ready s -> w ∉ join_any_waiter_slots s -> live s !! w = None -> scope_ok (join w k s).1.
Proof.
  intros Hok Hq Ha Hl. pose proof Hok as [H1 H2 H3 H4 H5 H6 H7 H8 H9 H10 H11 H12 H13 H14 H15]. rewrite join_eq. destruct (ready_now k s) eqn:Er; [done|].
  assert (forall x, x ∈ timers s -> x <> w) as Hnt by (intros x Hx ->; apply H12 in Hx; congruence).
  split; simpl; try done.
  - intros E0. destruct k; simpl in Er; [|by apply H7|]; by rewrite bool_decide_true in Er.
  - destruct k; [by apply H8| |by apply H8]. intros _ t Ht. simpl in Er. destruct (completed t) eqn:Ec; [|done].
    assert (existsb completed (tasks s) = true) as Hx; [|congruence]. apply existsb_exists. exists t. split; [by apply list_elem_of_In|done].
  - intros x. destruct (decide (x = w)) as [-> |Hne].
    + rewrite lookup_insert_eq. intros [= ->]. left. set_solver.
    + rewrite lookup_insert_ne by done. intros Hx. destruct (H9 x Hx); [left|by right]. destruct k; set_solver.
  - intros x k'. destruct (decide (x = w)) as [-> |Hne].
    + rewrite lookup_insert_eq. intros [= <-] Hk. left. destruct k; [set_solver|done|set_solver].
    + rewrite lookup_insert_ne by done. intros Hx Hk. destruct (H10 x k' Hx Hk); [left|by right]. destruct k; set_solver.
  - intros x k' Hin. destruct (decide (x = w)) as [-> |Hne].
    + rewrite lookup_insert_eq. intros [= <-]. by destruct k.
    + rewrite lookup_insert_ne by done. intros Hx. apply (H11 x); [|done]. destruct k; set_solver.
  - intros x Hx. destruct (decide (x = w)) as [-> |Hne].
    + rewrite lookup_insert_eq. destruct k; [by apply Hnt in Hx|by apply Hnt in Hx|done].
    + rewrite lookup_insert_ne by done. apply H12. destruct k; set_solver.
  - intros x. destruct (decide (x = w)) as [-> |Hne]; [done|]. rewrite lookup_insert_ne by done. apply H13.
Qed.

Lemma scope_leave_ok w q s : scope_ok s -> (forall x, x ∈ q -> x ∈ ready s) -> (forall x, x ∈ ready s -> x <> w -> x ∈ q) -> scope_ok (leave w q s).
Proof.
  intros [H1 H2 H3 H4 H5 H6 H7 H8 H9 H10 H11 H12 H13 H14 H15] Hq1 Hq2. split; simpl; try done.
  - intros x [Hne Hx]%lookup_delete_Some. destruct (H9 x Hx); [by left|right; apply Hq2; congruence].
  - intros x k [Hne Hx]%lookup_delete_Some Hk. destruct (H10 x k Hx Hk); [by left|right; apply Hq2; congruence].
  - intros x k Hin [_ Hx]%lookup_delete_Some. by apply (H11 x).
  - intros x [Hx Hne]%elem_of_difference. rewrite elem_of_singleton in Hne. rewrite lookup_delete_ne by congruence. by apply H12.
  - intros x [_ Hx]%lookup_delete_Some Hin. apply H13; [done|by apply Hq1].
Qed.

Lemma scope_resume_ok s : scope_ok s -> scope_ok (resume s).1.
Proof.
  intros Hok. unfold resume. destruct (ready s) as [|w q] eqn:Er; [done|].
  assert (scope_ok (leave w q s)) as Hl.
  { apply scope_leave_ok; [done| |]; intros x; rewrite Er; [by right|]. rewrite elem_of_cons. naive_solver. }
  by destruct (live s !! w).
Qed.

Lemma unwind_ok w s : scope_ok s -> scope_ok (unwind w s).
Proof. intros Hok. apply scope_leave_ok; [done| |]; intros x; rewrite list_elem_of_filter; naive_solver. Qed.

Lemma timer_ok w s : scope_ok s -> w ∈ timers s -> scope_ok (timer_fires w s).
Proof.
  intros [H1 H2 H3 H4 H5 H6 H7 H8 H9 H10 H11 H12 H13 H14 H15] Hw. pose proof (H12 w Hw) as Hl.
  split; simpl; try done; rewrite ?(decide_True (P := is_Some (live s !! w))) by (rewrite Hl; by eexists).
  - intros x Hx. rewrite elem_of_schedule. destruct (H9 x Hx); auto.
  - intros x k Hx Hk. rewrite elem_of_schedule. destruct (H10 x k Hx Hk); auto.
  - intros x [Hx _]%elem_of_difference. by apply H12.
  - intros x Hx. rewrite elem_of_schedule. intros [-> |Hin]; [congruence|by apply H13].
Qed.

Lemma cancel_ok s : scope_ok s -> scope_ok (cancel_all s).
Proof. by intros []. Qed.

Lemma scope_prune_ok s : scope_ok s -> scope_ok (prune_completed s).
Proof.
  intros [H1 H2 H3 H4 H5 H6 H7 H8 H9 H10 H11 H12 H13 H14 H15]. split; simpl; try done.
  - intros t [_ Ht]%list_elem_of_filter. by apply H5.
  - intros id Hid. apply list_elem_of_filter. split; [done|by apply H6].
  - intros Hne t [Ht _]%list_elem_of_filter. done.
Qed.

Lemma spawned_step o s : zlen (spawned (step s o)) <= zlen (spawned s) + 1.
Proof.
  destruct o; simpl; repeat case_decide; simpl; rewrite ?join_eq; unfold resume, zlen;
    repeat match goal with |- context [match ?x with _ => _ end] => destruct x end; simpl; rewrite ?length_app; simpl; lia.
Qed.

Lemma scope_step_ok o s : scope_ok s -> zlen (spawned s) + 1 < 2 ^ 63 -> scope_ok (step s o).
Proof.
  intros Hok Hb. destruct o; simpl.
  - case_decide; [done|by apply scope_spawn_ok].
  - case_decide; [apply ends_ok; [done|done|lia]|done].
  - case_decide as Hd; [done|]. apply join_ok; [done|naive_solver|naive_solver|]. apply eq_None_not_Some. naive_solver.
  - by apply scope_resume_ok.
  - by apply unwind_ok.
  - case_decide; [by apply timer_ok|done].
  - by apply cancel_ok.
  - by apply scope_prune_ok.
Qed.

Lemma scope_run_ok ops s : scope_ok s -> zlen (spawned s) + zlen ops < 2 ^ 63 -> scope_ok (run ops s).
Proof.
  revert s. induction ops as [|o ops IH]; intros s Hok Hb; [done|]. unfold zlen in Hb. simpl in Hb.
  apply IH; [apply scope_step_ok; [done|unfold zlen in *; lia]|]. pose proof (spawned_step o s). unfold zlen in *. simpl. lia.
Qed.

(** ** What a join promises *)

(** C23: The joins of a scope lose no wake-up. In any interleaving of spawns, ends of tasks, joins,
    resumptions, destroyed joiners, timeouts, cancellations and prunings, [active_count] is the number
    of tasks that run; once it is zero every coroutine suspended in [join_all] or [join_all_for] is in
    the ready queue; as long as a completed task is listed, so is every coroutine suspended in
    [join_any]; a [join_all] that is resumed with no task spawned since it was woken finds no task
    running; and the error it throws is the first one that a task reported. *)
Theorem scope_join_contract ops : zlen ops < 2 ^ 63 ->
  let s := run ops new_scope in
  active_count s = zlen (running s) /\
  (active_count s = 0 -> forall w k, live s !! w = Some k -> k <> JoinAny -> w ∈ ready s) /\
  (forall t w, t ∈ tasks s -> completed t = true -> live s !! w = Some JoinAny -> w ∈ ready s) /\
  (forall w q, ready s = w :: q -> live s !! w = Some JoinAll -> woken s !! w = Some (length (spawned s)) ->
     active_count s = 0 /\ (resume s).2 = Some (w, Done (head (errors s)))).
Proof.
  intros Hb s. assert (scope_ok s) as Hok by (apply scope_run_ok; [apply new_scope_ok|unfold zlen in *; simpl; lia]). clearbody s.
  destruct Hok as [H1 H2 H3 H4 H5 H6 H7 H8 H9 H10 H11 H12 H13 H14 H15].
  split; [done|]. split; [|split].
  - intros E0 w k Hw Hk. destruct (H10 w k Hw Hk) as [Hin|]; [|done]. rewrite (H7 E0) in Hin. by apply elem_of_nil in Hin.
  - intros t w Ht Hc Hw. destruct (H9 w Hw) as [Hin|]; [|done]. rewrite H8 in Hc; [done| |done]. intros E0. rewrite E0 in Hin. by apply elem_of_nil in Hin.
  - intros w q Hq Hw Hn. destruct (H13 w Hw) as (n & Hn' & Hz); [rewrite Hq; by left|]. split.
    + apply Hz. congruence.
    + unfold resume. rewrite Hq, Hw. simpl. by rewrite <- H15.
Qed.

(** Operations that spawn nothing. *)
Definition no_task (o : op) : bool := match o with Spawn _ => false | _ => true end.

Definition idle (s : scope) : Prop := tasks s = [] /\ active_count s = 0 /\ running s = [] /\ timers s = ∅ /\ ready s = [].

Lemma idle_step o w s : idle s -> live s !! w = Some JoinAny -> no_task o = true -> o <> Unwind w ->
  idle (step s o) /\ live (step s o) !! w = Some JoinAny.
Proof.
  intros (H1 & H2 & H3 & H4 & H5) Hw Ho Hu. destruct o; simpl in *; try done.
  - by rewrite decide_False by (rewrite H3; apply not_elem_of_nil).
  - case_decide as Hd; [done|]. rewrite join_eq. unfold ready_now. destruct k; simpl; rewrite ?H1, ?(bool_decide_true (active_count s = 0)) by done; simpl; try done.
    split; [done|]. rewrite lookup_insert_ne; [done|]. intros ->. apply Hd. rewrite Hw. naive_solver.
  - unfold resume. by rewrite H5.
  - split; [|rewrite lookup_delete_ne by congruence; done]. split; [done|]. split; [done|]. split; [done|]. simpl. rewrite H4, H5. split; [set_solver|done].
  - rewrite decide_False by (rewrite H4; set_solver). done.
  - split; [|done]. unfold idle. simpl. rewrite H1. done.
Qed.

Lemma idle_run ops w s : idle s -> live s !! w = Some JoinAny -> forallb no_task ops = true -> (Unwind w) ∉ ops ->
  idle (run ops s) /\ live (run ops s) !! w = Some JoinAny.
Proof.
  revert s. induction ops as [|o ops IH]; intros s Hi Hw Hops Hu; [done|]. simpl in Hops. apply andb_true_iff in Hops as [Ho Hops].
  destruct (idle_step o w s Hi Hw Ho) as [Hi' Hw']; [set_solver|]. simpl. apply IH; [done|done|done|set_solver].
Qed.

(** [join_any] on a scope with no task suspends its coroutine, and it stays suspended whatever happens
    until a task is spawned or the coroutine is destroyed; the comment of [join_any] says that it
    returns [total_count()]. *)
Theorem join_any_empty_hangs w ops : forallb no_task ops = true -> (Unwind w) ∉ ops ->
  let s := run (Join w JoinAny :: ops) new_scope in
  live s !! w = Some JoinAny /\ (w ∉ ready s) /\ (resume s).2 = None.
Proof.
  intros Hops Hu s. assert (idle s /\ live s !! w = Some JoinAny) as [(H1 & H2 & H3 & H4 & H5) Hl].
  { subst s. simpl. rewrite decide_False by (intros [H|[H|[H|[[? H]|[? H]]]]]; simpl in H; [by apply elem_of_nil in H..| |]; by rewrite lookup_empty in H).
    apply idle_run; [done|apply lookup_insert_eq|done|done]. }
  split; [done|]. split; [rewrite H5; apply not_elem_of_nil|]. unfold resume. by rewrite H5.
Qed.
End Scope.

(** Two tasks, one of which fails; a [join_all], a [join_any] and a timed join wait for them. *)
Definition sample_ops : list (@op Z) :=
  [Spawn 1; Spawn 2; Join 10 JoinAll; Join 11 JoinAny; Join 12 JoinAllFor; Ends 1 (Failed 7); Resume; Timer 12; Ends 2 Returned].

Lemma scope_join_contract_witness :
  (let s := run sample_ops new_scope in active_count s = 0 /\ 10 ∈ ready s) /\ zlen sample_ops < 2 ^ 63.
Proof.
  assert (zlen sample_ops < 2 ^ 63) as Hb by reflexivity. split; [|exact Hb].
  destruct (scope_join_contract sample_ops Hb) as (_ & H & _). split; [vm_compute; reflexivity|].
  apply (H ltac:(vm_compute; reflexivity) 10 JoinAll); [vm_compute; reflexivity|discriminate].
Defined.

Lemma join_any_empty_hangs_witness :
  let s := run (E := Z) [Join 5 JoinAny; Join 6 JoinAll; CancelAll; Resume; Prune] new_scope in live s !! 5 = Some JoinAny /\ (resume s).2 = None.
Proof.
  destruct (join_any_empty_hangs (E := Z) 5 [Join 6 JoinAll; CancelAll; Resume; Prune] eq_refl ltac:(set_solver)) as (H1 & _ & H2).
  split; [exact H1|exact H2].
Defined.

(** A task spawned between the wake-up of a [join_all] and its resumption is not joined. *)
Lemma join_all_misses_late_spawn :
  let s := run (E := Z) [Spawn 1; Join 10 JoinAll; Ends 1 Returned; Spawn 2] new_scope in
  (resume s).2 = Some (10, Done None) /\ active_count s = 1.
Proof. vm_compute. done. Qed.

(** A [join_any] whose completed task is pruned before it resumes gives the number of tasks. *)
Lemma join_any_after_prune :
  let s := run (E := Z) [Spawn 1; Join 10 JoinAny; Ends 1 Returned; Prune] new_scope in
  (resume s).2 = Some (10, AnyIndex 0) /\ tasks s = [].
Proof. vm_compute. done. Qed.

(** The destructor never waits: a scope that joins on destruction leaves its tasks running. *)
Lemma joining_scope_leaves_tasks {E} p (s : @scope E) : active_count (destroy p s) = active_count s /\ running (destroy p s) = running s.
Proof. by destruct p. Qed.
