(* ===== verification/Retry.v ===== *)
(** * Retries with backoff: io/async/coroutine/retry.h

    The delay before a retry, in 64-bit milliseconds with every signed operation checked, and the
    loops that call an operation until it succeeds, fails for good or has used up its attempts. The
    log of a run has the calls, the notifications and the delays in order. *)

From S2P Require Import Prelude.

(** Signed 64-bit arithmetic; [None] is an overflow, which C++ leaves undefined. *)
Definition MS_MAX : Z := 2 ^ 63 - 1.
Definition i64 (z : Z) : option Z := if (- 2 ^ 63 <=? z) && (z <? 2 ^ 63) then Some z else None.

(** [duration_cast<milliseconds>] of nanoseconds, and the conversion back. *)
Definition to_ms (ns : Z) : Z := Z.quot ns 1000000.
Definition of_ms (ms : Z) : option Z := i64 (ms * 1000000).

Inductive backoff_strategy := fixed | linear | exponential | exponential_jitter.

Section Retry.
Context {V X : Type}.

(** [retry_policy]; [on_retry] is whether a callback is set. *)
Record retry_policy := RetryPolicy {
  max_attempts : Z;
  base_delay : Z;
  max_delay : Z;
  strategy : backoff_strategy;
  is_retryable : X -> bool;
  on_retry : bool
}.

(** A product that is replaced by [max_ms] when it would overflow. *)
Definition scaled (base_ms max_ms factor : Z) : option Z :=
  if negb (base_ms =? 0) && (Z.quot MS_MAX base_ms <? factor) then Some max_ms else i64 (base_ms * factor).

(** [calculate_delay]; [jitter_pct] is what the generator draws. *)
Definition calculate_delay (retry_number : Z) (p : retry_policy) (jitter_pct : Z) : option Z :=
  let n := if retry_number <? 1 then 1 else retry_number in
  let base_ms := to_ms (base_delay p) in
  let max_ms := to_ms (max_delay p) in
  d ← match strategy p with
      | fixed => Some base_ms
      | linear => scaled base_ms max_ms (Z.min n 10000)
      | exponential => scaled base_ms max_ms (2 ^ Z.min (n - 1) 30)
      | exponential_jitter =>
          d ← scaled base_ms max_ms (2 ^ Z.min (n - 1) 30);
          let d := if max_ms <? d then max_ms else d in
          if negb (jitter_pct =? 0) && (Z.quot (Z.quot MS_MAX jitter_pct) 2 <? d) then Some max_ms else
          m ← i64 (d * jitter_pct); i64 (d + Z.quot m 100)
      end;
  let d := if max_ms <? d then max_ms else d in
  of_ms (if d <? 0 then 0 else d).

(** How a call ends: with a value, with a [std::exception] or with something else thrown. *)
Inductive attempt := Value (v : V) | StdException (e : X) | Thrown (e : X).

Inductive event := Called (i : Z) | Notified (i : Z) (e : option X) | Slept (d : Z).

Inductive outcome := Returned (v : V) | Rethrown (e : X) | Exhausted (attempts : Z) (last_error : option X) | Overflow | NoFuel.

Section Loops.
Variable p : retry_policy.
(** The calls of the operation and the draws of the generator, by number. *)
Variable f : Z -> attempt.
Variable jitter : Z -> Z.

(** [with_retry] from its loop. *)
Fixpoint with_retry_loop (fuel : nat) (current_attempt : Z) (last_error : option X) (log : list event) : list event * outcome :=
  match fuel with
  | O => (log, NoFuel)
  | S fuel =>
      if current_attempt <? max_attempts p then
        let log := log ++ [Called current_attempt] in
        let again last_error log :=
          let current_attempt := current_attempt +s 1 in
          if max_attempts p <=? current_attempt then (log, Exhausted (max_attempts p) last_error) else
          match calculate_delay current_attempt p (jitter current_attempt) with
          | None => (log, Overflow)
          | Some d => with_retry_loop fuel current_attempt last_error (log ++ [Slept d])
          end in
        match f current_attempt with
        | Value v => (log, Returned v)
        | StdException e =>
            if negb (is_retryable p e) then (log, Rethrown e) else
            again (Some e) (if on_retry p && (current_attempt +s 1 <? max_attempts p) then log ++ [Notified (current_attempt +s 1) (Some e)] else log)
        | Thrown e => again (Some e) log
        end
      else (log, Exhausted (max_attempts p) last_error)
  end.

Definition with_retry : list event * outcome := with_retry_loop (S (Z.to_nat (max_attempts p))) 0 None [].

(** [with_retry_until]; an exception of the operation leaves it, and the callback gets an exception
    that stands for the unsuccessful result. *)
Variable is_success : V -> bool.

Fixpoint with_retry_until_loop (fuel : nat) (i : Z) (log : list event) : list event * outcome :=
  match fuel with
  | O => (log, NoFuel)
  | S fuel =>
      if i <? max_attempts p then
        let log := log ++ [Called i] in
        match f i with
        | StdException e | Thrown e => (log, Rethrown e)
        | Value v =>
            if is_success v then (log, Returned v) else
            if max_attempts p <=? i +s 1 then (log, Exhausted (max_attempts p) None) else
            let log := if on_retry p then log ++ [Notified (i +s 1) None] else log in
            match calculate_delay (i +s 1) p (jitter (i +s 1)) with
            | None => (log, Overflow)
            | Some d => with_retry_until_loop fuel (i +s 1) (log ++ [Slept d])
            end
        end
      else (log, Exhausted (max_attempts p) None)
  end.

Definition with_retry_until : list event * outcome := with_retry_until_loop (S (Z.to_nat (max_attempts p))) 0 [].
End Loops.

(** ** The delay *)

(** The factor a strategy applies to the base delay of the [n]th retry. *)
Definition growth (st : backoff_strategy) (n : Z) : Z :=
  match st with fixed => 1 | linear => Z.min n 10000 | _ => 2 ^ Z.min (n - 1) 30 end.

Lemma i64_in z : - 2 ^ 63 <= z < 2 ^ 63 -> i64 z = Some z.
Proof. intros H. unfold i64. zcase; try lia. done. Qed.

Lemma to_ms_bound z : - 2 ^ 63 <= z < 2 ^ 63 -> - 9223372036854 <= to_ms z <= 9223372036854.
Proof. intros H. unfold to_ms. Z.to_euclidean_division_equations; lia. Qed.

Lemma to_ms_nonneg z : 0 <= z -> 0 <= to_ms z.
Proof. intros H. unfold to_ms. apply Z.quot_pos; lia. Qed.

Lemma growth_bound st n : 1 <= n -> 1 <= growth st n <= 2 ^ 30.
Proof.
  intros H. assert (1 <= 2 ^ Z.min (n - 1) 30 <= 2 ^ 30) as Hp.
  { split; [change 1 with (2 ^ 0) at 1|]; apply Z.pow_le_mono_r; lia. }
  destruct st; simpl; lia.
Qed.

(** The guard replaces exactly the products that do not fit. *)
Lemma scaled_nonneg b m f : 0 <= b <= 9223372036854 -> m <= 9223372036854 -> 1 <= f <= 2 ^ 30 ->
  exists d, scaled b m f = Some d /\ Z.min d m = Z.min (b * f) m.
Proof.
  intros Hb Hm Hf. unfold scaled, MS_MAX. destruct (Z.eqb_spec b 0) as [-> |Hne]; simpl; [exists 0; by rewrite i64_in by lia|].
  pose proof (Z.quot_rem' (2 ^ 63 - 1) b) as Hq. pose proof (Z.rem_bound_pos (2 ^ 63 - 1) b ltac:(lia) ltac:(lia)) as Hr.
  zcase.
  - exists m. split; [done|]. assert (2 ^ 63 - 1 < b * f) by nia. lia.
  - exists (b * f). split; [|done]. apply i64_in. nia.
Qed.

Lemma scaled_negative b m f : - 9223372036854 <= b < 0 -> 1 <= f -> scaled b m f = Some m.
Proof.
  intros Hb Hf. unfold scaled, MS_MAX. destruct (Z.eqb_spec b 0); [lia|]. simpl.
  assert (Z.quot (2 ^ 63 - 1) b <= 0) as Hq.
  { rewrite <- (Z.opp_involutive b), Z.quot_opp_r by lia. pose proof (Z.quot_pos (2 ^ 63 - 1) (- b) ltac:(lia) ltac:(lia)). lia. }
  zcase; [done|lia].
Qed.

Lemma min_if d m : (if m <? d then m else d) = Z.min d m.
Proof. zcase; lia. Qed.

(** The jitter of a delay that is at most [m]. *)
Lemma jitter_in e m j : - 9223372036854 <= e <= m -> m <= 9223372036854 -> 0 <= j <= 49 ->
  (if negb (j =? 0) && (Z.quot (Z.quot MS_MAX j) 2 <? e) then Some m else x ← i64 (e * j); i64 (e + Z.quot x 100)) = Some (e + Z.quot (e * j) 100).
Proof.
  intros He Hm Hj. assert (j <> 0 -> 9223372036854 <= Z.quot (Z.quot MS_MAX j) 2) as Hq.
  { intros Hne. apply Z.quot_le_lower_bound; [lia|]. apply Z.quot_le_lower_bound; [lia|]. unfold MS_MAX. nia. }
  assert (- 500000000000000 <= e * j <= 500000000000000) as Hp by nia.
  destruct (Z.eqb_spec j 0) as [-> |Hne]; simpl; [|zcase; [specialize (Hq Hne); lia|]];
    rewrite (i64_in (e * _)) by lia; simpl; apply i64_in; Z.to_euclidean_division_equations; lia.
Qed.

(** The delay of every retry is computed without an overflow of its 64-bit arithmetic, is never
    negative and never longer than [max_delay], for delays of any sign and size. *)
Lemma calculate_delay_cases n p j : - 2 ^ 63 <= base_delay p < 2 ^ 63 -> - 2 ^ 63 <= max_delay p < 2 ^ 63 -> 0 <= j <= 49 -> 1 <= n ->
  exists d, calculate_delay n p j = Some (1000000 * Z.max 0 (Z.min d (to_ms (max_delay p)))) /\
    (0 <= base_delay p -> 0 <= max_delay p ->
       let e := Z.min (to_ms (base_delay p) * growth (strategy p) n) (to_ms (max_delay p)) in
       Z.min d (to_ms (max_delay p)) = Z.min (match strategy p with exponential_jitter => e + e * j / 100 | _ => e end) (to_ms (max_delay p))).
Proof.
  intros Hb Hm Hj Hn. pose proof (to_ms_bound _ Hb) as Hb'. pose proof (to_ms_bound _ Hm) as Hm'.
  pose proof (growth_bound (strategy p) n Hn) as Hg. unfold calculate_delay. replace (n <? 1) with false by (symmetry; apply Z.ltb_ge; lia).
  assert (forall d, of_ms (if (if to_ms (max_delay p) <? d then to_ms (max_delay p) else d) <? 0 then 0 else if to_ms (max_delay p) <? d then to_ms (max_delay p) else d)
    = Some (1000000 * Z.max 0 (Z.min d (to_ms (max_delay p))))) as Hof.
  { intros d. rewrite min_if. unfold of_ms. rewrite i64_in by (zcase; lia). f_equal. zcase; lia. }
  assert (exists d, scaled (to_ms (base_delay p)) (to_ms (max_delay p)) (growth (strategy p) n) = Some d /\
    (0 <= base_delay p -> Z.min d (to_ms (max_delay p)) = Z.min (to_ms (base_delay p) * growth (strategy p) n) (to_ms (max_delay p))) /\
    - 9223372036854 <= Z.min d (to_ms (max_delay p))) as (d & Hs & Hd & Hlow).
  { destruct (decide (0 <= to_ms (base_delay p))) as [Hp|Hp].
    - destruct (scaled_nonneg (to_ms (base_delay p)) (to_ms (max_delay p)) (growth (strategy p) n)) as (d & Hs & Hd); [lia..|].
      exists d. split; [done|]. split; [done|]. rewrite Hd. nia.
    - rewrite scaled_negative by lia. eexists. split; [done|]. split; [intros H; apply to_ms_nonneg in H; lia|lia]. }
  destruct (strategy p) eqn:Est; cbn [growth] in *.
  - exists (to_ms (base_delay p)). split; [apply Hof|]. intros _ _. simpl. lia.
  - rewrite Hs. exists d. split; [apply Hof|]. intros H1 _. specialize (Hd H1). simpl. lia.
  - rewrite Hs. exists d. split; [apply Hof|]. intros H1 _. specialize (Hd H1). simpl. lia.
  - rewrite Hs. cbn [mbind option_bind]. rewrite min_if. rewrite jitter_in by lia. eexists. split; [apply Hof|].
    intros H1 H2. specialize (Hd H1). simpl. rewrite Hd. apply to_ms_nonneg in H1, H2.
    rewrite Z.quot_div_nonneg by nia. lia.
Qed.

(** ** The loops *)

Definition policy_ok (p : retry_policy) : Prop :=
  0 <= max_attempts p < 2 ^ 64 /\ - 2 ^ 63 <= base_delay p < 2 ^ 63 /\ - 2 ^ 63 <= max_delay p < 2 ^ 63.

Section Runs.
Variable p : retry_policy.
Variable f : Z -> attempt.
Variable jitter : Z -> Z.
Hypothesis Hp : policy_ok p.
Hypothesis Hj : forall i, 0 <= jitter i <= 49.

(** The error of an attempt after which the loop goes on. *)
Definition retried (a : attempt) : option X :=
  match a with
  | Value _ => None
  | StdException e => if is_retryable p e then Some e else None
  | Thrown e => Some e
  end.

Definition delay (i : Z) : Z := default 0 (calculate_delay i p (jitter i)).

(** What happens in the rounds before the one that ends the loop: a call, the callback for a
    [std::exception], the delay. *)
Definition round (i : Z) : list event :=
  Called i :: match f i with StdException e => if on_retry p then [Notified (i + 1) (Some e)] else [] | _ => [] end ++ [Slept (delay (i + 1))].

Definition rounds (k : Z) : list event := concat (round <$> seqZ 0 k).

Lemma delay_some i : 1 <= i -> calculate_delay i p (jitter i) = Some (delay i).
Proof.
  intros Hi. destruct Hp as (_ & Hb & Hm). destruct (calculate_delay_cases i p (jitter i) Hb Hm (Hj i) Hi) as (d & Hd & _).
  unfold delay. by rewrite Hd.
Qed.

Lemma rounds_S k : 0 <= k -> rounds (k + 1) = rounds k ++ round k.
Proof. intros H. unfold rounds. rewrite seqZ_app, fmap_app, concat_app by lia. f_equal. rewrite seqZ_cons by lia. cbn [fmap list_fmap concat]. by rewrite app_nil_r, Z.add_0_l. Qed.

Lemma loop_round fuel i e le log : 0 <= i -> i + 1 < max_attempts p -> retried (f i) = Some e ->
  with_retry_loop p f jitter (S fuel) i le log = with_retry_loop p f jitter fuel (i + 1) (Some e) (log ++ round i).
Proof.
  intros Hi Hmax Hr. destruct Hp as (Hma & _). cbn [with_retry_loop]. rewrite !(u64_small (i + 1)) by lia.
  rewrite (proj2 (Z.ltb_lt i (max_attempts p))) by lia. rewrite (proj2 (Z.leb_gt (max_attempts p) (i + 1))) by lia.
  rewrite (proj2 (Z.ltb_lt (i + 1) (max_attempts p))) by lia. rewrite andb_true_r, (delay_some (i + 1)) by lia.
  unfold round. destruct (f i) as [v|x|x] eqn:Ef; simpl in Hr; [done| |].
  - destruct (is_retryable p x); [|done]. injection Hr as ->. simpl. destruct (on_retry p); by rewrite <- !app_assoc.
  - injection Hr as ->. by rewrite <- app_assoc.
Qed.

(** The loop after [k] rounds. *)
Lemma loop_rounds k fuel : 0 <= k -> k < max_attempts p -> (forall i, 0 <= i < k -> is_Some (retried (f i))) ->
  exists le, with_retry_loop p f jitter (Z.to_nat k + fuel) 0 None [] = with_retry_loop p f jitter fuel k le (rounds k).
Proof.
  intros Hk. revert fuel. apply (natlike_ind (fun k => forall fuel, k < max_attempts p -> (forall i, 0 <= i < k -> is_Some (retried (f i))) ->
    exists le, with_retry_loop p f jitter (Z.to_nat k + fuel) 0 None [] = with_retry_loop p f jitter fuel k le (rounds k))); [|clear k Hk|done].
  - intros fuel _ _. by exists None.
  - intros k Hk IH fuel Hlt Hall. destruct (IH (S fuel)) as [le Hle]; [lia|intros; apply Hall; lia|]. destruct (Hall k) as [e He]; [lia|].
    exists (Some e). rewrite Z2Nat.inj_succ, Nat.add_succ_l, <- Nat.add_succ_r by lia. rewrite Hle.
    rewrite (loop_round fuel k e) by (done || lia). by rewrite <- rounds_S by lia.
Qed.

(** The last round. *)
Lemma loop_last fuel k le log : 0 <= k < max_attempts p -> (retried (f k) = None \/ k + 1 = max_attempts p) ->
  with_retry_loop p f jitter (S fuel) k le log =
  (log ++ [Called k], match f k with
                      | Value v => Returned v
                      | StdException e => if is_retryable p e then Exhausted (max_attempts p) (Some e) else Rethrown e
                      | Thrown e => Exhausted (max_attempts p) (Some e)
                      end).
Proof.
  intros Hk Hend. destruct Hp as (Hma & _). cbn [with_retry_loop]. rewrite !(u64_small (k + 1)) by lia.
  rewrite (proj2 (Z.ltb_lt k (max_attempts p))) by lia. unfold retried in Hend. destruct (f k) as [v|e|e]; [done| |].
  - destruct (is_retryable p e) eqn:Er; [|done]. destruct Hend as [?|Hend]; [done|]. simpl.
    rewrite (proj2 (Z.leb_le (max_attempts p) (k + 1))) by lia. rewrite (proj2 (Z.ltb_ge (k + 1) (max_attempts p))) by lia. by rewrite andb_false_r.
  - destruct Hend as [?|Hend]; [done|]. by rewrite (proj2 (Z.leb_le (max_attempts p) (k + 1))) by lia.
Qed.

(** The round in which the loop ends: the first attempt that is not retried, or the last one. *)
Lemma last_round : 0 < max_attempts p ->
  exists k, 0 <= k < max_attempts p /\ (forall i, 0 <= i < k -> is_Some (retried (f i))) /\ (retried (f k) = None \/ k + 1 = max_attempts p).
Proof.
  intros Hpos. assert (forall n, 0 <= n -> n < max_attempts p ->
    (exists k, 0 <= k <= n /\ (forall i, 0 <= i < k -> is_Some (retried (f i))) /\ retried (f k) = None) \/ (forall i, 0 <= i <= n -> is_Some (retried (f i)))) as H.
  { intros n Hn. apply (natlike_ind (fun n => n < max_attempts p ->
      (exists k, 0 <= k <= n /\ (forall i, 0 <= i < k -> is_Some (retried (f i))) /\ retried (f k) = None) \/ (forall i, 0 <= i <= n -> is_Some (retried (f i))))); [| |done].
    - intros _. destruct (retried (f 0)) eqn:E0; [right; intros i Hi; replace i with 0 by lia; by eexists|left; exists 0; split; [lia|]; split; [lia|done]].
    - intros m Hm IH Hlt. destruct IH as [(k & Hk & ?)|IH]; [lia|left; exists k; split; [lia|done]|].
      destruct (retried (f (Z.succ m))) eqn:E0; [right|left].
      + intros i Hi. destruct (decide (i = Z.succ m)) as [-> |]; [by eexists|apply IH; lia].
      + exists (Z.succ m). split; [lia|]. split; [intros; apply IH; lia|done]. }
  destruct (H (max_attempts p - 1)) as [(k & Hk & Hall & Hend)|Hall]; [lia|lia|exists k; split; [lia|]; auto|].
  exists (max_attempts p - 1). split; [lia|]. split; [intros; apply Hall; lia|right; lia].
Qed.

Lemma with_retry_ends k : 0 <= k < max_attempts p -> (forall i, 0 <= i < k -> is_Some (retried (f i))) -> (retried (f k) = None \/ k + 1 = max_attempts p) ->
  with_retry p f jitter = (rounds k ++ [Called k], match f k with
                      | Value v => Returned v
                      | StdException e => if is_retryable p e then Exhausted (max_attempts p) (Some e) else Rethrown e
                      | Thrown e => Exhausted (max_attempts p) (Some e)
                      end).
Proof.
  intros Hk Hall Hend. unfold with_retry. destruct (loop_rounds k (S (Z.to_nat (max_attempts p) - Z.to_nat k))) as [le Hle]; [lia|lia|done|].
  replace (S (Z.to_nat (max_attempts p))) with (Z.to_nat k + S (Z.to_nat (max_attempts p) - Z.to_nat k))%nat by lia.
  rewrite Hle. by apply loop_last.
Qed.
End Runs.

(** The delay before a retry is computed without an overflow of its 64-bit arithmetic, is never
    negative and never longer than [max_delay], for a policy with delays of any sign and size; for
    delays that are not negative it is the base delay times the factor of the strategy, plus the
    jitter, cut at [max_delay], in whole milliseconds. *)
Theorem retry_delay_safe n p j :
  - 2 ^ 63 <= base_delay p < 2 ^ 63 -> - 2 ^ 63 <= max_delay p < 2 ^ 63 -> 0 <= j <= 49 -> 1 <= n ->
  exists d, calculate_delay n p j = Some d /\ 0 <= d <= Z.max 0 (max_delay p) /\
    (0 <= base_delay p -> 0 <= max_delay p ->
       let e := Z.min (to_ms (base_delay p) * growth (strategy p) n) (to_ms (max_delay p)) in
       d = 1000000 * Z.min (match strategy p with exponential_jitter => e + e * j / 100 | _ => e end) (to_ms (max_delay p))).
Proof.
  intros Hb Hm Hj Hn. destruct (calculate_delay_cases n p j Hb Hm Hj Hn) as (d & Hd & Hex). eexists. split; [exact Hd|].
  assert (1000000 * to_ms (max_delay p) <= Z.max 0 (max_delay p)) as Hle by (unfold to_ms; Z.to_euclidean_division_equations; lia).
  split; [lia|]. intros H1 H2 e. specialize (Hex H1 H2). cbn zeta in Hex. fold e in Hex. rewrite Hex. f_equal. apply Z.max_r.
  apply to_ms_nonneg in H1, H2. pose proof (growth_bound (strategy p) n Hn). assert (0 <= e) by (subst e; nia).
  destruct (strategy p); try lia. assert (0 <= e * j / 100) by (apply Z.div_pos; nia). lia.
Qed.

(** [with_retry] calls the operation until an attempt succeeds or fails with an error that is not
    retryable, at most [max_attempts] times; before it calls again it sleeps for the delay of the
    retry, and the callback is called exactly for the [std::exception]s that are followed by a retry.
    It gives the value, rethrows the error, or throws [retry_exhausted] with the error of the last
    attempt; it always ends. *)
Theorem with_retry_contract p f jitter : policy_ok p -> (forall i, 0 <= jitter i <= 49) ->
  (max_attempts p = 0 -> with_retry p f jitter = ([], Exhausted 0 None)) /\
  (0 < max_attempts p -> exists k, 0 <= k < max_attempts p /\ (forall i, 0 <= i < k -> is_Some (retried p (f i))) /\
     (retried p (f k) = None \/ k + 1 = max_attempts p) /\
     with_retry p f jitter = (rounds p f jitter k ++ [Called k],
       match f k with
       | Value v => Returned v
       | StdException e => if is_retryable p e then Exhausted (max_attempts p) (Some e) else Rethrown e
       | Thrown e => Exhausted (max_attempts p) (Some e)
       end)).
Proof.
  intros Hp Hj. split.
  - intros E0. unfold with_retry. rewrite E0. cbn [with_retry_loop Z.to_nat]. by rewrite E0.
  - intros Hpos. destruct (last_round p f Hpos) as (k & Hk & Hall & Hend). exists k. split; [done|]. split; [done|]. split; [done|].
    by apply with_retry_ends.
Qed.
End Retry.

(** ** [with_retry_until] as [with_retry] *)

Section Until.
Context {V X : Type}.
Variable is_success : V -> bool.

(** The operation whose unsuccessful results are errors that are retried and whose errors are not. *)
Definition as_attempt (a : @attempt V X) : @attempt V (option X) :=
  match a with
  | Value v => if is_success v then Value v else StdException None
  | StdException e | Thrown e => StdException (Some e)
  end.

Definition as_policy (p : @retry_policy X) : @retry_policy (option X) :=
  RetryPolicy (max_attempts p) (base_delay p) (max_delay p) (strategy p) (fun e => match e with None => true | Some _ => false end) (on_retry p).

Definition event_back (e : @event (option X)) : @event X :=
  match e with Called i => Called i | Notified i e => Notified i (mjoin e) | Slept d => Slept d end.

Definition outcome_back (o : @outcome V (option X)) : @outcome V X :=
  match o with
  | Returned v => Returned v
  | Rethrown (Some e) => Rethrown e
  | Rethrown None => NoFuel
  | Exhausted n e => Exhausted n (mjoin e)
  | Overflow => Overflow
  | NoFuel => NoFuel
  end.

Lemma until_loop p f jitter fuel i le log : (0 <= max_attempts p < 2 ^ 64) -> 0 <= i -> mjoin le = None ->
  let r := with_retry_loop (as_policy p) (fun i => as_attempt (f i)) jitter fuel i le log in
  with_retry_until_loop p f jitter is_success fuel i (event_back <$> log) = (event_back <$> r.1, outcome_back r.2).
Proof.
  intros Hm. revert i le log. induction fuel as [|fuel IH]; intros i le log Hi Hle; [done|]. cbn [with_retry_loop with_retry_until_loop].
  change (max_attempts (as_policy p)) with (max_attempts p). change (on_retry (as_policy p)) with (on_retry p).
  destruct (Z.ltb_spec i (max_attempts p)) as [Hlt|_]; [|simpl; by rewrite Hle].
  rewrite (u64_small (i + 1)) by lia. change (calculate_delay (i + 1) (as_policy p)) with (calculate_delay (i + 1) p).
  destruct (f i) as [v|e|e]; simpl; [|by rewrite fmap_app..]. destruct (is_success v); simpl; [by rewrite fmap_app|].
  destruct (Z.leb_spec (max_attempts p) (i + 1)) as [Hle'|Hlt'].
  - rewrite (proj2 (Z.ltb_ge (i + 1) (max_attempts p))), andb_false_r by lia. simpl. by rewrite fmap_app.
  - rewrite (proj2 (Z.ltb_lt (i + 1) (max_attempts p))), andb_true_r by lia.
    destruct (calculate_delay (i + 1) p (jitter (i + 1))) as [d|]; [|destruct (on_retry p); simpl; by rewrite ?fmap_app].
    rewrite <- (IH (i + 1) (Some None)); [|lia|done]. f_equal. destruct (on_retry p); by rewrite !fmap_app.
Qed.

(** [with_retry_until] behaves as [with_retry] on the operation whose unsuccessful results are
    exceptions that can be retried and whose own exceptions are not: the same calls, callbacks and
    delays in the same order, and the same outcome, except that [retry_exhausted] has no error. *)
Theorem with_retry_until_agrees p f jitter : 0 <= max_attempts p < 2 ^ 64 ->
  let r := with_retry (as_policy p) (fun i => as_attempt (f i)) jitter in
  with_retry_until p f jitter is_success = (event_back <$> r.1, outcome_back r.2).
Proof. intros Hm. unfold with_retry, with_retry_until. exact (until_loop p f jitter _ 0 None [] Hm ltac:(lia) eq_refl). Qed.
End Until.

(** ** The policies of the library and sample runs *)

Definition default_policy {X} : @retry_policy X := RetryPolicy 3 (100 * 1000000) (30000 * 1000000) exponential (fun _ => true) false.
Definition idempotent_policy {X} : @retry_policy X := RetryPolicy 10 (50 * 1000000) (60 * 1000000000) exponential_jitter (fun _ => true) false.
Definition aggressive_retry_policy {X} : @retry_policy X := RetryPolicy 20 (10 * 1000000) (5 * 1000000000) linear (fun _ => true) false.

(** A policy with a callback; error 9 is not retryable. *)
Definition sample_policy : @retry_policy Z := RetryPolicy 4 (100 * 1000000) (250 * 1000000) exponential (fun e => negb (e =? 9)) true.

Lemma retry_delay_safe_witness : exists d, calculate_delay 3 sample_policy 0 = Some d /\ 0 <= d <= 250 * 1000000.
Proof.
  destruct (retry_delay_safe 3 sample_policy 0) as (d & Hd & Hr & _); [vm_compute; split; congruence..|lia|].
  exists d. split; [exact Hd|exact Hr].
Defined.

Lemma with_retry_contract_witness : exists k, 0 <= k < 4 /\
  with_retry (V := Z) sample_policy (fun i => if i =? 0 then StdException 5 else if i =? 1 then Thrown 6 else Value 7) (fun _ => 0) =
  (rounds sample_policy (fun i => if i =? 0 then StdException 5 else if i =? 1 then Thrown 6 else Value 7) (fun _ => 0) k ++ [Called k],
   Returned 7).
Proof.
  destruct (with_retry_contract (V := Z) sample_policy (fun i => if i =? 0 then StdException 5 else if i =? 1 then Thrown 6 else Value 7) (fun _ => 0)
    ltac:(vm_compute; repeat split; congruence) ltac:(lia)) as (_ & H).
  destruct (H eq_refl) as (k & Hk & Hall & Hend & Heq). exists k. split; [exact Hk|]. rewrite Heq. f_equal. clear Heq.
  assert (~ (2 < k)) as H2 by (intros Hlt; destruct (Hall 2) as [e He]; [lia|discriminate]).
  cbn [max_attempts sample_policy] in *.
  destruct (Z.eqb_spec k 0) as [-> |]; [destruct Hend; [discriminate|lia]|].
  destruct (Z.eqb_spec k 1) as [-> |]; [destruct Hend; [discriminate|lia]|done].
Defined.

Lemma with_retry_until_agrees_witness : let f := fun i => Value (X := Z) i in
  (with_retry_until sample_policy f (fun _ => 0) (Z.eqb 2)).2 = Returned 2.
Proof. intros f. rewrite (with_retry_until_agrees (Z.eqb 2) sample_policy f (fun _ => 0)) by (vm_compute; split; congruence). vm_compute. reflexivity. Defined.

(** An exception that is not a [std::exception] is retried without the callback. *)
Lemma thrown_not_notified :
  with_retry (V := Z) sample_policy (fun i => if i =? 0 then Thrown 6 else Value 7) (fun _ => 0) =
  ([Called 0; Slept (100 * 1000000); Called 1], Returned 7) /\
  with_retry (V := Z) sample_policy (fun i => if i =? 0 then StdException 6 else Value 7) (fun _ => 0) =
  ([Called 0; Notified 1 (Some 6); Slept (100 * 1000000); Called 1], Returned 7).
Proof. vm_compute. done. Qed.

(** A negative base delay waits for [max_delay] before every retry, except with the fixed strategy. *)
Lemma negative_base_waits_longest {X} n (p : @retry_policy X) : - 2 ^ 63 <= base_delay p <= - 1000000 -> 0 <= max_delay p < 2 ^ 63 -> 1 <= n ->
  strategy p = linear \/ strategy p = exponential -> calculate_delay n p 0 = Some (1000000 * to_ms (max_delay p)).
Proof.
  intros Hb Hm Hn Hs. pose proof (to_ms_bound (base_delay p) ltac:(lia)) as Hb'. pose proof (to_ms_bound (max_delay p) ltac:(lia)) as Hm'.
  pose proof (to_ms_nonneg (max_delay p) ltac:(lia)) as Hm0. pose proof (growth_bound (strategy p) n Hn) as Hg.
  assert (to_ms (base_delay p) < 0) as Hneg by (unfold to_ms; Z.to_euclidean_division_equations; lia).
  unfold calculate_delay. rewrite (proj2 (Z.ltb_ge n 1)) by lia.
  destruct Hs as [Hs|Hs]; rewrite Hs in *; cbn [growth] in Hg; rewrite scaled_negative by lia; cbn [mbind option_bind];
    rewrite Z.ltb_irrefl, (proj2 (Z.ltb_ge _ 0)) by lia; unfold of_ms; rewrite i64_in by lia; f_equal; lia.
Qed.
