(* ===== verification/SharedTask.v ===== *)
(** * Tasks with many awaiters: io/async/coroutine/shared_task.h

    One computation whose result any number of coroutines wait for. The coroutines begin to wait, are
    destroyed and resume in any order around the end of the computation. *)

From S2P Require Import Prelude.

Section Shared.
Context {V X : Type}.

Inductive status := pending | ready | failed.

(** [shared_task::state]. *)
Record state := State { _status : status; _value : option V; _error : option X; _waiters : list Z }.

Inductive result := Value (v : V) | Throws (e : X) | LogicError.

Definition new_state : state := State pending None None [].

Definition is_done (s : state) : bool := match _status s with pending => false | _ => true end.

(** [get]; [None] is the value of an empty [optional]. *)
Definition get (s : state) : option result :=
  match _status s with
  | failed => Throws <$> _error s
  | _ => Value <$> _value s
  end.

Definition schedule (q : list Z) (w : Z) : list Z := if decide (w ∈ q) then q else q ++ [w].

(** [complete] and [fail], with the ready queue to which [flush] moves the waiters. *)
Definition flush (s : state) (q : list Z) : state * list Z :=
  (State (_status s) (_value s) (_error s) [], fold_left schedule (_waiters s) q).
Definition complete (v : V) (s : state) (q : list Z) : state * list Z := flush (State ready (Some v) (_error s) (_waiters s)) q.
Definition fail (e : X) (s : state) (q : list Z) : state * list Z := flush (State failed (_value s) (Some e) (_waiters s)) q.

(** The runner after its task ended. *)
Definition runner (r : V + X) (s : state) (q : list Z) : state * list Z :=
  match r with inl v => complete v s q | inr e => fail e s q end.

(** [co_await] of a handle, which has no state when it was default-constructed: the coroutine goes on
    with a result or is suspended. *)
Definition await (w : Z) (s : option state) : option state * option result :=
  match s with
  | None => (None, Some LogicError)
  | Some s => if is_done s then (Some s, get s) else (Some (State (_status s) (_value s) (_error s) (_waiters s ++ [w])), None)
  end.

(** [~awaiter] of a coroutine that is parked. *)
Fixpoint retract (w : Z) (l : list Z) : list Z :=
  match l with
  | [] => []
  | x :: l => if x =? w then l else x :: retract w l
  end.

(** ** Executions *)

(** The state, the ready queue, the coroutines suspended in [co_await] and the results given. *)
Record world := World { shared : state; queue : list Z; waiting : gset Z; log : list (Z * option result) }.

Inductive op := Await (w : Z) | Ends (r : V + X) | Resume | Destroy (w : Z).

(** A coroutine waits once at a time, and the runner ends once; the scheduler forgets a coroutine that
    is destroyed. *)
Definition step (s : world) (o : op) : world :=
  match o with
  | Await w =>
      if decide (w ∈ waiting s) then s else
      match await w (Some (shared s)) with
      | (Some st, None) => World st (queue s) ({[w]} ∪ waiting s) (log s)
      | (Some st, Some r) => World st (queue s) (waiting s) (log s ++ [(w, Some r)])
      | (None, _) => s
      end
  | Ends r => if is_done (shared s) then s else let '(st, q) := runner r (shared s) (queue s) in World st q (waiting s) (log s)
  | Resume =>
      match queue s with
      | [] => s
      | w :: q => World (shared s) q (waiting s ∖ {[w]}) (log s ++ [(w, get (shared s))])
      end
  | Destroy w =>
      let st := shared s in
      World (State (_status st) (_value st) (_error st) (retract w (_waiters st))) (filter (fun x => x <> w) (queue s)) (waiting s ∖ {[w]}) (log s)
  end.

Definition run (ops : list op) (s : world) : world := fold_left step ops s.

Definition start : world := World new_state [] ∅ [].

(** The result of a state that has ended. *)
Definition settled (s : state) (r : result) : Prop :=
  match _status s with
  | pending => False
  | ready => exists v, _value s = Some v /\ r = Value v
  | failed => exists e, _error s = Some e /\ r = Throws e
  end.

Record shared_ok (s : world) : Prop := SharedOk {
  sh_nodup : NoDup (_waiters (shared s));
  sh_queue : NoDup (queue s);
  sh_pending : is_done (shared s) = false -> queue s = [] /\ (forall w, w ∈ waiting s <-> w ∈ _waiters (shared s)) /\ log s = [];
  sh_done : is_done (shared s) = true -> _waiters (shared s) = [] /\ (forall w, w ∈ waiting s <-> w ∈ queue s) /\ exists r, settled (shared s) r;
  sh_log : forall w r, (w, r) ∈ log s -> exists x, r = Some x /\ settled (shared s) x
}.

Lemma settled_get s r : settled s r -> get s = Some r.
Proof. unfold settled, get. destruct (_status s); [done|intros (? & -> & ->)|intros (? & -> & ->)]; done. Qed.

Lemma elem_of_retract w x l : NoDup l -> (x ∈ retract w l <-> x ∈ l /\ x <> w).
Proof.
  intros Hnd. induction Hnd as [|y l Hy Hnd IH]; simpl; [set_solver|]. destruct (Z.eqb_spec y w) as [-> |Hne]; [set_solver|].
  rewrite !elem_of_cons, IH. naive_solver.
Qed.

Lemma retract_NoDup w l : NoDup l -> NoDup (retract w l).
Proof.
  intros Hnd. induction Hnd as [|y l Hy Hnd IH]; simpl; [constructor|]. destruct (Z.eqb_spec y w); [done|]. constructor; [|done].
  rewrite elem_of_retract by done. tauto.
Qed.

Lemma flush_queue l q x : x ∈ fold_left schedule l q <-> x ∈ q \/ x ∈ l.
Proof.
  revert q. induction l as [|w l IH]; intros q; simpl; [set_solver|]. rewrite IH. unfold schedule. case_decide; set_solver.
Qed.

Lemma flush_NoDup l q : NoDup q -> NoDup (fold_left schedule l q).
Proof.
  revert q. induction l as [|w l IH]; intros q Hq; simpl; [done|]. apply IH. unfold schedule. case_decide; [done|].
  apply NoDup_app. split; [done|]. split; [set_solver|apply NoDup_singleton].
Qed.

Lemma ends_shared r s : shared_ok s -> is_done (shared s) = false -> shared_ok (step s (Ends r)).
Proof.
  intros [H1 H2 H3 H4 H5] Hd. destruct (H3 Hd) as (Hq & Hw & Hl). simpl. rewrite Hd.
  destruct r as [v|e]; simpl; (split; simpl; [constructor|by apply flush_NoDup|done| |rewrite Hl; set_solver]);
    intros _; (split; [done|]); (split; [intros w; rewrite flush_queue, Hw, Hq; set_solver|]); unfold settled; simpl; eauto.
Qed.

Lemma await_shared w s : shared_ok s -> shared_ok (step s (Await w)).
Proof.
  intros Hok. pose proof Hok as [H1 H2 H3 H4 H5]. simpl. case_decide as Hw; [done|]. destruct (is_done (shared s)) eqn:Ed; simpl.
  - destruct (H4 eq_refl) as (Hn & Hi & r & Hr). rewrite (settled_get _ _ Hr). split; simpl; [done|done|congruence|intros _; eauto|].
    intros x y. rewrite elem_of_app, list_elem_of_singleton. intros [?|[= -> ->]]; eauto.
  - destruct (H3 eq_refl) as (Hq & Hi & Hl). rewrite Hi in Hw. split; simpl.
    + apply NoDup_app. split; [done|]. split; [set_solver|apply NoDup_singleton].
    + done.
    + intros _. split; [done|]. split; [|done]. intros x. rewrite elem_of_union, elem_of_app, Hi. set_solver.
    + intros Hd. unfold is_done in *. simpl in Hd. congruence.
    + rewrite Hl. set_solver.
Qed.

Lemma resume_shared s : shared_ok s -> shared_ok (step s Resume).
Proof.
  intros Hok. pose proof Hok as [H1 H2 H3 H4 H5]. simpl. destruct (queue s) as [|w q] eqn:Eq; [done|].
  destruct (is_done (shared s)) eqn:Ed; [|destruct (H3 eq_refl) as [? _]; congruence]. destruct (H4 eq_refl) as (Hn & Hi & r & Hr).
  apply NoDup_cons in H2 as [Hw Hnd]. rewrite (settled_get _ _ Hr). split; simpl; [done|done|congruence| |].
  - intros _. split; [done|]. split; [|eauto]. intros x. rewrite elem_of_difference, Hi, elem_of_cons, elem_of_singleton. naive_solver.
  - intros x y. rewrite elem_of_app, list_elem_of_singleton. intros [?|[= -> ->]]; eauto.
Qed.

Lemma destroy_shared w s : shared_ok s -> shared_ok (step s (Destroy w)).
Proof.
  intros [H1 H2 H3 H4 H5]. split; simpl; [by apply retract_NoDup|by apply NoDup_filter| | |done].
  - intros Hd. destruct (H3 Hd) as (-> & Hi & Hl). split; [done|]. split; [|done]. intros x.
    rewrite elem_of_retract by done. rewrite elem_of_difference, Hi, elem_of_singleton. done.
  - intros Hd. destruct (H4 Hd) as (-> & Hi & r & Hr). split; [done|]. split; [|by exists r]. intros x.
    rewrite elem_of_difference, Hi, list_elem_of_filter, elem_of_singleton. naive_solver.
Qed.

Lemma shared_run ops s : shared_ok s -> shared_ok (run ops s).
Proof.
  revert s. induction ops as [|o ops IH]; intros s Hok; [done|]. apply IH. destruct o.
  - by apply await_shared.
  - destruct (is_done (shared s)) eqn:Ed; [simpl; by rewrite Ed|by apply ends_shared].
  - by apply resume_shared.
  - by apply destroy_shared.
Qed.

Lemma start_shared : shared_ok start.
Proof. split; simpl; try constructor; try done; set_solver. Qed.

(** All awaiters of a shared task get its one result. In any order of awaiting, the end of the
    computation, resumptions and destroyed coroutines, every result that was given is the result of the
    computation; the ready queue only has coroutines that still wait; and once the computation has
    ended every coroutine that waits is in the queue, and its resumption gives it that result. *)
Theorem shared_task_contract ops :
  let s := run ops start in
  (forall w r, (w, r) ∈ log s -> exists x, r = Some x /\ settled (shared s) x) /\
  (forall w, w ∈ queue s -> w ∈ waiting s) /\
  (is_done (shared s) = true -> forall w, w ∈ waiting s -> w ∈ queue s) /\
  (forall w q, queue s = w :: q -> exists x, settled (shared s) x /\ log (step s Resume) = log s ++ [(w, Some x)]).
Proof.
  intros s. destruct (shared_run ops start start_shared) as [H1 H2 H3 H4 H5]. fold s in H1, H2, H3, H4, H5. split; [done|].
  destruct (is_done (shared s)) eqn:Ed.
  - destruct (H4 eq_refl) as (_ & Hi & r & Hr). split; [intros w; by rewrite Hi|]. split; [intros _ w; by rewrite Hi|].
    intros w q Hq. exists r. split; [done|]. simpl. rewrite Hq. by rewrite (settled_get _ _ Hr).
  - destruct (H3 eq_refl) as (Hq & _). rewrite Hq. split; [set_solver|]. split; [done|]. intros w q. done.
Qed.
End Shared.
