(* ===== verification/ParseNumber.v ===== *)
(** * Conversion of text to integers: system/parse.h

    [to_number] and [to_number_prefix] for the integral types, over [std::from_chars] as the standard
    defines it for integers. A character is its code; a type is its width and whether it is signed. *)

From S2P Require Import Prelude.

Record int_type := IntType { is_signed : bool; width : Z }.

Definition type_min (T : int_type) : Z := if is_signed T then - 2 ^ (width T - 1) else 0.
Definition type_max (T : int_type) : Z := if is_signed T then 2 ^ (width T - 1) - 1 else 2 ^ width T - 1.
Definition in_type (T : int_type) (z : Z) : bool := (type_min T <=? z) && (z <=? type_max T).

(** The digit a character stands for in a base. *)
Definition digit (base c : Z) : option Z :=
  let d := if (48 <=? c) && (c <=? 57) then c - 48 else
           if (97 <=? c) && (c <=? 122) then c - 87 else
           if (65 <=? c) && (c <=? 90) then c - 55 else base in
  if d <? base then Some d else None.

(** The longest sequence of digits at the front, and the rest. *)
Fixpoint scan (base : Z) (s : list Z) : list Z * list Z :=
  match s with
  | [] => ([], [])
  | c :: s' => match digit base c with
               | Some d => let '(ds, rest) := scan base s' in (d :: ds, rest)
               | None => ([], s)
               end
  end.

Definition number (base : Z) (ds : list Z) : Z := fold_left (fun n d => n * base + d) ds 0.

Inductive errc := no_error | invalid_argument | result_out_of_range.

(** [std::from_chars] for integers: the characters read, the error and the value. *)
Definition from_chars (T : int_type) (base : Z) (s : list Z) : Z * errc * Z :=
  let '(neg, body) := match s with
                      | c :: s' => if is_signed T && (c =? 45) then (true, s') else (false, s)
                      | [] => (false, s)
                      end in
  let '(ds, rest) := scan base body in
  if decide (ds = []) then (0, invalid_argument, 0) else
  let v := if neg : bool then - number base ds else number base ds in
  let n := zlen s - zlen rest in
  if in_type T v then (n, no_error, v) else (n, result_out_of_range, 0).

Definition is_ws (c : Z) : bool := (c =? 32) || (c =? 9) || (c =? 10) || (c =? 11) || (c =? 12) || (c =? 13).

Fixpoint ltrim_ascii_ws (s : list Z) : list Z :=
  match s with
  | [] => []
  | c :: s' => if is_ws c then ltrim_ascii_ws s' else s
  end.

Definition to_number (T : int_type) (base : Z) (s : list Z) : option Z :=
  let '(n, ec, v) := from_chars T base s in
  match ec with
  | no_error => if n =? zlen s then Some v else None
  | _ => None
  end.

(** The value and the number of characters consumed. *)
Definition to_number_prefix (T : int_type) (base : Z) (s : list Z) : option (Z * Z) :=
  let body := ltrim_ascii_ws s in
  let body := match body with c :: b => if c =? 43 then b else body | [] => body end in
  let '(n, ec, v) := from_chars T base body in
  match ec with
  | no_error => Some (v, (zlen s - zlen body) + n)
  | _ => None
  end.

(** ** Scanning *)

Definition no_digit (base : Z) (s : list Z) : Prop := match s with [] => True | c :: _ => digit base c = None end.

(** The text of a number: digits, for a signed type with a minus sign before them or not. *)
Inductive numeral (T : int_type) (base : Z) : list Z -> Z -> Prop :=
  | numeral_pos b ds : ds <> [] -> Forall2 (fun c d => digit base c = Some d) b ds -> numeral T base b (number base ds)
  | numeral_neg b ds : is_signed T = true -> ds <> [] -> Forall2 (fun c d => digit base c = Some d) b ds ->
      numeral T base (45 :: b) (- number base ds).

Lemma scan_split base s : exists b, s = b ++ (scan base s).2 /\ Forall2 (fun c d => digit base c = Some d) b (scan base s).1 /\
  no_digit base (scan base s).2.
Proof.
  induction s as [|c s IH]; simpl; [by exists []|]. destruct (digit base c) as [d|] eqn:Ed; [|exists []; simpl; by rewrite Ed].
  destruct IH as (b & Hs & Hf & Hn). destruct (scan base s) as [ds rest]. simpl in *. exists (c :: b). split; [by rewrite Hs at 1|]. split; [by constructor|done].
Qed.

Lemma scan_app base b ds rest : Forall2 (fun c d => digit base c = Some d) b ds ->
  no_digit base rest -> scan base (b ++ rest) = (ds, rest).
Proof.
  intros Hf Hn. induction Hf as [|c d b ds Hc Hf IH]; simpl; [destruct rest as [|c rest]; simpl; [done|by rewrite Hn]|].
  by rewrite Hc, IH.
Qed.

Lemma digit_cases base c d : digit base c = Some d -> 48 <= c <= 57 \/ 97 <= c <= 122 \/ 65 <= c <= 90.
Proof.
  unfold digit. destruct ((48 <=? c) && (c <=? 57)) eqn:E1; [lia|]. destruct ((97 <=? c) && (c <=? 122)) eqn:E2; [lia|].
  destruct ((65 <=? c) && (c <=? 90)) eqn:E3; [lia|]. by rewrite Z.ltb_irrefl.
Qed.

(** What [from_chars] reads is the longest numeral at the front. *)
Lemma from_chars_numeral T base body rest v : numeral T base body v -> no_digit base rest ->
  from_chars T base (body ++ rest) = (zlen body, if in_type T v then no_error else result_out_of_range, if in_type T v then v else 0).
Proof.
  intros Hnum Hn. unfold from_chars. destruct Hnum as [b ds Hne Hf|b ds Ht Hne Hf].
  - destruct Hf as [|c d b ds Hc Hf]; [done|]. simpl app.
    pose proof (scan_app base (c :: b) (d :: ds) rest ltac:(by constructor) Hn) as Hscan. change ((c :: b) ++ rest) with (c :: b ++ rest) in Hscan.
    assert (is_signed T && (c =? 45) = false) as Hsg by (apply digit_cases in Hc; destruct (Z.eqb_spec c 45); [lia|apply andb_false_r]).
    cbn beta iota. rewrite Hsg, Hscan. rewrite decide_False by done.
    replace (zlen (c :: b ++ rest) - zlen rest) with (zlen (c :: b)) by (unfold zlen; simpl; rewrite length_app; lia).
    by destruct (in_type T (number base (d :: ds))).
  - simpl. rewrite Ht. simpl. rewrite (scan_app base b ds rest) by done. rewrite decide_False by done.
    replace (zlen (45 :: b ++ rest) - zlen rest) with (zlen (45 :: b)) by (unfold zlen; simpl; rewrite length_app; lia).
    by destruct (in_type T (- number base ds)).
Qed.

Lemma from_chars_inv T base s n v : from_chars T base s = (n, no_error, v) ->
  exists body rest, s = body ++ rest /\ numeral T base body v /\ in_type T v = true /\ no_digit base rest /\ n = zlen body.
Proof.
  unfold from_chars. set (sb := match s with c :: s' => _ | [] => _ end).
  assert (s = (if sb.1 then [45] else []) ++ sb.2 /\ (sb.1 = true -> is_signed T = true)) as [Hs Hsg].
  { subst sb. destruct s as [|c s]; [done|]. destruct (is_signed T); simpl; [|done]. by destruct (Z.eqb_spec c 45) as [-> |]. }
  clearbody sb. destruct sb as [neg body]. simpl in *. destruct (scan_split base body) as (b & Hb & Hf & Hn).
  destruct (scan base body) as [ds rest]. simpl in *. case_decide as Hd; [done|].
  set (v' := if neg then - number base ds else number base ds). destruct (in_type T v') eqn:Hin; [|done]. intros [= <- <-].
  exists ((if neg then [45] else []) ++ b), rest. split; [by rewrite <- app_assoc, <- Hb|]. split.
  - subst v'. destruct neg; simpl; [apply numeral_neg; auto|by apply numeral_pos].
  - split; [done|]. split; [done|]. rewrite Hs, Hb, !zlen_app. lia.
Qed.

(** ** What the conversions accept *)

(** [to_number] converts exactly the texts that are a numeral as a whole, with no blank, plus sign or
    other character around it, and whose value the type can hold; it gives that value. *)
Theorem to_number_exact T base s v : to_number T base s = Some v <-> numeral T base s v /\ in_type T v = true.
Proof.
  split.
  - unfold to_number. destruct (from_chars T base s) as [[n ec] v'] eqn:Hfc. destruct ec; [|done|done]. destruct (Z.eqb_spec n (zlen s)) as [Hn|]; [|done].
    intros [= ->]. apply from_chars_inv in Hfc as (body & rest & Hs & Hnum & Hin & _ & Hlen). subst s.
    assert (rest = []) as ->; [|rewrite app_nil_r; done]. rewrite zlen_app in Hn. apply zlen_nil_inv. lia.
  - intros [Hnum Hin]. unfold to_number. rewrite <- (app_nil_r s), (from_chars_numeral T base s [] v) by done. rewrite Hin, app_nil_r.
    by rewrite Z.eqb_refl.
Qed.

Lemma ltrim_split s : exists ws, s = ws ++ ltrim_ascii_ws s /\ forallb is_ws ws = true.
Proof.
  induction s as [|c s IH]; simpl; [by exists []|]. destruct (is_ws c) eqn:Ew; [|by exists []].
  destruct IH as (ws & Hs & Hf). exists (c :: ws). split; [simpl; by rewrite <- Hs|]. simpl. by rewrite Ew.
Qed.

Lemma ltrim_app ws s : forallb is_ws ws = true -> match s with c :: _ => is_ws c = false | [] => True end -> ltrim_ascii_ws (ws ++ s) = s.
Proof.
  intros Hf Hs. induction ws as [|c ws IH]; simpl.
  - destruct s as [|c s]; simpl; [done|by rewrite Hs].
  - simpl in Hf. apply andb_true_iff in Hf as [-> Hf]. by apply IH.
Qed.

Lemma numeral_head T base s v : numeral T base s v -> exists c s', s = c :: s' /\ is_ws c = false /\ c <> 43.
Proof.
  intros [b ds Hne Hf|b ds Ht Hne Hf]; [|by exists 45, b]. destruct Hf as [|c d b ds Hc Hf]; [done|]. exists c, b. split; [done|].
  apply digit_cases in Hc. split; [|lia]. unfold is_ws. zcase; simpl; lia || done.
Qed.

(** [to_number_prefix] skips blanks and one plus sign, converts the longest numeral that follows, and
    reports how many characters these are; it fails when there is no numeral there or the type cannot
    hold its value. *)
Theorem to_number_prefix_exact T base s v n : to_number_prefix T base s = Some (v, n) <->
  exists ws plus body rest, s = ws ++ plus ++ body ++ rest /\ forallb is_ws ws = true /\ (plus = [] \/ plus = [43]) /\
    numeral T base body v /\ in_type T v = true /\ no_digit base rest /\ n = zlen (ws ++ plus ++ body).
Proof.
  split.
  - unfold to_number_prefix. destruct (ltrim_split s) as (ws & Hs & Hws). set (t := ltrim_ascii_ws s) in *. clearbody t.
    set (b0 := match t with c :: b => _ | [] => _ end). assert (exists plus, (plus = [] \/ plus = [43]) /\ t = plus ++ b0) as (plus & Hplus & Ht).
    { subst b0. destruct t as [|c t]; [by exists []; auto|]. destruct (Z.eqb_spec c 43) as [-> |]; [by exists [43]; auto|by exists []; auto]. }
    clearbody b0. destruct (from_chars T base b0) as [[m ec] v'] eqn:Hfc. destruct ec; [|done|done]. intros [= -> <-].
    apply from_chars_inv in Hfc as (body & rest & -> & Hnum & Hin & Hn & ->). exists ws, plus, body, rest.
    split; [by rewrite Hs, Ht|]. do 5 (split; [done|]). rewrite Hs, Ht, !zlen_app. lia.
  - intros (ws & plus & body & rest & -> & Hws & Hplus & Hnum & Hin & Hn & ->). unfold to_number_prefix.
    destruct (numeral_head _ _ _ _ Hnum) as (c & body' & -> & Hc & Hc'). rewrite ltrim_app; [|done|by destruct Hplus as [-> | ->]].
    assert (match plus ++ (c :: body') ++ rest with c0 :: b => if c0 =? 43 then b else plus ++ (c :: body') ++ rest | [] => plus ++ (c :: body') ++ rest end
      = (c :: body') ++ rest) as ->.
    { destruct Hplus as [-> | ->]; simpl; [|done]. by destruct (Z.eqb_spec c 43). }
    rewrite (from_chars_numeral T base (c :: body') rest v) by done. rewrite Hin. repeat f_equal. rewrite !zlen_app. lia.
Qed.

(** A plus sign is skipped even before a minus sign. *)
Lemma plus_minus_accepted : to_number_prefix (IntType true 32) 10 [43; 45; 53] = Some (-5, 3).
Proof. done. Qed.

(** ** Printing *)

(** The text of an integer in a base, as [std::to_chars] writes it; the fuel is more than the number
    of digits. *)
Definition char_of (d : Z) : Z := if d <? 10 then 48 + d else 87 + d.

Fixpoint digits_of (fuel : nat) (base n : Z) : list Z :=
  match fuel with
  | O => []
  | S fuel => if n <? base then [n] else digits_of fuel base (n / base) ++ [n mod base]
  end.

Definition to_chars (base z : Z) : list Z :=
  (if z <? 0 then [45] else []) ++ map char_of (digits_of (S (Z.to_nat (Z.abs z))) base (Z.abs z)).

Lemma digit_char base d : 2 <= base <= 36 -> 0 <= d < base -> digit base (char_of d) = Some d.
Proof.
  intros Hb Hd. unfold digit, char_of. destruct (Z.ltb_spec d 10) as [H|H].
  - rewrite (proj2 (Z.leb_le 48 _)), (proj2 (Z.leb_le _ 57)) by lia. simpl. replace (48 + d - 48) with d by lia.
    by rewrite (proj2 (Z.ltb_lt d base)) by lia.
  - rewrite (proj2 (Z.leb_gt (87 + d) 57)), andb_false_r by lia. rewrite (proj2 (Z.leb_le 97 _)), (proj2 (Z.leb_le _ 122)) by lia. simpl.
    replace (87 + d - 87) with d by lia. by rewrite (proj2 (Z.ltb_lt d base)) by lia.
Qed.

Lemma digits_of_spec base fuel n : 2 <= base -> 0 <= n < Z.of_nat fuel ->
  digits_of fuel base n <> [] /\ Forall (fun d => 0 <= d < base) (digits_of fuel base n) /\ number base (digits_of fuel base n) = n.
Proof.
  intros Hb. revert n. induction fuel as [|fuel IH]; intros n Hn; [lia|]. cbn [digits_of].
  destruct (Z.ltb_spec n base) as [Hlt|Hge].
  - split; [done|]. split; [by repeat constructor; lia|]. unfold number. simpl. lia.
  - assert (n / base < n) by (apply Z.div_lt; lia). assert (0 <= n / base) by (apply Z.div_pos; lia).
    destruct (IH (n / base)) as (Hne & Hf & Hnum); [lia|]. pose proof (Z.mod_pos_bound n base ltac:(lia)).
    split; [by destruct (digits_of fuel base (n / base))|]. split; [apply Forall_app; split; [done|by constructor]|].
    unfold number in *. rewrite fold_left_app. simpl. rewrite Hnum. pose proof (Z.div_mod n base ltac:(lia)). lia.
Qed.

Lemma chars_digits base ds : 2 <= base <= 36 -> Forall (fun d => 0 <= d < base) ds -> Forall2 (fun c d => digit base c = Some d) (map char_of ds) ds.
Proof. intros Hb Hf. induction Hf; simpl; constructor; [by apply digit_char|done]. Qed.

(** Every value of a type survives printing and [to_number], in every base. *)
Theorem to_number_roundtrip T base z : 2 <= base <= 36 -> in_type T z = true -> to_number T base (to_chars base z) = Some z.
Proof.
  intros Hb Hin. apply to_number_exact. split; [|done]. unfold to_chars.
  destruct (digits_of_spec base (S (Z.to_nat (Z.abs z))) (Z.abs z)) as (Hne & Hf & Hnum); [lia|lia|].
  apply (chars_digits base) in Hf; [|done]. set (ds := digits_of _ _ _) in *. clearbody ds. destruct (Z.ltb_spec z 0) as [Hz|Hz].
  - assert (- number base ds = z) as Hv by lia. rewrite <- Hv. apply numeral_neg; [|done|done]. destruct (is_signed T) eqn:Es; [done|].
    unfold in_type, type_min in Hin. rewrite Es in Hin. lia.
  - assert (number base ds = z) as Hv by lia. rewrite <- Hv. by apply numeral_pos.
Qed.

Lemma to_number_roundtrip_witness : to_number (IntType true 64) 16 (to_chars 16 (-255)) = Some (-255).
Proof. apply (to_number_roundtrip (IntType true 64) 16 (-255)); [lia|reflexivity]. Defined.

(** The smallest value of a type is read, its negation is not. *)
Lemma to_number_limits : to_number (IntType true 8) 10 [45; 49; 50; 56] = Some (-128) /\ to_number (IntType true 8) 10 [49; 50; 56] = None /\
  to_number (IntType false 8) 10 [50; 53; 53] = Some 255 /\ to_number (IntType false 8) 10 [45; 49] = None /\ to_number (IntType true 8) 10 [] = None.
Proof. done. Qed.
