(* ===== verification/Stream.v ===== *)
(** * Streams of values: io/async/coroutine/stream.h

    A stream is a function that gives the next value, the end, or an exception. Here it is a function
    on the state that its closures share; an operator adds its own cells to the state of its source.
    [None] is a call that has not returned within the fuel of its loops. The timed operators, which
    change when values come and not which, are left out. *)

From S2P Require Import Prelude.

Section Streams.
Context {X : Type}.

Inductive pull (T : Type) := Item (x : T) | End | Raise (e : X).
Arguments Item {T} x.
Arguments End {T}.
Arguments Raise {T} e.

(** [_next] of a stream with state [S]. *)
Definition source (S T : Type) : Type := S -> option (S * pull T).

(** ** Factories *)

(** [from_vector]; the state is the index. *)
Definition from_vector {T} (vec : list T) : source Z T :=
  fun index => match zget vec index with Some x => Some (index +s 1, Item x) | None => Some (index, End) end.

Definition empty {T} : source unit T := fun s => Some (s, End).

(** [single]; the state is the shared optional. *)
Definition single {T} : source (option T) T :=
  fun shared => match shared with Some x => Some (None, Item x) | None => Some (None, End) end.

(** [range_stream] of integers; the state is the current value. *)
Definition range_stream (last : Z) : source Z Z :=
  fun current => if last <=? current then Some (current, End) else Some (current + 1, Item current).

(** [repeat_value]. *)
Definition repeat_value {T} : source T T := fun shared => Some (shared, Item shared).

(** ** Operators *)

Definition map_next {S T U} (f : T -> U) (src : source S T) : source S U :=
  fun s => '(s, o) ← src s; Some (s, match o with Item x => Item (f x) | End => End | Raise e => Raise e end).

Fixpoint filter_next {S T} (fuel : nat) (p : T -> bool) (src : source S T) (s : S) : option (S * pull T) :=
  match fuel with
  | O => None
  | S fuel =>
      '(s, o) ← src s;
      match o with
      | Item x => if p x then Some (s, Item x) else filter_next fuel p src s
      | o => Some (s, o)
      end
  end.

Definition take_next {S T} (src : source S T) : source (Z * S) T :=
  fun '(remaining, s) =>
    if remaining =? 0 then Some ((remaining, s), End) else '(s, o) ← src s; Some ((remaining -s 1, s), o).

(** The loop of [skip] over the values to drop. *)
Fixpoint skip_next {S T} (fuel : nat) (src : source S T) (st : Z * S) : option ((Z * S) * pull T) :=
  match fuel with
  | O => None
  | S fuel =>
      let '(to_skip, s) := st in
      '(s, o) ← src s;
      if 0 <? to_skip then
        match o with
        | Item _ => skip_next fuel src (to_skip -s 1, s)
        | o => Some ((to_skip, s), o)
        end
      else Some ((to_skip, s), o)
  end.

Definition chain_next {S S' T} (first : source S T) (second : source S' T) : source (bool * S * S') T :=
  fun '(using_second, s, s') =>
    let go s := '(s', o) ← second s'; Some ((true, s, s'), o) in
    if using_second : bool then go s else
    '(s, o) ← first s;
    match o with
    | End => go s
    | o => Some ((false, s, s'), o)
    end.

(** [buffer]; the fuel bounds the values put in one batch. *)
Fixpoint fill {S T} (fuel : nat) (batch_size : Z) (src : source S T) (buf : list T) (s : S) : option (list T * S * option X) :=
  match fuel with
  | O => None
  | S fuel =>
      if zlen buf <? batch_size then
        '(s, o) ← src s;
        match o with
        | Item x => fill fuel batch_size src (buf ++ [x]) s
        | End => Some (buf, s, None)
        | Raise e => Some (buf, s, Some e)
        end
      else Some (buf, s, None)
  end.

Definition buffer_next {S T} (fuel : nat) (batch_size : Z) (src : source S T) : source (list T * S) (list T) :=
  fun '(buf, s) =>
    '(buf, s, r) ← fill fuel batch_size src buf s;
    match r with
    | Some e => Some ((buf, s), Raise e)
    | None => if decide (buf = []) then Some ((buf, s), End) else Some (([], s), Item buf)
    end.

Definition zip_next {S S' T U} (a : source S T) (b : source S' U) : source (S * S') (T * U) :=
  fun '(s, s') =>
    '(s, oa) ← a s;
    match oa with
    | End => Some ((s, s'), End)
    | Raise e => Some ((s, s'), Raise e)
    | Item x =>
        '(s', ob) ← b s';
        Some ((s, s'), match ob with Item y => Item (x, y) | End => End | Raise e => Raise e end)
    end.

(** [merge_streams]: the states of the streams, the index, the streams that run and the flags of those
    that ended. *)
Record merge_state (S : Type) := MergeState { states : list S; index : Z; active_count : Z; finished : list bool }.
Arguments MergeState {S} states index active_count finished.
Arguments states {S} _.
Arguments index {S} _.
Arguments active_count {S} _.
Arguments finished {S} _.

Fixpoint merge_loop {S T} (fuel : nat) (src : source S T) (start_idx : Z) (m : merge_state S) : option (merge_state S * pull T) :=
  match fuel with
  | O => None
  | S fuel =>
      let n := zlen (states m) in
      let current_idx := index m in
      let i := (current_idx +s 1) mod n in
      let again m := if i =? start_idx then Some (m, End) else merge_loop fuel src start_idx m in
      match zget (finished m) current_idx with
      | None => None
      | Some true => again (MergeState (states m) i (active_count m) (finished m))
      | Some false =>
          s ← zget (states m) current_idx;
          '(s, o) ← src s;
          let states := zput (states m) current_idx s in
          match o with
          | End =>
              let m := MergeState states i (active_count m -s 1) (zput (finished m) current_idx true) in
              if active_count m =? 0 then Some (m, End) else again m
          | o => Some (MergeState states i (active_count m) (finished m), o)
          end
      end
  end.

Definition merge_next {S T} (fuel : nat) (src : source S T) : source (merge_state S) T :=
  fun m => if active_count m =? 0 then Some (m, End) else merge_loop fuel src (index m) m.

Definition merge_streams {S} (streams : list S) : merge_state S :=
  MergeState streams 0 (zlen streams) (zrepeat false (zlen streams)).

(** ** Terminal consumers; [inr] is an exception *)

Fixpoint collect_impl {S T} (fuel : nat) (src : source S T) (s : S) (result : list T) : option (list T + X) :=
  match fuel with
  | O => None
  | S fuel =>
      '(s, o) ← src s;
      match o with
      | Item x => collect_impl fuel src s (result ++ [x])
      | End => Some (inl result)
      | Raise e => Some (inr e)
      end
  end.

Definition first_impl {S T} (src : source S T) (s : S) : option (option T + X) :=
  '(s, o) ← src s; Some match o with Item x => inl (Some x) | End => inl None | Raise e => inr e end.

Fixpoint reduce_impl {S T Acc} (fuel : nat) (src : source S T) (f : Acc -> T -> Acc) (s : S) (result : Acc) : option (Acc + X) :=
  match fuel with
  | O => None
  | S fuel =>
      '(s, o) ← src s;
      match o with
      | Item x => reduce_impl fuel src f s (f result x)
      | End => Some (inl result)
      | Raise e => Some (inr e)
      end
  end.

Fixpoint count_impl {S T} (fuel : nat) (src : source S T) (s : S) (n : Z) : option (Z + X) :=
  match fuel with
  | O => None
  | S fuel =>
      '(s, o) ← src s;
      match o with
      | Item _ => count_impl fuel src s (n +s 1)
      | End => Some (inl n)
      | Raise e => Some (inr e)
      end
  end.

Fixpoint any_impl {S T} (fuel : nat) (src : source S T) (p : T -> bool) (s : S) : option (bool + X) :=
  match fuel with
  | O => None
  | S fuel =>
      '(s, o) ← src s;
      match o with
      | Item x => if p x then Some (inl true) else any_impl fuel src p s
      | End => Some (inl false)
      | Raise e => Some (inr e)
      end
  end.

Fixpoint all_impl {S T} (fuel : nat) (src : source S T) (p : T -> bool) (s : S) : option (bool + X) :=
  match fuel with
  | O => None
  | S fuel =>
      '(s, o) ← src s;
      match o with
      | Item x => if negb (p x) then Some (inl false) else all_impl fuel src p s
      | End => Some (inl true)
      | Raise e => Some (inr e)
      end
  end.

Fixpoint find_impl {S T} (fuel : nat) (src : source S T) (p : T -> bool) (s : S) : option (option T + X) :=
  match fuel with
  | O => None
  | S fuel =>
      '(s, o) ← src s;
      match o with
      | Item x => if p x then Some (inl (Some x)) else find_impl fuel src p s
      | End => Some (inl None)
      | Raise e => Some (inr e)
      end
  end.
End Streams.
Arguments pull X T : clear implicits.
Arguments Item {X T} x.
Arguments End {X T}.
Arguments Raise {X T} e.
Arguments source X S T : clear implicits.
Arguments MergeState {S} states index active_count finished.
Arguments states {S} _.
Arguments index {S} _.
Arguments active_count {S} _.
Arguments finished {S} _.
