(* ===== verification/StreamProps.v ===== *)
(** * What the operators on streams give

    A stream yields a list of values and then ends, and stays ended, or throws. Every operator of
    stream.h is related to a function on lists, and every consumer to a fold. *)

From S2P Require Import Prelude Stream.

Section Yields.
Context {X : Type}.

(** The stream gives the end from now on: there is a set of states, closed under its calls, in which
    every call gives the end. *)
Definition ended {S T} (src : source X S T) (s : S) : Prop :=
  exists P : S -> Prop, P s /\ forall t, P t -> exists t', src t = Some (t', End) /\ P t'.

(** The values a stream gives from a state, and the exception that stops it, if one does. *)
Inductive yields {S T} (src : source X S T) : S -> list T -> option X -> Prop :=
  | yields_item s s' x l r : src s = Some (s', Item x) -> yields src s' l r -> yields src s (x :: l) r
  | yields_end s s' : src s = Some (s', End) -> ended src s' -> yields src s [] None
  | yields_raise s s' e : src s = Some (s', Raise e) -> yields src s [] (Some e).

Lemma ended_intro {S T} (src : source X S T) (P : S -> Prop) s :
  P s -> (forall t, P t -> exists t', src t = Some (t', End) /\ P t') -> ended src s.
Proof. intros Hs Hstep. by exists P. Qed.

Lemma ended_call {S T} (src : source X S T) s : ended src s -> exists s', src s = Some (s', End) /\ ended src s'.
Proof. intros (P & Hs & Hstep). destruct (Hstep s Hs) as (s' & Hc & Hs'). exists s'. split; [done|]. by exists P. Qed.

Lemma ended_yields {S T} (src : source X S T) s : ended src s -> yields src s [] None.
Proof. intros (s' & Hc & He)%ended_call. by eapply yields_end. Qed.

(** An operator whose calls end whenever its source has ended. *)
Lemma ended_lift {S S' T U} (src : source X S T) (op : source X S' U) (Q : S -> S' -> Prop) s s' :
  (forall t t', ended src t -> Q t t' -> exists u u', op t' = Some (u', End) /\ ended src u /\ Q u u') ->
  ended src s -> Q s s' -> ended op s'.
Proof.
  intros Hstep Hs HQ. apply (ended_intro op (fun t' => exists t, ended src t /\ Q t t')); [eauto|].
  intros t' (t & Ht & HQt). destruct (Hstep t t' Ht HQt) as (u & u' & Hop & Hu & HQu). eauto.
Qed.

(** What the first call of a stream that yields [l] gives. *)
Definition first_call {S T} (src : source X S T) (l : list T) (r : option X) (o : option (S * pull X T)) : Prop :=
  match l with
  | x :: l => exists s, o = Some (s, Item x) /\ yields src s l r
  | [] => exists s, match r with None => o = Some (s, End) /\ ended src s | Some e => o = Some (s, Raise e) end
  end.

Lemma first_call_yields {S T} (src : source X S T) s l r : first_call src l r (src s) <-> yields src s l r.
Proof.
  split.
  - unfold first_call. destruct l as [|x l]; [|intros (s' & Hc & Hy); by eapply yields_item].
    intros [s' H]. destruct r as [e|]; [by eapply yields_raise|destruct H; by eapply yields_end].
  - by intros [? ? ? ? ? Hc Hy|? ? Hc He|? ? ? Hc]; simpl; eauto.
Qed.

(** ** Factories *)

Lemma from_vector_yields {T} (vec : list T) i : 0 <= i <= zlen vec -> zlen vec < 2 ^ 63 ->
  yields (from_vector vec) i (drop (Z.to_nat i) vec) None.
Proof.
  intros Hi Hb. remember (Z.to_nat (zlen vec - i)) as n eqn:En. revert i Hi En. induction n as [|n IH]; intros i Hi En.
  - assert (i = zlen vec) as -> by lia. rewrite drop_ge by (unfold zlen; lia). apply ended_yields.
    apply (ended_intro _ (fun j => j = zlen vec)); [done|]. intros t ->. exists (zlen vec). unfold from_vector.
    by rewrite (proj2 (zget_None vec (zlen vec)) ltac:(lia)).
  - destruct (zget_in_range vec i) as [x Hx]; [lia|]. pose proof Hx as Hx'. unfold zget in Hx'. rewrite (proj2 (Z.ltb_ge i 0)) in Hx' by lia.
    erewrite drop_S by exact Hx'. eapply yields_item; [unfold from_vector; by rewrite Hx|].
    rewrite u64_small by lia. replace (S (Z.to_nat i)) with (Z.to_nat (i + 1)) by lia. apply IH; lia.
Qed.

Lemma empty_yields {T} : yields (T := T) empty tt [] None.
Proof. apply ended_yields, (ended_intro _ (fun _ => True)); [done|]. intros []. by exists tt. Qed.

Lemma single_yields {T} (x : T) : yields single (Some x) [x] None.
Proof.
  eapply yields_item; [done|]. apply ended_yields, (ended_intro _ (fun o => o = None)); [done|]. intros t ->. by exists None.
Qed.

Lemma range_yields a b : yields (range_stream b) a (seqZ a (b - a)) None.
Proof.
  remember (Z.to_nat (b - a)) as n eqn:En. revert a En. induction n as [|n IH]; intros a En.
  - rewrite seqZ_nil by lia. apply ended_yields, (ended_intro _ (fun c => b <= c)); [lia|]. intros t Ht. exists t. unfold range_stream.
    by rewrite (proj2 (Z.leb_le b t)) by lia.
  - rewrite seqZ_cons by lia. eapply yields_item; [unfold range_stream; by rewrite (proj2 (Z.leb_gt b a)) by lia|].
    replace (Z.succ a) with (a + 1) by lia. replace (Z.pred (b - a)) with (b - (a + 1)) by lia. apply IH. lia.
Qed.

(** ** Operators *)

Lemma map_yields {S T U} (f : T -> U) (src : source X S T) s l r : yields src s l r -> yields (map_next f src) s (f <$> l) r.
Proof.
  intros Hy. induction Hy as [s s' x l r Hc Hy IH|s s' Hc He|s s' e Hc]; simpl.
  - eapply yields_item; [unfold map_next; by rewrite Hc|done].
  - eapply yields_end; [unfold map_next; by rewrite Hc|]. apply (ended_lift src _ (fun t t' => t = t') s' s'); [|done|done].
    intros t t' Ht ->. destruct (ended_call _ _ Ht) as (u & Hu & Hu'). exists u, u. unfold map_next. by rewrite Hu.
  - eapply yields_raise. unfold map_next. by rewrite Hc.
Qed.

Lemma filter_ended {S T} fuel (p : T -> bool) (src : source X S T) s : (0 < fuel)%nat -> ended src s -> ended (filter_next fuel p src) s.
Proof.
  intros Hf He. apply (ended_lift src _ (fun t t' => t = t') s s); [|done|done]. intros t t' Ht ->.
  destruct (ended_call _ _ Ht) as (u & Hu & Hu'). exists u, u. destruct fuel; [lia|]. simpl. by rewrite Hu.
Qed.

(** A call of the filter takes values until one passes. *)
Lemma filter_call {S T} (p : T -> bool) (src : source X S T) s l r : yields src s l r -> forall fuel fuel', (length l < fuel)%nat -> (length l < fuel')%nat ->
  first_call (filter_next fuel' p src) (filter (fun x => p x = true) l) r (filter_next fuel p src s).
Proof.
  intros Hy. induction Hy as [s s' x l r Hc Hy IH|s s' Hc He|s s' e Hc]; intros fuel fuel' Hf Hf'; simpl in Hf, Hf'; (destruct fuel as [|fuel]; [lia|]).
  - rewrite filter_cons. simpl. rewrite Hc. simpl. destruct (decide (p x = true)) as [Hp|Hp].
    + rewrite Hp. exists s'. split; [done|]. apply first_call_yields, IH; lia.
    + apply not_true_iff_false in Hp. rewrite Hp. apply IH; lia.
  - exists s'. simpl. rewrite Hc. split; [done|]. apply filter_ended; [lia|done].
  - exists s'. simpl. by rewrite Hc.
Qed.

Lemma filter_yields {S T} fuel (p : T -> bool) (src : source X S T) s l r :
  yields src s l r -> (length l < fuel)%nat -> yields (filter_next fuel p src) s (filter (fun x => p x = true) l) r.
Proof. intros Hy Hf. by apply first_call_yields, (filter_call p src s l r Hy fuel fuel). Qed.

Lemma take_yields {S T} (src : source X S T) s l r n : yields src s l r -> 0 <= n < 2 ^ 64 ->
  yields (take_next src) (n, s) (take (Z.to_nat n) l) (if zlen l <? n then r else None).
Proof.
  assert (forall s, yields (take_next src) (0, s) [] None) as H0.
  { intros t. apply ended_yields, (ended_intro _ (fun st => st.1 = 0)); [done|]. intros [i u] Hi. simpl in Hi. subst i. by exists (0, u). }
  intros Hy. revert n. induction Hy as [s s' x l r Hc Hy IH|s s' Hc He|s s' e Hc]; intros n Hn;
    (destruct (Z.eqb_spec n 0) as [-> |Hne]; [rewrite (proj2 (Z.ltb_ge _ 0)) by apply zlen_nonneg; apply H0|]).
  - replace (Z.to_nat n) with (Datatypes.S (Z.to_nat (n - 1))) by lia. simpl take. eapply yields_item.
    + simpl. rewrite (proj2 (Z.eqb_neq n 0)) by done. rewrite Hc. simpl. rewrite u64_small by lia. done.
    + replace (zlen (x :: l) <? n) with (zlen l <? n - 1); [apply IH; lia|]. unfold zlen. simpl. destruct (Z.ltb_spec (Z.of_nat (length l)) (n - 1)); symmetry; zcase; lia || done.
  - rewrite take_nil. replace (if zlen [] <? n then None else None : option X) with (@None X) by (by destruct (zlen [] <? n)).
    eapply yields_end; [simpl; rewrite (proj2 (Z.eqb_neq n 0)) by done; by rewrite Hc|].
    apply (ended_lift src _ (fun t st => st.2 = t) s'); [|done|done]. intros t [i u] Ht Hu. simpl in Hu. subst u.
    destruct (Z.eqb_spec i 0) as [-> |Hi]; [by exists t, (0, t)|]. destruct (ended_call _ _ Ht) as (v & Hv & Hv'). exists v, (i -s 1, v).
    simpl. rewrite (proj2 (Z.eqb_neq i 0)) by done. by rewrite Hv.
  - rewrite take_nil. rewrite (proj2 (Z.ltb_lt (zlen []) n)) by (rewrite zlen_nil; lia).
    eapply yields_raise. simpl. rewrite (proj2 (Z.eqb_neq n 0)) by done. by rewrite Hc.
Qed.

Lemma skip_ended {S T} fuel (src : source X S T) n s : (0 < fuel)%nat -> ended src s -> ended (skip_next fuel src) (n, s).
Proof.
  intros Hf He. apply (ended_lift src _ (fun t st => st.2 = t) s); [|done|done]. intros t [i u] Ht Hu. simpl in Hu. subst u.
  destruct (ended_call _ _ Ht) as (v & Hv & Hv'). exists v, (i, v). destruct fuel; [lia|]. simpl. rewrite Hv. simpl. by destruct (0 <? i).
Qed.

Lemma skip_call {S T} (src : source X S T) s l r : yields src s l r -> forall n fuel fuel', 0 <= n < 2 ^ 64 -> (length l < fuel)%nat -> (length l < fuel')%nat ->
  first_call (skip_next fuel' src) (drop (Z.to_nat n) l) r (skip_next fuel src (n, s)).
Proof.
  intros Hy. induction Hy as [s s' x l r Hc Hy IH|s s' Hc He|s s' e Hc]; intros n fuel fuel' Hn Hf Hf'; simpl in Hf, Hf'; (destruct fuel as [|fuel]; [lia|]);
    simpl; rewrite Hc; simpl.
  - destruct (Z.ltb_spec 0 n) as [Hpos|Hz].
    + rewrite u64_small by lia. replace (Z.to_nat n) with (Datatypes.S (Z.to_nat (n - 1))) by lia. apply IH; lia.
    + assert (n = 0) as -> by lia. exists (0, s'). split; [done|]. apply first_call_yields, (IH 0); lia.
  - rewrite drop_nil. exists (n, s'). split; [by destruct (0 <? n)|]. apply skip_ended; [lia|done].
  - rewrite drop_nil. exists (n, s'). by destruct (0 <? n).
Qed.

Lemma skip_yields {S T} fuel (src : source X S T) s l r n : yields src s l r -> 0 <= n < 2 ^ 64 -> (length l < fuel)%nat ->
  yields (skip_next fuel src) (n, s) (drop (Z.to_nat n) l) r.
Proof. intros Hy Hn Hf. by apply first_call_yields, (skip_call src s l r Hy n fuel fuel). Qed.

Lemma chain_second {S S' T} (a : source X S T) (b : source X S' T) s s' l r : yields b s' l r -> yields (chain_next a b) (true, s, s') l r.
Proof.
  intros Hy. induction Hy as [s' t x l r Hc Hy IH|s' t Hc He|s' t e Hc].
  - eapply yields_item; [simpl; by rewrite Hc|done].
  - eapply yields_end; [simpl; by rewrite Hc|]. apply (ended_lift b _ (fun u st => st = (true, s, u)) t); [|done|done].
    intros u st Hu ->. destruct (ended_call _ _ Hu) as (v & Hv & Hv'). exists v, (true, s, v). simpl. by rewrite Hv.
  - eapply yields_raise. simpl. by rewrite Hc.
Qed.

Lemma chain_yields {S S' T} (a : source X S T) (b : source X S' T) s s' l r l' r' : yields a s l r -> yields b s' l' r' ->
  yields (chain_next a b) (false, s, s') (match r with None => l ++ l' | Some _ => l end) (match r with None => r' | Some e => Some e end).
Proof.
  intros Ha Hb. induction Ha as [s t x l r Hc Hy IH|s t Hc He|s t e Hc].
  - destruct r as [e|]; (eapply yields_item; [simpl; by rewrite Hc|done]).
  - simpl. apply first_call_yields. cbn [chain_next]. rewrite Hc. cbn [mbind option_bind].
    change ('(s'0, o) ← b s'; Some ((true, t, s'0), o)) with (chain_next a b (true, t, s')). by apply first_call_yields, chain_second.
  - eapply yields_raise. simpl. by rewrite Hc.
Qed.

Lemma zip_yields {S S' T U} (a : source X S T) (b : source X S' U) s s' l l' r' : yields a s l None -> yields b s' l' r' ->
  yields (zip_next a b) (s, s') (zip l l') (if (length l <=? length l')%nat then None else r').
Proof.
  assert (forall s s' (k : list T), yields a s k None -> ended b s' -> ended (zip_next a b) (s, s')) as Hend.
  { intros s0 s0' k Hk He. apply (ended_intro _ (fun st => (exists k, yields a st.1 k None) /\ ended b st.2)); [simpl; eauto|].
    intros [t t'] [[k' Hk'] Ht']. simpl in *. destruct (ended_call _ _ Ht') as (u' & Hu' & Hue). apply first_call_yields in Hk'.
    destruct k' as [|x k']; simpl in Hk'.
    - destruct Hk' as (u & Hu & Hue'). exists (u, t'). rewrite Hu. simpl. split; [done|]. split; [by eexists; apply ended_yields|done].
    - destruct Hk' as (u & Hu & Hy). exists (u, u'). rewrite Hu. simpl. rewrite Hu'. simpl. eauto. }
  intros Ha. remember None as r eqn:Er. revert s' l'. induction Ha as [s t x l r Hc Hy IH|s t Hc He|s t e Hc]; intros s' l' Hb; [| |done].
  - subst r. destruct Hb as [s' t' y l' r' Hc' Hy'|s' t' Hc' He'|s' t' e Hc']; simpl.
    + eapply yields_item; [simpl; rewrite Hc; simpl; by rewrite Hc'|]. by apply IH.
    + eapply yields_end; [simpl; rewrite Hc; simpl; by rewrite Hc'|]. by eapply Hend.
    + eapply yields_raise. simpl. rewrite Hc. simpl. by rewrite Hc'.
  - simpl. eapply yields_end; [simpl; by rewrite Hc|].
    apply (ended_lift a _ (fun u st => st.1 = u) t); [|done|done]. intros u [v v'] Hu Hv. simpl in Hv. subst v.
    destruct (ended_call _ _ Hu) as (w & Hw & Hw'). exists w, (w, v'). simpl. by rewrite Hw.
Qed.

(** The batches of a list, when [buf] has already been put aside, and what is left at the end. *)
Fixpoint batches {T} (n : nat) (buf l : list T) : list (list T) * list T :=
  match l with
  | [] => ([], buf)
  | x :: l =>
      if decide (length (buf ++ [x]) = n) then let '(bs, rest) := batches n [] l in ((buf ++ [x]) :: bs, rest)
      else batches n (buf ++ [x]) l
  end.

Lemma batches_spec {T} n (buf l : list T) : (length buf < n)%nat ->
  let '(bs, rest) := batches n buf l in
  concat bs ++ rest = buf ++ l /\ Forall (fun b => length b = n) bs /\ (length rest < n)%nat.
Proof.
  revert buf. induction l as [|x l IH]; intros buf Hb; simpl; [by rewrite app_nil_r|]. case_decide as Hd.
  - specialize (IH [] ltac:(simpl; lia)). destruct (batches n [] l) as [bs rest]. destruct IH as (Hc & Hf & Hr).
    split; [simpl; rewrite <- app_assoc, Hc; by rewrite <- app_assoc|]. split; [by constructor|done].
  - rewrite length_app in Hd. simpl in Hd. specialize (IH (buf ++ [x]) ltac:(rewrite length_app; simpl; lia)).
    destruct (batches n (buf ++ [x]) l) as [bs rest]. by rewrite <- app_assoc in IH.
Qed.

(** The batches a stream gives: a partial one only at a regular end. *)
Definition batch_list {T} (n : nat) (buf l : list T) (r : option X) : list (list T) :=
  let '(bs, rest) := batches n buf l in
  match r with None => if decide (rest = []) then bs else bs ++ [rest] | Some _ => bs end.

Lemma buffer_ended {S T} fuel n (src : source X S T) s : (0 < fuel)%nat -> 0 < n -> ended src s -> ended (buffer_next fuel n src) ([], s).
Proof.
  intros Hf Hn He. apply (ended_lift src _ (fun t st => st = ([], t)) s); [|done|done]. intros t st Ht ->.
  destruct (ended_call _ _ Ht) as (u & Hu & Hu'). exists u, ([], u). destruct fuel; [lia|]. simpl.
  rewrite (proj2 (Z.ltb_lt (zlen []) n)) by (rewrite zlen_nil; lia). by rewrite Hu.
Qed.

(** One batch, with the fuel [g] of the later ones. *)
Lemma buffer_call {S T} n (src : source X S T) s l r : 0 < n -> yields src s l r -> forall buf fuel g, zlen buf < n -> (length l < fuel)%nat -> (length l < g)%nat ->
  first_call (buffer_next g n src) (batch_list (Z.to_nat n) buf l r) r (buffer_next fuel n src (buf, s)).
Proof.
  intros Hn Hy. induction Hy as [s s' x l r Hc Hy IH|s s' Hc He|s s' e Hc]; intros buf fuel g Hb Hf Hg; simpl in Hf, Hg; (destruct fuel as [|fuel]; [lia|]);
    unfold buffer_next; cbn [fill]; rewrite (proj2 (Z.ltb_lt (zlen buf) n)) by lia; rewrite Hc; cbn [mbind option_bind].
  - unfold batch_list. cbn [batches]. case_decide as Hd.
    + destruct fuel as [|fuel]; [lia|]. cbn [fill]. rewrite (proj2 (Z.ltb_ge (zlen (buf ++ [x])) n)) by (unfold zlen; lia). cbn [mbind option_bind].
      rewrite decide_False by (by destruct buf). specialize (IH [] g g). rewrite zlen_nil in IH. specialize (IH ltac:(lia) ltac:(lia) ltac:(lia)).
      unfold batch_list in IH. destruct (batches (Z.to_nat n) [] l) as [bs rest].
      apply first_call_yields in IH. destruct r as [e|]; [|case_decide]; eexists; split; done.
    + apply (IH (buf ++ [x]) fuel g); [|lia|lia]. unfold zlen in *. rewrite length_app in *. simpl in *. lia.
  - unfold batch_list. simpl. case_decide as Hd.
    + subst buf. exists ([], s'). split; [done|]. apply buffer_ended; [lia|lia|done].
    + exists ([], s'). split; [done|]. apply ended_yields, buffer_ended; [lia|lia|done].
  - unfold batch_list. simpl. by exists (buf, s').
Qed.

Lemma buffer_yields {S T} fuel n (src : source X S T) s l r : yields src s l r -> 0 < n -> (length l < fuel)%nat ->
  yields (buffer_next fuel n src) ([], s) (batch_list (Z.to_nat n) [] l r) r.
Proof. intros Hy Hn Hf. by apply first_call_yields, (buffer_call n src s l r Hn Hy [] fuel fuel). Qed.

(** ** Consumers *)

Lemma collect_yields {S T} (src : source X S T) s l r fuel acc : yields src s l r -> (length l < fuel)%nat ->
  collect_impl fuel src s acc = Some (match r with None => inl (acc ++ l) | Some e => inr e end).
Proof.
  intros Hy. revert fuel acc. induction Hy as [s s' x l r Hc Hy IH|s s' Hc He|s s' e Hc]; intros fuel acc Hf; simpl in Hf; (destruct fuel as [|fuel]; [lia|]);
    simpl; rewrite Hc; simpl; [|by rewrite app_nil_r|done].
  rewrite IH by lia. destruct r; [done|]. by rewrite <- app_assoc.
Qed.

Lemma reduce_yields {S T Acc} (src : source X S T) (f : Acc -> T -> Acc) s l r fuel acc : yields src s l r -> (length l < fuel)%nat ->
  reduce_impl fuel src f s acc = Some (match r with None => inl (fold_left f l acc) | Some e => inr e end).
Proof.
  intros Hy. revert fuel acc. induction Hy as [s s' x l r Hc Hy IH|s s' Hc He|s s' e Hc]; intros fuel acc Hf; simpl in Hf; (destruct fuel as [|fuel]; [lia|]);
    simpl; rewrite Hc; simpl; [apply IH; lia|done|done].
Qed.

(** [count] is a fold. *)
Lemma count_reduce {S T} (src : source X S T) fuel s n : count_impl fuel src s n = reduce_impl fuel src (fun n _ => n +s 1) s n.
Proof. revert s n. induction fuel as [|fuel IH]; intros s n; [done|]. simpl. destruct (src s) as [[s' []]|]; simpl; auto. Qed.

Lemma count_fold {T} (l : list T) n : 0 <= n -> n + zlen l < 2 ^ 64 -> fold_left (fun n _ => n +s 1) l n = n + zlen l.
Proof.
  revert n. induction l as [|x l IH]; intros n Hn Hb; simpl; [rewrite zlen_nil; lia|]. unfold zlen in *. simpl in *.
  rewrite u64_small by lia. rewrite IH by lia. lia.
Qed.

(** The searches stop at the first value that decides. *)
Lemma find_yields {S T} (src : source X S T) (p : T -> bool) s l r fuel : yields src s l r -> (length l < fuel)%nat ->
  find_impl fuel src p s = Some (match List.find p l with Some x => inl (Some x) | None => match r with None => inl None | Some e => inr e end end).
Proof.
  intros Hy. revert fuel. induction Hy as [s s' x l r Hc Hy IH|s s' Hc He|s s' e Hc]; intros fuel Hf; simpl in Hf; (destruct fuel as [|fuel]; [lia|]);
    simpl; rewrite Hc; simpl; [|done|done]. destruct (p x); [done|]. apply IH. lia.
Qed.

Lemma any_yields {S T} (src : source X S T) (p : T -> bool) s l r fuel : yields src s l r -> (length l < fuel)%nat ->
  any_impl fuel src p s = Some (if existsb p l then inl true else match r with None => inl false | Some e => inr e end).
Proof.
  intros Hy. revert fuel. induction Hy as [s s' x l r Hc Hy IH|s s' Hc He|s s' e Hc]; intros fuel Hf; simpl in Hf; (destruct fuel as [|fuel]; [lia|]);
    simpl; rewrite Hc; simpl; [|done|done]. destruct (p x); [done|]. apply IH. lia.
Qed.

Lemma all_yields {S T} (src : source X S T) (p : T -> bool) s l r fuel : yields src s l r -> (length l < fuel)%nat ->
  all_impl fuel src p s = Some (if forallb p l then match r with None => inl true | Some e => inr e end else inl false).
Proof.
  intros Hy. revert fuel. induction Hy as [s s' x l r Hc Hy IH|s s' Hc He|s s' e Hc]; intros fuel Hf; simpl in Hf; (destruct fuel as [|fuel]; [lia|]);
    simpl; rewrite Hc; simpl; [|done|done]. destruct (p x); simpl; [|done]. apply IH. lia.
Qed.
End Yields.

(** ** Merging *)

(** Round robin over lists: the first list gives a value and goes to the back, an empty one is
    dropped. *)
Inductive round_robin {T} : list (list T) -> list T -> Prop :=
  | round_robin_nil : round_robin [] []
  | round_robin_drop q k : round_robin q k -> round_robin ([] :: q) k
  | round_robin_item x l q k : round_robin (q ++ [l]) k -> round_robin ((x :: l) :: q) (x :: k).

(** A cyclic order from position [i]. *)
Definition rotated {A} (i : nat) (l : list A) : list A := drop i l ++ take i l.

Lemma rotated_head {A} i (l : list A) x : l !! i = Some x -> rotated i l = x :: drop (S i) l ++ take i l.
Proof. intros H. unfold rotated. by rewrite (drop_S _ x). Qed.

Lemma rotated_next {A} i (l : list A) x y : l !! i = Some x ->
  rotated (Z.to_nat ((Z.of_nat i + 1) mod zlen l)) (<[i := y]> l) = drop (S i) l ++ take i l ++ [y].
Proof.
  intros H. pose proof (lookup_lt_Some _ _ _ H) as Hlt. unfold zlen, rotated. destruct (decide (S i = length l)) as [He|He].
  - replace (Z.of_nat i + 1) with (Z.of_nat (length l)) by lia. rewrite Z_mod_same_full. simpl. rewrite drop_0, app_nil_r, (drop_ge l) by lia. simpl.
    rewrite insert_take_drop by done. by rewrite drop_ge by lia.
  - rewrite Z.mod_small by lia. replace (Z.to_nat (Z.of_nat i + 1)) with (S i) by lia.
    rewrite drop_insert_lt by lia. f_equal. erewrite take_S_r by (by apply list_lookup_insert_eq).
    by rewrite take_insert_ge by lia.
Qed.

Section Merge.
Context {X S T : Type} (src : source X S T).

(** What is known of a stream: the list it still gives, or that it has ended. *)
Definition entry (m : merge_state S) (j : nat) (o : option (list T)) : Prop :=
  match o with
  | Some l => finished m !! j = Some false /\ exists s, states m !! j = Some s /\ yields src s l None
  | None => finished m !! j = Some true
  end.

(** The streams in their cyclic order from the index. *)
Definition merging (m : merge_state S) (rs : list (option (list T))) : Prop :=
  exists os, rs = rotated (Z.to_nat (index m)) os /\ length os = length (states m) /\ length os = length (finished m) /\
    0 <= index m < zlen os /\ zlen os < 2 ^ 63 /\ active_count m = zlen (omap id os) /\
    (forall j o, os !! j = Some o -> entry m j o).

Lemma omap_rotated {A} i (os : list (option A)) : zlen (omap id (rotated i os)) = zlen (omap id os).
Proof.
  unfold rotated, zlen. rewrite omap_app, length_app, Nat.add_comm, <- length_app, <- omap_app. by rewrite take_drop.
Qed.

(** The stream at the index has its turn and goes to the back. *)
Lemma merging_turn m o tl st fl ac o' : merging m (o :: tl) ->
  length st = length (states m) -> length fl = length (finished m) ->
  (forall j, j <> Z.to_nat (index m) -> st !! j = states m !! j /\ fl !! j = finished m !! j) ->
  entry (MergeState st 0 0 fl) (Z.to_nat (index m)) o' -> ac = zlen (omap id (tl ++ [o'])) ->
  merging (MergeState st ((index m +s 1) mod zlen (states m)) ac fl) (tl ++ [o']).
Proof.
  intros (os & Hrs & Hl1 & Hl2 & Hi & Hb & Hac & Hent) Hst Hfl Hother He Heq. unfold zlen in Hi.
  assert (exists x, os !! Z.to_nat (index m) = Some x) as [x Hx] by (apply lookup_lt_is_Some; lia).
  pose proof (rotated_next _ _ _ o' Hx) as Hrot. rewrite Z2Nat.id in Hrot by lia. rewrite (rotated_head _ _ _ Hx) in Hrs. injection Hrs as -> ->.
  rewrite (u64_small (index m + 1)) by (unfold zlen in *; lia). assert (zlen (states m) = zlen os) as -> by (unfold zlen; lia).
  pose proof (Z.mod_pos_bound (index m + 1) (zlen os) ltac:(unfold zlen; lia)) as Hmod.
  exists (<[Z.to_nat (index m) := o']> os). cbn [index states finished active_count]. rewrite Hrot. unfold zlen in *.
  rewrite length_insert. split; [by rewrite app_assoc|]. split; [lia|]. split; [lia|]. split; [lia|]. split; [lia|]. split.
  - rewrite Heq. change (zlen (omap id ((drop (Datatypes.S (Z.to_nat (index m))) os ++ take (Z.to_nat (index m)) os) ++ [o'])) = zlen (omap id (<[Z.to_nat (index m):=o']> os))).
    rewrite <- app_assoc, <- Hrot. apply omap_rotated.
  - intros j oj Hj. destruct (decide (j = Z.to_nat (index m))) as [-> |Hne].
    + rewrite list_lookup_insert_eq in Hj by lia. injection Hj as <-. exact He.
    + rewrite list_lookup_insert_ne in Hj by done. specialize (Hent j oj Hj). destruct (Hother j Hne) as [Hs Hf].
      unfold entry in *. cbn [states finished]. by rewrite Hs, Hf.
Qed.

Lemma merging_head m o tl : merging m (o :: tl) ->
  0 <= index m < zlen (states m) /\ length (states m) = length (finished m) /\ active_count m = zlen (omap id (o :: tl)) /\
  zlen (o :: tl) = zlen (states m) /\ entry m (Z.to_nat (index m)) o.
Proof.
  intros (os & Hrs & Hl1 & Hl2 & Hi & Hb & Hac & Hent). pose proof (omap_rotated (Z.to_nat (index m)) os) as Ho. rewrite <- Hrs in Ho.
  assert (exists x, os !! Z.to_nat (index m) = Some x) as [x Hx] by (apply lookup_lt_is_Some; unfold zlen in Hi; lia).
  assert (zlen (o :: tl) = zlen os) as Hlen by (rewrite Hrs; unfold rotated, zlen; rewrite length_app, length_drop, length_take; lia).
  rewrite (rotated_head _ _ _ Hx) in Hrs. injection Hrs as -> _. unfold zlen in *. split; [lia|]. split; [lia|]. split; [lia|]. split; [lia|]. by apply Hent.
Qed.

Lemma zget_nat {A} (l : list A) i : 0 <= i -> zget l i = l !! Z.to_nat i.
Proof. intros H. unfold zget. by rewrite (proj2 (Z.ltb_ge i 0)) by lia. Qed.

Lemma zput_nat {A} (l : list A) i x : 0 <= i -> zput l i x = <[Z.to_nat i := x]> l.
Proof. intros H. unfold zput. by rewrite (proj2 (Z.ltb_ge i 0)) by lia. Qed.

Lemma merging_active m rs : merging m rs -> active_count m = zlen (omap id rs).
Proof. intros (os & -> & _ & _ & _ & _ & -> & _). by rewrite omap_rotated. Qed.

Lemma omap_length_le {A} (l : list (option A)) : (length (omap id l) <= length l)%nat.
Proof.
  induction l as [|[x|] l IH]; [done| |]; [change (omap id (Some x :: l)) with (x :: omap id l)|change (omap id (None :: l)) with (omap id l)];
    cbn [length]; lia.
Qed.

Lemma zlen_omap_Some {A} (x : A) rs : zlen (omap id (Some x :: rs)) = zlen (omap id rs) + 1.
Proof. change (omap id (Some x :: rs)) with (x :: omap id rs). unfold zlen. cbn [length]. lia. Qed.

Lemma omap_None {A} c : omap id (replicate c (@None A)) = [].
Proof. by induction c. Qed.

(** The next index is the one the call started from only after all the others. *)
Lemma mod_start i k n : 0 <= i < n -> 0 <= k < n -> ((i + 1) mod n =? (i + 1 + k) mod n) = (k =? 0).
Proof.
  intros Hi Hk. destruct (Z.eqb_spec k 0) as [-> |Hne]; [rewrite Z.add_0_r; apply Z.eqb_refl|]. apply Z.eqb_neq. intros He.
  pose proof (Z.div_mod (i + 1) n ltac:(lia)). pose proof (Z.div_mod (i + 1 + k) n ltac:(lia)).
  set (a := (i + 1) / n) in *. set (b := (i + 1 + k) / n) in *. assert (k = n * (b - a)) as Hk' by (rewrite Z.mul_sub_distr_l; lia).
  destruct (Z_le_gt_dec (b - a) 0); nia.
Qed.

(** The result of a call of the loop on the streams [rs]. *)
Definition loop_result (rs : list (option (list T))) (res : option (merge_state S * pull X T)) : Prop :=
  exists m o, res = Some (m, o) /\
    match o with
    | Item x => exists k l q rs', omap id rs = replicate k [] ++ (x :: l) :: q /\ merging m rs' /\ omap id rs' = q ++ [l] /\ length rs' = length rs
    | End => exists k, omap id rs = replicate k [] /\ active_count m = 0
    | Raise _ => False
    end.

(** A stream that ended adds an empty list at the front, one that had ended before adds nothing. *)
Lemma loop_result_cons o rs rs' res : o = None \/ o = Some [] -> omap id rs = omap id rs' -> length rs = length (o :: rs') -> loop_result rs res -> loop_result (o :: rs') res.
Proof.
  intros Ho Hrs Hlen (m & p & Hres & Hp). exists m, p. split; [done|]. rewrite Hrs, Hlen in Hp. destruct p as [x| |e]; [| |done].
  - destruct Hp as (k & l & q & rs'' & Heq & Hm & Hq & Hl). destruct Ho as [-> | ->]; [by exists k, l, q, rs''|]. exists (Datatypes.S k), l, q, rs''.
    change (omap id (Some [] :: rs')) with ([] :: omap id rs'). by rewrite Heq.
  - destruct Hp as (k & Heq & Hm). destruct Ho as [-> | ->]; [by exists k|]. exists (Datatypes.S k).
    change (omap id (Some [] :: rs')) with ([] :: omap id rs'). by rewrite Heq.
Qed.

(** The loop of a call, when the streams of the last [c] turns have ended and the [front] of the
    streams is left before the one the call started from. *)
Lemma merge_loop_call fuel m front c start : merging m (front ++ replicate c None) -> active_count m <> 0 -> (length front <= fuel)%nat ->
  start = (index m + Z.of_nat (length front)) mod zlen (states m) -> loop_result (front ++ replicate c None) (merge_loop fuel src start m).
Proof.
  revert m front c. induction fuel as [|fuel IH]; intros m front c Hm Hac Hf Hstart;
    (destruct front as [|o front]; [cbn [app] in Hm; by rewrite (merging_active _ _ Hm), omap_None in Hac|]); simpl in Hf; [lia|].
  cbn [app] in Hm |- *. destruct (merging_head _ _ _ Hm) as (Hi & Hlen & Hcount & Hn & He).
  assert (forall st fl ac, length st = length (states m) -> length fl = length (finished m) ->
    (forall j, j <> Z.to_nat (index m) -> st !! j = states m !! j /\ fl !! j = finished m !! j) ->
    fl !! Z.to_nat (index m) = Some true -> ac = zlen (omap id (front ++ replicate c None)) -> ac <> 0 -> o = None \/ o = Some [] ->
    let m' := MergeState st ((index m +s 1) mod zlen (states m)) ac fl in
    loop_result (o :: front ++ replicate c None) (if (index m +s 1) mod zlen (states m) =? start then Some (m', End) else merge_loop fuel src start m')) as Hagain.
  { intros st fl ac Hst Hfl Hj Hend Heq Hne Ho m'. apply (loop_result_cons o (front ++ replicate (Datatypes.S c) None)); [done| |simpl; rewrite !length_app; simpl; lia|].
    { rewrite replicate_S_end, !omap_app. simpl. by rewrite !app_nil_r. }
    assert (merging m' (front ++ replicate (Datatypes.S c) None)) as Hm'.
    { rewrite replicate_S_end, app_assoc. apply (merging_turn m o _ st fl ac None Hm Hst Hfl Hj Hend).
      rewrite omap_app. simpl. by rewrite app_nil_r. }
    assert (front <> []) as Hfr by (intros ->; apply Hne; rewrite Heq; cbn [app]; by rewrite omap_None).
    unfold zlen in Hn. simpl in Hn. rewrite length_app, length_replicate in Hn.
    assert (0 < zlen front) as Hpos by (destruct front; [done|unfold zlen; simpl; lia]).
    assert (zlen (states m) < 2 ^ 63) as Hbig by (destruct Hm as (os & _ & Hl & _ & _ & Hb & _); unfold zlen in *; lia).
    rewrite (u64_small (index m + 1)) by (unfold zlen in *; lia).
    assert (start = (index m + 1 + zlen front) mod zlen (states m)) as Hs by (rewrite Hstart; f_equal; unfold zlen; simpl; lia).
    assert (((index m + 1) mod zlen (states m) =? start) = false) as ->.
    { rewrite Hs, mod_start by (unfold zlen in *; lia). apply Z.eqb_neq. lia. }
    apply IH; [done|done|lia|]. subst m'. cbn [index states]. rewrite (u64_small (index m + 1)) by (unfold zlen in *; lia).
    assert (zlen st = zlen (states m)) as -> by (unfold zlen; lia).
    by rewrite Zplus_mod_idemp_l. }
  cbn [merge_loop]. rewrite (zget_nat (finished m)) by lia. destruct o as [l|].
  - destruct He as (Hfin & s0 & Hs0 & Hy). rewrite Hfin, (zget_nat (states m)), Hs0 by lia. cbn [mbind option_bind].
    apply first_call_yields in Hy. destruct l as [|x l].
    + destruct Hy as (s1 & Hc & Hended). rewrite Hc. cbn [mbind option_bind active_count]. rewrite !zput_nat by lia.
      assert (active_count m -s 1 = zlen (omap id (front ++ replicate c None))) as Hac1.
      { rewrite Hcount, zlen_omap_Some, Z.add_simpl_r. apply u64_small. split; [apply zlen_nonneg|].
        destruct Hm as (os & Hrs & _ & _ & _ & Hb & Hcnt & _). rewrite Hcount, zlen_omap_Some in Hcnt. pose proof (omap_length_le os).
        unfold zlen in *. lia. }
      destruct (Z.eqb_spec (active_count m -s 1) 0) as [Hz|Hnz].
      * eexists _, End. split; [done|]. exists 1%nat. split; [|done].
        change (omap id (Some [] :: front ++ replicate c None)) with ([] :: omap id (front ++ replicate c None)). simpl. f_equal. apply zlen_nil_inv. lia.
      * apply Hagain; [by rewrite length_insert|by rewrite length_insert| |apply list_lookup_insert_eq; unfold zlen in *; lia|done|done|by right].
        intros j Hj. by rewrite !list_lookup_insert_ne by done.
    + destruct Hy as (s1 & Hc & Hy). rewrite Hc. cbn [mbind option_bind]. rewrite !zput_nat by lia. eexists _, (Item x). split; [done|].
      exists 0%nat, l, (omap id (front ++ replicate c None)), ((front ++ replicate c None) ++ [Some l]). split; [done|]. split; [|split; [by rewrite (omap_app id (front ++ replicate c None))|rewrite length_app; simpl; lia]].
      apply (merging_turn m (Some (x :: l))); [done|by rewrite length_insert|done| | |].
      * intros j Hj. by rewrite list_lookup_insert_ne by done.
      * split; [done|]. exists s1. split; [apply list_lookup_insert_eq; unfold zlen in Hi; lia|done].
      * by rewrite Hcount, zlen_omap_Some, (omap_app id (front ++ replicate c None)), zlen_app.
  - rewrite He. apply Hagain; [done|done|done|done|done|done|by left].
Qed.

Lemma round_robin_skip k q (r : list T) : round_robin (replicate k [] ++ q) r <-> round_robin q r.
Proof.
  induction k as [|k IH]; [done|]. simpl. rewrite <- IH. split; [by inversion 1|apply round_robin_drop].
Qed.

Lemma merging_yields m rs k fuel : merging m rs -> round_robin (omap id rs) k -> (length rs <= fuel)%nat -> yields (merge_next fuel src) m k None.
Proof.
  intros Hm Hk Hf. remember (length k) as n eqn:En. revert m rs k Hm Hk Hf En. induction n as [n IH] using lt_wf_ind. intros m rs k Hm Hk Hf ->.
  assert (forall m, active_count m = 0 -> ended (merge_next fuel src) m) as Hend.
  { intros m0 H0. apply (ended_intro _ (fun m => active_count m = 0)); [done|]. intros t Ht. exists t. unfold merge_next. by rewrite Ht. }
  apply first_call_yields. unfold merge_next at 2. destruct (Z.eqb_spec (active_count m) 0) as [H0|Hne].
  { rewrite (merging_active _ _ Hm) in H0. apply zlen_nil_inv in H0. rewrite H0 in Hk. inversion Hk. subst k. exists m. split; [done|].
    apply Hend. by rewrite (merging_active _ _ Hm), H0. }
  destruct (merge_loop_call fuel m rs 0 (index m)) as (m' & o & Hres & Ho); [by rewrite app_nil_r|done|done| |].
  { destruct Hm as (os & -> & Hl & _ & Hi & _). unfold rotated, zlen in *. rewrite length_app, length_drop, length_take.
    replace (index m + Z.of_nat _) with (index m + 1 * Z.of_nat (length (states m))) by lia. rewrite Z_mod_plus_full. by rewrite Z.mod_small by lia. }
  rewrite Hres. rewrite app_nil_r in Ho. destruct o as [x| |e]; [| |done].
  - destruct Ho as (j & l & q & rs' & Heq & Hm' & Hq & Hl). rewrite Heq in Hk. apply round_robin_skip in Hk. inversion Hk as [| |? ? ? k' Hk']; subst.
    exists m'. split; [done|]. rewrite <- Hq in Hk'. apply (IH (length k')) with (rs := rs'); [simpl; lia|done|done|lia|done].
  - destruct Ho as (j & Heq & H0). rewrite Heq, <- (app_nil_r (replicate j [])) in Hk. apply round_robin_skip in Hk. inversion Hk. subst k.
    exists m'. split; [done|]. by apply Hend.
Qed.
End Merge.

Lemma round_robin_total {T} (q : list (list T)) : exists k, round_robin q k.
Proof.
  remember (2 * length (concat q) + length q)%nat as n eqn:En. revert q En. induction n as [n IH] using lt_wf_ind. intros q ->.
  destruct q as [|[|x l] q]; [exists []; constructor| |].
  - destruct (IH (2 * length (concat q) + length q)%nat) with (q := q) as [k Hk]; [simpl; lia|done|]. exists k. by constructor.
  - destruct (IH (2 * length (concat (q ++ [l])) + length (q ++ [l]))%nat) with (q := q ++ [l]) as [k Hk]; [|done|exists (x :: k); by constructor].
    rewrite concat_app. simpl. rewrite !length_app. simpl. lia.
Qed.

(** The merged values are the values of all lists, those of each list in their order. *)
Lemma round_robin_spec {T} (q : list (list T)) k : round_robin q k -> k ≡ₚ concat q /\ Forall (fun l => l `sublist_of` k) q.
Proof.
  induction 1 as [|q k Hr [IH1 IH2]|x l q k Hr [IH1 IH2]]; [done| |].
  - split; [done|]. constructor; [apply sublist_nil_l|done].
  - split.
    + rewrite IH1, concat_app. simpl. rewrite app_nil_r. constructor. apply Permutation_app_comm.
    + apply Forall_app in IH2 as [IHq IHl]. inversion IHl as [|? ? Hl _]. subst. constructor; [by apply sublist_skip|].
      eapply Forall_impl; [exact IHq|]. intros l' Hl'. by apply sublist_cons.
Qed.

(** Merging streams interleaves them in turn: the merged stream gives, in round robin over the streams
    that have not ended, every value of every stream once and each stream's values in their order, and
    then ends. *)
Theorem merge_round_robin {X S T} (src : source X S T) ss ls fuel :
  Forall2 (fun s l => yields src s l None) ss ls -> zlen ss < 2 ^ 63 -> (length ss <= fuel)%nat ->
  exists k, round_robin ls k /\ k ≡ₚ concat ls /\ Forall (fun l => l `sublist_of` k) ls /\
    yields (merge_next fuel src) (merge_streams ss) k None.
Proof.
  intros Hf Hb Hfuel. destruct (round_robin_total ls) as [k Hk]. destruct (round_robin_spec ls k Hk) as [Hp Hs].
  exists k. do 3 (split; [done|]). pose proof (Forall2_length _ _ _ Hf) as Hlen. destruct ss as [|s0 ss'] eqn:Ess.
  { destruct ls; [|done]. inversion Hk. subst k. apply ended_yields.
    apply (ended_intro _ (fun m => active_count m = 0)); [done|]. intros t Ht. exists t. unfold merge_next. by rewrite Ht. }
  rewrite <- Ess in *. assert (ss <> []) as Hne by (by rewrite Ess). clear Ess s0 ss'.
  apply (merging_yields src _ (Some <$> ls)); [| |rewrite length_fmap; lia].
  - exists (Some <$> ls). unfold merge_streams. cbn [index states finished active_count]. rewrite length_fmap. unfold zrepeat, zlen.
    rewrite length_replicate. split; [unfold rotated; simpl; by rewrite drop_0, app_nil_r|]. split; [done|]. split; [lia|].
    split; [rewrite length_fmap; destruct ss; [done|]; simpl in *; lia|]. split; [rewrite length_fmap; unfold zlen in Hb; lia|].
    split.
    + rewrite Hlen. f_equal. clear. induction ls as [|l ls IH]; [done|]. change (omap id (Some <$> l :: ls)) with (l :: omap id (Some <$> ls)). simpl. lia.
    + intros j o Hj. apply list_lookup_fmap_Some in Hj as (l & -> & Hl). destruct (Forall2_lookup_r _ _ _ _ _ Hf Hl) as (s & Hs' & Hy).
      split; [|by exists s]. apply lookup_replicate. split; [done|]. apply lookup_lt_Some in Hs'. lia.
  - assert (omap id (Some <$> ls) = ls) as ->; [|done]. clear. induction ls as [|l ls IH]; [done|].
    change (omap id (Some <$> l :: ls)) with (l :: omap id (Some <$> ls)). by rewrite IH.
Qed.

(** ** Pipelines *)

Section Pipelines.
Context {X V : Type}.

(** Streams built from vectors with the operators that keep the type of the values. *)
Inductive pipeline :=
  | Vector (l : list V) | Single (x : V) | Empty
  | Map (f : V -> V) (e : pipeline) | Filter (p : V -> bool) (e : pipeline)
  | Take (n : Z) (e : pipeline) | Skip (n : Z) (e : pipeline) | Chain (e e' : pipeline).

Fixpoint state_of (e : pipeline) : Type :=
  match e with
  | Vector _ => Z
  | Single _ => option V
  | Empty => unit
  | Map _ e | Filter _ e => state_of e
  | Take _ e | Skip _ e => Z * state_of e
  | Chain e e' => bool * state_of e * state_of e'
  end.

Fixpoint init (e : pipeline) : state_of e :=
  match e with
  | Vector _ => 0
  | Single x => Some x
  | Empty => tt
  | Map _ e | Filter _ e => init e
  | Take n e | Skip n e => (n, init e)
  | Chain e e' => (false, init e, init e')
  end.

Fixpoint build (fuel : nat) (e : pipeline) : source X (state_of e) V :=
  match e with
  | Vector l => from_vector l
  | Single _ => single
  | Empty => empty
  | Map f e => map_next f (build fuel e)
  | Filter p e => filter_next fuel p (build fuel e)
  | Take _ e => take_next (build fuel e)
  | Skip _ e => skip_next fuel (build fuel e)
  | Chain e e' => chain_next (build fuel e) (build fuel e')
  end.

(** The list a pipeline describes. *)
Fixpoint list_of (e : pipeline) : list V :=
  match e with
  | Vector l => l
  | Single x => [x]
  | Empty => []
  | Map f e => f <$> list_of e
  | Filter p e => filter (fun x => p x = true) (list_of e)
  | Take n e => take (Z.to_nat n) (list_of e)
  | Skip n e => drop (Z.to_nat n) (list_of e)
  | Chain e e' => list_of e ++ list_of e'
  end.

(** The values that enter it, which bound the rounds of every loop. *)
Fixpoint inputs (e : pipeline) : nat :=
  match e with
  | Vector l => length l
  | Single _ => 1
  | Empty => 0
  | Map _ e | Filter _ e | Take _ e | Skip _ e => inputs e
  | Chain e e' => inputs e + inputs e'
  end.

(** Vectors of a size a machine can have and counts that are a [size_t]. *)
Fixpoint pipeline_ok (e : pipeline) : Prop :=
  match e with
  | Vector l => zlen l < 2 ^ 63
  | Single _ | Empty => True
  | Map _ e | Filter _ e => pipeline_ok e
  | Take n e | Skip n e => 0 <= n < 2 ^ 64 /\ pipeline_ok e
  | Chain e e' => pipeline_ok e /\ pipeline_ok e'
  end.

Lemma list_of_inputs e : (length (list_of e) <= inputs e)%nat.
Proof.
  induction e as [| | |f e IH|p e IH|n e IH|n e IH|e IH e' IH']; simpl; try lia.
  - by rewrite length_fmap.
  - pose proof (length_filter (fun x => p x = true) (list_of e)). lia.
  - rewrite length_take. lia.
  - rewrite length_drop. lia.
  - rewrite length_app. lia.
Qed.

Lemma build_yields fuel e : pipeline_ok e -> (inputs e < fuel)%nat -> yields (build fuel e) (init e) (list_of e) None.
Proof.
  induction e as [l|x| |f e IH|p e IH|n e IH|n e IH|e IH e' IH']; simpl; intros Hok Hf.
  - apply (from_vector_yields l 0); [split; [lia|apply zlen_nonneg]|done].
  - apply single_yields.
  - apply empty_yields.
  - by apply map_yields, IH.
  - apply filter_yields; [by apply IH|]. pose proof (list_of_inputs e). lia.
  - destruct Hok as [Hn Hok]. pose proof (take_yields _ _ _ _ n (IH Hok Hf) Hn) as H. by destruct (zlen (list_of e) <? n).
  - destruct Hok as [Hn Hok]. apply skip_yields; [by apply IH|done|]. pose proof (list_of_inputs e). lia.
  - destruct Hok as [Hok Hok']. apply (chain_yields _ _ _ _ _ None _ None); [apply IH|apply IH']; (done || lia).
Qed.

(** C39: Collecting a pipeline of maps, filters, takes, skips and chains gives the list that the same
    functions on lists give; the fuel only has to exceed the number of values that enter. *)
Theorem pipeline_collects fuel e : pipeline_ok e -> (inputs e < fuel)%nat ->
  collect_impl fuel (build fuel e) (init e) [] = Some (inl (list_of e)).
Proof.
  intros Hok Hf. rewrite (collect_yields _ _ _ _ fuel [] (build_yields fuel e Hok Hf)); [done|]. pose proof (list_of_inputs e). lia.
Qed.
End Pipelines.

Lemma pipeline_collects_witness :
  let e := Take 2 (Chain (Filter Z.even (Map (Z.add 1) (Vector [1; 2; 3; 4]))) (Skip 1 (Vector [10; 20; 30]))) in
  (inputs e < 8)%nat /\ collect_impl 8 (build (X := unit) 8 e) (init e) [] = Some (inl [2; 4]).
Proof. intros e. split; [vm_compute; lia|]. apply (pipeline_collects 8 e); [|vm_compute; lia]. simpl. unfold zlen. simpl. lia. Defined.

Lemma merge_round_robin_witness : exists k, yields (merge_next 3 (range_stream 5)) (merge_streams [1; 4; 3]) k (@None unit) /\ k ≡ₚ [1; 2; 3; 4; 4; 3; 4].
Proof.
  destruct (merge_round_robin (X := unit) (range_stream 5) [1; 4; 3] [[1; 2; 3; 4]; [4]; [3; 4]] 3) as (k & _ & Hp & _ & Hy).
  - repeat constructor; [apply (range_yields 1 5)|apply (range_yields 4 5)|apply (range_yields 3 5)].
  - reflexivity.
  - simpl. lia.
  - exists k. split; [exact Hy|exact Hp].
Defined.

(** The order of the merge on the same streams. *)
Lemma merge_sample : collect_impl 9 (merge_next (X := unit) 3 (range_stream 5)) (merge_streams [1; 4; 3]) [] = Some (inl [1; 4; 3; 2; 4; 3; 4]).
Proof. done. Qed.

(** The batches of a stream. *)
Lemma buffer_sample : collect_impl 9 (buffer_next (X := unit) 9 2 (from_vector [1; 2; 3; 4; 5])) ([], 0) [] = Some (inl [[1; 2]; [3; 4]; [5]]).
Proof. done. Qed.
