(* ===== verification/Generator.v ===== *)
(** * Generators: io/async/coroutine/generator.h

    [generator] with its two ways to take values, [next()] and the iterator of a range-for, the
    functions that make generators from generators, and [async_generator::next]. The body of a
    generator is a state machine: resumed, it runs to its next [co_yield], to its end or to an
    exception that leaves it. [None] is undefined behaviour, such as the resumption of a coroutine
    that is done, or a loop that ran out of fuel. *)

From S2P Require Import Prelude.

(** What a resumption of the body comes to. *)
Inductive co (T X : Type) := Yields (x : T) | Returns | Throws (e : X).
Arguments Yields {T X} x.
Arguments Returns {T X}.
Arguments Throws {T X} e.

Definition body (B T X : Type) : Type := B -> option (B * co T X).

(** What a call gives. *)
Inductive res (T X : Type) := Value (x : T) | Nullopt | Rethrow (e : X).
Arguments Value {T X} x.
Arguments Nullopt {T X}.
Arguments Rethrow {T X} e.

(** The frame with its promise. *)
Record gen (B T X : Type) := Gen { frame : B; done : bool; current_value : option T; exception : option X }.
Arguments Gen {B T X} frame done current_value exception.
Arguments frame {B T X} _.
Arguments done {B T X} _.
Arguments current_value {B T X} _.
Arguments exception {B T X} _.

(** A generator before its first resumption. *)
Definition fresh {B T X} (b : B) : gen B T X := Gen b false None None.

(** [handle.resume()], with [yield_value], [return_void] and [unhandled_exception]. *)
Definition resume {B T X} (bd : body B T X) (g : gen B T X) : option (gen B T X) :=
  if done g then None else
  '(b, c) ← bd (frame g);
  Some match c with
       | Yields x => Gen b false (Some x) (exception g)
       | Returns => Gen b true (current_value g) (exception g)
       | Throws e => Gen b true (current_value g) (Some e)
       end.

Definition clear_exception {B T X} (g : gen B T X) : gen B T X := Gen (frame g) (done g) (current_value g) None.

(** [generator::next]; the handle of a moved-from generator is null. *)
Definition next {B T X} (bd : body B T X) (h : option (gen B T X)) : option (option (gen B T X) * res T X) :=
  match h with
  | None => Some (None, Nullopt)
  | Some g =>
      match exception g with
      | Some e => Some (Some (clear_exception g), Rethrow e)
      | None =>
          if done g then Some (Some g, Nullopt) else
          let deliver g := match current_value g with
                           | None => None
                           | Some x => g ← resume bd g; Some (Some g, Value x)
                           end in
          match current_value g with
          | Some _ => deliver g
          | None =>
              g ← resume bd g;
              match exception g with
              | Some e => Some (Some (clear_exception g), Rethrow e)
              | None => if done g then Some (Some g, Nullopt) else deliver g
              end
          end
      end
  end.

Definition has_next {B T X} (h : option (gen B T X)) : bool := match h with Some g => negb (done g) | None => false end.

(** The constructor of [iterator] and [operator++] do the same: resume, throw what the body threw, and
    become the end when the body is done. The result is the value the iterator is at, [Nullopt] for
    the end. *)
Definition advance {B T X} (bd : body B T X) (g : gen B T X) : option (gen B T X * res T X) :=
  g ← (if done g then Some g else resume bd g);
  match exception g with
  | Some e => Some (g, Rethrow e)
  | None => if done g then Some (g, Nullopt) else match current_value g with Some x => Some (g, Value x) | None => None end
  end.

Definition begin {B T X} (bd : body B T X) (h : option (gen B T X)) : option (option (gen B T X) * res T X) :=
  match h with
  | None => Some (None, Nullopt)
  | Some g => if done g then Some (Some g, Nullopt) else '(g, r) ← advance bd g; Some (Some g, r)
  end.

(** A range-for whose body is a fold: [collect_to_vector], [for_each] and [reduce]. [inr] is an
    exception. *)
Fixpoint range_for {B T X A} (fuel : nat) (bd : body B T X) (f : A -> T -> A) (g : gen B T X) (r : res T X) (acc : A) : option (A + X) :=
  match fuel with
  | O => None
  | S fuel =>
      match r with
      | Nullopt => Some (inl acc)
      | Rethrow e => Some (inr e)
      | Value x => '(g, r) ← advance bd g; range_for fuel bd f g r (f acc x)
      end
  end.

Definition reduce {B T X A} (fuel : nat) (bd : body B T X) (h : option (gen B T X)) (init : A) (f : A -> T -> A) : option (A + X) :=
  '(h, r) ← begin bd h;
  match h with Some g => range_for fuel bd f g r init | None => Some (inl init) end.

Definition collect_to_vector {B T X} (fuel : nat) (bd : body B T X) (h : option (gen B T X)) : option (list T + X) :=
  reduce fuel bd h [] (fun result x => result ++ [x]).

(** ** Generators from generators

    The state of a body that runs a range-for over another generator: before the loop, at a
    [co_yield] in its [i]th round, or after it. *)
Inductive loop (G : Type) := Start (g : G) | At (g : G) (i : Z) | Finished (g : G).
Arguments Start {G} g.
Arguments At {G} g i.
Arguments Finished {G} g.

(** How the body goes on after the source has been advanced: [u] is what the loop does with a value,
    [None] to go on with the next one. *)
Fixpoint pull {B T X U} (fuel : nat) (bd : body B T X) (u : Z -> T -> option U) (g : gen B T X) (r : res T X) (i : Z) : option (loop (gen B T X) * co U X) :=
  match fuel with
  | O => None
  | S fuel =>
      match r with
      | Nullopt => Some (Finished g, Returns)
      | Rethrow e => Some (Finished g, Throws e)
      | Value x =>
          match u i x with
          | Some y => Some (At g i, Yields y)
          | None => '(g, r) ← advance bd g; pull fuel bd u g r (i +s 1)
          end
      end
  end.

(** The resumption of [map], [filter], [skip] and [take]: [stop] is the test of [take] after a
    [co_yield], which sees the number of the value. *)
Definition loop_body {B T X U} (fuel : nat) (bd : body B T X) (u : Z -> T -> option U) (stop : Z -> bool) : body (loop (gen B T X)) U X := fun l =>
  match l with
  | Finished g => None
  | Start g => '(h, r) ← begin bd (Some g); match h with Some g => pull fuel bd u g r 0 | None => None end
  | At g i => if stop i then Some (Finished g, Returns) else '(g, r) ← advance bd g; pull fuel bd u g r (i +s 1)
  end.

(** [map], [filter] and [skip]. *)
Definition map_body {B T X U} (fuel : nat) (bd : body B T X) (f : T -> U) := loop_body fuel bd (fun _ x => Some (f x)) (fun _ => false).
Definition filter_body {B T X} (fuel : nat) (bd : body B T X) (p : T -> bool) := loop_body fuel bd (fun _ x => if p x then Some x else None) (fun _ => false).
Definition skip_body {B T X} (fuel : nat) (bd : body B T X) (count : Z) := loop_body fuel bd (fun i x => if i <? count then None else Some x) (fun _ => false).

(** [take]; a count of zero returns before the source is touched. *)
Definition take_body {B T X} (fuel : nat) (bd : body B T X) (count : Z) : body (loop (gen B T X)) T X := fun l =>
  match l with
  | Start g => if count =? 0 then Some (Finished g, Returns) else loop_body fuel bd (fun _ x => Some x) (fun i => count <=? i +s 1) l
  | _ => loop_body fuel bd (fun _ x => Some x) (fun i => count <=? i +s 1) l
  end.

(** [concat]: two loops, one after the other. *)
Definition concat_body {B B' T X} (fuel : nat) (first : body B T X) (second : body B' T X) :
  body (loop (gen B T X) * gen B' T X + loop (gen B' T X)) T X := fun st =>
  let run_second l := '(l, c) ← loop_body fuel second (fun _ x => Some x) (fun _ => false) l; Some (inr l, c) in
  match st with
  | inr l => run_second l
  | inl (l, g') =>
      '(l, c) ← loop_body fuel first (fun _ x => Some x) (fun _ => false) l;
      match c with
      | Returns => run_second (Start g')
      | c => Some (inl (l, g'), c)
      end
  end.

(** [from_range] and [from_iterator]; the state is what is left of the range. *)
Definition from_range_body {T X} : body (list T) T X :=
  fun l => match l with x :: l => Some (l, Yields x) | [] => Some ([], Returns) end.

(** [range] of integers, and [repeat_n]; the states are the next value and the number of rounds. *)
Definition range_body {X} (last : Z) : body Z Z X :=
  fun i => if i <? last then Some (i + 1, Yields i) else Some (i, Returns).

Definition repeat_n_body {T X} (value : T) (count : Z) : body Z T X :=
  fun i => if i <? count then Some (i +s 1, Yields value) else Some (i, Returns).

(** ** [async_generator::next]

    What the consumer gets when the generator has run to its next suspension for it. *)
Definition async_next {B T X} (bd : body B T X) (h : option (gen B T X)) : option (option (gen B T X) * res T X) :=
  match h with
  | None => Some (None, Nullopt)
  | Some g =>
      g ← (if done g then Some g else resume bd g);
      match exception g with
      | Some e => Some (Some (clear_exception g), Rethrow e)
      | None => if done g then Some (Some g, Nullopt) else match current_value g with Some x => Some (Some g, Value x) | None => None end
      end
  end.

(** ** What a body does *)

Section Runs.
Context {B T X : Type} (bd : body B T X).

(** From [b] the body yields the values [l] and then returns or throws, which leaves it in [b']. *)
Inductive runs : B -> list T -> option X -> B -> Prop :=
  | runs_yield b b1 x l fin b' : bd b = Some (b1, Yields x) -> runs b1 l fin b' -> runs b (x :: l) fin b'
  | runs_return b b' : bd b = Some (b', Returns) -> runs b [] None b'
  | runs_throw b e b' : bd b = Some (b', Throws e) -> runs b [] (Some e) b'.

(** A generator that is suspended and has not failed. *)
Definition live (g : gen B T X) (l : list T) (fin : option X) (b' : B) : Prop :=
  done g = false /\ exception g = None /\ runs (frame g) l fin b'.

Lemma resume_live g l fin b' : live g l fin b' ->
  exists g', resume bd g = Some g' /\
  match l with
  | x :: l => live g' l fin b' /\ current_value g' = Some x
  | [] => done g' = true /\ exception g' = fin /\ frame g' = b'
  end.
Proof.
  intros (Hd & He & Hr). unfold resume. rewrite Hd. destruct Hr as [b b1 x l fin b' Hb Hr|b b' Hb|b e b' Hb]; rewrite Hb; eexists; (split; [done|]).
  - by repeat split.
  - by repeat split.
  - by repeat split.
Qed.

(** ** [next] *)

(** The values a generator still has to give, with the one that [next] has fetched ahead. *)
Inductive holds (g : gen B T X) : list T -> option X -> Prop :=
  | holds_fresh l fin b' : live g l fin b' -> current_value g = None -> holds g l fin
  | holds_ahead x l fin b' : live g l fin b' -> current_value g = Some x -> holds g (x :: l) fin
  | holds_over fin : done g = true -> exception g = fin -> holds g [] fin.

(** The result of [next] and what is left. *)
Definition next_result (l : list T) (fin : option X) : res T X * list T * option X :=
  match l, fin with
  | x :: l, _ => (Value x, l, fin)
  | [], Some e => (Rethrow e, [], None)
  | [], None => (Nullopt, [], None)
  end.

Lemma holds_after g l fin b' : live g l fin b' -> exists g', resume bd g = Some g' /\ holds g' l fin.
Proof.
  intros Hl. destruct (resume_live g l fin b' Hl) as (g' & Hres & Hg'). exists g'. split; [done|].
  destruct l as [|x l]; [destruct Hg' as (? & ? & _); by apply holds_over|destruct Hg' as [??]; by eapply holds_ahead].
Qed.

Lemma next_holds g l fin : holds g l fin ->
  let '(r, l', fin') := next_result l fin in exists g', next bd (Some g) = Some (Some g', r) /\ holds g' l' fin'.
Proof.
  assert (forall g, done g = true -> holds (clear_exception g) [] None) as Hclear by (intros; by apply holds_over).
  intros [l0 fin0 b' Hl Hc|x l0 fin0 b' Hl Hc|fin0 Hd He]; unfold next.
  - pose proof Hl as (Hd & He & _). rewrite He, Hd, Hc. destruct (resume_live g l0 fin0 b' Hl) as (g1 & Hres & Hg1). rewrite Hres. cbn [mbind option_bind].
    destruct l0 as [|x l0]; simpl.
    + destruct Hg1 as (Hd1 & He1 & _). rewrite He1. destruct fin0 as [e|]; [eexists; split; [done|by apply Hclear]|].
      rewrite Hd1. eexists. split; [done|by apply holds_over].
    + destruct Hg1 as [Hl1 Hc1]. pose proof Hl1 as (Hd1 & He1 & _). rewrite He1, Hd1, Hc1.
      destruct (holds_after g1 _ _ _ Hl1) as (g2 & Hres2 & Hh). rewrite Hres2. eauto.
  - pose proof Hl as (Hd & He & _). rewrite He, Hd, Hc. simpl. destruct (holds_after g _ _ _ Hl) as (g2 & Hres2 & Hh). rewrite Hres2. eauto.
  - rewrite He. destruct fin0 as [e|]; simpl; [eexists; split; [done|by apply Hclear]|]. rewrite Hd. eexists. split; [done|by apply holds_over].
Qed.

(** The results of [n] calls of [next]. *)
Fixpoint nexts (n : nat) (h : option (gen B T X)) : option (list (res T X)) :=
  match n with
  | O => Some []
  | S n => '(h, r) ← next bd h; (r ::.) <$> nexts n h
  end.

(** What a consumer of [next] sees: the values, the exception once, and nothing from then on. *)
Definition seen (n : nat) (l : list T) (fin : option X) : list (res T X) :=
  resize n Nullopt ((Value <$> l) ++ (Rethrow <$> option_list fin)).

Lemma seen_S n l fin : let '(r, l', fin') := next_result l fin in seen (S n) l fin = r :: seen n l' fin'.
Proof. unfold seen. destruct l as [|x l]; [destruct fin|]; simpl; by rewrite ?resize_nil. Qed.

Lemma nexts_holds n g l fin : holds g l fin -> nexts n (Some g) = Some (seen n l fin).
Proof.
  revert g l fin. induction n as [|n IH]; intros g l fin Hh; [unfold seen; by rewrite resize_0|].
  cbn [nexts]. pose proof (next_holds g l fin Hh) as H. pose proof (seen_S n l fin) as Hs.
  destruct (next_result l fin) as [[r l'] fin']. destruct H as (g' & Hn & Hh'). rewrite Hn. cbn [mbind option_bind].
  rewrite (IH _ _ _ Hh'). simpl. by rewrite Hs.
Qed.

(** [next] gives the values of the body in order, then throws its exception once, if there is one, and
    gives nothing from then on. It never resumes a body that is done. *)
Theorem generator_next_sequence b l fin b' n : runs b l fin b' -> nexts n (Some (fresh b)) = Some (seen n l fin).
Proof. intros Hr. apply nexts_holds. by eapply holds_fresh. Qed.

(** Once the body has run, [has_next] tells exactly whether there is a value left; before it is true. *)
Lemma has_next_holds g l fin : holds g l fin -> done g = true \/ current_value g <> None -> has_next (Some g) = negb (bool_decide (l = [])).
Proof.
  unfold has_next. intros [l0 fin0 b' Hl Hc|x l0 fin0 b' Hl Hc|fin0 Hd He] Hs; [|by destruct Hl as (-> & _)|by rewrite Hd].
  destruct Hl as (Hd & _). rewrite Hc, Hd in Hs. by destruct Hs.
Qed.

Lemma resume_settled g g' : resume bd g = Some g' -> done g' = true \/ current_value g' <> None.
Proof.
  unfold resume. destruct (done g); [done|]. destruct (bd (frame g)) as [[b c]|]; simpl; [|done]. intros [= <-]. destruct c; simpl; auto.
Qed.

Lemma next_settled g g' r : next bd (Some g) = Some (Some g', r) -> exception g = None -> done g' = true \/ current_value g' <> None.
Proof.
  unfold next. intros Hn He. rewrite He in Hn. destruct (done g) eqn:Ed; [injection Hn as <- <-; by left|].
  assert (forall g1, match current_value g1 with None => None | Some x => g ← resume bd g1; Some (Some g, Value x) end = Some (Some g', r) ->
    done g' = true \/ current_value g' <> None) as Hdel.
  { intros g1. destruct (current_value g1); [|done]. destruct (resume bd g1) as [g2|] eqn:E2; [|done]. simpl. intros [= <- <-]. by eapply resume_settled. }
  destruct (current_value g) eqn:Ec; [by apply (Hdel g); rewrite Ec|]. destruct (resume bd g) as [g1|] eqn:E1; [|done]. simpl in Hn.
  destruct (exception g1); [injection Hn as <- <-; by apply resume_settled in E1|]. destruct (done g1) eqn:Ed1; [injection Hn as <- <-; by left|]. by apply (Hdel g1).
Qed.

(** ** Range-for *)

Lemma advance_live g l fin b' : live g l fin b' ->
  exists g', advance bd g = Some (g', (next_result l fin).1.1) /\
  match l with x :: l => live g' l fin b' | [] => frame g' = b' end.
Proof.
  intros Hl. unfold advance. pose proof Hl as (Hd & _ & _). rewrite Hd. destruct (resume_live g l fin b' Hl) as (g' & Hres & Hg'). rewrite Hres. cbn [mbind option_bind].
  destruct l as [|x l]; simpl.
  - destruct Hg' as (Hd' & He' & Hf). rewrite He'. destruct fin as [e|]; simpl; [by exists g'|]. rewrite Hd'. by exists g'.
  - destruct Hg' as [Hl' Hc']. pose proof Hl' as (Hd' & He' & _). rewrite He', Hd', Hc'. by exists g'.
Qed.

Lemma range_for_live {A} (f : A -> T -> A) g l fin b' fuel acc : live g l fin b' -> (S (length l) <= fuel)%nat ->
  ('(g, r) ← advance bd g; range_for fuel bd f g r acc) = Some (match fin with None => inl (fold_left f l acc) | Some e => inr e end).
Proof.
  revert g fuel acc. induction l as [|x l IH]; intros g fuel acc Hl Hf; destruct (advance_live g _ _ _ Hl) as (g' & Ha & Hg'); rewrite Ha;
    cbn [mbind option_bind]; (destruct fuel as [|fuel]; [simpl in Hf; lia|]).
  - by destruct fin.
  - simpl. apply IH; [done|simpl in Hf; lia].
Qed.

Lemma reduce_live {A} (f : A -> T -> A) g l fin b' fuel acc : live g l fin b' -> (S (length l) <= fuel)%nat ->
  reduce fuel bd (Some g) acc f = Some (match fin with None => inl (fold_left f l acc) | Some e => inr e end).
Proof.
  intros Hl Hf. unfold reduce, begin. pose proof Hl as (Hd & _ & _). rewrite Hd. rewrite <- (range_for_live f g l fin b' fuel acc Hl Hf).
  by destruct (advance bd g) as [[g' r]|].
Qed.

Lemma fold_app l (acc : list T) : fold_left (fun result x => result ++ [x]) l acc = acc ++ l.
Proof. revert acc. induction l as [|x l IH]; intros acc; simpl; [by rewrite app_nil_r|]. by rewrite IH, <- app_assoc. Qed.

Lemma collect_live g l fin b' fuel : live g l fin b' -> (S (length l) <= fuel)%nat ->
  collect_to_vector fuel bd (Some g) = Some (match fin with None => inl l | Some e => inr e end).
Proof. intros Hl Hf. unfold collect_to_vector. rewrite (reduce_live _ g l fin b' fuel [] Hl Hf). by rewrite fold_app. Qed.

(** A range-for over a generator runs over the values of the body in order and throws what the body
    throws. *)
Theorem generator_range_for b l fin b' fuel : runs b l fin b' -> (S (length l) <= fuel)%nat ->
  collect_to_vector fuel bd (Some (fresh b)) = Some (match fin with None => inl l | Some e => inr e end).
Proof. intros Hr Hf. by apply (collect_live _ l fin b'). Qed.

(** A range-for after a call of [next] misses the value that [next] fetched ahead. *)
Theorem range_for_after_next b x y l fin b' fuel : runs b (x :: y :: l) fin b' -> (S (length l) <= fuel)%nat ->
  exists g, next bd (Some (fresh b)) = Some (Some g, Value x) /\
    collect_to_vector fuel bd (Some g) = Some (match fin with None => inl l | Some e => inr e end).
Proof.
  intros Hr Hf. inversion Hr as [? b1 ? ? ? ? Hb1 Hr1| |]; subst. inversion Hr1 as [? b2 ? ? ? ? Hb2 Hr2| |]; subst.
  exists (Gen b2 false (Some y) None). split; [unfold next, resume; simpl; rewrite Hb1; simpl; rewrite Hb2; done|].
  by apply (collect_live _ l fin b').
Qed.

(** When the body throws after a value, [has_next] is false and a range-for ends as if there were no
    exception, once [next] has given the value. *)
Theorem has_next_hides_exception b x e b' fuel : runs b [x] (Some e) b' ->
  exists g, next bd (Some (fresh b)) = Some (Some g, Value x) /\ exception g = Some e /\
    has_next (Some g) = false /\ collect_to_vector (S fuel) bd (Some g) = Some (inl []).
Proof.
  intros Hr. inversion Hr as [? b1 ? ? ? ? Hb1 Hr1| |]; subst. inversion Hr1 as [| |? ? ? Hb2]; subst.
  exists (Gen b' true (Some x) (Some e)). split; [unfold next, resume; simpl; rewrite Hb1; simpl; rewrite Hb2; done|]. done.
Qed.
End Runs.

(** ** Generators over generators *)

Section Loops.
Context {B T X U : Type} (bd : body B T X).
Variable fuel : nat.

(** What a loop with the body [u] yields from the values [l], the first of which has number [i]. *)
Fixpoint selected (u : Z -> T -> option U) (i : Z) (l : list T) : list U :=
  match l with
  | [] => []
  | x :: l => option_list (u i x) ++ selected u (i + 1) l
  end.

(** The source is advanced until a value is yielded. *)
Lemma pull_live u g l fin b' i n : live bd g l fin b' -> (S (length l) <= n)%nat -> 0 <= i -> i + zlen l < 2 ^ 64 ->
  exists st c, ('(g, r) ← advance bd g; pull n bd u g r i) = Some (st, c) /\
  match selected u i l with
  | y :: ys => c = Yields y /\ exists g' j l', st = At g' j /\ live bd g' l' fin b' /\ selected u (j + 1) l' = ys /\
      i <= j /\ j + 1 + zlen l' = i + zlen l
  | [] => (exists g', st = Finished g' /\ frame g' = b') /\ c = match fin with None => Returns | Some e => Throws e end
  end.
Proof.
  revert g i n. induction l as [|x l IH]; intros g i n Hl Hn Hi Hb; destruct (advance_live bd g _ _ _ Hl) as (g' & Ha & Hg'); rewrite Ha;
    cbn [mbind option_bind]; (destruct n as [|n]; [simpl in Hn; lia|]).
  - destruct fin as [e|]; simpl; eexists _, _; (split; [done|]); eauto.
  - simpl. unfold zlen in Hb. simpl in Hb. destruct (u i x) as [y|] eqn:Eu; simpl.
    + eexists _, _. split; [done|]. split; [done|]. exists g', i, l. split; [done|]. split; [done|]. split; [done|]. unfold zlen. simpl. lia.
    + rewrite u64_small by (unfold zlen in *; lia). destruct (IH g' (i + 1) n Hg') as (st & c & Hst & Hm); [simpl in Hn; lia|lia|unfold zlen; lia|].
      exists st, c. split; [done|]. destruct (selected u (i + 1) l) as [|y ys]; [done|].
      destruct Hm as (Hc & g2 & j & l2 & H1 & H2 & H3 & H4 & H5). split; [done|]. exists g2, j, l2. unfold zlen in *. simpl. split; [done|]. split; [done|]. split; [done|]. lia.
Qed.

Lemma loop_at u g i l fin b' : live bd g l fin b' -> (S (length l) <= fuel)%nat -> 0 <= i -> i + 1 + zlen l < 2 ^ 64 ->
  exists st, runs (loop_body fuel bd u (fun _ => false)) (At g i) (selected u (i + 1) l) fin st.
Proof.
  remember (length l) as n eqn:En. revert g i l En. induction n as [n IH] using lt_wf_ind. intros g i l -> Hl Hf Hi Hb.
  destruct (pull_live u g l fin b' (i + 1) fuel Hl Hf) as (st & c & Hst & Hm); [lia|lia|].
  assert (loop_body fuel bd u (fun _ => false) (At g i) = Some (st, c)) as Hcall by (simpl; rewrite (u64_small (i + 1)) by (pose proof (zlen_nonneg l); lia); done).
  destruct (selected u (i + 1) l) as [|y ys] eqn:Es.
  - destruct Hm as [_ ->]. exists st. destruct fin; by constructor.
  - destruct Hm as (-> & g' & j & l' & -> & Hl' & <- & Hj & Hlen). unfold zlen in *.
    destruct (IH (length l')) with (g := g') (i := j) (l := l') as [st Hst']; [lia|done|done|lia|lia|unfold zlen; lia|].
    exists st. by eapply runs_yield.
Qed.

Lemma loop_start u g l fin b' : live bd g l fin b' -> (S (length l) <= fuel)%nat -> 1 + zlen l < 2 ^ 64 ->
  exists st, runs (loop_body fuel bd u (fun _ => false)) (Start g) (selected u 0 l) fin st.
Proof.
  intros Hl Hf Hb. destruct (pull_live u g l fin b' 0 fuel Hl Hf) as (st & c & Hst & Hm); [lia|lia|].
  assert (loop_body fuel bd u (fun _ => false) (Start g) = Some (st, c)) as Hcall.
  { simpl. pose proof Hl as (Hd & _). rewrite Hd. destruct (advance bd g) as [[g' r]|]; done. }
  destruct (selected u 0 l) as [|y ys] eqn:Es.
  - destruct Hm as [_ ->]. exists st. destruct fin; by constructor.
  - destruct Hm as (-> & g' & j & l' & -> & Hl' & <- & Hj & Hlen). unfold zlen in *.
    destruct (loop_at u g' j l' fin b') as [st Hst']; [done|lia|lia|unfold zlen; lia|]. exists st. by eapply runs_yield.
Qed.
End Loops.

Section Take.
Context {B T X : Type} (bd : body B T X).

Lemma take_at fuel count g i l fin b' : live bd g l fin b' -> (2 <= fuel)%nat -> 0 <= i < count -> count < 2 ^ 63 ->
  exists st, runs (take_body fuel bd count) (At g i) (take (Z.to_nat (count - i - 1)) l) (if zlen l <? count - i - 1 then fin else None) st /\
    (count - i - 1 <= zlen l -> exists g', st = Finished g' /\ live bd g' (drop (Z.to_nat (count - i - 1)) l) fin b').
Proof.
  revert g i. induction l as [|x l IH]; intros g i Hl Hf Hi Hb.
  - rewrite take_nil, drop_nil, zlen_nil. destruct (Z.ltb_spec 0 (count - i - 1)) as [Hlt|Hge].
    + destruct (advance_live bd g _ _ _ Hl) as (g' & Ha & Hg'). exists (Finished g'). split; [|lia].
      assert (take_body fuel bd count (At g i) = Some (Finished g', match fin with None => Returns | Some e => Throws e end)) as Hcall.
      { simpl. rewrite (u64_small (i + 1)) by lia. rewrite (proj2 (Z.leb_gt count (i + 1))) by lia. rewrite Ha. destruct fuel; [lia|]. by destruct fin. }
      destruct fin; by constructor.
    + exists (Finished g). split; [|intros _; by exists g]. apply runs_return. simpl. rewrite (u64_small (i + 1)) by lia.
      by rewrite (proj2 (Z.leb_le count (i + 1))) by lia.
  - destruct (Z.ltb_spec 0 (count - i - 1)) as [Hlt|Hge].
    + destruct (advance_live bd g _ _ _ Hl) as (g' & Ha & Hg'). destruct (IH g' (i + 1) Hg' Hf) as (st & Hr & Hst); [lia|lia|].
      replace (count - (i + 1) - 1) with (count - i - 1 - 1) in * by lia.
      exists st. replace (Z.to_nat (count - i - 1)) with (S (Z.to_nat (count - i - 1 - 1))) by lia. simpl. split.
      * replace (zlen (x :: l) <? count - i - 1) with (zlen l <? count - i - 1 - 1)
          by (unfold zlen; simpl; destruct (Z.ltb_spec (Z.of_nat (length l)) (count - i - 1 - 1)); symmetry; zcase; lia || done).
        eapply runs_yield; [|exact Hr]. simpl. rewrite (u64_small (i + 1)) by lia. rewrite (proj2 (Z.leb_gt count (i + 1))) by lia. rewrite Ha.
        destruct fuel; [lia|]. done.
      * intros Hle. apply Hst. unfold zlen in *. simpl in Hle. lia.
    + replace (Z.to_nat (count - i - 1)) with 0%nat by lia. pose proof (zlen_nonneg (x :: l)). rewrite (proj2 (Z.ltb_ge (zlen (x :: l)) (count - i - 1))) by lia.
      exists (Finished g). split; [|intros _; by exists g]. apply runs_return. simpl. rewrite (u64_small (i + 1)) by lia.
      by rewrite (proj2 (Z.leb_le count (i + 1))) by lia.
Qed.

(** [take] yields the first [count] values and then returns; when there are that many, it leaves the
    source suspended right behind them: no further value has been produced. With fewer values it ends
    as the source does. *)
Theorem take_pulls_exactly fuel count b l fin b' : runs bd b l fin b' -> (2 <= fuel)%nat -> 0 <= count < 2 ^ 63 ->
  exists st, runs (take_body fuel bd count) (Start (fresh b)) (take (Z.to_nat count) l) (if zlen l <? count then fin else None) st /\
    (count <= zlen l -> exists g, st = Finished g /\ live bd g (drop (Z.to_nat count) l) fin b').
Proof.
  intros Hr Hf Hc. assert (live bd (fresh b) l fin b') as Hl by done. destruct (Z.eqb_spec count 0) as [-> |Hne].
  - pose proof (zlen_nonneg l). rewrite (proj2 (Z.ltb_ge (zlen l) 0)) by lia. exists (Finished (fresh b)). split; [by apply runs_return|]. intros _. by exists (fresh b).
  - destruct (advance_live bd _ _ _ _ Hl) as (g' & Ha & Hg').
    assert (take_body fuel bd count (Start (fresh b)) = '(g, r) ← advance bd (fresh b); pull fuel bd (fun _ x => Some x) g r 0) as Hcall.
    { simpl. rewrite (proj2 (Z.eqb_neq count 0)) by done. by destruct (advance bd (fresh b)) as [[g r]|]. }
    rewrite Ha in Hcall. cbn [mbind option_bind] in Hcall. destruct fuel as [|fuel]; [lia|]. destruct l as [|x l].
    + rewrite take_nil, zlen_nil. rewrite (proj2 (Z.ltb_lt 0 count)) by lia. exists (Finished g'). split; [|lia].
      destruct fin; by constructor.
    + destruct (take_at (S fuel) count g' 0 l fin b' Hg') as (st & Hrun & Hst); [lia|lia|lia|]. exists st.
      replace (count - 0 - 1) with (count - 1) in * by lia. replace (Z.to_nat count) with (S (Z.to_nat (count - 1))) by lia. simpl. split.
      * replace (zlen (x :: l) <? count) with (zlen l <? count - 1)
          by (unfold zlen; simpl; destruct (Z.ltb_spec (Z.of_nat (length l)) (count - 1)); symmetry; zcase; lia || done).
        eapply runs_yield; [by rewrite Hcall|exact Hrun].
      * intros Hle. apply Hst. unfold zlen in *. simpl in Hle. lia.
Qed.
End Take.

(** ** The functions on lists *)

Section Selections.
Context {B T X : Type} (bd : body B T X).

Lemma selected_map {U} (f : T -> U) i l : selected (fun _ x => Some (f x)) i l = f <$> l.
Proof. revert i. induction l as [|x l IH]; intros i; simpl; [done|]. by rewrite IH. Qed.

Lemma selected_filter (p : T -> bool) i l : selected (fun _ x => if p x then Some x else None) i l = filter (fun x => p x = true) l.
Proof.
  revert i. induction l as [|x l IH]; intros i; simpl; [done|]. rewrite filter_cons, IH. by destruct (p x).
Qed.

Lemma selected_skip count i (l : list T) : 0 <= i -> selected (fun i x => if i <? count then None else Some x) i l = drop (Z.to_nat (count - i)) l.
Proof.
  revert i. induction l as [|x l IH]; intros i Hi; simpl; [by rewrite drop_nil|]. rewrite IH by lia. destruct (Z.ltb_spec i count); simpl.
  - replace (Z.to_nat (count - i)) with (S (Z.to_nat (count - (i + 1)))) by lia. done.
  - replace (Z.to_nat (count - i)) with 0%nat by lia. replace (Z.to_nat (count - (i + 1))) with 0%nat by lia. by rewrite !drop_0.
Qed.

(** [map], [filter] and [skip] of a generator yield what the functions on lists give for the values of
    the source, and end as the source ends, with its exception if it throws. *)
Theorem generator_algebra {U} fuel (f : T -> U) (p : T -> bool) count b l fin b' :
  runs bd b l fin b' -> (S (length l) <= fuel)%nat -> 1 + zlen l < 2 ^ 64 ->
  (exists st, runs (map_body fuel bd f) (Start (fresh b)) (f <$> l) fin st) /\
  (exists st, runs (filter_body fuel bd p) (Start (fresh b)) (filter (fun x => p x = true) l) fin st) /\
  (exists st, runs (skip_body fuel bd count) (Start (fresh b)) (drop (Z.to_nat count) l) fin st).
Proof.
  intros Hr Hf Hb. assert (live bd (fresh b) l fin b') as Hl by done. split; [|split].
  - rewrite <- (selected_map f 0). by eapply loop_start.
  - rewrite <- (selected_filter p 0). by eapply loop_start.
  - replace (Z.to_nat count) with (Z.to_nat (count - 0)) by (f_equal; lia). rewrite <- (selected_skip count 0) by lia. by eapply loop_start.
Qed.

(** ** [async_generator] *)

Lemma async_next_live g l fin b' : live bd g l fin b' ->
  let '(r, l', fin') := next_result l fin in exists g', async_next bd (Some g) = Some (Some g', r) /\
    match l with x :: l => live bd g' l fin b' | [] => done g' = true /\ exception g' = None end.
Proof.
  intros Hl. unfold async_next. pose proof Hl as (Hd & _ & _). rewrite Hd. destruct (resume_live bd g l fin b' Hl) as (g' & Hres & Hg'). rewrite Hres.
  cbn [mbind option_bind]. destruct l as [|x l]; simpl.
  - destruct Hg' as (Hd' & He' & _). rewrite He'. destruct fin as [e|]; simpl; [by eexists|]. rewrite Hd'. eexists. done.
  - destruct Hg' as [Hl' Hc']. pose proof Hl' as (Hd' & He' & _). rewrite He', Hd', Hc'. by exists g'.
Qed.

Fixpoint async_nexts (n : nat) (h : option (gen B T X)) : option (list (res T X)) :=
  match n with
  | O => Some []
  | S n => '(h, r) ← async_next bd h; (r ::.) <$> async_nexts n h
  end.

Lemma async_nexts_over n g : done g = true -> exception g = None -> async_nexts n (Some g) = Some (seen n [] None).
Proof.
  intros Hd He. assert (async_next bd (Some g) = Some (Some g, Nullopt)) as Ha by (unfold async_next; rewrite Hd; simpl; by rewrite He, Hd).
  unfold seen. simpl. rewrite resize_nil. induction n as [|n IH]; [done|]. cbn [async_nexts]. rewrite Ha. simpl. by rewrite IH.
Qed.

(** [async_generator::next] gives the same sequence as [generator::next], without fetching ahead. *)
Theorem async_next_sequence b l fin b' n : runs bd b l fin b' -> async_nexts n (Some (fresh b)) = Some (seen n l fin) /\
  nexts bd n (Some (fresh b)) = async_nexts n (Some (fresh b)).
Proof.
  intros Hr. assert (forall n g l, live bd g l fin b' -> async_nexts n (Some g) = Some (seen n l fin)) as H.
  { clear. induction n as [|n IH]; intros g l Hl; [unfold seen; by rewrite resize_0|]. cbn [async_nexts]. pose proof (async_next_live g l fin b' Hl) as Hn.
    pose proof (seen_S n l fin) as Hs. destruct (next_result l fin) as [[r l'] fin'] eqn:Er. destruct Hn as (g' & Hc & Hg'). rewrite Hc. cbn [mbind option_bind].
    rewrite Hs. destruct l as [|x l]; simpl in Er.
    - destruct Hg' as [Hd He]. rewrite (async_nexts_over n g' Hd He). destruct fin; by injection Er as <- <- <-.
    - injection Er as <- <- <-. by rewrite (IH g' l Hg'). }
  rewrite (H n (fresh b) l) by done. split; [done|]. apply nexts_holds. by eapply holds_fresh.
Qed.
End Selections.

(** ** Sources and [concat] *)

Lemma from_range_runs {T X} (l : list T) : runs (X := X) from_range_body l l None [].
Proof. induction l as [|x l IH]; [by apply runs_return|]. by eapply runs_yield. Qed.

Lemma range_runs {X} a b : runs (X := X) (range_body b) a (seqZ a (b - a)) None (Z.max a b).
Proof.
  remember (Z.to_nat (b - a)) as n eqn:En. revert a En. induction n as [|n IH]; intros a En.
  - rewrite seqZ_nil by lia. apply runs_return. unfold range_body. rewrite (proj2 (Z.ltb_ge a b)) by lia. by rewrite Z.max_l by lia.
  - rewrite seqZ_cons by lia. eapply runs_yield; [unfold range_body; by rewrite (proj2 (Z.ltb_lt a b)) by lia|].
    replace (Z.succ a) with (a + 1) by lia. replace (Z.pred (b - a)) with (b - (a + 1)) by lia. replace (Z.max a b) with (Z.max (a + 1) b) by lia. apply IH. lia.
Qed.

Lemma repeat_n_runs {T X} (v : T) count i : 0 <= i <= count -> count < 2 ^ 64 -> runs (X := X) (repeat_n_body v count) i (replicate (Z.to_nat (count - i)) v) None count.
Proof.
  intros Hi Hc. remember (Z.to_nat (count - i)) as n eqn:En. revert i Hi En. induction n as [|n IH]; intros i Hi En.
  - assert (i = count) as -> by lia. apply runs_return. unfold repeat_n_body. by rewrite Z.ltb_irrefl.
  - eapply runs_yield; [unfold repeat_n_body; by rewrite (proj2 (Z.ltb_lt i count)) by lia|]. rewrite u64_small by lia. apply IH; lia.
Qed.

Section Concat.
Context {B B' T X : Type} (bd : body B T X) (bd' : body B' T X).
Variable fuel : nat.

Lemma concat_second l ys fin st : runs (loop_body fuel bd' (fun _ x => Some x) (fun _ => false)) l ys fin st ->
  runs (concat_body fuel bd bd') (inr l) ys fin (inr st).
Proof.
  induction 1 as [b b1 x l fin b' Hb Hr IH|b b' Hb|b e b' Hb]; [eapply runs_yield; [|exact IH]|apply runs_return|apply runs_throw]; simpl; by rewrite Hb.
Qed.

Lemma concat_first l g' xs fin st : runs (loop_body fuel bd (fun _ x => Some x) (fun _ => false)) l xs fin st ->
  match fin with
  | Some _ => runs (concat_body fuel bd bd') (inl (l, g')) xs fin (inl (st, g'))
  | None => forall ys fin' st', runs (loop_body fuel bd' (fun _ x => Some x) (fun _ => false)) (Start g') ys fin' st' ->
      runs (concat_body fuel bd bd') (inl (l, g')) (xs ++ ys) fin' (inr st')
  end.
Proof.
  induction 1 as [b b1 x l fin b' Hb Hr IH|b b' Hb|b e b' Hb].
  - destruct fin as [e|]; [|intros ys fin' st' Hs; simpl]; (eapply runs_yield; [simpl; by rewrite Hb|]); [done|by apply IH].
  - intros ys fin' st' Hs. apply concat_second in Hs. simpl app.
    assert (concat_body fuel bd bd' (inl (b, g')) = concat_body fuel bd bd' (inr (Start g'))) as Heq by (unfold concat_body; by rewrite Hb).
    inversion Hs as [? ? ? ? ? ? Hc Hs'|? ? Hc|? ? ? Hc]; subst;
      [eapply runs_yield; [|exact Hs']|apply runs_return|apply runs_throw]; by rewrite Heq.
  - apply runs_throw. simpl. by rewrite Hb.
Qed.

(** [concat] yields the values of the first generator and then those of the second. *)
Theorem concat_appends b l b1 c l' fin c1 : runs bd b l None b1 -> runs bd' c l' fin c1 -> (S (length l) <= fuel)%nat -> (S (length l') <= fuel)%nat ->
  1 + zlen l < 2 ^ 64 -> 1 + zlen l' < 2 ^ 64 ->
  exists st, runs (concat_body fuel bd bd') (inl (Start (fresh b), fresh c)) (l ++ l') fin st.
Proof.
  intros Hr Hr' Hf Hf' Hb Hb'.
  destruct (loop_start bd fuel (fun _ x => Some x) (fresh b) l None b1) as [st Hst]; [done|done|done|].
  destruct (loop_start bd' fuel (fun _ x => Some x) (fresh c) l' fin c1) as [st' Hst']; [done|done|done|].
  rewrite (selected_map id), list_fmap_id in Hst, Hst'. exists (inr st'). by apply (concat_first _ _ _ None st).
Qed.
End Concat.

Lemma generator_next_sequence_witness : nexts (X := unit) (range_body 3) 5 (Some (fresh 1)) = Some [Value 1; Value 2; Nullopt; Nullopt; Nullopt].
Proof. apply (generator_next_sequence (range_body 3) 1 [1; 2] None 3 5). apply (range_runs 1 3). Defined.

Lemma take_pulls_exactly_witness : exists st, runs (take_body (X := unit) 2 (range_body 9) 2) (Start (fresh 1)) [1; 2] None st /\
  exists g, st = Finished g /\ live (range_body 9) g [3; 4; 5; 6; 7; 8] None 9.
Proof.
  destruct (take_pulls_exactly (X := unit) (range_body 9) 2 2 1 [1; 2; 3; 4; 5; 6; 7; 8] None 9) as (st & Hr & Hst).
  - apply (range_runs 1 9).
  - lia.
  - lia.
  - exists st. split; [exact Hr|]. apply Hst. unfold zlen. simpl. lia.
Defined.

(** The value that [next] fetched is missing from the range-for. *)
Lemma range_for_after_next_witness : exists g, next (X := unit) (range_body 4) (Some (fresh 1)) = Some (Some g, Value 1) /\
  collect_to_vector 3 (range_body 4) (Some g) = Some (inl [3]).
Proof. apply (range_for_after_next (range_body 4) 1 1 2 [3] None 4 3); [apply (range_runs 1 4)|simpl; lia]. Defined.

(** A body that throws after its first value. *)
Definition failing_body : body Z Z Z := fun i => if i =? 1 then Some (2, Yields 1) else Some (i, Throws 7).

Lemma has_next_hides_exception_witness : exists g, next failing_body (Some (fresh 1)) = Some (Some g, Value 1) /\ exception g = Some 7 /\
  has_next (Some g) = false /\ collect_to_vector 1 failing_body (Some g) = Some (inl []).
Proof.
  apply (has_next_hides_exception failing_body 1 1 7 2 0). eapply runs_yield; [reflexivity|]. apply runs_throw. reflexivity.
Defined.

(** An empty generator that has not run says that it has a value. *)
Lemma has_next_on_empty : let g := fresh 1 in has_next (T := Z) (X := unit) (Some g) = true /\ (exists h, next (range_body 0) (Some g) = Some (h, Nullopt)).
Proof. split; [done|]. by eexists. Qed.
