(* ===== verification/Cancellation.v ===== *)
(** * Cancellable operations: io/async/coroutine/cancellation.h

    The awaiters that a cancellation token wakes: [check_cancelled], [make_cancellable],
    [cancellable_sleep] and the timeout branch of [with_deadline]. Each has a state shared with the hook
    that is registered with the token, and all but the first a helper coroutine (the runner of the wrapped
    task, or a timer). The frame of a coroutine that is parked inside the task wrapped by
    [make_cancellable] is destroyed with that task, and its awaiter with it; a cancellation runs hooks that
    have been moved out of the token, so hooks run for awaiters that an earlier hook has destroyed. The
    specialisation for tasks of type void is the same, with a value that carries nothing. *)

From S2P Require Import Prelude Ask.

Section Cancellation.
Context {V E : Type}.

(** How a wrapped task ends. *)
Definition outcome := (V + E)%type.

(** The awaiters; [Op] has [throw_on_cancel], [Deadline] whether the deadline has passed. *)
Inductive kind := Check | Op (throw_on_cancel : bool) | Sleep | Deadline (late : bool).

#[export] Instance cancel_kind_eq_dec : EqDecision kind.
Proof. solve_decision. Defined.

(** What a coroutine gets from its awaiter: nothing, a [cancelled_error], what the wrapped task gave, the
    result of the timeout branch, or the [logic_error] of a wrapped task that gave nothing. *)
Inductive got := GotUnit | GotCancelled | GotOutcome (r : outcome) | GotInt (z : Z) | GotLogicError.

(** The state shared with the hook: [task_done], [resumed], [completed], or that [_alive] is false;
    whether [runner_handle] or [timer_handle] is set; [result] of a wrapped task or of a timeout. *)
Record shared_state := Shared { sh_kind : kind; done : bool; handle : bool; result : option outcome; code : Z }.

(** An awaiter in the frame of a parked coroutine: whether it has a token that is not empty, its
    registration, and the [make_cancellable] whose task its coroutine belongs to. *)
Record awaiter := Aw { has_token : bool; cancel_id : Z; parent : option Z }.

(** One token; the parked coroutines, the shared states, the helpers the scheduler owns and the ready
    queue. [fresh] numbers the coroutines. Ghost: [wild] is set when a frame that is not parked is
    scheduled, [wakes] logs every coroutine that is scheduled. *)
Record sys := Sys {
  tok : token;
  aw : gmap Z awaiter;
  shared : gmap Z shared_state;
  helpers : gset Z;
  ready : list Z;
  fresh : Z;
  wild : bool;
  wakes : list Z
}.

Definition sys_new : sys := Sys token_new ∅ ∅ ∅ [] 0 false [].

Definition with_tok (t : token) (s : sys) : sys := Sys t (aw s) (shared s) (helpers s) (ready s) (fresh s) (wild s) (wakes s).
Definition with_shared (w : Z) (x : shared_state) (s : sys) : sys :=
  Sys (tok s) (aw s) (<[w := x]> (shared s)) (helpers s) (ready s) (fresh s) (wild s) (wakes s).
Definition with_helpers (h : gset Z) (s : sys) : sys := Sys (tok s) (aw s) (shared s) h (ready s) (fresh s) (wild s) (wakes s).

(** [schedule_via_current]. *)
Definition schedule (w : Z) (s : sys) : sys :=
  Sys (tok s) (aw s) (shared s) (helpers s) (if decide (w ∈ ready s) then ready s else ready s ++ [w]) (fresh s)
    (wild s || bool_decide (aw s !! w = None)) (wakes s ++ [w]).

(** [cancel_spawned(std::exchange(handle, {}))]. *)
Definition reclaim_helper (w : Z) (x : shared_state) (s : sys) : sys :=
  if handle x then with_helpers (helpers s ∖ {[w]}) (with_shared w (Shared (sh_kind x) (done x) false (result x) (code x)) s)
  else with_shared w x s.

Definition resolved (x : shared_state) : shared_state := Shared (sh_kind x) true (handle x) (result x) (code x).

(** [~cancellable_sleep_awaiter] and [~with_deadline_timeout_awaiter] after the hook is removed. *)
Definition sleep_end (w : Z) (x : shared_state) (s : sys) : sys := reclaim_helper w (resolved x) s.
Definition deadline_end (w : Z) (x : shared_state) (s : sys) : sys := reclaim_helper w (resolved x) s.

(** The frame goes, and the scheduler forgets it. *)
Definition drop_frame (w : Z) (s : sys) : sys :=
  Sys (tok s) (delete w (aw s)) (shared s) (helpers s) (filter (fun x => x <> w) (ready s)) (fresh s) (wild s) (wakes s).

(** The coroutines parked in the task that [w] wraps. *)
Definition children (w : Z) (s : sys) : list Z :=
  (map_to_list (filter (fun p => parent p.2 = Some w) (aw s))).*1.

(** The destructors of the awaiters, and of the frames of the task a [make_cancellable] wraps. *)
Fixpoint end_await (fuel : nat) (w : Z) (s : sys) : sys :=
  match fuel with
  | O => s
  | S fuel =>
      match aw s !! w, shared s !! w with
      | Some a, Some x =>
          let s := if has_token a then with_tok (remove_on_cancel (cancel_id a) (tok s)) s else s in
          let s :=
            match sh_kind x with
            | Check => with_shared w (resolved x) s
            | Op _ =>
                if done x then s else
                let s := reclaim_helper w (resolved x) s in
                fold_left (fun s c => end_await fuel c s) (children w s) s
            | Sleep => sleep_end w x s
            | Deadline _ => deadline_end w x s
            end in
          drop_frame w s
      | _, _ => s
      end
  end.

(** A child is newer than its parent, so [fresh] minus the number of the coroutine bounds the depth. *)
Definition destroy (w : Z) (s : sys) : sys := end_await (Z.to_nat (fresh s - w)) w s.

(** [s->inner_task = task<T>{}]. *)
Definition drop_inner (w : Z) (s : sys) : sys := fold_left (fun s c => destroy c s) (children w s) s.

(** The hooks that the awaiters register, for an awaiter that has not been resolved. *)
Definition check_hook (w : Z) (s : sys) : sys := schedule w s.
Definition op_hook (w : Z) (x : shared_state) (s : sys) : sys := schedule w (drop_inner w (reclaim_helper w (resolved x) s)).
Definition sleep_hook (w : Z) (x : shared_state) (s : sys) : sys := schedule w (reclaim_helper w (resolved x) s).
Definition deadline_hook (w : Z) (x : shared_state) (s : sys) : sys :=
  schedule w (reclaim_helper w (Shared (sh_kind x) true (handle x) (result x) 1) s).

(** The hook of [w] that the token calls. *)
Definition hook (w : Z) (s : sys) : sys :=
  match shared s !! w with
  | None => s
  | Some x =>
      if done x then s else
      match sh_kind x with
      | Check => check_hook w s
      | Op _ => op_hook w x s
      | Sleep => sleep_hook w x s
      | Deadline _ => deadline_hook w x s
      end
  end.

(** [cancel]. *)
Definition cancel (s : sys) : sys :=
  if cancelled (tok s) then s else
  fold_left (fun s c => hook c.2 s) (callbacks (tok s)) (with_tok (Token true (next_id (tok s)) []) s).

Definition is_cancelled (t : bool) (s : sys) : bool := t && cancelled (tok s).

(** [await_ready]. *)
Definition await_ready (k : kind) (t : bool) (s : sys) : bool :=
  match k with Op throw => is_cancelled t s && throw | _ => is_cancelled t s end.

(** [on_cancel] of a token that is not cancelled. *)
Definition register (t : bool) (w : Z) (s : sys) : Z * sys :=
  if t then let '(id, c) := token_add w (tok s) in (id, with_tok c s) else (0, s).

(** [await_suspend] of the coroutine [fresh s]. *)
Definition await_suspend (k : kind) (t : bool) (p : option Z) (s : sys) : sys :=
  let w := fresh s in
  let '(id, s) := match k with Op false => (0, s) | _ => register t w s end in
  let late := match k with Deadline true => true | _ => false end in
  let helper := match k with Check | Deadline true => false | _ => true end in
  let s := Sys (tok s) (<[w := Aw t id p]> (aw s)) (<[w := Shared k late helper None 0]> (shared s))
             (if helper then {[w]} ∪ helpers s else helpers s) (ready s) (w + 1) (wild s) (wakes s) in
  if late then schedule w s else s.

(** The helper of [w] ends: [task_runner] with the outcome of the task, or a timer. *)
Definition helper_ends (w : Z) (r : outcome) (s : sys) : sys :=
  match shared s !! w with
  | None => s
  | Some x =>
      let s := with_helpers (helpers s ∖ {[w]}) s in
      let x := match sh_kind x with Op _ => Shared (sh_kind x) (done x) (handle x) (Some r) (code x)
               | _ => Shared (sh_kind x) (done x) false (result x) (code x) end in
      let s := with_shared w x s in
      if done x then s else schedule w (with_shared w (resolved x) s)
  end.

(** [await_resume]. *)
Definition await_resume (t : bool) (x : shared_state) (s : sys) : got :=
  match sh_kind x with
  | Check | Sleep => if is_cancelled t s then GotCancelled else GotUnit
  | Op throw =>
      if is_cancelled t s && throw then GotCancelled
      else match result x with Some r => GotOutcome r | None => GotLogicError end
  | Deadline _ => GotInt (code x)
  end.

(** The scheduler resumes the next coroutine; the awaiter ends with the expression. *)
Definition resume (s : sys) : sys * option (Z * got) :=
  match ready s with
  | [] => (s, None)
  | w :: q =>
      let s := Sys (tok s) (aw s) (shared s) (helpers s) q (fresh s) (wild s) (wakes s) in
      match aw s !! w, shared s !! w with
      | Some a, Some x => (destroy w s, Some (w, await_resume (has_token a) x s))
      | _, _ => (s, None)
      end
  end.

(** [with_deadline] with the branch that wins [when_any]: the operation, or the timeout with its result;
    [passed] is whether the deadline has passed before it starts. *)
Inductive deadline_error := TimeoutError | CancelledError.

Definition with_deadline (passed : bool) (winner : outcome + Z) : outcome + deadline_error :=
  if passed then inr TimeoutError else
  match winner with
  | inl r => inl r
  | inr z => if z =? 1 then inr CancelledError else inr TimeoutError
  end.

(** ** Executions *)

Inductive op := Await (k : kind) (t : bool) (p : option Z) | HelperEnds (w : Z) (r : outcome) | Cancel | Resume | Destroy (w : Z).

(** The task that [w] wraps is running, and coroutines can park in it. *)
Definition wraps (w : Z) (s : sys) : bool :=
  match aw s !! w, shared s !! w with
  | Some _, Some x => match sh_kind x with Op _ => negb (done x) | _ => false end
  | _, _ => false
  end.

(** A coroutine awaits on its own, or in a wrapped task that runs; a wrapped task ends when no coroutine
    of it is parked; fewer than [2 ^ 64] hooks are registered. Cancellation comes from outside of the
    wrapped tasks, as [make_cancellable] asks. *)
Definition step (s : sys) (o : op) : sys :=
  match o with
  | Await k t p =>
      if match p with None => true | Some p => wraps p s end && (next_id (tok s) <? 2 ^ 64 - 1) then
        if await_ready k t s then s else await_suspend k t p s
      else s
  | HelperEnds w r =>
      if decide (w ∈ helpers s /\ children w s = []) then helper_ends w r s else s
  | Cancel => cancel s
  | Resume => (resume s).1
  | Destroy w => destroy w s
  end.

Definition run (ops : list op) : sys := fold_left step ops sys_new.

(** ** Frames that are destroyed *)

(** What the destructors rely on and keep: helpers belong to awaiters that wait, and the registrations in
    the token to parked coroutines. *)
Record base (s : sys) : Prop := {
  b_shared w a : aw s !! w = Some a -> is_Some (shared s !! w);
  b_helpers w : w ∈ helpers s -> exists x, shared s !! w = Some x /\ done x = false /\ handle x = true /\ sh_kind x <> Check;
  b_cb id w : (id, w) ∈ callbacks (tok s) -> id <> 0 /\ exists a, aw s !! w = Some a /\ cancel_id a = id /\ has_token a = true;
  b_inj id w w' a : (id, w) ∈ callbacks (tok s) -> aw s !! w' = Some a -> cancel_id a = id -> w' = w;
  b_nodup : NoDup (callbacks (tok s)).*1;
  b_order w a p : aw s !! w = Some a -> parent a = Some p -> p < w;
  b_fresh w a : aw s !! w = Some a -> 0 <= w < fresh s
}.

Definition marks (x y : shared_state) : Prop := done y = true /\ sh_kind y = sh_kind x /\ code y = code x.

(** The coroutines of [D] are gone, with their awaiters. *)
Record wiped (D : gset Z) (s s' : sys) : Prop := {
  wi_aw x : aw s' !! x = if decide (x ∈ D) then None else aw s !! x;
  wi_out x : (x ∉ D) -> shared s' !! x = shared s !! x;
  wi_in x : x ∈ D -> exists y y', shared s !! x = Some y /\ shared s' !! x = Some y' /\ marks y y';
  wi_helpers x : x ∈ helpers s' <-> x ∈ helpers s /\ x ∉ D;
  wi_ready : ready s' = filter (fun x => x ∉ D) (ready s);
  wi_cb p : p ∈ callbacks (tok s') <-> p ∈ callbacks (tok s) /\ p.2 ∉ D;
  wi_nodup : NoDup (callbacks (tok s')).*1;
  wi_tok : cancelled (tok s') = cancelled (tok s) /\ next_id (tok s') = next_id (tok s);
  wi_rest : fresh s' = fresh s /\ wild s' = wild s /\ wakes s' = wakes s
}.

(** They are the roots [ws] and what was parked in the tasks they wrapped. *)
Record killed (ws : list Z) (D : gset Z) (s s' : sys) : Prop := {
  k_wiped : wiped D s s';
  k_dom x : x ∈ D -> is_Some (aw s !! x);
  k_roots w : w ∈ ws -> is_Some (aw s !! w) -> w ∈ D;
  k_from x : x ∈ D -> x ∈ ws \/ exists a p, aw s !! x = Some a /\ parent a = Some p /\ p ∈ D;
  k_closed x a p : aw s !! x = Some a -> parent a = Some p -> p ∈ D -> wraps p s = true -> x ∈ D
}.

Lemma wiped_base D s s' : base s -> wiped D s s' -> base s'.
Proof.
  intros [] []. assert (forall x a, aw s' !! x = Some a -> (x ∉ D) /\ aw s !! x = Some a) as Hold.
  { intros x a Hx. rewrite wi_aw0 in Hx. by case_decide. }
  split.
  - intros w a [Hd Hw]%Hold. rewrite wi_out0 by done. eauto.
  - intros w [Hw Hd]%wi_helpers0. rewrite wi_out0 by done. auto.
  - intros id w [Hp Hd]%wi_cb0. destruct (b_cb0 id w Hp) as (? & a & ? & ? & ?). split; [done|]. exists a. rewrite wi_aw0.
    by rewrite decide_False.
  - intros id w w' a [Hp _]%wi_cb0 [_ Hw]%Hold. eauto.
  - done.
  - intros w a p [_ Hw]%Hold. eauto.
  - intros w a [_ Hw]%Hold. destruct wi_rest0 as [-> _]. eauto.
Qed.

Lemma wraps_out D s s' p : wiped D s s' -> (p ∉ D) -> wraps p s' = wraps p s.
Proof. intros [] Hp. unfold wraps. rewrite wi_aw0, wi_out0 by done. by rewrite decide_False. Qed.

Lemma wiped_refl s : base s -> wiped ∅ s s.
Proof.
  intros B. pose proof (b_nodup _ B) as Hn. clear B. split; try done; try set_solver.
  by induction (ready s) as [|x q IH]; [|rewrite filter_cons_True by set_solver; f_equal].
Qed.

Lemma killed_nil s : base s -> killed [] ∅ s s.
Proof. intros B. split; [by apply wiped_refl|set_solver..]. Qed.

Lemma killed_trans ws1 ws2 D1 D2 s s1 s2 : killed ws1 D1 s s1 -> killed ws2 D2 s1 s2 -> killed (ws1 ++ ws2) (D1 ∪ D2) s s2.
Proof.
  intros [W1 A1 R1 F1 C1] [W2 A2 R2 F2 C2].
  assert (forall x a, (x ∉ D1) -> aw s !! x = Some a -> aw s1 !! x = Some a) as Hin by (intros; rewrite (wi_aw _ _ _ W1); by rewrite decide_False).
  assert (forall x a, aw s1 !! x = Some a -> (x ∉ D1) /\ aw s !! x = Some a) as Hout by (intros x a; rewrite (wi_aw _ _ _ W1); by case_decide).
  split.
  - pose proof W1 as []. pose proof W2 as []. split.
    + intros x. rewrite wi_aw1, wi_aw0. repeat case_decide; set_solver.
    + intros x Hx. rewrite wi_out1, wi_out0 by set_solver. done.
    + intros x Hx. destruct (decide (x ∈ D2)) as [H2|H2]; [|rewrite wi_out1 by done; apply wi_in0; set_solver].
      destruct (wi_in1 x H2) as (y1 & y2 & E1 & E2 & M2 & M3 & M4). destruct (decide (x ∈ D1)) as [H1|H1]; [|rewrite wi_out0 in E1 by done; by exists y1, y2].
      destruct (wi_in0 x H1) as (y0 & y1' & E0 & E1' & M5 & M6 & M7). simplify_eq. exists y0, y2. repeat split; congruence.
    + intros x. rewrite wi_helpers1, wi_helpers0. set_solver.
    + rewrite wi_ready1, wi_ready0, list_filter_filter. apply list_filter_iff. set_solver.
    + intros p. rewrite wi_cb1, wi_cb0. set_solver.
    + done.
    + destruct wi_tok0, wi_tok1. split; congruence.
    + destruct wi_rest0 as (?&?&?), wi_rest1 as (?&?&?). split_and!; congruence.
  - intros x [Hx|Hx]%elem_of_union; [auto|]. destruct (A2 x Hx) as [a Ha]. apply Hout in Ha as [_ Ha]. eauto.
  - intros w [Hw|Hw]%elem_of_app [a Ha]; [set_solver|]. destruct (decide (w ∈ D1)); [set_solver|]. apply elem_of_union_r, R2; eauto.
  - intros x [Hx|Hx]%elem_of_union; [destruct (F1 x Hx) as [|(a&p&?&?&?)]|destruct (F2 x Hx) as [|(a&p&Ha&?&?)]].
    + left. set_solver.
    + right. exists a, p. set_solver.
    + left. set_solver.
    + right. exists a, p. apply Hout in Ha as [_ Ha]. set_solver.
  - intros x a p Ha Hp Hin' Hw. destruct (decide (p ∈ D1)) as [|Hn]; [apply elem_of_union_l; by eapply C1|].
    destruct (decide (x ∈ D1)); [set_solver|]. apply elem_of_union_r. eapply C2; eauto; [set_solver|]. by rewrite (wraps_out _ _ _ _ W1).
Qed.

Lemma tok_removed s w a :
  base s -> aw s !! w = Some a ->
  let t := if has_token a then remove_on_cancel (cancel_id a) (tok s) else tok s in
  (forall p, p ∈ callbacks t <-> p ∈ callbacks (tok s) /\ p.2 <> w) /\ NoDup (callbacks t).*1 /\
  cancelled t = cancelled (tok s) /\ next_id t = next_id (tok s).
Proof.
  intros [] Ha t. assert (forall p, p ∈ callbacks (tok s) -> p.2 = w -> has_token a = true /\ cancel_id a = p.1 /\ p.1 <> 0) as Hw.
  { intros [id w'] Hp Hq. simpl in *. subst w'. destruct (b_cb0 id w Hp) as (? & a' & Ha' & ? & ?). simplify_eq. done. }
  subst t. destruct (has_token a) eqn:Ht.
  2: { split_and!; try done. intros p. split; [|tauto]. intros Hp. split; [done|]. intros Hq. by destruct (Hw p Hp Hq). }
  unfold remove_on_cancel. destruct (Z.eqb_spec (cancel_id a) 0) as [Hz|Hz].
  { split_and!; try done. intros p. split; [|tauto]. intros Hp. split; [done|]. intros Hq. destruct (Hw p Hp Hq) as (_ & ? & ?). congruence. }
  destruct (swap_remove_key fst (cancel_id a) (callbacks (tok s)) b_nodup0) as [Hn Hel]. split_and!; try done. simpl.
  intros p. rewrite Hel. split; intros [Hp Hq]; split; try done; intros Hr; apply Hq.
  - by destruct (Hw p Hp Hr) as (_ & -> & _).
  - destruct p as [id w']. simpl in *. symmetry. eapply b_inj0; eauto.
Qed.

Lemma reclaim_view s w x x0 :
  base s -> shared s !! w = Some x0 -> handle x = handle x0 ->
  let s' := reclaim_helper w x s in
  aw s' = aw s /\ tok s' = tok s /\ ready s' = ready s /\ (fresh s' = fresh s /\ wild s' = wild s /\ wakes s' = wakes s) /\
  (forall y, y ∈ helpers s' <-> y ∈ helpers s /\ y <> w) /\ (forall y, y <> w -> shared s' !! y = shared s !! y) /\
  shared s' !! w = Some (Shared (sh_kind x) (done x) false (result x) (code x)).
Proof.
  intros B Hx Hh. unfold reclaim_helper. destruct (handle x) eqn:Eh; simpl; split_and!; try done.
  - set_solver.
  - intros y Hn. by rewrite lookup_insert_ne.
  - by rewrite lookup_insert_eq.
  - intros y. split; [|tauto]. intros Hy. split; [done|]. intros ->. destruct (b_helpers _ B w Hy) as (x1 & ? & _ & ? & _). congruence.
  - intros y Hn. by rewrite lookup_insert_ne.
  - rewrite lookup_insert_eq. f_equal. destruct x; simpl in *. by subst.
Qed.

(** A frame alone goes: the awaiter is marked, and then dropped. *)
Lemma drop_wiped s s2 w a :
  base s -> aw s !! w = Some a -> aw s2 = aw s -> tok s2 = (if has_token a then remove_on_cancel (cancel_id a) (tok s) else tok s) ->
  ready s2 = ready s -> fresh s2 = fresh s /\ wild s2 = wild s /\ wakes s2 = wakes s ->
  (forall y, y ∈ helpers s2 <-> y ∈ helpers s /\ y <> w) -> (forall y, y <> w -> shared s2 !! y = shared s !! y) ->
  (exists x y, shared s !! w = Some x /\ shared s2 !! w = Some y /\ marks x y) ->
  wiped {[w]} s (drop_frame w s2).
Proof.
  intros B Ha Eaw Et Er Erest Hh Hs Hd. destruct (tok_removed s w a B Ha) as (Hcb & Hn & Hc & Hi). rewrite <- Et in *.
  split; simpl; try done.
  - intros x. rewrite Eaw. case_decide as Hx; [|rewrite lookup_delete_ne by set_solver; done].
    assert (x = w) as -> by set_solver. by rewrite lookup_delete_eq.
  - intros x Hx. apply Hs. set_solver.
  - intros x Hx. assert (x = w) as -> by set_solver. done.
  - intros x. rewrite Hh. set_solver.
  - rewrite Er. apply list_filter_iff. set_solver.
  - intros p. rewrite Hcb. set_solver.
Qed.

Lemma killed_self s s' w a :
  aw s !! w = Some a -> wraps w s = false -> wiped {[w]} s s' -> killed [w] {[w]} s s'.
Proof.
  intros Ha Hw W. split; [done| | | |].
  - intros x Hx. assert (x = w) as -> by set_solver. eauto.
  - set_solver.
  - set_solver.
  - intros x b p _ _ Hp. assert (p = w) as -> by set_solver. congruence.
Qed.

Lemma elem_of_children c w s : c ∈ children w s <-> exists a, aw s !! c = Some a /\ parent a = Some w.
Proof.
  unfold children. rewrite list_elem_of_fmap. split.
  - intros ([c' a] & -> & Hin). apply elem_of_map_to_list, map_lookup_filter_Some in Hin. eauto.
  - intros (a & Ha & Hp). exists (c, a). split; [done|]. apply elem_of_map_to_list, map_lookup_filter_Some. done.
Qed.

Lemma fold_killed f ws s :
  base s -> (forall w s', base s' -> w ∈ ws -> fresh s' = fresh s -> exists D, killed [w] D s' (f s' w)) ->
  exists D, killed ws D s (fold_left f ws s).
Proof.
  remember (fresh s) as fr eqn:Ef. intros B H. revert s B Ef. induction ws as [|w ws IH]; intros s B Ef; simpl; [exists ∅; by apply killed_nil|].
  destruct (H w s B ltac:(set_solver) (eq_sym Ef)) as [D1 K1]. destruct (IH ltac:(set_solver) (f s w)) as [D2 K2].
  { eapply wiped_base; [done|apply K1]. }
  { by destruct (wi_rest _ _ _ (k_wiped _ _ _ _ K1)) as (-> & _). }
  exists (D1 ∪ D2). by apply (killed_trans [w] ws _ _ s (f s w)).
Qed.

Section Marked.
Variables (s s2 : sys) (w : Z) (a : awaiter).
Hypothesis B : base s.
Hypothesis Ha : aw s !! w = Some a.
Hypothesis Eaw : aw s2 = aw s.
Hypothesis Et : tok s2 = (if has_token a then remove_on_cancel (cancel_id a) (tok s) else tok s).
Hypothesis Er : ready s2 = ready s.
Hypothesis Erest : fresh s2 = fresh s /\ wild s2 = wild s /\ wakes s2 = wakes s.
Hypothesis Hh : forall y, y ∈ helpers s2 <-> y ∈ helpers s /\ y <> w.
Hypothesis Hs : forall y, y <> w -> shared s2 !! y = shared s !! y.
Hypothesis Hd : exists x y, shared s !! w = Some x /\ shared s2 !! w = Some y /\ marks x y.

(** An awaiter that has been marked and deregistered, with its helper gone. *)
Lemma marked_base : base s2.
Proof.
  destruct (tok_removed s w a B Ha) as (Hcb & Hn & _ & _). rewrite <- Et in Hcb, Hn. destruct B. split; rewrite ?Eaw; try done.
  - intros y b Hy. destruct (decide (y = w)) as [->|Hne]; [destruct Hd as (x & y & _ & ? & _); eauto|]. rewrite Hs by done. eauto.
  - intros y [Hy Hne]%Hh. rewrite Hs by done. auto.
  - intros id y [Hp _]%Hcb. auto.
  - intros id y y' b [Hp _]%Hcb. eauto.
  - destruct Erest as (-> & _). done.
Qed.

(** Then what is parked in its task goes, and the frame itself. *)
Lemma killed_nested D3 s3 : killed (children w s2) D3 s2 s3 -> killed [w] ({[w]} ∪ D3) s (drop_frame w s3).
Proof.
  destruct (tok_removed s w a B Ha) as (Hcb & Hn & Hc & Hi). rewrite <- Et in Hcb, Hn, Hc, Hi.
  intros [W A R F C]. rewrite Eaw in *. split.
  - destruct W. rewrite Eaw in *. destruct Erest as (?&?&?), wi_rest0 as (?&?&?), wi_tok0. split; simpl; try done.
    + intros x. destruct (decide (x = w)) as [->|Hne]; [rewrite lookup_delete_eq, decide_True by set_solver; done|].
      rewrite lookup_delete_ne, wi_aw0 by done. repeat case_decide; set_solver.
    + intros x Hx. rewrite wi_out0 by set_solver. apply Hs. set_solver.
    + intros x Hx. destruct (decide (x ∈ D3)) as [Hi3|Hne]; [|rewrite wi_out0 by done; assert (x = w) as -> by set_solver; done].
      destruct (wi_in0 x Hi3) as (y & y' & E1 & E2 & M1 & M2 & M3). destruct (decide (x = w)) as [->|Hw]; [|rewrite Hs in E1 by done; by exists y, y'].
      destruct Hd as (x0 & x1 & E3 & E4 & M4 & M5 & M6). simplify_eq. exists x0, y'. repeat split; congruence.
    + intros x. rewrite wi_helpers0, Hh. set_solver.
    + rewrite wi_ready0, Er, list_filter_filter. apply list_filter_iff. set_solver.
    + intros p. rewrite wi_cb0, Hcb. set_solver.
    + split; congruence.
    + split_and!; congruence.
  - intros x [Hx|Hx]%elem_of_union; [assert (x = w) as -> by set_solver; eauto|auto].
  - set_solver.
  - intros x [Hx|Hx]%elem_of_union; [left; set_solver|]. right. destruct (F x Hx) as [Hin|(b & p & ? & ? & ?)].
    + apply elem_of_children in Hin as (b & Hb & Hp). rewrite Eaw in Hb. exists b, w. set_solver.
    + exists b, p. set_solver.
  - intros x b p Hb Hp Hin Hw. apply elem_of_union_r. destruct (decide (p = w)) as [->|Hne].
    + apply R; [|eauto]. apply elem_of_children. rewrite Eaw. eauto.
    + apply (C x b p); [done|done|set_solver|]. unfold wraps in *. by rewrite Eaw, Hs.
Qed.

End Marked.

(** The destructors end all that was parked under a frame, and nothing else; the fuel is enough. *)
Lemma end_await_killed fuel w s :
  base s -> fresh s - w <= Z.of_nat fuel -> exists D, killed [w] D s (end_await fuel w s).
Proof.
  revert w s. induction fuel as [|fuel IH]; intros w s B Hf; simpl.
  { exists ∅. split; [by apply wiped_refl|set_solver| |set_solver|set_solver]. intros w' Hw [a Ha]. assert (w' = w) as -> by set_solver.
    pose proof (b_fresh _ B w a Ha). lia. }
  destruct (aw s !! w) as [a|] eqn:Ha.
  2: { exists ∅. split; [by apply wiped_refl|set_solver| |set_solver|set_solver]. intros w' Hw [a Ha']. assert (w' = w) as -> by set_solver. congruence. }
  destruct (b_shared _ B w a Ha) as [x Hx]. rewrite Hx.
  set (t := if has_token a then remove_on_cancel (cancel_id a) (tok s) else tok s).
  assert ((if has_token a then with_tok (remove_on_cancel (cancel_id a) (tok s)) s else s) = with_tok t s) as ->.
  { unfold t. destruct (has_token a); [done|]. by destruct s. }
  destruct (tok_removed s w a B Ha) as (Hcb & Hn & Hc & Hi). fold t in Hcb, Hn, Hc, Hi. set (s1 := with_tok t s).
  assert (base s1) as B1.
  { destruct B. split; try done.
    - intros id w' [Hp _]%Hcb. auto.
    - intros id w1 w2 a' [Hp _]%Hcb. eauto. }
  assert (w ∉ helpers s \/ sh_kind x <> Check /\ done x = false /\ handle x = true) as Hnh.
  { destruct (decide (w ∈ helpers s)) as [Hin|]; [right|by left]. destruct (b_helpers _ B w Hin) as (x' & ? & ? & ? & ?). simplify_eq. done. }
  destruct (reclaim_view s1 w (resolved x) x B1 Hx eq_refl) as (Raw & Rt & Rr & Rrest & Rh & Rs & Rw).
  assert (wiped {[w]} s (drop_frame w (reclaim_helper w (resolved x) s1))) as Wr.
  { apply (drop_wiped s _ w a B Ha); try done. rewrite Rw. by do 2 eexists. }
  destruct (sh_kind x) eqn:Ek.
  - exists {[w]}. apply (killed_self _ _ w a Ha); [unfold wraps; by rewrite Ha, Hx, Ek|].
    apply (drop_wiped s _ w a B Ha); try done; simpl.
    + intros y. split; [|tauto]. intros Hy. split; [done|]. intros ->. naive_solver.
    + intros y Hy. by rewrite lookup_insert_ne.
    + rewrite lookup_insert_eq. by do 2 eexists.
  - destruct (done x) eqn:Ed.
    + exists {[w]}. apply (killed_self _ _ w a Ha); [unfold wraps; by rewrite Ha, Hx, Ek, Ed|].
      apply (drop_wiped s _ w a B Ha); try done; [|by exists x, x]. intros y. split; [|tauto]. intros Hy. split; [done|]. intros ->. naive_solver.
    + set (s2 := reclaim_helper w (resolved x) s1) in *. assert (base s2) as B2 by (apply (marked_base s s2 w a); try done; rewrite Rw; by do 2 eexists).
      destruct (fold_killed (fun s c => end_await fuel c s) (children w s2) s2 B2) as [D3 K].
      { intros c s' B' Hin Hfr. apply IH; [done|]. apply elem_of_children in Hin as (b & Hb & Hp). rewrite Raw in Hb.
        pose proof (b_order _ B c b w Hb Hp). rewrite Hfr. destruct Rrest as (-> & _). simpl. lia. }
      exists ({[w]} ∪ D3). apply (killed_nested s s2 w a); try done. rewrite Rw. by do 2 eexists.
  - exists {[w]}. apply (killed_self _ _ w a Ha); [unfold wraps; by rewrite Ha, Hx, Ek|done].
  - exists {[w]}. apply (killed_self _ _ w a Ha); [unfold wraps; by rewrite Ha, Hx, Ek|done].
Qed.

(** ** The invariant *)

Definition hooked (k : kind) : Prop := k <> Op false.

(** [R] are the hooks of a cancellation that have not run yet, [P] a wrapped task that is being torn down,
    [W] an awaiter that is about to be scheduled or to end. *)
Record ok (R : list Z) (P W : option Z) (s : sys) : Prop := {
  o_base : base s;
  o_start : 0 <= fresh s;
  o_fresh w x : shared s !! w = Some x -> w < fresh s;
  o_live w x : shared s !! w = Some x -> done x = false -> is_Some (aw s !! w);
  o_parent w a p : aw s !! w = Some a -> parent a = Some p -> wraps p s = true \/ P = Some p;
  o_check w a x : aw s !! w = Some a -> shared s !! w = Some x -> sh_kind x = Check -> done x = false;
  o_wait w a x : aw s !! w = Some a -> shared s !! w = Some x -> sh_kind x <> Check ->
    if done x then w ∈ ready s \/ W = Some w else w ∈ helpers s;
  o_nodup : NoDup (ready s);
  o_ready w : w ∈ ready s -> exists a x, aw s !! w = Some a /\ shared s !! w = Some x /\
    (done x = true \/ (sh_kind x = Check /\ cancelled (tok s) = true /\ has_token a = true));
  o_logged w : w ∈ ready s -> w ∈ wakes s;
  o_reg w a x : aw s !! w = Some a -> shared s !! w = Some x -> has_token a = true -> hooked (sh_kind x) ->
    cancelled (tok s) = false -> (cancel_id a, w) ∈ callbacks (tok s);
  o_cancel : cancelled (tok s) = true -> callbacks (tok s) = [];
  o_woken w a x : cancelled (tok s) = true -> aw s !! w = Some a -> shared s !! w = Some x -> has_token a = true ->
    hooked (sh_kind x) -> w ∈ ready s \/ w ∈ R \/ W = Some w;
  o_hooks w : w ∈ R \/ w ∈ (callbacks (tok s)).*2 -> exists x, shared s !! w = Some x /\ hooked (sh_kind x) /\ forall a, aw s !! w = Some a -> has_token a = true;
  o_R : NoDup R /\ (R <> [] -> cancelled (tok s) = true);
  o_ids : 0 <= next_id (tok s) < 2 ^ 64;
  o_cid w a : aw s !! w = Some a -> 0 <= cancel_id a <= next_id (tok s);
  o_wild : wild s = false;
  o_wakes : NoDup (wakes s) /\ forall w, w ∈ wakes s -> exists x, shared s !! w = Some x /\
    (done x = true \/ (sh_kind x = Check /\ cancelled (tok s) = true /\ w ∉ R));
  o_result w a x t : aw s !! w = Some a -> shared s !! w = Some x -> sh_kind x = Op t -> done x = true ->
    is_Some (result x) \/ (has_token a = true /\ t = true /\ cancelled (tok s) = true);
  o_code w x : shared s !! w = Some x -> code x = 0 \/ (code x = 1 /\ cancelled (tok s) = true)
}.

Lemma new_ok : ok [] None None sys_new.
Proof.
  assert (forall w (a : awaiter), (∅ : gmap Z awaiter) !! w = Some a -> False) as Ha by (intros w a H; by rewrite lookup_empty in H).
  assert (forall w (x : shared_state), (∅ : gmap Z shared_state) !! w = Some x -> False) as Hx by (intros w x H; by rewrite lookup_empty in H).
  assert (forall (w : Z), w ∈ [] -> False) as Hn by (intros w H; by apply not_elem_of_nil in H).
  assert (forall (p : Z * Z), p ∈ [] -> False) as Hn2 by (intros w H; by apply not_elem_of_nil in H).
  split; simpl; try done; try (intros; exfalso; by eauto).
  - split; simpl; try done; try (intros; exfalso; by eauto). constructor.
  - constructor.
  - intros w [H|H]; exfalso; eauto.
  - split; [constructor|done].
  - split; [constructor|]. intros w H. exfalso. eauto.
Qed.

Lemma ok_killed R P W s s' ws D :
  ok R P W s -> killed ws D s s' -> (forall p, P = Some p -> p ∉ D) -> ok R P W s'.
Proof.
  intros O K HP. pose proof (k_wiped _ _ _ _ K) as Wi. pose proof (wiped_base _ _ _ (o_base _ _ _ _ O) Wi) as B'.
  assert (forall x a, aw s' !! x = Some a -> (x ∉ D) /\ aw s !! x = Some a) as Hold.
  { intros x a. rewrite (wi_aw _ _ _ Wi). by case_decide. }
  assert (forall x y, shared s' !! x = Some y -> exists y0, shared s !! x = Some y0 /\ ((y = y0 /\ x ∉ D) \/ (x ∈ D /\ marks y0 y))) as Hsh.
  { intros x y Hy. destruct (decide (x ∈ D)) as [Hd|Hd]; [|rewrite (wi_out _ _ _ Wi) in Hy by done; by eauto].
    destruct (wi_in _ _ _ Wi x Hd) as (y0 & y' & ? & ? & ?). simplify_eq. eauto. }
  pose proof Wi as [Waw Wout Win Wh Wr Wcb Wn [Wt1 Wt2] (Wf & Ww & Wk)]. pose proof O as [].
  assert (forall x a y, aw s' !! x = Some a -> shared s' !! x = Some y -> (x ∉ D) /\ aw s !! x = Some a /\ shared s !! x = Some y) as Hboth.
  { intros x a y [Hd Ha]%Hold Hy. rewrite Wout in Hy by done. done. }
  split; rewrite ?Wt1, ?Wt2, ?Wf, ?Ww, ?Wk; try done.
  - intros w x Hx. destruct (Hsh w x Hx) as (y & Hy & _). eauto.
  - intros w x Hx Hd. destruct (Hsh w x Hx) as (y & Hy & [(-> & Hn)|(_ & ? & _)]); [|congruence]. rewrite Waw, decide_False by done. eauto.
  - intros w a p [Hd Hw]%Hold Hp. destruct (o_parent0 w a p Hw Hp) as [Hwr|]; [left|by right].
    destruct (decide (p ∈ D)) as [Hin|Hin]; [by destruct Hd; eapply (k_closed _ _ _ _ K)|]. by rewrite (wraps_out _ _ _ _ Wi).
  - intros w a x Hw Hx. destruct (Hboth w a x Hw Hx) as (_ & ? & ?). eauto.
  - intros w a x Hw Hx Hk. destruct (Hboth w a x Hw Hx) as (Hd & Hw' & Hx'). specialize (o_wait0 w a x Hw' Hx' Hk).
    destruct (done x); [|by apply Wh]. rewrite Wr, list_elem_of_filter. naive_solver.
  - rewrite Wr. by apply NoDup_filter.
  - intros w. rewrite Wr, list_elem_of_filter. intros [Hd Hw]. destruct (o_ready0 w Hw) as (a & x & Ha & Hx & Hc).
    exists a, x. rewrite Waw, Wout, decide_False by done. done.
  - intros w. rewrite Wr, list_elem_of_filter. naive_solver.
  - intros w a x Hw Hx ? ? ?. destruct (Hboth w a x Hw Hx) as (Hd & Hw' & Hx'). apply Wcb. split; [eauto|done].
  - intros Hc. specialize (o_cancel0 Hc). destruct (callbacks (tok s')) as [|p l]; [done|]. assert (p ∈ callbacks (tok s)) as Hp by (apply Wcb; set_solver).
    rewrite o_cancel0 in Hp. by apply not_elem_of_nil in Hp.
  - intros w a x Hc Hw Hx Ht Hk. destruct (Hboth w a x Hw Hx) as (Hd & Hw' & Hx').
    rewrite Wr, list_elem_of_filter. destruct (o_woken0 w a x Hc Hw' Hx' Ht Hk); tauto.
  - intros w Hin. destruct (o_hooks0 w) as (x & Hx & Hk & Ht).
    { destruct Hin as [|Hin]; [by left|right]. apply list_elem_of_fmap in Hin as (p & -> & [Hp _]%Wcb). apply list_elem_of_fmap. eauto. }
    assert (forall a, aw s' !! w = Some a -> has_token a = true) by (intros a [_ Ha]%Hold; auto).
    destruct (decide (w ∈ D)) as [Hd|Hd]; [|exists x; by rewrite Wout].
    destruct (Win w Hd) as (y & y' & Hy & Hy' & _ & Hk' & _). simplify_eq. exists y'. by rewrite Hk'.
  - intros w a [_ Hw]%Hold. eauto.
  - destruct o_wakes0 as [Hn Hw]. split; [done|]. intros w Hin. destruct (Hw w Hin) as (x & Hx & Hc).
    destruct (decide (w ∈ D)) as [Hd|Hd]; [|exists x; by rewrite Wout].
    destruct (Win w Hd) as (y & y' & Hy & Hy' & ? & _). exists y'. auto.
  - intros w a x t Hw Hx. destruct (Hboth w a x Hw Hx) as (Hd & Hw' & Hx'). eauto.
  - intros w x Hx. destruct (Hsh w x Hx) as (y & Hy & [(-> & _)|(_ & _ & _ & ->)]); by eauto.
Qed.

End Cancellation.
