(* ===== verification/CancellationProps.v ===== *)
(** * Properties of cancellable operations (Cancellation.v)

    Every operation keeps the invariant, and what the token, the scheduler and the coroutines can then
    rely on. *)

From S2P Require Import Prelude Ask Cancellation.

Section CancellationProps.
Context {V E : Type}.
Local Notation sys := (@Cancellation.sys V E).
Local Notation base := (@Cancellation.base V E).
Local Notation killed := (@Cancellation.killed V E).
Local Notation ok := (@Cancellation.ok V E).
Implicit Types (s : sys).

(** Every coroutine that goes with the task [w] wraps is newer than [w]. *)
Lemma killed_newer w ws D s s' :
  base s -> killed ws D s s' -> (forall c, c ∈ ws -> w < c) -> forall x, x ∈ D -> w < x.
Proof.
  intros B K Hws x. destruct (decide (0 <= x)) as [H0|H0].
  2: { intros Hx. destruct (k_dom _ _ _ _ K x Hx) as [a Ha]. pose proof (b_fresh _ B x a Ha). lia. }
  revert x H0. apply (Zlt_0_ind (fun x => x ∈ D -> w < x)). intros x IH H0 Hx.
  destruct (k_from _ _ _ _ K x Hx) as [|(a & p & Ha & Hp & Hin)]; [auto|].
  pose proof (b_order _ B x a p Ha Hp). destruct (k_dom _ _ _ _ K p Hin) as [b Hb]. pose proof (b_fresh _ B p b Hb).
  specialize (IH p ltac:(lia) Hin). lia.
Qed.

Lemma destroy_killed w s : base s -> exists D, killed [w] D s (destroy w s).
Proof. intros B. unfold destroy. apply end_await_killed; [done|]. lia. Qed.

Lemma drop_inner_killed w s : base s -> exists D, killed (children w s) D s (drop_inner w s).
Proof. intros B. apply fold_killed; [done|]. intros. by apply destroy_killed. Qed.

(** The tear-down of a wrapped task leaves no coroutine in it. *)
Lemma drop_inner_ok R w s :
  ok R (Some w) (Some w) s -> let s' := drop_inner w s in
  ok R None (Some w) s' /\ aw s' !! w = aw s !! w /\ shared s' !! w = shared s !! w /\ wakes s' = wakes s.
Proof.
  intros O s'. destruct (drop_inner_killed w s (o_base _ _ _ _ O)) as [D K]. fold s' in K.
  assert (w ∉ D) as Hw.
  { intros Hin. enough (w < w) by lia. eapply killed_newer; [apply O|done| |done]. intros c (a & Ha & Hp)%elem_of_children.
    by eapply (b_order _ (o_base _ _ _ _ O)). }
  pose proof (ok_killed _ _ _ _ _ _ _ O K ltac:(naive_solver)) as O'. pose proof (k_wiped _ _ _ _ K) as [].
  split_and!; [|by rewrite wi_aw, decide_False|by apply wi_out|apply wi_rest].
  destruct O'. split; try done. intros v a p Hv Hp. destruct (o_parent v a p Hv Hp) as [|Hq]; [by left|exfalso].
  injection Hq as <-. rewrite wi_aw in Hv. case_decide as Hd; [done|]. apply Hd. eapply (k_roots _ _ _ _ K); [|eauto].
  apply elem_of_children. eauto.
Qed.

(** An awaiter that has not been resolved is not scheduled, and was not. *)
Lemma unresolved_fresh R P W s w x :
  ok R P W s -> shared s !! w = Some x -> done x = false -> sh_kind x <> Check \/ w ∈ R -> w ∉ wakes s.
Proof.
  intros O Hx Hd Hk Hin. destruct (proj2 (o_wakes _ _ _ _ O) w Hin) as (x' & ? & Hc). simplify_eq. naive_solver congruence.
Qed.

Lemma canc_schedule_ok R P w a x s :
  ok R P (Some w) s -> aw s !! w = Some a -> shared s !! w = Some x -> w ∉ wakes s ->
  done x = true \/ (sh_kind x = Check /\ cancelled (tok s) = true /\ has_token a = true /\ w ∉ R) ->
  ok R P None (schedule w s).
Proof.
  intros O Ha Hx Hw Hc. assert (w ∉ ready s) as Hr by (intros Hr; by apply Hw, (o_logged _ _ _ _ O)).
  pose proof O as []. unfold schedule. rewrite decide_False by done. split; simpl; try done.
  - by destruct o_base.
  - intros v b y Hv Hy Hk. specialize (o_wait v b y Hv Hy Hk). destruct (done y); [|done]. left. set_solver.
  - apply NoDup_app. split_and!; [done|set_solver|apply NoDup_singleton].
  - intros v [Hv|Hv]%elem_of_app; [auto|]. assert (v = w) as -> by set_solver. exists a, x. naive_solver.
  - intros v [Hv|Hv]%elem_of_app; [|set_solver]. apply elem_of_app. auto.
  - intros v b y ? ? ? ? ?. destruct (o_woken v b y) as [|[|[= ->]]]; try done; set_solver.
  - rewrite o_wild. by rewrite bool_decide_false by congruence.
  - destruct o_wakes as [Hn Hv]. split; [apply NoDup_app; split_and!; [done|set_solver|apply NoDup_singleton]|].
    intros v [Hin|Hin]%elem_of_app; [auto|]. assert (v = w) as -> by set_solver. exists x. naive_solver.
Qed.

(** An awaiter is resolved: its helper is gone, and it is about to be scheduled. *)
Lemma canc_settle_ok R R' w a x y s s1 :
  ok R None None s -> aw s !! w = Some a -> shared s !! w = Some x -> done x = false -> sh_kind x <> Check ->
  NoDup R' -> (forall v, v ∈ R' -> v ∈ R) -> (forall v, v ∈ R -> v ∈ R' \/ v = w) ->
  done y = true -> sh_kind y = sh_kind x -> code y = code x \/ (code y = 1 /\ cancelled (tok s) = true) ->
  (forall t, sh_kind x = Op t -> is_Some (result y) \/ (has_token a = true /\ t = true /\ cancelled (tok s) = true)) ->
  aw s1 = aw s -> tok s1 = tok s -> ready s1 = ready s -> fresh s1 = fresh s /\ wild s1 = wild s /\ wakes s1 = wakes s ->
  (forall v, v ∈ helpers s1 <-> v ∈ helpers s /\ v <> w) -> (forall v, v <> w -> shared s1 !! v = shared s !! v) -> shared s1 !! w = Some y ->
  ok R' (Some w) (Some w) s1.
Proof.
  intros O Ha Hx Hd Hk HnR HR HR' Hdy Hky Hcy Hry Eaw Et Er (Ef & Ew & Ewk) Hh Hs Hy.
  assert (forall v z, shared s1 !! v = Some z -> (v <> w /\ shared s !! v = Some z) \/ (v = w /\ z = y)) as Hcase.
  { intros v z Hz. destruct (decide (v = w)) as [->|Hn]; [right; split; congruence|left; by rewrite Hs in Hz]. }
  pose proof O as []. split; rewrite ?Eaw, ?Et, ?Er, ?Ef, ?Ew, ?Ewk; try done.
  - destruct o_base. split; rewrite ?Eaw, ?Et, ?Ef; try done.
    + intros v b Hv. destruct (decide (v = w)) as [->|Hn]; [eauto|]. rewrite Hs by done. eauto.
    + intros v [Hv Hn]%Hh. rewrite Hs by done. auto.
  - intros v z [[_ Hz]|[-> _]]%Hcase; eauto.
  - intros v z [[_ Hz]|[-> ->]]%Hcase; [eauto|congruence].
  - intros v b p Hv Hp. destruct (o_parent v b p Hv Hp) as [Hw|Hw]; [|done]. destruct (decide (p = w)) as [->|Hn]; [by right|left].
    unfold wraps in *. by rewrite Eaw, Hs.
  - intros v b z Hv [[_ Hz]|[-> ->]]%Hcase; [eauto|congruence].
  - intros v b z Hv [[Hn Hz]|[-> ->]]%Hcase Hkz; [|rewrite Hdy; by right]. specialize (o_wait v b z Hv Hz Hkz).
    destruct (done z); [|by apply Hh]. destruct o_wait as [|[=]]. by left.
  - intros v Hv. destruct (o_ready v Hv) as (b & z & Hb & Hz & Hc). destruct (decide (v = w)) as [->|Hn]; [exists b, y; auto|].
    exists b, z. by rewrite Hs.
  - intros v b z Hv [[_ Hz]|[-> ->]]%Hcase; [eauto|]. rewrite Hky. eauto.
  - intros v b z Hc Hv [[_ Hz]|[-> ->]]%Hcase Ht Hz'; [|by right; right].
    destruct (o_woken v b z Hc Hv Hz Ht Hz') as [|[Hin|]]; [by left| |done]. destruct (HR' v Hin) as [|[= ->]]; [by right; left|by right; right].
  - intros v Hin. destruct (o_hooks v) as (z & Hz & Hk' & Ht); [destruct Hin; auto|].
    destruct (decide (v = w)) as [->|Hn]; [|exists z; by rewrite Hs]. exists y. rewrite Hky. by simplify_eq.
  - destruct o_R as [_ Hc]. split; [done|]. intros Hne. apply Hc. destruct R' as [|v R']; [done|]. intros ->.
    specialize (HR v (list_elem_of_here _ _)). by apply not_elem_of_nil in HR.
  - destruct o_wakes as [Hn Hv]. split; [done|]. intros v Hin. destruct (Hv v Hin) as (z & Hz & Hc).
    destruct (decide (v = w)) as [->|Hne]; [exists y; auto|]. exists z. rewrite Hs by done. split; [done|].
    destruct Hc as [|(?&?&?)]; [by left|right; split_and!; auto].
  - intros v b z t Hv [[_ Hz]|[-> ->]]%Hcase Hkz Hdz; [eauto|]. simplify_eq. apply Hry. congruence.
  - intros v z [[_ Hz]|[-> ->]]%Hcase; [eauto|]. destruct Hcy as [->|]; eauto.
Qed.

(** The same without a wrapped task to tear down. *)
Lemma no_children_ok R W w s : ok R (Some w) W s -> children w s = [] -> ok R None W s.
Proof.
  intros [] Hc. split; try done. intros v a p Hv Hp. destruct (o_parent v a p Hv Hp) as [|[= <-]]; [by left|exfalso].
  assert (v ∈ children w s) as Hin by (apply elem_of_children; eauto). rewrite Hc in Hin. by apply not_elem_of_nil in Hin.
Qed.

(** Only a running wrapped task has coroutines parked in it. *)
Lemma children_nil R W s w x : ok R None W s -> shared s !! w = Some x -> (forall t, sh_kind x <> Op t) -> children w s = [].
Proof.
  intros O Hx Hk. destruct (children w s) as [|c l] eqn:Ec; [done|exfalso].
  assert (c ∈ children w s) as Hc by (rewrite Ec; set_solver). apply elem_of_children in Hc as (a & Ha & Hp).
  destruct (o_parent _ _ _ _ O c a w Ha Hp) as [Hw|]; [|done]. unfold wraps in Hw. rewrite Hx in Hw.
  destruct (aw s !! w); [|done]. destruct (sh_kind x) eqn:Ek; naive_solver.
Qed.

Lemma weaken_ok R w s x :
  ok (w :: R) None None s -> shared s !! w = Some x -> done x = true \/ sh_kind x = Check ->
  ok R None (if done x then None else Some w) s.
Proof.
  intros O Hx Hd. pose proof O as []. destruct o_R as [Hn Hc]. apply NoDup_cons in Hn as [Hn1 Hn2].
  specialize (Hc ltac:(done)). split; try done.
  - intros v b z Hv Hz Hk. specialize (o_wait v b z Hv Hz Hk). destruct (done z); [|done]. destruct o_wait as [|[=]]. by left.
  - intros v b z _ Hv Hz Ht Hk. destruct (o_woken v b z Hc Hv Hz Ht Hk) as [|[Hin|]]; [by left| |done].
    apply elem_of_cons in Hin as [->|Hin]; [|by right; left]. simplify_eq. destruct (done x) eqn:Ed; [|by right; right].
    left. destruct (decide (sh_kind x = Check)) as [Ek|Ek]; [specialize (o_check w b x Hv Hx Ek); congruence|].
    specialize (o_wait w b x Hv Hx Ek). rewrite Ed in o_wait. by destruct o_wait as [|[=]].
  - intros v [Hin|Hin]; apply o_hooks; [left; by apply list_elem_of_further|by right].
  - destruct o_wakes as [Hnw Hv]. split; [done|]. intros v Hin. destruct (Hv v Hin) as (z & Hz & Hq). exists z. split; [done|].
    destruct Hq as [|(?&?&Hq)]; [by left|right; split_and!; try done]. intros Hr. by apply Hq, list_elem_of_further.
Qed.

Lemma hook_ok R w s : ok (w :: R) None None s -> ok R None None (hook w s).
Proof.
  intros O. destruct (o_hooks _ _ _ _ O w) as (x & Hx & Hk & Ht); [left; set_solver|]. unfold hook, check_hook, op_hook, sleep_hook, deadline_hook. rewrite Hx.
  destruct (done x) eqn:Ed.
  { pose proof (weaken_ok R w s x O Hx ltac:(by left)) as H. by rewrite Ed in H. }
  destruct (o_live _ _ _ _ O w x Hx Ed) as [a Ha]. specialize (Ht a Ha). destruct (o_R _ _ _ _ O) as [Hn Hc].
  specialize (Hc ltac:(done)). apply NoDup_cons in Hn as [Hn1 Hn2].
  assert (w ∉ wakes s) as Hw by (eapply unresolved_fresh; [done..|right; set_solver]).
  assert (forall y, done y = true -> sh_kind y = sh_kind x -> handle y = handle x -> code y = code x \/ code y = 1 -> sh_kind x <> Check ->
    ok R (Some w) (Some w) (reclaim_helper w y s)) as Hset.
  { intros y Hy1 Hy2 Hy3 Hy4 Hnc. destruct (reclaim_view s w y x (o_base _ _ _ _ O) Hx Hy3) as (?&?&?&?&?&?&Hyw).
    eapply (canc_settle_ok (w :: R) R w a x (Shared (sh_kind y) (done y) false (result y) (code y))); try done; simpl;
      [intros; by apply list_elem_of_further|intros v [->|]%elem_of_cons; auto|naive_solver|].
    intros t Et. right. rewrite Et in Hk. destruct t; [done|]. by destruct Hk. }
  assert (forall s1, ok R None (Some w) s1 -> aw s1 !! w = Some a -> (exists y, shared s1 !! w = Some y /\ done y = true) -> w ∉ wakes s1 ->
    ok R None None (schedule w s1)) as Hsch by (intros s1 O1 ? (y & ? & ?) ?; eapply canc_schedule_ok; eauto).
  destruct (sh_kind x) eqn:Ek.
  - pose proof (weaken_ok R w s x O Hx ltac:(by right)) as H. rewrite Ed in H. eapply canc_schedule_ok; eauto.
  - destruct (reclaim_view s w (resolved x) x (o_base _ _ _ _ O) Hx eq_refl) as (E1&_&_&(_&_&E2)&_&_&E3).
    destruct (drop_inner_ok R w _ (Hset (resolved x) eq_refl Ek eq_refl (or_introl eq_refl) ltac:(done))) as (O1&F1&F2&F3).
    apply Hsch; [done|congruence| |congruence]. rewrite F2, E3. by eexists.
  - destruct (reclaim_view s w (resolved x) x (o_base _ _ _ _ O) Hx eq_refl) as (E1&_&_&(_&_&E2)&_&_&E3).
    apply Hsch; [|congruence|rewrite E3; by eexists|congruence]. eapply no_children_ok; [by apply Hset; try done; left|].
    unfold children. rewrite E1. eapply (children_nil _ _ s); eauto. by rewrite Ek.
  - set (y := Shared _ true _ _ 1). destruct (reclaim_view s w y x (o_base _ _ _ _ O) Hx eq_refl) as (E1&_&_&(_&_&E2)&_&_&E3).
    apply Hsch; [|congruence|rewrite E3; by eexists|congruence]. eapply no_children_ok; [by apply Hset; try done; right|].
    unfold children. rewrite E1. eapply (children_nil _ _ s); eauto. by rewrite Ek.
Qed.

Lemma hooks_ok R s : ok R None None s -> ok [] None None (fold_left (fun s w => hook w s) R s).
Proof. revert s. induction R as [|w R IH]; intros s O; simpl; [done|]. by apply IH, hook_ok. Qed.

Lemma hooks_nodup s : base s -> NoDup (callbacks (tok s)).*2.
Proof.
  intros B. pose proof (b_nodup _ B) as Hn. pose proof (b_cb _ B) as Hc. revert Hn Hc. generalize (callbacks (tok s)) as l.
  induction l as [|[id w] l IH]; intros Hn Hc; [constructor|]. cbn [fmap list_fmap fst snd] in *. apply NoDup_cons in Hn as [Hn1 Hn2].
  constructor; [|apply IH; [done|intros id' w' Hin; by apply Hc, list_elem_of_further]].
  intros ([id' w'] & Hw & Hin)%list_elem_of_fmap. simpl in Hw. subst w'. apply Hn1.
  destruct (Hc id w (list_elem_of_here _ _)) as (_ & a & Ha & <- & _).
  destruct (Hc id' w (list_elem_of_further _ _ _ Hin)) as (_ & a' & Ha' & <- & _).
  apply list_elem_of_fmap. exists (cancel_id a', w). by simplify_eq.
Qed.

Lemma canc_cancel_ok s : ok [] None None s -> ok [] None None (cancel s).
Proof.
  intros O. unfold cancel. destruct (cancelled (tok s)) eqn:Ec; [done|].
  assert (forall l s0, fold_left (fun s c => hook c.2 s) l s0 = fold_left (fun s w => hook w s) l.*2 s0) as ->.
  { induction l as [|c l IH]; intros s0; simpl; [done|]. apply IH. }
  apply hooks_ok. pose proof (hooks_nodup s (o_base _ _ _ _ O)) as Hnd. pose proof O as []. split; simpl; try done.
  - destruct o_base. split; simpl; try done; [intros id w Hin|intros id w w' a Hin|constructor]; by apply not_elem_of_nil in Hin.
  - intros w Hw. destruct (o_ready w Hw) as (a & x & Ha & Hx & [|(_ & ? & _)]); [|congruence]. exists a, x. auto.
  - intros w a x _ Ha Hx Ht Hk. right. left. apply list_elem_of_fmap. exists (cancel_id a, w). eauto.
  - intros w [Hw|Hw]; [auto|]. by apply not_elem_of_nil in Hw.
  - destruct o_wakes as [Hn Hw]. split; [done|]. intros w Hin. destruct (Hw w Hin) as (x & Hx & [|(_ & ? & _)]); [|congruence]. eauto.
  - intros w a x t Ha Hx Hk Hd. destruct (o_result w a x t Ha Hx Hk Hd) as [|(_ & _ & ?)]; [by left|congruence].
  - intros w x Hx. destruct (o_code w x Hx) as [|[_ ?]]; [by left|congruence].
Qed.

Lemma helper_ends_ok w r s : ok [] None None s -> w ∈ helpers s -> children w s = [] -> ok [] None None (helper_ends w r s).
Proof.
  intros O Hw Hch. destruct (b_helpers _ (o_base _ _ _ _ O) w Hw) as (x & Hx & Hd & Hh & Hk). destruct (o_live _ _ _ _ O w x Hx Hd) as [a Ha].
  assert (w ∉ wakes s) as Hnw by (eapply unresolved_fresh; [done..|by left]).
  unfold helper_ends. rewrite Hx. set (y := match sh_kind x with Op _ => _ | _ => _ end).
  assert (done y = false /\ sh_kind y = sh_kind x /\ code y = code x) as (Hdy & Hky & Hcy) by (unfold y; by destruct (sh_kind x)).
  rewrite Hdy. set (s1 := with_shared w (resolved y) _).
  assert (shared s1 !! w = Some (resolved y)) as Hy by apply lookup_insert_eq.
  assert (ok [] (Some w) (Some w) s1) as O1.
  { eapply (canc_settle_ok [] [] w a x (resolved y)); try done; simpl; [constructor|auto|by left| |set_solver|].
    - intros t Et. left. unfold y. rewrite Et. by eexists.
    - intros v Hn. by rewrite !lookup_insert_ne. }
  eapply canc_schedule_ok; [by apply no_children_ok with w|done|done|done|by left].
Qed.

Lemma canc_unwind_ok W w s : ok [] None W s -> W = None \/ W = Some w -> ok [] None None (destroy w s).
Proof.
  intros O HW. destruct (destroy_killed w s (o_base _ _ _ _ O)) as [D K].
  pose proof (ok_killed _ _ _ _ _ _ _ O K ltac:(naive_solver)) as O'.
  assert (aw (destroy w s) !! w = None) as Hn.
  { rewrite (wi_aw _ _ _ (k_wiped _ _ _ _ K)). case_decide as Hd; [done|]. destruct (aw s !! w) as [a|] eqn:Ha; [|done].
    destruct Hd. eapply (k_roots _ _ _ _ K); [apply list_elem_of_here|eauto]. }
  pose proof O' as []. split; try done.
  - intros v a x Hv Hx Hk. specialize (o_wait v a x Hv Hx Hk). destruct (done x); [|done]. destruct o_wait as [|Hw]; [by left|].
    destruct HW as [->| ->]; [done|]. injection Hw as ->. congruence.
  - intros v a x Hc Hv Hx Ht Hk. destruct (o_woken v a x Hc Hv Hx Ht Hk) as [|[|Hw]]; [by left|by right; left|].
    destruct HW as [->| ->]; [done|]. injection Hw as ->. congruence.
Qed.

Lemma popped_ok w q s :
  ok [] None None s -> ready s = w :: q -> ok [] None (Some w) (Sys (tok s) (aw s) (shared s) (helpers s) q (fresh s) (wild s) (wakes s)).
Proof.
  intros O Er. pose proof O as []. rewrite Er in *. split; simpl; try done.
  - by destruct o_base.
  - intros v a x Hv Hx Hk. specialize (o_wait v a x Hv Hx Hk). destruct (done x); [|done].
    destruct o_wait as [[->|]%elem_of_cons|]; [by right|by left|done].
  - by apply NoDup_cons in o_nodup as [_ ?].
  - intros v Hv. apply o_ready. by apply list_elem_of_further.
  - intros v Hv. apply o_logged. by apply list_elem_of_further.
  - intros v a x Hc Hv Hx Ht Hk. destruct (o_woken v a x Hc Hv Hx Ht Hk) as [[->|]%elem_of_cons|[|]]; auto; done.
Qed.

Lemma canc_resume_ok s : ok [] None None s -> ok [] None None (resume s).1.
Proof.
  intros O. unfold resume. destruct (ready s) as [|w q] eqn:Er; [done|].
  destruct (o_ready _ _ _ _ O w) as (a & x & Ha & Hx & _); [rewrite Er; apply list_elem_of_here|]. cbn [aw shared]. rewrite Ha, Hx.
  cbn [fst]. eapply canc_unwind_ok; [by apply popped_ok|by right].
Qed.

(** What [await_suspend] registers with the token. *)
Lemma register_view (k : kind) t w s :
  let '(id, s1) := match k with Op false => (0, s) | _ => register t w s end in
  let c := t && bool_decide (k <> Op false) in
  s1 = with_tok (if c then Token (cancelled (tok s)) id (callbacks (tok s) ++ [(id, w)]) else tok s) s /\
  id = if c then u64 (next_id (tok s) + 1) else 0.
Proof.
  assert (with_tok (tok s) s = s) as E1 by (by destruct s). unfold register.
  destruct k as [|[]| |]; destruct t; simpl; rewrite ?E1; try done.
Qed.

(** The state with the new coroutine, before a deadline that has passed schedules it. *)
Lemma await_new_ok k t p s (c : bool) id :
  let w := fresh s in
  let late := match k with Deadline true => true | _ => false end in
  let helper := match k with Check | Deadline true => false | _ => true end in
  let tk := if c then Token (cancelled (tok s)) id (callbacks (tok s) ++ [(id, w)]) else tok s in
  ok [] None None s -> match p with None => True | Some p => wraps p s = true end ->
  c = t && bool_decide (k <> Op false) -> id = (if c then next_id (tok s) + 1 else 0) -> next_id (tok s) < 2 ^ 64 - 1 ->
  (c = true -> cancelled (tok s) = false) ->
  ok [] None (if late then Some w else None)
    (Sys tk (<[w := Aw t id p]> (aw s)) (<[w := Shared k late helper None 0]> (shared s)) (if helper then {[w]} ∪ helpers s else helpers s)
       (ready s) (w + 1) (wild s) (wakes s)).
Proof.
  intros w late helper tk O Hp Hc Hid Hlt Hcan. pose proof O as [].
  assert (shared s !! w = None) as Hsw by (destruct (shared s !! w) eqn:Ex; [apply o_fresh in Ex; unfold w in Ex; lia|done]).
  assert (aw s !! w = None) as Haw by (destruct (aw s !! w) as [a|] eqn:Ex; [pose proof (b_fresh _ o_base w a Ex); unfold w in *; lia|done]).
  assert (cancelled tk = cancelled (tok s)) as Et by (unfold tk; by destruct c).
  assert (forall q, q ∈ callbacks tk <-> q ∈ callbacks (tok s) \/ (c = true /\ q = (id, w))) as Hcb.
  { intros q. unfold tk. destruct c; simpl; [rewrite elem_of_app, list_elem_of_singleton; naive_solver|naive_solver]. }
  assert (next_id (tok s) <= next_id tk < 2 ^ 64) as Hni by (unfold tk; destruct c; simpl; lia).
  assert (0 <= id <= next_id tk) as Hidr by (unfold tk; destruct c; simpl; lia).
  assert (forall v, v ∈ (if helper then {[w]} ∪ helpers s else helpers s) <-> v ∈ helpers s \/ (v = w /\ helper = true)) as Hhs.
  { intros v. generalize helper as h. intros []; [rewrite elem_of_union, elem_of_singleton; tauto|naive_solver]. }
  set (A := <[w := Aw t id p]> (aw s)). set (S := <[w := Shared k late helper None 0]> (shared s)).
  assert (forall v a, A !! v = Some a -> (v = w /\ a = Aw t id p) \/ (v <> w /\ aw s !! v = Some a)) as HA.
  { intros v a [[<- <-]|[Hn Ha]]%lookup_insert_Some; [by left|right; by split]. }
  assert (forall v x, S !! v = Some x -> (v = w /\ x = Shared k late helper None 0) \/ (v <> w /\ shared s !! v = Some x)) as HS.
  { intros v x [[<- <-]|[Hn Hx]]%lookup_insert_Some; [by left|right; by split]. }
  assert (A !! w = Some (Aw t id p) /\ S !! w = Some (Shared k late helper None 0)) as [HAw HSw] by (split; apply lookup_insert_eq).
  assert (forall v a, aw s !! v = Some a -> A !! v = Some a) as HA' by (intros v a Hv; unfold A; rewrite lookup_insert_ne; congruence).
  assert (forall v x, shared s !! v = Some x -> S !! v = Some x) as HS' by (intros v x Hv; unfold S; rewrite lookup_insert_ne; congruence).
  split; simpl; rewrite ?Et; try done.
  - destruct o_base. split; simpl.
    + intros v a [[-> ->]|[Hn Hv]]%HA; [eauto|]. destruct (b_shared v a Hv). eauto.
    + intros v [Hv'|[-> Hh]]%Hhs.
      * destruct (b_helpers v Hv') as (x & Hx & ?). eauto.
      * eexists. split; [exact HSw|]. simpl. unfold late, helper in *. destruct k as [| | |[]]; done.
    + intros i v [Hq|[Hc' [= -> ->]]]%Hcb; [destruct (b_cb i v Hq) as (? & a & ? & ?); eauto|].
      rewrite Hc' in Hid. split; [lia|]. eexists. split; [exact HAw|]. split; [done|]. simpl. rewrite Hc in Hc'. by apply andb_true_iff in Hc' as [-> _].
    + intros i v v' a [Hq|[Hc' [= -> ->]]]%Hcb [[-> ->]|[Hn Hv]]%HA Hi; simpl in Hi; [|by eapply b_inj| |].
      * exfalso. destruct (b_cb i v Hq) as (Hi0 & b & Hb & Hbi & _). pose proof (o_cid v b Hb). destruct c; lia.
      * done.
      * exfalso. pose proof (o_cid v' a Hv). rewrite Hc' in Hid. lia.
    + unfold tk. destruct c; [|done]. simpl. rewrite fmap_app. apply NoDup_app. split_and!; [done| |apply NoDup_singleton].
      intros i Hi Hi'. apply list_elem_of_singleton in Hi' as ->. apply list_elem_of_fmap in Hi as ([i v] & Hi & Hin). simpl in Hi. subst i.
      destruct (b_cb id v Hin) as (_ & b & Hb & Hbi & _). pose proof (o_cid v b Hb). lia.
    + intros v a q [[-> ->]|[Hn Hv]]%HA Hq; [|eauto]. simpl in Hq. subst p. unfold wraps in Hp.
      destruct (aw s !! q) as [b|] eqn:Hb; [|done]. pose proof (b_fresh q b Hb). unfold w. lia.
    + intros v a [[-> ->]|[Hn Hv]]%HA; [unfold w; lia|]. pose proof (b_fresh v a Hv). unfold w. lia.
  - unfold w. lia.
  - intros v x [[-> ->]|[Hn Hv]]%HS; [lia|]. apply o_fresh in Hv. unfold w. lia.
  - intros v x [[-> ->]|[Hn Hv]]%HS Hd; [eauto|]. destruct (o_live v x Hv Hd). eauto.
  - assert (forall q, wraps q s = true -> wraps q (Sys tk A S (if helper then {[w]} ∪ helpers s else helpers s) (ready s) (w + 1) (wild s) (wakes s)) = true) as Hwr.
    { intros q. unfold wraps. simpl. destruct (aw s !! q) as [b|] eqn:Hb; [|done]. destruct (shared s !! q) as [y|] eqn:Hy; [|done].
      by rewrite (HA' q b Hb), (HS' q y Hy). }
    intros v a q [[-> ->]|[Hn Hv]]%HA Hq; [simpl in Hq; subst p; by left; apply Hwr|].
    destruct (o_parent v a q Hv Hq) as [|[=]]. left. by apply Hwr.
  - intros v a x [[-> ->]|[Hn Hv]]%HA [[? ->]|[Hn' Hx]]%HS Hk; try done; [|eauto]. simpl in Hk. unfold late. by rewrite Hk.
  - intros v a x [[-> ->]|[Hn Hv]]%HA [[? ->]|[Hn' Hx]]%HS Hk; try done.
    + simpl in *. unfold late, helper in *. destruct k as [| | |[]]; try done; try (apply Hhs; by right). by right.
    + specialize (o_wait v a x Hv Hx Hk). destruct (done x); [destruct o_wait as [|[=]]; by left|].
      apply Hhs. by left.
  - intros v Hv. destruct (o_ready v Hv) as (a & x & ? & ? & ?). eauto 10.
  - intros v a x [[-> ->]|[Hn Hv]]%HA [[? ->]|[Hn' Hx]]%HS Ht Hk Hcn; try done; apply Hcb; [right|left; eauto].
    simpl in *. subst t. rewrite Hc, bool_decide_true by done. done.
  - intros Hcn. unfold tk. destruct c; [|by apply o_cancel]. specialize (Hcan eq_refl). congruence.
  - intros v a x Hcn [[-> ->]|[Hn Hv]]%HA [[? ->]|[Hn' Hx]]%HS Ht Hk; try done.
    + simpl in *. subst t. rewrite bool_decide_true in Hc by done. specialize (Hcan Hc). congruence.
    + destruct (o_woken v a x Hcn Hv Hx Ht Hk) as [|[|[=]]]; [by left|by right; left].
  - intros v [Hv|Hv]; [by apply not_elem_of_nil in Hv|]. apply list_elem_of_fmap in Hv as ([i v'] & -> & [Hq|[Hc' [= -> ->]]]%Hcb); simpl.
    + destruct (o_hooks v') as (x & Hx & Hk & Ht); [right; apply list_elem_of_fmap; by exists (i, v')|].
      exists x. split; [by apply HS'|]. split; [done|]. intros a [[-> ->]|[Hn Ha]]%HA; [congruence|auto].
    + rewrite Hc in Hc'. apply andb_true_iff in Hc' as [Ht Hk%bool_decide_eq_true]. eexists. split; [exact HSw|]. split; [done|].
      intros a Ha. rewrite HAw in Ha. by injection Ha as <-.
  - lia.
  - intros v a [[-> ->]|[Hn Hv]]%HA; [done|]. pose proof (o_cid v a Hv). lia.
  - destruct o_wakes as [Hn Hv]. split; [done|]. intros v Hin. destruct (Hv v Hin) as (x & Hx & ?). eauto.
  - intros v a x t' [[-> ->]|[Hn Hv]]%HA [[? ->]|[Hn' Hx]]%HS Hk Hd; try done; [|eauto]. simpl in *. unfold late in Hd. by rewrite Hk in Hd.
  - intros v x [[-> ->]|[Hn Hv]]%HS; [by left|eauto].
Qed.

Lemma await_ok k t p s :
  ok [] None None s -> match p with None => True | Some p => wraps p s = true end -> next_id (tok s) < 2 ^ 64 - 1 ->
  await_ready k t s = false -> ok [] None None (await_suspend k t p s).
Proof.
  intros O Hp Hlt Hrd. unfold await_suspend. pose proof (register_view k t (fresh s) s) as Hreg.
  destruct (match k with Op false => _ | _ => _ end) as [id s1]. set (c := t && bool_decide (k <> Op false)) in *.
  destruct Hreg as [-> Hid]. pose proof (o_ids _ _ _ _ O) as Hi.
  assert (u64 (next_id (tok s) + 1) = next_id (tok s) + 1) as Hu by (unfold u64; rewrite Z.mod_small; lia). rewrite Hu in Hid.
  assert (c = true -> cancelled (tok s) = false) as Hcan.
  { unfold c. intros [-> Hk%bool_decide_eq_true]%andb_true_iff. unfold await_ready, is_cancelled in Hrd. destruct k as [|[]| |]; try done.
    by rewrite andb_true_r in Hrd. }
  pose proof (await_new_ok k t p s c id O Hp eq_refl Hid Hlt Hcan) as O1. cbv zeta in O1.
  cbn [with_tok tok aw shared helpers ready fresh wild wakes]. destruct k as [| | |[]]; try exact O1.
  eapply canc_schedule_ok; [exact O1|apply lookup_insert_eq|apply lookup_insert_eq| |by left].
  simpl. intros Hin. destruct (proj2 (o_wakes _ _ _ _ O) _ Hin) as (x & Hx & _). apply (o_fresh _ _ _ _ O) in Hx. lia.
Qed.

(** ** Executions *)

Lemma cancel_step_ok s o : ok [] None None s -> ok [] None None (step s o).
Proof.
  intros O. destruct o as [k t p|w r| | |w]; simpl.
  - destruct (match p with None => true | Some p => wraps p s end) eqn:Ep; simpl; [|done]. zcase; [|done].
    destruct (await_ready k t s) eqn:Er; [done|]. apply await_ok; try done. by destruct p.
  - case_decide as Hd; [|done]. destruct Hd. by apply helper_ends_ok.
  - by apply canc_cancel_ok.
  - by apply canc_resume_ok.
  - eapply canc_unwind_ok; [done|by left].
Qed.

Lemma cancel_run_ok ops : ok [] None None (run ops).
Proof.
  unfold run. pose proof (@new_ok V E) as O. revert O. generalize (@sys_new V E).
  induction ops as [|o ops IH]; intros s O; simpl; [done|]. by apply IH, cancel_step_ok.
Qed.

(** What a coroutine gets from the awaiter it is resumed from. *)
Lemma resume_got s w g :
  ok [] None None s -> (resume s).2 = Some (w, g) ->
  exists a x, aw s !! w = Some a /\ shared s !! w = Some x /\
  match sh_kind x with
  | Check => g = GotCancelled
  | Sleep => g = if has_token a && cancelled (tok s) then GotCancelled else GotUnit
  | Op throw => if has_token a && cancelled (tok s) && throw then g = GotCancelled else exists r, result x = Some r /\ g = GotOutcome r
  | Deadline _ => g = GotInt 0 \/ (g = GotInt 1 /\ cancelled (tok s) = true)
  end.
Proof.
  intros O. unfold resume. destruct (ready s) as [|v q] eqn:Er; [done|].
  destruct (o_ready _ _ _ _ O v) as (a & x & Ha & Hx & Hc); [rewrite Er; apply list_elem_of_here|]. cbn [aw shared]. rewrite Ha, Hx.
  cbn [snd]. intros [= <- <-]. exists a, x. split; [done|]. split; [done|]. unfold await_resume, is_cancelled. cbn [tok].
  destruct (sh_kind x) as [|t| |l] eqn:Ek.
  - destruct Hc as [Hd|(_ & -> & ->)]; [|done]. pose proof (o_check _ _ _ _ O v a x Ha Hx Ek). congruence.
  - destruct (has_token a && cancelled (tok s) && t) eqn:Ec; [done|].
    assert (done x = true) as Hd by (destruct Hc as [|[? _]]; congruence).
    destruct (o_result _ _ _ _ O v a x t Ha Hx Ek Hd) as [[r ->]|(H1 & H2 & H3)]; [eauto|]. by rewrite H1, H2, H3 in Ec.
  - done.
  - destruct (o_code _ _ _ _ O v x Hx) as [->|[-> ?]]; auto.
Qed.

(** C24: cancellable operations, in every order of awaits, endings, cancellation, resumptions and
    destruction. No coroutine whose frame is gone is ever scheduled, and none is scheduled twice for one
    await. A helper (the runner of a wrapped task, or a timer) belongs to a coroutine that is parked and
    waits, so none outlives its await, and the token keeps one hook for each parked coroutine at most. When
    the token is cancelled every parked coroutine that listens to it is in the ready queue; every other one
    that is parked has a helper that will wake it, or waits for cancellation. A coroutine that is resumed
    gets a [cancelled_error] exactly when its token is cancelled and its awaiter throws, otherwise what the
    task gave, and never the [logic_error] of a task that gave nothing. *)
Theorem cancellation_contract (ops : list op) :
  let s := @run V E ops in
  wild s = false /\ NoDup (wakes s) /\
  (forall w, w ∈ helpers s -> exists a x, aw s !! w = Some a /\ shared s !! w = Some x /\ done x = false) /\
  (NoDup (callbacks (tok s)).*2 /\ forall id w, (id, w) ∈ callbacks (tok s) -> is_Some (aw s !! w)) /\
  (forall w a x, aw s !! w = Some a -> shared s !! w = Some x ->
     (cancelled (tok s) = true /\ has_token a = true /\ sh_kind x <> Op false -> w ∈ ready s) /\
     (w ∈ ready s \/ w ∈ helpers s \/ sh_kind x = Check)) /\
  (forall w g, (resume s).2 = Some (w, g) ->
     exists a x, aw s !! w = Some a /\ shared s !! w = Some x /\
     match sh_kind x with
     | Check => g = GotCancelled
     | Sleep => g = if has_token a && cancelled (tok s) then GotCancelled else GotUnit
     | Op throw => if has_token a && cancelled (tok s) && throw then g = GotCancelled else exists r, result x = Some r /\ g = GotOutcome r
     | Deadline _ => g = GotInt 0 \/ (g = GotInt 1 /\ cancelled (tok s) = true)
     end).
Proof.
  intros s. pose proof (cancel_run_ok ops : ok [] None None s) as O. clearbody s. split_and!.
  - apply O.
  - apply O.
  - intros w Hw. destruct (b_helpers _ (o_base _ _ _ _ O) w Hw) as (x & Hx & Hd & _). destruct (o_live _ _ _ _ O w x Hx Hd) as [a Ha]. eauto.
  - apply hooks_nodup, O.
  - intros id w Hin. destruct (b_cb _ (o_base _ _ _ _ O) id w Hin) as (_ & a & Ha & _). eauto.
  - intros w a x Ha Hx. split.
    + intros (Hc & Ht & Hk). destruct (o_woken _ _ _ _ O w a x Hc Ha Hx Ht Hk) as [|[Hin|[=]]]; [done|]. by apply not_elem_of_nil in Hin.
    + destruct (decide (sh_kind x = Check)) as [|Hk]; [by right; right|]. pose proof (o_wait _ _ _ _ O w a x Ha Hx Hk) as Hw.
      destruct (done x); [destruct Hw as [|[=]]; by left|by right; left].
  - intros w g. by apply resume_got.
Qed.

(** A [with_deadline] whose timeout branch wins throws [timeout_error], and [cancelled_error] only when
    the token was cancelled. *)
Theorem with_deadline_error ops w z :
  (resume (@run V E ops)).2 = Some (w, GotInt z) ->
  with_deadline false (inr z : @outcome V E + Z) = inr TimeoutError \/
  (with_deadline false (inr z : @outcome V E + Z) = inr CancelledError /\ cancelled (tok (@run V E ops)) = true).
Proof.
  intros Hr. destruct (resume_got _ w _ (cancel_run_ok ops) Hr) as (a & x & _ & _ & Hg). destruct (sh_kind x) as [|t| |l]; try done.
  - destruct (_ && t); [done|]. by destruct Hg as (r & _ & ?).
  - by destruct (_ && _).
  - destruct Hg as [[= ->]|[[= ->] Hc]]; [by left|by right].
Qed.

End CancellationProps.

(** A coroutine awaits a wrapped task in which another sleeps; the cancellation ends the sleep with the
    task and wakes the first. *)
Lemma cancellation_contract_witness :
  let ops := [Await (Op true) true None; Await Sleep true (Some 0); Cancel] in
  wild (@run Z Z ops) = false /\ ready (@run Z Z ops) = [0] /\ helpers (@run Z Z ops) = ∅ /\ (resume (@run Z Z ops)).2 = Some (0, GotCancelled).
Proof.
  intros ops. split; [apply (cancellation_contract (V := Z) (E := Z) ops)|]. split_and!; vm_compute; reflexivity.
Defined.
